(* ===== verification/_CoqProject ===== *)
-Q . S2P
Prelude.v
Bithacks.v
PrioQueue.v
Barrier.v
Hash.v
InList.v
Locks.v
UMon.v
Double.v
EventQueue.v
MemHier.v
Prefetcher.v
Partition.v
TimingEvent.v
EventTree.v
CoreRecorder.v
BoundWeave.v
BoundWeaveInv.v
BoundWeavePort.v
BoundWeaveSim.v
BoundWeavePQ.v
BoundWeaveLoop.v
BoundWeaveSys.v
BoundWeaveThms.v
TimingCache.v
TimingCachePort.v
TimingCacheDag.v
TimingCacheInv.v
TimingCacheBuild.v
TimingCacheMiss.v
TimingCacheAccess.v
TimingCacheCore.v
TimingCacheThms.v
TimingCacheTerm.v
TimingCacheDrain.v
DDRMem.v
DDRTiming.v
DDRQueue.v
DDRInv.v
DDRSched.v
DDRThms.v
ReplPolicies.v
PartRepl.v
Vantage.v
CacheArrays.v
Coherence.v
CoherenceInv.v
CoherenceDown.v
CoherenceUp.v
CoherenceTop.v
CoherenceExample.v
CoherenceThms.v
InsWindow.v
OOOStructs.v
OOOCore.v
OOOCoreInv.v
OOOCoreThms.v
OOOTrace.v
OOOSystem.v
Scheduler.v
SchedulerInv.v
SchedulerPrim.v
SchedulerPhase.v
SchedulerOps.v
SchedulerSteps.v
SchedulerBar.v
SchedulerThms.v
