(* ===== verification/Prelude.v ===== *)
(** * zsim: a verification development

    zsim simulates x86-64 multicore systems.  It runs the simulated programs under
    Pin in phases of a fixed number of cycles: in a phase each simulated core executes
    the basic blocks of the thread that is scheduled on it and sends its memory
    accesses down a hierarchy of coherent caches (the bound phase); a phase barrier
    separates the phases, at whose end the scheduler and the event queues run; the
    weave phase then replays the recorded accesses as timing events, in which the
    detailed memory controllers take part.  This library models that core logic, which
    is the C++ code under src/src/, and proves what makes it correct.

    ** The parts and the files that model them

    - Prelude: results and failures ([panic], a failed [assert], an index out of range
      and too little fuel are values of [failure]), the state-and-error monad [M], its
      weakest precondition [wp] and the tactic [wp_steps], truncation to 32 and 64 bits
      ([u32], [u64]), array access with bounds, function update.
    - Bithacks (bithacks.h): MAX, MIN, maxN, minN, ilog2, isPow2.  Double: the IEEE
      double-precision operations that the partitioner and the memory controllers use.
    - PrioQueue (prio_queue.h): the priority queue of the contention simulator, with its
      occupancy words, intrusive lists and the map of far cycles, against a multiset of
      (cycle, object) pairs.
    - Barrier (barrier.h): the phase barrier: join, leave, sync, the end of a phase with
      its cleanup and shuffle.
    - Hash (hash.h, hash.cpp): the H3 family against its definition by rows, the SHA1
      family with its memoization, the identity family.
    - InList (intrusive_list.h): the intrusive doubly linked list on a heap of nodes.
    - Locks (locks.h): the futex and ticket locks as steps of the threads that use them.
    - UMon (utility_monitor.h, .cpp): the utility monitor against LRU stack distances.
    - Partition (partition_mapper.h, .cpp, monitor.cpp, partitioner.h,
      lookahead.cpp): partition mappers, monitors and the lookahead partitioner;
      PartRepl and Vantage (part_repl_policies.h): way partitioning and Vantage.
    - EventQueue (event_queue.h): the phase event queue and the adaptive event.
    - MemHier (memory_hierarchy.h, .cpp): requests, MESI states, flags and names.
    - Prefetcher (prefetcher.h, .cpp): the stream prefetcher.
    - TimingEvent (timing_event.h, .cpp, event_recorder.h): timing events and records;
      EventTree has the invariant of the graph of events.
    - CoreRecorder (core_recorder.h, .cpp, timing_core.h, .cpp, weave_md1_mem.h): the
      core recorder's state machine, the timing core that drives it, the weave-phase
      simple memory, and the stitching of records in the caches.
    - BoundWeave (contention_sim.h, .cpp): the contention simulator of one domain and the
      system of timing cores around it: joins, leaves, accesses, basic blocks, and the
      weave phase at the end of a phase.  BoundWeaveInv is the invariant of a core and its
      recorder; BoundWeavePort shows that the memory port keeps it, BoundWeaveSim and
      BoundWeaveLoop prove the weave loop over the interface [PQLaws] of a priority
      queue, which BoundWeavePQ shows of PrioQueue; BoundWeaveSys and BoundWeaveThms
      have the system and its theorems.
    - DDRMem (ddr_mem.h, .cpp): the DDR memory controller with its timing parameters,
      address mapping, queues, FR-FCFS scheduling, activation windows, refreshes and
      scheduling events.  DDRTiming has the cycle conversions, the timing constraints
      and the devices' invariant; DDRQueue, DDRInv and DDRSched those of the queues, of the
      controller and of the scheduling events; DDRThms has the theorems.
    - TimingCache (timing_cache.h, .cpp, breakdown_stats.h): the timing cache: the events
      that an access records in the bound phase, and in the weave phase the tag port, the
      MSHRs and the accesses that wait for one; controller and array are the class
      [CCArray], and [Sys] closes the system with an environment and a memory.
      TimingCachePort has the port against a reference that remembers every slot;
      TimingCacheDag the invariant [GI] of the event graph, TimingCacheInv the cache's
      invariant and the weave phase; TimingCacheBuild, TimingCacheMiss, TimingCacheAccess
      and TimingCacheCore the events of an access; TimingCacheTerm the measure of the weave
      phase; TimingCacheThms and TimingCacheDrain the theorems.
    - ReplPolicies (repl_policies.h) and CacheArrays (cache_arrays.h, .cpp): replacement
      policies behind one interface, set-associative and z-arrays that use it.
    - Coherence (coherence_ctrls.h, .cpp, cache.h, .cpp, filter_cache.h, mem_ctrls.cpp):
      the bottom and top MESI controllers, the cache's access and invalidate, the
      terminal cache's controller, the filter cache and the simple memory, over an
      arbitrary tree of caches with their locks.  CoherenceInv is the invariant of the
      hierarchy; CoherenceDown, CoherenceUp and CoherenceTop prove it of invalidations,
      of accesses and of the filter caches' loads and stores; CoherenceExample is a
      concrete hierarchy, and CoherenceThms has the theorems.
    - InsWindow, OOOStructs, OOOCore (ooo_core.h, .cpp): the instruction window, the
      reorder buffer, cycle queue and branch predictor, and the out-of-order core's [bbl]
      with fetch, issue, memory and retirement; OOOCoreInv and OOOCoreThms have its
      invariant and its proofs.  The core's memory ports are the class [CorePorts];
      OOOTrace puts a log between the core and its ports, which does not change what the
      core does, and computes the requests of a block; OOOSystem instantiates the ports with
      two filter caches of the coherent hierarchy and has the theorems.
    - Scheduler (scheduler.h, .cpp): threads, contexts, queues, hand-offs, sleeping, fake
      leaves, futex matching, masks, process cleanup and the watchdog, over the class
      [BarrierOps].  SchedulerInv has the laws that the scheduler needs of a barrier
      ([BarrierLaws]) and its invariant [GInv]; SchedulerPrim, SchedulerPhase,
      SchedulerOps and SchedulerSteps prove the invariant of the steps, of the end of a
      phase and of the operations; SchedulerBar shows that the phase barrier satisfies
      the laws, and SchedulerThms has the theorems.

    ** How code becomes definitions

    A C++ class is a record, an enumeration an inductive type, a method a function in
    [M] over the state that it changes; objects that point at one another live in a heap
    (caches, threads, events, list nodes).  Integers are [Z] with [u32] or [u64] written
    where the code's width can matter.  A loop is a [Fixpoint] on the list it walks or
    on fuel that its caller computes from the state (the size of the run list, of the
    sleep queue, of the window's blocks, the number of events for the weave loop), and
    the theorems show that the fuel suffices: their conclusions say that the operation
    returns, never only what holds if it does.  Cycles are bounded by hypotheses that keep
    2^64 out of reach: [cycle_limit] for the out-of-order core, 2^60 for the clocks of
    the bound-weave system (with fewer than 2^28 events and memory latencies below 2^20),
    2^39 for the DDR controller, which multiplies cycles by frequencies of 20 bits, and
    2^61 for the accesses and 2^62 for the events of the timing cache.  Host
    threads are modelled by sequences of lock sections: the barrier's and the scheduler's
    operations are atomic under schedLock and are split where the code releases it; the
    locks' own steps interleave; in the hierarchy one request runs at a time, with every
    lock and unlock and the order they are taken in as part of the state.  The random
    number generator, the SHA1 function, the network and the operating system's answers
    are parameters.

    ** What the theorems show

    - Hierarchy (CoherenceThms): any sequence of loads, stores and context switches runs
      without a failed assertion, a lock taken twice or a panic; one writer or many
      readers of a line; inclusion of the children in their parent's directory; what a
      miss, an invalidation, a request and an eviction do to the states, and that a miss
      is answered within the latency of the levels.
    - Scheduler (SchedulerThms): any sequence of operations that threads and the watchdog
      may call is safe, changes of affinity masks included (of a queued thread, only to
      contexts in use); the contexts, queues and masks agree, but for threads whose mask was
      changed while they were on a context, which keep it until they leave it; no context
      idles while a thread that may use it is queued; a core is in the barrier, and told to have
      joined, exactly when a thread runs on it; joins and leaves end where they should;
      the watchdog wakes every sleeper at its phase.  Three runs show where the code's
      assertions can fail.
    - Bound-weave (BoundWeaveThms): any sequence of phases of timing cores, with joins,
      leaves, accesses and basic blocks, is safe, the weave loop of each phase ends, and
      the weave phase only ever delays a core, by what its events were delayed.
    - DDR controller (DDRThms): any sequence of accesses, scheduling and refresh events in
      the order of their cycles is safe and loses no wakeup; the commands obey the
      devices' timing constraints; at most four activations of a rank in tFAW; each access
      gets one response, never earlier than the bound phase assumed.
    - Timing cache (TimingCachePort, TimingCacheThms, TimingCacheDrain): the port gives the
      slots that a port with a full memory would give; any sequence of accesses and
      weave-phase steps is safe, with at most the configured number of misses in flight
      and accesses that wait only while every MSHR is in use (an upgrade that has to
      invalidate children fails an assertion); an event is always ready while one is left;
      and the weave phase drains, in a number of steps that depends on the events, the
      lookups and the taken slots of the port, not on the cycles.
    - Barrier: no lost wake-up, at most the allowed number of running threads, and phases
      that end only when every thread inside has arrived.  Locks: mutual exclusion; a thread
      that waits for the futex lock gets it on every schedule once no new calls come; FIFO order of
      the ticket lock.
    - PrioQueue, InList: refinement of multisets and of sequences; EventQueue and
      TimingEvent: events fire on time, after their parents, once.
    - Hash: the unrolled H3 is the xor of the rows by a given formula, which is the loop of
      its comment on permuted rows and not on the same ones; memoization does not show.
    - Partitioning: the monitor's miss curve is that of LRU stacks; the partitioner's loop
      ends and allocates what it was given, more than the ways with two or more partitions;
      sizes and victims of the two policies.
    - Prefetcher, CacheArrays, ReplPolicies: safety of every access, the array finds what
      was inserted, the LRU policy's victim.
    - Core (InsWindow, OOOStructs, OOOSystem): the window gives the first free slot of an
      allowed port, retirement in order, the predictor learns, a basic block's uops all
      issue, commit and retire, the caches get its loads and stores, the wrong path and the
      next block's lines and nothing else, on the real hierarchy too.
    Theorems about failures (error behaviour) give the run on which the code breaks.

    ** Not modelled

    Statistics registration and output, configuration, Pin instrumentation and the
    process harness (input and output or third-party interfaces); the x86 decoder, whose
    uops are the core's input; the simple and null cores; domain crossings and the
    contention simulator's host threads (the weave phase is that of one domain); the
    M/D/1, detailed and DRAMSim memory models; the random replacement policy;
    shared-memory allocation.  Concurrent requests in the hierarchy are not interleaved. *)

From Stdlib Require Export ZArith Lia.
From stdpp Require Export base tactics list gmap numbers strings option.

#[global] Open Scope Z_scope.

(** ** Failures and the result type

    [panic(...)], a failed [assert]/[assert_msg] and an out-of-range access of
    the C++ code all stop the simulator; a model returns [Err].  [OutOfFuel] is
    the failure of the models themselves: a recursion that was given too little
    fuel.  The theorems show that neither happens. *)
Inductive failure : Type :=
| Panic (msg : string)
| OutOfFuel.

Inductive res (A : Type) : Type :=
| Ok (a : A)
| Err (f : failure).
Arguments Ok {A} a.
Arguments Err {A} f.

#[global] Instance res_ret : MRet res := fun A a => Ok a.
#[global] Instance res_bind : MBind res := fun A B k m =>
  match m with Ok a => k a | Err f => Err f end.

Definition is_ok {A} (m : res A) : bool :=
  match m with Ok _ => true | Err _ => false end.

(** [assert(b)] in a computation without state. *)
Definition rassert (b : bool) (msg : string) : res unit :=
  if b then Ok () else Err (Panic msg).

(** [from_opt o msg] reads a C array: an index past its end is a failure. *)
Definition from_opt {A} (o : option A) (msg : string) : res A :=
  match o with Some a => Ok a | None => Err (Panic msg) end.

(** C array reads and writes with their bounds. *)
Definition arr_get {A} (l : list A) (i : nat) : res A :=
  from_opt (l !! i) "array index out of range".
Definition arr_set {A} (l : list A) (i : nat) (x : A) : res (list A) :=
  if (i <? length l)%nat then Ok (<[i := x]> l) else Err (Panic "array index out of range").

(** ** The state-and-error monad of the stateful components *)
Definition M (S A : Type) : Type := S -> res (A * S).

#[global] Instance M_ret {S} : MRet (M S) := fun A a s => Ok (a, s).
#[global] Instance M_bind {S} : MBind (M S) := fun A B k m s =>
  match m s with Ok (a, s') => k a s' | Err f => Err f end.

Definition mget {S} : M S S := fun s => Ok (s, s).
Definition mgets {S A} (f : S -> A) : M S A := fun s => Ok (f s, s).
Definition mmodify {S} (f : S -> S) : M S unit := fun s => Ok (tt, f s).
Definition mfail {S A} (msg : string) : M S A := fun _ => Err (Panic msg).
Definition massert {S} (b : bool) (msg : string) : M S unit :=
  fun s => if b then Ok (tt, s) else Err (Panic msg).
Definition mlift {S A} (m : res A) : M S A :=
  fun s => match m with Ok a => Ok (a, s) | Err f => Err f end.

(** ** Total-correctness weakest preconditions

    [wp m Q s]: from [s], [m] returns normally (no panic, no failed assertion,
    enough fuel) and its result and final state satisfy [Q]. *)
Definition wp {S A} (m : M S A) (Q : A -> S -> Prop) (s : S) : Prop :=
  match m s with Ok (a, s') => Q a s' | Err _ => False end.

Definition rwp {A} (m : res A) (Q : A -> Prop) : Prop :=
  match m with Ok a => Q a | Err _ => False end.

Section Wp.
Context {S : Type}.

Lemma wp_ret {A} (a : A) Q (s : S) : Q a s -> wp (mret a) Q s.
Proof. done. Qed.

Lemma wp_bind {A B} (m : M S A) (k : A -> M S B) Q s :
  wp m (fun a s' => wp (k a) Q s') s -> wp (m ≫= k) Q s.
Proof. unfold wp, mbind, M_bind. by destruct (m s) as [[a s']|]. Qed.

Lemma wp_bind_inv {A B} (m : M S A) (k : A -> M S B) Q s :
  wp (m ≫= k) Q s -> wp m (fun a s' => wp (k a) Q s') s.
Proof. unfold wp, mbind, M_bind. by destruct (m s) as [[a s']|]. Qed.

Lemma wp_mono {A} (m : M S A) (Q Q' : A -> S -> Prop) s :
  wp m Q s -> (forall a s', Q a s' -> Q' a s') -> wp m Q' s.
Proof. unfold wp. destruct (m s) as [[a s']|]; naive_solver. Qed.

Lemma wp_get Q (s : S) : Q s s -> wp mget Q s.
Proof. done. Qed.

Lemma wp_gets {A} (f : S -> A) Q (s : S) : Q (f s) s -> wp (mgets f) Q s.
Proof. done. Qed.

Lemma wp_modify (f : S -> S) (Q : unit -> S -> Prop) s :
  Q tt (f s) -> wp (mmodify f) Q s.
Proof. done. Qed.

Lemma wp_assert b msg (Q : unit -> S -> Prop) s :
  b = true -> Q tt s -> wp (massert b msg) Q s.
Proof. by intros ->. Qed.

Lemma wp_lift {A} (m : res A) Q (s : S) :
  rwp m (fun a => Q a s) -> wp (mlift m) Q s.
Proof. by destruct m. Qed.

Lemma wp_elim {A} (m : M S A) Q s :
  wp m Q s -> exists a s', m s = Ok (a, s') /\ Q a s'.
Proof. unfold wp. destruct (m s) as [[a s']|]; naive_solver. Qed.

Lemma wp_conj {A} (m : M S A) (Q Q' : A -> S -> Prop) s :
  wp m Q s -> wp m Q' s -> wp m (fun a s' => Q a s' /\ Q' a s') s.
Proof. unfold wp. destruct (m s) as [[a s']|]; naive_solver. Qed.
End Wp.

Lemma rwp_elim {A} (m : res A) Q : rwp m Q -> exists a, m = Ok a /\ Q a.
Proof. destruct m; naive_solver. Qed.

Lemma rwp_ok {A} (m : res A) (Q : A -> Prop) a : m = Ok a -> Q a -> rwp m Q.
Proof. by intros ->. Qed.

Lemma arr_get_lt {A} (l : list A) i :
  (i < length l)%nat -> exists x, l !! i = Some x /\ arr_get l i = Ok x.
Proof.
  intros Hi. destruct (lookup_lt_is_Some_2 l i Hi) as [x Hx].
  exists x. unfold arr_get. by rewrite Hx.
Qed.

Lemma arr_get_Some {A} (l : list A) i x : l !! i = Some x -> arr_get l i = Ok x.
Proof. unfold arr_get. by intros ->. Qed.

Lemma arr_set_lt {A} (l : list A) i x :
  (i < length l)%nat -> arr_set l i x = Ok (<[i := x]> l).
Proof. intros Hi. unfold arr_set. by rewrite (proj2 (Nat.ltb_lt _ _) Hi). Qed.

Lemma wp_arr_get_lt {S A} (l : list A) (i : nat) (Q : A -> S -> Prop) (s : S) `{!Inhabited A} :
  (i < length l)%nat -> Q (l !!! i) s -> wp (mlift (arr_get l i)) Q s.
Proof.
  intros Hi HQ. destruct (arr_get_lt l i Hi) as (x&Hx&E). unfold wp, mlift. rewrite E.
  by rewrite <- (list_lookup_total_correct _ _ _ Hx).
Qed.
Lemma wp_arr_set_lt {S A} (l : list A) (i : nat) (x : A) (Q : list A -> S -> Prop) (s : S) :
  (i < length l)%nat -> Q (<[i := x]> l) s -> wp (mlift (arr_set l i x)) Q s.
Proof. intros Hi HQ. unfold wp, mlift. by rewrite arr_set_lt. Qed.

(** One step of symbolic execution of a monadic program. *)
Ltac wp_step :=
  lazymatch goal with
  | |- wp (mbind _ _) _ _ => apply wp_bind
  | |- wp (mret _) _ _ => apply wp_ret
  | |- wp mget _ _ => apply wp_get
  | |- wp (mgets _) _ _ => apply wp_gets
  | |- wp (mmodify _) _ _ => apply wp_modify
  end.
Ltac wp_steps := repeat wp_step.

(** ** Machine integers: unsigned arithmetic with its wrap-around *)
Definition u8 (x : Z) : Z := x mod 256.
Definition two32 : Z := 4294967296.
Definition two64 : Z := 18446744073709551616.
Definition u32 (x : Z) : Z := x mod two32.
Definition u64 (x : Z) : Z := x mod two64.

Lemma u8_small x : 0 <= x < 256 -> u8 x = x.
Proof. intros. by apply Z.mod_small. Qed.
Lemma u64_small x : 0 <= x < two64 -> u64 x = x.
Proof. intros. by apply Z.mod_small. Qed.
Lemma u32_small x : 0 <= x < two32 -> u32 x = x.
Proof. intros. by apply Z.mod_small. Qed.
Lemma u64_range x : 0 <= u64 x < two64.
Proof. by apply Z.mod_pos_bound. Qed.
Lemma u32_range x : 0 <= u32 x < two32.
Proof. by apply Z.mod_pos_bound. Qed.

(** ** Total functions as stores *)
Definition upd {A} (f : nat -> A) (i : nat) (x : A) : nat -> A :=
  fun j => if decide (i = j) then x else f j.

Lemma upd_eq {A} (f : nat -> A) i x : upd f i x i = x.
Proof. unfold upd. by case_decide. Qed.
Lemma upd_ne {A} (f : nat -> A) i j x : i <> j -> upd f i x j = f j.
Proof. intros. unfold upd. by case_decide. Qed.

(** ** Counting the elements of a list that satisfy [f] *)
Fixpoint cnt {P} (f : P -> bool) (l : list P) : nat :=
  match l with
  | [] => 0
  | p :: l => (if f p then 1 else 0) + cnt f l
  end.

Section Cnt.
Context {P : Type} (f : P -> bool).

Lemma cnt_insert (l : list P) t p p' : l !! t = Some p ->
  (cnt f (<[t := p']> l) + (if f p then 1 else 0) = cnt f l + (if f p' then 1 else 0))%nat.
Proof.
  revert t. induction l as [|q l IH]; intros [|t] E; simplify_eq/=; [lia|].
  specialize (IH _ E). lia.
Qed.

Lemma cnt_pos (l : list P) t p : l !! t = Some p -> f p = true -> (0 < cnt f l)%nat.
Proof.
  revert t. induction l as [|q l IH]; intros [|t] E Hf; simplify_eq/=; [rewrite Hf; lia|].
  specialize (IH _ E Hf). lia.
Qed.

Lemma cnt_ex (l : list P) : (0 < cnt f l)%nat -> exists t p, l !! t = Some p /\ f p = true.
Proof.
  induction l as [|q l IH]; cbn; [lia|]. destruct (f q) eqn:E; [by exists O, q|].
  intros H. destruct IH as (t&p&?&?); [lia|]. by exists (S t), p.
Qed.

Lemma cnt_two (l : list P) t u p q : l !! t = Some p -> l !! u = Some q ->
  f p = true -> f q = true -> (cnt f l <= 1)%nat -> t = u.
Proof.
  revert t u. induction l as [|r l IH]; intros [|t] [|u] Et Eu Hp Hq H; simplify_eq/=; [done| | |].
  - pose proof (cnt_pos _ _ _ Eu Hq). rewrite Hp in H. lia.
  - pose proof (cnt_pos _ _ _ Et Hp). rewrite Hq in H. lia.
  - f_equal. eapply IH; eauto. lia.
Qed.

Lemma cnt_replicate n p : f p = false -> cnt f (replicate n p) = O.
Proof. intros H. induction n; cbn; [done|]. by rewrite H. Qed.
End Cnt.

(** ** Sums of integers *)
Definition zsum (l : list Z) : Z := foldr Z.add 0 l.

Lemma zsum_insert l i h x : l !! i = Some h -> zsum (<[i := x]> l) = zsum l + x - h.
Proof.
  revert i. induction l as [|y l IH]; intros [|i] E; simplify_eq/=; [lia|].
  specialize (IH _ E). fold (zsum (<[i := x]> l)) (zsum l) in *. lia.
Qed.

Lemma zsum_nonneg l : Forall (fun x => 0 <= x) l -> 0 <= zsum l.
Proof. unfold zsum. induction 1; cbn; lia. Qed.

Lemma zsum_elem l i x : Forall (fun x => 0 <= x) l -> l !! i = Some x -> x <= zsum l.
Proof.
  revert i. induction l as [|y l IH]; intros [|i] H E; simplify_eq/=;
    apply list.Forall_cons in H as [Hy Hl].
  - pose proof (zsum_nonneg l Hl). unfold zsum in *. lia.
  - specialize (IH _ Hl E). unfold zsum in *. lia.
Qed.

(** ** The development's automation *)
Create HintDb zsim.
Create Rewrite HintDb zsim.
#[export] Hint Resolve u64_range u32_range : zsim.
#[export] Hint Rewrite @upd_eq : zsim.
