(* ===== verification/PrioQueue.v ===== *)
(** * The event priority queue (src/src/prio_queue.h)

    A circular array of [B] blocks of 64 cycles with intrusive per-cycle lists,
    and a multimap for the elements beyond them.  It implements a map from
    objects to cycles from which the earliest is removed. *)

From Stdlib Require Import Sorted.
From S2P Require Import Prelude Bithacks.

(** [__builtin_ctzl]: undefined on 0. *)
Fixpoint pos_ctz (p : positive) : nat :=
  match p with xO p => Datatypes.S (pos_ctz p) | _ => O end.
Definition builtin_ctzl (x : Z) : nat := match x with Zpos p => pos_ctz p | _ => O end.

Module PQ.

Record PQBlock := mkBlock {
  array : list (option nat);   (** 64 list heads; objects are identifiers *)
  occ : Z                      (** bit i is 1 if array[i] is populated *)
}.

(** The queue, with the [next] pointers of all objects. *)
Record t := mk {
  blocks : list PQBlock;
  feMap : list (Z * nat);      (** in the order of the multimap's iterators *)
  curBlock : Z;
  elems : Z;
  next : nat -> option nat
}.

Definition init_block : PQBlock := mkBlock (replicate 64 None) 0.
Definition init (B : nat) (next : nat -> option nat) : t := mk (replicate B init_block) [] 0 0 next.

Section Ops.
Context (B : nat).

Definition set_block (q : t) (i : nat) (b : PQBlock) : t :=
  mk (<[i := b]> (blocks q)) (feMap q) (curBlock q) (elems q) (next q).
Definition set_next (q : t) (o : nat) (n : option nat) : t :=
  mk (blocks q) (feMap q) (curBlock q) (elems q) (upd (next q) o n).
Definition set_feMap (q : t) (f : list (Z * nat)) : t :=
  mk (blocks q) f (curBlock q) (elems q) (next q).
Definition set_curBlock (q : t) (c : Z) : t := mk (blocks q) (feMap q) c (elems q) (next q).
Definition set_elems (q : t) (e : Z) : t := mk (blocks q) (feMap q) (curBlock q) e (next q).

(** [PQBlock::enqueue] on [blocks[i]]. *)
Definition block_enqueue (obj i pos : nat) : M t unit := fun q =>
  b ← arr_get (blocks q) i;
  _ ← rassert (bool_decide (next q obj = None)) "!obj->next";
  head ← arr_get (array b) pos;
  let b' := mkBlock (<[pos := Some obj]> (array b)) (Z.lor (occ b) (Z.shiftl 1 (Z.of_nat pos))) in
  Ok (tt, set_block (set_next q obj head) i b').

(** [PQBlock::dequeue] on [blocks[i]]: the object and the offset. *)
Definition block_dequeue (i : nat) : M t (nat * nat) := fun q =>
  b ← arr_get (blocks q) i;
  _ ← rassert (negb (occ b =? 0)) "occ";
  let pos := builtin_ctzl (occ b) in
  head ← arr_get (array b) pos;
  o ← from_opt head "null object";
  let nx := next q o in
  let b' := mkBlock (<[pos := nx]> (array b))
              (if nx is None then Z.lxor (occ b) (Z.shiftl 1 (Z.of_nat pos)) else occ b) in
  Ok ((o, pos), set_block (set_next q o None) i b').

(** [std::multimap::insert]: after the elements with the same key. *)
Fixpoint fe_insert (f : list (Z * nat)) (c : Z) (o : nat) : list (Z * nat) :=
  match f with
  | [] => [(c, o)]
  | (c', o') :: f' => if c <? c' then (c, o) :: f else (c', o') :: fe_insert f' c o
  end.

Definition blockIdx (absBlock : Z) : nat := Z.to_nat (absBlock mod Z.of_nat B).

Definition enqueue (obj : nat) (cycle : Z) : M t unit :=
  q ← mget;
  let absBlock := cycle / 64 in
  massert (curBlock q <=? absBlock) "absBlock >= curBlock";;
  (if absBlock <? u64 (curBlock q + Z.of_nat B)
   then block_enqueue obj (blockIdx absBlock) (Z.to_nat (cycle mod 64))
   else mmodify (fun q => set_feMap q (fe_insert (feMap q) cycle obj)));;
  mmodify (fun q => set_elems q (u64 (elems q + 1))).

(** The loop that moves the far elements below [topCycle], from the iterator's
    position [f]; it returns the iterator's last position. *)
Fixpoint move_far (topCycle : Z) (f : list (Z * nat)) : M t (list (Z * nat)) :=
  match f with
  | (cycle, obj) :: f' =>
    if cycle <? topCycle then
      q ← mget;
      let absBlock := cycle / 64 in
      massert (curBlock q <=? absBlock) "absBlock >= curBlock";;
      massert (absBlock <? u64 (curBlock q + Z.of_nat B)) "absBlock < curBlock + B";;
      block_enqueue obj (blockIdx absBlock) (Z.to_nat (cycle mod 64));;
      move_far topCycle f'
    else mret f
  | [] => mret []
  end.

(** The body of the [while] in [dequeue]: go to the next block. *)
Definition advance : M t unit :=
  mmodify (fun q => set_curBlock q (u64 (curBlock q + 1)));;
  q ← mget;
  if (curBlock q mod Z.of_nat (B / 2) =? 0) && negb (bool_decide (feMap q = []))
  then it ← move_far (u64 ((curBlock q + Z.of_nat B) * 64)) (feMap q);
       mmodify (fun q => set_feMap q it)
  else mret tt.

Fixpoint seek (fuel : nat) : M t unit :=
  match fuel with
  | O => fun _ => Err OutOfFuel
  | Datatypes.S fuel' =>
    q ← mget;
    b ← mlift (arr_get (blocks q) (blockIdx (curBlock q)));
    if occ b =? 0 then advance;; seek fuel' else mret tt
  end.

(** The object and [deqCycle]. *)
Definition dequeue (fuel : nat) : M t (nat * Z) :=
  q ← mget;
  massert (negb (elems q =? 0)) "elems";;
  seek fuel;;
  q ← mget;
  '(o, offset) ← block_dequeue (blockIdx (curBlock q));
  mmodify (fun q => set_elems q (u64 (elems q - 1)));;
  mret (o, u64 (curBlock q * 64 + Z.of_nat offset)).

Definition size (q : t) : Z := elems q.

(** The loops of [firstCycle] over block offsets [i, i + n): the first populated
    block's first cycle. *)
Fixpoint first_occ (q : t) (i n : nat) : res (option Z) :=
  match n with
  | O => Ok None
  | Datatypes.S n' =>
    b ← arr_get (blocks q) (blockIdx (curBlock q + Z.of_nat i));
    if occ b =? 0 then first_occ q (Datatypes.S i) n'
    else Ok (Some (u64 ((curBlock q + Z.of_nat i) * 64 + Z.of_nat (builtin_ctzl (occ b)))))
  end.

Definition firstCycle (q : t) : res Z :=
  _ ← rassert (negb (elems q =? 0)) "elems";
  near ← first_occ q 0 (B / 2);
  match near with
  | Some c => Ok c
  | None =>
    later ← first_occ q (B / 2) (B - B / 2);
    match later with
    | Some c => match feMap q with [] => Ok c | (c', _) :: _ => Ok (MIN c c') end
    | None => '(c', _) ← from_opt (head (feMap q)) "feMap.begin() of an empty map"; Ok c'
    end
  end.
End Ops.

(** ** Bits *)
Lemma pos_ctz_spec p : Z.testbit (Zpos p) (Z.of_nat (pos_ctz p)) = true /\
  forall j, 0 <= j < Z.of_nat (pos_ctz p) -> Z.testbit (Zpos p) j = false.
Proof.
  induction p as [p IH|p IH|]; simpl pos_ctz.
  - split; [done|]. intros j Hj. lia.
  - destruct IH as [IH1 IH2]. rewrite (Pos2Z.inj_xO p), Nat2Z.inj_succ. split.
    + rewrite Z.testbit_even_succ by lia. done.
    + intros j Hj. destruct (decide (j = 0)) as [->|Hne]; [apply Z.testbit_even_0|].
      replace j with (Z.succ (j - 1)) by lia. rewrite Z.testbit_even_succ by lia. apply IH2. lia.
  - split; [done|]. intros j Hj. lia.
Qed.

Lemma ctzl_spec x : 0 < x < two64 -> Z.testbit x (Z.of_nat (builtin_ctzl x)) = true /\
  (builtin_ctzl x < 64)%nat /\ forall j, 0 <= j < Z.of_nat (builtin_ctzl x) -> Z.testbit x j = false.
Proof.
  intros [Hp Hb]. destruct x as [|p|p]; try lia. unfold builtin_ctzl.
  destruct (pos_ctz_spec p) as [H1 H2]. split_and!; try done.
  destruct (decide (pos_ctz p < 64)%nat) as [|Hge]; [done|exfalso].
  rewrite Z.bits_above_log2 in H1; [done|lia|].
  assert (Z.log2 (Zpos p) < 64); [|lia]. apply Z.log2_lt_pow2; [lia|done].
Qed.

Lemma bits_lt x : 0 <= x -> (forall j, 64 <= j -> Z.testbit x j = false) -> x < two64.
Proof.
  intros Hx Hb. destruct (decide (x = 0)) as [->|]; [done|].
  apply (Z.log2_lt_pow2 _ 64); [lia|].
  destruct (decide (Z.log2 x < 64)) as [|Hge]; [done|].
  specialize (Hb (Z.log2 x) ltac:(lia)). by rewrite Z.bit_log2 in Hb by lia.
Qed.
Lemma bits_above x j : 0 <= x < two64 -> 64 <= j -> Z.testbit x j = false.
Proof.
  intros Hx Hj. destruct (decide (x = 0)) as [->|]; [apply Z.bits_0|].
  apply Z.bits_above_log2; [lia|]. assert (Z.log2 x < 64); [|lia]. apply Z.log2_lt_pow2; [lia|exact (proj2 Hx)].
Qed.
Lemma bit_1shl p j : 0 <= p -> Z.testbit (Z.shiftl 1 p) j = bool_decide (j = p).
Proof.
  intros Hp. destruct (decide (j < 0)) as [Hj|Hj].
  { rewrite Z.testbit_neg_r, bool_decide_eq_false_2 by lia. done. }
  rewrite Z.shiftl_spec by lia. case_bool_decide as Hd.
  - subst. by rewrite Z.sub_diag.
  - destruct (decide (j < p)); [apply Z.testbit_neg_r; lia|]. apply Z.bits_above_log2; [lia|]. cbn. lia.
Qed.

(** ** The invariant *)
Fixpoint chain (nxt : nat -> option nat) (h : option nat) (l : list nat) : Prop :=
  match l with
  | [] => h = None
  | o :: l' => h = Some o /\ chain nxt (nxt o) l'
  end.

Lemma chain_upd nxt o n h l : o ∉ l -> chain nxt h l -> chain (upd nxt o n) h l.
Proof.
  revert h. induction l as [|o' l IH]; intros h Ho; simpl; [done|].
  apply not_elem_of_cons in Ho as [Hne Ho]. intros [-> Hc]. split; [done|].
  rewrite upd_ne by done. by apply IH.
Qed.

Definition updZ {X} (f : Z -> X) (c : Z) (x : X) : Z -> X := fun c' => if decide (c' = c) then x else f c'.

Section Inv.
Context (B : nat) (HB : (2 <= B)%nat) (HB2 : Nat.Even B).
Implicit Types (q : t) (near : Z -> list nat) (far : list (Z * nat)) (c : Z) (o : nat).

Definition inwin q c : Prop := curBlock q <= c / 64 < curBlock q + Z.of_nat B.

(** [near c] is the stack of the objects for cycle [c] in the blocks. *)
Record Win q near : Prop := {
  w_len : length (blocks q) = B;
  w_cur : 0 <= curBlock q;
  w_blk : forall c, inwin q c -> exists b h, blocks q !! blockIdx B (c / 64) = Some b /\
    array b !! Z.to_nat (c mod 64) = Some h /\ chain (next q) h (near c) /\
    (Z.testbit (occ b) (c mod 64) = true <-> near c <> []);
  w_arr : forall i b, blocks q !! i = Some b -> length (array b) = 64%nat /\ 0 <= occ b < two64;
  w_out : forall c, ~ inwin q c -> near c = [];
  w_nodup : forall c, NoDup (near c);
  w_uniq : forall c c' o, o ∈ near c -> o ∈ near c' -> c = c'
}.

Lemma blockIdx_lt x : (blockIdx B x < B)%nat.
Proof. unfold blockIdx. pose proof (Z.mod_pos_bound x (Z.of_nat B)). lia. Qed.

(** Two blocks of the window with one index are the same block. *)
Lemma blockIdx_inj cur x y : cur <= x < cur + Z.of_nat B -> cur <= y < cur + Z.of_nat B ->
  blockIdx B x = blockIdx B y -> x = y.
Proof.
  unfold blockIdx. intros Hx Hy Heq.
  pose proof (Z.mod_pos_bound x (Z.of_nat B) ltac:(lia)). pose proof (Z.mod_pos_bound y (Z.of_nat B) ltac:(lia)).
  assert (Hm : x mod Z.of_nat B = y mod Z.of_nat B) by lia.
  pose proof (Z_div_mod_eq_full x (Z.of_nat B)). pose proof (Z_div_mod_eq_full y (Z.of_nat B)).
  assert (x / Z.of_nat B = y / Z.of_nat B); [|congruence]. nia.
Qed.

Lemma blockIdx_shift x : blockIdx B (x + Z.of_nat B) = blockIdx B x.
Proof. unfold blockIdx. f_equal. rewrite <- (Z.mul_1_l (Z.of_nat B)) at 1. apply Z_mod_plus_full. Qed.

Lemma Win_enqueue q near c o : Win q near -> inwin q c -> next q o = None -> (forall c', o ∉ near c') ->
  wp (block_enqueue o (blockIdx B (c / 64)) (Z.to_nat (c mod 64))) (fun _ q' =>
    Win q' (updZ near c (o :: near c)) /\ curBlock q' = curBlock q /\ elems q' = elems q /\
    feMap q' = feMap q /\ (forall o', o' <> o -> next q' o' = next q o')) q.
Proof.
  intros HW Hc Hn Hno. destruct (w_blk _ _ HW c Hc) as (b&h&Hb&Hh&Hch&Hocc).
  pose proof (Z.mod_pos_bound c 64 ltac:(lia)) as Hpos.
  unfold wp, block_enqueue. rewrite (arr_get_Some _ _ _ Hb). cbn [mbind res_bind].
  rewrite bool_decide_eq_true_2 by done. cbn [rassert mbind res_bind].
  rewrite (arr_get_Some _ _ _ Hh). cbn [mbind res_bind].
  destruct (w_arr _ _ HW _ _ Hb) as [Hlen Hr].
  set (i := blockIdx B (c / 64)) in *. set (pos := Z.to_nat (c mod 64)) in *.
  set (b' := mkBlock _ _).
  assert (Hbits : forall j, 0 <= j < 64 -> Z.testbit (occ b') j = if decide (j = c mod 64) then true else Z.testbit (occ b) j).
  { intros j Hj. cbn. rewrite Z.lor_spec, bit_1shl by lia.
    replace (Z.of_nat pos) with (c mod 64) by (unfold pos; lia).
    case_decide; [by rewrite bool_decide_eq_true_2, orb_true_r|by rewrite bool_decide_eq_false_2, orb_false_r]. }
  assert (Hi : (i < length (blocks q))%nat) by (rewrite (w_len _ _ HW); apply blockIdx_lt).
  split; [|split_and!; try done; intros o' Ho'; cbn; by rewrite upd_ne].
  split; cbn.
  - rewrite length_insert. apply HW.
  - apply HW.
  - intros c' Hc'. destruct (w_blk _ _ HW c' Hc') as (b0&h0&Hb0&Hh0&Hch0&Hocc0).
    pose proof (Z.mod_pos_bound c' 64 ltac:(lia)) as Hpos'.
    assert (Hchn : forall h1 l1, (forall x, x ∈ l1 -> x <> o) -> chain (next q) h1 l1 -> chain (upd (next q) o h) h1 l1).
    { intros h1 l1 Hx. apply chain_upd. intros Hin. by apply (Hx o). }
    assert (Hno' : forall x, x ∈ near c' -> x <> o) by (intros x Hx ->; by apply (Hno c')).
    destruct (decide (blockIdx B (c' / 64) = i)) as [Hii|Hii].
    + assert (Hdiv : c' / 64 = c / 64) by exact (blockIdx_inj _ _ _ Hc' Hc Hii).
      rewrite Hii in Hb0 |- *. rewrite Hb in Hb0. injection Hb0 as <-.
      exists b'. unfold updZ. destruct (decide (c' = c)) as [->|Hne].
      * exists (Some o). split; [by rewrite list_lookup_insert_eq|]. split.
        { fold pos. cbn. rewrite list_lookup_insert_eq; [done|]. rewrite Hlen. unfold pos. lia. }
        split; [|rewrite Hbits, decide_True by lia; done].
        split; [done|]. rewrite upd_eq. by apply Hchn.
      * assert (Hmod : c' mod 64 <> c mod 64).
        { intros Hm. apply Hne. rewrite (Z_div_mod_eq_full c' 64), (Z_div_mod_eq_full c 64). congruence. }
        exists h0. split; [by rewrite list_lookup_insert_eq|]. split.
        { cbn. rewrite list_lookup_insert_ne; [done|]. unfold pos. lia. }
        split; [by apply Hchn|]. rewrite Hbits, decide_False by (done || lia). done.
    + assert (Hne : c' <> c) by (intros ->; done).
      exists b0, h0. unfold updZ. rewrite decide_False by done.
      split_and!; [by rewrite list_lookup_insert_ne|done|by apply Hchn|exact Hocc0].
  - intros j bj Hj. destruct (decide (j = i)) as [->|Hji].
    + rewrite list_lookup_insert_eq in Hj by done. injection Hj as <-. cbn.
      rewrite length_insert. split; [done|]. split.
      * apply Z.lor_nonneg. split; [lia|]. apply Z.shiftl_nonneg. lia.
      * apply bits_lt; [apply Z.lor_nonneg; split; [lia|]; apply Z.shiftl_nonneg; lia|].
        intros k Hk. rewrite Z.lor_spec, bits_above, bit_1shl by lia.
        rewrite bool_decide_eq_false_2; [done|]. unfold pos. lia.
    + rewrite list_lookup_insert_ne in Hj by done. by apply (w_arr _ _ HW j).
  - intros c' Hc'. unfold updZ. rewrite decide_False; [by apply HW|]. intros ->. by apply Hc'.
  - intros c'. unfold updZ. case_decide as Hd; [|by apply HW]. apply list.NoDup_cons. split; [apply Hno|apply HW].
  - intros c1 c2 x. unfold updZ. repeat case_decide; subst; rewrite ?elem_of_cons; [done|..].
    + intros [->|H1] H2; [by destruct (Hno c2)|]. by apply (w_uniq _ _ HW c c2 x).
    + intros H1 [->|H2]; [by destruct (Hno c1)|]. by apply (w_uniq _ _ HW c1 c x).
    + by apply HW.
Qed.

Lemma div64 x p : 0 <= p < 64 -> (x * 64 + p) / 64 = x /\ (x * 64 + p) mod 64 = p.
Proof.
  intros Hp. split.
  - rewrite Z.div_add_l by lia. rewrite Z.div_small; lia.
  - rewrite Z.add_comm, Z_mod_plus_full. apply Z.mod_small. lia.
Qed.

(** The current block: its cycles and its occupancy. *)
Lemma Win_cur q near : Win q near -> exists b, blocks q !! blockIdx B (curBlock q) = Some b /\
  length (array b) = 64%nat /\ 0 <= occ b < two64 /\
  forall p, 0 <= p < 64 -> exists h, array b !! Z.to_nat p = Some h /\
    chain (next q) h (near (curBlock q * 64 + p)) /\
    (Z.testbit (occ b) p = true <-> near (curBlock q * 64 + p) <> []).
Proof.
  intros HW. destruct (lookup_lt_is_Some_2 (blocks q) (blockIdx B (curBlock q))) as [b Hb].
  { rewrite (w_len _ _ HW). apply blockIdx_lt. }
  exists b. destruct (w_arr _ _ HW _ _ Hb) as [Hl Hr]. split_and!; try done; try lia.
  intros p Hp. destruct (div64 (curBlock q) p Hp) as [Hd Hm].
  destruct (w_blk _ _ HW (curBlock q * 64 + p)) as (b'&h&Hb'&Hh&Hc&Ho).
  { unfold inwin. rewrite Hd. lia. }
  rewrite Hd in Hb'. rewrite Hb in Hb'. injection Hb' as <-. rewrite Hm in *. by exists h.
Qed.

Lemma Win_cur_empty q near b : Win q near -> blocks q !! blockIdx B (curBlock q) = Some b -> occ b = 0 ->
  forall c, c / 64 = curBlock q -> near c = [].
Proof.
  intros HW Hb Ho c Hc. destruct (Win_cur q near HW) as (b'&Hb'&_&_&Hp).
  assert (b' = b) as -> by congruence. pose proof (Z.mod_pos_bound c 64 ltac:(lia)) as Hpos.
  destruct (Hp (c mod 64) Hpos) as (h&_&_&Hbit).
  replace (curBlock q * 64 + c mod 64) with c in Hbit
    by (rewrite <- Hc; pose proof (Z_div_mod_eq_full c 64); lia).
  rewrite Ho, Z.bits_0 in Hbit. destruct (near c) eqn:E; [done|]. by destruct Hbit as [_ H]; discriminate H.
Qed.

(** Moving the window past an empty block. *)
Lemma Win_advance q near : Win q near -> (forall c, c / 64 = curBlock q -> near c = []) ->
  Win (set_curBlock q (curBlock q + 1)) near.
Proof.
  intros HW He. split; cbn; try apply HW.
  - pose proof (w_cur _ _ HW). lia.
  - intros c [H1 H2]. cbn in *. destruct (decide (c / 64 < curBlock q + Z.of_nat B)) as [Hlt|Hge].
    { apply (w_blk _ _ HW). split; lia. }
    assert (Heq : c / 64 = curBlock q + Z.of_nat B) by lia.
    destruct (Win_cur q near HW) as (b&Hb&Hl&_&Hp).
    pose proof (Z.mod_pos_bound c 64 ltac:(lia)) as Hpos.
    destruct (Hp (c mod 64) Hpos) as (h&Hh&Hc&Hbit).
    assert (Hn0 : near (curBlock q * 64 + c mod 64) = []) by (apply He; by apply div64).
    assert (Hnc : near c = []).
    { apply (w_out _ _ HW). unfold inwin. lia. }
    exists b, h. rewrite Heq, blockIdx_shift, Hnc. rewrite Hn0 in Hc, Hbit. done.
  - intros c Hc. destruct (decide (inwin q c)) as [Hin|]; [|by apply HW].
    apply He. unfold inwin in *. cbn in Hc. lia.
Qed.

(** The first object of the first populated cycle of the current block. *)
Lemma Win_dequeue q near b : Win q near -> blocks q !! blockIdx B (curBlock q) = Some b -> occ b <> 0 ->
  wp (block_dequeue (blockIdx B (curBlock q))) (fun '(o, pos) q' => exists rest,
    let c := curBlock q * 64 + Z.of_nat pos in
    (pos < 64)%nat /\ near c = o :: rest /\
    (forall c', curBlock q * 64 <= c' < c -> near c' = []) /\
    Win q' (updZ near c rest) /\ curBlock q' = curBlock q /\ elems q' = elems q /\ feMap q' = feMap q /\
    next q' o = None /\ (forall o', o' <> o -> next q' o' = next q o')) q.
Proof.
  intros HW Hb Hocc. destruct (Win_cur q near HW) as (b0&Hb0&Hlen&Hr&Hp).
  assert (b0 = b) as -> by congruence. clear Hb0.
  destruct (ctzl_spec (occ b)) as (Hbit&Hpos&Hlow); [lia|].
  set (pos := builtin_ctzl (occ b)) in *.
  destruct (Hp (Z.of_nat pos) ltac:(lia)) as (h&Hh&Hch&Hiff). rewrite Nat2Z.id in Hh.
  destruct (div64 (curBlock q) (Z.of_nat pos) ltac:(lia)) as [Hdiv Hmod].
  set (c := curBlock q * 64 + Z.of_nat pos) in *.
  destruct (near c) as [|o rest] eqn:Hnear; [by destruct Hiff as [Hiff _]; specialize (Hiff Hbit)|].
  destruct Hch as [-> Hch].
  unfold wp, block_dequeue. rewrite (arr_get_Some _ _ _ Hb). cbn [mbind res_bind].
  replace (negb (occ b =? 0)) with true by (symmetry; apply negb_true_iff; by apply Z.eqb_neq).
  cbn [rassert mbind res_bind]. fold pos. rewrite (arr_get_Some _ _ _ Hh). cbn [mbind res_bind from_opt].
  assert (Hnd := w_nodup _ _ HW c). rewrite Hnear in Hnd. apply list.NoDup_cons in Hnd as [Hor Hndr].
  assert (Hoc : forall c', c' <> c -> o ∉ near c').
  { intros c' Hne Ho. apply Hne, (w_uniq _ _ HW c' c o); [done|]. rewrite Hnear. apply list_elem_of_here. }
  set (b' := mkBlock _ _). set (i := blockIdx B (curBlock q)) in *.
  assert (Hi : (i < length (blocks q))%nat) by (rewrite (w_len _ _ HW); apply blockIdx_lt).
  assert (Hrest : next q o = None <-> rest = []).
  { destruct rest as [|o' rest']; simpl in Hch; [done|]. destruct Hch as [-> _]. done. }
  assert (Hbits : forall j, Z.testbit (occ b') j =
    if decide (j = Z.of_nat pos) then negb (bool_decide (rest = [])) else Z.testbit (occ b) j).
  { intros j. cbn. destruct (next q o) eqn:Hn.
    - rewrite bool_decide_eq_false_2 by (rewrite <- Hrest; done). case_decide; subst; done.
    - rewrite bool_decide_eq_true_2 by by apply Hrest.
      rewrite Z.lxor_spec, bit_1shl by lia. case_decide; subst.
      + by rewrite Hbit, bool_decide_eq_true_2.
      + by rewrite bool_decide_eq_false_2, xorb_false_r. }
  exists rest. cbn zeta. split_and!; try done.
  - intros c' Hc'. assert (Hd' : c' / 64 = curBlock q).
    { destruct (div64 (curBlock q) (c' - curBlock q * 64)) as [Hd _]; [lia|].
      by replace (curBlock q * 64 + (c' - curBlock q * 64)) with c' in Hd by lia. }
    destruct (Hp (c' - curBlock q * 64)) as (h'&_&_&Hiff'); [lia|].
    replace (curBlock q * 64 + (c' - curBlock q * 64)) with c' in Hiff' by lia.
    rewrite Hlow in Hiff' by lia. destruct (near c') eqn:E; [done|]. by destruct Hiff' as [_ H]; discriminate H.
  - split; cbn.
    + rewrite length_insert. apply HW.
    + apply HW.
    + intros c' Hc'. destruct (w_blk _ _ HW c' Hc') as (b1&h1&Hb1&Hh1&Hch1&Hocc1).
      pose proof (Z.mod_pos_bound c' 64 ltac:(lia)) as Hpos'.
      assert (Hcc : inwin q c) by (unfold inwin; lia).
      destruct (decide (c' = c)) as [->|Hne].
      * exists b', (next q o). rewrite Hdiv, Hmod. unfold updZ. rewrite decide_True by done.
        split_and!; [by rewrite list_lookup_insert_eq|..].
        { cbn. rewrite Nat2Z.id. rewrite list_lookup_insert_eq; [done|lia]. }
        { by apply chain_upd. }
        { rewrite Hbits, decide_True by done. case_bool_decide; [|done]. by subst. }
      * unfold updZ. rewrite decide_False by done.
        destruct (decide (blockIdx B (c' / 64) = i)) as [Hii|Hii].
        -- assert (Hdd : c' / 64 = curBlock q).
           { apply (blockIdx_inj (curBlock q)); [exact Hc'|lia|done]. }
           assert (Hmm : c' mod 64 <> Z.of_nat pos).
           { intros Hm. apply Hne. unfold c. rewrite <- Hm, <- Hdd. pose proof (Z_div_mod_eq_full c' 64). lia. }
           rewrite Hii in Hb1 |- *. rewrite Hb in Hb1. injection Hb1 as <-.
           exists b', h1. split_and!; [by rewrite list_lookup_insert_eq|..].
           { cbn. rewrite list_lookup_insert_ne; [done|lia]. }
           { apply chain_upd; [by apply Hoc|done]. }
           { rewrite Hbits, decide_False by done. exact Hocc1. }
        -- exists b1, h1. split_and!; [by rewrite list_lookup_insert_ne|done| |exact Hocc1].
           apply chain_upd; [by apply Hoc|done].
    + intros j bj Hj. destruct (decide (j = i)) as [->|Hji].
      * rewrite list_lookup_insert_eq in Hj by done. injection Hj as <-.
        split; [cbn; by rewrite length_insert|].
        assert (Hb0 : 0 <= occ b').
        { cbn. destruct (next q o); [lia|]. apply Z.lxor_nonneg. split; intros _; [apply Z.shiftl_nonneg|]; lia. }
        split; [done|]. apply bits_lt; [done|]. intros k Hk. rewrite Hbits, decide_False by lia.
        by apply bits_above.
      * rewrite list_lookup_insert_ne in Hj by done. by apply (w_arr _ _ HW j).
    + intros c' Hc'. unfold updZ. rewrite decide_False; [by apply HW|]. intros ->. apply Hc'. change (inwin q c). unfold inwin. rewrite Hdiv. lia.
    + intros c'. unfold updZ. case_decide; [done|by apply HW].
    + intros c1 c2 x. unfold updZ. repeat case_decide; subst; [done|..].
      * intros H1 H2. apply (w_uniq _ _ HW c c2 x); [|done]. rewrite Hnear. by apply list_elem_of_further.
      * intros H1 H2. apply (w_uniq _ _ HW c1 c x); [done|]. rewrite Hnear. by apply list_elem_of_further.
      * by apply HW.
  - cbn. by rewrite upd_eq.
  - intros o' Ho'. cbn. by rewrite upd_ne.
Qed.

(** ** The abstraction: a finite map from the queued objects to their cycles *)

(** [farBase] is the block at which far elements were last looked at. *)
Definition farBase q : Z := Z.of_nat (B / 2) * (curBlock q / Z.of_nat (B / 2)).

Lemma half_pos : (1 <= B / 2)%nat.
Proof. apply Nat.div_le_lower_bound; lia. Qed.
Lemma half_two : (B / 2 + B / 2 = B)%nat.
Proof. destruct HB2 as [k ->]. rewrite Nat.mul_comm, Nat.div_mul by lia. lia. Qed.
Lemma farBase_bounds q : farBase q <= curBlock q < farBase q + Z.of_nat (B / 2).
Proof.
  unfold farBase. pose proof half_pos. pose proof (Z_div_mod_eq_full (curBlock q) (Z.of_nat (B / 2))).
  pose proof (Z.mod_pos_bound (curBlock q) (Z.of_nat (B / 2)) ltac:(lia)). lia.
Qed.

(** The state when [far] is what remains of the far elements. *)
Record MInv q near far (m : gmap nat Z) : Prop := {
  mi_win : Win q near;
  mi_map : forall o c, m !! o = Some c <-> o ∈ near c \/ (c, o) ∈ far;
  mi_fnext : forall c o, (c, o) ∈ far -> next q o = None;
  mi_fnd : NoDup far.*2;
  mi_disj : forall c o, (c, o) ∈ far -> o ∉ near c;
  mi_sorted : StronglySorted Z.le far.*1;
  mi_elems : elems q = Z.of_nat (base.size m);
  mi_size : elems q < two64;
  mi_bound : forall o c, m !! o = Some c -> 0 <= c /\ c + 64 * (Z.of_nat B + 1) <= two64
}.
Record QInv q near (m : gmap nat Z) : Prop := {
  qi_m : MInv q near (feMap q) m;
  qi_far : forall c o, (c, o) ∈ feMap q -> farBase q + Z.of_nat B <= c / 64
}.
Definition Rep q (m : gmap nat Z) : Prop := exists near, QInv q near m.

Lemma QInv_ge q near m o c : QInv q near m -> m !! o = Some c -> curBlock q <= c / 64.
Proof.
  intros [HM HF] Ho. apply (mi_map _ _ _ _ HM) in Ho as [Ho|Ho].
  - destruct (decide (inwin q c)) as [[? _]|Hout]; [done|].
    rewrite (w_out _ _ (mi_win _ _ _ _ HM) c Hout) in Ho. by apply elem_of_nil in Ho.
  - pose proof (HF c o Ho). pose proof (farBase_bounds q). pose proof half_two. lia.
Qed.

(** An object of the map is in one place. *)
Lemma MInv_near_uniq q near far m c o : MInv q near far m -> (c, o) ∈ far -> forall c', o ∉ near c'.
Proof.
  intros HM Hf c' Hn.
  assert (m !! o = Some c) by (apply (mi_map _ _ _ _ HM); auto).
  assert (m !! o = Some c') by (apply (mi_map _ _ _ _ HM); auto).
  assert (c' = c) as -> by congruence. by apply (mi_disj _ _ _ _ HM c o).
Qed.

Lemma fe_insert_elem f c o x : x ∈ fe_insert f c o <-> x = (c, o) \/ x ∈ f.
Proof.
  induction f as [|[c' o'] f IH]; simpl; [rewrite list_elem_of_singleton; set_solver|].
  case_match; rewrite !elem_of_cons; [done|]. rewrite IH. tauto.
Qed.
Lemma fe_insert_perm f c o : fe_insert f c o ≡ₚ (c, o) :: f.
Proof.
  induction f as [|[c' o'] f IH]; simpl; [done|]. case_match; [done|].
  rewrite IH. apply Permutation_swap.
Qed.
Lemma fe_insert_sorted f c o : StronglySorted Z.le f.*1 -> StronglySorted Z.le (fe_insert f c o).*1.
Proof.
  induction f as [|[c' o'] f IH]; simpl; intros Hs.
  { repeat constructor. }
  apply StronglySorted_inv in Hs as [Hs Hle]. destruct (Z.ltb_spec c c') as [Hlt|Hge].
  - simpl. constructor; [by constructor|]. constructor; [lia|].
    eapply Forall_impl; [|exact Hle]. cbn. lia.
  - simpl. constructor; [by apply IH|]. rewrite list.Forall_forall in Hle |- *.
    intros x Hx. rewrite (fe_insert_perm f c o) in Hx. simpl in Hx.
    apply elem_of_cons in Hx as [->|Hx]; [done|]. by apply Hle.
Qed.

Lemma enqueue_spec q m o c : Rep q m -> m !! o = None -> next q o = None ->
  curBlock q <= c / 64 -> 0 <= c -> c + 64 * (Z.of_nat B + 1) <= two64 -> Z.of_nat (base.size m) + 1 < two64 ->
  wp (enqueue B o c) (fun _ q' => Rep q' (<[o := c]> m) /\ curBlock q' = curBlock q /\
    (forall o', o' <> o -> m !! o' = None -> next q' o' = next q o')) q.
Proof.
  intros [near [HM HF]] Hmo Hno Hcur Hc Hcb Hsz. assert (HW := mi_win _ _ _ _ HM).
  assert (Hc64 : c / 64 <= c) by (apply Z.div_le_upper_bound; lia).
  assert (Hc64' : c / 64 * 64 <= c) by (pose proof (Z_div_mod_eq_full c 64); pose proof (Z.mod_pos_bound c 64 ltac:(lia)); lia).
  pose proof (w_cur _ _ HW).
  assert (Hnn : forall c', o ∉ near c').
  { intros c' Hin. assert (m !! o = Some c') by (apply (mi_map _ _ _ _ HM); auto). congruence. }
  assert (Hnf : forall c', (c', o) ∉ feMap q).
  { intros c' Hin. assert (m !! o = Some c') by (apply (mi_map _ _ _ _ HM); auto). congruence. }
  assert (Hfm : o ∉ (feMap q).*2).
  { intros ([c' o']&->&Hin)%list_elem_of_fmap. by apply (Hnf c'). }
  assert (Hsize : base.size (<[o := c]> m) = Datatypes.S (base.size m)) by by apply map_size_insert_None.
  assert (Hbnd : forall o' c', <[o := c]> m !! o' = Some c' -> 0 <= c' /\ c' + 64 * (Z.of_nat B + 1) <= two64).
  { intros o' c'. rewrite lookup_insert_Some. intros [[-> ->]|[_ H']]; [done|]. by apply (mi_bound _ _ _ _ HM o'). }
  assert (Hel : u64 (elems q + 1) = Z.of_nat (base.size (<[o := c]> m))).
  { rewrite (mi_elems _ _ _ _ HM), Hsize, u64_small; lia. }
  unfold enqueue. repeat wp_step. apply wp_assert; [by apply Z.leb_le|].
  rewrite u64_small by (unfold two64 in *; nia).
  apply wp_bind. destruct (Z.ltb_spec (c / 64) (curBlock q + Z.of_nat B)) as [Hin|Hout].
  - eapply wp_mono; [by apply (Win_enqueue q near c o HW)|]. intros [] q' (HW'&Hcb'&Hel'&Hfe'&Hnx').
    apply wp_modify. split; [|split; [done|by intros; apply Hnx']].
    exists (updZ near c (o :: near c)). split; [|cbn; intros c' o'; unfold farBase; cbn; rewrite Hcb', Hfe'; apply HF].
    split; cbn; rewrite ?Hfe', ?Hel'; try apply HM; try done.
    + by destruct HW'.
    + intros o' c'. rewrite lookup_insert_Some, (mi_map _ _ _ _ HM o' c'). unfold updZ. case_decide as Hd.
      * subst c'. rewrite elem_of_cons. split; [naive_solver|].
        intros [[->|H']|H']; [by left| |].
        -- right. split; [intros ->; by destruct (Hnn c)|by left].
        -- right. split; [intros ->; by destruct (Hnf c)|by right].
      * split; [naive_solver|]. intros [H'|H'].
        -- right. split; [intros ->; by destruct (Hnn c')|by left].
        -- right. split; [intros ->; by destruct (Hnf c')|by right].
    + intros c' o' Hf'. rewrite Hnx'; [by apply (mi_fnext _ _ _ _ HM c')|]. intros ->. by destruct (Hnf c').
    + intros c' o' Hf'. unfold updZ. case_decide; [subst c'|by apply (mi_disj _ _ _ _ HM)].
      apply not_elem_of_cons. split; [|by apply (mi_disj _ _ _ _ HM)]. intros ->. by destruct (Hnf c).
    + rewrite Hel, Hsize. lia.
  - repeat wp_step. split; [|done]. exists near. split.
    + split; cbn; try done.
      * by destruct HW.
      * intros o' c'. rewrite lookup_insert_Some, (mi_map _ _ _ _ HM o' c'), fe_insert_elem. split.
        -- intros [[-> ->]|[_ [?|?]]]; auto.
        -- intros [H'|[[= -> ->]|H']]; [right|by left|right].
           ++ split; [intros ->; by destruct (Hnn c')|by left].
           ++ split; [intros ->; by destruct (Hnf c')|by right].
      * intros c' o' [[= -> ->]|H']%fe_insert_elem; [done|]. by apply (mi_fnext _ _ _ _ HM c').
      * rewrite (fe_insert_perm (feMap q) c o). simpl. apply list.NoDup_cons. split; [done|apply HM].
      * intros c' o' [[= -> ->]|H']%fe_insert_elem; [apply Hnn|]. by apply (mi_disj _ _ _ _ HM).
      * apply fe_insert_sorted, HM.
      * rewrite Hel, Hsize. lia.
    + intros c' o' [[= -> ->]|H']%fe_insert_elem; [|by apply (HF c' o')].
      change (farBase q + Z.of_nat B <= c / 64). pose proof (farBase_bounds q). lia.
Qed.

Lemma div64_le c x : c < x * 64 -> c / 64 < x.
Proof. intros. apply Z.div_lt_upper_bound; lia. Qed.

Lemma move_far_spec q near far m x :
  MInv q near far m -> (forall c o, (c, o) ∈ far -> curBlock q <= c / 64) ->
  x = (curBlock q + Z.of_nat B) * 64 -> x < two64 ->
  wp (move_far B x far) (fun far' q' => exists near', MInv q' near' far' m /\
    curBlock q' = curBlock q /\ (forall c o, (c, o) ∈ far' -> x <= c)) q.
Proof.
  revert q near. induction far as [|[c o] far IH]; intros q near HM Hge Hx Hb.
  { apply wp_ret. exists near. split_and!; try done. intros c o Ho. by apply elem_of_nil in Ho. }
  cbn [move_far]. destruct (Z.ltb_spec c x) as [Hlt|Hle].
  2:{ apply wp_ret. exists near. split_and!; try done. intros c' o' Hin.
      pose proof (mi_sorted _ _ _ _ HM) as Hs. simpl in Hs. apply StronglySorted_inv in Hs as [_ Hs].
      apply elem_of_cons in Hin as [[= -> ->]|Hin]; [done|].
      rewrite list.Forall_forall in Hs. specialize (Hs c'). assert (c <= c'); [|lia]. apply Hs.
      apply list_elem_of_fmap. by exists (c', o'). }
  assert (HW := mi_win _ _ _ _ HM). pose proof (w_cur _ _ HW).
  assert (Hin : (c, o) ∈ (c, o) :: far) by apply list_elem_of_here.
  assert (Hc : curBlock q <= c / 64 < curBlock q + Z.of_nat B).
  { split; [by apply (Hge c o)|]. apply div64_le. lia. }
  repeat wp_step. apply wp_assert; [apply Z.leb_le; lia|].
  apply wp_bind, wp_assert; [rewrite u64_small by nia; apply Z.ltb_lt; lia|].
  apply wp_bind. eapply wp_mono; [apply (Win_enqueue q near c o HW)|].
  { done. }
  { by apply (mi_fnext _ _ _ _ HM c). }
  { by apply (MInv_near_uniq _ _ _ _ _ _ HM Hin). }
  intros [] q' (HW'&Hcb&Hel&Hfe&Hnx).
  assert (Hnd := mi_fnd _ _ _ _ HM). simpl in Hnd. apply list.NoDup_cons in Hnd as [Hof Hnd].
  assert (Hof' : forall c', (c', o) ∉ far).
  { intros c' Hf. apply Hof, list_elem_of_fmap. by exists (c', o). }
  eapply wp_mono; [apply (IH q' (updZ near c (o :: near c)))|].
  - split; rewrite ?Hel; try apply HM; try done.
    + intros o' c'. rewrite (mi_map _ _ _ _ HM o' c'), elem_of_cons. unfold updZ. case_decide as Hd.
      * subst c'. rewrite elem_of_cons. naive_solver.
      * naive_solver.
    + intros c' o' Hf. rewrite Hnx.
      * apply (mi_fnext _ _ _ _ HM c'). by apply list_elem_of_further.
      * intros ->. by apply (Hof' c').
    + intros c' o' Hf. assert (Hnn : o' ∉ near c').
      { apply (mi_disj _ _ _ _ HM). by apply list_elem_of_further. }
      unfold updZ. case_decide; [|done]. subst c'. apply not_elem_of_cons. split; [|done].
      intros ->. by apply (Hof' c).
    + pose proof (mi_sorted _ _ _ _ HM) as Hs. simpl in Hs. by apply StronglySorted_inv in Hs as [Hs _].
  - intros c' o' Hf. rewrite Hcb. apply (Hge c' o'). by apply list_elem_of_further.
  - by rewrite Hcb.
  - done.
  - intros far' q2 (near'&HM'&Hcb'&Hfar). exists near'. split_and!; [done|congruence|done].
Qed.

(** Going to the next block, when the current one is empty. *)
Lemma advance_spec q near m o c :
  QInv q near m -> (forall c, c / 64 = curBlock q -> near c = []) -> m !! o = Some c ->
  wp (advance B) (fun _ q' => exists near', QInv q' near' m /\ curBlock q' = curBlock q + 1) q.
Proof.
  intros HQ He Ho. assert (HM := qi_m _ _ _ HQ). assert (HW := mi_win _ _ _ _ HM).
  pose proof (w_cur _ _ HW). pose proof half_pos. pose proof half_two.
  assert (Hge : forall o' c', m !! o' = Some c' -> curBlock q + 1 <= c' / 64).
  { intros o' c' Ho'. pose proof (QInv_ge _ _ _ _ _ HQ Ho').
    destruct (decide (c' / 64 = curBlock q)) as [Heq|]; [|lia]. exfalso.
    apply (mi_map _ _ _ _ HM) in Ho' as [Hn|Hf].
    - rewrite (He c' Heq) in Hn. by apply elem_of_nil in Hn.
    - pose proof (qi_far _ _ _ HQ c' o' Hf). pose proof (farBase_bounds q). lia. }
  destruct (mi_bound _ _ _ _ HM o c Ho) as [Hc0 Hcb]. assert (Hoc := Hge o c Ho).
  assert (Hc64 : c / 64 * 64 <= c).
  { pose proof (Z_div_mod_eq_full c 64). pose proof (Z.mod_pos_bound c 64 ltac:(lia)). lia. }
  unfold advance. repeat wp_step. rewrite u64_small by lia.
  set (q1 := set_curBlock q (curBlock q + 1)).
  assert (HW1 : Win q1 near) by by apply Win_advance.
  assert (HM1 : MInv q1 near (feMap q1) m) by (split; try apply HM; done).
  cbn [curBlock q1 set_curBlock feMap].
  destruct (Z.eqb_spec ((curBlock q + 1) mod Z.of_nat (B / 2)) 0) as [Hm|Hm]; cbn [andb].
  - case_bool_decide as Hfe; cbn [negb].
    + apply wp_ret. exists near. split; [|done]. split; [done|]. cbn. rewrite Hfe.
      intros c' o' Hf. by apply elem_of_nil in Hf.
    + rewrite u64_small by lia.
      apply wp_bind. eapply wp_mono; [apply (move_far_spec q1 near (feMap q) m)|]; try done.
      * intros c' o' Hf. cbn. apply (Hge o'). apply (mi_map _ _ _ _ HM). by right.
      * cbn. lia.
      * intros far' q2 (near'&HM'&Hcb'&Hfar). apply wp_modify. exists near'. split; [|done].
        split; [split; try apply HM'|]; [by destruct (mi_win _ _ _ _ HM')|].
        intros c' o' Hf. cbn in Hf. apply Hfar in Hf. unfold farBase. cbn [set_feMap curBlock]. rewrite Hcb'. cbn [q1 set_curBlock curBlock].
        apply Z.div_le_lower_bound; [lia|].
        pose proof (Z_div_mod_eq_full (curBlock q + 1) (Z.of_nat (B / 2))). lia.
  - apply wp_ret. exists near. split; [|done]. split; [done|]. intros c' o' Hf.
    pose proof (qi_far _ _ _ HQ c' o' Hf). unfold farBase in *. cbn [q1 set_curBlock curBlock].
    replace ((curBlock q + 1) / Z.of_nat (B / 2)) with (curBlock q / Z.of_nat (B / 2)); [done|].
    pose proof (Z_div_mod_eq_full (curBlock q) (Z.of_nat (B / 2))).
    pose proof (Z_div_mod_eq_full (curBlock q + 1) (Z.of_nat (B / 2))).
    pose proof (Z.mod_pos_bound (curBlock q) (Z.of_nat (B / 2)) ltac:(lia)).
    pose proof (Z.mod_pos_bound (curBlock q + 1) (Z.of_nat (B / 2)) ltac:(lia)). nia.
Qed.

Lemma seek_spec fuel q near m o c :
  QInv q near m -> m !! o = Some c -> c / 64 - curBlock q < Z.of_nat fuel ->
  wp (seek B fuel) (fun _ q' => exists near' b, QInv q' near' m /\ curBlock q <= curBlock q' /\
    blocks q' !! blockIdx B (curBlock q') = Some b /\ occ b <> 0) q.
Proof.
  revert q near. induction fuel as [|fuel IH]; intros q near HQ Ho Hf.
  { pose proof (QInv_ge _ _ _ _ _ HQ Ho). lia. }
  assert (HW := mi_win _ _ _ _ (qi_m _ _ _ HQ)).
  destruct (Win_cur q near HW) as (b&Hb&_).
  cbn [seek]. repeat wp_step. apply wp_lift. rewrite (arr_get_Some _ _ _ Hb). cbn [rwp].
  destruct (Z.eqb_spec (occ b) 0) as [Hz|Hnz].
  - apply wp_bind. eapply wp_mono; [eapply (advance_spec q near m o c)|]; try done.
    { by eapply Win_cur_empty. }
    intros [] q' (near'&HQ'&Hcb). eapply wp_mono; [eapply (IH q' near')|]; try done; [lia|].
    intros [] q2 (near2&b2&?&?&?&?). exists near2, b2. split_and!; try done. lia.
  - apply wp_ret. exists near, b. split_and!; try done.
Qed.

(** [dequeue] removes an object with the earliest cycle. *)
Lemma dequeue_spec fuel q m o0 c0 :
  Rep q m -> m !! o0 = Some c0 -> c0 / 64 - curBlock q < Z.of_nat fuel ->
  wp (dequeue B fuel) (fun '(o, c) q' => m !! o = Some c /\
    (forall o' c', m !! o' = Some c' -> c <= c') /\ Rep q' (delete o m) /\
    curBlock q' = c / 64 /\ next q' o = None) q.
Proof.
  intros [near HQ] Ho Hf. assert (HM := qi_m _ _ _ HQ).
  unfold dequeue. repeat wp_step.
  assert (Hsz : base.size m <> 0%nat).
  { intros Hz. apply map_size_empty_inv in Hz. by rewrite Hz, lookup_empty in Ho. }
  apply wp_assert; [apply negb_true_iff, Z.eqb_neq; rewrite (mi_elems _ _ _ _ HM); lia|].
  apply wp_bind. eapply wp_mono; [by eapply (seek_spec fuel q near m o0 c0)|].
  clear near HQ HM. intros [] q1 (near&b&HQ&Hcc&Hb&Hocc).
  assert (HM := qi_m _ _ _ HQ). assert (HW := mi_win _ _ _ _ HM). pose proof (w_cur _ _ HW).
  repeat wp_step. eapply wp_mono; [by apply (Win_dequeue q1 near b)|].
  intros [o pos] q2 (rest&Hpos&Hnear&Hlow&HW2&Hcb2&Hel2&Hfe2&Hno2&Hnx2). cbv zeta in Hnear, Hlow, HW2.
  repeat wp_step. set (c := curBlock q1 * 64 + Z.of_nat pos) in *.
  destruct (div64 (curBlock q1) (Z.of_nat pos) ltac:(lia)) as [Hdiv _]. fold c in Hdiv.
  assert (Hmo : m !! o = Some c).
  { apply (mi_map _ _ _ _ HM). left. rewrite Hnear. apply list_elem_of_here. }
  destruct (mi_bound _ _ _ _ HM o c Hmo) as [Hc0 Hcb].
  rewrite u64_small by (fold c; lia). fold c.
  assert (Hnd := w_nodup _ _ HW c). rewrite Hnear in Hnd. apply list.NoDup_cons in Hnd as [Hor Hndr].
  assert (Hfo : forall c', (c', o) ∉ feMap q1).
  { intros c' Hf'. apply (MInv_near_uniq _ _ _ _ _ _ HM Hf' c). rewrite Hnear. apply list_elem_of_here. }
  split_and!; try done.
  - intros o' c' Ho'. destruct (decide (c <= c')) as [|Hlt]; [done|exfalso].
    pose proof (QInv_ge _ _ _ _ _ HQ Ho') as Hge.
    assert (Hc' : curBlock q1 * 64 <= c').
    { pose proof (Z_div_mod_eq_full c' 64). pose proof (Z.mod_pos_bound c' 64 ltac:(lia)). lia. }
    apply (mi_map _ _ _ _ HM) in Ho' as [Hn|Hfar].
    + rewrite Hlow in Hn by lia. by apply elem_of_nil in Hn.
    + pose proof (qi_far _ _ _ HQ c' o' Hfar). pose proof (farBase_bounds q1). pose proof half_two. pose proof half_pos.
      assert (c' / 64 <= c / 64) by (apply Z.div_le_mono; lia). lia.
  - exists (updZ near c rest). split.
    + assert (Hsd : base.size (delete o m) = Nat.pred (base.size m)) by (apply map_size_delete_Some; by eexists).
      assert (Hs1 : base.size m <> 0%nat).
      { intros Hz. apply map_size_empty_inv in Hz. by rewrite Hz, lookup_empty in Hmo. }
      pose proof (mi_elems _ _ _ _ HM) as Hel. pose proof (mi_size _ _ _ _ HM) as Hels.
      split; cbn; rewrite ?Hfe2, ?Hel2; try apply HM.
      * by destruct HW2.
      * intros o' c'. rewrite lookup_delete_Some, (mi_map _ _ _ _ HM o' c'). unfold updZ. case_decide as Hd.
        -- subst c'. rewrite Hnear, elem_of_cons. split; [naive_solver|].
           intros [Hr|Hr]; (split; [|auto]); intros <-; [done|by apply (Hfo c)].
        -- split; [naive_solver|]. intros Hr. split; [|done]. intros <-. destruct Hr as [Hr|Hr]; [|by apply (Hfo c')].
           apply Hd, (w_uniq _ _ HW c' c o); [done|]. rewrite Hnear. apply list_elem_of_here.
      * intros c' o' Hf'. rewrite Hnx2; [by apply (mi_fnext _ _ _ _ HM c')|]. intros ->. by apply (Hfo c').
      * intros c' o' Hf'. assert (Hd := mi_disj _ _ _ _ HM c' o' Hf'). unfold updZ. case_decide; [|done].
        subst c'. rewrite Hnear in Hd. by apply not_elem_of_cons in Hd as [_ ?].
      * rewrite Hsd, Hel, u64_small; lia.
      * rewrite Hel, u64_small; lia.
      * intros o' c'. rewrite lookup_delete_Some. intros [_ Ho']. by apply (mi_bound _ _ _ _ HM o').
    + intros c' o'. unfold farBase. cbn. rewrite Hfe2, Hcb2. apply (qi_far _ _ _ HQ).
  - cbn. by rewrite Hcb2.
Qed.

(** The loops of [firstCycle]: the first populated cycle of a range of blocks. *)
Lemma first_occ_spec q near m i n : QInv q near m -> (i + n <= B)%nat ->
  (forall c, curBlock q <= c / 64 < curBlock q + Z.of_nat i -> near c = []) ->
  exists r, first_occ B q i n = Ok r /\
    match r with
    | Some c => near c <> [] /\ curBlock q <= c / 64 < curBlock q + Z.of_nat (i + n) /\
                forall c', c' < c -> near c' = []
    | None => forall c, curBlock q <= c / 64 < curBlock q + Z.of_nat (i + n) -> near c = []
    end.
Proof.
  intros HQ. assert (HM := qi_m _ _ _ HQ). assert (HW := mi_win _ _ _ _ HM). pose proof (w_cur _ _ HW) as Hcur.
  revert i. induction n as [|n IH]; intros i Hin Hlow.
  { exists None. split; [done|]. by rewrite Nat.add_0_r. }
  set (x := curBlock q + Z.of_nat i).
  destruct (lookup_lt_is_Some_2 (blocks q) (blockIdx B x)) as [b Hb].
  { rewrite (w_len _ _ HW). apply blockIdx_lt. }
  destruct (w_arr _ _ HW _ _ Hb) as [Hl Hr].
  assert (Hp : forall p, 0 <= p < 64 -> (Z.testbit (occ b) p = true <-> near (x * 64 + p) <> [])).
  { intros p Hp. destruct (div64 x p Hp) as [Hd Hm].
    destruct (w_blk _ _ HW (x * 64 + p)) as (b'&h&Hb'&_&_&Ho); [unfold inwin; rewrite Hd; unfold x; lia|].
    rewrite Hd, Hb in Hb'. injection Hb' as <-. by rewrite Hm in Ho. }
  assert (Hblk : forall c, c / 64 = x -> exists p, 0 <= p < 64 /\ c = x * 64 + p).
  { intros c Hc. exists (c mod 64). pose proof (Z.mod_pos_bound c 64 ltac:(lia)).
    pose proof (Z_div_mod_eq_full c 64). lia. }
  cbn [first_occ]. fold x. rewrite (arr_get_Some _ _ _ Hb). cbn [mbind res_bind].
  destruct (Z.eqb_spec (occ b) 0) as [Hz|Hnz].
  - destruct (IH (Datatypes.S i)) as (r&Hr'&Hrs); [lia| |].
    { intros c Hc. destruct (decide (c / 64 = x)) as [Heq|Hne].
      - destruct (Hblk c Heq) as (p&Hpr&->). destruct (Hp p Hpr) as [_ Hq].
        rewrite Hz, Z.bits_0 in Hq. destruct (near (x * 64 + p)); [done|]. by discriminate Hq.
      - apply Hlow. unfold x in Hne. lia. }
    exists r. split; [done|]. replace (i + Datatypes.S n)%nat with (Datatypes.S i + n)%nat by lia. done.
  - destruct (ctzl_spec (occ b)) as (Hbit&Hpos&Hlo); [lia|].
    set (pos := builtin_ctzl (occ b)) in *.
    assert (Hn : near (x * 64 + Z.of_nat pos) <> []) by (apply Hp; [lia|done]).
    assert (Hbd : x * 64 + Z.of_nat pos < two64).
    { destruct (near (x * 64 + Z.of_nat pos)) as [|o l] eqn:E; [done|].
      destruct (mi_bound _ _ _ _ HM o (x * 64 + Z.of_nat pos)) as [_ ?]; [|lia].
      apply (mi_map _ _ _ _ HM). left. rewrite E. apply list_elem_of_here. }
    exists (Some (x * 64 + Z.of_nat pos)). rewrite u64_small by (unfold x in *; lia). split; [done|].
    destruct (div64 x (Z.of_nat pos) ltac:(lia)) as [Hd _]. split_and!; [done|unfold x in *; lia|unfold x in *; lia|].
    intros c' Hc'. destruct (decide (inwin q c')) as [Hw|Hw]; [|by apply (w_out _ _ HW)].
    destruct (decide (c' / 64 < x)) as [Hlt|Hge]; [apply Hlow; unfold x, inwin in *; lia|].
    assert (c' / 64 <= x).
    { rewrite <- Hd. apply Z.div_le_mono; lia. }
    destruct (Hblk c') as (p&Hpr&->); [lia|]. destruct (Hp p Hpr) as [_ Hq].
    rewrite Hlo in Hq by lia. destruct (near (x * 64 + p)); [done|]. by discriminate Hq.
Qed.

Lemma firstCycle_spec q m o c : Rep q m -> m !! o = Some c ->
  exists c1, firstCycle B q = Ok c1 /\ (exists o1, m !! o1 = Some c1) /\
    forall o' c', m !! o' = Some c' -> c1 <= c'.
Proof.
  intros [near HQ] Ho. assert (HM := qi_m _ _ _ HQ). assert (HW := mi_win _ _ _ _ HM).
  pose proof half_two. pose proof half_pos. pose proof (farBase_bounds q) as Hfb.
  assert (Hsz : base.size m <> 0%nat).
  { intros Hz. apply map_size_empty_inv in Hz. by rewrite Hz, lookup_empty in Ho. }
  unfold firstCycle.
  replace (negb (elems q =? 0)) with true
    by (symmetry; apply negb_true_iff, Z.eqb_neq; rewrite (mi_elems _ _ _ _ HM); lia).
  cbn [rassert mbind res_bind].
  assert (Hnear : forall c1, near c1 <> [] -> exists o1, m !! o1 = Some c1).
  { intros c1 Hn. destruct (near c1) as [|o1 l] eqn:E; [done|]. exists o1.
    apply (mi_map _ _ _ _ HM). left. rewrite E. apply list_elem_of_here. }
  assert (Hsplit : forall o' c', m !! o' = Some c' -> near c' <> [] \/ (c', o') ∈ feMap q).
  { intros o' c' Hm. apply (mi_map _ _ _ _ HM) in Hm as [Hn|Hf]; [left|by right]. intros E. rewrite E in Hn. by apply elem_of_nil in Hn. }
  destruct (first_occ_spec q near m 0 (B / 2) HQ) as (r1&->&Hr1); [lia|intros; lia|]. cbn [mbind res_bind].
  destruct r1 as [c1|].
  { destruct Hr1 as (Hn1&Hc1&Hlow). exists c1. split_and!; [done|by apply Hnear|].
    intros o' c' Hm. destruct (decide (c1 <= c')) as [|Hlt]; [done|exfalso].
    destruct (Hsplit o' c' Hm) as [Hn|Hf]; [apply Hn, Hlow; lia|].
    pose proof (qi_far _ _ _ HQ c' o' Hf). assert (c' / 64 <= c1 / 64) by (apply Z.div_le_mono; lia). lia. }
  destruct (first_occ_spec q near m (B / 2) (B - B / 2) HQ) as (r2&->&Hr2); [lia|exact Hr1|]. cbn [mbind res_bind].
  assert (Hhead : forall c' o' fe c2 o2, feMap q = (c', o') :: fe -> (c2, o2) ∈ feMap q -> c' <= c2).
  { intros c' o' fe c2 o2 Hfe Hin. pose proof (mi_sorted _ _ _ _ HM) as Hs. rewrite Hfe in Hs, Hin. simpl in Hs.
    apply StronglySorted_inv in Hs as [_ Hs]. apply elem_of_cons in Hin as [[= -> ->]|Hin]; [lia|].
    rewrite list.Forall_forall in Hs. apply Hs. apply list_elem_of_fmap. by exists (c2, o2). }
  assert (Hfar : forall c' o' fe, feMap q = (c', o') :: fe -> m !! o' = Some c').
  { intros c' o' fe Hfe. apply (mi_map _ _ _ _ HM). right. rewrite Hfe. apply list_elem_of_here. }
  destruct r2 as [c2|].
  - destruct Hr2 as (Hn2&Hc2&Hlow). destruct (feMap q) as [|[c' o'] fe] eqn:Hfe.
    + exists c2. split_and!; [done|by apply Hnear|]. intros o2 c3 Hm.
      destruct (decide (c2 <= c3)) as [|Hlt]; [done|exfalso].
      destruct (Hsplit o2 c3 Hm) as [Hn|Hf]; [apply Hn, Hlow; lia|by apply elem_of_nil in Hf].
    + rewrite MIN_min. exists (Z.min c2 c'). split_and!; [done| |].
      * destruct (Z.min_spec c2 c') as [[_ ->]|[_ ->]]; [by apply Hnear|]. exists o'. by eapply Hfar.
      * intros o2 c3 Hm. destruct (Hsplit o2 c3 Hm) as [Hn|Hf].
        -- destruct (decide (c2 <= c3)) as [|Hlt]; [lia|]. exfalso. apply Hn, Hlow. lia.
        -- pose proof (Hhead c' o' fe c3 o2 eq_refl Hf). lia.
  - assert (Hall : forall c3, near c3 = []).
    { intros c3. destruct (decide (inwin q c3)) as [Hw|Hw]; [|by apply (w_out _ _ HW)].
      apply Hr2. unfold inwin in Hw. lia. }
    destruct (feMap q) as [|[c' o'] fe] eqn:Hfe.
    { destruct (Hsplit o c Ho) as [Hn|Hf]; [by destruct Hn|by apply elem_of_nil in Hf]. }
    cbn. exists c'. split_and!; [done|exists o'; by eapply Hfar|].
    intros o2 c3 Hm. destruct (Hsplit o2 c3 Hm) as [Hn|Hf]; [by destruct Hn|].
    exact (Hhead c' o' fe c3 o2 eq_refl Hf).
Qed.

Lemma init_Rep nxt : Rep (init B nxt) ∅.
Proof.
  exists (fun _ => []). split; [|intros c o Hf; by apply elem_of_nil in Hf]. split; cbn; try done.
  - split; cbn; try done.
    + apply length_replicate.
    + intros c _. exists init_block, None. rewrite lookup_replicate_2 by apply blockIdx_lt.
      split; [done|]. pose proof (Z.mod_pos_bound c 64 ltac:(lia)).
      split; [cbn [init_block array]; apply lookup_replicate_2; lia|]. split; [done|].
      cbn. by rewrite Z.bits_0.
    + intros i b [-> _]%lookup_replicate. by split.
    + intros c. constructor.
    + intros c c' o Ho. by apply elem_of_nil in Ho.
  - intros o c. rewrite lookup_empty. split; [done|]. intros [H|H]; by apply elem_of_nil in H.
  - intros c o Hf. by apply elem_of_nil in Hf.
  - constructor.
  - intros c o Hf. by apply elem_of_nil in Hf.
  - constructor.
Qed.
End Inv.

(** ** The queue implements the map *)

(** C12: [enqueue] adds the object at its cycle: it fails no assertion and the
    queue then represents the map with the new object, for any even number of
    blocks, a cycle not before the current block and below the 64-bit limit by
    the span of the blocks. *)
Theorem enqueue_refines B q m o c : (2 <= B)%nat -> Nat.Even B -> Rep B q m ->
  m !! o = None -> next q o = None -> curBlock q <= c / 64 -> 0 <= c ->
  c + 64 * (Z.of_nat B + 1) <= two64 -> Z.of_nat (base.size m) + 1 < two64 ->
  exists q', enqueue B o c q = Ok (tt, q') /\ Rep B q' (<[o := c]> m).
Proof.
  intros HB HB2 HR Hm Hn Hcur Hc Hcb Hsz.
  destruct (wp_elim _ _ _ (enqueue_spec B HB HB2 q m o c HR Hm Hn Hcur Hc Hcb Hsz)) as ([]&q'&Hrun&HR'&_).
  by exists q'.
Qed.

(** C13: [dequeue] of a nonempty queue terminates and removes an object whose cycle
    is the earliest of all, returning that cycle; the object's link is cleared, so
    that it can be queued again. *)
Theorem dequeue_earliest B fuel q m o0 c0 : (2 <= B)%nat -> Nat.Even B -> Rep B q m ->
  m !! o0 = Some c0 -> c0 / 64 - curBlock q < Z.of_nat fuel ->
  exists o c q', dequeue B fuel q = Ok ((o, c), q') /\ m !! o = Some c /\
    (forall o' c', m !! o' = Some c' -> c <= c') /\ Rep B q' (delete o m) /\ next q' o = None.
Proof.
  intros HB HB2 HR Hm Hf.
  destruct (wp_elim _ _ _ (dequeue_spec B HB HB2 fuel q m o0 c0 HR Hm Hf)) as ([o c]&q'&Hrun&?&?&?&_&?).
  by exists o, c, q'.
Qed.

(** [firstCycle] of a nonempty queue is the earliest cycle of its objects, and
    [size] is their number. *)
Theorem firstCycle_earliest B q m o c : (2 <= B)%nat -> Nat.Even B -> Rep B q m -> m !! o = Some c ->
  size q = Z.of_nat (base.size m) /\
  exists c1, firstCycle B q = Ok c1 /\ (exists o1, m !! o1 = Some c1) /\
    forall o' c', m !! o' = Some c' -> c1 <= c'.
Proof.
  intros HB HB2 HR Hm. split; [|by eapply firstCycle_spec].
  destruct HR as [near HQ]. apply (qi_m _ _ _ _ HQ).
Qed.

(** Objects 1, 2 and 3 at cycles 100, 70 and 1000 (beyond 4 blocks). *)
Definition ex_ops : M t unit := enqueue 4 1 100;; enqueue 4 2 70;; enqueue 4 3 1000.
Definition ex_map : gmap nat Z := {[1%nat := 100; 2%nat := 70; 3%nat := 1000]}.
Definition ex_queue : t := match ex_ops (init 4 (fun _ => None)) with Ok (_, q) => q | Err _ => init 4 (fun _ => None) end.

Lemma ex_Rep : Rep 4 ex_queue ex_map.
Proof.
  assert (H4 : (2 <= 4)%nat) by lia. assert (H4e : Nat.Even 4) by (by exists 2%nat).
  assert (Hwp : wp ex_ops (fun _ q => Rep 4 q ex_map) (init 4 (fun _ => None))).
  { unfold ex_ops. apply wp_bind. eapply wp_mono.
    { apply (enqueue_spec 4 H4 H4e _ ∅ 1%nat 100); try done. by apply init_Rep. }
    intros [] q1 (HR1&Hc1&Hn1). apply wp_bind. eapply wp_mono.
    { apply (enqueue_spec 4 H4 H4e q1 (<[1%nat := 100]> ∅) 2%nat 70); try done.
      - rewrite Hn1; done.
      - rewrite Hc1. done. }
    intros [] q2 (HR2&Hc2&Hn2). eapply wp_mono.
    { apply (enqueue_spec 4 H4 H4e q2 (<[2%nat := 70]> (<[1%nat := 100]> ∅)) 3%nat 1000); try done.
      - rewrite Hn2, Hn1; done.
      - rewrite Hc2, Hc1. done. }
    intros [] q3 (HR3&_&_). replace ex_map with (<[3%nat := 1000]> (<[2%nat := 70]> (<[1%nat := 100]> (∅ : gmap nat Z)))).
    - done.
    - vm_compute. reflexivity. }
  unfold ex_queue. destruct (wp_elim _ _ _ Hwp) as ([]&q&Hrun&HR). by rewrite Hrun.
Qed.

Lemma enqueue_refines_witness : exists q', enqueue 4 7 200 ex_queue = Ok (tt, q') /\ Rep 4 q' (<[7%nat := 200]> ex_map).
Proof.
  apply (enqueue_refines 4 ex_queue ex_map 7 200);
    [lia|exists 2%nat; reflexivity|exact ex_Rep|vm_compute; reflexivity|vm_compute; reflexivity|
     vm_compute; discriminate|lia|vm_compute; discriminate|vm_compute; reflexivity].
Defined.

Lemma dequeue_earliest_witness : exists o c q', dequeue 4 20 ex_queue = Ok ((o, c), q') /\ ex_map !! o = Some c.
Proof.
  destruct (dequeue_earliest 4 20 ex_queue ex_map 1 100) as (o&c&q'&H1&H2&_);
    [lia|exists 2%nat; reflexivity|exact ex_Rep|vm_compute; reflexivity|vm_compute; reflexivity|].
  exists o, c, q'. split; [exact H1|exact H2].
Defined.

Lemma firstCycle_earliest_witness : size ex_queue = 3 /\ exists c1, firstCycle 4 ex_queue = Ok c1.
Proof.
  destruct (firstCycle_earliest 4 ex_queue ex_map 1 100) as (H1&c1&H2&_);
    [lia|exists 2%nat; reflexivity|exact ex_Rep|vm_compute; reflexivity|].
  split; [exact H1|exists c1; exact H2].
Defined.

Lemma ex_drain : match (a ← dequeue 4 20; b ← dequeue 4 20; c ← dequeue 4 20; mret [a; b; c]) ex_queue with
  | Ok (l, q) => l = [(2%nat, 70); (1%nat, 100); (3%nat, 1000)] /\ size q = 0 | Err _ => False end.
Proof. vm_compute. split; reflexivity. Qed.
End PQ.
