(* ===== verification/Barrier.v ===== *)
(** * The phase barrier (src/src/barrier.h)

    Threads join, synchronize at the end of their phase and leave; at most
    [parallelThreads] of them run at a time.  Every operation is one atomic
    section under the scheduler's lock, followed for [join] and [sync] by a wait
    on the thread's futex word.  The invariant relates the run list, the states
    and the counters; after every operation some thread runs as long as some
    thread waits. *)

From S2P Require Import Prelude Bithacks.

Definition MAX_THREADS : nat := 2048.

Module Bar.

Inductive State := OFFLINE | WAITING | RUNNING | LEFT.
#[global] Instance State_eq_dec : EqDecision State.
Proof. solve_decision. Defined.

Record ThreadSyncInfo := mkInfo { state : State; futexWord : Z; lastIdx : nat }.

(** [rnd] is the state of the random number generator; [phases] counts the calls
    of [sched->callback()]. *)
Record t {R : Type} := mk {
  parallelThreads : Z;
  threadList : nat -> ThreadSyncInfo;
  runList : list nat;
  runListSize : nat;
  curThreadIdx : nat;
  runningThreads : Z;
  leftThreads : Z;
  phaseCount : Z;
  rnd : R;
  phases : Z
}.
Arguments t R : clear implicits.

Section Ops.
Context {R : Type} (randInt : R -> nat -> nat * R).
Abbreviation BM := (M (t R)).

Definition init (parallelThreads : Z) (lastIdx0 : nat -> nat) (rnd : R) : t R :=
  mk R parallelThreads (fun tid => mkInfo OFFLINE 0 (lastIdx0 tid)) (replicate MAX_THREADS 0%nat) 0 0 0 0 0 rnd 0.

(** Field updates. *)
Definition set_thread (tid : nat) (f : ThreadSyncInfo -> ThreadSyncInfo) (b : t R) : t R :=
  mk R (parallelThreads b) (upd (threadList b) tid (f (threadList b tid))) (runList b) (runListSize b)
    (curThreadIdx b) (runningThreads b) (leftThreads b) (phaseCount b) (rnd b) (phases b).
Definition with_state (s : State) (i : ThreadSyncInfo) : ThreadSyncInfo := mkInfo s (futexWord i) (lastIdx i).
Definition with_futexWord (w : Z) (i : ThreadSyncInfo) : ThreadSyncInfo := mkInfo (state i) w (lastIdx i).
Definition with_lastIdx (l : nat) (i : ThreadSyncInfo) : ThreadSyncInfo := mkInfo (state i) (futexWord i) l.
Definition set_runList (l : list nat) (b : t R) : t R :=
  mk R (parallelThreads b) (threadList b) l (runListSize b)
    (curThreadIdx b) (runningThreads b) (leftThreads b) (phaseCount b) (rnd b) (phases b).
Definition set_runListSize (n : nat) (b : t R) : t R :=
  mk R (parallelThreads b) (threadList b) (runList b) n
    (curThreadIdx b) (runningThreads b) (leftThreads b) (phaseCount b) (rnd b) (phases b).
Definition set_curThreadIdx (n : nat) (b : t R) : t R :=
  mk R (parallelThreads b) (threadList b) (runList b) (runListSize b)
    n (runningThreads b) (leftThreads b) (phaseCount b) (rnd b) (phases b).
Definition add_running (d : Z) (b : t R) : t R :=
  mk R (parallelThreads b) (threadList b) (runList b) (runListSize b)
    (curThreadIdx b) (u32 (runningThreads b + d)) (leftThreads b) (phaseCount b) (rnd b) (phases b).
Definition set_left (n : Z) (b : t R) : t R :=
  mk R (parallelThreads b) (threadList b) (runList b) (runListSize b)
    (curThreadIdx b) (runningThreads b) n (phaseCount b) (rnd b) (phases b).
Definition set_phase (n : Z) (ph : Z) (b : t R) : t R :=
  mk R (parallelThreads b) (threadList b) (runList b) (runListSize b)
    (curThreadIdx b) (runningThreads b) (leftThreads b) n (rnd b) ph.
Definition set_rnd (r : R) (b : t R) : t R :=
  mk R (parallelThreads b) (threadList b) (runList b) (runListSize b)
    (curThreadIdx b) (runningThreads b) (leftThreads b) (phaseCount b) r (phases b).

Definition bget : BM (t R) := mget.
Definition nofuel {A} : BM A := fun _ => Err OutOfFuel.
Definition run_get (i : nat) : BM nat := b ← bget; mlift (arr_get (runList b) i).
Definition run_set (i x : nat) : BM unit :=
  b ← bget; l ← mlift (arr_set (runList b) i x); mmodify (set_runList l).

(** [checkRunList]: the loop runs at most [fuel] times. *)
Fixpoint checkRunList (fuel : nat) : BM unit :=
  b ← bget;
  if (runningThreads b <? parallelThreads b) && (curThreadIdx b <? runListSize b)%nat then
    match fuel with
    | O => nofuel
    | Datatypes.S fuel' =>
      let idx := curThreadIdx b in
      mmodify (set_curThreadIdx (Datatypes.S idx));;
      wtid ← run_get idx;
      (if bool_decide (state (threadList b wtid) = WAITING) then
         mmodify (set_thread wtid (with_state RUNNING));;
         mmodify (set_thread wtid (with_lastIdx idx));;
         massert (futexWord (threadList b wtid) =? 1) "Wakeup race in barrier?";;
         mmodify (set_thread wtid (with_futexWord 0));;
         mmodify (add_running 1)
       else mret tt);;
      checkRunList fuel'
    end
  else mret tt.

(** The cleanup pass: LEFT threads go OFFLINE and off the list; returns [newSize]. *)
Fixpoint cleanup (fuel : nat) (idx newSize : nat) : BM nat :=
  if (idx <? newSize)%nat then
    match fuel with
    | O => nofuel
    | Datatypes.S fuel' =>
      wtid ← run_get idx;
      b ← bget;
      if bool_decide (state (threadList b wtid) = LEFT) then
        mmodify (set_thread wtid (with_state OFFLINE));;
        stid ← run_get (newSize - 1);
        run_set idx stid;;
        mmodify (set_thread stid (with_lastIdx idx));;
        cleanup fuel' idx (newSize - 1)
      else cleanup fuel' (Datatypes.S idx) newSize
    end
  else mret newSize.

(** The Fisher-Yates shuffle, for [i] down to 1. *)
Fixpoint shuffle (i : nat) : BM unit :=
  match i with
  | O => mret tt
  | Datatypes.S i' =>
    b ← bget;
    let '(j, r) := randInt (rnd b) i in
    mmodify (set_rnd r);;
    itid ← run_get i;
    jtid ← run_get j;
    run_set i jtid;;
    run_set j itid;;
    mmodify (set_thread itid (with_lastIdx j));;
    mmodify (set_thread jtid (with_lastIdx i));;
    shuffle i'
  end.

Definition checkEndPhase : BM unit :=
  b ← bget;
  if (curThreadIdx b =? runListSize b)%nat && (runningThreads b =? 0) then
    if leftThreads b =? Z.of_nat (runListSize b) then mret tt
    else
      mmodify (fun b => set_phase (phaseCount b) (phases b + 1) b);;
      mmodify (set_curThreadIdx 0);;
      b ← bget;
      mmodify (fun b => set_phase (u32 (phaseCount b + 1)) (phases b) b);;
      (if Z.land (phaseCount b) (32 - 1) =? 0 then
         massert (0 <? runListSize b)%nat "runListSize > 0";;
         newSize ← cleanup (runListSize b) 0 (runListSize b);
         b ← bget;
         massert (Z.of_nat (runListSize b) - Z.of_nat newSize =? leftThreads b)
           "runListSize - newSize == leftThreads";;
         mmodify (set_left 0);;
         mmodify (set_runListSize newSize)
       else mret tt);;
      b ← bget;
      if parallelThreads b <? Z.of_nat (runListSize b) then shuffle (runListSize b - 1) else mret tt
  else mret tt.

Definition tryWakeNext : BM unit :=
  b ← bget; checkRunList (runListSize b);;
  checkEndPhase;;
  b ← bget; checkRunList (runListSize b).

(** The atomic part of [join]. *)
Definition join (tid : nat) : BM unit :=
  massert (tid <? MAX_THREADS)%nat "tid < MAX_THREADS";;
  b ← bget;
  let s := state (threadList b tid) in
  massert (bool_decide (s = LEFT) || bool_decide (s = OFFLINE)) "state == LEFT || state == OFFLINE";;
  (if bool_decide (s = OFFLINE) then
     run_set (runListSize b) tid;;
     mmodify (set_runListSize (Datatypes.S (runListSize b)))
   else
     mmodify (set_left (u32 (leftThreads b - 1)));;
     let lastIdx := lastIdx (threadList b tid) in
     if (lastIdx <? curThreadIdx b)%nat then
       let cur := (curThreadIdx b - 1)%nat in
       mmodify (set_curThreadIdx cur);;
       ltid ← run_get lastIdx;
       massert (tid =? ltid)%nat "tid == runList[lastIdx]";;
       otherTid ← run_get cur;
       run_set lastIdx otherTid;;
       run_set cur tid;;
       mmodify (set_thread otherTid (with_lastIdx lastIdx));;
       mmodify (set_thread tid (with_lastIdx cur))
     else mret tt);;
  mmodify (set_thread tid (with_state WAITING));;
  mmodify (set_thread tid (with_futexWord 1));;
  tryWakeNext.

Definition leave (tid : nat) : BM unit :=
  massert (tid <? MAX_THREADS)%nat "tid < MAX_THREADS";;
  b ← bget;
  if bool_decide (state (threadList b tid) = RUNNING) then
    mmodify (set_thread tid (with_state LEFT));;
    mmodify (set_left (u32 (leftThreads b + 1)));;
    mmodify (add_running (-1));;
    tryWakeNext
  else
    massert (bool_decide (state (threadList b tid) = WAITING)) "leave, incorrect state";;
    mmodify (set_thread tid (with_state LEFT));;
    mmodify (set_left (u32 (leftThreads b + 1))).

(** The atomic part of [sync]. *)
Definition sync (tid : nat) : BM unit :=
  massert (tid <? MAX_THREADS)%nat "tid < MAX_THREADS";;
  b ← bget;
  massert (bool_decide (state (threadList b tid) = RUNNING)) "sync: state was supposed to be RUNNING";;
  mmodify (set_thread tid (with_futexWord 1));;
  mmodify (set_thread tid (with_state WAITING));;
  mmodify (add_running (-1));;
  tryWakeNext.

(** The end of [join] and [sync]: does the thread still wait, and does it pass the
    assertion once its futex word lets it through? *)
Definition blocked (tid : nat) (b : t R) : bool :=
  bool_decide (state (threadList b tid) = WAITING) && (futexWord (threadList b tid) =? 1).
Definition wake_assert (tid : nat) (b : t R) : bool :=
  bool_decide (state (threadList b tid) = RUNNING).
End Ops.

(** ** Counting threads by state *)
Definition cnt (s : State) (f : nat -> ThreadSyncInfo) (l : list nat) : nat :=
  length (filter (fun tid => state (f tid) = s) l).
Definition ind (s s' : State) : nat :=
  match s, s' with
  | OFFLINE, OFFLINE | WAITING, WAITING | RUNNING, RUNNING | LEFT, LEFT => 1
  | _, _ => 0
  end.
Lemma ind_true s : ind s s = 1%nat.
Proof. by destruct s. Qed.

Lemma cnt_cons s f x l : cnt s f (x :: l) = (ind (state (f x)) s + cnt s f l)%nat.
Proof. unfold cnt. rewrite filter_cons. destruct (state (f x)), s; case_decide; done. Qed.
Lemma cnt_app s f l l' : cnt s f (l ++ l') = (cnt s f l + cnt s f l')%nat.
Proof. unfold cnt. by rewrite list.filter_app, length_app. Qed.
Lemma cnt_perm s f l l' : l ≡ₚ l' -> cnt s f l = cnt s f l'.
Proof. unfold cnt. by intros ->. Qed.
Lemma cnt_ext s f g l : (forall x, x ∈ l -> state (f x) = state (g x)) -> cnt s f l = cnt s g l.
Proof.
  induction l as [|x l IH]; intros H; [done|]. rewrite !cnt_cons, (H x), IH; [done| |]; set_solver.
Qed.
Lemma cnt_state_le s f l : (cnt s f l <= length l)%nat.
Proof. unfold cnt. apply length_filter. Qed.
Lemma cnt_state_pos s f l x : x ∈ l -> state (f x) = s -> (0 < cnt s f l)%nat.
Proof.
  induction l as [|y l IH]; intros Hx Hs; [set_solver|]. rewrite cnt_cons.
  apply elem_of_cons in Hx as [->|Hx]; [rewrite Hs, ind_true; lia|].
  specialize (IH Hx Hs). lia.
Qed.
Lemma cnt_zero s f l : cnt s f l = 0%nat -> forall x, x ∈ l -> state (f x) <> s.
Proof. intros H x Hx Hs. pose proof (cnt_state_pos s f l x Hx Hs). lia. Qed.
Lemma cnt_none s f l : (forall x, x ∈ l -> state (f x) <> s) -> cnt s f l = 0%nat.
Proof.
  induction l as [|x l IH]; intros H; [done|]. rewrite cnt_cons, IH by set_solver.
  assert (state (f x) <> s) by set_solver. by destruct (state (f x)), s.
Qed.

(** Changing the information of one thread of the list moves one unit between counts. *)
Lemma cnt_upd s f x i l :
  NoDup l -> x ∈ l ->
  (cnt s (upd f x i) l + ind (state (f x)) s = cnt s f l + ind (state i) s)%nat.
Proof.
  induction l as [|y l IH]; intros Hnd Hx; [set_solver|].
  apply list.NoDup_cons in Hnd as [Hy Hnd]. rewrite !cnt_cons.
  destruct (decide (x = y)) as [->|Hne].
  - rewrite upd_eq. rewrite (cnt_ext s (upd f y i) f l); [lia|].
    intros z Hz. rewrite upd_ne; [done|]. intros ->. done.
  - rewrite upd_ne by done. specialize (IH Hnd). apply elem_of_cons in Hx as [?|Hx]; [done|].
    specialize (IH Hx). lia.
Qed.
Lemma cnt_upd_out s f x i l : x ∉ l -> cnt s (upd f x i) l = cnt s f l.
Proof. intros Hx. apply cnt_ext. intros y Hy. rewrite upd_ne; [done|]. intros ->. done. Qed.

(** ** The invariant *)
Ltac upd_cases :=
  repeat (match goal with |- context [decide (?a = ?b)] => destruct (decide (a = b)) end; subst; cbn); done.

Section Inv.
Context {R : Type}.
Implicit Types b : t R.

Definition live b : list nat := take (runListSize b) (runList b).
Definition st b (tid : nat) : State := state (threadList b tid).
(** [lastIdx] is the thread's position in the run list. *)
Definition posOk b (tid : nat) : Prop := live b !! lastIdx (threadList b tid) = Some tid.
#[global] Instance posOk_dec b tid : Decision (posOk b tid).
Proof. unfold posOk. apply _. Defined.

Record BInv b : Prop := mkBInv {
  bi_len : length (runList b) = MAX_THREADS;
  bi_size : (runListSize b <= MAX_THREADS)%nat;
  bi_par : 0 < parallelThreads b;
  bi_nodup : NoDup (live b);
  bi_live : forall tid, tid ∈ live b <-> st b tid <> OFFLINE;
  bi_tid : forall tid, tid ∈ live b -> (tid < MAX_THREADS)%nat;
  bi_running : runningThreads b = Z.of_nat (cnt RUNNING (threadList b) (live b));
  bi_left : leftThreads b = Z.of_nat (cnt LEFT (threadList b) (live b));
  bi_limit : runningThreads b <= parallelThreads b;
  bi_cur : (curThreadIdx b <= runListSize b)%nat;
  bi_futex : forall tid, (st b tid = WAITING -> futexWord (threadList b tid) = 1) /\
                         (st b tid = RUNNING -> futexWord (threadList b tid) = 0);
  bi_ran : forall tid, st b tid = RUNNING ->
    exists i, (i < curThreadIdx b)%nat /\ live b !! i = Some tid;
  bi_pos : forall tid, st b tid = RUNNING \/ st b tid = LEFT -> posOk b tid
}.

Lemma live_length b : BInv b -> length (live b) = runListSize b.
Proof. intros H. unfold live. rewrite length_take, (bi_len b H). pose proof (bi_size b H). lia. Qed.

Lemma live_lookup b i : BInv b -> (i < runListSize b)%nat -> exists tid, runList b !! i = Some tid /\ live b !! i = Some tid.
Proof.
  intros H Hi. assert (Hl : (i < length (live b))%nat) by (by rewrite live_length).
  destruct (lookup_lt_is_Some_2 _ _ Hl) as [x Hx]. exists x. split; [|done].
  unfold live in Hx. rewrite lookup_take_lt in Hx by lia. done.
Qed.

Lemma live_inj b i j tid : BInv b -> live b !! i = Some tid -> live b !! j = Some tid -> i = j.
Proof. intros H. apply NoDup_lookup, (bi_nodup b H). Qed.

(** The counts fit their 32-bit fields. *)
Lemma cnt_bound b s : BInv b -> 0 <= Z.of_nat (cnt s (threadList b) (live b)) <= 2048.
Proof.
  intros H. pose proof (cnt_state_le s (threadList b) (live b)). rewrite live_length in H0 by done.
  pose proof (bi_size b H). unfold MAX_THREADS in *. lia.
Qed.
Lemma cnt_split f l :
  length l = (cnt OFFLINE f l + cnt WAITING f l + cnt RUNNING f l + cnt LEFT f l)%nat.
Proof.
  induction l as [|x l IH]; [done|]. rewrite !cnt_cons. cbn [length].
  destruct (state (f x)); cbn; lia.
Qed.

(** ** Waking the threads of the phase *)
Definition wake (tid idx : nat) b : t R :=
  add_running 1 (set_thread tid (with_futexWord 0) (set_thread tid (with_lastIdx idx)
    (set_thread tid (with_state RUNNING) (set_curThreadIdx (S idx) b)))).

Lemma wake_tl tid idx b x :
  threadList (wake tid idx b) x = if decide (tid = x) then mkInfo RUNNING 0 idx else threadList b x.
Proof. unfold wake, set_thread, upd, with_futexWord, with_lastIdx, with_state. cbn. by repeat case_decide. Qed.

Lemma wake_cnt tid idx b s :
  cnt s (threadList (wake tid idx b)) (live b) = cnt s (upd (threadList b) tid (mkInfo RUNNING 0 idx)) (live b).
Proof. apply cnt_ext. intros x _. rewrite wake_tl. unfold upd. by case_decide. Qed.

Lemma wake_inv tid b :
  BInv b -> (curThreadIdx b < runListSize b)%nat -> runningThreads b < parallelThreads b ->
  live b !! curThreadIdx b = Some tid -> st b tid = WAITING -> BInv (wake tid (curThreadIdx b) b).
Proof.
  intros H Hc Hr Hl Hs. set (idx := curThreadIdx b) in *. pose proof H as [].
  assert (Hin : tid ∈ live b) by (by eapply list_elem_of_lookup_2).
  pose proof (cnt_upd RUNNING (threadList b) tid (mkInfo RUNNING 0 idx) _ bi_nodup0 Hin) as C1.
  pose proof (cnt_upd LEFT (threadList b) tid (mkInfo RUNNING 0 idx) _ bi_nodup0 Hin) as C2.
  unfold st in Hs. rewrite Hs in C1, C2. cbn in C1, C2.
  pose proof (cnt_bound b RUNNING H).
  assert (Hlive : live (wake tid idx b) = live b) by done.
  constructor; rewrite ?Hlive, ?wake_cnt; unfold st, posOk in *; try done.
  - intros x. rewrite wake_tl, bi_live0. destruct (decide (tid = x)); [subst; cbn; rewrite Hs|]; done.
  - cbn. rewrite u32_small by (unfold two32; lia). lia.
  - cbn. lia.
  - cbn. rewrite u32_small by (unfold two32; lia). lia.
  - intros x. rewrite wake_tl. case_decide; [done|]. apply bi_futex0.
  - intros x. rewrite wake_tl. case_decide as Hx; cbn.
    + subst x. intros _. exists idx. split; [lia|done].
    + intros Hx'. destruct (bi_ran0 x Hx') as (i & ? & ?). exists i. split; [unfold idx; lia|done].
  - intros x. rewrite Hlive, wake_tl. case_decide; [by subst|]. apply bi_pos0.
Qed.

Lemma skip_inv b : BInv b -> (curThreadIdx b < runListSize b)%nat -> BInv (set_curThreadIdx (S (curThreadIdx b)) b).
Proof.
  intros H Hc. pose proof H as []. constructor; try done.
  intros x Hx. destruct (bi_ran0 x Hx) as (i & ? & ?). exists i. split; [cbn; lia|done].
Qed.

(** What [checkRunList] does: it moves forward in the run list and wakes the waiting
    threads it passes, nothing else. *)
Record Woken b b' : Prop := mkWoken {
  wk_list : runList b' = runList b;
  wk_size : runListSize b' = runListSize b;
  wk_par : parallelThreads b' = parallelThreads b;
  wk_left : leftThreads b' = leftThreads b;
  wk_phases : phases b' = phases b;
  wk_cur : (curThreadIdx b <= curThreadIdx b')%nat;
  wk_st : forall tid, st b' tid = st b tid \/
    st b tid = WAITING /\ st b' tid = RUNNING /\
    exists i, (curThreadIdx b <= i < curThreadIdx b')%nat /\ live b !! i = Some tid;
  wk_passed : forall i tid, (curThreadIdx b <= i < curThreadIdx b')%nat -> live b !! i = Some tid ->
    st b' tid <> WAITING
}.

Lemma Woken_refl b : Woken b b.
Proof. constructor; naive_solver lia. Qed.

Lemma Woken_live b b' : Woken b b' -> live b' = live b.
Proof. intros []. unfold live. congruence. Qed.

Lemma Woken_step b b1 b' :
  Woken b1 b' -> Woken b b1 -> Woken b b'.
Proof.
  intros H1 H2. pose proof (Woken_live _ _ H2) as E. destruct H1, H2. rewrite E in *.
  constructor; try congruence; [lia| |].
  - intros tid. destruct (wk_st0 tid) as [E1|(E1 & E2 & i & ? & ?)], (wk_st1 tid) as [E3|(E3 & E4 & j & ? & ?)].
    + left. congruence.
    + right. split; [done|]. split; [congruence|]. exists j. split; [lia|done].
    + right. split; [congruence|]. split; [done|]. exists i. split; [lia|done].
    + congruence.
  - intros i tid Hi Hl. destruct (decide (curThreadIdx b1 <= i)%nat).
    + apply (wk_passed0 i); [lia|done].
    + pose proof (wk_passed1 i tid ltac:(lia) Hl). destruct (wk_st0 tid) as [->|(E1 & E2 & ?)]; congruence.
Qed.

Lemma wake_Woken tid b :
  BInv b -> live b !! curThreadIdx b = Some tid -> st b tid = WAITING -> Woken b (wake tid (curThreadIdx b) b).
Proof.
  intros H Hl Hs. constructor; try done.
  - cbn. lia.
  - intros x. unfold st. rewrite wake_tl. destruct (decide (tid = x)) as [->|]; [right|by left].
    split; [done|]. split; [done|]. exists (curThreadIdx b). split; [cbn; lia|done].
  - intros i x Hi Hx. cbn in Hi. assert (i = curThreadIdx b) as -> by lia. simplify_eq.
    unfold st. rewrite wake_tl. by rewrite decide_True.
Qed.

Lemma skip_Woken tid b :
  live b !! curThreadIdx b = Some tid -> st b tid <> WAITING -> Woken b (set_curThreadIdx (S (curThreadIdx b)) b).
Proof.
  intros Hl Hs. constructor; try done.
  - cbn. lia.
  - intros x. by left.
  - intros i x Hi Hx. cbn in Hi. assert (i = curThreadIdx b) as -> by lia. by simplify_eq.
Qed.

Lemma run_get_ok b i tid Q : runList b !! i = Some tid -> Q tid b -> wp (run_get i) Q b.
Proof.
  intros Hi HQ. unfold run_get, bget. wp_steps. apply wp_lift. unfold rwp. by rewrite (arr_get_Some _ _ _ Hi).
Qed.
Lemma run_set_ok b i x (Q : unit -> t R -> Prop) :
  (i < length (runList b))%nat -> Q tt (set_runList (<[i:=x]> (runList b)) b) -> wp (run_set i x) Q b.
Proof.
  intros Hi HQ. unfold run_set, bget. wp_steps. apply wp_lift. unfold rwp. rewrite (arr_set_lt _ _ _ Hi).
  by wp_steps.
Qed.

Lemma checkRunList_spec fuel b :
  BInv b -> (runListSize b - curThreadIdx b <= fuel)%nat ->
  wp (checkRunList fuel) (fun _ b' => BInv b' /\ Woken b b' /\
    (runningThreads b' = parallelThreads b' \/ curThreadIdx b' = runListSize b')) b.
Proof.
  revert b. induction fuel as [|fuel IH]; intros b H Hf; cbn [checkRunList]; unfold bget; wp_steps.
  all: pose proof (bi_limit b H); pose proof (bi_cur b H).
  all: destruct (Z.ltb_spec (runningThreads b) (parallelThreads b)), (Nat.ltb_spec (curThreadIdx b) (runListSize b));
    cbn [andb]; try (wp_steps; split; [done|]; split; [apply Woken_refl|lia]).
  - lia.
  - destruct (live_lookup b (curThreadIdx b) H) as (tid & Hr & Hl); [done|].
    wp_steps. apply run_get_ok with tid; [done|]. apply wp_bind. case_bool_decide as Hs.
    + wp_steps. apply wp_assert; [by rewrite (proj1 (bi_futex b H tid) Hs)|]. wp_steps.
      change (wp (checkRunList fuel) (fun _ b' => BInv b' /\ Woken b b' /\
        (runningThreads b' = parallelThreads b' \/ curThreadIdx b' = runListSize b')) (wake tid (curThreadIdx b) b)).
      eapply wp_mono; [apply IH; [by apply wake_inv|cbn; lia]|]. intros _ b' (HI & HW & HE). split; [done|].
      split; [|done]. eapply Woken_step; [done|]. by apply wake_Woken.
    + wp_steps. eapply wp_mono; [apply IH; [by apply skip_inv|cbn; lia]|]. intros _ b' (HI & HW & HE). split; [done|].
      split; [|done]. eapply Woken_step; [done|]. by apply (skip_Woken tid).
Qed.

(** ** Removing a thread from the list and swapping two of its entries *)
Lemma remove_perm (l : list nat) i w x :
  l !! i = Some w -> l !! (length l - 1)%nat = Some x ->
  w :: take (length l - 1) (<[i := x]> l) ≡ₚ l.
Proof.
  intros Hi Hx. pose proof (lookup_lt_Some _ _ _ Hi) as Hlt.
  rewrite <- (Permutation_insert_swap l i (length l - 1) w x Hi Hx) at 3.
  set (l1 := <[i := x]> l). assert (Hl : length l1 = length l) by apply length_insert.
  rewrite <- Hl. rewrite (insert_take_drop l1 (length l1 - 1) w) by lia.
  rewrite (drop_ge l1) by lia. rewrite <- Permutation_middle. by rewrite app_nil_r.
Qed.

Definition dropped (idx : nat) (w x : nat) b : t R :=
  set_left (u32 (leftThreads b - 1)) (set_runListSize (runListSize b - 1)
    (set_thread x (with_lastIdx idx) (set_runList (<[idx := x]> (runList b)) (set_thread w (with_state OFFLINE) b)))).

Lemma dropped_st idx w x b y :
  st (dropped idx w x b) y = (if decide (w = y) then OFFLINE else st b y).
Proof. unfold st, dropped, set_thread, upd. cbn. upd_cases. Qed.
Lemma dropped_futex idx w x b y : futexWord (threadList (dropped idx w x b) y) = futexWord (threadList b y).
Proof. unfold dropped, set_thread, upd. cbn. upd_cases. Qed.
Lemma dropped_lastIdx idx w x b y :
  lastIdx (threadList (dropped idx w x b) y) = if decide (x = y) then idx else lastIdx (threadList b y).
Proof. unfold dropped, set_thread, upd. cbn. upd_cases. Qed.

Lemma dropped_live idx w x b :
  BInv b -> live b !! idx = Some w -> live b !! (runListSize b - 1)%nat = Some x ->
  w :: live (dropped idx w x b) ≡ₚ live b.
Proof.
  intros H Hi Hx. pose proof (lookup_lt_Some _ _ _ Hi) as Hlt. rewrite (live_length b H) in Hlt.
  rewrite <- (remove_perm (live b) idx w x Hi) by (by rewrite (live_length b H)).
  rewrite (live_length b H). unfold live at 2. rewrite <- take_insert_lt by lia.
  by rewrite take_take, Nat.min_l by lia.
Qed.

Lemma dropped_inv idx w x b :
  BInv b -> curThreadIdx b = 0%nat -> live b !! idx = Some w -> st b w = LEFT ->
  live b !! (runListSize b - 1)%nat = Some x -> BInv (dropped idx w x b).
Proof.
  intros H Hc Hi Hw Hx. pose proof (dropped_live idx w x b H Hi Hx) as HP.
  pose proof (lookup_lt_Some _ _ _ Hi) as Hlt. rewrite (live_length b H) in Hlt.
  pose proof (cnt_bound b LEFT H) as HB. pose proof H as [].
  assert (Hnd : NoDup (w :: live (dropped idx w x b))) by (by rewrite HP).
  apply list.NoDup_cons in Hnd as [Hnw Hnd].
  assert (Hcnt : forall s, cnt s (threadList b) (live b) =
      (ind LEFT s + cnt s (threadList (dropped idx w x b)) (live (dropped idx w x b)))%nat).
  { intros s. rewrite <- (cnt_perm s _ _ _ HP), cnt_cons. unfold st in Hw. rewrite Hw. f_equal. apply cnt_ext.
    intros y Hy. fold (st b y) (st (dropped idx w x b) y). rewrite dropped_st, decide_False; [done|]. by intros <-. }
  assert (Hrun : forall y, st b y <> RUNNING).
  { intros y Hy. destruct (bi_ran0 y Hy) as (i & ? & _). lia. }
  constructor; try done.
  - cbn. by rewrite length_insert.
  - cbn. lia.
  - intros y. rewrite dropped_st. destruct (decide (w = y)) as [<-|Hne]; [naive_solver|].
    rewrite <- bi_live0, <- HP. set_solver.
  - intros y Hy. apply bi_tid0. rewrite <- HP. by right.
  - cbn. rewrite bi_running0, Hcnt. done.
  - cbn. rewrite bi_left0, Hcnt in *. cbn in *. rewrite u32_small by (unfold two32; lia). lia.
  - cbn. lia.
  - intros y. rewrite dropped_st, dropped_futex. destruct (decide (w = y)); [done|]. apply bi_futex0.
  - intros y. rewrite dropped_st. destruct (decide (w = y)); [done|]. intros Hy. by apply Hrun in Hy.
  - intros y Hy. rewrite dropped_st in Hy. destruct (decide (w = y)) as [<-|Hne]; [naive_solver|].
    specialize (bi_pos0 y Hy). unfold posOk in *. rewrite dropped_lastIdx.
    assert (E : live (dropped idx w x b) = take (runListSize b - 1) (<[idx := x]> (runList b))) by done. rewrite E.
    pose proof (lookup_lt_Some _ _ _ bi_pos0) as Hlt'. rewrite (live_length b H) in Hlt'.
    destruct (decide (x = y)) as [<-|Hxy].
    + assert (idx <> runListSize b - 1)%nat by congruence.
      rewrite lookup_take_lt by lia. rewrite list_lookup_insert_eq; [done|]. rewrite bi_len0. lia.
    + assert (lastIdx (threadList b y) <> runListSize b - 1)%nat by congruence.
      assert (lastIdx (threadList b y) <> idx) by congruence.
      rewrite lookup_take_lt by lia. rewrite list_lookup_insert_ne by done.
      unfold live in bi_pos0. by rewrite lookup_take_lt in bi_pos0 by lia.
Qed.

(** [b'] is [b] with the entries [i] and [j] of the run list swapped (threads [x] and [y]). *)
Record Swapped (i j x y : nat) b b' : Prop := mkSwapped {
  sw_list : runList b' = <[j := x]> (<[i := y]> (runList b));
  sw_size : runListSize b' = runListSize b;
  sw_par : parallelThreads b' = parallelThreads b;
  sw_running : runningThreads b' = runningThreads b;
  sw_left : leftThreads b' = leftThreads b;
  sw_st : forall z, st b' z = st b z;
  sw_futex : forall z, futexWord (threadList b' z) = futexWord (threadList b z);
  sw_lastIdx : forall z, lastIdx (threadList b' z) =
    if decide (z = y) then i else if decide (z = x) then j else lastIdx (threadList b z)
}.

Lemma swapped_live i j x y b b' :
  Swapped i j x y b b' -> (i < runListSize b)%nat -> (j < runListSize b)%nat ->
  live b' = <[j := x]> (<[i := y]> (live b)).
Proof. intros [] Hi Hj. unfold live. rewrite sw_list0, sw_size0. by rewrite !take_insert_lt. Qed.

(** Where the swap moves a thread. *)
Lemma swapped_lookup i j x y b b' k z :
  BInv b -> live b !! i = Some x -> live b !! j = Some y -> Swapped i j x y b b' ->
  live b !! k = Some z ->
  live b' !! (if decide (z = y) then i else if decide (z = x) then j else k) = Some z.
Proof.
  intros H Hi Hj HS Hk.
  pose proof (lookup_lt_Some _ _ _ Hi) as Hi'. pose proof (lookup_lt_Some _ _ _ Hj) as Hj'.
  pose proof (live_length b H) as Hlen.
  rewrite (swapped_live _ _ _ _ _ _ HS) by lia.
  destruct (decide (z = y)) as [->|Hy].
  - destruct (decide (i = j)) as [->|Hij].
    + rewrite list_lookup_insert_eq by (rewrite length_insert; lia). congruence.
    + rewrite list_lookup_insert_ne by done. apply list_lookup_insert_eq. lia.
  - destruct (decide (z = x)) as [->|Hx].
    + apply list_lookup_insert_eq. rewrite length_insert. lia.
    + rewrite !list_lookup_insert_ne by congruence. done.
Qed.

Lemma swapped_inv i j x y b b' :
  BInv b -> live b !! i = Some x -> live b !! j = Some y -> Swapped i j x y b b' ->
  (curThreadIdx b' <= runListSize b)%nat ->
  (forall z, st b z = RUNNING -> exists k, (k < curThreadIdx b')%nat /\ live b' !! k = Some z) ->
  BInv b'.
Proof.
  intros H Hi Hj HS Hc Hran.
  pose proof (lookup_lt_Some _ _ _ Hi) as Hi'. pose proof (lookup_lt_Some _ _ _ Hj) as Hj'.
  rewrite (live_length b H) in Hi', Hj'.
  pose proof (swapped_live _ _ _ _ _ _ HS Hi' Hj') as HL.
  assert (HP : live b' ≡ₚ live b) by (rewrite HL; by apply Permutation_insert_swap).
  pose proof HS as []. pose proof H as [].
  assert (Hcnt : forall s, cnt s (threadList b') (live b') = cnt s (threadList b) (live b)).
  { intros s. rewrite (cnt_perm s _ _ _ HP). apply cnt_ext. intros z _. apply sw_st0. }
  constructor; rewrite ?HP, ?Hcnt; try congruence.
  - rewrite sw_list0. by rewrite !length_insert.
  - intros z. rewrite HP, sw_st0. apply bi_live0.
  - intros z. rewrite HP. apply bi_tid0.
  - intros z. rewrite sw_st0, sw_futex0. apply bi_futex0.
  - intros z. rewrite sw_st0. apply Hran.
  - intros z Hz. rewrite sw_st0 in Hz. unfold posOk. rewrite sw_lastIdx0.
    eapply swapped_lookup; try done. by apply bi_pos0.
Qed.

(** States that agree on everything the invariant reads. *)
Record Same b b' : Prop := mkSame {
  sm_list : runList b' = runList b;
  sm_size : runListSize b' = runListSize b;
  sm_cur : curThreadIdx b' = curThreadIdx b;
  sm_par : parallelThreads b' = parallelThreads b;
  sm_running : runningThreads b' = runningThreads b;
  sm_left : leftThreads b' = leftThreads b;
  sm_tl : forall z, threadList b' z = threadList b z
}.
Lemma Same_inv b b' : Same b b' -> BInv b -> BInv b'.
Proof.
  intros [] []. assert (E : live b' = live b) by (unfold live; congruence).
  assert (Hcnt : forall s, cnt s (threadList b') (live b') = cnt s (threadList b) (live b)).
  { intros s. rewrite E. apply cnt_ext. intros z _. by rewrite sm_tl0. }
  constructor; unfold st, posOk in *; rewrite ?Hcnt, ?E; try congruence.
  all: intros z; rewrite ?E, ?sm_tl0, ?sm_cur0; naive_solver.
Qed.

(** ** The end of the phase *)
Definition virt (n : nat) b : t R :=
  set_left (u32 (leftThreads b - Z.of_nat (runListSize b - n))) (set_runListSize n b).

(** The cleanup pass: [virt n b] is the state with the threads removed so far taken off. *)
Lemma cleanup_spec fuel idx n b :
  BInv (virt n b) -> curThreadIdx b = 0%nat -> (n <= runListSize b)%nat -> (idx <= n)%nat -> (n - idx <= fuel)%nat ->
  (runListSize b <= MAX_THREADS)%nat ->
  Z.of_nat (runListSize b - n) <= leftThreads b <= 2048 ->
  (forall i z, (i < idx)%nat -> live (virt n b) !! i = Some z -> st b z <> LEFT) ->
  wp (cleanup fuel idx n) (fun n' b' =>
    BInv (virt n' b') /\ (n' <= runListSize b')%nat /\
    (forall z, z ∈ live (virt n' b') -> st b' z <> LEFT) /\
    Z.of_nat (runListSize b' - n') <= leftThreads b' <= 2048 /\
    (forall z, st b' z = st b z \/ st b z = LEFT /\ st b' z = OFFLINE) /\
    runListSize b' = runListSize b /\ curThreadIdx b' = 0%nat /\ parallelThreads b' = parallelThreads b /\
    runningThreads b' = runningThreads b /\ leftThreads b' = leftThreads b /\ phases b' = phases b) b.
Proof.
  revert idx n b. induction fuel as [|fuel IH]; intros idx n b H Hc Hn Hi Hf Hsz Hleft Hdone; cbn [cleanup].
  all: destruct (Nat.ltb_spec idx n) as [Hlt|Hge]; [|assert (idx = n) as -> by lia].
  - lia.
  - wp_steps. split_and!; try done; try lia.
    + intros z (k & Hk)%list_elem_of_lookup. eapply Hdone; [|done].
      apply lookup_lt_Some in Hk. rewrite (live_length _ H) in Hk. done.
    + intros z. by left.
  - destruct (live_lookup _ idx H Hlt) as (w & Hr & Hl).
    destruct (live_lookup _ (n - 1) H) as (x & Hr' & Hl'); [cbn; lia|]. cbn [virt] in Hr, Hr'.
    pose proof (bi_left _ H) as HL.
    wp_steps. apply run_get_ok with w; [done|]. unfold bget. wp_steps. case_bool_decide as Hs.
    + assert (Hpos : 0 < leftThreads (virt n b)).
      { rewrite HL. pose proof (cnt_state_pos LEFT (threadList (virt n b)) (live (virt n b)) w) as Hp.
        specialize (Hp ltac:(by eapply list_elem_of_lookup_2) Hs). lia. }
      cbn in Hpos. rewrite u32_small in Hpos by (unfold two32; lia).
      wp_steps. apply run_get_ok with x; [done|]. wp_steps.
      apply run_set_ok; [pose proof (bi_len _ H) as Hlen; cbn in Hlen |- *; rewrite Hlen; lia|]. wp_steps.
      set (b1 := set_thread x (with_lastIdx idx) _).
      assert (HB : BInv (virt (n - 1) b1)).
      { eapply Same_inv; [|apply (dropped_inv idx w x (virt n b))]; try done.
        constructor; try done. cbn. rewrite (u32_small (_ - Z.of_nat (_ - n))) by (unfold two32; lia).
        f_equal. lia. }
      assert (Hst : forall z, st b1 z = if decide (w = z) then OFFLINE else st b z)
        by (intros z; apply (dropped_st idx w x (virt n b))).
      eapply wp_mono; [apply IH; try done; try (cbn; lia)|].
      * intros i z Hi' Hz. rewrite Hst. destruct (decide (w = z)); [done|]. apply (Hdone i); [done|].
        pose proof (lookup_lt_Some _ _ _ Hz) as Hk. rewrite (live_length _ HB) in Hk. cbn in Hk.
        unfold live in Hz |- *. cbn in Hz |- *. rewrite lookup_take_lt in Hz |- * by lia.
        by rewrite list_lookup_insert_ne in Hz by lia.
      * intros n' b' (? & ? & ? & ? & HS & E). split; [done|]. split; [done|]. split; [done|].
        split; [done|]. split; [|exact E]. intros z.
        specialize (HS z). rewrite Hst in HS. destruct (decide (w = z)) as [<-|]; [|done].
        destruct HS as [HS|[HS _]]; [by right|done].
    + apply IH; try done; try lia. intros i z Hi' Hz. destruct (decide (i = idx)) as [->|].
      * assert (w = z) as <- by congruence. done.
      * apply (Hdone i); [lia|done].
  - wp_steps. split_and!; try done; try lia.
    + intros z (k & Hk)%list_elem_of_lookup. eapply Hdone; [|done].
      apply lookup_lt_Some in Hk. rewrite (live_length _ H) in Hk. done.
    + intros z. by left.
Qed.

Lemma shuffle_spec (randInt : R -> nat -> nat * R) i b :
  (forall r n, (fst (randInt r n) <= n)%nat) ->
  BInv b -> curThreadIdx b = 0%nat -> (i < runListSize b)%nat ->
  wp (shuffle randInt i) (fun _ b' =>
    BInv b' /\ curThreadIdx b' = 0%nat /\ runListSize b' = runListSize b /\ (forall z, st b' z = st b z) /\
    parallelThreads b' = parallelThreads b /\ runningThreads b' = runningThreads b /\
    leftThreads b' = leftThreads b /\ phases b' = phases b) b.
Proof.
  intros Hrand. revert b. induction i as [|i IH]; intros b H Hc Hi; cbn [shuffle]; [by wp_steps|].
  unfold bget. wp_steps. pose proof (Hrand (rnd b) (S i)) as Hj.
  destruct (randInt (rnd b) (S i)) as [j r]. cbn in Hj. wp_steps.
  destruct (live_lookup b (S i) H Hi) as (x & Hx & Hlx). destruct (live_lookup b j H) as (y & Hy & Hly); [lia|].
  pose proof (bi_len b H) as Hlen. pose proof (bi_size b H).
  apply run_get_ok with x; [done|]. wp_steps. apply run_get_ok with y; [done|]. wp_steps.
  apply run_set_ok; [cbn; lia|]. wp_steps. apply run_set_ok; [cbn; rewrite length_insert; lia|]. wp_steps.
  match goal with |- wp _ _ ?s => set (b1 := s) end.
  assert (HS : Swapped (S i) j x y b b1).
  { constructor; try done; intros z; unfold b1, st, set_thread, upd; cbn; upd_cases. }
  assert (H1 : BInv b1).
  { apply (swapped_inv (S i) j x y b); try done; [change (curThreadIdx b <= runListSize b)%nat; lia|]. intros z Hz. destruct (bi_ran b H z Hz) as (k & ? & _). lia. }
  eapply wp_mono; [apply IH; try done; cbn; lia|]. intros _ b' (? & ? & ? & E & ?). do 3 (split; [done|]). split; [|done].
  intros z. rewrite E. apply (sw_st _ _ _ _ _ _ HS).
Qed.

(** A phase ends: the list is rewound, threads that left may go offline. *)
Record PhaseEnd b b' : Prop := mkPhaseEnd {
  pe_end : curThreadIdx b = runListSize b /\ runningThreads b = 0 /\ leftThreads b <> Z.of_nat (runListSize b);
  pe_cur : curThreadIdx b' = 0%nat;
  pe_par : parallelThreads b' = parallelThreads b;
  pe_running : runningThreads b' = 0;
  pe_phases : phases b' = phases b + 1;
  pe_st : forall z, st b' z = st b z \/ st b z = LEFT /\ st b' z = OFFLINE
}.

Lemma cleanup_finish n b :
  BInv (virt n b) -> (n <= runListSize b)%nat -> (runListSize b <= MAX_THREADS)%nat ->
  (forall z, z ∈ live (virt n b) -> st b z <> LEFT) ->
  Z.of_nat (runListSize b - n) <= leftThreads b <= 2048 ->
  Z.of_nat (runListSize b) - Z.of_nat n = leftThreads b /\ BInv (set_runListSize n (set_left 0 b)).
Proof.
  intros H Hn Hsz Hno Hl. pose proof (bi_left _ H) as HL.
  rewrite (cnt_none LEFT) in HL by exact Hno. cbn in HL. rewrite u32_small in HL by (unfold two32, MAX_THREADS in *; lia).
  split; [lia|]. eapply Same_inv; [|exact H]. constructor; try done. cbn. rewrite u32_small by (unfold two32; lia). lia.
Qed.

Definition EndPost b b' : Prop :=
  BInv b' /\
  (b' = b /\ (curThreadIdx b = runListSize b -> runningThreads b = 0 -> leftThreads b = Z.of_nat (runListSize b))
   \/ PhaseEnd b b').

Lemma checkEndPhase_spec (randInt : R -> nat -> nat * R) b :
  (forall r n, (fst (randInt r n) <= n)%nat) -> BInv b ->
  wp (checkEndPhase randInt) (fun _ => EndPost b) b.
Proof.
  intros Hrand H. unfold checkEndPhase, bget. wp_steps.
  destruct (Nat.eqb_spec (curThreadIdx b) (runListSize b)) as [Hc|Hc]; cbn [andb]; [|wp_steps; split; [done|]; left; done].
  destruct (Z.eqb_spec (runningThreads b) 0) as [Hr|Hr]; [|wp_steps; split; [done|]; left; done].
  destruct (Z.eqb_spec (leftThreads b) (Z.of_nat (runListSize b))) as [Hl|Hl]; [wp_steps; split; [done|]; by left|].
  wp_steps. set (b0 := set_phase _ _ (set_curThreadIdx 0 _)).
  assert (Hrun : forall z, st b z <> RUNNING).
  { intros z Hz. pose proof (bi_running b H) as HR. assert (Hz' : z ∈ live b) by (apply (bi_live b H); congruence).
    pose proof (cnt_state_pos RUNNING _ _ _ Hz' Hz). lia. }
  assert (H0 : BInv b0).
  { destruct H. constructor; try done; [cbn; lia|]. intros z Hz. by apply Hrun in Hz. }
  assert (Hsz : (0 < runListSize b)%nat).
  { destruct (runListSize b) eqn:E; [|lia]. exfalso. apply Hl. rewrite (bi_left b H). unfold live. by rewrite E. }
  assert (HF : forall b1, BInv b1 -> PhaseEnd b b1 ->
    wp (if parallelThreads b1 <? Z.of_nat (runListSize b1) then shuffle randInt (runListSize b1 - 1) else mret tt) (fun _ => EndPost b) b1).
  { intros b1 H1 HP. destruct (Z.ltb_spec (parallelThreads b1) (Z.of_nat (runListSize b1))).
    - pose proof (bi_par b1 H1). pose proof HP as [].
      eapply wp_mono; [apply shuffle_spec; try done; lia|]. intros [] b' (? & ? & ? & E & ? & ? & ? & ?). split; [done|]. right.
      constructor; try done; try congruence. intros z. rewrite E. apply pe_st0.
    - wp_steps. split; [done|]. by right. }
  destruct (Z.land _ _ =? 0); wp_steps.
  2:{ apply HF; [done|]. constructor; try done. intros z. by left. }
  apply wp_assert; [by apply Nat.ltb_lt|]. wp_steps.
  assert (Hv : BInv (virt (runListSize b0) b0)).
  { eapply Same_inv; [|exact H0]. constructor; try done. cbn. rewrite Nat.sub_diag.
    pose proof (cnt_bound b LEFT H). rewrite (bi_left b H). rewrite u32_small by (unfold two32; lia). lia. }
  pose proof (cnt_bound b LEFT H) as HB. pose proof (bi_left b H) as HL. pose proof (bi_size b H).
  eapply wp_mono; [apply (cleanup_spec _ _ _ b0); try done; [cbn; lia..|cbn; rewrite Nat.sub_diag; lia|lia]|].
  intros n b' (Hb' & Hn & Hno & Hle & HS & E1 & E2 & E3 & E4 & E5 & E6). wp_steps.
  destruct (cleanup_finish n b') as [Heq Hfin]; try done; [by rewrite E1|].
  apply wp_assert; [by apply Z.eqb_eq|]. wp_steps. apply HF; [done|].
  constructor; try done. by transitivity (runningThreads b0).
Qed.

(** Some thread runs, or every thread of the list left the barrier. *)
Definition Settled b : Prop := 0 < runningThreads b \/ leftThreads b = Z.of_nat (runListSize b).

Lemma waiting_exists b :
  BInv b -> runningThreads b = 0 -> leftThreads b <> Z.of_nat (runListSize b) ->
  exists z, z ∈ live b /\ st b z = WAITING.
Proof.
  intros H Hr Hl. pose proof (cnt_split (threadList b) (live b)) as Hs. rewrite (live_length b H) in Hs.
  rewrite (bi_running b H) in Hr. rewrite (bi_left b H) in Hl.
  assert (Ho : cnt OFFLINE (threadList b) (live b) = 0%nat) by (apply cnt_none; intros z Hz; by apply (bi_live b H)).
  unfold cnt in Hs. destruct (filter (fun tid => state (threadList b tid) = WAITING) (live b)) as [|z l] eqn:E.
  - unfold cnt in *. cbn in Hs. lia.
  - exists z. assert (Hz : z ∈ filter (fun tid => state (threadList b tid) = WAITING) (live b)) by (rewrite E; left).
    apply list_elem_of_filter in Hz. unfold st. naive_solver.
Qed.

(** A run of [checkRunList] from the start of the list, after a phase end, wakes a thread. *)
Lemma rewound_settled b b' :
  BInv b -> BInv b' -> Woken b b' -> curThreadIdx b = 0%nat ->
  (runningThreads b' = parallelThreads b' \/ curThreadIdx b' = runListSize b') -> Settled b'.
Proof.
  intros H H' HW Hc HE. pose proof (bi_par b' H'). destruct HE as [HE|HE]; [left; lia|].
  destruct (decide (runningThreads b' = 0)) as [Hr|Hr]; [|left; rewrite (bi_running b' H') in *; lia].
  right. destruct (decide (leftThreads b' = Z.of_nat (runListSize b'))) as [|Hl]; [done|]. exfalso.
  destruct (waiting_exists b' H' Hr Hl) as (z & (k & Hk)%list_elem_of_lookup & Hw).
  pose proof (lookup_lt_Some _ _ _ Hk) as Hlt. rewrite (live_length b' H') in Hlt.
  rewrite (Woken_live _ _ HW) in Hk. by apply (wk_passed _ _ HW k z); [lia|..].
Qed.

(** The effect of [tryWakeNext]: threads wake in the current phase, or the phase ends
    in between. *)
Inductive Wakes b b' : Prop :=
| wakes_same : Woken b b' -> Wakes b b'
| wakes_next b1 b2 : BInv b1 -> Woken b b1 -> PhaseEnd b1 b2 -> Woken b2 b' -> Wakes b b'.

Lemma tryWakeNext_spec (randInt : R -> nat -> nat * R) b :
  (forall r n, (fst (randInt r n) <= n)%nat) -> BInv b ->
  wp (tryWakeNext randInt) (fun _ b' => BInv b' /\ Settled b' /\ Wakes b b') b.
Proof.
  intros Hrand H. unfold tryWakeNext, bget. wp_steps.
  eapply wp_mono; [apply checkRunList_spec; [done|lia]|]. intros _ b1 (H1 & W1 & E1). wp_steps.
  eapply wp_mono; [by apply checkEndPhase_spec|]. intros _ b2 (H2 & E2). wp_steps.
  eapply wp_mono; [apply checkRunList_spec; [done|lia]|]. intros _ b3 (H3 & W3 & E3).
  split; [done|]. destruct E2 as [[-> Hno]|HP].
  - split; [|left; by eapply Woken_step].
    destruct E3 as [E3|E3]; [left; pose proof (bi_par b3 H3); lia|].
    pose proof (bi_par b1 H1). pose proof (bi_running b3 H3). destruct (decide (runningThreads b3 = 0)) as [Hr|]; [|left; lia].
    right. rewrite (wk_left _ _ W3), (wk_size _ _ W3).
    assert (Hr1 : runningThreads b1 = 0).
    { pose proof (bi_running b1 H1) as HR. destruct (decide (runningThreads b1 = 0)) as [|Hne]; [done|]. exfalso.
      rewrite HR in Hne. unfold cnt in Hne.
      destruct (filter (fun tid => state (threadList b1 tid) = RUNNING) (live b1)) as [|z l] eqn:E; [done|].
      assert (Hz : z ∈ filter (fun tid => state (threadList b1 tid) = RUNNING) (live b1)) by (rewrite E; left).
      apply list_elem_of_filter in Hz as [Hz Hin]. fold (st b1 z) in Hz.
      assert (Hz3 : st b3 z = RUNNING) by (destruct (wk_st _ _ W3 z) as [?|(? & ? & _)]; congruence).
      rewrite <- (Woken_live _ _ W3) in Hin. pose proof (cnt_state_pos RUNNING _ _ z Hin Hz3). lia. }
    destruct E1 as [E1|E1]; [lia|]. by apply Hno.
  - split; [|by apply (wakes_next _ _ b1 b2)]. eapply rewound_settled; [exact H2|..]; try done. by destruct HP.
Qed.

(** ** The operations *)
Lemma restate_inv b b' tid i :
  BInv b -> tid ∈ live b ->
  runList b' = runList b -> runListSize b' = runListSize b -> curThreadIdx b' = curThreadIdx b ->
  parallelThreads b' = parallelThreads b ->
  (forall z, threadList b' z = if decide (tid = z) then i else threadList b z) ->
  state i = WAITING /\ futexWord i = 1 \/ state i = LEFT /\ live b !! lastIdx i = Some tid ->
  runningThreads b' = runningThreads b - Z.of_nat (ind (st b tid) RUNNING) ->
  leftThreads b' = leftThreads b - Z.of_nat (ind (st b tid) LEFT) + Z.of_nat (ind (state i) LEFT) ->
  BInv b'.
Proof.
  intros H Hin El Es Ec Ep Et Hi Er Ef. pose proof H as [].
  assert (E : live b' = live b) by (unfold live; congruence).
  assert (Hcnt : forall s, (cnt s (threadList b') (live b') + ind (st b tid) s =
      cnt s (threadList b) (live b) + ind (state i) s)%nat).
  { intros s. rewrite E, <- (cnt_upd s (threadList b) tid i (live b)) by done. f_equal. apply cnt_ext.
    intros z _. rewrite Et. done. }
  pose proof (Hcnt RUNNING) as HR. pose proof (Hcnt LEFT) as HL. rewrite E in HR, HL.
  assert (ind (state i) RUNNING = 0)%nat by (destruct Hi as [[-> _]|[-> _]]; done).
  constructor; unfold st, posOk in *; rewrite ?E; try congruence; try lia.
  - intros z. rewrite ?E, Et, bi_live0. destruct (decide (tid = z)) as [<-|]; [|done].
    rewrite bi_live0 in Hin. destruct Hi as [[-> _]|[-> _]]; done.
  - intros z. rewrite ?E. apply bi_tid0.
  - intros z. rewrite Et. destruct (decide (tid = z)) as [<-|]; [|apply bi_futex0].
    destruct Hi as [[-> ?]|[-> _]]; done.
  - intros z. rewrite ?E, Et, Ec. destruct (decide (tid = z)) as [<-|]; [|apply bi_ran0].
    destruct Hi as [[-> ?]|[-> _]]; done.
  - intros z. rewrite ?E, Et. destruct (decide (tid = z)) as [<-|]; [|apply bi_pos0].
    destruct Hi as [[-> ?]|[-> ?]]; [|done]. intros [?|?]; done.
Qed.

(** A thread has arrived: it waits, and the current phase has already passed its entry.
    It is pending when the phase has yet to reach it. *)
Definition arrived b (z : nat) : Prop :=
  st b z = WAITING /\ exists k, (k < curThreadIdx b)%nat /\ live b !! k = Some z.
Definition pending b (z : nat) : Prop :=
  st b z = WAITING /\ exists k, (curThreadIdx b <= k)%nat /\ live b !! k = Some z.

(** What an operation of thread [tid] does before it wakes other threads. *)
Record Prep (tid : nat) b b0 : Prop := mkPrep {
  pr_inv : BInv b0;
  pr_phases : phases b0 = phases b;
  pr_par : parallelThreads b0 = parallelThreads b;
  pr_st : forall z, z <> tid -> st b0 z = st b z;
  pr_arrived : forall z, z <> tid -> arrived b z <-> arrived b0 z
}.

Lemma keep_prep tid b b0 :
  BInv b0 -> phases b0 = phases b -> parallelThreads b0 = parallelThreads b -> live b0 = live b -> curThreadIdx b0 = curThreadIdx b ->
  (forall z, z <> tid -> st b0 z = st b z) -> Prep tid b b0.
Proof.
  intros H Hp Hq Hl Hc Hs. constructor; try done. unfold arrived.
  intros z Hz. rewrite Hl, Hc, Hs by done. done.
Qed.

Lemma running_bound b : BInv b -> 0 <= runningThreads b <= 2048.
Proof. intros H. rewrite (bi_running b H). by apply cnt_bound. Qed.
Lemma left_bound b : BInv b -> 0 <= leftThreads b <= 2048.
Proof. intros H. rewrite (bi_left b H). by apply cnt_bound. Qed.
Lemma live_of_st b tid s : BInv b -> st b tid = s -> s <> OFFLINE -> tid ∈ live b.
Proof. intros H <- Hs. by apply (bi_live b H). Qed.
Lemma count_of_st b tid s : BInv b -> st b tid = s -> s <> OFFLINE ->
  0 < Z.of_nat (cnt s (threadList b) (live b)).
Proof. intros H Hs Ho. pose proof (cnt_state_pos s (threadList b) (live b) tid (live_of_st _ _ _ H Hs Ho) Hs). lia. Qed.
Lemma left_room b tid s : BInv b -> st b tid = s -> s = WAITING \/ s = RUNNING -> leftThreads b < 2048.
Proof.
  intros H Hs Hw. pose proof (cnt_split (threadList b) (live b)) as HC. rewrite (live_length b H) in HC.
  pose proof (bi_size b H). rewrite (bi_left b H). unfold MAX_THREADS in *.
  destruct Hw as [->| ->]; pose proof (count_of_st b tid _ H Hs ltac:(done)); lia.
Qed.

(** A thread that was offline enters at the end of the list. *)
Lemma push_room b tid : BInv b -> st b tid = OFFLINE -> (tid < MAX_THREADS)%nat -> (runListSize b < MAX_THREADS)%nat.
Proof.
  intros H Hs Ht. rewrite <- (live_length b H).
  assert (Hn : tid ∉ live b) by (rewrite (bi_live b H); naive_solver).
  enough (length (tid :: live b) <= length (seq 0 MAX_THREADS))%nat as HL by (rewrite length_seq in HL; cbn [length] in HL; lia).
  apply submseteq_length, NoDup_submseteq; [by apply list.NoDup_cons; split; [|apply (bi_nodup b H)]|].
  intros z [->|Hz]%elem_of_cons; apply elem_of_seq; [lia|]. pose proof (bi_tid b H z Hz). lia.
Qed.

Lemma push_live b b0 tid :
  BInv b -> (runListSize b < MAX_THREADS)%nat ->
  runList b0 = <[runListSize b := tid]> (runList b) -> runListSize b0 = S (runListSize b) -> live b0 = live b ++ [tid].
Proof.
  intros H Hr El Es. unfold live. rewrite El, Es. rewrite (take_S_r _ _ tid).
  - by rewrite take_insert_ge.
  - apply list_lookup_insert_eq. by rewrite (bi_len b H).
Qed.

Lemma push_inv b b0 tid :
  BInv b -> st b tid = OFFLINE -> (tid < MAX_THREADS)%nat ->
  runList b0 = <[runListSize b := tid]> (runList b) -> runListSize b0 = S (runListSize b) ->
  curThreadIdx b0 = curThreadIdx b -> parallelThreads b0 = parallelThreads b ->
  runningThreads b0 = runningThreads b -> leftThreads b0 = leftThreads b ->
  (forall z, threadList b0 z = if decide (tid = z) then mkInfo WAITING 1 (lastIdx (threadList b tid)) else threadList b z) ->
  BInv b0.
Proof.
  intros H Hs Ht El Es Ec Ep Er Ef Et. pose proof (push_room b tid H Hs Ht) as Hr.
  pose proof (push_live b b0 tid H Hr El Es) as HL.
  assert (Hn : tid ∉ live b) by (rewrite (bi_live b H); naive_solver).
  assert (Hcnt : forall s, cnt s (threadList b0) (live b0) = (cnt s (threadList b) (live b) + ind WAITING s)%nat).
  { intros s. rewrite HL, cnt_app, cnt_cons, Et, decide_True by done. cbn. rewrite Nat.add_0_r. f_equal.
    apply cnt_ext. intros z Hz. rewrite Et, decide_False; [done|]. by intros <-. }
  destruct H. constructor; rewrite ?HL; unfold st, posOk in *; try congruence.
  - rewrite El. by rewrite length_insert.
  - lia.
  - apply list.NoDup_app. split; [done|]. split; [set_solver|]. apply NoDup_singleton.
  - intros z. rewrite Et, elem_of_app, list_elem_of_singleton, bi_live0.
    destruct (decide (tid = z)) as [<-|]; naive_solver congruence.
  - intros z [Hz|Hz]%elem_of_app; [by apply bi_tid0|]. set_solver.
  - rewrite <- HL, Hcnt. cbn. lia.
  - rewrite <- HL, Hcnt. cbn. lia.
  - lia.
  - intros z. rewrite Et. destruct (decide (tid = z)); [done|]. apply bi_futex0.
  - intros z. rewrite Et, Ec. destruct (decide (tid = z)); [done|]. intros Hz. destruct (bi_ran0 z Hz) as (k & ? & ?).
    exists k. split; [done|]. by apply lookup_app_l_Some.
  - intros z. rewrite HL, Et. destruct (decide (tid = z)); [intros [?|?]; done|]. intros Hz.
    apply lookup_app_l_Some. by apply bi_pos0.
Qed.

(** A thread that left and comes back in a phase that already passed it trades places
    with the last passed thread and is scheduled next. *)
Lemma reschedule_inv b bS tid other :
  BInv b -> st b tid = LEFT -> (lastIdx (threadList b tid) < curThreadIdx b)%nat ->
  live b !! (curThreadIdx b - 1)%nat = Some other ->
  Swapped (lastIdx (threadList b tid)) (curThreadIdx b - 1) tid other b bS ->
  curThreadIdx bS = (curThreadIdx b - 1)%nat ->
  BInv bS /\ live bS !! curThreadIdx bS = Some tid /\ (forall z, z <> tid -> arrived b z <-> arrived bS z).
Proof.
  intros H Hs Hlt Ho HS Hc. set (li := lastIdx (threadList b tid)) in *.
  assert (Hl : live b !! li = Some tid) by (apply (bi_pos b H); by right).
  pose proof (bi_cur b H) as Hcur.
  assert (Hmove : forall z k, z <> tid -> (k < curThreadIdx b)%nat -> live b !! k = Some z ->
    exists k', (k' < curThreadIdx bS)%nat /\ live bS !! k' = Some z).
  { intros z k Hz Hk Hkz. pose proof (swapped_lookup _ _ _ _ _ _ k z H Hl Ho HS Hkz) as HX.
    rewrite (decide_False (P := z = tid)) in HX by done. rewrite Hc. destruct (decide (z = other)) as [->|Hne].
    - exists li. split; [|done]. assert (li <> curThreadIdx b - 1)%nat by congruence. lia.
    - exists k. split; [|done]. assert (k <> curThreadIdx b - 1)%nat by congruence. lia. }
  assert (HbS : BInv bS).
  { apply (swapped_inv li (curThreadIdx b - 1) tid other b); try done; [lia|]. intros z Hz. destruct (bi_ran b H z Hz) as (k & ? & ?).
    apply (Hmove z k); [congruence|done..]. }
  split; [done|split].
  - pose proof (swapped_lookup _ _ _ _ _ _ li tid H Hl Ho HS Hl) as HX. rewrite (decide_True (P := tid = tid)) in HX by done.
    rewrite Hc. destruct (decide (tid = other)) as [E|]; [|done]. rewrite <- E in Ho.
    by rewrite (live_inj b _ _ tid H Ho Hl).
  - intros z Hz. unfold arrived. rewrite (sw_st _ _ _ _ _ _ HS). split; intros [Hw (k & Hk & Hkz)]; (split; [done|]); [by apply (Hmove z k)|].
    assert (Hin : z ∈ live b) by (apply (bi_live b H); congruence).
    apply list_elem_of_lookup in Hin as (j & Hj). exists j. split; [|done].
    destruct (decide (j < curThreadIdx b)%nat) as [|Hge]; [done|]. exfalso.
    assert (z <> other) by (intros ->; pose proof (live_inj b _ _ _ H Hj Ho); lia).
    pose proof (swapped_lookup _ _ _ _ _ _ j z H Hl Ho HS Hj) as HX. rewrite !decide_False in HX by done.
    pose proof (live_inj bS _ _ _ HbS HX Hkz). lia.
Qed.

Section Specs.
Variable randInt : R -> nat -> nat * R.
Hypothesis Hrand : forall r n, (fst (randInt r n) <= n)%nat.

Lemma sync_spec tid b :
  BInv b -> st b tid = RUNNING ->
  wp (sync randInt tid) (fun _ b' => BInv b' /\ Settled b' /\ exists b0,
    Prep tid b b0 /\ arrived b0 tid /\ Wakes b0 b') b.
Proof.
  intros H Hs. pose proof (live_of_st b tid _ H Hs ltac:(done)) as Hin.
  pose proof (count_of_st b tid _ H Hs ltac:(done)) as Hpos. rewrite <- (bi_running b H) in Hpos.
  pose proof (running_bound b H). pose proof (bi_tid b H tid Hin).
  unfold sync, bget. wp_steps. apply wp_assert; [by apply Nat.ltb_lt|]. wp_steps.
  apply wp_assert; [by apply bool_decide_eq_true|]. wp_steps.
  match goal with |- wp _ _ ?s => set (b0 := s) end.
  assert (HB0 : BInv b0).
  { apply (restate_inv b b0 tid (mkInfo WAITING 1 (lastIdx (threadList b tid)))); try done.
    - intros z. unfold b0, set_thread, upd. cbn. upd_cases.
    - by left.
    - rewrite Hs. cbn. rewrite u32_small by (unfold two32; lia). lia.
    - rewrite Hs. cbn. lia. }
  assert (HP : Prep tid b b0); [apply keep_prep; try done|].
  { intros z Hz. unfold st, b0, set_thread, upd. cbn. upd_cases. }
  eapply wp_mono; [by apply tryWakeNext_spec|]. intros _ b' (? & ? & ?). split; [done|]. split; [done|].
  exists b0. split; [done|]. split; [|done]. split.
  - unfold st, b0, set_thread, upd. cbn. upd_cases.
  - by apply (bi_ran b H).
Qed.

Lemma leave_spec tid b :
  BInv b -> Settled b -> st b tid = RUNNING \/ st b tid = WAITING /\ posOk b tid ->
  wp (leave randInt tid) (fun _ b' => BInv b' /\ Settled b' /\ exists b0,
    Prep tid b b0 /\ st b0 tid = LEFT /\ Wakes b0 b') b.
Proof.
  intros H HS Hs. assert (Hin : tid ∈ live b) by (apply (bi_live b H); naive_solver congruence).
  pose proof (bi_tid b H tid Hin). pose proof (left_bound b H). pose proof (running_bound b H).
  assert (leftThreads b < 2048) by (destruct Hs as [Hs|[Hs _]]; apply (left_room b tid _ H Hs); tauto).
  unfold leave, bget. wp_steps. apply wp_assert; [by apply Nat.ltb_lt|]. wp_steps.
  case_bool_decide as Hr; wp_steps; [|apply wp_assert; [apply bool_decide_eq_true; by destruct Hs as [?|[? _]]|]; wp_steps].
  all: match goal with
    | |- wp _ _ ?s => set (b0 := s)
    | |- _ /\ _ /\ exists b0, Prep _ _ _ /\ _ /\ Wakes b0 ?s => set (b0 := s)
    end.
  all: assert (HB0 : BInv b0);
    [apply (restate_inv b b0 tid (mkInfo LEFT (futexWord (threadList b tid)) (lastIdx (threadList b tid)))); try done;
     try (intros z; unfold b0, set_thread, upd; cbn; upd_cases); try (right; split; [done|])|].
  - apply (bi_pos b H). by left.
  - unfold st. rewrite Hr. pose proof (count_of_st b tid _ H Hr ltac:(done)) as Hpos.
    rewrite <- (bi_running b H) in Hpos. cbn. rewrite u32_small by (unfold two32; lia). lia.
  - unfold st. rewrite Hr. cbn. rewrite u32_small by (unfold two32; lia). lia.
  - assert (HP : Prep tid b b0); [apply keep_prep; try done|].
    { intros z Hz. unfold st, b0, set_thread, upd. cbn. upd_cases. }
    eapply wp_mono; [by apply tryWakeNext_spec|]. intros _ b' (? & ? & ?). split; [done|]. split; [done|].
    exists b0. split; [done|]. split; [|done]. unfold st, b0, set_thread, upd. cbn. upd_cases.
  - by destruct Hs as [?|[_ ?]].
  - destruct Hs as [?|[-> _]]; [done|]. cbn. lia.
  - destruct Hs as [?|[-> _]]; [done|]. cbn. rewrite u32_small by (unfold two32; lia). lia.
  - assert (HP : Prep tid b b0); [apply keep_prep; try done|].
    { intros z Hz. unfold st, b0, set_thread, upd. cbn. upd_cases. }
    split; [done|]. split; [|exists b0; split; [done|]; split; [unfold st, b0, set_thread, upd; cbn; upd_cases|]; left; apply Woken_refl].
    destruct HS as [HS|HS]; [by left|]. destruct Hs as [?|[Hw _]]; [done|]. exfalso.
    pose proof (count_of_st b tid _ H Hw ltac:(done)). pose proof (cnt_split (threadList b) (live b)) as HC.
    rewrite (live_length b H) in HC. rewrite (bi_left b H) in HS. lia.
Qed.

Lemma join_spec tid b :
  BInv b -> (tid < MAX_THREADS)%nat -> st b tid = OFFLINE \/ st b tid = LEFT ->
  wp (join randInt tid) (fun _ b' => BInv b' /\ Settled b' /\ exists b0,
    Prep tid b b0 /\ pending b0 tid /\ Wakes b0 b') b.
Proof.
  intros H Ht Hs. unfold join, bget. wp_steps. apply wp_assert; [by apply Nat.ltb_lt|]. wp_steps.
  apply wp_assert; [apply orb_true_iff; rewrite !bool_decide_eq_true; unfold st in Hs; tauto|]. wp_steps.
  assert (HF : forall b0, Prep tid b b0 -> pending b0 tid ->
    wp (tryWakeNext randInt) (fun _ b' => BInv b' /\ Settled b' /\ exists b0,
      Prep tid b b0 /\ pending b0 tid /\ Wakes b0 b') b0).
  { intros b0 HP Hp. eapply wp_mono; [apply tryWakeNext_spec; [done|by destruct HP]|].
    intros _ b' (? & ? & ?). split; [done|]. split; [done|]. by exists b0. }
  pose proof (bi_len b H) as Hlen. pose proof (bi_cur b H) as Hcur. pose proof (bi_size b H) as Hsz.
  case_bool_decide as Ho.
  - pose proof (push_room b tid H Ho Ht) as Hr. wp_steps. apply run_set_ok; [by rewrite Hlen|]. wp_steps.
    match goal with |- wp _ _ ?s => set (b0 := s) end.
    assert (HL : live b0 = live b ++ [tid]) by (by apply push_live).
    assert (Hst : forall z, z <> tid -> st b0 z = st b z)
      by (intros z Hz; unfold st, b0, set_thread, upd; cbn; upd_cases).
    apply HF.
    + constructor; try done.
      * apply (push_inv b b0 tid); try done. intros z. unfold b0, set_thread, upd. cbn. upd_cases.
      * intros z Hz. unfold arrived. rewrite Hst, HL by done. split; intros [Hw (k & Hk & Hz')]; (split; [done|]); exists k; (split; [done|]).
        -- by apply lookup_app_l_Some.
        -- rewrite lookup_app_l in Hz'; [done|]. rewrite (live_length b H). change (curThreadIdx b0) with (curThreadIdx b) in Hk. lia.
    + split; [unfold st, b0, set_thread, upd; cbn; upd_cases|]. exists (runListSize b). split; [done|].
      rewrite HL, <- (live_length b H). by apply list_lookup_middle.
  - destruct Hs as [?|Hs]; [done|]. assert (Hpos : posOk b tid) by (apply (bi_pos b H); by right).
    pose proof (count_of_st b tid _ H Hs ltac:(done)) as Hcnt. rewrite <- (bi_left b H) in Hcnt. pose proof (left_bound b H).
    wp_steps. destruct (Nat.ltb_spec (lastIdx (threadList b tid)) (curThreadIdx b)) as [Hlt|Hge]; wp_steps.
    + destruct (live_lookup b (lastIdx (threadList b tid)) H) as (x & Hx & Hlx); [lia|].
      assert (x = tid) as -> by (unfold posOk in Hpos; congruence).
      destruct (live_lookup b (curThreadIdx b - 1) H) as (other & Hy & Hly); [lia|].
      apply run_get_ok with tid; [done|]. wp_steps. apply wp_assert; [apply Nat.eqb_refl|]. wp_steps.
      apply run_get_ok with other; [done|]. wp_steps. apply run_set_ok; [cbn; lia|]. wp_steps.
      apply run_set_ok; [cbn; rewrite length_insert; lia|]. wp_steps.
      match goal with |- wp _ _ ?s => set (b0 := s) end.
      set (li := lastIdx (threadList b tid)) in *.
      set (bS := set_thread tid (with_lastIdx (curThreadIdx b - 1)) (set_thread other (with_lastIdx li)
        (set_runList (<[(curThreadIdx b - 1)%nat := tid]> (<[li := other]> (runList b)))
           (set_curThreadIdx (curThreadIdx b - 1) b)))).
      destruct (reschedule_inv b bS tid other) as (HS & HtS & HaS); try done.
      { constructor; try done; intros z; unfold bS, st, set_thread, upd; cbn; [upd_cases..|].
        destruct (decide (tid = z)) as [Hz|], (decide (other = z)) as [Hz'|]; try upd_cases.
        subst other. subst z. rewrite (decide_True (P := tid = tid)) by done. destruct (decide (tid = tid)); [|done]. symmetry. exact (live_inj b _ _ tid H Hlx Hly). }
      assert (Hst : forall z, z <> tid -> st b0 z = st bS z)
        by (intros z Hz; unfold st, b0, bS, set_thread, upd; cbn; upd_cases).
      assert (HstS : forall z, st bS z = st b z) by (intros z; unfold st, bS, set_thread, upd; cbn; upd_cases).
      apply HF.
      * constructor; try done.
        -- apply (restate_inv bS b0 tid (mkInfo WAITING 1 (curThreadIdx b - 1))); try done.
           ++ by eapply list_elem_of_lookup_2.
           ++ intros z. unfold b0, bS, set_thread, upd. cbn. upd_cases.
           ++ by left.
           ++ rewrite HstS, Hs. cbn. lia.
           ++ rewrite HstS, Hs. cbn. rewrite u32_small by (unfold two32; lia). lia.
        -- intros z Hz. by rewrite Hst, HstS.
        -- intros z Hz. rewrite (HaS z Hz). unfold arrived. by rewrite Hst.
      * split; [unfold st, b0, set_thread, upd; cbn; upd_cases|]. by exists (curThreadIdx b - 1)%nat.
    + match goal with |- wp _ _ ?s => set (b0 := s) end.
      assert (HB : BInv b0).
      { apply (restate_inv b b0 tid (mkInfo WAITING 1 (lastIdx (threadList b tid)))); try done.
        - by eapply live_of_st.
        - intros z. unfold b0, set_thread, upd. cbn. upd_cases.
        - by left.
        - rewrite Hs. cbn. lia.
        - rewrite Hs. cbn. rewrite u32_small by (unfold two32; lia). lia. }
      assert (HP : Prep tid b b0); [apply keep_prep; try done|].
      { intros z Hz. unfold st, b0, set_thread, upd. cbn. upd_cases. }
      apply HF; [done|]. split; [unfold st, b0, set_thread, upd; cbn; upd_cases|]. by exists (lastIdx (threadList b tid)).
Qed.

(** ** Sequences of operations *)
Inductive BOp := OJoin (tid : nat) | OLeave (tid : nat) | OSync (tid : nat).
Definition op_tid (o : BOp) : nat := match o with OJoin tid | OLeave tid | OSync tid => tid end.
Definition step (o : BOp) : M (t R) unit :=
  match o with OJoin tid => join randInt tid | OLeave tid => leave randInt tid | OSync tid => sync randInt tid end.

(** What the callers guarantee: a thread joins when it is out of the barrier, synchronizes
    when it runs, and leaves when it runs, or waits and knows its place in the list. *)
Definition op_ready (o : BOp) b : bool :=
  match o with
  | OJoin tid => (tid <? MAX_THREADS)%nat && (bool_decide (st b tid = OFFLINE) || bool_decide (st b tid = LEFT))
  | OLeave tid => bool_decide (st b tid = RUNNING) || bool_decide (st b tid = WAITING) && bool_decide (posOk b tid)
  | OSync tid => bool_decide (st b tid = RUNNING)
  end.

Fixpoint run_ops (ops : list BOp) : M (t R) unit :=
  match ops with [] => mret tt | o :: ops => step o;; run_ops ops end.
Fixpoint disciplined (ops : list BOp) b : bool :=
  match ops with
  | [] => true
  | o :: ops => op_ready o b && match step o b with Ok (_, b') => disciplined ops b' | Err _ => true end
  end.

Lemma step_spec o b :
  BInv b -> Settled b -> op_ready o b = true ->
  wp (step o) (fun _ b' => BInv b' /\ Settled b' /\ exists b0, Prep (op_tid o) b b0 /\ Wakes b0 b' /\
    match o with
    | OJoin tid => pending b0 tid
    | OLeave tid => st b0 tid = LEFT
    | OSync tid => arrived b0 tid
    end) b.
Proof.
  intros H HS Hr. destruct o as [tid|tid|tid]; cbn [op_ready step op_tid] in *.
  - apply andb_true_iff in Hr as [Ht%Nat.ltb_lt Hr]. rewrite orb_true_iff, !bool_decide_eq_true in Hr.
    eapply wp_mono; [by apply join_spec|]. naive_solver.
  - rewrite orb_true_iff, andb_true_iff, !bool_decide_eq_true in Hr.
    eapply wp_mono; [by apply leave_spec|]. naive_solver.
  - rewrite bool_decide_eq_true in Hr. eapply wp_mono; [by apply sync_spec|].
    naive_solver.
Qed.

Lemma Wakes_par b b' : Wakes b b' -> parallelThreads b' = parallelThreads b.
Proof.
  intros [HW|b1 b2 _ HW HP HW']; [by apply (wk_par _ _ HW)|].
  by rewrite (wk_par _ _ HW'), (pe_par _ _ HP), (wk_par _ _ HW).
Qed.

Lemma run_ops_spec ops b :
  BInv b -> Settled b -> disciplined ops b = true ->
  wp (run_ops ops) (fun _ b' => BInv b' /\ Settled b' /\ parallelThreads b' = parallelThreads b) b.
Proof.
  revert b. induction ops as [|o ops IH]; intros b H HS Hd; cbn in *; [by wp_steps|].
  apply andb_true_iff in Hd as [Hr Hd]. apply wp_bind.
  destruct (wp_elim _ _ _ (step_spec o b H HS Hr)) as ([] & b' & E & H' & HS' & b0 & HP & HW & _).
  unfold wp at 1. rewrite E in Hd |- *. eapply wp_mono; [by apply IH|].
  intros _ b2 (? & ? & ->). by rewrite (Wakes_par _ _ HW), (pr_par _ _ _ HP).
Qed.

Lemma init_inv par li (r : R) : 0 < par -> BInv (init par li r) /\ Settled (init par li r).
Proof.
  intros Hp. split; [|by right]. constructor; try done; try (cbn; lia).
  - apply NoDup_nil_2.
  - intros z. unfold live. cbn. split; [intros Hz; by apply not_elem_of_nil in Hz|done].
  - intros z. unfold live. cbn. intros Hz; by apply not_elem_of_nil in Hz.
  - intros z [?|?]; done.
Qed.

Lemma reached_inv par li r ops b :
  0 < par -> disciplined ops (init par li r) = true -> run_ops ops (init par li r) = Ok (tt, b) -> BInv b /\ Settled b.
Proof.
  intros Hp Hd Er. destruct (init_inv par li r Hp) as [H HS].
  destruct (wp_elim _ _ _ (run_ops_spec ops _ H HS Hd)) as ([] & b' & E & HB & HSb & _).
  rewrite Er in E. by injection E as <-.
Qed.

Lemma Wakes_phase b b' : Wakes b b' ->
  phases b' = phases b /\ Woken b b' \/
  phases b' = phases b + 1 /\ exists b1 b2, BInv b1 /\ Woken b b1 /\ PhaseEnd b1 b2 /\ Woken b2 b'.
Proof.
  intros [HW|b1 b2 H1 HW HP HW']; [left; by rewrite (wk_phases _ _ HW)|right].
  rewrite (wk_phases _ _ HW'), (pe_phases _ _ HP), (wk_phases _ _ HW). split; [done|]. by exists b1, b2.
Qed.

Lemma Woken_arrived b b' z : BInv b -> Woken b b' -> arrived b z -> arrived b' z.
Proof.
  intros H HW [Hw (k & Hk & Hl)]. destruct HW as []. split.
  - destruct (wk_st0 z) as [->|(_ & _ & i & Hi & Hz)]; [done|]. pose proof (live_inj b _ _ z H Hl Hz). lia.
  - exists k. split; [lia|]. unfold live in *. congruence.
Qed.

(** When the phase ends after [b], nobody runs and everybody has arrived. *)
Lemma phase_end_all b b1 b2 z :
  BInv b -> BInv b1 -> Woken b b1 -> PhaseEnd b1 b2 -> st b z = OFFLINE \/ st b z = LEFT \/ arrived b z.
Proof.
  intros H H1 HW HP. destruct (st b z) eqn:Hs; [by left| | |by right; left].
  - pose proof (live_of_st b z _ H Hs ltac:(done)) as Hin. apply list_elem_of_lookup in Hin as (k & Hk).
    destruct (decide (k < curThreadIdx b)%nat) as [Hlt|Hge]; [right; right; split; [done|]; by exists k|]. exfalso.
    destruct (pe_end _ _ HP) as (Hc & Hr & _). pose proof (lookup_lt_Some _ _ _ Hk) as Hlt. rewrite (live_length b H) in Hlt.
    pose proof (wk_passed _ _ HW k z) as Hno. rewrite Hc, (wk_size _ _ HW) in Hno. specialize (Hno ltac:(lia) Hk).
    destruct (wk_st _ _ HW z) as [E|(_ & E & _)]; [congruence|].
    pose proof (count_of_st b1 z _ H1 E ltac:(done)) as Hpos. rewrite <- (bi_running b1 H1) in Hpos. lia.
  - exfalso. destruct (pe_end _ _ HP) as (_ & Hr & _). destruct (wk_st _ _ HW z) as [E|(_ & E & _)].
    all: rewrite ?Hs in E; pose proof (count_of_st b1 z _ H1 E ltac:(done)) as Hpos; rewrite <- (bi_running b1 H1) in Hpos; lia.
Qed.

Lemma pending_no_end b b1 b2 tid :
  BInv b -> BInv b1 -> pending b tid -> Woken b b1 -> PhaseEnd b1 b2 -> False.
Proof.
  intros H H1 [Hw (k & Hk & Hl)] HW HP.
  destruct (phase_end_all b b1 b2 tid H H1 HW HP) as [?|[?|[_ (k' & Hk' & Hl')]]]; [congruence..|].
  pose proof (live_inj b _ _ tid H Hl Hl'). lia.
Qed.
End Specs.
End Inv.

(** ** The barrier's contract *)

(** C24: From the initial barrier, for any limit of at least one running thread, any
    random number generator whose [randInt(i)] stays within 0..i, and any sequence of joins,
    leaves and syncs that the callers may make, no assertion or panic of the barrier
    fails and every loop ends.  The counters equal the numbers of threads in the RUNNING
    and LEFT states, at most [parallelThreads] threads run, a thread runs whenever a
    thread waits (no lost wakeup), and a running thread is not held by its futex. *)
Theorem barrier_safe {R} (randInt : R -> nat -> nat * R) par li r ops :
  (forall r n, (fst (randInt r n) <= n)%nat) -> 0 < par ->
  disciplined randInt ops (init par li r) = true ->
  exists b, run_ops randInt ops (init par li r) = Ok (tt, b) /\
    runningThreads b = Z.of_nat (cnt RUNNING (threadList b) (live b)) /\
    leftThreads b = Z.of_nat (cnt LEFT (threadList b) (live b)) /\
    runningThreads b <= par /\
    (forall z, st b z = WAITING -> exists y, st b y = RUNNING) /\
    (forall z, st b z = RUNNING -> blocked z b = false /\ wake_assert z b = true).
Proof.
  intros Hrand Hp Hd. destruct (init_inv par li r Hp) as [H HS].
  destruct (wp_elim _ _ _ (run_ops_spec randInt Hrand ops _ H HS Hd)) as ([] & b & E & HB & HSb & Hpar).
  exists b. split; [done|]. split; [by apply bi_running|]. split; [by apply bi_left|].
  split; [pose proof (bi_limit b HB); cbn in Hpar; lia|]. split.
  - intros z Hz. pose proof (count_of_st b z _ HB Hz ltac:(done)) as Hw.
    pose proof (cnt_split (threadList b) (live b)) as HC. rewrite (live_length b HB) in HC.
    destruct HSb as [Hr|Hl]; [|rewrite (bi_left b HB) in Hl; lia].
    rewrite (bi_running b HB) in Hr. unfold cnt in Hr.
    destruct (filter (fun tid => state (threadList b tid) = RUNNING) (live b)) as [|y l] eqn:Ef; [cbn in Hr; lia|].
    exists y. assert (Hy : y ∈ filter (fun tid => state (threadList b tid) = RUNNING) (live b)) by (rewrite Ef; left).
    by apply list_elem_of_filter in Hy as [? _].
  - intros z Hz. unfold blocked, wake_assert. fold (st b z). by rewrite Hz.
Qed.

(** C25: The phases are separated.  In any reachable state, let a thread make an
    operation.  If the phase goes on, every other thread that had arrived (it waits and
    the phase already gave it its turn) is still held, and so is the caller of a [sync].
    If the operation ends the phase, every other thread had already arrived, left or
    gone offline. *)
Theorem phases_separated {R} (randInt : R -> nat -> nat * R) par li r ops o b b' :
  (forall r n, (fst (randInt r n) <= n)%nat) -> 0 < par ->
  disciplined randInt ops (init par li r) = true ->
  run_ops randInt ops (init par li r) = Ok (tt, b) ->
  op_ready o b = true -> step randInt o b = Ok (tt, b') ->
  (phases b' = phases b /\
    (forall z, z <> op_tid o -> arrived b z -> arrived b' z) /\
    (forall tid, o = OSync tid -> arrived b' tid)) \/
  (phases b' = phases b + 1 /\
    forall z, z <> op_tid o -> st b z = OFFLINE \/ st b z = LEFT \/ arrived b z).
Proof.
  intros Hrand Hp Hd Er Ho Es. destruct (reached_inv randInt Hrand par li r ops b Hp Hd Er) as [HB HSb].
  destruct (wp_elim _ _ _ (step_spec randInt Hrand o b HB HSb Ho)) as ([] & b'' & E' & _ & _ & b0 & HP & HW & Hx).
  rewrite Es in E'. injection E' as <-. pose proof (pr_inv _ _ _ HP) as H0. rewrite <- (pr_phases _ _ _ HP).
  destruct (Wakes_phase _ _ HW) as [[-> HW']|[-> (b1 & b2 & H1 & HW1 & HPE & HW2)]]; [left|right]; (split; [done|]).
  - split.
    + intros z Hz Ha. eapply Woken_arrived; [exact H0|done|]. by apply (pr_arrived _ _ _ HP).
    + intros tid ->. eapply Woken_arrived; [exact H0|done|]. done.
  - intros z Hz. destruct (phase_end_all b0 b1 b2 z H0 H1 HW1 HPE) as [Hs|[Hs|Ha]].
    + left. by rewrite <- (pr_st _ _ _ HP z Hz).
    + right; left. by rewrite <- (pr_st _ _ _ HP z Hz).
    + right; right. by apply (pr_arrived _ _ _ HP z Hz).
Qed.

(** As the comment in [join] says, a join never ends a phase. *)
Theorem join_keeps_phase {R} (randInt : R -> nat -> nat * R) par li r ops tid b b' :
  (forall r n, (fst (randInt r n) <= n)%nat) -> 0 < par ->
  disciplined randInt ops (init par li r) = true ->
  run_ops randInt ops (init par li r) = Ok (tt, b) ->
  op_ready (OJoin tid) b = true -> join randInt tid b = Ok (tt, b') -> phases b' = phases b.
Proof.
  intros Hrand Hp Hd Er Ho Es. destruct (reached_inv randInt Hrand par li r ops b Hp Hd Er) as [HB HSb].
  destruct (wp_elim _ _ _ (step_spec randInt Hrand (OJoin tid) b HB HSb Ho)) as ([] & b'' & E' & _ & _ & b0 & HP & HW & Hx).
  cbn [step] in E'. rewrite Es in E'. injection E' as <-. pose proof (pr_inv _ _ _ HP) as H0. rewrite <- (pr_phases _ _ _ HP).
  destruct (Wakes_phase _ _ HW) as [[-> _]|[_ (b1 & b2 & H1 & HW1 & HPE & HW2)]]; [done|].
  exfalso. by apply (pending_no_end b0 b1 b2 tid).
Qed.

(** ** Concrete runs *)
Definition lcg (r n : nat) : nat * nat := ((r mod S n)%nat, (r + 7)%nat).
Lemma lcg_range r n : (fst (lcg r n) <= n)%nat.
Proof. unfold lcg. cbn [fst]. pose proof (Nat.mod_upper_bound r (S n)). lia. Qed.

(** Three threads on two slots; thread 1 leaves and comes back, two phases end. *)
Definition demo_ops : list BOp :=
  [OJoin 0; OJoin 1; OJoin 2; OSync 0; OLeave 1; OJoin 1; OSync 2; OSync 1; OSync 2]%nat.
Definition demo_init : t nat := init 2 (fun _ => 0%nat) 3%nat.

Lemma barrier_safe_witness :
  exists b, run_ops lcg demo_ops demo_init = Ok (tt, b) /\ runningThreads b <= 2 /\
    (forall z, st b z = WAITING -> exists y, st b y = RUNNING).
Proof.
  destruct (barrier_safe lcg 2 (fun _ => 0%nat) 3%nat demo_ops) as (b & E & _ & _ & Hl & Hw & _).
  - exact lcg_range.
  - lia.
  - vm_compute. reflexivity.
  - exists b. split; [exact E|]. split; [exact Hl|exact Hw].
Defined.

Definition state_of (m : res (unit * t nat)) : t nat := match m with Ok (_, b) => b | Err _ => demo_init end.
Definition demo_b (n : nat) : t nat := state_of (run_ops lcg (take n demo_ops) demo_init).

(** The eighth operation of the run, the sync of thread 1, ends the first phase: threads
    0 and 2 have arrived. *)
Lemma phases_separated_witness :
  phases (demo_b 8) = phases (demo_b 7) + 1 /\
  forall z, z <> 1%nat -> st (demo_b 7) z = OFFLINE \/ st (demo_b 7) z = LEFT \/ arrived (demo_b 7) z.
Proof.
  destruct (phases_separated lcg 2 (fun _ => 0%nat) 3%nat (take 7 demo_ops) (OSync 1) (demo_b 7) (demo_b 8)) as [[E _]|H].
  - exact lcg_range.
  - lia.
  - vm_compute. reflexivity.
  - vm_compute. reflexivity.
  - vm_compute. reflexivity.
  - vm_compute. reflexivity.
  - exfalso. vm_compute in E. discriminate E.
  - exact H.
Defined.

(** Thread 1 comes back in the sixth operation; the phase goes on. *)
Lemma join_keeps_phase_witness : phases (demo_b 6) = phases (demo_b 5).
Proof.
  apply (join_keeps_phase lcg 2 (fun _ => 0%nat) 3%nat (take 5 demo_ops) 1).
  - exact lcg_range.
  - lia.
  - vm_compute. reflexivity.
  - vm_compute. reflexivity.
  - vm_compute. reflexivity.
  - vm_compute. reflexivity.
Defined.

(** Why [leave] of a waiting thread needs its place in the list: [join] does not
    set [lastIdx], so a thread that leaves before it ever ran keeps a stale one.  With one
    slot, thread 0 joins and runs, thread 1 joins and waits, leaves and joins again: the
    assertion [tid == runList[lastIdx]] of [join] fails. *)
Theorem leave_before_running_breaks_join :
  run_ops lcg [OJoin 0; OJoin 1; OLeave 1; OJoin 1]%nat (init 1 (fun _ => 0%nat) 0%nat) =
  Err (Panic "tid == runList[lastIdx]").
Proof. vm_compute. reflexivity. Qed.
End Bar.
