(* ===== verification/Hash.v ===== *)
(** * The hash families of the cache arrays (src/src/hash.h, src/src/hash.cpp)

    [H3] models the H3 family: its random matrix and the hand-unrolled hash loop.
    [SHA1] models the memoized family; [sha1] itself is a library function and a
    parameter.  The theorems show that the unrolled loop computes the XOR of the rotated
    matrix rows selected by the input, hence a GF(2)-linear function, and that the
    memoization is transparent for every input but 0. *)

From S2P Require Import Prelude.

(** ** Rotations of 64-bit words *)
Definition rol64 (x k : Z) : Z := Z.lor (u64 (Z.shiftl x k)) (Z.shiftr x (64 - k)).

Lemma u64_testbit x i : 0 <= i -> Z.testbit (u64 x) i = Z.testbit x i && (i <? 64).
Proof.
  intros Hi. unfold u64. change two64 with (2 ^ 64). destruct (Z.ltb_spec i 64).
  - rewrite Z.mod_pow2_bits_low by lia. by rewrite andb_true_r.
  - rewrite Z.mod_pow2_bits_high by lia. by rewrite andb_false_r.
Qed.

Lemma u64_bits_high x i : 0 <= x < two64 -> 64 <= i -> Z.testbit x i = false.
Proof.
  intros Hx Hi. rewrite <- (u64_small x Hx), u64_testbit by lia.
  destruct (Z.ltb_spec i 64); [lia|]. apply andb_false_r.
Qed.

(** Two words are equal when their 64 bits are. *)
Lemma u64_ext x y : 0 <= x < two64 -> 0 <= y < two64 ->
  (forall i, 0 <= i < 64 -> Z.testbit x i = Z.testbit y i) -> x = y.
Proof.
  intros Hx Hy H. apply Z.bits_inj'. intros i Hi.
  destruct (decide (i < 64)); [by apply H|]. by rewrite !u64_bits_high by lia.
Qed.

Lemma word_of_bits x : 0 <= x -> (forall i, 64 <= i -> Z.testbit x i = false) -> 0 <= x < two64.
Proof.
  intros Hx H. split; [done|]. assert (E : x = u64 x).
  { apply Z.bits_inj'. intros i Hi. rewrite u64_testbit by done.
    destruct (Z.ltb_spec i 64); [by rewrite andb_true_r|]. rewrite andb_false_r. by apply H. }
  rewrite E. apply u64_range.
Qed.

Lemma lxor_word x y : 0 <= x < two64 -> 0 <= y < two64 -> 0 <= Z.lxor x y < two64.
Proof.
  intros Hx Hy. apply word_of_bits; [apply Z.lxor_nonneg; lia|].
  intros i Hi. rewrite Z.lxor_spec. by rewrite !u64_bits_high.
Qed.
Lemma land_word x y : 0 <= x < two64 -> 0 <= y -> 0 <= Z.land x y < two64.
Proof.
  intros Hx Hy. apply word_of_bits; [apply Z.land_nonneg; lia|].
  intros i Hi. rewrite Z.land_spec. by rewrite u64_bits_high.
Qed.
Lemma shiftr_word x k : 0 <= x < two64 -> 0 <= k -> 0 <= Z.shiftr x k < two64.
Proof.
  intros Hx Hk. apply word_of_bits; [apply Z.shiftr_nonneg; lia|].
  intros i Hi. rewrite Z.shiftr_spec by lia. by apply u64_bits_high; [|lia].
Qed.

Lemma rol64_bit x k i : 0 <= x < two64 -> 0 <= k <= 64 -> 0 <= i < 64 ->
  Z.testbit (rol64 x k) i = Z.testbit x ((i - k) mod 64).
Proof.
  intros Hx Hk Hi. unfold rol64. rewrite Z.lor_spec, u64_testbit, Z.shiftr_spec by lia.
  rewrite (proj2 (Z.ltb_lt i 64)) by lia. rewrite andb_true_r.
  destruct (decide (k <= i)) as [Hle|Hgt].
  - rewrite Z.shiftl_spec by lia. rewrite (u64_bits_high x (i + (64 - k))) by lia.
    rewrite orb_false_r. by rewrite Z.mod_small by lia.
  - rewrite Z.shiftl_spec_low by lia. cbn [orb]. f_equal.
    apply (Zmod_unique _ _ (-1)); lia.
Qed.

Lemma rol64_word x k : 0 <= x < two64 -> 0 <= k <= 64 -> 0 <= rol64 x k < two64.
Proof.
  intros Hx Hk. unfold rol64. pose proof (u64_range (Z.shiftl x k)).
  pose proof (shiftr_word x (64 - k) Hx ltac:(lia)). apply word_of_bits; [apply Z.lor_nonneg; lia|].
  intros i Hi. rewrite Z.lor_spec. by rewrite !u64_bits_high.
Qed.

Lemma rol64_lxor x y k : 0 <= x < two64 -> 0 <= y < two64 -> 0 <= k <= 64 ->
  rol64 (Z.lxor x y) k = Z.lxor (rol64 x k) (rol64 y k).
Proof.
  intros Hx Hy Hk. apply u64_ext.
  - apply rol64_word; [by apply lxor_word|done].
  - apply lxor_word; by apply rol64_word.
  - intros i Hi. rewrite Z.lxor_spec, !rol64_bit by (try done; by apply lxor_word). by rewrite Z.lxor_spec.
Qed.

(** Rotation by any amount. *)
Definition rot (x k : Z) : Z := rol64 x (k mod 64).
Lemma rot_bit x k i : 0 <= x < two64 -> 0 <= i < 64 -> Z.testbit (rot x k) i = Z.testbit x ((i - k) mod 64).
Proof.
  intros Hx Hi. pose proof (Z.mod_pos_bound k 64). unfold rot. rewrite rol64_bit by lia. f_equal.
  by rewrite Zminus_mod_idemp_r.
Qed.
Lemma rot_word x k : 0 <= x < two64 -> 0 <= rot x k < two64.
Proof. intros Hx. pose proof (Z.mod_pos_bound k 64). apply rol64_word; [done|lia]. Qed.
Lemma rot_lxor x y k : 0 <= x < two64 -> 0 <= y < two64 -> rot (Z.lxor x y) k = Z.lxor (rot x k) (rot y k).
Proof. intros Hx Hy. pose proof (Z.mod_pos_bound k 64). apply rol64_lxor; [done..|lia]. Qed.
Lemma rot_rot x j k : 0 <= x < two64 -> rot (rot x j) k = rot x (j + k).
Proof.
  intros Hx. apply u64_ext; [apply rot_word; by apply rot_word|by apply rot_word|].
  intros i Hi. rewrite !rot_bit; try done; try (by apply rot_word); try (by apply Z.mod_pos_bound).
  f_equal. rewrite Zminus_mod_idemp_l. f_equal. lia.
Qed.
Lemma rot_small x k : 0 <= k < 64 -> rol64 x k = rot x k.
Proof. intros Hk. unfold rot. by rewrite Z.mod_small. Qed.
Lemma rot_0 x : 0 <= x < two64 -> rot x 0 = x.
Proof.
  intros Hx. apply u64_ext; [by apply rot_word|done|]. intros i Hi. rewrite rot_bit by done.
  by rewrite Z.sub_0_r, Z.mod_small.
Qed.
Lemma rot_eqm x j k : j mod 64 = k mod 64 -> rot x j = rot x k.
Proof. unfold rot. by intros ->. Qed.
Lemma rol64_0 k : rol64 0 k = 0.
Proof. unfold rol64. by rewrite Z.shiftl_0_l, Z.shiftr_0_l. Qed.

(** ** The H3 family *)
Module H3.
Record t := mk { numFuncs : nat; resShift : Z; hMatrix : list Z }.

Section Build.
Context {R : Type} (randInt : R -> Z * R).

(** One random 64-bit word, from [n] draws. *)
Fixpoint rand_word (n : nat) (v : Z) (r : R) : Z * R :=
  match n with
  | O => (v, r)
  | S n =>
    let '(d, r) := randInt r in
    let v := u64 (Z.shiftl v 1) in
    rand_word n (if d mod 2 =? 0 then u64 (v + 1) else v) r
  end.
Fixpoint rand_words (n : nat) (r : R) : list Z * R :=
  match n with
  | O => ([], r)
  | S n => let '(v, r) := rand_word 64 0 r in let '(l, r) := rand_words n r in (v :: l, r)
  end.

Definition init (numFunctions : nat) (outputBits : Z) (seeded : R) : res t :=
  resShift ← (if outputBits <=? 8 then Ok 3 else if outputBits <=? 16 then Ok 2
    else if outputBits <=? 32 then Ok 1 else if outputBits <=? 64 then Ok 0
    else Err (Panic "Hash function can't produce more than 64 bits of output!!"));
  let words := Z.to_nat (Z.shiftr 64 resShift) in
  mret (mk numFunctions resShift (fst (rand_words (numFunctions * words) seeded))).
End Build.

(** One round of the unrolled loop. *)
Definition round (m : list Z) (base : nat) (val res : Z) : Prelude.res Z :=
  m0 ← arr_get m base; m1 ← arr_get m (base + 1);
  m2 ← arr_get m (base + 2); m3 ← arr_get m (base + 3);
  m4 ← arr_get m (base + 4); m5 ← arr_get m (base + 5);
  m6 ← arr_get m (base + 6); m7 ← arr_get m (base + 7);
  let res0 := Z.land val m0 in let res1 := Z.land val m1 in
  let res2 := Z.land val m2 in let res3 := Z.land val m3 in
  let res4 := Z.land val m4 in let res5 := Z.land val m5 in
  let res6 := Z.land val m6 in let res7 := Z.land val m7 in
  let res := Z.lxor res (Z.lxor (Z.lxor (Z.lxor res0 (rol64 res1 1)) (rol64 res2 2)) (rol64 res3 3)) in
  let res := Z.lxor res (Z.lxor (Z.lxor (Z.lxor (rol64 res4 4) (rol64 res5 5)) (rol64 res6 6)) (rol64 res7 7)) in
  mret (rol64 res 8).

(** [n] rounds are left; the current one starts at row [base]. *)
Fixpoint rounds (m : list Z) (n base : nat) (val res : Z) : Prelude.res Z :=
  match n with
  | O => mret res
  | S n => res ← round m base val res; rounds m n (base + 8) val res
  end.

Definition fold (resShift res : Z) : Z :=
  if resShift =? 0 then res
  else
    let res := Z.lxor (Z.shiftr res 32) res in
    if resShift =? 1 then res
    else
      let res := Z.lxor (Z.shiftr res 16) res in
      if resShift =? 2 then res else Z.lxor (Z.shiftr res 8) res.

Definition hash (h : t) (id : nat) (val : Z) : Prelude.res Z :=
  rassert (id <? numFuncs h)%nat "id >= 0 && id < numFuncs";;
  let maxBits := Z.shiftr 64 (resShift h) in
  let base := Z.to_nat (u32 (Z.shiftl (Z.of_nat id) (6 - resShift h))) in
  res ← rounds (hMatrix h) (Z.to_nat (maxBits / 8)) base val 0;
  mret (fold (resShift h) res).

(** *** The function the loop computes *)
Definition xor_all (l : list Z) : Z := foldr Z.lxor 0 l.

(** Row [x] of the [8 n] rows of a function is selected by the input and rotated. *)
Definition amount (n x : nat) : Z := Z.of_nat (x mod 8) + 8 * Z.of_nat (n - x / 8).
Definition term (n : nat) (val : Z) (x : nat) (row : Z) : Z := rot (Z.land val row) (amount n x).
Definition linear (n : nat) (rows : list Z) (val : Z) : Z := xor_all (imap (term n val) rows).

Definition words_ok (l : list Z) : Prop := Forall (fun w => 0 <= w < two64) l.

Lemma xor_all_app l l' : xor_all (l ++ l') = Z.lxor (xor_all l) (xor_all l').
Proof. unfold xor_all. induction l as [|x l IH]; cbn; [done|]. by rewrite IH, Z.lxor_assoc. Qed.

Lemma linear_cons8 n r0 r1 r2 r3 r4 r5 r6 r7 rows val :
  linear (S n) (r0 :: r1 :: r2 :: r3 :: r4 :: r5 :: r6 :: r7 :: rows) val =
  Z.lxor (xor_all (imap (fun x row => rot (Z.land val row) (Z.of_nat x + 8 * Z.of_nat (S n)))
            [r0; r1; r2; r3; r4; r5; r6; r7])) (linear n rows val).
Proof.
  unfold linear. assert (E : r0 :: r1 :: r2 :: r3 :: r4 :: r5 :: r6 :: r7 :: rows =
    [r0; r1; r2; r3; r4; r5; r6; r7] ++ rows) by done. rewrite E, imap_app, xor_all_app.
  f_equal. f_equal. apply imap_ext. intros x row _.
  unfold term, amount, compose. cbn [length]. replace (8 + x)%nat with (x + 1 * 8)%nat by lia.
  rewrite Nat.Div0.mod_add, Nat.div_add by lia. f_equal. f_equal. f_equal. lia.
Qed.

Lemma xor_all_word l : words_ok l -> 0 <= xor_all l < two64.
Proof. induction 1; cbn; [done|]. by apply lxor_word. Qed.
Lemma rot_xor_all l k : words_ok l -> rot (xor_all l) k = xor_all (map (fun x => rot x k) l).
Proof.
  unfold xor_all in *. induction 1 as [|x l Hx Hl IH]; cbn; [apply rol64_0|]. rewrite rot_lxor, IH; [done..|]. by apply (xor_all_word l).
Qed.

Definition block (val k : Z) (rows : list Z) : Z :=
  xor_all (imap (fun x row => rot (Z.land val row) (Z.of_nat x + k)) rows).
Lemma block_word val k rows : 0 <= val < two64 -> words_ok rows -> 0 <= block val k rows < two64.
Proof.
  intros Hv Hr. apply xor_all_word. apply Forall_forall. intros y Hy.
  apply list_elem_of_In, list_elem_of_lookup in Hy as (i & Hi). rewrite list_lookup_imap in Hi.
  destruct (rows !! i) as [row|] eqn:E; [|done]. injection Hi as <-. apply rot_word, land_word; [done|].
  eapply Forall_lookup_1 in Hr; [|done]. lia.
Qed.
Lemma block_rot val j k rows : 0 <= val < two64 -> words_ok rows -> rot (block val j rows) k = block val (j + k) rows.
Proof.
  intros Hv Hr. unfold block. rewrite rot_xor_all.
  - f_equal. change (map ?f ?l) with (f <$> l). rewrite fmap_imap. apply imap_ext. intros i row Hi. unfold compose. cbn.
    rewrite rot_rot; [f_equal; lia|]. apply land_word; [done|]. eapply Forall_lookup_1 in Hr; [|done]. lia.
  - apply Forall_lookup. intros i y Hi. rewrite list_lookup_imap in Hi.
    destruct (rows !! i) as [row|] eqn:E; [|done]. injection Hi as <-. apply rot_word, land_word; [done|].
    eapply Forall_lookup_1 in Hr; [|done]. lia.
Qed.

Lemma round_block m base val res r0 r1 r2 r3 r4 r5 r6 r7 rest :
  drop base m = r0 :: r1 :: r2 :: r3 :: r4 :: r5 :: r6 :: r7 :: rest ->
  0 <= val < two64 -> 0 <= res < two64 -> words_ok [r0; r1; r2; r3; r4; r5; r6; r7] ->
  round m base val res = Ok (Z.lxor (rot res 8) (block val 8 [r0; r1; r2; r3; r4; r5; r6; r7])).
Proof.
  intros Hd Hv Hr Hw.
  assert (HL : forall k, m !! (base + k)%nat = (r0 :: r1 :: r2 :: r3 :: r4 :: r5 :: r6 :: r7 :: rest) !! k)
    by (intros k; by rewrite <- Hd, lookup_drop).
  unfold round. replace (arr_get m base) with (arr_get m (base + 0)) by (f_equal; lia).
  unfold arr_get. rewrite !HL. cbn [lookup list_lookup from_opt mbind res_bind mret res_ret]. f_equal.
  rewrite rot_small by lia. rewrite <- (block_rot val 0 8) by done.
  rewrite <- rot_lxor; [f_equal|done|by apply block_word]. unfold block, xor_all. cbn [imap foldr].
  rewrite !(rot_small _ _) by lia. unfold compose. cbn. 
  assert (E0 : rot (Z.land val r0) (Z.of_nat 0 + 0) = Z.land val r0).
  { apply rot_0, land_word; [done|]. apply Forall_cons_1 in Hw as [? _]. lia. }
  rewrite E0. cbn [Z.of_nat Z.add Pos.of_succ_nat Pos.succ]. by rewrite Z.lxor_0_r, !Z.lxor_assoc.
Qed.

(** The loop computes [linear]. *)
Lemma rounds_linear n : forall m base val res,
  (base + 8 * n <= length m)%nat -> words_ok m -> 0 <= val < two64 -> 0 <= res < two64 ->
  rounds m n base val res = Ok (Z.lxor (rot res (8 * Z.of_nat n)) (linear n (take (8 * n) (drop base m)) val)).
Proof.
  induction n as [|n IH]; intros m base val res Hb Hm Hv Hr.
  - cbn. unfold linear. cbn. rewrite rot_0 by done. by rewrite Z.lxor_0_r.
  - destruct (drop base m) as [|r0 [|r1 [|r2 [|r3 [|r4 [|r5 [|r6 [|r7 rest]]]]]]]] eqn:Hd;
      try (apply (f_equal length) in Hd; rewrite length_drop in Hd; cbn in Hd; lia).
    assert (Hw : words_ok (drop base m)) by (by apply Forall_drop). rewrite Hd in Hw.
    assert (Hw8 : words_ok [r0; r1; r2; r3; r4; r5; r6; r7]) by (apply (Forall_take _ 8) in Hw; exact Hw).
    cbn [rounds]. rewrite (round_block m base val res _ _ _ _ _ _ _ _ rest Hd) by done.
    cbn [mbind res_bind]. rewrite IH; [|lia|done..|apply lxor_word; [by apply rot_word|by apply block_word]].
    replace (8 * S n)%nat with (8 + 8 * n)%nat by lia. cbn [take Nat.add]. rewrite linear_cons8.
    rewrite rot_lxor by (first [by apply rot_word|by apply block_word]).
    rewrite rot_rot, block_rot by done.
    replace (drop (base + 8) m) with rest by (rewrite <- drop_drop, Hd; done).
    replace (8 + 8 * Z.of_nat n) with (8 * Z.of_nat (S n)) by lia. by rewrite <- Z.lxor_assoc.
Qed.

Lemma fold_step s x y :
  Z.lxor (Z.shiftr (Z.lxor x y) s) (Z.lxor x y) = Z.lxor (Z.lxor (Z.shiftr x s) x) (Z.lxor (Z.shiftr y s) y).
Proof.
  rewrite Z.shiftr_lxor. rewrite !Z.lxor_assoc. f_equal. rewrite <- !Z.lxor_assoc. f_equal. apply Z.lxor_comm.
Qed.
Lemma fold_lxor k x y : fold k (Z.lxor x y) = Z.lxor (fold k x) (fold k y).
Proof. unfold fold. rewrite !fold_step. destruct (k =? 0), (k =? 1), (k =? 2); done. Qed.

(** *** The constructor *)
Definition words (h : t) : nat := Z.to_nat (Z.shiftr 64 (resShift h)).
Record Wf (h : t) : Prop := mkWf {
  wf_shift : resShift h = 0 \/ resShift h = 1 \/ resShift h = 2 \/ resShift h = 3;
  wf_len : length (hMatrix h) = (numFuncs h * words h)%nat;
  wf_words : words_ok (hMatrix h)
}.

Section Init.
Context {R : Type} (randInt : R -> Z * R).

Lemma rand_word_word n : forall v r, 0 <= v < two64 -> 0 <= fst (rand_word randInt n v r) < two64.
Proof.
  induction n as [|n IH]; intros v r Hv; cbn; [done|]. destruct (randInt r) as [d r']. apply IH.
  case_match; apply u64_range.
Qed.
Lemma rand_words_ok n : forall r, length (fst (rand_words randInt n r)) = n /\ words_ok (fst (rand_words randInt n r)).
Proof.
  induction n as [|n IH]; intros r; cbn [rand_words]; [split; [done|constructor]|].
  pose proof (rand_word_word 64 0 r ltac:(done)) as Hw. destruct (rand_word randInt 64 0 r) as [v r'].
  specialize (IH r'). destruct (rand_words randInt n r') as [l r'']. cbn in *. destruct IH as [<- ?]. split; [done|].
  by constructor.
Qed.
Lemma init_Wf nf ob r h : init randInt nf ob r = Ok h -> Wf h /\ numFuncs h = nf.
Proof.
  unfold init. intros Hi.
  assert (HX : forall rs, rs = 0 \/ rs = 1 \/ rs = 2 \/ rs = 3 ->
    Wf (mk nf rs (fst (rand_words randInt (nf * Z.to_nat (Z.shiftr 64 rs)) r)))).
  { intros rs Hrs. destruct (rand_words_ok (nf * Z.to_nat (Z.shiftr 64 rs)) r) as [Hl Hw]. by constructor. }
  repeat (case_match; cbn [mbind res_bind mret res_ret] in Hi; [injection Hi as <-; split; [apply HX; tauto|done]|]).
  done.
Qed.
End Init.

Definition rows (h : t) (id : nat) : list Z := take (words h) (drop (id * words h) (hMatrix h)).

Lemma hash_rows h id val :
  Wf h -> Z.of_nat (numFuncs h) * 64 < two32 -> (id < numFuncs h)%nat -> 0 <= val < two64 ->
  hash h id val = Ok (fold (resShift h) (linear (words h / 8) (rows h id) val)).
Proof.
  intros [Hs Hl Hw] Hn Hid Hv. unfold hash. rewrite (proj2 (Nat.ltb_lt _ _) Hid).
  assert (E1 : Z.to_nat (u32 (Z.shiftl (Z.of_nat id) (6 - resShift h))) = (id * words h)%nat).
  { assert (Ew : 2 ^ (6 - resShift h) = Z.of_nat (words h) /\ (words h <= 64)%nat)
      by (unfold words; destruct Hs as [->|[->|[->| ->]]]; split; vm_compute; first [done|lia]).
    destruct Ew as [Ew Hle]. rewrite Z.shiftl_mul_pow2 by lia. rewrite Ew, u32_small by nia. lia. }
  assert (E2 : Z.to_nat (Z.shiftr 64 (resShift h) / 8) = (words h / 8)%nat /\ (8 * (words h / 8) = words h)%nat)
    by (unfold words; destruct Hs as [->|[->|[->| ->]]]; done).
  destruct E2 as [E2 E3]. cbn [rassert mbind res_bind]. rewrite E1, E2.
  rewrite rounds_linear; [|nia|done..]. rewrite E3. cbn [mbind res_bind mret res_ret].
  unfold rot. by rewrite rol64_0, Z.lxor_0_l.
Qed.

Lemma land_lxor_distr a b c : Z.land (Z.lxor a b) c = Z.lxor (Z.land a c) (Z.land b c).
Proof.
  apply Z.bits_inj'. intros i Hi. rewrite Z.land_spec, !Z.lxor_spec, !Z.land_spec.
  by destruct (Z.testbit a i), (Z.testbit b i), (Z.testbit c i).
Qed.

Lemma xor_imap_lxor (f g : nat -> Z -> Z) l :
  xor_all (imap (fun i x => Z.lxor (f i x) (g i x)) l) = Z.lxor (xor_all (imap f l)) (xor_all (imap g l)).
Proof.
  unfold xor_all. revert f g. induction l as [|x l IH]; intros f g; cbn; [done|].
  unfold compose. rewrite (IH (fun n => f (S n)) (fun n => g (S n))). unfold compose.
  rewrite !Z.lxor_assoc. f_equal. rewrite <- !Z.lxor_assoc. f_equal. apply Z.lxor_comm.
Qed.

Lemma linear_lxor n l a b : words_ok l -> 0 <= a < two64 -> 0 <= b < two64 ->
  linear n l (Z.lxor a b) = Z.lxor (linear n l a) (linear n l b).
Proof.
  intros Hl Ha Hb. unfold linear. rewrite <- xor_imap_lxor. f_equal. apply imap_ext. intros i x Hx.
  eapply Forall_lookup_1 in Hl; [|done]. unfold term. rewrite land_lxor_distr. apply rot_lxor; apply land_word; lia.
Qed.
Lemma rows_ok h id : Wf h -> words_ok (rows h id).
Proof. intros []. apply Forall_take. by apply Forall_drop. Qed.

(** The simpler code the comment of [hash] gives for reference. *)
Fixpoint simple_loop (m : list Z) (n base : nat) (val res : Z) : Prelude.res Z :=
  match n with
  | O => mret res
  | S n => row ← arr_get m base;
    simple_loop m n (S base) val (rol64 (Z.lxor res (Z.land val row)) 1)
  end.

(** Its last rotation of row [x] is by [n - x]. *)
Lemma simple_loop_linear n : forall m base val res,
  (base + n <= length m)%nat -> words_ok m -> 0 <= val < two64 -> 0 <= res < two64 ->
  simple_loop m n base val res = Ok (Z.lxor (rot res (Z.of_nat n))
    (xor_all (imap (fun x row => rot (Z.land val row) (Z.of_nat n - Z.of_nat x)) (take n (drop base m))))).
Proof.
  induction n as [|n IH]; intros m base val res Hb Hm Hv Hr; cbn [simple_loop].
  - cbn. rewrite rot_0 by done. by rewrite Z.lxor_0_r.
  - destruct (lookup_lt_is_Some_2 m base) as [row Hrow]; [lia|]. rewrite (arr_get_Some _ _ _ Hrow). cbn [mbind res_bind].
    assert (Hl : 0 <= Z.land val row < two64) by (apply land_word; [done|]; eapply Forall_lookup_1 in Hm; [|done]; lia).
    rewrite rot_small by lia. rewrite IH; [|lia|done|done|by apply rot_word, lxor_word]. f_equal.
    rewrite (drop_S m row base) by done. cbn [take imap]. unfold xor_all. cbn [foldr]. rewrite <- Z.lxor_assoc. f_equal.
    + rewrite rot_rot, rot_lxor by (try done; by apply lxor_word). f_equal; f_equal; lia.
    + f_equal. apply imap_ext. intros x y _. unfold compose. f_equal. lia.
Qed.

(** The row of the unrolled loop that is rotated like row [x] of the simple one. *)
Definition reorder (x : nat) : nat := if decide (x mod 8 = 0)%nat then x else (8 * ((x / 8 + 1) mod 8) + (8 - x mod 8))%nat.

Lemma reorder_perm : reorder <$> seq 0 64 ≡ₚ seq 0 64.
Proof.
  apply submseteq_length_Permutation; [|done]. apply NoDup_submseteq; [by apply (bool_decide_unpack _); vm_compute|].
  intros x (y & -> & Hy)%list_elem_of_fmap. apply elem_of_seq in Hy. apply elem_of_seq. unfold reorder. case_decide; [lia|].
  pose proof (Nat.mod_upper_bound (y / 8 + 1) 8). pose proof (Nat.mod_upper_bound y 8). lia.
Qed.
Lemma xor_all_perm l l' : l ≡ₚ l' -> xor_all l = xor_all l'.
Proof.
  unfold xor_all. induction 1; cbn; try congruence. rewrite <- !Z.lxor_assoc. f_equal. apply Z.lxor_comm.
Qed.
Lemma imap_seq {B} (f : nat -> Z -> B) l : imap f l = (fun x => f x (l !!! x)) <$> seq 0 (length l).
Proof.
  apply list_eq. intros i. rewrite list_lookup_imap, list_lookup_fmap. destruct (l !! i) as [y|] eqn:E.
  - rewrite lookup_seq_lt by (by eapply lookup_lt_Some). cbn. by rewrite (list_lookup_total_correct _ _ _ E).
  - apply lookup_ge_None in E. by rewrite lookup_seq_ge.
Qed.

(** The rows in the order in which the simple loop would have to take them. *)
Definition reordered (rows : list Z) : list Z := (fun x => rows !!! reorder x) <$> seq 0 64.

Lemma reordered_perm rows : length rows = 64%nat -> reordered rows ≡ₚ rows.
Proof.
  intros Hl. unfold reordered. change (fun x => rows !!! reorder x) with ((fun y => rows !!! y) ∘ reorder).
  rewrite (list_fmap_compose reorder (fun y => rows !!! y)).
  rewrite reorder_perm, <- Hl. pose proof (imap_seq (fun _ x => x) rows) as E.
  rewrite <- E. assert (imap (fun _ x => x) rows = rows) as -> by (apply list_eq; intros i; rewrite list_lookup_imap; by destruct (rows !! i)). done.
Qed.

Lemma linear_simple rows val : length rows = 64%nat -> words_ok rows -> 0 <= val < two64 ->
  simple_loop (reordered rows) 64 0 val 0 = Ok (linear 8 rows val).
Proof.
  intros Hl Hw Hv. pose proof (reordered_perm rows Hl) as HP.
  assert (Hlr : length (reordered rows) = 64%nat) by (by rewrite HP).
  rewrite simple_loop_linear; [|lia|unfold words_ok; by rewrite HP|done|done]. f_equal.
  rewrite drop_0, take_ge by lia. unfold rot at 1. rewrite rol64_0, Z.lxor_0_l. unfold linear. rewrite !imap_seq, Hlr, Hl.
  rewrite <- (xor_all_perm _ _ (fmap_Permutation (fun x => term 8 val x (rows !!! x)) _ _ reorder_perm)).
  by rewrite <- list_fmap_compose.
Qed.

(** C34: (what the hand-unrolled loop of H3HashFamily::hash computes) On any matrix the
    constructor builds, for at most 2^32 / 64 functions, the hash of a 64-bit value never
    reads outside the matrix and is the XOR of the [words] rows of the function, row x
    selected by the value and rotated left by x mod 8 + 8 * (words / 8 - x / 8), folded to the
    output width.  With 64-bit output this is the loop that the comment above the function
    gives for reference, but run on the rows in another order: a fixed permutation of the
    64 rows, the same for all functions and values, that is not the identity, so that
    on one and the same matrix the two differ. *)
Theorem h3_hash_rows {R} (randInt : R -> Z * R) nf ob r h id val :
  init randInt nf ob r = Ok h -> Z.of_nat nf * 64 < two32 -> (id < nf)%nat -> 0 <= val < two64 ->
  length (rows h id) = words h /\
  hash h id val = Ok (fold (resShift h) (xor_all (imap (fun x row =>
    rot (Z.land val row) (Z.of_nat (x mod 8) + 8 * Z.of_nat (words h / 8 - x / 8))) (rows h id)))) /\
  (32 < ob -> reordered (rows h id) ≡ₚ rows h id /\ hash h id val = simple_loop (reordered (rows h id)) 64 0 val 0).
Proof.
  intros Hi Hn Hid Hv. destruct (init_Wf randInt nf ob r h Hi) as [HW Hnf]. 
  assert (Hl : length (rows h id) = words h) by (unfold rows; rewrite length_take, length_drop, (wf_len h HW); nia).
  split; [done|]. rewrite <- Hnf in Hn, Hid. split; [by apply hash_rows|]. intros Hob.
  assert (Hs : resShift h = 0).
  { unfold init in Hi. rewrite !(proj2 (Z.leb_gt _ _)) in Hi by lia. destruct (ob <=? 64); [|done]. by injection Hi as <-. }
  assert (Hw : words h = 64%nat) by (unfold words; by rewrite Hs). rewrite Hw in Hl.
  split; [by apply reordered_perm|]. rewrite linear_simple by (try done; by apply rows_ok).
  rewrite hash_rows by done. by rewrite Hs, Hw.
Qed.

(** Every function of the family is linear over GF(2): the hash of [a ^ b] is the
    XOR of the hashes, and the hash of 0 is 0. *)
Theorem h3_linear {R} (randInt : R -> Z * R) nf ob r h id a b :
  init randInt nf ob r = Ok h -> Z.of_nat nf * 64 < two32 -> (id < nf)%nat -> 0 <= a < two64 -> 0 <= b < two64 ->
  exists ha hb, hash h id a = Ok ha /\ hash h id b = Ok hb /\ hash h id (Z.lxor a b) = Ok (Z.lxor ha hb) /\
    hash h id 0 = Ok 0.
Proof.
  intros Hi Hn Hid Ha Hb. destruct (init_Wf randInt nf ob r h Hi) as [HW <-].
  eexists _, _. split; [by apply hash_rows|]. split; [by apply hash_rows|]. split.
  - rewrite hash_rows by (try done; by apply lxor_word). by rewrite linear_lxor, fold_lxor by (try done; by apply rows_ok).
  - rewrite hash_rows by done. rewrite <- (Z.lxor_nilpotent 0).
    rewrite linear_lxor, fold_lxor by (try done; by apply rows_ok). by rewrite !Z.lxor_nilpotent.
Qed.

(** A generator for concrete matrices. *)
Definition lcg (r : Z) : Z * Z := let r := (r * 1103515245 + 12345) mod 2147483648 in (Z.shiftr r 16, r).
Definition ex_family : t := match init lcg 2 12 7 with Ok h => h | Err _ => mk 0 0 [] end.

Definition ex_family64 : t := match init lcg 2 48 7 with Ok h => h | Err _ => mk 0 0 [] end.

Lemma h3_hash_rows_witness :
  length (rows ex_family64 1) = 64%nat /\
  hash ex_family64 1 305419896 = simple_loop (reordered (rows ex_family64 1)) 64 0 305419896 0 /\
  hash ex_family64 1 305419896 <> simple_loop (rows ex_family64 1) 64 0 305419896 0.
Proof.
  destruct (h3_hash_rows lcg 2 48 7 ex_family64 1 305419896) as (Hl & _ & Hs).
  - vm_compute. reflexivity.
  - vm_compute. reflexivity.
  - lia.
  - unfold two64. lia.
  - split; [exact Hl|]. split; [apply Hs; lia|]. vm_compute. discriminate.
Defined.

Lemma h3_linear_witness :
  exists ha hb, hash ex_family 0 255 = Ok ha /\ hash ex_family 0 4096 = Ok hb /\
    hash ex_family 0 (Z.lxor 255 4096) = Ok (Z.lxor ha hb) /\ hash ex_family 0 0 = Ok 0.
Proof.
  apply (h3_linear lcg 2 12 7 ex_family 0 255 4096).
  - vm_compute. reflexivity.
  - vm_compute. reflexivity.
  - lia.
  - unfold two64. lia.
  - unfold two64. lia.
Defined.

(** It is not the same function: on a 64-bit matrix with a single bit set in row 1,
    the unrolled loop and the loop of the comment give different hashes. *)
Theorem simple_loop_differs :
  let m := 0 :: 1 :: replicate 62 0 in
  hash (mk 1 0 m) 0 1 = Ok 2 /\ simple_loop m 64 0 1 0 = Ok 9223372036854775808.
Proof. vm_compute. split; reflexivity. Qed.
End H3.

(** ** The SHA-1 family *)
Module SHA1.
Record t := mk { numFuncs : nat; numPasses : nat; memoizedVal : Z; memoizedHashes : list Z }.

Definition init (numFunctions : nat) : t :=
  let numPasses := (numFunctions / 5 + 1)%nat in mk numFunctions numPasses 0 (replicate (numPasses * 5) 0).

Section Family.
(** [sha1] of the library: the digest of a buffer of sixteen 64-bit words, as five
    32-bit words. *)
Variable sha1 : list Z -> list Z.

(** [buffer[j] ^= memoizedHashes[base + j]] for [n] values of [j] from [j]. *)
Fixpoint mix (hashes buffer : list Z) (base j n : nat) : res (list Z) :=
  match n with
  | O => mret buffer
  | S n =>
    b ← arr_get buffer j; h ← arr_get hashes (base + j);
    buffer ← arr_set buffer j (Z.lxor b h);
    mix hashes buffer base (S j) n
  end.

(** The digest is written over five words of the array. *)
Definition write5 (hashes : list Z) (i : nat) (d : list Z) : res (list Z) :=
  rassert (i * 5 + 5 <=? length hashes)%nat "array index out of range";;
  mret (take (i * 5) hashes ++ d ++ drop (i * 5 + 5) hashes).

Fixpoint passes (hashes buffer : list Z) (i n : nat) : res (list Z) :=
  match n with
  | O => mret hashes
  | S n =>
    buffer ← (if (0 <? i)%nat then mix hashes buffer ((i - 1) * 5) 0 5 else mret buffer);
    hashes ← write5 hashes i (sha1 buffer);
    passes hashes buffer (S i) n
  end.

Definition hash (id : nat) (val : Z) : M t Z :=
  h ← mget;
  massert (id <? numFuncs h)%nat "id >= 0 && id < (uint32_t)numFuncs";;
  if val =? memoizedVal h then mlift (arr_get (memoizedHashes h) id)
  else
    hashes ← mlift (passes (memoizedHashes h) (replicate 16 val) 0 (numPasses h));
    mmodify (fun h => mk (numFuncs h) (numPasses h) val hashes);;
    mlift (arr_get hashes id).

(** The family without memoization: pass [i] digests a buffer that the digest of pass
    [i - 1] changed. *)
Definition xor5 (buffer d : list Z) : list Z := zip_with Z.lxor (take 5 buffer) d ++ drop 5 buffer.
Fixpoint digests (buffer : list Z) (n : nat) : list Z :=
  match n with
  | O => []
  | S n => let d := sha1 buffer in d ++ digests (xor5 buffer d) n
  end.
Definition pure_hash (numFunctions id : nat) (val : Z) : option Z :=
  digests (replicate 16 val) (numFunctions / 5 + 1) !! id.

Fixpoint calls (l : list (nat * Z)) : M t (list Z) :=
  match l with
  | [] => mret []
  | (id, val) :: l => r ← hash id val; rs ← calls l; mret (r :: rs)
  end.

Hypothesis sha1_length : forall b, length (sha1 b) = 5%nat.

Lemma mix_xor5 hashes buffer i d :
  length buffer = 16%nat -> length d = 5%nat -> take 5 (drop (i * 5) hashes) = d ->
  mix hashes buffer (i * 5) 0 5 = Ok (xor5 buffer d).
Proof.
  intros Hb Hd Ht. assert (HL : forall j, (j < 5)%nat -> hashes !! (i * 5 + j)%nat = d !! j).
  { intros j Hj. rewrite <- Ht, lookup_take_lt by done. by rewrite lookup_drop. }
  destruct d as [|d0 [|d1 [|d2 [|d3 [|d4 [|]]]]]]; try done.
  destruct buffer as [|b0 [|b1 [|b2 [|b3 [|b4 rest]]]]]; try done.
  cbn [mix]. unfold arr_get. rewrite !HL by lia. done.
Qed.

Lemma xor5_length buffer d : length buffer = 16%nat -> length d = 5%nat -> length (xor5 buffer d) = 16%nat.
Proof. intros Hb Hd. unfold xor5. rewrite length_app, length_zip_with, length_take, length_drop. lia. Qed.

(** After pass [i - 1] has been written, the remaining passes write the remaining digests. *)
Lemma passes_digests n : forall hashes buffer i d,
  length buffer = 16%nat -> length d = 5%nat -> take 5 (drop (i * 5) hashes) = d ->
  length hashes = ((S i + n) * 5)%nat ->
  passes hashes buffer (S i) n = Ok (take (S i * 5) hashes ++ digests (xor5 buffer d) n).
Proof.
  induction n as [|n IH]; intros hashes buffer i d Hb Hd Ht Hl; cbn [passes digests].
  - rewrite app_nil_r, take_ge by lia. done.
  - rewrite (proj2 (Nat.ltb_lt 0 (S i))) by lia. replace (S i - 1)%nat with i by lia.
    rewrite (mix_xor5 _ _ _ d) by done. cbn [mbind res_bind].
    assert (Hx : length (xor5 buffer d) = 16%nat) by (by apply xor5_length).
    unfold write5. rewrite (proj2 (Nat.leb_le _ _)) by lia. cbn [rassert mbind res_bind mret res_ret].
    set (new := sha1 (xor5 buffer d)). assert (Hnew : length new = 5%nat) by apply sha1_length.
    assert (Ht5 : length (take (S i * 5) hashes) = (S i * 5)%nat) by (rewrite length_take; lia).
    rewrite (IH _ (xor5 buffer d) (S i) new); [|done|done|..].
    + f_equal. replace (S (S i) * 5)%nat with (S i * 5 + 5)%nat by lia. rewrite <- Ht5 at 1.
      rewrite firstn_app_2. rewrite take_app_length' by done. by rewrite <- app_assoc.
    + rewrite <- Ht5 at 1. rewrite drop_app_length. by rewrite take_app_length' by done.
    + rewrite !length_app, Ht5, Hnew, length_drop. lia.
Qed.

Lemma passes_all hashes val n :
  length hashes = (S n * 5)%nat -> passes hashes (replicate 16 val) 0 (S n) = Ok (digests (replicate 16 val) (S n)).
Proof.
  intros Hl. cbn [passes digests]. rewrite (proj2 (Nat.ltb_ge 0 0)) by lia. cbn [mbind res_bind mret res_ret].
  unfold write5. rewrite (proj2 (Nat.leb_le _ _)) by lia. cbn [rassert mbind res_bind mret res_ret].
  set (d := sha1 _). assert (Hd : length d = 5%nat) by apply sha1_length.
  change (take (0 * 5) hashes ++ d ++ drop (0 * 5 + 5) hashes) with (d ++ drop 5 hashes).
  rewrite (passes_digests n _ (replicate 16 val) 0 d); try done.
  - by rewrite take_app_length' by done.
  - change (drop (0 * 5) (d ++ drop 5 hashes)) with (d ++ drop 5 hashes). by rewrite take_app_length' by done.
  - rewrite length_app, Hd, length_drop. lia.
Qed.

Lemma digests_length buffer n : length (digests buffer n) = (n * 5)%nat.
Proof. revert buffer. induction n as [|n IH]; intros b; cbn [digests]; [done|]. rewrite length_app, sha1_length, IH. lia. Qed.

(** The memo is the digests of its value, or the family is fresh. *)
Definition Memo (nf : nat) (h : t) : Prop :=
  numFuncs h = nf /\ numPasses h = (nf / 5 + 1)%nat /\ length (memoizedHashes h) = (numPasses h * 5)%nat /\
  (memoizedHashes h = digests (replicate 16 (memoizedVal h)) (numPasses h)).
Definition Fresh (nf : nat) (h : t) : Prop := h = init nf.

Lemma hash_pure nf h id val :
  Memo nf h \/ Fresh nf h /\ val <> 0 -> (id < nf)%nat ->
  wp (hash id val) (fun r h' => pure_hash nf id val = Some r /\ Memo nf h') h.
Proof.
  intros Hm Hid.
  assert (Hd : exists r, pure_hash nf id val = Some r).
  { apply lookup_lt_is_Some_2. rewrite digests_length. pose proof (Nat.div_mod nf 5). pose proof (Nat.mod_upper_bound nf 5). lia. }
  destruct Hd as [r Hr]. unfold hash. wp_steps.
  apply wp_assert; [apply Nat.ltb_lt; by destruct Hm as [(-> & _)|[-> _]]|].
  destruct (Z.eqb_spec val (memoizedVal h)) as [->|Hne].
  - destruct Hm as [(<- & Hp & Hl & Hh)|[-> ?]]; [|done]. apply wp_lift. unfold arr_get, rwp. rewrite Hh, Hp.
    unfold pure_hash in Hr. rewrite Hr. done.
  - assert (Hp : numFuncs h = nf /\ numPasses h = S (nf / 5) /\ length (memoizedHashes h) = (S (nf / 5) * 5)%nat).
    { destruct Hm as [(<- & Hp & Hl & Hh)|[-> ?]].
      - rewrite Hl, Hp. split_and!; lia.
      - split; [done|]. unfold init. cbn [numPasses memoizedHashes]. rewrite length_replicate. split; lia. }
    destruct Hp as (<- & Hp & Hl). wp_steps. apply wp_lift. rewrite Hp, passes_all by done. cbn [rwp].
    wp_steps. apply wp_lift. unfold pure_hash in Hr. rewrite Nat.add_1_r in Hr. unfold arr_get, rwp. rewrite Hr. cbn [from_opt].
    split; [unfold pure_hash; by rewrite Nat.add_1_r|]. split; [done|]. cbn [numPasses memoizedHashes memoizedVal numFuncs].
    rewrite Hp, Nat.add_1_r. split; [done|]. by rewrite digests_length.
Qed.

Lemma calls_pure nf l h :
  Memo nf h \/ Fresh nf h /\ match l with [] => True | (_, v) :: _ => v <> 0 end ->
  Forall (fun c => (fst c < nf)%nat) l ->
  wp (calls l) (fun rs _ => mapM (fun c => pure_hash nf (fst c) (snd c)) l = Some rs) h.
Proof.
  revert h. induction l as [|[id val] l IH]; intros h Hm Hl; cbn [calls]; [by wp_steps|].
  apply Forall_cons_1 in Hl as [Hid Hl]. apply wp_bind.
  eapply wp_mono; [by apply (hash_pure nf)|]. intros r h' [Hr Hm']. apply wp_bind.
  eapply wp_mono; [apply IH; [by left|done]|]. intros rs h'' Hrs. wp_steps. cbn [mapM fst snd]. rewrite Hr. cbn [mbind option_bind]. by rewrite Hrs.
Qed.
End Family.

(** The memoization is transparent: for any [sha1] that returns five words, any
    sequence of calls on a new family whose first value is not 0 returns what the family
    without a memo returns. *)
Theorem sha1_memo_transparent (sha1 : list Z -> list Z) nf l :
  (forall b, length (sha1 b) = 5%nat) ->
  Forall (fun c => (fst c < nf)%nat) l -> match l with [] => True | (_, v) :: _ => v <> 0 end ->
  exists rs h, calls sha1 l (init nf) = Ok (rs, h) /\
    mapM (fun c => pure_hash sha1 nf (fst c) (snd c)) l = Some rs.
Proof. intros Hs Hl H0. apply wp_elim, calls_pure; [done|by right|done]. Qed.

Definition toy_sha1 (b : list Z) : list Z := map (fun i => (foldr Z.add i b * 2654435761) mod two32) [1; 2; 3; 4; 5].
Lemma toy_sha1_length b : length (toy_sha1 b) = 5%nat.
Proof. unfold toy_sha1. by rewrite length_map. Qed.

Lemma sha1_memo_transparent_witness :
  exists rs h, calls toy_sha1 [(3%nat, 17); (6%nat, 17); (0%nat, 0)] (init 7) = Ok (rs, h) /\
    mapM (fun c => pure_hash toy_sha1 7 (fst c) (snd c)) [(3%nat, 17); (6%nat, 17); (0%nat, 0)] = Some rs.
Proof.
  apply (sha1_memo_transparent toy_sha1 7 [(3%nat, 17); (6%nat, 17); (0%nat, 0)]).
  - exact toy_sha1_length.
  - repeat constructor.
  - lia.
Defined.

(** It is not for the value 0: a new family already holds 0 as its memoized value,
    with hashes that were never computed, so it returns 0 for it whatever [sha1] is. *)
Theorem sha1_zero_stale (sha1 : list Z -> list Z) nf id :
  (id < nf)%nat -> exists h, hash sha1 id 0 (init nf) = Ok (0, h).
Proof.
  intros Hid. exists (init nf). unfold hash, mget, massert, mbind, M_bind, mlift.
  cbn [numFuncs init]. rewrite (proj2 (Nat.ltb_lt _ _) Hid). cbn [memoizedVal init Z.eqb memoizedHashes].
  unfold arr_get. rewrite lookup_replicate_2; [done|].
  pose proof (Nat.div_mod nf 5). pose proof (Nat.mod_upper_bound nf 5). lia.
Qed.

Lemma sha1_zero_stale_witness : exists h, hash toy_sha1 3 0 (init 7) = Ok (0, h).
Proof. apply (sha1_zero_stale toy_sha1 7 3). lia. Defined.
End SHA1.

(** ** The identity family *)
Module IdHash.
Definition hash (id : nat) (val : Z) : Z := val.
End IdHash.
