(* ===== verification/InList.v ===== *)
(** * Intrusive doubly-linked lists (src/src/intrusive_list.h)

    The nodes live in a shared store and carry their own links and owner; a list holds
    its head, its tail and a count.  The operations write the links one at a time, with
    the code's assertions.  They are shown to implement the operations on sequences, for
    any number of lists sharing the nodes: an operation succeeds exactly when its node
    belongs where the caller says. *)

From S2P Require Import Prelude.

Module IL.
Record InListNode := mkNode { next : option nat; prev : option nat; owner : option nat }.
Record Lst := mkLst { head : option nat; tail : option nat; elems : Z }.
Record t := mk { nodes : nat -> InListNode; lists : nat -> Lst }.

Definition init : t := mk (fun _ => mkNode None None None) (fun _ => mkLst None None 0).

(** Field writes. *)
Definition set_next (e : nat) (x : option nat) (s : t) : t :=
  mk (upd (nodes s) e (mkNode x (prev (nodes s e)) (owner (nodes s e)))) (lists s).
Definition set_prev (e : nat) (x : option nat) (s : t) : t :=
  mk (upd (nodes s) e (mkNode (next (nodes s e)) x (owner (nodes s e)))) (lists s).
Definition set_owner (e : nat) (x : option nat) (s : t) : t :=
  mk (upd (nodes s) e (mkNode (next (nodes s e)) (prev (nodes s e)) x)) (lists s).
Definition set_head (l : nat) (x : option nat) (s : t) : t :=
  mk (nodes s) (upd (lists s) l (mkLst x (tail (lists s l)) (elems (lists s l)))).
Definition set_tail (l : nat) (x : option nat) (s : t) : t :=
  mk (nodes s) (upd (lists s) l (mkLst (head (lists s l)) x (elems (lists s l)))).
Definition add_elems (l : nat) (d : Z) (s : t) : t :=
  mk (nodes s) (upd (lists s) l (mkLst (head (lists s l)) (tail (lists s l)) (u64 (elems (lists s l) + d)))).

Definition node (e : nat) : M t InListNode := mgets (fun s => nodes s e).
Definition lst (l : nat) : M t Lst := mgets (fun s => lists s l).
Definition is_null {X} (o : option X) : bool := match o with Some _ => false | None => true end.

Definition unlink (e l : nat) : M t unit :=
  n ← node e;
  (match next n with Some x => mmodify (set_prev x (prev n)) | None => mret tt end);;
  n ← node e;
  (match prev n with Some x => mmodify (set_next x (next n)) | None => mret tt end);;
  mmodify (set_next e None);;
  mmodify (set_prev e None);;
  n ← node e;
  massert (bool_decide (owner n = Some l)) "lst == owner";;
  mmodify (set_owner e None).

Definition linkPrev (e p l : nat) : M t unit :=
  n ← node e;
  massert (is_null (owner n)) "owner == nullptr";;
  massert (is_null (prev n) && is_null (next n)) "prev == nullptr && next == nullptr";;
  np ← node p;
  (match next np with
   | Some x =>
     nx ← node x;
     massert (bool_decide (prev nx = Some p)) "p->next->prev == p";;
     mmodify (set_prev x (Some e));;
     mmodify (set_next e (Some x))
   | None => mret tt
   end);;
  mmodify (set_next p (Some e));;
  mmodify (set_prev e (Some p));;
  mmodify (set_owner e (Some l)).

Definition empty (l : Lst) : bool := is_null (head l).
Definition front (l : Lst) : option nat := head l.
Definition back (l : Lst) : option nat := tail l.
Definition size (l : Lst) : Z := elems l.

Definition push_front (this e : nat) : M t unit :=
  n ← node e;
  massert (is_null (next n) && is_null (prev n) && is_null (owner n)) "e is linked";;
  l ← lst this;
  (match head l with
   | None => mmodify (set_head this (Some e));; mmodify (set_tail this (Some e))
   | Some h =>
     nh ← node h;
     massert (is_null (prev nh) && bool_decide (owner nh = Some this)) "head && head->prev == nullptr && head->owner == this";;
     mmodify (set_next e (Some h));;
     mmodify (set_prev h (Some e));;
     mmodify (set_head this (Some e))
   end);;
  mmodify (set_owner e (Some this));;
  mmodify (add_elems this 1).

Definition push_back (this e : nat) : M t unit :=
  n ← node e;
  massert (is_null (next n) && is_null (prev n) && is_null (owner n)) "e is linked";;
  l ← lst this;
  (if empty l then
     mmodify (set_head this (Some e));; mmodify (set_tail this (Some e));; mmodify (set_owner e (Some this))
   else
     match tail l with
     | None => mfail "tail"
     | Some x => linkPrev e x this;; mmodify (set_tail this (Some e))
     end);;
  mmodify (add_elems this 1).

Definition pop_front (this : nat) : M t unit :=
  l ← lst this;
  match head l with
  | None => mret tt
  | Some e =>
    n ← node e;
    mmodify (set_head this (next n));;
    unlink e this;;
    l ← lst this;
    (if empty l then mmodify (set_tail this None) else mret tt);;
    mmodify (add_elems this (-1))
  end.

Definition pop_back (this : nat) : M t unit :=
  l ← lst this;
  if empty l then mret tt
  else
    match tail l with
    | None => mfail "tail"
    | Some e =>
      n ← node e;
      mmodify (set_tail this (prev n));;
      unlink e this;;
      l ← lst this;
      (if is_null (tail l) then mmodify (set_head this None) else mret tt);;
      mmodify (add_elems this (-1))
    end.

Definition remove (this e : nat) : M t unit :=
  n ← node e;
  l ← lst this;
  (if bool_decide (head l = Some e) then mmodify (set_head this (next n)) else mret tt);;
  (if bool_decide (tail l = Some e) then mmodify (set_tail this (prev n)) else mret tt);;
  unlink e this;;
  mmodify (add_elems this (-1)).

Definition insertAfter (this p e : nat) : M t unit :=
  n ← node e;
  massert (is_null (owner n)) "e && e->owner == nullptr";;
  np ← node p;
  massert (bool_decide (owner np = Some this)) "prev && prev->owner == this";;
  linkPrev e p this;;
  l ← lst this;
  (if bool_decide (tail l = Some p) then mmodify (set_tail this (Some e)) else mret tt);;
  mmodify (add_elems this 1).

(** ** Linked segments *)
Abbreviation last := list.last.
Definition hd_or (l : list nat) (n : option nat) : option nat := match l with [] => n | x :: _ => Some x end.
Definition last_or (p : option nat) (l : list nat) : option nat := match last l with Some x => Some x | None => p end.

(** The nodes [l] are linked in this order, between [p] and [n]. *)
Fixpoint seg (ns : nat -> InListNode) (p : option nat) (l : list nat) (n : option nat) : Prop :=
  match l with
  | [] => True
  | x :: l => prev (ns x) = p /\ next (ns x) = hd_or l n /\ seg ns (Some x) l n
  end.

Lemma last_or_cons p x l : last_or p (x :: l) = last_or (Some x) l.
Proof. unfold last_or. rewrite last_cons. by destruct (last l). Qed.

Lemma seg_app ns p l l' n :
  seg ns p (l ++ l') n <-> seg ns p l (hd_or l' n) /\ seg ns (last_or p l) l' n.
Proof.
  revert p. induction l as [|x l IH]; intros p; cbn [seg app]; [by unfold last_or; cbn; tauto|].
  rewrite last_or_cons, IH. assert (hd_or (l ++ l') n = hd_or l (hd_or l' n)) as -> by (by destruct l). tauto.
Qed.

Lemma seg_ext ns ns' p l n :
  (forall x, x ∈ l -> next (ns' x) = next (ns x) /\ prev (ns' x) = prev (ns x)) -> seg ns p l n -> seg ns' p l n.
Proof.
  revert p. induction l as [|x l IH]; intros p He; cbn [seg]; [done|]. intros (H1 & H2 & H3).
  destruct (He x) as [-> ->]; [left|]. split; [done|]. split; [done|]. apply IH; [|done]. intros y Hy. apply He. by right.
Qed.

(** The same nodes with another predecessor, or another successor. *)
Lemma seg_rehead ns ns' p p' l n :
  (forall x, x ∈ l -> next (ns' x) = next (ns x)) ->
  (forall x, x ∈ l -> prev (ns' x) = if decide (hd_or l None = Some x) then p' else prev (ns x)) ->
  NoDup l -> seg ns p l n -> seg ns' p' l n.
Proof.
  intros Hn Hp Hnd. destruct l as [|x l]; cbn [seg]; [done|]. intros (H1 & H2 & H3).
  apply list.NoDup_cons in Hnd as [Hx Hnd]. rewrite Hn, Hp by left. cbn [hd_or]. rewrite decide_True by done.
  split; [done|]. split; [done|]. eapply seg_ext; [|done]. intros y Hy. rewrite Hn, Hp by (by right). split; [done|].
  cbn [hd_or]. rewrite decide_False; [done|]. congruence.
Qed.
Lemma seg_retail ns ns' p l n n' :
  (forall x, x ∈ l -> prev (ns' x) = prev (ns x)) ->
  (forall x, x ∈ l -> next (ns' x) = if decide (last l = Some x) then n' else next (ns x)) ->
  NoDup l -> seg ns p l n -> seg ns' p l n'.
Proof.
  revert p. induction l as [|x l IH]; intros p Hp Hn Hnd; cbn [seg]; [done|]. intros (H1 & H2 & H3).
  apply list.NoDup_cons in Hnd as [Hx Hnd]. rewrite Hn, Hp by left. split; [done|]. split.
  - rewrite last_cons. destruct (last l) as [z|] eqn:El.
    + assert (Hz : z ∈ l) by (by apply last_Some_elem_of). rewrite decide_False by congruence. rewrite H2. by destruct l.
    + apply last_None in El as ->. by rewrite decide_True.
  - apply IH; [|intros y Hy|done|done].
    + intros y Hy. apply Hp. by right.
    + rewrite Hn by (by right). rewrite last_cons. destruct l as [|z l]; [set_solver|].
      destruct (last (z :: l)) as [w|] eqn:El; [done|]. by apply last_None in El.
Qed.

(** ** The store represents a family of disjoint sequences *)
Record NInv (ns : nat -> InListNode) (f : nat -> list nat) : Prop := mkNInv {
  ni_seg : forall i, seg ns None (f i) None;
  ni_own : forall i x, x ∈ f i <-> owner (ns x) = Some i;
  ni_nodup : forall i, NoDup (f i);
  ni_free : forall x, owner (ns x) = None -> next (ns x) = None /\ prev (ns x) = None
}.
Definition lst_of (l : list nat) : Lst := mkLst (hd_or l None) (last l) (u64 (Z.of_nat (length l))).
Record Rep (s : t) (f : nat -> list nat) : Prop := mkRep {
  rp_nodes : NInv (nodes s) f;
  rp_lists : forall i, lists s i = lst_of (f i)
}.

Lemma elem_split ns f i x : NInv ns f -> x ∈ f i -> exists l l', f i = l ++ x :: l' /\
  prev (ns x) = last l /\ next (ns x) = hd_or l' None.
Proof.
  intros H Hx. apply list_elem_of_split in Hx as (l & l' & E). exists l, l'. split; [done|].
  pose proof (ni_seg _ _ H i) as Hs. rewrite E in Hs. apply seg_app in Hs as [_ (Hp & Hn & _)].
  split; [|done]. rewrite Hp. unfold last_or. by destruct (last l).
Qed.

(** Neighbours belong to the same list. *)
Lemma next_own ns f x y : NInv ns f -> next (ns x) = Some y -> x <> y /\ exists i, x ∈ f i /\ y ∈ f i.
Proof.
  intros H Hn. destruct (owner (ns x)) as [i|] eqn:Ho; [|destruct (ni_free _ _ H x Ho); congruence].
  apply (ni_own _ _ H) in Ho. destruct (elem_split _ _ _ _ H Ho) as (l & l' & E & _ & Hn').
  pose proof (ni_nodup _ _ H i) as Hnd. rewrite Hn in Hn'. destruct l' as [|z l']; [done|]. injection Hn' as <-.
  rewrite E in Hnd. apply list.NoDup_app in Hnd as (_ & _ & [Hx _]%list.NoDup_cons). split; [set_solver|].
  exists i. split; [done|]. rewrite E. set_solver.
Qed.
Lemma prev_own ns f x y : NInv ns f -> prev (ns x) = Some y -> x <> y /\ exists i, x ∈ f i /\ y ∈ f i.
Proof.
  intros H Hn. destruct (owner (ns x)) as [i|] eqn:Ho; [|destruct (ni_free _ _ H x Ho); congruence].
  apply (ni_own _ _ H) in Ho. destruct (elem_split _ _ _ _ H Ho) as (l & l' & E & Hp & _).
  pose proof (ni_nodup _ _ H i) as Hnd. rewrite Hn in Hp. symmetry in Hp. apply last_Some_elem_of in Hp.
  rewrite E in Hnd. apply list.NoDup_app in Hnd as (_ & Hd & _). split; [intros ->; by apply (Hd y Hp); left|].
  exists i. split; [done|]. rewrite E. set_solver.
Qed.
Lemma own_inj ns f i j x : NInv ns f -> x ∈ f i -> x ∈ f j -> i = j.
Proof. intros H. rewrite !(ni_own _ _ H). congruence. Qed.

(** *** Unlinking *)
Definition unlinked (ns : nat -> InListNode) (e x : nat) : InListNode :=
  if decide (x = e) then mkNode None None None
  else mkNode (if decide (prev (ns e) = Some x) then next (ns e) else next (ns x))
              (if decide (next (ns e) = Some x) then prev (ns e) else prev (ns x)) (owner (ns x)).

Lemma unlinked_inv ns ns' f i e l l' :
  NInv ns f -> f i = l ++ e :: l' -> (forall x, ns' x = unlinked ns e x) -> NInv ns' (upd f i (l ++ l')).
Proof.
  intros H E Hns. pose proof (ni_nodup _ _ H i) as Hnd. rewrite E in Hnd.
  apply list.NoDup_app in Hnd as (Hl & Hd & [He Hl']%list.NoDup_cons).
  assert (Hel : e ∉ l) by (intros Hx; by apply (Hd e Hx); left).
  assert (Hei : e ∈ f i) by (rewrite E; set_solver).
  pose proof (ni_seg _ _ H i) as Hs. rewrite E in Hs. apply seg_app in Hs as [Hs1 (Hp & Hn & Hs2)].
  assert (HP : prev (ns e) = last l) by (rewrite Hp; unfold last_or; by destruct (last l)).
  assert (Hother : forall j x, j <> i -> x ∈ f j -> x <> e /\ prev (ns e) <> Some x /\ next (ns e) <> Some x).
  { intros j x Hj Hx. split; [intros ->; by apply Hj, (own_inj _ _ _ _ _ H Hx)|]. split; intros Hc.
    - destruct (prev_own _ _ _ _ H Hc) as (_ & k & Hk & Hk'). rewrite (own_inj _ _ _ _ _ H Hk Hei) in Hk'.
      by apply Hj, (own_inj _ _ _ _ _ H Hx).
    - destruct (next_own _ _ _ _ H Hc) as (_ & k & Hk & Hk'). rewrite (own_inj _ _ _ _ _ H Hk Hei) in Hk'.
      by apply Hj, (own_inj _ _ _ _ _ H Hx). }
  constructor.
  - intros j. destruct (decide (i = j)) as [<-|Hj].
    + rewrite upd_eq. apply seg_app. split.
      * eapply seg_retail; [| |done|exact Hs1]; intros x Hx; rewrite Hns; unfold unlinked; rewrite decide_False by set_solver; cbn.
        -- rewrite decide_False; [done|]. rewrite Hn. intros Hc. destruct l' as [|y l']; [done|]. injection Hc as ->.
           apply (Hd x Hx). set_solver.
        -- rewrite HP, Hn. done.
      * rewrite <- Hp. eapply seg_rehead; [| |done|exact Hs2]; intros x Hx; rewrite Hns; unfold unlinked;
          (rewrite decide_False by set_solver); cbn.
        -- rewrite decide_False; [done|]. rewrite HP. intros Hc%last_Some_elem_of. apply (Hd x Hc). set_solver.
        -- by rewrite Hn.
    + rewrite upd_ne by done. eapply seg_ext; [|apply (ni_seg _ _ H)]. intros x Hx.
      destruct (Hother j x ltac:(done) Hx) as (? & ? & ?). rewrite Hns. unfold unlinked. by rewrite !decide_False.
  - intros j x. rewrite Hns. unfold unlinked. destruct (decide (i = j)) as [<-|Hj].
    + rewrite upd_eq. destruct (decide (x = e)) as [->|Hx]; cbn; [set_solver|].
      rewrite <- (ni_own _ _ H), E. set_solver.
    + rewrite upd_ne by done. destruct (decide (x = e)) as [->|Hx]; cbn; [|apply (ni_own _ _ H)].
      split; [|done]. intros Hx. by destruct (Hother j e ltac:(done) Hx).
  - intros j. destruct (decide (i = j)) as [<-|Hj]; [rewrite upd_eq|rewrite upd_ne by done; apply (ni_nodup _ _ H)].
    apply list.NoDup_app. split; [done|]. split; [|done]. intros x Hx Hx'. apply (Hd x Hx). by right.
  - intros x. rewrite Hns. unfold unlinked. destruct (decide (x = e)) as [->|Hx]; cbn; [done|]. intros Ho.
    rewrite !decide_False; [by apply (ni_free _ _ H)|..]; intros Hc.
    + destruct (next_own _ _ _ _ H Hc) as (_ & k & _ & Hk%(ni_own _ _ H)). congruence.
    + destruct (prev_own _ _ _ _ H Hc) as (_ & k & _ & Hk%(ni_own _ _ H)). congruence.
Qed.

(** *** Linking a free node between [l] and [l'] *)
Definition linked (ns : nat -> InListNode) (i : nat) (l l' : list nat) (e x : nat) : InListNode :=
  if decide (x = e) then mkNode (hd_or l' None) (last l) (Some i)
  else mkNode (if decide (last l = Some x) then Some e else next (ns x))
              (if decide (hd_or l' None = Some x) then Some e else prev (ns x)) (owner (ns x)).

Lemma hd_or_elem l x : hd_or l None = Some x -> x ∈ l.
Proof. destruct l; [done|]. intros [= ->]. left. Qed.

Lemma linked_inv ns ns' f i e l l' :
  NInv ns f -> f i = l ++ l' -> owner (ns e) = None -> (forall x, ns' x = linked ns i l l' e x) ->
  NInv ns' (upd f i (l ++ e :: l')).
Proof.
  intros H E Ho Hns. pose proof (ni_nodup _ _ H i) as Hnd. rewrite E in Hnd.
  apply list.NoDup_app in Hnd as (Hl & Hd & Hl').
  assert (He : forall j, e ∉ f j) by (intros j Hj%(ni_own _ _ H); congruence).
  assert (Hei : e ∉ l /\ e ∉ l') by (specialize (He i); rewrite E in He; set_solver).
  destruct Hei as [Hel Hel'].
  pose proof (ni_seg _ _ H i) as Hs. rewrite E in Hs. apply seg_app in Hs as [Hs1 Hs2].
  assert (Hin : forall x, last l = Some x \/ hd_or l' None = Some x -> x ∈ f i).
  { intros x [Hx%last_Some_elem_of|Hx%hd_or_elem]; rewrite E; set_solver. }
  constructor.
  - intros j. destruct (decide (i = j)) as [<-|Hj].
    + rewrite upd_eq. apply seg_app. split; [|cbn [seg]; split; [|split]].
      * eapply seg_retail; [| |done|exact Hs1]; intros x Hx; rewrite Hns; unfold linked; rewrite decide_False by set_solver; cbn; [|done].
        rewrite decide_False; [done|]. intros Hc%hd_or_elem. by apply (Hd x Hx).
      * rewrite Hns. unfold linked, last_or. rewrite decide_True by done. cbn. by destruct (last l).
      * rewrite Hns. unfold linked. by rewrite decide_True.
      * eapply seg_rehead; [| |done|exact Hs2]; intros x Hx; rewrite Hns; unfold linked; rewrite decide_False by set_solver; cbn; [|done].
        rewrite decide_False; [done|]. intros Hc%last_Some_elem_of. by apply (Hd x Hc).
    + rewrite upd_ne by done. eapply seg_ext; [|apply (ni_seg _ _ H)]. intros x Hx. rewrite Hns. unfold linked.
      rewrite !decide_False; [done|..].
      * intros Hc. by apply Hj, (own_inj _ _ _ _ x H); [apply Hin; right|].
      * intros Hc. by apply Hj, (own_inj _ _ _ _ x H); [apply Hin; left|].
      * intros ->. by apply (He j).
  - intros j x. rewrite Hns. unfold linked. destruct (decide (i = j)) as [<-|Hj].
    + rewrite upd_eq. destruct (decide (x = e)) as [->|Hx]; cbn; [set_solver|]. rewrite <- (ni_own _ _ H), E. set_solver.
    + rewrite upd_ne by done. destruct (decide (x = e)) as [->|Hx]; cbn; [|apply (ni_own _ _ H)].
      split; [intros Hx; by apply He in Hx|congruence].
  - intros j. destruct (decide (i = j)) as [<-|Hj]; [rewrite upd_eq|rewrite upd_ne by done; apply (ni_nodup _ _ H)].
    apply list.NoDup_app. split; [done|]. split; [|by apply list.NoDup_cons].
    intros x Hx [->|Hx']%elem_of_cons; [done|]. by apply (Hd x Hx).
  - intros x. rewrite Hns. unfold linked. destruct (decide (x = e)) as [->|Hx]; cbn; [done|]. intros Hox.
    rewrite !decide_False; [by apply (ni_free _ _ H)|..]; intros Hc.
    + assert (Hx' : x ∈ f i) by (apply Hin; by right). apply (ni_own _ _ H) in Hx'. congruence.
    + assert (Hx' : x ∈ f i) by (apply Hin; by left). apply (ni_own _ _ H) in Hx'. congruence.
Qed.

(** ** Reading back the field writes *)
Create Rewrite HintDb il.
Lemma next_set_next a v s x : next (nodes (set_next a v s) x) = if decide (a = x) then v else next (nodes s x).
Proof. cbn. unfold upd. by destruct (decide (a = x)) as [->|]. Qed.
Lemma prev_set_next a v s x : prev (nodes (set_next a v s) x) = prev (nodes s x).
Proof. cbn. unfold upd. by destruct (decide (a = x)) as [->|]. Qed.
Lemma owner_set_next a v s x : owner (nodes (set_next a v s) x) = owner (nodes s x).
Proof. cbn. unfold upd. by destruct (decide (a = x)) as [->|]. Qed.
Lemma next_set_prev a v s x : next (nodes (set_prev a v s) x) = next (nodes s x).
Proof. cbn. unfold upd. by destruct (decide (a = x)) as [->|]. Qed.
Lemma prev_set_prev a v s x : prev (nodes (set_prev a v s) x) = if decide (a = x) then v else prev (nodes s x).
Proof. cbn. unfold upd. by destruct (decide (a = x)) as [->|]. Qed.
Lemma owner_set_prev a v s x : owner (nodes (set_prev a v s) x) = owner (nodes s x).
Proof. cbn. unfold upd. by destruct (decide (a = x)) as [->|]. Qed.
Lemma next_set_owner a v s x : next (nodes (set_owner a v s) x) = next (nodes s x).
Proof. cbn. unfold upd. by destruct (decide (a = x)) as [->|]. Qed.
Lemma prev_set_owner a v s x : prev (nodes (set_owner a v s) x) = prev (nodes s x).
Proof. cbn. unfold upd. by destruct (decide (a = x)) as [->|]. Qed.
Lemma owner_set_owner a v s x : owner (nodes (set_owner a v s) x) = if decide (a = x) then v else owner (nodes s x).
Proof. cbn. unfold upd. by destruct (decide (a = x)) as [->|]. Qed.
Lemma nodes_set_head l v s : nodes (set_head l v s) = nodes s.
Proof. done. Qed.
Lemma nodes_set_tail l v s : nodes (set_tail l v s) = nodes s.
Proof. done. Qed.
Lemma nodes_add_elems l v s : nodes (add_elems l v s) = nodes s.
Proof. done. Qed.
#[local] Hint Rewrite next_set_next prev_set_next owner_set_next next_set_prev prev_set_prev owner_set_prev
  next_set_owner prev_set_owner owner_set_owner nodes_set_head nodes_set_tail nodes_add_elems : il.

Lemma node_ext (a b : InListNode) : next a = next b -> prev a = prev b -> owner a = owner b -> a = b.
Proof. destruct a, b. cbn. by intros -> -> ->. Qed.

Ltac node_cases :=
  autorewrite with il;
  repeat match goal with
  | |- context [decide (?a = ?b)] => destruct (decide (a = b)); try congruence
  end; cbn; subst; congruence.

(** ** The node operations *)
Lemma unlink_spec s f i e l l' :
  NInv (nodes s) f -> f i = l ++ e :: l' ->
  wp (unlink e i) (fun _ s' => NInv (nodes s') (upd f i (l ++ l')) /\ lists s' = lists s) s.
Proof.
  intros H E. assert (He : e ∈ f i) by (rewrite E; set_solver).
  pose proof (proj1 (ni_own _ _ H i e) He) as Ho.
  unfold unlink, node. wp_steps.
  assert (Hpost : forall s', (forall x, nodes s' x = unlinked (nodes s) e x) -> lists s' = lists s ->
    NInv (nodes s') (upd f i (l ++ l')) /\ lists s' = lists s).
  { intros s' Hns Hls. split; [|done]. by eapply unlinked_inv. }
  destruct (next (nodes s e)) as [y|] eqn:Hn.
  all: try (destruct (next_own _ _ _ _ H Hn) as [Hne _]).
  all: wp_steps; autorewrite with il; rewrite ?decide_False by congruence.
  all: destruct (prev (nodes s e)) as [z|] eqn:Hp; try (destruct (prev_own _ _ _ _ H Hp) as [Hpe _]).
  all: wp_steps; apply wp_assert; [apply bool_decide_eq_true; by autorewrite with il|wp_steps].
  all: apply Hpost; [|done]; intros x; apply node_ext; unfold unlinked; rewrite ?Hn, ?Hp.
  all: node_cases.
Qed.

Lemma linkPrev_spec s f i e p l l' :
  NInv (nodes s) f -> f i = l ++ p :: l' -> owner (nodes s e) = None ->
  wp (linkPrev e p i) (fun _ s' => NInv (nodes s') (upd f i (l ++ p :: e :: l')) /\ lists s' = lists s) s.
Proof.
  intros H E Ho. destruct (ni_free _ _ H e Ho) as [Hne Hpe].
  assert (Hp : p ∈ f i) by (rewrite E; set_solver).
  assert (Hpo : owner (nodes s p) = Some i) by (by apply (ni_own _ _ H)).
  pose proof (ni_seg _ _ H i) as Hs. rewrite E in Hs. apply seg_app in Hs as [_ (_ & Hn & Hs2)].
  assert (Hpost : forall s', (forall x, nodes s' x = linked (nodes s) i (l ++ [p]) l' e x) -> lists s' = lists s ->
    NInv (nodes s') (upd f i (l ++ p :: e :: l')) /\ lists s' = lists s).
  { intros s' Hns Hls. split; [|done]. replace (l ++ p :: e :: l') with ((l ++ [p]) ++ e :: l') by (by rewrite <- app_assoc).
    eapply linked_inv; [exact H| |done|done]. by rewrite E, <- app_assoc. }
  unfold linkPrev, node. wp_steps. rewrite Ho. apply wp_assert; [done|]. wp_steps. rewrite Hne, Hpe.
  apply wp_assert; [done|]. wp_steps.
  destruct l' as [|y l']; cbn [hd_or] in Hn; rewrite Hn.
  - wp_steps. apply Hpost; [|done]. intros x. apply node_ext; unfold linked; rewrite last_snoc; cbn [hd_or]; node_cases.
  - destruct (next_own _ _ _ _ H Hn) as [Hpy (k & _ & Hy%(ni_own _ _ H))]. destruct Hs2 as [Hpy' _].
    wp_steps. apply wp_assert; [by apply bool_decide_eq_true|]. wp_steps.
    apply Hpost; [|done]. intros x. apply node_ext; unfold linked; rewrite last_snoc; cbn [hd_or]; node_cases.
Qed.

(** ** The list operations implement the operations on sequences *)
Lemma u64_succ a d : u64 (u64 a + d) = u64 (a + d).
Proof. unfold u64. by rewrite Zplus_mod_idemp_l. Qed.

Lemma rep_intro s s1 f this l' :
  Rep s f -> NInv (nodes s1) (upd f this l') -> lists s1 this = lst_of l' ->
  (forall i, i <> this -> lists s1 i = lists s i) -> Rep s1 (upd f this l').
Proof.
  intros [_ HL] HN Ht Ho. constructor; [done|]. intros i. destruct (decide (this = i)) as [<-|Hi].
  - by rewrite upd_eq.
  - rewrite upd_ne by done. rewrite Ho by done. apply HL.
Qed.

Lemma rep_same s f this l : Rep s f -> f this = l -> Rep s (upd f this l).
Proof.
  intros [H HL] E. assert (HU : forall i, upd f this l i = f i).
  { intros i. destruct (decide (this = i)) as [<-|]; [by rewrite upd_eq|by rewrite upd_ne]. }
  constructor; [|intros i; by rewrite HU]. destruct H. constructor; intros i; rewrite ?HU; auto.
Qed.

Lemma head_lst s f i : Rep s f -> head (lists s i) = hd_or (f i) None.
Proof. intros []. by rewrite rp_lists0. Qed.
Lemma tail_lst s f i : Rep s f -> tail (lists s i) = last (f i).
Proof. intros []. by rewrite rp_lists0. Qed.

(** The list record after the operation, from the one the representation gives. *)
Ltac lists_done HR E :=
  cbn [lists set_head set_tail add_elems set_next set_prev set_owner nodes];
  rewrite ?upd_eq; rewrite ?(rp_lists _ _ HR), ?E; unfold lst_of; cbn [head tail elems];
  rewrite ?u64_succ, ?length_app; f_equal;
  try done; try (by rewrite !last_cons; destruct (last _)); try (f_equal; cbn [length]; rewrite ?length_app; cbn [length]; lia).

Lemma push_front_spec s f this e :
  Rep s f -> owner (nodes s e) = None ->
  wp (push_front this e) (fun _ s' => Rep s' (upd f this (e :: f this))) s.
Proof.
  intros HR Ho. pose proof (rp_nodes _ _ HR) as H. destruct (ni_free _ _ H e Ho) as [Hne Hpe].
  unfold push_front, node, lst. wp_steps. rewrite Hne, Hpe, Ho. apply wp_assert; [done|]. wp_steps.
  rewrite (head_lst s f this HR).
  assert (Hpost : forall s', (forall x, nodes s' x = linked (nodes s) this [] (f this) e x) ->
    lists s' this = lst_of (e :: f this) -> (forall i, i <> this -> lists s' i = lists s i) -> Rep s' (upd f this (e :: f this))).
  { intros s' Hns Hl Hl'. eapply rep_intro; [done| |done|done]. by apply (linked_inv (nodes s) _ f this e [] (f this)). }
  pose proof (ni_seg _ _ H this) as Hs. destruct (f this) as [|h l] eqn:E; cbn [hd_or].
  - wp_steps. apply Hpost.
    + intros x. apply node_ext; unfold linked; cbn [hd_or last]; node_cases.
    + lists_done HR E.
    + intros i Hi. cbn. by rewrite !upd_ne by done.
  - assert (Hh : h ∈ f this) by (rewrite E; left). apply (ni_own _ _ H) in Hh. destruct Hs as [Hph _].
    wp_steps. rewrite Hph, Hh. apply wp_assert; [by rewrite bool_decide_eq_true_2|]. wp_steps. apply Hpost.
    + intros x. apply node_ext; unfold linked; cbn [hd_or last]; node_cases.
    + lists_done HR E.
    + intros i Hi. cbn. by rewrite !upd_ne by done.
Qed.

Lemma push_back_spec s f this e :
  Rep s f -> owner (nodes s e) = None ->
  wp (push_back this e) (fun _ s' => Rep s' (upd f this (f this ++ [e]))) s.
Proof.
  intros HR Ho. pose proof (rp_nodes _ _ HR) as H. destruct (ni_free _ _ H e Ho) as [Hne Hpe].
  unfold push_back, node, lst, empty. wp_steps. rewrite Hne, Hpe, Ho. apply wp_assert; [done|]. wp_steps.
  rewrite (head_lst s f this HR), (tail_lst s f this HR).
  destruct (last (f this)) as [p|] eqn:El.
  - apply last_Some in El as [l E]. rewrite E. destruct l as [|y l]; cbn [hd_or app is_null].
    all: wp_steps; eapply wp_mono; [apply (linkPrev_spec s f this e p); [exact H|exact E|done]|].
    all: intros _ s1 [H1 HL]; wp_steps; eapply rep_intro; [exact HR|rewrite <- ?app_assoc in *; exact H1|..].
    all: try (intros i Hi; cbn; rewrite !upd_ne by done; by rewrite HL).
    all: cbn [lists set_head set_tail add_elems]; rewrite !upd_eq, HL; lists_done HR E.
    all: by rewrite ?app_comm_cons, ?last_snoc.
  - apply last_None in El as E. rewrite E. cbn [hd_or is_null app]. wp_steps.
    eapply rep_intro; [exact HR|..].
    + apply (linked_inv (nodes s) _ f this e [] []); [exact H|done|done|]. intros x.
      apply node_ext; unfold linked; cbn [hd_or last]; node_cases.
    + lists_done HR E.
    + intros i Hi. cbn. by rewrite !upd_ne by done.
Qed.

Lemma pop_front_spec s f this :
  Rep s f -> wp (pop_front this) (fun _ s' => Rep s' (upd f this (drop 1 (f this)))) s.
Proof.
  intros HR. pose proof (rp_nodes _ _ HR) as H. unfold pop_front, node, lst, empty. wp_steps.
  rewrite (head_lst s f this HR). destruct (f this) as [|e l] eqn:E; cbn [hd_or drop]; rewrite ?drop_0.
  - wp_steps. by apply rep_same.
  - wp_steps. pose proof (ni_seg _ _ H this) as Hs. rewrite E in Hs. destruct Hs as (_ & Hn & _). rewrite Hn.
    eapply wp_mono; [apply (unlink_spec _ f this e [] l); [exact H|exact E]|].
    intros _ s1 [H1 HL]. wp_steps. rewrite HL. cbn [lists set_head]. rewrite upd_eq. cbn [head].
    destruct l as [|y l]; cbn [hd_or is_null]; wp_steps; (eapply rep_intro; [exact HR|exact H1|..]).
    all: try (intros i Hi; cbn; rewrite ?HL; cbn; by rewrite !upd_ne by done).
    all: cbn [lists set_head set_tail add_elems]; rewrite ?upd_eq, HL; lists_done HR E.
Qed.

Lemma pop_back_spec s f this :
  Rep s f -> wp (pop_back this) (fun _ s' => Rep s' (upd f this (take (length (f this) - 1) (f this)))) s.
Proof.
  intros HR. pose proof (rp_nodes _ _ HR) as H. unfold pop_back, node, lst, empty. wp_steps.
  rewrite (head_lst s f this HR), (tail_lst s f this HR). destruct (last (f this)) as [e|] eqn:El.
  - apply last_Some in El as [l E]. rewrite E.
    assert (is_null (hd_or (l ++ [e]) None) = false) as -> by (by destruct l).
    replace (take (length (l ++ [e]) - 1) (l ++ [e])) with l
      by (rewrite length_app; cbn [length]; rewrite Nat.add_sub, take_app_length; done).
    wp_steps. pose proof (ni_seg _ _ H this) as Hs. rewrite E in Hs. apply seg_app in Hs as (_ & Hp & _).
    assert (HP : prev (nodes s e) = last l) by (rewrite Hp; unfold last_or; by destruct (last l)). rewrite HP.
    eapply wp_mono; [apply (unlink_spec _ f this e l []); [exact H|exact E]|].
    rewrite app_nil_r. intros _ s1 [H1 HL]. wp_steps. rewrite HL. cbn [lists set_tail]. rewrite upd_eq. cbn [tail].
    destruct (last l) as [y|] eqn:El; cbn [is_null]; wp_steps; (eapply rep_intro; [exact HR|exact H1|..]).
    all: try (intros i Hi; cbn; rewrite ?HL; cbn; by rewrite !upd_ne by done).
    all: cbn [lists set_head set_tail add_elems]; rewrite ?upd_eq, HL; lists_done HR E.
    + by destruct l.
    + by apply last_None in El as ->.
  - apply last_None in El as E. rewrite E. cbn [hd_or is_null]. wp_steps. by apply rep_same.
Qed.

Lemma remove_spec s f this e l l' :
  Rep s f -> f this = l ++ e :: l' -> wp (remove this e) (fun _ s' => Rep s' (upd f this (l ++ l'))) s.
Proof.
  intros HR E. pose proof (rp_nodes _ _ HR) as H. unfold remove, node, lst. wp_steps.
  rewrite (head_lst s f this HR), (tail_lst s f this HR).
  pose proof (ni_seg _ _ H this) as Hs. rewrite E in Hs. apply seg_app in Hs as (_ & Hp & Hn & _).
  assert (HP : prev (nodes s e) = last l) by (rewrite Hp; unfold last_or; by destruct (last l)). rewrite HP, Hn.
  pose proof (ni_nodup _ _ H this) as Hnd. rewrite E in Hnd.
  apply list.NoDup_app in Hnd as (_ & Hd & [He _]%list.NoDup_cons).
  assert (Hh : hd_or (f this) None = Some e <-> l = []).
  { rewrite E. destruct l as [|y l]; cbn [app hd_or]; [done|]. split; [|done]. intros [= ->]. destruct (Hd e); left. }
  assert (Ht : last (f this) = Some e <-> l' = []).
  { rewrite E, last_app_cons. destruct l' as [|y l']; [done|]. split; [|done]. rewrite last_cons.
    destruct (last (y :: l')) as [z|] eqn:El; [|by apply last_None in El]. intros [= ->].
    by apply last_Some_elem_of in El. }
  assert (HF : forall s1, nodes s1 = nodes s -> lists s1 this = mkLst (hd_or (l ++ l') None) (last (l ++ l')) (elems (lists s this)) ->
    (forall i, i <> this -> lists s1 i = lists s i) ->
    wp (unlink e this;; mmodify (add_elems this (-1))) (fun _ s' => Rep s' (upd f this (l ++ l'))) s1).
  { intros s1 Hns Hl1 Hl2. wp_steps. eapply wp_mono; [apply (unlink_spec _ f this e l l'); [by rewrite Hns|done]|].
    intros _ s2 [H2 HL]. wp_steps. eapply rep_intro; [exact HR|done|..].
    - cbn [lists add_elems]. rewrite upd_eq, HL, Hl1. cbn [head tail elems]. lists_done HR E.
    - intros i Hi. cbn. rewrite upd_ne by done. rewrite HL. by apply Hl2. }
  case_bool_decide as Eh; [apply Hh in Eh as ->|]; case_bool_decide as Et; try apply Ht in Et as ->; wp_steps;
    apply (wp_bind_inv (unlink e this) (fun _ => mmodify (add_elems this (-1)))), HF; try done.
  all: try (intros i Hi; cbn; by rewrite !upd_ne by done).
  all: cbn [lists set_head set_tail]; rewrite ?upd_eq, (rp_lists _ _ HR), E; unfold lst_of; cbn [head tail elems app hd_or]; f_equal.
  all: rewrite ?app_nil_r; try done.
  - rewrite last_cons. destruct (last l') eqn:El; [done|]. apply last_None in El. tauto.
  - destruct l; [tauto|done].
  - destruct l; [tauto|done].
  - rewrite last_app_cons, last_cons, last_app. destruct (last l') eqn:El; [done|].
    apply last_None in El. tauto.
Qed.

Lemma insertAfter_spec s f this p e l l' :
  Rep s f -> f this = l ++ p :: l' -> owner (nodes s e) = None ->
  wp (insertAfter this p e) (fun _ s' => Rep s' (upd f this (l ++ p :: e :: l'))) s.
Proof.
  intros HR E Ho. pose proof (rp_nodes _ _ HR) as H.
  assert (Hp : owner (nodes s p) = Some this) by (apply (ni_own _ _ H); rewrite E; set_solver).
  pose proof (ni_nodup _ _ H this) as Hnd. rewrite E in Hnd.
  apply list.NoDup_app in Hnd as (_ & Hd & [Hpl _]%list.NoDup_cons).
  unfold insertAfter, node, lst. wp_steps. rewrite Ho. apply wp_assert; [done|]. wp_steps.
  apply wp_assert; [by apply bool_decide_eq_true|]. wp_steps.
  eapply wp_mono; [by apply (linkPrev_spec s f this e p l l')|]. intros _ s1 [H1 HL]. wp_steps.
  rewrite HL, (tail_lst s f this HR), E, last_app_cons, last_cons.
  case_bool_decide as Et.
  - assert (l' = []) as ->.
    { destruct (last l') as [z|] eqn:El; [|by apply last_None in El]. injection Et as ->. by apply last_Some_elem_of in El. }
    wp_steps. eapply rep_intro; [exact HR|done|..].
    + cbn [lists set_tail add_elems]. rewrite !upd_eq, HL. cbn [head tail elems]. lists_done HR E.
      * by destruct l.
      * by rewrite last_app_cons.
    + intros i Hi. cbn. rewrite !upd_ne by done. by rewrite HL.
  - wp_steps. eapply rep_intro; [exact HR|done|..].
    + cbn [lists add_elems]. rewrite upd_eq, HL. lists_done HR E.
      * by destruct l.
      * rewrite !last_app_cons, !last_cons. by destruct (last l').
    + intros i Hi. cbn. rewrite !upd_ne by done. by rewrite HL.
Qed.

(** ** The contract *)
Inductive LOp := PushFront (e : nat) | PushBack (e : nat) | PopFront | PopBack | Remove (e : nat) | InsertAfter (p e : nat).
Definition run_op (this : nat) (o : LOp) : M t unit :=
  match o with
  | PushFront e => push_front this e
  | PushBack e => push_back this e
  | PopFront => pop_front this
  | PopBack => pop_back this
  | Remove e => remove this e
  | InsertAfter p e => insertAfter this p e
  end.

(** The operation on sequences: [f' ] is the family after it. *)
Definition free (f : nat -> list nat) (e : nat) : Prop := forall i, e ∉ f i.
Inductive op_spec (f : nat -> list nat) (this : nat) : LOp -> list nat -> Prop :=
| spec_push_front e : free f e -> op_spec f this (PushFront e) (e :: f this)
| spec_push_back e : free f e -> op_spec f this (PushBack e) (f this ++ [e])
| spec_pop_front : op_spec f this PopFront (drop 1 (f this))
| spec_pop_back : op_spec f this PopBack (take (length (f this) - 1) (f this))
| spec_remove e l l' : f this = l ++ e :: l' -> op_spec f this (Remove e) (l ++ l')
| spec_insertAfter p e l l' : free f e -> f this = l ++ p :: l' -> op_spec f this (InsertAfter p e) (l ++ p :: e :: l').

Lemma free_owner s f e : NInv (nodes s) f -> free f e <-> owner (nodes s e) = None.
Proof.
  intros H. split.
  - intros Hf. destruct (owner (nodes s e)) as [i|] eqn:Ho; [|done]. apply (ni_own _ _ H) in Ho. by destruct (Hf i).
  - intros Ho i Hi. apply (ni_own _ _ H) in Hi. congruence.
Qed.

Lemma run_op_spec s f this o l :
  Rep s f -> op_spec f this o l -> wp (run_op this o) (fun _ s' => Rep s' (upd f this l)) s.
Proof.
  intros HR Ho. pose proof (rp_nodes _ _ HR) as H. destruct Ho; cbn [run_op].
  - apply push_front_spec; [done|]. by apply (free_owner s f).
  - apply push_back_spec; [done|]. by apply (free_owner s f).
  - by apply pop_front_spec.
  - by apply pop_back_spec.
  - by apply remove_spec.
  - apply insertAfter_spec; [done..|]. by apply (free_owner s f).
Qed.

(** Unlinking a node of another list, or of none, fails its assertion. *)
Lemma unlink_foreign s e i : owner (nodes s e) <> Some i -> exists msg, unlink e i s = Err (Panic msg).
Proof.
  intros Ho. exists "lst == owner". unfold unlink, node, mbind, M_bind, mgets, mmodify, mret, M_ret, massert.
  repeat case_match; simplify_eq; try done.
  all: repeat match goal with H : bool_decide _ = true |- _ => apply bool_decide_eq_true in H end.
  all: exfalso; apply Ho; match goal with H : owner _ = Some _ |- _ => rewrite <- H end; by autorewrite with il.
Qed.

Lemma run_op_fails s f this o :
  Rep s f -> (forall l, ~ op_spec f this o l) -> exists msg, run_op this o s = Err (Panic msg).
Proof.
  intros HR Hno. pose proof (rp_nodes _ _ HR) as H.
  assert (Hfree : forall e, ~ free f e -> exists i, owner (nodes s e) = Some i).
  { intros e Hf. destruct (owner (nodes s e)) as [i|] eqn:Ho; [by exists i|]. by apply (free_owner s f) in Ho. }
  destruct o as [e|e| | |e|p e]; cbn [run_op].
  - destruct (Hfree e) as [i Hi]; [intros Hf; by eapply Hno, spec_push_front|].
    eexists. unfold push_front, node, mbind, M_bind, mgets, massert. by rewrite Hi, andb_false_r.
  - destruct (Hfree e) as [i Hi]; [intros Hf; by eapply Hno, spec_push_back|].
    eexists. unfold push_back, node, mbind, M_bind, mgets, massert. by rewrite Hi, andb_false_r.
  - exfalso. eapply Hno, spec_pop_front.
  - exfalso. eapply Hno, spec_pop_back.
  - assert (Ho : owner (nodes s e) <> Some this).
    { intros Ho%(ni_own _ _ H). apply list_elem_of_split in Ho as (l & l' & E). by eapply Hno, spec_remove. }
    unfold remove, node, lst, mbind, M_bind, mgets, mmodify, mret, M_ret.
    repeat case_bool_decide; match goal with |- context [unlink e this ?s1] =>
      destruct (unlink_foreign s1 e this) as [msg ->]; [done|]; by exists msg end.
  - unfold insertAfter, node, mbind, M_bind, mgets, massert.
    destruct (owner (nodes s e)) as [i|] eqn:Ho; cbn [is_null]; [by eexists|].
    case_bool_decide as Hp; [|by eexists]. exfalso. apply (ni_own _ _ H) in Hp.
    apply list_elem_of_split in Hp as (l & l' & E). eapply Hno, spec_insertAfter; [|exact E]. by apply (free_owner s f).
Qed.

(** Following the links from an end. *)
Fixpoint forward (ns : nat -> InListNode) (n : nat) (o : option nat) : list nat :=
  match n, o with S n, Some x => x :: forward ns n (next (ns x)) | _, _ => [] end.
Fixpoint backward (ns : nat -> InListNode) (n : nat) (o : option nat) : list nat :=
  match n, o with S n, Some x => x :: backward ns n (prev (ns x)) | _, _ => [] end.

Lemma forward_seg ns p l : forall n, (length l <= n)%nat -> seg ns p l None -> forward ns n (hd_or l None) = l.
Proof.
  revert p. induction l as [|x l IH]; intros p n Hn; cbn [seg hd_or]; [by destruct n|]. intros (_ & Hx & Hs).
  destruct n as [|n]; cbn in Hn; [lia|]. cbn [forward]. f_equal. rewrite Hx. eapply IH; [lia|done].
Qed.
Lemma backward_seg ns l n' : forall n, (length l <= n)%nat -> seg ns None l n' -> backward ns n (last l) = rev l.
Proof.
  revert n'. induction l as [|x l IH] using rev_ind; intros n' n Hn Hs; [by destruct n|].
  rewrite length_app in Hn. cbn in Hn. apply seg_app in Hs as [Hs (Hp & _)]. rewrite last_snoc, rev_unit.
  destruct n as [|n]; [lia|]. cbn [backward]. f_equal. rewrite Hp.
  replace (last_or None l) with (last l) by (unfold last_or; by destruct (last l)). eapply IH; [lia|done].
Qed.

Fixpoint run_ops (ops : list (nat * LOp)) : M t unit :=
  match ops with [] => mret tt | (this, o) :: ops => run_op this o;; run_ops ops end.
Inductive ops_spec : (nat -> list nat) -> list (nat * LOp) -> (nat -> list nat) -> Prop :=
| ops_nil f : ops_spec f [] f
| ops_cons f this o l ops f' : op_spec f this o l -> ops_spec (upd f this l) ops f' -> ops_spec f ((this, o) :: ops) f'.

Lemma list_ops_spec f ops f' : ops_spec f ops f' -> forall s, Rep s f -> wp (run_ops ops) (fun _ s' => Rep s' f') s.
Proof.
  induction 1 as [f|f this o l ops f' Ho _ IH]; intros s HR; cbn [run_ops]; [by wp_steps|].
  wp_steps. eapply wp_mono; [by apply run_op_spec|]. intros [] s' HR'. by apply IH.
Qed.
Lemma init_rep : Rep init (fun _ => []).
Proof.
  constructor; [|done]. constructor; try done.
  - intros i x. split; [intros Hx; by apply not_elem_of_nil in Hx|done].
  - intros i. apply NoDup_nil_2.
Qed.

(** C35: The intrusive lists implement sequences.  From the empty lists, any sequence of
    operations on any number of lists, in which a node is inserted only when it is in no
    list and removed only from the list it is in, passes all assertions; afterwards, for
    each list and the sequence the operations compute for it: front() is the first
    element and back() the last, both null exactly when the sequence is empty; the links
    followed from the front give the sequence and then null, those from the back its
    reverse and then null; size() is its length modulo 2^64 and empty() says whether it
    is empty; the nodes that are in no sequence have null links and no owner. *)
Theorem lists_implement_sequences ops f :
  ops_spec (fun _ => []) ops f ->
  exists s, run_ops ops init = Ok (tt, s) /\ forall i,
    front (lists s i) = list.head (f i) /\ back (lists s i) = list.last (f i) /\
    (forall n, (length (f i) <= n)%nat ->
       forward (nodes s) n (front (lists s i)) = f i /\ backward (nodes s) n (back (lists s i)) = rev (f i)) /\
    size (lists s i) = u64 (Z.of_nat (length (f i))) /\ empty (lists s i) = bool_decide (f i = []) /\
    (forall e, free f e -> nodes s e = mkNode None None None).
Proof.
  intros Hops. destruct (wp_elim _ _ _ (list_ops_spec _ _ _ Hops _ init_rep)) as ([] & s & E & HR).
  exists s. split; [done|]. intros i. pose proof (rp_nodes _ _ HR) as HN. pose proof (ni_seg _ _ HN i) as Hs.
  rewrite (rp_lists _ _ HR). unfold front, back, size, empty, lst_of. cbn [head tail elems]. split_and!; [|done|..|done| |].
  - by destruct (f i).
  - intros n Hn. split; [by eapply forward_seg|by eapply backward_seg].
  - by destruct (f i).
  - intros e He. apply (free_owner s f e HN) in He. destruct (ni_free _ _ HN e He). by apply node_ext.
Qed.

(** And only those: in any such state, an operation whose node is not where the caller
    says (inserting a linked node, removing a node that is not in this list, inserting
    after a node of another list) is stopped by an assertion. *)
Theorem misuse_is_caught ops f s this o :
  ops_spec (fun _ => []) ops f -> run_ops ops init = Ok (tt, s) -> (forall l, ~ op_spec f this o l) ->
  exists msg, run_op this o s = Err (Panic msg).
Proof.
  intros Hops E Hno. destruct (wp_elim _ _ _ (list_ops_spec _ _ _ Hops _ init_rep)) as ([] & s' & E' & HR).
  rewrite E in E'. injection E' as <-. by eapply run_op_fails.
Qed.

(** A run on two lists. *)
Definition demo_ops : list (nat * LOp) :=
  [(0, PushBack 10); (0, PushFront 11); (1, PushBack 12); (0, InsertAfter 11 13); (0, Remove 10); (1, PopFront); (0, PushBack 12)]%nat.
Definition demo_f (i : nat) : list nat := if decide (i = 0)%nat then [11; 13; 12]%nat else [].
Definition demo_s : t := match run_ops demo_ops init with Ok (_, s) => s | Err _ => init end.

Lemma demo_spec : exists f, ops_spec (fun _ => []) demo_ops f /\ forall i, f i = demo_f i.
Proof.
  eexists. split; [unfold demo_ops|].
  - eapply ops_cons; [apply spec_push_back; unfold free, upd; set_solver|].
    eapply ops_cons; [apply spec_push_front; intros i; unfold upd; cbn; destruct (decide (0%nat = i)); set_solver|].
    eapply ops_cons; [apply spec_push_back; intros i; unfold upd; cbn; destruct (decide (0%nat = i)); set_solver|].
    eapply ops_cons; [eapply (spec_insertAfter _ _ 11%nat 13%nat [] [10%nat]); [|done];
      intros i; unfold upd; cbn; destruct (decide (0%nat = i)), (decide (1%nat = i)); set_solver|].
    eapply ops_cons; [eapply (spec_remove _ _ 10%nat [11%nat; 13%nat] []); done|].
    eapply ops_cons; [apply spec_pop_front|].
    eapply ops_cons; [apply spec_push_back; intros i; unfold upd; cbn;
      destruct (decide (0%nat = i)), (decide (1%nat = i)); set_solver|]. apply ops_nil.
  - intros i. unfold demo_f, upd. cbn. destruct (decide (0%nat = i)) as [<-|]; [done|].
    destruct (decide (i = 0%nat)); [congruence|]. by destruct (decide (1%nat = i)) as [<-|].
Defined.

Lemma lists_implement_sequences_witness :
  exists f s, run_ops demo_ops init = Ok (tt, s) /\ f 0%nat = [11; 13; 12]%nat /\
    forward (nodes s) 3 (front (lists s 0%nat)) = [11; 13; 12]%nat /\
    backward (nodes s) 3 (back (lists s 0%nat)) = [12; 13; 11]%nat /\ back (lists s 1%nat) = None.
Proof.
  destruct demo_spec as (f & Hf & Hd). destruct (lists_implement_sequences demo_ops f Hf) as (s & E & Hs).
  exists f, s. destruct (Hs 0%nat) as (_ & _ & Hl & _). rewrite (Hd 0%nat) in Hl.
  destruct (Hl 3%nat (le_n 3)) as [Hfw Hbw]. destruct (Hs 1%nat) as (_ & Hb & _). rewrite (Hd 1%nat) in Hb.
  split; [exact E|]. split; [exact (Hd 0%nat)|]. split; [exact Hfw|]. split; [exact Hbw|exact Hb].
Defined.

Lemma misuse_is_caught_witness : exists msg, run_op 1 (Remove 11) demo_s = Err (Panic msg).
Proof.
  destruct demo_spec as (f & Hf & Hd). apply (misuse_is_caught demo_ops f).
  - exact Hf.
  - vm_compute. reflexivity.
  - intros l Hl. inversion Hl as [| | | |e l1 l2 E|]. rewrite (Hd 1%nat) in E. by destruct l1.
Defined.
End IL.
