(* ===== verification/Locks.v ===== *)
(** * Spin, ticket and futex locks (src/src/locks.h)

    Each lock is one 32-bit word that host threads read, compare-and-swap, exchange
    and add to.  A thread is its program counter in the lock's code, every access
    of the word is one step, and the steps of the threads interleave freely; an
    action names the thread that moves and what it does (call, go on, return
    early from the kernel).  [Machine] has what the three locks share, [Spin],
    [Ticket] and [Futex] their code.  The pauses of the spinning loops and the
    WITH_MWAIT variant change no state and are left out. *)

From S2P Require Import Prelude.

(** ** Threads around a lock word *)
Module Machine.

Record sys (P : Type) := mkSys { word : Z; pcs : list P }.
Arguments mkSys {P}. Arguments word {P}. Arguments pcs {P}.

Inductive act := CallLock | CallTry | CallUnlock | Go.

(** One step of thread [t], given the code [local] of the lock. *)
Definition step {P} (local : act -> P -> Z -> option (P * Z)) (ta : nat * act) (s : sys P) : option (sys P) :=
  p ← pcs s !! ta.1;
  '(p', w') ← local ta.2 p (word s);
  Some (mkSys w' (<[ta.1 := p']> (pcs s))).

(** The states reached from [s] by steps of [f]. *)
Definition reach {S A} (f : A -> S -> option S) : S -> S -> Prop := rtc (fun s s' => exists a, f a s = Some s').

Lemma reach_inv {S A} (f : A -> S -> option S) (I : S -> Prop) s s' :
  (forall a s s', I s -> f a s = Some s' -> I s') -> reach f s s' -> I s -> I s'.
Proof. intros Hf. induction 1 as [|s1 s2 s3 [a E] _ IH]; eauto. Qed.

(** On every run of steps of [R] from [s], however long it is delayed, [P] comes true: it is
    true now, or a step can be taken and it is so after any step. *)
Inductive inevitable {S} (R : S -> S -> Prop) (P : S -> Prop) (s : S) : Prop :=
| inevitable_now : P s -> inevitable R P s
| inevitable_step : (exists s', R s s') -> (forall s', R s s' -> inevitable R P s') -> inevitable R P s.

(** Lookups after an update of a thread. *)
Lemma insert_at {P} (l : list P) t p p' : l !! t = Some p -> <[t := p']> l !! t = Some p'.
Proof. intros E. apply list_lookup_insert_eq. by apply lookup_lt_Some in E. Qed.
Lemma insert_off {P} (l : list P) t u p p' q : l !! t = Some p -> l !! u = Some q -> p <> q ->
  <[u := p']> l !! t = Some p.
Proof. intros Et Eu H. rewrite list_lookup_insert_ne; congruence. Qed.

(** The facts that count how a step changes the numbers of threads. *)
Ltac count_one E f l t p' :=
  let H := fresh "Hc" in
  pose proof (cnt_insert f l t _ p' E) as H; cbn in H;
  let n := fresh "n" in
  set (n := cnt f (<[t := p']> l)) in *; clearbody n.
Ltac count E :=
  repeat match goal with
  | |- context [cnt ?f (<[?t := ?p']> ?l)] => count_one E f l t p'
  | _ : context [cnt ?f (<[?t := ?p']> ?l)] |- _ => count_one E f l t p'
  end.
End Machine.
Import Machine.

(** ** The test-and-test-and-set spin lock *)
Module Spin.

Inductive pc :=
| Idle
| Test (try : bool)   (** about to read the word in spin_lock or spin_trylock *)
| Cas (try : bool)    (** read 0, about to compare and swap *)
| Held
| Assert              (** in spin_unlock, about to check the word *)
| Store
| Failed.             (** the assertion of spin_unlock failed *)

Definition spin_init (n : nat) : sys pc := mkSys 0 (replicate n Idle).

(** Back to the loop in spin_lock, return 1 from spin_trylock. *)
Definition spin_again (try : bool) : pc := if try then Idle else Test false.

Definition spin_local (a : act) (p : pc) (w : Z) : option (pc * Z) :=
  match p, a with
  | Idle, CallLock => Some (Test false, w)
  | Idle, CallTry => Some (Test true, w)
  | Test try, Go => Some (if w =? 0 then Cas try else spin_again try, w)
  | Cas try, Go => Some (if w =? 0 then (Held, 1) else (spin_again try, w))
  | Held, CallUnlock => Some (Assert, w)
  | Assert, Go => Some (if w =? 1 then Store else Failed, w)
  | Store, Go => Some (Idle, 0)
  | _, _ => None
  end.

Definition spin_step := step spin_local.

Definition owns (p : pc) : bool := match p with Held | Assert | Store => true | _ => false end.
Definition failed (p : pc) : bool := match p with Failed => true | _ => false end.

Record Inv (s : sys pc) : Prop := {
  inv_word : word s = Z.of_nat (cnt owns (pcs s));
  inv_one : (cnt owns (pcs s) <= 1)%nat;
  inv_failed : cnt failed (pcs s) = O }.

Lemma spin_step_inv ta s s' : Inv s -> spin_step ta s = Some s' -> Inv s'.
Proof.
  intros [Hw H1 Hf] E. unfold spin_step, step in E.
  destruct (pcs s !! ta.1) as [p|] eqn:Ep; [|done]. cbn in E.
  destruct ta as [t a]; cbn in *.
  pose proof (fun H => cnt_pos owns _ _ _ Ep H) as Hpos.
  destruct p as [|[]|[]| | | |], a; cbn in E; simplify_eq; cbn in Hpos;
    repeat case_match; simplify_eq/=; try specialize (Hpos eq_refl);
    constructor; cbn; count Ep; lia.
Qed.

Lemma spin_reach_inv n s : reach spin_step (spin_init n) s -> Inv s.
Proof.
  intros H. apply (reach_inv _ _ _ _ spin_step_inv H).
  constructor; cbn; rewrite ?cnt_replicate; done || lia.
Qed.
End Spin.

(** ** The futex lock

    The word is 0 (free), 1 (held) or 2 (held, and a thread may sleep in the kernel
    on the word).  [mode] is the function a thread called. *)
Module Futex.

Inductive mode := Lock | NoSpin | Timeout.

Inductive pc :=
| Idle
| Read (m : mode) (i : nat)  (** iteration [i] of the spinning loop, about to read *)
| Cas (m : mode) (i : nat)
| Xchg1 (m : mode)           (** the exchange before the system call *)
| Wait (m : mode)            (** about to call FUTEX_WAIT with the value 2 *)
| Asleep (m : mode)          (** in the kernel *)
| Xchg2 (m : mode)           (** the exchange after the system call *)
| Held
| Store                      (** in futex_unlock, about to write 0 *)
| Wake.                      (** about to call FUTEX_WAKE *)

(** [Intr]: FUTEX_WAIT returns because of a signal; [Expire]: its timeout passes;
    [WakeUp v]: FUTEX_WAKE picks [v] among the sleepers. *)
Inductive act := CallLock (m : mode) | CallUnlock | Go | Intr | Expire | WakeUp (v : nat).

Definition futex_init (n : nat) : sys pc := mkSys 0 (replicate n Idle).

Definition spins (m : mode) : nat := match m with Lock => 5 | _ => 1 end.

(** After a failed attempt of iteration [i]: the next iteration, or block. *)
Definition futex_next (m : mode) (i : nat) : pc :=
  if (S i <? spins m)%nat then Read m (S i) else Xchg1 m.

(** After the second exchange found the lock taken. *)
Definition futex_retry (m : mode) : pc := match m with Timeout => Idle | _ => Read m 0 end.

(** The steps that involve one thread: lock, lock_nospin, trylock_nospin_timeout and
    unlock.  The bool of a returning trylock is whether the thread ends in [Held]. *)
Definition futex_local (a : act) (p : pc) (w : Z) : option (pc * Z) :=
  match p, a with
  | Idle, CallLock m => Some (Read m 0, w)
  | Read m i, Go => Some (if w =? 0 then Cas m i else futex_next m i, w)
  | Cas m i, Go => Some (if w =? 0 then (Held, 1) else (futex_next m i, w))
  | Xchg1 m, Go => Some (if w =? 0 then Held else Wait m, 2)
  | Wait m, Go => Some (if w =? 2 then Asleep m else Xchg2 m, w)
  | Asleep m, Intr => Some (Xchg2 m, w)
  | Asleep Timeout, Expire => Some (Xchg2 Timeout, w)
  | Xchg2 m, Go => Some (if w =? 0 then Held else futex_retry m, 2)
  | Held, CallUnlock => Some (if w =? 1 then Idle else Store, u32 (w - 1))
  | Store, Go => Some (Wake, 0)
  | _, _ => None
  end.

Definition asleep (p : pc) : bool := match p with Asleep _ => true | _ => false end.

(** FUTEX_WAKE with count 1: it wakes a sleeper if there is one. *)
Definition futex_wake (v : nat) (l : list pc) : option (list pc) :=
  match l !! v with
  | Some (Asleep m) => Some (<[v := Xchg2 m]> l)
  | _ => if (cnt asleep l =? 0)%nat then Some l else None
  end.

Definition futex_step (ta : nat * act) (s : sys pc) : option (sys pc) :=
  p ← pcs s !! ta.1;
  match p, ta.2 with
  | Wake, WakeUp v => l ← futex_wake v (pcs s); Some (mkSys (word s) (<[ta.1 := Idle]> l))
  | _, _ => '(p', w') ← futex_local ta.2 p (word s); Some (mkSys w' (<[ta.1 := p']> (pcs s)))
  end.

Definition futex_haswaiters (s : sys pc) : bool := word s =? 2.

(** The steps of the threads that are already at the lock: nobody calls lock anew, and
    the kernel delivers no signal and no timeout. *)
Definition active (a : act) : bool := match a with CallLock _ | Intr | Expire => false | _ => true end.
Definition futex_active (s s' : sys pc) : Prop := exists ta, active ta.2 = true /\ futex_step ta s = Some s'.

(** *** The invariant *)
Definition owns (p : pc) : bool := match p with Held | Store => true | _ => false end.
(** Threads that will see to the sleepers: they wake one, or set the word to 2. *)
Definition rouser (p : pc) : bool := match p with Xchg1 _ | Xchg2 _ | Store | Wake => true | _ => false end.
(** Threads that wait for the lock. *)
Definition waiting (p : pc) : bool := match p with Idle | Held | Store | Wake => false | _ => true end.

Record Inv (s : sys pc) : Prop := {
  inv_word : 0 <= word s <= 2;
  inv_owner : (word s = 0 /\ cnt owns (pcs s) = O) \/ (word s <> 0 /\ cnt owns (pcs s) = 1%nat);
  inv_sleep : (0 < cnt asleep (pcs s))%nat -> word s = 2 \/ (0 < cnt rouser (pcs s))%nat }.

Lemma futex_wake_inv v t s l : Inv s -> pcs s !! t = Some Wake -> futex_wake v (pcs s) = Some l ->
  Inv (mkSys (word s) (<[t := Idle]> l)).
Proof.
  intros [Hw Ho Hs] Et E. unfold futex_wake in E.
  destruct (pcs s !! v) as [p|] eqn:Ev; 
    [|case_match eqn:E2; simplify_eq; apply Nat.eqb_eq in E2; constructor; cbn; count Et; lia].
  destruct (asleep p) eqn:Ea.
  - destruct p; try done. simplify_eq.
    assert (Et' : <[v := Xchg2 m]> (pcs s) !! t = Some Wake) by (rewrite list_lookup_insert_ne; congruence).
    constructor; cbn; count Et'; count Ev; lia.
  - assert (cnt asleep (pcs s) = O /\ l = pcs s) as [? ->].
    { destruct p; try done; case_match eqn:E2; simplify_eq; apply Nat.eqb_eq in E2; done. }
    constructor; cbn; count Et; lia.
Qed.

Lemma futex_local_inv a t p p' w' s : Inv s -> pcs s !! t = Some p ->
  futex_local a p (word s) = Some (p', w') -> Inv (mkSys w' (<[t := p']> (pcs s))).
Proof.
  intros [Hw Ho Hs] Et E.
  pose proof (fun H => cnt_pos owns _ _ _ Et H) as Hpos.
  pose proof (fun H => cnt_pos rouser _ _ _ Et H) as Hr.
  destruct p, a; cbn in E; simplify_eq; cbn in Hpos, Hr;
    try specialize (Hpos eq_refl); try specialize (Hr eq_refl); try (destruct m; simplify_eq/=);
    unfold futex_next, futex_retry in *; repeat case_match; simplify_eq/=;
    try rewrite u32_small in * by (unfold two32; lia);
    constructor; cbn; repeat case_match; count Et; lia.
Qed.

Lemma futex_step_inv ta s s' : Inv s -> futex_step ta s = Some s' -> Inv s'.
Proof.
  intros HI E. unfold futex_step in E. destruct ta as [t a]; cbn in *.
  destruct (pcs s !! t) as [p|] eqn:Ep; [|done]. cbn in E.
  destruct (futex_local a p (word s)) as [[p' w']|] eqn:El.
  - assert (s' = mkSys w' (<[t := p']> (pcs s))) as -> by (destruct p, a; by simplify_eq/=).
    by eapply futex_local_inv.
  - destruct p, a; simplify_eq/=. destruct (futex_wake v (pcs s)) as [l|] eqn:Ew; simplify_eq/=.
    by eapply futex_wake_inv.
Qed.

Lemma futex_init_inv n : Inv (futex_init n).
Proof. constructor; cbn; rewrite ?cnt_replicate; done || lia. Qed.

Lemma futex_reach_inv n s : reach futex_step (futex_init n) s -> Inv s.
Proof. intros H. apply (reach_inv _ _ _ _ futex_step_inv H), futex_init_inv. Qed.

(** *** The threads at the lock always move on

    Every active step makes the state smaller: fewer threads that have yet to release the
    lock, fewer that are to store 0 or to wake a sleeper, a word nearer to 2, or a thread
    nearer to sleep. *)
Definition pending (p : pc) : bool := match p with Idle | Store | Wake => false | _ => true end.
Definition storing (p : pc) : bool := match p with Store => true | _ => false end.
Definition waking (p : pc) : bool := match p with Wake => true | _ => false end.
Definition rank (w : Z) (p : pc) : nat :=
  match p with
  | Wait _ => if w =? 2 then 1 else 16
  | Xchg1 _ => 2
  | Cas _ i => 3 + 2 * (5 - i)
  | Read _ i => 4 + 2 * (5 - i)
  | Xchg2 _ => 15
  | _ => 0
  end.
Definition ranks (s : sys pc) : nat := sum_list_with (rank (word s)) (pcs s).

Definition Less (s' s : sys pc) : Prop :=
  let u s := cnt pending (pcs s) in let st s := cnt storing (pcs s) in let wk s := cnt waking (pcs s) in
  let z s := Z.to_nat (2 - word s) in
  (u s' < u s)%nat \/ u s' = u s /\ ((st s' < st s)%nat \/ st s' = st s /\ ((wk s' < wk s)%nat \/ wk s' = wk s /\
    ((z s' < z s)%nat \/ z s' = z s /\ (ranks s' < ranks s)%nat))).

Lemma Less_wf : well_founded Less.
Proof.
  assert (H : forall u st wk z r s, cnt pending (pcs s) = u -> cnt storing (pcs s) = st -> cnt waking (pcs s) = wk ->
    Z.to_nat (2 - word s) = z -> ranks s = r -> Acc Less s).
  { induction u as [u I1] using lt_wf_ind. induction st as [st I2] using lt_wf_ind. induction wk as [wk I3] using lt_wf_ind.
    induction z as [z I4] using lt_wf_ind. induction r as [r I5] using lt_wf_ind. intros s E1 E2 E3 E4 E5. constructor.
    intros s' [H|[H1 [H|[H2 [H|[H3 [H|[H4 H]]]]]]]]; cbn in *; subst.
    - eapply I1; [exact H|reflexivity..].
    - eapply I2; [exact H|exact H1|reflexivity..].
    - eapply I3; [exact H|exact H1|exact H2|reflexivity..].
    - eapply I4; [exact H|exact H1|exact H2|exact H3|reflexivity..].
    - eapply I5; [exact H|done..]. }
  intros s. by eapply H.
Qed.

Lemma ranks_insert w (l : list pc) t p p' : l !! t = Some p ->
  (sum_list_with (rank w) (<[t := p']> l) + rank w p = sum_list_with (rank w) l + rank w p')%nat.
Proof.
  revert t. induction l as [|q l IH]; intros [|t] E; simplify_eq/=; [lia|]. specialize (IH t E). lia.
Qed.

Lemma futex_next_rank w m i : (rank w (futex_next m i) < 3 + 2 * (5 - i))%nat.
Proof. unfold futex_next. case_match eqn:E; cbn; [|lia]. apply Nat.ltb_lt in E. destruct m; cbn in E; lia. Qed.
Lemma futex_next_counts m i : pending (futex_next m i) = true /\ storing (futex_next m i) = false /\ waking (futex_next m i) = false.
Proof. unfold futex_next. by case_match. Qed.

Lemma local_less a t p p' w' s : Inv s -> active a = true -> pcs s !! t = Some p ->
  futex_local a p (word s) = Some (p', w') -> Less (mkSys w' (<[t := p']> (pcs s))) s.
Proof.
  intros HI Ha Et E. pose proof (inv_word s HI) as Hw. unfold Less, ranks. cbn [word pcs].
  pose proof (ranks_insert (word s) (pcs s) t p p' Et) as HR.
  pose proof (cnt_insert pending _ _ _ p' Et) as H1. pose proof (cnt_insert storing _ _ _ p' Et) as H2.
  pose proof (cnt_insert waking _ _ _ p' Et) as H3.
  destruct p, a; cbn in E, Ha; try done; simplify_eq.
  all: repeat match goal with H : context [futex_next ?m ?i] |- _ =>
    lazymatch goal with _ : (rank _ (futex_next m i) < _)%nat |- _ => fail | _ => idtac end;
    pose proof (futex_next_rank (word s) m i); destruct (futex_next_counts m i) as (?&?&?) end.
  all: unfold futex_retry in *; repeat case_match; simplify_eq/=.
  all: repeat match goal with H : pending _ = _ |- _ => rewrite H in * | H : storing _ = _ |- _ => rewrite H in * | H : waking _ = _ |- _ => rewrite H in * end.
  all: repeat match goal with H : (_ =? _) = true |- _ => apply Z.eqb_eq in H | H : (_ =? _) = false |- _ => apply Z.eqb_neq in H end.
  all: try (left; lia).
  all: right; split; [lia|].
  all: first [left; lia|right; split; [lia|]].
  all: first [left; lia|right; split; [lia|]].
  all: destruct (decide (word s = 2)) as [E2|E2]; [rewrite ?E2 in *|]; try (exfalso; lia).
  all: first [left; lia|right; split; [lia|]].
  all: cbn in *; try rewrite (proj2 (Z.eqb_neq _ _) E2) in *; lia.
Qed.

Lemma wake_less v t s l : pcs s !! t = Some Wake -> futex_wake v (pcs s) = Some l -> Less (mkSys (word s) (<[t := Idle]> l)) s.
Proof.
  intros Et E. unfold futex_wake in E.
  assert (Hl : l = pcs s \/ exists m, pcs s !! v = Some (Asleep m) /\ l = <[v := Xchg2 m]> (pcs s)).
  { destruct (pcs s !! v) as [[]|]; repeat case_match; simplify_eq; eauto. }
  unfold Less. cbn [pcs word]. destruct Hl as [->|(m & Ev & ->)].
  - count Et. lia.
  - assert (Et' : <[v := Xchg2 m]> (pcs s) !! t = Some Wake) by (rewrite list_lookup_insert_ne; congruence).
    count Et'. count Ev. lia.
Qed.

(** A step, by cases. *)
Lemma futex_step_cases t a s s' : futex_step (t, a) s = Some s' -> exists p, pcs s !! t = Some p /\
  ((exists p' w', futex_local a p (word s) = Some (p', w') /\ s' = mkSys w' (<[t := p']> (pcs s))) \/
   exists v l, p = Wake /\ a = WakeUp v /\ futex_wake v (pcs s) = Some l /\ s' = mkSys (word s) (<[t := Idle]> l)).
Proof.
  intros E. unfold futex_step in E. cbn in E. destruct (pcs s !! t) as [p|] eqn:Ep; [|done]. cbn in E. exists p. split; [done|].
  destruct (futex_local a p (word s)) as [[p' w']|] eqn:El.
  - left. exists p', w'. split; [done|]. destruct p, a; by simplify_eq/=.
  - right. destruct p, a; simplify_eq/=. destruct (futex_wake v (pcs s)) as [l|] eqn:Ew; simplify_eq/=. by exists v, l.
Qed.

Lemma active_less s s' : Inv s -> futex_active s s' -> Less s' s.
Proof.
  intros HI ([t a] & Ha & E). destruct (futex_step_cases t a s s' E) as (p & Ep & [(p' & w' & El & ->)|(v & l & -> & -> & Ew & ->)]).
  - by eapply local_less.
  - by eapply wake_less.
Qed.

(** *** Somebody can move while a thread waits *)
Lemma local_moves t a p s : active a = true -> pcs s !! t = Some p -> is_Some (futex_local a p (word s)) -> exists s', futex_active s s'.
Proof.
  intros Ha Et [[p' w'] E]. exists (mkSys w' (<[t := p']> (pcs s))), (t, a). split; [done|]. unfold futex_step. cbn. rewrite Et. cbn.
  destruct p, a; simplify_eq/=; by rewrite ?E.
Qed.
Lemma waker_moves t s : pcs s !! t = Some Wake -> exists s', futex_active s s'.
Proof.
  intros Et. destruct (decide (cnt asleep (pcs s) = 0)%nat) as [E0|E0].
  - eexists. exists (t, WakeUp t). split; [done|]. unfold futex_step, futex_wake. cbn. rewrite Et. cbn. by rewrite E0.
  - destruct (cnt_ex asleep (pcs s)) as (v & p & Ev & Hp); [lia|]. destruct p; try done.
    eexists. exists (t, WakeUp v). split; [done|]. unfold futex_step, futex_wake. cbn. by rewrite Et, Ev.
Qed.
Lemma waiting_moves s t p : Inv s -> pcs s !! t = Some p -> waiting p = true -> exists s', futex_active s s'.
Proof.
  intros HI Et Hp. destruct (asleep p) eqn:Ha.
  - destruct (inv_sleep s HI (cnt_pos asleep _ _ _ Et Ha)) as [Hw|(u & q & Eu & Hq)%cnt_ex].
    + destruct (cnt_ex owns (pcs s)) as (h & q & Eh & Hq); [destruct (inv_owner s HI); lia|].
      destruct q; try done; [apply (local_moves h CallUnlock Held)|apply (local_moves h Go Store)]; done.
    + destruct q; try done; try (by eapply (local_moves u Go)). by apply (waker_moves u).
  - destruct p; try done; by eapply (local_moves t Go).
Qed.

(** *** What thread [t] may have come to: it still waits, it has the lock, or it was in
    trylock_nospin_timeout and returned without it. *)
Definition mode_of (p : pc) : option mode :=
  match p with Read m _ | Cas m _ | Xchg1 m | Wait m | Asleep m | Xchg2 m => Some m | _ => None end.
Definition settled (t : nat) (m : mode) (s : sys pc) : Prop :=
  pcs s !! t = Some Held \/ m = Timeout /\ pcs s !! t = Some Idle.

Lemma waiting_step s s' t p m : pcs s !! t = Some p -> mode_of p = Some m -> futex_active s s' ->
  settled t m s' \/ exists p', pcs s' !! t = Some p' /\ mode_of p' = Some m.
Proof.
  intros Et Hm ([u a] & Ha & E). destruct (futex_step_cases u a s s' E) as (q & Eq & [(q' & w' & El & ->)|(v & l & -> & -> & Ew & ->)]).
  - cbn [pcs]. destruct (decide (u = t)) as [->|]; [|right; exists p; by rewrite list_lookup_insert_ne].
    rewrite Et in Eq. injection Eq as <-. unfold settled. cbn [pcs]. rewrite (insert_at _ _ _ _ Et).
    destruct p, a; try done; cbn in El; simplify_eq/=; unfold futex_next, futex_retry in *; repeat case_match; simplify_eq/=; eauto.
  - right. assert (u <> t) by (intros ->; rewrite Et in Eq; by injection Eq as ->). cbn [pcs]. rewrite list_lookup_insert_ne by done.
    unfold futex_wake in Ew. destruct (decide (v = t)) as [->|Hv].
    + rewrite Et in Ew. destruct p; repeat case_match; simplify_eq/=; try (by eexists). eexists. split; [by eapply insert_at|done].
    + exists p. split; [|done]. destruct (pcs s !! v) as [[]|]; repeat case_match; simplify_eq; try done. by rewrite list_lookup_insert_ne.
Qed.

Lemma waiting_settles : forall s t p m, Inv s -> pcs s !! t = Some p -> mode_of p = Some m -> inevitable futex_active (settled t m) s.
Proof.
  intros s. induction (Less_wf s) as [s _ IH]. intros t p m HI Et Hm. apply inevitable_step.
  - eapply waiting_moves; [done..|]. by destruct p.
  - intros s' HS. destruct (waiting_step s s' t p m Et Hm HS) as [Hd|(p' & Et' & Hm')]; [by apply inevitable_now|].
    eapply (IH s'); [by apply active_less| |exact Et'|exact Hm']. destruct HS as (ta & _ & E). by eapply futex_step_inv.
Qed.
End Futex.

(** ** The ticket lock *)
Module Ticket.

Definition TICKET_MASK : Z := Z.shiftl 1 16 - 1.

Inductive pc :=
| Idle
| Read                 (** in ticket_lock, about to read the word *)
| Cas (val : Z)
| Spin (ticket : Z)    (** has a ticket, about to compare it with the high half *)
| Held
| TryRead
| TryCas (val : Z).

Definition ticket_init (n : nat) : sys pc := mkSys 0 (replicate n Idle).

(** The high half is the ticket being served, the low half the next one to give. *)
Definition served (w : Z) : Z := Z.land (Z.shiftr w 16) TICKET_MASK.
Definition next_ticket (w : Z) : Z := Z.land w TICKET_MASK.

Definition ticket_local (a : act) (p : pc) (w : Z) : option (pc * Z) :=
  match p, a with
  | Idle, CallLock => Some (Read, w)
  | Read, Go => Some (Cas w, w)
  | Cas val, Go =>
      let hi := Z.land val (Z.shiftl TICKET_MASK 16) in
      let newLo := Z.land (u32 (val + 1)) TICKET_MASK in
      Some (if w =? val then (Spin (next_ticket val), Z.lor hi newLo) else (Read, w))
  | Spin ticket, Go => Some (if served w =? ticket then Held else Spin ticket, w)
  | Held, CallUnlock => Some (Idle, u32 (w + Z.shiftl 1 16))
  | Idle, CallTry => Some (TryRead, w)
  | TryRead, Go => Some (if served w =? next_ticket w then TryCas w else Idle, w)
  | TryCas val, Go =>
      let newLo := Z.land (next_ticket val + 1) TICKET_MASK in
      Some (if w =? val then (Held, Z.lor (Z.shiftl (served val) 16) newLo) else (Idle, w))
  | _, _ => None
  end.

Definition ticket_step := step ticket_local.

(** *** The specification: a queue whose head may enter *)
Inductive event := Queue (t : nat) | Enter (t : nat) | Grab (t : nat) | Leave (t : nat).

(** What a step of thread [t] from [p] to [p'] means to a user of the lock. *)
Definition event_of (t : nat) (p p' : pc) : option event :=
  match p, p' with
  | Cas _, Spin _ => Some (Queue t)
  | Spin _, Held => Some (Enter t)
  | TryCas _, Held => Some (Grab t)
  | Held, Idle => Some (Leave t)
  | _, _ => None
  end.

(** A run of the lock, with the events of its steps. *)
Fixpoint ticket_run (tas : list (nat * act)) (s : sys pc) : option (list event * sys pc) :=
  match tas with
  | [] => Some ([], s)
  | ta :: tas =>
      s' ← ticket_step ta s;
      p ← pcs s !! ta.1;
      p' ← pcs s' !! ta.1;
      '(evs, s'') ← ticket_run tas s';
      Some (option_list (event_of ta.1 p p') ++ evs, s'')
  end.

(** The threads that hold or wait for the lock in order, and whether the first is in. *)
Record fifo := mkFifo { queue : list nat; inside : bool }.

Definition fifo_step (e : event) (a : fifo) : option fifo :=
  match e with
  | Queue t => if bool_decide (t ∈ queue a) then None else Some (mkFifo (queue a ++ [t]) (inside a))
  | Enter t =>
      if bool_decide (head (queue a) = Some t) && negb (inside a) then Some (mkFifo (queue a) true) else None
  | Grab t => if bool_decide (queue a = []) then Some (mkFifo [t] true) else None
  | Leave t =>
      if bool_decide (head (queue a) = Some t) && inside a then Some (mkFifo (tail (queue a)) false) else None
  end.

Fixpoint fifo_run (evs : list event) (a : fifo) : option fifo :=
  match evs with
  | [] => Some a
  | e :: evs => a' ← fifo_step e a; fifo_run evs a'
  end.

(** *** The simulation relation *)
Definition two16 : Z := 65536.

(** The program counter of the thread in place [i] of the queue. *)
Definition place (a : fifo) (hi : Z) (i : nat) : pc :=
  if inside a && (i =? 0)%nat then Held else Spin ((hi + Z.of_nat i) mod two16).

Definition outside (p : pc) : bool := match p with Spin _ | Held => false | _ => true end.

Record Sim (s : sys pc) (a : fifo) : Prop := {
  sim_word : exists hi, 0 <= hi < two16 /\ word s = hi * two16 + (hi + Z.of_nat (length (queue a))) mod two16 /\
    forall i t, queue a !! i = Some t -> pcs s !! t = Some (place a hi i);
  sim_nodup : NoDup (queue a);
  sim_out : forall t p, pcs s !! t = Some p -> t ∉ queue a -> outside p = true;
  sim_in : inside a = true -> queue a <> [] }.

(** *** The halves of the word *)
Lemma land_ticket_mask x : Z.land x TICKET_MASK = x mod two16.
Proof. change TICKET_MASK with (Z.ones 16). by rewrite Z.land_ones. Qed.

Lemma lor_halves a b : 0 <= b < two16 -> Z.lor (Z.shiftl a 16) b = a * two16 + b.
Proof.
  intros Hb. pose proof (Z.add_lor_land (Z.shiftl a 16) b) as H.
  assert (Z.land (Z.shiftl a 16) b = 0) as E.
  { apply Z.bits_inj'. intros n Hn. rewrite Z.land_spec, Z.bits_0. destruct (decide (n < 16)).
    - by rewrite Z.shiftl_spec_low.
    - replace (Z.testbit b n) with false; [apply andb_false_r|]. symmetry.
      rewrite <- (Z.mod_small b (2 ^ 16)) by done. apply Z.mod_pow2_bits_high. lia. }
  rewrite E, Z.shiftl_mul_pow2 in H by lia. rewrite Z.shiftl_mul_pow2 by lia. unfold two16 in *. lia.
Qed.

Lemma land_high w : Z.land w (Z.shiftl TICKET_MASK 16) = Z.shiftl (served w) 16.
Proof.
  apply Z.bits_inj'. intros n Hn. rewrite Z.land_spec. destruct (decide (n < 16)).
  - rewrite !Z.shiftl_spec_low by done. apply andb_false_r.
  - rewrite !Z.shiftl_spec by done. unfold served. rewrite Z.land_spec, Z.shiftr_spec by lia.
    by replace (n - 16 + 16) with n by lia.
Qed.

Section Halves.
Variables hi lo : Z.
Hypothesis Hhi : 0 <= hi < two16.
Hypothesis Hlo : 0 <= lo < two16.
Local Definition w := hi * two16 + lo.

Lemma served_eq : served w = hi.
Proof using Hhi Hlo.
  unfold served, w. rewrite land_ticket_mask, Z.shiftr_div_pow2 by lia. change (2 ^ 16) with two16.
  rewrite Z.div_add_l, Z.div_small by (done || lia). rewrite Z.add_0_r. by apply Z.mod_small.
Qed.

Lemma next_ticket_eq : next_ticket w = lo.
Proof using Hhi Hlo.
  unfold next_ticket, w. rewrite land_ticket_mask, Z.add_comm, Z.mod_add by done. by apply Z.mod_small.
Qed.

Lemma take_eq : Z.lor (Z.land w (Z.shiftl TICKET_MASK 16)) (Z.land (u32 (w + 1)) TICKET_MASK) =
  hi * two16 + (lo + 1) mod two16.
Proof using Hhi Hlo.
  rewrite land_high, served_eq, land_ticket_mask, lor_halves by (by apply Z.mod_pos_bound). f_equal.
  unfold u32, w. rewrite <- Znumtheory.Zmod_div_mod by (done || by exists two16).
  replace (hi * two16 + lo + 1) with (lo + 1 + hi * two16) by lia. by apply Z.mod_add.
Qed.

Lemma grab_eq : Z.lor (Z.shiftl (served w) 16) (Z.land (next_ticket w + 1) TICKET_MASK) =
  hi * two16 + (lo + 1) mod two16.
Proof using Hhi Hlo.
  by rewrite served_eq, next_ticket_eq, land_ticket_mask, lor_halves by (by apply Z.mod_pos_bound).
Qed.

Lemma pass_eq : u32 (w + Z.shiftl 1 16) = ((hi + 1) mod two16) * two16 + lo.
Proof using Hhi Hlo.
  change (Z.shiftl 1 16) with two16. unfold u32, w. change two32 with (two16 * two16).
  replace (hi * two16 + lo + two16) with (lo + (hi + 1) * two16) by lia.
  destruct (decide (hi + 1 = two16)) as [E|E].
  - rewrite E, Z.mod_same by done. replace (two16 * two16) with (1 * (two16 * two16)) at 1 by lia.
    rewrite Z.mod_add, Z.mod_small by (unfold two16 in *; lia). lia.
  - rewrite !Z.mod_small by (unfold two16 in *; lia). lia.
Qed.
End Halves.

(** *** Every step is a step of the queue *)
Lemma queue_short s a t n : Sim s a -> length (pcs s) = n -> (t < n)%nat -> t ∉ queue a -> (length (queue a) < n)%nat.
Proof.
  intros [(hi&_&_&Hq) Hd _ _] Hn Ht Hnt.
  assert (length (t :: queue a) <= length (seq 0 n))%nat as H; [|cbn in H; rewrite length_seq in H; lia].
  apply submseteq_length, NoDup_submseteq; [by constructor|].
  intros u [->|[i Hi]%list_elem_of_lookup_1]%elem_of_cons; apply elem_of_seq; [lia|].
  specialize (Hq _ _ Hi). apply lookup_lt_Some in Hq. lia.
Qed.

(** A thread that moves outside the queue leaves the queue's threads alone. *)
Lemma sim_outside s a t p p' : Sim s a -> pcs s !! t = Some p -> outside p = true -> outside p' = true ->
  Sim (mkSys (word s) (<[t := p']> (pcs s))) a.
Proof.
  intros [(hi&Hhi&Hw&Hq) Hd Ho Hi] Et Hp Hp'.
  assert (forall i u, queue a !! i = Some u -> u <> t) as Hne.
  { intros i u Hu ->. specialize (Hq _ _ Hu). rewrite Et in Hq. simplify_eq.
    unfold place in Hp. by case_match. }
  constructor; cbn; try done.
  - exists hi. repeat split; try done || lia. intros i u Hu. rewrite list_lookup_insert_ne; [eauto|].
    intros <-. by eapply Hne.
  - intros u q Eu Hu. destruct (decide (t = u)) as [<-|]; [|rewrite list_lookup_insert_ne in Eu by done; eauto].
    rewrite (insert_at _ _ _ _ Et) in Eu. by simplify_eq.
Qed.

(** A new thread at the end of the queue: it takes the next ticket. *)
Lemma sim_queue s a t p hi lo : Sim s a -> pcs s !! t = Some p -> outside p = true ->
  0 <= hi < two16 -> 0 <= lo < two16 -> word s = hi * two16 + lo ->
  lo = (hi + Z.of_nat (length (queue a))) mod two16 ->
  Sim (mkSys (hi * two16 + (lo + 1) mod two16) (<[t := place a hi (length (queue a))]> (pcs s)))
    (mkFifo (queue a ++ [t]) (inside a)) /\ t ∉ queue a.
Proof.
  intros [(hi'&Hhi'&Hw'&Hq) Hd Ho Hi] Et Hp Hhi Hlo Hw El.
  assert (hi' = hi) as ->.
  { pose proof (Z.mod_pos_bound (hi' + Z.of_nat (length (queue a))) two16 eq_refl). unfold two16 in *. lia. }
  assert (t ∉ queue a) as Hnt.
  { intros [i H]%list_elem_of_lookup_1. specialize (Hq _ _ H). rewrite Et in Hq. simplify_eq.
    unfold place in Hp. by case_match. }
  split; [|done]. constructor; cbn.
  - exists hi. split; [done|]. split.
    + rewrite El, length_app, Zplus_mod_idemp_l. cbn. do 2 f_equal. lia.
    + intros i u [Hu|[Hl Hu]]%lookup_app_Some.
      * rewrite list_lookup_insert_ne by (intros <-; apply Hnt; by eapply list_elem_of_lookup_2). by apply Hq.
      * apply list_lookup_singleton_Some in Hu as [? <-].
        replace i with (length (queue a)) by lia. by eapply insert_at.
  - apply list.NoDup_app. repeat split; [done|set_solver|by apply NoDup_singleton].
  - intros u q Eu Hu. rewrite list_lookup_insert_ne in Eu by set_solver. eapply Ho; set_solver.
  - intros H1. specialize (Hi H1). by destruct (queue a).
Qed.

(** The place in the queue of a thread that holds a ticket or the lock. *)
Lemma sim_member s a t p : Sim s a -> pcs s !! t = Some p -> outside p = false ->
  exists hi i, 0 <= hi < two16 /\ word s = hi * two16 + (hi + Z.of_nat (length (queue a))) mod two16 /\
    queue a !! i = Some t /\ p = place a hi i.
Proof.
  intros [(hi&Hhi&Hw&Hq) Hd Ho _] Et Hp.
  destruct (decide (t ∈ queue a)) as [[i Hi]%list_elem_of_lookup_1|H].
  - exists hi, i. repeat split; try done; try lia. specialize (Hq _ _ Hi). congruence.
  - specialize (Ho _ _ Et H). congruence.
Qed.

Lemma sim_enter s a t k : Sim s a -> (length (pcs s) <= Z.to_nat two16)%nat -> pcs s !! t = Some (Spin k) ->
  served (word s) = k ->
  exists a', fifo_step (Enter t) a = Some a' /\ Sim (mkSys (word s) (<[t := Held]> (pcs s))) a'.
Proof.
  intros HS Hn Et Hk. destruct (sim_member _ _ _ _ HS Et eq_refl) as (hi&i&Hhi&Hw&Hi&Hp).
  assert (i < Z.to_nat two16)%nat as Hlt.
  { assert (length (queue a) <= length (pcs s))%nat; [|apply lookup_lt_Some in Hi; lia].
    destruct HS as [(?&_&_&Hq) Hd _ _].
    rewrite <- (length_seq (length (pcs s)) 0). apply submseteq_length, NoDup_submseteq; [done|].
    intros u [j Hj]%list_elem_of_lookup_1. apply elem_of_seq. specialize (Hq _ _ Hj).
    apply lookup_lt_Some in Hq. lia. }
  unfold place in Hp. destruct (inside a && (i =? 0)%nat) eqn:Ein; [done|]. injection Hp as Hp.
  pose proof (Z.mod_pos_bound (hi + Z.of_nat (length (queue a))) two16 eq_refl).
  assert (i = O) as ->.
  { subst k. rewrite Hw in Hp. change (hi * two16 + ?l) with (w hi l) in Hp. rewrite served_eq in Hp by done.
    destruct (Z.lt_ge_cases (hi + Z.of_nat i) two16).
    - rewrite Z.mod_small in Hp by lia. lia.
    - assert ((hi + Z.of_nat i) mod two16 = hi + Z.of_nat i - two16); [|unfold two16 in *; lia].
      symmetry. apply (Z.mod_unique_pos _ _ 1); unfold two16 in *; lia. }
  assert (inside a = false) as Eia by (destruct (inside a); done).
  destruct (queue a) as [|t' q] eqn:Eq; [done|]. cbn in Hi. simplify_eq.
  exists (mkFifo (queue a) true). split.
  { cbn. rewrite Eq, Eia. cbn. by rewrite bool_decide_true. }
  destruct HS as [(hi'&Hhi'&Hw'&Hq) Hd Ho _]. constructor; cbn; rewrite ?Eq in *; try done.
  - exists hi'. repeat split; try done; try lia. intros j u Hu. specialize (Hq _ _ Hu).
    destruct j as [|j]; cbn in Hu; simplify_eq; [by eapply insert_at|].
    apply list.NoDup_cons in Hd as [Hd _].
    rewrite list_lookup_insert_ne by (intros ->; apply Hd; by eapply list_elem_of_lookup_2).
    rewrite Hq. unfold place. cbn. by rewrite Eia.
  - intros u q' Eu Hu. rewrite list_lookup_insert_ne in Eu by set_solver. eauto.
Qed.

Lemma sim_leave s a t : Sim s a -> pcs s !! t = Some Held ->
  exists a', fifo_step (Leave t) a = Some a' /\
    Sim (mkSys (u32 (word s + Z.shiftl 1 16)) (<[t := Idle]> (pcs s))) a'.
Proof.
  intros HS Et. destruct (sim_member _ _ _ _ HS Et eq_refl) as (hi&i&Hhi&Hw&Hi&Hp).
  unfold place in Hp. destruct (inside a && (i =? 0)%nat) eqn:Ein; [|done].
  apply andb_true_iff in Ein as [Eia ->%Nat.eqb_eq].
  destruct (queue a) as [|t' q] eqn:Eq; [done|]. cbn in Hi. simplify_eq.
  exists (mkFifo q false). split.
  { cbn. rewrite Eq, Eia. cbn. by rewrite bool_decide_true. }
  destruct HS as [(hi'&Hhi'&Hw'&Hq) Hd Ho _].
  assert (hi' = hi) as ->.
  { pose proof (Z.mod_pos_bound (hi + Z.of_nat (length (t :: q))) two16 eq_refl).
    pose proof (Z.mod_pos_bound (hi' + Z.of_nat (length (queue a))) two16 eq_refl). unfold two16 in *. lia. }
  rewrite Eq in Hd, Hq, Ho. apply list.NoDup_cons in Hd as [Hnt Hd]. constructor; cbn; try done.
  - exists ((hi + 1) mod two16). split; [by apply Z.mod_pos_bound|]. split.
    + rewrite Hw. change (hi * two16 + ?l) with (w hi l). rewrite pass_eq by (done || by apply Z.mod_pos_bound).
      rewrite Zplus_mod_idemp_l. do 2 f_equal. cbn. lia.
    + intros j u Hu. specialize (Hq (S j) u Hu).
      rewrite list_lookup_insert_ne by (intros ->; apply Hnt; by eapply list_elem_of_lookup_2).
      rewrite Hq. unfold place. rewrite andb_false_r. cbn. rewrite Zplus_mod_idemp_l. do 2 f_equal. f_equal. lia.
  - intros u p Eu Hu. destruct (decide (t = u)) as [<-|].
    + rewrite (insert_at _ _ _ _ Et) in Eu. by simplify_eq.
    + rewrite list_lookup_insert_ne in Eu by done. eapply Ho; [done|]. set_solver.
Qed.

Lemma sim_grab s a t v : Sim s a -> (length (pcs s) <= Z.to_nat two16)%nat -> pcs s !! t = Some (TryCas v) ->
  word s = v -> served v = next_ticket v ->
  exists a', fifo_step (Grab t) a = Some a' /\
    Sim (mkSys (Z.lor (Z.shiftl (served v) 16) (Z.land (next_ticket v + 1) TICKET_MASK)) (<[t := Held]> (pcs s))) a'.
Proof.
  intros HS Hn Et <- Hv.
  assert (t ∉ queue a) as Hnt.
  { destruct HS as [(hi&_&_&Hq) _ _ _]. intros [i H]%list_elem_of_lookup_1. specialize (Hq _ _ H).
    rewrite Et in Hq. unfold place in Hq. by case_match. }
  pose proof (queue_short s a t _ HS eq_refl (lookup_lt_Some _ _ _ Et) Hnt) as Hl.
  destruct HS as [(hi&Hhi&Hw&Hq) Hd Ho Hi].
  pose proof (Z.mod_pos_bound (hi + Z.of_nat (length (queue a))) two16 eq_refl) as Hm.
  assert (queue a = []) as Eq.
  { revert Hv. rewrite Hw. change (hi * two16 + ?l) with (w hi l).
    rewrite served_eq, next_ticket_eq by done. intros Hv. apply nil_length_inv.
    destruct (Z.lt_ge_cases (hi + Z.of_nat (length (queue a))) two16).
    - rewrite Z.mod_small in Hv by lia. lia.
    - assert ((hi + Z.of_nat (length (queue a))) mod two16 = hi + Z.of_nat (length (queue a)) - two16);
        [|unfold two16 in *; lia].
      symmetry. apply (Z.mod_unique_pos _ _ 1); unfold two16 in *; lia. }
  exists (mkFifo [t] true). split; [cbn; by rewrite bool_decide_true|].
  rewrite Eq in *. cbn in Hw, Hm. constructor; cbn; try done.
  - exists hi. split; [done|]. split.
    + rewrite Hw. change (hi * two16 + ?l) with (w hi l). rewrite grab_eq by done.
      rewrite Zplus_mod_idemp_l. do 2 f_equal. lia.
    + intros [|i] u Hu; simplify_eq/=. by eapply insert_at.
  - apply NoDup_singleton.
  - intros u q Eu Hu. rewrite list_lookup_insert_ne in Eu by set_solver. eapply Ho; set_solver.
Qed.

Lemma sim_take s a t v : Sim s a -> pcs s !! t = Some (Cas v) -> word s = v ->
  exists a', fifo_step (Queue t) a = Some a' /\
    Sim (mkSys (Z.lor (Z.land v (Z.shiftl TICKET_MASK 16)) (Z.land (u32 (v + 1)) TICKET_MASK))
      (<[t := Spin (next_ticket v)]> (pcs s))) a'.
Proof.
  intros HS Et <-. pose proof HS as [(hi&Hhi&Hw&_) _ _ Hi].
  pose proof (Z.mod_pos_bound (hi + Z.of_nat (length (queue a))) two16 eq_refl) as Hm.
  destruct (sim_queue s a t _ hi _ HS Et eq_refl Hhi Hm Hw eq_refl) as [H Hnt].
  exists (mkFifo (queue a ++ [t]) (inside a)). split; [cbn; by rewrite bool_decide_false|].
  replace (Spin (next_ticket (word s))) with (place a hi (length (queue a))).
  - rewrite Hw at 1 2. change (hi * two16 + ?l) with (w hi l) at 1 2. by rewrite take_eq.
  - unfold place. rewrite Hw. change (hi * two16 + ?l) with (w hi l). rewrite next_ticket_eq by done.
    destruct (inside a); [|done]. specialize (Hi eq_refl). by destruct (queue a).
Qed.

(** A thread that is about to try the compare-and-swap of ticket_trylock saw a free lock. *)
Definition try_ok (p : pc) : Prop := match p with TryCas v => served v = next_ticket v | _ => True end.

Lemma try_ok_local a p w p' w' : try_ok p -> ticket_local a p w = Some (p', w') -> try_ok p'.
Proof.
  intros H El. destruct p, a; try discriminate; cbn [ticket_local] in El;
    try (match type of El with context [?x =? ?y] => destruct (Z.eqb_spec x y) as [E|E] end);
    injection El as <- <-; exact I || exact E.
Qed.

Lemma sim_local a s f t p p' w' : Sim s f -> Forall try_ok (pcs s) -> (length (pcs s) <= Z.to_nat two16)%nat ->
  pcs s !! t = Some p -> ticket_local a p (word s) = Some (p', w') ->
  exists f', (match event_of t p p' with Some e => fifo_step e f | None => Some f end) = Some f' /\
    Sim (mkSys w' (<[t := p']> (pcs s))) f'.
Proof.
  intros HS Ht Hn Ep El. assert (try_ok p) as Hp by (eapply Forall_lookup_1; eauto).
  destruct p, a; try done; cbn in El;
    try (match type of El with context [?x =? ?y] => destruct (Z.eqb_spec x y) as [E|E] end);
    simplify_eq/=;
    try (exists f; split; [done|]; by eapply sim_outside).
  - by apply sim_take.
  - by eapply sim_enter.
  - exists f. split; [done|]. rewrite list_insert_id by done. by destruct s.
  - by apply sim_leave.
  - by eapply sim_grab.
Qed.

Lemma ticket_run_sim tas s f evs s' : Sim s f -> Forall try_ok (pcs s) -> (length (pcs s) <= Z.to_nat two16)%nat ->
  ticket_run tas s = Some (evs, s') -> exists f', fifo_run evs f = Some f' /\ Sim s' f'.
Proof.
  revert s f evs. induction tas as [|[t a] tas IH]; intros s f evs HS Ht Hn E; simplify_eq/=; [eauto|].
  unfold ticket_step, step in E. cbn in E. destruct (pcs s !! t) as [p|] eqn:Ep; [|done]. cbn in E.
  destruct (ticket_local a p (word s)) as [[p' w']|] eqn:El; [|done]. cbn in E.
  rewrite (insert_at _ _ _ _ Ep) in E. cbn in E.
  destruct (ticket_run tas _) as [[evs' s'']|] eqn:Er; simplify_eq/=.
  destruct (sim_local a s f t p p' w' HS Ht Hn Ep El) as (f1&E1&HS1).
  destruct (IH _ f1 evs' HS1) as (f'&E2&HS2); try done.
  - apply Forall_insert; [done|]. eapply try_ok_local; [|exact El]. eapply Forall_lookup_1; eauto.
  - cbn. by rewrite length_insert.
  - exists f'. split; [|done]. destruct (event_of t p p'); simplify_eq/=; [by rewrite E1|done].
Qed.

Lemma ticket_init_sim n : Sim (ticket_init n) (mkFifo [] false).
Proof.
  constructor; cbn; try done.
  - by exists 0.
  - constructor.
  - by intros t p [-> _]%lookup_replicate.
Qed.
End Ticket.

(** ** The theorems *)

(** (mutual exclusion of the spin lock) However the steps of the threads
    interleave, at most one thread is between spin_lock (or a successful
    spin_trylock) and the end of spin_unlock, the word is 1 exactly then, and the assertion of
    spin_unlock does not fail. *)
Theorem spin_exclusive (n : nat) (s : sys Spin.pc) :
  reach Spin.spin_step (Spin.spin_init n) s ->
  (forall t u p q, pcs s !! t = Some p -> pcs s !! u = Some q ->
     Spin.owns p = true -> Spin.owns q = true -> t = u) /\
  (word s = 1 <-> exists t p, pcs s !! t = Some p /\ Spin.owns p = true) /\
  (forall t, pcs s !! t <> Some Spin.Failed).
Proof.
  intros [Hw H1 Hf]%Spin.spin_reach_inv. split; [|split].
  - intros t u p q Et Eu Hp Hq. by eapply cnt_two.
  - split; [intros E; apply cnt_ex; lia|]. intros (t&p&Et&Hp). pose proof (cnt_pos _ _ _ _ Et Hp). lia.
  - intros t Et. pose proof (cnt_pos Spin.failed _ _ _ Et eq_refl). lia.
Qed.

(** C26: (mutual exclusion of the futex lock) However the steps of the threads
    interleave, with signals and timeouts, at most one thread owns the futex
    lock, from its return from futex_lock, futex_lock_nospin or a successful
    futex_trylock_nospin_timeout to the write that frees the word; the word is 0, 1 or 2, and 0 exactly
    when no thread owns the lock. *)
Theorem futex_exclusive (n : nat) (s : sys Futex.pc) :
  reach Futex.futex_step (Futex.futex_init n) s ->
  (forall t u p q, pcs s !! t = Some p -> pcs s !! u = Some q ->
     Futex.owns p = true -> Futex.owns q = true -> t = u) /\
  0 <= word s <= 2 /\
  (word s = 0 <-> forall t p, pcs s !! t = Some p -> Futex.owns p = false).
Proof.
  intros [Hw Ho _]%Futex.futex_reach_inv. split; [|split; [done|]].
  - intros t u p q Et Eu Hp Hq. eapply (cnt_two Futex.owns); eauto. lia.
  - split.
    + intros E t p Et. destruct (Futex.owns p) eqn:Hp; [|done]. pose proof (cnt_pos _ _ _ _ Et Hp). lia.
    + intros H. destruct (decide (word s = 0)); [done|].
      destruct (cnt_ex Futex.owns (pcs s)) as (t&p&Et&Hp); [lia|]. specialize (H _ _ Et). congruence.
Qed.

(** C27: (no lost wake-up in the futex lock) Take any state that any number of threads reach
    with any calls, signals and timeouts, and a thread that waits for the futex lock in it, asleep in
    the kernel or not.  If from then on no thread calls lock anew and no signal or timeout
    comes, then on every schedule of the steps of the threads that are already at the lock
    (those that hold it call unlock), fair or not, that thread gets the lock; one that is
    in trylock_nospin_timeout may instead return without it.  So there is neither a deadlock,
    with the thread asleep and nobody left to wake it, nor an endless run in which it does
    not get the lock. *)
Theorem futex_no_lost_wakeup (n t : nat) (s : sys Futex.pc) (p : Futex.pc) (m : Futex.mode) :
  reach Futex.futex_step (Futex.futex_init n) s -> pcs s !! t = Some p -> Futex.mode_of p = Some m ->
  inevitable Futex.futex_active
    (fun s' => pcs s' !! t = Some Futex.Held \/ m = Futex.Timeout /\ pcs s' !! t = Some Futex.Idle) s.
Proof. intros HI%Futex.futex_reach_inv Et Hm. by eapply Futex.waiting_settles. Qed.

(** C28: (first come, first served) With at most 2^16 threads every run of the ticket
    lock is a run of a queue: a thread takes its place when its compare-and-swap
    succeeds, only the first of the queue enters, ticket_trylock succeeds only
    when the queue is empty, and the lock is released by the thread that is in. *)
Theorem ticket_refines_fifo (n : nat) (tas : list (nat * act)) (evs : list Ticket.event) (s : sys Ticket.pc) :
  Z.of_nat n <= 65536 -> Ticket.ticket_run tas (Ticket.ticket_init n) = Some (evs, s) ->
  exists q, Ticket.fifo_run evs (Ticket.mkFifo [] false) = Some q /\
    (forall t, pcs s !! t = Some Ticket.Held -> Ticket.inside q = true /\ head (Ticket.queue q) = Some t).
Proof.
  intros Hn E.
  destruct (Ticket.ticket_run_sim tas _ _ evs s (Ticket.ticket_init_sim n)) as (q&Eq&HS); [| |exact E|].
  - by apply Forall_replicate.
  - cbn [pcs Ticket.ticket_init]. rewrite length_replicate. unfold Ticket.two16. lia.
  - exists q. split; [done|]. intros t Et.
    destruct (Ticket.sim_member _ _ _ _ HS Et eq_refl) as (hi&i&_&_&Hi&Hp).
    unfold Ticket.place in Hp. destruct (Ticket.inside q); [|done]. destruct i; [|done].
    split; [done|]. by destruct (Ticket.queue q).
Qed.

(** *** Runs of the locks *)
(** Runs of the spin and futex locks by a list of actions. *)
Fixpoint run_acts {S A} (f : A -> S -> option S) (l : list A) (s : S) : option S :=
  match l with
  | [] => Some s
  | a :: l => s' ← f a s; run_acts f l s'
  end.

Lemma run_acts_reach {S A} (f : A -> S -> option S) l (s s' : S) : run_acts f l s = Some s' -> reach f s s'.
Proof.
  revert s. induction l as [|a l IH]; intros s E; simplify_eq/=; [done|].
  destruct (f a s) as [s1|] eqn:E1; [|done].
  eapply rtc_l; [by exists a|by apply IH].
Qed.

(** Two threads contend for the spin lock, and the second waits for the first to unlock. *)
Definition spin_script : list (nat * act) :=
  [(0, CallLock); (1, CallLock); (0, Go); (1, Go); (1, Go); (0, Go); (0, Go); (1, CallUnlock); (1, Go)]%nat.
Lemma spin_exclusive_witness : exists s, run_acts Spin.spin_step spin_script (Spin.spin_init 2) = Some s /\ word s = 1 /\
  (forall t, pcs s !! t <> Some Spin.Failed).
Proof.
  eexists. split; [by vm_compute|]. split; [done|].
  eapply (spin_exclusive 2). apply (run_acts_reach _ spin_script). by vm_compute.
Defined.

(** Thread 0 holds the futex lock, thread 1 sleeps on it. *)
Definition futex_script : list (nat * Futex.act) :=
  [(0, Futex.CallLock Futex.Lock); (0, Futex.Go); (0, Futex.Go); (1, Futex.CallLock Futex.NoSpin);
   (1, Futex.Go); (1, Futex.Go); (1, Futex.Go)]%nat.
Definition futex_contended : sys Futex.pc := mkSys 2 [Futex.Held; Futex.Asleep Futex.NoSpin].
Lemma futex_contended_run : run_acts Futex.futex_step futex_script (Futex.futex_init 2) = Some futex_contended.
Proof. by vm_compute. Qed.

Lemma futex_exclusive_witness : word futex_contended = 2 /\
  ~ forall t p, pcs futex_contended !! t = Some p -> Futex.owns p = false.
Proof.
  split; [done|]. destruct (futex_exclusive 2 futex_contended) as (_&_&H).
  - apply (run_acts_reach _ futex_script), futex_contended_run.
  - intros H0. by apply H in H0.
Defined.

Lemma futex_no_lost_wakeup_witness :
  inevitable Futex.futex_active (fun s' => pcs s' !! 1%nat = Some Futex.Held \/
    Futex.NoSpin = Futex.Timeout /\ pcs s' !! 1%nat = Some Futex.Idle) futex_contended.
Proof.
  apply (futex_no_lost_wakeup 2 1 futex_contended (Futex.Asleep Futex.NoSpin)); [|done|done].
  apply (run_acts_reach _ futex_script), futex_contended_run.
Defined.

(** Thread 1 queues behind thread 0, which holds the lock, and enters after it. *)
Definition ticket_script : list (nat * act) :=
  [(0, CallLock); (0, Go); (0, Go); (0, Go); (1, CallLock); (1, Go); (1, Go); (1, Go); (2, CallTry); (2, Go);
   (0, CallUnlock); (1, Go)]%nat.
Lemma ticket_refines_fifo_witness : exists q,
  Ticket.fifo_run [Ticket.Queue 0; Ticket.Enter 0; Ticket.Queue 1; Ticket.Leave 0; Ticket.Enter 1] (Ticket.mkFifo [] false)
    = Some q /\ Ticket.inside q = true.
Proof.
  destruct (ticket_refines_fifo 3 ticket_script
    [Ticket.Queue 0; Ticket.Enter 0; Ticket.Queue 1; Ticket.Leave 0; Ticket.Enter 1]
    (mkSys 65538 [Ticket.Idle; Ticket.Held; Ticket.Idle])) as (q&E&H); [done|by vm_compute|].
  exists q. split; [exact E|]. by apply (H 1%nat).
Defined.

(** futex_haswaiters answers true with no other thread near the lock: thread 1 took the
    lock with the exchange after its system call and left the word at 2. *)
Definition haswaiters_script : list (nat * Futex.act) :=
  [(0, Futex.CallLock Futex.Lock); (0, Futex.Go); (0, Futex.Go); (1, Futex.CallLock Futex.NoSpin);
   (1, Futex.Go); (1, Futex.Go); (0, Futex.CallUnlock); (0, Futex.Go); (0, Futex.WakeUp 1);
   (1, Futex.Go); (1, Futex.Go)]%nat.
Lemma haswaiters_false_positive : exists s,
  run_acts Futex.futex_step haswaiters_script (Futex.futex_init 2) = Some s /\
  Futex.futex_haswaiters s = true /\ pcs s = [Futex.Idle; Futex.Held].
Proof. eexists. split; [by vm_compute|done]. Qed.
