(* ===== verification/UMon.v ===== *)
(** * Utility monitors (src/src/utility_monitor.h, .cpp)

    A monitor samples the lines of a cache by a hash and keeps, per monitored set, a
    linked list of [buckets] nodes in order of last use.  The position at which an
    access hits is counted, and [getMisses] adds the counts up to a miss curve.  The
    lists are modelled with their nodes and next pointers; the reference is a plain
    LRU cache of [k] ways, and the theorem is the stack property of LRU: entry [k]
    of the curve is the number of misses of the [k]-way cache, for all [k] at once. *)

From S2P Require Import Prelude Bithacks Hash.

Module UM.

Record Node := mkNode { addr : Z; next : option nat }.

(** A monitored set: array[set] and heads[set]. *)
Record USet := mkSet { nodes : list Node; head : nat }.

Record UMon := mkUMon {
  umonLines : Z;
  samplingFactor : Z;
  buckets : nat;
  samplingFactorBits : Z;
  setsBits : Z;
  curWayHits : list Z;
  curMisses : Z;
  sets : list USet }.

Definition set_hits (l : list Z) (u : UMon) : UMon :=
  mkUMon (umonLines u) (samplingFactor u) (buckets u) (samplingFactorBits u) (setsBits u) l (curMisses u) (sets u).
Definition set_misses (n : Z) (u : UMon) : UMon :=
  mkUMon (umonLines u) (samplingFactor u) (buckets u) (samplingFactorBits u) (setsBits u) (curWayHits u) n (sets u).
Definition set_sets (l : list USet) (u : UMon) : UMon :=
  mkUMon (umonLines u) (samplingFactor u) (buckets u) (samplingFactorBits u) (setsBits u) (curWayHits u) (curMisses u) l.

(** [while (tmp >>= 1) bits++], on 32 bits. *)
Fixpoint count_bits (fuel : nat) (tmp bits : Z) : Z :=
  match fuel with
  | O => bits
  | S fuel => let tmp := Z.shiftr tmp 1 in if tmp =? 0 then bits else count_bits fuel tmp (bits + 1)
  end.

(** The nodes of a set are linked in the order of the array; callocated, all with address 0. *)
Definition init_node (n j : nat) : Node := mkNode 0 (if (S j <? n)%nat then Some (S j) else None).
Definition init_set (n : nat) : USet := mkSet (init_node n <$> seq 0 n) 0.

Definition init (bankLines lines : Z) (bkts : nat) : UMon :=
  let factor := bankLines `quot` lines in
  let nsets := lines `quot` Z.of_nat bkts in
  mkUMon lines factor bkts (count_bits 32 factor 0) (count_bits 32 nsets 0)
    (replicate bkts 0) 0 (replicate (Z.to_nat nsets) (init_set bkts)).

(** [~(((uint64_t)-1LL) << bits)]. *)
Definition low_mask (bits : Z) : Z := u64 (Z.lnot (u64 (Z.shiftl (two64 - 1) bits))).

Section Hashed.
(** [hf->hash]: the hash family of the monitor. *)
Variable hash : Z -> Z -> Z.

Definition sampled (u : UMon) (lineAddr : Z) : bool :=
  Z.land (hash 0 lineAddr) (low_mask (samplingFactorBits u)) =? 0.
Definition set_of (u : UMon) (lineAddr : Z) : nat :=
  Z.to_nat (Z.land (hash 1 lineAddr) (low_mask (setsBits u))).

(** The loop over the positions from [b], [n] of them left: whether it hit, at
    which position, and [prev] and [cur] when it ends. *)
Fixpoint walk (l : list Node) (a : Z) (n b : nat) (prev : option nat) (cur : nat) : res (option nat * option nat * nat) :=
  match n with
  | O => Ok (None, prev, cur)
  | S n' =>
      c ← arr_get l cur;
      if addr c =? a then Ok (Some b, prev, cur)
      else if (n' =? 0)%nat then Ok (None, prev, cur)
      else match next c with
           | None => Err (Panic "null next")
           | Some nx => walk l a n' (S b) (Some cur) nx
           end
  end.

(** Move [cur] to the front of its set. *)
Definition to_mru (s : USet) (prev : option nat) (cur : nat) : res USet :=
  match prev with
  | None => Ok s
  | Some p =>
      np ← arr_get (nodes s) p;
      nc ← arr_get (nodes s) cur;
      l1 ← arr_set (nodes s) p (mkNode (addr np) (next nc));
      nc ← arr_get l1 cur;
      l2 ← arr_set l1 cur (mkNode (addr nc) (Some (head s)));
      Ok (mkSet l2 cur)
  end.

Definition access (lineAddr : Z) : M UMon unit :=
  u ← mget;
  if negb (sampled u lineAddr) then mret tt else
  let i := set_of u lineAddr in
  s ← mlift (arr_get (sets u) i);
  '(hit, prev, cur) ← mlift (walk (nodes s) lineAddr (buckets u) 0 None (head s));
  s ← match hit with
      | Some b =>
          h ← mlift (arr_get (curWayHits u) b);
          l ← mlift (arr_set (curWayHits u) b (u64 (h + 1)));
          mmodify (set_hits l);; mret s
      | None =>
          mmodify (set_misses (u64 (curMisses u + 1)));;
          c ← mlift (arr_get (nodes s) cur);
          massert (bool_decide (next c = None)) "cur->next == nullptr";;
          l ← mlift (arr_set (nodes s) cur (mkNode lineAddr (next c)));
          mret (mkSet l (head s))
      end;
  s ← mlift (to_mru s prev cur);
  u ← mget;
  l ← mlift (arr_set (sets u) i s);
  mmodify (set_sets l).

(** The sums from the last bucket down. *)
Fixpoint numAccesses (hits : list Z) (i : nat) (total : Z) : res Z :=
  match i with
  | O => Ok total
  | S i' => h ← arr_get hits i'; numAccesses hits i' (u64 (total + h))
  end.
Definition getNumAccesses (u : UMon) : res Z := numAccesses (curWayHits u) (buckets u) (curMisses u).

(** [misses] is the caller's array. *)
Fixpoint fill_misses (hits : list Z) (i : nat) (total : Z) (misses : list Z) : res (list Z) :=
  match i with
  | O => arr_set misses 0 total
  | S i' =>
      misses ← arr_set misses i total;
      h ← arr_get hits i';
      fill_misses hits i' (u64 (total + h)) misses
  end.
Definition getMisses (u : UMon) (misses : list Z) : res (list Z) :=
  fill_misses (curWayHits u) (buckets u) (curMisses u) misses.

Fixpoint zero_hits (b n : nat) : M UMon unit :=
  match n with
  | O => mret tt
  | S n' =>
      u ← mget;
      l ← mlift (arr_set (curWayHits u) b 0);
      mmodify (set_hits l);;
      zero_hits (S b) n'
  end.
Definition startNextInterval : M UMon unit :=
  mmodify (set_misses 0);;
  u ← mget;
  zero_hits 0 (buckets u).

(** The calls that change a monitor. *)
Inductive op := Access (a : Z) | NextInterval.
Definition run_op (o : op) : M UMon unit := match o with Access a => access a | NextInterval => startNextInterval end.
Fixpoint run_ops (l : list op) : M UMon unit :=
  match l with [] => mret tt | o :: l => run_op o;; run_ops l end.

(** ** The reference: LRU caches of [k] ways *)
Definition lru_touch (a : Z) (l : list Z) : bool * list Z :=
  match list_find (eq a) l with
  | Some (b, _) => (true, a :: take b l ++ drop (S b) l)
  | None => (false, match l with [] => [] | _ => a :: take (length l - 1) l end)
  end.

(** The lines of each set from the last used on, and the misses of the interval. *)
Record Lru := mkLru { lru_sets : nat -> list Z; lru_misses : Z }.
Definition lru_init (k : nat) : Lru := mkLru (fun _ => replicate k 0) 0.
Definition lru_op (u : UMon) (o : op) (c : Lru) : Lru :=
  match o with
  | NextInterval => mkLru (lru_sets c) 0
  | Access a =>
      if sampled u a then
        let '(hit, l) := lru_touch a (lru_sets c (set_of u a)) in
        mkLru (upd (lru_sets c) (set_of u a) l) (if hit : bool then lru_misses c else lru_misses c + 1)
      else c
  end.
Definition lru_run (u : UMon) (l : list op) (k : nat) : Lru := foldl (fun c o => lru_op u o c) (lru_init k) l.
End Hashed.

(** ** The linked lists *)

(** [seg l p os q]: from the pointer [p] the nodes [os], index and address, are
    linked one after the other up to the pointer [q]. *)
Fixpoint seg (l : list Node) (p : option nat) (os : list (nat * Z)) (q : option nat) : Prop :=
  match os with
  | [] => p = q
  | (x, a) :: os => p = Some x /\ exists nx, l !! x = Some (mkNode a nx) /\ seg l nx os q
  end.

Record SetOk (n : nat) (s : USet) (os : list (nat * Z)) : Prop := {
  ok_nodes : length (nodes s) = n;
  ok_seg : seg (nodes s) (Some (head s)) os None;
  ok_nodup : NoDup os.*1;
  ok_len : length os = n }.

Lemma useg_app l p os1 os2 q : seg l p (os1 ++ os2) q <-> exists r, seg l p os1 r /\ seg l r os2 q.
Proof.
  revert p. induction os1 as [|[x a] os1 IH]; intros p; cbn; [naive_solver|].
  split.
  - intros (->&nx&Hx&(r&H1&H2)%IH). eauto 10.
  - intros (r&(->&nx&Hx&H1)&H2). split; [done|]. exists nx. split; [done|]. apply IH. eauto.
Qed.

Lemma seg_frame l p os q x n : x ∉ os.*1 -> seg l p os q -> seg (<[x := n]> l) p os q.
Proof.
  revert p. induction os as [|[y a] os IH]; intros p Hx H; cbn in *; [done|].
  destruct H as (->&nx&Hy&H). split; [done|]. exists nx.
  rewrite list_lookup_insert_ne by set_solver. split; [done|]. apply IH; set_solver.
Qed.

Lemma lookup_update {A} (l : list A) x n n' : l !! x = Some n -> <[x := n']> l !! x = Some n'.
Proof. intros H. apply list_lookup_insert_eq. by eapply lookup_lt_Some. Qed.

(** What the loop of [access] finds. *)
Lemma walk_spec l a os : forall b prev cur, os <> [] -> seg l (Some cur) os None ->
  exists pre x c post, os = pre ++ (x, c) :: post /\ a ∉ pre.*2 /\
    ((c = a /\ walk l a (length os) b prev cur = Ok (Some (b + length pre)%nat, from_option (Some ∘ fst) prev (list.last pre), x)) \/
     (c <> a /\ post = [] /\ walk l a (length os) b prev cur = Ok (None, from_option (Some ∘ fst) prev (list.last pre), x))).
Proof.
  induction os as [|[y d] os IH]; intros b prev cur Hne H; [done|]. cbn in H.
  destruct H as ([= ->]&nx&Hy&H). cbn [length walk]. rewrite (arr_get_Some _ _ _ Hy). cbn.
  destruct (Z.eqb_spec d a) as [->|Hd].
  { exists [], y, a, os. repeat split; [set_solver|]. left. cbn. by rewrite Nat.add_0_r. }
  destruct os as [|[y' d'] os].
  { exists [], y, d, []. repeat split; [set_solver|]. by right. }
  cbn [length Nat.eqb]. pose proof H as H'. cbn in H'. destruct H' as (->&_).
  destruct (IH (S b) (Some y) y' ltac:(done) H) as (pre&x&c&post&E&Hpre&Hcase).
  exists ((y, d) :: pre), x, c, post. split; [by rewrite E|]. split; [set_solver|].
  assert (from_option (Some ∘ fst) (Some y) (list.last pre) = from_option (Some ∘ fst) prev (list.last ((y, d) :: pre))) as El.
  { by destruct pre as [|? pre]; [|rewrite last_cons_cons; destruct (list.last _) eqn:El; [|apply last_None in El]]. }
  cbn [length] in Hcase. destruct Hcase as [[? Hw]|(?&?&Hw)]; [left|right]; rewrite Hw, El; repeat split; try done.
  cbn. by rewrite Nat.add_succ_r.
Qed.

(** Moving a node to the front. *)
Lemma to_mru_spec n s pre x c post : SetOk n s (pre ++ (x, c) :: post) ->
  exists s', to_mru s (from_option (Some ∘ fst) None (list.last pre)) x = Ok s' /\ SetOk n s' ((x, c) :: pre ++ post).
Proof.
  intros [Hn Hs Hd Hl]. destruct pre as [|[y d] pre _] using rev_ind.
  { exists s. split; [done|]. by constructor. }
  rewrite last_snoc. cbn. rewrite <- app_assoc in Hs. apply useg_app in Hs as (r&Hpre&Hs).
  cbn in Hs. destruct Hs as (->&ny&Hy&->&nx&Hx&Hpost).
  rewrite (arr_get_Some _ _ _ Hy), (arr_get_Some _ _ _ Hx). cbn.
  rewrite arr_set_lt by (by eapply lookup_lt_Some). cbn.
  rewrite !fmap_app in Hd. cbn in Hd.
  apply list.NoDup_app in Hd as (Hd1&Hd2&[Hd3 Hd4]%list.NoDup_cons).
  apply list.NoDup_app in Hd1 as (Hd5&Hd6&_).
  assert (x <> y) by (intros ->; apply (Hd2 y); set_solver).
  assert (Hx' : <[y := mkNode d nx]> (nodes s) !! x = Some (mkNode c nx)) by (by rewrite list_lookup_insert_ne).
  rewrite (arr_get_Some _ _ _ Hx'). cbn. rewrite arr_set_lt by (by eapply lookup_lt_Some). cbn.
  eexists. split; [done|]. constructor; cbn.
  - by rewrite !length_insert.
  - split; [done|]. exists (Some (head s)). split; [by eapply lookup_update|].
    rewrite <- app_assoc. apply useg_app. exists (Some y). split.
    + apply seg_frame; [intros Hin; apply (Hd2 x); set_solver|]. apply seg_frame; [|done].
      intros Hin. apply (Hd6 y); set_solver.
    + cbn. split; [done|]. exists nx. rewrite list_lookup_insert_ne by done. split; [by eapply lookup_update|].
      apply seg_frame; [done|]. apply seg_frame; [|done]. intros Hin. apply (Hd2 y); set_solver.
  - rewrite !fmap_app. cbn. apply list.NoDup_cons. split.
    + rewrite !elem_of_app. intros [[Hin|Hin]|Hin]; [apply (Hd2 x); set_solver|set_solver|done].
    + apply list.NoDup_app. split; [apply list.NoDup_app; repeat split; [done|done|apply NoDup_singleton]|].
      split; [|done]. intros z Hz Hz'. apply (Hd2 z); set_solver.
  - rewrite !length_app in *. cbn in *. lia.
Qed.

(** Writing the address of the last node. *)
Lemma set_last n s pre x c a : SetOk n s (pre ++ [(x, c)]) ->
  nodes s !! x = Some (mkNode c None) /\ SetOk n (mkSet (<[x := mkNode a None]> (nodes s)) (head s)) (pre ++ [(x, a)]).
Proof.
  intros [Hn Hs Hd Hl]. apply useg_app in Hs as (r&Hpre&Hs). cbn in Hs. destruct Hs as (->&nx&Hx&->).
  rewrite fmap_app in Hd. split; [done|]. constructor; cbn.
  - by rewrite length_insert.
  - apply useg_app. exists (Some x). split.
    + apply seg_frame; [|done]. apply list.NoDup_app in Hd as (_&Hd&_). intros Hin. apply (Hd x); set_solver.
    + split; [done|]. exists None. split; [by eapply lookup_update|done].
  - by rewrite fmap_app.
  - by rewrite !length_app in *.
Qed.

(** ** The stack property *)
Lemma touch_absent a l : a ∉ l -> lru_touch a l = (false, take (length l) (a :: l)).
Proof.
  intros Ha. unfold lru_touch. destruct (list_find (eq a) l) as [[b x]|] eqn:E.
  - apply list_find_Some in E as (Hb&->&_). by apply list_elem_of_lookup_2 in Hb.
  - destruct l as [|y l]; [done|]. cbn. by rewrite Nat.sub_0_r.
Qed.

Lemma touch_present a pre post : a ∉ pre -> lru_touch a (pre ++ a :: post) = (true, a :: pre ++ post).
Proof.
  intros Ha. unfold lru_touch.
  assert (list_find (eq a) (pre ++ a :: post) = Some (length pre, a)) as ->.
  { apply list_find_Some. repeat split.
    - by rewrite list_lookup_middle.
    - intros j y Hj Hlt ->. rewrite lookup_app_l in Hj by done. by apply list_elem_of_lookup_2 in Hj. }
  rewrite take_app_length, (drop_app_ge pre) by lia. by replace (S (length pre) - length pre)%nat with 1%nat by lia.
Qed.

(** What a [k]-way cache does is what the full stack does, cut at [k]. *)
Lemma touch_take_present a pre post k : a ∉ pre -> (k <= length (pre ++ a :: post))%nat ->
  lru_touch a (take k (pre ++ a :: post)) = (bool_decide (length pre < k)%nat, take k (a :: pre ++ post)).
Proof.
  intros Ha Hk. destruct (decide (length pre < k)%nat) as [Hlt|Hge].
  - rewrite (bool_decide_true (_ < _)%nat) by done.
    assert (exists j, k = (length pre + S j)%nat) as [j ->] by (exists (k - length pre - 1)%nat; lia).
    rewrite take_app_add. cbn [take]. rewrite touch_present by done. f_equal.
    rewrite Nat.add_succ_r. cbn. by rewrite take_app_add.
  - rewrite (bool_decide_false (_ < _)%nat) by done. rewrite take_app_le by lia.
    rewrite touch_absent by (intros (i&Hi&_)%elem_of_take; apply Ha; by eapply list_elem_of_lookup_2).
    rewrite length_take_le by lia. f_equal. destruct k as [|k]; [done|]. cbn. f_equal.
    rewrite take_app_le by lia. rewrite take_take. f_equal. lia.
Qed.

Lemma touch_take_absent a l k : a ∉ l -> (k <= length l)%nat ->
  lru_touch a (take k l) = (false, take k (a :: take (length l - 1) l)).
Proof.
  intros Ha Hk. rewrite touch_absent by (intros (i&Hi&_)%elem_of_take; apply Ha; by eapply list_elem_of_lookup_2).
  rewrite length_take_le by lia. f_equal. destruct k as [|k]; [done|]. cbn. f_equal. rewrite !take_take. f_equal. lia.
Qed.

(** ** The simulation *)
Lemma zsum_drop_bump l k b h : l !! b = Some h ->
  zsum (drop k (<[b := h + 1]> l)) = zsum (drop k l) + (if bool_decide (b < k)%nat then 0 else 1).
Proof.
  intros E. case_bool_decide.
  - rewrite drop_insert_lt by done. lia.
  - rewrite drop_insert_ge by lia. rewrite (zsum_insert _ _ h); [lia|].
    rewrite lookup_drop. replace (k + (b - k))%nat with b by lia. done.
Qed.

Section Sim.
Variable hash : Z -> Z -> Z.

(** [u] is the monitor, [u0] the monitor that the sampling and the sets are taken from, [c k] the
    cache of [k] ways, [T] a bound of the accesses. *)
Record Rel (u0 u : UMon) (c : nat -> Lru) (T : Z) : Prop := {
  rel_bits : samplingFactorBits u = samplingFactorBits u0 /\ setsBits u = setsBits u0;
  rel_range : forall a, (set_of hash u0 a < length (sets u))%nat;
  rel_pos : (0 < buckets u)%nat;
  rel_buckets : buckets u = buckets u0;
  rel_hits : length (curWayHits u) = buckets u;
  rel_nonneg : Forall (fun h => 0 <= h) (curWayHits u) /\ 0 <= curMisses u;
  rel_total : curMisses u + zsum (curWayHits u) <= T;
  rel_sets : forall i s, sets u !! i = Some s -> exists os, SetOk (buckets u) s os /\
    forall k, (k <= buckets u)%nat -> lru_sets (c k) i = take k os.*2;
  rel_misses : forall k, (k <= buckets u)%nat -> lru_misses (c k) = curMisses u + zsum (drop k (curWayHits u)) }.

Lemma rel_op_unsampled u0 u c T a : Rel u0 u c T -> sampled hash u0 a = false ->
  Rel u0 u (fun k => lru_op hash u0 (Access a) (c k)) (T + 1).
Proof. intros [] E. constructor; try done; cbn; rewrite ?E; try lia; done. Qed.

Lemma rel_after u0 u c T a s' os' hit mis hits : Rel u0 u c T -> sampled hash u0 a = true ->
  SetOk (buckets u) s' os' ->
  (forall k, (k <= buckets u)%nat -> lru_touch a (lru_sets (c k) (set_of hash u0 a)) = (hit k, take k os'.*2)) ->
  length hits = buckets u -> Forall (fun h => 0 <= h) hits /\ 0 <= mis -> mis + zsum hits <= T + 1 ->
  (forall k, (k <= buckets u)%nat -> mis + zsum (drop k hits) =
    curMisses u + zsum (drop k (curWayHits u)) + (if hit k : bool then 0 else 1)) ->
  Rel u0 (set_sets (<[set_of hash u0 a := s']> (sets u)) (set_misses mis (set_hits hits u)))
    (fun k => lru_op hash u0 (Access a) (c k)) (T + 1).
Proof.
  intros [] Hs Hok Ht Hl Hn Htot Hm. constructor; cbn; try done.
  - intros a'. by rewrite length_insert.
  - intros j s Hj. destruct (decide (j = set_of hash u0 a)) as [->|Hne].
    + rewrite list_lookup_insert_eq in Hj by done. simplify_eq. exists os'. split; [done|].
      intros k Hk. rewrite Hs, Ht by done. cbn. apply upd_eq.
    + rewrite list_lookup_insert_ne in Hj by done. destruct (rel_sets0 _ _ Hj) as (os&Hos&Hk).
      exists os. split; [done|]. intros k Hle. rewrite Hs. destruct (lru_touch _ _). cbn. rewrite upd_ne by done. eauto.
  - intros k Hk. rewrite Hs, Ht by done. cbn. rewrite Hm, <- rel_misses0 by done. case_match; lia.
Qed.

Lemma access_rel u0 u c T a : Rel u0 u c T -> T + 1 < two64 ->
  wp (access hash a) (fun _ u' => Rel u0 u' (fun k => lru_op hash u0 (Access a) (c k)) (T + 1)) u.
Proof.
  intros HR HT. pose proof HR as [[Hb1 Hb2] Hr Hp Hbk Hl [Hn Hn'] Htot Hsets Hm].
  unfold access. wp_steps. unfold sampled, set_of. rewrite Hb1, Hb2. fold (sampled hash u0 a) (set_of hash u0 a).
  destruct (sampled hash u0 a) eqn:Es; cbn [negb]; [|wp_steps; by apply rel_op_unsampled].
  wp_steps. destruct (arr_get_lt _ _ (Hr a)) as (s&Hs&Eg). apply wp_lift. rewrite Eg. cbn.
  destruct (Hsets _ _ Hs) as (os&Hos&Hk). pose proof Hos as [Hlen Hseg Hd Hlos].
  destruct (walk_spec (nodes s) a os 0 None (head s)) as (pre&x&v&post&->&Ha&Hcase); [by destruct os|done|].
  wp_steps. apply wp_lift. rewrite Hlos in Hcase.
  destruct Hcase as [[-> Hw]|(Hv&->&Hw)]; rewrite Hw; cbn; wp_steps.
  - rewrite length_app in Hlos. cbn in Hlos. destruct (arr_get_lt (curWayHits u) (length pre)) as (h&Hh&Egh); [lia|].
    apply wp_lift. rewrite Egh. cbn. wp_steps. apply wp_lift. rewrite arr_set_lt by lia. cbn. wp_steps.
    destruct (to_mru_spec _ _ _ _ _ _ Hos) as (s'&Em&Hos'). apply wp_lift. rewrite Em. cbn. wp_steps.
    apply wp_lift. rewrite arr_set_lt by (cbn; apply Hr). cbn. wp_steps.
    pose proof (zsum_elem _ _ _ Hn Hh). assert (0 <= h) by (eapply Forall_lookup_1 in Hn; eauto; done).
    rewrite u64_small by lia.
    apply (rel_after u0 u c T a s' ((x, a) :: pre ++ post) (fun k => bool_decide (length pre < k)%nat) (curMisses u)
      (<[length pre := h + 1]> (curWayHits u))); try done.
    + intros k Hle. rewrite Hk by done. rewrite fmap_app. cbn. rewrite touch_take_present.
      * by rewrite length_fmap, fmap_app.
      * done.
      * rewrite length_app. cbn. rewrite !length_fmap. lia.
    + etrans; [apply length_insert|done].
    + split; [|done]. apply Forall_insert; [done|lia].
    + rewrite (zsum_insert _ _ h) by done. lia.
    + intros k Hle. rewrite zsum_drop_bump by done. case_bool_decide; lia.
  - destruct (set_last _ _ _ _ _ a Hos) as [Hx Hos1]. apply wp_lift. rewrite (arr_get_Some _ _ _ Hx). cbn. wp_steps.
    apply wp_assert; [done|]. wp_steps. apply wp_lift. rewrite arr_set_lt by (by eapply lookup_lt_Some). cbn. wp_steps.
    destruct (to_mru_spec _ _ _ _ _ [] Hos1) as (s'&Em&Hos'). cbn in Em. apply wp_lift. rewrite Em. cbn. wp_steps.
    apply wp_lift. rewrite arr_set_lt by (cbn; apply Hr). cbn. wp_steps.
    pose proof (zsum_nonneg _ Hn). rewrite u64_small by lia.
    apply (rel_after u0 u c T a s' ((x, a) :: pre ++ []) (fun _ => false) (curMisses u + 1) (curWayHits u)); try done; try lia.
    + intros k Hle. rewrite Hk by done. rewrite fmap_app. cbn.
      rewrite touch_take_absent.
      * rewrite length_app, app_nil_r. cbn. rewrite Nat.add_sub, take_app_length. done.
      * rewrite elem_of_app. set_solver.
      * rewrite length_app in *. cbn in *. rewrite length_fmap. lia.
    + split; [done|lia].
Qed.
Lemma zero_hits_spec n : forall b l u, curWayHits u = replicate b 0 ++ l -> length l = n ->
  wp (zero_hits b n) (fun _ u' => u' = set_hits (replicate (b + n) 0) u) u.
Proof.
  induction n as [|n IH]; intros b l u E Hl; cbn [zero_hits]; wp_steps.
  - destruct l; [|done]. rewrite Nat.add_0_r, <- (app_nil_r (replicate b 0)), <- E. by destruct u.
  - destruct l as [|h l]; [done|]. rewrite E. apply wp_lift.
    rewrite arr_set_lt by (rewrite length_app, length_replicate; cbn; lia). cbn. wp_steps.
    rewrite <- (length_replicate b 0) at 1. rewrite insert_app_r_alt, length_replicate by (by rewrite length_replicate).
    rewrite Nat.sub_diag. cbn.
    eapply wp_mono; [eapply (IH (S b) l)|].
    + cbn [curWayHits set_hits]. rewrite replicate_S_end. by rewrite <- app_assoc.
    + by injection Hl.
    + intros [] u' ->. by rewrite Nat.add_succ_r.
Qed.

Lemma nextInterval_rel u0 u c T : Rel u0 u c T -> 0 <= T ->
  wp startNextInterval (fun _ u' => Rel u0 u' (fun k => lru_op hash u0 NextInterval (c k)) (T + 1)) u.
Proof.
  intros [] HT. unfold startNextInterval. wp_steps. cbn [buckets set_misses].
  eapply wp_mono; [apply (zero_hits_spec (buckets u) 0 (curWayHits u)); done|].
  intros [] u' ->.
  assert (forall k, zsum (drop k (replicate (buckets u) 0)) = 0) as Hz.
  { intros k. rewrite drop_replicate. by induction (buckets u - k)%nat. }
  constructor; cbn; try done.
  - apply length_replicate.
  - split; [|done]. by apply Forall_replicate.
  - specialize (Hz O). rewrite drop_0 in Hz. unfold zsum in Hz. lia.
  - intros k Hk. by rewrite Hz.
Qed.

Lemma run_ops_rel u0 ops : forall u c T, Rel u0 u c T -> 0 <= T -> T + Z.of_nat (length ops) < two64 ->
  wp (run_ops hash ops) (fun _ u' => Rel u0 u' (fun k => foldl (fun c o => lru_op hash u0 o c) (c k) ops)
    (T + Z.of_nat (length ops))) u.
Proof.
  induction ops as [|o ops IH]; intros u c T HR HT Hlt; cbn [run_ops foldl length]; wp_steps.
  { by rewrite Z.add_0_r. }
  cbn [length] in Hlt. eapply wp_mono; [instantiate (1 := fun _ u' => Rel u0 u' (fun k => lru_op hash u0 o (c k)) (T + 1))|].
  - destruct o; cbn [run_op]; [apply access_rel; [done|lia]|by apply nextInterval_rel].
  - intros [] u' HR'. eapply wp_mono; [apply (IH _ _ _ HR'); lia|].
    intros [] u'' HR''. by replace (T + Z.of_nat (S (length ops))) with (T + 1 + Z.of_nat (length ops)) by lia.
Qed.
End Sim.

(** ** The constructor *)
Lemma low_mask_ones bits : 0 <= bits <= 64 -> low_mask bits = Z.ones bits.
Proof.
  intros Hb. unfold low_mask. apply Z.bits_inj'. intros i Hi.
  rewrite u64_testbit, Z.lnot_spec, u64_testbit by done.
  change (two64 - 1) with (Z.ones 64). destruct (Z.ltb_spec i 64).
  - rewrite !andb_true_r. destruct (decide (i < bits)).
    + rewrite Z.shiftl_spec_low, Z.ones_spec_low by lia. done.
    + rewrite Z.shiftl_spec, Z.ones_spec_low, Z.ones_spec_high by lia. done.
  - rewrite andb_false_r, Z.ones_spec_high by lia. done.
Qed.

Lemma count_bits_log2 fuel : forall tmp bits, 0 <= tmp -> Z.log2 tmp < Z.of_nat fuel ->
  count_bits fuel tmp bits = bits + Z.log2 tmp.
Proof.
  induction fuel as [|fuel IH]; intros tmp bits Ht Hl; [pose proof (Z.log2_nonneg tmp); lia|]. cbn [count_bits].
  destruct (Z.eqb_spec (Z.shiftr tmp 1) 0) as [E|E].
  - rewrite Z.shiftr_div_pow2 in E by lia. change (2 ^ 1) with 2 in E.
    assert (tmp = 0 \/ tmp = 1) as [->| ->]; [|cbn; lia|cbn; lia].
    pose proof (Z.div_mod tmp 2). pose proof (Z.mod_pos_bound tmp 2). lia.
  - assert (1 < tmp) as H1.
    { destruct (decide (1 < tmp)); [done|].
      exfalso. apply E. assert (tmp = 0 \/ tmp = 1) as [->| ->] by lia; done. }
    pose proof (Z.log2_shiftr tmp 1 ltac:(lia)) as El. pose proof (Z.log2_pos tmp H1).
    rewrite IH by (try apply Z.shiftr_nonneg; lia). lia.
Qed.

Lemma init_seg n : forall j k, (j + k = n)%nat -> (0 < k)%nat ->
  seg (init_node n <$> seq 0 n) (Some j) ((fun x => (x, 0)) <$> seq j k) None.
Proof.
  intros j k. revert j. induction k as [|k IH]; intros j Hj Hk; [lia|]. cbn. split; [done|].
  exists (if (S j <? n)%nat then Some (S j) else None). split.
  - rewrite list_lookup_fmap, lookup_seq_lt by lia. done.
  - destruct k as [|k].
    + destruct (Nat.ltb_spec (S j) n); [lia|done].
    + destruct (Nat.ltb_spec (S j) n); [|lia]. apply IH; lia.
Qed.

Lemma init_set_ok n : (0 < n)%nat -> SetOk n (init_set n) ((fun x => (x, 0)) <$> seq 0 n).
Proof.
  intros Hn. constructor; cbn.
  - by rewrite length_fmap, length_seq.
  - apply init_seg; lia.
  - rewrite <- list_fmap_compose. cbn. rewrite list_fmap_id. apply NoDup_seq.
  - by rewrite length_fmap, length_seq.
Qed.

Lemma init_rel hash bankLines lines bkts : (0 < bkts)%nat ->
  Z.of_nat bkts <= lines < two32 ->
  Rel hash (init bankLines lines bkts) (init bankLines lines bkts) lru_init 0.
Proof.
  intros Hb Hl.
  assert (0 < lines `quot` Z.of_nat bkts < two32) as Hq.
  { rewrite Z.quot_div_nonneg by lia. split; [apply Z.div_str_pos; lia|].
    apply Z.le_lt_trans with lines; [apply Z.div_le_upper_bound; nia|lia]. }
  assert (forall k, zsum (drop k (replicate bkts 0)) = 0) as Hz.
  { intros k. rewrite drop_replicate. by induction (bkts - k)%nat. }
  constructor; cbn; try done.
  - intros a. rewrite length_replicate. unfold set_of. cbn [setsBits init].
    assert (Z.log2 (lines `quot` Z.of_nat bkts) < 32) by (apply Z.log2_lt_pow2; [lia|exact (proj2 Hq)]).
    pose proof (Z.log2_nonneg (lines `quot` Z.of_nat bkts)).
    rewrite count_bits_log2 by lia. rewrite low_mask_ones by lia. rewrite Z.land_ones by lia.
    pose proof (Z.mod_pos_bound (hash 1 a) (2 ^ (0 + Z.log2 (lines `quot` Z.of_nat bkts)))
      ltac:(apply Z.pow_pos_nonneg; lia)).
    pose proof (Z.log2_spec (lines `quot` Z.of_nat bkts)). rewrite Z.add_0_l in *. lia.
  - apply length_replicate.
  - split; [|done]. by apply Forall_replicate.
  - specialize (Hz O). rewrite drop_0 in Hz. unfold zsum in Hz. lia.
  - intros i s [-> _]%lookup_replicate. exists ((fun x => (x, 0)) <$> seq 0 bkts).
    split; [by apply init_set_ok|]. intros k Hk. rewrite <- list_fmap_compose.
    replace (replicate k 0) with (take k (replicate bkts 0)) by (rewrite take_replicate; f_equal; lia).
    f_equal. apply replicate_as_Forall.
    split; [by rewrite length_fmap, length_seq|]. apply Forall_fmap, list.Forall_forall. done.
  - intros k Hk. by rewrite Hz.
Qed.

(** ** The curve *)
Lemma fill_misses_spec hits m n : Forall (fun h => 0 <= h) hits -> 0 <= m -> length hits = n -> m + zsum hits < two64 ->
  forall i misses, (i <= n)%nat -> (n < length misses)%nat ->
  exists r, fill_misses hits i (m + zsum (drop i hits)) misses = Ok r /\
    (forall j, (j <= i)%nat -> r !! j = Some (m + zsum (drop j hits))) /\
    (forall j, (i < j)%nat -> r !! j = misses !! j).
Proof.
  intros Hn Hm Hl Hb i. induction i as [|i IH]; intros misses Hi Hlen; cbn [fill_misses].
  - rewrite arr_set_lt by lia. eexists. split; [done|]. split.
    + intros j ?. replace j with O by lia. apply list_lookup_insert_eq. lia.
    + intros j ?. by rewrite list_lookup_insert_ne by lia.
  - rewrite arr_set_lt by lia. cbn. destruct (arr_get_lt hits i) as (h&Hh&E); [lia|]. rewrite E. cbn.
    assert (m + zsum (drop (S i) hits) + h = m + zsum (drop i hits)) as Es.
    { rewrite (drop_S _ h i) by done. cbn [zsum foldr]. unfold zsum. lia. }
    assert (zsum (drop i hits) <= zsum hits).
    { rewrite <- (take_drop i hits) at 2. rewrite <- (firstn_skipn i hits) in Hn.
      apply Forall_app in Hn as [Hn1 Hn2].
      assert (zsum (take i hits ++ drop i hits) = zsum (take i hits) + zsum (drop i hits)) as ->.
      { clear. unfold zsum. induction (take i hits); cbn; lia. }
      pose proof (zsum_nonneg _ Hn1). lia. }
    pose proof (zsum_nonneg _ (Forall_drop _ i _ Hn)).
    rewrite u64_small, Es by lia.
    destruct (IH (<[S i := m + zsum (drop (S i) hits)]> misses)) as (r&Er&H1&H2); [lia|by rewrite length_insert|].
    exists r. split; [done|]. split.
    + intros j Hj. destruct (decide (j = S i)) as [->|]; [|apply H1; lia].
      rewrite H2 by lia. apply list_lookup_insert_eq. lia.
    + intros j Hj. rewrite H2 by lia. by rewrite list_lookup_insert_ne by lia.
Qed.

(** C29: (the stack property) After any sequence of accesses and interval starts, entry
    [k] of the miss curve of a monitor is the number of misses that an LRU cache of
    [k] ways per set had on the sampled accesses of the interval, for every [k] up to
    the number of buckets at once; no access fails, and the caller's array needs
    one entry more than there are buckets. *)
Theorem umon_miss_curve (hash : Z -> Z -> Z) (bankLines lines : Z) (bkts : nat) (ops : list op) (misses : list Z) :
  (0 < bkts)%nat -> Z.of_nat bkts <= lines < two32 ->
  Z.of_nat (length ops) < two64 -> (bkts < length misses)%nat ->
  let u0 := init bankLines lines bkts in
  exists u r, run_ops hash ops u0 = Ok (tt, u) /\ getMisses u misses = Ok r /\
    forall k, (k <= bkts)%nat -> r !! k = Some (lru_misses (lru_run hash u0 ops k)).
Proof.
  intros Hb Hl Hops Hlen u0.
  destruct (wp_elim _ _ _ (run_ops_rel hash u0 ops u0 lru_init 0 (init_rel hash _ _ _ Hb Hl) ltac:(lia) ltac:(lia)))
    as ([]&u&Hu&HR).
  pose proof HR as [_ _ _ Hbu Hlh [Hn Hm] Ht _ Hmiss]. change (buckets u0) with bkts in Hbu.
  destruct (fill_misses_spec (curWayHits u) (curMisses u) bkts) with (i := bkts) (misses := misses)
    as (r&Er&Hr&_); [done|done|congruence|lia|lia|done|].
  exists u, r. split; [done|]. split.
  - unfold getMisses. rewrite Hbu, <- Er. f_equal. rewrite drop_ge by lia. cbn. lia.
  - intros k Hk. rewrite Hr by done. rewrite <- Hmiss by lia. done.
Qed.

(** Two sets of four ways, a line in eight sampled: the curve of a short run. *)
Definition example_ops : list op := [Access 8; Access 16; NextInterval; Access 8; Access 24; Access 16; Access 16].
Lemma umon_miss_curve_witness : exists u r, run_ops (fun i a => if i =? 0 then a else 0) example_ops (init 64 8 4) = Ok (tt, u) /\
  getMisses u [0; 0; 0; 0; 0] = Ok r /\ r !! 2%nat = Some 2.
Proof.
  destruct (umon_miss_curve (fun i a => if i =? 0 then a else 0) 64 8 4 example_ops [0; 0; 0; 0; 0]) as (u&r&E1&E2&H);
    [lia|unfold two32; lia|by vm_compute|cbn; lia|].
  exists u, r. split; [done|]. split; [done|]. rewrite H by lia. by vm_compute.
Defined.
End UM.
