(* ===== verification/Double.v ===== *)
(** * The C++ type double

    IEEE 754 double precision, rounding to nearest even, as the Standard Library's
    [SpecFloat] computes it: the conversions from and to unsigned integers and the
    operations that the partitioning code uses, and what is needed of them, that
    quotients of unsigned integers are not negative and that the order of such
    numbers is an order. *)

From Stdlib Require Import SpecFloat.
From S2P Require Import Prelude.

Definition double : Type := spec_float.

(** [(double) z] for an integer. *)
Definition d_of_Z (z : Z) : double := binary_normalize 53 1024 z 0 false.
Definition dadd : double -> double -> double := SFadd 53 1024.
Definition dsub : double -> double -> double := SFsub 53 1024.
Definition dmul : double -> double -> double := SFmul 53 1024.
Definition ddiv : double -> double -> double := SFdiv 53 1024.
Definition dlt (x y : double) : bool := SFltb x y.
Definition dle (x y : double) : bool := SFleb x y.

(** [(uint64_t) x]: truncation; the conversion of a NaN, an infinity or a number out of range is
    undefined. *)
Definition d_to_u64 (x : double) : res Z :=
  match x with
  | S754_zero _ => Ok 0
  | S754_finite false m e =>
      let v := Z.shiftl (Zpos m) e in
      if v <? two64 then Ok v else Err (Panic "double out of range")
  | _ => Err (Panic "double out of range")
  end.
Definition d_to_u32 (x : double) : res Z :=
  v ← d_to_u64 x; if v <? two32 then Ok v else Err (Panic "double out of range").

(** ** Numbers that are not negative *)
Definition nn (x : double) : bool :=
  match x with S754_zero _ | S754_infinity false | S754_finite false _ _ => true | _ => false end.
(** Positive and finite. *)
Definition pos_finite (x : double) : bool := match x with S754_finite false _ _ => true | _ => false end.

Lemma iter_pos_inv {A} (f : A -> A) (P : A -> Prop) : (forall x, P x -> P (f x)) ->
  forall p x, P x -> P (SpecFloat.iter_pos f p x).
Proof. intros Hf p. induction p as [p IH|p IH|]; cbn; intros x Hx; auto. Qed.

Lemma shr_1_nonneg r : 0 <= shr_m r -> 0 <= shr_m (shr_1 r).
Proof. destruct r as [m rr s]. cbn. destruct m as [|[p|p|]|p]; cbn; lia. Qed.

Lemma shr_fexp_nonneg prec emax m e l : 0 <= m -> 0 <= shr_m (shr_fexp prec emax m e l).1.
Proof.
  intros Hm. unfold shr_fexp, shr.
  assert (0 <= shr_m (shr_record_of_loc m l)) by (by destruct l as [|[]]).
  destruct (fexp _ _ _ - e); cbn; [done| |done]. by apply iter_pos_inv; [apply shr_1_nonneg|].
Qed.

Lemma round_nonneg m l : 0 <= m -> 0 <= round_nearest_even m l.
Proof. intros. destruct l as [|[]]; cbn; try case_match; lia. Qed.

Lemma round_aux_nn prec emax m e l : 0 <= m -> nn (binary_round_aux prec emax false m e l) = true.
Proof.
  intros Hm. unfold binary_round_aux.
  pose proof (shr_fexp_nonneg prec emax m e l Hm) as H1.
  destruct (shr_fexp prec emax m e l) as [r1 e1]. cbn in H1.
  set (m2 := round_nearest_even _ _).
  assert (0 <= m2) as H2 by (by apply round_nonneg).
  pose proof (shr_fexp_nonneg prec emax m2 e1 loc_Exact H2) as H3.
  destruct (shr_fexp prec emax m2 e1 loc_Exact) as [r2 e2]. cbn in H3.
  destruct (shr_m r2); [done| |lia]. by case_match.
Qed.

Lemma d_of_Z_nn z : 0 <= z -> nn (d_of_Z z) = true.
Proof.
  intros Hz. unfold d_of_Z, binary_normalize. destruct z as [|p|p]; [done| |lia].
  unfold binary_round. destruct (shl_align p 0 _). by apply round_aux_nn.
Qed.

Lemma ddiv_nn x y : nn x = true -> pos_finite y = true -> nn (ddiv x y) = true.
Proof.
  intros Hx Hy. destruct y as [| | |[] my ey]; try done.
  destruct x as [sx|[]| |[] mx ex]; try done. unfold ddiv, SFdiv.
  destruct (SFdiv_core_binary 53 1024 (Zpos mx) ex (Zpos my) ey) as [[q e] l] eqn:E.
  unfold SFdiv_core_binary in E.
  set (m' := match _ with Z0 => _ | Zpos _ => _ | Zneg _ => _ end) in E.
  destruct (Z.div_eucl m' (Zpos my)) as [q' r] eqn:Eq. injection E as <- <- <-.
  apply round_aux_nn. pose proof (Z.div_pos m' (Zpos my)) as H. unfold Z.div in H. rewrite Eq in H.
  apply H; [|done]. unfold m'. case_match; [done|apply Z.shiftl_nonneg; lia|lia].
Qed.

(** ** The order *)
Lemma nn_above_minus_one x : nn x = true -> dlt (d_of_Z (-1)) x = true.
Proof. by destruct x as [|[]| |[]]. Qed.

Lemma dlt_irrefl x : dlt x x = false.
Proof.
  unfold dlt, SFltb. destruct x as [| s | |s m e]; cbn; try done.
  - by destruct s.
  - destruct s; rewrite Z.compare_refl; change (Pos.compare_cont Eq m m) with (Pos.compare m m);
      by rewrite Pos.compare_refl.
Qed.

(** What is not above [x] is not above anything larger. *)
Lemma dlt_upper x y c : nn x = true -> nn y = true -> nn c = true ->
  dlt x c = false -> dlt x y = true -> dlt y c = false.
Proof.
  unfold dlt, SFltb. destruct x as [|[]| |[] m1 e1]; destruct y as [|[]| |[] m2 e2];
    destruct c as [|[]| |[] m3 e3]; cbn; intros; try done.
  change (Pos.compare_cont Eq ?a ?b) with (Pos.compare a b) in *.
  destruct (Z.compare_spec e1 e3), (Z.compare_spec e1 e2), (Z.compare_spec e2 e3);
    destruct (Pos.compare_spec m1 m3), (Pos.compare_spec m1 m2), (Pos.compare_spec m2 m3);
    subst; try done; lia.
Qed.

Lemma dge_trans x y c : nn x = true -> nn y = true -> nn c = true ->
  dlt x y = false -> dlt y c = false -> dlt x c = false.
Proof.
  unfold dlt, SFltb. destruct x as [|[]| |[] m1 e1]; destruct y as [|[]| |[] m2 e2];
    destruct c as [|[]| |[] m3 e3]; cbn; intros; try done.
  change (Pos.compare_cont Eq ?a ?b) with (Pos.compare a b) in *.
  destruct (Z.compare_spec e1 e3), (Z.compare_spec e1 e2), (Z.compare_spec e2 e3);
    destruct (Pos.compare_spec m1 m3), (Pos.compare_spec m1 m2), (Pos.compare_spec m2 m3);
    subst; try done; lia.
Qed.

(** ** Small integers are exact *)
Lemma digits2_pos_log2 p : Z.pos (digits2_pos p) = Z.log2 (Z.pos p) + 1.
Proof.
  induction p as [p IH|p IH|]; cbn [digits2_pos]; [| |done].
  - rewrite Pos2Z.inj_succ, IH. change (Z.pos p~1) with (2 * Z.pos p + 1). rewrite Z.log2_succ_double; lia.
  - rewrite Pos2Z.inj_succ, IH. change (Z.pos p~0) with (2 * Z.pos p). rewrite Z.log2_double; lia.
Qed.

Lemma iter_xO p d : Z.pos (Pos.iter xO p d) = Z.pos p * 2 ^ Z.pos d.
Proof.
  induction d as [|d IH] using Pos.peano_ind; [cbn; lia|].
  rewrite Pos.iter_succ, Pos2Z.inj_succ, Z.pow_succ_r by lia.
  change (Z.pos (Pos.iter xO p d)~0) with (2 * Z.pos (Pos.iter xO p d)). rewrite IH. lia.
Qed.

(** An integer of at most 53 bits converts to itself, scaled. *)
Lemma d_of_Z_exact z : 0 < z < 2 ^ 53 -> exists m e, d_of_Z z = S754_finite false m e /\ e <= 0 /\ Z.pos m = z * 2 ^ (- e).
Proof.
  intros Hz. destruct z as [|p|p]; [lia| |lia].
  unfold d_of_Z, binary_normalize, binary_round.
  assert (Hl : 0 <= Z.log2 (Z.pos p) < 53) by (split; [apply Z.log2_nonneg|apply Z.log2_lt_pow2; lia]).
  rewrite digits2_pos_log2. set (l := Z.log2 (Z.pos p)) in *.
  assert (Hf : fexp 53 1024 (l + 1 + 0) = l - 52) by (unfold fexp, SpecFloat.emin; lia).
  assert (Hsh : exists mz, shl_align p 0 (fexp 53 1024 (l + 1 + 0)) = (mz, l - 52) /\ Z.pos mz = Z.pos p * 2 ^ (52 - l)).
  { rewrite Hf. unfold shl_align. destruct (decide (l = 52)) as [->|Hne].
    - exists p. cbn. split; [done|lia].
    - destruct (l - 52 - 0) as [|d|d] eqn:Ed; try lia. eexists. split; [done|]. rewrite iter_xO.
      replace (52 - l) with (Z.pos d) by lia. done. }
  destruct Hsh as (mz&->&Hm).
  assert (Hlm : Z.log2 (Z.pos mz) = 52).
  { rewrite Hm, Z.log2_mul_pow2 by lia. fold l. lia. }
  assert (Hx : forall r, shr_fexp 53 1024 (Z.pos mz) (l - 52) r = (shr_record_of_loc (Z.pos mz) r, l - 52)).
  { intros r. unfold shr_fexp. cbn [Zdigits2]. rewrite digits2_pos_log2, Hlm.
    replace (52 + 1 + (l - 52)) with (l + 1 + 0) by lia. rewrite Hf, Z.sub_diag. done. }
  exists mz, (l - 52). split; [|split; [lia|by replace (- (l - 52)) with (52 - l) by lia]].
  unfold binary_round_aux. rewrite Hx. cbn [shr_record_of_loc shr_m loc_of_shr_record round_nearest_even].
  rewrite Hx. cbn [shr_record_of_loc shr_m]. clearbody l. destruct (Z.leb_spec (l - 52) (1024 - 53)); [done|lia].
Qed.

Lemma d_of_Z_pos z : 0 < z < 2 ^ 53 -> pos_finite (d_of_Z z) = true.
Proof. intros H. by destruct (d_of_Z_exact z H) as (m&e&->&_). Qed.
