(* ===== verification/EventQueue.v ===== *)
(** * The phase-driven event queue (src/src/event_queue.h)

    [EventQueue] is a multimap from phases to events, ticked once per phase;
    [AdaptiveEvent] sets its own period so as to fire at the first phase at which a
    measured quantity reaches a target.  The callbacks of the events are virtual: they are
    parameters of the queue. *)

From stdpp Require Import sorting.
From S2P Require Import Prelude.

Module EQ.
(** [evMap] in iteration order: sorted by phase, events of one phase in the order of
    their insertion. *)
Record t := mk { evMap : list (Z * nat); deleted : list nat }.

(** [std::multimap::insert] puts a new element after those with the same key. *)
Fixpoint ev_insert (m : list (Z * nat)) (phase : Z) (ev : nat) : list (Z * nat) :=
  match m with
  | [] => [(phase, ev)]
  | (p, e) :: m' => if p <=? phase then (p, e) :: ev_insert m' phase ev else (phase, ev) :: m
  end.

Section Queue.
(** The world the callbacks act on, and the virtual methods of the events. *)
Context {W : Type} (callback : nat -> W -> res W) (getPeriod : W -> nat -> Z).

Fixpoint tick_loop (fuel : nat) (curPhase : Z) (q : t) (w : W) : res (t * W) :=
  match evMap q with
  | [] => Ok (q, w)
  | (p, ev) :: m =>
    if p <=? curPhase then
      match fuel with
      | O => Err OutOfFuel
      | S fuel =>
        if negb (p =? curPhase) then Err (Panic "First event should have ticked on an earlier phase")
        else
          w ← callback ev w;
          let period := getPeriod w ev in
          if negb (period =? 0)
          then tick_loop fuel curPhase (mk (ev_insert m (u64 (curPhase + period)) ev) (deleted q)) w
          else tick_loop fuel curPhase (mk m (deleted q ++ [ev])) w
      end
    else Ok (q, w)
  end.
Definition tick (curPhase : Z) (q : t) (w : W) : res (t * W) :=
  tick_loop (length (evMap q)) curPhase q w.

Definition insert (curPhase : Z) (q : t) (w : W) (ev : nat) (startDelay : Z) : res t :=
  let eventPhase := if startDelay =? -1 then u64 (curPhase + getPeriod w ev) else u64 (curPhase + startDelay) in
  rassert (curPhase <=? eventPhase) "eventPhase >= curPhase";;
  mret (mk (ev_insert (evMap q) eventPhase ev) (deleted q)).

(** What a tick means: the due events fire in order; those with a period are scheduled
    again, the others are disposed of. *)
Fixpoint fire_all (curPhase : Z) (evs : list nat) (m : list (Z * nat)) (del : list nat) (w : W)
  : res (list (Z * nat) * list nat * W) :=
  match evs with
  | [] => Ok (m, del, w)
  | ev :: evs =>
    w ← callback ev w;
    let period := getPeriod w ev in
    if period =? 0 then fire_all curPhase evs m (del ++ [ev]) w
    else fire_all curPhase evs (ev_insert m (curPhase + period) ev) del w
  end.

Definition by_phase (m : list (Z * nat)) : Prop := StronglySorted (fun a b => fst a <= fst b) m.
Definition due (c : Z) (m : list (Z * nat)) : list nat := map snd (filter (fun a => fst a = c) m).
Definition later (c : Z) (m : list (Z * nat)) : list (Z * nat) := filter (fun a => c < fst a) m.

Lemma ev_insert_elem m p ev a : a ∈ ev_insert m p ev <-> a = (p, ev) \/ a ∈ m.
Proof.
  induction m as [|[q e] m IH]; cbn [ev_insert]; [set_solver|]. destruct (q <=? p); rewrite ?elem_of_cons, ?IH; tauto.
Qed.
Lemma ev_insert_sorted m p ev : by_phase m ->
  by_phase (ev_insert m p ev).
Proof.
  induction 1 as [|[q e] m Hs IH Hf]; cbn [ev_insert]; [by repeat constructor|].
  destruct (Z.leb_spec q p).
  - constructor; [done|]. apply list.Forall_forall. intros a Ha. apply ev_insert_elem in Ha as [->|Ha]; [done|].
    eapply list.Forall_forall in Hf; [|done]. done.
  - constructor; [by constructor|]. constructor; [cbn; lia|].
    eapply Forall_impl; [|exact Hf]. intros a. cbn. lia.
Qed.

(** An insertion past the due events commutes with them. *)
Lemma ev_insert_app_due c ds m p ev : c < p -> Forall (fun a => fst a = c) ds ->
  ev_insert (ds ++ m) p ev = ds ++ ev_insert m p ev.
Proof.
  intros Hp. induction 1 as [|[q e] ds Hq _ IH]; [done|]. cbn in Hq |- *. subst q.
  rewrite (proj2 (Z.leb_le c p)) by lia. by rewrite IH.
Qed.

Lemma tick_loop_fires ds : forall fuel c m del w,
  (length ds <= fuel)%nat -> Forall (fun a => c < fst a) m -> 0 <= c ->
  (forall ev w, 0 <= getPeriod w ev /\ c + getPeriod w ev < two64) ->
  tick_loop fuel c (mk (map (fun e => (c, e)) ds ++ m) del) w =
  '(m', del', w') ← fire_all c ds m del w; Ok (mk m' del', w').
Proof.
  induction ds as [|ev ds IH]; intros fuel c m del w Hf Hm Hc Hp.
  - cbn [map app fire_all]. destruct m as [|[p e] m]; destruct fuel; cbn [tick_loop evMap]; try done.
    all: apply Forall_cons_1 in Hm as [Hp0 _]; cbn in Hp0; rewrite (proj2 (Z.leb_gt p c)) by lia; done.
  - cbn in Hf. destruct fuel as [|fuel]; [lia|]. cbn [map app tick_loop evMap fire_all].
    rewrite Z.leb_refl, Z.eqb_refl. cbn [negb]. destruct (callback ev w) as [w'|f] eqn:Ecb; [|done].
    cbn [mbind res_bind deleted]. destruct (Z.eqb_spec (getPeriod w' ev) 0) as [E0|E0]; cbn [negb].
    + by apply IH; [lia|..].
    + destruct (Hp ev w') as [Hp0 Hp1]. rewrite u64_small by lia.
      rewrite (ev_insert_app_due c); [|lia|].
      * apply IH; [lia| |done|done]. apply list.Forall_forall. intros a Ha.
        apply ev_insert_elem in Ha as [->|Ha]; [cbn; lia|]. eapply list.Forall_forall in Hm; [|done]. done.
      * apply list.Forall_forall. intros a Ha. apply list_elem_of_In, in_map_iff in Ha as (e & <- & _). done.
Qed.

(** A queue none of whose events is overdue splits at the current phase. *)
Lemma split_due c m :
  by_phase m -> Forall (fun a => c <= fst a) m ->
  m = map (fun e => (c, e)) (due c m) ++ later c m /\ Forall (fun a => c < fst a) (later c m).
Proof.
  intros Hs. induction Hs as [|[p e] m Hs IH Hf]; intros Hle; [done|].
  apply Forall_cons_1 in Hle as [Hp Hle]. destruct (IH Hle) as [E HL]. unfold due, later in *. cbn in Hp.
  rewrite !filter_cons. cbn. destruct (decide (p = c)) as [->|Hne].
  - rewrite (decide_False (P := c < c)) by lia. cbn [map app]. by rewrite <- E.
  - rewrite (decide_True (P := c < p)) by lia.
    assert (Hno : filter (fun a : Z * nat => fst a = c) m = []).
    { destruct (filter _ m) as [|a l] eqn:Ef; [done|]. exfalso.
      assert (Ha : a ∈ filter (fun a : Z * nat => fst a = c) m) by (rewrite Ef; left).
      apply list_elem_of_filter in Ha as [Ha Hin]. eapply list.Forall_forall in Hf; [|exact Hin]. cbn in Hf. lia. }
    rewrite Hno in *. cbn [map app] in *. split; [by rewrite <- E|]. constructor; [cbn; lia|done].
Qed.

Lemma fire_all_keeps c evs : forall m del w m' del' w',
  by_phase m -> Forall (fun a => c < fst a) m ->
  (forall ev w, 0 <= getPeriod w ev /\ c + getPeriod w ev < two64) ->
  fire_all c evs m del w = Ok (m', del', w') ->
  by_phase m' /\ Forall (fun a => c < fst a) m'.
Proof.
  induction evs as [|ev evs IH]; intros m del w m' del' w' Hs Hm Hp; cbn [fire_all]; [by intros [= <- <- <-]|].
  destruct (callback ev w) as [w1|]; [|done]. cbn [mbind res_bind].
  destruct (Z.eqb_spec (getPeriod w1 ev) 0) as [E0|E0]; intros HE.
  - by eapply IH.
  - destruct (Hp ev w1). eapply IH; [by apply ev_insert_sorted| |done|exact HE].
    apply list.Forall_forall. intros a Ha. apply ev_insert_elem in Ha as [->|Ha]; [cbn; lia|].
    eapply list.Forall_forall in Hm; [|done]. done.
Qed.

(** The state of the queue before the tick of phase [c]. *)
Definition Ready (c : Z) (q : t) : Prop := by_phase (evMap q) /\ Forall (fun a => c <= fst a) (evMap q).
End Queue.

(** A tick fires exactly the events of the current phase, each once, in the order they
    were inserted, whatever their callbacks do; the ones whose callback leaves a non-zero
    period are scheduled that many phases later, the others are disposed of, and the
    loop ends.  If the queue had no overdue event, it has none at the next phase, so the
    panic about a late event cannot happen on a queue that is ticked every phase. *)
Theorem tick_fires_due {W} (callback : nat -> W -> res W) getPeriod c q w :
  Ready c q -> 0 <= c -> (forall ev w, 0 <= getPeriod w ev /\ c + getPeriod w ev < two64) ->
  tick callback getPeriod c q w =
    ('(m, del, w') ← fire_all callback getPeriod c (due c (evMap q)) (later c (evMap q)) (deleted q) w;
     Ok (mk m del, w')) /\
  (forall q' w', tick callback getPeriod c q w = Ok (q', w') -> Ready (c + 1) q').
Proof.
  intros [Hs Hle] Hc Hp. destruct (split_due c (evMap q) Hs Hle) as [E HL].
  assert (HT : tick callback getPeriod c q w =
    ('(m, del, w') ← fire_all callback getPeriod c (due c (evMap q)) (later c (evMap q)) (deleted q) w; Ok (mk m del, w'))).
  { unfold tick. destruct q as [m del]. cbn [evMap deleted] in *. rewrite E at 2.
    apply tick_loop_fires; [|done|done|done]. rewrite E at 2. rewrite length_app, length_map. lia. }
  assert (HL' : by_phase (later c (evMap q))).
  { unfold by_phase in Hs. rewrite E in Hs. by apply StronglySorted_app_1_r in Hs. }
  split; [done|]. intros q' w' Hok. rewrite HT in Hok.
  destruct (fire_all _ _ _ _ _ _ _) as [[[m' del'] w1]|] eqn:Ef; [|done]. injection Hok as <- <-.
  destruct (fire_all_keeps callback getPeriod c _ _ _ _ _ _ _ HL' HL Hp Ef) as [Hs' Hm'].
  split; [done|]. eapply Forall_impl; [|exact Hm']. intros a. cbn. lia.
Qed.

(** Two periodic events and a one-shot one; the world counts the calls. *)
Definition demo_q : t := mk [(5, 0%nat); (5, 1%nat); (6, 2%nat)] [].
Definition demo_callback (ev : nat) (w : list nat) : res (list nat) := Ok (w ++ [ev]).
Definition demo_period (w : list nat) (ev : nat) : Z := match ev with O => 10 | 1%nat => 0 | _ => 1 end.

Lemma tick_fires_due_witness :
  tick demo_callback demo_period 5 demo_q [] = Ok (mk [(6, 2%nat); (15, 0%nat)] [1%nat], [0; 1]%nat) /\
  Ready 6 (mk [(6, 2%nat); (15, 0%nat)] [1%nat]).
Proof.
  destruct (tick_fires_due demo_callback demo_period 5 demo_q []) as [E HR].
  - split; repeat constructor; cbn; lia.
  - lia.
  - intros ev w. unfold demo_period, two64. destruct ev as [|[|]]; lia.
  - split; [rewrite E; reflexivity|]. apply (HR _ [0; 1]%nat). rewrite E. reflexivity.
Defined.
End EQ.

(** ** Adaptive events *)
Module Adaptive.
Record t := mk { period : Z; target : Z; maxRate : Z }.

(** Unsigned division by zero is a fault. *)
Definition udiv (a b : Z) : res Z := if b =? 0 then Err (Panic "division by zero") else Ok (a / b).

Definition init (start target maxRate : Z) : res t :=
  rassert (start <=? target) "target >= _start";;
  period ← udiv (target - start) maxRate;
  mret (mk (if period =? 0 then 1 else period) target maxRate).

(** [callback], given the value [cur] of [get()]: did [fire()] run, and the event after. *)
Definition callback (cur : Z) (e : t) : res (bool * t) :=
  if target e <=? cur then
    rassert (cur - target e <=? maxRate e) "cur - target <= maxRate";;
    mret (true, mk 0 (target e) (maxRate e))
  else
    period ← udiv (target e - cur) (maxRate e);
    mret (false, mk (if period =? 0 then 1 else period) (target e) (maxRate e)).

(** The event in the queue: it is called at phase [p] and, until it fires, again [period]
    phases later.  [g p] is the value measured at phase [p]; the result is the phase of
    the firing. *)
Fixpoint run (g : nat -> Z) (fuel : nat) (p : nat) (e : t) : res nat :=
  match fuel with
  | O => Err OutOfFuel
  | S fuel =>
    '(fired, e) ← callback (g p) e;
    if fired : bool then Ok p else run g fuel (p + Z.to_nat (period e)) e
  end.

Section Fires.
Variables (g : nat -> Z) (rate tgt : Z).
Hypothesis rate_pos : 0 < rate.
Hypothesis mono : forall p, g p <= g (S p) <= g p + rate.

Lemma g_mono p q : (p <= q)%nat -> g p <= g q.
Proof. induction 1 as [|q Hq IH]; [lia|]. pose proof (mono q). lia. Qed.
Lemma g_rate p n : g (p + n) <= g p + Z.of_nat n * rate.
Proof.
  induction n as [|n IH]; [rewrite Nat.add_0_r; lia|]. rewrite Nat.add_succ_r. pose proof (mono (p + n)). lia.
Qed.

(** The period computed at [p] never skips the phase at which the target is reached. *)
Definition next_period (cur : Z) : Z := if (tgt - cur) / rate =? 0 then 1 else (tgt - cur) / rate.
Lemma next_period_pos cur : cur <= tgt -> 1 <= next_period cur.
Proof. intros H. unfold next_period. pose proof (Z.div_pos (tgt - cur) rate). case_match; lia. Qed.
Lemma next_period_before p q : g p <= tgt -> (p < q)%nat -> (q < p + Z.to_nat (next_period (g p)))%nat -> g q < tgt.
Proof.
  intros Hp Hpq Hq. unfold next_period in Hq. destruct (Z.eqb_spec ((tgt - g p) / rate) 0) as [|Hd]; [lia|].
  pose proof (Z.mul_div_le (tgt - g p) rate rate_pos). pose proof (Z.div_pos (tgt - g p) rate).
  pose proof (g_rate p (q - p)) as Hg. replace (p + (q - p))%nat with q in Hg by lia. nia.
Qed.
Lemma next_period_close p : g p <= tgt -> g (p + Z.to_nat (next_period (g p))) - tgt <= rate.
Proof.
  intros Hp. pose proof (g_rate p (Z.to_nat (next_period (g p)))) as Hg. unfold next_period in *.
  pose proof (Z.mul_div_le (tgt - g p) rate rate_pos). pose proof (Z.div_pos (tgt - g p) rate).
  destruct (Z.eqb_spec ((tgt - g p) / rate) 0); nia.
Qed.

(** [P] is the first phase after [p0] that reaches the target. *)
Variables (p0 P : nat).
Hypothesis HP0 : (p0 < P)%nat.
Hypothesis HP : tgt <= g P.
Hypothesis Hfirst : forall q, (p0 < q < P)%nat -> g q < tgt.

Lemma run_fires fuel : forall p e,
  (P - p < fuel)%nat -> (p0 < p <= P)%nat -> g p - tgt <= rate -> target e = tgt -> maxRate e = rate ->
  run g fuel p e = Ok P.
Proof using All.
  induction fuel as [|fuel IH]; intros p e Hf Hp Hclose Ht Hr; [lia|]. cbn [run]. unfold callback.
  rewrite Ht, Hr. destruct (Z.leb_spec tgt (g p)) as [Hge|Hlt].
  - rewrite (proj2 (Z.leb_le _ _)) by lia. cbn [rassert mbind res_bind mret res_ret].
    f_equal. destruct (decide (p = P)); [done|]. pose proof (Hfirst p). lia.
  - unfold udiv. rewrite (proj2 (Z.eqb_neq rate 0)) by lia. cbn [mbind res_bind mret res_ret].
    change (if (tgt - g p) / rate =? 0 then 1 else (tgt - g p) / rate) with (next_period (g p)).
    pose proof (next_period_pos (g p)). assert (p <> P) by (intros ->; lia).
    assert (p + Z.to_nat (next_period (g p)) <= P)%nat.
    { destruct (decide (p + Z.to_nat (next_period (g p)) <= P)%nat); [done|].
      pose proof (next_period_before p P). lia. }
    apply IH; cbn; [lia|lia| |done|done]. apply next_period_close. lia.
Qed.
End Fires.

(** An adaptive event fires at exactly the first phase after its insertion at which
    the measured value reaches the target, and the assertion on [maxRate] holds, for
    every value that grows by at most [maxRate] per phase.  [p0] is the phase of the
    insertion, [P] the first later phase that reaches the target. *)
Theorem adaptive_fires_on_time (g : nat -> Z) rate tgt p0 P :
  0 < rate -> (forall p, g p <= g (S p) <= g p + rate) ->
  g p0 <= tgt -> (p0 < P)%nat -> tgt <= g P -> (forall q, (p0 < q < P)%nat -> g q < tgt) ->
  exists e, init (g p0) tgt rate = Ok e /\ run g (P - p0) (p0 + Z.to_nat (period e)) e = Ok P.
Proof.
  intros Hr Hm Hs Hlt HP Hf. exists (mk (next_period rate tgt (g p0)) tgt rate). split.
  - unfold init, udiv. rewrite (proj2 (Z.leb_le _ _) Hs), (proj2 (Z.eqb_neq rate 0)) by lia. done.
  - cbn [period]. pose proof (next_period_pos rate tgt Hr (g p0) Hs).
    apply (run_fires g rate tgt Hr Hm p0 P); try done; [lia| |].
    + split; [lia|]. destruct (decide (p0 + Z.to_nat (next_period rate tgt (g p0)) <= P)%nat); [done|].
      pose proof (next_period_before g rate tgt Hr Hm p0 P). lia.
    + by apply next_period_close.
Qed.

Definition demo_g (p : nat) : Z := Z.of_nat p * 3.
Lemma adaptive_fires_on_time_witness :
  exists e, init (demo_g 2) 100 10 = Ok e /\ run demo_g 32 (2 + Z.to_nat (period e)) e = Ok 34%nat.
Proof.
  apply (adaptive_fires_on_time demo_g 10 100 2 34).
  - lia.
  - intros p. unfold demo_g. lia.
  - unfold demo_g. lia.
  - lia.
  - unfold demo_g. lia.
  - intros q Hq. unfold demo_g. lia.
Defined.
End Adaptive.
