(* ===== verification/MemHier.v ===== *)
(** * Types of the memory hierarchy (src/src/memory_hierarchy.h, .cpp) *)

From S2P Require Import Prelude.

(** Accesses go from a child to its parent (core, L1, L2, ...). *)
Inductive AccessType := GETS | GETX | PUTS | PUTX.
(** Invalidations go from a parent to its children. *)
Inductive InvType := INV | INVX | FWD.
(** [enum MESIState {I, S, E, M}]; prefixed here because [S] is Rocq's successor. *)
Inductive MESIState := StI | StS | StE | StM.

#[global] Instance AccessType_eq_dec : EqDecision AccessType.
Proof. solve_decision. Defined.
#[global] Instance InvType_eq_dec : EqDecision InvType.
Proof. solve_decision. Defined.
#[global] Instance MESIState_eq_dec : EqDecision MESIState.
Proof. solve_decision. Defined.
#[global] Instance MESIState_inhabited : Inhabited MESIState := populate StI.

(** The enumerators' integer values, which index the name tables. *)
Definition AccessType_num (t : AccessType) : nat :=
  match t with GETS => 0 | GETX => 1 | PUTS => 2 | PUTX => 3 end.
Definition InvType_num (t : InvType) : nat :=
  match t with INV => 0 | INVX => 1 | FWD => 2 end.
Definition MESIState_num (s : MESIState) : nat :=
  match s with StI => 0 | StS => 1 | StE => 2 | StM => 3 end.

Definition accessTypeNames : list string := ["GETS"; "GETX"; "PUTS"; "PUTX"]%string.
Definition invTypeNames : list string := ["INV"; "INVX"]%string.
Definition mesiStateNames : list string := ["I"; "S"; "E"; "M"]%string.

Definition AccessTypeName (t : AccessType) : res string :=
  from_opt (accessTypeNames !! AccessType_num t) "AccessTypeName got an out-of-range input".
Definition InvTypeName (t : InvType) : res string :=
  from_opt (invTypeNames !! InvType_num t) "InvTypeName got an out-of-range input".
Definition MESIStateName (s : MESIState) : res string :=
  from_opt (mesiStateNames !! MESIState_num s) "MESIStateName got an out-of-range input".

Definition IsGet (t : AccessType) : bool :=
  bool_decide (t = GETS) || bool_decide (t = GETX).
Definition IsPut (t : AccessType) : bool :=
  bool_decide (t = PUTS) || bool_decide (t = PUTX).

(** [MemReq::Flag]. *)
Definition IFETCH : Z := Z.shiftl 1 1.
Definition NOEXCL : Z := Z.shiftl 1 2.
Definition NONINCLWB : Z := Z.shiftl 1 3.
Definition PUTX_KEEPEXCL : Z := Z.shiftl 1 4.
Definition PREFETCH : Z := Z.shiftl 1 5.

(** Pointers.  A [MESIState*] points into the state array of a cache's bottom
    controller ([&array[lineId]]) or at the [dummyState] local of a filter
    cache; a [lock_t*] at a bottom controller's [ccLock] or at a filter cache's
    [filterLock]. *)
Inductive StateRef := RefLine (c : nat) (lineId : nat) | RefDummy (c : nat).
Inductive LockRef := LkBcc (c : nat) | LkFilter (c : nat).

Record MemReq := mkMemReq {
  lineAddr : Z;
  type : AccessType;
  childId : nat;
  state : StateRef;
  cycle : Z;
  childLock : option LockRef;
  initialState : MESIState;
  srcId : nat;
  flags : Z
}.

(** [req.set(f)], [req.is(f)] and assignment to [req.type]. *)
Definition MemReq_set (r : MemReq) (f : Z) : MemReq :=
  mkMemReq (lineAddr r) (type r) (childId r) (state r) (cycle r) (childLock r)
    (initialState r) (srcId r) (Z.lor (flags r) f).
Definition flag_is (fl f : Z) : bool := negb (Z.land fl f =? 0).
Definition MemReq_is (r : MemReq) (f : Z) : bool := flag_is (flags r) f.
Definition with_type (r : MemReq) (t : AccessType) : MemReq :=
  mkMemReq (lineAddr r) t (childId r) (state r) (cycle r) (childLock r)
    (initialState r) (srcId r) (flags r).

(** An invalidation; [writeback] is the value behind the [bool*]: it goes in
    with the request and its new value comes back with the response. *)
Record InvReq := mkInvReq {
  inv_lineAddr : Z;
  inv_type : InvType;
  inv_writeback : bool;
  inv_cycle : Z;
  inv_srcId : nat
}.
