(* ===== verification/Prefetcher.v ===== *)
(** * The stream prefetcher (src/src/prefetcher.h, src/src/prefetcher.cpp)

    It sits between a cache and its parent, forwards every request, detects strides in
    sixteen 64-line pages and issues prefetches.  The parent is a [MemObject], a
    parameter here: a function of the request, of the MESI state the request points at
    and of the world [W] behind it.  The arithmetic is that of the code: positions are
    32-bit unsigned, strides 32-bit signed, and their mixes are unsigned. *)

From S2P Require Import Prelude Bithacks MemHier.

Definition i32 (x : Z) : Z := (x + 2147483648) mod two32 - 2147483648.

(** [SatCounter<M, T, I>]: maximum, threshold, initial value. *)
Module SatCounter.
Section Params.
Variables (M T I : Z).
Definition reset : Z := I.
Definition dec (count : Z) : Z := MAX (count - 1) 0.
Definition inc (count : Z) : Z := MIN (count + 1) M.
Definition pred (count : Z) : bool := T <=? count.
End Params.
End SatCounter.

Module Pf.
Record Entry := mkEntry {
  stride : Z;
  conf : Z;
  times : list (Z * Z);   (* startCycle, respCycle *)
  valid : list bool;
  lastPos : Z;
  lastLastPos : Z;
  lastPrefetchPos : Z;
  lastCycle : Z;
  ts : Z
}.
Inductive Counter := profAccesses | profPrefetches | profDoublePrefetches | profPageHits | profHits
  | profShortHits | profStrideSwitches | profLowConfAccs.
#[global] Instance Counter_eq_dec : EqDecision Counter.
Proof. solve_decision. Defined.

Record t := mk {
  timestamp : Z;
  tag : list Z;
  array : list Entry;
  prof : Counter -> Z;
  childId : nat
}.

Definition conf_reset : Z := SatCounter.reset 1.
Definition conf_inc : Z -> Z := SatCounter.inc 3.
Definition conf_dec : Z -> Z := SatCounter.dec.
Definition conf_pred : Z -> bool := SatCounter.pred 2.

Definition alloc (curCycle : Z) (e : Entry) : Entry :=
  mkEntry 1 conf_reset (times e) (replicate 64 false) 0 0 0 curCycle (ts e).

(** Field writes. *)
Definition with_stride (x : Z) (e : Entry) := mkEntry x (conf e) (times e) (valid e) (lastPos e) (lastLastPos e) (lastPrefetchPos e) (lastCycle e) (ts e).
Definition with_conf (x : Z) (e : Entry) := mkEntry (stride e) x (times e) (valid e) (lastPos e) (lastLastPos e) (lastPrefetchPos e) (lastCycle e) (ts e).
Definition with_lastPos (x : Z) (e : Entry) := mkEntry (stride e) (conf e) (times e) (valid e) x (lastLastPos e) (lastPrefetchPos e) (lastCycle e) (ts e).
Definition with_lastLastPos (x : Z) (e : Entry) := mkEntry (stride e) (conf e) (times e) (valid e) (lastPos e) x (lastPrefetchPos e) (lastCycle e) (ts e).
Definition with_lastPrefetchPos (x : Z) (e : Entry) := mkEntry (stride e) (conf e) (times e) (valid e) (lastPos e) (lastLastPos e) x (lastCycle e) (ts e).
Definition with_lastCycle (x : Z) (e : Entry) := mkEntry (stride e) (conf e) (times e) (valid e) (lastPos e) (lastLastPos e) (lastPrefetchPos e) x (ts e).
Definition with_ts (x : Z) (e : Entry) := mkEntry (stride e) (conf e) (times e) (valid e) (lastPos e) (lastLastPos e) (lastPrefetchPos e) (lastCycle e) x.

(** [e.valid[pos] = b] and [e.times[pos].fill(s, r)]. *)
Definition set_valid (pos : Z) (b : bool) (e : Entry) : res Entry :=
  v ← arr_set (valid e) (Z.to_nat pos) b;
  mret (mkEntry (stride e) (conf e) (times e) v (lastPos e) (lastLastPos e) (lastPrefetchPos e) (lastCycle e) (ts e)).
Definition fill (pos s r : Z) (e : Entry) : res Entry :=
  t ← arr_set (times e) (Z.to_nat pos) (u32 s, r);
  mret (mkEntry (stride e) (conf e) t (valid e) (lastPos e) (lastLastPos e) (lastPrefetchPos e) (lastCycle e) (ts e)).

Definition inc (k : Counter) (p : t) : t :=
  mk (timestamp p) (tag p) (array p) (fun k' => if decide (k = k') then u64 (prof p k' + 1) else prof p k') (childId p).
Definition set_array (a : list Entry) (p : t) : t := mk (timestamp p) (tag p) a (prof p) (childId p).
Definition set_tag (a : list Z) (p : t) : t := mk (timestamp p) a (array p) (prof p) (childId p).
Definition tick (p : t) : t := mk (u64 (timestamp p + 1)) (tag p) (array p) (prof p) (childId p).

(** The tag scan keeps the last match; 16 means none. *)
Fixpoint scan (tags : list Z) (pageAddr : Z) (i idx : nat) : nat :=
  match tags with
  | [] => idx
  | g :: tags => scan tags pageAddr (S i) (if pageAddr =? g then i else idx)
  end.

(** The victim: least recently used among the entries without recent prefetches. *)
Fixpoint victim (es : list Entry) (reqCycle : Z) (i cand : nat) (candScore : Z) : nat :=
  match es with
  | [] => cand
  | e :: es =>
    if u64 (reqCycle + 500) <? lastCycle e then victim es reqCycle (S i) cand candScore
    else if ts e <? candScore then victim es reqCycle (S i) i (ts e)
    else victim es reqCycle (S i) cand candScore
  end.

Section Access.
Context {W : Type} (parent : MemReq -> MESIState -> W -> res (Z * MESIState * W)).

Abbreviation PM := (M (t * W)).
Definition pget : PM t := mgets fst.
Definition pmodify (f : t -> t) : PM unit := mmodify (fun s => (f (fst s), snd s)).
Definition getE (idx : nat) : PM Entry := p ← pget; mlift (arr_get (array p) idx).
Definition putE (idx : nat) (e : Entry) : PM unit :=
  p ← pget; a ← mlift (arr_set (array p) idx e); pmodify (set_array a).
Definition parent_access (req : MemReq) (st : MESIState) : PM (Z * MESIState) :=
  fun s => match parent req st (snd s) with
           | Ok (c, st, w) => Ok ((c, st), (fst s, w))
           | Err f => Err f
           end.

(** Unsigned 32-bit division of [a] by a signed [b], which is converted. *)
Definition udiv32 (a b : Z) : res Z :=
  if u32 b =? 0 then Err (Panic "division by zero") else Ok (u32 a / u32 b).

Definition with_childId (c : nat) (r : MemReq) : MemReq :=
  mkMemReq (lineAddr r) (type r) c (MemHier.state r) (cycle r) (childLock r) (initialState r) (srcId r) (flags r).
Definition pf_request (r : MemReq) (line : Z) : MemReq :=
  mkMemReq line GETS (MemHier.childId r) (MemHier.state r) (cycle r) (childLock r) StI (srcId r) PREFETCH.

(** The prefetches of an access at [pos] with the confirmed stride [s]. *)
Definition prefetch (idx : nat) (req : MemReq) (pos s : Z) (shortPrefetch : bool) : PM unit :=
  e ← getE idx;
  d ← mlift (udiv32 (lastPrefetchPos e - lastPos e) s);
  let fetchDepth := i32 d in
  let '(prefetchPos, fetchDepth) :=
    if fetchDepth <? 1 then (u32 (pos + s), 1) else (u32 (lastPrefetchPos e + s), fetchDepth) in
  if prefetchPos <? 64 then
    v ← mlift (arr_get (valid e) (Z.to_nat prefetchPos));
    if negb v then
      let line := u64 (lineAddr req + prefetchPos - pos) in
      '(pfRespCycle, st) ← parent_access (pf_request req line) StI;
      e ← mlift (set_valid prefetchPos true e);
      e ← mlift (fill prefetchPos (cycle req) pfRespCycle e);
      putE idx e;;
      pmodify (inc profPrefetches);;
      let next := u32 (prefetchPos + s) in
      again ← (if shortPrefetch && (fetchDepth <? 8) && (next <? 64)
               then v ← mlift (arr_get (valid e) (Z.to_nat next)); mret (negb v) else mret false);
      '(prefetchPos, st) ← (if again : bool then
          '(pfRespCycle, st) ← parent_access (pf_request req (u64 (line + s))) st;
          e ← mlift (set_valid next true e);
          e ← mlift (fill next (cycle req) pfRespCycle e);
          putE idx e;;
          pmodify (inc profPrefetches);;
          pmodify (inc profDoublePrefetches);;
          mret (next, st)
        else mret (prefetchPos, st));
      e ← getE idx;
      putE idx (with_lastPrefetchPos prefetchPos e);;
      massert (bool_decide (st = StI)) "state == I"
    else mret tt
  else mret tt.

(** 1. Did we prefetch-hit?  The response cycle, and whether the prefetch was late. *)
Definition prefetch_hit (idx : nat) (pos respCycle : Z) : PM (Z * bool) :=
  e ← getE idx;
  v ← mlift (arr_get (valid e) (Z.to_nat pos));
  if v : bool then
    '(_, pfRespCycle) ← mlift (arr_get (times e) (Z.to_nat pos));
    let shortPrefetch := respCycle <? pfRespCycle in
    e ← mlift (set_valid pos false e);
    let respCycle := MAX pfRespCycle respCycle in
    putE idx (with_lastCycle (MAX respCycle (lastCycle e)) e);;
    pmodify (inc profHits);;
    (if shortPrefetch then pmodify (inc profShortHits) else mret tt);;
    mret (respCycle, shortPrefetch)
  else mret (respCycle, false).

(** 2. Update predictors, issue prefetches. *)
Definition train (idx : nat) (req : MemReq) (pos : Z) (shortPrefetch : bool) : PM unit :=
  e ← getE idx;
  let s := i32 (u32 (pos - lastPos e)) in
  if stride e =? s then
    putE idx (with_conf (conf_inc (conf e)) e);;
    if conf_pred (conf_inc (conf e)) then prefetch idx req pos s shortPrefetch
    else pmodify (inc profLowConfAccs)
  else
    let e := with_conf (conf_dec (conf e)) e in
    let lastStride := i32 (u32 (lastPos e - lastLastPos e)) in
    if negb (conf_pred (conf e)) && negb (s =? 0) && negb (s =? stride e) && (s =? lastStride) then
      pmodify (inc profStrideSwitches);;
      putE idx (with_lastPrefetchPos pos (with_stride s (with_conf conf_reset e)))
    else putE idx (with_lastPrefetchPos pos e).

(** An access to a page that has an entry: the response cycle. *)
Definition page_hit (idx : nat) (req : MemReq) (pos respCycle : Z) : PM Z :=
  pmodify (inc profPageHits);;
  p ← pget;
  e ← getE idx;
  putE idx (with_ts (timestamp p) e);;
  pmodify tick;;
  '(respCycle, shortPrefetch) ← prefetch_hit idx pos respCycle;
  train idx req pos shortPrefetch;;
  e ← getE idx;
  putE idx (with_lastPos pos (with_lastLastPos (lastPos e) e));;
  mret respCycle.

(** [access]: the response cycle, the state the request points at and the request's
    [childId] afterwards. *)
Definition access (req : MemReq) (st : MESIState) : PM (Z * MESIState * nat) :=
  p ← pget;
  let origChildId := MemHier.childId req in
  let req := with_childId (childId p) req in
  if negb (bool_decide (type req = GETS)) then
    '(c, st) ← parent_access req st; mret (c, st, MemHier.childId req)
  else
    pmodify (inc profAccesses);;
    '(respCycle, st) ← parent_access req st;
    let pageAddr := Z.shiftr (lineAddr req) 6 in
    let pos := Z.land (lineAddr req) (64 - 1) in
    p ← pget;
    let idx := scan (tag p) pageAddr 0 16 in
    respCycle ← (if (idx =? 16)%nat then
        let cand := victim (array p) (cycle req) 0 16 (two64 - 1) in
        (if (cand <? 16)%nat then
           e ← getE cand;
           putE cand (with_ts (timestamp p) (with_lastPos pos (alloc (cycle req) e)));;
           pmodify tick;;
           tags ← mlift (arr_set (tag p) cand pageAddr);
           pmodify (set_tag tags)
         else mret tt);;
        mret respCycle
      else page_hit idx req pos respCycle);
    mret (respCycle, st, origChildId).
End Access.

(** [setParents] and [setChildren]: one parent, one child, no network. *)
Definition setParents {X} (parents : list X) (network : bool) : res X :=
  match parents with
  | [parent] => if network then Err (Panic "Network not handled") else Ok parent
  | _ => Err (Panic "Must have one parent")
  end.
Definition setChildren {X} (children : list X) (network : bool) : res X :=
  match children with
  | [child] => if network then Err (Panic "Network not handled") else Ok child
  | _ => Err (Panic "Must have one children")
  end.
(** [invalidate] is the child's. *)
Definition invalidate {X Y} (child_invalidate : X -> Y) (req : X) : Y := child_invalidate req.

(** ** Well-formed entries *)
Definition pos_ok (x : Z) : Prop := 0 <= x < 64.
Record EWf (e : Entry) : Prop := mkEWf {
  ew_times : length (times e) = 64%nat;
  ew_valid : length (valid e) = 64%nat;
  ew_stride : stride e <> 0 /\ -64 < stride e < 64;
  ew_conf : 0 <= conf e <= 3;
  ew_pos : pos_ok (lastPos e) /\ pos_ok (lastLastPos e) /\ pos_ok (lastPrefetchPos e)
}.
Record Wf (p : t) : Prop := mkWf {
  wf_tag : length (tag p) = 16%nat;
  wf_array : length (array p) = 16%nat;
  wf_entries : Forall EWf (array p)
}.

Lemma i32_small x : -2147483648 <= x < 2147483648 -> i32 x = x.
Proof. intros H. unfold i32, two32. rewrite Z.mod_small; lia. Qed.
Lemma i32_sub a b : pos_ok a -> pos_ok b -> i32 (u32 (a - b)) = a - b.
Proof.
  unfold pos_ok. intros Ha Hb. unfold u32. destruct (decide (0 <= a - b)).
  - rewrite Z.mod_small by (unfold two32; lia). apply i32_small. lia.
  - replace ((a - b) mod two32) with (a - b + two32) by (apply (Zmod_unique _ _ (-1)); unfold two32; lia).
    unfold i32. replace (a - b + two32 + 2147483648) with (a - b + 2147483648 + 1 * two32) by lia.
    rewrite Z_mod_plus_full. rewrite Z.mod_small by (unfold two32; lia). lia.
Qed.
(** Adding a stride to a position and staying on the page does not wrap. *)
Lemma u32_pos a s : pos_ok a -> -64 < s < 64 -> u32 (a + s) < 64 -> u32 (a + s) = a + s /\ pos_ok (a + s).
Proof.
  unfold pos_ok. intros Ha Hs Hlt. unfold u32 in *. destruct (decide (0 <= a + s)).
  - rewrite Z.mod_small in * by (unfold two32; lia). lia.
  - replace ((a + s) mod two32) with (a + s + two32) in Hlt by (apply (Zmod_unique _ _ (-1)); unfold two32; lia).
    unfold two32 in Hlt. lia.
Qed.
Lemma u32_nonneg x : 0 <= u32 x.
Proof. apply u32_range. Qed.

Lemma scan_range tags a : forall i idx, (idx = 16 \/ idx < i)%nat ->
  (scan tags a i idx = 16 \/ scan tags a i idx < i + length tags)%nat.
Proof.
  induction tags as [|g tags IH]; intros i idx H; cbn [scan length]; [lia|].
  destruct (a =? g); [specialize (IH (S i) i)|specialize (IH (S i) idx)]; lia.
Qed.

Lemma MAX_ge x y : x <= MAX x y /\ y <= MAX x y.
Proof. unfold MAX. rewrite Z.gtb_ltb. destruct (Z.ltb_spec y x); lia. Qed.

Lemma EWf_set_valid e x b : EWf e -> pos_ok x -> exists e', set_valid x b e = Ok e' /\ EWf e' /\
  lastPos e' = lastPos e /\ lastPrefetchPos e' = lastPrefetchPos e /\ lastCycle e' = lastCycle e.
Proof.
  intros [] Hx. unfold pos_ok in Hx. unfold set_valid. rewrite arr_set_lt by lia. eexists. split; [done|].
  split; [|done]. constructor; cbn; rewrite ?length_insert; done.
Qed.
Lemma EWf_fill e x s r : EWf e -> pos_ok x -> exists e', fill x s r e = Ok e' /\ EWf e'.
Proof.
  intros [] Hx. unfold pos_ok in Hx. unfold fill. rewrite arr_set_lt by lia. eexists. split; [done|].
  constructor; cbn; rewrite ?length_insert; done.
Qed.
Lemma conf_inc_ok c : 0 <= c <= 3 -> 0 <= conf_inc c <= 3.
Proof. unfold conf_inc, SatCounter.inc, MIN. intros H. destruct (Z.ltb_spec (c + 1) 3); lia. Qed.
Lemma conf_dec_ok c : 0 <= c <= 3 -> 0 <= conf_dec c <= 3.
Proof. unfold conf_dec, SatCounter.dec, MAX. intros H. rewrite Z.gtb_ltb. destruct (Z.ltb_spec 0 (c - 1)); lia. Qed.

(** ** The parent, with a log of the requests it gets *)
Section Safe.
Context {W : Type} (parent : MemReq -> MESIState -> W -> res (Z * MESIState * W)).
Definition logged (req : MemReq) (st : MESIState) (w : W * list MemReq) : res (Z * MESIState * (W * list MemReq)) :=
  '(c, st, w') ← parent req st (fst w); Ok (c, st, (w', snd w ++ [req])).

Lemma getE_wp idx p w Q : Wf p -> (idx < 16)%nat ->
  (forall e, array p !! idx = Some e -> EWf e -> Q e (p, w)) -> wp (getE (W := W * list MemReq) idx) Q (p, w).
Proof.
  intros H Hi HQ. unfold getE, pget. wp_steps. apply wp_lift. cbn.
  destruct (arr_get_lt (array p) idx) as (e & He & ->); [by rewrite (wf_array p H)|]. cbn. apply HQ; [done|].
  eapply Forall_lookup_1; [apply (wf_entries p H)|done].
Qed.
Lemma putE_wp idx e p w (Q : unit -> t * (W * list MemReq) -> Prop) : Wf p -> (idx < 16)%nat -> EWf e ->
  (forall p', Wf p' -> array p' !! idx = Some e -> childId p' = childId p -> Q tt (p', w)) -> wp (putE idx e) Q (p, w).
Proof.
  intros H Hi He HQ. pose proof H as []. unfold putE, pget, pmodify. wp_steps. apply wp_lift.
  rewrite arr_set_lt by (cbn; lia). cbn [rwp]. wp_steps. cbn. apply HQ; [|cbn; apply list_lookup_insert_eq; lia|done].
  constructor; cbn; [done|by rewrite length_insert|by apply Forall_insert].
Qed.
Lemma inc_wp k p w (Q : unit -> t * (W * list MemReq) -> Prop) : Wf p ->
  (forall p', Wf p' -> array p' = array p -> tag p' = tag p -> timestamp p' = timestamp p -> childId p' = childId p -> Q tt (p', w)) ->
  wp (pmodify (inc k)) Q (p, w).
Proof. intros [] HQ. unfold pmodify. wp_steps. by apply HQ. Qed.
Lemma tick_wp p w (Q : unit -> t * (W * list MemReq) -> Prop) : Wf p ->
  (forall p', Wf p' -> array p' = array p -> tag p' = tag p -> childId p' = childId p -> Q tt (p', w)) ->
  wp (pmodify tick) Q (p, w).
Proof. intros [] HQ. unfold pmodify. wp_steps. by apply HQ. Qed.

(** What the code relies on: the parent answers, and a prefetch gets no permissions. *)
Hypothesis parent_answers : forall req st w, exists c st' w', parent req st w = Ok (c, st', w') /\
  (MemReq_is req PREFETCH = true -> st' = st).

Lemma parent_wp req st p w log Q :
  (forall c st' w', (MemReq_is req PREFETCH = true -> st' = st) -> Q (c, st') (p, (w', log ++ [req]))) ->
  wp (parent_access logged req st) Q (p, (w, log)).
Proof.
  intros HQ. unfold wp, parent_access, logged. cbn [fst snd].
  destruct (parent_answers req st w) as (c & st' & w' & -> & Hst). cbn. by apply HQ.
Qed.

(** A prefetch of the page of [req]. *)
Definition pf_of (req r : MemReq) : Prop :=
  type r = GETS /\ flags r = PREFETCH /\ Z.shiftr (lineAddr r) 6 = Z.shiftr (lineAddr req) 6.

Lemma page_line a q : 0 <= a < two64 -> pos_ok q ->
  u64 (a + q - Z.land a 63) = 64 * Z.shiftr a 6 + q /\ Z.shiftr (64 * Z.shiftr a 6 + q) 6 = Z.shiftr a 6 /\
  64 * Z.shiftr a 6 + 63 < two64 /\ 0 <= Z.shiftr a 6.
Proof.
  intros Ha Hq. unfold pos_ok in Hq. change 63 with (Z.ones 6). rewrite Z.land_ones by lia.
  rewrite !Z.shiftr_div_pow2 by lia. change (2 ^ 6) with 64. pose proof (Z.div_mod a 64). pose proof (Z.mod_pos_bound a 64).
  assert (64 * (a / 64) + 63 < two64) by (unfold two64 in *; lia).
  split; [rewrite u64_small; unfold two64 in *; lia|]. split; [|split; [done|apply Z.div_pos; lia]].
  replace (64 * (a / 64) + q) with (q + (a / 64) * 64) by lia. rewrite Z.div_add by lia. rewrite (Z.div_small q) by lia. lia.
Qed.

Lemma pf_of_line req q : 0 <= lineAddr req < two64 -> pos_ok q ->
  pf_of req (pf_request req (u64 (lineAddr req + q - Z.land (lineAddr req) (64 - 1)))).
Proof.
  intros Ha Hq. destruct (page_line (lineAddr req) q Ha Hq) as (E & E' & _). split; [done|]. split; [done|].
  cbn [pf_request lineAddr]. change (64 - 1) with 63. by rewrite E, E'.
Qed.
Lemma pf_of_next req q s : 0 <= lineAddr req < two64 -> pos_ok q -> pos_ok (q + s) ->
  pf_of req (pf_request req (u64 (u64 (lineAddr req + q - Z.land (lineAddr req) (64 - 1)) + s))).
Proof.
  intros Ha Hq Hn. destruct (page_line (lineAddr req) q Ha Hq) as (E & _ & Hb & H0).
  destruct (page_line (lineAddr req) (q + s) Ha Hn) as (_ & E' & _). split; [done|]. split; [done|].
  cbn [pf_request lineAddr]. change (64 - 1) with 63. rewrite E. unfold pos_ok in *.
  rewrite u64_small by lia. rewrite <- Z.add_assoc. exact E'.
Qed.

(** The requests [prefetch] and [page_hit] add to the log. *)
Definition Adds (req : MemReq) (log log' : list MemReq) : Prop :=
  exists pfs, log' = log ++ pfs /\ Forall (pf_of req) pfs /\ (length pfs <= 2)%nat.

Definition Grown (req : MemReq) (p : t) (log : list MemReq) (s' : t * (W * list MemReq)) : Prop :=
  Wf (fst s') /\ childId (fst s') = childId p /\ Adds req log (snd (snd s')).

Lemma EWf_lastPrefetchPos e x : EWf e -> pos_ok x -> EWf (with_lastPrefetchPos x e).
Proof. intros [] Hx. constructor; cbn; tauto. Qed.

Lemma udiv32_ok a s : s <> 0 -> -64 < s < 64 -> udiv32 a s = Ok (u32 a / u32 s).
Proof.
  intros H0 Hs. unfold udiv32. rewrite (proj2 (Z.eqb_neq (u32 s) 0)); [done|]. unfold u32, two32.
  pose proof (Z.mod_pos_bound s 4294967296). intros Hc. apply Z_div_exact_full_2 in Hc; lia.
Qed.

(** Both choices of the first prefetch position, once on the page, are positions. *)
Lemma first_pos_ok e pos s d :
  EWf e -> pos_ok pos -> -64 < s < 64 ->
  forall q fd, (if i32 d <? 1 then (u32 (pos + s), 1) else (u32 (lastPrefetchPos e + s), i32 d)) = (q, fd) ->
  q < 64 -> pos_ok q.
Proof.
  intros He Hp Hs q fd E Hq. destruct (ew_pos e He) as (_ & _ & Hl).
  destruct (i32 d <? 1); injection E as <- <-.
  - by destruct (u32_pos pos s Hp Hs Hq) as [-> ?].
  - by destruct (u32_pos _ s Hl Hs Hq) as [-> ?].
Qed.

Lemma prefetch_end idx req q p log p3 w3 log3 :
  (idx < 16)%nat -> Wf p3 -> childId p3 = childId p -> pos_ok q -> Adds req log log3 ->
  wp (getE idx) (fun e => wp (putE idx (with_lastPrefetchPos q e);; massert (bool_decide (StI = StI)) "state == I")
    (fun _ => Grown req p log)) (p3, (w3, log3)).
Proof.
  intros Hi H3 Hc3 Hq HA. apply getE_wp; [done..|]. intros e3 _ HE3. apply wp_bind.
  apply putE_wp; [done|done|by apply EWf_lastPrefetchPos|]. intros p4 H4 _ Hc4. apply wp_assert; [done|].
  split; [done|]. cbn. split; [congruence|done].
Qed.

Lemma prefetch_wp idx req s sp p w log :
  Wf p -> (idx < 16)%nat -> 0 <= lineAddr req < two64 -> s <> 0 -> -64 < s < 64 ->
  wp (prefetch logged idx req (Z.land (lineAddr req) (64 - 1)) s sp) (fun _ => Grown req p log) (p, (w, log)).
Proof.
  intros H Hi Ha Hs0 Hs. set (pos := Z.land (lineAddr req) (64 - 1)).
  assert (Hpos : pos_ok pos).
  { unfold pos, pos_ok. change (64 - 1) with (Z.ones 6). rewrite Z.land_ones by lia. by apply Z.mod_pos_bound. }
  assert (Hnone : Adds req log log) by (exists []; rewrite app_nil_r; cbn; split_and!; [done|constructor|lia]).
  unfold prefetch. wp_steps. apply getE_wp; [done..|]. intros e He HE. wp_steps. apply wp_lift.
  rewrite udiv32_ok by done. cbn [rwp].
  destruct (if i32 _ <? 1 then _ else _) as [q fd] eqn:Eq.
  destruct (Z.ltb_spec q 64) as [Hq|Hq]; [|wp_steps; by split_and!].
  pose proof (first_pos_ok e pos s _ HE Hpos Hs q fd Eq Hq) as Hqp.
  wp_steps. apply wp_lift. destruct (arr_get_lt (valid e) (Z.to_nat q)) as (v & _ & ->);
    [rewrite (ew_valid e HE); unfold pos_ok in Hqp; lia|]. cbn [rwp].
  destruct v; cbn [negb]; [wp_steps; by split_and!|]. wp_steps. apply parent_wp. intros c st' w1 Hst. cbn iota.
  specialize (Hst ltac:(done)) as ->. wp_steps. apply wp_lift.
  destruct (EWf_set_valid e q true HE Hqp) as (e1 & -> & HE1 & _). cbn [rwp]. wp_steps. apply wp_lift.
  destruct (EWf_fill e1 q (cycle req) c HE1 Hqp) as (e2 & -> & HE2). cbn [rwp]. wp_steps.
  apply putE_wp; [done..|]. intros p1 H1 _ Hc1. wp_steps. apply inc_wp; [done|]. intros p2 H2 _ _ _ Hc2.
  pose proof (pf_of_line req q Ha Hqp) as Hpf. fold pos in Hpf. set (r1 := pf_request req _) in *.
  wp_steps. set (n := u32 (q + s)).
  assert (HA1 : Adds req log (log ++ [r1])) by (exists [r1]; cbn; split_and!; [done|by constructor|lia]).
  eapply (wp_mono _ (fun a s' => s' = (p2, (w1, log ++ [r1])) /\ (a = true -> n < 64))).
  { destruct (sp && (fd <? 8) && (n <? 64)) eqn:Ec; [|by wp_steps].
    apply andb_true_iff in Ec as [_ Hn%Z.ltb_lt]. wp_steps. apply wp_lift.
    destruct (arr_get_lt (valid e2) (Z.to_nat n)) as (v & _ & ->);
      [rewrite (ew_valid e2 HE2); pose proof (u32_nonneg (q + s)); unfold n in *; lia|]. cbn [rwp]. by wp_steps. }
  intros again s' [-> Hn]. destruct again; wp_steps.
  - specialize (Hn eq_refl). destruct (u32_pos q s Hqp Hs Hn) as [En Hnp]. fold n in En. rewrite <- En in Hnp.
    apply parent_wp. intros c' st'' w2 Hst2. specialize (Hst2 ltac:(done)) as ->. cbn iota. wp_steps. apply wp_lift.
    destruct (EWf_set_valid e2 n true HE2 Hnp) as (e3 & -> & HE3 & _). cbn [rwp]. wp_steps. apply wp_lift.
    destruct (EWf_fill e3 n (cycle req) c' HE3 Hnp) as (e4 & -> & HE4). cbn [rwp]. wp_steps.
    apply putE_wp; [done..|]. intros p3 H3 _ Hc3. wp_steps. apply inc_wp; [done|]. intros p4 H4 _ _ _ Hc4.
    wp_steps. apply inc_wp; [done|]. intros p5 H5 _ _ _ Hc5. wp_steps. apply prefetch_end; [done|done|congruence|done|].
    exists [r1; pf_request req (u64 (u64 (lineAddr req + q - pos) + s))].
    rewrite <- app_assoc. split_and!; [done| |cbn; lia]. constructor; [done|]. constructor; [|done].
    rewrite En in Hnp. by apply pf_of_next.
  - apply prefetch_end; [done|done|congruence|done|done].
Qed.

Lemma land_pos a : pos_ok (Z.land a (64 - 1)).
Proof. unfold pos_ok. change (64 - 1) with (Z.ones 6). rewrite Z.land_ones by lia. by apply Z.mod_pos_bound. Qed.

Lemma Adds_refl req log : Adds req log log.
Proof. exists []. rewrite app_nil_r. cbn. split_and!; [done|constructor|lia]. Qed.

(** The prefetch-hit step: the response waits for the prefetched line. *)
Lemma prefetch_hit_wp idx pos respCycle p w log (Q : Z * bool -> t * (W * list MemReq) -> Prop) :
  Wf p -> (idx < 16)%nat -> pos_ok pos ->
  (forall r sp p', respCycle <= r -> Wf p' -> childId p' = childId p -> Q (r, sp) (p', (w, log))) ->
  wp (prefetch_hit idx pos respCycle) Q (p, (w, log)).
Proof.
  intros H Hi Hp HQ. pose proof Hp as Hp'. unfold pos_ok in Hp'. unfold prefetch_hit.
  apply wp_bind, getE_wp; [done..|]. intros e _ HE. wp_steps. apply wp_lift.
  destruct (arr_get_lt (valid e) (Z.to_nat pos)) as (v & _ & ->); [rewrite (ew_valid e HE); lia|]. cbn [rwp].
  destruct v; wp_steps; [|by apply HQ; [lia|..]]. apply wp_lift.
  destruct (arr_get_lt (times e) (Z.to_nat pos)) as ([x c] & _ & ->); [rewrite (ew_times e HE); lia|]. cbn [rwp].
  wp_steps. apply wp_lift. destruct (EWf_set_valid e pos false HE Hp) as (e1 & -> & HE1 & _). cbn [rwp]. wp_steps.
  apply putE_wp; [done|done|destruct HE1; by constructor|]. intros p1 H1 _ Hc1. wp_steps.
  apply inc_wp; [done|]. intros p2 H2 _ _ _ Hc2. pose proof (MAX_ge c respCycle). wp_steps.
  destruct (respCycle <? c); wp_steps; [|by apply HQ; [lia|done|congruence]].
  apply inc_wp; [done|]. intros p3 H3 _ _ _ Hc3. wp_steps. by apply HQ; [lia|done|congruence].
Qed.

Lemma train_wp idx req sp p w log :
  Wf p -> (idx < 16)%nat -> 0 <= lineAddr req < two64 ->
  wp (train logged idx req (Z.land (lineAddr req) (64 - 1)) sp) (fun _ => Grown req p log) (p, (w, log)).
Proof.
  intros H Hi Ha. pose proof (land_pos (lineAddr req)) as Hpos. set (pos := Z.land _ _) in *.
  unfold train. apply wp_bind, getE_wp; [done..|]. intros e _ HE.
  destruct (ew_pos e HE) as (Hl & Hll & Hlp). rewrite (i32_sub pos (lastPos e)) by done.
  assert (Hgrow : forall e' p1, EWf e' -> Wf p1 -> childId p1 = childId p ->
    wp (putE idx e') (fun _ => Grown req p log) (p1, (w, log))).
  { intros e' p1 He' H1 Hc. apply putE_wp; [done..|]. intros p2 H2 _ Hc2. split; [done|]. cbn. split; [congruence|apply Adds_refl]. }
  destruct (Z.eqb_spec (stride e) (pos - lastPos e)) as [Es|Es].
  - pose proof (conf_inc_ok (conf e) (ew_conf e HE)). apply wp_bind.
    apply putE_wp; [done|done|destruct HE; by constructor|]. intros p1 H1 _ Hc1.
    destruct (conf_pred _).
    + eapply wp_mono; [apply prefetch_wp; try done; rewrite <- Es; apply (ew_stride e HE)|].
      intros _ s' (? & ? & ?). split; [done|]. split; [congruence|done].
    + apply inc_wp; [done|]. intros p2 H2 _ _ _ Hc2. split; [done|]. cbn. split; [congruence|apply Adds_refl].
  - pose proof (conf_dec_ok (conf e) (ew_conf e HE)).
    destruct (negb _ && negb (pos - lastPos e =? 0) && _ && _) eqn:Ec.
    + apply andb_true_iff in Ec as [Ec _]. apply andb_true_iff in Ec as [Ec _].
      apply andb_true_iff in Ec as [_ Ec%negb_true_iff%Z.eqb_neq].
      apply wp_bind, inc_wp; [done|]. intros p1 H1 _ _ _ Hc1. apply Hgrow; [|done|done].
      destruct HE. unfold pos_ok in *. constructor; cbn; [done|done|lia|done|done].
    + apply Hgrow; [|done|done]. destruct HE. by constructor.
Qed.

Lemma page_hit_wp idx req respCycle p w log :
  Wf p -> (idx < 16)%nat -> 0 <= lineAddr req < two64 ->
  wp (page_hit logged idx req (Z.land (lineAddr req) (64 - 1)) respCycle)
    (fun r s' => respCycle <= r /\ Grown req p log s') (p, (w, log)).
Proof.
  intros H Hi Ha. pose proof (land_pos (lineAddr req)) as Hpos. unfold page_hit.
  apply wp_bind, inc_wp; [done|]. intros p1 H1 Ea1 _ _ Hc1. apply wp_bind. unfold pget. apply wp_gets.
  apply wp_bind, getE_wp; [done..|]. intros e1 _ HE1. apply wp_bind.
  apply putE_wp; [done|done|destruct HE1; by constructor|]. intros p2 H2 _ Hc2.
  apply wp_bind, tick_wp; [done|]. intros p3 H3 _ _ Hc3.
  apply wp_bind, prefetch_hit_wp; [done..|]. intros r sp p4 Hr H4 Hc4. apply wp_bind.
  eapply wp_mono; [by apply train_wp|]. intros _ [p5 [w5 log5]] (H5 & Hc5 & HA). cbn in H5, Hc5, HA.
  apply wp_bind, getE_wp; [done..|]. intros e5 _ HE5. apply wp_bind.
  apply putE_wp; [done|done|destruct HE5; constructor; cbn; tauto|]. intros p6 H6 _ Hc6. wp_steps.
  split; [done|]. split; [done|]. cbn. split; [congruence|done].
Qed.

Lemma victim_range es rc : forall i cand sc, (cand < 16 \/ cand = 16)%nat -> (i + length es <= 16)%nat ->
  (victim es rc i cand sc < 16 \/ victim es rc i cand sc = 16)%nat.
Proof.
  induction es as [|e es IH]; intros i cand sc Hc Hl; cbn [victim length] in *; [done|].
  destruct (_ <? _); [apply IH; lia|]. destruct (_ <? _); apply IH; lia.
Qed.

(** The allocation of an entry on a page miss. *)
Lemma page_alloc_wp cand pos c p w log (Q : unit -> t * (W * list MemReq) -> Prop) pageAddr :
  Wf p -> (cand < 16)%nat -> pos_ok pos ->
  (forall p', Wf p' -> childId p' = childId p -> Q tt (p', (w, log))) ->
  wp (e ← getE cand;
      putE cand (with_ts (timestamp p) (with_lastPos pos (alloc c e)));;
      pmodify tick;;
      tags ← mlift (arr_set (tag p) cand pageAddr);
      pmodify (set_tag tags)) Q (p, (w, log)).
Proof.
  intros H Hi Hp HQ. apply wp_bind, getE_wp; [done..|]. intros e _ HE. apply wp_bind.
  assert (EWf (with_ts (timestamp p) (with_lastPos pos (alloc c e)))).
  { destruct HE. constructor; cbn; try done; try lia; unfold pos_ok in *; lia. }
  apply putE_wp; [done..|]. intros p1 H1 _ Hc1. apply wp_bind, tick_wp; [done|]. intros p2 H2 _ _ Hc2.
  apply wp_bind, wp_lift. rewrite arr_set_lt by (rewrite (wf_tag p H); done). cbn [rwp]. unfold pmodify. apply wp_modify.
  cbn. apply HQ; [|cbn; congruence]. destruct H2. constructor; cbn; [|done|done]. rewrite length_insert. apply (wf_tag p H).
Qed.

Lemma access_wp req st p w log c st' w1 :
  Wf p -> 0 <= lineAddr req < two64 -> type req = GETS ->
  parent (with_childId (childId p) req) st w = Ok (c, st', w1) ->
  wp (access logged req st) (fun r s' => c <= fst (fst r) /\ snd (fst r) = st' /\ snd r = MemHier.childId req /\
    Grown req p (log ++ [with_childId (childId p) req]) s') (p, (w, log)).
Proof.
  intros H Ha Ht Hpar. unfold access, pget. apply wp_bind, wp_gets. cbn [fst].
  set (req' := with_childId (childId p) req) in *.
  rewrite bool_decide_eq_true_2 by done. cbn [negb]. apply wp_bind, inc_wp; [done|].
  intros p1 H1 Ea1 Et1 _ Hc1. apply wp_bind. unfold wp at 1, parent_access, logged. cbn [fst snd]. rewrite Hpar.
  cbn [mbind res_bind]. apply wp_bind, wp_gets. cbn [fst].
  assert (HR : forall p2 w2 log2 r, c <= r -> Wf p2 -> childId p2 = childId p1 -> Adds req (log ++ [req']) log2 ->
    wp (mret (r, st', MemHier.childId req)) (fun r s' => c <= fst (fst r) /\ snd (fst r) = st' /\
      snd r = MemHier.childId req /\ Grown req p (log ++ [req']) s') (p2, (w2, log2))).
  { intros p2 w2 log2 r Hr H2 Hc2 HA. wp_steps. cbn. split; [done|]. split; [done|]. split; [done|].
    split; [done|]. cbn. split; [congruence|done]. }
  apply wp_bind. destruct (Nat.eqb_spec (scan (tag p1) (Z.shiftr (lineAddr req') 6) 0 16) 16) as [E16|E16].
  - apply wp_bind. destruct (Nat.ltb_spec (victim (array p1) (cycle req') 0 16 (two64 - 1)) 16) as [Hv|Hv].
    + apply page_alloc_wp; [done|done|apply land_pos|]. intros p2 H2 Hc2. wp_steps. cbn. split; [lia|]. split; [done|]. split; [done|].
      split; [done|]. cbn. split; [congruence|apply Adds_refl].
    + wp_steps. cbn. split; [lia|]. split; [done|]. split; [done|].
      split; [done|]. cbn. split; [congruence|apply Adds_refl].
  - pose proof (scan_range (tag p1) (Z.shiftr (lineAddr req') 6) 0 16 ltac:(lia)) as Hsc. rewrite (wf_tag p1 H1) in Hsc.
    eapply wp_mono; [apply (page_hit_wp _ req'); [done|lia|done]|]. intros r [p2 [w2 log2]] (Hr & H2 & Hc2 & HA).
    apply HR; [done|done|done|]. exact HA.
Qed.
End Safe.

(** C36: On every GETS, from any table whose entries are well formed (which the theorem
    shows is preserved), and for any parent that answers and gives prefetches no
    permissions: the access never indexes a table out of range and never divides by a
    zero stride; the demand request is forwarded first, with the prefetcher's child id;
    at most two further requests follow, all GETS prefetches of lines of the same page;
    the response comes no earlier than the parent's, with the state the parent granted,
    and the caller's child id is restored. *)
Theorem gets_access_safe {W} (parent : MemReq -> MESIState -> W -> res (Z * MESIState * W)) req st p w c st' w1 :
  (forall req st w, exists c st' w', parent req st w = Ok (c, st', w') /\ (MemReq_is req PREFETCH = true -> st' = st)) ->
  Wf p -> 0 <= lineAddr req < two64 -> type req = GETS ->
  parent (with_childId (childId p) req) st w = Ok (c, st', w1) ->
  exists r p' w' pfs,
    access (logged parent) req st (p, (w, [])) =
      Ok ((r, st', MemHier.childId req), (p', (w', with_childId (childId p) req :: pfs))) /\
    c <= r /\ Wf p' /\ Forall (pf_of req) pfs /\ (length pfs <= 2)%nat.
Proof.
  intros Hpar H Ha Ht HE.
  destruct (wp_elim _ _ _ (access_wp parent Hpar req st p w [] c st' w1 H Ha Ht HE))
    as ([[r st2] ci] & [p' [w' log]] & E & Hr & Hst & Hci & H' & _ & pfs & Hlog & Hpf & Hn).
  cbn in *. subst. exists r, p', w', pfs. done.
Qed.

(** Other requests go to the parent unchanged but for the child id, and leave the
    prefetcher as it was. *)
Theorem other_access_forwards {W} (parent : MemReq -> MESIState -> W -> res (Z * MESIState * W)) req st p w :
  type req <> GETS ->
  access parent req st (p, w) =
    match parent (with_childId (childId p) req) st w with
    | Ok (c, st', w') => Ok ((c, st', childId p), (p, w'))
    | Err f => Err f
    end.
Proof.
  intros Ht. unfold access, pget, mgets, mbind, M_bind. cbn [fst].
  change (type (with_childId (childId p) req)) with (type req). rewrite bool_decide_eq_false_2 by done. cbn [negb].
  unfold parent_access. cbn [snd]. by destruct (parent _ _ _) as [[[c st'] w']|].
Qed.

(** ** Concrete runs *)
Definition fast_parent (req : MemReq) (st : MESIState) (w : unit) : res (Z * MESIState * unit) :=
  Ok (cycle req + 100, if MemReq_is req PREFETCH then st else StE, tt).
Lemma fast_parent_answers : forall req st w, exists c st' w', fast_parent req st w = Ok (c, st', w') /\
  (MemReq_is req PREFETCH = true -> st' = st).
Proof. intros req st w. eexists _, _, _. split; [done|]. by intros ->. Defined.

(** Entries that an [alloc] has initialized, and entries of zeroed memory. *)
Definition fresh_entry (n : Z) : Entry := mkEntry 1 1 (replicate 64 (0, 0)) (replicate 64 false) 0 0 0 0 n.
Definition zero_entry : Entry := mkEntry 0 1 (replicate 64 (0, 0)) (replicate 64 false) 0 0 0 0 0.
Definition demo_p : t := mk 16 (replicate 16 1000) (map (fun n => fresh_entry (Z.of_nat n)) (seq 0 16)) (fun _ => 0) 3.
Definition gets (line cyc : Z) : MemReq := mkMemReq line GETS 0 (RefLine 0 0) cyc None StI 0 0.

Lemma gets_access_safe_witness :
  exists r p' w' pfs,
    access (logged fast_parent) (gets 64005 50) StI (demo_p, (tt, [])) =
      Ok ((r, StE, 0%nat), (p', (w', with_childId 3 (gets 64005 50) :: pfs))) /\
    150 <= r /\ Wf p' /\ Forall (pf_of (gets 64005 50)) pfs /\ (length pfs <= 2)%nat.
Proof.
  apply (gets_access_safe fast_parent (gets 64005 50) StI demo_p tt 150 StE tt).
  - exact fast_parent_answers.
  - constructor; [reflexivity|reflexivity|]. unfold demo_p. cbn [array]. apply Forall_forall. intros e He.
    apply list_elem_of_In, list_elem_of_fmap in He as (n & -> & _).
    constructor; cbn; try reflexivity; unfold pos_ok; lia.
  - unfold two64. cbn. lia.
  - reflexivity.
  - reflexivity.
Defined.

Lemma other_access_forwards_witness :
  access fast_parent (with_type (gets 64005 50) GETX) StI (demo_p, tt) = Ok ((150, StE, 3%nat), (demo_p, tt)).
Proof.
  rewrite (other_access_forwards fast_parent (with_type (gets 64005 50) GETX) StI demo_p tt).
  - reflexivity.
  - discriminate.
Defined.

(** The lines prefetched by a sequence of GETS, one per cycle, with a parent whose prefetches
    come back after the demand accesses that need them. *)
Definition slow_parent (req : MemReq) (st : MESIState) (w : unit) : res (Z * MESIState * unit) :=
  let pf := MemReq_is req PREFETCH in Ok (cycle req + (if pf then 300 else 10), if pf then st else StE, tt).
Fixpoint stream (lines : list Z) (cyc : Z) (s : t * (unit * list MemReq)) : res (list Z) :=
  match lines with
  | [] => Ok (map lineAddr (filter (fun r => MemReq_is r PREFETCH = true) (snd (snd s))))
  | l :: lines =>
    match access (logged slow_parent) (gets l cyc) StI s with
    | Ok (_, s) => stream lines (cyc + 1) s
    | Err f => Err f
    end
  end.

(** The prefetch depth of a descending stream is at most 1: the unsigned division of
    the distance by a negative stride is never more.  With late prefetches the prefetcher
    runs ahead of the ascending stream (depth 7 here) but stays one stride ahead of its
    mirror image, although the design makes no up/down distinction. *)
Theorem descending_depth :
  (forall a s d, -64 < s < 0 -> udiv32 a s = Ok d -> 0 <= d <= 1) /\
  stream [650; 652; 654; 656; 658; 660; 662; 664; 666; 668] 0 (demo_p, (tt, [])) =
    Ok [658; 660; 662; 664; 666; 668; 670; 672; 674; 676; 678; 680; 682] /\
  stream [690; 688; 686; 684; 682; 680; 678; 676; 674; 672] 0 (demo_p, (tt, [])) =
    Ok [682; 680; 678; 676; 674; 672; 670].
Proof.
  split; [|split; vm_compute; reflexivity]. intros a s d Hs. unfold udiv32. case_match; [done|]. intros [= <-].
  assert (E : u32 s = s + two32) by (unfold u32; symmetry; apply (Zmod_unique _ _ (-1)); unfold two32; lia).
  rewrite E in *. pose proof (u32_range a). unfold two32 in *.
  split; [apply Z.div_pos; lia|]. assert (u32 a / (s + 4294967296) < 2); [|lia]. apply Z.div_lt_upper_bound; lia.
Qed.

(** The constructor initializes neither the tags nor the entries.  On zeroed memory
    the tag of page 0 already matches, with an entry of stride 0: a GETS to line 0 then
    divides by zero. *)
Theorem zeroed_table_divides_by_zero :
  access (logged fast_parent) (gets 0 0) StI (mk 0 (replicate 16 0) (replicate 16 zero_entry) (fun _ => 0) 3, (tt, [])) =
  Err (Panic "division by zero").
Proof. vm_compute. reflexivity. Qed.
End Pf.
