(* ===== verification/Partition.v ===== *)
(** * Partition mappers, monitors and the lookahead partitioner

    src/src/partition_mapper.h, .cpp, monitor.cpp, partitioner.h, lookahead.cpp.  The
    partitioner reads miss curves through the interface [PartitionMonitor] and hands
    out the buckets of a cache greedily by marginal utility, a quotient of doubles; the
    utility monitors of UMon implement the interface.  What the lookahead needs of a monitor are the laws
    [MonitorLaws], against which it is verified. *)

From S2P Require Import Prelude Double MemHier UMon.

(** ** Mappers: the partition of a request *)
Module Mapper.

(** The classes that implement PartMapper, with their fields; [numProcGroups] and the group of
    the current process are zinfo's. *)
Inductive PartMapper :=
| CorePartMapper (numCores : Z)
| InstrDataPartMapper
| InstrDataCorePartMapper (numCores : Z)
| ProcessPartMapper (numProcs : Z)
| InstrDataProcessPartMapper (numProcs : Z)
| ProcessGroupPartMapper (numProcGroups : Z).

Definition getNumPartitions (m : PartMapper) : Z :=
  match m with
  | CorePartMapper numCores => numCores
  | InstrDataPartMapper => 2
  | InstrDataCorePartMapper numCores => u32 (2 * numCores)
  | ProcessPartMapper numProcs => numProcs
  | InstrDataProcessPartMapper numProcs => u32 (2 * numProcs)
  | ProcessGroupPartMapper numProcGroups => numProcGroups
  end.

(** [procIdx] and [groupIdx] are the current process's index and its group's. *)
Definition getPartition (m : PartMapper) (procIdx groupIdx : Z) (req : MemReq) : res Z :=
  let instr := MemReq_is req IFETCH in
  match m with
  | CorePartMapper _ => Ok (Z.of_nat (srcId req))
  | InstrDataPartMapper => Ok (Z.land (flags req) IFETCH)
  | InstrDataCorePartMapper numCores => Ok (u32 (Z.of_nat (srcId req) + (if instr then numCores else 0)))
  | ProcessPartMapper numProcs =>
      rassert (procIdx <? numProcs) "procIdx < numProcs";; Ok procIdx
  | InstrDataProcessPartMapper numProcs =>
      rassert (procIdx <? numProcs) "procIdx < numProcs";; Ok (u32 (procIdx + (if instr then numProcs else 0)))
  | ProcessGroupPartMapper numProcGroups =>
      rassert (groupIdx <? numProcGroups) "groupIdx < zinfo->numProcGroups";; Ok groupIdx
  end.
End Mapper.

(** ** The interface of monitors *)
Class PartitionMonitor (Mo : Type) := {
  pm_numPartitions : Mo -> nat;
  pm_access : nat -> Z -> M Mo unit;
  pm_get : nat -> nat -> M Mo Z;
  pm_reset : M Mo unit
}.

(** What the partitioner relies on: a monitor has a miss curve for each of [n] partitions
    and sizes up to [B], and reading it changes nothing that can be read. *)
Class MonitorLaws (Mo : Type) `{PartitionMonitor Mo} := {
  mon_ok : nat -> nat -> Mo -> Prop;
  curve : Mo -> nat -> nat -> Z;
  mon_get_ok : forall n B mo p b, mon_ok n B mo -> (p < n)%nat -> (b <= B)%nat ->
    wp (pm_get p b) (fun v mo' => v = curve mo p b /\ 0 <= v < two32 /\ mon_ok n B mo' /\
      forall p b, curve mo' p b = curve mo p b) mo
}.

(** ** Utility monitors as a PartitionMonitor *)
Module UMonitor.

Record UMonMonitor := mk {
  buckets : nat;
  missCache : list Z;
  missCacheValid : bool;
  monitors : list UM.UMon }.

Definition set_cache (l : list Z) (m : UMonMonitor) : UMonMonitor := mk (buckets m) l (missCacheValid m) (monitors m).
Definition set_valid (b : bool) (m : UMonMonitor) : UMonMonitor := mk (buckets m) (missCache m) b (monitors m).
Definition set_monitors (l : list UM.UMon) (m : UMonMonitor) : UMonMonitor := mk (buckets m) (missCache m) (missCacheValid m) l.

Definition init (numLines umonLines : Z) (umonBuckets numPartitions bkts : nat) : res UMonMonitor :=
  rassert (0 <? numPartitions)%nat "_numPartitions > 0";;
  Ok (mk bkts (replicate (bkts * numPartitions) 0) false
        (replicate numPartitions (UM.init numLines umonLines umonBuckets))).

Section Hashed.
Variable hash : Z -> Z -> Z.

Definition on_monitor (p : nat) (f : M UM.UMon unit) : M UMonMonitor unit :=
  m ← mget;
  u ← mlift (arr_get (monitors m) p);
  match f u with
  | Ok (_, u') => mmodify (set_monitors (<[p := u']> (monitors m)))
  | Err e => fun _ => Err e
  end.

Definition access (partition : nat) (lineAddr : Z) : M UMonMonitor unit :=
  m ← mget;
  massert (partition <? length (monitors m))%nat "partition < monitors.size()";;
  on_monitor partition (UM.access hash lineAddr);;
  m ← mget;
  massert (negb (missCacheValid m)) "!missCacheValid";;
  mmodify (set_valid false).

Definition getNumAccesses (partition : nat) (m : UMonMonitor) : res Z :=
  rassert (partition <? length (monitors m))%nat "partition < monitors.size()";;
  u ← arr_get (monitors m) partition;
  n ← UM.getNumAccesses u; Ok (u32 n).

(** Linear interpolation between two entries, in doubles. *)
Definition interpolate (k ratio m0 m1 : Z) : res Z :=
  let frac := ddiv (d_of_Z k) (d_of_Z ratio) in
  let m := dadd (dmul (d_of_Z m0) (dsub (d_of_Z 1) frac)) (dmul (d_of_Z m1) frac) in
  v ← d_to_u64 m; Ok (u32 v).

(** [misses[i] = v] for the row of the cache that starts at [base]. *)
Definition row_set (base i : nat) (v : Z) (c : list Z) : res (list Z) := arr_set c (base + i) v.

Fixpoint downsample (n j ratio base : nat) (um c : list Z) : res (list Z) :=
  match n with
  | O => Ok c
  | S n' => v ← arr_get um (j * ratio); c ← row_set base j (u32 v) c; downsample n' (S j) ratio base um c
  end.

Fixpoint upsample_row (n k ratio j base : nat) (m0 m1 : Z) (c : list Z) : res (list Z) :=
  match n with
  | O => Ok c
  | S n' =>
      v ← interpolate (Z.of_nat k) (Z.of_nat ratio) m0 m1;
      c ← row_set base (ratio * j + k) v c;
      upsample_row n' (S k) ratio j base m0 m1 c
  end.

Fixpoint upsample (n j ratio base bkts umonBuckets : nat) (um c : list Z) : res (list Z) :=
  match n with
  | O => Ok c
  | S n' =>
      m0 ← arr_get um j;
      c ← row_set base (ratio * j) (u32 m0) c;
      m1 ← arr_get um (S j);
      c ← upsample_row (ratio - 1) 1 ratio j base m0 m1 c;
      last ← arr_get um umonBuckets;
      c ← row_set base bkts (u32 last) c;
      upsample n' (S j) ratio base bkts umonBuckets um c
  end.

(** [getMissCurve(&missCache[base], partition)]; [umonMisses] is the local array, which the code declares with
    [umonBuckets] entries. *)
Definition getMissCurve_in (umonMisses : list Z) (base partition : nat) (m : UMonMonitor) : res (list Z) :=
  rassert (partition <? length (monitors m))%nat "partition < monitors.size()";;
  u ← arr_get (monitors m) partition;
  let umonBuckets := UM.buckets u in
  um ← UM.getMisses u umonMisses;
  if (buckets m <=? umonBuckets)%nat then
    rassert (umonBuckets mod buckets m =? 0)%nat "umonBuckets % buckets == 0";;
    c ← downsample (buckets m) 0 (umonBuckets / buckets m) base um (missCache m);
    last ← arr_get um umonBuckets;
    row_set base (buckets m) (u32 last) c
  else
    rassert (buckets m mod umonBuckets =? 0)%nat "buckets % umonBuckets == 0";;
    upsample umonBuckets 0 (buckets m / umonBuckets) base (buckets m) umonBuckets um (missCache m).

Definition getMissCurve (base partition : nat) (m : UMonMonitor) : res (list Z) :=
  u ← arr_get (monitors m) partition;
  getMissCurve_in (replicate (UM.buckets u) 0) base partition m.

(** The loop over the partitions, from [p], [n] left. *)
Fixpoint getMissCurves (n p : nat) : M UMonMonitor unit :=
  match n with
  | O => mret tt
  | S n' =>
      m ← mget;
      c ← mlift (getMissCurve (p * buckets m) p m);
      mmodify (set_cache c);;
      getMissCurves n' (S p)
  end.

Definition get (partition bucket : nat) : M UMonMonitor Z :=
  m ← mget;
  massert (partition <? length (monitors m))%nat "partition < monitors.size()";;
  (if missCacheValid m then mret tt
   else getMissCurves (length (monitors m)) 0;; mmodify (set_valid true));;
  m ← mget;
  mlift (arr_get (missCache m) (partition * buckets m + bucket)).

Fixpoint next_intervals (n p : nat) : M UMonMonitor unit :=
  match n with
  | O => mret tt
  | S n' => on_monitor p UM.startNextInterval;; next_intervals n' (S p)
  end.
Definition reset : M UMonMonitor unit :=
  m ← mget;
  next_intervals (length (monitors m)) 0;;
  mmodify (set_valid false).

#[export] Instance umon_PartitionMonitor : PartitionMonitor UMonMonitor := {|
  pm_numPartitions m := length (monitors m);
  pm_access := access;
  pm_get := get;
  pm_reset := reset |}.
End Hashed.
End UMonitor.

(** ** The lookahead algorithm *)
Module Lookahead.
Section Ops.
Context {Mo : Type} `{PartitionMonitor Mo}.

(** Iterations [i], [n] of them left. *)
Fixpoint mmu_loop (n : nat) (i : Z) (part : nat) (partAlloc : Z) (maxMu : double) (maxMuAlloc : Z) : M Mo (double * Z) :=
  match n with
  | O => mret (maxMu, maxMuAlloc)
  | S n' =>
      cur ← pm_get part (Z.to_nat partAlloc);
      more ← pm_get part (Z.to_nat (u32 (partAlloc + i)));
      let extraHits := u32 (cur - more) in
      let mu := ddiv (d_of_Z extraHits) (d_of_Z i) in
      if dlt maxMu mu then mmu_loop n' (i + 1) part partAlloc mu i
      else mmu_loop n' (i + 1) part partAlloc maxMu maxMuAlloc
  end.
Definition getMaxMarginalUtility (part : nat) (partAlloc balance : Z) : M Mo (double * Z) :=
  mmu_loop (Z.to_nat balance) 1 part partAlloc (d_of_Z (-1)) 0.

Fixpoint utility_loop (n p : nat) (parts : list Z) (noCacheMisses curPartMisses : Z) : M Mo Z :=
  match n with
  | O => mret (u64 (noCacheMisses - curPartMisses))
  | S n' =>
      m0 ← pm_get p 0;
      a ← mlift (arr_get parts p);
      m1 ← pm_get p (Z.to_nat a);
      utility_loop n' (S p) parts (u64 (noCacheMisses + m0)) (u64 (curPartMisses + m1))
  end.
Definition computePartitioningTotalUtility (numPartitions : nat) (parts : list Z) : M Mo Z :=
  utility_loop numPartitions 0 parts 0 0.

(** [forbidden && forbidden[i]]. *)
Definition is_forbidden (forbidden : option (list bool)) (i : nat) : res bool :=
  match forbidden with None => Ok false | Some l => arr_get l i end.

(** The best partition among those from [i] on, [n] of them. *)
Fixpoint best_part (n i : nat) (forbidden : option (list bool)) (allocs : list Z) (balance : Z)
    (maxMu : double) (maxMuPart : nat) (maxMuAlloc : Z) : M Mo (double * nat * Z) :=
  match n with
  | O => mret (maxMu, maxMuPart, maxMuAlloc)
  | S n' =>
      f ← mlift (is_forbidden forbidden i);
      if (f : bool) then best_part n' (S i) forbidden allocs balance maxMu maxMuPart maxMuAlloc
      else
        a ← mlift (arr_get allocs i);
        '(mu, muAlloc) ← getMaxMarginalUtility i a balance;
        if dlt maxMu mu then best_part n' (S i) forbidden allocs balance mu i muAlloc
        else best_part n' (S i) forbidden allocs balance maxMu maxMuPart maxMuAlloc
  end.

(** [while (balance > 0)], at most [fuel] times. *)
Fixpoint alloc_loop (fuel : nat) (numPartitions : nat) (forbidden : option (list bool)) (allocs : list Z) (balance : Z) :
    M Mo (list Z) :=
  if 0 <? balance then
    match fuel with
    | O => fun _ => Err OutOfFuel
    | S fuel' =>
        '(_, maxMuPart, maxMuAlloc) ← best_part numPartitions 0 forbidden allocs balance (d_of_Z (-1)) numPartitions 0;
        massert (maxMuPart <? numPartitions)%nat "maxMuPart < numPartitions";;
        a ← mlift (arr_get allocs maxMuPart);
        allocs ← mlift (arr_set allocs maxMuPart (u32 (a + maxMuAlloc)));
        alloc_loop fuel' numPartitions forbidden allocs (u32 (balance - maxMuAlloc))
    end
  else mret allocs.

Definition computeBestPartitioning (numPartitions : nat) (buckets minAlloc : Z) (forbidden : option (list bool)) :
    M Mo (list Z) :=
  let allocs := replicate numPartitions minAlloc in
  let balance := u32 (buckets - minAlloc) in
  alloc_loop (Z.to_nat balance) numPartitions forbidden allocs balance.
End Ops.

(** *** The greedy rule

    [c p a] is the miss curve of partition [p], [mu c p a i] the marginal utility of
    [i] more buckets.  A step of [greedy] gives some partition an amount that no other choice beats. *)
Definition mu (c : nat -> nat -> Z) (p : nat) (a i : Z) : double :=
  ddiv (d_of_Z (u32 (c p (Z.to_nat a) - c p (Z.to_nat (a + i))))) (d_of_Z i).

Definition allowed (forbidden : option (list bool)) (p : nat) : bool :=
  match forbidden with None => true | Some l => negb (default true (l !! p)) end.

(** No partition below [n] gains more from at most [balance] buckets than [x]. *)
Definition unbeaten (c : nat -> nat -> Z) (forbidden : option (list bool)) (allocs : list Z) (n : nat) (balance : Z)
    (x : double) : Prop :=
  forall q b j, (q < n)%nat -> allowed forbidden q = true -> allocs !! q = Some b -> 1 <= j <= balance ->
    dlt x (mu c q b j) = false.

Inductive greedy (c : nat -> nat -> Z) (forbidden : option (list bool)) : list Z -> Z -> list Z -> Prop :=
| greedy_done allocs : greedy c forbidden allocs 0 allocs
| greedy_give allocs balance p a k allocs' :
    allocs !! p = Some a -> allowed forbidden p = true -> 1 <= k <= balance ->
    unbeaten c forbidden allocs (length allocs) balance (mu c p a k) ->
    greedy c forbidden (<[p := a + k]> allocs) (balance - k) allocs' ->
    greedy c forbidden allocs balance allocs'.

Lemma greedy_length c fb allocs balance allocs' : greedy c fb allocs balance allocs' -> length allocs' = length allocs.
Proof. induction 1; [done|]. by rewrite length_insert in *. Qed.

(** All the buckets are handed out. *)
Lemma greedy_sum c fb allocs balance allocs' : greedy c fb allocs balance allocs' -> zsum allocs' = zsum allocs + balance.
Proof. induction 1 as [|? ? ? a ? ? E _ ? _ _ IH]; [lia|]. rewrite IH, (zsum_insert _ _ a) by done. lia. Qed.

(** Nobody loses, and forbidden partitions get nothing. *)
Lemma greedy_grows c fb allocs balance allocs' : greedy c fb allocs balance allocs' ->
  forall p a, allocs !! p = Some a -> exists a', allocs' !! p = Some a' /\ a <= a' /\ (allowed fb p = false -> a' = a).
Proof.
  induction 1 as [|allocs balance q b k allocs' E Hal Hk _ _ IH]; intros p a Ha; [by exists a; repeat split|].
  destruct (decide (p = q)) as [->|Hne].
  - destruct (IH q (b + k)) as (a'&Ha'&Hle&_); [apply list_lookup_insert_eq; by eapply lookup_lt_Some|].
    exists a'. simplify_eq. split; [done|]. split; [lia|]. congruence.
  - apply IH. by rewrite list_lookup_insert_ne.
Qed.

(** Nobody gets more than what is handed out. *)
Lemma greedy_le c fb allocs balance allocs' : greedy c fb allocs balance allocs' ->
  forall p a a', allocs !! p = Some a -> allocs' !! p = Some a' -> a' <= a + balance.
Proof.
  induction 1 as [|allocs balance q b k allocs' E Hal Hk _ _ IH]; intros p a a' Ha Ha'; [simplify_eq; lia|].
  destruct (decide (p = q)) as [->|Hne].
  - assert (a = b) as -> by congruence. specialize (IH q (b + k) a'). rewrite list_lookup_insert_eq in IH by (by eapply lookup_lt_Some).
    specialize (IH eq_refl Ha'). lia.
  - specialize (IH p a a'). rewrite list_lookup_insert_ne in IH by done. specialize (IH Ha Ha'). lia.
Qed.

Section Laws.
Context {Mo : Type} `{MonitorLaws Mo}.
Variables (n B : nat) (c : nat -> nat -> Z).
Hypothesis HB : Z.of_nat B < two32.

(** The monitor is in order and its curves are [c]. *)
Definition Reads (mo : Mo) : Prop := mon_ok n B mo /\ forall p b, curve mo p b = c p b.

Lemma get_reads p b mo : Reads mo -> (p < n)%nat -> (b <= B)%nat ->
  wp (pm_get p b) (fun v mo' => v = c p b /\ 0 <= v < two32 /\ Reads mo') mo.
Proof.
  intros [Hok Hc] Hp Hb. eapply wp_mono; [by apply (mon_get_ok n B)|].
  intros v mo' (->&Hv&Hok'&Hc'). rewrite Hc in *. repeat split; try done; try lia. intros. by rewrite Hc'.
Qed.

Lemma mu_nn p a i : 0 < i < two32 -> nn (mu c p a i) = true.
Proof.
  intros Hi. apply ddiv_nn; [apply d_of_Z_nn, u32_range|]. apply d_of_Z_pos. unfold two32 in *. lia.
Qed.

(** The best amount for [part] among those below [i]. *)
Definition BestAmount (part : nat) (a i : Z) (x : double) (k : Z) : Prop :=
  (i = 1 /\ x = d_of_Z (-1) /\ k = 0) \/
  (1 <= k < i /\ x = mu c part a k /\ forall j, 1 <= j < i -> dlt x (mu c part a j) = false).

Lemma mmu_loop_spec part a m : forall i x k mo, Reads mo -> (part < n)%nat -> 0 <= a -> 1 <= i ->
  a + i + Z.of_nat m <= Z.of_nat B + 1 -> BestAmount part a i x k ->
  wp (mmu_loop m i part a x k) (fun r mo' => BestAmount part a (i + Z.of_nat m) r.1 r.2 /\ Reads mo') mo.
Proof.
  induction m as [|m IH]; intros i x k mo HR Hp Ha Hi Hb HBA; cbn [mmu_loop]; wp_steps.
  { by rewrite Z.add_0_r. }
  eapply wp_mono; [apply get_reads; [done|done|lia]|]. intros cur mo1 (->&_&HR1). wp_steps.
  rewrite u32_small by lia.
  eapply wp_mono; [apply get_reads; [done|done|lia]|]. intros more mo2 (->&_&HR2).
  fold (mu c part a i). pose proof (mu_nn part a i ltac:(unfold two32 in *; lia)) as Hnn.
  replace (i + Z.of_nat (S m)) with (i + 1 + Z.of_nat m) by lia.
  destruct (dlt x (mu c part a i)) eqn:E; apply IH; try done; try lia; right.
  - split; [lia|]. split; [done|]. intros j Hj. destruct (decide (j = i)) as [->|]; [apply dlt_irrefl|].
    destruct HBA as [(->&_)|(Hk&->&Hall)]; [lia|].
    eapply (dlt_upper (mu c part a k)); try done; try (apply mu_nn; unfold two32 in *; lia). apply Hall. lia.
  - destruct HBA as [(->&->&->)|(Hk&->&Hall)]; [by rewrite nn_above_minus_one in E|].
    split; [lia|]. split; [done|]. intros j Hj. destruct (decide (j = i)) as [->|]; [done|]. apply Hall. lia.
Qed.

Lemma getMaxMarginalUtility_spec part a balance mo : Reads mo -> (part < n)%nat -> 0 <= a -> 0 < balance ->
  a + balance <= Z.of_nat B ->
  wp (getMaxMarginalUtility part a balance) (fun r mo' => 1 <= r.2 <= balance /\ r.1 = mu c part a r.2 /\
    (forall j, 1 <= j <= balance -> dlt r.1 (mu c part a j) = false) /\ Reads mo') mo.
Proof.
  intros HR Hp Ha Hb Hle. eapply wp_mono; [apply mmu_loop_spec; try done; try lia; by left|].
  intros [x k] mo' [HBA HR']. cbn in *. destruct HBA as [(?&_)|(Hk&->&Hall)]; [lia|].
  split; [lia|]. split; [done|]. split; [|done]. intros j Hj. apply Hall. lia.
Qed.

(** The best of the partitions below [i]. *)
Definition BestPart (fb : option (list bool)) (allocs : list Z) (balance : Z) (i : nat) (x : double) (p : nat) (k : Z) : Prop :=
  (x = d_of_Z (-1) /\ forall q, (q < i)%nat -> allowed fb q = false) \/
  (exists a, (p < i)%nat /\ allowed fb p = true /\ allocs !! p = Some a /\ 1 <= k <= balance /\ x = mu c p a k /\
    unbeaten c fb allocs i balance x).

(** The list of forbidden partitions covers them all. *)
Definition covers (fb : option (list bool)) : Prop := match fb with None => True | Some l => length l = n end.

Lemma is_forbidden_spec fb i : covers fb -> (i < n)%nat -> is_forbidden fb i = Ok (negb (allowed fb i)).
Proof.
  intros Hc Hi. destruct fb as [l|]; [|done]. cbn in *. unfold arr_get.
  destruct (lookup_lt_is_Some_2 l i) as [b Hb]; [lia|]. rewrite Hb. cbn. by rewrite negb_involutive.
Qed.

Lemma bestPart_next fb allocs balance i a x p k y j : allocs !! i = Some a -> 0 < balance < two32 ->
  BestPart fb allocs balance i x p k -> allowed fb i = true -> 1 <= j <= balance -> y = mu c i a j ->
  (forall j, 1 <= j <= balance -> dlt y (mu c i a j) = false) ->
  if dlt x y then BestPart fb allocs balance (S i) y i j else BestPart fb allocs balance (S i) x p k.
Proof.
  intros Ha Hb HP Hal Hj -> Hmax.
  assert (forall p a j, 1 <= j <= balance -> nn (mu c p a j) = true) as Hnn by (intros; apply mu_nn; lia).
  destruct (dlt x (mu c i a j)) eqn:E.
  - right. exists a. repeat split; try done; try lia. intros q b j' Hq Halq Hbq Hj'.
    destruct (decide (q = i)) as [->|]; [simplify_eq; by apply Hmax|].
    destruct HP as [[_ Hno]|(a'&Hp&_&Ha'&Hk&->&Hun)]; [rewrite Hno in Halq by lia; done|].
    eapply (dlt_upper (mu c p a' k)); auto. eapply Hun; eauto. lia.
  - destruct HP as [[-> Hno]|(a'&Hp&Halp&Ha'&Hk&->&Hun)]; [by rewrite nn_above_minus_one in E by auto|].
    right. exists a'. repeat split; try done; try lia. intros q b j' Hq Halq Hbq Hj'.
    destruct (decide (q = i)) as [->|]; [simplify_eq|eapply Hun; eauto; lia].
    eapply (dge_trans _ (mu c i a j)); auto.
Qed.

Lemma best_part_spec fb allocs balance m : covers fb -> length allocs = n -> 0 < balance ->
  (forall p a, allocs !! p = Some a -> 0 <= a /\ a + balance <= Z.of_nat B) ->
  forall i x p k mo, Reads mo -> (i + m = n)%nat -> BestPart fb allocs balance i x p k ->
  wp (best_part m i fb allocs balance x p k)
    (fun r mo' => BestPart fb allocs balance n r.1.1 r.1.2 r.2 /\ Reads mo') mo.
Proof.
  intros Hcov Hl Hb Hbound. induction m as [|m IH]; intros i x p k mo HR Him HP; cbn [best_part]; wp_steps.
  { rewrite Nat.add_0_r in Him. by subst. }
  apply wp_lift. rewrite is_forbidden_spec by (done || lia). cbn.
  destruct (allowed fb i) eqn:Hal; cbn [negb].
  - destruct (arr_get_lt allocs i) as (a&Ha&Ea); [lia|]. wp_steps. apply wp_lift. rewrite Ea. cbn. wp_steps.
    destruct (Hbound _ _ Ha) as [Ha0 HaB].
    eapply wp_mono; [apply getMaxMarginalUtility_spec; try done; lia|].
    intros [y j] mo1 (Hj&Hy&Hmax&HR1). cbn in *.
    pose proof (bestPart_next fb allocs balance i a x p k y j Ha ltac:(lia) HP Hal Hj Hy Hmax) as HN.
    destruct (dlt x y); apply IH; try done; lia.
  - apply IH; try done; try lia. destruct HP as [[-> Hno]|(a&Hp&Halp&Ha&Hk&->&Hun)].
    + left. split; [done|]. intros q Hq. destruct (decide (q = i)) as [->|]; [done|]. apply Hno. lia.
    + right. exists a. repeat split; try done; try lia. intros q b j Hq Halq. apply Hun; [|done].
      assert (q <> i) by congruence. lia.
Qed.

Lemma alloc_loop_spec fb fuel : covers fb -> (exists p, (p < n)%nat /\ allowed fb p = true) ->
  forall allocs balance mo, Reads mo -> length allocs = n -> 0 <= balance <= Z.of_nat fuel ->
  (forall p a, allocs !! p = Some a -> 0 <= a /\ a + balance <= Z.of_nat B) ->
  wp (alloc_loop fuel n fb allocs balance) (fun r mo' => greedy c fb allocs balance r /\ Reads mo') mo.
Proof.
  intros Hcov (p0&Hp0&Hal0). induction fuel as [|fuel IH]; intros allocs balance mo HR Hl Hf Hbound; cbn [alloc_loop];
    destruct (Z.ltb_spec 0 balance); try (wp_steps; replace balance with 0 by lia; split; [constructor|done]); [lia|].
  wp_steps. eapply wp_mono; [apply best_part_spec; try done; left; split; [done|lia]|].
  intros [[x p] k] mo1 [[[_ Hno]|(a&Hp&Hal&Ha&Hk&Hx&Hun)] HR1]; cbn in *; [by rewrite Hno in Hal0|].
  wp_steps. apply wp_assert; [by apply Nat.ltb_lt|]. wp_steps. apply wp_lift. rewrite (arr_get_Some _ _ _ Ha). cbn.
  wp_steps. apply wp_lift. rewrite arr_set_lt by lia. cbn. destruct (Hbound _ _ Ha).
  rewrite !u32_small by lia.
  eapply wp_mono; [apply IH; [done|by rewrite length_insert|lia|]|].
  - intros q b Hq. destruct (decide (p = q)) as [<-|].
    + rewrite list_lookup_insert_eq in Hq by lia. simplify_eq. lia.
    + rewrite list_lookup_insert_ne in Hq by done. specialize (Hbound _ _ Hq). lia.
  - intros r mo2 [Hg HR2]. split; [|done]. subst x. rewrite <- Hl in Hun. by eapply greedy_give.
Qed.

(** The total utility of sizes that the curves cover can be computed. *)
Lemma utility_loop_spec parts : (forall p a, (p < n)%nat -> parts !! p = Some a -> 0 <= a <= Z.of_nat B) -> (n <= length parts)%nat ->
  forall m p x y mo, Reads mo -> (p + m = n)%nat -> wp (utility_loop m p parts x y) (fun _ mo' => Reads mo') mo.
Proof.
  intros Hparts Hlen. induction m as [|m IH]; intros p x y mo HR Hp; cbn [utility_loop]; wp_steps; [done|].
  eapply wp_mono; [apply get_reads; [done|lia|lia]|]. intros m0 mo1 (_&_&HR1). wp_steps. apply wp_lift.
  destruct (arr_get_lt parts p) as (a&Ha&->); [lia|]. cbn. wp_steps. specialize (Hparts p a ltac:(lia) Ha).
  eapply wp_mono; [apply get_reads; [done|lia|lia]|]. intros m1 mo2 (_&_&HR2). apply IH; [done|lia].
Qed.
End Laws.
End Lookahead.

(** ** The partitioner *)

(** What the partitioner calls of a partitioned replacement policy [P] that owns a monitor [Mo]. *)
Class PartRepl (P Mo : Type) := {
  prp_monitor : P -> Mo;
  prp_set_monitor : Mo -> P -> P;
  prp_setPartitionSizes : list Z -> M P unit
}.

Module Partitioner.

Record LookaheadPartitioner := mkPart {
  minAlloc : Z;
  allocPortion : double;
  forbidden : option (list bool);
  numPartitions : nat;
  buckets : nat;
  curAllocs : list Z }.

Definition init (numPartitions buckets : nat) (minAlloc : Z) (allocPortion : double) (forbidden : option (list bool)) :
    res LookaheadPartitioner :=
  rassert (0 <? buckets)%nat "Must have non-zero buckets to avoid divide-by-zero exception.";;
  Ok (mkPart minAlloc allocPortion forbidden numPartitions buckets (replicate (buckets + 1) 0)).

Section Ops.
Context {P Mo : Type} `{PartitionMonitor Mo} `{PartRepl P Mo}.

(** The state: the partitioner and the policy it drives. *)
Definition St : Type := LookaheadPartitioner * P.

Definition on_repl {A} (f : M P A) : M St A :=
  fun '(l, r) => match f r with Ok (a, r') => Ok (a, (l, r')) | Err e => Err e end.
Definition on_monitor {A} (f : M Mo A) : M St A :=
  fun '(l, r) => match f (prp_monitor r) with Ok (a, mo) => Ok (a, (l, prp_set_monitor mo r)) | Err e => Err e end.
Definition set_allocs (a : list Z) (s : St) : St :=
  let '(l, r) := s in
  (mkPart (minAlloc l) (allocPortion l) (forbidden l) (numPartitions l) (buckets l) a, r).

(** [std::copy(bestAllocs, bestAllocs+numPartitions, curAllocs)]. *)
Fixpoint copy_allocs (i : nat) (best cur : list Z) : res (list Z) :=
  match best with
  | [] => Ok cur
  | a :: best => cur ← arr_set cur i a; copy_allocs (S i) best cur
  end.

(** [partition] up to the choice of [curAllocs]. *)
Definition choose_allocs : M St unit :=
  '(l, _) ← mget;
  bkts ← mlift (d_to_u32 (dmul (allocPortion l) (d_of_Z (Z.of_nat (buckets l)))));
  bestAllocs ← on_monitor (Lookahead.computeBestPartitioning (numPartitions l) bkts
    (u32 (minAlloc l * Z.of_nat (numPartitions l))) (forbidden l));
  newUtility ← on_monitor (Lookahead.computePartitioningTotalUtility (numPartitions l) bestAllocs);
  curUtility ← on_monitor (Lookahead.computePartitioningTotalUtility (numPartitions l) (curAllocs l));
  let switchAllocs := (u64 (102 * curUtility) / 100 <? newUtility) in
  let switchAllocs := if curUtility =? 0 then true else switchAllocs in
  let switchAllocs := true in
  if (switchAllocs : bool) then
    cur ← mlift (copy_allocs 0 bestAllocs (curAllocs l)); mmodify (set_allocs cur)
  else mret tt.

Definition partition : M St unit :=
  choose_allocs;;
  '(l, _) ← mget;
  on_repl (prp_setPartitionSizes (curAllocs l));;
  on_monitor pm_reset.
End Ops.
End Partitioner.

(** ** Theorems *)
Section Theorems.
Context {Mo : Type} `{MonitorLaws Mo}.

Lemma lookahead_reads (n B : nat) (minAlloc : Z) (fb : option (list bool)) (mo : Mo) :
  mon_ok n B mo -> Z.of_nat B < two32 -> 0 <= minAlloc <= Z.of_nat B -> Lookahead.covers n fb ->
  (exists p, (p < n)%nat /\ Lookahead.allowed fb p = true) ->
  wp (Lookahead.computeBestPartitioning n (Z.of_nat B) minAlloc fb) (fun allocs mo' =>
    Lookahead.greedy (curve mo) fb (replicate n minAlloc) (Z.of_nat B - minAlloc) allocs /\
    Lookahead.Reads n B (curve mo) mo') mo.
Proof.
  intros Hok HB Hm Hcov Hex. unfold Lookahead.computeBestPartitioning. rewrite u32_small by lia.
  apply (Lookahead.alloc_loop_spec n B (curve mo)); [done..|by rewrite length_replicate|lia|].
  intros p a [-> _]%lookup_replicate. lia.
Qed.

Lemma lookahead_spec (n B : nat) (minAlloc : Z) (fb : option (list bool)) (mo : Mo) :
  mon_ok n B mo -> Z.of_nat B < two32 -> 0 <= minAlloc <= Z.of_nat B -> Lookahead.covers n fb ->
  (exists p, (p < n)%nat /\ Lookahead.allowed fb p = true) ->
  exists allocs mo', Lookahead.computeBestPartitioning n (Z.of_nat B) minAlloc fb mo = Ok (allocs, mo') /\
    Lookahead.greedy (curve mo) fb (replicate n minAlloc) (Z.of_nat B - minAlloc) allocs.
Proof.
  intros Hok HB Hm Hcov Hex.
  edestruct (wp_elim _ _ _ (lookahead_reads n B minAlloc fb mo Hok HB Hm Hcov Hex)) as (allocs&mo'&E&Hg&_). eauto.
Qed.

Lemma zsum_replicate n z : zsum (replicate n z) = Z.of_nat n * z.
Proof. unfold zsum. induction n; cbn [replicate foldr]; [done|]. lia. Qed.

(** C30: (the lookahead algorithm) With a monitor that has the curves, at least one partition that may
    grow and no more minimum than buckets, computeBestPartitioning terminates; it
    follows the greedy rule, giving at each step to the partition and by the amount
    of the highest marginal utility; no partition ends below the minimum, forbidden
    ones stay at it, and the sizes add up to the buckets plus the minimum of all partitions but one,
    because the minimum is subtracted from the buckets only once. *)
Theorem lookahead_allocates (n B : nat) (minAlloc : Z) (fb : option (list bool)) (mo : Mo) :
  mon_ok n B mo -> Z.of_nat B < two32 -> 0 <= minAlloc <= Z.of_nat B -> Lookahead.covers n fb ->
  (exists p, (p < n)%nat /\ Lookahead.allowed fb p = true) ->
  exists allocs mo', Lookahead.computeBestPartitioning n (Z.of_nat B) minAlloc fb mo = Ok (allocs, mo') /\
    Lookahead.greedy (curve mo) fb (replicate n minAlloc) (Z.of_nat B - minAlloc) allocs /\
    length allocs = n /\
    zsum allocs = Z.of_nat B + (Z.of_nat n - 1) * minAlloc /\
    (forall p a, allocs !! p = Some a -> minAlloc <= a /\ (Lookahead.allowed fb p = false -> a = minAlloc)).
Proof.
  intros Hok HB Hm Hcov Hex. destruct (lookahead_spec n B minAlloc fb mo Hok HB Hm Hcov Hex) as (allocs&mo'&E&Hg).
  pose proof (Lookahead.greedy_length _ _ _ _ _ Hg) as Hlen. rewrite length_replicate in Hlen.
  exists allocs, mo'. split; [done|]. split; [done|]. split; [done|]. split.
  - rewrite (Lookahead.greedy_sum _ _ _ _ _ Hg), zsum_replicate. lia.
  - intros p a Ha. assert (p < n)%nat as Hp by (apply lookup_lt_Some in Ha; lia).
    destruct (Lookahead.greedy_grows _ _ _ _ _ Hg p minAlloc) as (a'&Ha'&?&?); [by apply lookup_replicate|].
    by simplify_eq.
Qed.
End Theorems.

Lemma getMisses_short (u : UM.UMon) :
  UM.getMisses u (replicate (UM.buckets u) 0) = Err (Panic "array index out of range").
Proof.
  unfold UM.getMisses. generalize (UM.curWayHits u) (UM.curMisses u). intros hits t.
  destruct (UM.buckets u) as [|k]; [done|]. cbn [UM.fill_misses]. unfold arr_set at 1.
  rewrite length_replicate. by rewrite (proj2 (Nat.ltb_ge _ _)) by lia.
Qed.

Lemma getMissCurve_overruns (m : UMonitor.UMonMonitor) (base p : nat) : (p < length (UMonitor.monitors m))%nat ->
  UMonitor.getMissCurve base p m = Err (Panic "array index out of range").
Proof.
  intros Hp. unfold UMonitor.getMissCurve. destruct (arr_get_lt _ _ Hp) as (u&_&E). rewrite E. cbn [mbind res_bind].
  unfold UMonitor.getMissCurve_in, rassert. rewrite (proj2 (Nat.ltb_lt _ _) Hp). cbn [mbind res_bind].
  rewrite E. cbn [mbind res_bind]. by rewrite getMisses_short.
Qed.

(** (the miss curve overruns its array) Whenever UMonMonitor::get has to compute the curves,
    it writes past the end of the local array umonMisses, which has one entry
    per bucket of the monitor while a curve has one more. *)
Theorem umon_get_overruns (m : UMonitor.UMonMonitor) (p b : nat) :
  UMonitor.missCacheValid m = false -> (p < length (UMonitor.monitors m))%nat ->
  UMonitor.get p b m = Err (Panic "array index out of range").
Proof.
  intros Hv Hp. unfold UMonitor.get, mbind, M_bind, mget, massert. rewrite (proj2 (Nat.ltb_lt _ _) Hp), Hv.
  destruct (length (UMonitor.monitors m)) as [|k] eqn:El; [lia|]. cbn [UMonitor.getMissCurves].
  unfold mbind, M_bind, mget, mlift. by rewrite getMissCurve_overruns by lia.
Qed.

(** The rows of the miss cache overlap: the last entry of a row is the first of the next. *)
Lemma miss_rows_overlap (m : UMonitor.UMonMonitor) (p : nat) :
  UMonitor.missCacheValid m = true -> (S p < length (UMonitor.monitors m))%nat ->
  UMonitor.get p (UMonitor.buckets m) m = UMonitor.get (S p) 0 m.
Proof.
  intros Hv Hp. unfold UMonitor.get, mbind, M_bind, mget, massert. rewrite Hv.
  rewrite !(proj2 (Nat.ltb_lt _ _)) by lia. cbn. by rewrite Nat.add_0_r, Nat.add_comm.
Qed.

(** The mapper of instruction and data partitions maps a fetch to a partition that does not exist. *)
Lemma instr_data_out_of_range (procIdx groupIdx : Z) (req : MemReq) :
  MemReq_is req IFETCH = true ->
  Mapper.getPartition Mapper.InstrDataPartMapper procIdx groupIdx req = Ok 2 /\
  Mapper.getNumPartitions Mapper.InstrDataPartMapper = 2.
Proof.
  intros Hi. split; [|done]. cbn. f_equal. unfold MemReq_is, flag_is in Hi.
  apply negb_true_iff, Z.eqb_neq in Hi. change IFETCH with (2 ^ 1) in *.
  apply Z.bits_inj'. intros i Hi0. rewrite Z.land_spec, Z.pow2_bits_eqb by lia.
  destruct (Z.eqb_spec 1 i) as [<-|]; [|rewrite andb_false_r; symmetry; apply (Z.pow2_bits_false 1); lia].
  rewrite andb_true_r. change (Z.testbit 2 1) with true.
  destruct (Z.testbit (flags req) 1) eqn:E; [done|]. exfalso. apply Hi.
  apply Z.bits_inj'. intros j Hj. rewrite Z.land_spec, Z.pow2_bits_eqb, Z.bits_0 by lia.
  destruct (Z.eqb_spec 1 j) as [<-|]; [by rewrite E|apply andb_false_r].
Qed.

(** ** A monitor with given curves, and examples *)
Module Table.

(** Fixed miss curves, one list per partition; accesses are not recorded. *)
Definition TableMon : Type := list (list Z).

#[global] Instance table_PartitionMonitor : PartitionMonitor TableMon := {|
  pm_numPartitions := length;
  pm_access p a := mret tt;
  pm_get p b := mgets (fun mo : TableMon => default 0 (mo !! p ≫= lookup b));
  pm_reset := mret tt |}.

#[global, refine] Instance table_MonitorLaws : MonitorLaws TableMon := {|
  mon_ok n B mo := forall p b, (p < n)%nat -> (b <= B)%nat -> 0 <= default 0 (mo !! p ≫= lookup b) < two32;
  curve mo p b := default 0 (mo !! p ≫= lookup b) |}.
Proof. intros n B mo p b Hok Hp Hb. unfold wp. cbn. split; [done|]. split; [by apply Hok|]. done. Defined.

(** Two partitions and four buckets: the first gains from two buckets at once, the second a little from each. *)
Definition mon : TableMon := [[100; 100; 20; 20; 20]; [100; 80; 60; 40; 20]].
Lemma mon_ok_4 : mon_ok 2 4 mon.
Proof. intros [|[|p]] [|[|[|[|[|b]]]]] Hp Hb; cbn; unfold two32; lia. Qed.
End Table.

Lemma lookahead_allocates_witness : exists mo',
  Lookahead.computeBestPartitioning 2 4 1 None Table.mon = Ok ([2; 3], mo') /\ zsum [2; 3] = 5.
Proof.
  destruct (lookahead_allocates 2 4 1 None Table.mon) as (allocs&mo'&E&_&_&Hs&_);
    [exact Table.mon_ok_4|done|lia|done|by exists O; split; [lia|]|].
  assert (fst <$> (match Lookahead.computeBestPartitioning 2 4 1 None Table.mon with Ok x => Some x | Err _ => None end) = Some [2; 3])
    as E' by (by vm_compute).
  change (Z.of_nat 4) with 4 in E. rewrite E in E'. cbn in E'. injection E' as ->. exists mo'. split; [exact E|exact Hs].
Defined.

Lemma umon_get_overruns_witness : exists m, UMonitor.init 64 8 4 2 4 = Ok m /\ UMonitor.get 1 0 m = Err (Panic "array index out of range").
Proof.
  eexists. split; [reflexivity|]. apply umon_get_overruns; [reflexivity|cbn; lia].
Defined.
