(* ===== verification/TimingEvent.v ===== *)
(** * Timing events and event recorders
      (src/src/timing_event.h, timing_event.cpp, event_recorder.h)

    Events live in a heap: an event pointer is a key of a finite map, [new]
    takes a fresh key and [freeEvent] removes the entry, so that a use after
    the free is a failure of the model.  [enqueue] of the contention simulator
    is recorded as a list of (event, cycle) pairs. *)

From S2P Require Import Prelude Bithacks MemHier.

Definition TIMING_BLOCK_EVENTS : nat := 3.

Inductive EventState :=
  EV_INVALID | EV_NONE | EV_QUEUED | EV_RUNNING | EV_HELD | EV_DONE.
#[global] Instance EventState_eq_dec : EqDecision EventState.
Proof. solve_decision. Defined.

(** [TimingEventBlock::events]; the [next] pointer is the list structure of
    [Blocks], newest block first. *)
Definition TimingEventBlock : Type := list (option nat).

(** The union of [TimingEvent* child] and [TimingEventBlock* children]. *)
Inductive Children :=
| Child (ev : option nat)
| Blocks (bs : list TimingEventBlock).

(** The dynamic class of an event, which selects [parentDone] and [simulate], with the
    fields of the subclass: TimingCoreEvent (the recorder [cRec] by its index, and
    origStartCycle), WeaveMemAccEvent, DelayEvent, and the others. *)
Inductive EvClass :=
| ClsTiming
| ClsDelay
| ClsCore (cRec : nat) (origStartCycle : Z)
| ClsMem (lat : Z).
#[global] Instance EvClass_eq_dec : EqDecision EvClass.
Proof. solve_decision. Defined.

Record TimingEvent := mkEvent {
  ev_class : EvClass;
  ev_state : EventState;
  ev_cycle : Z;
  ev_minStartCycle : Z;
  ev_children : Children;
  ev_domain : Z;
  ev_numChildren : Z;
  ev_numParents : Z;
  ev_preDelay : Z;
  ev_postDelay : Z
}.

Record EvHeap := mkHeap {
  hp_events : gmap nat TimingEvent;
  hp_next : nat;
  hp_queue : list (nat * Z)
}.

Definition empty_heap : EvHeap := mkHeap ∅ 0 [].

(** Field assignments. *)
Definition ev_set_state (s : EventState) (e : TimingEvent) : TimingEvent :=
  mkEvent (ev_class e) s (ev_cycle e) (ev_minStartCycle e) (ev_children e) (ev_domain e)
    (ev_numChildren e) (ev_numParents e) (ev_preDelay e) (ev_postDelay e).
Definition ev_set_cycle (c : Z) (e : TimingEvent) : TimingEvent :=
  mkEvent (ev_class e) (ev_state e) c (ev_minStartCycle e) (ev_children e) (ev_domain e)
    (ev_numChildren e) (ev_numParents e) (ev_preDelay e) (ev_postDelay e).
Definition ev_set_minStartCycle (c : Z) (e : TimingEvent) : TimingEvent :=
  mkEvent (ev_class e) (ev_state e) (ev_cycle e) c (ev_children e) (ev_domain e)
    (ev_numChildren e) (ev_numParents e) (ev_preDelay e) (ev_postDelay e).
Definition ev_set_children (ch : Children) (n : Z) (e : TimingEvent) : TimingEvent :=
  mkEvent (ev_class e) (ev_state e) (ev_cycle e) (ev_minStartCycle e) ch (ev_domain e)
    n (ev_numParents e) (ev_preDelay e) (ev_postDelay e).
Definition ev_set_domain (d : Z) (e : TimingEvent) : TimingEvent :=
  mkEvent (ev_class e) (ev_state e) (ev_cycle e) (ev_minStartCycle e) (ev_children e) d
    (ev_numChildren e) (ev_numParents e) (ev_preDelay e) (ev_postDelay e).
Definition ev_set_numParents (n : Z) (e : TimingEvent) : TimingEvent :=
  mkEvent (ev_class e) (ev_state e) (ev_cycle e) (ev_minStartCycle e) (ev_children e)
    (ev_domain e) (ev_numChildren e) n (ev_preDelay e) (ev_postDelay e).

Abbreviation EvM := (M EvHeap).

Definition get_ev (p : nat) : EvM TimingEvent := fun h =>
  match hp_events h !! p with
  | Some e => Ok (e, h)
  | None => Err (Panic "event pointer is null or freed")
  end.
Definition put_ev (p : nat) (e : TimingEvent) : EvM unit :=
  mmodify (fun h => mkHeap (<[p := e]> (hp_events h)) (hp_next h) (hp_queue h)).
Definition modify_ev (p : nat) (f : TimingEvent -> TimingEvent) : EvM unit :=
  e ← get_ev p; put_ev p (f e).

(** [new (evRec) TimingEvent(preDelay, postDelay, domain)] and
    [new (evRec) DelayEvent(delay)]; [minStartCycle] starts at [-1L]. *)
Definition new_TimingEvent (cls : EvClass) (preDelay postDelay domain : Z) : EvM nat := fun h =>
  let p := hp_next h in
  let e := mkEvent cls EV_NONE 0 (two64 - 1) (Child None) domain 0 0 preDelay postDelay in
  Ok (p, mkHeap (<[p := e]> (hp_events h)) (Nat.succ p) (hp_queue h)).
Definition new_DelayEvent (delay : Z) : EvM nat := new_TimingEvent ClsDelay delay 0 (-1).

Definition setMinStartCycle (p : nat) (c : Z) : EvM unit :=
  modify_ev p (ev_set_minStartCycle c).

(** The prefix of a block that [visitChildren] walks: it stops at the first
    null entry. *)
Fixpoint block_events (b : TimingEventBlock) : list nat :=
  match b with Some e :: b' => e :: block_events b' | _ => [] end.

(** The children in the order [visitChildren] visits them. *)
Definition children_list (numChildren : Z) (ch : Children) : list nat :=
  if numChildren =? 0 then []
  else match ch with
       | Child c => option_list c
       | Blocks bs => mjoin (block_events <$> bs)
       end.

(** [visitChildren(f)], with its final assertion. *)
Fixpoint mapM_ {S A} (f : A -> M S unit) (l : list A) : M S unit :=
  match l with [] => mret tt | a :: l' => f a ≫= fun _ => mapM_ f l' end.

Definition visitChildren (p : nat) (f : nat -> EvM unit) : EvM unit :=
  e ← get_ev p;
  let l := children_list (ev_numChildren e) (ev_children e) in
  mapM_ f l ≫= fun _ =>
  if ev_numChildren e <? 2 then mret tt
  else massert (Z.of_nat (length l) =? ev_numChildren e) "visitedChildren == numChildren".

Fixpoint propagateDomain (fuel : nat) (p : nat) (dom : Z) : EvM unit :=
  match fuel with
  | O => fun _ => Err OutOfFuel
  | Datatypes.S fuel' =>
    e ← get_ev p;
    massert (ev_domain e =? -1) "domain == -1" ≫= fun _ =>
    put_ev p (ev_set_domain dom e) ≫= fun _ =>
    visitChildren p (fun c =>
      ce ← get_ev c;
      if ev_domain ce =? -1 then propagateDomain fuel' c dom else mret tt)
  end.

Definition empty_block : TimingEventBlock := replicate TIMING_BLOCK_EVENTS None.

(** The update of [numChildren] and the union in [addChild]. *)
Definition add_to_children (n : Z) (ch : Children) (childEv : nat) : Children * Z :=
  if n =? 0 then (Child (Some childEv), 1)
  else if n =? 1 then
    let firstChild := match ch with Child c => c | Blocks _ => None end in
    (Blocks [<[1%nat := Some childEv]> (<[0%nat := firstChild]> empty_block)], 2)
  else
    let idx := Z.to_nat (n mod Z.of_nat TIMING_BLOCK_EVENTS) in
    let bs := match ch with Blocks bs => bs | Child _ => [] end in
    let bs := if (idx =? 0)%nat then empty_block :: bs else bs in
    (Blocks (match bs with b :: r => <[idx := Some childEv]> b :: r | [] => [] end), u32 (n + 1)).

Definition addChild (fuel : nat) (p childEv : nat) : EvM nat :=
  e ← get_ev p;
  massert (bool_decide (ev_state e = EV_NONE) || bool_decide (ev_state e = EV_QUEUED))
    "adding child in invalid state" ≫= fun _ =>
  ce ← get_ev childEv;
  massert (bool_decide (ev_state ce = EV_NONE)) "childEv->state == EV_NONE" ≫= fun _ =>
  let '(ch, n) := add_to_children (ev_numChildren e) (ev_children e) childEv in
  put_ev p (ev_set_children ch n e) ≫= fun _ =>
  (if negb (ev_domain e =? -1) && (ev_domain ce =? -1)
   then propagateDomain fuel childEv (ev_domain e) else mret tt) ≫= fun _ =>
  modify_ev childEv (fun ce => ev_set_numParents (u32 (ev_numParents ce + 1)) ce) ≫= fun _ =>
  mret childEv.

(** [freeEvent()]. *)
Definition freeEvent (p : nat) : EvM unit :=
  mmodify (fun h => mkHeap (delete p (hp_events h)) (hp_next h) (hp_queue h)).

(** [zinfo->contentionSim->enqueue(ev, cycle)]. *)
Definition enqueue (p : nat) (c : Z) : EvM unit :=
  mmodify (fun h => mkHeap (hp_events h) (hp_next h) (hp_queue h ++ [(p, c)])).

Definition hold (p : nat) : EvM unit :=
  e ← get_ev p;
  massert (bool_decide (ev_state e = EV_RUNNING)) "called hold()" ≫= fun _ =>
  put_ev p (ev_set_state EV_HELD e).
Definition release (p : nat) : EvM unit :=
  e ← get_ev p;
  massert (bool_decide (ev_state e = EV_HELD)) "state should be EV_HELD" ≫= fun _ =>
  put_ev p (ev_set_state EV_RUNNING e).

(** [queue] (first enqueue, bound phase) and [requeue] (weave phase). *)
Definition queue_ev (p : nat) (nextCycle : Z) : EvM unit :=
  e ← get_ev p;
  massert (bool_decide (ev_state e = EV_NONE) && (ev_numParents e =? 0)) "queue" ≫= fun _ =>
  put_ev p (ev_set_state EV_QUEUED e) ≫= fun _ => enqueue p nextCycle.
Definition requeue_ev (p : nat) (nextCycle : Z) : EvM unit :=
  e ← get_ev p;
  massert (ev_numParents e =? 0) "requeue: numParents == 0" ≫= fun _ =>
  massert (bool_decide (ev_state e = EV_RUNNING) || bool_decide (ev_state e = EV_HELD))
    "requeue: state" ≫= fun _ =>
  put_ev p (ev_set_state EV_QUEUED e) ≫= fun _ => enqueue p nextCycle.

(** [done] and the two [parentDone]s call each other along the event graph. *)
Fixpoint ev_done (fuel : nat) (p : nat) (doneCycle : Z) : EvM unit :=
  match fuel with
  | O => fun _ => Err OutOfFuel
  | Datatypes.S fuel' =>
    e ← get_ev p;
    massert (bool_decide (ev_state e = EV_RUNNING)) "state == EV_RUNNING" ≫= fun _ =>
    put_ev p (ev_set_state EV_DONE e) ≫= fun _ =>
    visitChildren p (fun c => parentDone fuel' c (u64 (doneCycle + ev_postDelay e))) ≫= fun _ =>
    freeEvent p
  end
with parentDone (fuel : nat) (p : nat) (startCycle : Z) : EvM unit :=
  match fuel with
  | O => fun _ => Err OutOfFuel
  | Datatypes.S fuel' =>
    e ← get_ev p;
    let cyc := MAX (ev_cycle e) startCycle in
    match ev_class e with
    | ClsDelay =>
      let np := u32 (ev_numParents e - 1) in
      let e := ev_set_numParents np (ev_set_cycle cyc e) in
      if np =? 0 then
        put_ev p (ev_set_state EV_RUNNING e) ≫= fun _ =>
        ev_done fuel' p (u64 (cyc + ev_preDelay e))
      else put_ev p e
    | _ =>
      massert (negb (ev_numParents e =? 0)) "numParents" ≫= fun _ =>
      let np := u32 (ev_numParents e - 1) in
      let e := ev_set_numParents np (ev_set_cycle cyc e) in
      if np =? 0 then
        massert (bool_decide (ev_state e = EV_NONE)) "state == EV_NONE" ≫= fun _ =>
        put_ev p (ev_set_state EV_QUEUED e) ≫= fun _ =>
        enqueue p (u64 (cyc + ev_preDelay e))
      else put_ev p e
    end
  end.

(** The first half of [run], before [simulate]. *)
Definition run_ev (p : nat) (startCycle : Z) : EvM TimingEvent :=
  e ← get_ev p;
  massert (bool_decide (ev_state e = EV_NONE) || bool_decide (ev_state e = EV_QUEUED)) "run: state" ≫= fun _ =>
  put_ev p (ev_set_state EV_RUNNING e) ≫= fun _ =>
  massert (ev_minStartCycle e <=? startCycle) "startCycle >= minStartCycle" ≫= fun _ =>
  mret e.

(** [produceCrossings] where no edge crosses domains; a crossing, which would create a
    CrossingEvent, is outside of the model and stops it. *)
Fixpoint produceCrossings (fuel : nat) (p : nat) : EvM unit :=
  match fuel with
  | O => fun _ => Err OutOfFuel
  | Datatypes.S fuel' =>
    e ← get_ev p;
    massert (negb (ev_domain e =? -1)) "domain != -1" ≫= fun _ =>
    visitChildren p (fun c =>
      ce ← get_ev c;
      massert (ev_domain ce =? ev_domain e) "handleCrossing" ≫= fun _ =>
      produceCrossings fuel' c)
  end.

(** ** Timing records and event recorders *)
Record TimingRecord := mkRecord {
  tr_addr : Z;
  tr_reqCycle : Z;
  tr_respCycle : Z;
  tr_type : AccessType;
  tr_startEvent : option nat;
  tr_endEvent : option nat
}.
Definition tr_isValid (r : TimingRecord) : bool := bool_decide (is_Some (tr_startEvent r)).
Definition tr_clear (r : TimingRecord) : TimingRecord :=
  mkRecord (tr_addr r) (tr_reqCycle r) (tr_respCycle r) (tr_type r) None (tr_endEvent r).

Record EventRecorder := mkRecorder {
  er_tr : TimingRecord;
  er_srcId : nat;
  er_lastGapCycles : Z;
  er_lastStartSlack : Z
}.
Definition er_with_tr (er : EventRecorder) (r : TimingRecord) : EventRecorder :=
  mkRecorder r (er_srcId er) (er_lastGapCycles er) (er_lastStartSlack er).
Definition hasRecord (er : EventRecorder) : bool := tr_isValid (er_tr er).
Definition popRecord (er : EventRecorder) : TimingRecord * EventRecorder :=
  (er_tr er, er_with_tr er (tr_clear (er_tr er))).
Definition pushRecord (er : EventRecorder) (r : TimingRecord) : res EventRecorder :=
  _ ← rassert (negb (tr_isValid (er_tr er))) "!tr.isValid()";
  _ ← rassert (tr_isValid r) "tr.isValid()";
  Ok (er_with_tr er r).
Definition getSlack (er : EventRecorder) (origStartCycle : Z) : Z :=
  u64 (origStartCycle + er_lastStartSlack er).
Definition setGapCycles (er : EventRecorder) (g : Z) : EventRecorder :=
  mkRecorder (er_tr er) (er_srcId er) g (er_lastStartSlack er).
Definition setStartSlack (er : EventRecorder) (s : Z) : EventRecorder :=
  if er_lastStartSlack er =? s then er
  else mkRecorder (er_tr er) (er_srcId er) (er_lastGapCycles er) s.

(** ** The children of an event *)
Definition add_children (cs : list nat) : Children * Z :=
  fold_left (fun s c => add_to_children (snd s) (fst s) c) cs (Child None, 0).

(** The blocks of [n >= 2] children: the newest one is filled from its start, the others
    are full. *)
Definition newest (k : Z) (b : TimingEventBlock) : Prop :=
  (k = 1 /\ exists x, b = [Some x; None; None]) \/ (k = 2 /\ exists x y, b = [Some x; Some y; None]) \/
  (k = 0 /\ exists x y z, b = [Some x; Some y; Some z]).
Definition Shape (n : Z) (ch : Children) (cs : list nat) : Prop :=
  n = Z.of_nat (length cs) /\ children_list n ch ≡ₚ cs /\
  match cs with
  | [] => ch = Child None
  | [c] => ch = Child (Some c)
  | _ => exists b r, ch = Blocks (b :: r) /\ newest (n mod 3) b
  end.

Lemma mod3_succ n : (n + 1) mod 3 = (n mod 3 + 1) mod 3.
Proof. by rewrite Zplus_mod_idemp_l. Qed.

Lemma blocks_list n b r : 2 <= n -> children_list n (Blocks (b :: r)) = block_events b ++ mjoin (block_events <$> r).
Proof. intros Hn. unfold children_list. by rewrite (proj2 (Z.eqb_neq n 0)) by lia. Qed.

(** Adding to the blocks keeps their shape and adds the child to the visited ones. *)
Lemma add_to_blocks n b r c :
  2 <= n -> n + 1 < two32 -> newest (n mod 3) b ->
  exists b' r', add_to_children n (Blocks (b :: r)) c = (Blocks (b' :: r'), n + 1) /\ newest ((n + 1) mod 3) b' /\
    children_list (n + 1) (Blocks (b' :: r')) ≡ₚ c :: children_list n (Blocks (b :: r)).
Proof.
  intros Hn Hlt Hb. unfold add_to_children. rewrite (proj2 (Z.eqb_neq n 0)), (proj2 (Z.eqb_neq n 1)) by lia.
  rewrite u32_small by lia. change (Z.of_nat TIMING_BLOCK_EVENTS) with 3.
  rewrite mod3_succ. destruct Hb as [[E (x & ->)]|[[E (x & y & ->)]|[E (x & y & z & ->)]]]; rewrite E; cbn.
  - eexists _, _. split; [done|]. split; [right; left; by repeat eexists|]. rewrite !blocks_list by lia. cbn. apply Permutation_swap.
  - eexists _, _. split; [done|]. split; [right; right; by repeat eexists|]. rewrite !blocks_list by lia. cbn.
    symmetry. apply (Permutation_middle [x; y]).
  - eexists _, _. split; [done|]. split; [left; by repeat eexists|]. rewrite !blocks_list by lia. done.
Qed.

(** One more child keeps the shape. *)
Lemma Shape_add n ch cs c : Z.of_nat (length cs) + 1 < two32 -> Shape n ch cs ->
  Shape (snd (add_to_children n ch c)) (fst (add_to_children n ch c)) (cs ++ [c]).
Proof.
  intros Hlt (-> & HP & Hs). destruct cs as [|c1 [|c2 cs]].
  - subst ch. done.
  - subst ch. split; [done|]. split; [done|]. cbn. eexists _, _. split; [done|]. right; left. by repeat eexists.
  - destruct Hs as (b & r & -> & Hb). set (l := c1 :: c2 :: cs) in *.
    destruct (add_to_blocks (Z.of_nat (length l)) b r c) as (b' & r' & E & Hb' & HP'); [cbn; lia|lia|done|].
    rewrite E. cbn [fst snd]. split; [rewrite length_app; cbn [length]; lia|]. split.
    + rewrite HP', HP. apply Permutation_cons_append.
    + cbn. by exists b', r'.
Qed.

Lemma add_children_shape cs : Z.of_nat (length cs) < two32 ->
  Shape (snd (add_children cs)) (fst (add_children cs)) cs.
Proof.
  induction cs as [|c cs IH] using rev_ind; intros Hlt; [done|].
  rewrite length_app in Hlt. cbn in Hlt. unfold add_children in *. rewrite fold_left_app. cbn [fold_left].
  destruct (fold_left _ cs (Child None, 0)) as [ch n]. cbn [fst snd] in *. apply Shape_add; [lia|]. apply IH. lia.
Qed.

(** [addChild] and [visitChildren] agree on the block structure: after adding any
    sequence of children (fewer than 2^32) to a new event, the count is their number and
    the visit reaches each added child, as many times as it was added and no other, so
    the assertion that closes the visit holds. *)
Theorem children_visited cs :
  Z.of_nat (length cs) < two32 ->
  let '(ch, n) := add_children cs in
  n = Z.of_nat (length cs) /\ children_list n ch ≡ₚ cs /\ Z.of_nat (length (children_list n ch)) = n.
Proof.
  intros Hlt. destruct (add_children_shape cs Hlt) as (E & HP & _). destruct (add_children cs) as [ch n].
  cbn [fst snd] in *. split; [done|]. split; [done|]. by rewrite HP.
Qed.

Lemma children_visited_witness :
  children_list 5 (fst (add_children [10; 11; 12; 13; 14]%nat)) ≡ₚ [10; 11; 12; 13; 14]%nat.
Proof.
  pose proof (children_visited [10; 11; 12; 13; 14]%nat) as H. cbn [length] in H.
  assert (Hlt : Z.of_nat 5 < two32) by reflexivity. specialize (H Hlt).
  destruct (add_children [10; 11; 12; 13; 14]%nat) as [ch n] eqn:E. destruct H as (-> & HP & _). exact HP.
Defined.

(** ** The start of an event *)
Definition latest (c : Z) (starts : list Z) : Z := fold_left MAX starts c.

Lemma parentDone_step fuel p e h s :
  hp_events h !! p = Some e -> ev_class e <> ClsDelay -> ev_state e = EV_NONE -> 0 < ev_numParents e < two32 ->
  parentDone (Datatypes.S fuel) p s h =
    Ok (tt, let e' := ev_set_numParents (ev_numParents e - 1) (ev_set_cycle (MAX (ev_cycle e) s) e) in
            if ev_numParents e =? 1
            then mkHeap (<[p := ev_set_state EV_QUEUED e']> (hp_events h)) (hp_next h)
                   (hp_queue h ++ [(p, u64 (MAX (ev_cycle e) s + ev_preDelay e))])
            else mkHeap (<[p := e']> (hp_events h)) (hp_next h) (hp_queue h)).
Proof.
  intros He Hc Hs Hn. cbn [parentDone]. unfold mbind, M_bind, get_ev. rewrite He.
  destruct (ev_class e) eqn:Ec; try done; unfold massert; rewrite (proj2 (Z.eqb_neq _ 0)) by lia; cbn [negb];
    rewrite u32_small by lia; (destruct (Z.eqb_spec (ev_numParents e) 1) as [E|E];
      [rewrite E; cbn; by rewrite Hs, bool_decide_eq_true_2|by rewrite (proj2 (Z.eqb_neq _ 0)) by lia]).
Qed.

Lemma parents_done_spec fuel p starts : forall e h,
  hp_events h !! p = Some e -> ev_class e <> ClsDelay -> ev_state e = EV_NONE ->
  ev_numParents e = Z.of_nat (length starts) -> starts <> [] -> ev_numParents e < two32 ->
  exists h', mapM_ (parentDone (Datatypes.S fuel) p) starts h = Ok (tt, h') /\
    hp_queue h' = hp_queue h ++ [(p, u64 (latest (ev_cycle e) starts + ev_preDelay e))] /\
    hp_events h' = <[p := ev_set_state EV_QUEUED (ev_set_numParents 0 (ev_set_cycle (latest (ev_cycle e) starts) e))]> (hp_events h).
Proof.
  induction starts as [|s starts IH]; intros e h He Hc Hs Hn Hne Hlt; [done|]. cbn [length] in Hn.
  cbn [mapM_]. unfold mbind at 1, M_bind at 1. rewrite (parentDone_step fuel p e h s) by (try done; lia). cbn zeta.
  destruct starts as [|s' starts].
  - cbn [length] in Hn. rewrite Hn. cbn. eexists. by split.
  - rewrite (proj2 (Z.eqb_neq _ 1)) by (cbn [length] in Hn; lia).
    set (e' := ev_set_numParents _ _). set (h1 := mkHeap _ _ _).
    destruct (IH e' h1) as (h' & E & Eq & Ee).
    + unfold h1. cbn. by rewrite lookup_insert_eq.
    + exact Hc.
    + done.
    + unfold e'. cbn [ev_numParents ev_set_numParents]. lia.
    + done.
    + unfold e'. cbn [ev_numParents ev_set_numParents]. lia.
    + exists h'. split; [exact E|]. split; [exact Eq|]. rewrite Ee. unfold h1. cbn [hp_events]. by rewrite insert_insert_eq.
Qed.

(** An event with [n] parents is handed to the contention simulator exactly once, when
    the last of them is done: at the latest of their completion cycles (and of its own
    cycle) plus its pre-delay. *)
Theorem event_starts_after_parents fuel p e h starts :
  hp_events h !! p = Some e -> ev_class e <> ClsDelay -> ev_state e = EV_NONE ->
  ev_numParents e = Z.of_nat (length starts) -> starts <> [] -> ev_numParents e < two32 ->
  exists h', mapM_ (parentDone (Datatypes.S fuel) p) starts h = Ok (tt, h') /\
    hp_queue h' = hp_queue h ++ [(p, u64 (latest (ev_cycle e) starts + ev_preDelay e))] /\
    (forall s, s ∈ starts -> s <= latest (ev_cycle e) starts) /\
    option_map ev_state (hp_events h' !! p) = Some EV_QUEUED.
Proof.
  intros He Hc Hs Hn Hne Hlt. destruct (parents_done_spec fuel p starts e h He Hc Hs Hn Hne Hlt) as (h' & E & Eq & Ee).
  exists h'. split; [done|]. split; [done|]. split.
  - unfold latest. intros s. assert (Hge : forall l c, c <= fold_left MAX l c).
    { induction l as [|x l IHl]; intros c; cbn; [lia|]. specialize (IHl (MAX c x)). unfold MAX in *.
      rewrite Z.gtb_ltb in *. destruct (Z.ltb_spec x c); lia. }
    clear -Hge. generalize (ev_cycle e). induction starts as [|x l IHl]; intros c Hin; [by apply not_elem_of_nil in Hin|].
    cbn. apply elem_of_cons in Hin as [->|Hin]; [|by apply IHl]. specialize (Hge l (MAX c x)). unfold MAX in *.
    rewrite Z.gtb_ltb in *. destruct (Z.ltb_spec x c); lia.
  - rewrite Ee, lookup_insert_eq. done.
Qed.

Definition demo_event : TimingEvent := mkEvent ClsTiming EV_NONE 0 5 (Child None) 0 0 3 7 0.
Definition demo_heap : EvHeap := mkHeap {[4%nat := demo_event]} 5 [].

Lemma event_starts_after_parents_witness :
  exists h', mapM_ (parentDone 1 4) [20; 35; 12] demo_heap = Ok (tt, h') /\ hp_queue h' = [(4%nat, 42)].
Proof.
  destruct (event_starts_after_parents 0 4 demo_event demo_heap [20; 35; 12]) as (h' & E & Eq & _).
  - reflexivity.
  - discriminate.
  - reflexivity.
  - reflexivity.
  - discriminate.
  - reflexivity.
  - exists h'. split; [exact E|exact Eq].
Defined.
