(* ===== verification/EventTree.v ===== *)
(** * Trees of timing events
      (a theory of the event heap of timing_event.h for in-order recorders)

    The events that the in-order core recorder and the caches link form a forest: every
    event that is not queued waits for one parent.  A ghost [tree] describes the events
    below a root; [rep] says that the heap holds it.  The lemmas give what [parentDone],
    [done], [addChild] and [produceCrossings] do in terms of trees, so that the clients
    never reason about the heap itself. *)

From S2P Require Import Prelude Bithacks MemHier TimingEvent.

(** Read every [Forall] as a statement about the elements. *)
Ltac elems :=
  repeat match goal with H : Forall _ _ |- _ => rewrite list.Forall_forall in H end;
  try rewrite list.Forall_forall.

(** ** Trees *)

(** What an event is built with; [n_lab] is a ghost field, the cycle of the contention-free
    clock at which the event may start. *)
Record node := mkNd { n_class : EvClass; n_pre : Z; n_post : Z; n_dom : Z; n_min : Z; n_lab : Z }.
Inductive tree := Tr (p : nat) (n : node) (kids : list tree).

Definition root (t : tree) : nat := match t with Tr p _ _ => p end.
Definition nd (t : tree) : node := match t with Tr _ n _ => n end.
Definition kids (t : tree) : list tree := match t with Tr _ _ ks => ks end.

Lemma tree_ind' (P : tree -> Prop) : (forall p n ks, Forall P ks -> P (Tr p n ks)) -> forall t, P t.
Proof.
  intros H. fix IH 1. intros [p n ks]. apply H. induction ks as [|k ks IHk]; constructor; [apply IH|apply IHk].
Qed.

Fixpoint nodes (t : tree) : list (nat * node * list nat) :=
  match t with Tr p n ks => (p, n, root <$> ks) :: flat_map nodes ks end.
Definition ids (t : tree) : list nat := (fun x => x.1.1) <$> nodes t.
#[global] Arguments ids : simpl never.

(** The time from the arrival at an event to the arrival at its children. *)
Definition dur (n : node) : Z :=
  n_pre n + n_post n + match n_class n with ClsMem lat => lat | _ => 0 end.
Fixpoint span (t : tree) : Z :=
  match t with Tr _ n ks => dur n + zsum (map span ks) end.

(** The events that a call of [parentDone] queues, with their cycles. *)
Fixpoint frontier (t : tree) (s : Z) : list (tree * Z) :=
  match t with
  | Tr p n ks => match n_class n with
                 | ClsDelay => flat_map (fun k => frontier k (s + dur n)) ks
                 | _ => [(t, s + n_pre n)]
                 end
  end.

(** ** Trees in the heap *)
Record EvIs (e : TimingEvent) (n : node) (ks : list nat) (st : EventState) (np : Z) : Prop := {
  is_class : ev_class e = n_class n;
  is_pre : ev_preDelay e = n_pre n;
  is_post : ev_postDelay e = n_post n;
  is_dom : ev_domain e = n_dom n;
  is_min : ev_minStartCycle e = n_min n;
  is_state : ev_state e = st;
  is_np : ev_numParents e = np;
  is_kids : Shape (ev_numChildren e) (ev_children e) ks;
  is_cycle : st = EV_NONE -> ev_cycle e = 0;
  is_short : dur n < 3 * two32;
  is_wf : 0 <= n_pre n /\ 0 <= n_post n /\ n_pre n + n_post n <= dur n /\ (n_class n = ClsDelay -> n_post n = 0) }.

Definition at_ev (m : gmap nat TimingEvent) (st : EventState) (np : Z) (x : nat * node * list nat) : Prop :=
  exists e, m !! x.1.1 = Some e /\ EvIs e x.1.2 x.2 st np.
Definition rep (m : gmap nat TimingEvent) (st : EventState) (np : Z) (t : tree) : Prop :=
  at_ev m st np (root t, nd t, root <$> kids t) /\ Forall (at_ev m EV_NONE 1) (flat_map nodes (kids t)).

Lemma elem_ids q t : q ∈ ids t <-> exists n ks, (q, n, ks) ∈ nodes t.
Proof.
  unfold ids. rewrite list_elem_of_fmap. split; [intros ([[x n] ks]&->&?); by exists n, ks|].
  intros (n&ks&?). by exists (q, n, ks).
Qed.
Lemma ids_cons p n ks : ids (Tr p n ks) = p :: flat_map ids ks.
Proof.
  unfold ids. cbn. f_equal. induction ks as [|k ks IH]; [done|]. cbn. by rewrite fmap_app, IH.
Qed.
Lemma elem_flat_map {A B} (f : A -> list B) l x : x ∈ flat_map f l <-> exists a, a ∈ l /\ x ∈ f a.
Proof. rewrite list_elem_of_In, in_flat_map. by setoid_rewrite list_elem_of_In. Qed.
Lemma flat_map_app' {A B} (f : A -> list B) l l' : flat_map f (l ++ l') = flat_map f l ++ flat_map f l'.
Proof. induction l as [|a l IH]; cbn; [done|]. by rewrite IH, app_assoc. Qed.
#[global] Instance flat_map_perm {A B} (f : A -> list B) : Proper (Permutation ==> Permutation) (flat_map f).
Proof. intros l l' H. by apply Permutation_flat_map. Qed.
Lemma root_ids t : root t ∈ ids t.
Proof. destruct t. rewrite ids_cons. apply list_elem_of_here. Qed.

Lemma rep_none m t : rep m EV_NONE 1 t <-> Forall (at_ev m EV_NONE 1) (nodes t).
Proof. destruct t as [p n ks]. unfold rep. cbn. by rewrite list.Forall_cons. Qed.

Lemma rep_frame m m' st np t : (forall q, q ∈ ids t -> m' !! q = m !! q) -> rep m st np t -> rep m' st np t.
Proof.
  destruct t as [p n ks]. intros Hf [(e&He&HI) Hb]. rewrite ids_cons in Hf. split.
  - exists e. split; [|done]. cbn in *. rewrite Hf; [done|apply list_elem_of_here].
  - cbn in *. elems. intros [[q n'] ks'] Hx. destruct (Hb _ Hx) as (e'&He'&HI').
    exists e'. split; [|done]. cbn in *. rewrite Hf; [done|]. apply elem_of_cons. right.
    apply elem_flat_map in Hx as (k&Hk&Hx). apply elem_flat_map. exists k. split; [done|]. apply elem_ids. by exists n', ks'.
Qed.

Lemma rep_kid m st np p n ks k : rep m st np (Tr p n ks) -> k ∈ ks -> rep m EV_NONE 1 k.
Proof.
  intros [_ Hb] Hk. apply rep_none. cbn in Hb. elems. intros x Hx.
  apply Hb. apply elem_flat_map. by exists k.
Qed.
Lemma rep_nd m st np t : rep m st np t -> 0 <= n_pre (nd t) /\ 0 <= n_post (nd t) /\ n_pre (nd t) + n_post (nd t) <= dur (nd t) /\
  (n_class (nd t) = ClsDelay -> n_post (nd t) = 0).
Proof. intros [(e&_&HI) _]. apply (is_wf _ _ _ _ _ HI). Qed.

Lemma frontier_ids t : forall s x, x ∈ frontier t s -> forall q, q ∈ ids x.1 -> q ∈ ids t.
Proof.
  induction t as [p n ks IH] using tree_ind'. intros s x Hx q Hq. rewrite ids_cons.
  assert (Hd : x ∈ [(Tr p n ks, s + n_pre n)] -> q ∈ p :: flat_map ids ks).
  { intros ->%list_elem_of_singleton. by rewrite <- (ids_cons p n ks). }
  cbn in Hx. destruct (n_class n); try by apply Hd.
  apply elem_flat_map in Hx as (k&Hk&Hx). apply elem_of_cons. right. apply elem_flat_map.
  exists k. split; [done|]. rewrite list.Forall_forall in IH. by eapply IH.
Qed.

(** A visit calls [f] on every child, in some order. *)
Lemma visit_kids {p e n ks st np} (h : EvHeap) : hp_events h !! p = Some e -> EvIs e n (root <$> ks) st np ->
  exists ts, ts ≡ₚ ks /\ forall f h', mapM_ f (root <$> ts) h = Ok (tt, h') -> visitChildren p f h = Ok (tt, h').
Proof.
  intros He HI. destruct (is_kids _ _ _ _ _ HI) as (Hn&HP&_). destruct (Permutation_map_inv _ _ HP) as (ts&Hts&HPt).
  exists ts. split; [done|]. intros f h' E. unfold visitChildren, mbind, M_bind, get_ev. rewrite He, Hts.
  change (map root ts) with (root <$> ts). rewrite E.
  assert (Hlen : Z.of_nat (length (root <$> ts)) = ev_numChildren e) by (by rewrite Hn, !length_fmap, HPt).
  unfold massert. rewrite Hlen, Z.eqb_refl. by destruct (_ <? 2).
Qed.

(** ** The end of an event *)
Definition entries (l : list (tree * Z)) : list (nat * Z) := (fun x => (root x.1, x.2)) <$> l.

(** From [h] to [h'] the trees [ts] were reached at cycle [s]. *)
Record Fired (h h' : EvHeap) (ts : list tree) (s : Z) (fr : list (tree * Z)) : Prop := {
  f_perm : fr ≡ₚ flat_map (fun t => frontier t s) ts;
  f_next : hp_next h' = hp_next h;
  f_queue : hp_queue h' = hp_queue h ++ entries fr;
  f_rep : Forall (fun x => rep (hp_events h') EV_QUEUED 0 x.1) fr;
  f_frame : forall q, q ∉ flat_map ids ts -> hp_events h' !! q = hp_events h !! q;
  f_dom : forall q, hp_events h !! q = None -> hp_events h' !! q = None }.

Definition fires (fuel : nat) (t : tree) : Prop := forall h s,
  rep (hp_events h) EV_NONE 1 t -> NoDup (ids t) -> 0 <= s -> s + span t < two64 ->
  exists h' fr, parentDone fuel (root t) s h = Ok (tt, h') /\ Fired h h' [t] s fr.

Lemma span_nonneg m t st np : rep m st np t -> 0 <= span t.
Proof.
  revert st np. induction t as [p n ks IH] using tree_ind'. intros st np HR. cbn.
  pose proof (rep_nd _ _ _ _ HR) as (?&?&?&_). cbn in *.
  enough (0 <= zsum (map span ks)) by lia. apply zsum_nonneg. elems.
  intros x (k&<-&Hk)%list_elem_of_In%in_map_iff. apply list_elem_of_In in Hk.
  eapply IH; [done|]. by eapply rep_kid.
Qed.

Lemma fires_list fuel ts : Forall (fires fuel) ts -> forall h s,
  Forall (rep (hp_events h) EV_NONE 1) ts -> NoDup (flat_map ids ts) -> 0 <= s -> s + zsum (map span ts) < two64 ->
  exists h' fr, mapM_ (fun c => parentDone fuel c s) (root <$> ts) h = Ok (tt, h') /\ Fired h h' ts s fr.
Proof.
  induction 1 as [|t ts Ht _ IH]; intros h s HR HN H0 Hs.
  { exists h, []. split; [done|]. split; try done. by rewrite app_nil_r. }
  apply list.Forall_cons in HR as [HRt HR]. cbn in HN. apply list.NoDup_app in HN as (HNt&Hd&HN). cbn in Hs.
  fold (zsum (map span ts)) in Hs.
  pose proof (span_nonneg _ _ _ _ HRt).
  assert (0 <= zsum (map span ts)).
  { apply zsum_nonneg. elems. intros x (k&<-&Hk)%list_elem_of_In%in_map_iff.
    apply list_elem_of_In in Hk. eapply span_nonneg. by apply HR. }
  destruct (Ht h s HRt HNt H0 ltac:(lia)) as (h1&fr1&E1&F1).
  assert (HR1 : Forall (rep (hp_events h1) EV_NONE 1) ts).
  { elems. intros k Hk. eapply rep_frame; [|by apply HR]. intros q Hq.
    apply (f_frame _ _ _ _ _ F1). cbn. rewrite app_nil_r. intros Hq'. apply (Hd q Hq'). apply elem_flat_map. by exists k. }
  destruct (IH h1 s HR1 HN H0 ltac:(lia)) as (h'&fr2&E2&F2).
  exists h', (fr1 ++ fr2). split.
  { cbn. unfold mbind, M_bind. by rewrite E1. }
  destruct F1, F2. cbn in *. rewrite app_nil_r in *. split.
  - by rewrite f_perm0, f_perm1.
  - congruence.
  - unfold entries in *. rewrite fmap_app, app_assoc. by rewrite f_queue1, f_queue0.
  - apply Forall_app. split; [|done]. elems. intros x Hx. eapply rep_frame; [|by apply f_rep0].
    intros q Hq. apply f_frame1. intros Hq'. apply (Hd q); [|done].
    rewrite f_perm0 in Hx. by eapply frontier_ids.
  - intros q [Hq1 Hq2]%not_elem_of_app. rewrite f_frame1 by done. by apply f_frame0.
  - intros q Hq. by apply f_dom1, f_dom0.
Qed.

(** From [h] to [h'] the event [p], at the root of the children [ks], was done. *)
Record Finished (h h' : EvHeap) (p : nat) (ks : list tree) (s : Z) (fr : list (tree * Z)) : Prop := {
  d_perm : fr ≡ₚ flat_map (fun t => frontier t s) ks;
  d_next : hp_next h' = hp_next h;
  d_queue : hp_queue h' = hp_queue h ++ entries fr;
  d_rep : Forall (fun x => rep (hp_events h') EV_QUEUED 0 x.1) fr;
  d_frame : forall q, q ∉ p :: flat_map ids ks -> hp_events h' !! q = hp_events h !! q;
  d_dom : forall q, hp_events h !! q = None -> hp_events h' !! q = None;
  d_free : hp_events h' !! p = None }.

(** [done] on an event that runs: its children are reached and it is freed. *)
Lemma done_fire fuel h p n ks np c :
  at_ev (hp_events h) EV_RUNNING np (p, n, root <$> ks) -> Forall (fires fuel) ks ->
  Forall (rep (hp_events h) EV_NONE 1) ks -> NoDup (p :: flat_map ids ks) ->
  0 <= c -> c + n_post n + zsum (map span ks) < two64 ->
  exists h' fr, ev_done (Datatypes.S fuel) p c h = Ok (tt, h') /\ Finished h h' p ks (c + n_post n) fr.
Proof.
  intros (e&He&HI) HF HR [Hp HN]%list.NoDup_cons H0 Hc. cbn in He.
  pose proof (is_wf _ _ _ _ _ HI) as (_&Hpost&_). cbn in Hpost, HI.
  assert (Hk0 : 0 <= zsum (map span ks)).
  { apply zsum_nonneg. elems. intros x (k&<-&Hk)%list_elem_of_In%in_map_iff.
    apply list_elem_of_In in Hk. eapply span_nonneg. by apply HR. }
  set (e' := ev_set_state EV_DONE e). set (h0 := mkHeap (<[p := e']> (hp_events h)) (hp_next h) (hp_queue h)).
  assert (HI' : EvIs e' n (root <$> ks) EV_DONE np) by (destruct HI; by split).
  destruct (visit_kids h0 (lookup_insert_eq _ _ _) HI') as (ts&HPt&Hvis). symmetry in HPt.
  assert (HRt : Forall (rep (hp_events h0) EV_NONE 1) ts).
  { rewrite HPt in HR. elems. intros k Hk. eapply rep_frame; [|by apply HR].
    intros q Hq. cbn. rewrite lookup_insert_ne; [done|]. intros <-. apply Hp. apply elem_flat_map. exists k. by rewrite HPt. }
  rewrite HPt in HF, HN.
  destruct (fires_list fuel ts HF h0 (c + n_post n) HRt HN) as (h1&fr&E1&F1); [lia| |].
  { replace (zsum (map span ts)) with (zsum (map span ks)); [lia|].
    clear -HPt. induction HPt; cbn; unfold zsum in *; lia. }
  exists (mkHeap (delete p (hp_events h1)) (hp_next h1) (hp_queue h1)), fr. split.
  - cbn [ev_done]. unfold mbind, M_bind, get_ev. rewrite He. unfold massert.
    rewrite (is_state _ _ _ _ _ HI), bool_decide_eq_true_2 by done. cbn.
    fold e'. fold h0. rewrite (is_post _ _ _ _ _ HI), u64_small by lia. rewrite (Hvis _ _ E1). done.
  - destruct F1. split; cbn; try done.
    + by rewrite f_perm0, HPt.
    + elems. intros x Hx. eapply rep_frame; [|by apply f_rep0]. intros q Hq. cbn.
      apply lookup_delete_ne. intros <-. apply Hp. rewrite HPt. rewrite f_perm0 in Hx.
      apply elem_flat_map in Hx as (k&Hk&Hx). apply elem_flat_map. exists k. split; [done|]. by eapply frontier_ids.
    + intros q [Hqp Hq]%not_elem_of_cons. rewrite lookup_delete_ne by done. rewrite f_frame0 by (by rewrite <- HPt).
      cbn. by rewrite lookup_insert_ne.
    + intros q Hq. destruct (decide (p = q)) as [->|]; [by rewrite lookup_delete_eq|].
      rewrite lookup_delete_ne by done. apply f_dom0. cbn. by rewrite lookup_insert_ne.
    + by rewrite lookup_delete_eq.
Qed.

Lemma fires_all t : forall fuel, (2 * length (nodes t) <= fuel)%nat -> fires fuel t.
Proof.
  induction t as [p n ks IH] using tree_ind'. intros fuel Hf h s HR HN H0 Hs.
  assert (Hks : Forall (fun k => (length (nodes k) <= length (flat_map nodes ks))%nat) ks).
  { elems. intros k Hk. apply list_elem_of_split in Hk as (l1&l2&->).
    rewrite flat_map_app'. cbn. rewrite !length_app. lia. }
  cbn in Hf. destruct fuel as [|fuel]; [lia|].
  destruct (HR) as [(e&He&HI) Hb]. cbn in He, HI.
  pose proof (rep_nd _ _ _ _ HR) as (Hpre&Hpost&Hdur&Hdel). cbn in Hpre, Hpost, Hdur, Hdel.
  assert (HRk : Forall (rep (hp_events h) EV_NONE 1) ks).
  { elems. intros k Hk. by eapply rep_kid. }
  assert (Hk0 : 0 <= zsum (map span ks)).
  { apply zsum_nonneg. elems. intros x (k&<-&Hk)%list_elem_of_In%in_map_iff.
    apply list_elem_of_In in Hk. eapply span_nonneg. by apply HRk. }
  cbn [span] in Hs. assert (Hcyc : MAX (ev_cycle e) s = s).
  { rewrite (is_cycle _ _ _ _ _ HI) by done. unfold MAX. rewrite Z.gtb_ltb. destruct (Z.ltb_spec s 0); lia. }
  destruct (decide (n_class n = ClsDelay)) as [Hc|Hc].
  - destruct fuel as [|fuel]; [lia|].
    set (e' := ev_set_state EV_RUNNING (ev_set_numParents 0 (ev_set_cycle s e))).
    set (h0 := mkHeap (<[p := e']> (hp_events h)) (hp_next h) (hp_queue h)).
    rewrite ids_cons in HN. pose proof HN as [Hp HN']%list.NoDup_cons.
    assert (HIH : Forall (fires fuel) ks).
    { elems. intros k Hk. apply IH; [done|]. specialize (Hks k Hk). cbn in Hks. lia. }
    assert (Hd : dur n = n_pre n + n_post n) by (unfold dur; rewrite Hc; lia).
    destruct (done_fire fuel h0 p n ks 0 (s + n_pre n)) as (h'&fr&E&F); try done; try lia.
    { exists e'. cbn. rewrite lookup_insert_eq. split; [done|]. destruct HI. by split. }
    { elems. intros k Hk. eapply rep_frame; [|by apply HRk]. intros q Hq. cbn.
      rewrite lookup_insert_ne; [done|]. intros <-. apply Hp, elem_flat_map. by exists k. }
    exists h', fr. split.
    + cbn [root]. cbn [parentDone]. unfold mbind, M_bind, get_ev. rewrite He, (is_class _ _ _ _ _ HI), Hc, Hcyc, (is_np _ _ _ _ _ HI).
      change (u32 (1 - 1)) with 0. cbn [Z.eqb]. unfold put_ev, mmodify.
      change (ev_preDelay (ev_set_numParents 0 (ev_set_cycle s e))) with (ev_preDelay e).
      rewrite (is_pre _ _ _ _ _ HI), u64_small by lia. exact E.
    + destruct F. split; try done.
      * cbn. rewrite app_nil_r, Hc, Hd, Z.add_assoc. exact d_perm0.
      * intros q Hq. rewrite d_frame0; [|rewrite <- (ids_cons p n ks); cbn [flat_map] in Hq; by rewrite app_nil_r in Hq].
        cbn. rewrite lookup_insert_ne; [done|]. intros <-. apply Hq. cbn [flat_map]. rewrite app_nil_r. apply (root_ids (Tr p n ks)).
      * intros q Hq. apply d_dom0. cbn. rewrite lookup_insert_ne; [done|]. intros <-. congruence.
  - exists (mkHeap (<[p := ev_set_state EV_QUEUED (ev_set_numParents 0 (ev_set_cycle s e))]> (hp_events h)) (hp_next h)
              (hp_queue h ++ [(p, s + n_pre n)])), [(Tr p n ks, s + n_pre n)].
    split.
    + cbn [root]. rewrite (parentDone_step fuel p e); [|done|by rewrite (is_class _ _ _ _ _ HI)|by apply (is_state _ _ _ _ _ HI)|rewrite (is_np _ _ _ _ _ HI); done].
      cbn zeta. rewrite (is_np _ _ _ _ _ HI), Hcyc, (is_pre _ _ _ _ _ HI), u64_small by lia. done.
    + split; cbn; rewrite ?app_nil_r; try done.
      * by destruct (n_class n).
      * constructor; [|constructor]. cbn. split.
        -- eexists. cbn. rewrite lookup_insert_eq. split; [done|]. destruct HI. by split.
        -- cbn in Hb |- *. elems. intros x Hx. destruct (Hb x Hx) as (e2&He2&HI2).
           exists e2. split; [|done]. rewrite ids_cons in HN. apply list.NoDup_cons in HN as [Hp _].
           rewrite lookup_insert_ne; [done|]. intros ->. apply Hp.
           apply elem_flat_map in Hx as (k&Hk&Hx). apply elem_flat_map. exists k. split; [done|].
           apply elem_ids. destruct x as [[a b] c]. by exists b, c.
      * intros q Hq. rewrite lookup_insert_ne; [done|]. intros <-. apply Hq. apply (root_ids (Tr p n ks)).
      * intros q Hq. rewrite lookup_insert_ne; [done|]. intros <-. congruence.
Qed.

(** ** Linking trees *)
Fixpoint graft (p : nat) (t : tree) (r : tree) : tree :=
  match r with Tr q n ks => Tr q n (map (graft p t) ks ++ (if decide (q = p) then [t] else [])) end.
Definition set_dom (d : Z) (n : node) : node := mkNd (n_class n) (n_pre n) (n_post n) d (n_min n) (n_lab n).
Fixpoint setdom (d : Z) (t : tree) : tree :=
  match t with
  | Tr q n ks => if decide (n_dom n = -1) then Tr q (set_dom d n) (map (setdom d) ks) else t
  end.

Lemma root_graft p t r : root (graft p t r) = root r.
Proof. by destruct r. Qed.
Lemma root_setdom d t : root (setdom d t) = root t.
Proof. destruct t as [q n ks]. cbn. by case_decide. Qed.
Lemma map_root_graft p t ks : root <$> map (graft p t) ks = root <$> ks.
Proof. change (map (graft p t) ks) with (graft p t <$> ks). rewrite <- list_fmap_compose. apply list_fmap_ext. intros. apply root_graft. Qed.
Lemma map_root_setdom d ks : root <$> map (setdom d) ks = root <$> ks.
Proof. change (map (setdom d) ks) with (setdom d <$> ks). rewrite <- list_fmap_compose. apply list_fmap_ext. intros. apply root_setdom. Qed.

Lemma flat_ids_map f ks : Forall (fun k => ids (f k) = ids k) ks -> flat_map ids (map f ks) = flat_map ids ks.
Proof. induction 1 as [|k ks E _ IH]; cbn; [done|]. by rewrite E, IH. Qed.

Lemma ids_setdom d t : ids (setdom d t) = ids t.
Proof.
  induction t as [q n ks IH] using tree_ind'. cbn. case_decide; [|done]. rewrite !ids_cons. f_equal. by apply flat_ids_map.
Qed.

Lemma graft_out p t r : p ∉ ids r -> graft p t r = r.
Proof.
  induction r as [q n ks IH] using tree_ind'. rewrite ids_cons. intros [Hq Hp]%not_elem_of_cons. cbn.
  rewrite decide_False by congruence. rewrite app_nil_r. f_equal. elems. rewrite <- (map_id ks) at 2. apply map_ext_in.
  intros k Hk%list_elem_of_In. apply IH; [done|]. intros Hx. apply Hp, elem_flat_map. by exists k.
Qed.

Lemma graft_out_list p t l : p ∉ flat_map ids l -> map (graft p t) l = l.
Proof.
  intros Hp. rewrite <- (map_id l) at 2. apply map_ext_in. intros k Hk%list_elem_of_In. apply graft_out.
  intros Hx. apply Hp, elem_flat_map. by exists k.
Qed.

Lemma graft_in_list p t l :
  Forall (fun r => NoDup (ids r) -> p ∈ ids r -> ids (graft p t r) ≡ₚ ids r ++ ids t) l ->
  NoDup (flat_map ids l) -> p ∈ flat_map ids l -> flat_map ids (map (graft p t) l) ≡ₚ flat_map ids l ++ ids t.
Proof.
  intros HF HN Hp. apply elem_flat_map in Hp as (r&Hr&Hp). apply list_elem_of_split in Hr as (l1&l2&->).
  rewrite flat_map_app' in HN. cbn in HN. apply list.NoDup_app in HN as (HN1&Hd1&HN2). apply list.NoDup_app in HN2 as (HNr&Hd2&HN2).
  rewrite map_app, !flat_map_app'. cbn. rewrite (graft_out_list p t l1), (graft_out_list p t l2).
  - elems. rewrite (HF r) by (done || set_solver). rewrite <- !app_assoc. do 2 f_equiv. apply Permutation_app_comm.
  - by apply Hd2.
  - intros Hx. apply (Hd1 p Hx). apply elem_of_app. by left.
Qed.

Lemma graft_in p t r : NoDup (ids r) -> p ∈ ids r -> ids (graft p t r) ≡ₚ ids r ++ ids t.
Proof.
  induction r as [q n ks IH] using tree_ind'. rewrite ids_cons. intros [Hq HN]%list.NoDup_cons Hp. cbn [graft]. rewrite ids_cons.
  rewrite flat_map_app'. cbn. f_equiv. case_decide as Hqp.
  - subst q. rewrite graft_out_list by done. cbn. by rewrite app_nil_r.
  - cbn. rewrite app_nil_r. apply graft_in_list; [done..|]. apply elem_of_cons in Hp as [->|Hp]; done.
Qed.

Lemma graft_ids_list p t l : NoDup (flat_map ids l) -> p ∈ flat_map ids l ->
  flat_map ids (map (graft p t) l) ≡ₚ flat_map ids l ++ ids t.
Proof. apply graft_in_list. elems. intros r _. apply graft_in. Qed.

(** The heap of a grafted tree: [m'] is [m] with [root t] added to the children of [p]. *)
Definition linked (m m' : gmap nat TimingEvent) (p c : nat) (l : list nat) : Prop :=
  forall q n ks st np, q ∈ l -> at_ev m st np (q, n, ks) ->
    at_ev m' st np (q, n, ks ++ (if decide (q = p) then [c] else [])).

Lemma rep_graft m m' p t r : Forall (at_ev m' EV_NONE 1) (nodes t) -> linked m m' p (root t) (ids r) ->
  forall st np, rep m st np r -> rep m' st np (graft p t r).
Proof.
  intros Ht. induction r as [q n ks IH] using tree_ind'. intros HL st np [Hr Hb]. rewrite ids_cons in HL. split.
  - cbn. rewrite fmap_app, map_root_graft. specialize (HL q n (root <$> ks) st np (list_elem_of_here _ _) Hr).
    by case_decide.
  - cbn. rewrite flat_map_app'. apply Forall_app. split.
    + elems. intros x (k'&Hk'&Hx)%elem_flat_map. apply list_elem_of_In, in_map_iff in Hk' as (k&<-&Hk). apply list_elem_of_In in Hk.
      assert (Hk1 : rep m' EV_NONE 1 (graft p t k)).
      { apply IH; [done| |].
        - intros q' n' ks' st' np' Hq'. apply HL. apply elem_of_cons. right. apply elem_flat_map. by exists k.
        - apply rep_none. elems. intros y Hy. apply Hb. apply elem_flat_map. by exists k. }
      apply rep_none in Hk1. elems. by apply Hk1.
    + case_decide; [|done]. cbn. rewrite app_nil_r. done.
Qed.

(** ** Domains *)
Record SameHeap (h h' : EvHeap) (l : list nat) : Prop := {
  sh_next : hp_next h' = hp_next h;
  sh_queue : hp_queue h' = hp_queue h;
  sh_frame : forall q, q ∉ l -> hp_events h' !! q = hp_events h !! q;
  sh_dom : forall q, hp_events h !! q = None -> hp_events h' !! q = None }.

Definition propagates (fuel : nat) (d : Z) (t : tree) : Prop := forall h st np,
  rep (hp_events h) st np t -> NoDup (ids t) -> n_dom (nd t) = -1 ->
  exists h', propagateDomain fuel (root t) d h = Ok (tt, h') /\ rep (hp_events h') st np (setdom d t) /\
    SameHeap h h' (ids t).

Lemma propagates_list fuel d ts : Forall (propagates fuel d) ts -> forall h,
  Forall (rep (hp_events h) EV_NONE 1) ts -> NoDup (flat_map ids ts) ->
  exists h', mapM_ (fun c => ce ← get_ev c; if ev_domain ce =? -1 then propagateDomain fuel c d else mret tt)
               (root <$> ts) h = Ok (tt, h') /\
    Forall (rep (hp_events h') EV_NONE 1) (map (setdom d) ts) /\ SameHeap h h' (flat_map ids ts).
Proof.
  induction 1 as [|t ts Ht _ IH]; intros h HR HN; [by exists h|].
  apply list.Forall_cons in HR as [HRt HR]. cbn in HN. apply list.NoDup_app in HN as (HNt&Hd&HN).
  assert (H1 : exists h1, (ce ← get_ev (root t); if ev_domain ce =? -1 then propagateDomain fuel (root t) d else mret tt) h = Ok (tt, h1) /\
    rep (hp_events h1) EV_NONE 1 (setdom d t) /\ SameHeap h h1 (ids t)).
  { destruct (HRt) as [(e&He&HI) _]. cbn in He, HI. unfold mbind, M_bind, get_ev. rewrite He.
    rewrite (is_dom _ _ _ _ _ HI). destruct (Z.eqb_spec (n_dom (nd t)) (-1)) as [E|E]; [by apply Ht|].
    exists h. split; [done|]. split; [|done]. destruct t as [q n ks]. cbn in *. by rewrite decide_False. }
  destruct H1 as (h1&E1&HR1&[S1 S2 S3 S4]).
  assert (HR' : Forall (rep (hp_events h1) EV_NONE 1) ts).
  { elems. intros k Hk. eapply rep_frame; [|by apply HR]. intros q Hq. apply S3. intros Hq'. apply (Hd q Hq').
    apply elem_flat_map. by exists k. }
  destruct (IH h1 HR' HN) as (h'&E2&HR2&[U1 U2 U3 U4]). exists h'. split.
  { cbn. unfold mbind at 1, M_bind at 1. by rewrite E1. }
  split.
  - cbn. constructor; [|done]. eapply rep_frame; [|done]. rewrite ids_setdom. intros q Hq. apply U3. by apply Hd.
  - split; try congruence; cbn.
    + intros q [Hq1 Hq2]%not_elem_of_app. by rewrite U3, S3.
    + intros q Hq. by apply U4, S4.
Qed.

Lemma propagates_all d t : d <> -1 -> forall fuel, (length (nodes t) <= fuel)%nat -> propagates fuel d t.
Proof.
  intros Hd. induction t as [q n ks IH] using tree_ind'. intros fuel Hf h st np HR HN Hdom. cbn in Hdom, Hf.
  destruct fuel as [|fuel]; [lia|].
  destruct (HR) as [(e&He&HI) Hb]. cbn in He, HI. rewrite ids_cons in HN. apply list.NoDup_cons in HN as [Hq HN].
  set (h0 := mkHeap (<[q := ev_set_domain d e]> (hp_events h)) (hp_next h) (hp_queue h)).
  assert (HI' : EvIs (ev_set_domain d e) (set_dom d n) (root <$> ks) st np) by (destruct HI; by split).
  destruct (visit_kids h0 (lookup_insert_eq _ _ _) HI') as (ts&HPt&Hvis). symmetry in HPt.
  assert (HRk : Forall (rep (hp_events h0) EV_NONE 1) ts).
  { elems. intros k Hk. eapply rep_frame; [|eapply rep_kid; [done|by rewrite HPt]]. intros x Hx. cbn. apply lookup_insert_ne. intros <-.
    apply Hq, elem_flat_map. exists k. by rewrite HPt. }
  rewrite HPt in IH, HN.
  destruct (propagates_list fuel d ts) with (h := h0) as (h'&E&HR'&[U1 U2 U3 U4]); try done.
  { elems. intros k Hk. apply IH; [done|]. assert (Hk' : k ∈ ks) by by rewrite HPt. apply list_elem_of_split in Hk' as (l1&l2&->).
    rewrite flat_map_app' in Hf. cbn in Hf. rewrite !length_app in Hf. lia. }
  assert (Hsame : hp_events h' !! q = Some (ev_set_domain d e)).
  { rewrite U3; [cbn; by rewrite lookup_insert_eq|]. by rewrite <- HPt. }
  exists h'. split; [|split].
  - cbn [root propagateDomain]. unfold mbind, M_bind, get_ev. rewrite He. unfold massert. rewrite (is_dom _ _ _ _ _ HI), Hdom.
    exact (Hvis _ _ E).
  - cbn. rewrite decide_True by done. split.
    + exists (ev_set_domain d e). split; [done|]. cbn [kids]. by rewrite map_root_setdom.
    + cbn [kids]. elems. intros x (k'&Hk'&Hx)%elem_flat_map. apply list_elem_of_In, in_map_iff in Hk' as (k&<-&Hk).
      apply list_elem_of_In in Hk. rewrite HPt in Hk.
      assert (Hk1 : rep (hp_events h') EV_NONE 1 (setdom d k)) by (apply HR'; by apply list_elem_of_In, in_map, list_elem_of_In).
      apply rep_none in Hk1. elems. by apply Hk1.
  - split; try done; rewrite ?ids_cons.
    + intros x [Hx1 Hx2]%not_elem_of_cons. rewrite U3 by by rewrite <- HPt. cbn. by rewrite lookup_insert_ne.
    + intros x Hx. apply U4. cbn. rewrite lookup_insert_ne; [done|]. intros <-. congruence.
Qed.

(** ** Subtrees and crossings *)
Lemma bind_ok {S A B} (m : M S A) (k : A -> M S B) (s s' : S) (a : A) : m s = Ok (a, s') -> (m ≫= k) s = k a s'.
Proof. unfold mbind, M_bind. by intros ->. Qed.

Inductive sub (t : tree) : tree -> Prop :=
| sub_refl : sub t t
| sub_kid p n ks k : k ∈ ks -> sub t k -> sub t (Tr p n ks).

Lemma sub_nodes t r : sub t r -> forall x, x ∈ nodes t -> x ∈ nodes r.
Proof.
  induction 1 as [|p n ks k Hk _ IH]; intros x Hx; [done|]. cbn. apply elem_of_cons. right. apply elem_flat_map. exists k. eauto.
Qed.
Lemma sub_at p r : p ∈ ids r -> exists t, sub t r /\ root t = p.
Proof.
  induction r as [q n ks IH] using tree_ind'. rewrite ids_cons. intros [->|Hp]%elem_of_cons; [by eexists; split; [constructor|]|].
  apply elem_flat_map in Hp as (k&Hk&Hp). elems. destruct (IH k Hk Hp) as (t&Ht&E). exists t. split; [|done]. by econstructor.
Qed.
Lemma sub_rep m t r st np : sub t r -> rep m st np r -> exists st' np', rep m st' np' t /\ (st' = st \/ st' = EV_NONE).
Proof.
  intros Hs. revert st np. induction Hs as [|p n ks k Hk _ IH]; intros st np HR; [eauto|].
  destruct (IH _ _ (rep_kid _ _ _ _ _ _ _ HR Hk)) as (st'&np'&?&[->| ->]); eauto.
Qed.

(** All the events of the tree are in domain [d]. *)
Definition in_dom (d : Z) (t : tree) : Prop := Forall (fun x => n_dom x.1.2 = d) (nodes t).

Lemma crossings_none d t : d <> -1 -> forall fuel h st np, (length (nodes t) <= fuel)%nat -> rep (hp_events h) st np t -> in_dom d t ->
  produceCrossings fuel (root t) h = Ok (tt, h).
Proof.
  intros Hd. induction t as [q n ks IH] using tree_ind'. intros fuel h st np Hf HR HD. cbn in Hf. destruct fuel as [|fuel]; [lia|].
  destruct (HR) as [(e&He&HI) _]. cbn in He, HI. unfold in_dom in HD. cbn in HD. apply list.Forall_cons in HD as [HDn HD]. cbn in HDn.
  assert (Ede : ev_domain e = d) by by rewrite (is_dom _ _ _ _ _ HI).
  cbn [root produceCrossings]. rewrite (bind_ok _ _ h h e) by (unfold get_ev; by rewrite He).
  rewrite (bind_ok _ _ h h tt) by (unfold massert; by rewrite Ede, (proj2 (Z.eqb_neq d (-1)) Hd)).
  destruct (visit_kids h He HI) as (ts&HPt&Hvis). apply Hvis. clear Hvis.
  assert (Hts : Forall (fun k => k ∈ ks) ts) by (elems; intros k Hk; by rewrite <- HPt).
  clear HPt. induction Hts as [|k ts Hk Hts IHts]; [done|]. cbn [fmap list_fmap mapM_].
  pose proof (rep_kid _ _ _ _ _ _ _ HR Hk) as HRk. destruct (HRk) as [(ek&Hek&HIk) _]. cbn in Hek, HIk.
  assert (HDk : in_dom d k). { unfold in_dom. elems. intros x Hx. apply HD, elem_flat_map. by exists k. }
  assert (Edk : ev_domain ek = d).
  { rewrite (is_dom _ _ _ _ _ HIk). destruct k as [a b c]. unfold in_dom in HDk. cbn in HDk |- *. by apply list.Forall_cons in HDk as [? _]. }
  rewrite (bind_ok _ _ h h tt); [exact IHts|].
  rewrite (bind_ok _ _ h h ek) by (unfold get_ev; by rewrite Hek).
  rewrite (bind_ok _ _ h h tt) by (unfold massert; by rewrite Ede, Edk, Z.eqb_refl).
  elems. apply (IH k Hk fuel h EV_NONE 1); [|done|done].
  assert (Hk' := Hk). apply list_elem_of_split in Hk' as (l1&l2&->). rewrite flat_map_app' in Hf. cbn in Hf. rewrite !length_app in Hf. lia.
Qed.

(** ** Forests: queued trees with their cycles, and trees that wait for a parent *)
Record Forest (h : EvHeap) (qd : list (tree * Z)) (fl : list tree) : Prop := {
  fo_q : Forall (fun x => rep (hp_events h) EV_QUEUED 0 x.1) qd;
  fo_f : Forall (rep (hp_events h) EV_NONE 0) fl;
  fo_nd : NoDup (flat_map ids (qd.*1 ++ fl));
  fo_fresh : forall q, (hp_next h <= q)%nat -> hp_events h !! q = None }.

#[global] Instance Forest_perm h : Proper (Permutation ==> Permutation ==> iff) (Forest h).
Proof.
  intros q q' Hq f f' Hf. split; intros [H1 H2 H3 H4]; split; try done.
  - by rewrite <- Hq.
  - by rewrite <- Hf.
  - by rewrite <- Hq, <- Hf.
  - by rewrite Hq.
  - by rewrite Hf.
  - by rewrite Hq, Hf.
Qed.

Lemma rep_live m st np t q : rep m st np t -> q ∈ ids t -> is_Some (m !! q).
Proof.
  destruct t as [p n ks]. intros [(e&He&_) Hb] Hq. rewrite ids_cons in Hq. apply elem_of_cons in Hq as [->|Hq]; [by eexists|].
  apply elem_flat_map in Hq as (k&Hk&Hq). apply elem_ids in Hq as (n'&ks'&Hq). elems.
  destruct (Hb (q, n', ks')) as (e'&He'&_); [apply elem_flat_map; by exists k|]. by eexists.
Qed.

Lemma Forest_live h qd fl q : Forest h qd fl -> q ∈ flat_map ids (qd.*1 ++ fl) -> is_Some (hp_events h !! q) /\ (q < hp_next h)%nat.
Proof.
  intros [Hq Hf _ Hn] (t&Ht&Hi)%elem_flat_map. assert (is_Some (hp_events h !! q)) as Hs.
  { elems. apply elem_of_app in Ht as [Ht|Ht].
    - apply list_elem_of_fmap in Ht as (x&->&Hx). eapply rep_live; [by apply Hq|done].
    - eapply rep_live; [by apply Hf|done]. }
  split; [done|]. destruct (decide (q < hp_next h)%nat) as [|Hge]; [done|]. rewrite Hn in Hs by lia. by destruct Hs.
Qed.

Lemma size_le (h h' : EvHeap) : (forall q, hp_events h !! q = None -> hp_events h' !! q = None) ->
  (base.size (hp_events h') <= base.size (hp_events h))%nat.
Proof.
  intros H. rewrite <- !size_dom. apply subseteq_size. intros q Hq. rewrite elem_of_dom in *.
  destruct (hp_events h !! q) eqn:E; [done|]. rewrite H in Hq by done. by destruct Hq.
Qed.

(** A new event is a tree of its own. *)
Lemma forest_new h qd fl cls pre post dom lab :
  Forest h qd fl -> 0 <= pre < two32 -> 0 <= post < two32 -> (cls = ClsDelay -> post = 0) -> (forall lat, cls = ClsMem lat -> 0 <= lat < two32) ->
  exists h', new_TimingEvent cls pre post dom h = Ok (hp_next h, h') /\ hp_queue h' = hp_queue h /\
    hp_next h' = Datatypes.S (hp_next h) /\ (base.size (hp_events h') <= Datatypes.S (base.size (hp_events h)))%nat /\
    Forest h' qd (Tr (hp_next h) (mkNd cls pre post dom (two64 - 1) lab) [] :: fl).
Proof.
  intros HF Hpre Hpost Hdel Hlat. eexists. split; [done|]. split; [done|]. split; [done|].
  split; [cbn; rewrite map_size_insert; destruct (_ !! _); unfold id; lia|].
  assert (Hfr : hp_next h ∉ flat_map ids (qd.*1 ++ fl)) by (intros Hx; destruct (Forest_live _ _ _ _ HF Hx); lia).
  assert (Hfr' : forall t, t ∈ qd.*1 ++ fl -> forall q, q ∈ ids t -> q <> hp_next h).
  { intros t Ht q Hq ->. apply Hfr, elem_flat_map. by exists t. }
  destruct HF as [HQ Hfl HN Hn]. split; cbn.
  - elems. intros x Hx. eapply rep_frame; [|by apply HQ]. intros q Hq. apply lookup_insert_ne.
    intros <-. eapply Hfr'; [|done..]. apply elem_of_app. left. apply list_elem_of_fmap. by exists x.
  - constructor.
    + split; [|constructor]. eexists. cbn. rewrite lookup_insert_eq. split; [done|]. split; try done; [|split_and!; try done; try lia].
      all: unfold dur; cbn; destruct cls; try lia; specialize (Hlat lat eq_refl); lia.
    + elems. intros x Hx. eapply rep_frame; [|by apply Hfl]. intros q Hq. apply lookup_insert_ne.
      intros <-. eapply Hfr'; [|done..]. apply elem_of_app. by right.
  - rewrite <- Permutation_middle. cbn. rewrite ids_cons. cbn. by constructor.
  - intros q Hq. change (Datatypes.S (hp_next h) <= q)%nat in Hq. rewrite lookup_insert_ne by lia. apply Hn. lia.
Qed.

Definition set_min (c : Z) (n : node) : node := mkNd (n_class n) (n_pre n) (n_post n) (n_dom n) c (n_lab n).

Lemma below_frame m t e : NoDup (ids t) -> Forall (at_ev m EV_NONE 1) (flat_map nodes (kids t)) ->
  Forall (at_ev (<[root t := e]> m) EV_NONE 1) (flat_map nodes (kids t)).
Proof.
  destruct t as [p n ks]. rewrite ids_cons. intros [Hp _]%list.NoDup_cons Hb. cbn in *. elems. intros x Hx.
  destruct (Hb x Hx) as (ex&Hex&HIx). exists ex. split; [|done]. rewrite lookup_insert_ne; [done|]. intros ->. apply Hp.
  apply elem_flat_map in Hx as (k&Hk&Hx). apply elem_flat_map. exists k. split; [done|].
  apply elem_ids. destruct x as [[a b] c]. by exists b, c.
Qed.

Lemma rep_frame_ne m st np t p e : p ∉ ids t -> rep m st np t -> rep (<[p := e]> m) st np t.
Proof. intros Hp. apply rep_frame. intros q Hq. apply lookup_insert_ne. by intros ->. Qed.

Lemma forest_fl_nd h qd fl t : Forest h qd (t :: fl) -> NoDup (ids t) /\ NoDup (flat_map ids (qd.*1 ++ fl)) /\
  (forall q, q ∈ ids t -> q ∉ flat_map ids (qd.*1 ++ fl)) /\
  (forall q, q ∈ ids t -> Forall (fun x => q ∉ ids x.1) qd /\ Forall (fun r => q ∉ ids r) fl).
Proof.
  intros HF. assert (HN := fo_nd _ _ _ HF). rewrite <- Permutation_middle in HN. cbn in HN. apply list.NoDup_app in HN as (HNt&Hd&HN).
  split_and!; try done. intros q Hq. specialize (Hd q Hq). split; elems; intros x Hx Hi; apply Hd, elem_flat_map.
  - exists x.1. split; [|done]. apply elem_of_app. left. apply list_elem_of_fmap. by exists x.
  - exists x. split; [|done]. apply elem_of_app. by right.
Qed.

(** Changing one root leaves the rest of the forest as it is. *)
Lemma forest_root h qd fl t e t' : Forest h qd (t :: fl) -> root t' = root t -> kids t' = kids t ->
  (forall e0, EvIs e0 (nd t) (root <$> kids t) EV_NONE 0 -> EvIs (e e0) (nd t') (root <$> kids t') EV_NONE 0) ->
  exists e0, hp_events h !! root t = Some e0 /\
    Forest (mkHeap (<[root t := e e0]> (hp_events h)) (hp_next h) (hp_queue h)) qd (t' :: fl).
Proof.
  intros HF Er Ek HI. assert (Hids : ids t' = ids t) by (destruct t, t'; cbn in *; subst; by rewrite !ids_cons).
  destruct (forest_fl_nd _ _ _ _ HF) as (HNt&HN&Hd&Hq). destruct (Hq _ (root_ids t)) as [Hq1 Hq2].
  destruct HF as [HQ Hf _ Hn]. apply list.Forall_cons in Hf as [[(e0&He0&HI0) Hb] Hf]. cbn in He0, HI0.
  exists e0. split; [done|]. split; cbn.
  - elems. intros x Hx. apply rep_frame_ne; auto.
  - constructor; [|elems; intros x Hx; apply rep_frame_ne; auto]. split.
    + exists (e e0). cbn. rewrite Er, lookup_insert_eq. split; [done|]. by apply HI.
    + rewrite Ek. by apply below_frame.
  - rewrite <- Permutation_middle. cbn. rewrite Hids. by apply list.NoDup_app.
  - intros q Hl. rewrite lookup_insert_ne; [by apply Hn|]. intros Hr. rewrite Hn in He0 by lia. done.
Qed.

Lemma forest_setMin h qd fl p n ks c : Forest h qd (Tr p n ks :: fl) ->
  exists h', setMinStartCycle p c h = Ok (tt, h') /\ hp_queue h' = hp_queue h /\ hp_next h' = hp_next h /\
    (base.size (hp_events h') <= base.size (hp_events h))%nat /\ Forest h' qd (Tr p (set_min c n) ks :: fl).
Proof.
  intros HF. destruct (forest_root h qd fl (Tr p n ks) (ev_set_minStartCycle c) (Tr p (set_min c n) ks) HF) as (e0&He0&HF'); try done.
  { intros e0 [].  by split. }
  eexists. split; [|split; [|split; [|split; [|exact HF']]]]; [|done|done|].
  2:{ cbn in *. by rewrite map_size_insert, He0. }
  unfold setMinStartCycle, modify_ev. rewrite (bind_ok _ _ h h e0); [done|]. cbn in He0. unfold get_ev. by rewrite He0.
Qed.

Lemma forest_queue h qd fl t c : Forest h qd (t :: fl) ->
  exists h', queue_ev (root t) c h = Ok (tt, h') /\ hp_queue h' = hp_queue h ++ [(root t, c)] /\ hp_next h' = hp_next h /\
    (base.size (hp_events h') <= base.size (hp_events h))%nat /\ Forest h' ((t, c) :: qd) fl.
Proof.
  intros HF. destruct (forest_fl_nd _ _ _ _ HF) as (HNt&HN&Hd&Hq). destruct (Hq _ (root_ids t)) as [Hq1 Hq2].
  destruct HF as [HQ Hf HN0 Hn]. apply list.Forall_cons in Hf as [[(e0&He0&HI0) Hb] Hf]. cbn in He0, HI0.
  exists (mkHeap (<[root t := ev_set_state EV_QUEUED e0]> (hp_events h)) (hp_next h) (hp_queue h ++ [(root t, c)])).
  split; [|split; [done|split; [done|split; [cbn; by rewrite map_size_insert, He0|]]]].
  - unfold queue_ev. rewrite (bind_ok _ _ h h e0) by (unfold get_ev; by rewrite He0).
    rewrite (bind_ok _ _ h h tt); [done|]. unfold massert. by rewrite (is_state _ _ _ _ _ HI0), (is_np _ _ _ _ _ HI0).
  - split; cbn.
    + constructor; [|elems; intros x Hx; apply rep_frame_ne; auto]. split; [|by apply below_frame].
      exists (ev_set_state EV_QUEUED e0). cbn. rewrite lookup_insert_eq. split; [done|]. by destruct HI0; split.
    + elems. intros x Hx. apply rep_frame_ne; auto.
    + by apply list.NoDup_app.
    + intros q Hl. rewrite lookup_insert_ne; [by apply Hn|]. intros Hr. rewrite Hn in He0 by lia. done.
Qed.

Lemma rep_at m st np r p n ks : rep m st np r -> (p, n, ks) ∈ nodes r ->
  exists e st' np', m !! p = Some e /\ EvIs e n ks st' np' /\ (st' = st \/ st' = EV_NONE).
Proof.
  destruct r as [q n' ks']. intros [(e&He&HI) Hb] Hx. cbn in Hx. apply elem_of_cons in Hx as [[= -> -> ->]|Hx].
  - exists e, st, np. auto.
  - cbn in Hb. elems. destruct (Hb _ Hx) as (e'&He'&HI'). exists e', EV_NONE, 1. auto.
Qed.

Lemma forest_at h qd fl p n ks : Forest h qd fl -> (p, n, ks) ∈ flat_map nodes (qd.*1 ++ fl) ->
  exists e st np, hp_events h !! p = Some e /\ EvIs e n ks st np /\ (st = EV_QUEUED \/ st = EV_NONE).
Proof.
  intros [HQ Hf _ _] (t&Ht&Hx)%elem_flat_map. elems. apply elem_of_app in Ht as [Ht|Ht].
  - apply list_elem_of_fmap in Ht as (x&->&Hx0). apply (rep_at _ _ _ _ _ _ _ (HQ _ Hx0) Hx).
  - destruct (rep_at _ _ _ _ _ _ _ (Hf _ Ht) Hx) as (e&st&np&?&?&[->| ->]); exists e, EV_NONE, np; auto.
Qed.

(** The child of a link with its domain. *)
Definition joined (d : Z) (t : tree) : tree :=
  if negb (d =? -1) && (n_dom (nd t) =? -1) then setdom d t else t.
Lemma ids_joined d t : ids (joined d t) = ids t.
Proof. unfold joined. case_match; [apply ids_setdom|done]. Qed.
Lemma root_joined d t : root (joined d t) = root t.
Proof. unfold joined. case_match; [apply root_setdom|done]. Qed.

Lemma nodes_kids_nodup r p n ks : NoDup (ids r) -> (p, n, ks) ∈ nodes r -> NoDup ks /\ (forall q, q ∈ ks -> q ∈ ids r).
Proof.
  induction r as [q n' ks' IH] using tree_ind'. rewrite ids_cons. intros [Hq HN]%list.NoDup_cons [[= -> -> ->]|Hx]%elem_of_cons.
  - clear IH Hq. assert (Hsub : forall x, x ∈ root <$> ks' -> x ∈ flat_map ids ks').
    { intros x (k&->&Hk)%list_elem_of_fmap. apply elem_flat_map. exists k. split; [done|]. apply root_ids. }
    split; [|intros x Hx; apply elem_of_cons; right; auto]. clear Hsub.
    induction ks' as [|k ks' IHk]; [constructor|]. cbn in HN. apply list.NoDup_app in HN as (HN1&Hd&HN2). cbn. constructor; [|auto].
    intros (k2&E&Hk2)%list_elem_of_fmap. apply (Hd (root k)); [apply root_ids|]. apply elem_flat_map. exists k2. rewrite E. split; [done|]. apply root_ids.
  - apply elem_flat_map in Hx as (k&Hk&Hx). elems. destruct (IH k Hk) as [H1 H2]; [|done|].
    + apply list_elem_of_split in Hk as (l1&l2&->). rewrite flat_map_app' in HN. cbn in HN. apply list.NoDup_app in HN as (_&_&HN).
      by apply list.NoDup_app in HN as (HN&_).
    + split; [done|]. intros x Hx'. apply elem_of_cons. right. apply elem_flat_map. exists k. auto.
Qed.

Lemma nodup_flat_elem {A B} (f : A -> list B) l a : NoDup (flat_map f l) -> a ∈ l -> NoDup (f a).
Proof.
  intros HN (l1&l2&->)%list_elem_of_split. rewrite flat_map_app' in HN. cbn in HN. apply list.NoDup_app in HN as (_&_&HN).
  by apply list.NoDup_app in HN as (HN&_).
Qed.

(** An event has fewer children than the heap has events. *)
Lemma forest_kids_few h qd fl tc p n ks : Forest h qd (tc :: fl) -> (p, n, ks) ∈ flat_map nodes (qd.*1 ++ fl) ->
  (length ks + 1 <= base.size (hp_events h))%nat.
Proof.
  intros HF Hx. assert (HL := fun q => Forest_live h qd (tc :: fl) q HF).
  destruct (forest_fl_nd _ _ _ _ HF) as (_&HN&Hd&_). apply elem_flat_map in Hx as (r&Hr&Hx).
  destruct (nodes_kids_nodup r p n ks (nodup_flat_elem _ _ _ HN Hr) Hx) as [HNk Hk].
  assert (Hin : forall q, q ∈ root tc :: ks -> q ∈ dom (hp_events h)).
  { intros q Hq. apply elem_of_dom. apply HL. rewrite <- Permutation_middle. cbn. apply elem_of_app.
    apply elem_of_cons in Hq as [->|Hq]; [left; apply root_ids|]. right. apply elem_flat_map. exists r. auto. }
  assert (HN2 : NoDup (root tc :: ks)).
  { constructor; [|done]. intros Hq. apply (Hd (root tc) (root_ids _)). apply elem_flat_map. exists r. auto. }
  replace (length ks + 1)%nat with (length (root tc :: ks)) by (cbn; lia).
  rewrite <- (size_list_to_set (C := gset nat)) by done. rewrite <- size_dom. apply subseteq_size. intros q Hq. apply Hin. by apply elem_of_list_to_set in Hq.
Qed.

Lemma joined_rep fuel h tc d np : rep (hp_events h) EV_NONE np tc -> NoDup (ids tc) -> (length (nodes tc) <= fuel)%nat ->
  exists h', (if negb (d =? -1) && (n_dom (nd tc) =? -1) then propagateDomain fuel (root tc) d else mret tt) h = Ok (tt, h') /\
    rep (hp_events h') EV_NONE np (joined d tc) /\ SameHeap h h' (ids tc).
Proof.
  intros HR HN Hf. unfold joined. destruct (_ && _) eqn:E; [|by exists h].
  apply andb_true_iff in E as [E1%negb_true_iff%Z.eqb_neq E2%Z.eqb_eq]. by apply propagates_all.
Qed.

Lemma forest_addChild fuel h qd fl tc p n ks :
  Forest h qd (tc :: fl) -> (p, n, ks) ∈ flat_map nodes (qd.*1 ++ fl) -> Z.of_nat (base.size (hp_events h)) < two32 ->
  (length (nodes tc) <= fuel)%nat ->
  exists h', addChild fuel p (root tc) h = Ok (root tc, h') /\ hp_queue h' = hp_queue h /\ hp_next h' = hp_next h /\
    (base.size (hp_events h') <= base.size (hp_events h))%nat /\
    Forest h' ((fun x => (graft p (joined (n_dom n) tc) x.1, x.2)) <$> qd) (map (graft p (joined (n_dom n) tc)) fl).
Proof.
  intros HF Hp Hsz Hfuel. set (d := n_dom n).
  pose proof (forest_kids_few _ _ _ _ _ _ _ HF Hp) as Hfew.
  destruct (forest_fl_nd _ _ _ _ HF) as (HNt&HN&Hd&_).
  assert (Hpi : p ∈ flat_map ids (qd.*1 ++ fl)).
  { apply elem_flat_map in Hp as (r&Hr&Hp). apply elem_flat_map. exists r. split; [done|]. apply elem_ids. by exists n, ks. }
  assert (Hptc : p ∉ ids tc) by (intros Hx; by apply (Hd p)).
  assert (Hat : exists e st np, hp_events h !! p = Some e /\ EvIs e n ks st np /\ (st = EV_QUEUED \/ st = EV_NONE)).
  { apply (forest_at h qd (tc :: fl) _ _ _ HF). rewrite <- Permutation_middle. cbn. apply elem_of_app. by right. }
  destruct Hat as (e&st&np&He&HI&Hst).
  assert (HRtc := Forall_inv (fo_f _ _ _ HF)). destruct (HRtc) as [(ec&Hec&HIc) _]. cbn in Hec, HIc.
  destruct (add_to_children (ev_numChildren e) (ev_children e) (root tc)) as [ch nc] eqn:Eadd.
  assert (HSh : forall kq, Shape (ev_numChildren e) (ev_children e) kq -> Shape nc ch (kq ++ [root tc])).
  { intros kq Hkq. assert (length kq = length ks) as Hlen.
    { destruct Hkq as [E _], (is_kids _ _ _ _ _ HI) as [E' _]. lia. }
    pose proof (Shape_add _ _ kq (root tc) ltac:(lia) Hkq) as HS. by rewrite Eadd in HS. }
  set (h1 := mkHeap (<[p := ev_set_children ch nc e]> (hp_events h)) (hp_next h) (hp_queue h)).
  destruct (joined_rep fuel h1 tc d 0) as (h2&E2&HR2&[S1 S2 S3 S4]); [by apply rep_frame_ne|done|done|].
  destruct (HR2) as [(e2&He2&HI2) Hb2]. rewrite root_joined in He2, HI2. cbn in He2, HI2.
  set (e3 := ev_set_numParents (u32 (ev_numParents e2 + 1)) e2).
  set (h3 := mkHeap (<[root tc := e3]> (hp_events h2)) (hp_next h2) (hp_queue h2)).
  assert (Hfr : forall q, q ∉ ids tc -> q <> p -> hp_events h3 !! q = hp_events h !! q).
  { intros q Hq Hqp. cbn. rewrite lookup_insert_ne by (intros <-; apply Hq, root_ids). rewrite S3 by done. cbn. by rewrite lookup_insert_ne. }
  assert (HLk : forall r, r ∈ qd.*1 ++ fl -> linked (hp_events h) (hp_events h3) p (root tc) (ids r)).
  { intros r Hr q nq kq sq npq Hq (eq&Heq&HIq). cbn in Heq.
    assert (Hqt : q ∉ ids tc) by (intros Hx; apply (Hd q Hx), elem_flat_map; by exists r).
    destruct (decide (q = p)) as [->|Hqp].
    - exists (ev_set_children ch nc e). cbn. split.
      + rewrite lookup_insert_ne by (intros <-; apply Hqt, root_ids). rewrite S3 by done. cbn. by rewrite lookup_insert_eq.
      + assert (eq = e) as -> by congruence. destruct HIq. split; try done. by apply HSh.
    - exists eq. cbn. rewrite app_nil_r. split; [|done]. rewrite <- Heq. by apply Hfr. }
  assert (HR3 : Forall (at_ev (hp_events h3) EV_NONE 1) (nodes (joined d tc))).
  { apply rep_none. split.
    - exists e3. cbn. rewrite root_joined, lookup_insert_eq. split; [done|]. destruct HI2. split; try done. cbn. by rewrite is_np0.
    - pose proof (below_frame (hp_events h2) (joined d tc) e3) as Hbf. rewrite root_joined in Hbf. apply Hbf; [by rewrite ids_joined|done]. }
  assert (Hdom : forall q, hp_events h !! q = None -> hp_events h3 !! q = None).
  { intros q Hq. destruct (Forest_live h qd (tc :: fl) p HF) as [Hpl _]; [rewrite <- Permutation_middle; cbn; apply elem_of_app; by right|].
    cbn. rewrite lookup_insert_ne by (intros <-; congruence). apply S4. cbn. rewrite lookup_insert_ne; [done|]. intros <-. by rewrite Hq in Hpl; destruct Hpl. }
  exists h3. split; [|split; [|split; [|split]]].
  - unfold addChild. rewrite (bind_ok _ _ h h e) by (unfold get_ev; by rewrite He).
    rewrite (bind_ok _ _ h h tt) by (unfold massert; rewrite (is_state _ _ _ _ _ HI); by destruct Hst as [->| ->]).
    rewrite (bind_ok _ _ h h ec) by (unfold get_ev; by rewrite Hec).
    rewrite (bind_ok _ _ h h tt) by (unfold massert; by rewrite (is_state _ _ _ _ _ HIc)).
    rewrite Eadd. rewrite (bind_ok _ _ h h1 tt) by done.
    rewrite (is_dom _ _ _ _ _ HI), (is_dom _ _ _ _ _ HIc). fold d. rewrite (bind_ok _ _ h1 h2 tt) by done.
    rewrite (bind_ok _ _ h2 h3 tt); [done|]. unfold modify_ev. rewrite (bind_ok _ _ h2 h2 e2); [done|]. unfold get_ev. by rewrite He2.
  - done.
  - done.
  - by apply size_le.
  - destruct HF as [HQ Hf _ Hn]. apply list.Forall_cons in Hf as [_ Hf]. split.
    + apply Forall_fmap. elems. intros x Hx. cbn. apply (rep_graft (hp_events h)); [by rewrite list.Forall_forall| |by apply HQ].
      rewrite root_joined. apply HLk. apply elem_of_app. left. apply list_elem_of_fmap. by exists x.
    + change (map (graft p (joined d tc)) fl) with (graft p (joined d tc) <$> fl). apply Forall_fmap. elems. intros x Hx. cbn.
      apply (rep_graft (hp_events h)); [by rewrite list.Forall_forall| |by apply Hf]. rewrite root_joined. apply HLk, elem_of_app. by right.
    + replace (_ ++ _) with (map (graft p (joined d tc)) (qd.*1 ++ fl)); [|rewrite map_app; f_equal; by rewrite <- list_fmap_compose, <- list_fmap_compose].
      rewrite graft_ids_list by done. rewrite ids_joined. apply list.NoDup_app. split_and!; try done. intros q Hq Hx. by apply (Hd q).
    + intros q Hq. apply Hdom, Hn. replace (hp_next h) with (hp_next h3) by done. done.
Qed.

(** ** Running a queued event *)
Lemma flat_frontier_sub ks : Forall (fun t => forall s, flat_map ids (frontier t s).*1 ⊆+ ids t) ks ->
  forall s, flat_map ids (flat_map (fun k => frontier k s) ks).*1 ⊆+ flat_map ids ks.
Proof.
  induction 1 as [|k ks Hk _ IH]; intros s; [done|]. cbn. rewrite fmap_app, flat_map_app'. by apply submseteq_app.
Qed.
Lemma frontier_sub t : forall s, flat_map ids (frontier t s).*1 ⊆+ ids t.
Proof.
  induction t as [p n ks IH] using tree_ind'. intros s. cbn.
  assert (Hd : flat_map ids [(Tr p n ks, s + n_pre n)].*1 ⊆+ ids (Tr p n ks)) by (cbn; by rewrite app_nil_r).
  destruct (n_class n); try exact Hd. rewrite ids_cons. apply submseteq_cons. by apply flat_frontier_sub.
Qed.
Lemma frontiers_sub ks s : flat_map ids (flat_map (fun k => frontier k s) ks).*1 ⊆+ flat_map ids ks.
Proof. apply flat_frontier_sub. elems. intros t _. apply frontier_sub. Qed.

Lemma nodup_sub {A} (l l' : list A) : l ⊆+ l' -> NoDup l' -> NoDup l.
Proof. intros (k&E)%submseteq_Permutation. rewrite E. by intros (H&_)%list.NoDup_app. Qed.

Lemma rep_frame_out m m' t (l : list nat) : (forall q, q ∉ l -> m' !! q = m !! q) -> (forall q, q ∈ l -> q ∉ ids t) ->
  forall st np, rep m st np t -> rep m' st np t.
Proof. intros Hf Hd st np. apply rep_frame. intros q Hq. apply Hf. intros Hx. by apply (Hd q). Qed.

(** What a run of the root of [t] leads to: [t] leaves the forest and the events that its
    end reaches are queued. *)
Record Ran (h h' : EvHeap) (t : tree) (s : Z) (qd : list (tree * Z)) (fl : list tree) (fr : list (tree * Z)) : Prop := {
  r_perm : fr ≡ₚ flat_map (fun k => frontier k s) (kids t);
  r_queue : hp_queue h' = hp_queue h ++ entries fr;
  r_next : hp_next h' = hp_next h;
  r_size : (base.size (hp_events h') <= base.size (hp_events h))%nat;
  r_forest : Forest h' (fr ++ qd) fl }.

Lemma forest_run fuel h qd fl t c0 c c' : Forest h ((t, c0) :: qd) fl -> n_min (nd t) <= c -> 0 <= c' ->
  c' + n_post (nd t) + zsum (map span (kids t)) < two64 -> (2 * length (nodes t) <= fuel)%nat ->
  exists e h1 h' fr, run_ev (root t) c h = Ok (e, h1) /\ ev_class e = n_class (nd t) /\
    ev_done fuel (root t) c' h1 = Ok (tt, h') /\ Ran h h' t (c' + n_post (nd t)) qd fl fr.
Proof.
  intros HF Hm Hc' Hs Hf. destruct t as [p n ks]. cbn [root nd kids] in *.
  assert (HN := fo_nd _ _ _ HF). cbn in HN. apply list.NoDup_app in HN as (HNt&Hd&HN).
  assert (HR := Forall_inv (fo_q _ _ _ HF)). cbn in HR.
  destruct (HR) as [(e&He&HI) Hb]. cbn in He, HI, Hb. rewrite ids_cons in HNt, Hd.
  set (h1 := mkHeap (<[p := ev_set_state EV_RUNNING e]> (hp_events h)) (hp_next h) (hp_queue h)).
  assert (HRk : Forall (rep (hp_events h1) EV_NONE 1) ks).
  { elems. intros k Hk. apply rep_frame_ne; [|by eapply rep_kid]. intros Hx. apply list.NoDup_cons in HNt as [Hp _].
    apply Hp, elem_flat_map. by exists k. }
  cbn in Hf. destruct fuel as [|fuel]; [lia|].
  destruct (done_fire fuel h1 p n ks 0 c') as (h'&fr&E&F); try done.
  { exists (ev_set_state EV_RUNNING e). cbn. rewrite lookup_insert_eq. split; [done|]. by destruct HI; split. }
  { elems. intros k Hk. apply fires_all. apply list_elem_of_split in Hk as (l1&l2&->). rewrite flat_map_app' in Hf. cbn in Hf.
    rewrite !length_app in Hf. lia. }
  exists e, h1, h', fr. split; [|split; [by apply (is_class _ _ _ _ _ HI)|split; [exact E|]]].
  { unfold run_ev. rewrite (bind_ok _ _ h h e) by (unfold get_ev; by rewrite He).
    rewrite (bind_ok _ _ h h tt) by (unfold massert; by rewrite (is_state _ _ _ _ _ HI)).
    rewrite (bind_ok _ _ h h1 tt) by done. unfold massert, mbind, M_bind. rewrite (is_min _ _ _ _ _ HI). by rewrite (proj2 (Z.leb_le _ _) Hm). }
  destruct F as [F1 F2 F3 F4 F5 F6 F7]. cbn in F2, F3.
  assert (Hdom : forall q, hp_events h !! q = None -> hp_events h' !! q = None).
  { intros q Hq. apply F6. cbn. rewrite lookup_insert_ne; [done|]. intros <-. congruence. }
  split; try done; [by apply size_le|].
  assert (Hfr : forall q, q ∉ p :: flat_map ids ks -> hp_events h' !! q = hp_events h !! q).
  { intros q Hq. rewrite F5 by done. cbn. apply lookup_insert_ne. intros <-. apply Hq, list_elem_of_here. }
  assert (Hother : forall r, r ∈ qd.*1 ++ fl -> forall st np, rep (hp_events h) st np r -> rep (hp_events h') st np r).
  { intros r Hr. eapply rep_frame_out; [exact Hfr|]. intros q Hq Hx. apply (Hd q Hq), elem_flat_map. by exists r. }
  destruct HF as [HQ Hfl _ Hn]. apply list.Forall_cons in HQ as [_ HQ]. split.
  - apply Forall_app. split; [done|]. elems. intros x Hx. apply Hother; [|by apply HQ]. apply elem_of_app. left. apply list_elem_of_fmap. by exists x.
  - elems. intros x Hx. apply Hother; [|by apply Hfl]. apply elem_of_app. by right.
  - assert (Hsub : flat_map ids fr.*1 ⊆+ flat_map ids ks) by (rewrite F1; apply frontiers_sub).
    rewrite fmap_app, <- app_assoc, flat_map_app'. apply list.NoDup_cons in HNt as [Hp HNk]. apply list.NoDup_app. split; [by eapply nodup_sub|]. split; [|done].
    intros q Hq. apply Hd. apply elem_of_cons. right. eapply elem_of_submseteq; [exact Hq|done].
  - intros q Hq. apply Hdom, Hn. by rewrite <- F2.
Qed.

(** ** Bounds *)
Lemma span_bound m st np t : rep m st np t -> span t <= Z.of_nat (length (nodes t)) * (3 * two32).
Proof.
  revert st np. induction t as [p n ks IH] using tree_ind'. intros st np HR.
  assert (Hd : dur n < 3 * two32) by (destruct HR as [(e&_&HI) _]; apply (is_short _ _ _ _ _ HI)).
  assert (HRk : Forall (rep m EV_NONE 1) ks) by (elems; intros k Hk; by eapply rep_kid).
  enough (zsum (map span ks) <= Z.of_nat (length (flat_map nodes ks)) * (3 * two32)) by (cbn [span nodes length]; lia).
  clear Hd HR. induction ks as [|k ks IHk]; [done|]. apply list.Forall_cons in IH as [IH1 IH], HRk as [HR1 HRk].
  cbn. rewrite length_app. specialize (IHk IH HRk). specialize (IH1 _ _ HR1). unfold zsum in *. lia.
Qed.

Lemma forest_count h qd fl : Forest h qd fl -> (length (flat_map nodes (qd.*1 ++ fl)) <= base.size (hp_events h))%nat.
Proof.
  intros HF. assert (E : length (flat_map nodes (qd.*1 ++ fl)) = length (flat_map ids (qd.*1 ++ fl))).
  { generalize (qd.*1 ++ fl). intros l. induction l as [|t l IH]; [done|]. cbn. rewrite !length_app, IH. f_equal. unfold ids. by rewrite length_fmap. }
  rewrite E, <- (size_list_to_set (C := gset nat)) by apply (fo_nd _ _ _ HF). rewrite <- size_dom. apply subseteq_size.
  intros q Hq%elem_of_list_to_set. apply elem_of_dom. by apply (Forest_live _ _ _ _ HF).
Qed.

Lemma forest_nodes_le h qd fl t : Forest h qd fl -> t ∈ qd.*1 ++ fl -> (length (nodes t) <= base.size (hp_events h))%nat.
Proof.
  intros HF Ht. pose proof (forest_count _ _ _ HF) as Hc. apply list_elem_of_split in Ht as (l1&l2&E). rewrite E, flat_map_app' in Hc.
  cbn in Hc. rewrite !length_app in Hc. lia.
Qed.
