(* ===== verification/CoreRecorder.v ===== *)
(** * The in-order core recorder, the timing, simple and null cores, and the weave memory
      (src/src/core_recorder.h, core_recorder.cpp, timing_core.h, timing_core.cpp,
       simple_core.h, simple_core.cpp, null_core.h, null_core.cpp, weave_md1_mem.h)

    A recorder turns the accesses of its core into a chain of events for the contention
    simulation, and corrects the core's clock with what that simulation adds.  Its
    operations run on its own fields and on the event heap; the fields of zinfo that they
    read are arguments.  The cores reach the caches through a parameter, the port. *)

From S2P Require Import Prelude Bithacks MemHier TimingEvent.

(** The fields of [zinfo] that the cores read. *)
Record Zinfo := mkZinfo { globPhaseCycles : Z; phaseLength : Z }.

(** ** The recorder *)
Module CR.

Inductive State := HALTED | RUNNING | DRAINING.
#[global] Instance State_eq_dec : EqDecision State.
Proof. solve_decision. Defined.

Record t := mk {
  state : State;
  gapCycles : Z;
  eventRecorder : EventRecorder;
  prevRespCycle : Z;
  prevRespEvent : option nat;
  lastStart : Z;      (** lastEventSimulatedStartCycle *)
  lastOrigStart : Z;  (** lastEventSimulatedOrigStartCycle *)
  totalGapCycles : Z;
  totalHaltedCycles : Z;
  lastUnhaltedCycle : Z;
  domain : Z }.

Definition with_state (s : State) (r : t) : t :=
  mk s (gapCycles r) (eventRecorder r) (prevRespCycle r) (prevRespEvent r) (lastStart r) (lastOrigStart r)
    (totalGapCycles r) (totalHaltedCycles r) (lastUnhaltedCycle r) (domain r).
Definition with_recorder (er : EventRecorder) (r : t) : t :=
  mk (state r) (gapCycles r) er (prevRespCycle r) (prevRespEvent r) (lastStart r) (lastOrigStart r)
    (totalGapCycles r) (totalHaltedCycles r) (lastUnhaltedCycle r) (domain r).
Definition with_prev (c : Z) (ev : option nat) (r : t) : t :=
  mk (state r) (gapCycles r) (eventRecorder r) c ev (lastStart r) (lastOrigStart r)
    (totalGapCycles r) (totalHaltedCycles r) (lastUnhaltedCycle r) (domain r).
Definition with_last (s o : Z) (r : t) : t :=
  mk (state r) (gapCycles r) (eventRecorder r) (prevRespCycle r) (prevRespEvent r) s o
    (totalGapCycles r) (totalHaltedCycles r) (lastUnhaltedCycle r) (domain r).
Definition with_totals (g h : Z) (r : t) : t :=
  mk (state r) (gapCycles r) (eventRecorder r) (prevRespCycle r) (prevRespEvent r) (lastStart r) (lastOrigStart r)
    g h (lastUnhaltedCycle r) (domain r).
Definition with_unhalted (c : Z) (r : t) : t :=
  mk (state r) (gapCycles r) (eventRecorder r) (prevRespCycle r) (prevRespEvent r) (lastStart r) (lastOrigStart r)
    (totalGapCycles r) (totalHaltedCycles r) c (domain r).
(** [gapCycles = g; eventRecorder.setGapCycles(gapCycles);] *)
Definition set_gap (g : Z) (r : t) : t :=
  mk (state r) g (setGapCycles (eventRecorder r) g) (prevRespCycle r) (prevRespEvent r) (lastStart r) (lastOrigStart r)
    (totalGapCycles r) (totalHaltedCycles r) (lastUnhaltedCycle r) (domain r).
Definition set_slack (s : Z) (r : t) : t := with_recorder (setStartSlack (eventRecorder r) s) r.

(** The constructor leaves prevRespCycle and the two cycles of the last event unset:
    they are [junk]. *)
Definition init (er : EventRecorder) (dom junk : Z) : t :=
  mk HALTED 0 (setGapCycles er 0) junk None junk junk 0 0 0 dom.

Definition RM := M (t * EvHeap).
Definition onRec (f : t -> t) : RM unit := mmodify (fun s => (f s.1, s.2)).
Definition onHeap {A} (m : EvM A) : RM A := fun s =>
  match m s.2 with Ok (a, h) => Ok (a, (s.1, h)) | Err f => Err f end.

(** Enough fuel for the walks over the events below one event. *)
Definition ev_fuel (h : EvHeap) : nat := 2 * base.size (hp_events h) + 2.
Definition link (p c : nat) : RM nat := '(_, h) ← mget; onHeap (addChild (ev_fuel h) p c).

Section Ops.
(** [this], by the index of the core, and zinfo. *)
Context (self : nat) (zi : Zinfo).

(** [new (eventRecorder) TimingCoreEvent(delay, origStartCycle, this, domain)]; the
    TimingEvent constructor takes the delay as a [uint32_t]. *)
Definition new_TimingCoreEvent (delay origStartCycle dom : Z) : RM nat :=
  onHeap (new_TimingEvent (ClsCore self origStartCycle) 0 (u32 delay) dom).

(** The lines that append an event at [prevRespCycle] to the chain. *)
Definition append_ev (delay : Z) : RM unit :=
  '(r, _) ← mget;
  ev ← new_TimingCoreEvent delay (u64 (prevRespCycle r - gapCycles r)) (-1);
  onHeap (setMinStartCycle ev (prevRespCycle r));;
  p ← mlift (from_opt (prevRespEvent r) "prevRespEvent is null");
  link p ev;;
  onRec (with_prev (prevRespCycle r) (Some ev)).

Definition notifyJoin (curCycle : Z) : RM Z :=
  '(r, _) ← mget;
  match state r with
  | HALTED =>
      massert (bool_decide (prevRespEvent r = None)) "!prevRespEvent";;
      let curCycle := globPhaseCycles zi in
      onRec (with_totals (u64 (totalGapCycles r + gapCycles r)) (totalHaltedCycles r));;
      onRec (set_gap 0);;
      massert (lastUnhaltedCycle r <=? curCycle) "lastUnhaltedCycle <= curCycle";;
      onRec (fun r => with_totals (totalGapCycles r) (u64 (totalHaltedCycles r + (curCycle - lastUnhaltedCycle r))) r);;
      ev ← new_TimingCoreEvent 0 curCycle (domain r);
      onRec (with_prev curCycle (Some ev));;
      onHeap (setMinStartCycle ev curCycle);;
      onHeap (queue_ev ev curCycle);;
      onRec (set_slack 0);;
      onRec (with_state RUNNING);;
      mret curCycle
  | DRAINING =>
      massert (globPhaseCycles zi <=? curCycle) "curCycle >= zinfo->globPhaseCycles";;
      onRec (with_state RUNNING);;
      mret curCycle
  | RUNNING => mfail "Invalid state on join()"
  end.

Definition notifyLeave (curCycle : Z) : RM unit :=
  '(r, _) ← mget;
  massert (bool_decide (state r = RUNNING)) "state == RUNNING";;
  onRec (with_state DRAINING);;
  massert (negb (bool_decide (prevRespEvent r = None))) "prevRespEvent";;
  append_ev (u64 (curCycle - prevRespCycle r));;
  onRec (fun r => with_prev curCycle (prevRespEvent r) r);;
  append_ev 0.

Definition recordAccess (startCycle : Z) : RM unit :=
  '(r, _) ← mget;
  massert (hasRecord (eventRecorder r)) "eventRecorder.hasRecord()";;
  let '(tr, er) := popRecord (eventRecorder r) in
  onRec (with_recorder er);;
  let origPrevResp := prevRespEvent r in
  massert (prevRespCycle r <=? startCycle) "startCycle >= prevRespCycle";;
  massert (startCycle <=? tr_reqCycle tr) "tr.reqCycle >= startCycle";;
  prev ← mlift (from_opt origPrevResp "prevRespEvent is null");
  startEvent ← mlift (from_opt (tr_startEvent tr) "startEvent is null");
  (if IsGet (tr_type tr) then
     let delay := u64 (tr_reqCycle tr - prevRespCycle r) in
     ev ← new_TimingCoreEvent delay (u64 (prevRespCycle r - gapCycles r)) (-1);
     onHeap (setMinStartCycle ev (prevRespCycle r));;
     c ← link prev ev;
     link c startEvent;;
     onRec (with_prev (tr_respCycle tr) (tr_endEvent tr));;
     massert (negb (bool_decide (tr_endEvent tr = None))) "prevRespEvent"
   else
     massert (IsPut (tr_type tr)) "IsPut(tr.type)";;
     dr ← onHeap (new_DelayEvent (u32 (u64 (tr_reqCycle tr - prevRespCycle r))));
     onHeap (setMinStartCycle dr (prevRespCycle r));;
     c ← link prev dr;
     link c startEvent;;
     mret tt);;
  '(_, h) ← mget;
  onHeap (produceCrossings (ev_fuel h) prev).

(** [record]. *)
Definition record (startCycle : Z) : RM unit :=
  '(r, _) ← mget;
  if hasRecord (eventRecorder r) then recordAccess startCycle else mret tt.

Definition cSimStart (curCycle : Z) : RM Z :=
  '(r, _) ← mget;
  let nextPhaseCycle := u64 (globPhaseCycles zi + phaseLength zi) in
  match state r with
  | HALTED => mret curCycle
  | RUNNING =>
      massert (nextPhaseCycle <=? curCycle) "curCycle >= nextPhaseCycle";;
      (if prevRespCycle r <? curCycle then
         append_ev (u64 (curCycle - prevRespCycle r));;
         onRec (fun r => with_prev curCycle (prevRespEvent r) r)
       else mret tt);;
      append_ev 0;;
      mret curCycle
  | DRAINING => mret (if curCycle <? nextPhaseCycle then nextPhaseCycle else curCycle)
  end.

Definition cSimEnd (curCycle : Z) : RM Z :=
  '(r, _) ← mget;
  match state r with
  | HALTED => mret curCycle
  | _ =>
      let lastEvCycle1 := u64 (lastOrigStart r + gapCycles r) in
      let lastEvCycle2 := lastStart r in
      massert (lastEvCycle1 <=? curCycle) "lastEvCycle1 <= curCycle";;
      massert (lastEvCycle2 <=? curCycle) "lec2 <= cc";;
      massert (negb (lastEvCycle2 <? lastEvCycle1)) "Contention simulation introduced a negative skew";;
      let skew := u64 (lastEvCycle2 - lastEvCycle1) in
      let curCycle := u64 (curCycle + skew) in
      onRec (fun r => set_gap (u64 (gapCycles r + skew)) (with_prev (u64 (prevRespCycle r + skew)) (prevRespEvent r) r));;
      (if bool_decide (prevRespEvent r = None) then
         massert (bool_decide (state r = DRAINING)) "state == DRAINING";;
         onRec (with_unhalted (lastStart r));;
         onRec (with_state HALTED)
       else mret tt);;
      mret curCycle
  end.

(** [reportEventSimulated(ev)]: the event, its startCycle and its origStartCycle. *)
Definition reportEventSimulated (ev : nat) (startCycle origStartCycle : Z) (r : t) : res t :=
  let r := with_last startCycle origStartCycle r in
  r ← (if bool_decide (prevRespEvent r = Some ev) then
         _ ← rassert (bool_decide (state r = DRAINING)) "state == DRAINING";
         Ok (with_prev (prevRespCycle r) None r)
       else Ok r);
  Ok (set_slack (u64 (startCycle - origStartCycle)) r).

Definition getUnhaltedCycles (curCycle : Z) (r : t) : Z :=
  let cycle := MAX curCycle (globPhaseCycles zi) in
  let haltedCycles := u64 (totalHaltedCycles r + (if bool_decide (state r = HALTED) then u64 (cycle - lastUnhaltedCycle r) else 0)) in
  u64 (cycle - haltedCycles).
Definition getContentionCycles (r : t) : Z := u64 (totalGapCycles r + gapCycles r).
End Ops.
End CR.

(** ** The cores *)

(** What a core asks of its L1 caches. *)
Inductive AccessKind := Ifetch | Load | Store.

(** [l1i->load], [l1d->load] and [l1d->store] of core [i]: from the address and the cycle
    to the response cycle, on the core's event recorder and the event heap. *)
Class Port := port_access : nat -> AccessKind -> Z -> Z -> M (EventRecorder * EvHeap) Z.

Module TC.
Record t := mk { instrs : Z; curCycle : Z; phaseEndCycle : Z; cRec : CR.t }.
Definition with_cycle (c : Z) (s : t) : t := mk (instrs s) c (phaseEndCycle s) (cRec s).
Definition with_phaseEnd (c : Z) (s : t) : t := mk (instrs s) (curCycle s) c (cRec s).
Definition with_instrs (n : Z) (s : t) : t := mk n (curCycle s) (phaseEndCycle s) (cRec s).
Definition with_rec (r : CR.t) (s : t) : t := mk (instrs s) (curCycle s) (phaseEndCycle s) r.

Definition init (er : EventRecorder) (dom junk : Z) : t := mk 0 0 junk (CR.init er dom junk).

Definition TM := M (t * EvHeap).
Definition onCore (f : t -> t) : TM unit := mmodify (fun s => (f s.1, s.2)).
Definition onRec {A} (m : CR.RM A) : TM A := fun s =>
  match m (cRec s.1, s.2) with Ok (a, (r, h)) => Ok (a, (with_rec r s.1, h)) | Err f => Err f end.

Section Ops.
Context (self : nat) (zi : Zinfo) `{Port} (lineBits : Z).

Definition port (k : AccessKind) (addr cycle : Z) : TM Z := fun s =>
  match port_access self k addr cycle (CR.eventRecorder (cRec s.1), s.2) with
  | Ok (c, (er, h)) => Ok (c, (with_rec (CR.with_recorder er (cRec s.1)) s.1, h))
  | Err f => Err f
  end.

Definition getPhaseCycles (s : t) : Z := curCycle s mod phaseLength zi.
Definition getCycles (s : t) : Z := CR.getUnhaltedCycles zi (curCycle s) (cRec s).

Definition join : TM unit :=
  '(s, _) ← mget;
  c ← onRec (CR.notifyJoin self zi (curCycle s));
  onCore (with_cycle c);;
  onCore (with_phaseEnd (u64 (globPhaseCycles zi + phaseLength zi))).
Definition leave : TM unit :=
  '(s, _) ← mget; onRec (CR.notifyLeave self (curCycle s)).

(** The three lines around an access: [loadAndRecord], [storeAndRecord] and the fetch. *)
Definition accessAndRecord (k : AccessKind) (addr : Z) : TM unit :=
  '(s, _) ← mget;
  let startCycle := curCycle s in
  c ← port k addr startCycle;
  onCore (with_cycle c);;
  onRec (CR.record self startCycle).
Definition loadAndRecord : Z -> TM unit := accessAndRecord Load.
Definition storeAndRecord : Z -> TM unit := accessAndRecord Store.

Fixpoint fetch_loop (n : nat) (fetchAddr endBblAddr : Z) : TM unit :=
  if fetchAddr <? endBblAddr then
    match n with
    | O => fun _ => Err OutOfFuel
    | S n' => accessAndRecord Ifetch fetchAddr;;
              fetch_loop n' (u64 (fetchAddr + Z.shiftl 1 lineBits)) endBblAddr
    end
  else mret tt.
Definition bblAndRecord (bblAddr bblInstrs bblBytes : Z) : TM unit :=
  onCore (fun s => with_instrs (u64 (instrs s + bblInstrs)) s);;
  onCore (fun s => with_cycle (u64 (curCycle s + bblInstrs)) s);;
  fetch_loop (S (Z.to_nat bblBytes)) bblAddr (u64 (bblAddr + bblBytes)).

(** [PredLoadAndRecordFunc] and [PredStoreAndRecordFunc]. *)
Definition predAccess (k : AccessKind) (addr : Z) (pred : bool) : TM unit :=
  if pred then accessAndRecord k addr else mret tt.

Definition cSimStart : TM unit :=
  '(s, _) ← mget; c ← onRec (CR.cSimStart self zi (curCycle s)); onCore (with_cycle c).
Definition cSimEnd : TM unit :=
  '(s, _) ← mget; c ← onRec (CR.cSimEnd (curCycle s)); onCore (with_cycle c).
End Ops.
End TC.

(** ** The weave-phase memory and the caches' records *)
Module WM.
(** WeaveSimpleMemory: [latency] is that of SimpleMemory. *)
Record t := mk { latency : Z; zeroLoadLatency : Z; domain : Z; preDelay : Z; postDelay : Z }.

Definition init (latency zeroLoadLatency domain : Z) : res t :=
  _ ← rassert (zeroLoadLatency <=? latency) "_latency >= _zeroLoadLatency";
  let preDelay := zeroLoadLatency / 2 in
  Ok (mk latency zeroLoadLatency domain preDelay (u32 (zeroLoadLatency - preDelay))).

Definition PM := M (EventRecorder * EvHeap).
Definition onHeap {A} (m : EvM A) : PM A := fun s =>
  match m s.2 with Ok (a, h) => Ok (a, (s.1, h)) | Err f => Err f end.
Definition push (r : TimingRecord) : PM unit :=
  '(er, _) ← mget; er' ← mlift (pushRecord er r); mmodify (fun s => (er', s.2)).
Definition pop : PM TimingRecord :=
  '(er, _) ← mget; let '(r, er') := popRecord er in mmodify (fun s => (er', s.2));; mret r.

(** [access], less the coherence state of the line, which SimpleMemory::access sets. *)
Definition access (w : t) (lineAddr reqCycle : Z) (type : AccessType) : PM Z :=
  let realRespCycle := u64 (reqCycle + latency w) in
  massert (reqCycle <? realRespCycle) "respCycle > req.cycle";;
  let realLatency := u32 (realRespCycle - reqCycle) in
  let puts := bool_decide (type = PUTS) in
  let respCycle := u64 (reqCycle + (if puts then 0 else zeroLoadLatency w)) in
  massert (respCycle <=? realRespCycle) "realRespCycle >= respCycle";;
  massert (puts || (zeroLoadLatency w <=? realLatency)) "realLatency >= zeroLoadLatency";;
  (if puts then mret tt
   else
     memEv ← onHeap (new_TimingEvent (ClsMem (u32 (realLatency - zeroLoadLatency w))) (preDelay w) (postDelay w) (domain w));
     onHeap (setMinStartCycle memEv reqCycle);;
     push (mkRecord lineAddr reqCycle respCycle type (Some memEv) (Some memEv)));;
  mret respCycle.

Definition link (p c : nat) : PM nat := '(_, h) ← mget; onHeap (addChild (CR.ev_fuel h) p c).

(** The end of Cache::access when the writeback left the record [wbAcc]: pass it on alone,
    or stitch it to the record of the access. *)
Definition stitch (wbAcc : TimingRecord) (reqCycle : Z) : PM unit :=
  '(er, _) ← mget;
  if negb (hasRecord er) then
    push (mkRecord (tr_addr wbAcc) (tr_reqCycle wbAcc) (tr_respCycle wbAcc) (tr_type wbAcc) (tr_startEvent wbAcc) None)
  else
    acc ← pop;
    massert (reqCycle <=? tr_reqCycle wbAcc) "wbAcc.reqCycle >= req.cycle";;
    massert (reqCycle <=? tr_reqCycle acc) "acc.reqCycle >= req.cycle";;
    startEv ← onHeap (new_DelayEvent 0);
    dWbEv ← onHeap (new_DelayEvent (u32 (tr_reqCycle wbAcc - reqCycle)));
    dAccEv ← onHeap (new_DelayEvent (u32 (tr_reqCycle acc - reqCycle)));
    onHeap (setMinStartCycle startEv reqCycle);;
    onHeap (setMinStartCycle dWbEv reqCycle);;
    onHeap (setMinStartCycle dAccEv reqCycle);;
    wbStart ← mlift (from_opt (tr_startEvent wbAcc) "null event");
    accStart ← mlift (from_opt (tr_startEvent acc) "null event");
    c ← link startEv dWbEv;
    link c wbStart;;
    c ← link startEv dAccEv;
    link c accStart;;
    push (mkRecord (tr_addr acc) reqCycle (tr_respCycle acc) (tr_type acc) (Some startEv) (tr_endEvent acc)).

(** How an access goes through the caches: the latencies before and after the memory, and
    whether a dirty line is written back on the way. *)
Inductive Route :=
| Hit (lat : Z)
| Miss (up down : Z) (type : AccessType)
| HitEvict (upW lat : Z)
| MissEvict (upW up down : Z) (type : AccessType).

(** One level of caches between the cores and the memory: the misses and the writebacks
    reach the memory at the cycles of the route. *)
Definition cache_port (w : t) (route : nat -> AccessKind -> Z -> Z -> Route) : Port := fun i k addr cycle =>
  match route i k addr cycle with
  | Hit lat => mret (u64 (cycle + lat))
  | Miss up down type =>
      c ← access w addr (u64 (cycle + up)) type; mret (u64 (c + down))
  | HitEvict upW lat =>
      access w addr (u64 (cycle + upW)) PUTX;; wbAcc ← pop; stitch wbAcc cycle;; mret (u64 (cycle + lat))
  | MissEvict upW up down type =>
      access w addr (u64 (cycle + upW)) PUTX;; wbAcc ← pop;
      c ← access w addr (u64 (cycle + up)) type;
      stitch wbAcc cycle;; mret (u64 (c + down))
  end.
End WM.
