(* ===== verification/BoundWeave.v ===== *)
(** * The contention simulator and the bound-weave loop
      (src/src/contention_sim.h, contention_sim.cpp)

    The weave phase with one domain and one simulation thread: the events that the bound
    phase recorded are run in the order of their cycles up to the end of the phase.  The
    priority queue is an interface, which prio_queue.h implements.  [Sys] puts the cores,
    their recorders, the event heap and the simulator together, and [run] executes any
    sequence of joins, leaves, accesses, basic blocks and ends of phases. *)

From S2P Require Import Prelude Bithacks PrioQueue MemHier TimingEvent CoreRecorder.

(** ** The interface of the priority queue *)
Class EventPQ (Q : Type) := {
  pq_empty : Q;
  pq_size : Q -> Z;
  pq_firstCycle : Q -> res Z;
  pq_enqueue : nat -> Z -> M Q unit;
  pq_dequeue : M Q (nat * Z) }.

(** [pq_rep q f m]: [q] holds the map [m], and accepts any cycle from [f] on. *)
Class PQLaws (Q : Type) `{EventPQ Q} := {
  pq_rep : Q -> Z -> gmap nat Z -> Prop;
  pq_rep_empty : pq_rep pq_empty 0 ∅;
  pq_rep_mono q f f' m : pq_rep q f m -> f <= f' -> pq_rep q f' m;
  pq_rep_size q f m : pq_rep q f m -> pq_size q = Z.of_nat (base.size m);
  pq_rep_first q f m o c : pq_rep q f m -> m !! o = Some c ->
    exists c1, pq_firstCycle q = Ok c1 /\ (exists o1, m !! o1 = Some c1) /\ forall o' c', m !! o' = Some c' -> c1 <= c';
  pq_rep_enqueue q f m o c : pq_rep q f m -> m !! o = None -> 0 <= f <= c -> c < 2 ^ 63 ->
    Z.of_nat (base.size m) < two32 -> wp (pq_enqueue o c) (fun _ q' => pq_rep q' f (<[o := c]> m)) q;
  pq_rep_dequeue q f m o0 c0 : pq_rep q f m -> m !! o0 = Some c0 ->
    wp pq_dequeue (fun '(o, c) q' => m !! o = Some c /\ (forall o' c', m !! o' = Some c' -> c <= c') /\
                                     pq_rep q' c (delete o m)) q }.

(** ** The simulator *)
Module CS.
Section Sim.
Context {Q : Type} `{EventPQ Q}.

Record t := mk { limit : Z; lastLimit : Z; inCSim : bool; curCycle : Z; pq : Q }.
Definition with_limit (z : Z) (s : t) : t := mk z (lastLimit s) (inCSim s) (curCycle s) (pq s).
Definition with_lastLimit (z : Z) (s : t) : t := mk (limit s) z (inCSim s) (curCycle s) (pq s).
Definition with_inCSim (b : bool) (s : t) : t := mk (limit s) (lastLimit s) b (curCycle s) (pq s).
Definition with_cycle (z : Z) (s : t) : t := mk (limit s) (lastLimit s) (inCSim s) z (pq s).
Definition with_pq (q : Q) (s : t) : t := mk (limit s) (lastLimit s) (inCSim s) (curCycle s) q.

Definition init : t := mk 0 0 false 0 pq_empty.
Definition numDomains : Z := 1.

Definition CM := M (t * EvHeap).
Definition onSim (f : t -> t) : CM unit := mmodify (fun s => (f s.1, s.2)).
Definition onPq {A} (m : M Q A) : CM A := fun s =>
  match m (pq s.1) with Ok (a, q) => Ok (a, (with_pq q s.1, s.2)) | Err f => Err f end.
Definition onHeap {A} (m : EvM A) : CM A := fun s =>
  match m s.2 with Ok (a, h) => Ok (a, (s.1, h)) | Err f => Err f end.

(** The assertion against events that are scheduled too far ahead. *)
Definition far_msg : string := "Queued event too far into the future".

Definition enqueue (phaseLength : Z) (ev : nat) (cycle : Z) : CM unit :=
  '(s, _) ← mget;
  massert (inCSim s) "inCSim";;
  massert (lastLimit s <=? cycle) "Enqueued event before last limit!";;
  massert (cycle <? u64 (lastLimit s + u32 (10 * phaseLength) + 1000000)) far_msg;;
  e ← onHeap (get_ev ev);
  massert (curCycle s <=? cycle) "Queued event goes back in time";;
  massert (ev_numParents e =? 0) "ev->numParents == 0";;
  massert (negb (ev_domain e =? -1)) "ev->domain != -1";;
  massert (ev_domain e <? numDomains) "ev->domain < numDomains";;
  onPq (pq_enqueue ev cycle).

Definition enqueueSynced (phaseLength : Z) (ev : nat) (cycle : Z) : CM unit :=
  '(s, _) ← mget;
  massert (negb (inCSim s)) "!inCSim";;
  e ← onHeap (get_ev ev);
  massert (negb (ev_domain e =? -1)) "ev && ev->domain != -1";;
  massert (ev_domain e <? numDomains) "ev->domain < numDomains";;
  massert (lastLimit s <=? cycle) "Enqueued (synced) event before last limit!";;
  massert (cycle <? u64 (lastLimit s + u32 (10 * phaseLength) + 10000)) far_msg;;
  massert (ev_numParents e =? 0) "ev->numParents == 0";;
  onPq (pq_enqueue ev cycle).

(** The calls of enqueue (or enqueueSynced) that the events made, in their order. *)
Fixpoint deliver (f : nat -> Z -> CM unit) (l : list (nat * Z)) : CM unit :=
  match l with [] => mret tt | (ev, c) :: l => f ev c;; deliver f l end.
Definition flush (phaseLength : Z) : CM unit :=
  '(s, h) ← mget;
  onHeap (mmodify (fun h => mkHeap (hp_events h) (hp_next h) []));;
  deliver (if inCSim s then enqueue phaseLength else enqueueSynced phaseLength) (hp_queue h).
End Sim.
Arguments t : clear implicits.
End CS.

(** ** The whole system *)
Module BW.
Section Sys.
Context {Q : Type} `{EventPQ Q} `{Port} (lineBits : Z).

Record Sys := mk { cores : list TC.t; sim : CS.t Q; heap : EvHeap; zinfo : Zinfo }.
Abbreviation SM := (M Sys).

Definition with_cores (l : list TC.t) (s : Sys) : Sys := mk l (sim s) (heap s) (zinfo s).
Definition onSim {A} (m : CS.CM A) : SM A := fun s =>
  match m (sim s, heap s) with Ok (a, (c, h)) => Ok (a, mk (cores s) c h (zinfo s)) | Err f => Err f end.
(** Core [i] executes [m]. *)
Definition onCore {A} (i : nat) (m : TC.TM A) : SM A := fun s =>
  match cores s !! i with
  | None => Err (Panic "no such core")
  | Some c => match m (c, heap s) with
              | Ok (a, (c', h)) => Ok (a, mk (<[i := c']> (cores s)) (sim s) h (zinfo s))
              | Err f => Err f
              end
  end.

(** [te->run(cycle)]: run_ev is its first half, then [simulate] of the event's class. *)
Definition run_event (te : nat) (cycle : Z) : SM unit :=
  e ← onSim (CS.onHeap (run_ev te cycle));
  s ← mget;
  let done c := onSim (CS.onHeap (ev_done (CR.ev_fuel (heap s)) te c)) in
  match ev_class e with
  | ClsCore i orig =>
      c ← mlift (from_opt (cores s !! i) "cRec");
      r ← mlift (CR.reportEventSimulated te cycle orig (TC.cRec c));
      mmodify (fun s => with_cores (<[i := TC.with_rec r c]> (cores s)) s);;
      done cycle
  | ClsMem lat => done (u64 (cycle + lat))
  | ClsDelay => mfail "DelayEvent::simulate() was called"
  | ClsTiming => mfail "simulate() of an unknown event"
  end.

Definition mout : SM unit := fun _ => Err OutOfFuel.

(** The body of the loop of simulatePhaseThread: run the first event. *)
Definition weave_step : SM unit :=
  s ← mget;
  '(te, cycle) ← onSim (CS.onPq pq_dequeue);
  massert (CS.curCycle (sim s) <=? cycle) "cycle >= domCycle";;
  onSim (CS.onSim (CS.with_cycle cycle));;
  run_event te cycle;;
  onSim (CS.flush (phaseLength (zinfo s)));;
  s' ← mget;
  let q := CS.pq (sim s') in
  newCycle ← mlift (if pq_size q =? 0 then Ok (CS.limit (sim s')) else pq_firstCycle q);
  massert (cycle <=? newCycle) "newCycle >= domCycle";;
  onSim (CS.onSim (CS.with_cycle newCycle)).

(** [while (pq.size() && pq.firstCycle() < limit)], for a thread with one domain. *)
Fixpoint weave (fuel : nat) : SM unit :=
  s ← mget;
  let q := CS.pq (sim s) in
  more ← mlift (if pq_size q =? 0 then Ok false
                else c ← pq_firstCycle q; Ok (c <? CS.limit (sim s)));
  if negb more then mret tt
  else match fuel with
       | O => mout
       | S fuel' => weave_step;; weave fuel'
       end.
Definition simulatePhaseThread : SM unit :=
  s ← mget;
  weave (S (base.size (hp_events (heap s))));;
  s ← mget;
  onSim (CS.onSim (CS.with_cycle (CS.limit (sim s)))).

(** [for (i < numCores) cores[i]->m()]. *)
Fixpoint each_core (n i : nat) (m : nat -> TC.TM unit) : SM unit :=
  match n with O => mret tt | S n => onCore i (m i);; each_core n (S i) m end.

Definition simulatePhase (limit : Z) : SM unit :=
  onSim (CS.onSim (CS.with_limit limit));;
  s ← mget;
  massert (CS.lastLimit (sim s) <=? limit) "limit >= lastLimit";;
  each_core (length (cores s)) 0 (fun i => TC.cSimStart i (zinfo s));;
  onSim (CS.onSim (CS.with_inCSim true));;
  simulatePhaseThread;;
  onSim (CS.onSim (CS.with_inCSim false));;
  each_core (length (cores s)) 0 (fun _ => TC.cSimEnd);;
  onSim (CS.onSim (CS.with_lastLimit limit)).

(** The end of a phase (EndOfPhaseActions): contention simulation, then the next phase. *)
Definition end_phase : SM unit :=
  s ← mget;
  simulatePhase (u64 (globPhaseCycles (zinfo s) + phaseLength (zinfo s)));;
  mmodify (fun s => mk (cores s) (sim s) (heap s)
    (mkZinfo (u64 (globPhaseCycles (zinfo s) + phaseLength (zinfo s))) (phaseLength (zinfo s)))).

Inductive op :=
| Join (i : nat)
| Leave (i : nat)
| Access (i : nat) (k : AccessKind) (addr : Z)
| Bbl (i : nat) (bblAddr instrs bytes : Z)
| EndPhase.

(** An operation of core [i], with the enqueues it makes. *)
Definition core_op (i : nat) (m : Zinfo -> TC.TM unit) : SM unit :=
  s ← mget; onCore i (m (zinfo s));; onSim (CS.flush (phaseLength (zinfo s))).
Definition do_op (o : op) : SM unit :=
  match o with
  | Join i => core_op i (TC.join i)
  | Leave i => core_op i (fun _ => TC.leave i)
  | Access i k a => core_op i (fun _ => TC.accessAndRecord i k a)
  | Bbl i a n b => core_op i (fun _ => TC.bblAndRecord i lineBits a n b)
  | EndPhase => end_phase
  end.
Fixpoint run (l : list op) : SM unit :=
  match l with [] => mret tt | o :: l => do_op o;; run l end.

Definition init (ers : list EventRecorder) (junk len : Z) : Sys :=
  mk ((fun er => TC.init er 0 junk) <$> ers) CS.init empty_heap (mkZinfo 0 len).
End Sys.
Arguments Sys : clear implicits.
End BW.

(** ** prio_queue.h implements the interface *)
Definition PQ_BLOCKS : nat := Z.to_nat 1024.

#[global] Instance prio_EventPQ : EventPQ PQ.t := {|
  pq_empty := PQ.init PQ_BLOCKS (fun _ => None);
  pq_size := PQ.size;
  pq_firstCycle := PQ.firstCycle PQ_BLOCKS;
  pq_enqueue := PQ.enqueue PQ_BLOCKS;
  pq_dequeue := fun q =>
    match PQ.firstCycle PQ_BLOCKS q with
    | Ok c => PQ.dequeue PQ_BLOCKS (S (Z.to_nat (c / 64 - PQ.curBlock q))) q
    | Err f => Err f
    end |}.
