(* ===== verification/BoundWeaveInv.v ===== *)
(** * The chains of the in-order recorders: invariant and its preservation

    Every event has a label, the cycle of its core's contention-free clock (the phase-1
    clock less the gap) at which it may start.  [Timed] says that a tree's delays respect
    the labels, so that the slack of an event, by how much later than its label it starts,
    never decreases from a parent to a child.  [Spine] says that the events of one recorder
    lie on one path, which ends in the recorder's last event. *)

From S2P Require Import Prelude Bithacks MemHier TimingEvent EventTree CoreRecorder.

(** ** Labels *)
Definition core_of (n : node) : option nat := match n_class n with ClsCore i _ => Some i | _ => None end.
Definition nocore (i : nat) (t : tree) : Prop := Forall (fun x => core_of x.1.2 <> Some i) (nodes t).

Record TimedN (g : Z) (n : node) : Prop := {
  tn_min : n_class n <> ClsDelay -> n_min n <= n_lab n + n_pre n + g;
  tn_core : forall i o, n_class n = ClsCore i o -> o = n_lab n /\ n_pre n = 0 /\ 0 <= o;
  tn_cls : n_class n <> ClsTiming }.

Inductive Timed (g : Z) : tree -> Prop :=
| timed p n ks : TimedN g n -> Forall (fun k => n_lab (nd k) <= n_lab n + dur n) ks -> Forall (Timed g) ks ->
    Timed g (Tr p n ks).

Inductive Spine (i x : nat) (nx : node) : tree -> Prop :=
| spine_end ks : n_class nx <> ClsDelay -> Forall (nocore i) ks -> Spine i x nx (Tr x nx ks)
| spine_step p n ks1 k ks2 : Spine i x nx k -> Forall (nocore i) (ks1 ++ ks2) -> Spine i x nx (Tr p n (ks1 ++ k :: ks2)).

Lemma Timed_mono g g' t : g <= g' -> Timed g t -> Timed g' t.
Proof.
  intros Hg. induction t as [p n ks IH] using tree_ind'. inversion_clear 1 as [? ? ? [H1 H2 H5] H3 H4]. constructor.
  - split; [|done|done]. intros Hc. specialize (H1 Hc). lia.
  - done.
  - elems. auto.
Qed.

Lemma nocore_Tr i p n ks : nocore i (Tr p n ks) <-> core_of n <> Some i /\ Forall (nocore i) ks.
Proof.
  unfold nocore. cbn. rewrite list.Forall_cons. cbn. split; intros [H1 H2]; (split; [done|]).
  - elems. intros k Hk. elems. intros x Hx. apply H2, elem_flat_map. by exists k.
  - elems. intros x (k&Hk&Hx)%elem_flat_map. specialize (H2 k Hk). elems. by apply H2.
Qed.

(** Linking. *)
Lemma nocore_graft i p tc t : nocore i tc -> nocore i t -> nocore i (graft p tc t).
Proof.
  intros Hc. induction t as [q n ks IH] using tree_ind'. intros [H1 H2]%nocore_Tr. cbn. apply nocore_Tr. split; [done|].
  apply Forall_app. split; [|case_decide; auto]. elems. intros k' (k&<-&Hk)%list_elem_of_In%in_map_iff. apply list_elem_of_In in Hk. auto.
Qed.
Lemma nocore_setdom i d t : nocore i (setdom d t) <-> nocore i t.
Proof.
  induction t as [q n ks IH] using tree_ind'. cbn. case_decide; [|done]. rewrite !nocore_Tr. unfold core_of. cbn.
  f_equiv. rewrite !list.Forall_forall. elems. split; intros HF.
  - intros k Hk. apply IH; [done|]. apply HF. by apply list_elem_of_In, in_map, list_elem_of_In.
  - intros k' (k&<-&Hk)%list_elem_of_In%in_map_iff. apply list_elem_of_In in Hk. apply IH; auto.
Qed.
Lemma nocore_joined i d t : nocore i (joined d t) <-> nocore i t.
Proof. unfold joined. case_match; [apply nocore_setdom|done]. Qed.

Lemma dur_set_dom d n : dur (set_dom d n) = dur n.
Proof. done. Qed.
Lemma Timed_setdom g d t : Timed g t -> Timed g (setdom d t).
Proof.
  induction t as [q n ks IH] using tree_ind'. inversion_clear 1 as [? ? ? [H1 H2 H5] H3 H4]. cbn. case_decide; [|by constructor].
  constructor; [by split| |].
  - elems. intros k' (k&<-&Hk)%list_elem_of_In%in_map_iff. apply list_elem_of_In in Hk. specialize (H3 k Hk).
    destruct k as [a b c]. cbn in *. by case_decide.
  - elems. intros k' (k&<-&Hk)%list_elem_of_In%in_map_iff. apply list_elem_of_In in Hk. auto.
Qed.
Lemma Timed_joined g d t : Timed g t -> Timed g (joined d t).
Proof. unfold joined. case_match; [apply Timed_setdom|done]. Qed.
Lemma lab_joined d t : n_lab (nd (joined d t)) = n_lab (nd t).
Proof. unfold joined. case_match; [|done]. destruct t. cbn. by case_decide. Qed.

Lemma nd_graft p tc t : nd (graft p tc t) = nd t.
Proof. by destruct t. Qed.

Lemma Timed_graft g p tc t : Timed g tc -> Timed g t ->
  (forall n ks, (p, n, ks) ∈ nodes t -> n_lab (nd tc) <= n_lab n + dur n) -> Timed g (graft p tc t).
Proof.
  intros Hc. induction t as [q n ks IH] using tree_ind'. inversion_clear 1 as [? ? ? H1 H3 H4]. intros Hl. cbn. constructor; [done| |].
  - apply Forall_app. split.
    + elems. intros k' (k&<-&Hk)%list_elem_of_In%in_map_iff. apply list_elem_of_In in Hk. rewrite nd_graft. auto.
    + case_decide; [|done]. subst q. constructor; [|done]. apply (Hl n (root <$> ks)). cbn. apply list_elem_of_here.
  - apply Forall_app. split; [|case_decide; auto].
    elems. intros k' (k&<-&Hk)%list_elem_of_In%in_map_iff. apply list_elem_of_In in Hk. apply IH; [done|auto|].
    intros n' ks' Hn'. apply (Hl n' ks'). cbn. apply elem_of_cons. right. apply elem_flat_map. by exists k.
Qed.

Lemma map_graft_split p tc ks1 k ks2 : map (graft p tc) (ks1 ++ k :: ks2) = map (graft p tc) ks1 ++ graft p tc k :: map (graft p tc) ks2.
Proof. by rewrite map_app. Qed.
Lemma nocore_map_graft i p tc ks : nocore i tc -> Forall (nocore i) ks -> Forall (nocore i) (map (graft p tc) ks).
Proof.
  intros Hc HF. elems. intros k' (k&<-&Hk)%list_elem_of_In%in_map_iff. apply list_elem_of_In in Hk. apply nocore_graft; auto.
Qed.

(** A tree without events of [i] can be linked anywhere. *)
Lemma Spine_graft_other i x nx p tc t : nocore i tc -> Spine i x nx t -> Spine i x nx (graft p tc t).
Proof.
  intros Hc. induction 1 as [ks Hd HF|q n ks1 k ks2 _ IH HF]; cbn.
  - constructor; [done|]. apply Forall_app. split; [by apply nocore_map_graft|]. case_decide; auto.
  - rewrite map_graft_split, <- app_assoc. cbn. constructor; [done|]. apply Forall_app in HF as [H1 H2].
    apply Forall_app. split; [by apply nocore_map_graft|]. apply Forall_app. split; [by apply nocore_map_graft|]. case_decide; auto.
Qed.

Lemma Spine_in i x nx t : Spine i x nx t -> exists ks, (x, nx, ks) ∈ nodes t.
Proof.
  induction 1 as [ks _ _|q n ks1 k ks2 _ [ks IH] _]; [exists (root <$> ks); cbn; apply list_elem_of_here|].
  exists ks. cbn. apply elem_of_cons. right. rewrite flat_map_app'. cbn. rewrite !elem_of_app. auto.
Qed.
Lemma Spine_ids i x nx t : Spine i x nx t -> x ∈ ids t.
Proof. intros [ks Hk]%Spine_in. apply elem_ids. by exists nx, ks. Qed.

(** A tree with events of [i] is linked at the end of the spine. *)
Lemma Spine_graft_end i x nx y ny tc t : Spine i y ny tc -> Spine i x nx t -> NoDup (ids t) -> Spine i y ny (graft x tc t).
Proof.
  intros Hc. induction 1 as [ks Hd HF|q n ks1 k ks2 Hk IH HF]; rewrite ids_cons; intros [Hq HN]%list.NoDup_cons; cbn.
  - rewrite decide_True by done. rewrite graft_out_list by done. apply (spine_step i y ny x nx ks tc []); [done|]. by rewrite app_nil_r.
  - rewrite flat_map_app' in HN, Hq. cbn in HN, Hq. apply list.NoDup_app in HN as (HN1&Hd1&HN2). apply list.NoDup_app in HN2 as (HNk&Hd2&HN2).
    assert (Hx := Spine_ids _ _ _ _ Hk).
    rewrite decide_False by (intros ->; apply Hq; rewrite !elem_of_app; auto). rewrite app_nil_r, map_graft_split.
    rewrite (graft_out_list x tc ks1) by (intros Hx1; apply (Hd1 x Hx1); apply elem_of_app; auto).
    rewrite (graft_out_list x tc ks2) by (by apply Hd2). constructor; auto.
Qed.

(** ** Labels along the frontier *)
Lemma frontier_timed g t : Timed g t -> forall s x, x ∈ frontier t s ->
  Timed g x.1 /\ s - n_lab (nd t) <= x.2 - n_pre (nd x.1) - n_lab (nd x.1).
Proof.
  induction t as [p n ks IH] using tree_ind'. intros HT s x Hx. inversion HT as [? ? ? H1 H3 H4]; subst.
  assert (Hend : x ∈ [(Tr p n ks, s + n_pre n)] -> Timed g x.1 /\ s - n_lab n <= x.2 - n_pre (nd x.1) - n_lab (nd x.1)).
  { intros ->%list_elem_of_singleton. cbn. split; [done|]. lia. }
  cbn [frontier nd] in *. destruct (n_class n); try by apply Hend.
  apply elem_flat_map in Hx as (k&Hk&Hx). elems. destruct (IH k Hk (H4 k Hk) _ _ Hx) as [HT' Hs]. split; [done|].
  specialize (H3 k Hk). lia.
Qed.

Lemma frontier_nocore i t : nocore i t -> forall s, Forall (fun x => nocore i x.1) (frontier t s).
Proof.
  induction t as [p n ks IH] using tree_ind'. intros HT s. pose proof HT as [H1 H2]%nocore_Tr. cbn.
  assert (Hend : Forall (fun x => nocore i x.1) [(Tr p n ks, s + n_pre n)]) by (by constructor).
  destruct (n_class n); try done. elems. intros x (k&Hk&Hx)%elem_flat_map. elems. specialize (IH k Hk (H2 k Hk) (s + dur n)). elems. auto.
Qed.
Lemma frontiers_nocore i ks s : Forall (nocore i) ks -> Forall (fun x => nocore i x.1) (flat_map (fun k => frontier k s) ks).
Proof. intros HF. elems. intros x (k&Hk&Hx)%elem_flat_map. pose proof (frontier_nocore i k (HF k Hk) s) as H. elems. auto. Qed.

Lemma frontier_spine i x nx t : Spine i x nx t -> forall s, exists t' c rest,
  frontier t s ≡ₚ (t', c) :: rest /\ Spine i x nx t' /\ Forall (fun x => nocore i x.1) rest.
Proof.
  induction 1 as [ks Hd HF|q n ks1 k ks2 Hk IH HF]; intros s.
  - exists (Tr x nx ks), (s + n_pre nx), []. split; [|split; [by constructor|done]]. cbn. by destruct (n_class nx).
  - destruct (n_class n) eqn:Ec.
    2:{ destruct (IH (s + dur n)) as (t'&c&rest&HP&HS&HR).
        exists t', c, (rest ++ flat_map (fun k => frontier k (s + dur n)) (ks1 ++ ks2)). split; [|split; [done|]].
        - cbn. rewrite Ec, !flat_map_app'. cbn. rewrite HP. cbn. rewrite <- Permutation_middle. constructor. rewrite !app_assoc. f_equiv. apply Permutation_app_comm.
        - apply Forall_app. split; [done|]. by apply frontiers_nocore. }
    all: exists (Tr q n (ks1 ++ k :: ks2)), (s + n_pre n), []; (split; [cbn; by rewrite Ec|split; [by constructor|done]]).
Qed.

(** ** Chains in the forest *)

(** What every queued tree satisfies: its root starts late enough for the minimum start
    cycles of all its events. *)
Definition QOK (x : tree * Z) : Prop :=
  exists g, Timed g x.1 /\ n_lab (nd x.1) + g <= x.2 - n_pre (nd x.1) /\ in_dom 0 x.1 /\ n_class (nd x.1) <> ClsDelay.

(** The chain of recorder [i] ends in the event [x]; its queued root has slack [sl] at
    least and satisfies [F], and no other tree has an event of [i]. *)
Record Chain (i x : nat) (nx : node) (sl : Z) (F : node -> Z -> Prop) (qd : list (tree * Z)) (fl : list tree) (t : tree) (c : Z)
    (rest : list (tree * Z)) : Prop := {
  ch_perm : qd ≡ₚ (t, c) :: rest;
  ch_spine : Spine i x nx t;
  ch_rest : Forall (nocore i) rest.*1;
  ch_fl : Forall (nocore i) fl;
  ch_slack : n_lab (nd t) + sl <= c - n_pre (nd t);
  ch_F : F (nd t) c }.
Definition HasChain (i x : nat) (nx : node) (sl : Z) (F : node -> Z -> Prop) (qd : list (tree * Z)) (fl : list tree) : Prop :=
  exists t c rest, Chain i x nx sl F qd fl t c rest.
Definition Free (i : nat) (qd : list (tree * Z)) (fl : list tree) : Prop :=
  Forall (nocore i) qd.*1 /\ Forall (nocore i) fl.

Definition gq (p : nat) (tc : tree) (qd : list (tree * Z)) : list (tree * Z) := (fun x => (graft p tc x.1, x.2)) <$> qd.

(** The other recorders' chains, and the queue, are as before. *)
Record Keeps (i : nat) (qd : list (tree * Z)) (fl : list tree) (qd' : list (tree * Z)) (fl' : list tree) : Prop := {
  k_entries : entries qd' ≡ₚ entries qd;
  k_chain : forall j x nx sl F, j <> i -> HasChain j x nx sl F qd fl -> HasChain j x nx sl F qd' fl';
  k_free : forall j, j <> i -> Free j qd fl -> Free j qd' fl' }.

Lemma Keeps_refl i qd fl : Keeps i qd fl qd fl.
Proof. by split. Qed.
Lemma Keeps_trans i qd fl qd1 fl1 qd2 fl2 : Keeps i qd fl qd1 fl1 -> Keeps i qd1 fl1 qd2 fl2 -> Keeps i qd fl qd2 fl2.
Proof. intros [A1 A2 A3] [B1 B2 B3]. split; [by rewrite B1|eauto|eauto]. Qed.

(** A new tree without events of the others, and its removal from the floating trees. *)
Lemma Keeps_fl i qd fl fl' : (forall j, j <> i -> Forall (nocore j) fl -> Forall (nocore j) fl') -> Keeps i qd fl qd fl'.
Proof.
  intros H. split; [done| |].
  - intros j x nx sl F Hj (t&c&rest&[C1 C2 C3 C4 C5 C6]). exists t, c, rest. split; auto.
  - intros j Hj [H1 H2]. split; auto.
Qed.

Lemma entries_gq p tc qd : entries (gq p tc qd) = entries qd.
Proof. unfold entries, gq. rewrite <- list_fmap_compose. apply list_fmap_ext. intros i [t c] _. cbn. by rewrite root_graft. Qed.

Lemma gq_fst p tc qd : (gq p tc qd).*1 = map (graft p tc) qd.*1.
Proof. unfold gq. change (map (graft p tc) qd.*1) with (graft p tc <$> qd.*1). by rewrite <- !list_fmap_compose. Qed.

Lemma chain_graft_other i x nx sl F qd fl p tc : nocore i tc -> HasChain i x nx sl F qd (tc :: fl) ->
  HasChain i x nx sl F (gq p tc qd) (map (graft p tc) fl).
Proof.
  intros Hn (t&c&rest&[C1 C2 C3 C4 C5 C6]). exists (graft p tc t), c, (gq p tc rest). split.
  - unfold gq. by rewrite C1.
  - by apply Spine_graft_other.
  - rewrite gq_fst. by apply nocore_map_graft.
  - apply nocore_map_graft; [done|]. by apply list.Forall_cons in C4 as [_ ?].
  - by rewrite nd_graft.
  - by rewrite nd_graft.
Qed.
Lemma free_graft i qd fl p tc : Free i qd (tc :: fl) -> Free i (gq p tc qd) (map (graft p tc) fl).
Proof.
  intros [H1 [Hc H2]%list.Forall_cons]. split; [rewrite gq_fst|]; by apply nocore_map_graft.
Qed.

Lemma Keeps_graft i qd fl p tc : Keeps i qd (tc :: fl) (gq p (joined 0 tc) qd) (map (graft p (joined 0 tc)) fl).
Proof.
  assert (Hj : forall j l, Forall (nocore j) (tc :: l) -> Forall (nocore j) (joined 0 tc :: l)).
  { intros j l [H1 H2]%list.Forall_cons. constructor; [by apply nocore_joined|done]. }
  split; [by rewrite entries_gq| |].
  - intros j x nx sl F _ (t&c&rest&[C1 C2 C3 C4 C5 C6]). apply chain_graft_other; [apply Hj in C4; by apply list.Forall_cons in C4 as [? _]|].
    exists t, c, rest. split; auto.
  - intros j _ [H1 H2]. apply free_graft. split; auto.
Qed.

Lemma chain_graft_end i x nx sl F qd fl tc y ny : NoDup (flat_map ids (qd.*1 ++ fl)) -> HasChain i x nx sl F qd fl ->
  Spine i y ny tc -> HasChain i y ny sl F (gq x tc qd) (map (graft x tc) fl).
Proof.
  intros HN (t&c&rest&[C1 C2 C3 C4 C5 C6]) HS. rewrite C1 in HN. cbn in HN. apply list.NoDup_app in HN as (HNt&Hd&_).
  specialize (Hd x (Spine_ids _ _ _ _ C2)). rewrite flat_map_app' in Hd. apply not_elem_of_app in Hd as [Hr Hf].
  exists (graft x tc t), c, rest. split.
  - unfold gq. rewrite C1. cbn. constructor. enough (E : (fun x0 : tree * Z => (graft x tc x0.1, x0.2)) <$> rest = rest) by by rewrite E.
    clear -Hr. induction rest as [|[r cr] rest IH]; [done|]. cbn in *. apply not_elem_of_app in Hr as [H1 H2]. rewrite IH by done. by rewrite graft_out.
  - by eapply Spine_graft_end.
  - done.
  - by rewrite graft_out_list.
  - by rewrite nd_graft.
  - by rewrite nd_graft.
Qed.

Lemma in_dom_graft d p tc t : in_dom d tc -> in_dom d t -> in_dom d (graft p tc t).
Proof.
  intros Hc. unfold in_dom. induction t as [q n ks IH] using tree_ind'. cbn. intros [H1 H2]%list.Forall_cons. constructor; [done|].
  rewrite flat_map_app'. apply Forall_app. split; [|case_decide; [|done]; cbn; by rewrite app_nil_r].
  elems. intros x (k'&Hk'&Hx)%elem_flat_map. apply list_elem_of_In, in_map_iff in Hk' as (k&<-&Hk). apply list_elem_of_In in Hk.
  assert (HF : Forall (fun x => n_dom x.1.2 = d) (nodes (graft p tc k))).
  { apply IH; [done|]. elems. intros y Hy. apply H2, elem_flat_map. by exists k. }
  elems. by apply HF.
Qed.

Lemma qok_graft sl qd fl t c rest p tc g : NoDup (flat_map ids (qd.*1 ++ fl)) -> Forall QOK qd ->
  qd ≡ₚ (t, c) :: rest -> n_lab (nd t) + sl <= c - n_pre (nd t) -> p ∈ ids t -> Timed g tc -> g <= sl -> in_dom 0 tc ->
  (forall n ks, (p, n, ks) ∈ nodes t -> n_lab (nd tc) <= n_lab n + dur n) -> Forall QOK (gq p tc qd).
Proof.
  intros HN HQ C1 C5 Hp HT Hg HD Hl. rewrite C1 in HN. cbn in HN. apply list.NoDup_app in HN as (HNt&Hd&_).
  specialize (Hd p Hp). rewrite flat_map_app' in Hd. apply not_elem_of_app in Hd as [Hr _].
  unfold gq. rewrite C1. rewrite C1 in HQ. apply list.Forall_cons in HQ as [(g0&HT0&Hs0&HD0) HQ]. cbn in *. constructor.
  - exists (Z.max g0 g). cbn. rewrite nd_graft. split; [|split; [lia|split; [by apply in_dom_graft; [|apply HD0]|apply HD0]]].
    apply Timed_graft; [eapply Timed_mono; [|done]; lia|eapply Timed_mono; [|done]; lia|done].
  - clear -HQ Hr. induction rest as [|[r cr] rest IH]; [done|]. cbn in *. apply not_elem_of_app in Hr as [H1 H2].
    apply list.Forall_cons in HQ as [HQ1 HQ]. constructor; [|auto]. by rewrite graft_out.
Qed.

Lemma Spine_setdom i x nx d t : Spine i x nx t -> exists nx', Spine i x nx' (setdom d t) /\
  n_lab nx' = n_lab nx /\ n_class nx' = n_class nx /\ dur nx' = dur nx.
Proof.
  induction 1 as [ks Hd HF|q n ks1 k ks2 Hk (nx'&IH&E1&E2&E3) HF]; cbn.
  - case_decide; [|by exists nx; split; [constructor|]]. exists (set_dom d nx). split; [|done]. constructor; [done|].
    elems. intros k' (k&<-&Hk)%list_elem_of_In%in_map_iff. apply list_elem_of_In in Hk. apply nocore_setdom. auto.
  - case_decide; [|by exists nx; split; [constructor|]]. exists nx'. split; [|done]. rewrite map_app. cbn. constructor; [done|].
    rewrite <- map_app. elems. intros k' (k0&<-&Hk0)%list_elem_of_In%in_map_iff. apply list_elem_of_In in Hk0. apply nocore_setdom. auto.
Qed.
Lemma Spine_joined i x nx d t : Spine i x nx t -> exists nx', Spine i x nx' (joined d t) /\
  n_lab nx' = n_lab nx /\ n_class nx' = n_class nx /\ dur nx' = dur nx.
Proof. unfold joined. case_match; [apply Spine_setdom|]. intros HS. by exists nx. Qed.

(** Two nodes with one id are one node. *)
Lemma node_uniq t p n ks n' ks' : NoDup (ids t) -> (p, n, ks) ∈ nodes t -> (p, n', ks') ∈ nodes t -> n = n' /\ ks = ks'.
Proof.
  unfold ids. induction (nodes t) as [|[[q m] kq] l IH]; intros HN H1 H2; [by apply not_elem_of_nil in H1|].
  cbn in HN. apply list.NoDup_cons in HN as [Hq HN].
  assert (Hno : forall a b, (q, a, b) ∈ l -> False) by (intros a b Hx; apply Hq, list_elem_of_fmap; by exists (q, a, b)).
  rewrite elem_of_cons in H1, H2. destruct H1 as [E1|H1], H2 as [E2|H2]; simplify_eq; [done|by destruct (Hno _ _ H2)|by destruct (Hno _ _ H1)|by apply IH].
Qed.

(** ** The recorder's operations on the heap *)
Lemma wp_onHeap {A} (m : EvM A) Q (r : CR.t) h a h' : m h = Ok (a, h') -> Q a (r, h') -> wp (CR.onHeap m) Q (r, h).
Proof. intros E HQ. unfold wp, CR.onHeap. cbn. by rewrite E. Qed.

Lemma wp_link Q (r : CR.t) h qd fl tc p n ks :
  Forest h qd (tc :: fl) -> (p, n, ks) ∈ flat_map nodes (qd.*1 ++ fl) -> n_dom n = 0 -> Z.of_nat (base.size (hp_events h)) < two32 ->
  (forall h', hp_queue h' = hp_queue h -> hp_next h' = hp_next h -> (base.size (hp_events h') <= base.size (hp_events h))%nat ->
     Forest h' (gq p (joined 0 tc) qd) (map (graft p (joined 0 tc)) fl) -> Q (root tc) (r, h')) ->
  wp (CR.link p (root tc)) Q (r, h).
Proof.
  intros HF Hp Hd Hsz HQ. unfold CR.link. wp_steps. cbn.
  destruct (forest_addChild (CR.ev_fuel h) h qd fl tc p n ks HF Hp Hsz) as (h'&E&E1&E2&E3&HF').
  { pose proof (forest_nodes_le h qd (tc :: fl) tc HF) as Hle. unfold CR.ev_fuel. rewrite elem_of_app in Hle.
    specialize (Hle (or_intror (list_elem_of_here _ _))). lia. }
  rewrite Hd in HF'. eapply wp_onHeap; [exact E|]. by apply HQ.
Qed.

(** What holds of a recorder that is not halted, and of the heap, in the bound phase. *)
Record BI (i : nat) (r : CR.t) (h : EvHeap) (qd : list (tree * Z)) (x : nat) (nx : node) (F : node -> Z -> Prop) : Prop := {
  bi_forest : Forest h qd [];
  bi_qok : Forall QOK qd;
  bi_queue : hp_queue h = [];
  bi_chain : HasChain i x nx (CR.gapCycles r) F qd [];
  bi_prev : CR.prevRespEvent r = Some x;
  bi_gap : 0 <= CR.gapCycles r <= CR.prevRespCycle r;
  bi_room : CR.prevRespCycle r < 2 ^ 62;
  bi_end : CR.prevRespCycle r - CR.gapCycles r <= n_lab nx + dur nx }.

Lemma chain_node h i x nx sl F qd fl : HasChain i x nx sl F qd fl -> Forest h qd fl -> Forall QOK qd ->
  exists ks, (x, nx, ks) ∈ flat_map nodes (qd.*1 ++ fl) /\ n_dom nx = 0.
Proof.
  intros (t&c&rest&[C1 C2 _ _ _ _]) _ HQ. destruct (Spine_in _ _ _ _ C2) as [ks Hx]. exists ks.
  assert (Ht : (t, c) ∈ qd) by (rewrite C1; apply list_elem_of_here). split.
  - apply elem_flat_map. exists t. split; [|done]. apply elem_of_app. left. apply list_elem_of_fmap. by exists (t, c).
  - elems. destruct (HQ _ Ht) as (g&_&_&HD&_). unfold in_dom in HD. elems. apply (HD _ Hx).
Qed.

Lemma append_ev_spec i r h qd x nx F delay Q : BI i r h qd x nx F -> 0 <= delay < two32 ->
  Z.of_nat (base.size (hp_events h)) + 1 < two32 ->
  (forall h' y ny qd', let r' := CR.with_prev (CR.prevRespCycle r) (Some y) r in
     BI i r' h' qd' y ny F -> core_of ny = Some i -> n_lab ny = CR.prevRespCycle r - CR.gapCycles r -> dur ny = delay ->
     Keeps i qd [] qd' [] -> (base.size (hp_events h') <= base.size (hp_events h) + 1)%nat -> Q tt (r', h')) ->
  wp (CR.append_ev i delay) Q (r, h).
Proof.
  intros [HF HQ Hq HC Hp Hg Hr He] Hd Hsz HK. unfold CR.append_ev. wp_steps. cbn [fst snd].
  set (lab := CR.prevRespCycle r - CR.gapCycles r).
  assert (Elab : u64 lab = lab) by (apply u64_small; unfold lab, two64; lia).
  destruct (forest_new h qd [] (ClsCore i lab) 0 (u32 delay) (-1) lab HF) as (h1&E1&Q1&N1&S1&HF1); try done; [apply u32_range|].
  rewrite Elab. eapply wp_onHeap; [exact E1|]. rewrite u32_small in * by lia.
  destruct (forest_setMin h1 qd [] _ _ _ (CR.prevRespCycle r) HF1) as (h2&E2&Q2&N2&S2&HF2). wp_steps. eapply wp_onHeap; [exact E2|].
  wp_steps. apply wp_lift. rewrite Hp. cbn [from_opt rwp].
  destruct (chain_node h i x nx _ F qd [] HC HF HQ) as (ks&Hx&Hdx). apply wp_bind.
  set (nd0 := set_min _ _) in HF2. set (tc := Tr (hp_next h) nd0 []) in HF2. change (hp_next h) with (root tc) at 1.
  eapply wp_link; [exact HF2|done|done|lia|]. intros h' Q3 N3 S3 HF3. wp_steps. unfold CR.onRec. wp_steps. cbn [fst snd].
  assert (HN : NoDup (flat_map ids (qd.*1 ++ []))) by (apply (fo_nd _ _ _ HF)).
  assert (Hjt : joined 0 tc = Tr (hp_next h) (set_dom 0 nd0) []) by done.
  assert (HS : Spine i (hp_next h) (set_dom 0 nd0) (joined 0 tc)) by (rewrite Hjt; constructor; done).
  assert (HT : Timed (CR.gapCycles r) (joined 0 tc)).
  { rewrite Hjt. constructor; [|done|done]. split; cbn; [unfold lab; lia| |done]. intros ? ? [= <- <-]. unfold lab. lia. }
  assert (Hdur : dur (set_dom 0 nd0) = delay) by (unfold dur; cbn; lia).
  apply (HK h' (hp_next h) (set_dom 0 nd0) (gq x (joined 0 tc) qd)); try done.
  - split; cbn [CR.with_prev CR.gapCycles CR.prevRespCycle CR.prevRespEvent]; try done.
    + destruct HC as (t&c&rest&HC). assert (HCs := ch_spine _ _ _ _ _ _ _ _ _ _ HC).
      eapply (qok_graft (CR.gapCycles r)); try done; try lia; try apply HC.
      * by eapply Spine_ids.
      * rewrite Hjt. by constructor.
      * intros n' ks' Hn'. destruct (Spine_in _ _ _ _ HCs) as [ks2 Hn2].
        assert (HNt : NoDup (ids t)).
        { assert (HN2 := HN). rewrite (ch_perm _ _ _ _ _ _ _ _ _ _ HC) in HN2. cbn in HN2. by apply list.NoDup_app in HN2 as (?&_). }
        destruct (node_uniq _ _ _ _ _ _ HNt Hn' Hn2) as [-> _]. rewrite Hjt. cbn. unfold lab. lia.
    + congruence.
    + apply (chain_graft_end i x nx _ F qd []); [done|exact HC|done].
    + unfold lab, dur. cbn. lia.
  - eapply Keeps_trans; [|apply (Keeps_graft i qd [] x tc)]. apply Keeps_fl. intros j Hj _. constructor; [|done].
    apply nocore_Tr. split; [|done]. unfold core_of. cbn. congruence.
  - lia.
Qed.

(** Only three fields of the recorder matter. *)
Lemma BI_fields i r r' h qd x nx F : BI i r h qd x nx F -> CR.gapCycles r' = CR.gapCycles r ->
  CR.prevRespEvent r' = CR.prevRespEvent r -> CR.prevRespCycle r <= CR.prevRespCycle r' < 2 ^ 62 ->
  CR.prevRespCycle r' - CR.gapCycles r <= n_lab nx + dur nx -> BI i r' h qd x nx F.
Proof. intros [? ? ? ? ? ? ? ?] E1 E2 E3 E4. split; rewrite ?E1, ?E2; try done; lia. Qed.

Lemma notifyLeave_spec i r h qd x nx F cur Q : BI i r h qd x nx F -> CR.state r = CR.RUNNING ->
  CR.prevRespCycle r <= cur < 2 ^ 62 -> cur - CR.prevRespCycle r < two32 -> Z.of_nat (base.size (hp_events h)) + 2 < two32 ->
  (forall h' y ny qd', let r' := CR.with_prev cur (Some y) (CR.with_state CR.DRAINING r) in
     BI i r' h' qd' y ny F -> core_of ny = Some i -> Keeps i qd [] qd' [] ->
     (base.size (hp_events h') <= base.size (hp_events h) + 2)%nat -> Q tt (r', h')) ->
  wp (CR.notifyLeave i cur) Q (r, h).
Proof.
  intros HB Hst Hc Hd Hsz HK. unfold CR.notifyLeave. wp_steps. cbn [fst snd]. apply wp_assert; [by rewrite Hst|].
  wp_steps. unfold CR.onRec at 1. wp_steps. cbn [fst snd].
  assert (HB1 : BI i (CR.with_state CR.DRAINING r) h qd x nx F).
  { pose proof (bi_room _ _ _ _ _ _ _ HB). pose proof (bi_end _ _ _ _ _ _ _ HB). eapply BI_fields; [exact HB|done|done|cbn; lia|cbn; lia]. }
  apply wp_assert; [by rewrite (bi_prev _ _ _ _ _ _ _ HB)|]. pose proof (bi_gap _ _ _ _ _ _ _ HB).
  rewrite u64_small by (unfold two64; lia). wp_steps.
  eapply (append_ev_spec i (CR.with_state CR.DRAINING r)); [exact HB1|lia|lia|].
  intros h1 y1 ny1 qd1 r1 HB2 Hc1 Hl1 Hd1 HK1 Hs1. wp_steps. unfold CR.onRec. wp_steps. cbn [fst snd].
  cbn in Hl1. assert (HB3 : BI i (CR.with_prev cur (Some y1) (CR.with_state CR.DRAINING r)) h1 qd1 y1 ny1 F).
  { eapply BI_fields; [exact HB2|done|done|cbn; lia|cbn; lia]. }
  change (CR.with_prev cur (CR.prevRespEvent r1) r1) with (CR.with_prev cur (Some y1) (CR.with_state CR.DRAINING r)).
  eapply append_ev_spec; [exact HB3|done|lia|].
  intros h2 y2 ny2 qd2 r2 HB4 Hc2 Hl2 Hd2 HK2 Hs2. apply (HK h2 y2 ny2 qd2); try done; [by eapply Keeps_trans|lia].
Qed.

(** The end of a bound phase for a running recorder: the chain ends in an event that
    starts in the next phase. *)
Lemma cSimStart_running i zi r h qd x nx F cur Q : BI i r h qd x nx F -> CR.state r = CR.RUNNING ->
  0 <= globPhaseCycles zi -> 0 <= phaseLength zi -> globPhaseCycles zi + phaseLength zi <= cur < 2 ^ 62 ->
  cur - CR.prevRespCycle r < two32 -> Z.of_nat (base.size (hp_events h)) + 2 < two32 ->
  (forall h' y ny qd', let r' := CR.with_prev (Z.max cur (CR.prevRespCycle r)) (Some y) r in
     BI i r' h' qd' y ny F -> core_of ny = Some i -> n_lab ny = Z.max cur (CR.prevRespCycle r) - CR.gapCycles r -> Keeps i qd [] qd' [] ->
     (base.size (hp_events h') <= base.size (hp_events h) + 2)%nat -> Q cur (r', h')) ->
  wp (CR.cSimStart i zi cur) Q (r, h).
Proof.
  intros HB Hst Hg Hl Hc Hd Hsz HK. unfold CR.cSimStart. wp_steps. cbn [fst snd]. rewrite Hst.
  rewrite (u64_small (globPhaseCycles zi + phaseLength zi)) by (unfold two64; lia). wp_steps. apply wp_assert; [apply Z.leb_le; lia|].
  pose proof (bi_gap _ _ _ _ _ _ _ HB). pose proof (bi_room _ _ _ _ _ _ _ HB).
  assert (Htaper : forall h1 y1 ny1 qd1, BI i (CR.with_prev (Z.max cur (CR.prevRespCycle r)) (Some y1) r) h1 qd1 y1 ny1 F ->
    Keeps i qd [] qd1 [] -> (base.size (hp_events h1) <= base.size (hp_events h) + 1)%nat ->
    wp (CR.append_ev i 0 ;; mret cur) Q (CR.with_prev (Z.max cur (CR.prevRespCycle r)) (Some y1) r, h1)).
  { intros h1 y1 ny1 qd1 HB1 HK1 Hs1. wp_steps. eapply append_ev_spec; [exact HB1|done|lia|].
    intros h2 y2 ny2 qd2 r2 HB2 Hc2 Hl2 Hd2 HK2 Hs2. wp_steps. apply (HK h2 y2 ny2 qd2); try done; [by eapply Keeps_trans|lia]. }
  wp_steps. destruct (Z.ltb_spec (CR.prevRespCycle r) cur) as [Hlt|Hge].
  - rewrite u64_small by (unfold two64; lia). wp_steps.
    eapply append_ev_spec; [exact HB|lia|lia|]. intros h1 y1 ny1 qd1 r1 HB1 Hc1 Hl1 Hd1 HK1 Hs1. wp_steps. unfold CR.onRec. wp_steps. cbn [fst snd].
    change (CR.with_prev cur (CR.prevRespEvent r1) r1) with (CR.with_prev cur (Some y1) r).
    assert (E : Z.max cur (CR.prevRespCycle r) = cur) by lia. rewrite E in Htaper. apply (wp_bind_inv (CR.append_ev i 0) (fun _ => mret cur)). apply (Htaper h1 y1 ny1 qd1); [|done|done].
    cbn in Hl1. eapply BI_fields; [exact HB1|done|done|cbn; lia|cbn; lia].
  - wp_steps. assert (E : Z.max cur (CR.prevRespCycle r) = CR.prevRespCycle r) by lia. rewrite E in Htaper. apply (wp_bind_inv (CR.append_ev i 0) (fun _ => mret cur)).
    assert (Er : CR.with_prev (CR.prevRespCycle r) (Some x) r = r) by (rewrite <- (bi_prev _ _ _ _ _ _ _ HB); by destruct r).
    rewrite <- Er. apply (Htaper h x nx qd); [|apply Keeps_refl|lia]. eapply BI_fields; [exact HB|done|by rewrite (bi_prev _ _ _ _ _ _ _ HB)|cbn; lia|].
    cbn. apply (bi_end _ _ _ _ _ _ _ HB).
Qed.

(** ** The port's promise *)

(** The record that an access from cycle [c] to [c'] leaves, under the gap [g]. *)
Definition RecordOK (g c c' : Z) (tr : TimingRecord) (h : EvHeap) (qd : list (tree * Z)) : Prop :=
  if tr_isValid tr then exists ts,
    tr_startEvent tr = Some (root ts) /\ Forest h qd [ts] /\ (forall j, nocore j ts) /\ in_dom 0 (joined 0 ts) /\ Timed g ts /\
    n_lab (nd ts) = tr_reqCycle tr - g /\ c <= tr_reqCycle tr <= c' /\
    (if IsGet (tr_type tr) then
       tr_reqCycle tr <= tr_respCycle tr <= c' /\
       exists e ne ks, tr_endEvent tr = Some e /\ (e, ne, ks) ∈ nodes ts /\ n_class ne <> ClsDelay /\
         tr_respCycle tr - g <= n_lab ne + dur ne
     else IsPut (tr_type tr) = true)
  else Forest h qd [].

Class PortLaws `{Port} : Prop := port_spec : forall i k a c er h qd g,
  Forest h qd [] -> hasRecord er = false -> 0 <= g <= c -> c < 2 ^ 61 -> Z.of_nat (base.size (hp_events h)) + 16 < two32 ->
  wp (port_access i k a c) (fun c' s' => c <= c' <= c + 2 ^ 20 /\ hp_queue s'.2 = hp_queue h /\
    (base.size (hp_events s'.2) <= base.size (hp_events h) + 16)%nat /\
    exists tr, s'.1 = er_with_tr er tr /\ RecordOK g c c' tr s'.2 qd) (er, h).

Lemma Spine_of_node i e ne ks t : nocore i t -> (e, ne, ks) ∈ nodes t -> n_class ne <> ClsDelay -> Spine i e ne t.
Proof.
  intros Hn Hin Hd. induction t as [p n kt IH] using tree_ind'. apply nocore_Tr in Hn as [Hn1 Hn]. cbn in Hin.
  apply elem_of_cons in Hin as [[= -> -> ->]|Hin]; [by constructor|].
  apply elem_flat_map in Hin as (k&Hk&Hin). elems. assert (HS := IH k Hk (Hn k Hk) Hin).
  apply list_elem_of_split in Hk as (l1&l2&->). constructor; [done|]. elems. intros y Hy. apply Hn. set_solver.
Qed.

Lemma crossings_forest h qd fl x : Forest h qd fl -> Forall QOK qd -> x ∈ flat_map ids qd.*1 ->
  produceCrossings (CR.ev_fuel h) x h = Ok (tt, h).
Proof.
  intros HF HQ (t&Ht&Hx)%elem_flat_map. destruct (sub_at x t Hx) as (t'&Hs&Er). subst x.
  assert (Hle := forest_nodes_le h qd fl t HF ltac:(apply elem_of_app; by left)).
  apply list_elem_of_fmap in Ht as (y&->&Hy). pose proof (fo_q _ _ _ HF) as HR. elems.
  destruct (sub_rep _ _ _ _ _ Hs (HR y Hy)) as (st&np&HR'&_). destruct (HQ y Hy) as (g&_&_&HD&_).
  assert (Hlen : (length (nodes t') <= length (nodes y.1))%nat).
  { clear -Hs. induction Hs as [|p n ks k Hk _ IH]; [done|]. cbn. apply list_elem_of_split in Hk as (l1&l2&->). rewrite flat_map_app'.
    cbn. rewrite !length_app. lia. }
  eapply (crossings_none 0); [done| |exact HR'|]; [unfold CR.ev_fuel; lia|].
  unfold in_dom in *. elems. intros z Hz. apply HD. by eapply sub_nodes.
Qed.

(** Linking below an event of the chain's tree keeps the queued trees well timed. *)
Lemma qok_link i x nx sl F qd fl p n tc g : NoDup (flat_map ids (qd.*1 ++ fl)) -> Forall QOK qd ->
  HasChain i x nx sl F qd fl -> (forall t c rest, Chain i x nx sl F qd fl t c rest -> exists ks, (p, n, ks) ∈ nodes t) ->
  Timed g tc -> g <= sl -> in_dom 0 tc -> n_lab (nd tc) <= n_lab n + dur n -> Forall QOK (gq p tc qd).
Proof.
  intros HN HQ (t&c&rest&HC) Hp HT Hg HD Hl. destruct (Hp t c rest HC) as [ks Hk]. clear Hp.
  assert (HNt : NoDup (ids t)).
  { rewrite (ch_perm _ _ _ _ _ _ _ _ _ _ HC) in HN. cbn in HN. by apply list.NoDup_app in HN as (?&_). }
  eapply (qok_graft sl); [exact HN|done|apply HC|apply HC| |exact HT|done|done|].
  - apply elem_ids. by exists n, ks.
  - intros n' ks' Hn'. by destruct (node_uniq _ _ _ _ _ _ HNt Hn' Hk) as [-> _].
Qed.

Lemma chain_tree_node i x nx sl F qd fl t c rest : Chain i x nx sl F qd fl t c rest -> exists ks, (x, nx, ks) ∈ nodes t.
Proof. intros HC. eapply Spine_in, (ch_spine _ _ _ _ _ _ _ _ _ _ HC). Qed.

(** The children of the grafted tree. *)
Lemma graft_nodes p tc t : p ∈ ids t -> forall y, y ∈ nodes tc -> y ∈ nodes (graft p tc t).
Proof.
  induction t as [q n ks IH] using tree_ind'. rewrite ids_cons. intros Hp y Hy. cbn. apply elem_of_cons. right. rewrite flat_map_app'.
  apply elem_of_app. case_decide as Hq; [right; cbn; by rewrite app_nil_r|left].
  apply elem_of_cons in Hp as [->|Hp]; [done|]. apply elem_flat_map in Hp as (k&Hk&Hp). apply elem_flat_map.
  exists (graft p tc k). split; [by apply list_elem_of_In, in_map, list_elem_of_In|]. elems. auto.
Qed.

Lemma graft_keeps p tc t q : q ∈ ids t -> q ∈ ids (graft p tc t).
Proof.
  induction t as [a n ks IH] using tree_ind'. cbn [graft]. rewrite !ids_cons, flat_map_app'. rewrite !elem_of_cons, elem_of_app.
  intros [->|(k&Hk&Hq)%elem_flat_map]; [auto|]. right. left. apply elem_flat_map. exists (graft p tc k).
  split; [by apply list_elem_of_In, in_map, list_elem_of_In|]. elems. auto.
Qed.
Lemma chain_fl i x nx sl F qd fl fl' : Forall (nocore i) fl' -> HasChain i x nx sl F qd fl -> HasChain i x nx sl F qd fl'.
Proof. intros H (t&c&rest&[C1 C2 C3 C4 C5 C6]). exists t, c, rest. by split. Qed.

(** The two links of recordAccess: a new event [tc] under the last event of the chain and
    the record's tree [ts] under [tc]. *)
Lemma attach_spec i x nx g F qd h p0 n0 ts (r : CR.t) (Q : nat -> CR.t * EvHeap -> Prop) :
  Forest h qd [Tr p0 n0 []; ts] -> Forall QOK qd -> HasChain i x nx g F qd [ts] ->
  n_dom n0 = -1 -> TimedN g n0 -> n_lab n0 <= n_lab nx + dur nx -> (forall j, j <> i -> core_of n0 <> Some j) ->
  (forall j, nocore j ts) -> in_dom 0 (joined 0 ts) -> Timed g ts -> n_lab (nd ts) <= n_lab n0 + dur n0 ->
  (core_of n0 = Some i \/ core_of n0 = None) ->
  (forall h' qd', Forest h' qd' [] -> Forall QOK qd' -> Keeps i qd [ts] qd' [] -> hp_queue h' = hp_queue h ->
     (base.size (hp_events h') <= base.size (hp_events h))%nat -> x ∈ flat_map ids qd'.*1 ->
     (core_of n0 = None -> HasChain i x nx g F qd' []) ->
     (forall e ne ks, core_of n0 = Some i -> (e, ne, ks) ∈ nodes ts -> n_class ne <> ClsDelay ->
        exists ne', n_lab ne' = n_lab ne /\ dur ne' = dur ne /\ HasChain i e ne' g F qd' []) ->
     Q (root ts) (r, h')) ->
  Z.of_nat (base.size (hp_events h)) < two32 ->
  wp (c ← CR.link x p0; CR.link c (root ts)) Q (r, h).
Proof.
  intros HF HQ HC Hd0 HT0 Hl0 Hc0 Hnc HDts HTts Hlts Hcls HK Hsz.
  assert (HN : NoDup (flat_map ids (qd.*1 ++ [ts]))) by (by destruct (forest_fl_nd _ _ _ _ HF) as (_&?&_)).
  assert (HF0 : Forest h qd [ts]) .
  { destruct HF as [A1 A2 A3 A4]. split; try done. by apply list.Forall_cons in A2 as [_ ?]. }
  destruct (chain_node h i x nx g F qd [ts] HC HF0 HQ) as (ks&Hx&Hdx).
  set (tc := Tr p0 n0 []) in *. set (tc' := Tr p0 (set_dom 0 n0) []).
  assert (Hj : joined 0 tc = tc'). { unfold joined, tc. cbn. rewrite Hd0. cbn. by rewrite decide_True. }
  wp_steps. change p0 with (root tc). eapply wp_link; [exact HF|done|done|done|]. intros h1 Q1 N1 S1 HF1. rewrite Hj in HF1. cbn [map] in HF1.
  assert (Hxids : x ∈ flat_map ids qd.*1).
  { destruct HC as (t&c&rest&[C1 C2 _ _ _ _]). rewrite C1. cbn. apply elem_of_app. left. by eapply Spine_ids. }
  assert (Hxts : x ∉ ids ts).
  { rewrite flat_map_app' in HN. apply list.NoDup_app in HN as (_&Hdj&_). specialize (Hdj x Hxids). cbn in Hdj. by rewrite app_nil_r in Hdj. }
  rewrite (graft_out x tc' ts) in HF1 by done.
  assert (HT' : Timed g tc') by (constructor; [by destruct HT0; split|done|done]).
  assert (HQ1 : Forall QOK (gq x tc' qd)).
  { eapply (qok_link i x nx g F qd [ts] x nx); try done; [|by constructor]. intros t c rest Hch. by eapply chain_tree_node. }
  assert (HP0 : exists t c rest, gq x tc' qd ≡ₚ (graft x tc' t, c) :: rest /\ n_lab (nd t) + g <= c - n_pre (nd t) /\ x ∈ ids t).
  { destruct HC as (t&c&rest&[C1 C2 _ _ C5 _]). exists t, c, (gq x tc' rest). split; [unfold gq; by rewrite C1|]. split; [done|]. by eapply Spine_ids. }
  assert (Hp0 : (p0, set_dom 0 n0, []) ∈ flat_map nodes ((gq x tc' qd).*1 ++ [])).
  { destruct HP0 as (t&c&rest&E&_&Hxt). rewrite E. cbn. apply elem_of_app. left. apply graft_nodes; [done|]. cbn. apply list_elem_of_here. }
  assert (HN1 : NoDup (flat_map ids ((gq x tc' qd).*1 ++ [ts]))) by apply (fo_nd _ _ _ HF1).
  eapply wp_link; [exact HF1|exact Hp0|done|lia|]. intros h2 Q2 N2 S2 HF2. set (ts' := joined 0 ts) in *. cbn [map] in HF2.
  assert (Hp0ts : p0 ∉ ids ts).
  { destruct (forest_fl_nd _ _ _ _ HF) as (_&_&_&Hq). destruct (Hq p0 (root_ids tc)) as [_ H2]. by apply list.Forall_cons in H2 as [? _]. }
  assert (HTs' : Timed g ts') by by apply Timed_joined.
  assert (HD0 : in_dom 0 ts') by done.
  destruct HP0 as (t&c&rest&EP&Hsl&Hxt).
  assert (HQ2 : Forall QOK (gq p0 ts' (gq x tc' qd))).
  { eapply (qok_graft g); [exact HN1|done|exact EP|by rewrite nd_graft| |exact HTs'|done|done|].
    - apply elem_ids. exists (set_dom 0 n0), []. apply graft_nodes; [done|]. cbn. apply list_elem_of_here.
    - intros n' ks' Hn'. rewrite EP in HN1. cbn in HN1. apply list.NoDup_app in HN1 as (HNg&_).
      assert (Hin : (p0, set_dom 0 n0, []) ∈ nodes (graft x tc' t)) by (apply graft_nodes; [done|cbn; apply list_elem_of_here]).
      destruct (node_uniq _ _ _ _ _ _ HNg Hn' Hin) as [-> _]. unfold ts'. rewrite lab_joined. by cbn. }
  assert (Hnts : Forall (nocore i) [ts']) by (constructor; [by apply nocore_joined|done]).
  apply (HK h2 (gq p0 ts' (gq x tc' qd))); try done; try lia.
  - eapply Keeps_trans; [apply (Keeps_fl i qd [ts] [tc; ts])|].
    { intros j Hji Hts. constructor; [|done]. apply nocore_Tr. split; [by apply Hc0|done]. }
    eapply Keeps_trans; [apply (Keeps_graft i qd [ts] x tc)|]. rewrite Hj. cbn [map]. rewrite (graft_out x tc' ts) by done.
    apply (Keeps_graft i (gq x tc' qd) [] p0 ts).
  - congruence.
  - rewrite gq_fst, EP. cbn. apply elem_of_app. left. by apply graft_keeps, graft_keeps.
  - intros Hno. apply (chain_graft_other i x nx g F (gq x tc' qd) [] p0 ts'); [by apply nocore_joined|]. eapply chain_fl; [exact Hnts|].
    apply (chain_graft_other i x nx g F qd [ts] x tc').
    + apply nocore_Tr. split; [|done]. unfold core_of in *. cbn. by rewrite Hno.
    + eapply chain_fl; [|exact HC]. constructor; [|by constructor]. apply nocore_Tr. split; [|done]. unfold core_of in *. cbn. by rewrite Hno.
  - intros e ne kse Hcore He Hde.
    destruct (Spine_joined i e ne 0 ts (Spine_of_node i e ne kse ts (Hnc i) He Hde)) as (ne'&HS&E1&E2&E3).
    exists ne'. split; [done|]. split; [done|]. apply (chain_graft_end i p0 (set_dom 0 n0) g F (gq x tc' qd) []); [| |done].
    + rewrite flat_map_app' in HN1. apply list.NoDup_app in HN1 as (HN1&_). by rewrite app_nil_r.
    + eapply chain_fl; [|apply (chain_graft_end i x nx g F qd [ts] tc' p0 (set_dom 0 n0) HN HC)]; [done|].
      constructor; [|done]. unfold core_of in Hcore. cbn. by destruct (n_class n0).
Qed.

Lemma recordAccess_spec i r h qd tr x nx F start c' Q :
  Forall QOK qd -> hp_queue h = [] -> HasChain i x nx (CR.gapCycles r) F qd [] -> CR.prevRespEvent r = Some x ->
  0 <= CR.gapCycles r <= CR.prevRespCycle r -> CR.prevRespCycle r - CR.gapCycles r <= n_lab nx + dur nx ->
  er_tr (CR.eventRecorder r) = tr -> tr_isValid tr = true -> RecordOK (CR.gapCycles r) start c' tr h qd ->
  CR.prevRespCycle r <= start -> c' < 2 ^ 62 -> c' - CR.prevRespCycle r < two32 -> Z.of_nat (base.size (hp_events h)) + 1 < two32 ->
  (forall h' x' nx' qd' z, let r' := CR.with_prev z (Some x') (CR.with_recorder (popRecord (CR.eventRecorder r)).2 r) in
     BI i r' h' qd' x' nx' F -> CR.prevRespCycle r <= z <= c' -> Keeps i qd [] qd' [] ->
     (base.size (hp_events h') <= base.size (hp_events h) + 1)%nat -> Q tt (r', h')) ->
  wp (CR.recordAccess i start) Q (r, h).
Proof.
  intros HQ Hq HC Hx Hg Hend Etr Hv HR Hst Hc' Hd Hsz HK. unfold RecordOK in HR. rewrite Hv in HR.
  destruct HR as (ts&Ets&HF&Hnc&HDts&HTts&Hlts&Hreq&Hty). unfold CR.recordAccess. wp_steps. cbn [fst snd].
  apply wp_assert; [unfold hasRecord; by rewrite Etr|]. unfold popRecord at 1. rewrite Etr. wp_steps. unfold CR.onRec at 1. wp_steps. cbn [fst snd].
  set (er := er_with_tr _ _). set (r1 := CR.with_recorder er r).
  apply wp_assert; [apply Z.leb_le; lia|]. apply wp_bind, wp_assert; [apply Z.leb_le; lia|]. wp_steps. apply wp_lift. rewrite Hx. cbn [from_opt rwp].
  wp_steps. apply wp_lift. rewrite Ets. cbn [from_opt rwp].
  assert (HCts : HasChain i x nx (CR.gapCycles r) F qd [ts]) by (eapply chain_fl; [|exact HC]; constructor; [apply Hnc|done]).
  assert (HKts : Keeps i qd [] qd [ts]) by (apply Keeps_fl; intros j _ _; constructor; [apply Hnc|done]).
  assert (Er1 : r1 = CR.with_recorder (popRecord (CR.eventRecorder r)).2 r) by (unfold r1, er, popRecord; by rewrite Etr).
  set (lab := CR.prevRespCycle r - CR.gapCycles r) in *.
  assert (Elab : u64 lab = lab) by (apply u64_small; unfold lab, two64; lia).
  assert (Edel : u64 (tr_reqCycle tr - CR.prevRespCycle r) = tr_reqCycle tr - CR.prevRespCycle r) by (apply u64_small; unfold two64; lia).
  set (delay := tr_reqCycle tr - CR.prevRespCycle r) in *. wp_steps.
  destruct (IsGet (tr_type tr)) eqn:Hget; wp_steps.
  - destruct Hty as (Hresp&e&ne&kse&Ee&He&Hde&Hle).
    destruct (forest_new h qd [ts] (ClsCore i lab) 0 (u32 delay) (-1) lab HF) as (h1&E1&Q1&N1&S1&HF1); try done; [apply u32_range|].
    rewrite Elab, Edel. eapply wp_onHeap; [exact E1|]. rewrite u32_small in * by lia.
    destruct (forest_setMin h1 qd [ts] _ _ _ (CR.prevRespCycle r) HF1) as (h2&E2&Q2&N2&S2&HF2). wp_steps. eapply wp_onHeap; [exact E2|].
    set (n0 := set_min _ _) in HF2. wp_steps.
    eapply wp_mono; [|intros c0 s0 Hw; apply wp_bind; exact Hw].
    apply (wp_bind_inv (CR.link x (hp_next h)) (fun c => CR.link c (root ts))).
    eapply (attach_spec i x nx (CR.gapCycles r) F qd h2 (hp_next h) n0 ts r1); try done.
    + split; cbn; [unfold lab; lia| |done]. intros ? ? [= <- <-]. unfold lab. lia.
    + intros j Hj. unfold core_of. cbn. congruence.
    + rewrite Hlts. unfold dur. cbn. unfold lab, delay. lia.
    + by left.
    + intros h' qd' HF' HQ' HK' Hq' Hs' Hxin _ Hch.
      destruct (Hch e ne kse eq_refl He Hde) as (ne'&El&Edur&HC'). wp_steps. unfold CR.onRec. wp_steps. cbn [fst snd].
      rewrite Ee. apply wp_assert; [done|]. wp_steps. cbn [fst snd].
      eapply wp_onHeap; [eapply crossings_forest; [exact HF'|done|done]|].
      rewrite Er1. apply (HK h' e ne' qd' (tr_respCycle tr)); try done; try lia.
      * split; cbn; try done; try lia. congruence.
      * by eapply Keeps_trans.
    + lia.
  - apply wp_assert; [done|]. wp_steps. rewrite Edel.
    destruct (forest_new h qd [ts] ClsDelay (u32 delay) 0 (-1) lab HF) as (h1&E1&Q1&N1&S1&HF1); try done; [apply u32_range|].
    eapply wp_onHeap; [exact E1|]. rewrite u32_small in * by lia.
    destruct (forest_setMin h1 qd [ts] _ _ _ (CR.prevRespCycle r) HF1) as (h2&E2&Q2&N2&S2&HF2). wp_steps. eapply wp_onHeap; [exact E2|].
    set (n0 := set_min _ _) in HF2. wp_steps.
    eapply wp_mono; [|intros c0 s0 Hw; apply wp_bind; exact Hw].
    apply (wp_bind_inv (CR.link x (hp_next h)) (fun c => CR.link c (root ts))).
    eapply (attach_spec i x nx (CR.gapCycles r) F qd h2 (hp_next h) n0 ts r1); try done.
    + rewrite Hlts. unfold dur. cbn. unfold lab, delay. lia.
    + by right.
    + intros h' qd' HF' HQ' HK' Hq' Hs' Hxin Hch _. specialize (Hch eq_refl). wp_steps. cbn [fst snd].
      eapply wp_onHeap; [eapply crossings_forest; [exact HF'|done|done]|].
      assert (Er : r1 = CR.with_prev (CR.prevRespCycle r) (Some x) r1) by (unfold r1; destruct r; cbn in *; by subst).
      rewrite Er, Er1. apply (HK h' x nx qd' (CR.prevRespCycle r)); try done; try lia.
      * split; cbn; try done; try lia. congruence.
      * by eapply Keeps_trans.
    + lia.
Qed.

(** ** The cores in the bound phase *)
Lemma wp_TC_onRec {A} (m : CR.RM A) Q (s : TC.t) h :
  wp m (fun a x => Q a (TC.with_rec x.1 s, x.2)) (TC.cRec s, h) -> wp (TC.onRec m) Q (s, h).
Proof. unfold wp, TC.onRec. cbn. by destruct (m (TC.cRec s, h)) as [[a [r h']]|]. Qed.

(** Why the skew of a recorder is not negative at the end of the phase: an event of it was
    simulated, with slack [gapCycles], or its first event starts in this phase. *)
Definition Seen (i : nat) (r : CR.t) (glob : Z) (n : node) (c : Z) : Prop :=
  (0 <= CR.lastOrigStart r /\ CR.lastStart r - CR.lastOrigStart r = CR.gapCycles r /\ CR.lastStart r <= glob) \/
  (core_of n = Some i /\ c = glob).

Record Live (i : nat) (s : TC.t) (glob : Z) (h : EvHeap) (qd : list (tree * Z)) (x : nat) (nx : node) : Prop := {
  lv_bi : BI i (TC.cRec s) h qd x nx (Seen i (TC.cRec s) glob);
  lv_halt : CR.state (TC.cRec s) <> CR.HALTED;
  lv_drain : CR.state (TC.cRec s) = CR.DRAINING -> core_of nx = Some i;
  lv_prev : CR.prevRespCycle (TC.cRec s) <= TC.curCycle s;
  lv_glob : glob <= TC.curCycle s }.

Record Halted (i : nat) (s : TC.t) (glob : Z) (qd : list (tree * Z)) : Prop := {
  hl_state : CR.state (TC.cRec s) = CR.HALTED;
  hl_prev : CR.prevRespEvent (TC.cRec s) = None;
  hl_free : Free i qd [];
  hl_gap : 0 <= CR.gapCycles (TC.cRec s);
  hl_last : CR.lastUnhaltedCycle (TC.cRec s) <= glob }.

Definition CoreI (i : nat) (s : TC.t) (glob : Z) (h : EvHeap) (qd : list (tree * Z)) : Prop :=
  CR.domain (TC.cRec s) = 0 /\ hasRecord (CR.eventRecorder (TC.cRec s)) = false /\
  (Halted i s glob qd \/ exists x nx, Live i s glob h qd x nx).

Lemma CoreI_keeps i j s glob h qd h' qd' : CoreI j s glob h qd -> j <> i -> Keeps i qd [] qd' [] ->
  Forest h' qd' [] -> Forall QOK qd' -> hp_queue h' = [] -> CoreI j s glob h' qd'.
Proof.
  intros (H1&H2&H3) Hj HK HF HQ Hq. split; [done|]. split; [done|].
  destruct H3 as [[A1 A2 A3 A4 A5]|(x&nx&[[B1 B2 B3 B4 B5 B6 B7 B8] C2 C3 C4 C5])].
  - left. split; try done. by apply (k_free _ _ _ _ _ HK).
  - right. exists x, nx. split; try done. split; try done. by apply (k_chain _ _ _ _ _ HK).
Qed.

(** What an operation in the bound phase changes of a recorder that runs. *)
Definition moved (r r' : CR.t) : Prop := exists z x er,
  r' = CR.with_prev z x (CR.with_recorder er r) /\ hasRecord er = false /\ CR.prevRespCycle r <= z.

Lemma moved_trans r1 r2 r3 : moved r1 r2 -> moved r2 r3 -> moved r1 r3.
Proof. intros (z&x&er&->&H1&H2) (z'&x'&er'&->&H3&H4). exists z', x', er'. split_and!; [done..|]. cbn in H4. lia. Qed.

Section WithPort.
Context `{PortLaws}.

Lemma tc_access_spec i k a s glob h qd x nx Q : Live i s glob h qd x nx -> CR.state (TC.cRec s) = CR.RUNNING ->
  hasRecord (CR.eventRecorder (TC.cRec s)) = false -> TC.curCycle s < 2 ^ 61 ->
  TC.curCycle s - CR.prevRespCycle (TC.cRec s) + 2 ^ 20 < two32 -> Z.of_nat (base.size (hp_events h)) + 17 < two32 ->
  (forall s' h' qd' x' nx', Live i s' glob h' qd' x' nx' -> moved (TC.cRec s) (TC.cRec s') ->
     TC.curCycle s <= TC.curCycle s' <= TC.curCycle s + 2 ^ 20 -> Keeps i qd [] qd' [] ->
     (base.size (hp_events h') <= base.size (hp_events h) + 17)%nat -> Q tt (s', h')) ->
  wp (TC.accessAndRecord i k a) Q (s, h).
Proof.
  intros [HB Hh Hdr Hp Hg] Hrun Hnr Hc Hd Hsz HK. destruct (HB) as [HF HQ Hq HC Hpe Hgap Hroom Hend].
  unfold TC.accessAndRecord. wp_steps. cbn [fst snd]. unfold TC.port at 1.
  pose proof (port_spec i k a (TC.curCycle s) _ h qd (CR.gapCycles (TC.cRec s)) HF Hnr ltac:(lia) Hc ltac:(lia)) as HW.
  apply wp_elim in HW as (c'&[er' h1]&E&Hc'&Hq1&Hs1&tr&Eer&HR). cbn [fst snd] in *. unfold wp at 1. cbn [fst snd]. rewrite E.
  set (r1 := CR.with_recorder er' (TC.cRec s)). wp_steps. unfold TC.onCore. wp_steps. cbn [fst snd]. apply wp_TC_onRec.
  unfold CR.record. wp_steps. cbn [fst snd]. change (CR.eventRecorder _) with er'.
  assert (Ehr : hasRecord er' = tr_isValid tr) by by rewrite Eer.
  destruct (hasRecord er') eqn:Hhr.
  - rewrite Ehr in *. change (TC.cRec _) with r1.
    eapply (recordAccess_spec i r1 h1 qd tr x nx (Seen i (TC.cRec s) glob) (TC.curCycle s) c'); try done; try (cbn; lia).
    + congruence.
    + cbn. by rewrite Eer.
    + intros h' x' nx' qd' z r' HB' Hz HK' Hs'. cbn [fst snd]. cbn in Hz. eapply (HK (TC.with_rec r' _) h' qd' x' nx').
      * split; cbn; try done; try lia. congruence.
      * exists z, (Some x'), (popRecord er').2. split_and!; try done. lia.
      * cbn. lia.
      * done.
      * lia.
  - wp_steps. cbn [fst snd]. unfold RecordOK in HR. rewrite <- Ehr in HR.
    eapply (HK _ h1 qd x nx).
    + split; cbn; try done; try lia. by split; cbn; rewrite ?Hq1.
    + exists (CR.prevRespCycle (TC.cRec s)), (CR.prevRespEvent (TC.cRec s)), er'. split_and!; try done.
    + cbn. lia.
    + apply Keeps_refl.
    + lia.
Qed.

Lemma fetch_spec i lineBits endA m : 0 <= lineBits -> forall n a s glob h qd x nx Q, (m <= n)%nat -> 0 <= a ->
  endA - a <= Z.of_nat m * 2 ^ lineBits -> a + Z.of_nat m * 2 ^ lineBits < two64 ->
  Live i s glob h qd x nx -> CR.state (TC.cRec s) = CR.RUNNING ->
  hasRecord (CR.eventRecorder (TC.cRec s)) = false -> TC.curCycle s + Z.of_nat m * 2 ^ 20 < 2 ^ 61 ->
  TC.curCycle s - CR.prevRespCycle (TC.cRec s) + Z.of_nat m * 2 ^ 20 < two32 -> Z.of_nat (base.size (hp_events h)) + 17 * Z.of_nat m < two32 ->
  (forall s' h' qd' x' nx', Live i s' glob h' qd' x' nx' -> moved (TC.cRec s) (TC.cRec s') ->
     TC.curCycle s <= TC.curCycle s' <= TC.curCycle s + Z.of_nat m * 2 ^ 20 -> Keeps i qd [] qd' [] ->
     (base.size (hp_events h') <= base.size (hp_events h) + 17 * m)%nat -> Q tt (s', h')) ->
  wp (TC.fetch_loop i lineBits n a endA) Q (s, h).
Proof.
  intros Hlb. assert (HL : 1 <= 2 ^ lineBits) by (pose proof (Z.pow_pos_nonneg 2 lineBits); lia).
  assert (Hsh : Z.shiftl 1 lineBits = 2 ^ lineBits) by (rewrite Z.shiftl_mul_pow2 by done; lia).
  set (L := 2 ^ lineBits) in *.
  induction m as [|m IH]; intros n a s glob h qd x nx Q Hmn Ha HeL Hw HLv Hrun Hnr Hc Hd Hsz HK.
  - assert (Hlt : (a <? endA) = false) by (apply Z.ltb_ge; lia).
    destruct n; cbn [TC.fetch_loop]; rewrite Hlt; wp_steps; apply (HK s h qd x nx); try done; try lia; try apply Keeps_refl;
      (exists (CR.prevRespCycle (TC.cRec s)), (CR.prevRespEvent (TC.cRec s)), (CR.eventRecorder (TC.cRec s)); split_and!; [by destruct (TC.cRec s)|done|lia]).
  - destruct n as [|n]; [lia|]. cbn [TC.fetch_loop]. destruct (Z.ltb_spec a endA) as [Hlt|Hge].
    + wp_steps. eapply (tc_access_spec i Ifetch a s glob h qd x nx); try done; try lia.
      intros s1 h1 qd1 x1 nx1 HL1 HM1 Hc1 HK1 Hs1. rewrite Hsh, u64_small by lia.
      assert (HM1' := HM1). destruct HM1' as (z&xe&er&Er&Hnr1&Hz).
      assert (Hst1 : CR.state (TC.cRec s1) = CR.RUNNING) by by rewrite Er. assert (Hz1 : CR.prevRespCycle (TC.cRec s1) = z) by by rewrite Er.
      eapply (IH n (a + L) s1 glob h1 qd1 x1 nx1); try done; try lia; [by rewrite Er|].
      intros s2 h2 qd2 x2 nx2 HL2 HM2 Hc2 HK2 Hs2. apply (HK s2 h2 qd2 x2 nx2); try done; try lia; [by eapply moved_trans|by eapply Keeps_trans].
    + wp_steps. apply (HK s h qd x nx); try done; try lia; try apply Keeps_refl.
      exists (CR.prevRespCycle (TC.cRec s)), (CR.prevRespEvent (TC.cRec s)), (CR.eventRecorder (TC.cRec s)). split_and!; [by destruct (TC.cRec s)|done|lia].
Qed.

(** The lines of a basic block. *)
Definition lines (lineBits bytes : Z) : nat := S (Z.to_nat (bytes / 2 ^ lineBits)).

Lemma tc_bbl_spec i lineBits addr instrs bytes s glob h qd x nx Q : 0 <= lineBits -> 0 <= addr -> 0 <= instrs -> 0 < bytes ->
  addr + bytes + 2 ^ lineBits < two64 ->
  Live i s glob h qd x nx -> CR.state (TC.cRec s) = CR.RUNNING -> hasRecord (CR.eventRecorder (TC.cRec s)) = false ->
  let m := lines lineBits bytes in
  TC.curCycle s + instrs + Z.of_nat m * 2 ^ 20 < 2 ^ 61 ->
  TC.curCycle s + instrs - CR.prevRespCycle (TC.cRec s) + Z.of_nat m * 2 ^ 20 < two32 -> Z.of_nat (base.size (hp_events h)) + 17 * Z.of_nat m < two32 ->
  (forall s' h' qd' x' nx', Live i s' glob h' qd' x' nx' -> moved (TC.cRec s) (TC.cRec s') -> TC.curCycle s <= TC.curCycle s' -> Keeps i qd [] qd' [] ->
     (base.size (hp_events h') <= base.size (hp_events h) + 17 * m)%nat -> Q tt (s', h')) ->
  wp (TC.bblAndRecord i lineBits addr instrs bytes) Q (s, h).
Proof.
  intros Hlb Ha Hi Hb Hw HLv Hrun Hnr m Hc Hd Hsz HK. destruct (HLv) as [HB Hh Hdr Hp Hg]. pose proof (bi_gap _ _ _ _ _ _ _ HB).
  assert (HL : 1 <= 2 ^ lineBits) by (pose proof (Z.pow_pos_nonneg 2 lineBits); lia).
  pose proof (Z_div_mod_eq_full bytes (2 ^ lineBits)). pose proof (Z.mod_pos_bound bytes (2 ^ lineBits) ltac:(lia)).
  assert (0 <= bytes / 2 ^ lineBits) by (apply Z.div_pos; lia).
  assert (bytes / 2 ^ lineBits <= bytes) by (apply Z.div_le_upper_bound; nia).
  assert (Em : Z.of_nat m = bytes / 2 ^ lineBits + 1) by (unfold m, lines; lia).
  unfold TC.bblAndRecord. wp_steps. unfold TC.onCore. wp_steps. cbn [fst snd]. cbn [TC.curCycle TC.with_instrs].
  rewrite (u64_small (TC.curCycle s + instrs)) by (unfold two64; lia). rewrite (u64_small (addr + bytes)) by lia.
  eapply (fetch_spec i lineBits (addr + bytes) m Hlb _ addr _ glob h qd x nx); cbn; try done; try lia; try nia.
  - split; cbn; try done; lia.
  - intros s' h' qd' x' nx' HL' HM' Hc' HK' Hs'. apply (HK s' h' qd' x' nx'); try done. cbn in Hc'. lia.
Qed.
End WithPort.

(** ** Joining and leaving *)
Lemma tc_leave_spec i s glob h qd x nx Q : Live i s glob h qd x nx -> CR.state (TC.cRec s) = CR.RUNNING -> TC.curCycle s < 2 ^ 62 ->
  TC.curCycle s - CR.prevRespCycle (TC.cRec s) < two32 -> Z.of_nat (base.size (hp_events h)) + 2 < two32 ->
  hasRecord (CR.eventRecorder (TC.cRec s)) = false ->
  (forall s' h' qd' x' nx', Live i s' glob h' qd' x' nx' -> CR.state (TC.cRec s') = CR.DRAINING ->
     CR.domain (TC.cRec s') = CR.domain (TC.cRec s) -> hasRecord (CR.eventRecorder (TC.cRec s')) = false -> TC.curCycle s' = TC.curCycle s ->
     Keeps i qd [] qd' [] -> (base.size (hp_events h') <= base.size (hp_events h) + 2)%nat -> Q tt (s', h')) ->
  wp (TC.leave i) Q (s, h).
Proof.
  intros [HB Hh Hdr Hp Hg] Hrun Hc Hd Hsz Hnr HK. unfold TC.leave. wp_steps. cbn [fst snd]. apply wp_TC_onRec.
  eapply notifyLeave_spec; try done. intros h' y ny qd' r' HB' Hcy HK' Hs'. cbn [fst snd].
  apply (HK (TC.with_rec r' s) h' qd' y ny); try done.
Qed.

Definition clear (h : EvHeap) : EvHeap := mkHeap (hp_events h) (hp_next h) [].
Lemma Forest_clear h qd fl : Forest h qd fl -> Forest (clear h) qd fl.
Proof. intros []. by split. Qed.

(** The others after a new tree was queued. *)
Lemma chain_cons j x nx sl F qd y : nocore j y.1 -> HasChain j x nx sl F qd [] -> HasChain j x nx sl F (y :: qd) [].
Proof.
  intros Hn (t&c&rest&[C1 C2 C3 C4 C5 C6]). exists t, c, (y :: rest). split; try done; [by rewrite C1; constructor|by constructor].
Qed.
Lemma CoreI_cons i j s glob h qd h' y : CoreI j s glob h qd -> j <> i -> nocore j y.1 ->
  Forest h' (y :: qd) [] -> Forall QOK (y :: qd) -> hp_queue h' = [] -> CoreI j s glob h' (y :: qd).
Proof.
  intros (H1&H2&H3) Hj Hn HF HQ Hq. split; [done|]. split; [done|].
  destruct H3 as [[A1 A2 [A3 A3'] A4 A5]|(x&nx&[[B1 B2 B3 B4 B5 B6 B7 B8] C2 C3 C4 C5])].
  - left. split; try done. split; [by constructor|done].
  - right. exists x, nx. split; try done. split; try done. by apply chain_cons.
Qed.

Lemma join_halted i zi s h qd Q : Forest h qd [] -> Forall QOK qd -> Halted i s (globPhaseCycles zi) qd ->
  CR.domain (TC.cRec s) = 0 -> hasRecord (CR.eventRecorder (TC.cRec s)) = false -> 0 <= globPhaseCycles zi < 2 ^ 62 ->
  hp_queue h = [] ->
  (forall s' h' t nx, let glob := globPhaseCycles zi in
     Live i s' glob (clear h') ((t, glob) :: qd) (root t) nx -> CR.state (TC.cRec s') = CR.RUNNING ->
     CR.domain (TC.cRec s') = 0 -> hasRecord (CR.eventRecorder (TC.cRec s')) = false -> TC.curCycle s' = glob ->
     hp_queue h' = [(root t, glob)] -> (forall j, j <> i -> nocore j t) -> in_dom 0 t -> hp_events h !! root t = None ->
     (base.size (hp_events h') <= base.size (hp_events h) + 1)%nat -> Q tt (s', h')) ->
  wp (TC.join i zi) Q (s, h).
Proof.
  intros HF HQ [Hst Hpe [Hfr _] Hgap Hlast] Hdom Hnr Hglob Hq HK. unfold TC.join. wp_steps. cbn [fst snd]. apply wp_TC_onRec.
  unfold CR.notifyJoin. wp_steps. cbn [fst snd]. rewrite Hst. wp_steps. apply wp_assert; [by rewrite Hpe|].
  unfold CR.onRec. wp_steps. cbn [fst snd]. apply wp_assert; [by apply Z.leb_le|]. wp_steps. cbn [fst snd]. rewrite Hdom.
  set (glob := globPhaseCycles zi) in *.
  destruct (forest_new h qd [] (ClsCore i glob) 0 0 0 glob HF) as (h1&E1&Q1&N1&S1&HF1); try done.
  eapply wp_onHeap; [exact E1|]. wp_steps. cbn [fst snd].
  destruct (forest_setMin h1 qd [] _ _ _ glob HF1) as (h2&E2&Q2&N2&S2&HF2). eapply wp_onHeap; [exact E2|].
  set (n0 := set_min _ _) in HF2. set (t := Tr (hp_next h) n0 []) in HF2. wp_steps.
  destruct (forest_queue h2 qd [] t glob HF2) as (h3&E3&Q3&N3&S3&HF3). eapply wp_onHeap; [exact E3|].
  wp_steps. cbn [fst snd]. unfold TC.onCore. wp_steps. cbn [fst snd].
  assert (Hnx : core_of n0 = Some i) by done.
  eapply (HK _ h3 t n0); try done.
  - split; cbn; try done; try lia. split; cbn; try done; try lia.
    + by apply Forest_clear.
    + constructor; [|done]. exists 0. cbn. split; [|split; [lia|split; [by constructor|done]]]. constructor; [|done|done].
      split; cbn; [lia| |done]. intros ? ? [= <- <-]. lia.
    + exists t, glob, qd. split; try done; cbn; try lia; [by constructor|]. by right.
  - cbn. unfold setStartSlack. by destruct (_ =? _).
  - by rewrite Q3, Q2, Q1, Hq.
  - intros j Hj. apply nocore_Tr. split; [|done]. unfold core_of. cbn. congruence.
  - by constructor.
  - cbn. apply (fo_fresh _ _ _ HF). done.
  - lia.
Qed.

Lemma join_draining i zi s h qd x nx Q : Live i s (globPhaseCycles zi) h qd x nx -> CR.state (TC.cRec s) = CR.DRAINING ->
  (forall s', Live i s' (globPhaseCycles zi) h qd x nx -> CR.state (TC.cRec s') = CR.RUNNING -> CR.domain (TC.cRec s') = CR.domain (TC.cRec s) ->
     CR.eventRecorder (TC.cRec s') = CR.eventRecorder (TC.cRec s) -> TC.curCycle s' = TC.curCycle s -> Q tt (s', h)) ->
  wp (TC.join i zi) Q (s, h).
Proof.
  intros [HB Hh Hdr Hp Hg] Hst HK. unfold TC.join. wp_steps. cbn [fst snd]. apply wp_TC_onRec. unfold CR.notifyJoin. wp_steps. cbn [fst snd].
  rewrite Hst. wp_steps. apply wp_assert; [by apply Z.leb_le|]. unfold CR.onRec, TC.onCore. wp_steps. cbn [fst snd].
  apply HK; try done. split; cbn; try done. destruct HB. by split.
Qed.
