(* ===== verification/BoundWeavePort.v ===== *)
(** * Caches and a weave memory keep the port's promise

    One level of caches in front of WeaveSimpleMemory, for any routes with small latencies:
    an access leaves no record, the record of a miss, that of a writeback, or a miss and a
    writeback stitched together. *)

From S2P Require Import Prelude Bithacks MemHier TimingEvent EventTree CoreRecorder BoundWeaveInv.

Lemma wp_WM_onHeap {A} (m : EvM A) Q (er : EventRecorder) h a h' : m h = Ok (a, h') -> Q a (er, h') -> wp (WM.onHeap m) Q (er, h).
Proof. intros E HQ. unfold wp, WM.onHeap. cbn. by rewrite E. Qed.
Lemma wp_push r (Q : unit -> EventRecorder * EvHeap -> Prop) er h : hasRecord er = false -> tr_isValid r = true -> Q tt (er_with_tr er r, h) -> wp (WM.push r) Q (er, h).
Proof.
  intros Hn Hv HQ. unfold WM.push. wp_steps. apply wp_lift. unfold pushRecord. cbn [fst snd]. unfold hasRecord in Hn. rewrite Hn, Hv. cbn. wp_steps. done.
Qed.
Lemma wp_pop (Q : TimingRecord -> EventRecorder * EvHeap -> Prop) er h : Q (er_tr er) (er_with_tr er (tr_clear (er_tr er)), h) -> wp WM.pop Q (er, h).
Proof. intros HQ. unfold WM.pop. wp_steps. done. Qed.

Lemma forest_min h qd fl fl' p n ks c : fl ≡ₚ Tr p n ks :: fl' -> Forest h qd fl ->
  exists h', setMinStartCycle p c h = Ok (tt, h') /\ hp_queue h' = hp_queue h /\ hp_next h' = hp_next h /\
    (base.size (hp_events h') <= base.size (hp_events h))%nat /\ Forest h' qd (Tr p (set_min c n) ks :: fl').
Proof. intros HP HF. apply forest_setMin. by rewrite <- HP. Qed.

Ltac decides H := repeat first [rewrite decide_True in H by lia | rewrite decide_False in H by lia].

Lemma perm_two {A} (l : list A) j k x y : l !! j = Some x -> delete j l !! k = Some y -> l ≡ₚ x :: y :: delete k (delete j l).
Proof. intros Hx Hy. rewrite (delete_Permutation l j x Hx) at 1. constructor. by apply delete_Permutation. Qed.

(** Linking below an event of a tree that has no domain yet. *)
Lemma wp_link_float Q er h qd fl fl' tc r p n ks : fl ≡ₚ tc :: r :: fl' -> Forest h qd fl -> (p, n, ks) ∈ nodes r -> n_dom n = -1 ->
  Z.of_nat (base.size (hp_events h)) < two32 ->
  (forall h', hp_queue h' = hp_queue h -> hp_next h' = hp_next h -> (base.size (hp_events h') <= base.size (hp_events h))%nat ->
     Forest h' qd (graft p tc r :: fl') -> Q (root tc) (er, h')) ->
  wp (WM.link p (root tc)) Q (er, h).
Proof.
  intros HP HF Hp Hd Hsz HQ. rewrite HP in HF. unfold WM.link. wp_steps. cbn [fst snd].
  assert (Hin : (p, n, ks) ∈ flat_map nodes (qd.*1 ++ r :: fl')) by (apply elem_flat_map; exists r; split; [set_solver|done]).
  destruct (forest_addChild (CR.ev_fuel h) h qd (r :: fl') tc p n ks HF Hin Hsz) as (h'&E&E1&E2&E3&HF').
  { pose proof (forest_nodes_le h qd (tc :: r :: fl') tc HF ltac:(set_solver)). unfold CR.ev_fuel. lia. }
  eapply wp_WM_onHeap; [exact E|]. apply HQ; try done. rewrite Hd in HF'. change (joined (-1) tc) with tc in HF'.
  destruct (forest_fl_nd _ _ _ _ HF) as (_&HN&_&_). rewrite <- Permutation_middle in HN. cbn in HN. apply list.NoDup_app in HN as (_&HN&_).
  assert (Hpr : p ∈ ids r) by (apply elem_ids; by exists n, ks). specialize (HN p Hpr). rewrite flat_map_app' in HN. apply not_elem_of_app in HN as [Hq Hf].
  cbn [map] in HF'. rewrite (graft_out_list p tc fl') in HF' by done.
  replace ((fun x => (graft p tc x.1, x.2)) <$> qd) with qd in HF'; [done|].
  clear -Hq. induction qd as [|[t c] qd IH]; [done|]. cbn in *. apply not_elem_of_app in Hq as [H1 H2]. by rewrite <- IH, graft_out.
Qed.

Section Port.
Context (w : WM.t) (latency zeroLoadLatency : Z).
Context (Hw : WM.init latency zeroLoadLatency 0 = Ok w) (Hz : 0 <= zeroLoadLatency) (Hl : 0 < latency <= 2 ^ 18).

Lemma w_fields : zeroLoadLatency <= latency /\ WM.latency w = latency /\ WM.zeroLoadLatency w = zeroLoadLatency /\ WM.domain w = 0 /\
  0 <= WM.preDelay w /\ 0 <= WM.postDelay w /\ WM.preDelay w + WM.postDelay w = zeroLoadLatency.
Proof.
  unfold WM.init in Hw. destruct (Z.leb_spec zeroLoadLatency latency) as [Hle|]; [|done]. cbn in Hw. injection Hw as <-. cbn.
  assert (Hd : 0 <= zeroLoadLatency / 2 <= zeroLoadLatency) by (split; [apply Z.div_pos; lia|apply Z.div_le_upper_bound; lia]).
  rewrite u32_small by (unfold two32; lia). split_and!; try done; lia.
Qed.

Definition mem_node (g c : Z) : node :=
  mkNd (ClsMem (latency - zeroLoadLatency)) (WM.preDelay w) (WM.postDelay w) 0 c (c - g).

Lemma mem_dur g c : dur (mem_node g c) = latency.
Proof. destruct w_fields as (?&_&_&_&_&_&?). unfold dur. cbn. lia. Qed.
Lemma mem_timed g c p : 0 <= g -> Timed g (Tr p (mem_node g c) []).
Proof. intros Hg. destruct w_fields as (?&_&_&_&?&_&?). constructor; [|done|done]. split; cbn; [lia|done|done]. Qed.

Lemma wm_access_spec er h qd fl a c type g Q : Forest h qd fl -> hasRecord er = false -> type <> PUTS ->
  0 <= c < 2 ^ 62 ->
  (forall h', hp_queue h' = hp_queue h -> hp_next h' = S (hp_next h) -> (base.size (hp_events h') <= S (base.size (hp_events h)))%nat ->
     Forest h' qd (Tr (hp_next h) (mem_node g c) [] :: fl) ->
     Q (c + zeroLoadLatency) (er_with_tr er (mkRecord a c (c + zeroLoadLatency) type (Some (hp_next h)) (Some (hp_next h))), h')) ->
  wp (WM.access w a c type) Q (er, h).
Proof.
  intros HF Hn Ht Hc HK. destruct w_fields as (Hzl&E1&E2&E3&Hpre&Hpost&Hpp). unfold WM.access.
  rewrite E1, E2, (bool_decide_eq_false_2 (type = PUTS)) by done. rewrite !(u64_small (c + _)) by (unfold two64; lia).
  apply wp_bind, wp_assert; [apply Z.ltb_lt; lia|]. apply wp_bind, wp_assert; [apply Z.leb_le; lia|].
  rewrite (u32_small (c + latency - c)) by (unfold two32; lia).
  apply wp_bind, wp_assert; [apply Z.leb_le; lia|]. rewrite (u32_small (c + latency - c - _)) by (unfold two32; lia).
  replace (c + latency - c - zeroLoadLatency) with (latency - zeroLoadLatency) by lia. wp_steps.
  destruct (forest_new h qd fl (ClsMem (latency - zeroLoadLatency)) (WM.preDelay w) (WM.postDelay w) 0 (c - g) HF) as (h1&Ee&Q1&N1&S1&HF1);
    try (unfold two32; lia); [done|intros ? [= <-]; unfold two32; lia|].
  rewrite E3. eapply wp_WM_onHeap; [exact Ee|]. wp_steps.
  destruct (forest_setMin h1 qd fl _ _ _ c HF1) as (h2&Em&Q2&N2&S2&HF2). eapply wp_WM_onHeap; [exact Em|]. wp_steps.
  apply wp_push; [done|done|]. wp_steps. apply HK; [congruence|congruence|lia|exact HF2].
Qed.

(** The routes that the caches may take. *)
Definition route_ok (r : WM.Route) : Prop :=
  match r with
  | WM.Hit lat => 0 <= lat <= 2 ^ 18
  | WM.Miss up down type => 0 <= up <= 2 ^ 18 /\ 0 <= down <= 2 ^ 18 /\ IsGet type = true
  | WM.HitEvict upW lat => 0 <= upW <= lat /\ lat <= 2 ^ 18
  | WM.MissEvict upW up down type => 0 <= upW <= 2 ^ 18 /\ 0 <= up <= 2 ^ 18 /\ 0 <= down <= 2 ^ 18 /\ IsGet type = true
  end.

(** The stitch of a miss [a] and a writeback [b], as the cache builds it. *)
Definition stitched (g c cw ca : Z) (b : nat) : tree :=
  let dly d := mkNd ClsDelay d 0 (-1) c (c - g) in
  Tr (S (S b)) (dly 0) [Tr (S (S (S b))) (dly (cw - c)) [Tr b (mem_node g cw) []];
                        Tr (S (S (S (S b)))) (dly (ca - c)) [Tr (S b) (mem_node g ca) []]].

Lemma stitch_spec er h qd b g c ra rw Q :
  Forest h qd [Tr (S b) (mem_node g (tr_reqCycle ra)) []; Tr b (mem_node g (tr_reqCycle rw)) []] -> hp_next h = S (S b) ->
  er_tr er = ra -> tr_startEvent ra = Some (S b) -> tr_startEvent rw = Some b ->
  0 <= c <= tr_reqCycle ra -> c <= tr_reqCycle rw -> tr_reqCycle ra - c < two32 -> tr_reqCycle rw - c < two32 ->
  Z.of_nat (base.size (hp_events h)) + 3 < two32 ->
  (forall h', hp_queue h' = hp_queue h -> (base.size (hp_events h') <= base.size (hp_events h) + 3)%nat ->
     Forest h' qd [stitched g c (tr_reqCycle rw) (tr_reqCycle ra) b] ->
     Q tt (er_with_tr er (mkRecord (tr_addr ra) c (tr_respCycle ra) (tr_type ra) (Some (S (S b))) (tr_endEvent ra)), h')) ->
  wp (WM.stitch rw c) Q (er, h).
Proof.
  intros HF Hnx Her Hsa Hsw Hca Hcw Hda Hdw Hsz HK. set (ta := Tr (S b) _ _) in HF. set (tw := Tr b _ _) in HF.
  unfold WM.stitch. wp_steps. cbn [fst snd]. assert (Hhr : hasRecord er = true) by (unfold hasRecord, tr_isValid; rewrite Her, Hsa; done).
  rewrite Hhr. cbn [negb]. wp_steps. apply wp_pop. rewrite Her. apply wp_bind, wp_assert; [apply Z.leb_le; lia|]. apply wp_bind, wp_assert; [apply Z.leb_le; lia|].
  rewrite !u32_small by lia. wp_steps.
  assert (Hnew : forall h0 fl d, Forest h0 qd fl -> 0 <= d < two32 -> exists h1, new_DelayEvent d h0 = Ok (hp_next h0, h1) /\ hp_queue h1 = hp_queue h0 /\
    hp_next h1 = S (hp_next h0) /\ (base.size (hp_events h1) <= S (base.size (hp_events h0)))%nat /\
    Forest h1 qd (Tr (hp_next h0) (mkNd ClsDelay d 0 (-1) (two64 - 1) (c - g)) [] :: fl)).
  { intros h0 fl d HF0 Hd. by apply forest_new. }
  destruct (Hnew h _ 0 HF ltac:(done)) as (h1&E1&Q1&N1&S1&HF1). eapply wp_WM_onHeap; [exact E1|]. wp_steps.
  destruct (Hnew h1 _ (tr_reqCycle rw - c) HF1 ltac:(lia)) as (h2&E2&Q2&N2&S2&HF2). eapply wp_WM_onHeap; [exact E2|]. wp_steps.
  destruct (Hnew h2 _ (tr_reqCycle ra - c) HF2 ltac:(lia)) as (h3&E3&Q3&N3&S3&HF3). eapply wp_WM_onHeap; [exact E3|]. wp_steps.
  rewrite N2, N1, Hnx in *. clear Hnew.
  set (st := Tr (S (S b)) _ _) in HF3. set (dw := Tr (S (S (S b))) _ _) in HF3. set (da := Tr (S (S (S (S b)))) _ _) in HF3.
  destruct (forest_min h3 qd _ _ (S (S b)) _ [] c (delete_Permutation [da; dw; st; ta; tw] 2 st eq_refl) HF3) as (h4&E4&Q4&N4&S4&HF4).
  eapply wp_WM_onHeap; [exact E4|]. wp_steps. cbn [delete list_delete] in HF4. set (st' := Tr (S (S b)) _ _) in HF4.
  destruct (forest_min h4 qd _ _ (S (S (S b))) _ [] c (delete_Permutation [st'; da; dw; ta; tw] 2 dw eq_refl) HF4) as (h5&E5&Q5&N5&S5&HF5).
  eapply wp_WM_onHeap; [exact E5|]. wp_steps. cbn [delete list_delete] in HF5. set (dw' := Tr (S (S (S b))) _ _) in HF5.
  destruct (forest_min h5 qd _ _ (S (S (S (S b)))) _ [] c (delete_Permutation [dw'; st'; da; ta; tw] 2 da eq_refl) HF5) as (h6&E6&Q6&N6&S6&HF6).
  eapply wp_WM_onHeap; [exact E6|]. wp_steps. cbn [delete list_delete] in HF6. set (da' := Tr (S (S (S (S b)))) _ _) in HF6.
  apply wp_lift. rewrite Hsw. cbn [from_opt rwp]. wp_steps. apply wp_lift. rewrite Hsa. cbn [from_opt rwp]. wp_steps.
  assert (Hb1 : b <> S (S b) /\ b <> S (S (S b)) /\ b <> S (S (S (S b))) /\ S b <> b) by lia.
  eapply (wp_link_float _ _ h6 qd _ _ dw' st' (S (S b))); [exact (perm_two [da'; dw'; st'; ta; tw] 1 1 dw' st' eq_refl eq_refl)|exact HF6|apply list_elem_of_here|done|lia|].
  intros h7 Q7 N7 S7 HF7. unfold st' in HF7. cbn [graft map app] in HF7. rewrite decide_True in HF7 by done. cbn [app delete list_delete] in HF7.
  wp_steps. set (r7 := Tr (S (S b)) _ _) in HF7.
  eapply (wp_link_float _ _ h7 qd _ _ tw r7 (S (S (S b)))); [exact (perm_two [r7; da'; ta; tw] 3 0 tw r7 eq_refl eq_refl)|exact HF7|cbn; apply list_elem_of_further, list_elem_of_here|done|lia|].
  intros h8 Q8 N8 S8 HF8. unfold r7, dw' in HF8. cbn [graft map app] in HF8. decides HF8. cbn [app delete list_delete] in HF8.
  wp_steps. set (r8 := Tr (S (S b)) _ _) in HF8.
  eapply (wp_link_float _ _ h8 qd _ _ da' r8 (S (S b))); [exact (perm_two [r8; da'; ta] 1 0 da' r8 eq_refl eq_refl)|exact HF8|apply list_elem_of_here|done|lia|].
  intros h9 Q9 N9 S9 HF9. unfold r8, tw in HF9. cbn [graft map app] in HF9. decides HF9. cbn [app delete list_delete] in HF9.
  wp_steps. set (r9 := Tr (S (S b)) _ _) in HF9.
  eapply (wp_link_float _ _ h9 qd _ _ ta r9 (S (S (S (S b))))); [exact (perm_two [r9; ta] 1 0 ta r9 eq_refl eq_refl)|exact HF9|cbn; do 3 apply list_elem_of_further; apply list_elem_of_here|done|lia|].
  intros h10 Q10 N10 S10 HF10. wp_steps.
  apply wp_push; [done|done|]. apply HK; [congruence|lia|].
  cbn in HF10. decides HF10. exact HF10.
Qed.

Lemma delay_timed g c d p ks : Forall (fun k => n_lab (nd k) <= c - g + d) ks -> Forall (Timed g) ks ->
  Timed g (Tr p (mkNd ClsDelay d 0 (-1) c (c - g)) ks).
Proof. intros HL HT. constructor; [by split| |done]. elems. intros k Hk. specialize (HL k Hk). unfold dur. cbn. lia. Qed.

(** The two records that one event makes. *)
Lemma record_mem h qd g c c' a b r type e : Forest h qd [Tr b (mem_node g r) []] -> 0 <= g -> c <= r <= c' ->
  (IsGet type = true /\ e = Some b /\ r + zeroLoadLatency <= c' \/ IsPut type = true /\ IsGet type = false) ->
  RecordOK g c c' (mkRecord a r (r + zeroLoadLatency) type (Some b) e) h qd.
Proof.
  intros HF Hg Hc Ht. destruct w_fields as (?&_). unfold RecordOK. cbn. exists (Tr b (mem_node g r) []). split_and!; try done; try lia.
  - intros j. by apply nocore_Tr.
  - by constructor.
  - by apply mem_timed.
  - destruct Ht as [(Ht&->&?)|[Ht Hn]]; [rewrite Ht|by rewrite Hn]. split; [lia|]. exists b, (mem_node g r), []. split_and!; [done|apply list_elem_of_here|done|].
    rewrite mem_dur. cbn. lia.
Qed.

Lemma record_stitched h qd g c c' cw ca a b type : Forest h qd [stitched g c cw ca b] -> 0 <= g -> c <= cw -> c <= ca -> ca + zeroLoadLatency <= c' ->
  IsGet type = true -> RecordOK g c c' (mkRecord a c (ca + zeroLoadLatency) type (Some (S (S b))) (Some (S b))) h qd.
Proof.
  intros HF Hg Hcw Hca Hc' Ht. destruct w_fields as (?&_). unfold RecordOK. cbn. exists (stitched g c cw ca b). split_and!; try done; try lia.
  - intros j. by repeat constructor.
  - repeat constructor.
  - unfold stitched. apply delay_timed; [repeat constructor; cbn; lia|]. constructor; [|constructor; [|done]].
    all: apply delay_timed; [repeat constructor; cbn; lia|]; (constructor; [|done]); by apply mem_timed.
  - rewrite Ht. split; [lia|]. exists (S b), (mem_node g ca), []. split_and!; [done| |done|rewrite mem_dur; cbn; lia].
    cbn. do 4 apply list_elem_of_further. apply list_elem_of_here.
Qed.

Context (route : nat -> AccessKind -> Z -> Z -> WM.Route) (Hroute : forall i k a c, route_ok (route i k a c)).

Lemma cache_port_laws : @PortLaws (WM.cache_port w route).
Proof.
  intros i k a c er h qd g HF Hn Hg Hc Hsz. specialize (Hroute i k a c). destruct w_fields as (Hzl&_).
  assert (Hu : forall z, 0 <= z <= 2 ^ 62 -> u64 z = z) by (intros; apply u64_small; unfold two64; lia).
  unfold port_access, WM.cache_port. destruct (route i k a c) as [lat|up down type|upW lat|upW up down type]; cbn in Hroute.
  - wp_steps. cbn [snd fst]. rewrite Hu by lia. split_and!; try done; try lia. exists (er_tr er). split; [by destruct er|].
    unfold RecordOK. unfold hasRecord in Hn. by rewrite Hn.
  - rewrite (Hu (c + up)) by lia. wp_steps. eapply (wm_access_spec er h qd [] a (c + up) type g); try done; [intros ->; by destruct Hroute as (_&_&?)|lia|].
    intros h' Q1 N1 S1 HF1. wp_steps. cbn [snd fst]. rewrite Hu by lia. split_and!; try done; try lia. eexists. split; [done|].
    apply record_mem; try done; try lia. left. destruct Hroute as (?&?&?). split_and!; try done. lia.
  - rewrite (Hu (c + upW)) by lia. wp_steps. eapply (wm_access_spec er h qd [] a (c + upW) PUTX g); try done; [lia|].
    intros h' Q1 N1 S1 HF1. wp_steps. apply wp_pop. unfold WM.stitch. wp_steps. cbn [fst snd]. apply wp_push; [done|done|]. wp_steps. cbn [snd fst].
    rewrite Hu by lia. split_and!; try done; try lia. eexists. split; [done|]. eapply (record_mem h' qd g c _ a (hp_next h) (c + upW) PUTX None); try done; try lia. by right.
  - rewrite (Hu (c + upW)), (Hu (c + up)) by lia. wp_steps. eapply (wm_access_spec er h qd [] a (c + upW) PUTX g); try done; [lia|].
    intros h' Q1 N1 S1 HF1. wp_steps. apply wp_pop. cbn [fst snd er_tr er_with_tr]. wp_steps.
    eapply (wm_access_spec _ h' qd [_] a (c + up) type g); try done; [intros ->; by destruct Hroute as (_&_&_&?)|lia|].
    intros h2 Q2 N2 S2 HF2. rewrite N1 in N2. wp_steps.
    rewrite N1 in HF2 |- *. set (ra := mkRecord a (c + up) _ _ _ _).
    eapply (stitch_spec _ h2 qd (hp_next h) g c ra); [exact HF2|done|done|done|done|cbn; unfold two32 in *; lia..|].
    intros h3 Q3 S3 HF3. wp_steps. cbn [snd fst]. rewrite Hu by lia. split_and!; try congruence; try lia. eexists. split; [done|].
    apply (record_stitched h3 qd g c _ (c + upW)); [exact HF3|lia..|apply Hroute].
Qed.
End Port.
