(* ===== verification/BoundWeaveSim.v ===== *)
(** * The weave phase keeps the chains

    Running one event of the contention simulation moves the chain of the recorder it
    belongs to and leaves the others; the slack of a recorder only grows. *)

From S2P Require Import Prelude Bithacks MemHier TimingEvent EventTree CoreRecorder BoundWeave BoundWeaveInv.

(** In the weave phase: the last event of recorder [i] that was simulated had slack [sl],
    or its first event is still to come in this phase. *)
Definition SeenW (i : nat) (r : CR.t) (sl lim : Z) (n : node) (c : Z) : Prop :=
  (0 <= CR.lastOrigStart r /\ CR.lastStart r - CR.lastOrigStart r = sl /\ CR.lastStart r <= lim) \/
  (core_of n = Some i /\ c < lim /\ sl = CR.gapCycles r).

Record Going (i : nat) (r : CR.t) (lim : Z) (qd : list (tree * Z)) (x : nat) (nx : node) (sl : Z) : Prop := {
  go_prev : CR.prevRespEvent r = Some x;
  go_core : core_of nx = Some i;
  go_run : CR.state r = CR.RUNNING -> lim <= n_lab nx + CR.gapCycles r;
  go_end : CR.prevRespCycle r - CR.gapCycles r <= n_lab nx + dur nx;
  go_sl : CR.gapCycles r <= sl;
  go_chain : HasChain i x nx sl (SeenW i r sl lim) qd [] }.

(** The last event of a recorder that drains was simulated. *)
Record Gone (i : nat) (r : CR.t) (lim : Z) (qd : list (tree * Z)) : Prop := {
  gn_prev : CR.prevRespEvent r = None;
  gn_state : CR.state r = CR.DRAINING;
  gn_free : Free i qd [];
  gn_last : 0 <= CR.lastOrigStart r /\ CR.gapCycles r <= CR.lastStart r - CR.lastOrigStart r /\ CR.lastStart r <= lim }.

Record Woven (i : nat) (s : TC.t) (lim : Z) (qd : list (tree * Z)) : Prop := {
  wv_state : CR.state (TC.cRec s) <> CR.HALTED;
  wv_cur : lim <= TC.curCycle s;
  wv_gap : 0 <= CR.gapCycles (TC.cRec s) <= CR.prevRespCycle (TC.cRec s);
  wv_room : CR.prevRespCycle (TC.cRec s) <= TC.curCycle s;
  wv_ev : (exists x nx sl, Going i (TC.cRec s) lim qd x nx sl) \/ Gone i (TC.cRec s) lim qd }.

Definition CoreW (i : nat) (s : TC.t) (glob lim : Z) (qd : list (tree * Z)) : Prop :=
  CR.domain (TC.cRec s) = 0 /\ hasRecord (CR.eventRecorder (TC.cRec s)) = false /\
  (Halted i s glob qd \/ Woven i s lim qd).

Lemma cons_perm_cases {A} (x y : A) l l' : x :: l ≡ₚ y :: l' ->
  (x = y /\ l ≡ₚ l') \/ exists k, l ≡ₚ y :: k /\ l' ≡ₚ x :: k.
Proof.
  intros HP. assert (Hy : y ∈ x :: l) by (rewrite HP; apply list_elem_of_here).
  apply elem_of_cons in Hy as [->|Hy]; [left; split; [done|]; by eapply Permutation_cons_inv|].
  right. apply list_elem_of_split in Hy as (l1&l2&->). exists (l1 ++ l2). split; [by rewrite Permutation_middle|].
  rewrite <- Permutation_middle in HP. rewrite perm_swap in HP. symmetry. by eapply Permutation_cons_inv.
Qed.

(** The arrival at the children of a root that starts at [c]. *)
Definition arrive (t : tree) (c : Z) : Z := c - n_pre (nd t) + dur (nd t).

(** The slack of the trees that a run queues. *)
Lemma run_slack g t c sl y : Timed g t -> n_lab (nd t) + sl <= c - n_pre (nd t) ->
  y ∈ flat_map (fun k => frontier k (arrive t c)) (kids t) ->
  Timed g y.1 /\ n_lab (nd y.1) + sl <= y.2 - n_pre (nd y.1).
Proof.
  intros HT Hs (k&Hk&Hy)%elem_flat_map. destruct t as [p n ks]. inversion HT as [? ? ? H1 H3 H4]; subst. cbn in *. elems.
  destruct (frontier_timed g k (H4 k Hk) _ _ Hy) as [HT' Hs']. split; [done|]. specialize (H3 k Hk). unfold arrive in Hs'. cbn in Hs'. lia.
Qed.

(** The roots of a frontier are events with a simulation of their own. *)
Lemma frontier_root t : forall s y, y ∈ frontier t s -> n_class (nd y.1) <> ClsDelay /\ forall z, z ∈ nodes y.1 -> z ∈ nodes t.
Proof.
  induction t as [q m kq IH] using tree_ind'. intros s y Hy.
  assert (Hend : n_class m <> ClsDelay -> y ∈ [(Tr q m kq, s + n_pre m)] ->
    n_class (nd y.1) <> ClsDelay /\ forall z, z ∈ nodes y.1 -> z ∈ nodes (Tr q m kq)) by (by intros Hm ->%list_elem_of_singleton).
  cbn [frontier] in Hy. destruct (n_class m); try by apply Hend. apply elem_flat_map in Hy as (k&Hk&Hy). elems.
  destruct (IH k Hk _ _ Hy) as [H1 H2]. split; [done|]. intros z Hz. cbn. apply elem_of_cons. right. apply elem_flat_map. eauto.
Qed.

Lemma run_qok t c qd0 fr : Forall QOK ((t, c) :: qd0) -> fr ≡ₚ flat_map (fun k => frontier k (arrive t c)) (kids t) -> Forall QOK (fr ++ qd0).
Proof.
  intros [(g&HT&Hs&HD&_) HQ]%list.Forall_cons HP. cbn in *. apply Forall_app. split; [|done]. rewrite HP. elems. intros y Hy.
  destruct (run_slack g t c g y HT Hs Hy) as [HT' Hs']. exists g. split; [done|]. split; [done|].
  apply elem_flat_map in Hy as (k&Hk&Hy). destruct (frontier_root _ _ _ Hy) as [Hc Hn]. split; [|done].
  unfold in_dom in *. elems. intros z Hz. apply HD. destruct t as [p n ks]. cbn in *.
  apply elem_of_cons. right. apply elem_flat_map. exists k. auto.
Qed.

Lemma free_run i t c qd0 fr : Free i ((t, c) :: qd0) [] -> fr ≡ₚ flat_map (fun k => frontier k (arrive t c)) (kids t) -> Free i (fr ++ qd0) [].
Proof.
  intros [H1 _] HP. cbn in H1. apply list.Forall_cons in H1 as [H1 H2]. split; [|done]. rewrite fmap_app. apply Forall_app. split; [|done].
  rewrite HP. apply Forall_fmap. destruct t as [p n ks]. apply nocore_Tr in H1 as [_ H1]. by apply frontiers_nocore.
Qed.

(** The chain of [i] when the run event is not its root. *)
Lemma chain_run_other i x nx sl F t c qd0 fr tj cj rest : Chain i x nx sl F ((t, c) :: qd0) [] tj cj rest ->
  fr ≡ₚ flat_map (fun k => frontier k (arrive t c)) (kids t) ->
  ((t, c) = (tj, cj) /\ qd0 ≡ₚ rest) \/ (nocore i t /\ HasChain i x nx sl F (fr ++ qd0) []).
Proof.
  intros [C1 C2 C3 C4 C5 C6] HP. destruct (cons_perm_cases _ _ _ _ C1) as [[E E']|(k&E1&E2)]; [by left|right].
  assert (Hn : nocore i t). { rewrite E2 in C3. cbn in C3. by apply list.Forall_cons in C3 as [? _]. }
  split; [done|]. exists tj, cj, (fr ++ k). split; try done.
  - rewrite E1. symmetry. apply Permutation_middle.
  - rewrite fmap_app. apply Forall_app. split.
    + rewrite HP. apply Forall_fmap. destruct t as [p n ks]. apply nocore_Tr in Hn as [_ Hn]. by apply frontiers_nocore.
    + rewrite E2 in C3. cbn in C3. by apply list.Forall_cons in C3 as [_ ?].
Qed.

(** The chain of [i] when the run event is its root, and not its last event. *)
Lemma chain_run_root i x nx sl sl' (F F' : node -> Z -> Prop) g t c qd0 fr rest : Chain i x nx sl F ((t, c) :: qd0) [] t c rest -> Timed g t ->
  root t <> x -> n_lab (nd t) + sl' <= c - n_pre (nd t) -> (forall n z, F' n z) ->
  fr ≡ₚ flat_map (fun k => frontier k (arrive t c)) (kids t) -> HasChain i x nx sl' F' (fr ++ qd0) [].
Proof.
  intros [C1 C2 C3 C4 C5 C6] HT Hr Hs HF HP. inversion C2 as [ks Hd Hk E|p n ks1 k ks2 Hk Hn E]; subst t; [by destruct Hr|].
  destruct (frontier_spine i x nx k Hk (arrive (Tr p n (ks1 ++ k :: ks2)) c)) as (t'&c'&rest'&HP'&HS&HR).
  set (s := arrive _ c) in *.
  assert (Hin : (t', c') ∈ flat_map (fun k => frontier k s) (ks1 ++ k :: ks2)).
  { rewrite flat_map_app'. cbn. rewrite HP'. rewrite !elem_of_app, elem_of_cons. auto. }
  exists t', c', (rest' ++ flat_map (fun k => frontier k s) (ks1 ++ ks2) ++ qd0). split; try done.
  - rewrite HP. cbn [kids]. rewrite !flat_map_app'. cbn. rewrite HP'. cbn. rewrite <- !app_assoc. cbn. rewrite <- Permutation_middle. constructor.
    rewrite !app_assoc. f_equiv. f_equiv. apply Permutation_app_comm.
  - rewrite !fmap_app. apply Forall_app. split; [by apply Forall_fmap|]. apply Forall_app. split; [apply Forall_fmap; by apply frontiers_nocore|].
    assert (HPr : qd0 ≡ₚ rest) by by eapply Permutation_cons_inv. by rewrite HPr.
  - by destruct (run_slack g _ c sl' (t', c') HT Hs Hin).
Qed.

Lemma Spine_root i x nx t : Spine i x nx t -> NoDup (ids t) -> root t = x -> nd t = nx /\ Forall (nocore i) (kids t).
Proof.
  intros [ks Hd HF|p n ks1 k ks2 Hk HF] HN E; [done|]. cbn in E. subst p. rewrite ids_cons in HN. apply list.NoDup_cons in HN as [Hx _].
  destruct Hx. apply elem_flat_map. exists k. split; [set_solver|]. by eapply Spine_ids.
Qed.

Lemma nocore_root i t : nocore i t -> core_of (nd t) <> Some i.
Proof. destruct t as [p n ks]. by intros [? _]%nocore_Tr. Qed.

(** One event of the weave phase, seen from the recorder of another core. *)
Lemma core_step_other j s glob lim t c qd0 fr : CoreW j s glob lim ((t, c) :: qd0) -> core_of (nd t) <> Some j ->
  NoDup (ids t) -> QOK (t, c) -> fr ≡ₚ flat_map (fun k => frontier k (arrive t c)) (kids t) -> CoreW j s glob lim (fr ++ qd0).
Proof.
  intros (H1&H2&H3) Hc HN (g&HT&_) HP. split; [done|]. split; [done|]. cbn in HT.
  destruct H3 as [[A1 A2 A3 A4 A5]|[B1 B2 B3 B4 B5]]; [left; split; try done; by eapply free_run|]. right. split; try done.
  destruct B5 as [(x&nx&sl&[G1 G2 G3 G4 G5 (tj&cj&rest&HC)])|[G1 G2 G3 G4]]; [left|right; split; try done; by eapply free_run].
  exists x, nx, sl. split; try done. destruct (chain_run_other _ _ _ _ _ _ _ _ _ _ _ _ HC HP) as [[[= <- <-] Er]|[_ ?]]; [|done].
  eapply (chain_run_root j x nx sl sl); try done; try apply HC.
  - intros E. destruct (Spine_root _ _ _ _ (ch_spine _ _ _ _ _ _ _ _ _ _ HC) HN E) as [En _]. by rewrite En in Hc.
  - destruct (ch_F _ _ _ _ _ _ _ _ _ _ HC) as [Hl|[Hx _]]; [|done]. intros n z. by left.
Qed.

(** The recorder that the event belongs to. *)
Lemma core_step_self i s glob lim t c o qd0 fr : CoreW i s glob lim ((t, c) :: qd0) -> n_class (nd t) = ClsCore i o ->
  NoDup (ids t) -> QOK (t, c) -> c < lim -> fr ≡ₚ flat_map (fun k => frontier k (arrive t c)) (kids t) ->
  exists r, CR.reportEventSimulated (root t) c o (TC.cRec s) = Ok r /\ CoreW i (TC.with_rec r s) glob lim (fr ++ qd0).
Proof.
  intros (H1&H2&H3) Hcl HN (g&HT&_) Hlim HP. cbn in HT.
  assert (Hc : core_of (nd t) = Some i) by (unfold core_of; by rewrite Hcl).
  assert (HTn : o = n_lab (nd t) /\ n_pre (nd t) = 0 /\ 0 <= o) by (inversion HT as [? ? ? [_ Ht _]]; subst; by eapply Ht).
  assert (Hno : Free i ((t, c) :: qd0) [] -> False).
  { intros [HF _]. cbn in HF. apply list.Forall_cons in HF as [HF _]. by apply nocore_root in HF. }
  destruct H3 as [[_ _ A3 _ _]|[B1 B2 B3 B4 [(x&nx&sl&[G1 G2 G3 G4 G5 (tj&cj&rest&HC)])|[_ _ A3 _]]]]; [by destruct Hno| |by destruct Hno].
  destruct (chain_run_other _ _ _ _ _ _ _ _ _ _ _ _ HC HP) as [[[= <- <-] Er]|[Hn _]]; [|by apply nocore_root in Hn].
  pose proof (ch_slack _ _ _ _ _ _ _ _ _ _ HC) as Hsl. destruct HTn as (->&Hpre&Ho).
  unfold CR.reportEventSimulated. cbn [CR.with_last CR.prevRespEvent CR.state].
  assert (Hrec : forall e sl', hasRecord (CR.eventRecorder (CR.set_slack sl' e)) = hasRecord (CR.eventRecorder e)).
  { intros e sl'. cbn. unfold setStartSlack. by destruct (_ =? _). }
  case_bool_decide as Hx; rewrite G1 in Hx.
  - injection Hx as ->. destruct (Spine_root _ _ _ _ (ch_spine _ _ _ _ _ _ _ _ _ _ HC) HN eq_refl) as [<- Hk].
    assert (Hst : CR.state (TC.cRec s) = CR.DRAINING) by (destruct (CR.state (TC.cRec s)) eqn:E; [done|specialize (G3 eq_refl); lia|done]).
    rewrite Hst. cbn [rassert bool_decide decide]. eexists. split; [by case_bool_decide|].
    split; [done|]. split; [cbn [TC.with_rec TC.cRec]; rewrite Hrec; exact H2|]. right. split; cbn; try done. right. split; cbn; try done; [|lia].
    split; [|done]. rewrite fmap_app. apply Forall_app. split.
    + rewrite HP. apply Forall_fmap. by apply frontiers_nocore.
    + rewrite Er. apply HC.
  - eexists. split; [done|]. split; [done|]. split; [cbn [TC.with_rec TC.cRec]; rewrite Hrec; exact H2|]. right. split; cbn; try done. left.
    exists x, nx, (c - n_lab (nd t)). split; cbn; try done; [lia|].
    eapply (chain_run_root i x nx sl); try done; [congruence|lia|]. intros n z. left. cbn. lia.
Qed.

Lemma chain_impl i x nx sl (F F' : node -> Z -> Prop) qd fl : HasChain i x nx sl F qd fl ->
  (forall n c, c ∈ qd.*2 -> F n c -> F' n c) -> HasChain i x nx sl F' qd fl.
Proof.
  intros (t&c&rest&[C1 C2 C3 C4 C5 C6]) HF. exists t, c, rest. split; try done. apply HF; [|done]. rewrite C1. apply list_elem_of_here.
Qed.

Lemma CoreW_keeps i j s glob lim qd qd' : CoreW j s glob lim qd -> j <> i -> Keeps i qd [] qd' [] -> CoreW j s glob lim qd'.
Proof.
  intros (H1&H2&H3) Hj HK. split; [done|]. split; [done|].
  destruct H3 as [[A1 A2 A3 A4 A5]|[B1 B2 B3 B4 B5]]; [left; split; try done; by apply (k_free _ _ _ _ _ HK)|]. right. split; try done.
  destruct B5 as [(x&nx&sl&[G1 G2 G3 G4 G5 G6])|[G1 G2 G3 G4]]; [left|right; split; try done; by apply (k_free _ _ _ _ _ HK)].
  exists x, nx, sl. split; try done. by apply (k_chain _ _ _ _ _ HK).
Qed.

(** ** Into the weave phase *)

(** The clocks are far from wrapping around, and the core ran to the end of the phase. *)
Definition PhaseDone (zi : Zinfo) (s : TC.t) : Prop :=
  CR.state (TC.cRec s) = CR.RUNNING -> globPhaseCycles zi + phaseLength zi <= TC.curCycle s < 2 ^ 61 /\
    TC.curCycle s - CR.prevRespCycle (TC.cRec s) < two32.

(** What the beginning of the simulation leaves of a core. *)
Record Entered (lim : Z) (s s' : TC.t) : Prop := {
  en_state : CR.state (TC.cRec s') = CR.state (TC.cRec s);
  en_gap : CR.gapCycles (TC.cRec s') = CR.gapCycles (TC.cRec s);
  en_cycle : TC.curCycle s' = TC.curCycle s \/ CR.state (TC.cRec s) = CR.DRAINING /\ TC.curCycle s' = Z.max (TC.curCycle s) lim }.

Lemma cSimStart_spec i zi s h qd Q : CoreI i s (globPhaseCycles zi) h qd -> Forest h qd [] -> Forall QOK qd -> hp_queue h = [] ->
  PhaseDone zi s -> 0 <= globPhaseCycles zi -> 0 < phaseLength zi -> globPhaseCycles zi + phaseLength zi < 2 ^ 61 ->
  Z.of_nat (base.size (hp_events h)) + 2 < two32 ->
  (forall s' h' qd', let lim := globPhaseCycles zi + phaseLength zi in
     CoreW i s' (globPhaseCycles zi) lim qd' -> Forest h' qd' [] -> Forall QOK qd' -> hp_queue h' = [] -> Keeps i qd [] qd' [] -> Entered lim s s' ->
     (base.size (hp_events h') <= base.size (hp_events h) + 2)%nat -> Q tt (s', h')) ->
  wp (TC.cSimStart i zi) Q (s, h).
Proof.
  intros (H1&H2&H3) HF HQ Hq HP Hg Hlen Hlim Hsz HK. unfold TC.cSimStart. wp_steps. cbn [fst snd]. apply wp_TC_onRec.
  set (lim := globPhaseCycles zi + phaseLength zi) in *.
  destruct (CR.state (TC.cRec s)) eqn:Hst.
  - unfold CR.cSimStart. wp_steps. cbn [fst snd]. rewrite Hst. wp_steps. unfold TC.onCore. wp_steps. cbn [fst snd].
    assert (E : TC.with_cycle (TC.curCycle s) (TC.with_rec (TC.cRec s) s) = s) by by destruct s. rewrite E.
    apply (HK s h qd); try done; [|split; auto|lia]. split; [done|]. split; [done|]. left.
    destruct H3 as [?|(x&nx&[])]; [done|congruence].
  - destruct H3 as [[]|(x&nx&[HB Hh Hdr Hp Hgl])]; [congruence|]. destruct (HP Hst) as [Hc Hd]. pose proof (bi_gap _ _ _ _ _ _ _ HB).
    eapply (cSimStart_running i zi (TC.cRec s) h qd x nx); try done; try lia.
    intros h' y ny qd' r' HB' Hcy Hly HK' Hs'. cbn [fst snd]. unfold TC.onCore. wp_steps. cbn [fst snd].
    destruct HB' as [B1 B2 B3 B4 B5 B6 B7 B8]. cbn in B5, B6, B8.
    apply (HK (TC.with_cycle (TC.curCycle s) (TC.with_rec r' s)) h' qd'); try done; [|by split; auto].
    split; [done|]. split; [done|]. right. split; cbn; try done; try lia. left. exists y, ny, (CR.gapCycles (TC.cRec s)). split; cbn; try done; [lia|].
    eapply chain_impl; [exact B4|]. intros n c _ [(?&?&?)|[? ?]]; [left; cbn; lia|right; split; [done|cbn; lia]].
  - destruct H3 as [[]|(x&nx&[HB Hh Hdr Hp Hgl])]; [congruence|]. unfold CR.cSimStart. wp_steps. cbn [fst snd]. rewrite Hst. wp_steps. cbn [fst snd].
    destruct HB as [B1 B2 B3 B4 B5 B6 B7 B8]. change (globPhaseCycles zi + phaseLength zi) with lim. rewrite (u64_small lim) by (unfold two64; lia).
    unfold TC.onCore. wp_steps. cbn [fst snd]. set (c := if _ <? _ then _ else _).
    assert (Ec : c = Z.max (TC.curCycle s) lim) by (unfold c; destruct (Z.ltb_spec (TC.curCycle s) lim); lia).
    apply (HK (TC.with_cycle c (TC.with_rec (TC.cRec s) s)) h qd); try done; [|split; auto|lia].
    split; [done|]. split; [done|]. right. split; cbn; try done; try lia. left. exists x, nx, (CR.gapCycles (TC.cRec s)). split; cbn; try done; auto; [congruence|].
    eapply chain_impl; [exact B4|]. intros n z _ [(?&?&?)|[? ?]]; [left; cbn; lia|right; split; [done|cbn; lia]].
Qed.

(** ** Back from the weave phase *)

(** The contention-free clock of a core, which the contention simulation does not move. *)
Definition zll (s : TC.t) : Z := TC.curCycle s - CR.gapCycles (TC.cRec s).

Record Delayed (s s' : TC.t) : Prop := {
  de_zll : zll s' = zll s;
  de_gap : CR.gapCycles (TC.cRec s) <= CR.gapCycles (TC.cRec s');
  de_state : CR.state (TC.cRec s') = CR.state (TC.cRec s) \/ CR.state (TC.cRec s) = CR.DRAINING /\ CR.state (TC.cRec s') = CR.HALTED }.

Lemma cSimEnd_spec i s glob lim h qd Q : CoreW i s glob lim qd -> Forest h qd [] -> Forall QOK qd -> hp_queue h = [] ->
  Forall (fun c => lim <= c) qd.*2 -> 0 <= glob <= lim -> lim < 2 ^ 61 -> TC.curCycle s < 2 ^ 61 ->
  (forall s', CoreI i s' lim h qd -> Delayed s s' -> TC.curCycle s <= TC.curCycle s' -> Q tt (s', h)) ->
  wp TC.cSimEnd Q (s, h).
Proof.
  intros (H1&H2&H3) HF HQ Hq Hlate Hgl Hlim Hcur HK. unfold TC.cSimEnd. wp_steps. cbn [fst snd]. apply wp_TC_onRec.
  unfold CR.cSimEnd. wp_steps. cbn [fst snd]. destruct H3 as [[A1 A2 A3 A4 A5]|[B1 B2 B3 B4 B5]].
  { rewrite A1. wp_steps. unfold TC.onCore. wp_steps. cbn [fst snd].
    assert (E : TC.with_cycle (TC.curCycle s) (TC.with_rec (TC.cRec s) s) = s) by by destruct s. rewrite E.
    apply HK; [|by split; auto|done]. split; [done|]. split; [done|]. left. split; try done. lia. }
  assert (Hlast : exists sl, 0 <= CR.lastOrigStart (TC.cRec s) /\ CR.lastStart (TC.cRec s) - CR.lastOrigStart (TC.cRec s) = sl /\
    CR.lastStart (TC.cRec s) <= lim /\ CR.gapCycles (TC.cRec s) <= sl /\
    ((exists x nx, Going i (TC.cRec s) lim qd x nx sl) \/ Gone i (TC.cRec s) lim qd)).
  { destruct B5 as [(x&nx&sl&HG)|HG].
    - exists sl. destruct (HG) as [_ _ _ _ Hs (t&c&rest&HC)]. assert (Hc : lim <= c).
      { elems. apply Hlate. rewrite (ch_perm _ _ _ _ _ _ _ _ _ _ HC). apply list_elem_of_here. }
      destruct (ch_F _ _ _ _ _ _ _ _ _ _ HC) as [(?&?&?)|(_&?&_)]; [|lia]. split_and!; try done. left. by exists x, nx.
    - eexists. destruct (HG) as [_ _ _ (?&?&?)]. split_and!; try done. by right. }
  destruct Hlast as (sl&L1&L2&L3&L4&HG). destruct (CR.state (TC.cRec s)) eqn:Hst; [done| |].
  all: rewrite (u64_small (CR.lastOrigStart _ + _)) by (unfold two64; lia); wp_steps; (apply wp_assert; [apply Z.leb_le; lia|]); wp_steps;
    (apply wp_assert; [apply Z.leb_le; lia|]); wp_steps; (apply wp_assert; [apply negb_true_iff, Z.ltb_ge; lia|]); wp_steps; unfold CR.onRec; wp_steps; cbn [fst snd].
  all: set (skew := u64 (CR.lastStart _ - _)); assert (Esk : skew = sl - CR.gapCycles (TC.cRec s)) by (unfold skew; rewrite u64_small; unfold two64; lia);
    cbn [CR.gapCycles CR.prevRespCycle CR.prevRespEvent CR.with_prev];
    rewrite (u64_small (TC.curCycle s + skew)), (u64_small (CR.gapCycles (TC.cRec s) + skew)), (u64_small (CR.prevRespCycle (TC.cRec s) + skew)) by (unfold two64; lia).
  all: destruct HG as [(x&nx&[G1 G2 G3 G4 G5 G6])|[G1 G2 [G3 G3'] G4]]; try congruence.
  1,2: rewrite G1; cbn [bool_decide]; (rewrite bool_decide_eq_false_2 by done); wp_steps; unfold TC.onCore; wp_steps; cbn [fst snd];
    apply HK; [|split; unfold zll; cbn; auto; lia|cbn; lia]; (split; [done|]); (split; [done|]); right; exists x, nx; split; cbn; try done; try congruence; try lia.
  1,2: split; cbn; try done; try congruence; try lia; (replace (CR.gapCycles (TC.cRec s) + skew) with sl by lia);
    (eapply chain_impl; [exact G6|]); intros n c Hc [(?&?&?)|(_&?&_)]; [left; cbn; lia|]; elems; specialize (Hlate _ Hc); lia.
  rewrite G1, bool_decide_eq_true_2 by done. wp_steps. apply wp_assert; [done|]. wp_steps. cbn [fst snd]. unfold TC.onCore. wp_steps. cbn [fst snd].
  apply HK; [|split; unfold zll; cbn; auto; lia|cbn; lia]. split; [done|]. split; [done|]. left. split; cbn; try done; lia.
Qed.
