(* ===== verification/BoundWeavePQ.v ===== *)
(** * prio_queue.h keeps the promises of the contention simulator's queue

    The links of the objects that are not queued are null: [dequeue] resets the link of the
    object that it returns and leaves those of the objects outside the queue. *)

From S2P Require Import Prelude Bithacks PrioQueue MemHier TimingEvent CoreRecorder BoundWeave.
Import PQ.

(** [m] leaves the link of [o], which is not among the far objects. *)
Definition leaves {A} (o : nat) (m : M t A) : Prop := forall q a q',
  m q = Ok (a, q') -> o ∉ (feMap q).*2 -> next q' o = next q o /\ o ∉ (feMap q').*2.

Lemma leaves_bind {A C} o (m : M t A) (k : A -> M t C) : leaves o m -> (forall a, leaves o (k a)) -> leaves o (m ≫= k).
Proof.
  intros Hm Hk q a q' E Ho. unfold mbind, M_bind in E. destruct (m q) as [[b q1]|] eqn:E1; [|done].
  destruct (Hm _ _ _ E1 Ho) as [H1 H2]. destruct (Hk _ _ _ _ E H2) as [H3 H4]. split; [congruence|done].
Qed.
Lemma leaves_id {A} o (m : M t A) : (forall q a q', m q = Ok (a, q') -> next q' o = next q o /\ feMap q' = feMap q) -> leaves o m.
Proof. intros H q a q' E Ho. destruct (H _ _ _ E) as [H1 H2]. by rewrite H2. Qed.

Lemma leaves_block_enqueue o obj i pos : o <> obj -> leaves o (block_enqueue obj i pos).
Proof.
  intros Hne. apply leaves_id. intros q a q' E. unfold block_enqueue in E.
  destruct (arr_get (blocks q) i); [cbn in E|done]. destruct (rassert _ _); [cbn in E|done].
  destruct (arr_get _ pos); [cbn in E|done]. injection E as <- <-. cbn. split; [|done]. by rewrite upd_ne.
Qed.

Section PQ.
Context (B : nat).

Lemma leaves_move_far o topCycle f q a q' : move_far B topCycle f q = Ok (a, q') -> o ∉ f.*2 -> o ∉ (feMap q).*2 ->
  next q' o = next q o /\ o ∉ a.*2.
Proof.
  intros E Hf Ho. enough (H : next q' o = next q o /\ o ∉ a.*2) by done. revert q E Ho.
  induction f as [|[cycle obj] f IH]; intros q E Ho; [by injection E as <- <-|].
  cbn [move_far] in E. destruct (cycle <? topCycle); [|by injection E as <- <-].
  cbn in Hf. apply not_elem_of_cons in Hf as [Hne Hf].
  unfold mbind, M_bind in E. cbn in E. destruct (massert _ _ q) as [[? q1]|] eqn:E1; [|done].
  assert (q1 = q) as ->. { unfold massert in E1. by destruct (_ <=? _); simplify_eq. }
  destruct (massert _ _ q) as [[? q1]|] eqn:E2; [|done].
  assert (q1 = q) as ->. { unfold massert in E2. by destruct (_ <? _); simplify_eq. }
  destruct (block_enqueue _ _ _ q) as [[? q1]|] eqn:E3; [|done].
  destruct (leaves_block_enqueue _ _ _ _ Hne _ _ _ E3 Ho) as [H1 H2].
  destruct (IH Hf q1 E H2) as [H3 H4]. split; [congruence|done].
Qed.

Lemma leaves_advance o : leaves o (advance B).
Proof.
  unfold advance. apply leaves_bind; [apply leaves_id; by intros q a q' [= <- <-]|]. intros _ q a q' E Ho.
  unfold mbind, M_bind in E. cbn in E. destruct (_ && _); [|by injection E as <- <-].
  destruct (move_far _ _ _ q) as [[f q1]|] eqn:E1; [|done]. injection E as <- <-. cbn.
  by destruct (leaves_move_far _ _ _ _ _ _ E1 Ho Ho).
Qed.

Lemma leaves_seek o fuel : leaves o (seek B fuel).
Proof.
  induction fuel as [|fuel IH]; intros q a q' E Ho; [done|]. cbn [seek] in E. unfold mbind, M_bind in E. cbn in E.
  destruct (mlift _ q) as [[b q1]|] eqn:E1; [|done].
  assert (q1 = q) as ->. { unfold mlift in E1. by destruct (arr_get _ _); simplify_eq. }
  destruct (occ b =? 0); [|by injection E as <- <-].
  destruct (advance B q) as [[? q1]|] eqn:E2; [|done]. destruct (leaves_advance _ _ _ _ E2 Ho) as [H1 H2].
  destruct (IH _ _ _ E H2) as [H3 H4]. split; [congruence|done].
Qed.

Lemma dequeue_leaves o fuel q o1 c q' : dequeue B fuel q = Ok ((o1, c), q') -> o <> o1 -> o ∉ (feMap q).*2 -> next q' o = next q o.
Proof.
  intros E Hne Ho. unfold dequeue, mbind, M_bind in E. cbn in E. destruct (massert _ _ q) as [[? q1]|] eqn:E1; [|done].
  assert (q1 = q) as ->. { unfold massert in E1. by destruct (negb _); simplify_eq. }
  destruct (seek B fuel q) as [[? q1]|] eqn:E2; [|done]. destruct (leaves_seek _ _ _ _ _ E2 Ho) as [H1 H2].
  destruct (block_dequeue _ q1) as [[[o2 off] q2]|] eqn:E3; [|done]. cbn in E. injection E as -> <- <-. cbn.
  rewrite <- H1. unfold block_dequeue in E3. destruct (arr_get (blocks q1) _) as [b|]; [cbn in E3|done].
  destruct (rassert _ _); [cbn in E3|done]. destruct (arr_get _ _) as [hd|]; [cbn in E3|done].
  destruct hd as [o2|]; [cbn in E3|done]. injection E3 as -> <- <-. cbn. by rewrite upd_ne.
Qed.
End PQ.

(** ** The interface *)
Record prio_rep (q : t) (f : Z) (m : gmap nat Z) : Prop := {
  pr_rep : Rep PQ_BLOCKS q m;
  pr_floor : curBlock q <= f / 64;
  pr_none : forall o, m !! o = None -> next q o = None }.

Lemma PQ_BLOCKS_ok : (2 <= PQ_BLOCKS)%nat /\ Nat.Even PQ_BLOCKS.
Proof. split; [by apply Nat.leb_le|apply Nat.even_spec; reflexivity]. Qed.

Lemma prio_enqueue q f m o c : prio_rep q f m -> m !! o = None -> 0 <= f <= c -> c < 2 ^ 63 ->
  Z.of_nat (base.size m) < two32 -> wp (enqueue PQ_BLOCKS o c) (fun _ q' => prio_rep q' f (<[o := c]> m)) q.
Proof.
  intros [HR Hf Hn] Hm Hc Hb Hs. destruct PQ_BLOCKS_ok as [HB HB2].
  assert (f / 64 <= c / 64) by (apply Z.div_le_mono; lia).
  eapply wp_mono; [apply (enqueue_spec PQ_BLOCKS HB HB2 q m o c HR Hm (Hn o Hm)); try lia|].
  - change (Z.of_nat PQ_BLOCKS) with 1024. unfold two64. lia.
  - unfold two32, two64 in *. lia.
  - intros _ q' (HR'&Hcur&Hnx). split; [done|by rewrite Hcur|]. intros o'. rewrite lookup_insert_None. intros [Ho' Hne].
    rewrite Hnx by done. by apply Hn.
Qed.

Lemma prio_dequeue q f m o0 c0 : prio_rep q f m -> m !! o0 = Some c0 ->
  wp pq_dequeue (fun '(o, c) q' => m !! o = Some c /\ (forall o' c', m !! o' = Some c' -> c <= c') /\ prio_rep q' c (delete o m)) q.
Proof.
  intros [HR Hf Hn] Hm. destruct PQ_BLOCKS_ok as [HB HB2].
  destruct (firstCycle_spec PQ_BLOCKS HB HB2 q m o0 c0 HR Hm) as (c1&E1&(o1&Ho1)&Hmin).
  unfold wp. cbn [pq_dequeue prio_EventPQ]. rewrite E1.
  pose proof (dequeue_spec PQ_BLOCKS HB HB2 (S (Z.to_nat (c1 / 64 - curBlock q))) q m o1 c1 HR Ho1 ltac:(lia)) as HW.
  apply wp_elim in HW as ([o c]&q'&E&Hoc&Hle&HR'&Hcur&Hno). rewrite E. split; [done|]. split; [done|]. split; [done|lia|].
  intros o'. rewrite lookup_delete_None. intros [<-|Ho']; [done|]. destruct (decide (o' = o)) as [->|Hne]; [done|].
  rewrite (dequeue_leaves _ _ _ _ _ _ _ E Hne); [by apply Hn|]. destruct HR as [near [HM _]].
  intros ([c2 o2]&->&Hx)%list_elem_of_fmap. cbn in Ho'. assert (m !! o2 = Some c2) by (apply (mi_map _ _ _ _ _ HM); by right). congruence.
Qed.

#[global] Instance prio_PQLaws : PQLaws PQ.t.
Proof.
  destruct PQ_BLOCKS_ok as [HB HB2].
  refine {| pq_rep := prio_rep; pq_rep_enqueue := prio_enqueue; pq_rep_dequeue := prio_dequeue |}.
  - split; [by apply init_Rep|done|done].
  - intros q f f' m [H1 H2 H3] Hf. split; try done. assert (f / 64 <= f' / 64) by (apply Z.div_le_mono; lia). lia.
  - intros q f m [[near HQ] _ _]. apply (qi_m _ _ _ _ HQ).
  - intros q f m o c [HR _ _] Ho. by eapply firstCycle_spec.
Qed.
