(* ===== verification/BoundWeaveLoop.v ===== *)
(** * The contention simulation of one phase

    Every event before the limit is run, in the order of the cycles, and the loop ends.
    The one assertion that may fail is the one against events that are scheduled too far
    ahead: [fwp] allows for it. *)

From S2P Require Import Prelude Bithacks MemHier TimingEvent EventTree CoreRecorder BoundWeave BoundWeaveInv BoundWeaveSim.

(** [m] returns with [Q], or stops at that assertion. *)
Definition fwp {S A} (m : M S A) (Q : A -> S -> Prop) (s : S) : Prop :=
  match m s with Ok (a, s') => Q a s' | Err e => e = Panic CS.far_msg end.

Section Fwp.
Context {S : Type}.
Lemma fwp_wp {A} (m : M S A) Q s : wp m Q s -> fwp m Q s.
Proof. unfold wp, fwp. by destruct (m s) as [[a s']|]. Qed.
Lemma fwp_bind {A B} (m : M S A) (k : A -> M S B) Q s : fwp m (fun a s' => fwp (k a) Q s') s -> fwp (m ≫= k) Q s.
Proof. unfold fwp, mbind, M_bind. by destruct (m s) as [[a s']|]. Qed.
Lemma fwp_wp_bind {A B} (m : M S A) (k : A -> M S B) Q s : wp m (fun a s' => fwp (k a) Q s') s -> fwp (m ≫= k) Q s.
Proof. intros H. apply fwp_bind. by apply fwp_wp. Qed.
Lemma fwp_mono {A} (m : M S A) (Q Q' : A -> S -> Prop) s : fwp m Q s -> (forall a s', Q a s' -> Q' a s') -> fwp m Q' s.
Proof. unfold fwp. destruct (m s) as [[a s']|]; naive_solver. Qed.
Lemma fwp_far {A} b (k : unit -> M S A) Q s : (b = true -> fwp (k tt) Q s) -> fwp (massert b CS.far_msg ≫= k) Q s.
Proof. intros H. apply fwp_bind. unfold fwp at 1, massert. destruct b; [by apply H|done]. Qed.
Lemma fwp_assert {A} b msg (k : unit -> M S A) Q s : b = true -> fwp (k tt) Q s -> fwp (massert b msg ≫= k) Q s.
Proof. intros -> H. by apply fwp_bind. Qed.
End Fwp.

Ltac fwp_step :=
  lazymatch goal with
  | |- fwp (mbind _ mget) _ _ => apply fwp_wp_bind, wp_get
  | |- fwp (mbind _ (mmodify _)) _ _ => apply fwp_wp_bind, wp_modify
  | |- fwp (mbind _ (mret _)) _ _ => apply fwp_wp_bind, wp_ret
  | |- fwp (mret _) _ _ => apply fwp_wp, wp_ret
  | |- fwp (mmodify _) _ _ => apply fwp_wp, wp_modify
  end.
Ltac fwp_steps := repeat fwp_step.

Lemma NoDup_roots l : NoDup (flat_map ids l) -> NoDup (root <$> l).
Proof.
  induction l as [|t l IH]; [constructor|]. cbn. intros (H1&H2&H3)%list.NoDup_app. constructor; [|auto].
  intros (u&E&Hu)%list_elem_of_fmap. apply (H2 (root t)); [apply root_ids|]. apply elem_flat_map. exists u. rewrite E. split; [done|apply root_ids].
Qed.

Lemma entries_fst qd : (entries qd).*1 = root <$> qd.*1.
Proof. unfold entries. by rewrite <- !list_fmap_compose. Qed.
Lemma entries_snd qd : (entries qd).*2 = qd.*2.
Proof. unfold entries. rewrite <- list_fmap_compose. by apply list_fmap_ext. Qed.
Lemma entries_app l l' : entries (l ++ l') = entries l ++ entries l'.
Proof. apply fmap_app. Qed.

(** The queue's map is that of the queued trees. *)
Definition QM (m : gmap nat Z) (qd : list (tree * Z)) : Prop := forall o c, m !! o = Some c <-> (o, c) ∈ entries qd.

Lemma QM_entries m qd qd' : entries qd' ≡ₚ entries qd -> QM m qd -> QM m qd'.
Proof. intros HP HM o c. by rewrite HP. Qed.

Lemma QM_size h m qd fl : Forest h qd fl -> QM m qd -> (base.size m <= base.size (hp_events h))%nat.
Proof.
  intros HF HM. rewrite <- !size_dom. apply subseteq_size. intros o [c Ho]%elem_of_dom. apply HM in Ho.
  apply list_elem_of_fmap in Ho as ([t c']&[= -> ->]&Ht). apply elem_of_dom.
  eapply Forest_live; [exact HF|]. rewrite flat_map_app'. apply elem_of_app. left. apply elem_flat_map. exists t. split; [|apply root_ids].
  apply list_elem_of_fmap. by exists (t, c').
Qed.

Lemma QM_insert m t c qd : root t ∉ root <$> qd.*1 -> QM m qd -> QM (<[root t := c]> m) ((t, c) :: qd).
Proof.
  intros Hn HM o c'. cbn. rewrite elem_of_cons. destruct (decide (root t = o)) as [<-|Hne].
  - rewrite lookup_insert_eq. split; [intros [= ->]; by left|]. intros [[= ->]|Hx]; [done|].
    destruct Hn. rewrite <- entries_fst. apply list_elem_of_fmap. by exists (root t, c').
  - rewrite lookup_insert_ne by done. rewrite (HM o c'). split; [by right|]. intros [[= -> ->]|?]; done.
Qed.

Lemma QM_delete m t c qd : NoDup (root <$> ((t, c) :: qd).*1) -> QM m ((t, c) :: qd) -> QM (delete (root t) m) qd.
Proof.
  cbn. intros [Hn _]%list.NoDup_cons HM o c'. rewrite lookup_delete_Some, (HM o c'). cbn. rewrite elem_of_cons. split.
  - intros [Hne [[= -> ->]|?]]; done.
  - intros Hx. split; [|by right]. intros <-. apply Hn. rewrite <- entries_fst. apply list_elem_of_fmap. by exists (root t, c').
Qed.

(** ** Delivering the enqueues *)
Section Weave.
Context {PQT : Type} `{HPQ : PQLaws PQT}.
Implicit Types (s : CS.t PQT) (h : EvHeap).

Lemma wp_CS_onHeap {A} (m : EvM A) Q s h a h' : m h = Ok (a, h') -> Q a (s, h') -> wp (CS.onHeap m) Q (s, h).
Proof. intros E HQ. unfold wp, CS.onHeap. cbn. by rewrite E. Qed.
Lemma wp_onPq {A} (m : M PQT A) Q s h : wp m (fun a q => Q a (CS.with_pq q s, h)) (CS.pq s) -> wp (CS.onPq m) Q (s, h).
Proof. unfold wp, CS.onPq. cbn. by destruct (m (CS.pq s)) as [[a q]|]. Qed.

(** What the two enqueues ask of an event. *)
Record Ready s h (pl f : Z) (t : tree) (c : Z) : Prop := {
  rd_rep : rep (hp_events h) EV_QUEUED 0 t;
  rd_dom : n_dom (nd t) = 0;
  rd_floor : 0 <= f <= c;
  rd_last : 0 <= CS.lastLimit s <= c;
  rd_lim : CS.lastLimit s < 2 ^ 61;
  rd_pl : 0 <= pl < two32;
  rd_cur : CS.inCSim s = true -> CS.curCycle s <= c }.

Definition enq s (pl : Z) : nat -> Z -> CS.CM unit := if CS.inCSim s then CS.enqueue pl else CS.enqueueSynced pl.

Lemma enq_spec s h pl f t c m Q : Ready s h pl f t c -> pq_rep (CS.pq s) f m -> m !! root t = None -> Z.of_nat (base.size m) < two32 ->
  (forall q', pq_rep q' f (<[root t := c]> m) -> Q tt (CS.with_pq q' s, h)) -> fwp (enq s pl (root t) c) Q (s, h).
Proof.
  intros [[(e&He&HI) _] Hd Hf Hl Hl2 Hp Hc] HR Hm Hsz HK. cbn in He, HI.
  assert (Hdom : ev_domain e = 0) by (by rewrite (is_dom _ _ _ _ _ HI)). assert (Hnp := is_np _ _ _ _ _ HI).
  assert (Hget : get_ev (root t) h = Ok (e, h)) by (unfold get_ev; by rewrite He).
  assert (Hfin : forall far, (c <? far) = true -> far <= 2 ^ 63 -> fwp (CS.onPq (pq_enqueue (root t) c)) Q (s, h)).
  { intros far Hfar Hb. apply fwp_wp, wp_onPq. eapply wp_mono; [eapply pq_rep_enqueue; try done; lia|]. intros [] q' HR'. by apply HK. }
  assert (two32 = 4294967296) by done. pose proof (u32_range (10 * pl)).
  unfold enq. destruct (CS.inCSim s) eqn:Hin.
  - unfold CS.enqueue. fwp_steps. cbn [fst snd]. rewrite Hin. apply fwp_assert; [done|]. apply fwp_assert; [apply Z.leb_le; lia|].
    rewrite u64_small by (unfold two64; lia). apply fwp_far. intros Hfar. apply fwp_wp_bind. eapply wp_CS_onHeap; [exact Hget|].
    apply fwp_assert; [apply Z.leb_le; by apply Hc|]. rewrite Hnp, Hdom. repeat (apply fwp_assert; [done|]). apply (Hfin _ Hfar). lia.
  - unfold CS.enqueueSynced. fwp_steps. cbn [fst snd]. rewrite Hin. apply fwp_assert; [done|]. apply fwp_wp_bind. eapply wp_CS_onHeap; [exact Hget|].
    rewrite Hnp, Hdom. repeat (apply fwp_assert; [done|]). apply fwp_assert; [apply Z.leb_le; lia|].
    rewrite u64_small by (unfold two64; lia). apply fwp_far. intros Hfar. apply fwp_assert; [done|]. apply (Hfin _ Hfar). lia.
Qed.

Lemma deliver_spec pl f h m Q fr : forall s qd m0, Forall (fun x => Ready s h pl f x.1 x.2) fr ->
  NoDup (root <$> (fr ++ qd).*1) -> pq_rep (CS.pq s) f m0 -> QM m0 qd ->
  (base.size m0 + length fr <= m)%nat -> Z.of_nat m < two32 ->
  (forall q' m', pq_rep q' f m' -> QM m' (fr ++ qd) -> Q tt (CS.with_pq q' s, h)) ->
  fwp (CS.deliver (enq s pl) (entries fr)) Q (s, h).
Proof.
  induction fr as [|[t c] fr IH]; intros s qd m0 HR HN Hq HM Hs Hm HK.
  { cbn. fwp_steps. destruct s. by apply (HK _ m0). }
  apply list.Forall_cons in HR as [HR1 HR]. cbn in HR1. cbn [app fmap list_fmap fst] in HN.
  assert (HN1 : root t ∉ root <$> (fr ++ qd).*1) by (by apply list.NoDup_cons in HN as [? _]).
  assert (HN2 : NoDup (root <$> (fr ++ (t, c) :: qd).*1)).
  { rewrite fmap_app, fmap_app. cbn. rewrite <- Permutation_middle. rewrite <- fmap_app, <- fmap_app. exact HN. }
  assert (HNq : root t ∉ root <$> qd.*1) by (intros Hx; apply HN1; rewrite fmap_app, fmap_app; apply elem_of_app; by right).
  assert (Hm0 : m0 !! root t = None).
  { apply eq_None_not_Some. intros [z Hz]. apply HM in Hz. apply HNq. rewrite <- entries_fst. apply list_elem_of_fmap. by exists (root t, z). }
  cbn in Hs. cbn [entries fmap list_fmap CS.deliver fst snd]. apply fwp_bind. eapply (enq_spec s h pl f t c m0); try done; [lia|].
  intros q' Hq'. change (enq s pl) with (enq (CS.with_pq q' s) pl).
  apply (IH (CS.with_pq q' s) ((t, c) :: qd) (<[root t := c]> m0)); try done.
  - elems. intros x Hx. destruct (HR x Hx). by split.
  - by apply QM_insert.
  - rewrite map_size_insert_None by done. lia.
  - intros q2 m2 H1 H2. apply (HK q2 m2); [done|]. eapply QM_entries; [|exact H2]. rewrite !entries_app. cbn. apply Permutation_middle.
Qed.

Lemma flush_spec pl s h fr qd m f Q : Forest h (fr ++ qd) [] -> Forall QOK (fr ++ qd) -> hp_queue h = entries fr ->
  Z.of_nat (base.size (hp_events h)) < 2 ^ 31 -> pq_rep (CS.pq s) f m -> QM m qd -> Forall (fun x => f <= x.2) fr -> 0 <= f ->
  0 <= CS.lastLimit s <= f -> CS.lastLimit s < 2 ^ 61 -> 0 <= pl < two32 -> (CS.inCSim s = true -> CS.curCycle s <= f) ->
  (forall q' m', pq_rep q' f m' -> QM m' (fr ++ qd) -> Q tt (CS.with_pq q' s, clear h)) -> fwp (CS.flush pl) Q (s, h).
Proof.
  intros HF HQ Hq Hsz Hrep HM Hf H0 Hl Hl2 Hpl Hc HK. unfold CS.flush. fwp_steps. cbn [fst snd]. apply fwp_wp_bind. eapply wp_CS_onHeap; [done|].
  change (mkHeap _ _ []) with (clear h). rewrite Hq. change (if CS.inCSim s then _ else _) with (enq s pl).
  assert (Hsz1 : (base.size m <= base.size (hp_events h))%nat).
  { eapply QM_size; [|exact HM]. destruct HF as [A1 A2 A3 A4]. apply Forall_app in A1 as [_ A1]. split; try done.
    rewrite fmap_app, <- app_assoc, flat_map_app' in A3. by apply list.NoDup_app in A3 as (_&_&?). }
  assert (Hsz2 : (length fr <= base.size (hp_events h))%nat).
  { pose proof (forest_count _ _ _ HF) as Hcnt. etransitivity; [|exact Hcnt]. clear. rewrite app_nil_r. induction fr as [|[[p n ks] c] fr IH]; [cbn; lia|].
    cbn. rewrite length_app. lia. }
  eapply (deliver_spec pl f (clear h) (base.size (hp_events h) + base.size (hp_events h)) Q fr s qd m); try done; try lia.
  - elems. intros [t c] Hx. assert (Hx' : (t, c) ∈ fr ++ qd) by (apply elem_of_app; by left). specialize (Hf _ Hx). cbn in Hf |- *. split; try done; try lia.
    + assert (HR := fo_q _ _ _ HF). elems. apply (HR _ Hx').
    + destruct (HQ _ Hx') as (g&_&_&HD&_). cbn in HD. unfold in_dom in HD. elems. apply (HD (root t, nd t, root <$> kids t)). destruct t. apply list_elem_of_here.
    + intros Hin. specialize (Hc Hin). lia.
  - pose proof (fo_nd _ _ _ HF) as HN. rewrite app_nil_r in HN. by apply NoDup_roots.
  - unfold two32. lia.
Qed.

(** ** Running one event *)
Lemma frontier_ge m t : forall st np (s : Z) y, rep m st np t -> y ∈ frontier t s -> s <= y.2.
Proof.
  induction t as [p n ks IH] using tree_ind'. intros st np s y HR Hy. pose proof (rep_nd _ _ _ _ HR) as (?&?&?&_). cbn [nd] in *.
  assert (Hend : y ∈ [(Tr p n ks, s + n_pre n)] -> s <= y.2) by (intros ->%list_elem_of_singleton; cbn; lia).
  cbn [frontier] in Hy. destruct (n_class n); try by apply Hend. apply elem_flat_map in Hy as (k&Hk&Hy). elems.
  pose proof (IH k Hk _ _ _ _ (rep_kid _ _ _ _ _ _ _ HR Hk) Hy). lia.
Qed.

Lemma run_ev_size p c h e h1 : run_ev p c h = Ok (e, h1) -> base.size (hp_events h1) = base.size (hp_events h).
Proof.
  unfold run_ev, mbind, M_bind, get_ev. destruct (hp_events h !! p) as [e0|] eqn:He; [|done]. unfold massert. destruct (_ || _); [|done].
  cbn. destruct (_ <=? _); [|done]. intros [= <- <-]. cbn. by rewrite map_size_insert_Some.
Qed.

(** What the simulation of an event leaves of a core. *)
Record Same (c c' : TC.t) : Prop := {
  sm_cycle : TC.curCycle c' = TC.curCycle c;
  sm_gap : CR.gapCycles (TC.cRec c') = CR.gapCycles (TC.cRec c);
  sm_state : CR.state (TC.cRec c') = CR.state (TC.cRec c) }.
#[global] Instance Same_pre : PreOrder Same.
Proof. split; [by split|]. intros x y z [A1 A2 A3] [B1 B2 B3]. split; congruence. Qed.
Lemma pointwise_refl (R : relation TC.t) `{!PreOrder R} l : Forall2 R l l.
Proof. induction l; by constructor. Qed.
Lemma pointwise_trans (R : relation TC.t) `{!PreOrder R} l1 l2 l3 : Forall2 R l1 l2 -> Forall2 R l2 l3 -> Forall2 R l1 l3.
Proof.
  intros H1. revert l3. induction H1 as [|x y l1 l2 E1 _ IH]; intros l3 H2; inversion H2 as [|? z ? l3' E2]; subst; constructor; auto.
  by transitivity y.
Qed.
Lemma pointwise_insert (R : relation TC.t) `{!PreOrder R} l i c c' : l !! i = Some c -> R c c' -> Forall2 R l (<[i := c']> l).
Proof. intros Hi Hs. rewrite <- (list_insert_id l i c Hi) at 1. apply Forall2_insert; [by apply pointwise_refl|done]. Qed.

Record CoresW (l : list TC.t) (glob lim : Z) (qd : list (tree * Z)) : Prop := {
  cw_core : forall i c, l !! i = Some c -> CoreW i c glob lim qd;
  cw_free : forall i, (length l <= i)%nat -> Free i qd [] }.

Lemma report_same ev c o r r' : CR.reportEventSimulated ev c o r = Ok r' -> CR.gapCycles r' = CR.gapCycles r /\ CR.state r' = CR.state r.
Proof.
  unfold CR.reportEventSimulated. destruct (bool_decide _); [destruct (rassert _ _)|]; cbn; try done; by intros [= <-].
Qed.

Section Event.
Context (sy : BW.Sys PQT) (t : tree) (c : Z) (qd0 : list (tree * Z)) (glob lim : Z) (fr : list (tree * Z)).
Context (HN : NoDup (ids t)) (HQ : QOK (t, c)) (Hc : c < lim) (HC : CoresW (BW.cores sy) glob lim ((t, c) :: qd0)).
Context (Hfr : fr ≡ₚ flat_map (fun k => frontier k (arrive t c)) (kids t)).

(** The report to the recorder, where the event is a recorder's. *)
Lemma cores_mem : (forall i, core_of (nd t) <> Some i) -> CoresW (BW.cores sy) glob lim (fr ++ qd0).
Proof.
  intros Hno. split.
  - intros i ci Hi. apply (core_step_other i ci glob lim t c qd0); try done. by apply (cw_core _ _ _ _ HC).
  - intros i Hi. eapply free_run; [|exact Hfr]. by apply (cw_free _ _ _ _ HC).
Qed.
Lemma cores_report i o : n_class (nd t) = ClsCore i o -> exists ci r, BW.cores sy !! i = Some ci /\
  CR.reportEventSimulated (root t) c o (TC.cRec ci) = Ok r /\ Forall2 Same (BW.cores sy) (<[i := TC.with_rec r ci]> (BW.cores sy)) /\
  CoresW (<[i := TC.with_rec r ci]> (BW.cores sy)) glob lim (fr ++ qd0).
Proof.
  intros Hcl. assert (Hco : core_of (nd t) = Some i) by (unfold core_of; by rewrite Hcl).
  destruct (BW.cores sy !! i) as [ci|] eqn:Hi.
  2:{ apply lookup_ge_None in Hi. destruct (cw_free _ _ _ _ HC i Hi) as [HF _]. cbn in HF. apply list.Forall_cons in HF as [HF _].
      by apply nocore_root in HF. }
  destruct (core_step_self i ci glob lim t c o qd0 fr (cw_core _ _ _ _ HC i ci Hi) Hcl HN HQ Hc Hfr) as (r&Er&HW).
  exists ci, r. split; [done|]. split; [done|]. destruct (report_same _ _ _ _ _ Er) as [E1 E2]. split; [by eapply (pointwise_insert Same)|].
  split.
  - intros j cj Hj. destruct (decide (j = i)) as [->|Hne].
    + rewrite list_lookup_insert_eq in Hj by (by eapply lookup_lt_Some). by injection Hj as <-.
    + rewrite list_lookup_insert_ne in Hj by done. apply (core_step_other j cj glob lim t c qd0); try done; [by apply (cw_core _ _ _ _ HC)|congruence].
  - intros j Hj. rewrite length_insert in Hj. eapply free_run; [|exact Hfr]. by apply (cw_free _ _ _ _ HC).
Qed.
End Event.

Lemma run_event_spec (sy : BW.Sys PQT) t c qd0 glob lim Q : let h := BW.heap sy in
  Forest h ((t, c) :: qd0) [] -> Forall QOK ((t, c) :: qd0) -> hp_queue h = [] ->
  Z.of_nat (base.size (hp_events h)) < 2 ^ 29 -> 0 <= c < lim -> lim < 2 ^ 61 -> CoresW (BW.cores sy) glob lim ((t, c) :: qd0) ->
  (forall l h' fr, fr ≡ₚ flat_map (fun k => frontier k (arrive t c)) (kids t) -> hp_queue h' = entries fr ->
     (base.size (hp_events h') <= base.size (hp_events h))%nat -> Forest h' (fr ++ qd0) [] -> Forall QOK (fr ++ qd0) ->
     CoresW l glob lim (fr ++ qd0) -> Forall2 Same (BW.cores sy) l -> Forall (fun x => c <= x.2) fr ->
     Q tt (BW.mk l (BW.sim sy) h' (BW.zinfo sy))) ->
  wp (BW.run_event (root t) c) Q sy.
Proof.
  intros h HF HQ Hq Hsz Hc Hlim HC HK. assert (HN : NoDup (ids t)).
  { pose proof (fo_nd _ _ _ HF) as HN. cbn in HN. by apply list.NoDup_app in HN as (?&_). }
  assert (HQt := HQ). apply list.Forall_cons in HQt as [HQt _]. destruct (HQt) as (g&HT&Hs&_&Hcl). cbn in HT, Hs, Hcl.
  assert (HR := Forall_inv (fo_q _ _ _ HF)). cbn in HR. pose proof (rep_nd _ _ _ _ HR) as (Hpre&Hpost&Hdur&_).
  pose proof (span_bound _ _ _ _ HR) as Hspan. assert (Hlen : (length (nodes t) <= base.size (hp_events h))%nat) by (eapply forest_nodes_le; [exact HF|apply list_elem_of_here]).
  assert (Hspan' : span t < 2 ^ 63) by (unfold two32 in Hspan; nia).
  set (lat := match n_class (nd t) with ClsMem lat => lat | _ => 0 end).
  assert (Earr : c + lat + n_post (nd t) = arrive t c) by (unfold arrive, dur, lat; lia).
  assert (Hlat : 0 <= lat) by (unfold dur in Hdur; unfold lat; lia).
  assert (Hks : 0 <= zsum (map span (kids t))).
  { apply zsum_nonneg. elems. intros z (k&<-&Hk)%list_elem_of_In%in_map_iff. apply list_elem_of_In in Hk. destruct t as [p n ks].
    eapply span_nonneg, rep_kid; [exact HR|done]. }
  assert (Espan : span t = dur (nd t) + zsum (map span (kids t))) by by destruct t.
  assert (Hb : c + lat + n_post (nd t) + zsum (map span (kids t)) < two64).
  { rewrite Earr. unfold arrive, two64. lia. }
  destruct (forest_run (CR.ev_fuel h) h qd0 [] t c c (c + lat) HF) as (e&h1&h'&fr&E1&Ecl&E2&[R1 R2 R3 R4 R5]); try lia.
  { inversion HT as [p n ks [Hmin _ _] _ _ Et]. rewrite <- Et in Hcl, Hs. cbn in *. specialize (Hmin Hcl). lia. }
  { unfold CR.ev_fuel. lia. }
  rewrite Earr in R1. rewrite Hq in R2. cbn in R2.
  assert (Hge : Forall (fun x => c <= x.2) fr).
  { rewrite R1. elems. intros y (k&Hk&Hy)%elem_flat_map. destruct t as [p n ks]. pose proof (frontier_ge _ _ _ _ _ _ (rep_kid _ _ _ _ _ _ _ HR Hk) Hy). lia. }
  assert (HQ' : Forall QOK (fr ++ qd0)) by by eapply run_qok.
  assert (Hfuel : CR.ev_fuel h1 = CR.ev_fuel h) by (unfold CR.ev_fuel; by rewrite (run_ev_size _ _ _ _ _ E1)).
  unfold BW.run_event. apply wp_bind. unfold wp at 1, BW.onSim, CS.onHeap. cbn [fst snd]. fold h. rewrite E1.
  wp_steps. cbn [fst snd BW.heap BW.cores]. rewrite Ecl, Hfuel.
  assert (Hdone : forall l, CoresW l glob lim (fr ++ qd0) -> Forall2 Same (BW.cores sy) l ->
    wp (BW.onSim (CS.onHeap (ev_done (CR.ev_fuel h) (root t) (c + lat)))) Q (BW.mk l (BW.sim sy) h1 (BW.zinfo sy))).
  { intros l Hl Hsm. unfold wp, BW.onSim, CS.onHeap. cbn [fst snd BW.heap BW.sim]. rewrite E2. cbn. by apply (HK l h' fr). }
  assert (Htim : n_class (nd t) <> ClsTiming) by (inversion HT as [p n ks [_ _ Ht] _ _ Et]; exact Ht).
  destruct (n_class (nd t)) as [| |i o|lt] eqn:Ek; try done.
  - destruct (cores_report sy t c qd0 glob lim fr HN HQt ltac:(lia) HC R1 i o Ek) as (ci&r&Hi&Er&Hsm&HCW).
    wp_steps. apply wp_lift. rewrite Hi. cbn [from_opt rwp]. wp_steps. apply wp_lift. rewrite Er. cbn [rwp]. wp_steps.
    specialize (Hdone _ HCW Hsm). unfold lat in Hdone. by rewrite Z.add_0_r in Hdone.
  - rewrite u64_small by (unfold lat in *; unfold two64 in *; lia). apply Hdone; [|apply (pointwise_refl Same)].
    eapply cores_mem; try done. intros i. unfold core_of. by rewrite Ek.
Qed.

(** ** The loop *)
Record WI (sy : BW.Sys PQT) (qd : list (tree * Z)) (m : gmap nat Z) (f glob lim : Z) : Prop := {
  wi_forest : Forest (BW.heap sy) qd [];
  wi_qok : Forall QOK qd;
  wi_queue : hp_queue (BW.heap sy) = [];
  wi_size : Z.of_nat (base.size (hp_events (BW.heap sy))) < 2 ^ 29;
  wi_rep : pq_rep (CS.pq (BW.sim sy)) f m;
  wi_qm : QM m qd;
  wi_late : Forall (fun c => CS.curCycle (BW.sim sy) <= c) qd.*2;
  wi_floor : 0 <= glob <= f /\ f <= CS.curCycle (BW.sim sy) /\ f <= lim;
  wi_limit : CS.limit (BW.sim sy) = lim;
  wi_last : CS.lastLimit (BW.sim sy) = glob;
  wi_in : CS.inCSim (BW.sim sy) = true;
  wi_lim : glob < lim < 2 ^ 61;
  wi_pl : 0 <= phaseLength (BW.zinfo sy) < two32;
  wi_cores : CoresW (BW.cores sy) glob lim qd }.

Lemma Keeps_perm i qd qd' fl : qd' ≡ₚ qd -> Keeps i qd fl qd' fl.
Proof.
  intros HP. split.
  - unfold entries. by rewrite HP.
  - intros j x nx sl F _ (t&c&rest&[C1 C2 C3 C4 C5 C6]). exists t, c, rest. split; try done. by rewrite HP.
  - intros j _ [H1 H2]. split; [|done]. by rewrite HP.
Qed.
Lemma CoresW_perm l glob lim qd qd' : qd' ≡ₚ qd -> CoresW l glob lim qd -> CoresW l glob lim qd'.
Proof.
  intros HP [H1 H2]. split.
  - intros i c Hi. eapply (CoreW_keeps (S i)); [by apply H1|lia|by apply Keeps_perm].
  - intros i Hi. apply (k_free (S i) qd [] qd' []); [by apply Keeps_perm|lia|by apply H2].
Qed.

Lemma QM_nil m qd : QM m qd -> base.size m = 0%nat -> qd = [].
Proof.
  intros HM Hs. apply map_size_empty_inv in Hs as ->. destruct qd as [|[t c] qd]; [done|].
  assert (H1 : (∅ : gmap nat Z) !! root t = Some c) by (apply HM; apply list_elem_of_here). by rewrite lookup_empty in H1.
Qed.
Lemma QM_late m qd c1 : QM m qd -> (forall o c, m !! o = Some c -> c1 <= c) -> Forall (fun c => c1 <= c) qd.*2.
Proof.
  intros HM Hm. rewrite <- entries_snd. elems. intros c ([o c']&->&Hx)%list_elem_of_fmap. apply HM in Hx. by eapply Hm.
Qed.

(** [firstCycle], or the limit when the queue is empty. *)
Lemma first_spec q f m qd : pq_rep q f m -> QM m qd ->
  (pq_size q =? 0) = true /\ qd = [] \/
  exists c1 o1, (pq_size q =? 0) = false /\ pq_firstCycle q = Ok c1 /\ m !! o1 = Some c1 /\ Forall (fun c => c1 <= c) qd.*2.
Proof.
  intros HR HM. rewrite (pq_rep_size _ _ _ HR). destruct (decide (base.size m = 0%nat)) as [E|E].
  - left. split; [by rewrite E|]. by eapply QM_nil.
  - right. destruct (map_choose m) as (o&c&Ho); [intros ->; by rewrite map_size_empty in E|].
    destruct (pq_rep_first q f m o c HR Ho) as (c1&E1&(o1&Ho1)&Hmin). exists c1, o1. split; [apply Z.eqb_neq; lia|]. split; [done|]. split; [done|].
    by eapply QM_late.
Qed.

Lemma run_shrinks t (c : Z) qd0 fr (s : Z) : fr ≡ₚ flat_map (fun k => frontier k s) (kids t) ->
  (length (flat_map ids (fr ++ qd0).*1) < length (flat_map ids ((t, c) :: qd0).*1))%nat.
Proof.
  intros HP. rewrite fmap_app, flat_map_app'. cbn. rewrite !length_app. destruct t as [p n ks]. rewrite ids_cons. cbn [length kids] in *.
  pose proof (submseteq_length _ _ (frontiers_sub ks s)) as Hl. rewrite HP. lia.
Qed.

Lemma dequeue_tree sy qd m f glob lim o1 c1 : WI sy qd m f glob lim -> m !! o1 = Some c1 ->
  wp pq_dequeue (fun '(te, c) q' => exists t qd0, te = root t /\ qd ≡ₚ (t, c) :: qd0 /\ pq_rep q' c (delete (root t) m) /\
    QM (delete (root t) m) qd0 /\ Forall (fun z => c <= z) qd.*2) (CS.pq (BW.sim sy)).
Proof.
  intros HW Ho. eapply wp_mono; [eapply pq_rep_dequeue; [apply (wi_rep _ _ _ _ _ _ HW)|exact Ho]|].
  intros [te c] q' (Hte&Hmin&HR). assert (Hx := Hte). apply (wi_qm _ _ _ _ _ _ HW) in Hx.
  apply list_elem_of_fmap in Hx as ([t c']&[= -> ->]&Hx). cbn in *. apply list_elem_of_split in Hx as (l1&l2&E).
  assert (HP : qd ≡ₚ (t, c') :: l1 ++ l2) by (rewrite E; symmetry; apply Permutation_middle).
  exists t, (l1 ++ l2). split_and!; try done.
  - eapply (QM_delete m t c').
    + apply NoDup_roots. pose proof (fo_nd _ _ _ (wi_forest _ _ _ _ _ _ HW)) as HN. rewrite app_nil_r in HN. by rewrite HP in HN.
    + eapply QM_entries; [|apply (wi_qm _ _ _ _ _ _ HW)]. unfold entries. by rewrite HP.
  - by eapply QM_late; [apply (wi_qm _ _ _ _ _ _ HW)|].
Qed.

Definition weave_post (sy : BW.Sys PQT) (glob lim : Z) (sy' : BW.Sys PQT) : Prop := exists qd' m' f',
  WI sy' qd' m' f' glob lim /\ Forall (fun c => lim <= c) qd'.*2 /\ Forall2 Same (BW.cores sy) (BW.cores sy') /\
  BW.zinfo sy' = BW.zinfo sy /\ (base.size (hp_events (BW.heap sy')) <= base.size (hp_events (BW.heap sy)))%nat.

Lemma weave_post_trans sy sy1 glob lim sy' : Forall2 Same (BW.cores sy) (BW.cores sy1) -> BW.zinfo sy1 = BW.zinfo sy ->
  (base.size (hp_events (BW.heap sy1)) <= base.size (hp_events (BW.heap sy)))%nat -> weave_post sy1 glob lim sy' -> weave_post sy glob lim sy'.
Proof.
  intros H1 H2 H3 (qd'&m'&f'&W1&W2&W3&W4&W5). exists qd', m', f'. split_and!; try done; [by eapply (pointwise_trans Same)|congruence|lia].
Qed.

Lemma fwp_onSim {A} (m : CS.CM A) Q (sy : BW.Sys PQT) :
  fwp m (fun a x => Q a (BW.mk (BW.cores sy) x.1 x.2 (BW.zinfo sy))) (BW.sim sy, BW.heap sy) -> fwp (BW.onSim m) Q sy.
Proof. unfold fwp, BW.onSim. by destruct (m _) as [[a [c h]]|]. Qed.
Lemma fwp_sim (g : CS.t PQT -> CS.t PQT) (Q : unit -> BW.Sys PQT -> Prop) sy :
  Q tt (BW.mk (BW.cores sy) (g (BW.sim sy)) (BW.heap sy) (BW.zinfo sy)) -> fwp (BW.onSim (CS.onSim g)) Q sy.
Proof. intros HQ. apply fwp_onSim. by apply fwp_wp, wp_modify. Qed.

Lemma weave_step_spec sy qd m f glob lim o1 c1 : WI sy qd m f glob lim -> m !! o1 = Some c1 -> c1 < lim ->
  fwp BW.weave_step (fun _ sy1 => exists qd1 m1 f1, WI sy1 qd1 m1 f1 glob lim /\
    (length (flat_map ids qd1.*1) < length (flat_map ids qd.*1))%nat /\ Forall2 Same (BW.cores sy) (BW.cores sy1) /\
    BW.zinfo sy1 = BW.zinfo sy /\ (base.size (hp_events (BW.heap sy1)) <= base.size (hp_events (BW.heap sy)))%nat) sy.
Proof.
  intros HW Ho Hc1. unfold BW.weave_step. fwp_steps. apply fwp_bind, fwp_onSim, fwp_wp, wp_onPq.
  eapply wp_mono; [by eapply dequeue_tree|]. intros [te c] q' (t&qd0&->&HP&HR&HM&Hmin). cbn [fst snd].
  destruct HW as [W1 W2 W3 W4 W5 W6 W7 W8 W9 W10 W11 W12 W13 W14].
  assert (Hcin : c ∈ qd.*2) by (rewrite HP; apply list_elem_of_here).
  assert (Hcur : CS.curCycle (BW.sim sy) <= c) by (elems; by apply W7).
  assert (Hc : c <= c1) by (apply W6 in Ho; rewrite <- entries_snd in Hmin; elems; apply Hmin; apply list_elem_of_fmap; by exists (o1, c1)).
  apply fwp_assert; [by apply Z.leb_le|]. apply fwp_bind, fwp_sim. cbn [BW.cores BW.sim BW.heap BW.zinfo].
  apply fwp_wp_bind. eapply (run_event_spec _ t c qd0 glob lim); cbn [BW.cores BW.sim BW.heap BW.zinfo]; try done; try lia.
  { by rewrite HP in W1. } { by rewrite HP in W2. } { eapply CoresW_perm; [|exact W14]. by rewrite HP. }
  intros l h' fr Hfr Hq' Hs' HF' HQ' HC' Hsm Hge. apply fwp_bind, fwp_onSim. cbn [BW.cores BW.sim BW.heap BW.zinfo].
  eapply (flush_spec _ _ h' fr qd0 (delete (root t) m) c); cbn; try done; try lia.
  intros q2 m2 HR2 HM2. cbn [fst snd]. fwp_steps. cbn [BW.cores BW.sim BW.heap BW.zinfo CS.pq CS.with_pq CS.limit CS.with_cycle].
  assert (Hmin2 : Forall (fun z => c <= z) (fr ++ qd0).*2).
  { rewrite fmap_app. apply Forall_app. split; [by apply Forall_fmap|]. rewrite HP in Hmin. cbn in Hmin. by apply list.Forall_cons in Hmin as [_ ?]. }
  assert (Hlen := run_shrinks t c qd0 fr _ Hfr).
  assert (Hlen' : length (flat_map ids qd.*1) = length (flat_map ids ((t, c) :: qd0).*1)) by (by rewrite HP).
  assert (Hfin : forall n, c <= n -> Forall (fun z => n <= z) (fr ++ qd0).*2 ->
    fwp (massert (c <=? n) "newCycle >= domCycle";; BW.onSim (CS.onSim (CS.with_cycle n))) (fun _ sy1 => exists qd1 m1 f1, WI sy1 qd1 m1 f1 glob lim /\
    (length (flat_map ids qd1.*1) < length (flat_map ids qd.*1))%nat /\ Forall2 Same (BW.cores sy) (BW.cores sy1) /\
    BW.zinfo sy1 = BW.zinfo sy /\ (base.size (hp_events (BW.heap sy1)) <= base.size (hp_events (BW.heap sy)))%nat)
    (BW.mk l (CS.with_pq q2 (CS.with_cycle c (CS.with_pq q' (BW.sim sy)))) (clear h') (BW.zinfo sy))).
  { intros n Hn Hlate. apply fwp_assert; [by apply Z.leb_le|]. apply fwp_sim. exists (fr ++ qd0), m2, c.
    split_and!; try done; [|by rewrite Hlen']. split; cbn; try done; try lia. by apply Forest_clear. }
  destruct (first_spec q2 c m2 (fr ++ qd0) HR2 HM2) as [[E1 E2]|(n&o2&E1&E2&E3&E4)]; rewrite E1.
  - apply fwp_wp_bind, wp_lift. cbn [rwp]. apply Hfin; [lia|]. by rewrite E2.
  - apply fwp_wp_bind, wp_lift. rewrite E2. cbn [rwp]. apply Hfin; [|done].
    apply HM2 in E3. rewrite <- entries_snd in Hmin2. elems. apply Hmin2. apply list_elem_of_fmap. by exists (o2, n).
Qed.

Lemma weave_spec fuel : forall sy qd m f glob lim, WI sy qd m f glob lim -> (length (flat_map ids qd.*1) <= fuel)%nat ->
  fwp (BW.weave fuel) (fun _ sy' => weave_post sy glob lim sy') sy.
Proof.
  induction fuel as [|fuel IH]; intros sy qd m f glob lim HW Hfuel.
  all: assert (Hstop : Forall (fun c => lim <= c) qd.*2 -> weave_post sy glob lim sy)
    by (intros Hl; exists qd, m, f; split_and!; try done; apply (pointwise_refl Same)).
  all: cbn [BW.weave]; fwp_steps; rewrite (wi_limit _ _ _ _ _ _ HW);
    destruct (first_spec _ f m qd (wi_rep _ _ _ _ _ _ HW) (wi_qm _ _ _ _ _ _ HW)) as [[E1 ->]|(c1&o1&E1&E2&E3&E4)]; rewrite E1.
  1,3: apply fwp_wp_bind, wp_lift; cbn [rwp negb]; fwp_steps; by apply Hstop.
  all: rewrite E2; cbn [mbind res_bind]; apply fwp_wp_bind, wp_lift; cbn [rwp]; destruct (Z.ltb_spec c1 lim) as [Hlt|Hge]; cbn [negb].
  2,4: fwp_steps; apply Hstop; elems; intros z Hz; specialize (E4 z Hz); lia.
  - apply (wi_qm _ _ _ _ _ _ HW) in E3. destruct qd as [|[[p n ks] c] qd]; [by apply elem_of_nil in E3|]. cbn in Hfuel. rewrite ids_cons in Hfuel. cbn in Hfuel. lia.
  - apply fwp_bind. eapply fwp_mono; [by eapply weave_step_spec|]. intros _ sy1 (qd1&m1&f1&HW1&Hl&Hsm&Hz&Hs).
    eapply fwp_mono; [eapply (IH sy1 qd1); [exact HW1|lia]|]. intros [] sy' Hp. by eapply weave_post_trans.
Qed.

Lemma simulatePhaseThread_spec sy qd m f glob lim : WI sy qd m f glob lim ->
  fwp BW.simulatePhaseThread (fun _ sy' => weave_post sy glob lim sy' /\ CS.curCycle (BW.sim sy') = lim) sy.
Proof.
  intros HW. unfold BW.simulatePhaseThread. fwp_steps. apply fwp_bind. eapply fwp_mono; [eapply weave_spec; [exact HW|]|].
  - pose proof (forest_count _ _ _ (wi_forest _ _ _ _ _ _ HW)) as Hc. rewrite app_nil_r in Hc.
    assert (E : forall l, length (flat_map ids l) = length (flat_map nodes l)).
    { intros l. induction l as [|t l IHl]; [done|]. cbn. rewrite !length_app, IHl. f_equal. unfold ids. by rewrite length_fmap. }
    rewrite E. lia.
  - intros _ sy1 (qd'&m'&f'&HW'&Hl&Hr). fwp_steps. apply fwp_sim. rewrite (wi_limit _ _ _ _ _ _ HW'). split; [|done].
    exists qd', m', f'. split; [|done]. destruct HW' as [W1 W2 W3 W4 W5 W6 W7 W8 W9 W10 W11 W12 W13 W14]. split; cbn; try done. lia.
Qed.
End Weave.
