(* ===== verification/BoundWeaveSys.v ===== *)
(** * The invariant of the bound-weave system

    Every operation of a core in the bound phase and the end of a phase keep the invariant
    [SysI], and no assertion but the one against far events can fail. *)

From S2P Require Import Prelude Bithacks MemHier TimingEvent EventTree CoreRecorder BoundWeave BoundWeaveInv BoundWeaveSim BoundWeaveLoop.

#[global] Instance Entered_pre lim : PreOrder (Entered lim).
Proof.
  split; [intros x; split; auto|]. intros x y z [A1 A2 A3] [B1 B2 B3]. split; try congruence. rewrite A1 in B3.
  destruct A3 as [A3|[A3 A4]], B3 as [B3|[B3 B4]]; [left; congruence|right; split; [done|congruence]|right; split; [done|congruence]|].
  right. split; [done|]. rewrite B4, A4. lia.
Qed.
#[global] Instance Delayed_pre : PreOrder Delayed.
Proof.
  split; [intros x; split; auto; lia|]. intros x y z [A1 A2 A3] [B1 B2 B3]. split; [congruence|lia|]. destruct A3 as [A3|[A3 A4]], B3 as [B3|[B3 B4]]; [left|right|right|]; try split; congruence.
Qed.

Section Sys.
Context {PQT : Type} `{HPQ : PQLaws PQT}.

Lemma wp_onCore {A} i (m : TC.TM A) Q (sy : BW.Sys PQT) c : BW.cores sy !! i = Some c ->
  wp m (fun a x => Q a (BW.mk (<[i := x.1]> (BW.cores sy)) (BW.sim sy) x.2 (BW.zinfo sy))) (c, BW.heap sy) -> wp (BW.onCore i m) Q sy.
Proof. intros Hi. unfold wp, BW.onCore. rewrite Hi. by destruct (m _) as [[a [c' h]]|]. Qed.

(** What the bound phase and the weave phase have in common. *)
Record HeapOK (h : EvHeap) (qd : list (tree * Z)) : Prop := {
  ho_forest : Forest h qd [];
  ho_qok : Forall QOK qd;
  ho_queue : hp_queue h = [] }.

Lemma start_loop zi n : forall i (sy : BW.Sys PQT) qd, let glob := globPhaseCycles zi in let lim := glob + phaseLength zi in
  (i + n)%nat = length (BW.cores sy) -> HeapOK (BW.heap sy) qd -> 0 <= glob -> 0 < phaseLength zi -> lim < 2 ^ 61 ->
  Z.of_nat (base.size (hp_events (BW.heap sy))) + 2 * Z.of_nat n < 2 ^ 29 ->
  (forall j c, (j < i)%nat -> BW.cores sy !! j = Some c -> CoreW j c glob lim qd) ->
  (forall j c, (i <= j)%nat -> BW.cores sy !! j = Some c -> CoreI j c glob (BW.heap sy) qd /\ PhaseDone zi c) ->
  (forall j, (length (BW.cores sy) <= j)%nat -> Free j qd []) ->
  wp (BW.each_core n i (fun i => TC.cSimStart i zi)) (fun _ sy' => exists l h qd', sy' = BW.mk l (BW.sim sy) h (BW.zinfo sy) /\
    HeapOK h qd' /\ CoresW l glob lim qd' /\ entries qd' ≡ₚ entries qd /\ Forall2 (Entered lim) (BW.cores sy) l /\
    (base.size (hp_events h) <= base.size (hp_events (BW.heap sy)) + 2 * n)%nat) sy.
Proof.
  induction n as [|n IH]; intros i sy qd glob lim Hn [HF HQ Hq] Hg Hpl Hlim Hsz Hdone Htodo Hfree.
  { cbn. wp_steps. exists (BW.cores sy), (BW.heap sy), qd. split; [by destruct sy|]. split; [done|]. split; [split; [|done]|split; [done|]; split; [by apply pointwise_refl; apply _|lia]].
    intros j c Hj. apply Hdone; [|done]. apply lookup_lt_Some in Hj. lia. }
  cbn [BW.each_core]. wp_steps. destruct (lookup_lt_is_Some_2 (BW.cores sy) i ltac:(lia)) as [c Hc].
  eapply wp_onCore; [exact Hc|]. destruct (Htodo i c ltac:(lia) Hc) as [HI HP].
  eapply (cSimStart_spec i zi c (BW.heap sy) qd); try done; [unfold two32; lia|].
  intros c' h' qd' lim' HW HF' HQ' Hq' HK HE Hs. cbn [fst snd]. unfold lim' in *. clear lim'. fold glob lim in HW, HE.
  set (sy1 := BW.mk _ _ _ _).
  assert (Hl1 : length (BW.cores sy1) = length (BW.cores sy)) by (cbn; apply length_insert).
  assert (Hlook : forall j cj, j <> i -> BW.cores sy1 !! j = Some cj -> BW.cores sy !! j = Some cj).
  { intros j cj Hj. cbn. by rewrite list_lookup_insert_ne. }
  assert (Hii : BW.cores sy1 !! i = Some c') by (cbn; apply list_lookup_insert_eq; lia).
  eapply wp_mono; [apply (IH (S i) sy1 qd')|]; try done; try lia.
  - cbn. lia.
  - intros j cj Hj Hcj. destruct (decide (j = i)) as [->|Hne]; [rewrite Hii in Hcj; by injection Hcj as <-|].
    eapply (CoreW_keeps i); [|done|exact HK]. apply Hdone; [lia|by apply Hlook].
  - intros j cj Hj Hcj. destruct (Htodo j cj ltac:(lia)) as [HIj HPj]; [apply Hlook; [lia|done]|]. split; [|done].
    eapply (CoreI_keeps i); try done. lia.
  - intros j Hj. rewrite Hl1 in Hj. apply (k_free _ _ _ _ _ HK); [lia|by apply Hfree].
  - intros _ sy' (l&h2&qd2&->&HO&HCW&HE2&HEn&Hs2). exists l, h2, qd2. split_and!; try done.
    + rewrite HE2. apply HK.
    + eapply (pointwise_trans (Entered lim)); [|exact HEn]. cbn. by apply (pointwise_insert (Entered lim)) with c.
    + cbn in Hs2. lia.
Qed.

Lemma end_loop glob lim h qd n : forall i (sy : BW.Sys PQT), BW.heap sy = h ->
  (i + n)%nat = length (BW.cores sy) -> HeapOK h qd -> Forall (fun c => lim <= c) qd.*2 -> 0 <= glob <= lim -> lim < 2 ^ 61 ->
  (forall j c, (i <= j)%nat -> BW.cores sy !! j = Some c -> CoreW j c glob lim qd /\ TC.curCycle c < 2 ^ 61) ->
  (forall j c, (j < i)%nat -> BW.cores sy !! j = Some c -> CoreI j c lim h qd) ->
  wp (BW.each_core n i (fun _ => TC.cSimEnd)) (fun _ sy' => exists l, sy' = BW.mk l (BW.sim sy) h (BW.zinfo sy) /\
    (forall j c, l !! j = Some c -> CoreI j c lim h qd) /\ Forall2 Delayed (BW.cores sy) l) sy.
Proof.
  induction n as [|n IH]; intros i sy Hh Hn [HF HQ Hq] Hlate Hg Hlim Htodo Hdone.
  { cbn. wp_steps. exists (BW.cores sy). split_and!; [by destruct sy; cbn in Hh; subst| |by apply pointwise_refl; apply _].
    intros j c Hj. apply Hdone; [|done]. apply lookup_lt_Some in Hj. lia. }
  cbn [BW.each_core]. wp_steps. destruct (lookup_lt_is_Some_2 (BW.cores sy) i ltac:(lia)) as [c Hc].
  eapply wp_onCore; [exact Hc|]. destruct (Htodo i c ltac:(lia) Hc) as [HW Hcur]. rewrite Hh.
  eapply (cSimEnd_spec i c glob lim h qd); try done. intros c' HI HD _. cbn [fst snd]. set (sy1 := BW.mk _ _ _ _).
  assert (Hl1 : length (BW.cores sy1) = length (BW.cores sy)) by (cbn; apply length_insert).
  assert (Hlook : forall j cj, j <> i -> BW.cores sy1 !! j = Some cj -> BW.cores sy !! j = Some cj).
  { intros j cj Hj. cbn. by rewrite list_lookup_insert_ne. }
  assert (Hii : BW.cores sy1 !! i = Some c') by (cbn; apply list_lookup_insert_eq; lia).
  eapply wp_mono; [apply (IH (S i) sy1)|]; try done; try lia.
  - intros j cj Hj Hcj. apply Htodo; [lia|]. apply Hlook; [lia|done].
  - intros j cj Hj Hcj. destruct (decide (j = i)) as [->|Hne]; [rewrite Hii in Hcj; by injection Hcj as <-|]. apply Hdone; [lia|by apply Hlook].
  - intros _ sy' (l&->&H1&H2). exists l. split_and!; try done. eapply (pointwise_trans Delayed); [|exact H2]. cbn. by apply (pointwise_insert Delayed) with c.
Qed.

(** ** The invariant *)
Record SysI (sy : BW.Sys PQT) (qd : list (tree * Z)) (m : gmap nat Z) : Prop := {
  si_heap : HeapOK (BW.heap sy) qd;
  si_rep : pq_rep (CS.pq (BW.sim sy)) (globPhaseCycles (BW.zinfo sy)) m;
  si_qm : QM m qd;
  si_late : Forall (fun c => globPhaseCycles (BW.zinfo sy) <= c) qd.*2;
  si_sim : CS.curCycle (BW.sim sy) = globPhaseCycles (BW.zinfo sy) /\ CS.lastLimit (BW.sim sy) = globPhaseCycles (BW.zinfo sy) /\
    CS.inCSim (BW.sim sy) = false;
  si_glob : 0 <= globPhaseCycles (BW.zinfo sy);
  si_pl : 0 < phaseLength (BW.zinfo sy) < two32;
  si_cores : forall i c, BW.cores sy !! i = Some c -> CoreI i c (globPhaseCycles (BW.zinfo sy)) (BW.heap sy) qd;
  si_free : forall i, (length (BW.cores sy) <= i)%nat -> Free i qd [] }.

(** The end of a phase delays a core by what the contention simulation adds to its gap. *)
Definition Phased (lim : Z) (c c' : TC.t) : Prop := exists c1 c2, Entered lim c c1 /\ Same c1 c2 /\ Delayed c2 c'.

Lemma Forall2_compose lim l l1 l2 l' : Forall2 (Entered lim) l l1 -> Forall2 Same l1 l2 -> Forall2 Delayed l2 l' -> Forall2 (Phased lim) l l'.
Proof.
  intros HE. revert l2 l'. induction HE as [|c c1 l l1 E _ IH]; intros l2 l' H1 H2.
  - inversion H1; subst. by inversion H2.
  - inversion H1 as [|? c2 ? l2' E1 H1']; subst. inversion H2 as [|? c' ? l'' E2 H2']; subst. constructor; [by exists c1, c2|by eapply IH].
Qed.

Lemma end_phase_spec (sy : BW.Sys PQT) qd m : SysI sy qd m ->
  let zi := BW.zinfo sy in let lim := globPhaseCycles zi + phaseLength zi in
  (forall i c, BW.cores sy !! i = Some c -> PhaseDone zi c /\ TC.curCycle c < 2 ^ 60) -> lim < 2 ^ 60 ->
  Z.of_nat (base.size (hp_events (BW.heap sy))) + 2 * Z.of_nat (length (BW.cores sy)) < 2 ^ 29 ->
  fwp BW.end_phase (fun _ sy' => exists qd' m', SysI sy' qd' m' /\ BW.zinfo sy' = mkZinfo lim (phaseLength zi) /\
    Forall2 (Phased lim) (BW.cores sy) (BW.cores sy')) sy.
Proof.
  intros [HO HR HM Hlate (Hc&Hl&Hin) Hg Hpl Hcores Hfree] zi lim HP Hlim Hsz. fold zi in HR, Hlate, Hc, Hl, Hg, Hpl, Hcores.
  assert (two32 = 4294967296) by done.
  unfold BW.end_phase. fwp_steps. fold zi. change (globPhaseCycles zi + phaseLength zi) with lim. rewrite (u64_small lim) by (unfold two64; lia).
  apply fwp_bind. unfold BW.simulatePhase. apply fwp_bind, fwp_sim. fwp_steps. cbn [BW.sim BW.cores BW.zinfo BW.heap CS.with_limit CS.lastLimit].
  apply fwp_assert; [apply Z.leb_le; lia|]. apply fwp_wp_bind.
  eapply wp_mono; [apply (start_loop zi (length (BW.cores sy)) 0 _ qd); cbn; try done; try lia|].
  { intros j c _ Hj. split; [by apply Hcores|by eapply HP]. }
  intros _ sy1 (l1&h1&qd1&->&[HF1 HQ1 Hq1]&HW1&HE1&HEn&Hs1). cbn [BW.sim BW.zinfo BW.heap BW.cores] in *.
  apply fwp_bind, fwp_sim. cbn [BW.sim BW.zinfo BW.heap BW.cores].
  apply fwp_bind. eapply fwp_mono; [eapply (simulatePhaseThread_spec _ qd1 m (globPhaseCycles zi) (globPhaseCycles zi) lim)|].
  { split; cbn; try done; try lia.
    - by eapply QM_entries.
    - rewrite Hc. rewrite <- entries_snd, HE1, entries_snd. done.
    - fold zi. lia. }
  intros _ sy2 ((qd2&m2&f2&HW2&Hlate2&HSm&Hz2&Hs2)&Hc2). destruct HW2 as [W1 W2 W3 W4 W5 W6 W7 W8 W9 W10 W11 W12 W13 W14].
  cbn [BW.cores BW.zinfo BW.heap] in HSm, Hz2, Hs2.
  apply fwp_bind, fwp_sim. cbn [BW.sim BW.zinfo BW.heap BW.cores].
  assert (Hlen : length (BW.cores sy) = length (BW.cores sy2)) by (by rewrite (Forall2_length HEn), (Forall2_length HSm)).
  assert (Hcur : forall j c, BW.cores sy2 !! j = Some c -> TC.curCycle c < 2 ^ 61).
  { intros j c2 Hj. destruct (Forall2_lookup_r _ _ _ _ _ HSm Hj) as (c1&Hj1&[E1 _ _]).
    destruct (Forall2_lookup_r _ _ _ _ _ HEn Hj1) as (c0&Hj0&[_ _ E0]). destruct (HP j c0 Hj0) as [_ Hb]. lia. }
  apply fwp_wp_bind. rewrite Hlen. eapply wp_mono; [apply (end_loop (globPhaseCycles zi) lim (BW.heap sy2) qd2 _ 0); cbn; try done; try lia|].
  { intros j c _ Hj. split; [by apply (cw_core _ _ _ _ W14)|by eapply Hcur]. }
  intros _ sy3 (l3&->&HI3&HD3). apply fwp_sim. cbn [BW.sim BW.zinfo BW.heap BW.cores] in *. fwp_steps. cbn [BW.sim BW.zinfo BW.heap BW.cores].
  rewrite Hz2. fold zi. change (globPhaseCycles zi + phaseLength zi) with lim. rewrite (u64_small lim) by (unfold two64; lia).
  exists qd2, m2. split; [|split; [done|by eapply Forall2_compose]]. split; cbn; try done; try lia.
  - eapply pq_rep_mono; [exact W5|lia].
  - intros j Hj. apply (cw_free _ _ _ _ W14). rewrite <- (Forall2_length HD3) in Hj. done.
Qed.

(** ** The operations of the bound phase *)
Lemma clear_id h : hp_queue h = [] -> clear h = h.
Proof. destruct h as [m n q]. cbn. by intros ->. Qed.

(** The others after an operation of core [i] that queued the trees [fr]. *)
Lemma SysI_op sy qd m i c c' h' fr qd' q' m' : SysI sy qd m -> BW.cores sy !! i = Some c ->
  HeapOK h' (fr ++ qd') -> Keeps i qd [] qd' [] -> CoreI i c' (globPhaseCycles (BW.zinfo sy)) h' (fr ++ qd') ->
  (forall j, j <> i -> Forall (nocore j) fr.*1) -> Forall (fun z => globPhaseCycles (BW.zinfo sy) <= z) fr.*2 ->
  pq_rep q' (globPhaseCycles (BW.zinfo sy)) m' -> QM m' (fr ++ qd') ->
  SysI (BW.mk (<[i := c']> (BW.cores sy)) (CS.with_pq q' (BW.sim sy)) h' (BW.zinfo sy)) (fr ++ qd') m'.
Proof.
  intros [HO HR HM Hlate Hsim Hg Hpl Hcores Hfree] Hc HO' HK HI Hfr Hlf HR' HM'. destruct (HO') as [HF' HQ' Hq'].
  assert (HK' : Keeps i qd [] qd' []) by done.
  assert (Happ : forall j, j <> i -> Free j qd' [] -> Free j (fr ++ qd') []).
  { intros j Hj [H1 H2]. split; [|done]. rewrite fmap_app. apply Forall_app. auto. }
  split; cbn; try done.
  - rewrite fmap_app. apply Forall_app. split; [done|]. rewrite <- entries_snd, (k_entries _ _ _ _ _ HK), entries_snd. done.
  - intros j cj Hj. destruct (decide (j = i)) as [->|Hne].
    + rewrite list_lookup_insert_eq in Hj by (by eapply lookup_lt_Some). by injection Hj as <-.
    + rewrite list_lookup_insert_ne in Hj by done. destruct (Hcores j cj Hj) as (A1&A2&A3). split; [done|]. split; [done|].
      destruct A3 as [[B1 B2 B3 B4 B5]|(x&nx&[[C1 C2 C3 C4 C5 C6 C7 C8] D2 D3 D4 D5])].
      * left. split; try done. apply Happ; [done|]. by apply (k_free _ _ _ _ _ HK).
      * right. exists x, nx. split; try done. split; try done. apply (k_chain _ _ _ _ _ HK) in C4; [|done].
        destruct C4 as (t&z&rest&[P1 P2 P3 P4 P5 P6]). exists t, z, (fr ++ rest). split; try done.
        -- rewrite P1. symmetry. apply Permutation_middle.
        -- rewrite fmap_app. apply Forall_app. auto.
  - intros j Hj. rewrite length_insert in Hj. pose proof (lookup_lt_Some _ _ _ Hc). apply Happ; [lia|]. apply (k_free _ _ _ _ _ HK); [lia|]. by apply Hfree.
Qed.

Definition op_post (sy : BW.Sys PQT) (i : nat) (sy' : BW.Sys PQT) : Prop := exists qd' m' c',
  SysI sy' qd' m' /\ BW.zinfo sy' = BW.zinfo sy /\ BW.cores sy' = <[i := c']> (BW.cores sy).

Lemma core_op_spec sy qd m i c (f : Zinfo -> TC.TM unit) : SysI sy qd m -> BW.cores sy !! i = Some c -> globPhaseCycles (BW.zinfo sy) < 2 ^ 60 ->
  wp (f (BW.zinfo sy)) (fun _ x => exists fr qd', hp_queue x.2 = entries fr /\ HeapOK (clear x.2) (fr ++ qd') /\ Keeps i qd [] qd' [] /\
    CoreI i x.1 (globPhaseCycles (BW.zinfo sy)) (clear x.2) (fr ++ qd') /\ (forall j, j <> i -> Forall (nocore j) fr.*1) /\
    Forall (fun y => globPhaseCycles (BW.zinfo sy) <= y.2) fr /\ Z.of_nat (base.size (hp_events x.2)) < 2 ^ 31) (c, BW.heap sy) ->
  fwp (BW.core_op i f) (fun _ sy' => op_post sy i sy') sy.
Proof.
  intros HS Hc Hgl HW. unfold BW.core_op. fwp_steps. apply fwp_wp_bind. eapply wp_onCore; [exact Hc|]. eapply wp_mono; [exact HW|].
  intros _ [c' h'] (fr&qd'&Hq&HO&HK&HI&Hfr&Hlf&Hsz). cbn [fst snd] in *. destruct (HS) as [_ HR HM _ (S1&S2&S3) Hg Hpl _ _].
  apply fwp_onSim. cbn [BW.sim BW.heap BW.zinfo BW.cores].
  eapply (flush_spec _ _ h' fr qd' m (globPhaseCycles (BW.zinfo sy))); try done; try lia.
  - destruct HO as [[A1 A2 A3 A4] _ _]. by split.
  - apply HO.
  - eapply QM_entries; [|exact HM]. apply HK.
  - intros q' m' HR' HM'. cbn [fst snd]. eexists _, m', c'. split; [|done]. eapply (SysI_op sy qd m i c); try done. by apply Forall_fmap.
Qed.

(** An operation of a core that runs or drains and queues nothing. *)
Lemma live_op_spec sy qd m i c (f : Zinfo -> TC.TM unit) : SysI sy qd m -> BW.cores sy !! i = Some c -> globPhaseCycles (BW.zinfo sy) < 2 ^ 60 ->
  wp (f (BW.zinfo sy)) (fun _ x => exists qd' y ny, Live i x.1 (globPhaseCycles (BW.zinfo sy)) x.2 qd' y ny /\ Keeps i qd [] qd' [] /\
    CR.domain (TC.cRec x.1) = 0 /\ hasRecord (CR.eventRecorder (TC.cRec x.1)) = false /\
    Z.of_nat (base.size (hp_events x.2)) < 2 ^ 31) (c, BW.heap sy) ->
  fwp (BW.core_op i f) (fun _ sy' => op_post sy i sy') sy.
Proof.
  intros HS Hc Hgl HW. eapply core_op_spec; try done. eapply wp_mono; [exact HW|].
  intros _ [c' h'] (qd'&y&ny&HL&HK&Hd&Hr&Hsz). cbn [fst snd] in *. exists [], qd'. destruct (HL) as [[B1 B2 B3 _ _ _ _ _] _ _ _ _].
  rewrite (clear_id h') by done. split_and!; try done. split; [done|]. split; [done|]. right. by exists y, ny.
Qed.
End Sys.
