(* ===== verification/BoundWeaveThms.v ===== *)
(** * Any run of the bound-weave system

    [op_ok] is the contract of the operations: what the scheduler, the barrier and the
    configuration guarantee when they are called.  Under it no assertion of the recorders,
    the events, the simulator or the queue fails, but for the one against far events. *)

From S2P Require Import Prelude Bithacks PrioQueue MemHier TimingEvent EventTree CoreRecorder BoundWeave BoundWeaveInv BoundWeaveSim BoundWeaveLoop BoundWeaveSys BoundWeavePQ BoundWeavePort.

(** ** The contract *)
Definition running (c : TC.t) : bool := bool_decide (CR.state (TC.cRec c) = CR.RUNNING).
(** [n] cycles later the clock is far from wrapping around, and the cycles since the last
    event of the recorder fit the 32 bits of a delay. *)
Definition roomy (n : Z) (c : TC.t) : bool :=
  (TC.curCycle c + n <? 2 ^ 60) && (TC.curCycle c + n - CR.prevRespCycle (TC.cRec c) <? 2 ^ 31).

Section Contract.
Context {PQT : Type} (lineBits : Z).

Definition core_ok (sy : BW.Sys PQT) (i : nat) (p : TC.t -> bool) : bool :=
  match BW.cores sy !! i with Some c => p c | None => false end.

Definition op_ok (sy : BW.Sys PQT) (o : BW.op) : bool :=
  let lim := globPhaseCycles (BW.zinfo sy) + phaseLength (BW.zinfo sy) in
  (lim <? 2 ^ 60) && (Z.of_nat (base.size (hp_events (BW.heap sy))) <? 2 ^ 28) &&
  match o with
  | BW.Join i => core_ok sy i (fun c => negb (running c))
  | BW.Leave i | BW.Access i _ _ => core_ok sy i (fun c => running c && roomy 0 c)
  | BW.Bbl i addr instrs bytes =>
      (0 <=? addr) && (0 <=? instrs) && (0 <? bytes) && (addr + bytes + 2 ^ lineBits <? two64) &&
      core_ok sy i (fun c => running c && roomy (instrs + Z.of_nat (lines lineBits bytes) * 2 ^ 20) c)
  | BW.EndPhase =>
      (Z.of_nat (length (BW.cores sy)) <? 2 ^ 20) &&
      forallb (fun c => (TC.curCycle c <? 2 ^ 60) && implb (running c) ((lim <=? TC.curCycle c) && roomy 0 c)) (BW.cores sy)
  end.
End Contract.

Section Ops.
Context {PQT : Type} `{HPQ : PQLaws PQT} `{HPort : PortLaws} (lineBits : Z) (Hlb : 0 <= lineBits).

Ltac split_ok := repeat match goal with
  | H : _ && _ = true |- _ => apply andb_true_iff in H as [? H]
  | H : (_ <? _) = true |- _ => apply Z.ltb_lt in H
  | H : (_ <=? _) = true |- _ => apply Z.leb_le in H
  end.

Lemma core_ok_elim (sy : BW.Sys PQT) i p : core_ok sy i p = true -> exists c, BW.cores sy !! i = Some c /\ p c = true.
Proof. unfold core_ok. destruct (_ !! i) as [c|]; [|done]. by exists c. Qed.

(** A core that runs is on the chain of its recorder. *)
Lemma running_live (sy : BW.Sys PQT) qd m i c : SysI sy qd m -> BW.cores sy !! i = Some c -> running c = true ->
  CR.state (TC.cRec c) = CR.RUNNING /\ CR.domain (TC.cRec c) = 0 /\ hasRecord (CR.eventRecorder (TC.cRec c)) = false /\
  exists x nx, Live i c (globPhaseCycles (BW.zinfo sy)) (BW.heap sy) qd x nx.
Proof.
  intros HS Hc Hr. apply bool_decide_eq_true in Hr. destruct (si_cores _ _ _ HS i c Hc) as (H1&H2&[[H3 _ _ _ _]|H3]); [congruence|]. done.
Qed.

Lemma moved_fields r r' : moved r r' -> CR.domain r' = CR.domain r /\ hasRecord (CR.eventRecorder r') = false.
Proof. by intros (z&x&er&->&H1&H2). Qed.

Lemma join_op sy qd m i : SysI sy qd m -> op_ok lineBits sy (BW.Join i) = true ->
  fwp (BW.do_op lineBits (BW.Join i)) (fun _ sy' => op_post sy i sy') sy.
Proof.
  intros HS Hok. unfold op_ok in Hok. split_ok. apply core_ok_elim in Hok as (c&Hc&Hnr). apply negb_true_iff, bool_decide_eq_false in Hnr.
  pose proof (si_glob _ _ _ HS). pose proof (si_pl _ _ _ HS).
  destruct (si_cores _ _ _ HS i c Hc) as (A1&A2&[A3|(x&nx&A3)]); cbn [BW.do_op].
  - eapply core_op_spec; try done; [lia|]. destruct (si_heap _ _ _ HS) as [HF HQ Hq]. eapply (join_halted i); try done; [lia|].
    intros c' h' t nx glob HL Hr' Hd' Hrec Hcur Hq' Hno Hdom Hfr Hs. exists [(t, glob)], qd. cbn [fst snd]. destruct (HL) as [[B1 B2 B3 _ _ _ _ _] _ _ _ _].
    split_and!; try done; try by constructor.
    + split; [done|]. split; [done|]. right. by exists (root t), nx.
    + intros j Hj. constructor; [by apply Hno|done].
    + lia.
  - eapply live_op_spec; try done; [lia|]. eapply (join_draining i); [exact A3|destruct A3 as [_ Hh _ _ _]; by destruct (CR.state (TC.cRec c))|].
    intros c' HL Hr' Hd' He' Hcur. exists qd, x, nx. cbn [fst snd]. rewrite Hd', He'. split_and!; try done. lia.
Qed.

Lemma running_op sy qd m o i : SysI sy qd m -> op_ok lineBits sy o = true ->
  match o with BW.Leave j | BW.Access j _ _ | BW.Bbl j _ _ _ => j = i | _ => False end ->
  fwp (BW.do_op lineBits o) (fun _ sy' => op_post sy i sy') sy.
Proof.
  intros HS Hok Ho. pose proof (si_glob _ _ _ HS). pose proof (si_pl _ _ _ HS). assert (two32 = 4294967296) by done.
  destruct o as [j|j|j k a|j a n b|]; try done; subst j; unfold op_ok in Hok; split_ok; apply core_ok_elim in Hok as (c&Hc&Hr); split_ok;
    destruct (running_live sy qd m i c HS Hc) as (Hst&Hd&Hrec&x&nx&HL); try done; unfold roomy in *; split_ok; pose proof (lv_prev _ _ _ _ _ _ _ HL); cbn [BW.do_op];
    (eapply live_op_spec; [done|done|lia|]).
  - eapply tc_leave_spec; try done; try lia. intros c' h' qd' x' nx' HL' Hst' Hd' Hr' Hcur HK Hs. exists qd', x', nx'. cbn [fst snd].
    rewrite Hd'. split_and!; try done. lia.
  - eapply tc_access_spec; try done; try lia. intros c' h' qd' x' nx' HL' HM Hcur HK Hs. exists qd', x', nx'. cbn [fst snd].
    destruct (moved_fields _ _ HM) as [-> ->]. split_and!; try done. lia.
  - eapply tc_bbl_spec; try done; try lia. intros c' h' qd' x' nx' HL' HM Hcur HK Hs. exists qd', x', nx'. cbn [fst snd].
    destruct (moved_fields _ _ HM) as [-> ->]. split_and!; try done. lia.
Qed.

Lemma phase_op sy qd m : SysI sy qd m -> op_ok lineBits sy BW.EndPhase = true ->
  let zi := BW.zinfo sy in let lim := globPhaseCycles zi + phaseLength zi in
  fwp (BW.do_op lineBits BW.EndPhase) (fun _ sy' => exists qd' m', SysI sy' qd' m' /\ BW.zinfo sy' = mkZinfo lim (phaseLength zi) /\
    Forall2 (Phased lim) (BW.cores sy) (BW.cores sy')) sy.
Proof.
  intros HS Hok zi lim. unfold op_ok in Hok. split_ok. cbn [BW.do_op]. eapply end_phase_spec; try done; try lia.
  intros i c Hc. rewrite forallb_forall in Hok. assert (Hi : In c (BW.cores sy)) by (apply list_elem_of_In; by eapply list_elem_of_lookup_2).
  specialize (Hok c Hi). split_ok. split; [|done]. intros Hst. unfold running in Hok. rewrite Hst in Hok. rewrite bool_decide_eq_true_2 in Hok by done. cbn [implb] in Hok. unfold roomy in Hok. split_ok.
  unfold two32, lim, zi in *. lia.
Qed.

Lemma sys_op_spec sy qd m o : SysI sy qd m -> op_ok lineBits sy o = true ->
  fwp (BW.do_op lineBits o) (fun _ sy' => exists qd' m', SysI sy' qd' m') sy.
Proof.
  intros HS Hok. assert (Hpost : forall i, fwp (BW.do_op lineBits o) (fun _ sy' => op_post sy i sy') sy -> fwp (BW.do_op lineBits o) (fun _ sy' => exists qd' m', SysI sy' qd' m') sy).
  { intros i Hf. eapply fwp_mono; [exact Hf|]. intros _ sy' (qd'&m'&c'&HS'&_). by exists qd', m'. }
  destruct o as [i|i|i k a|i a n b|].
  - eapply Hpost, join_op; done.
  - eapply Hpost, running_op; done.
  - eapply Hpost, running_op; done.
  - eapply Hpost, running_op; done.
  - eapply fwp_mono; [eapply phase_op; done|]. intros _ sy' (qd'&m'&HS'&_). by exists qd', m'.
Qed.

(** Every operation of [l] meets its contract when its turn comes. *)
Fixpoint admissible (l : list BW.op) (sy : BW.Sys PQT) : bool :=
  match l with
  | [] => true
  | o :: l => op_ok lineBits sy o && match BW.do_op lineBits o sy with Ok (_, sy') => admissible l sy' | Err _ => true end
  end.

Lemma run_SysI l : forall sy qd m, SysI sy qd m -> admissible l sy = true -> fwp (BW.run lineBits l) (fun _ sy' => exists qd' m', SysI sy' qd' m') sy.
Proof.
  induction l as [|o l IH]; intros sy qd m HS Hadm; cbn [BW.run]; [fwp_steps; by exists qd, m|].
  cbn in Hadm. apply andb_true_iff in Hadm as [Hok Hadm]. apply fwp_bind. pose proof (sys_op_spec sy qd m o HS Hok) as Hf.
  unfold fwp in Hf |- *. destruct (BW.do_op lineBits o sy) as [[[] sy1]|]; [|done]. destruct Hf as (qd1&m1&HS1). by apply (IH sy1 qd1 m1).
Qed.
End Ops.

(** ** Reading the invariant *)

(** The simulator is at the beginning of the phase, no event waits before it, the clocks of
    the cores that have not halted are past it and include their delays, and an empty queue
    means that every core has halted. *)
Record Sound {PQT} `{EventPQ PQT} (sy : BW.Sys PQT) : Prop := {
  so_sim : CS.lastLimit (BW.sim sy) = globPhaseCycles (BW.zinfo sy);
  so_late : pq_size (CS.pq (BW.sim sy)) = 0 \/ exists c, pq_firstCycle (CS.pq (BW.sim sy)) = Ok c /\ globPhaseCycles (BW.zinfo sy) <= c;
  so_clock : forall i c, BW.cores sy !! i = Some c -> CR.state (TC.cRec c) <> CR.HALTED ->
    globPhaseCycles (BW.zinfo sy) <= TC.curCycle c /\ 0 <= CR.gapCycles (TC.cRec c) <= TC.curCycle c;
  so_halted : pq_size (CS.pq (BW.sim sy)) = 0 -> forall i c, BW.cores sy !! i = Some c -> CR.state (TC.cRec c) = CR.HALTED }.

Section Reading.
Context {PQT : Type} `{HPQ : PQLaws PQT}.

Lemma SysI_sound (sy : BW.Sys PQT) qd m : SysI sy qd m -> Sound sy.
Proof.
  intros [HO HR HM Hlate (S1&S2&S3) Hg Hpl Hcores Hfree]. pose proof (first_spec _ _ m qd HR HM) as Hfst. split.
  - done.
  - destruct Hfst as [[E _]|(c1&o1&_&E&Ho&_)]; [left; by apply Z.eqb_eq|right]. exists c1. split; [done|].
    apply HM in Ho. rewrite <- entries_snd in Hlate. elems. apply Hlate. apply list_elem_of_fmap. by exists (o1, c1).
  - intros i c Hi Hst. destruct (Hcores i c Hi) as (_&_&[[Hh _ _ _ _]|(x&nx&[HB _ _ Hp Hgl])]); [done|]. pose proof (bi_gap _ _ _ _ _ _ _ HB). lia.
  - intros Hs i c Hi. destruct (Hcores i c Hi) as (_&_&[[Hh _ _ _ _]|(x&nx&[HB _ _ _ _])]); [done|].
    destruct Hfst as [[_ ->]|(c1&o1&E&_)]; [|by apply Z.eqb_neq in E]. destruct (bi_chain _ _ _ _ _ _ _ HB) as (t&z&rest&HC).
    pose proof (ch_perm _ _ _ _ _ _ _ _ _ _ HC) as HP. by apply Permutation_nil_cons in HP.
Qed.

Lemma Phased_elim lim c c' : Phased lim c c' ->
  CR.gapCycles (TC.cRec c) <= CR.gapCycles (TC.cRec c') /\
  (CR.state (TC.cRec c') = CR.state (TC.cRec c) \/ CR.state (TC.cRec c) = CR.DRAINING /\ CR.state (TC.cRec c') = CR.HALTED) /\
  (CR.state (TC.cRec c) <> CR.DRAINING -> zll c' = zll c).
Proof.
  intros (c1&c2&[A1 A2 A3]&[B1 B2 B3]&[D1 D2 D3]). split_and!.
  - lia.
  - rewrite B3, A1 in D3. done.
  - intros Hd. destruct A3 as [A3|[A3 _]]; [|done]. unfold zll in *. lia.
Qed.

Lemma init_SysI ers junk len : Forall (fun er => hasRecord er = false) ers -> 0 < len < two32 ->
  SysI (PQT := PQT) (BW.init ers junk len) [] ∅.
Proof.
  intros Her Hlen. split; cbn; try done; try lia.
  - split; [|done|done]. split; try done. constructor.
  - apply pq_rep_empty.
  - intros o c. rewrite lookup_empty. split; [done|]. intros Hx. by apply elem_of_nil in Hx.
  - intros i c (er&->&He)%list_lookup_fmap_Some. split; [done|]. split; [elems; apply list_elem_of_lookup_2 in He; by apply (Her er)|].
    left. by split.
Qed.
End Reading.

(** ** The system with prio_queue.h and the weave memory *)
Section Config.
Context (lineBits latency zeroLoadLatency : Z) (w : WM.t) (route : nat -> AccessKind -> Z -> Z -> WM.Route).

(** The configuration: the weave memory and the latencies of the caches. *)
Record Config (ers : list EventRecorder) (len : Z) : Prop := {
  cf_line : 0 <= lineBits;
  cf_mem : WM.init latency zeroLoadLatency 0 = Ok w;
  cf_zll : 0 <= zeroLoadLatency;
  cf_lat : 0 < latency <= 2 ^ 18;
  cf_route : forall i k a c, route_ok (route i k a c);
  cf_ers : Forall (fun er => hasRecord er = false) ers;
  cf_len : 0 < len < two32 }.

#[local] Instance P : Port := WM.cache_port w route.

(** C14: Any sequence of joins, leaves, accesses, basic blocks and ends of phases that
    meets the contract of the operations runs to its end, for any number of cores, any
    initial garbage in the recorders and any routes of small latencies: no assertion of the
    recorders (negative skew, states), of the events, of the simulator (events back in time)
    or of the priority queue fails, and the weave loop ends.  The one exception is the
    assertion against events that are scheduled too far ahead.  After it the clocks are
    past the phase, no event waits before it, and an empty queue means that every core has
    halted. *)
Theorem boundweave_safe ers junk len l : Config ers len -> admissible (PQT := PQ.t) lineBits l (BW.init ers junk len) = true ->
  match BW.run (Q := PQ.t) lineBits l (BW.init ers junk len) with
  | Ok (_, sy) => Sound sy
  | Err e => e = Panic CS.far_msg
  end.
Proof.
  intros [H1 H2 H3 H4 H5 H6 H7] Hadm. assert (HPL : PortLaws) by by eapply cache_port_laws.
  pose proof (run_SysI lineBits H1 l _ [] ∅ (init_SysI ers junk len H6 H7) Hadm) as Hf. unfold fwp in Hf.
  destruct (BW.run lineBits l _) as [[[] sy]|]; [|done]. destruct Hf as (qd&m&HS). by eapply SysI_sound.
Qed.

(** C15: The end of a phase only delays: from any state that an admissible sequence
    reaches, the contention simulation adds the same number of cycles to the clock and to
    the gap of a core that runs, so that its contention-free clock (the clock less the gap)
    does not move and its delay never shrinks; only a core that drains halts, and no event
    before the new phase stays queued. *)
Theorem weave_delays ers junk len l sy sy' : Config ers len -> admissible (PQT := PQ.t) lineBits l (BW.init ers junk len) = true ->
  BW.run (Q := PQ.t) lineBits l (BW.init ers junk len) = Ok (tt, sy) -> op_ok lineBits sy BW.EndPhase = true ->
  BW.do_op lineBits BW.EndPhase sy = Ok (tt, sy') ->
  globPhaseCycles (BW.zinfo sy') = globPhaseCycles (BW.zinfo sy) + phaseLength (BW.zinfo sy) /\ Sound sy' /\
  forall i c c', BW.cores sy !! i = Some c -> BW.cores sy' !! i = Some c' ->
    CR.gapCycles (TC.cRec c) <= CR.gapCycles (TC.cRec c') /\
    (CR.state (TC.cRec c') = CR.state (TC.cRec c) \/ CR.state (TC.cRec c) = CR.DRAINING /\ CR.state (TC.cRec c') = CR.HALTED) /\
    (CR.state (TC.cRec c) <> CR.DRAINING ->
     TC.curCycle c' - CR.gapCycles (TC.cRec c') = TC.curCycle c - CR.gapCycles (TC.cRec c)).
Proof.
  intros [H1 H2 H3 H4 H5 H6 H7] Hadm Hrun Hok Hend. assert (HPL : PortLaws) by by eapply cache_port_laws.
  pose proof (run_SysI lineBits H1 l _ [] ∅ (init_SysI ers junk len H6 H7) Hadm) as Hf. unfold fwp in Hf. rewrite Hrun in Hf.
  destruct Hf as (qd&m&HS). pose proof (phase_op lineBits sy qd m HS Hok) as Hp. cbn zeta in Hp. unfold fwp in Hp. rewrite Hend in Hp.
  destruct Hp as (qd'&m'&HS'&Hz&HF). split; [by rewrite Hz|]. split; [by eapply SysI_sound|].
  intros i c c' Hc Hc'. eapply Phased_elim. by eapply Forall2_lookup_lr.
Qed.
End Config.

(** ** An example: two cores, hits, misses and writebacks, a leave and a join *)
Definition bw_er : EventRecorder := mkRecorder (mkRecord 0 0 0 GETS None None) 0 0 0.
Definition bw_mem : WM.t := WM.mk 120 100 0 50 50.
Definition bw_route (i : nat) (k : AccessKind) (a c : Z) : WM.Route :=
  if a =? 1 then WM.Hit 4 else if a =? 2 then WM.Miss 10 5 GETS else if a =? 3 then WM.HitEvict 12 30 else WM.MissEvict 11 10 7 GETX.
Definition bw_phase1 : list BW.op :=
  [BW.Join 0; BW.Join 1; BW.Access 0 Load 1; BW.Access 0 Load 2; BW.Access 0 Store 3; BW.Access 0 Load 4; BW.Bbl 0 0 1000 64;
   BW.Access 1 Load 4; BW.Access 1 Load 4; BW.Bbl 1 0 900 100].
Definition bw_rest : list BW.op :=
  [BW.EndPhase; BW.Leave 1; BW.Access 0 Load 2; BW.Bbl 0 0 1000 64; BW.EndPhase; BW.Bbl 0 0 1000 64; BW.EndPhase; BW.Join 1;
   BW.Bbl 0 0 1000 64; BW.Leave 1; BW.EndPhase; BW.Leave 0; BW.EndPhase; BW.EndPhase; BW.EndPhase].
Definition bw_init : BW.Sys PQ.t := BW.init [bw_er; bw_er] 77 1000.

Lemma bw_config : Config 6 120 100 bw_mem bw_route [bw_er; bw_er] 1000.
Proof.
  split; try done; try lia; [|repeat constructor].
  intros i k a c. unfold bw_route. destruct (a =? 1); [cbn; lia|]. destruct (a =? 2); [cbn; split_and!; try done; lia|]. destruct (a =? 3); cbn; split_and!; try done; lia.
Qed.

Definition bw_state (l : list BW.op) (sy : BW.Sys PQ.t) : BW.Sys PQ.t :=
  match @BW.run PQ.t _ (WM.cache_port bw_mem bw_route) 6 l sy with Ok (_, sy) => sy | Err _ => sy end.
Lemma bw_run l sy : is_ok (@BW.run PQ.t _ (WM.cache_port bw_mem bw_route) 6 l sy) = true ->
  @BW.run PQ.t _ (WM.cache_port bw_mem bw_route) 6 l sy = Ok (tt, bw_state l sy).
Proof. unfold bw_state. by destruct (BW.run _ _ _) as [[[] ?]|]. Qed.

(** [boundweave_safe] at the example: it runs to its end and every core halts. *)
Lemma boundweave_safe_witness : Sound (bw_state (bw_phase1 ++ bw_rest) bw_init) /\
  CR.state <$> (TC.cRec <$> BW.cores (bw_state (bw_phase1 ++ bw_rest) bw_init)) = [CR.HALTED; CR.HALTED].
Proof.
  split; [|vm_compute; reflexivity].
  pose proof (boundweave_safe 6 120 100 bw_mem bw_route [bw_er; bw_er] 77 1000 (bw_phase1 ++ bw_rest) bw_config ltac:(vm_compute; reflexivity)) as H.
  change (BW.init [bw_er; bw_er] 77 1000) with bw_init in H. unfold P in H. rewrite (bw_run (bw_phase1 ++ bw_rest) bw_init) in H by (vm_compute; reflexivity). exact H.
Defined.

Definition bw_sy1 : BW.Sys PQ.t := bw_state bw_phase1 bw_init.
Definition bw_sy2 : BW.Sys PQ.t := bw_state [BW.EndPhase] bw_sy1.
Lemma bw_step : @BW.do_op PQ.t _ (WM.cache_port bw_mem bw_route) 6 BW.EndPhase bw_sy1 = Ok (tt, bw_sy2).
Proof.
  assert (E := bw_run [BW.EndPhase] bw_sy1 ltac:(vm_compute; reflexivity)). fold bw_sy2 in E. cbn [BW.run] in E. unfold mbind, M_bind in E.
  destruct (BW.do_op 6 BW.EndPhase bw_sy1) as [[[] s]|]; [exact E|done].
Qed.

(** [weave_delays] at the end of the first phase: both cores are delayed. *)
Lemma weave_delays_witness : globPhaseCycles (BW.zinfo bw_sy2) = globPhaseCycles (BW.zinfo bw_sy1) + phaseLength (BW.zinfo bw_sy1) /\
  Forall (fun c => 0 < CR.gapCycles (TC.cRec c)) (BW.cores bw_sy2).
Proof.
  assert (Hadm : @admissible PQ.t _ (WM.cache_port bw_mem bw_route) 6 bw_phase1 bw_init = true) by (vm_compute; reflexivity).
  assert (Hrun := bw_run bw_phase1 bw_init ltac:(vm_compute; reflexivity)). fold bw_sy1 in Hrun.
  assert (Hok : op_ok 6 bw_sy1 BW.EndPhase = true) by (vm_compute; reflexivity).
  split; [|vm_compute; repeat constructor].
  exact (proj1 (weave_delays 6 120 100 bw_mem bw_route [bw_er; bw_er] 77 1000 bw_phase1 bw_sy1 bw_sy2 bw_config Hadm Hrun Hok bw_step)).
Defined.
