(* ===== verification/TimingCache.v ===== *)
(** * The timing cache (src/src/timing_cache.h, timing_cache.cpp, breakdown_stats.h)

    The bound phase records the events of each access ([access]); the weave phase simulates
    them ([simulate]): the tag port, which serves one lookup per cycle, with lookups of high
    and of low priority, and the MSHRs, which limit the misses in flight.  Controller and
    array are the virtual classes CC and CacheArray, here an interface.  [Sys] is a closed
    system of one timing cache between cores and a weave-phase memory. *)

From S2P Require Import Prelude Bithacks MemHier TimingEvent CoreRecorder.

Module TCache.

(** ** CycleBreakdownStat *)
Record Breakdown := mkBd { bd_counts : list Z; bd_curState : Z; bd_lastCycle : Z }.
Definition bd_init (size : Z) : Breakdown := mkBd (replicate (Z.to_nat size) 0) 0 0.
Definition bd_size (b : Breakdown) : Z := Z.of_nat (length (bd_counts b)).
Definition bd_inc (idx delta : Z) (l : list Z) : list Z := alter (fun v => u64 (v + delta)) (Z.to_nat idx) l.
Definition bd_transition (newState cycle : Z) (b : Breakdown) : res Breakdown :=
  _ ← rassert (bd_curState b <? bd_size b) "curState < size()";
  _ ← rassert (newState <? bd_size b) "newState < size()";
  _ ← rassert (bd_lastCycle b <=? cycle) "lastCycle <= cycle";
  Ok (mkBd (bd_inc (bd_curState b) (u64 (cycle - bd_lastCycle b)) (bd_counts b)) newState cycle).
Definition bd_count (globPhaseCycles idx : Z) (b : Breakdown) : Z :=
  let partial := bd_counts b !!! Z.to_nat idx in
  let curCycle := MAX (bd_lastCycle b) globPhaseCycles in
  u64 (partial + (if idx =? bd_curState b then u64 (curCycle - bd_lastCycle b) else 0)).

(** ** The cache's own state *)
Record t := mk {
  lastAccCycle : Z; lastFreeCycle : Z;
  numMSHRs : Z; activeMisses : Z;
  pendingQueue : list nat;
  profOccHist : Breakdown;
  profHitLat : Z; profMissRespLat : Z; profMissLat : Z;
  domain : Z; tagLat : Z; ways : Z; cands : Z; accLat : Z }.

Definition init (mshrs tagLat ways cands accLat domain : Z) : res t :=
  _ ← rassert (0 <? mshrs) "numMSHRs > 0";
  Ok (mk 0 0 mshrs 0 [] (bd_init (mshrs + 1)) 0 0 0 domain tagLat ways cands accLat).

Definition with_port (acc free : Z) (c : t) : t :=
  mk acc free (numMSHRs c) (activeMisses c) (pendingQueue c) (profOccHist c) (profHitLat c)
    (profMissRespLat c) (profMissLat c) (domain c) (tagLat c) (ways c) (cands c) (accLat c).
Definition with_active (n : Z) (occ : Breakdown) (c : t) : t :=
  mk (lastAccCycle c) (lastFreeCycle c) (numMSHRs c) n (pendingQueue c) occ (profHitLat c)
    (profMissRespLat c) (profMissLat c) (domain c) (tagLat c) (ways c) (cands c) (accLat c).
Definition with_pending (q : list nat) (c : t) : t :=
  mk (lastAccCycle c) (lastFreeCycle c) (numMSHRs c) (activeMisses c) q (profOccHist c) (profHitLat c)
    (profMissRespLat c) (profMissLat c) (domain c) (tagLat c) (ways c) (cands c) (accLat c).
Definition with_prof (hit resp miss : Z) (c : t) : t :=
  mk (lastAccCycle c) (lastFreeCycle c) (numMSHRs c) (activeMisses c) (pendingQueue c) (profOccHist c)
    hit resp miss (domain c) (tagLat c) (ways c) (cands c) (accLat c).

(** ** The tag port *)
Definition highPrioAccess (cycle : Z) : M t Z :=
  c ← mget;
  massert (lastFreeCycle c <=? cycle) "cycle >= lastFreeCycle";;
  let lookupCycle := MAX cycle (u64 (lastAccCycle c + 1)) in
  let free := if lastAccCycle c <? u64 (cycle - 1) then u64 (cycle - 1) else lastFreeCycle c in
  mmodify (with_port lookupCycle free);;
  mret lookupCycle.

Definition tryLowPrioAccess (cycle : Z) : M t Z :=
  c ← mget;
  if (lastAccCycle c <? u64 (cycle - 1)) || (lastFreeCycle c =? u64 (cycle - 1)) then
    mmodify (with_port (MAX (u64 (cycle - 1)) (lastAccCycle c)) 0);;
    mret cycle
  else mret 0.

(** ** Events *)
(** The subclasses of TimingEvent, with their own fields; [startCycle] is not initialised by
    the constructor. *)
Inductive Kind :=
| HitEvent
| MissStartEvent (startCycle : option Z)
| MissResponseEvent (mse : nat)
| MissWritebackEvent (mse : nat)
| ReplAccessEvent (accsLeft : Z).

(** The memory as the cache sees it: the controllers' state, the cache, the subclasses'
    fields (which stay readable after the event is freed), the cores' event recorders and
    the events. *)
Record W (X : Type) := mkW {
  w_x : X; w_tc : t; w_kinds : gmap nat Kind; w_recs : list EventRecorder; w_heap : EvHeap }.
Arguments mkW {X}. Arguments w_x {X}. Arguments w_tc {X}. Arguments w_kinds {X}.
Arguments w_recs {X}. Arguments w_heap {X}.

Section Cache.
Context {X : Type}.
Abbreviation TM := (M (W X)).

Definition onHeap {A} (m : EvM A) : TM A := fun s =>
  match m (w_heap s) with
  | Ok (a, h) => Ok (a, mkW (w_x s) (w_tc s) (w_kinds s) (w_recs s) h)
  | Err f => Err f
  end.
Definition onTc {A} (m : M t A) : TM A := fun s =>
  match m (w_tc s) with
  | Ok (a, c) => Ok (a, mkW (w_x s) c (w_kinds s) (w_recs s) (w_heap s))
  | Err f => Err f
  end.
Definition setKind (p : nat) (k : Kind) : TM unit :=
  mmodify (fun s => mkW (w_x s) (w_tc s) (<[p := k]> (w_kinds s)) (w_recs s) (w_heap s)).
Definition done (p : nat) (c : Z) : TM unit :=
  s ← mget; onHeap (ev_done (CR.ev_fuel (w_heap s)) p c).
Definition transition (n cycle : Z) : TM unit :=
  s ← mget; b ← mlift (bd_transition n cycle (profOccHist (w_tc s)));
  onTc (mmodify (with_active n b)).

(** ** Weave phase *)
Definition park (ev : nat) : TM unit :=
  onHeap (hold ev);;
  onTc (mmodify (fun c => with_pending (pendingQueue c ++ [ev]) c)).

Definition simulateHit (ev : nat) (cycle : Z) : TM unit :=
  s ← mget;
  if activeMisses (w_tc s) <? numMSHRs (w_tc s) then
    lookupCycle ← onTc (highPrioAccess cycle);
    onTc (mmodify (fun c => with_prof (u64 (profHitLat c + (lookupCycle - cycle))) (profMissRespLat c) (profMissLat c) c));;
    done ev lookupCycle
  else park ev.

Definition simulateMissStart (ev : nat) (cycle : Z) : TM unit :=
  s ← mget;
  if activeMisses (w_tc s) <? numMSHRs (w_tc s) then
    transition (u32 (activeMisses (w_tc s) + 1)) cycle;;
    setKind ev (MissStartEvent (Some cycle));;
    lookupCycle ← onTc (highPrioAccess cycle);
    done ev lookupCycle
  else park ev.

(** [mse->startCycle]. *)
Definition startCycle (mse : nat) : TM Z :=
  s ← mget;
  match w_kinds s !! mse with
  | Some (MissStartEvent (Some c)) => mret c
  | _ => mfail "mse->startCycle"
  end.

Definition simulateMissResponse (ev : nat) (cycle : Z) (mse : nat) : TM unit :=
  st ← startCycle mse;
  onTc (mmodify (fun c => with_prof (profHitLat c) (u64 (profMissRespLat c + (cycle - st))) (profMissLat c) c));;
  done ev cycle.

(** [for (qev : pendingQueue) qev->requeue(c)]. *)
Definition requeue_all (q : list nat) (c : Z) : TM unit := mapM_ (fun qev => onHeap (requeue_ev qev c)) q.

Definition simulateMissWriteback (ev : nat) (cycle : Z) (mse : nat) : TM unit :=
  lookupCycle ← onTc (tryLowPrioAccess cycle);
  if negb (lookupCycle =? 0) then
    s ← mget;
    massert (negb (activeMisses (w_tc s) =? 0)) "activeMisses";;
    st ← startCycle mse;
    onTc (mmodify (fun c => with_prof (profHitLat c) (profMissRespLat c) (u64 (profMissLat c + (cycle - st))) c));;
    transition (u32 (activeMisses (w_tc s) - 1)) lookupCycle;;
    requeue_all (pendingQueue (w_tc s)) (u64 (cycle + 1));;
    onTc (mmodify (with_pending []));;
    done ev cycle
  else onHeap (requeue_ev ev (u64 (cycle + 1))).

Definition simulateReplAccess (ev : nat) (cycle : Z) (accsLeft : Z) : TM unit :=
  massert (negb (accsLeft =? 0)) "ev->accsLeft";;
  lookupCycle ← onTc (tryLowPrioAccess cycle);
  if negb (lookupCycle =? 0) then
    let accsLeft := u32 (accsLeft - 1) in
    setKind ev (ReplAccessEvent accsLeft);;
    if accsLeft =? 0 then done ev cycle else onHeap (requeue_ev ev (u64 (cycle + 1)))
  else onHeap (requeue_ev ev (u64 (cycle + 1))).

(** [te->run(cycle)]: the events of the cache, and those of the memory. *)
Definition run_event (te : nat) (cycle : Z) : TM unit :=
  e ← onHeap (run_ev te cycle);
  s ← mget;
  match w_kinds s !! te with
  | Some HitEvent => simulateHit te cycle
  | Some (MissStartEvent _) => simulateMissStart te cycle
  | Some (MissResponseEvent mse) => simulateMissResponse te cycle mse
  | Some (MissWritebackEvent mse) => simulateMissWriteback te cycle mse
  | Some (ReplAccessEvent n) => simulateReplAccess te cycle n
  | None => match ev_class e with
            | ClsMem lat => done te (u64 (cycle + lat))
            | _ => mfail "simulate() of an unknown event"
            end
  end.

(** ** Bound phase: the events of an access *)
Definition new_event (k : Kind) (preDelay postDelay minStart : Z) : TM nat :=
  s ← mget;
  p ← onHeap (new_TimingEvent ClsTiming preDelay postDelay (domain (w_tc s)));
  setKind p k;;
  onHeap (setMinStartCycle p minStart);;
  mret p.
Definition new_delay (delay minStart : Z) : TM nat :=
  p ← onHeap (new_DelayEvent delay);
  onHeap (setMinStartCycle p minStart);;
  mret p.
Definition link (p c : nat) : TM nat := s ← mget; onHeap (addChild (CR.ev_fuel (w_heap s)) p c).
Definition the_event (o : option nat) : TM nat := mlift (from_opt o "null event").

(** An edge from [p] to [c], through a DelayEvent when there is a delay. *)
Definition link_after (p c : nat) (lat minStart : Z) : TM unit :=
  if negb (lat =? 0) then
    d ← new_delay (u32 lat) minStart;
    q ← link p d;
    link q c;; mret tt
  else link p c;; mret tt.

(** The lambda [connect] of access. *)
Definition connect (r : option TimingRecord) (startEv endEv : nat) (startCycle endCycle : Z) : TM unit :=
  massert (startCycle <=? endCycle) "start > end?";;
  match r with
  | Some r =>
      massert (startCycle <=? tr_reqCycle r) "startCycle <= r->reqCycle";;
      massert (tr_respCycle r <=? endCycle) "r->respCycle <= endCycle";;
      rs ← the_event (tr_startEvent r);
      link_after startEv rs (u64 (tr_reqCycle r - startCycle)) startCycle;;
      re ← the_event (tr_endEvent r);
      link_after re endEv (u64 (endCycle - tr_respCycle r)) (tr_respCycle r)
  | None => link_after startEv endEv (u64 (endCycle - startCycle)) startCycle
  end.

(** [while (accsSoFar < replLookups)]: the candidate lookups of a zcache; the result is the
    last event of the chain that starts at [p]. *)
Fixpoint repl_loop (fuel : nat) (replLookups fringeAccs accsSoFar : Z) (reqCycle : Z) (p : nat) : TM nat :=
  if accsSoFar <? replLookups then
    match fuel with
    | O => fun _ => Err OutOfFuel
    | Datatypes.S fuel' =>
        s ← mget;
        let c := w_tc s in
        let preDelay := if negb (accsSoFar =? 0) then 0 else tagLat c in
        let postDelay := u32 (tagLat c - MIN (u32 (tagLat c - 1)) fringeAccs) in
        let accs := MIN fringeAccs (u32 (replLookups - accsSoFar)) in
        raEv ← new_event (ReplAccessEvent accs) preDelay postDelay reqCycle;
        link p raEv;;
        repl_loop fuel' replLookups (u32 (fringeAccs * u32 (ways c - 1))) (u32 (accsSoFar + accs)) reqCycle raEv
    end
  else mret p.

Definition repl_events (reqCycle : Z) (mse mwe : nat) : TM unit :=
  s ← mget;
  let c := w_tc s in
  let replLookups := u32 (u32 (cands c + u32 (ways c - 1)) / ways c - 1) in
  massert (negb (replLookups =? 0)) "replLookups";;
  p ← repl_loop (Z.to_nat replLookups) replLookups (u32 (ways c - 1)) 0 reqCycle mse;
  rdEv ← new_event (ReplAccessEvent 1) (tagLat c) (tagLat c) reqCycle;
  wrEv ← new_event (ReplAccessEvent 1) 0 0 reqCycle;
  q ← link p rdEv;
  q ← link q wrEv;
  link q mwe;; mret tt.

(** The events of a miss: MissStart, then the fetch, the eviction and the replacement in
    parallel, then MissWriteback. *)
Definition miss_events (reqCycle getDoneCycle evDoneCycle : Z) (writebackRecord accessRecord : option TimingRecord)
  : TM (nat * nat) :=
  s ← mget;
  let c := w_tc s in
  let lookupDone := u64 (reqCycle + accLat c) in
  mse ← new_event (MissStartEvent None) 0 (accLat c) reqCycle;
  mre ← new_event (MissResponseEvent mse) 0 0 getDoneCycle;
  mwe ← new_event (MissWritebackEvent mse) 0 (accLat c) (MAX evDoneCycle getDoneCycle);
  connect accessRecord mse mre lookupDone getDoneCycle;;
  link mre mwe;;
  (if negb (evDoneCycle =? 0) then connect writebackRecord mse mwe lookupDone evDoneCycle else mret tt);;
  (if negb (evDoneCycle =? 0) && (ways c <? cands c) then repl_events reqCycle mse mwe else mret tt);;
  mret (mse, mre).

Definition record_events (lineBits : Z) (req : MemReq) (respCycle getDoneCycle evDoneCycle : Z)
    (writebackRecord accessRecord : option TimingRecord) : TM TimingRecord :=
  s ← mget;
  let tr := fun st en => mkRecord (u64 (Z.shiftl (lineAddr req) lineBits)) (cycle req) respCycle (type req) (Some st) (Some en) in
  if u64 (getDoneCycle - cycle req) =? accLat (w_tc s) then
    massert (bool_decide (writebackRecord = None)) "!writebackRecord.isValid()";;
    massert (bool_decide (accessRecord = None)) "!accessRecord.isValid()";;
    ev ← new_event HitEvent 0 (u32 (respCycle - cycle req)) (cycle req);
    mret (tr ev ev)
  else
    massert (getDoneCycle =? respCycle) "getDoneCycle == respCycle";;
    '(mse, mre) ← miss_events (cycle req) getDoneCycle evDoneCycle writebackRecord accessRecord;
    mret (tr mse mre).

(** The recorder of a core; [evRec->hasRecord()? evRec->popRecord()]. *)
Definition onRec {A} (i : nat) (m : WM.PM A) : TM A := fun s =>
  match w_recs s !! i with
  | None => Err (Panic "no such event recorder")
  | Some er => match m (er, w_heap s) with
               | Ok (a, (er', h)) => Ok (a, mkW (w_x s) (w_tc s) (w_kinds s) (<[i := er']> (w_recs s)) h)
               | Err f => Err f
               end
  end.
Definition popIf : WM.PM (option TimingRecord) :=
  '(er, _) ← mget;
  if hasRecord er then r ← WM.pop; mret (Some r) else mret None.
End Cache.

(** The virtual classes CC and CacheArray, as [access] calls them: a [startAccess] may change
    the request's type, and [processAccess] returns the response and [*getDoneCycle]. *)
Class CCArray (X : Type) := {
  startAccess : MemReq -> M (W X) (MemReq * bool);
  lookup : Z -> MemReq -> bool -> M (W X) (option nat);
  shouldAllocate : MemReq -> M (W X) bool;
  preinsert : Z -> MemReq -> M (W X) (nat * Z);
  processEviction : MemReq -> Z -> nat -> Z -> M (W X) Z;
  postinsert : Z -> MemReq -> nat -> M (W X) unit;
  processAccess : MemReq -> nat -> Z -> M (W X) (Z * Z);
  endAccess : MemReq -> M (W X) unit }.

Section Access.
Context `{CCArray X} (lineBits : Z).

Definition access (req : MemReq) : M (W X) Z :=
  s ← mget;
  let src := srcId req in
  massert (bool_decide (src < length (w_recs s))%nat) "TimingCache is not connected to TimingCore";;
  '(req, skipAccess) ← startAccess req;
  respCycle ←
    (if skipAccess : bool then mret (cycle req)
     else
       lineId ← lookup (lineAddr req) req (bool_decide (type req = GETS) || bool_decide (type req = GETX));
       let respCycle := u64 (cycle req + accLat (w_tc s)) in
       '(lineId, evDoneCycle, writebackRecord) ←
         match lineId with
         | Some l => mret (l, 0, None)
         | None =>
             alloc ← shouldAllocate req;
             massert alloc "cc->shouldAllocate(req)";;
             '(l, wbLineAddr) ← preinsert (lineAddr req) req;
             evDoneCycle ← processEviction req wbLineAddr l respCycle;
             postinsert (lineAddr req) req l;;
             r ← onRec src popIf;
             mret (l, evDoneCycle, r)
         end;
       '(respCycle, getDoneCycle) ← processAccess req lineId respCycle;
       accessRecord ← onRec src popIf;
       tr ← record_events lineBits req respCycle getDoneCycle evDoneCycle writebackRecord accessRecord;
       onRec src (WM.push tr);;
       mret respCycle);
  endAccess req;;
  massert (cycle req <=? respCycle) "resp < req?";;
  mret respCycle.
End Access.

(** ** A closed system: one timing cache, the cores, and a weave-phase memory

    The controller's decisions are the environment's: an [Outcome] for each access says
    whether the line is found, what is evicted, what the levels above cost and how long it
    takes to invalidate the children that hold the line; a fetch or a dirty eviction that
    reaches the memory is an access of WeaveSimpleMemory ([WM.access]), which leaves a record.
    As in [CC::processAccess], [*getDoneCycle] is the answer of the levels above, before the
    children are invalidated.  No child holds a line that was just inserted. *)
Inductive Above :=
| FromMem (up down : Z)     (* the memory is accessed after [up] cycles *)
| FromCache (lat : Z).      (* served without a record *)
Inductive Outcome :=
| OSkip
| OHit (lat : Z)
| OUpgrade (a : Above) (invLat : Z)
| OMiss (invLat : Z) (dirty : bool) (a : Above).

Section Env.
Context (wm : WM.t).

Definition above (req : MemReq) (start : Z) (a : Above) : M (W Outcome) Z :=
  match a with
  | FromMem up down =>
      c ← onRec (srcId req) (WM.access wm (lineAddr req) (u64 (start + up)) (type req));
      mret (u64 (c + down))
  | FromCache lat => mret (u64 (start + lat))
  end.

#[export] Instance env_cc : CCArray Outcome := {
  startAccess req := s ← mget; mret (req, match w_x s with OSkip => true | _ => false end);
  lookup _ _ _ := s ← mget; mret (match w_x s with OMiss _ _ _ => None | _ => Some O end);
  shouldAllocate _ := mret true;
  preinsert addr _ := mret (O, addr);
  processEviction req wbLineAddr _ start :=
    s ← mget;
    match w_x s with
    | OMiss invLat dirty _ =>
        onRec (srcId req) (WM.access wm wbLineAddr (u64 (start + invLat)) (if dirty then PUTX else PUTS))
    | _ => mret start
    end;
  postinsert _ _ _ := mret tt;
  processAccess req _ start :=
    s ← mget;
    match w_x s with
    | OHit lat => mret (u64 (start + lat), start)
    | OUpgrade a invLat => c ← above req start a; mret (u64 (c + invLat), c)
    | OMiss _ _ a => c ← above req start a; mret (c, c)
    | OSkip => mfail "processAccess after a skipped access"
    end;
  endAccess _ := mret tt }.

(** The next cycle at which an event may be followed by another. *)
Definition ev_end (e : TimingEvent) : Z := ev_minStartCycle e + ev_preDelay e + ev_postDelay e.

(** What the core does with the record: its first event starts after the event [prev] of the
    core, or by itself, and an event of the core follows the last one. *)
Definition record_core (i : nat) (prev : option nat) : M (W Outcome) unit :=
  tr ← onRec i popIf;
  match tr with
  | None => mret tt
  | Some tr =>
      s ← mget;
      st ← the_event (tr_startEvent tr);
      en ← the_event (tr_endEvent tr);
      coreEv ← onHeap (new_TimingEvent (ClsMem 0) 0 0 (domain (w_tc s)));
      onHeap (setMinStartCycle coreEv (tr_respCycle tr));;
      link en coreEv;;
      match prev with
      | Some p =>
          e ← onHeap (get_ev p);
          link_after p st (Z.max 0 (tr_reqCycle tr - ev_end e)) (ev_end e)
      | None => onHeap (queue_ev st (tr_reqCycle tr))
      end
  end.

Inductive op :=
| Access (i : nat) (addr : Z) (ty : AccessType) (cycle : Z) (o : Outcome) (prev : option nat)
| Step (k : nat).

Record Sys := mkSys { s_w : W Outcome; s_now : Z }.

(** The [k]-th entry of the contention simulator's queue is run. *)
Definition step (k : nat) : M (W Outcome) Z :=
  s ← mget;
  '(p, c) ← mlift (from_opt (hp_queue (w_heap s) !! k) "no such event");
  mmodify (fun s => mkW (w_x s) (w_tc s) (w_kinds s) (w_recs s)
    (mkHeap (hp_events (w_heap s)) (hp_next (w_heap s)) (delete k (hp_queue (w_heap s)))));;
  run_event p c;;
  mret c.

Definition do_op (lineBits : Z) (o : op) : M Sys unit := fun s =>
  match o with
  | Access i addr ty cyc o prev =>
      let w := s_w s in
      match (access lineBits (mkMemReq addr ty 0 (RefDummy 0) cyc None StI i 0) ≫= fun _ => record_core i prev)
              (mkW o (w_tc w) (w_kinds w) (w_recs w) (w_heap w)) with
      | Ok (_, w') => Ok (tt, mkSys w' (s_now s))
      | Err f => Err f
      end
  | Step k => match step k (s_w s) with Ok (c, w') => Ok (tt, mkSys w' c) | Err f => Err f end
  end.
Fixpoint run (lineBits : Z) (l : list op) : M Sys unit :=
  match l with [] => mret tt | o :: l => do_op lineBits o;; run lineBits l end.
End Env.

(** A new cache; the cycles start at 2 (the port does not tell slot 0 from no slot). *)
Definition boot (c : t) (recs : list EventRecorder) : Sys := mkSys (mkW OSkip c ∅ recs empty_heap) 2.

(** A recorder without a record. *)
Definition demo_er : EventRecorder := mkRecorder (mkRecord 0 0 0 GETS None None) 0 0 0.
End TCache.
