(* ===== verification/TimingCachePort.v ===== *)
(** * The tag port of the timing cache

    The cache remembers only the last lookup and the last free slot before it.  For lookups
    that come in the order of their cycles this is as good as remembering every slot. *)

From S2P Require Import Prelude Bithacks MemHier TimingEvent CoreRecorder TimingCache.
Import TCache.

Module TCP.

(** ** The reference: every slot that was given is remembered *)
Fixpoint first_free (fuel : nat) (used : list Z) (c : Z) : Z :=
  match fuel with
  | O => c
  | Datatypes.S fuel => if bool_decide (c ∈ used) then first_free fuel used (c + 1) else c
  end.
(** A lookup of high priority takes the first free slot from its cycle on; one of low
    priority the slot before its cycle, if that is free. *)
Definition ref_high (used : list Z) (c : Z) : Z * list Z :=
  let s := first_free (Datatypes.S (length used)) used c in (s, s :: used).
Definition ref_low (used : list Z) (c : Z) : Z * list Z :=
  if bool_decide (c - 1 ∈ used) then (0, used) else (c, (c - 1) :: used).

Inductive lookup := High (c : Z) | Low (c : Z).
Definition at_cycle (o : lookup) : Z := match o with High c | Low c => c end.
Definition port_do (o : lookup) : M t Z := match o with High c => highPrioAccess c | Low c => tryLowPrioAccess c end.
Definition ref_do (o : lookup) (used : list Z) : Z * list Z := match o with High c => ref_high used c | Low c => ref_low used c end.

Fixpoint port_run (l : list lookup) : M t (list Z) :=
  match l with [] => mret [] | o :: l => r ← port_do o; rs ← port_run l; mret (r :: rs) end.
Fixpoint ref_run (l : list lookup) (used : list Z) : list Z * list Z :=
  match l with
  | [] => ([], used)
  | o :: l => let '(r, used) := ref_do o used in let '(rs, used) := ref_run l used in (r :: rs, used)
  end.

(** The lookups come in the order of their cycles, which start at 2. *)
Fixpoint in_order (now : Z) (l : list lookup) : Prop :=
  match l with [] => True | o :: l => now <= at_cycle o < 2 ^ 62 /\ in_order (at_cycle o) l end.

(** ** What the two fields say about the slots that were given *)
Record PortI (now : Z) (c : t) (used : list Z) : Prop := {
  po_acc : 0 <= lastAccCycle c < now + Z.of_nat (length used);
  po_free : 0 <= lastFreeCycle c < now;
  po_max : forall s, s ∈ used -> s <= lastAccCycle c;
  po_slots : forall s, now - 1 <= s <= lastAccCycle c -> (s ∈ used <-> s <> lastFreeCycle c);
  po_nodup : NoDup used }.

Lemma PortI_later now now' c used : PortI now c used -> now <= now' -> PortI now' c used.
Proof. intros [] ?. split; try done; try lia. intros s ?. apply po_slots0. lia. Qed.

Lemma run_used (used : list Z) k : forall c, (forall s, c <= s < c + Z.of_nat k -> s ∈ used) -> (k <= length used)%nat.
Proof.
  intros c Hs.
  assert (Hsub : seqZ c (Z.of_nat k) ⊆+ used).
  { apply NoDup_submseteq; [apply NoDup_seqZ|]. intros x Hx%elem_of_seqZ. apply Hs. lia. }
  apply submseteq_length in Hsub. rewrite length_seqZ in Hsub. lia.
Qed.

Lemma first_free_run used k : forall fuel c, (k < fuel)%nat -> (forall s, c <= s < c + Z.of_nat k -> s ∈ used) ->
  c + Z.of_nat k ∉ used -> first_free fuel used c = c + Z.of_nat k.
Proof.
  induction k as [|k IH]; intros fuel c Hf Hs Hn; (destruct fuel as [|fuel]; [lia|]); cbn.
  - rewrite Z.add_0_r in *. by rewrite bool_decide_eq_false_2.
  - rewrite bool_decide_eq_true_2 by (apply Hs; lia). rewrite IH; [lia|lia| |].
    + intros s ?. apply Hs. lia.
    + by replace (c + 1 + Z.of_nat k) with (c + Z.of_nat (Datatypes.S k)) by lia.
Qed.

(** ** Each lookup agrees with the reference *)
Definition small (now : Z) (used : list Z) : Prop := 2 <= now < 2 ^ 62 /\ Z.of_nat (length used) < 2 ^ 62.

Lemma high_spec now c used (Q : Z -> t -> Prop) : PortI now c used -> small now used ->
  (let '(r, used') := ref_high used now in now <= r < now + Z.of_nat (length used) + 1 /\
    forall acc free, PortI now (with_port acc free c) used' -> Q r (with_port acc free c)) ->
  wp (highPrioAccess now) Q c.
Proof.
  intros I [Hn Hl]. destruct I.
  set (k := Z.to_nat (lastAccCycle c + 1 - now)).
  assert (Hff : first_free (Datatypes.S (length used)) used now = now + Z.of_nat k).
  { assert (Hin : forall s, now <= s < now + Z.of_nat k -> s ∈ used) by (intros s ?; apply po_slots0; lia).
    apply first_free_run; [pose proof (run_used used k now Hin); lia|done|]. intros Hs. specialize (po_max0 _ Hs). lia. }
  unfold ref_high. rewrite Hff. intros [Hr HQ]. unfold highPrioAccess. wp_steps.
  apply wp_assert; [lia|]. wp_steps. rewrite !u64_small by (unfold two64; lia).
  replace (MAX now (lastAccCycle c + 1)) with (now + Z.of_nat k) by (unfold MAX; destruct (Z.gtb_spec now (lastAccCycle c + 1)); lia).
  apply HQ. split; cbn; rewrite ?length_cons.
  - lia.
  - destruct (Z.ltb_spec (lastAccCycle c) (now - 1)); lia.
  - intros s [->|Hs%po_max0]%elem_of_cons; lia.
  - intros s Hs. rewrite elem_of_cons. destruct (Z.ltb_spec (lastAccCycle c) (now - 1)).
    + split; [intros [->|Hu%po_max0]; lia|]. intros ?. left. lia.
    + destruct (decide (s = now + Z.of_nat k)) as [->|]; [split; [lia|by left]|].
      rewrite <- po_slots0 by lia. split; [intros [?|?]; [done|done]|by right].
  - constructor; [|done]. intros Hs%po_max0. lia.
Qed.

Lemma low_spec now c used (Q : Z -> t -> Prop) : PortI now c used -> small now used ->
  (let '(r, used') := ref_low used now in (r = 0 \/ r = now) /\
    forall acc free, PortI now (with_port acc free c) used' -> Q r (with_port acc free c)) ->
  wp (tryLowPrioAccess now) Q c.
Proof.
  intros I [Hn Hl]. destruct (I). unfold ref_low, tryLowPrioAccess. rewrite !u64_small by (unfold two64; lia).
  case_bool_decide as Hin; intros [Hr HQ]; wp_steps.
  - pose proof (po_max0 _ Hin). apply po_slots0 in Hin; [|lia].
    rewrite (proj2 (Z.ltb_ge _ _)), (proj2 (Z.eqb_neq _ _)) by lia. cbn. wp_steps.
    specialize (HQ (lastAccCycle c) (lastFreeCycle c)). destruct c. apply HQ. by destruct I.
  - assert (E : ((lastAccCycle c <? now - 1) || (lastFreeCycle c =? now - 1)) = true).
    { destruct (Z.ltb_spec (lastAccCycle c) (now - 1)); [done|]. cbn. apply Z.eqb_eq.
      destruct (decide (lastFreeCycle c = now - 1)); [done|]. exfalso. apply Hin, po_slots0; lia. }
    rewrite E. wp_steps. apply HQ.
    assert (Em : MAX (now - 1) (lastAccCycle c) = Z.max (now - 1) (lastAccCycle c)).
    { unfold MAX. destruct (Z.gtb_spec (now - 1) (lastAccCycle c)); lia. }
    split; cbn; rewrite ?Em, ?length_cons; try lia.
    + intros s [->|Hs%po_max0]%elem_of_cons; lia.
    + intros s Hs. rewrite elem_of_cons. split; [lia|]. intros _.
      destruct (decide (s = now - 1)); [by left|]. right. apply po_slots0; [lia|].
      lia.
    + by constructor.
Qed.

Lemma ref_high_range now c used : PortI now c used -> now <= (ref_high used now).1 < now + Z.of_nat (length used) + 1.
Proof.
  intros []. set (k := Z.to_nat (lastAccCycle c + 1 - now)).
  assert (Hin : forall s, now <= s < now + Z.of_nat k -> s ∈ used) by (intros s ?; apply po_slots0; lia).
  pose proof (run_used _ _ _ Hin). cbn [ref_high fst].
  rewrite (first_free_run used k); [lia|lia|done|]. intros Hx%po_max0. lia.
Qed.

Lemma port_do_spec o now c used : PortI now c used -> now <= at_cycle o -> small (at_cycle o) used ->
  wp (port_do o) (fun r c' => r = (ref_do o used).1 /\ PortI (at_cycle o) c' (ref_do o used).2) c.
Proof.
  intros I Hle Hs. apply (PortI_later _ (at_cycle o)) in I; [|done]. destruct o as [n|n]; cbn [at_cycle port_do ref_do] in *.
  - eapply high_spec; [done..|]. split; [by eapply ref_high_range|by intros].
  - eapply low_spec; [done..|]. unfold ref_low. case_bool_decide; cbn; (split; [lia|by intros]).
Qed.

Lemma ref_do_length o used : (length (ref_do o used).2 <= Datatypes.S (length used))%nat.
Proof. destruct o; cbn; [done|]. unfold ref_low. case_bool_decide; cbn; lia. Qed.

Lemma port_run_spec l : forall now c used, 2 <= now -> PortI now c used -> in_order now l ->
  Z.of_nat (length used) + Z.of_nat (length l) < 2 ^ 62 ->
  exists c', port_run l c = Ok ((ref_run l used).1, c') /\ NoDup (ref_run l used).2.
Proof.
  induction l as [|o l IH]; intros now c used H2 I Ho Hl; cbn in *.
  { exists c. split; [done|]. apply (po_nodup _ _ _ I). }
  destruct Ho as [Hc Ho].
  destruct (wp_elim _ _ _ (port_do_spec o now c used I ltac:(lia) ltac:(split; lia))) as (r&c1&E&->&I1).
  pose proof (ref_do_length o used). destruct (ref_do o used) as [r used'] eqn:Er. cbn in *.
  destruct (IH (at_cycle o) c1 used') as (c2&E2&HN); [lia|done|done|lia|].
  destruct (ref_run l used') as [rs u2]. cbn in *. exists c2. split; [|done].
  unfold mbind, M_bind. by rewrite E, E2.
Qed.

(** C21: the tag port of a new cache answers any sequence of lookups that come in the order of
    their cycles, from cycle 2 on, as a port that remembers every slot: a lookup of high
    priority gets the first free slot from its cycle on, one of low priority gets the slot
    before its cycle exactly when it is free, no assertion fires, and no slot is given twice. *)
Theorem port_is_reference mshrs tagLat ways cands accLat dom c l :
  init mshrs tagLat ways cands accLat dom = Ok c -> in_order 2 l -> Z.of_nat (length l) < 2 ^ 62 ->
  exists c', port_run l c = Ok ((ref_run l []).1, c') /\ NoDup (ref_run l []).2.
Proof.
  intros Hi Ho Hl. unfold init, rassert in Hi. destruct (0 <? mshrs); [|done]. cbn in Hi. injection Hi as <-.
  apply port_run_spec with (now := 2); try done.
  split; cbn; [lia|lia|by intros s Hs%elem_of_nil|intros s Hs; lia|constructor].
Qed.

Definition demo_lookups : list lookup := [High 10; High 10; Low 10; Low 10; High 12; Low 12; Low 13; High 20; Low 20; Low 20].
Lemma port_is_reference_witness : exists c, init 4 5 4 16 10 0 = Ok c /\ in_order 2 demo_lookups /\
  (ref_run demo_lookups []).1 = [10; 11; 10; 0; 12; 0; 0; 20; 20; 0] /\
  exists c', port_run demo_lookups c = Ok ((ref_run demo_lookups []).1, c') /\ NoDup (ref_run demo_lookups []).2.
Proof.
  eexists. split; [reflexivity|]. assert (H : in_order 2 demo_lookups) by (cbn; lia). split; [exact H|].
  split; [reflexivity|]. apply (port_is_reference 4 5 4 16 10 0); [reflexivity|exact H|cbn; lia].
Defined.

(** At cycle 1 the free slot 0 is not told from "no free slot": every lookup of low priority
    is granted. *)
Example low_at_cycle_1 : exists c c', init 4 5 4 16 10 0 = Ok c /\ port_run [Low 1; Low 1; Low 1] c = Ok ([1; 1; 1], c').
Proof. by repeat eexists. Qed.

(** A lookup at cycle 0 records the free slot 2^64 - 1, and the next lookup stops the
    simulation. *)
Example lookup_at_cycle_0 : exists c, init 4 5 4 16 10 0 = Ok c /\
  port_run [High 0; High 5] c = Err (Panic "cycle >= lastFreeCycle").
Proof. by eexists. Qed.
End TCP.
