(* ===== verification/TimingCacheDag.v ===== *)
(** * The event graph of the weave phase

    Events of a timing cache form an acyclic graph, where an event may have several parents.
    [GI] is the invariant of a heap that holds such a graph; it is kept by the end of an event
    ([ev_done]), which notifies its children, through DelayEvents, and frees it. *)

From S2P Require Import Prelude Bithacks MemHier TimingEvent CoreRecorder EventTree TimingCache.
Import TCache.

Module TCD.

Definition chl (e : TimingEvent) : list nat := children_list (ev_numChildren e) (ev_children e).
(** The edges out of an event; those of an event that is done are being visited. *)
Definition out (p : nat) (e : TimingEvent) : list (nat * nat) :=
  if decide (ev_state e = EV_DONE) then [] else (fun c => (p, c)) <$> chl e.
Definition edges (m : gmap nat TimingEvent) : list (nat * nat) :=
  flat_map (fun x => out x.1 x.2) (map_to_list m).
Definition cntp (p : nat) (l : list (nat * nat)) : Z := Z.of_nat (length (filter (fun x => x.2 = p) l)).

Lemma edges_insert m p e : m !! p = None -> edges (<[p := e]> m) ≡ₚ out p e ++ edges m.
Proof. intros H. unfold edges. by rewrite map_to_list_insert. Qed.
Lemma edges_delete m p e : m !! p = Some e -> edges m ≡ₚ out p e ++ edges (delete p m).
Proof. intros H. rewrite <- (insert_delete_id m p e H) at 1. apply edges_insert. apply lookup_delete_eq. Qed.
Lemma edges_update m p e e' : m !! p = Some e -> out p e' = out p e -> edges (<[p := e']> m) ≡ₚ edges m.
Proof.
  intros H E. rewrite <- insert_delete_eq. rewrite edges_insert by apply lookup_delete_eq.
  by rewrite E, <- edges_delete.
Qed.
Lemma elem_edges m q c : (q, c) ∈ edges m <-> exists e, m !! q = Some e /\ ev_state e <> EV_DONE /\ c ∈ chl e.
Proof.
  unfold edges. rewrite elem_flat_map. split.
  - intros ([p e]&Hp%elem_of_map_to_list&Hx). cbn in *. unfold out in Hx. case_decide; [by apply elem_of_nil in Hx|].
    apply list_elem_of_fmap in Hx as (c'&[= -> ->]&Hc). by exists e.
  - intros (e&He&Hs&Hc). exists (q, e). split; [by apply elem_of_map_to_list|]. unfold out. cbn.
    rewrite decide_False by done. apply list_elem_of_fmap. by exists c.
Qed.

#[export] Instance cntp_perm p : Proper (Permutation ==> eq) (cntp p).
Proof. intros l l' H. unfold cntp. by rewrite H. Qed.
Lemma cntp_app p l l' : cntp p (l ++ l') = cntp p l + cntp p l'.
Proof. unfold cntp. rewrite list.filter_app, length_app. lia. Qed.
Lemma cntp_cons p x l : cntp p (x :: l) = (if decide (x.2 = p) then 1 else 0) + cntp p l.
Proof. unfold cntp. rewrite filter_cons. case_decide; cbn; lia. Qed.
Lemma cntp_nonneg p l : 0 <= cntp p l.
Proof. unfold cntp. lia. Qed.
Lemma cntp_pos p l : 0 < cntp p l <-> exists q, (q, p) ∈ l.
Proof.
  unfold cntp. split.
  - intros H. destruct (filter (fun x => x.2 = p) l) as [|[q p'] r] eqn:E; [cbn in H; lia|].
    assert (Hx : (q, p') ∈ filter (fun x => x.2 = p) l) by (rewrite E; apply list_elem_of_here).
    apply list_elem_of_filter in Hx as [Hp Hx]. cbn in Hp. subst. by exists q.
  - intros (q&Hq). assert (Hx : (q, p) ∈ filter (fun x => x.2 = p) l) by (by apply list_elem_of_filter).
    destruct (filter (fun x => x.2 = p) l); [by apply elem_of_nil in Hx|]. cbn. lia.
Qed.
Lemma cntp_none p l : (forall x, x ∈ l -> x.2 <> p) -> cntp p l = 0.
Proof.
  intros H. destruct (decide (cntp p l = 0)) as [|Hne]; [done|]. pose proof (cntp_nonneg p l).
  destruct (proj1 (cntp_pos p l) ltac:(lia)) as (q&Hq). by destruct (H _ Hq).
Qed.

(** ** The invariant *)
(** Bounds on the cycles that are computed, far from the wrap-around. *)
Definition LATE : Z := 2 ^ 63 + 2 ^ 34.
Definition BIG : Z := 2 ^ 63 + 2 ^ 40.

(** What the end of other events leaves alone. *)
Record same (e e' : TimingEvent) : Prop := {
  sm_class : ev_class e' = ev_class e;
  sm_kids : ev_children e' = ev_children e;
  sm_num : ev_numChildren e' = ev_numChildren e;
  sm_pre : ev_preDelay e' = ev_preDelay e;
  sm_post : ev_postDelay e' = ev_postDelay e;
  sm_min : ev_minStartCycle e' = ev_minStartCycle e;
  sm_dom : ev_domain e' = ev_domain e }.
Lemma same_refl e : same e e. Proof. by split. Qed.
Lemma same_trans e1 e2 e3 : same e1 e2 -> same e2 e3 -> same e1 e3.
Proof. intros [] []. split; congruence. Qed.
Lemma same_chl e e' : same e e' -> chl e' = chl e.
Proof. intros []. unfold chl. congruence. Qed.
Lemma same_end e e' : same e e' -> ev_end e' = ev_end e.
Proof. intros []. unfold ev_end. congruence. Qed.

(** The cycle [s] leaves room for the delay of a DelayEvent. *)
Definition early (e : TimingEvent) (s : Z) : Prop := 0 <= s /\ s + (if decide (ev_class e = ClsDelay) then two32 else 0) <= LATE.
Definition wf_ev (e : TimingEvent) : Prop :=
  0 <= ev_preDelay e < two32 /\ 0 <= ev_postDelay e < two32 /\ 0 <= ev_minStartCycle e < BIG /\
  early e (ev_cycle e) /\ (ev_class e = ClsDelay -> ev_postDelay e = 0) /\
  Shape (ev_numChildren e) (ev_children e) (chl e).
Lemma same_wf e e' : same e e' -> early e (ev_cycle e') -> wf_ev e -> wf_ev e'.
Proof.
  intros S Hc (?&?&?&?&?&?). pose proof (same_chl _ _ S) as E. destruct S. unfold wf_ev.
  unfold early in *. rewrite E, sm_class0, sm_kids0, sm_num0, sm_pre0, sm_post0, sm_min0. tauto.
Qed.

(** [V]: edges out of done events whose children are yet to be notified; [F]: events that are
    being built, which have no parents yet. *)
Record GI (h : EvHeap) (V : list (nat * nat)) (F : list nat) (now : Z) : Prop := {
  g_wf : forall p e, hp_events h !! p = Some e -> wf_ev e;
  g_np : forall p e, hp_events h !! p = Some e -> ev_numParents e = cntp p (edges (hp_events h) ++ V) /\ ev_numParents e < two32;
  g_dst : forall q c, (q, c) ∈ edges (hp_events h) ++ V -> exists e, hp_events h !! c = Some e /\ ev_state e = EV_NONE;
  g_V : forall q c, (q, c) ∈ V -> exists e, hp_events h !! q = Some e /\ ev_state e = EV_DONE;
  g_nd : forall q c eq ec, (q, c) ∈ edges (hp_events h) ++ V -> hp_events h !! q = Some eq -> hp_events h !! c = Some ec ->
    ev_class eq = ClsDelay -> ev_class ec <> ClsDelay;
  g_time : forall p e, hp_events h !! p = Some e -> ev_state e = EV_NONE -> p ∉ F ->
    ev_minStartCycle e <= ev_cycle e \/
    exists q eq, (q, p) ∈ edges (hp_events h) ++ V /\ hp_events h !! q = Some eq /\ ev_minStartCycle e <= ev_end eq;
  g_none : forall p e, hp_events h !! p = Some e -> ev_state e = EV_NONE -> p ∈ F \/ 0 < ev_numParents e;
  g_busy : forall p e, hp_events h !! p = Some e -> ev_state e <> EV_NONE -> ev_numParents e = 0 /\ p ∉ F;
  g_q : forall p, p ∈ (hp_queue h).*1 <-> exists e, hp_events h !! p = Some e /\ ev_state e = EV_QUEUED;
  g_qt : forall p x e, (p, x) ∈ hp_queue h -> hp_events h !! p = Some e ->
    ev_class e <> ClsDelay /\ ev_minStartCycle e + ev_preDelay e <= x /\ now <= x <= BIG;
  g_qd : NoDup (hp_queue h).*1;
  g_next : forall p e, hp_events h !! p = Some e -> (p < hp_next h)%nat }.

(** From [m] to [m'] events ended: those that remain are the same, up to the notification by
    their parents; except for the events [L], only DelayEvents are gone. *)
Record Evolve (L : list nat) (m m' : gmap nat TimingEvent) : Prop := {
  v_back : forall p e', m' !! p = Some e' -> exists e, m !! p = Some e /\ same e e' /\
    (ev_state e' = ev_state e \/ ev_state e = EV_NONE /\ ev_state e' = EV_QUEUED);
  v_gone : forall p e, m !! p = Some e -> m' !! p = None -> p ∈ L \/ ev_class e = ClsDelay /\ ev_state e = EV_NONE }.
Lemma Evolve_refl L m : Evolve L m m.
Proof. split; [intros p e' He; exists e'; eauto using same_refl|]. intros p e H1 H2. congruence. Qed.
Lemma Evolve_trans L m1 m2 m3 : Evolve L m1 m2 -> Evolve L m2 m3 -> Evolve L m1 m3.
Proof.
  intros [b1 g1] [b2 g2]. split.
  - intros p e3 H3. destruct (b2 _ _ H3) as (e2&H2&S2&T2). destruct (b1 _ _ H2) as (e1&H1&S1&T1).
    exists e1. split; [done|]. split; [by eapply same_trans|]. destruct T1 as [T1|[T1 T1']], T2 as [T2|[T2 T2']]; rewrite ?T1, ?T1' in *; naive_solver.
  - intros p e H1 H3. destruct (m2 !! p) as [e2|] eqn:H2; [|by eapply g1].
    destruct (g2 _ _ H2 H3) as [?|[Hc Hs]]; [by left|]. right. destruct (b1 _ _ H2) as (e1&H1'&S1&T1).
    simplify_eq. split; [by rewrite <- (sm_class _ _ S1)|]. destruct T1 as [T1|[? T1]]; congruence.
Qed.
Lemma Evolve_mono L L' m m' : L ⊆ L' -> Evolve L m m' -> Evolve L' m m'.
Proof. intros HL [b g]. split; [done|]. intros p e H1 H2. destruct (g _ _ H1 H2) as [?|?]; [left; by apply HL|by right]. Qed.

Lemma GI_perm h V V' F now : V ≡ₚ V' -> GI h V F now -> GI h V' F now.
Proof.
  intros HP []. split; try done.
  - intros p e He. rewrite <- HP. by apply g_np0.
  - intros q c. rewrite <- HP. apply g_dst0.
  - intros q c. rewrite <- HP. apply g_V0.
  - intros q c eq ec. rewrite <- HP. apply g_nd0.
  - intros p e. setoid_rewrite <- HP. apply g_time0.
Qed.
Lemma GI_now h V F now now' : (forall p x, (p, x) ∈ hp_queue h -> now' <= x) -> GI h V F now -> GI h V F now'.
Proof.
  intros Hn []. split; try done. intros p x e Hx He. destruct (g_qt0 p x e Hx He) as (?&?&?).
  specialize (Hn p x Hx). repeat split; try done; lia.
Qed.

(** ** Replacing an event *)
(** The event [c] may start late enough: from its own cycle, or because of a parent. *)
Definition in_time (m : gmap nat TimingEvent) (E : list (nat * nat)) (c : nat) (e : TimingEvent) : Prop :=
  ev_minStartCycle e <= ev_cycle e \/ exists q eq, (q, c) ∈ E /\ m !! q = Some eq /\ ev_minStartCycle e <= ev_end eq.

(** The queue of [h'] is that of [h], up to the entry of [c]. *)
Record Requeued (h h' : EvHeap) (c : nat) (e' : TimingEvent) (now : Z) : Prop := {
  rq_other : forall p x, p <> c -> (p, x) ∈ hp_queue h' <-> (p, x) ∈ hp_queue h;
  rq_self : c ∈ (hp_queue h').*1 <-> ev_state e' = EV_QUEUED;
  rq_time : forall x, (c, x) ∈ hp_queue h' -> ev_class e' <> ClsDelay /\ ev_minStartCycle e' + ev_preDelay e' <= x /\ now <= x <= BIG;
  rq_nodup : NoDup (hp_queue h').*1 }.

Lemma put_inv (m : gmap nat TimingEvent) (c : nat) (e e' : TimingEvent) p x : m !! c = Some e -> same e e' ->
  <[c := e']> m !! p = Some x -> (p = c /\ x = e') \/ (p <> c /\ m !! p = Some x).
Proof.
  intros He S Hx. destruct (decide (c = p)) as [<-|Hne]; [rewrite lookup_insert_eq in Hx; simplify_eq; by left|].
  rewrite lookup_insert_ne in Hx by done. by right.
Qed.
Lemma put_same (m : gmap nat TimingEvent) (c : nat) (e e' : TimingEvent) p x : m !! c = Some e -> same e e' ->
  m !! p = Some x -> exists x', <[c := e']> m !! p = Some x' /\ same x x'.
Proof.
  intros He S Hx. destruct (decide (c = p)) as [<-|Hne]; [rewrite lookup_insert_eq; simplify_eq; by eauto|].
  rewrite lookup_insert_ne by done. eauto using same_refl.
Qed.
Lemma put_back (m : gmap nat TimingEvent) (c : nat) (e e' : TimingEvent) p x' : m !! c = Some e -> same e e' ->
  <[c := e']> m !! p = Some x' -> exists x, m !! p = Some x /\ same x x'.
Proof. intros He S [[-> ->]|[_ Hx]]%(put_inv _ _ e); [eauto|eauto using same_refl|done..]. Qed.
Lemma in_time_put m c e e' E p x : m !! c = Some e -> same e e' -> in_time m E p x -> in_time (<[c := e']> m) E p x.
Proof.
  intros He S [?|(q&eq&Hin&Hq&Hle)]; [by left|]. right. destruct (put_same m c e e' q eq He S Hq) as (eq'&Hq'&S').
  exists q, eq'. by rewrite (same_end _ _ S').
Qed.
Lemma put_edges m c e e' : m !! c = Some e -> same e e' -> ev_state e <> EV_DONE -> ev_state e' <> EV_DONE ->
  edges (<[c := e']> m) ≡ₚ edges m.
Proof. intros He S Hs Hs'. apply (edges_update _ _ e); [done|]. unfold out. by rewrite !decide_False, (same_chl _ _ S) by done. Qed.

Section Put.
Context (h h' : EvHeap) (c : nat) (e e' : TimingEvent) (V D : list (nat * nat)) (F : list nat) (now : Z).
Context (G : GI h (D ++ V) F now) (HF : forall x, x ∈ F -> x = c) (He : hp_events h !! c = Some e) (S : same e e')
  (Hs : ev_state e <> EV_DONE) (Hs' : ev_state e' <> EV_DONE) (HD : Forall (fun x => x.2 = c) D)
  (Eh : hp_events h' = <[c := e']> (hp_events h)) (Hcyc : early e (ev_cycle e'))
  (Hnp : ev_numParents e' = cntp c (edges (hp_events h) ++ V)) (Hnp32 : ev_numParents e' < two32)
  (Hst : ev_state e' = EV_NONE -> in_time (hp_events h) (edges (hp_events h) ++ V) c e')
  (Hz : ev_numParents e' = 0 <-> ev_state e' <> EV_NONE).

Lemma put_E : edges (hp_events h') ≡ₚ edges (hp_events h).
Proof. rewrite Eh. by apply (put_edges _ _ e). Qed.
Lemma put_sub x : x ∈ edges (hp_events h) ++ V -> x ∈ edges (hp_events h) ++ D ++ V.
Proof. set_solver. Qed.
Lemma put_other p : p <> c -> cntp p (edges (hp_events h) ++ D ++ V) = cntp p (edges (hp_events h) ++ V).
Proof.
  intros Hne. rewrite !cntp_app. enough (cntp p D = 0) by lia. apply cntp_none. intros x Hx Ex.
  rewrite list.Forall_forall in HD. apply Hne. by rewrite <- Ex, HD.
Qed.

Lemma put_dst q p : (q, p) ∈ edges (hp_events h') ++ V -> exists x, hp_events h' !! p = Some x /\ ev_state x = EV_NONE.
Proof.
  rewrite put_E, Eh. intros Hin. destruct (g_dst _ _ _ _ G q p (put_sub _ Hin)) as (x&Hx&Hn).
  destruct (decide (c = p)) as [<-|Hne]; [|rewrite lookup_insert_ne by done; by exists x].
  rewrite lookup_insert_eq. exists e'. split; [done|]. apply dec_stable. intros Hns%Hz.
  assert (0 < cntp c (edges (hp_events h) ++ V)) by (apply cntp_pos; by exists q). lia.
Qed.

Lemma put_in_time p x : hp_events h' !! p = Some x -> ev_state x = EV_NONE -> in_time (hp_events h') (edges (hp_events h') ++ V) p x.
Proof.
  intros Hx Hn. unfold in_time. setoid_rewrite put_E. fold (in_time (hp_events h') (edges (hp_events h) ++ V) p x).
  rewrite Eh in *. apply (in_time_put _ _ e); [done|done|].
  destruct (put_inv _ _ e _ _ _ He S Hx) as [[-> ->]|[Hne Hx']]; [by apply Hst|].
  destruct (g_time _ _ _ _ G p x Hx' Hn ltac:(by intros ?%HF)) as [?|(q&eq&Hin&?)]; [by left|]. right. exists q, eq. split; [|done].
  rewrite !elem_of_app in Hin. rewrite elem_of_app. destruct Hin as [?|[Hin|?]]; [by left| |by right].
  rewrite Forall_forall in HD. by specialize (HD _ ltac:(by apply list_elem_of_In)).
Qed.

Lemma GI_put : hp_next h' = hp_next h -> Requeued h h' c e' now -> GI h' V [] now.
Proof.
  intros Hnx RQ.
  assert (Hinv : forall p x, hp_events h' !! p = Some x -> (p = c /\ x = e') \/ (p <> c /\ hp_events h !! p = Some x)).
  { intros p x. rewrite Eh. by apply (put_inv _ _ e). }
  split.
  - intros p x [[-> ->]|[_ Hx]]%Hinv; [apply (same_wf e); [done..|by eapply g_wf]|by eapply g_wf].
  - intros p x Hx%Hinv. rewrite put_E. destruct Hx as [[-> ->]|[Hne Hx]]; [done|].
    rewrite <- put_other by done. by eapply g_np.
  - apply put_dst.
  - intros q p Hin. destruct (g_V _ _ _ _ G q p) as (x&Hx&Hd); [set_solver|]. exists x. split; [|done].
    rewrite Eh, lookup_insert_ne; [done|]. intros <-. by simplify_eq.
  - intros q p eq ep Hin Hq Hp. rewrite put_E in Hin. rewrite Eh in Hq, Hp.
    destruct (put_back _ _ e _ _ _ He S Hq) as (x&Hx&Sx), (put_back _ _ e _ _ _ He S Hp) as (y&Hy&Sy).
    rewrite (sm_class _ _ Sx), (sm_class _ _ Sy). eapply g_nd; eauto. by apply put_sub.
  - intros p x Hx Hn _. by apply put_in_time.
  - intros p x Hx%Hinv Hn. right. destruct Hx as [[-> ->]|[Hne Hx]].
    + pose proof (cntp_nonneg c (edges (hp_events h) ++ V)). destruct (decide (ev_numParents e' = 0)) as [?%Hz|]; [done|lia].
    + by destruct (g_none _ _ _ _ G _ _ Hx Hn) as [?%HF|].
  - intros p x Hx%Hinv Hn. split; [|apply not_elem_of_nil]. destruct Hx as [[-> ->]|[_ Hx]]; [by apply Hz|].
    by destruct (g_busy _ _ _ _ G _ _ Hx Hn).
  - intros p. rewrite Eh. destruct (decide (c = p)) as [<-|Hne].
    + rewrite lookup_insert_eq, (rq_self _ _ _ _ _ RQ). split; [by eexists|]. intros (x&[= <-]&?). done.
    + rewrite lookup_insert_ne, <- (g_q _ _ _ _ G) by done. rewrite !list_elem_of_fmap.
      split; intros ([p' y]&->&Hy); exists (p', y); (split; [done|]); by apply (rq_other _ _ _ _ _ RQ).
  - intros p x ep Hx [[-> ->]|[Hne Hp]]%Hinv; [by apply (rq_time _ _ _ _ _ RQ)|].
    apply (rq_other _ _ _ _ _ RQ) in Hx; [|done]. by eapply g_qt.
  - apply (rq_nodup _ _ _ _ _ RQ).
  - intros p x Hx%Hinv. rewrite Hnx. destruct Hx as [[-> ->]|[_ Hx]]; by eapply g_next.
Qed.
End Put.

(** ** Notifying a child *)
Definition notified (st : EventState) (s : Z) (e : TimingEvent) : TimingEvent :=
  ev_set_state st (ev_set_numParents (ev_numParents e - 1) (ev_set_cycle (MAX (ev_cycle e) s) e)).
Definition notify (st : EventState) (c : nat) (s : Z) (e : TimingEvent) (h : EvHeap) : EvHeap :=
  mkHeap (<[c := notified st s e]> (hp_events h)) (hp_next h)
    (hp_queue h ++ (if decide (st = EV_QUEUED) then [(c, MAX (ev_cycle e) s + ev_preDelay e)] else [])).

Lemma queue_absent h V F now c e x : GI h V F now -> hp_events h !! c = Some e -> ev_state e <> EV_QUEUED -> (c, x) ∉ hp_queue h.
Proof.
  intros G He Hs Hx. assert (Hc : c ∈ (hp_queue h).*1) by (apply list_elem_of_fmap; by exists (c, x)).
  apply (g_q _ _ _ _ G) in Hc as (e'&?&?). by simplify_eq.
Qed.

Lemma notify_queue h V F now c e s st : GI h V F now -> hp_events h !! c = Some e -> ev_state e = EV_NONE ->
  now <= s -> early e s ->
  (st = EV_QUEUED -> ev_class e <> ClsDelay /\ ev_minStartCycle e <= MAX (ev_cycle e) s) ->
  Requeued h (notify st c s e h) c (notified st s e) now.
Proof.
  intros G He Hs Hnow Hr Hst. pose proof (g_wf _ _ _ _ G c e He) as (?&_&_&?&_).
  assert (Hno : forall x, (c, x) ∉ hp_queue h) by (intros x; eapply queue_absent; [done..|congruence]).
  split; cbn.
  - intros p x Hp. rewrite elem_of_app. split; [|by left]. intros [?|Hx]; [done|].
    case_decide; [apply list_elem_of_singleton in Hx; congruence|by apply elem_of_nil in Hx].
  - rewrite fmap_app, elem_of_app, list_elem_of_fmap. split.
    + intros [([c' x]&->&Hx)|Hx]; [by apply Hno in Hx|]. case_decide; [done|by apply elem_of_nil in Hx].
    + intros ->. right. rewrite decide_True by done. apply list_elem_of_here.
  - intros x [Hx|Hx]%elem_of_app; [by apply Hno in Hx|]. case_decide as Eq; [|by apply elem_of_nil in Hx].
    apply list_elem_of_singleton in Hx as [= ->]. destruct (Hst Eq) as [? Hm]. rewrite MAX_max in *.
    unfold early in *. rewrite decide_False in * by done. unfold BIG, LATE, two32 in *. split; [done|lia].
  - rewrite fmap_app. apply list.NoDup_app. split; [by eapply g_qd|]. split; [|case_decide; cbn; repeat constructor; apply not_elem_of_nil].
    intros p ([p' x]&->&Hx)%list_elem_of_fmap Hp. case_decide; cbn in Hp; [|by apply elem_of_nil in Hp].
    apply list_elem_of_singleton in Hp as ->. by apply Hno in Hx.
Qed.

Definition reached (st : EventState) (e : TimingEvent) : Prop :=
  if decide (ev_numParents e = 1) then st = EV_RUNNING \/ (st = EV_QUEUED /\ ev_class e <> ClsDelay) else st = EV_NONE.

Lemma GI_notify h q c V now e eq s st : GI h ((q, c) :: V) [] now -> hp_events h !! c = Some e ->
  hp_events h !! q = Some eq -> ev_end eq <= s -> now <= s -> early e s -> reached st e ->
  GI (notify st c s e h) V [] now /\ Evolve [] (hp_events h) (hp_events (notify (if decide (st = EV_RUNNING) then EV_NONE else st) c s e h)) /\
  (ev_numParents e = 1 -> ev_minStartCycle e <= MAX (ev_cycle e) s).
Proof.
  intros G He Hq Hend Hnow Hs Hst. destruct (g_dst _ _ _ _ G q c) as (e0&He0&Hs0); [apply elem_of_app; right; apply list_elem_of_here|].
  simplify_eq. destruct (g_np _ _ _ _ G c e He) as [Hnp Hnp32]. rewrite cntp_app, cntp_cons, decide_True in Hnp by done. cbn [snd] in Hnp.
  assert (Hc : cntp c (edges (hp_events h) ++ V) = ev_numParents e - 1) by (rewrite cntp_app; lia).
  pose proof (cntp_nonneg c (edges (hp_events h) ++ V)) as Hnn. pose proof (g_wf _ _ _ _ G c e He) as (_&_&_&Hcy&_).
  assert (Hlate : in_time (hp_events h) (edges (hp_events h) ++ V) c (notified st s e)).
  { unfold in_time. cbn. rewrite MAX_max. destruct (g_time _ _ _ _ G c e He Hs0 ltac:(apply not_elem_of_nil)) as [?|(q'&eq'&Hin&Hq'&Hle)]; [left; lia|].
    rewrite elem_of_app, elem_of_cons in Hin. destruct Hin as [Hin|[[= ->]|Hin]]; [|simplify_eq; left; lia|];
      right; exists q', eq'; (split; [apply elem_of_app; tauto|done]). }
  assert (Hmin : ev_numParents e = 1 -> ev_minStartCycle e <= MAX (ev_cycle e) s).
  { intros H1. destruct Hlate as [?|(q'&eq'&Hin&_)]; [done|].
    assert (0 < cntp c (edges (hp_events h) ++ V)) by (apply cntp_pos; by exists q'). lia. }
  unfold reached in Hst. split; [|split; [|done]].
  - eapply (GI_put h _ c e (notified st s e) V [(q, c)] [] now); cbn; try done.
    + intros x Hx. by apply elem_of_nil in Hx.
    + congruence.
    + case_decide; naive_solver.
    + by constructor.
    + unfold early in *. rewrite MAX_max. lia.
    + lia.
    + case_decide; split; [naive_solver|lia|lia|done].
    + eapply notify_queue; [done..|]. intros ->. case_decide; [|done]. destruct Hst as [?|[_ ?]]; [done|]. by split; [|apply Hmin].
  - cbn. split.
    + intros p e' [[-> ->]|[_ He']]%(put_inv _ _ e); [|eauto using same_refl|done|done]. exists e. split; [done|]. split; [done|]. cbn.
      rewrite Hs0. destruct (decide (st = EV_RUNNING)); [by left|]. case_decide; [right; naive_solver|by left].
    + intros p e1 H1 H2. apply lookup_insert_None in H2 as [H2 _]. congruence.
Qed.

(** ** Ending an event *)
Definition mark (p : nat) (e : TimingEvent) (h : EvHeap) : EvHeap :=
  mkHeap (<[p := ev_set_state EV_DONE e]> (hp_events h)) (hp_next h) (hp_queue h).

Lemma mark_edges h p e V : hp_events h !! p = Some e -> ev_state e <> EV_DONE ->
  edges (hp_events (mark p e h)) ++ out p e ++ V ≡ₚ edges (hp_events h) ++ V.
Proof.
  intros He Hs. cbn. rewrite <- insert_delete_eq, edges_insert by apply lookup_delete_eq.
  rewrite (edges_delete (hp_events h) p e He). unfold out at 1. cbn. rewrite app_assoc. f_equiv. apply Permutation_app_comm.
Qed.

Lemma GI_mark h p e V now : GI h V [] now -> hp_events h !! p = Some e -> ev_state e = EV_RUNNING ->
  GI (mark p e h) (out p e ++ V) [] now.
Proof.
  intros G He Hs. pose proof (mark_edges h p e V He ltac:(congruence)) as HE.
  assert (S : same e (ev_set_state EV_DONE e)) by (by split).
  assert (Hnone : forall c x, hp_events h !! c = Some x -> ev_state x = EV_NONE -> hp_events (mark p e h) !! c = Some x).
  { intros c x Hx Hn. cbn. rewrite lookup_insert_ne; [done|]. intros <-. simplify_eq. congruence. }
  split.
  - intros q x [[-> ->]|[_ Hx]]%(put_inv _ _ e); [|by eapply g_wf|done|done].
    apply (same_wf e); [done| |by eapply g_wf]. by apply (g_wf _ _ _ _ G _ _ He).
  - intros q x Hx. rewrite HE. apply (put_inv _ _ e) in Hx as [[-> ->]|[_ Hx]]; [|by eapply g_np|done|done]. exact (g_np _ _ _ _ G p e He).
  - intros q c Hin. rewrite HE in Hin. destruct (g_dst _ _ _ _ G q c Hin) as (x&Hx&Hn). exists x. split; [by apply Hnone|done].
  - intros q c [Hin|Hin]%elem_of_app.
    + unfold out in Hin. rewrite decide_False in Hin by congruence. apply list_elem_of_fmap in Hin as (c'&[= -> ->]&_).
      eexists. cbn. by rewrite lookup_insert_eq.
    + destruct (g_V _ _ _ _ G q c Hin) as (x&Hx&Hn). exists x. split; [|done]. cbn. rewrite lookup_insert_ne; [done|]. intros <-. simplify_eq. congruence.
  - intros q c eq ec Hin Hq Hc. rewrite HE in Hin.
    destruct (put_back _ _ e _ _ _ He S Hq) as (x&Hx&Sx), (put_back _ _ e _ _ _ He S Hc) as (y&Hy&Sy).
    rewrite (sm_class _ _ Sx), (sm_class _ _ Sy). by eapply g_nd.
  - intros q x Hx Hn HF. setoid_rewrite HE. apply (put_inv _ _ e) in Hx as [[-> ->]|[_ Hx]]; [done| |done|done].
    apply (in_time_put _ _ e); [done..|]. by eapply g_time.
  - intros q x Hx Hn. apply (put_inv _ _ e) in Hx as [[-> ->]|[_ Hx]]; [done|by eapply g_none|done|done].
  - intros q x Hx Hn. apply (put_inv _ _ e) in Hx as [[-> ->]|[_ Hx]]; [|by eapply g_busy|done|done]. cbn. eapply (g_busy _ _ _ _ G); [done|congruence].
  - intros q. cbn. rewrite (g_q _ _ _ _ G). destruct (decide (p = q)) as [<-|Hne]; [|by rewrite lookup_insert_ne].
    rewrite lookup_insert_eq. split; intros (x&Hx&Hq); simplify_eq. congruence.
  - intros q x e' Hx. intros [[-> ->]|[_ He']]%(put_inv _ _ e); [|by eapply g_qt|done|done]. exact (g_qt _ _ _ _ G p x e Hx He).
  - exact (g_qd _ _ _ _ G).
  - intros q x. intros [[-> ->]|[_ Hx]]%(put_inv _ _ e); [exact (g_next _ _ _ _ G p e He)|exact (g_next _ _ _ _ G q x Hx)|done|done].
Qed.

Definition unlink (p : nat) (h : EvHeap) : EvHeap := mkHeap (delete p (hp_events h)) (hp_next h) (hp_queue h).

Lemma GI_free h p e V now : GI h V [] now -> hp_events h !! p = Some e -> ev_state e = EV_DONE -> p ∉ V.*1 -> GI (unlink p h) V [] now.
Proof.
  intros G He Hs HV.
  assert (HE : edges (hp_events (unlink p h)) ≡ₚ edges (hp_events h)).
  { rewrite (edges_delete _ p e He). unfold out. by rewrite decide_True. }
  assert (Hinv : forall q x, hp_events (unlink p h) !! q = Some x -> hp_events h !! q = Some x).
  { intros q x Hx. cbn in Hx. by apply lookup_delete_Some in Hx as [_ ?]. }
  assert (Hkeep : forall q x, hp_events h !! q = Some x -> q <> p -> hp_events (unlink p h) !! q = Some x).
  { intros q x Hx Hne. cbn. by rewrite lookup_delete_ne. }
  assert (Hsrc : forall q c, (q, c) ∈ edges (hp_events h) ++ V -> q <> p).
  { intros q c [(x&Hx&?&_)%elem_edges|Hin]%elem_of_app ->; [by simplify_eq|]. apply HV, list_elem_of_fmap. by exists (p, c). }
  split.
  - intros q x Hx%Hinv. by eapply g_wf.
  - intros q x Hx%Hinv. rewrite HE. by eapply g_np.
  - intros q c Hin. rewrite HE in Hin. destruct (g_dst _ _ _ _ G q c Hin) as (x&Hx&Hn). exists x. split; [|done].
    apply Hkeep; [done|]. intros ->. simplify_eq. congruence.
  - intros q c Hin. destruct (g_V _ _ _ _ G q c Hin) as (x&Hx&Hn). exists x. split; [|done]. apply Hkeep; [done|].
    apply (Hsrc q c), elem_of_app. by right.
  - intros q c eq ec Hin Hq%Hinv Hc%Hinv. rewrite HE in Hin. by eapply g_nd.
  - intros q x Hx%Hinv Hn HF. setoid_rewrite HE. destruct (g_time _ _ _ _ G q x Hx Hn HF) as [?|(q'&eq&Hin&Hq&?)]; [by left|].
    right. exists q', eq. split; [done|]. split; [|done]. apply Hkeep; [done|]. by eapply Hsrc.
  - intros q x Hx%Hinv Hn. by eapply g_none.
  - intros q x Hx%Hinv Hn. by eapply g_busy.
  - intros q. rewrite (g_q _ _ _ _ G). split; intros (x&Hx&Hn); exists x; [|split; [by apply Hinv|done]].
    split; [|done]. apply Hkeep; [done|]. intros ->. simplify_eq. congruence.
  - intros q x e' Hx He'%Hinv. by eapply g_qt.
  - exact (g_qd _ _ _ _ G).
  - intros q x Hx%Hinv. exact (g_next _ _ _ _ G q x Hx).
Qed.

(** A notification that keeps the invariant, whatever is still to be notified. *)
Definition tells (P : TimingEvent -> Prop) (now : Z) (f : nat -> EvM unit) (s : Z) : Prop := forall h q c V eq ec,
  GI h ((q, c) :: V) [] now -> hp_events h !! q = Some eq -> ev_end eq <= s -> hp_events h !! c = Some ec -> P ec ->
  exists h', f c h = Ok (tt, h') /\ GI h' V [] now /\ Evolve [] (hp_events h) (hp_events h').
Definition stable (P : TimingEvent -> Prop) : Prop := forall e e', same e e' -> P e -> P e'.

Lemma Evolve_done L m m' p e : Evolve L m m' -> m !! p = Some e -> ev_state e = EV_DONE -> p ∉ L ->
  exists e', m' !! p = Some e' /\ same e e' /\ ev_state e' = EV_DONE.
Proof.
  intros [b g] He Hs HL. destruct (m' !! p) as [e'|] eqn:He'; [|destruct (g _ _ He He') as [?|[_ ?]]; [done|congruence]].
  destruct (b _ _ He') as (e0&?&S&T). simplify_eq. exists e'. split; [done|]. split; [done|]. destruct T as [?|[? _]]; congruence.
Qed.

Lemma tells_all P now f s q V : tells P now f s -> stable P -> forall L h eq,
  GI h (((fun c => (q, c)) <$> L) ++ V) [] now -> hp_events h !! q = Some eq -> ev_state eq = EV_DONE -> ev_end eq <= s ->
  (forall c ec, c ∈ L -> hp_events h !! c = Some ec -> P ec) ->
  exists h', mapM_ f L h = Ok (tt, h') /\ GI h' V [] now /\ Evolve [] (hp_events h) (hp_events h').
Proof.
  intros HT HP. induction L as [|c L IH]; intros h eq G Hq Hd Hs HPL.
  { exists h. split; [done|]. split; [done|]. apply Evolve_refl. }
  destruct (g_dst _ _ _ _ G q c) as (ec&Hec&Hn); [apply elem_of_app; right; apply list_elem_of_here|].
  destruct (HT _ _ _ _ _ _ G Hq Hs Hec) as (h1&E1&G1&V1); [by eapply HPL; [apply list_elem_of_here|]|].
  destruct (Evolve_done _ _ _ _ _ V1 Hq Hd ltac:(apply not_elem_of_nil)) as (eq1&Hq1&S1&Hd1).
  destruct (IH h1 eq1 G1 Hq1 Hd1) as (h'&E2&G2&V2).
  - by rewrite (same_end _ _ S1).
  - intros c' ec' Hc' Hec'. destruct (v_back _ _ _ V1 _ _ Hec') as (e0&He0&S0&_). eapply HP; [done|].
    eapply HPL; [|done]. by apply elem_of_cons; right.
  - exists h'. split; [cbn; unfold mbind, M_bind; by rewrite E1|]. split; [done|]. by eapply Evolve_trans.
Qed.

Lemma done_tells fuel P now h p e c V : stable P ->
  tells P now (fun x => parentDone fuel x (c + ev_postDelay e)) (c + ev_postDelay e) ->
  GI h V [] now -> hp_events h !! p = Some e -> ev_state e = EV_RUNNING ->
  (forall x ex, x ∈ chl e -> hp_events h !! x = Some ex -> P ex) ->
  ev_minStartCycle e + ev_preDelay e <= c -> 0 <= c <= LATE ->
  exists h', ev_done (Datatypes.S fuel) p c h = Ok (tt, h') /\ GI h' V [] now /\ Evolve [p] (hp_events h) (hp_events h') /\ hp_events h' !! p = None.
Proof.
  intros HP HT G He Hs HPc Hmin Hc. pose proof (GI_mark _ _ _ _ _ G He Hs) as G0.
  pose proof (g_wf _ _ _ _ G p e He) as (_&Hpost&_&_&_&Hsh).
  assert (Ho : out p e = (fun x => (p, x)) <$> chl e) by (unfold out; by rewrite decide_False by congruence).
  assert (S0 : same e (ev_set_state EV_DONE e)) by (by split).
  assert (Hp0 : hp_events (mark p e h) !! p = Some (ev_set_state EV_DONE e)) by apply lookup_insert_eq.
  rewrite Ho in G0.
  destruct (tells_all P now _ _ p V HT HP (chl e) (mark p e h) _ G0 Hp0 eq_refl) as (h1&E1&G1&V1).
  { rewrite (same_end _ _ S0). unfold ev_end. lia. }
  { intros x ex Hx Hex. destruct (put_back _ _ e _ _ _ He S0 Hex) as (e1&He1&S1). eapply HP; [done|]. by eapply HPc. }
  destruct (Evolve_done _ _ _ _ _ V1 Hp0 eq_refl ltac:(apply not_elem_of_nil)) as (e1&He1&S1&Hd1).
  assert (HpV : p ∉ V.*1).
  { intros ([p' x]&->&Hx)%list_elem_of_fmap. destruct (g_V _ _ _ _ G _ _ Hx) as (e2&He2&Hd2). cbn in *. simplify_eq. congruence. }
  exists (unlink p h1). split; [|split; [by eapply GI_free|split; [|apply lookup_delete_eq]]].
  - cbn [ev_done]. unfold mbind, M_bind, get_ev. rewrite He. unfold massert. rewrite bool_decide_eq_true_2 by done. cbn.
    fold (mark p e h). unfold visitChildren, mbind, M_bind, get_ev. rewrite Hp0. cbn. fold (chl e).
    rewrite u64_small by (unfold LATE, two64, two32 in *; lia). rewrite E1. cbn.
    destruct Hsh as (Hn&_&_). rewrite <- Hn, Z.eqb_refl. unfold massert. by destruct (_ <? 2).
  - split.
    + intros q e' He'. cbn in He'. apply lookup_delete_Some in He' as [Hne He']. destruct (v_back _ _ _ V1 _ _ He') as (e2&He2&S2&T2).
      cbn in He2. rewrite lookup_insert_ne in He2 by done. by exists e2.
    + intros q e2 He2 Hg. destruct (decide (q = p)) as [->|Hne]; [left; apply list_elem_of_here|]. cbn in Hg. rewrite lookup_delete_ne in Hg by done.
      right. destruct (v_gone _ _ _ V1 q e2) as [?%elem_of_nil|?]; [cbn; by rewrite lookup_insert_ne|done|done|done].
Qed.

Definition not_delay (e : TimingEvent) : Prop := ev_class e <> ClsDelay.
Lemma stable_not_delay : stable not_delay.
Proof. intros e e' S H. unfold not_delay. by rewrite (sm_class _ _ S). Qed.

Lemma notified_none s e : ev_state e = EV_NONE ->
  notified EV_NONE s e = ev_set_numParents (ev_numParents e - 1) (ev_set_cycle (MAX (ev_cycle e) s) e).
Proof. intros Hs. destruct e. cbn in *. by subst. Qed.

Lemma head_np h q c V F now e : GI h ((q, c) :: V) F now -> hp_events h !! c = Some e -> ev_state e = EV_NONE /\ 0 < ev_numParents e < two32.
Proof.
  intros G He. assert (Hin : (q, c) ∈ edges (hp_events h) ++ (q, c) :: V) by (apply elem_of_app; right; apply list_elem_of_here).
  destruct (g_dst _ _ _ _ G _ _ Hin) as (e0&?&?). simplify_eq. split; [done|]. destruct (g_np _ _ _ _ G _ _ He) as [Hn ?].
  assert (0 < cntp c (edges (hp_events h) ++ (q, c) :: V)) by (apply cntp_pos; by exists q). lia.
Qed.

Lemma tells_direct fuel now s : now <= s -> 0 <= s <= LATE -> tells not_delay now (fun x => parentDone (Datatypes.S fuel) x s) s.
Proof.
  intros Hnow Hr h q c V eq ec G Hq Hend Hc HP. destruct (head_np _ _ _ _ _ _ _ G Hc) as [Hs Hn].
  rewrite (parentDone_step fuel c ec h s) by done. cbn zeta. pose proof (g_wf _ _ _ _ G _ _ Hc) as (Hpre&_&_&Hcy&_).
  assert (Hs' : early ec s) by (unfold early; rewrite decide_False by done; lia).
  unfold early in Hcy. rewrite decide_False in Hcy by done.
  rewrite u64_small by (rewrite MAX_max; unfold LATE, two64, two32 in *; lia).
  destruct (Z.eqb_spec (ev_numParents ec) 1) as [E|E].
  - destruct (GI_notify h q c V now ec eq s EV_QUEUED G Hc Hq Hend Hnow Hs') as (G'&V'&_).
    { unfold reached. rewrite decide_True by done. by right. }
    exists (notify EV_QUEUED c s ec h). by split.
  - destruct (GI_notify h q c V now ec eq s EV_NONE G Hc Hq Hend Hnow Hs') as (G'&V'&_).
    { unfold reached. by rewrite decide_False. }
    exists (notify EV_NONE c s ec h). split; [|by split]. unfold notify. rewrite notified_none by done. by rewrite app_nil_r.
Qed.

(** A DelayEvent whose last parent is done is done as well, and notifies its own children,
    which are not DelayEvents. *)
Lemma delay_ends fuel h q c V eq ec now s : now <= s -> 0 <= s -> s + two32 <= LATE -> GI h ((q, c) :: V) [] now ->
  hp_events h !! q = Some eq -> ev_end eq <= s -> hp_events h !! c = Some ec -> ev_class ec = ClsDelay -> ev_numParents ec = 1 ->
  exists h', ev_done (Datatypes.S (Datatypes.S fuel)) c (MAX (ev_cycle ec) s + ev_preDelay ec) (notify EV_RUNNING c s ec h) = Ok (tt, h') /\
    GI h' V [] now /\ Evolve [] (hp_events h) (hp_events h').
Proof.
  intros Hnow H0 Hr G Hq Hend Hc Hcl H1. destruct (head_np _ _ _ _ _ _ _ G Hc) as [Hs _].
  pose proof (g_wf _ _ _ _ G _ _ Hc) as (Hpre&_&_&Hcy&Hpost&_). specialize (Hpost Hcl).
  unfold early in Hcy. rewrite decide_True in Hcy by done.
  destruct (GI_notify h q c V now ec eq s EV_RUNNING G Hc Hq Hend Hnow) as (G'&V'&Hm).
  { unfold early. rewrite decide_True by done. lia. }
  { unfold reached. rewrite decide_True by done. by left. }
  specialize (Hm H1). set (e' := notified EV_RUNNING s ec).
  assert (He' : hp_events (notify EV_RUNNING c s ec h) !! c = Some e') by apply lookup_insert_eq.
  assert (Hcy' : MAX (ev_cycle ec) s + ev_preDelay ec <= LATE) by (rewrite MAX_max; lia).
  destruct (done_tells (Datatypes.S fuel) not_delay now (notify EV_RUNNING c s ec h) c e' (MAX (ev_cycle ec) s + ev_preDelay ec) V)
    as (h'&E&G2&V2&Hg); [apply stable_not_delay| |done..| | | |].
  { apply tells_direct; cbn; rewrite Hpost, MAX_max in *; lia. }
  { intros x ex Hx Hex. eapply (g_nd _ _ _ _ G' c x); [|done|done|done]. apply elem_of_app. left. apply elem_edges. by exists e'. }
  { cbn. lia. }
  { rewrite MAX_max in *. lia. }
  exists h'. split; [done|]. split; [done|]. split.
  - intros p x Hx. destruct (v_back _ _ _ V2 _ _ Hx) as (x1&Hx1&S1&T1).
    apply (put_inv _ _ ec) in Hx1 as [[-> ->]|[_ Hx1]]; [congruence|by exists x1|done|done].
  - intros p x Hx Hn. right. destruct (decide (p = c)) as [->|Hne]; [by simplify_eq|].
    destruct (v_gone _ _ _ V2 p x) as [Hp%list_elem_of_singleton|?]; [cbn; by rewrite lookup_insert_ne|done|done|done].
Qed.

Definition any (e : TimingEvent) : Prop := True.
Lemma tells_any fuel now s : now <= s -> 0 <= s -> s + two32 <= LATE ->
  tells any now (fun x => parentDone (Datatypes.S (Datatypes.S (Datatypes.S fuel))) x s) s.
Proof.
  intros Hnow H0 Hr h q c V eq ec G Hq Hend Hc _. destruct (decide (ev_class ec = ClsDelay)) as [Hcl|Hcl].
  2: { eapply (tells_direct _ now s Hnow); [|done..]. unfold two32 in *. lia. }
  destruct (head_np _ _ _ _ _ _ _ G Hc) as [Hs Hn]. pose proof (g_wf _ _ _ _ G _ _ Hc) as (Hpre&_&_&Hcy&_).
  unfold early in Hcy. rewrite decide_True in Hcy by done.
  cbn [parentDone]. unfold mbind, M_bind, get_ev. rewrite Hc, Hcl, u32_small by lia. destruct (Z.eqb_spec (ev_numParents ec - 1) 0) as [E|E].
  - destruct (delay_ends fuel h q c V eq ec now s) as (h'&E'&R); [done..|lia|]. exists h'. split; [|done].
    cbn. rewrite E. rewrite u64_small by (rewrite MAX_max; unfold LATE, two64, two32 in *; lia).
    rewrite <- E'. unfold notify. rewrite decide_False, app_nil_r by done. unfold notified. by rewrite E.
  - destruct (GI_notify h q c V now ec eq s EV_NONE G Hc Hq Hend Hnow) as (G'&V'&_).
    { unfold early. rewrite decide_True by done. lia. }
    { unfold reached. rewrite decide_False by lia. done. }
    exists (notify EV_NONE c s ec h). split; [|by split]. unfold notify. rewrite notified_none by done. by rewrite app_nil_r.
Qed.

(** The end of an event that runs at cycle [c]: it is freed, its children are notified, and
    the invariant holds again. *)
Lemma ev_done_GI fuel now h p e c V : (4 <= fuel)%nat -> GI h V [] now -> hp_events h !! p = Some e -> ev_state e = EV_RUNNING ->
  ev_minStartCycle e + ev_preDelay e <= c -> now <= c -> 0 <= c < 2 ^ 63 + 2 ^ 33 ->
  exists h', ev_done fuel p c h = Ok (tt, h') /\ GI h' V [] now /\ Evolve [p] (hp_events h) (hp_events h') /\ hp_events h' !! p = None.
Proof.
  intros Hf G He Hs Hmin Hnow Hc. pose proof (g_wf _ _ _ _ G _ _ He) as (_&Hpost&_).
  destruct fuel as [|[|[|[|fuel]]]]; [lia..|]. eapply (done_tells _ any); try done.
  - apply tells_any; unfold LATE, two32 in *; lia.
  - unfold LATE. lia.
Qed.

(** ** Running, holding and queueing an event *)
Definition waiting (st : EventState) : Prop := st = EV_QUEUED \/ st = EV_RUNNING \/ st = EV_HELD.
Definition set_st (p : nat) (st : EventState) (e : TimingEvent) (h : EvHeap) (q : list (nat * Z)) : EvHeap :=
  mkHeap (<[p := ev_set_state st e]> (hp_events h)) (hp_next h) q.

Lemma GI_state h now p e st q : GI h [] [] now -> hp_events h !! p = Some e -> waiting (ev_state e) -> waiting st ->
  Requeued h (set_st p st e h q) p (ev_set_state st e) now -> GI (set_st p st e h q) [] [] now.
Proof.
  intros G He Hw Hw' RQ.
  assert (Hne : forall s, waiting s -> s <> EV_NONE /\ s <> EV_DONE) by (intros s [->|[->| ->]]; done).
  destruct (Hne _ Hw) as [Hn1 Hd1], (Hne _ Hw') as [Hn2 Hd2].
  destruct (g_busy _ _ _ _ G p e He Hn1) as [Hz _]. destruct (g_np _ _ _ _ G p e He) as [Hnp Hlt].
  eapply (GI_put h _ p e (ev_set_state st e) [] [] [] now); cbn; try done; [intros x Hx; by apply elem_of_nil in Hx|]. by apply (g_wf _ _ _ _ G p e He).
Qed.

Lemma Evolve_state h p e st q : hp_events h !! p = Some e ->
  forall x e', hp_events (set_st p st e h q) !! x = Some e' -> x <> p -> hp_events h !! x = Some e'.
Proof. intros He x e' Hx Hne. cbn in Hx. by rewrite lookup_insert_ne in Hx. Qed.

(** The first half of [run], on the [k]-th entry of the queue. *)
Lemma run_GI h now k p c : GI h [] [] now -> hp_queue h !! k = Some (p, c) -> (forall x y, (x, y) ∈ hp_queue h -> c <= y) ->
  exists e, hp_events h !! p = Some e /\ ev_state e = EV_QUEUED /\ ev_class e <> ClsDelay /\
    ev_minStartCycle e + ev_preDelay e <= c /\ now <= c <= BIG /\
    let h1 := set_st p EV_RUNNING e h (delete k (hp_queue h)) in
    run_ev p c (mkHeap (hp_events h) (hp_next h) (delete k (hp_queue h))) = Ok (e, h1) /\ GI h1 [] [] c.
Proof.
  intros G Hk Hmin. pose proof (delete_Permutation _ _ _ Hk) as HP. generalize dependent (delete k (hp_queue h)). intros Q1 HP.
  assert (Hin : (p, c) ∈ hp_queue h) by (rewrite HP; apply list_elem_of_here).
  assert (Hp : p ∈ (hp_queue h).*1) by (apply list_elem_of_fmap; by exists (p, c)).
  apply (g_q _ _ _ _ G) in Hp as (e&He&Hs). destruct (g_qt _ _ _ _ G p c e Hin He) as (Hc1&Hc2&Hc3).
  pose proof (g_qd _ _ _ _ G) as Hnd. rewrite HP in Hnd. cbn in Hnd. apply list.NoDup_cons in Hnd as [Hnp Hnd].
  pose proof (g_wf _ _ _ _ G p e He) as (Hpre&_).
  exists e. repeat (split; [done|]). cbn zeta. split.
  - unfold run_ev, mbind, M_bind, get_ev. cbn. rewrite He. unfold massert. rewrite Hs. cbn.
    by rewrite (proj2 (Z.leb_le _ _)) by lia.
  - eapply GI_state; [eapply GI_now; [exact Hmin|exact G]|done|by left|by right; left|]. split; cbn.
    + intros q x Hne. rewrite HP, elem_of_cons. split; [by right|]. intros [[= ?]|?]; done.
    + split; [|done]. intros Hq. done.
    + intros x Hx. exfalso. apply Hnp, list_elem_of_fmap. by exists (p, x).
    + done.
Qed.

Lemma hold_GI h now p e : GI h [] [] now -> hp_events h !! p = Some e -> ev_state e = EV_RUNNING ->
  hold p h = Ok (tt, set_st p EV_HELD e h (hp_queue h)) /\ GI (set_st p EV_HELD e h (hp_queue h)) [] [] now.
Proof.
  intros G He Hs. split.
  { unfold hold, mbind, M_bind, get_ev. rewrite He. unfold massert. by rewrite Hs. }
  assert (Hno : forall x, (p, x) ∉ hp_queue h) by (intros x; eapply queue_absent; [done..|congruence]).
  eapply GI_state; [done|done|by right; left|by right; right|]. split; cbn; [done| |by intros x Hx%Hno|by eapply g_qd].
  split; [|done]. intros ([p' x]&->&Hx)%list_elem_of_fmap. by apply Hno in Hx.
Qed.

Lemma append_queue h V F now p e c : GI h V F now -> hp_events h !! p = Some e -> ev_state e <> EV_QUEUED ->
  ev_class e <> ClsDelay -> ev_minStartCycle e + ev_preDelay e <= c -> now <= c <= BIG ->
  Requeued h (set_st p EV_QUEUED e h (hp_queue h ++ [(p, c)])) p (ev_set_state EV_QUEUED e) now.
Proof.
  intros G He Hs Hcl Hmin Hc. assert (Hno : forall x, (p, x) ∉ hp_queue h) by (intros x; by eapply queue_absent). split; cbn.
  - intros q x Hne. rewrite elem_of_app, list_elem_of_singleton. split; [|by left]. intros [?|[= ?]]; done.
  - split; [done|]. intros _. rewrite fmap_app, elem_of_app. right. apply list_elem_of_here.
  - intros x [Hx|[= ->]%list_elem_of_singleton]%elem_of_app; [by apply Hno in Hx|done].
  - rewrite fmap_app. apply list.NoDup_app. split; [by eapply g_qd|]. split; [|apply NoDup_singleton].
    intros q ([q' x]&Eq&Hx)%list_elem_of_fmap Hp%list_elem_of_singleton. cbn in *. subst. by apply Hno in Hx.
Qed.
Lemma requeue_GI h now p e c : GI h [] [] now -> hp_events h !! p = Some e -> ev_state e = EV_RUNNING \/ ev_state e = EV_HELD ->
  ev_class e <> ClsDelay -> ev_minStartCycle e + ev_preDelay e <= c -> now <= c <= BIG ->
  requeue_ev p c h = Ok (tt, set_st p EV_QUEUED e h (hp_queue h ++ [(p, c)])) /\ GI (set_st p EV_QUEUED e h (hp_queue h ++ [(p, c)])) [] [] now.
Proof.
  intros G He Hs Hcl Hmin Hc. destruct (g_busy _ _ _ _ G p e He) as [Hz _]; [by destruct Hs; congruence|]. split.
  { unfold requeue_ev, mbind, M_bind, get_ev. rewrite He. unfold massert. rewrite Hz. cbn. destruct Hs as [Hs|Hs]; by rewrite Hs. }
  eapply GI_state; [done|done|right; tauto|by left|]. eapply append_queue; try done. destruct Hs; congruence.
Qed.
(** [queue]: an event without parents enters the graph. *)
Lemma queue_GI h now p e c : GI h [] [p] now -> hp_events h !! p = Some e -> ev_state e = EV_NONE -> ev_numParents e <= 0 ->
  ev_class e <> ClsDelay -> ev_minStartCycle e + ev_preDelay e <= c -> now <= c <= BIG ->
  queue_ev p c h = Ok (tt, set_st p EV_QUEUED e h (hp_queue h ++ [(p, c)])) /\ GI (set_st p EV_QUEUED e h (hp_queue h ++ [(p, c)])) [] [] now.
Proof.
  intros G He Hs Hnp Hcl Hmin Hc. destruct (g_np _ _ _ _ G p e He) as [Hn Hlt]. pose proof (cntp_nonneg p (edges (hp_events h) ++ [])).
  assert (Hz : ev_numParents e = 0) by lia. split.
  { unfold queue_ev, mbind, M_bind, get_ev. rewrite He. unfold massert. rewrite Hz, Hs. done. }
  eapply (GI_put h _ p e (ev_set_state EV_QUEUED e) [] [] [p] now); cbn; try done.
  - by intros x ->%list_elem_of_singleton.
  - congruence.
  - by apply (g_wf _ _ _ _ G p e He).
  - eapply append_queue; try done. congruence.
Qed.
End TCD.
