(* ===== verification/TimingCacheInv.v ===== *)
(** * The invariant of the timing cache, and the weave phase

    [KI]: what the event graph says about the accesses: a miss's writeback is reached from its
    start, and waits for no other access.  [MI]: the MSHRs and the queue of the accesses that
    wait for one.  Every step of the weave phase keeps them. *)

From S2P Require Import Prelude Bithacks MemHier TimingEvent CoreRecorder EventTree TimingCache TimingCachePort TimingCacheDag.
Import TCache TCP TCD.

Module TCI.

(** ** Paths *)
Inductive path (m : gmap nat TimingEvent) : nat -> nat -> Prop :=
| path_edge q c : (q, c) ∈ edges m -> path m q c
| path_cons q x c : (q, x) ∈ edges m -> path m x c -> path m q c.

Lemma path_last m q c : path m q c -> exists x, (x, c) ∈ edges m.
Proof. induction 1; eauto. Qed.
Lemma path_trans m q x c : path m q x -> path m x c -> path m q c.
Proof. induction 1; eauto using path_cons. Qed.

(** [m'] is what remains of [m]. *)
Definition Sub (m m' : gmap nat TimingEvent) : Prop := forall p e', m' !! p = Some e' ->
  ev_state e' <> EV_DONE /\ exists e, m !! p = Some e /\ same e e' /\ ev_state e <> EV_DONE.
Definition closed (m : gmap nat TimingEvent) : Prop := forall q c, (q, c) ∈ edges m -> is_Some (m !! c).

Lemma Sub_trans m1 m2 m3 : Sub m1 m2 -> Sub m2 m3 -> Sub m1 m3.
Proof.
  intros H1 H2 p e3 H3. destruct (H2 _ _ H3) as (?&e2&He2&S2&_). destruct (H1 _ _ He2) as (_&e1&He1&S1&?).
  split; [done|]. exists e1. split; [done|]. split; [by eapply same_trans|done].
Qed.
Lemma Sub_edges m m' q c : Sub m m' -> (q, c) ∈ edges m' -> (q, c) ∈ edges m.
Proof.
  intros HS (e'&He'&_&Hc)%elem_edges. destruct (HS _ _ He') as (_&e&He&S&Hd). apply elem_edges. exists e.
  split; [done|]. split; [done|]. by rewrite <- (same_chl _ _ S).
Qed.
Lemma Sub_path m m' q c : Sub m m' -> closed m' -> path m q c -> is_Some (m' !! q) -> path m' q c.
Proof.
  intros HS HC. assert (Hk : forall q x, (q, x) ∈ edges m -> is_Some (m' !! q) -> (q, x) ∈ edges m').
  { intros q0 x (e&He&_&Hx)%elem_edges [e' He']. destruct (HS _ _ He') as (Hd&e0&?&S&_). simplify_eq.
    apply elem_edges. exists e'. split; [done|]. split; [done|]. by rewrite (same_chl _ _ S). }
  induction 1 as [q c Hin|q x c Hin _ IH]; intros Hl; [by apply path_edge, Hk|].
  eapply path_cons; [by apply Hk|]. apply IH. by eapply HC, Hk.
Qed.

(** ** Accesses in the graph *)
Definition is_start (k : option Kind) : Prop := k = Some HitEvent \/ exists s, k = Some (MissStartEvent s).
Definition refers (k : option Kind) (mse : nat) : Prop := k = Some (MissResponseEvent mse) \/ k = Some (MissWritebackEvent mse).
Definition class_of (k : option Kind) (e : TimingEvent) : Prop :=
  match k with
  | Some (ReplAccessEvent n) => ev_class e = ClsTiming /\ 1 <= n < two32
  | Some _ => ev_class e = ClsTiming
  | None => ev_class e = ClsDelay \/ exists lat, ev_class e = ClsMem lat /\ 0 <= lat < two32
  end.

Record KI (m : gmap nat TimingEvent) (kinds : gmap nat Kind) (next : nat) (rank : nat -> nat) (grp : nat -> option nat) : Prop := {
  k_rank : forall q c, (q, c) ∈ edges m -> (rank q < rank c)%nat;
  k_grp : forall q c w, (q, c) ∈ edges m -> grp c = Some w -> grp q = Some w \/ kinds !! w = Some (MissWritebackEvent q);
  k_member : forall p w, is_Some (m !! p) -> grp p = Some w -> ~ is_start (kinds !! p);
  k_self : forall w mse, kinds !! w = Some (MissWritebackEvent mse) -> grp w = Some w;
  k_class : forall p e, m !! p = Some e -> class_of (kinds !! p) e;
  k_path : forall p mse, refers (kinds !! p) mse -> is_Some (m !! mse) -> path m mse p;
  k_wb : forall p s, kinds !! p = Some (MissStartEvent s) -> is_Some (m !! p) -> exists w, kinds !! w = Some (MissWritebackEvent p);
  k_uniq : forall w w' mse, kinds !! w = Some (MissWritebackEvent mse) -> kinds !! w' = Some (MissWritebackEvent mse) -> w = w';
  k_start : forall p mse, refers (kinds !! p) mse -> exists s, kinds !! mse = Some (MissStartEvent s) /\ (m !! mse = None -> is_Some s);
  k_next : forall p, is_Some (kinds !! p) -> (p < next)%nat }.

Lemma KI_sub m m' kinds next rank grp : KI m kinds next rank grp -> Sub m m' -> closed m' ->
  (forall p, is_Some (m !! p) -> m' !! p = None -> kinds !! p <> Some (MissStartEvent None)) -> KI m' kinds next rank grp.
Proof.
  intros [] HS HC Hst. assert (Hl : forall p, is_Some (m' !! p) -> is_Some (m !! p)).
  { intros p [e' He']. destruct (HS _ _ He') as (_&e&?&_). by exists e. }
  split; try done.
  - intros q c Hin. by apply k_rank0, (Sub_edges _ _ _ _ HS).
  - intros q c w Hin. by apply k_grp0, (Sub_edges _ _ _ _ HS).
  - intros p w Hp. apply k_member0. by apply Hl.
  - intros p e' He'. destruct (HS _ _ He') as (_&e&He&S&_). specialize (k_class0 _ _ He). unfold class_of in *. by rewrite (sm_class _ _ S).
  - intros p mse Hr Hp. eapply Sub_path; [done|done| |done]. apply k_path0; [done|]. by apply Hl.
  - intros p s Hk Hp. eapply k_wb0; [done|]. by apply Hl.
  - intros p mse Hr. destruct (k_start0 _ _ Hr) as (s&Hs&Hn). exists s. split; [done|]. intros Hd.
    destruct (m !! mse) as [e|] eqn:He; [|by apply Hn]. destruct s as [s|]; [by exists s|]. exfalso.
    apply (Hst mse); [by exists e|done|done].
Qed.
Lemma GI_closed h F now : GI h [] F now -> closed (hp_events h).
Proof. intros G q c Hin. destruct (g_dst _ _ _ _ G q c) as (e&?&_); [by rewrite app_nil_r|]. by exists e. Qed.

(** A change of an event's own fields. *)
Lemma KI_kind m kinds next rank grp p k k' : KI m kinds next rank grp -> kinds !! p = Some k ->
  (exists s c, k = MissStartEvent s /\ k' = MissStartEvent (Some c)) \/ (exists n n', k = ReplAccessEvent n /\ k' = ReplAccessEvent n' /\ (1 <= n' < two32 \/ m !! p = None)) ->
  KI m (<[p := k']> kinds) next rank grp.
Proof.
  intros [] Hk HK.
  assert (Hw : forall w mse, <[p := k']> kinds !! w = Some (MissWritebackEvent mse) <-> kinds !! w = Some (MissWritebackEvent mse)).
  { intros w mse. destruct (decide (p = w)) as [<-|?]; [|by rewrite lookup_insert_ne]. rewrite lookup_insert_eq, Hk. split; naive_solver. }
  assert (Hr : forall w mse, refers (<[p := k']> kinds !! w) mse <-> refers (kinds !! w) mse).
  { intros w mse. unfold refers. rewrite Hw. destruct (decide (p = w)) as [<-|?]; [|by rewrite lookup_insert_ne].
    rewrite lookup_insert_eq, Hk. split; naive_solver. }
  split; try done.
  - intros q c w Hin Hg. rewrite Hw. by eapply k_grp0.
  - intros q w Hl Hg. specialize (k_member0 q w Hl Hg). destruct (decide (p = q)) as [<-|?]; [|by rewrite lookup_insert_ne].
    rewrite lookup_insert_eq. rewrite Hk in k_member0. unfold is_start in *. naive_solver.
  - intros w mse Hx%Hw. by eapply k_self0.
  - intros q e He. specialize (k_class0 _ _ He). destruct (decide (p = q)) as [<-|?]; [|by rewrite lookup_insert_ne].
    rewrite lookup_insert_eq. rewrite Hk in k_class0. destruct HK as [(s&c&->&->)|(n&n'&->&->&?)]; cbn in *; naive_solver.
  - intros q mse Hx%Hr. by apply k_path0.
  - intros q s Hq Hl. destruct (decide (p = q)) as [<-|?].
    + rewrite lookup_insert_eq in Hq. destruct HK as [(s0&c&->&->)|(n&n'&->&->&?)]; [|done]. setoid_rewrite Hw. by eapply k_wb0.
    + rewrite lookup_insert_ne in Hq by done. setoid_rewrite Hw. by eapply k_wb0.
  - intros w w' mse H1%Hw H2%Hw. by eapply k_uniq0.
  - intros q mse Hx%Hr. destruct (k_start0 _ _ Hx) as (s&Hs&Hn). destruct (decide (p = mse)) as [<-|?].
    + rewrite lookup_insert_eq. destruct HK as [(s0&c&->&->)|(n&n'&->&->&?)]; [|congruence]. exists (Some c). by split.
    + rewrite lookup_insert_ne by done. by exists s.
  - intros q Hq. destruct (decide (p = q)) as [<-|?]; [apply k_next0; by exists k|]. rewrite lookup_insert_ne in Hq by done. by apply k_next0.
Qed.

(** ** No operation on the events of the weave phase creates one *)
Definition keeps_next {A} (m : EvM A) : Prop := forall h a h', m h = Ok (a, h') -> hp_next h' = hp_next h.
Lemma nextk_bind {A B} (m : EvM A) (k : A -> EvM B) : keeps_next m -> (forall a, keeps_next (k a)) -> keeps_next (m ≫= k).
Proof.
  intros Hm Hk h b h' E. unfold mbind, M_bind in E. destruct (m h) as [[a h1]|] eqn:E1; [|done].
  rewrite (Hk a _ _ _ E). by apply (Hm _ _ _ E1).
Qed.
Lemma nextk_get p : keeps_next (get_ev p).
Proof. intros h a h' E. unfold get_ev in E. destruct (_ !! p); by simplify_eq. Qed.
Lemma nextk_put p e : keeps_next (put_ev p e).
Proof. intros h a h' E. unfold put_ev, mmodify in E. by simplify_eq. Qed.
Lemma nextk_assert b msg : keeps_next (massert b msg).
Proof. intros h a h' E. unfold massert in E. destruct b; by simplify_eq. Qed.
Lemma nextk_ret {A} (a : A) : keeps_next (mret a).
Proof. intros h b h' E. unfold mret, M_ret in E. by simplify_eq. Qed.
Lemma nextk_modify f : (forall h, hp_next (f h) = hp_next h) -> keeps_next (mmodify f).
Proof. intros Hf h a h' E. unfold mmodify in E. by simplify_eq. Qed.
Lemma nextk_mapM {A} (f : A -> EvM unit) l : (forall a, keeps_next (f a)) -> keeps_next (mapM_ f l).
Proof. intros Hf. induction l; cbn; [apply nextk_ret|]. apply nextk_bind; [done|]. by intros _. Qed.
#[local] Hint Resolve nextk_bind nextk_get nextk_put nextk_assert nextk_ret nextk_modify nextk_mapM : keeps.
Lemma nextk_visit p f : (forall c, keeps_next (f c)) -> keeps_next (visitChildren p f).
Proof. intros Hf. unfold visitChildren. apply nextk_bind; [auto with keeps|]. intros e. apply nextk_bind; [auto with keeps|]. intros _. destruct (_ <? 2); auto with keeps. Qed.

Lemma nextk_done fuel : forall p c, keeps_next (ev_done fuel p c) /\ keeps_next (parentDone fuel p c).
Proof.
  induction fuel as [|fuel IH]; intros p c; [by split|]. split; cbn [ev_done parentDone].
  - apply nextk_bind; [auto with keeps|]. intros e. apply nextk_bind; [auto with keeps|]. intros _.
    apply nextk_bind; [auto with keeps|]. intros _. apply nextk_bind; [|intros _; by apply nextk_modify].
    apply nextk_visit. intros c'. by apply IH.
  - apply nextk_bind; [auto with keeps|]. intros e. assert (Hd : forall q x, keeps_next (ev_done fuel q x)) by (intros; by apply IH).
    assert (He : forall q x, keeps_next (enqueue q x)) by (intros; by apply nextk_modify).
    destruct (ev_class e); cbn zeta; repeat first [apply nextk_bind; [auto with keeps|intros _] | destruct (_ =? 0) | auto with keeps].
Qed.

(** ** The state of the cache, with the running events [R] *)
Definition resting (st : EventState) : Prop := st = EV_NONE \/ st = EV_QUEUED \/ st = EV_HELD.

Record cfg (c : t) : Prop := {
  cf_num : 0 < numMSHRs c < two32 - 1;
  cf_dom : domain c <> -1;
  cf_acc : 0 <= accLat c < 2 ^ 31;
  cf_ways : 2 <= ways c < 2 ^ 31;
  cf_cands : 0 <= cands c < 2 ^ 31;
  cf_tag : 1 <= tagLat c < 2 ^ 31 }.

Section State.
Context (rank : nat -> nat) (grp : nat -> option nat).

Record St (w : W Outcome) (now : Z) (R : list nat) (used : list Z) : Prop := {
  s_gi : GI (w_heap w) [] [] now;
  s_ki : KI (hp_events (w_heap w)) (w_kinds w) (hp_next (w_heap w)) rank grp;
  s_rest : forall p e, hp_events (w_heap w) !! p = Some e -> p ∉ R -> resting (ev_state e);
  s_run : forall p, p ∈ R -> exists e, hp_events (w_heap w) !! p = Some e /\ ev_state e = EV_RUNNING /\
    ev_minStartCycle e + ev_preDelay e <= now /\ ev_class e <> ClsDelay;
  s_held : forall p, p ∈ pendingQueue (w_tc w) <-> exists e, hp_events (w_heap w) !! p = Some e /\ ev_state e = EV_HELD;
  s_hnd : NoDup (pendingQueue (w_tc w));
  s_hk : forall p, p ∈ pendingQueue (w_tc w) -> is_start (w_kinds w !! p);
  s_hmin : forall p e, hp_events (w_heap w) !! p = Some e -> ev_state e = EV_HELD -> ev_minStartCycle e + ev_preDelay e <= now;
  s_dom : forall p e, hp_events (w_heap w) !! p = Some e -> ev_domain e = domain (w_tc w);
  s_port : PortI (Z.max 2 now) (w_tc w) used;
  s_cfg : cfg (w_tc w);
  s_recs : Forall (fun er => hasRecord er = false) (w_recs w) }.

(** The MSHRs: [act] are the writebacks of the misses that hold one. *)
Definition active (m : gmap nat TimingEvent) (kinds : gmap nat Kind) (x : nat) : Prop :=
  exists mse, kinds !! x = Some (MissWritebackEvent mse) /\ is_Some (m !! x) /\ m !! mse = None.
Record MI (w : W Outcome) (now : Z) (act : list nat) : Prop := {
  m_len : activeMisses (w_tc w) = Z.of_nat (length act);
  m_le : activeMisses (w_tc w) <= numMSHRs (w_tc w);
  m_nd : NoDup act;
  m_in : forall x, x ∈ act <-> active (hp_events (w_heap w)) (w_kinds w) x;
  m_full : pendingQueue (w_tc w) <> [] -> activeMisses (w_tc w) = numMSHRs (w_tc w);
  m_size : bd_size (profOccHist (w_tc w)) = numMSHRs (w_tc w) + 1;
  m_cur : 0 <= bd_curState (profOccHist (w_tc w)) <= numMSHRs (w_tc w);
  m_last : bd_lastCycle (profOccHist (w_tc w)) <= now }.

(** ** The end of the running event *)
Record Ended (w w' : W Outcome) (p : nat) : Prop := {
  en_ev : Evolve [p] (hp_events (w_heap w)) (hp_events (w_heap w'));
  en_gone : hp_events (w_heap w') !! p = None;
  en_tc : w_tc w' = w_tc w;
  en_kinds : w_kinds w' = w_kinds w }.

Lemma Evolve_Sub m m' p : Evolve [p] m m' -> m' !! p = None -> (forall q e, m !! q = Some e -> q <> p -> resting (ev_state e)) -> Sub m m'.
Proof.
  intros HV Hg Hr q e' He'. destruct (v_back _ _ _ HV _ _ He') as (e&He&S&T).
  assert (Hq : q <> p) by (intros ->; congruence). destruct (Hr _ _ He Hq) as [Hs|[Hs|Hs]];
    (split; [destruct T as [T|[_ T]]; congruence|]; exists e; split; [done|]; split; [done|congruence]).
Qed.

Lemma done_St w now p used c (Q : unit -> W Outcome -> Prop) : St w now [p] used -> w_kinds w !! p <> Some (MissStartEvent None) ->
  now <= c < 2 ^ 63 + 2 ^ 33 -> 0 <= now -> (forall w', St w' now [] used -> Ended w w' p -> Q tt w') -> wp (done p c) Q w.
Proof.
  intros I Hk Hc H0 HQ. destruct (s_run _ _ _ _ I p ltac:(apply list_elem_of_here)) as (e&He&Hs&Hm&Hcl).
  assert (Hf : (4 <= CR.ev_fuel (w_heap w))%nat).
  { unfold CR.ev_fuel. enough (base.size (hp_events (w_heap w)) <> 0)%nat by lia. intros E%map_size_empty_inv. by rewrite E in He. }
  destruct (ev_done_GI _ now (w_heap w) p e c [] Hf (s_gi _ _ _ _ I) He Hs) as (h'&E&G&V&Hg); [lia..|].
  pose proof (proj1 (nextk_done _ p c) _ _ _ E) as Hnx.
  assert (HS : Sub (hp_events (w_heap w)) (hp_events h')).
  { eapply Evolve_Sub; [done..|]. intros q x Hx Hq. eapply s_rest; [done..|]. by apply not_elem_of_cons; split; [|apply not_elem_of_nil]. }
  unfold done. wp_steps. unfold wp, onHeap. rewrite E. apply HQ; [|by split]. destruct I. split; cbn; try done.
  - rewrite Hnx. eapply KI_sub; [done|done|by eapply GI_closed|]. intros q [x Hx] Hq.
    destruct (v_gone _ _ _ V q x Hx Hq) as [->%list_elem_of_singleton|[Hd _]]; [done|]. intros Hk'.
    pose proof (k_class _ _ _ _ _ s_ki0 q x Hx) as HC. rewrite Hk' in HC. cbn in HC. congruence.
  - intros q x Hx _. destruct (v_back _ _ _ V _ _ Hx) as (x0&Hx0&_&T). destruct T as [->|[_ ->]]; [|by right; left].
    eapply s_rest0; [done|]. intros ->%list_elem_of_singleton. congruence.
  - intros q Hq. by apply elem_of_nil in Hq.
  - intros q. rewrite s_held0. split; intros (x&Hx&Hh).
    + destruct (hp_events h' !! q) as [x'|] eqn:Hx'.
      * destruct (v_back _ _ _ V _ _ Hx') as (x0&?&_&T). simplify_eq. exists x'. split; [done|]. destruct T as [?|[? _]]; congruence.
      * destruct (v_gone _ _ _ V q x Hx Hx') as [->%list_elem_of_singleton|[_ ?]]; congruence.
    + destruct (v_back _ _ _ V _ _ Hx) as (x0&Hx0&_&T). exists x0. split; [done|]. destruct T as [?|[_ ?]]; congruence.
  - intros q x Hx Hh. destruct (v_back _ _ _ V _ _ Hx) as (x0&Hx0&S&T). rewrite (sm_min _ _ S), (sm_pre _ _ S).
    apply (s_hmin0 q); [done|]. destruct T as [?|[_ ?]]; congruence.
  - intros q x Hx. destruct (v_back _ _ _ V _ _ Hx) as (x0&Hx0&S&_). rewrite (sm_dom _ _ S). by eapply s_dom0.
Qed.

(** ** A change of the state of one event *)
Definition with_tc (c : t) (w : W Outcome) : W Outcome := mkW (w_x w) c (w_kinds w) (w_recs w) (w_heap w).
Definition with_heap (h : EvHeap) (w : W Outcome) : W Outcome := mkW (w_x w) (w_tc w) (w_kinds w) (w_recs w) h.

Lemma Sub_state h p e st q : hp_events h !! p = Some e -> waiting st -> waiting (ev_state e) ->
  (forall x ex, hp_events h !! x = Some ex -> ev_state ex <> EV_DONE) -> Sub (hp_events h) (hp_events (set_st p st e h q)).
Proof.
  intros He Hw Hw' Hd x e' [[-> ->]|[_ Hx]]%(put_inv _ _ e); [| |done|done].
  - split; [cbn; by destruct Hw as [->|[->| ->]]|]. exists e. split; [done|]. split; [done|by eapply Hd].
  - split; [by eapply Hd|]. exists e'. split; [done|]. split; [apply same_refl|by eapply Hd].
Qed.

Lemma St_set w now now' R R' used p e st q tc : St w now R used -> hp_events (w_heap w) !! p = Some e ->
  waiting (ev_state e) -> waiting st -> (forall x, x ∈ R' <-> (x <> p /\ x ∈ R) \/ (x = p /\ st = EV_RUNNING)) ->
  now <= now' ->
  GI (set_st p st e (w_heap w) q) [] [] now' ->
  (st <> EV_QUEUED -> ev_minStartCycle e + ev_preDelay e <= now' /\ ev_class e <> ClsDelay) ->
  PortI (Z.max 2 now') tc used -> cfg tc -> domain tc = domain (w_tc w) ->
  (forall x, x ∈ pendingQueue tc <-> (x <> p /\ x ∈ pendingQueue (w_tc w)) \/ (x = p /\ st = EV_HELD)) -> NoDup (pendingQueue tc) ->
  (st = EV_HELD -> is_start (w_kinds w !! p)) ->
  St (with_tc tc (with_heap (set_st p st e (w_heap w) q) w)) now' R' used.
Proof.
  intros I He Hw Hw' HR Hn G Hm HP Hcf Hdm Hpq Hnd Hk.
  assert (Hinv : forall x ex, hp_events (set_st p st e (w_heap w) q) !! x = Some ex ->
    (x = p /\ ex = ev_set_state st e) \/ (x <> p /\ hp_events (w_heap w) !! x = Some ex)) by (intros x ex; by apply (put_inv _ _ e)).
  assert (HpS : hp_events (set_st p st e (w_heap w) q) !! p = Some (ev_set_state st e)) by apply lookup_insert_eq.
  assert (Hnd0 : forall x ex, hp_events (w_heap w) !! x = Some ex -> ev_state ex <> EV_DONE).
  { intros x ex Hx. destruct (decide (x ∈ R)) as [Hin|Hin].
    - destruct (s_run _ _ _ _ I _ Hin) as (e'&?&?&_). simplify_eq. congruence.
    - by destruct (s_rest _ _ _ _ I _ _ Hx Hin) as [->|[->| ->]]. }
  destruct I. split; cbn; try done.
  - eapply KI_sub; [done|by apply (Sub_state _ _ _ _ q)|exact (GI_closed _ _ _ G)|]. intros x [ex Hx] Hx'. cbn in Hx'.
    apply lookup_insert_None in Hx' as [? _]. congruence.
  - intros x ex Hx Hx'. rewrite HR in Hx'. destruct (Hinv _ _ Hx) as [[-> ->]|[Hne Hx0]]; [|eapply s_rest0; [done|tauto]].
    cbn. destruct Hw' as [->|[->| ->]]; [by right; left|tauto|by right; right].
  - intros x [[Hne Hx]|[-> ->]]%HR.
    + destruct (s_run0 _ Hx) as (ex&Hex&?&?&?). exists ex. cbn. rewrite lookup_insert_ne by done. repeat (split; [done|]). split; [lia|done].
    + exists (ev_set_state EV_RUNNING e). split; [done|]. split; [done|]. by apply Hm.
  - intros x. rewrite Hpq, s_held0. split.
    + intros [[Hne (ex&Hx&Hh)]|[-> ->]]; [|by eexists]. exists ex. split; [|done]. cbn. by rewrite lookup_insert_ne.
    + intros (ex&[[-> ->]|[Hne Hx]]%Hinv&Hh); [by right|]. left. split; [done|]. by exists ex.
  - intros x [[_ Hx]|[-> Hx]]%Hpq; [by apply s_hk0|by apply Hk].
  - intros x ex [[-> ->]|[Hne Hx]]%Hinv Hh; cbn in *; [apply Hm; congruence|]. specialize (s_hmin0 _ _ Hx Hh). lia.
  - intros x ex Hx%Hinv. rewrite Hdm. destruct Hx as [[-> ->]|[_ Hx]]; [by apply (s_dom0 _ _ He)|by eapply s_dom0].
Qed.

Lemma active_put m kinds p e' x : is_Some (m !! p) -> active (<[p := e']> m) kinds x <-> active m kinds x.
Proof.
  intros [e He]. assert (Hl : forall q, is_Some (<[p := e']> m !! q) <-> is_Some (m !! q)).
  { intros q. destruct (decide (p = q)) as [<-|?]; [rewrite lookup_insert_eq, He; split; by eexists|by rewrite lookup_insert_ne]. }
  assert (Hn : forall q, <[p := e']> m !! q = None <-> m !! q = None) by (intros q; rewrite !eq_None_not_Some; by rewrite Hl).
  unfold active. split; intros (mse&?&?&?); exists mse; by rewrite Hl, Hn in * || (rewrite <- Hl, <- Hn).
Qed.

(** [run] starts the event. *)
Lemma run_St w now used act k p c (Q : TimingEvent -> W Outcome -> Prop) : St w now [] used -> MI w now act -> 0 <= now ->
  hp_queue (w_heap w) !! k = Some (p, c) -> (forall x y, (x, y) ∈ hp_queue (w_heap w) -> c <= y) ->
  (forall e w', now <= c <= BIG -> St w' c [p] used -> MI w' c act -> w_kinds w' = w_kinds w -> hp_events (w_heap w) !! p = Some e -> Q e w') ->
  wp (onHeap (run_ev p c)) Q (with_heap (mkHeap (hp_events (w_heap w)) (hp_next (w_heap w)) (delete k (hp_queue (w_heap w)))) w).
Proof.
  intros I Mi H0 Hk Hmin HQ. destruct (run_GI _ _ _ _ _ (s_gi _ _ _ _ I) Hk Hmin) as (e&He&Hs&Hcl&Hm&Hc&E&G).
  unfold wp, onHeap. cbn. rewrite E. apply HQ; [done| | |done|done].
  - eapply (St_set w now c [] [p] used p e EV_RUNNING _ (w_tc w)); try done.
    + by left.
    + by right; left.
    + intros x. rewrite list_elem_of_singleton, elem_of_nil. tauto.
    + lia.
    + eapply PortI_later; [by eapply s_port|lia].
    + by eapply s_cfg.
    + intros x. split; [|by intros [[_ ?]|[_ ?]]]. intros Hx. left. split; [|done]. intros ->.
      apply (s_held _ _ _ _ I) in Hx as (e'&?&?). simplify_eq. congruence.
    + by eapply s_hnd.
  - destruct Mi. split; cbn; try done; [|lia]. intros x. rewrite m_in0. symmetry. apply active_put. by exists e.
Qed.

(** ** Changes of the cache's own fields *)
Lemma St_tc w now R used used' tc : St w now R used -> pendingQueue tc = pendingQueue (w_tc w) -> domain tc = domain (w_tc w) ->
  cfg tc -> PortI (Z.max 2 now) tc used' -> St (with_tc tc w) now R used'.
Proof. intros [] Hp Hd Hc HP. split; cbn; rewrite ?Hp, ?Hd; done. Qed.
Lemma cfg_same c c' : cfg c -> numMSHRs c' = numMSHRs c -> domain c' = domain c -> accLat c' = accLat c -> ways c' = ways c ->
  cands c' = cands c -> tagLat c' = tagLat c -> cfg c'.
Proof. intros [] E1 E2 E3 E4 E5 E6. split; congruence. Qed.
Lemma PortI_same now c c' used : PortI now c used -> lastAccCycle c' = lastAccCycle c -> lastFreeCycle c' = lastFreeCycle c -> PortI now c' used.
Proof. intros [] E1 E2. split; rewrite ?E1, ?E2; done. Qed.

Lemma wp_onTc {A} (m : M t A) Q (w : W Outcome) : wp m (fun a c => Q a (with_tc c w)) (w_tc w) -> wp (onTc m) Q w.
Proof. unfold wp, onTc. by destruct (m (w_tc w)) as [[a c]|]. Qed.
Lemma wp_onHeap_ok {A} (m : EvM A) Q (w : W Outcome) a h : m (w_heap w) = Ok (a, h) -> Q a (with_heap h w) -> wp (onHeap m) Q w.
Proof. unfold wp, onHeap. by intros ->. Qed.

Definition few (used : list Z) : Prop := Z.of_nat (length used) < 2 ^ 61.

(** A lookup changes the port only. *)
Definition ported (w w' : W Outcome) : Prop := exists acc free, w' = with_tc (with_port acc free (w_tc w)) w.
Lemma high_St w now R used (Q : Z -> W Outcome -> Prop) : St w now R used -> 2 <= now < 2 ^ 62 -> few used ->
  (forall r w' used', now <= r < 2 ^ 63 -> ported w w' -> St w' now R used' -> (length used' <= Datatypes.S (length used))%nat -> Q r w') ->
  wp (onTc (highPrioAccess now)) Q w.
Proof.
  intros I Hn Hf HQ. unfold few in Hf. pose proof (s_port _ _ _ _ I) as HP. rewrite Z.max_r in HP by lia.
  apply wp_onTc. eapply high_spec; [exact HP|split; lia|]. pose proof (ref_high_range _ _ _ HP) as Hr.
  pose proof (ref_do_length (High now) used) as Hl. cbn [ref_do] in Hl. destruct (ref_high used now) as [r used']. cbn [fst snd] in Hr, Hl.
  split; [done|]. intros acc free HP'. eapply (HQ _ _ used'); [lia|by exists acc, free| |done].
  eapply St_tc; [done|done|done|eapply cfg_same; [by eapply s_cfg|done..]|]. by rewrite Z.max_r by lia.
Qed.
Lemma low_St w now R used (Q : Z -> W Outcome -> Prop) : St w now R used -> 2 <= now < 2 ^ 62 -> few used ->
  (forall r w' used', r = 0 \/ r = now -> ported w w' -> St w' now R used' -> (length used' <= Datatypes.S (length used))%nat -> Q r w') ->
  wp (onTc (tryLowPrioAccess now)) Q w.
Proof.
  intros I Hn Hf HQ. unfold few in Hf. pose proof (s_port _ _ _ _ I) as HP. rewrite Z.max_r in HP by lia.
  apply wp_onTc. eapply low_spec; [exact HP|split; lia|]. pose proof (ref_do_length (Low now) used) as Hl. cbn [ref_do] in Hl.
  assert (Hr : (ref_low used now).1 = 0 \/ (ref_low used now).1 = now) by (unfold ref_low; case_bool_decide; cbn; lia).
  destruct (ref_low used now) as [r used']. cbn in Hr, Hl. split; [done|]. intros acc free HP'.
  eapply (HQ _ _ used'); [done|by exists acc, free| |done].
  eapply St_tc; [done|done|done|eapply cfg_same; [by eapply s_cfg|done..]|]. by rewrite Z.max_r by lia.
Qed.
Lemma MI_ported w w' now act : ported w w' -> MI w now act -> MI w' now act.
Proof. intros (acc&free&->) []. by split. Qed.
Lemma prof_St w now R used a b d : St w now R used -> St (with_tc (with_prof a b d (w_tc w)) w) now R used.
Proof. intros I. eapply St_tc; [done..|eapply cfg_same; [by eapply s_cfg|done..]|eapply PortI_same; [by eapply s_port|done..]]. Qed.

(** ** The misses that hold an MSHR, after an event has ended *)
Section End.
Context (w w' : W Outcome) (now : Z) (p : nat) (used : list Z) (I : St w now [p] used) (En : Ended w w' p).

Lemma live_end q : q <> p -> is_Some (w_kinds w !! q) ->
  is_Some (hp_events (w_heap w') !! q) <-> is_Some (hp_events (w_heap w) !! q).
Proof.
  intros Hq [k Hk]. split.
  - intros [e' He']. destruct (v_back _ _ _ (en_ev _ _ _ En) _ _ He') as (e&He&_). by exists e.
  - intros [e He]. destruct (hp_events (w_heap w') !! q) as [e'|] eqn:He'; [by exists e'|].
    destruct (v_gone _ _ _ (en_ev _ _ _ En) q e He He') as [->%list_elem_of_singleton|[Hd _]]; [done|].
    pose proof (k_class _ _ _ _ _ (s_ki _ _ _ _ I) q e He) as HC. rewrite Hk in HC. destruct k; cbn in HC; naive_solver congruence.
Qed.
Lemma dead_end q : q <> p -> is_Some (w_kinds w !! q) ->
  hp_events (w_heap w') !! q = None <-> hp_events (w_heap w) !! q = None.
Proof. intros. rewrite !eq_None_not_Some. by rewrite live_end. Qed.
Lemma start_kind x mse : refers (w_kinds w !! x) mse -> exists s, w_kinds w !! mse = Some (MissStartEvent s).
Proof. intros Hr. destruct (k_start _ _ _ _ _ (s_ki _ _ _ _ I) _ _ Hr) as (s&?&_). by exists s. Qed.

(** The running event has no parents. *)
Lemma no_parent mse : refers (w_kinds w !! p) mse -> hp_events (w_heap w) !! mse = None.
Proof.
  intros Hr. apply eq_None_not_Some. intros Hl. pose proof (k_path _ _ _ _ _ (s_ki _ _ _ _ I) _ _ Hr Hl) as HP.
  destruct (path_last _ _ _ HP) as (x&Hx). destruct (g_dst _ _ _ _ (s_gi _ _ _ _ I) x p) as (e&He&Hs); [by rewrite app_nil_r|].
  destruct (s_run _ _ _ _ I p ltac:(apply list_elem_of_here)) as (e'&?&?&_). simplify_eq. congruence.
Qed.

Lemma active_other x : (forall s, w_kinds w !! p <> Some (MissStartEvent s)) -> (forall m, w_kinds w !! p <> Some (MissWritebackEvent m)) ->
  active (hp_events (w_heap w')) (w_kinds w) x <-> active (hp_events (w_heap w)) (w_kinds w) x.
Proof.
  intros Hs Hw. unfold active. split; intros (mse&Hk&Hl&Hd); exists mse;
    (assert (Hx : x <> p) by (intros ->; by apply (Hw mse)));
    destruct (start_kind x mse ltac:(by right)) as (s&Hm); (assert (Hne : mse <> p) by (intros ->; by apply (Hs s)));
    (split; [done|]; split; [by apply (live_end x Hx ltac:(by eexists))|by apply (dead_end mse Hne ltac:(by eexists))]).
Qed.
Lemma active_wb mse x : w_kinds w !! p = Some (MissWritebackEvent mse) ->
  active (hp_events (w_heap w')) (w_kinds w) x <-> x <> p /\ active (hp_events (w_heap w)) (w_kinds w) x.
Proof.
  intros Hp. assert (Hne : forall m y, refers (w_kinds w !! y) m -> m <> p) by (intros m y (s&Hm)%start_kind ->; congruence). unfold active. split.
  - intros (m&Hk&Hl&Hd). assert (Hx : x <> p) by (intros ->; rewrite (en_gone _ _ _ En) in Hl; by destruct Hl). split; [done|].
    pose proof (Hne m x ltac:(by right)) as Hm. destruct (start_kind x m ltac:(by right)) as (s&Hms). exists m. split; [done|].
    split; [by apply (live_end x Hx ltac:(by eexists))|by apply (dead_end m Hm ltac:(by eexists))].
  - intros [Hx (m&Hk&Hl&Hd)]. pose proof (Hne m x ltac:(by right)) as Hm. destruct (start_kind x m ltac:(by right)) as (s&Hms).
    exists m. split; [done|]. split; [by apply (live_end x Hx ltac:(by eexists))|by apply (dead_end m Hm ltac:(by eexists))].
Qed.
(** The end of a miss's start: one more miss holds an MSHR. *)
Lemma active_start s : w_kinds w !! p = Some (MissStartEvent s) -> exists y, w_kinds w !! y = Some (MissWritebackEvent p) /\
  ~ active (hp_events (w_heap w)) (w_kinds w) y /\
  forall x, active (hp_events (w_heap w')) (w_kinds w) x <-> x = y \/ active (hp_events (w_heap w)) (w_kinds w) x.
Proof.
  intros Hp. destruct (s_run _ _ _ _ I p ltac:(apply list_elem_of_here)) as (e&He&_).
  destruct (k_wb _ _ _ _ _ (s_ki _ _ _ _ I) p s Hp ltac:(by eexists)) as (y&Hy). exists y. split; [done|].
  assert (Hn : ~ active (hp_events (w_heap w)) (w_kinds w) y) by (intros (m&?&_&?); simplify_eq). split; [done|].
  assert (Hyp : y <> p) by (intros ->; congruence).
  assert (Hyl : is_Some (hp_events (w_heap w) !! y)).
  { destruct (path_last _ _ _ (k_path _ _ _ _ _ (s_ki _ _ _ _ I) y p ltac:(by right) ltac:(by eexists))) as (z&Hz).
    by eapply (GI_closed _ _ _ (s_gi _ _ _ _ I)). }
  intros x. split.
  - intros (m&Hk&Hl&Hd). destruct (decide (m = p)) as [->|Hm]; [left; by eapply k_uniq; [by eapply s_ki|..]|]. right.
    destruct (start_kind x m ltac:(by right)) as (s'&Hms). assert (Hx : x <> p) by (intros ->; congruence).
    exists m. split; [done|]. split; [by apply (live_end x Hx ltac:(by eexists))|by apply (dead_end m Hm ltac:(by eexists))].
  - intros [->|(m&Hk&Hl&Hd)].
    + exists p. split; [done|]. split; [by apply (live_end y Hyp ltac:(by eexists))|by apply (en_gone _ _ _ En)].
    + assert (Hm : m <> p) by (intros ->; congruence). assert (Hx : x <> p) by (intros ->; congruence).
      destruct (start_kind x m ltac:(by right)) as (s'&Hms).
      exists m. split; [done|]. split; [by apply (live_end x Hx ltac:(by eexists))|by apply (dead_end m Hm ltac:(by eexists))].
Qed.
End End.

(** ** The operations of the weave phase *)
Definition Stepped (w' : W Outcome) (now : Z) (used : list Z) : Prop :=
  exists act used', St w' now [] used' /\ MI w' now act /\ (length used' <= Datatypes.S (length used))%nat.

Lemma alone_R p st x : st <> EV_RUNNING -> x ∈ ([] : list nat) <-> (x <> p /\ x ∈ [p]) \/ (x = p /\ st = EV_RUNNING).
Proof. intros Hs. rewrite elem_of_nil, list_elem_of_singleton. tauto. Qed.
Lemma running w now p used : St w now [p] used -> exists e, hp_events (w_heap w) !! p = Some e /\ ev_state e = EV_RUNNING /\
    ev_minStartCycle e + ev_preDelay e <= now /\ ev_class e <> ClsDelay /\ p ∉ pendingQueue (w_tc w).
Proof.
  intros I. destruct (s_run _ _ _ _ I p ltac:(apply list_elem_of_here)) as (e&He&Hs&Hm&Hc). exists e. repeat (split; [done|]).
  intros Hp%(s_held _ _ _ _ I). destruct Hp as (e'&?&?). simplify_eq. congruence.
Qed.

Lemma park_spec w now p used act : St w now [p] used -> MI w now act -> is_start (w_kinds w !! p) -> activeMisses (w_tc w) = numMSHRs (w_tc w) ->
  wp (park p) (fun _ w' => Stepped w' now used) w.
Proof.
  intros I Mi Hk Hfull. destruct (running _ _ _ _ I) as (e&He&Hs&Hm&Hc&Hp). destruct (hold_GI _ _ _ _ (s_gi _ _ _ _ I) He Hs) as [E G].
  unfold park. wp_steps. eapply wp_onHeap_ok; [exact E|]. apply wp_onTc. wp_steps.
  exists act, used. split; [|split; [|lia]].
  - eapply (St_set w now now [p] [] used p e EV_HELD _ (with_pending (pendingQueue (w_tc w) ++ [p]) (w_tc w))); try done.
    + right; by left.
    + by right; right.
    + intros x. by apply alone_R.
    + eapply PortI_same; [by eapply s_port|done..].
    + eapply cfg_same; [by eapply s_cfg|done..].
    + intros x. cbn. rewrite elem_of_app, list_elem_of_singleton. destruct (decide (x = p)) as [->|]; tauto.
    + cbn. apply list.NoDup_app. split; [by eapply s_hnd|]. split; [|apply NoDup_singleton]. intros x Hx ->%list_elem_of_singleton. done.
  - destruct Mi. split; cbn; try done. intros x. rewrite m_in0. symmetry. apply active_put. by exists e.
Qed.

Lemma tc_requeue_spec w now p used used0 act : St w now [p] used -> MI w now act -> 0 <= now < 2 ^ 62 -> (length used <= Datatypes.S (length used0))%nat ->
  wp (onHeap (requeue_ev p (u64 (now + 1)))) (fun _ w' => Stepped w' now used0) w.
Proof.
  intros I Mi Hn Hl. destruct (running _ _ _ _ I) as (e&He&Hs&Hm&Hc&Hp). rewrite u64_small by (unfold two64; lia).
  destruct (requeue_GI _ _ _ _ (now + 1) (s_gi _ _ _ _ I) He ltac:(by left) Hc) as [E G]; [lia|unfold BIG; lia|].
  eapply wp_onHeap_ok; [exact E|]. exists act, used. split; [|split; [|lia]].
  - eapply (St_set w now now [p] [] used p e EV_QUEUED _ (w_tc w)); try done.
    + right; by left.
    + by left.
    + intros x. by apply alone_R.
    + by eapply s_port.
    + by eapply s_cfg.
    + intros x. destruct (decide (x = p)) as [->|]; [split; [done|by intros [[]|[]]]|]. split; [by left|by intros [[]|[]]].
    + by eapply s_hnd.
  - destruct Mi. split; cbn; try done. intros x. rewrite m_in0. symmetry. apply active_put. by exists e.
Qed.

(** Every access that waits is queued again. *)
Lemma requeue_all_spec now p used c : 0 <= now < 2 ^ 62 -> c = now + 1 -> forall l w (Q : unit -> W Outcome -> Prop),
  St (with_tc (with_pending l (w_tc w)) w) now [p] used ->
  (forall h, St (with_tc (with_pending [] (w_tc w)) (with_heap h w)) now [p] used ->
    (forall x, active (hp_events h) (w_kinds w) x <-> active (hp_events (w_heap w)) (w_kinds w) x) -> Q tt (with_heap h w)) ->
  wp (requeue_all l c) Q w.
Proof.
  intros Hn ->. induction l as [|q l IH]; intros w Q I HQ.
  { apply wp_ret. replace w with (with_heap (w_heap w) w) by (by destruct w). by apply HQ; [destruct w|]. }
  pose proof (s_hnd _ _ _ _ I) as Hnd. cbn in Hnd. apply list.NoDup_cons in Hnd as [Hq Hnd].
  destruct (proj1 (s_held _ _ _ _ I q) ltac:(apply list_elem_of_here)) as (e&He&Hs). cbn in He.
  assert (Hqp : q <> p). { intros ->. destruct (running _ _ _ _ I) as (e'&?&?&_). cbn in *. simplify_eq. congruence. }
  pose proof (s_hmin _ _ _ _ I _ _ He Hs) as Hm.
  assert (Hcl : ev_class e <> ClsDelay).
  { pose proof (k_class _ _ _ _ _ (s_ki _ _ _ _ I) q e He) as HC. destruct (s_hk _ _ _ _ I q ltac:(apply list_elem_of_here)) as [Hk|[s Hk]];
      rewrite Hk in HC; cbn in HC; congruence. }
  destruct (requeue_GI _ _ _ _ (now + 1) (s_gi _ _ _ _ I) He ltac:(by right) Hcl) as [E G]; [lia|unfold BIG; lia|].
  cbn [requeue_all mapM_]. apply wp_bind. eapply wp_onHeap_ok; [exact E|]. set (h1 := set_st _ _ _ _ _) in *.
  apply IH.
  - eapply (St_set _ now now [p] [p] used q e EV_QUEUED _ (with_pending l (w_tc w)) I); try done.
    + by right; right.
    + by left.
    + intros x. rewrite list_elem_of_singleton. split; [intros ->; by left|by intros [[]|[]]].
    + eapply PortI_same; [by eapply s_port|done..].
    + eapply cfg_same; [by eapply s_cfg|done..].
    + intros x. cbn. rewrite elem_of_cons. split; [intros Hx; left; split; [by intros ->|by right]|]. by intros [[? [?|?]]|[_ ?]].
  - intros h' I' Ha. apply HQ; [exact I'|]. intros x. rewrite Ha. apply active_put. by exists e.
Qed.

Lemma MI_tc w now act tc : MI w now act -> activeMisses tc = activeMisses (w_tc w) -> numMSHRs tc = numMSHRs (w_tc w) ->
  pendingQueue tc = pendingQueue (w_tc w) -> profOccHist tc = profOccHist (w_tc w) -> MI (with_tc tc w) now act.
Proof. intros [] E1 E2 E3 E4. split; cbn; rewrite ?E1, ?E2, ?E3, ?E4; done. Qed.

Lemma MI_other w w' now p used act : St w now [p] used -> Ended w w' p -> MI w now act ->
  (forall s, w_kinds w !! p <> Some (MissStartEvent s)) -> (forall m, w_kinds w !! p <> Some (MissWritebackEvent m)) -> MI w' now act.
Proof.
  intros I En [] Hs Hw. destruct (En) as [_ _ Et Ek]. split; rewrite ?Et, ?Ek; try done.
  intros x. rewrite m_in0. symmetry. by eapply active_other.
Qed.

(** The end of an event that neither takes nor frees an MSHR. *)
Lemma end_other w now p used used0 act c : St w now [p] used -> MI w now act -> 2 <= now < 2 ^ 62 -> now <= c < 2 ^ 63 + 2 ^ 33 ->
  (length used <= Datatypes.S (length used0))%nat ->
  (forall s, w_kinds w !! p <> Some (MissStartEvent s)) -> (forall m, w_kinds w !! p <> Some (MissWritebackEvent m)) ->
  wp (done p c) (fun _ w' => Stepped w' now used0) w.
Proof.
  intros I Mi Hn Hc Hl Hs Hw. eapply done_St; [done|done|lia|lia|]. intros w' I' En. exists act, used.
  split; [done|]. split; [|done]. by eapply MI_other.
Qed.

Lemma simulateHit_spec w now p used act : St w now [p] used -> MI w now act -> w_kinds w !! p = Some HitEvent ->
  2 <= now < 2 ^ 62 -> few used -> wp (simulateHit p now) (fun _ w' => Stepped w' now used) w.
Proof.
  intros I Mi Hk Hn Hf. unfold simulateHit. wp_steps. destruct (Z.ltb_spec (activeMisses (w_tc w)) (numMSHRs (w_tc w))) as [Hlt|Hge].
  - apply wp_bind. eapply high_St; [done..|]. intros r w1 used1 Hr HP I1 Hl. apply wp_bind, wp_onTc, wp_modify.
    eapply end_other; [by apply prof_St| |done|lia|done| |].
    + apply (MI_tc w1); try done. by eapply MI_ported.
    + destruct HP as (?&?&->). cbn. congruence.
    + destruct HP as (?&?&->). cbn. congruence.
  - eapply park_spec; [done..|by left|]. pose proof (m_le _ _ _ Mi). lia.
Qed.

Lemma transition_ok n cycle b : 0 <= bd_curState b < bd_size b -> 0 <= n < bd_size b -> bd_lastCycle b <= cycle ->
  exists b', bd_transition n cycle b = Ok b' /\ bd_size b' = bd_size b /\ bd_curState b' = n /\ bd_lastCycle b' = cycle.
Proof.
  intros H1 H2 H3. unfold bd_transition, rassert. rewrite !(proj2 (Z.ltb_lt _ _)), (proj2 (Z.leb_le _ _)) by lia. cbn.
  eexists. split; [done|]. split; [|done]. unfold bd_size, bd_inc. cbn. by rewrite length_alter.
Qed.

(** [activeMisses] moves by one, with the profile. *)
Lemma transition_spec w now R used act n cycle (Q : unit -> W Outcome -> Prop) : St w now R used -> MI w now act ->
  0 <= n <= numMSHRs (w_tc w) -> now <= cycle ->
  (forall b, bd_size b = numMSHRs (w_tc w) + 1 -> bd_curState b = n -> bd_lastCycle b = cycle ->
    St (with_tc (with_active n b (w_tc w)) w) now R used -> Q tt (with_tc (with_active n b (w_tc w)) w)) ->
  wp (transition n cycle) Q w.
Proof.
  intros I [] Hn Hc HQ. unfold transition. wp_steps. apply wp_lift.
  destruct (transition_ok n cycle (profOccHist (w_tc w))) as (b&E&Es&Ec&El); [lia|lia|lia|]. rewrite E. cbn.
  apply HQ; [congruence|done|done|].
  eapply St_tc; [done..|eapply cfg_same; [by eapply s_cfg|done..]|eapply PortI_same; [by eapply s_port|done..]].
Qed.

Lemma simulateMissStart_spec w now p used act s : St w now [p] used -> MI w now act -> w_kinds w !! p = Some (MissStartEvent s) ->
  2 <= now < 2 ^ 62 -> few used -> wp (simulateMissStart p now) (fun _ w' => Stepped w' now used) w.
Proof.
  intros I Mi Hk Hn Hf. unfold simulateMissStart. wp_steps. destruct (Z.ltb_spec (activeMisses (w_tc w)) (numMSHRs (w_tc w))) as [Hlt|Hge].
  2: { eapply park_spec; [done..|right; by exists s|]. pose proof (m_le _ _ _ Mi). lia. }
  pose proof (cf_num _ (s_cfg _ _ _ _ I)) as Hnum. pose proof (m_len _ _ _ Mi) as Hlen.
  rewrite u32_small by lia. apply wp_bind. eapply transition_spec; [done..|lia|done|]. intros b Hb1 Hb2 Hb3 I1.
  apply wp_bind, wp_modify. set (w1 := mkW _ _ _ _ _).
  assert (I2 : St w1 now [p] used).
  { destruct I1. split; cbn in *; try done; [by eapply KI_kind; [done|done|left; by eexists _, _]|].
    intros x Hx. destruct (decide (p = x)) as [<-|]; [rewrite lookup_insert_eq; right; by eexists|rewrite lookup_insert_ne by done; by apply s_hk0]. }
  apply wp_bind. eapply high_St; [done..|]. intros r w2 used2 Hr (acc&free&->) I3 Hl.
  eapply done_St; [done|cbn; by rewrite lookup_insert_eq|lia|lia|]. intros w' I' En. destruct (active_start _ _ _ _ _ I3 En (Some now)) as (y&Hy&Hny&Hact); [apply lookup_insert_eq|].
  assert (Hw : forall m x, active m (<[p := MissStartEvent (Some now)]> (w_kinds w)) x <-> active m (w_kinds w) x).
  { intros m x. unfold active. destruct (decide (p = x)) as [<-|]; [|by setoid_rewrite lookup_insert_ne].
    setoid_rewrite lookup_insert_eq. rewrite Hk. split; by intros (?&?&_). }
  cbn [w_kinds w1 with_tc] in Hact, Hny. setoid_rewrite Hw in Hact. rewrite Hw in Hny. cbn in Hact, Hny.
  destruct (En) as [_ _ Et Ek]. destruct Mi. exists (y :: act), used2. split; [done|]. split; [|done].
  split; rewrite ?Et, ?Ek; cbn; try lia.
  - constructor; [|done]. by rewrite m_in0.
  - intros x. by rewrite Hw, elem_of_cons, Hact, m_in0.
  - intros Hp. specialize (m_full0 Hp). lia.
Qed.

(** The start of the miss is known when its response or its writeback runs. *)
Lemma startCycle_spec w now p used mse (Q : Z -> W Outcome -> Prop) : St w now [p] used -> refers (w_kinds w !! p) mse ->
  (forall s, Q s w) -> wp (startCycle mse) Q w.
Proof.
  intros I Hr HQ. destruct (k_start _ _ _ _ _ (s_ki _ _ _ _ I) _ _ Hr) as (s&Hs&Hd).
  destruct (Hd (no_parent _ _ _ _ I _ Hr)) as [c ->]. unfold startCycle. wp_steps. rewrite Hs. apply HQ.
Qed.

Lemma simulateMissResponse_spec w now p used act mse : St w now [p] used -> MI w now act -> w_kinds w !! p = Some (MissResponseEvent mse) ->
  2 <= now < 2 ^ 62 -> wp (simulateMissResponse p now mse) (fun _ w' => Stepped w' now used) w.
Proof.
  intros I Mi Hk Hn. unfold simulateMissResponse. apply wp_bind. eapply startCycle_spec; [done|by left|]. intros s.
  apply wp_bind, wp_onTc, wp_modify. eapply end_other; [by apply prof_St|by apply (MI_tc w)|done|lia|lia|cbn; congruence|cbn; congruence].
Qed.

Lemma St_pending w now R used : St w now R used -> St (with_tc (with_pending (pendingQueue (w_tc w)) (w_tc w)) w) now R used.
Proof. intros I. eapply St_tc; [done..|eapply cfg_same; [by eapply s_cfg|done..]|eapply PortI_same; [by eapply s_port|done..]]. Qed.

(** The writeback of a miss frees its MSHR, and every access that waits for one is queued again. *)
Lemma simulateMissWriteback_spec w now p used act mse : St w now [p] used -> MI w now act -> w_kinds w !! p = Some (MissWritebackEvent mse) ->
  2 <= now < 2 ^ 62 -> few used -> wp (simulateMissWriteback p now mse) (fun _ w' => Stepped w' now used) w.
Proof.
  intros I Mi Hk Hn Hf. unfold simulateMissWriteback. apply wp_bind. eapply low_St; [done..|]. intros r w1 used1 Hr HP I1 Hl.
  pose proof (MI_ported _ _ _ _ HP Mi) as M1. assert (Hk1 : w_kinds w1 !! p = Some (MissWritebackEvent mse)) by (destruct HP as (?&?&->); done).
  clear w I Mi Hk HP. destruct Hr as [->| ->]; [by eapply tc_requeue_spec; [done..|lia|done]|].
  rewrite (proj2 (Z.eqb_neq now 0)) by lia. cbn [negb]. apply wp_bind, wp_get.
  destruct (running _ _ _ _ I1) as (e&He&_). pose proof (no_parent _ _ _ _ I1 mse ltac:(by right)) as Hd.
  assert (Hact : p ∈ act) by (apply (m_in _ _ _ M1); exists mse; split; [done|]; split; [by eexists|done]).
  destruct (proj1 (elem_of_Permutation act p) Hact) as (act'&HPa).
  pose proof (m_len _ _ _ M1) as Hlen. rewrite HPa in Hlen. cbn in Hlen. pose proof (cf_num _ (s_cfg _ _ _ _ I1)) as Hnum. pose proof (m_le _ _ _ M1) as Hle.
  apply wp_bind, wp_assert; [rewrite (proj2 (Z.eqb_neq _ 0)) by lia; done|]. apply wp_bind. eapply startCycle_spec; [done|by right|]. intros s.
  apply wp_bind, wp_onTc, wp_modify. rewrite u32_small by lia. apply wp_bind.
  eapply transition_spec; [by apply prof_St|by apply (MI_tc w1)|cbn; lia|done|]. intros b Hb1 Hb2 Hb3 I2.
  apply wp_bind. eapply requeue_all_spec; [|by rewrite u64_small by (unfold two64; lia)|exact (St_pending _ _ _ _ I2)|]; [lia|]. intros h I3 Ha.
  apply wp_bind, wp_onTc, wp_modify. eapply done_St; [exact I3|cbn; congruence|lia|lia|]. intros w' I' En.
  exists act', used1. split; [done|]. split; [|done]. destruct (En) as [_ _ Et Ek]. pose proof (m_nd _ _ _ M1) as Hnd. rewrite HPa in Hnd.
  apply list.NoDup_cons in Hnd as [Hp Hnd]. split; rewrite ?Et, ?Ek; cbn; try done; try lia.
  intros x. rewrite (active_wb _ _ _ _ _ I3 En mse x Hk1). cbn. cbn in Ha. rewrite Ha, <- (m_in _ _ _ M1 x), HPa, elem_of_cons.
  split; [intros Hx; split; [by intros ->|by right]|]. by intros [? [?|?]].
Qed.

Lemma simulateReplAccess_spec w now p used act n : St w now [p] used -> MI w now act -> w_kinds w !! p = Some (ReplAccessEvent n) ->
  2 <= now < 2 ^ 62 -> few used -> wp (simulateReplAccess p now n) (fun _ w' => Stepped w' now used) w.
Proof.
  intros I Mi Hk Hn Hf. destruct (running _ _ _ _ I) as (e&He&_). pose proof (k_class _ _ _ _ _ (s_ki _ _ _ _ I) _ _ He) as HC. rewrite Hk in HC. destruct HC as [_ Hna].
  unfold simulateReplAccess. apply wp_bind, wp_assert; [by rewrite (proj2 (Z.eqb_neq n 0)) by lia|].
  apply wp_bind. eapply low_St; [done..|]. intros r w1 used1 Hr HP I1 Hl. pose proof (MI_ported _ _ _ _ HP Mi) as M1.
  assert (Hk1 : w_kinds w1 !! p = Some (ReplAccessEvent n)) by (destruct HP as (?&?&->); done).
  destruct Hr as [->| ->]; [by eapply tc_requeue_spec; [done..|lia|done]|].
  rewrite (proj2 (Z.eqb_neq now 0)) by lia. cbn [negb]. rewrite u32_small by lia. apply wp_bind, wp_modify.
  set (k := <[p := ReplAccessEvent (n - 1)]> (w_kinds w1)). set (w2 := mkW _ _ k _ _).
  assert (Hw : forall m x, active m k x <-> active m (w_kinds w1) x).
  { intros m x. unfold active, k. destruct (decide (p = x)) as [<-|]; [|by setoid_rewrite lookup_insert_ne].
    setoid_rewrite lookup_insert_eq. rewrite Hk1. split; by intros (?&?&_). }
  assert (M2 : MI w2 now act) by (destruct M1; split; try done; intros x; cbn; by rewrite Hw).
  assert (HS : forall m, KI m (w_kinds w1) (hp_next (w_heap w1)) rank grp -> n - 1 <> 0 -> KI m k (hp_next (w_heap w1)) rank grp).
  { intros m HK H1. eapply KI_kind; [done|done|]. right. exists n, (n - 1). repeat (split; [done|]). left. lia. }
  assert (Hst : forall x, x ∈ pendingQueue (w_tc w1) -> is_start (k !! x)).
  { intros x Hx. pose proof (s_hk _ _ _ _ I1 _ Hx) as Hx'. unfold k. destruct (decide (p = x)) as [<-|]; [|by rewrite lookup_insert_ne].
    rewrite Hk1 in Hx'. by destruct Hx' as [?|[? ?]]. }
  destruct (Z.eqb_spec (n - 1) 0) as [E|E].
  - (* the last lookup: the event is done, and its field is not read again *)
    eapply (wp_mono _ (fun _ w' => exists w0, Stepped w0 now used /\ w_kinds w0 = w_kinds w1 /\ hp_events (w_heap w0) !! p = None /\
      w' = mkW (w_x w0) (w_tc w0) k (w_recs w0) (w_heap w0))).
    + assert (HD : wp (done p now) (fun _ w0 => Stepped w0 now used /\ w_kinds w0 = w_kinds w1 /\ hp_events (w_heap w0) !! p = None) w1).
      { eapply done_St; [done|congruence|lia|lia|]. intros w0 I0 En. split; [|split; [by apply (en_kinds _ _ _ En)|by apply (en_gone _ _ _ En)]].
        exists act, used1. split; [done|]. split; [|done]. eapply MI_other; [done..|congruence|congruence]. }
      unfold done, wp, onHeap, mbind, M_bind, mget in HD |- *. cbn. cbn in HD. destruct (ev_done _ _ _ _) as [[u h0]|]; [|done].
      destruct HD as (H1&H2&H3). eexists. split; [exact H1|]. by split.
    + intros _ w' (w0&(act0&used0&I0&M0&?)&Ek&Hg&->). exists act0, used0. split; [|split; [|done]].
      * destruct I0. split; cbn; try done; [|intros x Hx; unfold k; destruct (decide (p = x)) as [<-|]; [|rewrite lookup_insert_ne, <- Ek by done; by apply s_hk0]].
        -- rewrite Ek in s_ki0. eapply KI_kind; [done|done|]. right. exists n, (n - 1). repeat (split; [done|]). by right.
        -- specialize (s_hk0 _ Hx). rewrite Ek, Hk1 in s_hk0. by destruct s_hk0 as [?|[? ?]].
      * destruct M0. split; cbn; try done. intros x. by rewrite m_in0, Hw, Ek.
  - eapply tc_requeue_spec; [|done|lia|done]. destruct I1. split; try done. by apply HS.
Qed.

(** ** A step of the weave phase *)
Definition first_in_queue (h : EvHeap) (k : nat) (p : nat) (c : Z) : Prop :=
  hp_queue h !! k = Some (p, c) /\ forall x y, (x, y) ∈ hp_queue h -> c <= y.

Lemma step_spec_tc w now used act k p c : St w now [] used -> MI w now act -> 2 <= now -> few used -> first_in_queue (w_heap w) k p c -> c < 2 ^ 62 ->
  wp (step k) (fun r w' => r = c /\ now <= c /\ Stepped w' c used) w.
Proof.
  intros I Mi Hn Hf [Hk Hmin] Hc. unfold step. apply wp_bind, wp_get, wp_bind, wp_lift. rewrite Hk. cbn. apply wp_bind, wp_modify.
  apply wp_bind. unfold run_event. apply wp_bind. eapply (run_St w now used act k p c); [done|done|lia|done|done|].
  intros e w' Hnc I' Mi' Ek He. apply wp_bind, wp_get. assert (Hc2 : 2 <= c < 2 ^ 62) by lia.
  eapply (wp_mono _ (fun _ w2 => Stepped w2 c used)); [|intros [] w2 H2; apply wp_ret; split; [done|split; [lia|done]]].
  destruct (w_kinds w' !! p) as [kd|] eqn:Hkd.
  - destruct kd.
    + by eapply simulateHit_spec.
    + by eapply simulateMissStart_spec.
    + by eapply simulateMissResponse_spec.
    + by eapply simulateMissWriteback_spec.
    + by eapply simulateReplAccess_spec.
  - destruct (running _ _ _ _ I') as (e'&He'&_&_&Hcl&_). pose proof (k_class _ _ _ _ _ (s_ki _ _ _ _ I) _ _ He) as HC.
    pose proof (k_class _ _ _ _ _ (s_ki _ _ _ _ I') _ _ He') as HC'. rewrite <- Ek, Hkd in HC. rewrite Hkd in HC'. cbn in HC, HC'.
    destruct HC as [Hd|(lat&-> &Hlat)].
    + exfalso. assert (Hp : (p, c) ∈ hp_queue (w_heap w)) by (by eapply list_elem_of_lookup_2). by destruct (g_qt _ _ _ _ (s_gi _ _ _ _ I) _ _ _ Hp He) as [? _].
    + rewrite u64_small by (unfold two64, two32 in *; lia). eapply end_other; [done|done|lia|unfold two32 in *; lia|lia|congruence|congruence].
Qed.

(** The accesses that wait for an MSHR are woken: while one of them waits, or while a miss
    holds an MSHR, an event is queued. *)
Lemma min_rank (P : nat -> Prop) (l : list nat) x : P x -> (forall y, P y -> y ∈ l) -> (forall y, Decision (P y)) ->
  exists y, P y /\ forall z, P z -> (rank y <= rank z)%nat.
Proof.
  intros Hx Hl HD. remember (rank x) as n eqn:En. revert x Hx En. induction (lt_wf n) as [n _ IH]. intros x Hx ->.
  destruct (decide (Exists (fun y => P y /\ (rank y < rank x)%nat) l)) as [He|Hn].
  - apply list.Exists_exists in He as (y&_&Hy&Hlt). eapply IH; [exact Hlt|exact Hy|done].
  - exists x. split; [done|]. intros z Hz. rewrite list.Exists_exists in Hn. destruct (decide (rank x <= rank z)%nat); [done|].
    exfalso. apply Hn. exists z. split; [by apply Hl|]. split; [done|lia].
Qed.

(** In a set of live events that contains the parents of its members, one is ready. *)
Lemma ready_member w now used (P : nat -> Prop) x : St w now [] used -> (forall y, Decision (P y)) ->
  P x -> is_Some (hp_events (w_heap w) !! x) -> (forall q c, (q, c) ∈ edges (hp_events (w_heap w)) -> P c -> P q) ->
  exists y e, P y /\ hp_events (w_heap w) !! y = Some e /\ (ev_state e = EV_QUEUED \/ ev_state e = EV_HELD).
Proof.
  intros I HD Hx Hl HC.
  destruct (min_rank (fun y => P y /\ is_Some (hp_events (w_heap w) !! y)) (map_to_list (hp_events (w_heap w))).*1 x) as (y&[Hy [e He]]&Hmin); [done| | |].
  { intros y [_ [e He]]. apply list_elem_of_fmap. exists (y, e). split; [done|]. by apply elem_of_map_to_list. }
  { intros y. apply and_dec; [done|]. destruct (hp_events (w_heap w) !! y); [left; by eexists|right; intros []; done]. }
  exists y, e. split; [done|]. split; [done|].
  destruct (s_rest _ _ _ _ I y e He ltac:(apply not_elem_of_nil)) as [Hs|?]; [|done]. exfalso.
  destruct (g_none _ _ _ _ (s_gi _ _ _ _ I) y e He Hs) as [?%elem_of_nil|Hnp]; [done|].
  destruct (g_np _ _ _ _ (s_gi _ _ _ _ I) y e He) as [Hx' _]. rewrite Hx', app_nil_r in Hnp. apply cntp_pos in Hnp as (q&Hq).
  pose proof (k_rank _ _ _ _ _ (s_ki _ _ _ _ I) _ _ Hq). destruct (proj1 (elem_edges _ _ _) Hq) as (eq&Heq&_).
  specialize (Hmin q ltac:(split; [by eapply HC|by eexists])). lia.
Qed.

Lemma progress w now used act : St w now [] used -> MI w now act -> hp_events (w_heap w) <> ∅ -> hp_queue (w_heap w) <> [].
Proof.
  intros I Mi Hne Hq.
  assert (Hnq : forall y e, hp_events (w_heap w) !! y = Some e -> ev_state e <> EV_QUEUED).
  { intros y e He Hs. assert (Hy : y ∈ (hp_queue (w_heap w)).*1) by (apply (g_q _ _ _ _ (s_gi _ _ _ _ I)); by exists e). rewrite Hq in Hy. by apply elem_of_nil in Hy. }
  destruct (map_choose _ Hne) as (x&ex&Hx).
  destruct (ready_member w now used (fun _ => True) x I ltac:(intros; left; done)) as (y&e&_&He&[Hs|Hs]); [done|by eexists|done|by apply (Hnq y e)|].
  assert (Hp : y ∈ pendingQueue (w_tc w)) by (apply (s_held _ _ _ _ I); by exists e).
  pose proof (m_full _ _ _ Mi ltac:(intros E; rewrite E in Hp; by apply elem_of_nil in Hp)) as Hfull.
  pose proof (cf_num _ (s_cfg _ _ _ _ I)) as Hnum. pose proof (m_len _ _ _ Mi) as Hlen.
  destruct act as [|a act]; [cbn in Hlen; lia|]. destruct (proj1 (m_in _ _ _ Mi a) ltac:(apply list_elem_of_here)) as (mse&Ha&Hal&Hd).
  destruct (ready_member w now used (fun z => grp z = Some a) a I ltac:(intros; apply _)) as (z&ez&Hz&Hez&Hsz).
  - by eapply k_self; [by eapply s_ki|].
  - done.
  - intros q c Hqc Hg. destruct (k_grp _ _ _ _ _ (s_ki _ _ _ _ I) _ _ _ Hqc Hg) as [?|Hk]; [done|]. exfalso. simplify_eq.
    destruct (proj1 (elem_edges _ _ _) Hqc) as (eq&Heq&_). congruence.
  - destruct Hsz as [Hsz|Hsz]; [by apply (Hnq z ez)|].
    assert (Hpz : z ∈ pendingQueue (w_tc w)) by (apply (s_held _ _ _ _ I); by exists ez).
    apply (k_member _ _ _ _ _ (s_ki _ _ _ _ I) z a ltac:(by eexists) Hz). by apply (s_hk _ _ _ _ I).
Qed.
End State.
End TCI.
