(* ===== verification/TimingCacheBuild.v ===== *)
(** * The bound phase of the timing cache: building the events of an access

    The events are created and linked one at a time.  [F] are those that do not have all of
    their parents yet; every other event is in the graph, and may start late enough. *)

From S2P Require Import Prelude Bithacks MemHier TimingEvent CoreRecorder EventTree TimingCache TimingCachePort TimingCacheDag TimingCacheInv.
Import TCache TCP TCD TCI.

Module TCB.

(** ** The graph grows *)
Definition fresh_ev (cls : EvClass) (pre post dom mn : Z) : TimingEvent :=
  mkEvent cls EV_NONE 0 mn (Child None) dom 0 0 pre post.
Definition add_ev (e : TimingEvent) (h : EvHeap) : EvHeap := mkHeap (<[hp_next h := e]> (hp_events h)) (Nat.succ (hp_next h)) (hp_queue h).

Lemma fresh_edges h F now cls pre post dom mn : GI h [] F now -> edges (hp_events (add_ev (fresh_ev cls pre post dom mn) h)) ≡ₚ edges (hp_events h).
Proof.
  intros G. cbn. rewrite edges_insert; [done|]. destruct (hp_events h !! hp_next h) as [e|] eqn:E; [|done].
  pose proof (g_next _ _ _ _ G _ _ E). lia.
Qed.

Lemma GI_new h F now cls pre post dom mn : GI h [] F now -> 0 <= pre < two32 -> 0 <= post < two32 -> 0 <= mn < BIG ->
  (cls = ClsDelay -> post = 0) -> GI (add_ev (fresh_ev cls pre post dom mn) h) [] (hp_next h :: F) now.
Proof.
  intros G Hpre Hpost Hmn Hd. pose proof (fresh_edges h F now cls pre post dom mn G) as HE.
  assert (Hnew : hp_events h !! hp_next h = None).
  { destruct (hp_events h !! hp_next h) as [e|] eqn:E; [|done]. pose proof (g_next _ _ _ _ G _ _ E). lia. }
  assert (Hinv : forall p e, hp_events (add_ev (fresh_ev cls pre post dom mn) h) !! p = Some e ->
    (p = hp_next h /\ e = fresh_ev cls pre post dom mn) \/ (p <> hp_next h /\ hp_events h !! p = Some e)).
  { intros p e He. cbn in He. destruct (decide (hp_next h = p)) as [<-|Hne]; [rewrite lookup_insert_eq in He; simplify_eq; by left|].
    rewrite lookup_insert_ne in He by done. by right. }
  assert (Hold : forall p e, hp_events h !! p = Some e -> hp_events (add_ev (fresh_ev cls pre post dom mn) h) !! p = Some e).
  { intros p e He. cbn. rewrite lookup_insert_ne; [done|]. intros <-. congruence. }
  split.
  - intros p e [[-> ->]|[_ He]]%Hinv; [|by eapply g_wf]. split; [done|]. split; [done|]. split; [done|]. cbn.
    split; [unfold early, LATE, two32; cbn; case_decide; lia|]. split; [done|]. by repeat split.
  - intros p e He%Hinv. rewrite HE. destruct He as [[-> ->]|[_ He]]; [|by eapply g_np]. split; [|done]. cbn. symmetry. apply cntp_none.
    intros [q c] Hin Hc. cbn in Hc. subst. destruct (g_dst _ _ _ _ G _ _ Hin) as (e&He&_). congruence.
  - intros q c Hin. rewrite HE in Hin. destruct (g_dst _ _ _ _ G _ _ Hin) as (e&He&Hs). exists e. split; [by apply Hold|done].
  - intros q c Hin. by apply elem_of_nil in Hin.
  - intros q c eq ec Hin Hq Hc. rewrite HE in Hin. destruct (g_dst _ _ _ _ G _ _ Hin) as (e&He&Hs).
    rewrite app_nil_r in Hin. destruct (proj1 (elem_edges _ _ _) Hin) as (e'&He'&_).
    assert (hp_events h !! q = Some eq) by (rewrite (Hold _ _ He') in Hq; congruence).
    assert (hp_events h !! c = Some ec) by (rewrite (Hold _ _ He) in Hc; congruence).
    eapply g_nd; [done| |done|done]. by rewrite app_nil_r.
  - intros p e He Hs [Hne HF]%not_elem_of_cons. setoid_rewrite HE. destruct (Hinv _ _ He) as [[? _]|[_ He0]]; [done|].
    destruct (g_time _ _ _ _ G p e He0 Hs HF) as [?|(q&eq&Hin&Hq&?)]; [by left|]. right. exists q, eq. split; [done|]. split; [by apply Hold|done].
  - intros p e [[-> ->]|[_ He]]%Hinv Hs; [left; apply list_elem_of_here|]. destruct (g_none _ _ _ _ G _ _ He Hs); [left; by apply elem_of_cons; right|by right].
  - intros p e [[-> ->]|[Hne He]]%Hinv Hs; [done|]. destruct (g_busy _ _ _ _ G _ _ He Hs). split; [done|]. by apply not_elem_of_cons.
  - intros p. cbn [hp_queue add_ev]. rewrite (g_q _ _ _ _ G). split; intros (e&He&Hs); [exists e; split; [by apply Hold|done]|].
    destruct (Hinv _ _ He) as [[-> ->]|[_ He0]]; [done|]. by exists e.
  - intros p x e Hx He. assert (Hp : p ∈ (hp_queue h).*1) by (apply list_elem_of_fmap; by exists (p, x)).
    apply (g_q _ _ _ _ G) in Hp as (e'&He'&_). rewrite (Hold _ _ He') in He. simplify_eq. by eapply (g_qt _ _ _ _ G p x e).
  - exact (g_qd _ _ _ _ G).
  - intros p e [[-> ->]|[_ He]]%Hinv; [apply Nat.lt_succ_diag_r|]. apply Nat.lt_lt_succ_r. exact (g_next _ _ _ _ G _ _ He).
Qed.

(** An event leaves [F]. *)
Lemma GI_settle h c F now e : GI h [] (c :: F) now -> hp_events h !! c = Some e -> 0 < ev_numParents e ->
  in_time (hp_events h) (edges (hp_events h)) c e -> GI h [] F now.
Proof.
  intros [] He Hnp Ht. split; try done.
  - intros p e' He' Hs HF. destruct (decide (p = c)) as [->|Hne]; [simplify_eq; by rewrite app_nil_r|].
    apply g_time0; [done..|]. by apply not_elem_of_cons.
  - intros p e' He' Hs. destruct (g_none0 p e' He' Hs) as [[->|?]%elem_of_cons|?]; [simplify_eq; by right|by left|by right].
  - intros p e' He' Hs. destruct (g_busy0 p e' He' Hs) as [? HF]. split; [done|]. by apply not_elem_of_cons in HF as [_ ?].
Qed.
Lemma GI_F h F F' now : GI h [] F now -> F ≡ₚ F' -> GI h [] F' now.
Proof.
  intros [] HP. split; try done.
  - intros p e He Hs HF. apply g_time0; [done..|]. by rewrite HP.
  - intros p e He Hs. rewrite <- HP. by apply g_none0.
  - intros p e He Hs. rewrite <- HP. by apply g_busy0.
Qed.

(** ** addChild *)
Lemma Shape_self n ch cs : Shape n ch cs -> Shape n ch (children_list n ch).
Proof.
  intros (Hn&HP&Hs). split; [by rewrite HP|]. split; [done|]. destruct cs as [|c1 [|c2 cs]].
  - by rewrite (proj1 (Permutation_nil_r _) HP).
  - by rewrite (proj1 (Permutation_singleton_r _ _) HP).
  - pose proof (Permutation_length HP) as Hl. destruct (children_list n ch) as [|d1 [|d2 l]]; [done..|done].
Qed.

Definition kid (c : nat) (e : TimingEvent) : TimingEvent :=
  let '(ch, n) := add_to_children (ev_numChildren e) (ev_children e) c in ev_set_children ch n e.
Definition parent (d : Z) (e : TimingEvent) : TimingEvent := ev_set_numParents (ev_numParents e + 1) (ev_set_domain d e).
Definition linked_heap (p c : nat) (d : Z) (ep ec : TimingEvent) (h : EvHeap) : EvHeap :=
  mkHeap (<[c := parent d ec]> (<[p := kid c ep]> (hp_events h))) (hp_next h) (hp_queue h).

Lemma kid_fields c e : ev_class (kid c e) = ev_class e /\ ev_state (kid c e) = ev_state e /\ ev_cycle (kid c e) = ev_cycle e /\
  ev_minStartCycle (kid c e) = ev_minStartCycle e /\ ev_domain (kid c e) = ev_domain e /\ ev_numParents (kid c e) = ev_numParents e /\
  ev_preDelay (kid c e) = ev_preDelay e /\ ev_postDelay (kid c e) = ev_postDelay e.
Proof. unfold kid. by destruct (add_to_children _ _ _). Qed.
Lemma kid_shape c e : wf_ev e -> ev_numChildren e + 1 < two32 ->
  Shape (ev_numChildren (kid c e)) (ev_children (kid c e)) (chl (kid c e)) /\ chl (kid c e) ≡ₚ c :: chl e /\ ev_numChildren (kid c e) = ev_numChildren e + 1.
Proof.
  intros (_&_&_&_&_&Hsh) Hlt. pose proof (proj1 Hsh) as Hn.
  pose proof (Shape_add _ _ _ c ltac:(rewrite <- Hn; lia) Hsh) as HA. unfold kid, chl at 1 2. destruct (add_to_children _ _ _) as [ch n]. cbn in *.
  split; [by eapply Shape_self|]. destruct HA as (Hn'&HP&_). split; [rewrite HP; symmetry; apply Permutation_cons_append|].
  rewrite Hn', length_app. cbn. lia.
Qed.

(** The domain of the child: its own, or that of its parent for a new DelayEvent. *)
Definition dom_ok (ep ec : TimingEvent) (d : Z) : Prop :=
  ev_domain ep = d /\ d <> -1 /\ (ev_domain ec = d \/ ev_domain ec = -1 /\ ev_numChildren ec = 0).

Lemma addChild_ok fuel h p c ep ec d : (2 <= fuel)%nat -> hp_events h !! p = Some ep -> hp_events h !! c = Some ec -> p <> c ->
  ev_state ep = EV_NONE \/ ev_state ep = EV_QUEUED -> ev_state ec = EV_NONE -> dom_ok ep ec d -> 0 <= ev_numParents ec < two32 - 1 ->
  addChild fuel p c h = Ok (c, linked_heap p c d ep ec h).
Proof.
  intros Hf Hp Hc Hne Hsp Hsc (Hd&Hd1&Hdc) Hnp. unfold addChild, mbind, M_bind, get_ev. rewrite Hp. unfold massert at 1.
  assert (E : bool_decide (ev_state ep = EV_NONE) || bool_decide (ev_state ep = EV_QUEUED) = true) by (destruct Hsp as [->| ->]; done).
  rewrite E, Hc. unfold massert. rewrite bool_decide_eq_true_2 by done. unfold linked_heap, kid.
  destruct (add_to_children (ev_numChildren ep) (ev_children ep) c) as [ch n]. cbn. rewrite Hd, (proj2 (Z.eqb_neq d (-1))) by done. cbn.
  unfold modify_ev, mbind, M_bind, get_ev, parent. destruct Hdc as [Hdc|[Hdc Hnk]].
  - rewrite Hdc, (proj2 (Z.eqb_neq d (-1))) by done. cbn. rewrite lookup_insert_ne, Hc by done. cbn. rewrite u32_small by (unfold two32 in *; lia).
    replace (ev_set_domain d ec) with ec by (destruct ec; cbn in *; by subst). done.
  - rewrite Hdc. cbn. destruct fuel as [|fuel]; [lia|]. cbn [propagateDomain]. unfold mbind, M_bind, get_ev. cbn.
    rewrite lookup_insert_ne, Hc by done. unfold massert. rewrite Hdc. cbn. unfold visitChildren, mbind, M_bind, get_ev. cbn.
    rewrite lookup_insert_eq. cbn. rewrite Hnk. cbn. rewrite lookup_insert_eq. cbn. rewrite u32_small by (unfold two32 in *; lia).
    by rewrite insert_insert_eq.
Qed.

Section Link.
Context (h : EvHeap) (F : list nat) (now : Z) (p c : nat) (ep ec : TimingEvent) (d : Z) (G : GI h [] F now)
  (Hp : hp_events h !! p = Some ep) (Hc : hp_events h !! c = Some ec) (Hne : p <> c) (HF : c ∈ F)
  (Hsp : ev_state ep = EV_NONE \/ ev_state ep = EV_QUEUED) (Hsc : ev_state ec = EV_NONE)
  (Hnd : ev_class ep = ClsDelay -> ev_class ec <> ClsDelay)
  (Hnp : 0 <= ev_numParents ec < two32 - 1) (Hnk : ev_numChildren ep + 1 < two32).
Let h' := linked_heap p c d ep ec h.

Lemma link_inv x e' : hp_events h' !! x = Some e' -> exists e, hp_events h !! x = Some e /\ ev_class e' = ev_class e /\
  ev_state e' = ev_state e /\ ev_cycle e' = ev_cycle e /\ ev_minStartCycle e' = ev_minStartCycle e /\
  ev_preDelay e' = ev_preDelay e /\ ev_postDelay e' = ev_postDelay e /\ ev_numParents e' = ev_numParents e + (if decide (x = c) then 1 else 0).
Proof.
  cbn. destruct (decide (c = x)) as [<-|Hxc].
  - rewrite lookup_insert_eq. intros [= <-]. exists ec. rewrite decide_True by done. by repeat split.
  - rewrite lookup_insert_ne by done. rewrite decide_False by congruence. destruct (decide (p = x)) as [<-|Hxp].
    + rewrite lookup_insert_eq. intros [= <-]. exists ep. destruct (kid_fields c ep) as (?&?&?&?&?&?&?&?). repeat (split; [done|]). lia.
    + rewrite lookup_insert_ne by done. intros He. exists e'. repeat (split; [done|]). lia.
Qed.
Lemma link_fwd x e : hp_events h !! x = Some e -> exists e', hp_events h' !! x = Some e'.
Proof.
  intros He. cbn. destruct (decide (c = x)) as [<-|Hxc]; [rewrite lookup_insert_eq; by eexists|]. rewrite lookup_insert_ne by done.
  destruct (decide (p = x)) as [<-|Hxp]; [rewrite lookup_insert_eq; by eexists|]. rewrite lookup_insert_ne by done. by exists e.
Qed.
Lemma link_end x e e' : hp_events h !! x = Some e -> hp_events h' !! x = Some e' -> ev_end e' = ev_end e.
Proof. intros He He'. destruct (link_inv _ _ He') as (e0&?&_&_&_&E1&E2&E3&_). simplify_eq. unfold ev_end. congruence. Qed.

Lemma link_edges : edges (hp_events h') ≡ₚ (p, c) :: edges (hp_events h).
Proof.
  unfold h', linked_heap. cbn [hp_events]. rewrite (edges_update _ c ec).
  - rewrite <- insert_delete_eq, edges_insert by apply lookup_delete_eq. rewrite (edges_delete (hp_events h) p ep Hp).
    destruct (kid_shape c ep (g_wf _ _ _ _ G _ _ Hp) Hnk) as (_&HK&_). destruct (kid_fields c ep) as (_&Es&_).
    unfold out. rewrite Es, !decide_False by (destruct Hsp; congruence). by rewrite HK.
  - by rewrite lookup_insert_ne.
  - unfold out, parent. cbn. by rewrite Hsc.
Qed.

Lemma GI_link : GI h' [] F now.
Proof.
  pose proof link_edges as HE. split.
  - intros x e' He'. destruct (link_inv _ _ He') as (e&He&E1&E2&E3&E4&E5&E6&_).
    pose proof (g_wf _ _ _ _ G _ _ He) as (W1&W2&W3&W4&W5&W6). unfold wf_ev, early in *. rewrite E1, E3, E4, E5, E6.
    repeat (split; [done|]). cbn in He'. destruct (decide (c = x)) as [<-|Hxc]; [rewrite lookup_insert_eq in He'; simplify_eq; done|].
    rewrite lookup_insert_ne in He' by done. destruct (decide (p = x)) as [<-|Hxp]; [|rewrite lookup_insert_ne in He' by done; by simplify_eq].
    rewrite lookup_insert_eq in He'. simplify_eq. by apply kid_shape; [by eapply g_wf|].
  - intros x e' He'. destruct (link_inv _ _ He') as (e&He&_&_&_&_&_&_&En). rewrite HE, En, app_nil_r, cntp_cons. cbn [snd].
    destruct (g_np _ _ _ _ G _ _ He) as [Hn ?]. rewrite app_nil_r in Hn. destruct (decide (x = c)) as [->|]; [|rewrite decide_False by congruence; lia].
    rewrite decide_True by done. simplify_eq. lia.
  - intros q x. rewrite app_nil_r, HE. intros Hin.
    assert (He : exists e, hp_events h !! x = Some e /\ ev_state e = EV_NONE).
    { apply elem_of_cons in Hin as [[= -> ->]|Hin]; [by exists ec|]. apply (g_dst _ _ _ _ G q). by rewrite app_nil_r. }
    destruct He as (e&He&Hs). destruct (link_fwd _ _ He) as (e'&He'). exists e'. split; [done|].
    destruct (link_inv _ _ He') as (e0&?&_&Es&_). simplify_eq. congruence.
  - intros q x Hin. by apply elem_of_nil in Hin.
  - intros q x eq ex. rewrite app_nil_r, HE. intros Hin Hq Hx. destruct (link_inv _ _ Hq) as (q0&Hq0&->&_), (link_inv _ _ Hx) as (x0&Hx0&->&_).
    apply elem_of_cons in Hin as [[= -> ->]|Hin]; [simplify_eq; done|]. eapply (g_nd _ _ _ _ G q x); [by rewrite app_nil_r|done..].
  - intros x e' He' Hs HxF. destruct (link_inv _ _ He') as (e&He&_&Es&E3&E4&_). rewrite app_nil_r, E3, E4. setoid_rewrite HE.
    destruct (g_time _ _ _ _ G x e He ltac:(congruence) HxF) as [?|(q&eq&Hin&Hq&Hle)]; [by left|]. right. rewrite app_nil_r in Hin.
    destruct (link_fwd _ _ Hq) as (eq'&Hq'). exists q, eq'. split; [by apply elem_of_cons; right|]. split; [done|]. by rewrite (link_end _ _ _ Hq Hq').
  - intros x e' He' Hs. destruct (link_inv _ _ He') as (e&He&_&Es&_&_&_&_&En). destruct (g_none _ _ _ _ G x e He ltac:(congruence)) as [?|?]; [by left|].
    right. rewrite En. case_decide; lia.
  - intros x e' He' Hs. destruct (link_inv _ _ He') as (e&He&_&Es&_&_&_&_&En). destruct (g_busy _ _ _ _ G x e He ltac:(congruence)) as [Hz HxF].
    split; [|done]. rewrite En, decide_False; [lia|]. by intros ->.
  - intros x. cbn [hp_queue h' linked_heap]. rewrite (g_q _ _ _ _ G). split; intros (e&He&Hs).
    + destruct (link_fwd _ _ He) as (e'&He'). exists e'. split; [done|]. destruct (link_inv _ _ He') as (e0&?&_&Es&_). simplify_eq. congruence.
    + destruct (link_inv _ _ He) as (e0&?&_&Es&_). exists e0. split; [done|congruence].
  - intros x y e' Hx He'. destruct (link_inv _ _ He') as (e&He&E1&_&_&E4&E5&_). rewrite E1, E4, E5. by eapply (g_qt _ _ _ _ G x y).
  - exact (g_qd _ _ _ _ G).
  - intros x e' He'. destruct (link_inv _ _ He') as (e&He&_). by apply (g_next _ _ _ _ G _ _ He).
Qed.
End Link.

(** ** The state while an access is built *)
Record BI (w : W Outcome) (F : list nat) (now : Z) (rank : nat -> nat) (grp : nat -> option nat) : Prop := {
  b_gi : GI (w_heap w) [] F now;
  b_rank : forall q c, (q, c) ∈ edges (hp_events (w_heap w)) -> (rank q < rank c)%nat;
  b_grp : forall q c x, (q, c) ∈ edges (hp_events (w_heap w)) -> grp c = Some x -> grp q = Some x \/ w_kinds w !! x = Some (MissWritebackEvent q);
  b_member : forall p x, is_Some (hp_events (w_heap w) !! p) -> grp p = Some x -> ~ is_start (w_kinds w !! p);
  b_class : forall p e, hp_events (w_heap w) !! p = Some e -> class_of (w_kinds w !! p) e;
  b_dom : forall p e, hp_events (w_heap w) !! p = Some e -> ev_domain e = domain (w_tc w) \/
    (p ∈ F /\ ev_domain e = -1 /\ ev_numChildren e = 0);
  b_next : forall p, is_Some (w_kinds w !! p) -> (p < hp_next (w_heap w))%nat;
  b_cfg : cfg (w_tc w) }.

(** From [w] to [w'] events were added; of the old ones only [L] have new parents or children. *)
Record Fr (w w' : W Outcome) (L : list nat) : Prop := {
  fr_tc : w_tc w' = w_tc w;
  fr_recs : w_recs w' = w_recs w;
  fr_x : w_x w' = w_x w;
  fr_next : (hp_next (w_heap w) <= hp_next (w_heap w'))%nat;
  fr_kinds : forall x, (x < hp_next (w_heap w))%nat -> w_kinds w' !! x = w_kinds w !! x;
  fr_dead : forall x, (x < hp_next (w_heap w))%nat -> hp_events (w_heap w) !! x = None -> hp_events (w_heap w') !! x = None;
  fr_stat : forall x e, hp_events (w_heap w) !! x = Some e -> exists e', hp_events (w_heap w') !! x = Some e' /\
    ev_class e' = ev_class e /\ ev_state e' = ev_state e /\ ev_minStartCycle e' = ev_minStartCycle e /\ ev_end e' = ev_end e /\
    ev_preDelay e' = ev_preDelay e;
  fr_same : forall x e, x ∉ L -> hp_events (w_heap w) !! x = Some e -> hp_events (w_heap w') !! x = Some e;
  fr_edges : forall x, x ∈ edges (hp_events (w_heap w)) -> x ∈ edges (hp_events (w_heap w'));
  fr_new : forall x e, (hp_next (w_heap w) <= x)%nat -> hp_events (w_heap w') !! x = Some e -> ev_state e = EV_NONE \/ ev_state e = EV_QUEUED }.

Lemma Fr_refl w L : (forall x e, hp_events (w_heap w) !! x = Some e -> (x < hp_next (w_heap w))%nat) -> Fr w w L.
Proof. intros Hn. split; try done; [intros x e He; by exists e|]. intros x e Hx He. specialize (Hn _ _ He). lia. Qed.
Lemma Fr_mono w w' L L' : Fr w w' L -> L ⊆ L' -> Fr w w' L'.
Proof. intros [] HL. split; try done. intros x e Hx. apply fr_same0. intros Hin. by apply Hx, HL. Qed.
Lemma Fr_drop w w' L L' : Fr w w' L -> (forall x e, hp_events (w_heap w) !! x = Some e -> x ∈ L -> x ∈ L') -> Fr w w' L'.
Proof. intros [] HL. split; try done. intros x e Hx He. apply fr_same0; [|done]. intros Hin. by eapply Hx, HL. Qed.
Lemma Fr_trans w1 w2 w3 L : Fr w1 w2 L -> Fr w2 w3 L -> Fr w1 w3 L.
Proof.
  intros [] []. split; try congruence.
  - lia.
  - intros x Hx. rewrite fr_kinds1, fr_kinds0 by lia. done.
  - intros x Hx Hd. apply fr_dead1; [lia|]. by apply fr_dead0.
  - intros x e He. destruct (fr_stat0 _ _ He) as (e1&He1&?&?&?&?&?). destruct (fr_stat1 _ _ He1) as (e2&He2&?&?&?&?&?).
    exists e2. repeat split; congruence.
  - intros x e Hx He. apply fr_same1; [done|]. by apply fr_same0.
  - intros x Hx. by apply fr_edges1, fr_edges0.
  - intros x e Hx He. destruct (decide (x < hp_next (w_heap w2))%nat) as [Hlt|]; [|apply (fr_new1 x e); [lia|done]].
    destruct (hp_events (w_heap w2) !! x) as [e2|] eqn:E2; [|by rewrite (fr_dead1 _ Hlt E2) in He].
    destruct (fr_stat1 _ _ E2) as (e3&He3&_&Es&_). simplify_eq. rewrite Es. by eapply fr_new0.
Qed.

(** What is known of an event of the access: at most [np] parents, fewer than [nk] children. *)
Definition ev_at (w : W Outcome) (p : nat) (mn ed np nk : Z) : Prop := exists e, hp_events (w_heap w) !! p = Some e /\
  (ev_state e = EV_NONE \/ ev_state e = EV_QUEUED) /\ ev_class e <> ClsDelay /\ ev_minStartCycle e = mn /\ ev_end e = ed /\
  ev_numParents e <= np /\ ev_numChildren e <= nk /\ ev_domain e = domain (w_tc w).
(** The event [c] does not start before [T]. *)
Definition late (w : W Outcome) (c : nat) (T : Z) : Prop :=
  exists q eq, (q, c) ∈ edges (hp_events (w_heap w)) /\ hp_events (w_heap w) !! q = Some eq /\ T <= ev_end eq.
Definition agree (n : nat) (rank rank' : nat -> nat) (grp grp' : nat -> option nat) : Prop :=
  forall x, (x < n)%nat -> rank' x = rank x /\ grp' x = grp x.

Lemma Fr_ev_at w w' L p mn ed np nk : Fr w w' L -> p ∉ L -> ev_at w p mn ed np nk -> ev_at w' p mn ed np nk.
Proof. intros Hf HL (e&He&R). exists e. split; [by eapply fr_same|]. by rewrite (fr_tc _ _ _ Hf). Qed.
Lemma Fr_late w w' L c T : Fr w w' L -> late w c T -> late w' c T.
Proof.
  intros Hf (q&eq&Hin&Hq&Hle). destruct (fr_stat _ _ _ Hf _ _ Hq) as (eq'&Hq'&_&_&_&Ee&_). exists q, eq'.
  split; [by eapply fr_edges|]. by rewrite Ee.
Qed.
Lemma Fr_path w w' L q c : Fr w w' L -> path (hp_events (w_heap w)) q c -> path (hp_events (w_heap w')) q c.
Proof. intros Hf. induction 1; [apply path_edge; by eapply fr_edges|]. eapply path_cons; [by eapply fr_edges|done]. Qed.
Lemma agree_trans n n' r1 r2 r3 g1 g2 g3 : agree n r1 r2 g1 g2 -> agree n' r2 r3 g2 g3 -> (n <= n')%nat -> agree n r1 r3 g1 g3.
Proof. intros H1 H2 Hn x Hx. destruct (H1 x Hx) as [E1 E2], (H2 x ltac:(lia)) as [E3 E4]. split; congruence. Qed.
Lemma ev_at_mono w p mn ed np nk np' nk' : ev_at w p mn ed np nk -> np <= np' -> nk <= nk' -> ev_at w p mn ed np' nk'.
Proof. intros (e&?&?&?&?&?&?&?&?) ? ?. exists e. repeat (split; [done|]). split; [lia|]. split; [lia|done]. Qed.
Lemma ev_at_lt w F now rank grp p mn ed np nk : BI w F now rank grp -> ev_at w p mn ed np nk -> (p < hp_next (w_heap w))%nat.
Proof. intros B (e&He&_). by eapply g_next; [by eapply b_gi|]. Qed.

(** ** Creating an event *)
Definition create (k : option Kind) (e : TimingEvent) (w : W Outcome) : W Outcome :=
  mkW (w_x w) (w_tc w) (match k with Some k => <[hp_next (w_heap w) := k]> (w_kinds w) | None => w_kinds w end) (w_recs w) (add_ev e (w_heap w)).

Lemma create_spec w F now rank grp k cls pre post dom mn r g : BI w F now rank grp ->
  0 <= pre < two32 -> 0 <= post < two32 -> 0 <= mn < BIG -> (cls = ClsDelay -> post = 0) ->
  class_of k (fresh_ev cls pre post dom mn) -> (dom = domain (w_tc w) \/ dom = -1) -> (is_Some g -> ~ is_start k) ->
  let p := hp_next (w_heap w) in let w' := create k (fresh_ev cls pre post dom mn) w in
  BI w' (p :: F) now (upd rank p r) (upd grp p g) /\ Fr w w' [] /\ agree p rank (upd rank p r) grp (upd grp p g) /\
  (cls <> ClsDelay -> dom = domain (w_tc w) -> ev_at w' p mn (mn + pre + post) 0 0).
Proof.
  intros B Hpre Hpost Hmn Hd Hcl Hdom Hg p w'. pose proof (b_gi _ _ _ _ _ B) as G.
  pose proof (fresh_edges _ _ _ cls pre post dom mn G) as HE. fold (w_heap w') in HE.
  assert (Hk0 : w_kinds w !! p = None). { destruct (w_kinds w !! p) eqn:E; [|done]. pose proof (b_next _ _ _ _ _ B p ltac:(by eexists)). unfold p in *. lia. }
  assert (Hp0 : hp_events (w_heap w) !! p = None). { destruct (hp_events (w_heap w) !! p) eqn:E; [|done]. pose proof (g_next _ _ _ _ G _ _ E). unfold p in *. lia. }
  assert (Hk : forall x, x <> p -> w_kinds w' !! x = w_kinds w !! x) by (intros x Hx; cbn; destruct k; [by rewrite lookup_insert_ne|done]).
  assert (Hkp : w_kinds w' !! p = k) by (cbn; destruct k; [apply lookup_insert_eq|done]).
  assert (Hm : forall x, x <> p -> hp_events (w_heap w') !! x = hp_events (w_heap w) !! x) by (intros x Hx; cbn; by rewrite lookup_insert_ne).
  assert (Hmp : hp_events (w_heap w') !! p = Some (fresh_ev cls pre post dom mn)) by apply lookup_insert_eq.
  assert (Hsrc : forall q c, (q, c) ∈ edges (hp_events (w_heap w)) -> q <> p /\ c <> p).
  { intros q c Hin. destruct (proj1 (elem_edges _ _ _) Hin) as (e&He&_). destruct (g_dst _ _ _ _ G q c ltac:(by rewrite app_nil_r)) as (e'&He'&_). split; intros ->; congruence. }
  split; [split|split; [|split]].
  - by apply GI_new.
  - intros q c Hin. cbn [w' create w_heap] in Hin. rewrite HE in Hin. destruct (Hsrc _ _ Hin). rewrite !upd_ne by done. by eapply b_rank.
  - intros q c x Hin. cbn [w' create w_heap] in Hin. rewrite HE in Hin. destruct (Hsrc _ _ Hin). rewrite !upd_ne by done. intros Hx.
    destruct (b_grp _ _ _ _ _ B _ _ _ Hin Hx) as [?|Hw]; [by left|]. right. rewrite Hk; [done|]. intros ->. congruence.
  - intros q x Hl. destruct (decide (q = p)) as [->|Hq]; [rewrite upd_eq, Hkp; intros ->; apply Hg; by eexists|].
    rewrite upd_ne, Hk by done. rewrite Hm in Hl by done. by eapply b_member.
  - intros q e He. destruct (decide (q = p)) as [->|Hq]; [rewrite Hkp; rewrite Hmp in He; by simplify_eq|]. rewrite Hk by done. rewrite Hm in He by done. by eapply b_class.
  - intros q e He. destruct (decide (q = p)) as [->|Hq].
    + rewrite Hmp in He. simplify_eq. cbn. destruct Hdom as [->| ->]; [by left|right]. split; [apply list_elem_of_here|done].
    + rewrite Hm in He by done. destruct (b_dom _ _ _ _ _ B _ _ He) as [?|(?&?&?)]; [by left|right]. split; [by apply elem_of_cons; right|done].
  - intros q Hq. cbn. destruct (decide (q = p)) as [->|Hne]; [unfold p; apply Nat.lt_succ_diag_r|]. rewrite Hk in Hq by done. apply Nat.lt_lt_succ_r. by eapply b_next.
  - exact (b_cfg _ _ _ _ _ B).
  - split; cbn; try done; try lia.
    + apply Nat.le_succ_diag_r.
    + intros x Hx. apply Hk. unfold p. lia.
    + intros x Hx Hd0. rewrite lookup_insert_ne; [done|lia].
    + intros x e He. exists e. rewrite lookup_insert_ne; [by repeat split|]. intros <-. fold p in He. congruence.
    + intros x e _ He. rewrite lookup_insert_ne; [done|]. intros <-. fold p in He. congruence.
    + intros x Hx. fold (w_heap w'). cbn in HE. by rewrite HE.
    + intros x e Hx He. destruct (decide (hp_next (w_heap w) = x)) as [<-|Hne]; [rewrite lookup_insert_eq in He; simplify_eq; by left|].
      rewrite lookup_insert_ne in He by done. pose proof (g_next _ _ _ _ G _ _ He). lia.
  - intros x Hx. rewrite !upd_ne by (unfold p in *; lia). done.
  - intros Hnd ->. exists (fresh_ev cls pre post (domain (w_tc w)) mn). split; [done|]. cbn. repeat (split; [by try left|]). done.
Qed.

(** ** Linking *)
Definition hgrp (w : W Outcome) (grp : nat -> option nat) (p c : nat) : Prop :=
  forall x, grp c = Some x -> grp p = Some x \/ w_kinds w !! x = Some (MissWritebackEvent p).

Lemma link_raw w F now rank grp p c ep ec (Q : nat -> W Outcome -> Prop) : BI w F now rank grp ->
  hp_events (w_heap w) !! p = Some ep -> hp_events (w_heap w) !! c = Some ec -> p <> c -> c ∈ F ->
  ev_state ep = EV_NONE \/ ev_state ep = EV_QUEUED -> (ev_class ep = ClsDelay -> ev_class ec <> ClsDelay) ->
  ev_domain ep = domain (w_tc w) -> ev_numParents ec < two32 - 1 -> ev_numChildren ep + 1 < two32 ->
  (rank p < rank c)%nat -> hgrp w grp p c ->
  (let w' := with_heap (linked_heap p c (domain (w_tc w)) ep ec (w_heap w)) w in
   BI w' F now rank grp -> Fr w w' [p; c] -> edges (hp_events (w_heap w')) ≡ₚ (p, c) :: edges (hp_events (w_heap w)) -> Q c w') ->
  wp (link p c) Q w.
Proof.
  intros B Hp Hc Hne HF Hsp Hnd Hdp Hnp Hnk Hr Hg HQ. pose proof (b_gi _ _ _ _ _ B) as G. pose proof (cf_dom _ (b_cfg _ _ _ _ _ B)) as Hd.
  assert (Hsc : ev_state ec = EV_NONE) by (destruct (decide (ev_state ec = EV_NONE)) as [|Hx]; [done|]; by destruct (g_busy _ _ _ _ G _ _ Hc Hx)).
  assert (Hnp0 : 0 <= ev_numParents ec) by (rewrite (proj1 (g_np _ _ _ _ G _ _ Hc)); apply cntp_nonneg).
  assert (Hdo : dom_ok ep ec (domain (w_tc w))).
  { split; [done|]. split; [done|]. destruct (b_dom _ _ _ _ _ B _ _ Hc) as [?|(_&?&?)]; [by left|by right]. }
  unfold link. wp_steps. eapply wp_onHeap_ok.
  { apply (addChild_ok _ _ _ _ ep ec (domain (w_tc w))); try done. unfold CR.ev_fuel. lia. }
  remember (linked_heap p c (domain (w_tc w)) ep ec (w_heap w)) as h' eqn:Eh.
  pose proof (GI_link _ _ _ _ _ _ _ (domain (w_tc w)) G Hp Hc Hne HF Hsp Hsc Hnd ltac:(lia) Hnk) as G'. rewrite <- Eh in G'.
  pose proof (link_edges _ _ _ _ _ _ _ (domain (w_tc w)) G Hp Hc Hne Hsp Hsc Hnk) as HE. rewrite <- Eh in HE.
  assert (Hin : forall x e', hp_events h' !! x = Some e' -> exists e, hp_events (w_heap w) !! x = Some e /\ ev_class e' = ev_class e /\
    ev_state e' = ev_state e /\ ev_cycle e' = ev_cycle e /\ ev_minStartCycle e' = ev_minStartCycle e /\
    ev_preDelay e' = ev_preDelay e /\ ev_postDelay e' = ev_postDelay e /\ ev_numParents e' = ev_numParents e + (if decide (x = c) then 1 else 0)).
  { intros x e'. rewrite Eh. by apply link_inv. }
  apply HQ; [split|split|exact HE]; try done; cbn.
  - intros q x. rewrite HE. intros [[= -> ->]|Hx]%elem_of_cons; [done|by eapply b_rank].
  - intros q x y. rewrite HE. intros [[= -> ->]|Hx]%elem_of_cons; [by apply Hg|by eapply b_grp].
  - intros x y [e' He']. destruct (Hin _ _ He') as (e&He&_). eapply b_member; [done|by eexists].
  - intros x e' He'. destruct (Hin _ _ He') as (e&He&Ec&_). pose proof (b_class _ _ _ _ _ B _ _ He) as HC. unfold class_of in *. by rewrite Ec.
  - intros x e' He'. rewrite Eh in He'. cbn in He'.
    destruct (decide (c = x)) as [<-|Hxc]; [rewrite lookup_insert_eq in He'; simplify_eq; by left|]. rewrite lookup_insert_ne in He' by done.
    destruct (decide (p = x)) as [<-|Hxp]; [|rewrite lookup_insert_ne in He' by done; by eapply b_dom]. rewrite lookup_insert_eq in He'. simplify_eq.
    left. by destruct (kid_fields c ep) as (_&_&_&_&->&_).
  - rewrite Eh. exact (b_next _ _ _ _ _ B).
  - exact (b_cfg _ _ _ _ _ B).
  - by rewrite Eh.
  - intros x _ Hx. rewrite Eh. cbn. rewrite lookup_insert_ne by (intros <-; congruence). by rewrite lookup_insert_ne by (intros <-; congruence).
  - intros x e He. destruct (link_fwd (w_heap w) p c ep ec (domain (w_tc w)) x e He) as (e'&He'). rewrite <- Eh in He'. exists e'. split; [done|].
    destruct (Hin _ _ He') as (e0&?&?&?&_&?&?&?&_). simplify_eq. unfold ev_end. repeat split; congruence.
  - intros x e [Hx1 [Hx2 _]%not_elem_of_cons]%not_elem_of_cons He. rewrite Eh. cbn. by rewrite !lookup_insert_ne by done.
  - intros x Hx. rewrite HE. by apply elem_of_cons; right.
  - intros x e Hx He. destruct (Hin _ _ He) as (e0&He0&_). pose proof (g_next _ _ _ _ G _ _ He0). lia.
Qed.

Lemma linked_at w p c ep ec mp edp npp nkp mc edc npc nkc F now : GI (w_heap w) [] F now -> p <> c ->
  hp_events (w_heap w) !! p = Some ep -> hp_events (w_heap w) !! c = Some ec -> ev_numChildren ep + 1 < two32 ->
  let w' := with_heap (linked_heap p c (domain (w_tc w)) ep ec (w_heap w)) w in
  (ev_at w p mp edp npp nkp -> ev_at w' p mp edp npp (nkp + 1)) /\ (ev_at w c mc edc npc nkc -> ev_at w' c mc edc (npc + 1) nkc).
Proof.
  intros G Hne Hp Hc Hnk w'. split.
  - intros (e&He&Hs&Hcl&Hm&Hend&Hn&Hk&Hd). simplify_eq. exists (kid c ep).
    destruct (kid_fields c ep) as (E1&E2&_&E4&E5&E6&E7&E8). destruct (kid_shape c ep (g_wf _ _ _ _ G _ _ Hp) Hnk) as (_&_&E9).
    split; [cbn; by rewrite lookup_insert_ne, lookup_insert_eq|]. unfold ev_end. rewrite E1, E2, E4, E5, E6, E7, E8, E9. repeat (split; [done|]). split; [lia|done].
  - intros (e&He&Hs&Hcl&Hm&Hend&Hn&Hk&Hd). simplify_eq. exists (parent (domain (w_tc w)) ec).
    split; [apply lookup_insert_eq|]. cbn. repeat (split; [done|]). split; [lia|done].
Qed.

(** An edge between two events of the access. *)
Lemma link_spec w F now rank grp p c mp edp npp nkp mc edc npc nkc (Q : nat -> W Outcome -> Prop) : BI w F now rank grp ->
  ev_at w p mp edp npp nkp -> ev_at w c mc edc npc nkc -> p <> c -> c ∈ F -> npc < 100 -> nkp < two32 - 1 ->
  (rank p < rank c)%nat -> hgrp w grp p c ->
  (forall w', BI w' F now rank grp -> Fr w w' [p; c] -> w_kinds w' = w_kinds w -> ev_at w' p mp edp npp (nkp + 1) -> ev_at w' c mc edc (npc + 1) nkc ->
    late w' c edp -> path (hp_events (w_heap w')) p c -> Q c w') ->
  wp (link p c) Q w.
Proof.
  intros B Hp Hc Hne HF Hnp Hnk Hr Hg HQ. destruct (Hp) as (ep&Hep&Hsp&Hclp&_&Hend&_&Hnkp&Hdp), (Hc) as (ec&Hec&_&_&_&_&Hnpc&_).
  eapply link_raw; try done; [unfold two32 in *; lia|lia|]. intros w' B' Fr' HE.
  destruct (linked_at w p c ep ec mp edp npp nkp mc edc npc nkc F now (b_gi _ _ _ _ _ B) Hne Hep Hec ltac:(lia)) as [H1 H2].
  assert (Hin : (p, c) ∈ edges (hp_events (w_heap w'))) by (rewrite HE; apply list_elem_of_here).
  apply HQ; [done|done|done|by apply H1|by apply H2| |by apply path_edge].
  destruct (H1 Hp) as (ep'&Hep'&_&_&_&E&_). exists p, ep'. split; [done|]. split; [done|lia].
Qed.

(** ** The operations of the builder *)
Lemma new_min cls pre post dom mn h : (new_TimingEvent cls pre post dom ≫= fun p => setMinStartCycle p mn ≫= fun _ => mret p) h =
  Ok (hp_next h, add_ev (fresh_ev cls pre post dom mn) h).
Proof.
  unfold new_TimingEvent, setMinStartCycle, modify_ev, mbind, M_bind, get_ev. cbn. rewrite lookup_insert_eq. cbn.
  unfold mret, M_ret, add_ev. cbn. by rewrite insert_insert_eq.
Qed.
Lemma new_delay_ok d mn w (Q : nat -> W Outcome -> Prop) :
  Q (hp_next (w_heap w)) (create None (fresh_ev ClsDelay d 0 (-1) mn) w) -> wp (new_delay d mn) Q w.
Proof.
  intros HQ. unfold new_delay, new_DelayEvent, setMinStartCycle, modify_ev, wp, mbind, M_bind, onHeap, new_TimingEvent, get_ev. cbn.
  rewrite lookup_insert_eq. cbn. rewrite insert_insert_eq. exact HQ.
Qed.
Lemma new_event_ok k pre post mn w (Q : nat -> W Outcome -> Prop) :
  Q (hp_next (w_heap w)) (create (Some k) (fresh_ev ClsTiming pre post (domain (w_tc w)) mn) w) -> wp (new_event k pre post mn) Q w.
Proof.
  intros HQ. unfold new_event, setKind, setMinStartCycle, modify_ev, wp, mbind, M_bind, mget, onHeap, new_TimingEvent, get_ev. cbn.
  rewrite lookup_insert_eq. cbn. rewrite insert_insert_eq. exact HQ.
Qed.

Lemma BI_settle w F F' c now rank grp mc edc npc nkc T : BI w F now rank grp -> F ≡ₚ c :: F' -> ev_at w c mc edc npc nkc -> late w c T -> mc <= T ->
  BI w F' now rank grp.
Proof.
  intros B HP (e&He&_&_&Hm&_&_&_&Hd) (q&eq&Hin&Hq&Hle) HT. pose proof (GI_F _ _ _ _ (b_gi _ _ _ _ _ B) HP) as G. destruct B. split; try done.
  - eapply GI_settle; [done..| |].
    + rewrite (proj1 (g_np _ _ _ _ G _ _ He)), app_nil_r. apply cntp_pos. by exists q.
    + right. exists q, eq. split; [done|]. split; [done|lia].
  - intros p e' He'. destruct (b_dom0 _ _ He') as [?|(Hp&Hx&?)]; [by left|]. rewrite HP in Hp. apply elem_of_cons in Hp as [->|Hp]; [|by right].
    left. simplify_eq. done.
Qed.

Lemma BI_perm w F F' now rank grp : BI w F now rank grp -> F ≡ₚ F' -> BI w F' now rank grp.
Proof. intros B HP. pose proof (GI_F _ _ _ _ (b_gi _ _ _ _ _ B) HP). destruct B. split; try done. intros p e He. rewrite <- HP. by apply b_dom0. Qed.
Lemma Fr_lt w F now rank grp : BI w F now rank grp -> forall x e, hp_events (w_heap w) !! x = Some e -> (x < hp_next (w_heap w))%nat.
Proof. intros B x e He. by eapply g_next; [by eapply b_gi|]. Qed.

(** The edge of [link_after]: the child starts [lat] cycles after [mnd] at the earliest. *)
Lemma link_after_spec w F now rank grp p c lat mnd mp edp npp nkp mc edc npc nkc (Q : unit -> W Outcome -> Prop) : BI w F now rank grp ->
  ev_at w p mp edp npp nkp -> ev_at w c mc edc npc nkc -> p <> c -> c ∈ F -> npc < 100 -> nkp < two32 - 1 ->
  0 <= lat < two32 -> 0 <= mnd <= edp -> mnd < BIG -> (Datatypes.S (rank p) < rank c)%nat -> hgrp w grp p c ->
  (forall w' rank' grp', BI w' F now rank' grp' -> Fr w w' [p; c] -> agree (hp_next (w_heap w)) rank rank' grp grp' -> w_kinds w' = w_kinds w ->
    ev_at w' p mp edp npp (nkp + 1) -> ev_at w' c mc edc (npc + 1) nkc -> late w' c (mnd + lat) -> path (hp_events (w_heap w')) p c -> Q tt w') ->
  wp (link_after p c lat mnd) Q w.
Proof.
  intros B Hp Hc Hne HF Hnp Hnk Hlat Hmnd Hbig Hr Hg HQ. unfold link_after. destruct (Z.eqb_spec lat 0) as [E|E]; cbn [negb].
  { apply wp_bind. eapply link_spec; [done..|lia|done|]. intros w' B' Fr' Ek H1 H2 HL HPa. apply wp_ret.
    eapply HQ; [done|done|by intros x _|done|done|done| |done]. destruct HL as (q&eq&?&?&?). exists q, eq. repeat (split; [done|]). lia. }
  pose proof (ev_at_lt _ _ _ _ _ _ _ _ _ _ B Hp) as Hpl. pose proof (ev_at_lt _ _ _ _ _ _ _ _ _ _ B Hc) as Hcl. rewrite u32_small by done.
  apply wp_bind, new_delay_ok. set (d := hp_next (w_heap w)). set (w1 := create _ _ w).
  destruct (create_spec w F now rank grp None ClsDelay lat 0 (-1) mnd (Datatypes.S (rank p)) (grp c) B) as (B1&Fr1&A1&_); [lia|unfold two32; lia|lia|done|by left|by right| |].
  { intros _ [?|[? ?]]; done. }
  fold d w1 in B1, Fr1, A1. set (r1 := upd rank d _) in *. set (g1 := upd grp d _) in *.
  assert (Hr1 : r1 d = Datatypes.S (rank p) /\ g1 d = grp c) by (unfold r1, g1; by rewrite !upd_eq).
  destruct (A1 p Hpl) as [Erp Egp], (A1 c Hcl) as [Erc Egc]. destruct Hr1 as [Erd Egd].
  destruct (Hp) as (ep&Hep&Hsp&Hclp&_&Hend&_&Hnkp&Hdp), (Hc) as (ec&Hec&_&Hclc&_&_&Hnpc&_).
  assert (Hep1 : hp_events (w_heap w1) !! p = Some ep) by (eapply (fr_same _ _ _ Fr1); [apply not_elem_of_nil|done]).
  assert (Hed1 : hp_events (w_heap w1) !! d = Some (fresh_ev ClsDelay lat 0 (-1) mnd)) by apply lookup_insert_eq.
  assert (Hpd : p <> d) by (unfold d; lia). assert (Hcd : c <> d) by (unfold d; lia).
  apply wp_bind. eapply (link_raw w1 (d :: F) now r1 g1 p d ep); [done|done|exact Hed1|done|apply list_elem_of_here|done|done|done|cbn; unfold two32; lia|lia|rewrite Erd, Erp; lia| |].
  { intros x Hx. rewrite Egd in Hx. rewrite Egp. exact (Hg x Hx). }
  intros w2 B2 Fr2 HE2. apply wp_bind.
  assert (Hec2 : hp_events (w_heap w2) !! c = Some ec).
  { eapply (fr_same _ _ _ Fr2); [set_solver|]. eapply (fr_same _ _ _ Fr1); [apply not_elem_of_nil|done]. }
  assert (Hed2 : hp_events (w_heap w2) !! d = Some (parent (domain (w_tc w)) (fresh_ev ClsDelay lat 0 (-1) mnd))) by apply lookup_insert_eq.
  eapply (link_raw w2 (d :: F) now r1 g1 d c); [exact B2|exact Hed2|exact Hec2|done|by apply elem_of_cons; right|by left|done|done|unfold two32 in *; lia|cbn; unfold two32; lia|rewrite Erd, Erc; lia| |].
  { intros x Hx. left. rewrite Egd. by rewrite <- Egc. }
  intros w3 B3 Fr3 HE3. apply wp_ret.
  assert (Hin1 : (p, d) ∈ edges (hp_events (w_heap w3))) by (rewrite HE3, HE2; set_solver).
  assert (Hin2 : (d, c) ∈ edges (hp_events (w_heap w3))) by (rewrite HE3; set_solver).
  assert (Hed3 : exists e, hp_events (w_heap w3) !! d = Some e /\ ev_end e = mnd + lat /\ ev_minStartCycle e = mnd /\ ev_class e = ClsDelay /\ ev_domain e = domain (w_tc w)).
  { exists (kid c (parent (domain (w_tc w)) (fresh_ev ClsDelay lat 0 (-1) mnd))). split; [cbn; by rewrite lookup_insert_ne, lookup_insert_eq|].
    destruct (kid_fields c (parent (domain (w_tc w)) (fresh_ev ClsDelay lat 0 (-1) mnd))) as (E1&_&_&E4&E5&_&E7&E8).
    unfold ev_end. rewrite E1, E4, E5, E7, E8. cbn. repeat split; lia. }
  assert (Hpat : ev_at w3 p mp edp npp (nkp + 1)).
  { eapply Fr_ev_at; [exact Fr3|set_solver|]. apply (linked_at w1 p d ep (fresh_ev ClsDelay lat 0 (-1) mnd) mp edp npp nkp 0 0 0 0 (d :: F) now); [by eapply b_gi|done|done|exact Hed1|lia|].
    by eapply Fr_ev_at; [exact Fr1|apply not_elem_of_nil|]. }
  assert (Hcat : ev_at w3 c mc edc (npc + 1) nkc).
  { apply (linked_at w2 d c _ ec 0 0 0 0 mc edc npc nkc (d :: F) now (b_gi _ _ _ _ _ B2)); [done|exact Hed2|done|cbn; unfold two32; lia|].
    eapply Fr_ev_at; [exact Fr2|set_solver|]. by eapply Fr_ev_at; [exact Fr1|apply not_elem_of_nil|]. }
  destruct Hed3 as (ed&Hed&Eend&Emin&Edc&Edd). destruct (Hpat) as (ep3&Hep3&_&_&_&Eep&_).
  eapply (HQ w3 r1 g1); [| |exact A1|done|done|done|exists d, ed; split; [done|]; split; [done|lia]|].
  - pose proof (GI_settle _ _ _ _ _ (b_gi _ _ _ _ _ B3) Hed) as GS. destruct (B3). split; try done.
    + apply GS; [|right; exists p, ep3; split; [done|]; split; [done|lia]].
      rewrite (proj1 (g_np _ _ _ _ b_gi0 _ _ Hed)), app_nil_r. apply cntp_pos. by exists p.
    + intros x e He. destruct (b_dom0 _ _ He) as [?|([->|Hx]%elem_of_cons&?&?)]; [by left|simplify_eq; by left|by right].
  - apply (Fr_drop w w3 [p; d; c]).
    + eapply Fr_trans; [by eapply Fr_mono; [exact Fr1|set_solver]|]. eapply Fr_trans; [by eapply Fr_mono; [exact Fr2|set_solver]|].
      by eapply Fr_mono; [exact Fr3|set_solver].
    + intros x e He Hx. assert (x <> d) by (intros ->; pose proof (Fr_lt _ _ _ _ _ B _ _ He); unfold d in *; lia). set_solver.
  - eapply path_cons; [exact Hin1|]. by apply path_edge.
Qed.

(** The event of a record of the memory. *)
Definition rec_event (w : W Outcome) (rank : nat -> nat) (grp : nat -> option nat) (s e : nat) (st en : Z)
    (tr : TimingRecord) (m : nat) : Prop :=
  tr_startEvent tr = Some m /\ tr_endEvent tr = Some m /\ st <= tr_reqCycle tr <= tr_respCycle tr /\ tr_respCycle tr <= en /\
  ev_at w m (tr_reqCycle tr) (tr_respCycle tr) 0 0 /\ m <> e /\ m <> s /\
  (Datatypes.S (rank s) < rank m)%nat /\ (Datatypes.S (rank m) < rank e)%nat /\ hgrp w grp s m /\ hgrp w grp m e.
Definition floats (ro : option (TimingRecord * nat)) : list nat := match ro with Some (_, m) => [m] | None => [] end.

Lemma hgrp_agree w w' n rank rank' grp grp' p c : hgrp w grp p c -> agree n rank rank' grp grp' -> (p < n)%nat -> (c < n)%nat ->
  w_kinds w' = w_kinds w -> hgrp w' grp' p c.
Proof. intros H A Hp Hc Ek x. rewrite (proj2 (A c Hc)), (proj2 (A p Hp)), Ek. apply H. Qed.

Lemma connect_spec w F now rank grp ro s e st en ms nps nks me ede npe nke (Q : unit -> W Outcome -> Prop) :
  BI w (floats ro ++ F) now rank grp ->
  ev_at w s ms st nps nks -> ev_at w e me ede npe nke -> s <> e -> e ∈ F -> npe < 99 -> nks < two32 - 1 ->
  0 <= st <= en -> en - st < two32 -> en < BIG -> (Datatypes.S (rank s) < rank e)%nat -> hgrp w grp s e ->
  (forall tr m, ro = Some (tr, m) -> rec_event w rank grp s e st en tr m) ->
  (forall w' rank' grp', BI w' F now rank' grp' -> Fr w w' (s :: e :: floats ro) -> agree (hp_next (w_heap w)) rank rank' grp grp' -> w_kinds w' = w_kinds w ->
    ev_at w' s ms st nps (nks + 1) -> ev_at w' e me ede (npe + 1) nke -> late w' e en -> path (hp_events (w_heap w')) s e -> Q tt w') ->
  wp (connect (fst <$> ro) s e st en) Q w.
Proof.
  intros B Hs He Hne HF Hnp Hnk Hst Hlen Hen Hr Hg Hro HQ. unfold connect. apply wp_bind, wp_assert; [apply Z.leb_le; lia|].
  destruct ro as [[tr m]|]; cbn [fmap option_fmap option_map fst floats app] in *.
  2: { rewrite u64_small by (unfold two64, BIG in *; lia). eapply link_after_spec; [done..|lia|lia|lia|lia|lia|done|done|].
       intros w' rank' grp' B' Fr' A' Ek H1 H2 HL HP. replace (st + (en - st)) with en in HL by lia. by apply (HQ w' rank' grp'). }
  destruct (Hro tr m eq_refl) as (Es&Ee&Hrq&Hrs&Hm&Hme&Hms&Hr1&Hr2&Hg1&Hg2).
  pose proof (ev_at_lt _ _ _ _ _ _ _ _ _ _ B Hs) as Ls. pose proof (ev_at_lt _ _ _ _ _ _ _ _ _ _ B He) as Le. pose proof (ev_at_lt _ _ _ _ _ _ _ _ _ _ B Hm) as Lm.
  apply wp_bind, wp_assert; [apply Z.leb_le; lia|]. apply wp_bind, wp_assert; [apply Z.leb_le; lia|].
  unfold the_event. rewrite Es, Ee. apply wp_bind. apply wp_lift. cbn [from_opt rwp].
  rewrite (u64_small (tr_reqCycle tr - st)), (u64_small (en - tr_respCycle tr)) by (unfold two64, BIG in *; lia).
  apply wp_bind. eapply (link_after_spec w (m :: F) now rank grp s m); [done|done|exact Hm|done|apply list_elem_of_here|lia|lia|lia|lia|lia|done|done|].
  intros w1 rank1 grp1 B1 Fr1 A1 Ek1 Hs1 Hm1 HL1 HP1. apply wp_bind, wp_lift. cbn [from_opt rwp].
  assert (B1' : BI w1 F now rank1 grp1) by (eapply (BI_settle _ _ _ m); [done|done|exact Hm1|exact HL1|lia]).
  pose proof (fr_next _ _ _ Fr1) as Hn1.
  eapply (link_after_spec w1 F now rank1 grp1 m e); [done|exact Hm1|eapply Fr_ev_at; [exact Fr1|set_solver|exact He]|done|done|lia|unfold two32; lia|lia|lia|lia| | |].
  { rewrite (proj1 (A1 m Lm)), (proj1 (A1 e Le)). done. }
  { by eapply hgrp_agree. }
  intros w2 rank2 grp2 B2 Fr2 A2 Ek2 Hm2 He2 HL2 HP2. apply (HQ w2 rank2 grp2).
  - done.
  - eapply Fr_trans; [by eapply Fr_mono; [exact Fr1|set_solver]|by eapply Fr_mono; [exact Fr2|set_solver]].
  - by eapply agree_trans.
  - congruence.
  - eapply Fr_ev_at; [exact Fr2|set_solver|done].
  - done.
  - destruct HL2 as (q&eq&?&?&?). exists q, eq. repeat (split; [done|]). lia.
  - eapply path_trans; [by eapply Fr_path|done].
Qed.

(** ** The replacement path *)
(** Only replacement accesses and events without fields of their own were added. *)
Definition plain (w w' : W Outcome) : Prop := forall y k, (hp_next (w_heap w) <= y)%nat -> w_kinds w' !! y = Some k -> exists n, k = ReplAccessEvent n.
Lemma plain_trans w1 w2 w3 L : plain w1 w2 -> plain w2 w3 -> Fr w2 w3 L -> plain w1 w3.
Proof.
  intros H1 H2 Hf y k Hy Hk. destruct (decide (hp_next (w_heap w2) <= y)%nat); [by eapply H2|]. rewrite (fr_kinds _ _ _ Hf) in Hk by lia. by eapply H1.
Qed.
Lemma plain_same w w' F now rank grp : BI w F now rank grp -> w_kinds w' = w_kinds w -> plain w w'.
Proof. intros B E y k Hy Hk. rewrite E in Hk. pose proof (b_next _ _ _ _ _ B y ltac:(by eexists)). lia. Qed.

(** The event [p] is the start of the miss whose writeback is [x], or belongs to the miss. *)
Definition of_miss (w : W Outcome) (grp : nat -> option nat) (x p : nat) : Prop := grp p = Some x \/ w_kinds w !! x = Some (MissWritebackEvent p).

(** A replacement access after [p]. *)
Lemma repl_link {A} w F now rank grp x p n pre post req mp edp npp nkp (K : nat -> M (W Outcome) A) (Q : A -> W Outcome -> Prop) : BI w F now rank grp ->
  ev_at w p mp edp npp nkp -> req <= edp -> nkp < two32 - 1 -> of_miss w grp x p -> (x < hp_next (w_heap w))%nat ->
  1 <= n < two32 -> 0 <= pre < two32 -> 0 <= post < two32 -> 0 <= req < 2 ^ 62 ->
  (forall w' rank' grp' q, BI w' F now rank' grp' -> Fr w w' [p] -> agree (hp_next (w_heap w)) rank rank' grp grp' -> plain w w' ->
    ev_at w' p mp edp npp (nkp + 1) -> ev_at w' q req (req + pre + post) 1 0 -> (hp_next (w_heap w) <= q)%nat -> rank' q = Datatypes.S (rank p) -> of_miss w' grp' x q ->
    wp (K q) Q w') ->
  wp (q ← new_event (ReplAccessEvent n) pre post req; link p q;; K q) Q w.
Proof.
  intros B Hp Hreq Hnk Ho Hx Hn Hpre Hpost Hr HQ. pose proof (ev_at_lt _ _ _ _ _ _ _ _ _ _ B Hp) as Lp. apply wp_bind, new_event_ok.
  set (q := hp_next (w_heap w)) in *. set (w1 := create _ _ w).
  destruct (create_spec w F now rank grp (Some (ReplAccessEvent n)) ClsTiming pre post (domain (w_tc w)) req (Datatypes.S (rank p)) (Some x) B) as (B1&Fr1&A1&H1);
    [done|done|unfold BIG; lia|done|done|by left|by intros _ [?|[? ?]]|]. specialize (H1 ltac:(done) eq_refl). fold q w1 in B1, Fr1, A1, H1.
  set (r1 := upd rank q _) in *. set (g1 := upd grp q _) in *. assert (Hq : r1 q = Datatypes.S (rank p) /\ g1 q = Some x) by (unfold r1, g1; by rewrite !upd_eq).
  destruct Hq as [Hq1 Hq2]. assert (Hk1 : forall y, y <> q -> w_kinds w1 !! y = w_kinds w !! y) by (intros y Hy; cbn; by rewrite lookup_insert_ne).
  apply wp_bind. eapply (link_spec w1 (q :: F) now r1 g1 p q); [done|eapply Fr_ev_at; [exact Fr1|apply not_elem_of_nil|exact Hp]|exact H1|unfold q; lia|apply list_elem_of_here|lia|done| | |].
  { rewrite Hq1, (proj1 (A1 p Lp)). lia. }
  { intros y. rewrite Hq2. intros [= <-]. rewrite (proj2 (A1 p Lp)), Hk1 by lia. exact Ho. }
  intros w2 B2 Fr2 Ek2 Hp2 Hq3 HL2 HP2.
  apply (HQ w2 r1 g1 q).
  - eapply (BI_settle w2 (q :: F) F q); [done|done|exact Hq3|exact HL2|lia].
  - apply (Fr_drop w w2 [p; q]); [eapply Fr_trans; [by eapply Fr_mono; [exact Fr1|set_solver]|exact Fr2]|].
    intros y e He Hy. assert (y <> q) by (intros ->; pose proof (Fr_lt _ _ _ _ _ B _ _ He); unfold q in *; lia). set_solver.
  - exact A1.
  - intros y k Hy Hk. rewrite Ek2 in Hk. destruct (decide (y = q)) as [->|Hyq]; [cbn in Hk; rewrite lookup_insert_eq in Hk; simplify_eq; by eexists|].
    rewrite Hk1 in Hk by done. pose proof (b_next _ _ _ _ _ B y ltac:(by eexists)). lia.
  - done.
  - done.
  - done.
  - done.
  - by left.
Qed.

Lemma of_miss_agree w w' n rank rank' grp grp' x p L : of_miss w grp x p -> agree n rank rank' grp grp' -> (p < n)%nat ->
  (x < hp_next (w_heap w))%nat -> Fr w w' L -> of_miss w' grp' x p.
Proof. intros [H|H] A Hp Hx Hf; [left; by rewrite (proj2 (A p Hp))|right; by rewrite (fr_kinds _ _ _ Hf)]. Qed.

(** The loop ends after at most [rl] events: the accesses of a round never come to 0, since
    the rounds grow and the last one is cut. *)
Lemma repl_loop_spec now rl x req fuel : 0 <= rl < 2 ^ 31 -> 0 <= req < 2 ^ 62 -> forall fringe sofar p w F rank grp mp edp npp nkp (Q : nat -> W Outcome -> Prop),
  BI w F now rank grp -> ev_at w p mp edp npp nkp -> req <= edp -> nkp < 100 -> of_miss w grp x p -> (x < hp_next (w_heap w))%nat ->
  0 <= sofar <= rl -> rl - sofar <= Z.of_nat fuel -> (sofar = rl \/ 1 <= fringe < two32) -> rl * (ways (w_tc w) - 1) < two32 ->
  (forall w' rank' grp' q mq edq npq nkq, BI w' F now rank' grp' -> Fr w w' [p] -> agree (hp_next (w_heap w)) rank rank' grp grp' -> plain w w' ->
    ev_at w' p mp edp npp (nkp + 1) -> ev_at w' q mq edq npq nkq -> nkq < 100 -> req <= edq -> q <> x -> (rank' q <= rank p + Z.to_nat (rl - sofar))%nat ->
    of_miss w' grp' x q -> (q = p /\ sofar = rl \/ (hp_next (w_heap w) <= q)%nat) -> Q q w') -> p <> x ->
  wp (repl_loop fuel rl fringe sofar req p) Q w.
Proof.
  intros Hrl Hreq. induction fuel as [|fuel IH]; intros fringe sofar p w F rank grp mp edp npp nkp Q B Hp Hr Hnk Ho Hx Hs Hf Hfr Hw HQ Hpx.
  all: cbn [repl_loop]; destruct (Z.ltb_spec sofar rl) as [Hlt|Hge]; [|apply wp_ret; eapply (HQ w rank grp p mp edp npp nkp);
    [done|by apply Fr_refl; eapply Fr_lt|by intros y _|by eapply plain_same|by eapply ev_at_mono; [exact Hp|lia|lia]|done|done|done|done|lia|done|left; split; [done|lia]]].
  { lia. }
  destruct Hfr as [?|Hfr]; [lia|]. apply wp_bind, wp_get. pose proof (b_cfg _ _ _ _ _ B) as [_ _ _ Hways _ Htag].
  assert (Hpost : 0 <= tagLat (w_tc w) - Z.min (tagLat (w_tc w) - 1) fringe < two32) by (unfold two32 in *; lia).
  rewrite (u32_small (tagLat (w_tc w) - 1)) by (unfold two32; lia). rewrite !MIN_min.
  rewrite (u32_small (tagLat (w_tc w) - _)) by done. rewrite (u32_small (rl - sofar)), (u32_small (ways (w_tc w) - 1)) by (unfold two32; lia).
  set (accs := Z.min fringe (rl - sofar)). assert (Hacc : 1 <= accs <= rl - sofar) by (unfold accs; lia).
  rewrite (u32_small (sofar + accs)) by (unfold two32 in *; lia).
  eapply (repl_link w F now rank grp x p); [done|exact Hp|done|unfold two32; lia|done|done|unfold two32; lia|destruct (negb _); unfold two32; lia|done|done|].
  intros w1 rank1 grp1 q B1 Fr1 A1 Pl1 Hp1 Hq1 Lq Rq Oq. pose proof (fr_next _ _ _ Fr1) as Hn1.
  eapply (IH _ _ q w1 F rank1 grp1); [done|exact Hq1|destruct (negb _); lia|lia|done|lia|lia|lia| |by rewrite (fr_tc _ _ _ Fr1)| |lia].
  - destruct (decide (fringe * (ways (w_tc w) - 1) < two32)) as [Hlt2|Hge2].
    + right. rewrite u32_small by nia. nia.
    + left. unfold accs. enough (rl <= fringe) by lia. nia.
  - intros w2 rank2 grp2 q2 mq edq npq nkq B2 Fr2 A2 Pl2 Hq2 Hq3 Hk3 He3 Hx3 R3 O3 L3.
    apply (HQ w2 rank2 grp2 q2 mq edq npq nkq); try done.
    + apply (Fr_drop w w2 [p; q]); [eapply Fr_trans; [by eapply Fr_mono; [exact Fr1|set_solver]|by eapply Fr_mono; [exact Fr2|set_solver]]|].
      intros y e He Hy. assert (y <> q) by (intros ->; pose proof (Fr_lt _ _ _ _ _ B _ _ He); lia). set_solver.
    + by eapply agree_trans.
    + by eapply plain_trans.
    + eapply Fr_ev_at; [exact Fr2| |done]. pose proof (ev_at_lt _ _ _ _ _ _ _ _ _ _ B Hp). apply not_elem_of_cons. split; [lia|apply not_elem_of_nil].
    + rewrite Rq in R3. lia.
    + right. destruct L3 as [[-> _]|?]; lia.
Qed.

Lemma lookups_range c w : 2 <= w < 2 ^ 31 -> w < c < 2 ^ 31 ->
  let rl := u32 (u32 (c + u32 (w - 1)) / w - 1) in 1 <= rl < 2 ^ 31 /\ rl * (w - 1) < two32 /\ rl <= c.
Proof.
  intros Hw Hc. rewrite (u32_small (w - 1)), (u32_small (c + _)) by (unfold two32; lia).
  assert (Hq : w * ((c + (w - 1)) / w) <= c + (w - 1) < w * ((c + (w - 1)) / w) + w).
  { pose proof (Z.div_mod (c + (w - 1)) w ltac:(lia)). pose proof (Z.mod_pos_bound (c + (w - 1)) w ltac:(lia)). lia. }
  set (q := (c + (w - 1)) / w) in *. assert (2 <= q < 2 ^ 31 + 1) by nia. cbn zeta. rewrite u32_small by (unfold two32; lia). unfold two32. split; [nia|]. split; nia.
Qed.

(** Two new events of the replacement path, for the swap of the lines. *)
Lemma new_repl {A} w F now rank grp x pre post req r (K : nat -> M (W Outcome) A) (Q : A -> W Outcome -> Prop) : BI w F now rank grp ->
  0 <= pre < two32 -> 0 <= post < two32 -> 0 <= req < 2 ^ 62 ->
  (forall w' rank' grp' q, BI w' (q :: F) now rank' grp' -> Fr w w' [] -> agree (hp_next (w_heap w)) rank rank' grp grp' -> plain w w' ->
    ev_at w' q req (req + pre + post) 0 0 -> q = hp_next (w_heap w) -> rank' q = r -> grp' q = Some x -> wp (K q) Q w') ->
  wp (q ← new_event (ReplAccessEvent 1) pre post req; K q) Q w.
Proof.
  intros B Hpre Hpost Hr HQ. apply wp_bind, new_event_ok. set (q := hp_next (w_heap w)) in *.
  destruct (create_spec w F now rank grp (Some (ReplAccessEvent 1)) ClsTiming pre post (domain (w_tc w)) req r (Some x) B) as (B1&Fr1&A1&H1);
    [done|done|unfold BIG; lia|done|by split; [|unfold two32; lia]|by left|by intros _ [?|[? ?]]|]. specialize (H1 ltac:(done) eq_refl).
  eapply (HQ _ _ _ q); [exact B1|exact Fr1|exact A1| |exact H1|done|unfold q; by rewrite upd_eq|unfold q; by rewrite upd_eq].
  intros y k Hy Hk. destruct (decide (y = q)) as [->|Hyq]; [cbn in Hk; unfold q in Hk; rewrite lookup_insert_eq in Hk; simplify_eq; by eexists|].
  cbn in Hk. rewrite lookup_insert_ne in Hk by (unfold q in Hyq; congruence). pose proof (b_next _ _ _ _ _ B y ltac:(by eexists)). lia.
Qed.

Lemma repl_events_spec w F now rank grp req mse mwe mp edp npp nkp mw edw npw nkw (Q : unit -> W Outcome -> Prop) : BI w F now rank grp ->
  ev_at w mse mp edp npp nkp -> ev_at w mwe mw edw npw nkw -> mwe ∈ F -> mse <> mwe -> req <= edp -> 0 <= req < 2 ^ 62 -> nkp < 100 -> npw < 99 ->
  w_kinds w !! mwe = Some (MissWritebackEvent mse) -> grp mwe = Some mwe -> ways (w_tc w) < cands (w_tc w) ->
  (rank mse + Z.to_nat (cands (w_tc w)) + 3 < rank mwe)%nat ->
  (forall w' rank' grp', BI w' F now rank' grp' -> Fr w w' [mse; mwe] -> agree (hp_next (w_heap w)) rank rank' grp grp' -> plain w w' ->
    ev_at w' mse mp edp npp (nkp + 1) -> ev_at w' mwe mw edw (npw + 1) nkw -> Q tt w') ->
  wp (repl_events req mse mwe) Q w.
Proof.
  intros B Hs Hw HF Hne Hreq Hr Hnk Hnp Hk Hg Hwc Hrk HQ. pose proof (b_cfg _ _ _ _ _ B) as [_ _ _ Hways Hcands Htag].
  pose proof (ev_at_lt _ _ _ _ _ _ _ _ _ _ B Hs) as Ls. pose proof (ev_at_lt _ _ _ _ _ _ _ _ _ _ B Hw) as Lw.
  unfold repl_events. apply wp_bind, wp_get. destruct (lookups_range (cands (w_tc w)) (ways (w_tc w)) Hways ltac:(lia)) as (Hrl&Hrlw&Hrlc). cbn zeta in Hrl, Hrlw, Hrlc.
  set (rl := u32 (_ / _ - 1)) in *. apply wp_bind, wp_assert; [by rewrite (proj2 (Z.eqb_neq rl 0)) by lia|].
  rewrite (u32_small (ways (w_tc w) - 1)) by (unfold two32; lia). apply wp_bind.
  eapply (repl_loop_spec now rl mwe req (Z.to_nat rl) ltac:(lia) Hr _ _ mse w F rank grp); [done|exact Hs|done|done|by right|done|lia|lia|right; unfold two32; lia|done| |done].
  intros w1 rank1 grp1 p mpp edpp npp' nkp' B1 Fr1 A1 Pl1 Hs1 Hp1 Hkp He1 Hpx R1 O1 Lp0. destruct Lp0 as [[_ ?]|Lp0]; [lia|]. pose proof (fr_next _ _ _ Fr1) as N1.
  pose proof (ev_at_lt _ _ _ _ _ _ _ _ _ _ B1 Hp1) as Lp.
  assert (Hw1 : ev_at w1 mwe mw edw npw nkw) by (eapply Fr_ev_at; [exact Fr1|by apply not_elem_of_cons; split; [|apply not_elem_of_nil]|done]).
  eapply (new_repl w1 F now rank1 grp1 mwe _ _ req (Datatypes.S (rank1 p))); [done|unfold two32; lia|unfold two32; lia|done|].
  intros w2 rank2 grp2 rd B2 Fr2 A2 Pl2 Hrd2 Erd Rrd Grd. pose proof (fr_next _ _ _ Fr2) as N2. pose proof (ev_at_lt _ _ _ _ _ _ _ _ _ _ B2 Hrd2) as Lrd.
  eapply (new_repl w2 (rd :: F) now rank2 grp2 mwe _ _ req (Datatypes.S (Datatypes.S (rank1 p)))); [done|unfold two32; lia|unfold two32; lia|done|].
  intros w3 rank3 grp3 wr B3 Fr3 A3 Pl3 Hwr3 Ewr Rwr Gwr. pose proof (fr_next _ _ _ Fr3) as N3. pose proof (ev_at_lt _ _ _ _ _ _ _ _ _ _ B3 Hwr3) as Lwr.
  assert (A13 : agree (hp_next (w_heap w1)) rank1 rank3 grp1 grp3) by (by eapply agree_trans).
  assert (Hk3 : w_kinds w3 !! mwe = Some (MissWritebackEvent mse)).
  { rewrite (fr_kinds _ _ _ Fr3), (fr_kinds _ _ _ Fr2), (fr_kinds _ _ _ Fr1) by lia. done. }
  assert (Fr13 : Fr w1 w3 []) by (by eapply Fr_trans).
  assert (Hdr : rd <> wr) by lia. assert (Hprd : p <> rd) by lia. assert (Hpwr : p <> wr) by lia.
  assert (Hwrd : mwe <> rd) by lia. assert (Hwwr : mwe <> wr) by lia. assert (Hsrd : mse <> rd) by lia. assert (Hswr : mse <> wr) by lia.
  apply wp_bind. eapply (link_spec w3 _ now rank3 grp3 p rd); [done|eapply Fr_ev_at; [exact Fr13|apply not_elem_of_nil|exact Hp1]|
    eapply Fr_ev_at; [exact Fr3|apply not_elem_of_nil|exact Hrd2]|done|by apply elem_of_cons; right; apply list_elem_of_here|lia|unfold two32; lia| | |].
  { rewrite (proj1 (A3 rd Lrd)), Rrd, (proj1 (A13 p Lp)). lia. }
  { intros y. rewrite (proj2 (A3 rd Lrd)), Grd. intros [= <-]. rewrite (proj2 (A13 p Lp)). destruct O1 as [O1|O1]; [by left|right].
    by rewrite (fr_kinds _ _ _ Fr13) by lia. }
  intros w4 B4 Fr4 Ek4 Hp4 Hrd4 HL4 _. apply wp_bind.
  eapply (link_spec w4 _ now rank3 grp3 rd wr); [done|exact Hrd4|eapply Fr_ev_at; [exact Fr4|set_solver|exact Hwr3]|done|apply list_elem_of_here|lia|unfold two32; lia| | |].
  { rewrite (proj1 (A3 rd Lrd)), Rrd, Rwr. lia. }
  { intros y. rewrite Gwr. intros [= <-]. left. by rewrite (proj2 (A3 rd Lrd)), Grd. }
  intros w5 B5 Fr5 Ek5 Hrd5 Hwr5 HL5 _. apply wp_bind.
  assert (Fr35 : Fr w3 w5 [p; rd; wr]) by (eapply Fr_trans; [by eapply Fr_mono; [exact Fr4|set_solver]|by eapply Fr_mono; [exact Fr5|set_solver]]).
  assert (Hw5 : ev_at w5 mwe mw edw npw nkw).
  { eapply Fr_ev_at; [exact Fr35|set_solver|]. eapply Fr_ev_at; [exact Fr13|apply not_elem_of_nil|exact Hw1]. }
  eapply (link_spec w5 _ now rank3 grp3 wr mwe); [done|exact Hwr5|exact Hw5|done|by apply elem_of_cons; right; apply elem_of_cons; right|lia|unfold two32; lia| | |].
  { rewrite Rwr. rewrite (proj1 (A13 mwe ltac:(lia))), (proj1 (A1 mwe Lw)). lia. }
  { intros y. rewrite (proj2 (A13 mwe ltac:(lia))), (proj2 (A1 mwe Lw)), Hg. intros [= <-]. by left. }
  intros w6 B6 Fr6 Ek6 Hwr6 Hw6 HL6 _. apply wp_ret.
  assert (Fr36 : Fr w3 w6 [p; rd; wr; mwe]) by (eapply Fr_trans; [by eapply Fr_mono; [exact Fr35|set_solver]|by eapply Fr_mono; [exact Fr6|set_solver]]).
  assert (Hrd6 : ev_at w6 rd req (req + tagLat (w_tc w) + tagLat (w_tc w)) (0 + 1) (0 + 1)) by (eapply Fr_ev_at; [exact Fr6|set_solver|exact Hrd5]).
  assert (HL6r : late w6 rd edpp) by (eapply Fr_late; [exact Fr6|eapply Fr_late; [exact Fr5|exact HL4]]). assert (HL6w : late w6 wr (req + tagLat (w_tc w) + tagLat (w_tc w))) by (eapply Fr_late; [exact Fr6|exact HL5]).
  apply (HQ w6 rank3 grp3).
  - eapply (BI_settle w6 (rd :: F) F rd); [|done|exact Hrd6|exact HL6r|lia]. eapply (BI_settle w6 (wr :: rd :: F) _ wr); [done|done|exact Hwr6|exact HL6w|lia].
  - apply (Fr_drop w w6 [mse; p; rd; wr; mwe]).
    + eapply Fr_trans; [by eapply Fr_mono; [exact Fr1|set_solver]|]. eapply Fr_trans; [by eapply Fr_mono; [exact Fr13|set_solver]|].
      by eapply Fr_mono; [exact Fr36|set_solver].
    + intros y e He Hy. pose proof (Fr_lt _ _ _ _ _ B _ _ He).
      assert (y <> p /\ y <> rd /\ y <> wr) as (?&?&?) by lia. set_solver.
  - eapply agree_trans; [exact A1|exact A13|lia].
  - assert (Pl36 : plain w3 w6) by (eapply plain_same; [exact B3|congruence]).
    eapply plain_trans; [exact Pl1| |apply (Fr_trans _ w3 _ [p; rd; wr; mwe]); [by eapply Fr_mono; [exact Fr13|set_solver]|exact Fr36]].
    eapply plain_trans; [exact Pl2| |apply (Fr_trans _ w3 _ [p; rd; wr; mwe]); [by eapply Fr_mono; [exact Fr3|set_solver]|exact Fr36]].
    by eapply plain_trans.
  - eapply Fr_ev_at; [exact Fr36| |eapply Fr_ev_at; [exact Fr13|apply not_elem_of_nil|exact Hs1]].
    rewrite !not_elem_of_cons. repeat split; [lia|done|done|done|apply not_elem_of_nil].
  - done.
Qed.
End TCB.
