(* ===== verification/TimingCacheMiss.v ===== *)
(** * The events of a miss *)

From S2P Require Import Prelude Bithacks MemHier TimingEvent CoreRecorder EventTree TimingCache TimingCachePort TimingCacheDag TimingCacheInv TimingCacheBuild.
Import TCache TCP TCD TCI TCB.

Module TCM.

(** An event without edges may take any place in the order. *)
Lemma BI_ghost w F now rank grp p r g mn ed nk : BI w F now rank grp -> ev_at w p mn ed 0 nk -> nk <= 0 -> w_kinds w !! p = None ->
  BI w F now (upd rank p r) (upd grp p g).
Proof.
  intros B (e&He&Hs&_&_&_&Hnp&Hnk&_) H0 Hk. pose proof (b_gi _ _ _ _ _ B) as G.
  assert (Hno : forall q c, (q, c) ∈ edges (hp_events (w_heap w)) -> q <> p /\ c <> p).
  { intros q c Hin. split; intros ->.
    - destruct (proj1 (elem_edges _ _ _) Hin) as (e'&He'&_&Hc). simplify_eq. pose proof (g_wf _ _ _ _ G _ _ He) as (_&_&_&_&_&Hsh&_).
      destruct (chl e) as [|y l]; [by apply elem_of_nil in Hc|]. cbn in Hsh. lia.
    - assert (0 < cntp p (edges (hp_events (w_heap w)))) by (apply cntp_pos; by exists q).
      destruct (g_np _ _ _ _ G _ _ He) as [E _]. rewrite app_nil_r in E. lia. }
  destruct B. split; try done.
  - intros q c Hin. destruct (Hno _ _ Hin). rewrite !upd_ne by done. by apply b_rank0.
  - intros q c x Hin. destruct (Hno _ _ Hin). rewrite !upd_ne by done. by apply b_grp0.
  - intros q x Hl. destruct (decide (p = q)) as [<-|Hne]; [intros _; rewrite Hk; by intros [?|[? ?]]|]. rewrite upd_ne by done. by apply b_member0.
Qed.

(** The records that the levels above left, from the cycle [st] of the lookup to [en]. *)
Definition rec_ok (w : W Outcome) (st en : Z) (ro : option (TimingRecord * nat)) : Prop :=
  forall tr m, ro = Some (tr, m) -> tr_startEvent tr = Some m /\ tr_endEvent tr = Some m /\ st <= tr_reqCycle tr <= tr_respCycle tr /\
    tr_respCycle tr <= en /\ ev_at w m (tr_reqCycle tr) (tr_respCycle tr) 0 0 /\ w_kinds w !! m = None.

Definition pre0 (w : W Outcome) (p : nat) : Prop := exists e, hp_events (w_heap w) !! p = Some e /\ ev_preDelay e = 0.
Lemma Fr_pre0 w w' L p : Fr w w' L -> pre0 w p -> pre0 w' p.
Proof. intros Hf (e&He&E). destruct (fr_stat _ _ _ Hf _ _ He) as (e'&He'&_&_&_&_&E'). exists e'. split; [done|congruence]. Qed.

(** The three events of a miss. *)
Lemma new_kind {A} w F now rank grp k pre post mn r g (K : nat -> M (W Outcome) A) (Q : A -> W Outcome -> Prop) : BI w F now rank grp ->
  0 <= pre < two32 -> 0 <= post < two32 -> 0 <= mn < BIG -> (forall n, k <> ReplAccessEvent n) -> (is_Some g -> ~ is_start (Some k)) ->
  (forall w' rank' grp' q, BI w' (q :: F) now rank' grp' -> Fr w w' [] -> agree (hp_next (w_heap w)) rank rank' grp grp' ->
    w_kinds w' = <[q := k]> (w_kinds w) -> hp_next (w_heap w') = Datatypes.S q ->
    ev_at w' q mn (mn + pre + post) 0 0 -> q = hp_next (w_heap w) -> rank' q = r -> grp' q = g -> (pre = 0 -> pre0 w' q) -> wp (K q) Q w') ->
  wp (q ← new_event k pre post mn; K q) Q w.
Proof.
  intros B Hpre Hpost Hr Hk Hg HQ. apply wp_bind, new_event_ok. set (q := hp_next (w_heap w)) in *.
  destruct (create_spec w F now rank grp (Some k) ClsTiming pre post (domain (w_tc w)) mn r g B) as (B1&Fr1&A1&H1); [done..| |by left|done|].
  { destruct k; try done. by destruct (Hk accsLeft). }
  specialize (H1 ltac:(done) eq_refl).
  eapply (HQ _ _ _ q); [exact B1|exact Fr1|exact A1|done|done|exact H1|done|unfold q; by rewrite upd_eq|unfold q; by rewrite upd_eq|].
  intros ->. eexists. split; [apply lookup_insert_eq|done].
Qed.

(** Every memory event of the access takes its place between the start of the miss and its end. *)
Lemma floats_ghost w F now rank grp ro r g st en : BI w F now rank grp -> rec_ok w st en ro ->
  exists rank' grp', BI w F now rank' grp' /\ (forall x, x ∉ floats ro -> rank' x = rank x /\ grp' x = grp x) /\
    (forall tr m, ro = Some (tr, m) -> rank' m = r /\ grp' m = g).
Proof.
  intros B HR. destruct ro as [[tr m]|]; [|exists rank, grp; split; [done|]; split; [done|done]].
  destruct (HR tr m eq_refl) as (_&_&_&_&Hm&Hk). exists (upd rank m r), (upd grp m g). split; [by eapply BI_ghost|]. split.
  - intros x Hx. cbn in Hx. by rewrite !upd_ne by (intros ->; apply Hx, list_elem_of_here).
  - intros tr' m' [= <- <-]. by rewrite !upd_eq.
Qed.

Lemma rec_ok_Fr w w' L st en ro : rec_ok w st en ro -> Fr w w' L -> (forall x, x ∈ floats ro -> x ∉ L /\ (x < hp_next (w_heap w))%nat) -> rec_ok w' st en ro.
Proof.
  intros HR Hf HL tr m ->. destruct (HR tr m eq_refl) as (?&?&?&?&?&?). destruct (HL m ltac:(apply list_elem_of_here)) as [Hm1 Hm2].
  repeat (split; [done|]). split; [by eapply Fr_ev_at|]. by rewrite (fr_kinds _ _ _ Hf).
Qed.

(** ** Linking the events of a miss *)
Section Links.
Context (F : list nat) (now : Z) (acco wbo : option (TimingRecord * nat)) (req gdc evd st : Z) (mse mre mwe : nat) (r0 : nat).
Let lks : list nat := mse :: mre :: mwe :: floats acco ++ floats wbo.

(** The state when the three events exist. *)
Record Ready (w : W Outcome) (rank : nat -> nat) (grp : nat -> option nat) (ed : Z) : Prop := {
  rd_bi : BI w (floats acco ++ mwe :: mre :: mse :: floats wbo ++ F) now rank grp;
  rd_mse : ev_at w mse req st 0 0 /\ rank mse = r0 /\ grp mse = None;
  rd_mre : ev_at w mre gdc gdc 0 0 /\ rank mre = (r0 + 8)%nat /\ grp mre = Some mwe;
  rd_mwe : ev_at w mwe (MAX evd gdc) ed 0 0 /\ rank mwe = (r0 + Z.to_nat (cands (w_tc w)) + 20)%nat /\ grp mwe = Some mwe;
  rd_kind : w_kinds w !! mwe = Some (MissWritebackEvent mse);
  rd_ne : mse <> mre /\ mse <> mwe /\ mre <> mwe /\ (forall x, x ∈ floats acco \/ x ∈ floats wbo -> x <> mse /\ x <> mre /\ x <> mwe) /\ (forall x, x ∈ floats acco -> x ∉ floats wbo);
  rd_acc : rec_ok w st gdc acco /\ (forall tr m, acco = Some (tr, m) -> rank m = (r0 + 3)%nat /\ grp m = Some mwe);
  rd_wb : rec_ok w st evd wbo /\ (forall tr m, wbo = Some (tr, m) -> rank m = (r0 + 3)%nat /\ grp m = Some mwe) }.

Context (Hreq : 0 < req <= st) (Hreq2 : req < 2 ^ 61) (Hgdc : st <= gdc < st + two32) (Hevd : evd = 0 /\ wbo = None \/ st <= evd < st + two32) (Hst : st < 2 ^ 62).

(** The fetch: its response, and the writeback after it. *)
Lemma get_path w rank grp ed (Q : nat -> W Outcome -> Prop) : Ready w rank grp ed ->
  (forall w' rank' grp', BI w' (mwe :: mse :: floats wbo ++ F) now rank' grp' -> Fr w w' lks -> agree (hp_next (w_heap w)) rank rank' grp grp' -> w_kinds w' = w_kinds w ->
    ev_at w' mse req st 0 1 -> ev_at w' mre gdc gdc 1 1 -> ev_at w' mwe (MAX evd gdc) ed 1 0 -> late w' mwe gdc -> rec_ok w' st evd wbo ->
    path (hp_events (w_heap w')) mse mre -> path (hp_events (w_heap w')) mse mwe -> Q mwe w') ->
  wp (connect (fst <$> acco) mse mre st gdc;; link mre mwe) Q w.
Proof.
  intros [B (Hs&Rs&Gs) (Hr&Rr&Gr) (Hw&Rw&Gw) K (N1&N2&N3&N4&N5) (Ra&Ga) (Rwb&Gwb)] HQ.
  pose proof (ev_at_lt _ _ _ _ _ _ _ _ _ _ B Hs) as Ls. pose proof (ev_at_lt _ _ _ _ _ _ _ _ _ _ B Hr) as Lr. pose proof (ev_at_lt _ _ _ _ _ _ _ _ _ _ B Hw) as Lw.
  assert (HG : forall x, grp x = Some mwe -> hgrp w grp mse x) by (intros x Hx y; rewrite Hx; intros [= <-]; by right).
  apply wp_bind. eapply (connect_spec w _ now rank grp acco mse mre st gdc); [exact B|exact Hs|exact Hr|done|by apply elem_of_cons; right; apply list_elem_of_here|lia|unfold two32; lia|lia|lia|unfold BIG, two32 in *; lia|lia|by apply HG| |].
  { intros tr m E. destruct (Ra _ _ E) as (?&?&?&?&?&_), (Ga _ _ E) as [Rm Gm]. destruct (N4 m) as (?&?&_); [left; rewrite E; apply list_elem_of_here|].
    repeat (split; [done|]). split; [lia|]. split; [lia|]. split; [by apply HG|]. intros y. rewrite Gr, Gm. by left. }
  intros w1 rank1 grp1 B1 Fr1 A1 K1 Hs1 Hr1 HL1 HP1.
  assert (Hw1 : ev_at w1 mwe (MAX evd gdc) ed 0 0).
  { eapply Fr_ev_at; [exact Fr1| |exact Hw]. rewrite !not_elem_of_cons. split; [done|]. split; [done|]. intros Hin. by destruct (N4 mwe ltac:(by left)) as (_&_&?). }
  assert (B1' : BI w1 (mwe :: mse :: floats wbo ++ F) now rank1 grp1).
  { eapply (BI_settle _ _ _ mre); [exact B1|apply Permutation_swap|exact Hr1|exact HL1|lia]. }
  eapply (link_spec w1 _ now rank1 grp1 mre mwe); [exact B1'|exact Hr1|exact Hw1|done|apply list_elem_of_here|lia|unfold two32; lia| | |].
  { rewrite (proj1 (A1 mre Lr)), (proj1 (A1 mwe Lw)). lia. }
  { intros y. rewrite (proj2 (A1 mre Lr)), (proj2 (A1 mwe Lw)), Gr, Gw. by left. }
  intros w2 B2 Fr2 K2 Hr2 Hw2 HL2 HP2.
  assert (Fr02 : Fr w w2 lks).
  { apply (Fr_trans _ w1); (eapply Fr_mono; [done|]); unfold lks; intros x; rewrite !elem_of_cons, ?elem_of_app, ?elem_of_nil; tauto. }
  apply (HQ w2 rank1 grp1); [done|done|done|congruence| |done|done|done| |eapply Fr_path; [exact Fr2|exact HP1]|].
  - eapply Fr_ev_at; [exact Fr2| |exact Hs1]. rewrite !not_elem_of_cons. split; [done|]. split; [done|apply not_elem_of_nil].
  - eapply (rec_ok_Fr w w2 (mse :: mre :: mwe :: floats acco)); [done| |].
    + apply (Fr_trans _ w1); (eapply Fr_mono; [done|]); intros x; rewrite !elem_of_cons, ?elem_of_nil; tauto.
    + intros x Hx. destruct (N4 x ltac:(by right)) as (?&?&?). split; [rewrite !not_elem_of_cons; repeat (split; [done|]); intros Ha; by apply (N5 x Ha)|].
      destruct wbo as [[tr m]|]; [|by apply elem_of_nil in Hx]. apply list_elem_of_singleton in Hx as ->.
      destruct (Rwb tr m eq_refl) as (_&_&_&_&Hm&_). by eapply ev_at_lt.
  - eapply path_trans; [eapply Fr_path; [exact Fr2|exact HP1]|done].
Qed.

(** The eviction and the replacement, then the writeback may start. *)
Lemma miss_links w rank grp ed (Q : nat * nat -> W Outcome -> Prop) : Ready w rank grp ed ->
  (forall w' rank' grp', BI w' (mse :: F) now rank' grp' -> Fr w w' lks -> agree (hp_next (w_heap w)) rank rank' grp grp' -> plain w w' ->
    ev_at w' mse req st 0 50 -> ev_at w' mre gdc gdc 50 50 -> path (hp_events (w_heap w')) mse mre -> path (hp_events (w_heap w')) mse mwe -> Q (mse, mre) w') ->
  wp (connect (fst <$> acco) mse mre st gdc;; link mre mwe;;
      (if negb (evd =? 0) then connect (fst <$> wbo) mse mwe st evd else mret tt);;
      (if negb (evd =? 0) && (ways (w_tc w) <? cands (w_tc w)) then repl_events req mse mwe else mret tt);; mret (mse, mre)) Q w.
Proof.
  intros HR HQ. pose proof HR as [B (Hs&Rs&Gs) (Hr&Rr&Gr) (Hw&Rw&Gw) K (N1&N2&N3&N4&N5) (Ra&Ga) (Rwb&Gwb)].
  pose proof (ev_at_lt _ _ _ _ _ _ _ _ _ _ B Hs) as Ls. pose proof (ev_at_lt _ _ _ _ _ _ _ _ _ _ B Hr) as Lr. pose proof (ev_at_lt _ _ _ _ _ _ _ _ _ _ B Hw) as Lw.
  assert (HA : forall (a : M (W Outcome) unit) (b : M (W Outcome) nat) (k : M (W Outcome) (nat * nat)) s, wp (a;; b) (fun _ s' => wp k Q s') s -> wp (a;; b;; k) Q s).
  { intros a b k s. unfold wp, mbind, M_bind. destruct (a s) as [[? s1]|]; [|done]. by destruct (b s1) as [[? s2]|]. }
  apply HA. eapply get_path; [exact HR|]. intros w1 rank1 grp1 B1 Fr1 A1 K1 Hs1 Hr1 Hw1 HL1 Rwb1 HP1 HP2. pose proof (fr_next _ _ _ Fr1) as Nx1.
  assert (HLK : forall x, x ∈ [mse; mwe] ++ floats wbo -> x ∈ lks) by (unfold lks; intros x; rewrite !elem_of_app, !elem_of_cons, !elem_of_app, elem_of_nil; tauto).
  assert (Hnr : mre ∉ [mse; mwe] ++ floats wbo).
  { rewrite not_elem_of_app, !not_elem_of_cons. split; [split; [done|]; split; [done|apply not_elem_of_nil]|]. intros Hin. by destruct (N4 mre ltac:(by right)) as (_&?&_). }
  apply wp_bind, (wp_mono _ (fun _ w2 => exists rank2 grp2 k, BI w2 (mwe :: mse :: F) now rank2 grp2 /\ Fr w1 w2 ([mse; mwe] ++ floats wbo) /\
     agree (hp_next (w_heap w1)) rank1 rank2 grp1 grp2 /\ plain w1 w2 /\ ev_at w2 mse req st 0 2 /\ ev_at w2 mwe (MAX evd gdc) ed 2 0 /\ late w2 mwe k /\ MAX evd gdc <= k)).
  { destruct (Z.eqb_spec evd 0) as [E|E]; cbn [negb].
    - destruct Hevd as [[_ Hwb]|?]; [|lia]. rewrite Hwb in B1. apply wp_ret. exists rank1, grp1, gdc.
      split; [done|]. split; [by apply Fr_refl; eapply Fr_lt|]. split; [by intros x _|]. split; [by eapply plain_same|].
      split; [by eapply ev_at_mono; [exact Hs1|lia|lia]|]. split; [by eapply ev_at_mono; [exact Hw1|lia|lia]|]. split; [done|]. rewrite MAX_max. lia.
    - destruct Hevd as [[? _]|He]; [done|].
      eapply (connect_spec w1 (mwe :: mse :: F) now rank1 grp1 wbo mse mwe st evd); [|exact Hs1|exact Hw1|done|apply list_elem_of_here|lia|unfold two32; lia|lia|lia|unfold BIG, two32 in *; lia| | | |].
      + eapply BI_perm; [exact B1|]. by rewrite <- !Permutation_middle.
      + rewrite (proj1 (A1 mse Ls)), (proj1 (A1 mwe Lw)). lia.
      + intros y. rewrite (proj2 (A1 mse Ls)), (proj2 (A1 mwe Lw)), Gw, K1. intros [= <-]. by right.
      + intros tr m E2. destruct (Rwb _ _ E2) as (_&_&_&_&Hm0&_). destruct (Rwb1 _ _ E2) as (?&?&?&?&?&_), (Gwb _ _ E2) as [Rm Gm].
        pose proof (ev_at_lt _ _ _ _ _ _ _ _ _ _ B Hm0) as Lm. destruct (N4 m) as (?&_&?); [right; rewrite E2; apply list_elem_of_here|].
        repeat (split; [done|]). rewrite (proj1 (A1 mse Ls)), (proj1 (A1 mwe Lw)), (proj1 (A1 m Lm)). split; [lia|]. split; [lia|].
        split; intros y; rewrite ?(proj2 (A1 mse Ls)), ?(proj2 (A1 mwe Lw)), (proj2 (A1 m Lm)), ?Gm, ?Gw, ?K1; [intros [= <-]; by right|by left].
      + intros w2 rank2 grp2 B2 Fr2 A2 K2 Hs2 Hw2 HL2 HP3. exists rank2, grp2, (MAX evd gdc).
        split; [done|]. split; [by eapply Fr_mono; [exact Fr2|done]|]. split; [done|]. split; [by eapply plain_same|].
        split; [by eapply ev_at_mono; [exact Hs2|lia|lia]|]. split; [by eapply ev_at_mono; [exact Hw2|lia|lia]|]. split; [|lia].
        rewrite MAX_max. destruct (Z.max_spec evd gdc) as [[_ ->]|[_ ->]]; [by eapply Fr_late|done]. }
  intros [] w2 (rank2&grp2&k&B2&Fr2&A2&Pl2&Hs2&Hw2&HL2&Hk). pose proof (fr_next _ _ _ Fr2) as Nx2.
  assert (Htc : w_tc w2 = w_tc w) by (by rewrite (fr_tc _ _ _ Fr2), (fr_tc _ _ _ Fr1)).
  apply wp_bind, (wp_mono _ (fun _ w3 => exists rank3 grp3, BI w3 (mwe :: mse :: F) now rank3 grp3 /\ Fr w2 w3 [mse; mwe] /\
     agree (hp_next (w_heap w2)) rank2 rank3 grp2 grp3 /\ plain w2 w3 /\ ev_at w3 mse req st 0 3 /\ ev_at w3 mwe (MAX evd gdc) ed 3 0)).
  { destruct (negb (evd =? 0) && (ways (w_tc w) <? cands (w_tc w))) eqn:E.
    - apply andb_true_iff in E as [_ Hwc%Z.ltb_lt].
      eapply (repl_events_spec w2 (mwe :: mse :: F) now rank2 grp2 req mse mwe); [exact B2|exact Hs2|exact Hw2|apply list_elem_of_here|done|lia|lia|lia|lia| | |by rewrite Htc| |].
      + rewrite (fr_kinds _ _ _ Fr2), K1 by lia. done.
      + by rewrite (proj2 (A2 mwe ltac:(lia))), (proj2 (A1 mwe Lw)).
      + rewrite Htc, (proj1 (A2 mwe ltac:(lia))), (proj1 (A1 mwe Lw)), (proj1 (A2 mse ltac:(lia))), (proj1 (A1 mse Ls)). lia.
      + intros w3 rank3 grp3 B3 Fr3 A3 Pl3 Hs3 Hw3. exists rank3, grp3. by repeat (split; [done|]).
    - apply wp_ret. exists rank2, grp2. split; [done|]. split; [by apply Fr_refl; eapply Fr_lt|]. split; [by intros x _|]. split; [by eapply plain_same|].
      split; [by eapply ev_at_mono; [exact Hs2|lia|lia]|by eapply ev_at_mono; [exact Hw2|lia|lia]]. }
  intros [] w3 (rank3&grp3&B3&Fr3&A3&Pl3&Hs3&Hw3). apply wp_ret.
  assert (Fr23 : Fr w1 w3 ([mse; mwe] ++ floats wbo)).
  { apply (Fr_trans _ w2); [done|]. eapply Fr_mono; [exact Fr3|]. intros x Hx. apply elem_of_app. by left. }
  apply (HQ w3 rank3 grp3).
  - eapply (BI_settle _ _ _ mwe); [exact B3|done|exact Hw3|eapply Fr_late; [exact Fr3|exact HL2]|done].
  - apply (Fr_trans _ w1); [done|]. by eapply Fr_mono; [exact Fr23|].
  - eapply agree_trans; [exact A1|eapply agree_trans; [exact A2|exact A3|lia]|lia].
  - eapply plain_trans; [eapply plain_same; [exact B|exact K1]|eapply plain_trans; [exact Pl2|exact Pl3|exact Fr3]|exact Fr23].
  - by eapply ev_at_mono; [exact Hs3|lia|lia].
  - apply (ev_at_mono _ _ _ _ 1 1); [|lia|lia]. eapply Fr_ev_at; [exact Fr23|done|exact Hr1].
  - eapply Fr_path; [exact Fr23|exact HP1].
  - eapply Fr_path; [exact Fr23|exact HP2].
Qed.
End Links.

(** ** The events of a miss *)
Definition miss_kinds (w' : W Outcome) (n mse mre mwe : nat) : Prop := forall y k, (n <= y)%nat -> w_kinds w' !! y = Some k ->
  (y = mse /\ k = MissStartEvent None) \/ (y = mre /\ k = MissResponseEvent mse) \/ (y = mwe /\ k = MissWritebackEvent mse) \/ exists n, k = ReplAccessEvent n.

Record Missed (w w' : W Outcome) (F L : list nat) (now : Z) (rank rank' : nat -> nat) (grp grp' : nat -> option nat) (req gdc : Z) (r0 : nat) (mse mre mwe : nat) : Prop := {
  ms_bi : BI w' (mse :: F) now rank' grp';
  ms_fr : Fr w w' L;
  ms_agree : forall x, (x < hp_next (w_heap w))%nat -> x ∉ L -> rank' x = rank x /\ grp' x = grp x;
  ms_kinds : miss_kinds w' (hp_next (w_heap w)) mse mre mwe;
  ms_pre : pre0 w' mse;
  ms_mse : ev_at w' mse req (req + accLat (w_tc w)) 0 50 /\ w_kinds w' !! mse = Some (MissStartEvent None) /\ rank' mse = r0 /\ grp' mse = None;
  ms_mre : ev_at w' mre gdc gdc 50 50 /\ w_kinds w' !! mre = Some (MissResponseEvent mse) /\ path (hp_events (w_heap w')) mse mre;
  ms_mwe : w_kinds w' !! mwe = Some (MissWritebackEvent mse) /\ grp' mwe = Some mwe /\ path (hp_events (w_heap w')) mse mwe;
  ms_new : (hp_next (w_heap w) <= mse)%nat /\ (hp_next (w_heap w) <= mre)%nat /\ (hp_next (w_heap w) <= mwe)%nat }.

Section Miss.
Context (w : W Outcome) (F : list nat) (now : Z) (rank : nat -> nat) (grp : nat -> option nat) (wbo acco : option (TimingRecord * nat)) (req gdc evd : Z) (r0 : nat).
Let st : Z := req + accLat (w_tc w).
Context (B : BI w (floats acco ++ floats wbo ++ F) now rank grp) (HRa : rec_ok w st gdc acco) (HRw : rec_ok w st evd wbo)
  (Hdis : forall x, x ∈ floats acco -> x ∉ floats wbo) (Hreq : 0 < req < 2 ^ 61) (Hgdc : st <= gdc < st + two32)
  (Hevd : evd = 0 /\ wbo = None \/ st <= evd < st + two32).

Lemma floats_lt x : x ∈ floats acco \/ x ∈ floats wbo -> (x < hp_next (w_heap w))%nat.
Proof.
  assert (H : forall ro en, rec_ok w st en ro -> x ∈ floats ro -> (x < hp_next (w_heap w))%nat).
  { intros [[tr m]|] en HR Hx; [|by apply elem_of_nil in Hx]. apply list_elem_of_singleton in Hx as ->.
    destruct (HR tr m eq_refl) as (_&_&_&_&Hm&_). by eapply ev_at_lt. }
  intros [Hx|Hx]; [by eapply H; [exact HRa|]|by eapply H; [exact HRw|]].
Qed.

(** The state with the three events, before they are linked. *)
Record Created (w3 : W Outcome) (rank3 : nat -> nat) (grp3 : nat -> option nat) (mse mre mwe : nat) : Prop := {
  cr_ready : exists ed, Ready F now acco wbo req gdc evd st mse mre mwe r0 w3 rank3 grp3 ed;
  cr_fr : Fr w w3 [];
  cr_pre : pre0 w3 mse;
  cr_agree : forall x, (x < hp_next (w_heap w))%nat -> x ∉ floats acco ++ floats wbo -> rank3 x = rank x /\ grp3 x = grp x;
  cr_kinds : w_kinds w3 = <[mwe := MissWritebackEvent mse]> (<[mre := MissResponseEvent mse]> (<[mse := MissStartEvent None]> (w_kinds w)));
  cr_ids : mse = hp_next (w_heap w) /\ mre = Datatypes.S mse /\ mwe = Datatypes.S mre /\ hp_next (w_heap w3) = Datatypes.S mwe }.

Lemma create_miss {A} (K : nat -> nat -> nat -> M (W Outcome) A) (Q : A -> W Outcome -> Prop) :
  (forall w3 rank3 grp3 mse mre mwe, Created w3 rank3 grp3 mse mre mwe -> wp (K mse mre mwe) Q w3) ->
  wp (mse ← new_event (MissStartEvent None) 0 (accLat (w_tc w)) req;
      mre ← new_event (MissResponseEvent mse) 0 0 gdc;
      mwe ← new_event (MissWritebackEvent mse) 0 (accLat (w_tc w)) (MAX evd gdc); K mse mre mwe) Q w.
Proof.
  intros HQ. pose proof (b_cfg _ _ _ _ _ B) as [_ _ Hacc _ Hcands _].
  assert (Hbig : st < BIG /\ gdc < BIG /\ evd < BIG /\ 0 <= st) by (unfold st, BIG, two32 in *; lia). destruct Hbig as (Hb1&Hb2&Hb3&Hb4).
  eapply (new_kind w _ now rank grp (MissStartEvent None) _ _ req r0 None); [done|unfold two32; lia|unfold two32; lia|unfold BIG; lia|done|by intros [? ?]|].
  intros w1 rank1 grp1 mse B1 Fr1 A1 K1 N1 Hs1 Es1 Rs1 Gs1 Ps1.
  eapply (new_kind w1 _ now rank1 grp1 (MissResponseEvent mse) _ _ gdc (r0 + 8) (Some (Datatypes.S (Datatypes.S mse)))); [done|unfold two32; lia|unfold two32; lia|lia|done|by intros _ [?|[? ?]]|].
  intros w2 rank2 grp2 mre B2 Fr2 A2 K2 N2 Hr2 Er2 Rr2 Gr2 _.
  eapply (new_kind w2 _ now rank2 grp2 (MissWritebackEvent mse) _ _ (MAX evd gdc) (r0 + Z.to_nat (cands (w_tc w)) + 20) (Some (Datatypes.S (Datatypes.S mse)))); [done|unfold two32; lia|unfold two32; lia|rewrite MAX_max; lia|done|by intros _ [?|[? ?]]|].
  intros w3 rank3 grp3 mwe B3 Fr3 A3 K3 N3 Hw3 Ew3 Rw3 Gw3 _.
  assert (Emw : Datatypes.S (Datatypes.S mse) = mwe) by lia. rewrite Emw in *.
  assert (Fr03 : Fr w w3 []) by (eapply Fr_trans; [exact Fr1|]; by eapply Fr_trans).
  assert (A03 : agree (hp_next (w_heap w)) rank rank3 grp grp3).
  { eapply agree_trans; [exact A1|eapply agree_trans; [exact A2|exact A3|lia]|lia]. }
  assert (HFl : forall x, x ∈ floats acco \/ x ∈ floats wbo -> (x < hp_next (w_heap w))%nat /\ x <> mse /\ x <> mre /\ x <> mwe).
  { intros x Hx%floats_lt. lia. }
  assert (HRa3 : rec_ok w3 st gdc acco) by (eapply rec_ok_Fr; [done|exact Fr03|]; intros x Hx; split; [apply not_elem_of_nil|by apply HFl; left]).
  assert (HRw3 : rec_ok w3 st evd wbo) by (eapply rec_ok_Fr; [done|exact Fr03|]; intros x Hx; split; [apply not_elem_of_nil|by apply HFl; right]).
  destruct (floats_ghost w3 _ now rank3 grp3 acco (r0 + 3) (Some mwe) st gdc B3 HRa3) as (rank4&grp4&B4&A4&Ga).
  destruct (floats_ghost w3 _ now rank4 grp4 wbo (r0 + 3) (Some mwe) st evd B4 HRw3) as (rank5&grp5&B5&A5&Gw).
  assert (G5 : forall x, x ∉ floats acco -> x ∉ floats wbo -> rank5 x = rank3 x /\ grp5 x = grp3 x) by (intros x H1 H2; destruct (A5 x H2) as [-> ->]; by apply A4).
  assert (Hnf : forall x, x = mse \/ x = mre \/ x = mwe -> rank5 x = rank3 x /\ grp5 x = grp3 x).
  { intros x Hx. apply G5; intros Hin; [destruct (HFl x ltac:(by left))|destruct (HFl x ltac:(by right))]; lia. }
  apply (HQ w3 rank5 grp5 mse mre mwe). split.
  - exists (MAX evd gdc + 0 + accLat (w_tc w)). split.
    + eapply BI_perm; [exact B5|]. rewrite !(Permutation_middle (floats acco)). done.
    + destruct (Hnf mse ltac:(by left)) as [-> ->]. rewrite (proj1 (A3 mse ltac:(lia))), (proj2 (A3 mse ltac:(lia))), (proj1 (A2 mse ltac:(lia))), (proj2 (A2 mse ltac:(lia))).
      split; [|done]. eapply Fr_ev_at; [exact Fr3|apply not_elem_of_nil|]. eapply Fr_ev_at; [exact Fr2|apply not_elem_of_nil|].
      by replace st with (req + 0 + accLat (w_tc w)) by (unfold st; lia).
    + destruct (Hnf mre ltac:(by right; left)) as [-> ->]. rewrite (proj1 (A3 mre ltac:(lia))), (proj2 (A3 mre ltac:(lia))).
      split; [|done]. eapply Fr_ev_at; [exact Fr3|apply not_elem_of_nil|]. by replace (gdc + 0 + 0) with gdc in Hr2 by lia.
    + destruct (Hnf mwe ltac:(by right; right)) as [-> ->]. rewrite (fr_tc _ _ _ Fr03). done.
    + rewrite K3. apply lookup_insert_eq.
    + split; [lia|]. split; [lia|]. split; [lia|]. split; [|done]. intros x Hx. by destruct (HFl x Hx) as (_&?&?&?).
    + split; [done|]. intros tr m Em. destruct (A5 m) as [-> ->]; [apply Hdis; rewrite Em; apply list_elem_of_here|by eapply Ga].
    + split; [done|]. intros tr m Em. by eapply Gw.
  - done.
  - eapply Fr_pre0; [exact Fr3|]. eapply Fr_pre0; [exact Fr2|]. by apply Ps1.
  - intros x Hx [H1 H2]%not_elem_of_app. destruct (G5 x H1 H2) as [-> ->]. by apply A03.
  - by rewrite K3, K2, K1.
  - lia.
Qed.

Lemma miss_events_spec (Q : nat * nat -> W Outcome -> Prop) :
  (forall w' rank' grp' mse mre mwe, Missed w w' F (floats acco ++ floats wbo) now rank rank' grp grp' req gdc r0 mse mre mwe -> Q (mse, mre) w') ->
  wp (miss_events req gdc evd (fst <$> wbo) (fst <$> acco)) Q w.
Proof.
  intros HQ. pose proof (b_cfg _ _ _ _ _ B) as [_ _ Hacc _ Hcands _]. unfold miss_events. apply wp_bind, wp_get.
  rewrite (u64_small (req + accLat (w_tc w))) by (unfold two64; lia). fold st. apply create_miss. intros w3 rank3 grp3 mse mre mwe [[ed HR] Fr3 P3 A3 K3 (E1&E2&E3&E4)].
  rewrite <- (fr_tc _ _ _ Fr3).
  eapply (miss_links F now acco wbo req gdc evd st mse mre mwe r0); [unfold st; lia|lia|done|done|unfold st; lia|exact HR|].
  intros w' rank' grp' B' Fr' A' Pl' Hs Hr HPr HPw. destruct HR as [_ (_&Rs&Gs) _ (_&_&Gw) _ _ _ _].
  assert (Hk : forall y, (y < hp_next (w_heap w3))%nat -> w_kinds w' !! y = w_kinds w3 !! y) by (by apply fr_kinds with (1 := Fr')).
  assert (Kw : w_kinds w3 !! mwe = Some (MissWritebackEvent mse)) by (rewrite K3; apply lookup_insert_eq).
  assert (Kr : w_kinds w3 !! mre = Some (MissResponseEvent mse)) by (rewrite K3, lookup_insert_ne by lia; apply lookup_insert_eq).
  assert (Ks : w_kinds w3 !! mse = Some (MissStartEvent None)) by (rewrite K3, !lookup_insert_ne by lia; apply lookup_insert_eq).
  apply (HQ w' rank' grp' mse mre mwe). split.
  - done.
  - apply (Fr_drop w w' (mse :: mre :: mwe :: floats acco ++ floats wbo)).
    + apply (Fr_trans _ w3); [|exact Fr']. eapply Fr_mono; [exact Fr3|]. intros x Hx. by apply elem_of_nil in Hx.
    + intros x e He Hx. pose proof (Fr_lt _ _ _ _ _ B _ _ He). rewrite !elem_of_cons in Hx. destruct Hx as [?|[?|[?|?]]]; [lia|lia|lia|done].
  - intros x Hx Hn. destruct (A' x) as [-> ->]; [lia|]. by apply A3.
  - intros y k Hy Hk'. destruct (decide (hp_next (w_heap w3) <= y)%nat) as [Hge|Hlt]; [right; right; right; by eapply Pl'|].
    rewrite Hk in Hk' by lia. destruct (decide (y = mse)) as [->|]; [left; split; congruence|]. destruct (decide (y = mre)) as [->|]; [right; left; split; congruence|].
    right; right; left. assert (y = mwe) as -> by lia. split; congruence.
  - by eapply Fr_pre0.
  - rewrite Hk by lia. destruct (A' mse) as [-> ->]; [lia|]. done.
  - rewrite Hk by lia. done.
  - rewrite Hk by lia. destruct (A' mwe) as [_ ->]; [lia|]. done.
  - lia.
Qed.
End Miss.
End TCM.
