(* ===== verification/TimingCacheAccess.v ===== *)
(** * An access of the timing cache, from the levels above to the core

    The records that the memory leaves are taken, the events of the access are built, and the
    core links them to its own. *)

From S2P Require Import Prelude Bithacks MemHier TimingEvent CoreRecorder EventTree TimingCache TimingCachePort TimingCacheDag TimingCacheInv TimingCacheBuild TimingCacheMiss.
Import TCache TCP TCD TCI TCB TCM.

Module TCA.

(** ** The recorders *)
Definition with_recs (rs : list EventRecorder) (w : W Outcome) : W Outcome := mkW (w_x w) (w_tc w) (w_kinds w) rs (w_heap w).
(** Only the recorder of core [i] may hold a record, [r]. *)
Definition slot (recs : list EventRecorder) (i : nat) (r : option TimingRecord) : Prop :=
  (exists er, recs !! i = Some er /\ (if hasRecord er then Some (er_tr er) else None) = r) /\
  (forall j er, recs !! j = Some er -> j <> i -> hasRecord er = false).

Lemma slot_insert recs i r er : slot recs i r -> slot (<[i := er]> recs) i (if hasRecord er then Some (er_tr er) else None).
Proof.
  intros [(er0&Hi&_) Ho]. split.
  - exists er. split; [|done]. apply list_lookup_insert_eq. by eapply lookup_lt_Some.
  - intros j er' Hj Hne. rewrite list_lookup_insert_ne in Hj by done. by eapply Ho.
Qed.
Lemma slot_none recs i : slot recs i None -> Forall (fun er => hasRecord er = false) recs.
Proof.
  intros [(er&Hi&Hn) Ho]. apply list.Forall_lookup. intros j er' Hj. destruct (decide (j = i)) as [->|Hne]; [|by eapply Ho].
  rewrite Hi in Hj. injection Hj as <-. by destruct (hasRecord er).
Qed.
Lemma none_slot recs i : Forall (fun er => hasRecord er = false) recs -> (i < length recs)%nat -> slot recs i None.
Proof.
  intros HF Hi. destruct (lookup_lt_is_Some_2 _ _ Hi) as [er Her]. rewrite list.Forall_lookup in HF. split.
  - exists er. split; [done|]. by rewrite (HF _ _ Her).
  - intros j er' Hj _. by eapply HF.
Qed.

Lemma wp_onRec {A} i (m : WM.PM A) (Q : A -> W Outcome -> Prop) w er : w_recs w !! i = Some er ->
  wp m (fun a s => Q a (with_heap s.2 (with_recs (<[i := s.1]> (w_recs w)) w))) (er, w_heap w) -> wp (onRec i m) Q w.
Proof. unfold wp, onRec. intros ->. destruct (m (er, w_heap w)) as [[a [er' h]]|]; done. Qed.

Lemma pop_spec w i r (Q : option TimingRecord -> W Outcome -> Prop) : slot (w_recs w) i r ->
  (forall recs', slot recs' i None -> Q r (with_recs recs' w)) -> wp (onRec i popIf) Q w.
Proof.
  intros HS HQ. destruct (HS) as [(er&Hi&Hr) _]. eapply wp_onRec; [done|]. unfold popIf. wp_steps. cbn [fst snd].
  destruct (hasRecord er) eqn:Eh.
  - wp_steps. unfold WM.pop. wp_steps. cbn [popRecord fst snd]. wp_steps. subst r. apply HQ.
    apply (slot_insert _ i _ (er_with_tr er (tr_clear (er_tr er)))) in HS. done.
  - wp_steps. subst r. cbn. apply HQ. apply (slot_insert _ i _ er) in HS. by rewrite Eh in HS.
Qed.
Lemma tc_push_spec w i tr (Q : unit -> W Outcome -> Prop) : slot (w_recs w) i None -> tr_isValid tr = true ->
  (forall recs', slot recs' i (Some tr) -> Q tt (with_recs recs' w)) -> wp (onRec i (WM.push tr)) Q w.
Proof.
  intros HS Hv HQ. destruct (HS) as [(er&Hi&Hr) _]. eapply wp_onRec; [done|]. destruct (hasRecord er) eqn:Eh; [done|].
  unfold WM.push. wp_steps. apply wp_lift. unfold pushRecord. cbn [fst snd]. unfold hasRecord in Eh. rewrite Eh, Hv. cbn. wp_steps.
  apply HQ. apply (slot_insert _ i _ (er_with_tr er tr)) in HS. unfold hasRecord in HS. cbn in HS. by rewrite Hv in HS.
Qed.

(** ** Frames, up to the recorders *)
Lemma BI_recs w F now rank grp rs : BI w F now rank grp -> BI (with_recs rs w) F now rank grp.
Proof. intros []. by split. Qed.
Lemma Fr_recs w w' L rs : Fr w w' L -> Fr (with_recs rs w) (with_recs rs w') L.
Proof. intros []. by split. Qed.
Definition Gr (w w' : W Outcome) (L : list nat) : Prop := Fr w (with_recs (w_recs w) w') L.
Lemma with_recs_id w : with_recs (w_recs w) w = w.
Proof. by destruct w. Qed.
Lemma Fr_Gr w w' L : Fr w w' L -> Gr w w' L.
Proof. intros Hf. unfold Gr. rewrite <- (fr_recs _ _ _ Hf). by rewrite with_recs_id. Qed.
Lemma Gr_recs w w' L rs : Gr w w' L -> Gr w (with_recs rs w') L.
Proof. done. Qed.
Lemma Gr_unrecs w w' L rs : Gr (with_recs rs w) w' L -> Gr w w' L.
Proof. intros []. by split. Qed.
Lemma Gr_trans w1 w2 w3 L : Gr w1 w2 L -> Gr w2 w3 L -> Gr w1 w3 L.
Proof. unfold Gr. intros H1 H2%(Fr_recs _ _ _ (w_recs w1)). by eapply Fr_trans. Qed.
Lemma Gr_refl w L F now rank grp : BI w F now rank grp -> Gr w w L.
Proof. intros B. apply Fr_Gr, Fr_refl. by eapply Fr_lt. Qed.
Lemma Gr_ev_at w w' L p mn ed np nk : Gr w w' L -> p ∉ L -> ev_at w p mn ed np nk -> ev_at w' p mn ed np nk.
Proof. intros Hf HL H. exact (Fr_ev_at _ _ _ _ _ _ _ _ Hf HL H). Qed.
Lemma Gr_next w w' L : Gr w w' L -> (hp_next (w_heap w) <= hp_next (w_heap w'))%nat.
Proof. intros Hf. exact (fr_next _ _ _ Hf). Qed.
(** New events may change. *)
Lemma Gr_after w w1 w2 L : Gr w w1 [] -> Gr w1 w2 L -> (forall x, x ∈ L -> (hp_next (w_heap w) <= x)%nat) ->
  (forall x e, hp_events (w_heap w) !! x = Some e -> (x < hp_next (w_heap w))%nat) -> Gr w w2 [].
Proof.
  intros H1 H2 HL Hn. apply (Fr_drop _ _ L); [eapply Gr_trans; [|exact H2]; by eapply Fr_mono; [exact H1|intros x Hx; apply elem_of_nil in Hx]|].
  intros x e He Hx. specialize (HL _ Hx). specialize (Hn _ _ He). lia.
Qed.

(** ** The memory *)
Record mem_ok (wm : WM.t) (c : t) : Prop := {
  me_lat : 0 < WM.latency wm < 2 ^ 30;
  me_zll : 0 <= WM.zeroLoadLatency wm <= WM.latency wm;
  me_pre : WM.preDelay wm = WM.zeroLoadLatency wm / 2;
  me_post : WM.postDelay wm = WM.zeroLoadLatency wm - WM.preDelay wm;
  me_dom : WM.domain wm = domain c }.

(** What a request to the levels above leaves: a record, or nothing. *)
Record Got (w w' : W Outcome) (i : nat) (F : list nat) (now : Z) (rank rank' : nat -> nat) (grp grp' : nat -> option nat)
    (ro : option (TimingRecord * nat)) (st en : Z) : Prop := {
  go_bi : BI w' (floats ro ++ F) now rank' grp';
  go_gr : Gr w w' [];
  go_agree : agree (hp_next (w_heap w)) rank rank' grp grp';
  go_kinds : w_kinds w' = w_kinds w;
  go_slot : slot (w_recs w') i (fst <$> ro);
  go_rec : rec_ok w' st en ro;
  go_new : forall x, x ∈ floats ro -> (hp_next (w_heap w) <= x)%nat }.

Lemma Got_none w i F now rank grp st en : BI w F now rank grp -> slot (w_recs w) i None ->
  Got w w i F now rank rank grp grp None st en.
Proof.
  intros B HS. split; try done; [by eapply Gr_refl|].
  intros x Hx. by apply elem_of_nil in Hx.
Qed.

Lemma mem_puts w F now rank grp i wm addr c st en (Q : Z -> W Outcome -> Prop) : BI w F now rank grp -> slot (w_recs w) i None ->
  mem_ok wm (w_tc w) -> 0 <= c < 2 ^ 62 ->
  (forall recs', Got w (with_recs recs' w) i F now rank rank grp grp None st en -> Q c (with_recs recs' w)) ->
  wp (onRec i (WM.access wm addr c PUTS)) Q w.
Proof.
  intros B HS [] Hc HQ. destruct (HS) as [(er&Hi&Hr) _]. eapply wp_onRec; [done|]. unfold WM.access. cbn.
  rewrite !Z.add_0_r, (u64_small c), u64_small by (unfold two64; lia).
  apply wp_bind, wp_assert; [lia|]. apply wp_bind, wp_assert; [lia|]. wp_steps.
  pose proof (slot_insert _ i _ er HS) as HS'. rewrite Hr in HS'. apply (HQ (<[i:=er]> (w_recs w))).
  split; try done; [by apply BI_recs|by eapply Gr_recs, Gr_refl|]. intros x Hx. by apply elem_of_nil in Hx.
Qed.

Lemma mem_spec w F now rank grp i wm addr c ty st en (Q : Z -> W Outcome -> Prop) : BI w F now rank grp -> slot (w_recs w) i None ->
  mem_ok wm (w_tc w) -> 0 <= c < 2 ^ 62 -> ty <> PUTS -> st <= c -> c + WM.zeroLoadLatency wm <= en ->
  (forall w' rank' grp' ro, Got w w' i F now rank rank' grp grp' ro st en -> Q (c + WM.zeroLoadLatency wm) w') ->
  wp (onRec i (WM.access wm addr c ty)) Q w.
Proof.
  intros B HS [] Hc Hty Hst Hen HQ. destruct (HS) as [(er&Hi&Hr) _]. eapply wp_onRec; [done|]. unfold WM.access. rewrite bool_decide_eq_false_2 by done.
  rewrite (u64_small (c + WM.latency wm)), (u64_small (c + WM.zeroLoadLatency wm)) by (unfold two64; lia).
  apply wp_bind, wp_assert; [lia|]. apply wp_bind, wp_assert; [lia|].
  rewrite (u32_small (c + _ - c)) by (unfold two32; lia). rewrite (u32_small (c + _ - c - _)) by (unfold two32; lia).
  apply wp_bind, wp_assert; [cbn; lia|]. set (lat := c + WM.latency wm - c - WM.zeroLoadLatency wm).
  set (m := hp_next (w_heap w)). set (tr := mkRecord addr c (c + WM.zeroLoadLatency wm) ty (Some m) (Some m)).
  destruct (hasRecord er) eqn:Eh; [done|].
  unfold wp, mbind, M_bind, WM.onHeap, WM.push, new_TimingEvent, setMinStartCycle, modify_ev, mbind, M_bind, get_ev, mget, mlift, pushRecord, put_ev, mmodify. cbn.
  rewrite lookup_insert_eq. cbn. unfold mbind, M_bind, hasRecord in *. cbn. rewrite Eh. cbn. rewrite insert_insert_eq. fold m. fold tr.
  assert (Hpre : 0 <= WM.zeroLoadLatency wm / 2 <= WM.zeroLoadLatency wm) by (split; [apply Z.div_pos; lia|apply Z.div_le_upper_bound; lia]).
  destruct (create_spec w F now rank grp None (ClsMem lat) (WM.preDelay wm) (WM.postDelay wm) (WM.domain wm) c 0%nat None B) as (B1&Fr1&A1&H1);
    [unfold two32; lia|unfold two32; lia|unfold BIG; lia|done| |by left|by intros [? ?]|].
  { right. exists lat. split; [done|]. unfold lat, two32. lia. }
  specialize (H1 ltac:(done) ltac:(done)). fold m in B1, A1, H1.
  replace (c + WM.preDelay wm + WM.postDelay wm) with (c + WM.zeroLoadLatency wm) in H1 by lia.
  eapply (HQ _ _ _ (Some (tr, m))). split; cbn [floats app fst].
  - apply (BI_recs _ _ _ _ _ (<[i := er_with_tr er tr]> (w_recs w))) in B1. exact B1.
  - exact (Fr_Gr _ _ _ Fr1).
  - exact A1.
  - done.
  - exact (slot_insert _ i _ (er_with_tr er tr) HS).
  - intros tr' m' [= <- <-]. cbn. split; [done|]. split; [done|]. split; [lia|]. split; [lia|]. split; [done|].
    destruct (w_kinds w !! m) eqn:E; [|done]. pose proof (b_next _ _ _ _ _ B m ltac:(by eexists)). unfold m in *. lia.
  - intros x ->%list_elem_of_singleton. done.
Qed.

(** ** The levels above *)
Definition is_get (ty : AccessType) : bool := match ty with GETS | GETX => true | _ => false end.
Definition above_ok (wm : WM.t) (ty : AccessType) (a : Above) : bool :=
  match a with
  | FromMem up down => (0 <=? up) && (0 <=? down) && (0 <? up + WM.zeroLoadLatency wm + down) && (up + down <? 2 ^ 29) && is_get ty
  | FromCache lat => (0 <? lat) && (lat <? 2 ^ 30)
  end.
(** The controller's decisions that [access] takes: no child is invalidated on an upgrade. *)
Definition outcome_ok (wm : WM.t) (ty : AccessType) (o : Outcome) : bool :=
  match o with
  | OSkip => true
  | OHit lat => (0 <=? lat) && (lat <? 2 ^ 30)
  | OUpgrade a invLat => (invLat =? 0) && above_ok wm ty a
  | OMiss invLat _ a => (0 <=? invLat) && (invLat <? 2 ^ 29) && above_ok wm ty a
  end.

Lemma above_spec w F now rank grp wm req start a (Q : Z -> W Outcome -> Prop) : BI w F now rank grp -> slot (w_recs w) (srcId req) None ->
  mem_ok wm (w_tc w) -> 0 <= start < 2 ^ 61 + 2 ^ 32 -> above_ok wm (type req) a = true ->
  (forall w' rank' grp' ro c, start < c < start + 2 ^ 31 -> Got w w' (srcId req) F now rank rank' grp grp' ro start c -> Q c w') ->
  wp (above wm req start a) Q w.
Proof.
  intros B HS Hm Hst Ha HQ. pose proof (me_lat _ _ Hm). pose proof (me_zll _ _ Hm). destruct a as [up down|lat]; cbn in Ha |- *.
  - assert (Hg : type req <> PUTS /\ 0 <= up /\ 0 <= down /\ 0 < up + WM.zeroLoadLatency wm + down /\ up + down < 2 ^ 29).
    { destruct (type req); cbn in Ha; split; try done; try lia. }
    destruct Hg as (Hty&?&?&?&?). rewrite (u64_small (start + up)) by (unfold two64; lia).
    apply wp_bind. eapply (mem_spec w F now rank grp _ wm _ _ _ start (start + up + WM.zeroLoadLatency wm + down)); [done|done|done|lia|done|lia|lia|].
    intros w' rank' grp' ro HG. apply wp_ret. rewrite u64_small by (unfold two64; lia). eapply HQ; [|exact HG]. lia.
  - apply wp_ret. rewrite u64_small by (unfold two64; lia). eapply (HQ w rank grp None); [lia|]. by apply Got_none.
Qed.

Lemma tc_evict_spec w F now rank grp wm i addr start (invLat : Z) (dirty : bool) (Q : Z -> W Outcome -> Prop) : BI w F now rank grp -> slot (w_recs w) i None ->
  mem_ok wm (w_tc w) -> 0 <= start < 2 ^ 61 + 2 ^ 32 -> 0 <= invLat < 2 ^ 29 ->
  (forall w' rank' grp' ro c, start <= c < start + 2 ^ 31 -> Got w w' i F now rank rank' grp grp' ro start c -> Q c w') ->
  wp (onRec i (WM.access wm addr (u64 (start + invLat)) (if dirty then PUTX else PUTS))) Q w.
Proof.
  intros B HS Hm Hst Hi HQ. pose proof (me_lat _ _ Hm). pose proof (me_zll _ _ Hm). rewrite u64_small by (unfold two64; lia). destruct dirty.
  - eapply (mem_spec w F now rank grp i wm _ _ _ start (start + invLat + WM.zeroLoadLatency wm)); [done|done|done|lia|done|lia|lia|].
    intros w' rank' grp' ro HG. eapply HQ; [|exact HG]. lia.
  - eapply (mem_puts w F now rank grp i wm _ _ start (start + invLat)); [done|done|done|lia|]. intros recs' HG. eapply HQ; [|exact HG]. lia.
Qed.

(** ** The events of an access *)
(** The events that were added, from [n] on, make whole misses. *)
Record NewK (n : nat) (w' : W Outcome) (grp' : nat -> option nat) : Prop := {
  nk_refers : forall y mse, (n <= y)%nat -> refers (w_kinds w' !! y) mse ->
    (n <= mse)%nat /\ w_kinds w' !! mse = Some (MissStartEvent None) /\ is_Some (hp_events (w_heap w') !! mse) /\ path (hp_events (w_heap w')) mse y;
  nk_wb : forall p s, (n <= p)%nat -> w_kinds w' !! p = Some (MissStartEvent s) -> exists x, w_kinds w' !! x = Some (MissWritebackEvent p);
  nk_self : forall x mse, (n <= x)%nat -> w_kinds w' !! x = Some (MissWritebackEvent mse) -> grp' x = Some x;
  nk_uniq : forall x x' mse, (n <= x)%nat -> (n <= x')%nat -> w_kinds w' !! x = Some (MissWritebackEvent mse) ->
    w_kinds w' !! x' = Some (MissWritebackEvent mse) -> x = x' }.

Record Built (w w' : W Outcome) (now : Z) (rank rank' : nat -> nat) (grp grp' : nat -> option nat) (req resp : Z) (r0 st en : nat) : Prop := {
  bu_bi : BI w' [st] now rank' grp';
  bu_gr : Gr w w' [];
  bu_agree : agree (hp_next (w_heap w)) rank rank' grp grp';
  bu_new : NewK (hp_next (w_heap w)) w' grp';
  bu_st : exists ed, ev_at w' st req ed 0 50 /\ pre0 w' st /\ rank' st = r0 /\ grp' st = None /\
    (en = st /\ ed = resp \/ en <> st /\ exists mn, ev_at w' en mn resp 50 50);
  bu_resp : 0 <= resp < 2 ^ 62;
  bu_ids : (hp_next (w_heap w) <= st)%nat /\ (hp_next (w_heap w) <= en)%nat }.
Definition tr_of (tr : TimingRecord) (req resp : Z) (st en : nat) : Prop :=
  tr_reqCycle tr = req /\ tr_respCycle tr = resp /\ tr_startEvent tr = Some st /\ tr_endEvent tr = Some en.

Lemma tc_hit_spec w0 w now rank rank0 grp grp0 lineBits req resp r0 (Q : TimingRecord -> W Outcome -> Prop) : BI w [] now rank grp -> Gr w0 w [] ->
  agree (hp_next (w_heap w0)) rank0 rank grp0 grp -> w_kinds w = w_kinds w0 -> BI w0 [] now rank0 grp0 ->
  0 <= cycle req < 2 ^ 61 -> cycle req + accLat (w_tc w) <= resp < cycle req + accLat (w_tc w) + 2 ^ 30 ->
  (forall w' rank' grp' st tr, Built w0 w' now rank0 rank' grp0 grp' (cycle req) resp r0 st st -> tr_of tr (cycle req) resp st st ->
    w_recs w' = w_recs w -> Q tr w') ->
  wp (record_events lineBits req resp (cycle req + accLat (w_tc w)) 0 None None) Q w.
Proof.
  intros B HG A K B0 Hc Hr HQ. pose proof (cf_acc _ (b_cfg _ _ _ _ _ B)) as Hacc. pose proof (Gr_next _ _ _ HG) as Hnx. unfold record_events. apply wp_bind, wp_get.
  rewrite (u64_small (cycle req + _ - _)), (proj2 (Z.eqb_eq _ _)) by (unfold two64 in *; lia).
  apply wp_bind, wp_assert; [done|]. apply wp_bind, wp_assert; [done|]. rewrite u32_small by (unfold two32; lia).
  eapply (new_kind w [] now rank grp HitEvent _ _ (cycle req) r0 None); [done|unfold two32; lia|unfold two32; lia|unfold BIG; lia|done|by intros [? ?]|].
  intros w' rank' grp' q B' Fr' A' K' N' Hq Eq Rq Gq Pq. apply wp_ret. apply (HQ w' rank' grp' q); [|done|by rewrite (fr_recs _ _ _ Fr')].
  assert (Hk : forall y k, (hp_next (w_heap w0) <= y)%nat -> w_kinds w' !! y = Some k -> k = HitEvent).
  { intros y k Hy Hk. rewrite K' in Hk. destruct (decide (q = y)) as [<-|Hne]; [rewrite lookup_insert_eq in Hk; congruence|].
    rewrite lookup_insert_ne, K in Hk by done. pose proof (b_next _ _ _ _ _ B0 y ltac:(by eexists)). lia. }
  split.
  - done.
  - eapply Gr_trans; [exact HG|]. by apply Fr_Gr.
  - by eapply agree_trans.
  - split; [intros y mse Hy [Hx|Hx]|intros y mse Hy Hx..|intros y y' mse Hy _ Hx _]; by specialize (Hk _ _ Hy Hx).
  - exists resp. replace (cycle req + 0 + (resp - cycle req)) with resp in Hq by lia. split; [by eapply ev_at_mono; [exact Hq|lia|lia]|].
    split; [by apply Pq|]. split; [done|]. split; [done|]. by left.
  - lia.
  - lia.
Qed.

Section MissRec.
Context (w0 w : W Outcome) (now : Z) (rank rank0 : nat -> nat) (grp grp0 : nat -> option nat) (wbo acco : option (TimingRecord * nat)) (req : MemReq) (gdc evd : Z) (r0 : nat).
Context (B : BI w (floats acco ++ floats wbo ++ []) now rank grp) (HG : Gr w0 w []) (A : agree (hp_next (w_heap w0)) rank0 rank grp0 grp)
  (K : w_kinds w = w_kinds w0) (B0 : BI w0 [] now rank0 grp0) (HRa : rec_ok w (cycle req + accLat (w_tc w)) gdc acco)
  (HRw : rec_ok w (cycle req + accLat (w_tc w)) evd wbo) (Hdis : forall x, x ∈ floats acco -> x ∉ floats wbo)
  (Hnew : forall x, x ∈ floats acco ++ floats wbo -> (hp_next (w_heap w0) <= x)%nat)
  (Hc : 0 < cycle req < 2 ^ 61) (Hgdc : cycle req + accLat (w_tc w) < gdc < cycle req + accLat (w_tc w) + two32)
  (Hevd : evd = 0 /\ wbo = None \/ cycle req + accLat (w_tc w) <= evd < cycle req + accLat (w_tc w) + two32).

(** The kinds of the new events. *)
Lemma missed_new w' rank' grp' mse mre mwe : Missed w w' [] (floats acco ++ floats wbo) now rank rank' grp grp' (cycle req) gdc r0 mse mre mwe ->
  NewK (hp_next (w_heap w0)) w' grp'.
Proof.
  intros [B' Fr' A' Hk' Ps (Hs&Ks&Rs&Gs) (Hr&Kr&Pr) (Kw&Gw&Pw) (Ns&Nr&Nw)]. pose proof (Gr_next _ _ _ HG) as Hnx.
  assert (Hm : is_Some (hp_events (w_heap w') !! mse)) by (destruct Hs as (e&He&_); by exists e).
  assert (Hk : forall y k, (hp_next (w_heap w0) <= y)%nat -> w_kinds w' !! y = Some k ->
    (y = mse /\ k = MissStartEvent None) \/ (y = mre /\ k = MissResponseEvent mse) \/ (y = mwe /\ k = MissWritebackEvent mse) \/ exists n, k = ReplAccessEvent n).
  { intros y k Hy Hk. destruct (decide (hp_next (w_heap w) <= y)%nat) as [|Hlt]; [by apply Hk'|].
    rewrite (fr_kinds _ _ _ Fr'), K in Hk by lia. pose proof (b_next _ _ _ _ _ B0 y ltac:(by eexists)). lia. }
  split.
  - intros y m Hy [Hx|Hx]; destruct (Hk _ _ Hy Hx) as [[_ ?]|[[-> ?]|[[-> ?]|[? ?]]]]; simplify_eq; (split; [lia|done]).
  - intros p s Hp Hx. destruct (Hk _ _ Hp Hx) as [[-> _]|[[_ ?]|[[_ ?]|[? ?]]]]; [by exists mwe|done..].
  - intros x m Hx Hy. destruct (Hk _ _ Hx Hy) as [[_ ?]|[[_ ?]|[[-> _]|[? ?]]]]; done.
  - intros x x' m Hx Hx' Hy Hy'. destruct (Hk _ _ Hx Hy) as [[_ ?]|[[_ ?]|[[-> _]|[? ?]]]]; try done.
    by destruct (Hk _ _ Hx' Hy') as [[_ ?]|[[_ ?]|[[-> _]|[? ?]]]].
Qed.

Lemma miss_spec lineBits (Q : TimingRecord -> W Outcome -> Prop) :
  (forall w' rank' grp' st en tr, Built w0 w' now rank0 rank' grp0 grp' (cycle req) gdc r0 st en -> tr_of tr (cycle req) gdc st en ->
    w_recs w' = w_recs w -> Q tr w') ->
  wp (record_events lineBits req gdc gdc evd (fst <$> wbo) (fst <$> acco)) Q w.
Proof.
  intros HQ. pose proof (cf_acc _ (b_cfg _ _ _ _ _ B)) as Hacc. pose proof (Gr_next _ _ _ HG) as Hnx. unfold record_events. apply wp_bind, wp_get.
  rewrite (u64_small (gdc - _)), (proj2 (Z.eqb_neq _ _)) by (unfold two64, two32 in *; lia).
  apply wp_bind, wp_assert; [lia|]. apply wp_bind.
  eapply (miss_events_spec w [] now rank grp wbo acco (cycle req) gdc evd r0); [exact B|done|done|done|lia|lia|done|].
  intros w' rank' grp' mse mre mwe Hms. pose proof (missed_new _ _ _ _ _ _ Hms) as HN. destruct Hms as [B' Fr' A' _ Ps (Hs&Ks&Rs&Gs) (Hr&Kr&_) _ (Ns&Nr&Nw)].
  apply wp_ret. apply (HQ w' rank' grp' mse mre); [|done|by rewrite (fr_recs _ _ _ Fr')]. split.
  - exact B'.
  - eapply Gr_after; [exact HG|apply Fr_Gr; exact Fr'|exact Hnew|by eapply Fr_lt].
  - intros x Hx. destruct (A' x) as [-> ->]; [lia| |by apply A]. intros Hin%Hnew. lia.
  - exact HN.
  - exists (cycle req + accLat (w_tc w)). split; [done|]. split; [done|]. split; [done|]. split; [done|]. right. split; [|by exists gdc].
    intros ->. rewrite Kr in Ks. done.
  - unfold two32 in *. lia.
  - lia.
Qed.
End MissRec.

(** ** Access *)
Section Access.
Context (wm : WM.t) (lineBits : Z) (w : W Outcome) (now : Z) (rank : nat -> nat) (grp : nat -> option nat) (req : MemReq) (r0 : nat).
Context (B : BI w [] now rank grp) (HS : slot (w_recs w) (srcId req) None) (Hm : mem_ok wm (w_tc w)) (Hc : 0 < cycle req < 2 ^ 61).

(** The record is pushed, and the access returns. *)
Definition returns (Q : Z -> W Outcome -> Prop) : Prop := forall w' rank' grp' st en tr resp,
  Built w w' now rank rank' grp grp' (cycle req) resp r0 st en -> tr_of tr (cycle req) resp st en -> slot (w_recs w') (srcId req) (Some tr) -> Q resp w'.
Lemma access_end Q w' rank' grp' st en tr resp : returns Q -> Built w w' now rank rank' grp grp' (cycle req) resp r0 st en ->
  tr_of tr (cycle req) resp st en -> slot (w_recs w') (srcId req) None -> cycle req <= resp ->
  wp (onRec (srcId req) (WM.push tr);; mret resp)
    (fun a s => wp (@endAccess Outcome (env_cc wm) req;; massert (cycle req <=? a) "resp < req?";; mret a) Q s) w'.
Proof.
  intros HQ [Bi G A N (ed&S1&S2&S3) Hb I] T HS' Hle. destruct (T) as (_&_&T3&_). apply wp_bind. eapply tc_push_spec; [done|unfold tr_isValid; by rewrite T3|].
  intros recs' HS2. apply wp_ret. cbn [endAccess env_cc]. wp_steps. apply wp_assert; [lia|]. wp_steps.
  apply (HQ (with_recs recs' w') rank' grp' st en tr resp); [|done|done]. split; [by apply BI_recs|done|done|by destruct N|by exists ed|done|done].
Qed.

Lemma tcache_access_spec (Q : Z -> W Outcome -> Prop) : outcome_ok wm (type req) (w_x w) = true -> (srcId req < length (w_recs w))%nat ->
  (w_x w = OSkip -> Q (cycle req) w) ->
  returns Q -> wp (@access Outcome (env_cc wm) lineBits req) Q w.
Proof.
  intros Ho Hl Hskip HQ. pose proof (cf_acc _ (b_cfg _ _ _ _ _ B)) as Hacc. pose proof (me_lat _ _ Hm). pose proof (me_zll _ _ Hm).
  unfold access. apply wp_bind, wp_get. apply wp_bind, wp_assert; [by apply bool_decide_eq_true_2|]. cbn [startAccess env_cc]. wp_steps. cbn [fst snd].
  assert (Hst : u64 (cycle req + accLat (w_tc w)) = cycle req + accLat (w_tc w)) by (apply u64_small; unfold two64; lia).
  destruct (w_x w) as [|lat|a invLat|invLat dirty a] eqn:Ex; cbn in Ho.
  - wp_steps. cbn [endAccess env_cc]. wp_steps. apply wp_assert; [lia|]. wp_steps. by apply Hskip.
  - cbn [TCache.lookup processAccess env_cc]. wp_steps. rewrite Ex. cbn. wp_steps. rewrite Ex, Hst, u64_small by (unfold two64; lia). wp_steps.
    eapply pop_spec; [exact HS|]. intros recs' HS'. wp_steps.
    eapply (tc_hit_spec w (with_recs recs' w) now rank rank grp grp lineBits req (cycle req + accLat (w_tc w) + lat) r0); [by apply BI_recs|by eapply Gr_recs, Gr_refl|by intros x _|done|done|lia|cbn; lia|].
    intros w' rank' grp' st tr HB T E. eapply access_end; [done|exact HB|done|by rewrite E|lia].
  - apply andb_true_iff in Ho as [->%Z.eqb_eq Ho].
    cbn [TCache.lookup processAccess env_cc]. wp_steps. rewrite Ex. cbn. wp_steps. rewrite Ex, Hst. wp_steps.
    eapply (above_spec w [] now rank grp); [done|done|done|lia|done|]. intros w2 rank2 grp2 ro c Hlt [B2 G2 A2 K2 S2 R2 N2]. wp_steps.
    rewrite Z.add_0_r, (u64_small c) by (unfold two64; lia).
    eapply pop_spec; [exact S2|]. intros recs' HS'. wp_steps. pose proof (fr_tc _ _ _ G2) as Et. cbn in Et.
    eapply (miss_spec w (with_recs recs' w2) now rank2 rank grp2 grp None ro req c 0 r0); cbn; rewrite ?Et; [by apply BI_recs|done|done|done|done|done|done|
      intros x _; apply not_elem_of_nil|by rewrite app_nil_r|done|unfold two32; lia|by left|].
    intros w' rank' grp' st en tr HB T E. eapply access_end; [done|exact HB|done|by rewrite E|lia].
  - cbn [TCache.lookup shouldAllocate preinsert processEviction postinsert processAccess env_cc]. wp_steps. rewrite Ex. cbn. wp_steps. apply wp_assert; [done|]. wp_steps.
    rewrite Ex, Hst. eapply (tc_evict_spec w [] now rank grp); [done|done|done|lia|lia|]. intros w1 rank1 grp1 wbo evd He [B1 G1 A1 K1 S1 R1 N1]. wp_steps.
    eapply pop_spec; [exact S1|]. intros recs1 HS1. wp_steps. pose proof (fr_tc _ _ _ G1) as Et1. pose proof (fr_x _ _ _ G1) as Ex1. cbn in Et1, Ex1. cbn; rewrite ?Ex1, ?Ex.
    pose proof (BI_recs _ _ _ _ _ recs1 B1) as B1'. wp_steps.
    eapply (above_spec (with_recs recs1 w1) (floats wbo ++ []) now rank1 grp1); [done|done|by cbn; rewrite Et1|lia|by apply andb_true_iff in Ho as [_ ?]|]. intros w2 rank2 grp2 acco c Hlt [B2 G2 A2 K2 S2 R2 N2]. wp_steps.
    eapply pop_spec; [exact S2|]. intros recs' HS'. wp_steps. pose proof (fr_tc _ _ _ G2) as Et2. cbn in Et2. pose proof (Gr_next _ _ _ G1) as Hn1.
    assert (Hwl : forall x, x ∈ floats wbo -> (x < hp_next (w_heap w1))%nat).
    { intros x Hx. destruct wbo as [[tr m]|]; [|by apply elem_of_nil in Hx]. apply list_elem_of_singleton in Hx as ->.
      destruct (R1 tr m eq_refl) as (_&_&_&_&Hmm&_). by eapply ev_at_lt. }
    eapply (miss_spec w (with_recs recs' w2) now rank2 rank grp2 grp wbo acco req c evd r0); cbn; rewrite ?Et2, ?Et1; [by apply BI_recs| | |by rewrite K2|done|done| | | |done|unfold two32; lia|right; unfold two32; lia|].
    + eapply Gr_trans; [exact G1|by eapply Gr_unrecs].
    + by eapply agree_trans.
    + eapply (rec_ok_Fr w1 _ _ _ _ _ R1 (Gr_unrecs _ _ _ _ G2)). intros x Hx. split; [apply not_elem_of_nil|by apply Hwl].
    + intros x Hx Hx'. specialize (N2 _ Hx). specialize (Hwl _ Hx'). cbn in N2. lia.
    + intros x [Hx|Hx]%elem_of_app; [specialize (N2 _ Hx); cbn in N2; lia|by apply N1].
    + intros w' rank' grp' st en tr HB T E. eapply access_end; [done|exact HB|done|by rewrite E|lia].
Qed.

(** An upgrade that invalidates children answers after [*getDoneCycle]. *)
Lemma upgrade_fails a invLat : w_x w = OUpgrade a invLat -> above_ok wm (type req) a = true -> 0 < invLat < 2 ^ 30 -> (srcId req < length (w_recs w))%nat ->
  @access Outcome (env_cc wm) lineBits req w = Err (Panic "getDoneCycle == respCycle").
Proof.
  intros Ex Ha Hi Hl. pose proof (cf_acc _ (b_cfg _ _ _ _ _ B)) as Hacc.
  assert (Hst : u64 (cycle req + accLat (w_tc w)) = cycle req + accLat (w_tc w)) by (apply u64_small; unfold two64; lia).
  assert (Hu : wp (above wm req (cycle req + accLat (w_tc w)) a ≫= fun c => r ← onRec (srcId req) popIf; mret (c, r))
    (fun x w' => cycle req + accLat (w_tc w) < x.1 < cycle req + accLat (w_tc w) + 2 ^ 31 /\ w_tc w' = w_tc w) w).
  { apply wp_bind. eapply (above_spec w [] now rank grp); [done|done|done|lia|done|]. intros w2 rank2 grp2 ro c Hlt [_ G2 _ _ S2 _ _].
    apply wp_bind. eapply pop_spec; [exact S2|]. intros recs' _. apply wp_ret. split; [done|]. exact (fr_tc _ _ _ G2). }
  destruct (wp_elim _ _ _ Hu) as ([c r] & w3 & E & Hlt & Et). cbn [fst] in Hlt. unfold mbind, M_bind in E.
  destruct (above wm req _ a w) as [[c2 w2]|] eqn:Ea; [|done]. destruct (onRec _ _ w2) as [[r2 w4]|] eqn:Er; [|done]. injection E as -> -> ->.
  unfold access, mbind, M_bind, mget, massert. rewrite bool_decide_eq_true_2 by done. cbn [startAccess env_cc TCache.lookup processAccess].
  unfold mbind, M_bind, mget, mret, M_ret. cbn. rewrite !Ex. cbn. rewrite Hst, Ea. cbn. rewrite Er. unfold record_events, mbind, M_bind, mget, massert.
  rewrite Et, (u64_small (c + invLat)), (u64_small (c - cycle req)) by (unfold two64; lia).
  rewrite (proj2 (Z.eqb_neq (c - cycle req) _)), (proj2 (Z.eqb_neq c (c + invLat))) by lia. done.
Qed.
End Access.
End TCA.
