(* ===== verification/TimingCacheCore.v ===== *)
(** * The core's use of an access, and the invariant after the access *)

From S2P Require Import Prelude Bithacks MemHier TimingEvent CoreRecorder EventTree TimingCache TimingCachePort TimingCacheDag TimingCacheInv TimingCacheBuild TimingCacheMiss TimingCacheAccess.
Import TCache TCP TCD TCI TCB TCM TCA.

Module TCC.

(** ** Queueing the first event of an access *)
Section Queue.
Context (w0 w : W Outcome) (L : list nat) (p : nat) (e : TimingEvent) (q : list (nat * Z)) (He : hp_events (w_heap w) !! p = Some e)
  (Hs : ev_state e = EV_NONE).
Let w' := with_heap (set_st p EV_QUEUED e (w_heap w) q) w.

Lemma queued_edges : edges (hp_events (w_heap w')) ≡ₚ edges (hp_events (w_heap w)).
Proof. apply (put_edges _ _ e); [done|done|congruence|done]. Qed.
Lemma queued_live x : is_Some (hp_events (w_heap w) !! x) -> is_Some (hp_events (w_heap w') !! x).
Proof. intros Hx. cbn. destruct (decide (p = x)) as [<-|]; [rewrite lookup_insert_eq; by eexists|by rewrite lookup_insert_ne]. Qed.

Lemma BI_queued now rank grp : BI w [p] now rank grp -> GI (w_heap w') [] [] now -> ev_domain e = domain (w_tc w) -> BI w' [] now rank grp.
Proof.
  intros B G Hd. pose proof queued_edges as HE.
  assert (Hinv : forall x e', hp_events (w_heap w') !! x = Some e' -> (x = p /\ e' = ev_set_state EV_QUEUED e) \/ (x <> p /\ hp_events (w_heap w) !! x = Some e')).
  { intros x e'. by apply (put_inv _ _ e). }
  destruct B. split; try done.
  - intros x c. rewrite HE. apply b_rank0.
  - intros x c y. rewrite HE. apply b_grp0.
  - intros x y [e' Hx]. apply b_member0. destruct (Hinv _ _ Hx) as [[-> _]|[_ ?]]; by eexists.
  - intros x e' [[-> ->]|[_ Hx]]%Hinv; [exact (b_class0 _ _ He)|by apply b_class0].
  - intros x e' [[-> ->]|[Hne Hx]]%Hinv; left; [done|]. destruct (b_dom0 _ _ Hx) as [?|(Hin&_)]; [done|]. by apply list_elem_of_singleton in Hin.
Qed.
Lemma Gr_queued : Gr w0 w L -> (hp_next (w_heap w0) <= p)%nat -> (forall x ex, hp_events (w_heap w0) !! x = Some ex -> (x < hp_next (w_heap w0))%nat) -> Gr w0 w' L.
Proof.
  intros [] Hp Hn. pose proof queued_edges as HE. split; cbn in *; try done.
  - intros x Hx Hd. rewrite lookup_insert_ne by lia. by apply fr_dead0.
  - intros x ex Hx. specialize (Hn _ _ Hx). rewrite lookup_insert_ne by lia. by apply fr_stat0.
  - intros x ex HL Hx. specialize (Hn _ _ Hx). rewrite lookup_insert_ne by lia. by apply fr_same0.
  - intros x Hx. rewrite HE. by apply fr_edges0.
  - intros x ex Hx. intros [[-> ->]|[_ Hex]]%(put_inv _ _ e); [by right|by apply (fr_new0 x)|done|done].
Qed.
End Queue.

(** ** The new events stay *)
Lemma path_mono m m' a b : (forall x, x ∈ edges m -> x ∈ edges m') -> path m a b -> path m' a b.
Proof. intros HE. induction 1; [by apply path_edge, HE|]. eapply path_cons; [by apply HE|done]. Qed.
Lemma NewK_mono n w1 w2 grp1 grp2 F now rank1 : NewK n w1 grp1 -> BI w1 F now rank1 grp1 -> w_kinds w2 = w_kinds w1 ->
  (forall x, x ∈ edges (hp_events (w_heap w1)) -> x ∈ edges (hp_events (w_heap w2))) ->
  (forall x, is_Some (hp_events (w_heap w1) !! x) -> is_Some (hp_events (w_heap w2) !! x)) ->
  (forall x, (x < hp_next (w_heap w1))%nat -> grp2 x = grp1 x) -> NewK n w2 grp2.
Proof.
  intros [] B EK HE HL HG. split; rewrite EK; try done.
  - intros y mse Hy Hr. destruct (nk_refers0 y mse Hy Hr) as (?&?&?&?). split; [done|]. split; [done|]. split; [by apply HL|by eapply path_mono].
  - intros x mse Hx Hk. rewrite HG; [by eapply nk_self0|]. eapply b_next; [done|by eexists].
Qed.
Lemma NewK_Gr n w1 w2 grp1 grp2 F now rank1 rank2 L : NewK n w1 grp1 -> BI w1 F now rank1 grp1 -> w_kinds w2 = w_kinds w1 -> Gr w1 w2 L ->
  agree (hp_next (w_heap w1)) rank1 rank2 grp1 grp2 -> NewK n w2 grp2.
Proof.
  intros N B EK Hf A. eapply NewK_mono; [done|done|done| | |by intros x Hx; apply A].
  - intros x Hx. exact (fr_edges _ _ _ Hf x Hx).
  - intros x [e He]. destruct (fr_stat _ _ _ Hf _ _ He) as (e'&He'&_). by exists e'.
Qed.

(** ** The core *)
Definition ready_prev (w : W Outcome) (now req : Z) (prev : option nat) : Prop :=
  match prev with
  | None => now <= req
  | Some p => exists e, hp_events (w_heap w) !! p = Some e /\ (ev_state e = EV_NONE \/ ev_state e = EV_QUEUED) /\ ev_class e <> ClsDelay /\
      ev_numChildren e < two32 - 2 /\ 0 <= ev_end e < 2 ^ 62 /\ req - ev_end e < two32
  end.
Definition after_prev (rank : nat -> nat) (prev : option nat) : nat := match prev with Some p => (rank p + 2)%nat | None => O end.

(** The state after the access: the graph is complete. *)
Record Final (w w' : W Outcome) (i : nat) (now : Z) (rank rank' : nat -> nat) (grp grp' : nat -> option nat) : Prop := {
  fi_bi : BI w' [] now rank' grp';
  fi_gr : exists L, Gr w w' L;
  fi_agree : agree (hp_next (w_heap w)) rank rank' grp grp';
  fi_new : NewK (hp_next (w_heap w)) w' grp';
  fi_slot : slot (w_recs w') i None }.

Lemma new_mem_ok {A} dom lat mn w (K : nat -> M (W Outcome) A) (Q : A -> W Outcome -> Prop) :
  (let p := hp_next (w_heap w) in wp (K p) Q (create None (fresh_ev (ClsMem lat) 0 0 dom mn) w)) ->
  wp (p ← onHeap (new_TimingEvent (ClsMem lat) 0 0 dom); onHeap (setMinStartCycle p mn);; K p) Q w.
Proof.
  intros HQ. unfold setMinStartCycle, modify_ev, wp, mbind, M_bind, onHeap, new_TimingEvent, get_ev in *. cbn.
  rewrite lookup_insert_eq. cbn. rewrite insert_insert_eq. exact HQ.
Qed.

(** The access is built, and an event of the core follows it. *)
Record Ready1 (w w' : W Outcome) (now : Z) (rank rank' : nat -> nat) (grp grp' : nat -> option nat) (req : Z) (r0 st : nat) : Prop := {
  r1_bi : BI w' [st] now rank' grp';
  r1_gr : Gr w w' [];
  r1_agree : agree (hp_next (w_heap w)) rank rank' grp grp';
  r1_new : NewK (hp_next (w_heap w)) w' grp';
  r1_st : (exists ed, ev_at w' st req ed 0 51) /\ pre0 w' st /\ rank' st = r0 /\ grp' st = None;
  r1_id : (hp_next (w_heap w) <= st)%nat }.

Lemma core_event {A} w w1 now rank rank1 grp grp1 req resp r0 st en (K : nat -> M (W Outcome) A) (Q : A -> W Outcome -> Prop) F0 :
  BI w F0 now rank grp -> Built w w1 now rank rank1 grp grp1 req resp r0 st en ->
  (forall w' rank' grp' r, Ready1 w w' now rank rank' grp grp' req r0 st -> w_recs w' = w_recs w1 -> wp (K r) Q w') ->
  wp (c ← onHeap (new_TimingEvent (ClsMem 0) 0 0 (domain (w_tc w1))); onHeap (setMinStartCycle c resp);; r ← link en c; K r) Q w1.
Proof.
  intros B0 [B G A1 N (ed&Hst&Pst&Rst&Gst&Hen) Hr [Ist Ien]] HQ. apply new_mem_ok. set (c := hp_next (w_heap w1)). cbn zeta. set (w2 := create _ _ w1).
  destruct (create_spec w1 [st] now rank1 grp1 None (ClsMem 0) 0 0 (domain (w_tc w1)) resp (Datatypes.S (rank1 en)) None B) as (B2&Fr2&A2&H2);
    [by unfold two32|by unfold two32|unfold BIG; lia|done|by right; exists 0|by left|by intros [? ?]|]. specialize (H2 ltac:(done) eq_refl). fold c w2 in B2, Fr2, A2, H2.
  set (r2 := upd rank1 c _) in *. set (g2 := upd grp1 c _) in *.
  assert (Hc : r2 c = Datatypes.S (rank1 en) /\ g2 c = None) by (unfold r2, g2; by rewrite !upd_eq). destruct Hc as [Rc Gc].
  pose proof (ev_at_lt _ _ _ _ _ _ _ _ _ _ B Hst) as Lst. fold c in Lst.
  assert (Hst2 : ev_at w2 st req ed 0 50) by (eapply Fr_ev_at; [exact Fr2|apply not_elem_of_nil|exact Hst]).
  assert (He : exists mn np, ev_at w2 en mn resp np 50 /\ (en < c)%nat /\ (en = st -> mn = req /\ np = 0 /\ ed = resp)).
  { destruct Hen as [[-> ->]|[Hne [mn Hen]]]; [by exists req, 0|]. exists mn, 50. split; [eapply Fr_ev_at; [exact Fr2|apply not_elem_of_nil|exact Hen]|].
    split; [exact (ev_at_lt _ _ _ _ _ _ _ _ _ _ B Hen)|done]. }
  destruct He as (mn&np&He&Len&Hsame). apply wp_bind.
  eapply (link_spec w2 [c; st] now r2 g2 en c); [done|exact He|exact H2|lia|apply list_elem_of_here|lia|by unfold two32| | |].
  { rewrite Rc, (proj1 (A2 en Len)). lia. }
  { intros x. by rewrite Gc. }
  intros w3 B3 Fr3 K3 He3 Hc3 HL3 _.
  assert (HG2 : Gr w w2 []) by (eapply Gr_trans; [exact G|by apply Fr_Gr]).
  apply (HQ w3 r2 g2); [|by rewrite (fr_recs _ _ _ Fr3)]. split.
  - eapply (BI_settle w3 [c; st] [st] c); [done|done|exact Hc3|exact HL3|lia].
  - eapply Gr_after; [exact HG2|apply Fr_Gr; exact Fr3| |by eapply Fr_lt]. intros x Hx. pose proof (Gr_next _ _ _ G). rewrite !elem_of_cons, elem_of_nil in Hx. destruct Hx as [->|[->|[]]]; unfold c; lia.
  - eapply agree_trans; [exact A1|exact A2|exact (Gr_next _ _ _ G)].
  - assert (N2 : NewK (hp_next (w_heap w)) w2 g2) by (eapply (NewK_Gr _ w1 w2); [done|done|done|by apply Fr_Gr|done]).
    eapply (NewK_Gr _ w2 w3); [done|done|done|by apply Fr_Gr|by intros x _].
  - rewrite (proj1 (A2 st Lst)), (proj2 (A2 st Lst)). split; [|split; [eapply Fr_pre0; [exact Fr3|by eapply Fr_pre0]|done]]. exists ed.
    destruct (decide (en = st)) as [->|Hne]; [destruct (Hsame eq_refl) as (->&->&->); exact He3|].
    apply (ev_at_mono _ _ _ _ 0 50); [|lia|lia]. eapply Fr_ev_at; [exact Fr3| |exact Hst2]. rewrite !not_elem_of_cons. split; [done|]. split; [lia|apply not_elem_of_nil].
  - done.
Qed.

Lemma record_core_spec w w1 i now rank rank1 grp grp1 req resp r0 st en tr prev : BI w [] now rank grp -> Built w w1 now rank rank1 grp grp1 req resp r0 st en ->
  tr_of tr req resp st en -> slot (w_recs w1) i (Some tr) -> r0 = after_prev rank prev -> ready_prev w now req prev -> 0 <= req < 2 ^ 61 ->
  wp (record_core i prev) (fun _ w' => exists rank' grp', Final w w' i now rank rank' grp grp') w1.
Proof.
  intros B0 HB (T1&T2&T3&T4) HS Hr0 Hp Hreq. unfold record_core. apply wp_bind. eapply pop_spec; [exact HS|]. intros recs HS'. apply wp_bind, wp_get.
  unfold the_event. rewrite T3, T4. apply wp_bind, wp_lift. cbn [from_opt rwp]. apply wp_bind, wp_lift. cbn [from_opt rwp]. rewrite T1, T2.
  assert (HB' : Built w (with_recs recs w1) now rank rank1 grp grp1 req resp r0 st en).
  { destruct HB as [Bi G A N S Hb I]. split; [by apply BI_recs|done|done|by destruct N|done|done|done]. }
  eapply (core_event w (with_recs recs w1)); [done|exact HB'|]. intros w3 rank3 grp3 _ [B3 G3 A3 N3 ([ed Hst]&Pst&Rst&Gst) Ist] Erec. cbn in Erec.
  destruct prev as [p|]; cbn in Hp, Hr0.
  - destruct Hp as (e&He&Hs&Hcl&Hnk&Hend&Hlen). pose proof (Fr_lt _ _ _ _ _ B0 _ _ He) as Lp. pose proof (Gr_next _ _ _ G3) as Hn.
    assert (Hp0 : ev_at w p (ev_minStartCycle e) (ev_end e) (ev_numParents e) (ev_numChildren e)).
    { exists e. repeat (split; [done|]). destruct (b_dom _ _ _ _ _ B0 _ _ He) as [?|(?%elem_of_nil&_)]; done. }
    assert (Hp3 : ev_at w3 p (ev_minStartCycle e) (ev_end e) (ev_numParents e) (ev_numChildren e)) by (eapply Gr_ev_at; [exact G3|apply not_elem_of_nil|exact Hp0]).
    assert (He3 : hp_events (w_heap w3) !! p = Some e) by exact (fr_same _ _ _ G3 p e ltac:(apply not_elem_of_nil) He).
    apply wp_bind. eapply (wp_onHeap_ok _ _ _ e (w_heap w3)); [unfold get_ev; by rewrite He3|]. replace (with_heap (w_heap w3) w3) with w3 by (by destruct w3).
    eapply (link_after_spec w3 [st] now rank3 grp3 p st); [done|exact Hp3|exact Hst|lia|apply list_elem_of_here|lia|lia|unfold two32 in *; lia|lia|unfold BIG; lia| | |].
    + rewrite (proj1 (A3 p Lp)), Rst. lia.
    + intros x. by rewrite Gst.
    + intros w4 rank4 grp4 B4 Fr4 A4 K4 _ Hst4 HL4 _. exists rank4, grp4. split.
      * eapply (BI_settle w4 [st] [] st); [done|done|exact Hst4|exact HL4|lia].
      * exists [p; st]. eapply Gr_trans; [|apply Fr_Gr; exact Fr4]. eapply Fr_mono; [exact G3|]. intros x Hx. by apply elem_of_nil in Hx.
      * by eapply agree_trans.
      * eapply (NewK_Gr _ w3 w4); [done|done|done|apply Fr_Gr; exact Fr4|done].
      * by rewrite (fr_recs _ _ _ Fr4), Erec.
  - destruct (Hst) as (e&He&Hs&Hcl&Hm&_&Hnp&_&Hd). destruct Pst as (e'&He'&Hpre). rewrite He in He'. injection He' as <-. 
    assert (Hs0 : ev_state e = EV_NONE) by (destruct (decide (ev_state e = EV_NONE)) as [|Hx]; [done|]; destruct (g_busy _ _ _ _ (b_gi _ _ _ _ _ B3) _ _ He Hx) as [_ Hn]; by destruct Hn; apply list_elem_of_here).
    destruct (queue_GI _ now st e req (b_gi _ _ _ _ _ B3) He Hs0 Hnp Hcl) as [E G4]; [lia|unfold BIG; lia|].
    eapply wp_onHeap_ok; [exact E|]. exists rank3, grp3. split.
    + by eapply (BI_queued w3 st e).
    + exists []. eapply Gr_queued; [done|done|done|done|by eapply Fr_lt].
    + done.
    + eapply (NewK_mono _ w3); [done|done|done| |by apply queued_live|done]. intros x Hx. by rewrite (queued_edges w3 st e).
    + cbn. by rewrite Erec.
Qed.
End TCC.
