(* ===== verification/TimingCacheThms.v ===== *)
(** * The timing cache is safe and makes progress

    Any sequence of accesses and weave-phase steps, within the limits of [legal], keeps the
    invariant: no assertion fires, at most [numMSHRs] misses are in flight, an access waits
    only while every MSHR is in use, and whatever waits is woken. *)

From S2P Require Import Prelude Bithacks MemHier TimingEvent CoreRecorder EventTree TimingCache TimingCachePort TimingCacheDag TimingCacheInv TimingCacheBuild TimingCacheMiss TimingCacheAccess TimingCacheCore.
Import TCache TCP TCD TCI TCB TCM TCA TCC.

Module TCT.

(** ** The invariant after an access *)
Lemma St_BI rank grp w now used : St rank grp w now [] used -> BI w [] now rank grp.
Proof.
  intros [G [] ? ? ? ? ? ? Hd ? Hc ?]. split; try done. intros p e He. left. by eapply Hd.
Qed.

Section Assemble.
Context (rank rank' : nat -> nat) (grp grp' : nat -> option nat) (w w' : W Outcome) (i : nat) (now : Z) (used : list Z) (act : list nat).
Context (I : St rank grp w now [] used) (FI : Final w w' i now rank rank' grp grp').
Let n := hp_next (w_heap w).

Lemma fin_tc : w_tc w' = w_tc w.
Proof. destruct (fi_gr _ _ _ _ _ _ _ _ FI) as [L Hf]. exact (fr_tc _ _ _ Hf). Qed.
Lemma fin_old x : (x < n)%nat -> w_kinds w' !! x = w_kinds w !! x /\ grp' x = grp x /\
  (is_Some (hp_events (w_heap w') !! x) <-> is_Some (hp_events (w_heap w) !! x)).
Proof.
  intros Hx. destruct (fi_gr _ _ _ _ _ _ _ _ FI) as [L Hf]. split; [exact (fr_kinds _ _ _ Hf x Hx)|]. split; [by apply (fi_agree _ _ _ _ _ _ _ _ FI)|].
  split; intros [e He].
  - destruct (hp_events (w_heap w) !! x) as [e0|] eqn:E; [by eexists|]. pose proof (fr_dead _ _ _ Hf x Hx E) as E'. cbn in E'. congruence.
  - destruct (fr_stat _ _ _ Hf _ _ He) as (e'&He'&_). by exists e'.
Qed.
Lemma fin_path a b : path (hp_events (w_heap w)) a b -> path (hp_events (w_heap w')) a b.
Proof. destruct (fi_gr _ _ _ _ _ _ _ _ FI) as [L Hf]. apply path_mono. intros x Hx. exact (fr_edges _ _ _ Hf x Hx). Qed.
Lemma old_kind x : is_Some (w_kinds w !! x) -> (x < n)%nat.
Proof. apply (k_next _ _ _ _ _ (s_ki _ _ _ _ _ _ I)). Qed.
(** A kind of an old event, or of a new one. *)
Lemma kind_split x k : w_kinds w' !! x = Some k -> (w_kinds w !! x = Some k /\ (x < n)%nat) \/ (n <= x)%nat.
Proof. intros Hk. destruct (decide (x < n)%nat) as [Hx|]; [|right; lia]. left. split; [|done]. by rewrite <- (proj1 (fin_old x Hx)). Qed.
Lemma refers_split x mse : refers (w_kinds w' !! x) mse -> (refers (w_kinds w !! x) mse /\ (x < n)%nat /\ (mse < n)%nat) \/ ((n <= x)%nat /\ (n <= mse)%nat).
Proof.
  intros Hr. destruct (decide (x < n)%nat) as [Hx|Hx].
  - rewrite (proj1 (fin_old x Hx)) in Hr. left. split; [done|]. split; [done|]. apply old_kind.
    destruct (k_start _ _ _ _ _ (s_ki _ _ _ _ _ _ I) _ _ Hr) as (s&Hs&_). by eexists.
  - right. split; [lia|]. apply (nk_refers _ _ _ (fi_new _ _ _ _ _ _ _ _ FI) x mse); [unfold n in *; lia|done].
Qed.

Lemma Final_KI : KI (hp_events (w_heap w')) (w_kinds w') (hp_next (w_heap w')) rank' grp'.
Proof.
  pose proof (s_ki _ _ _ _ _ _ I) as K. pose proof (fi_bi _ _ _ _ _ _ _ _ FI) as B. pose proof (fi_new _ _ _ _ _ _ _ _ FI) as N. split.
  - by apply B.
  - by apply B.
  - by apply B.
  - intros x mse Hx. destruct (kind_split _ _ Hx) as [[Hk Hl]|Hn]; [|by eapply nk_self]. rewrite (proj1 (proj2 (fin_old x Hl))). by eapply k_self.
  - by apply B.
  - intros x mse Hr Hm. destruct (refers_split _ _ Hr) as [(Hr0&Hx&Hl)|[Hx Hl]]; [|by eapply nk_refers]. apply fin_path, (k_path _ _ _ _ _ K); [done|]. by apply fin_old in Hm.
  - intros x s Hk Hx. destruct (kind_split _ _ Hk) as [[Hk0 Hl]|Hn]; [|by eapply nk_wb].
    destruct (k_wb _ _ _ _ _ K x s Hk0) as (y&Hy); [by apply fin_old in Hx|]. exists y. rewrite (proj1 (fin_old y (old_kind y ltac:(by eexists)))). done.
  - intros x x' mse Hx Hx'. destruct (refers_split x mse ltac:(by right)) as [(Hr&Hl&Hm)|[Hl Hm]], (refers_split x' mse ltac:(by right)) as [(Hr'&Hl'&Hm')|[Hl' Hm']]; try lia.
    + rewrite (proj1 (fin_old x Hl)) in Hx. rewrite (proj1 (fin_old x' Hl')) in Hx'. by eapply k_uniq.
    + by eapply nk_uniq.
  - intros x mse Hr. destruct (refers_split _ _ Hr) as [(Hr0&Hx&Hl)|[Hx Hl]].
    + destruct (k_start _ _ _ _ _ K _ _ Hr0) as (s&Hs&Hd). exists s. rewrite (proj1 (fin_old mse Hl)). split; [done|]. intros Hn. apply Hd.
      apply eq_None_not_Some. intros Hy%fin_old; [|done]. rewrite Hn in Hy. by destruct Hy.
    + destruct (nk_refers _ _ _ N x mse Hx Hr) as (_&Hk&Hl'&_). exists None. split; [done|]. intros Hn. rewrite Hn in Hl'. by destruct Hl'.
  - by apply B.
Qed.

Lemma Final_ev x e' : hp_events (w_heap w') !! x = Some e' ->
  (exists e, hp_events (w_heap w) !! x = Some e /\ ev_state e' = ev_state e /\ ev_minStartCycle e' = ev_minStartCycle e /\ ev_preDelay e' = ev_preDelay e) \/
  ev_state e' = EV_NONE \/ ev_state e' = EV_QUEUED.
Proof.
  intros He'. destruct (fi_gr _ _ _ _ _ _ _ _ FI) as [L Hf]. destruct (decide (n <= x)%nat) as [Hn|Hn]; [right; by eapply (fr_new _ _ _ Hf)|].
  destruct (proj1 (proj2 (proj2 (fin_old x ltac:(lia)))) ltac:(by eexists)) as [e He]. left. exists e. split; [done|].
  destruct (fr_stat _ _ _ Hf _ _ He) as (e0&He0&_&?&?&_&?). cbn in He0. simplify_eq. done.
Qed.

Lemma Final_St : St rank' grp' w' now [] used.
Proof.
  pose proof fin_tc as Et. pose proof (fi_bi _ _ _ _ _ _ _ _ FI) as B. pose proof Final_KI as K. pose proof I as [_ _ Ire _ Iheld Ihnd Ihk Ihmin _ Iport Icfg _].
  destruct (fi_gr _ _ _ _ _ _ _ _ FI) as [L Hf]. split; rewrite ?Et; try done.
  - by apply B.
  - intros x e' He' _. destruct (Final_ev _ _ He') as [(e&He&-> &_)|[->| ->]]; [|by left|by right; left]. eapply Ire; [done|apply not_elem_of_nil].
  - intros x Hx. by apply elem_of_nil in Hx.
  - intros x. rewrite Iheld. split; intros (e&He&Hs).
    + destruct (fr_stat _ _ _ Hf _ _ He) as (e'&He'&_&Es&_). exists e'. split; [done|congruence].
    + destruct (Final_ev _ _ He) as [(e0&He0&Es&_)|[?|?]]; [|congruence..]. exists e0. split; [done|congruence].
  - intros x Hx. pose proof (Ihk _ Hx) as Hk. rewrite (proj1 (fin_old x (old_kind x ltac:(destruct Hk as [->|[? ->]]; by eexists)))). done.
  - intros x e' He' Hs. destruct (Final_ev _ _ He') as [(e&He&Es&-> &->)|[?|?]]; [|congruence..]. apply (Ihmin x); [done|congruence].
  - intros x e' He'. rewrite <- Et. by destruct (b_dom _ _ _ _ _ B _ _ He') as [?|(?%elem_of_nil&_)].
  - eapply slot_none. by apply FI.
Qed.

Lemma Final_MI : MI w now act -> MI w' now act.
Proof.
  intros []. pose proof fin_tc as Et. split; rewrite ?Et; try done. intros x. rewrite m_in0. unfold active. split.
  - intros (mse&Hk&Hl&Hd). assert (Hx : (x < n)%nat) by (apply old_kind; by eexists).
    destruct (k_start _ _ _ _ _ (s_ki _ _ _ _ _ _ I) x mse ltac:(by right)) as (s&Hs&_). assert (Hm : (mse < n)%nat) by (apply old_kind; by eexists).
    exists mse. rewrite (proj1 (fin_old x Hx)). split; [done|]. split; [by apply fin_old|]. apply eq_None_not_Some. intros Hy%fin_old; [|done]. rewrite Hd in Hy. by destruct Hy.
  - intros (mse&Hk&Hl&Hd). destruct (refers_split x mse ltac:(by right)) as [(Hr&Hx&Hm)|[Hx Hm]].
    + exists mse. rewrite (proj1 (fin_old x Hx)) in Hk. split; [done|]. split; [by apply fin_old in Hl|]. apply eq_None_not_Some. intros Hy. apply fin_old in Hy; [|done]. rewrite Hd in Hy. by destruct Hy.
    + destruct (nk_refers _ _ _ (fi_new _ _ _ _ _ _ _ _ FI) x mse Hx ltac:(by right)) as (_&_&Hl'&_). rewrite Hd in Hl'. by destruct Hl'.
Qed.
End Assemble.

(** ** The configuration does not change *)
Definition conf (c : t) : Z * Z * Z * Z * Z * Z := (numMSHRs c, domain c, accLat c, ways c, cands c, tagLat c).
Definition keeps_conf {A} (m : M (W Outcome) A) : Prop := forall w a w', m w = Ok (a, w') -> conf (w_tc w') = conf (w_tc w).
Lemma conf_bind {A B} (m : M (W Outcome) A) (k : A -> M (W Outcome) B) : keeps_conf m -> (forall a, keeps_conf (k a)) -> keeps_conf (m ≫= k).
Proof.
  intros Hm Hk w b w' E. unfold mbind, M_bind in E. destruct (m w) as [[a w1]|] eqn:E1; [|done].
  rewrite (Hk a _ _ _ E). by apply (Hm _ _ _ E1).
Qed.
Lemma conf_ret {A} (a : A) : keeps_conf (mret a).
Proof. intros w b w' E. unfold mret, M_ret in E. by simplify_eq. Qed.
Lemma conf_get : keeps_conf mget.
Proof. intros w b w' E. unfold mget in E. by simplify_eq. Qed.
Lemma conf_assert b msg : keeps_conf (massert b msg).
Proof. intros w a w' E. unfold massert in E. destruct b; by simplify_eq. Qed.
Lemma conf_lift {A} (r : res A) : keeps_conf (mlift r).
Proof. intros w a w' E. unfold mlift in E. destruct r; by simplify_eq. Qed.
Lemma conf_fail {A} msg : keeps_conf (mfail msg : M (W Outcome) A).
Proof. intros w a w' E. done. Qed.
Lemma conf_modify f : (forall w, w_tc (f w) = w_tc w) -> keeps_conf (mmodify f).
Proof. intros Hf w a w' E. unfold mmodify in E. simplify_eq. by rewrite Hf. Qed.
Lemma conf_onHeap {A} (m : EvM A) : keeps_conf (onHeap m).
Proof. intros w a w' E. unfold onHeap in E. destruct (m (w_heap w)) as [[? ?]|]; by simplify_eq. Qed.
Lemma conf_onTc {A} (m : M t A) : (forall c a c', m c = Ok (a, c') -> conf c' = conf c) -> keeps_conf (onTc m).
Proof. intros Hm w a w' E. unfold onTc in E. destruct (m (w_tc w)) as [[? c]|] eqn:E1; simplify_eq. by apply (Hm _ _ _ E1). Qed.
Lemma conf_upd f : (forall c, conf (f c) = conf c) -> keeps_conf (onTc (mmodify f)).
Proof. intros Hf. apply conf_onTc. intros c a c' E. unfold mmodify in E. by simplify_eq. Qed.
Lemma conf_mapM {A} (f : A -> M (W Outcome) unit) l : (forall a, keeps_conf (f a)) -> keeps_conf (mapM_ f l).
Proof. intros Hf. induction l; cbn; [apply conf_ret|]. apply conf_bind; [done|]. by intros _. Qed.
Lemma conf_high cyc : keeps_conf (onTc (highPrioAccess cyc)).
Proof. apply conf_onTc. intros c a c' E. unfold highPrioAccess, mbind, M_bind, mget, massert, mmodify, mret, M_ret in E. destruct (_ <=? _); by simplify_eq. Qed.
Lemma conf_low cyc : keeps_conf (onTc (tryLowPrioAccess cyc)).
Proof. apply conf_onTc. intros c a c' E. unfold tryLowPrioAccess, mbind, M_bind, mget, mmodify, mret, M_ret in E. destruct (_ || _); by simplify_eq. Qed.
#[local] Hint Resolve conf_ret conf_get conf_assert conf_lift conf_fail conf_onHeap conf_upd conf_high conf_low : conf.
Ltac conf_tac := repeat first [by auto with conf | by apply conf_modify | by apply conf_mapM; auto with conf | apply conf_bind; [|intros ?] | destruct (_ <? _) | destruct (negb _) | destruct (_ =? _)].

Lemma conf_step k : keeps_conf (step k).
Proof.
  unfold step, run_event. apply conf_bind; [auto with conf|intros s]. apply conf_bind; [auto with conf|intros [p c]]. apply conf_bind; [by apply conf_modify|intros _].
  apply conf_bind; [|auto with conf]. apply conf_bind; [auto with conf|intros e]. apply conf_bind; [auto with conf|intros s1].
  assert (Hd : forall q x, keeps_conf (done q x)) by (intros; unfold done; conf_tac).
  assert (Ht : forall x y, keeps_conf (transition x y)) by (intros; unfold transition; conf_tac).
  assert (Hp : forall q, keeps_conf (park q)) by (intros; unfold park; conf_tac).
  assert (Hs : forall q kd, keeps_conf (setKind q kd)) by (intros; unfold setKind; by apply conf_modify).
  assert (Hc : forall q, keeps_conf (startCycle q)) by (intros; unfold startCycle; apply conf_bind; [auto with conf|intros s2]; destruct (_ !! q) as [[|[]| | |]|]; auto with conf).
  destruct (w_kinds s1 !! p) as [[| | | |]|].
  - unfold simulateHit. apply conf_bind; [auto with conf|intros s2]. destruct (_ <? _); [|done]. conf_tac.
  - unfold simulateMissStart. conf_tac.
  - unfold simulateMissResponse. conf_tac.
  - unfold simulateMissWriteback. conf_tac.
  - unfold simulateReplAccess. conf_tac.
  - destruct (ev_class e); auto with conf.
Qed.

(** ** Runs *)
Definition cfg_ok (c : t) : bool :=
  (0 <? numMSHRs c) && (numMSHRs c <? two32 - 1) && negb (domain c =? -1) && (0 <=? accLat c) && (accLat c <? 2 ^ 31) && (2 <=? ways c) && (ways c <? 2 ^ 31) &&
  (0 <=? cands c) && (cands c <? 2 ^ 31) && (1 <=? tagLat c) && (tagLat c <? 2 ^ 31).
Definition wm_ok (wm : WM.t) (c : t) : bool :=
  (0 <? WM.latency wm) && (WM.latency wm <? 2 ^ 30) && (0 <=? WM.zeroLoadLatency wm) && (WM.domain wm =? domain c).

(** The core's event [prev] is still to run, and an access without one is not in the past. *)
Definition prev_ok (s : Sys) (cyc : Z) (prev : option nat) : bool :=
  match prev with
  | None => s_now s <=? cyc
  | Some p => match hp_events (w_heap (s_w s)) !! p with
              | Some e => (bool_decide (ev_state e = EV_NONE) || bool_decide (ev_state e = EV_QUEUED)) && bool_decide (ev_class e <> ClsDelay) &&
                  (ev_numChildren e <? two32 - 2) && (0 <=? ev_end e) && (ev_end e <? 2 ^ 62) && (cyc - ev_end e <? two32)
              | None => false
              end
  end.
(** The weave phase runs the events in the order of their cycles. *)
Definition legal (wm : WM.t) (o : op) (s : Sys) : bool :=
  match o with
  | Access i _ ty cyc out prev => bool_decide (i < length (w_recs (s_w s)))%nat && (0 <? cyc) && (cyc <? 2 ^ 61) && outcome_ok wm ty out && prev_ok s cyc prev
  | Step k => match hp_queue (w_heap (s_w s)) !! k with
              | Some (_, c) => bool_decide (Forall (fun x => c <= x.2) (hp_queue (w_heap (s_w s)))) && (0 <? c) && (c <? 2 ^ 62)
              | None => false
              end
  end.
Fixpoint legal_run (wm : WM.t) (lineBits : Z) (l : list op) (s : Sys) : bool :=
  match l with
  | [] => true
  | o :: l => legal wm o s && match do_op wm lineBits o s with Ok (_, s') => legal_run wm lineBits l s' | Err _ => true end
  end.

Record Inv (wm : WM.t) (c : t) (k : nat) (s : Sys) (rank : nat -> nat) (grp : nat -> option nat) (used : list Z) (act : list nat) : Prop := {
  i_st : St rank grp (s_w s) (s_now s) [] used;
  i_mi : MI (s_w s) (s_now s) act;
  i_now : 2 <= s_now s;
  i_used : (length used <= k)%nat;
  i_conf : conf (w_tc (s_w s)) = conf c;
  i_mem : mem_ok wm c }.

Lemma St_x rank grp w now R used x : St rank grp w now R used -> St rank grp (mkW x (w_tc w) (w_kinds w) (w_recs w) (w_heap w)) now R used.
Proof. intros []. by split. Qed.
Lemma mem_conf wm c c' : mem_ok wm c -> conf c' = conf c -> mem_ok wm c'.
Proof. intros [] E. injection E as _ E _ _ _ _. split; try done. congruence. Qed.
Lemma prev_elim s cyc prev : prev_ok s cyc prev = true -> ready_prev (s_w s) (s_now s) cyc prev.
Proof.
  destruct prev as [p|]; cbn; [|lia]. destruct (hp_events (w_heap (s_w s)) !! p) as [e|]; [|done]. intros H. exists e. split; [done|].
  repeat (apply andb_true_iff in H as [H ?]). apply orb_true_iff in H. rewrite !bool_decide_eq_true in *. repeat (split; [done|]). split; [lia|]. split; lia.
Qed.

Lemma do_access_inv wm lineBits c k s rank grp used act i addr ty cyc out prev : Inv wm c k s rank grp used act -> legal wm (Access i addr ty cyc out prev) s = true ->
  exists s' rank' grp', do_op wm lineBits (Access i addr ty cyc out prev) s = Ok (tt, s') /\ Inv wm c k s' rank' grp' used act.
Proof.
  intros [I Mi Hn Hu Hc Hm] HL. cbn in HL. repeat (apply andb_true_iff in HL as [HL ?]). apply bool_decide_eq_true in HL.
  set (w := mkW out (w_tc (s_w s)) (w_kinds (s_w s)) (w_recs (s_w s)) (w_heap (s_w s))). apply (St_x _ _ _ _ _ _ out) in I. fold w in I.
  assert (Mi' : MI w (s_now s) act) by (destruct Mi; by split). pose proof (St_BI _ _ _ _ _ I) as B.
  set (req := mkMemReq addr ty 0 (RefDummy 0) cyc None StI i 0). cbn [do_op]. fold req w.
  assert (HW : wp (@access Outcome (env_cc wm) lineBits req ≫= fun _ => record_core i prev)
    (fun _ w' => exists rank' grp', St rank' grp' w' (s_now s) [] used /\ MI w' (s_now s) act /\ w_tc w' = w_tc w) w).
  { apply wp_bind. eapply (tcache_access_spec wm lineBits w (s_now s) rank grp req (after_prev rank prev)); [done|apply none_slot; [by eapply s_recs|done]|by eapply mem_conf|cbn; lia|done|done| |].
    - intros _. unfold record_core. apply wp_bind. eapply pop_spec; [apply none_slot; [by eapply s_recs|exact HL]|]. intros recs' HS. apply wp_ret.
      exists rank, grp. split; [|split; [by destruct Mi'|done]]. destruct I. split; try done. by eapply slot_none.
    - intros w1 rank1 grp1 st en tr resp HB T HS. eapply wp_mono; [eapply (record_core_spec w w1); [done|exact HB|exact T|exact HS|done|by apply (prev_elim s)|cbn; lia]|].
      intros [] w' (rank'&grp'&FI). exists rank', grp'. split; [by eapply Final_St|]. split; [by eapply Final_MI|by eapply fin_tc]. }
  destruct (wp_elim _ _ _ HW) as ([]&w'&E&rank'&grp'&I'&M'&Et). fold req w in E |- *. rewrite E. eexists _, rank', grp'. split; [done|].
  split; cbn; try done. by rewrite Et.
Qed.

Lemma do_step_inv wm lineBits c k s rank grp used act j : Inv wm c k s rank grp used act -> legal wm (Step j) s = true -> Z.of_nat k < 2 ^ 61 ->
  exists s' used' act', do_op wm lineBits (Step j) s = Ok (tt, s') /\ Inv wm c (Datatypes.S k) s' rank grp used' act'.
Proof.
  intros [I Mi Hn Hu Hc Hm] HL Hk. cbn in HL. destruct (hp_queue (w_heap (s_w s)) !! j) as [[p x]|] eqn:Ej; [|done].
  repeat (apply andb_true_iff in HL as [HL ?]). pose proof HL as HF. apply bool_decide_eq_true in HF.
  assert (Hq : first_in_queue (w_heap (s_w s)) j p x).
  { split; [done|]. intros a b Hab. rewrite list.Forall_forall in HF. by apply (HF (a, b)). }
  destruct (wp_elim _ _ _ (step_spec_tc _ _ _ _ _ _ _ _ _ I Mi Hn ltac:(unfold few; lia) Hq ltac:(lia))) as (r&w'&E&->&Hle&act'&used'&I'&M'&Hl).
  cbn [do_op]. rewrite E. eexists _, used', act'. split; [done|]. split; cbn; try done; [lia|lia|]. by rewrite (conf_step _ _ _ _ E).
Qed.

Lemma run_inv wm lineBits c l : forall k s rank grp used act, Inv wm c k s rank grp used act -> legal_run wm lineBits l s = true ->
  Z.of_nat (k + length l) < 2 ^ 61 -> exists s' k' rank' grp' used' act', run wm lineBits l s = Ok (tt, s') /\ Inv wm c k' s' rank' grp' used' act' /\ (k' <= k + length l)%nat.
Proof.
  induction l as [|o l IH]; intros k s rank grp used act HI HL Hk.
  { exists s, k, rank, grp, used, act. split; [done|]. split; [done|cbn; lia]. }
  cbn [legal_run run length] in *. apply andb_true_iff in HL as [Ho HL].
  assert (H1 : exists s1 k1 rank1 grp1 used1 act1, do_op wm lineBits o s = Ok (tt, s1) /\ Inv wm c k1 s1 rank1 grp1 used1 act1 /\ (k1 <= Datatypes.S k)%nat).
  { destruct o as [i addr ty cyc out prev|j].
    - destruct (do_access_inv wm lineBits c k s rank grp used act i addr ty cyc out prev HI Ho) as (s1&r1&g1&E&I1). exists s1, k, r1, g1, used, act. split; [done|]. split; [done|lia].
    - destruct (do_step_inv wm lineBits c k s rank grp used act j HI Ho ltac:(lia)) as (s1&u1&a1&E&I1). exists s1, (Datatypes.S k), rank, grp, u1, a1. split; [done|]. split; [done|lia]. }
  destruct H1 as (s1&k1&r1&g1&u1&a1&E&I1&Hk1). rewrite E in HL. destruct (IH k1 s1 r1 g1 u1 a1 I1 HL ltac:(lia)) as (s'&k'&r'&g'&u'&a'&E'&I'&Hk').
  exists s', k', r', g', u', a'. split; [unfold mbind, M_bind; by rewrite E|]. split; [done|lia].
Qed.

(** ** A new cache *)
Lemma cfg_elim c : cfg_ok c = true -> cfg c.
Proof. intros H. unfold cfg_ok in H. repeat (apply andb_true_iff in H as [H ?]). split; lia. Qed.
Lemma mem_elim lat zll dom wm c : WM.init lat zll dom = Ok wm -> wm_ok wm c = true -> mem_ok wm c.
Proof.
  unfold WM.init, rassert. destruct (Z.leb_spec zll lat) as [Hz|]; [|done]. cbn. intros [= <-] H. unfold wm_ok in H. cbn in H.
  repeat (apply andb_true_iff in H as [H ?]).
  assert (0 <= zll / 2 <= zll) by (split; [apply Z.div_pos; lia|apply Z.div_le_upper_bound; lia]).
  split; cbn; try lia. apply u32_small. unfold two32. lia.
Qed.

Definition quiet (recs : list EventRecorder) : bool := forallb (fun er => negb (hasRecord er)) recs.
Lemma boot_spec mshrs tagLat ways cands accLat dom lat zll wm c recs : init mshrs tagLat ways cands accLat dom = Ok c -> cfg_ok c = true ->
  WM.init lat zll dom = Ok wm -> wm_ok wm c = true -> quiet recs = true ->
  Inv wm c 0 (boot c recs) (fun _ => O) (fun _ => None) [] [] /\ numMSHRs c = mshrs.
Proof.
  intros Hi Hc%cfg_elim Hw Hm Hq. pose proof (mem_elim _ _ _ _ _ Hw Hm) as HM. clear Hw Hm.
  unfold init, rassert in Hi. destruct (Z.ltb_spec 0 mshrs) as [Hpos|]; [|done]. cbn in Hi. injection Hi as <-.
  assert (He : forall p, hp_events empty_heap !! p = None) by (intros p; apply lookup_empty).
  assert (Hne : forall q x, (q, x) ∉ edges (hp_events empty_heap)) by (intros q x (e&E&_)%elem_edges; by rewrite He in E).
  assert (Hk : forall p : nat, (∅ : gmap nat Kind) !! p = None) by (intros p; apply lookup_empty).
  split; [|done]. split; cbn; try done.
  - split; cbn; try done.
    + split; intros *; rewrite ?app_nil_r; try (intros Hx; exfalso; (by apply Hne in Hx) || (by rewrite He in Hx) || (by apply elem_of_nil in Hx)).
      * cbn. split; [intros Hx; by apply elem_of_nil in Hx|]. intros (e&Hx&_). by rewrite He in Hx.
      * constructor.
    + split; intros *; rewrite ?Hk; try (intros Hx; exfalso; (by apply Hne in Hx) || (by rewrite He in Hx)); try done.
      all: by intros [?|?] || intros [? ?].
    + intros p Hx. by apply elem_of_nil in Hx.
    + intros p. split; [intros Hx; by apply elem_of_nil in Hx|]. intros (e&Hx&_). by rewrite He in Hx.
    + constructor.
    + intros p Hx. by apply elem_of_nil in Hx.
    + split; cbn; [lia|lia|by intros s Hs%elem_of_nil|intros s Hs; lia|constructor].
    + apply list.Forall_forall. intros er Her. unfold quiet in Hq. rewrite forallb_forall in Hq. specialize (Hq er ltac:(by apply list_elem_of_In)). by apply negb_true_iff in Hq.
  - split; cbn; try done; try lia.
    + constructor.
    + intros x. split; [intros Hx; by apply elem_of_nil in Hx|]. intros (mse&Hx&_). by rewrite Hk in Hx.
    + unfold bd_size, bd_init. cbn. rewrite length_replicate. lia.
Qed.

(** An access that is legal but for an upgrade that invalidates children. *)
Lemma upgrade_stops wm lineBits c k s rank grp used act i addr ty cyc a invLat prev : Inv wm c k s rank grp used act ->
  legal wm (Access i addr ty cyc (OUpgrade a 0) prev) s = true -> 0 < invLat < 2 ^ 30 ->
  do_op wm lineBits (Access i addr ty cyc (OUpgrade a invLat) prev) s = Err (Panic "getDoneCycle == respCycle").
Proof.
  intros [I Mi Hn Hu Hc Hm] HL Hi. cbn in HL. repeat (apply andb_true_iff in HL as [HL ?]). apply bool_decide_eq_true in HL.
  apply (St_x _ _ _ _ _ _ (OUpgrade a invLat)) in I. cbn [do_op]. unfold mbind, M_bind.
  rewrite (upgrade_fails wm lineBits _ (s_now s) rank grp (mkMemReq addr ty 0 (RefDummy 0) cyc None StI i 0) (St_BI _ _ _ _ _ I) (none_slot _ _ (s_recs _ _ _ _ _ _ I) HL) (mem_conf _ _ _ Hm Hc) ltac:(cbn; lia) a invLat); try done.
Qed.

(** C20: from a new cache of at least two ways that starts at cycle 2, with a memory of its own
    domain and a latency of at least one cycle, any sequence of accesses (skipped ones, hits that may invalidate children,
    upgrades that do not, and misses with or without a dirty eviction; only GETS and GETX reach
    the memory; the levels above take at least one cycle, and every latency is below 2^29) and of
    weave-phase steps in the order of the cycles runs without a failing assertion.  An access
    starts at the current cycle or later, or after an event of its core that has not run yet; the
    accesses come before cycle 2^61, the steps before cycle 2^62, and there are fewer than 2^61 of both.
    The number of MSHRs in use is the number of misses in flight, never above the configured
    one; the accesses in the pending queue are those that are held, and they are held only while
    every MSHR is in use.  After such a sequence an upgrade that has to invalidate children
    fails the assertion getDoneCycle == respCycle. *)
Theorem tcache_safe mshrs tagLat ways cands accLat dom lat zll wm c recs lineBits l :
  init mshrs tagLat ways cands accLat dom = Ok c -> cfg_ok c = true -> WM.init lat zll dom = Ok wm -> wm_ok wm c = true -> quiet recs = true ->
  legal_run wm lineBits l (boot c recs) = true -> Z.of_nat (length l) < 2 ^ 61 ->
  exists s' act, run wm lineBits l (boot c recs) = Ok (tt, s') /\ (let w := s_w s' in
    activeMisses (w_tc w) = Z.of_nat (length act) /\ activeMisses (w_tc w) <= mshrs /\ NoDup act /\ (forall x, x ∈ act <-> active (hp_events (w_heap w)) (w_kinds w) x) /\
    (forall p, p ∈ pendingQueue (w_tc w) <-> exists e, hp_events (w_heap w) !! p = Some e /\ ev_state e = EV_HELD) /\
    (pendingQueue (w_tc w) <> [] -> activeMisses (w_tc w) = mshrs)) /\
    forall i addr ty cyc a invLat prev, legal wm (Access i addr ty cyc (OUpgrade a 0) prev) s' = true -> 0 < invLat < 2 ^ 30 ->
      do_op wm lineBits (Access i addr ty cyc (OUpgrade a invLat) prev) s' = Err (Panic "getDoneCycle == respCycle").
Proof.
  intros Hi Hc Hw Hm Hq HL Hl. destruct (boot_spec _ _ _ _ _ _ _ _ _ _ _ Hi Hc Hw Hm Hq) as [HI <-].
  destruct (run_inv _ _ _ _ _ _ _ _ _ _ HI HL ltac:(lia)) as (s'&k'&rank&grp&used&act&E&HI'&_). exists s', act. split; [done|].
  split; [|intros i addr ty cyc a invLat prev; by eapply upgrade_stops]. destruct HI' as [I Mi _ _ Hcf _].
  injection Hcf as Hn _ _ _ _ _. rewrite <- Hn. destruct Mi. do 4 (split; [done|]). split; [|done]. by eapply s_held.
Qed.

Lemma min_entry (q : list (nat * Z)) : q <> [] -> exists k p x, q !! k = Some (p, x) /\ Forall (fun y => x <= y.2) q.
Proof.
  induction q as [|[p x] q IH]; [done|]. intros _. destruct q as [|y q]; [exists O, p, x; split; [done|]; by repeat constructor|].
  destruct IH as (k&p'&x'&Hk&HF); [done|]. destruct (decide (x <= x')) as [Hle|Hgt].
  - exists O, p, x. split; [done|]. constructor; [done|]. eapply list.Forall_impl; [exact HF|]. cbn. lia.
  - exists (Datatypes.S k), p', x'. split; [done|]. constructor; [cbn; lia|done].
Qed.

(** C23: after any such sequence, while an event is left (an access that waits for an MSHR
    included), the next event of the weave phase exists, and running it succeeds. *)
Theorem tcache_progress mshrs tagLat ways cands accLat dom lat zll wm c recs lineBits l s' :
  init mshrs tagLat ways cands accLat dom = Ok c -> cfg_ok c = true -> WM.init lat zll dom = Ok wm -> wm_ok wm c = true -> quiet recs = true ->
  legal_run wm lineBits l (boot c recs) = true -> Z.of_nat (length l) < 2 ^ 61 - 1 -> run wm lineBits l (boot c recs) = Ok (tt, s') ->
  hp_events (w_heap (s_w s')) <> ∅ ->
  exists k p x, hp_queue (w_heap (s_w s')) !! k = Some (p, x) /\ (x < 2 ^ 62 -> legal wm (Step k) s' = true /\ exists s'', do_op wm lineBits (Step k) s' = Ok (tt, s'')).
Proof.
  intros Hi Hc Hw Hm Hq HL Hl Hr Hne. destruct (boot_spec _ _ _ _ _ _ _ _ _ _ _ Hi Hc Hw Hm Hq) as [HI _].
  destruct (run_inv _ _ _ _ _ _ _ _ _ _ HI HL ltac:(lia)) as (s1&k'&rank&grp&used&act&E&HI'&Hk). rewrite Hr in E. injection E as <-.
  destruct (min_entry _ (progress _ _ _ _ _ _ (i_st _ _ _ _ _ _ _ _ HI') (i_mi _ _ _ _ _ _ _ _ HI') Hne)) as (k&p&x&Hx&HF).
  exists k, p, x. split; [done|]. intros Hlt. assert (HS : legal wm (Step k) s' = true).
  { assert (Hpq : (p, x) ∈ hp_queue (w_heap (s_w s'))) by (by eapply list_elem_of_lookup_2). pose proof (s_gi _ _ _ _ _ _ (i_st _ _ _ _ _ _ _ _ HI')) as G.
    destruct (proj1 (g_q _ _ _ _ G p)) as (e&He&_); [apply list_elem_of_fmap; by exists (p, x)|]. destruct (g_qt _ _ _ _ G p x e Hpq He) as (_&_&?).
    pose proof (i_now _ _ _ _ _ _ _ _ HI'). cbn. rewrite Hx. rewrite bool_decide_eq_true_2 by done. cbn. lia. }
  split; [done|]. destruct (do_step_inv _ lineBits _ _ _ _ _ _ _ _ HI' HS ltac:(lia)) as (s''&_&_&E&_). by exists s''.
Qed.

(** A cache with one MSHR: a miss with a dirty eviction, whose candidates are looked up in the
    array; a hit that comes while the MSHR is in use, and waits; another miss, and an upgrade. *)
Definition demo_ops : list op :=
  [Access 0 64 GETS 100 (OMiss 3 true (FromMem 7 9)) None; Access 1 80 GETS 105 (OHit 0) None;
   Access 1 90 GETX 300 (OMiss 0 false (FromCache 40)) None; Access 0 64 GETX 320 (OUpgrade (FromMem 7 9) 0) None;
   Step 0; Step 0; Step 4; Step 4; Step 4].

Lemma tcache_safe_witness : exists c wm, init 1 5 4 16 10 0 = Ok c /\ WM.init 120 100 0 = Ok wm /\ exists s' (act : list nat),
  run wm 6 demo_ops (boot c [demo_er; demo_er]) = Ok (tt, s') /\ pendingQueue (w_tc (s_w s')) = [12%nat] /\ activeMisses (w_tc (s_w s')) = 1 /\ length act = 1%nat /\
  do_op wm 6 (Access 0 64 GETX 900 (OUpgrade (FromMem 7 9) 4) None) s' = Err (Panic "getDoneCycle == respCycle").
Proof.
  eexists _, _. split; [reflexivity|]. split; [reflexivity|].
  destruct (tcache_safe 1 5 4 16 10 0 120 100 _ _ [demo_er; demo_er] 6 demo_ops eq_refl ltac:(vm_compute; reflexivity) eq_refl ltac:(vm_compute; reflexivity)
    ltac:(vm_compute; reflexivity) ltac:(vm_compute; reflexivity) ltac:(vm_compute; reflexivity)) as (s'&act&E&(Hn&Hle&_&_&_&Hf)&Hup).
  exists s', act. assert (Hs : pendingQueue (w_tc (s_w s')) = [12%nat]).
  { assert (E' := f_equal (fun r => match r with Ok (_, s) => pendingQueue (w_tc (s_w s)) | Err _ => [] end) E). symmetry in E'. exact E'. }
  split; [exact E|]. split; [exact Hs|]. specialize (Hf ltac:(by rewrite Hs)). split; [exact Hf|]. split; [lia|]. apply Hup; [|lia].
  match goal with |- legal ?wm ?o _ = true => assert (E' := f_equal (fun r => match r with Ok (_, s) => legal wm o s | Err _ => false end) E) end.
  symmetry in E'. exact E'.
Defined.

Lemma tcache_progress_witness : exists c wm s', init 1 5 4 16 10 0 = Ok c /\ WM.init 120 100 0 = Ok wm /\ run wm 6 demo_ops (boot c [demo_er; demo_er]) = Ok (tt, s') /\
  exists k p x, hp_queue (w_heap (s_w s')) !! k = Some (p, x) /\ (x < 2 ^ 62 -> legal wm (Step k) s' = true /\ exists s'', do_op wm 6 (Step k) s' = Ok (tt, s'')).
Proof.
  eexists _, _, _. split; [reflexivity|]. split; [reflexivity|]. split; [vm_compute; reflexivity|].
  refine (tcache_progress 1 5 4 16 10 0 120 100 _ _ [demo_er; demo_er] 6 demo_ops _ eq_refl _ eq_refl _ _ _ _ _ _); try (vm_compute; reflexivity).
  intros E. apply (f_equal (fun m => match m !! 12%nat with Some _ => true | None => false end)) in E. vm_compute in E. discriminate.
Defined.
End TCT.
