(* ===== verification/TimingCacheTerm.v ===== *)
(** * Every step of the weave phase makes progress

    A measure that each step of the weave phase makes smaller, whatever the order of the
    events of a cycle: a lookup of low priority that finds no slot is tried again, but only
    while the port is busy ahead of it; and an access that waits for an MSHR is woken only by
    the end of a miss. *)

From S2P Require Import Prelude Bithacks MemHier TimingEvent CoreRecorder EventTree TimingCache TimingCachePort TimingCacheDag TimingCacheInv TimingCacheBuild TimingCacheMiss TimingCacheAccess TimingCacheCore TimingCacheThms.
Import TCache TCP TCD TCI TCT.

Module TCE.

(** ** Partial correctness: what holds if the operation succeeds *)
Definition post {S A} (m : M S A) (Q : A -> S -> Prop) (s : S) : Prop := match m s with Ok (a, s') => Q a s' | Err _ => True end.
Lemma post_bind {S A B} (m : M S A) (k : A -> M S B) Q s : post m (fun a s' => post (k a) Q s') s -> post (m ≫= k) Q s.
Proof. unfold post, mbind, M_bind. by destruct (m s) as [[a s']|]. Qed.
Lemma post_mono {S A} (m : M S A) (P Q : A -> S -> Prop) s : post m P s -> (forall a s', P a s' -> Q a s') -> post m Q s.
Proof. unfold post. destruct (m s) as [[a s']|]; auto. Qed.
Lemma post_assert {S} b msg (Q : unit -> S -> Prop) s : (b = true -> Q tt s) -> post (massert b msg) Q s.
Proof. unfold post, massert. destruct b; auto. Qed.
Lemma post_get p Q h : (forall e, hp_events h !! p = Some e -> Q e h) -> post (get_ev p) Q h.
Proof. unfold post, get_ev. intros HQ. destruct (hp_events h !! p); auto. Qed.
Lemma post_onHeap {A} (m : EvM A) Q (w : W Outcome) : post m (fun a h => Q a (with_heap h w)) (w_heap w) -> post (onHeap m) Q w.
Proof. unfold post, onHeap. by destruct (m (w_heap w)) as [[a h]|]. Qed.
Lemma post_onTc {A} (m : M t A) Q (w : W Outcome) : post m (fun a c => Q a (with_tc c w)) (w_tc w) -> post (onTc m) Q w.
Proof. unfold post, onTc. by destruct (m (w_tc w)) as [[a h]|]. Qed.
Lemma post_any {S A} (m : M S A) (Q : A -> S -> Prop) s : (forall a s', m s = Ok (a, s') -> Q a s') -> post m Q s.
Proof. unfold post. destruct (m s) as [[a s']|]; auto. Qed.

(** ** Only the end of an event changes the set of the live ones *)
Definition D (h : EvHeap) : gset nat := dom (hp_events h).
#[local] Arguments D : simpl never.
Lemma put_D p e e' h : hp_events h !! p = Some e -> D (mkHeap (<[p := e']> (hp_events h)) (hp_next h) (hp_queue h)) = D h.
Proof. intros He. unfold D. cbn. rewrite dom_insert_lookup_L; [done|by eexists]. Qed.

Lemma mapM_D (f : nat -> EvM unit) l : (forall c h, post (f c) (fun _ h' => D h' ⊆ D h) h) -> forall h, post (mapM_ f l) (fun _ h' => D h' ⊆ D h) h.
Proof.
  intros Hf. induction l as [|a l IH]; intros h; [unfold post; cbn; set_solver|]. cbn. apply post_bind. eapply post_mono; [apply Hf|]. intros [] h1 H1. cbn in H1 |- *.
  eapply post_mono; [apply IH|]. intros [] h2 H2. cbn in H2. set_solver.
Qed.
Lemma done_D fuel : (forall p c h, post (ev_done fuel p c) (fun _ h' => D h' ⊆ D h ∖ {[p]}) h) /\ (forall p c h, post (parentDone fuel p c) (fun _ h' => D h' ⊆ D h) h).
Proof.
  induction fuel as [|fuel [IHd IHp]]; [by split|]. split; intros p c h.
  - cbn. apply post_bind, post_get. intros e He. apply post_bind, post_assert. intros _. apply post_bind. cbn. apply post_bind. unfold visitChildren. apply post_bind, post_get.
    intros e1 _. apply post_bind. eapply post_mono; [apply mapM_D; intros; apply IHp|]. intros [] h1 H1. cbn in H1 |- *. rewrite (put_D _ e) in H1 by done.
    apply (post_mono _ (fun _ h2 => h2 = h1)); [destruct (_ <? 2); [done|by apply post_assert]|]. intros [] h2 ->. cbn. unfold D in *. cbn. rewrite dom_delete_L. set_solver.
  - cbn. apply post_bind, post_get. intros e He. set (np := u32 (ev_numParents e - 1)). set (cyc := MAX (ev_cycle e) c).
    assert (HP : forall e', post (put_ev p e') (fun _ h' => D h' ⊆ D h) h) by (intros e'; cbn; by rewrite (put_D _ e)).
    assert (HM : post (massert (negb (ev_numParents e =? 0)) "numParents" ≫= fun _ => if np =? 0 then
        massert (bool_decide (ev_state (ev_set_numParents np (ev_set_cycle cyc e)) = EV_NONE)) "state == EV_NONE" ≫= fun _ =>
        put_ev p (ev_set_state EV_QUEUED (ev_set_numParents np (ev_set_cycle cyc e))) ≫= fun _ => enqueue p (u64 (cyc + ev_preDelay (ev_set_numParents np (ev_set_cycle cyc e))))
      else put_ev p (ev_set_numParents np (ev_set_cycle cyc e))) (fun _ h' => D h' ⊆ D h) h).
    { apply post_bind, post_assert. intros _. destruct (np =? 0); [|apply HP]. apply post_bind, post_assert. intros _. apply post_bind. eapply post_mono; [apply HP|]. by intros [] h2 H2. }
    destruct (ev_class e); try exact HM. destruct (np =? 0); [|apply HP]. apply post_bind. eapply post_mono; [apply HP|]. intros [] h1 H1. cbn in H1. eapply post_mono; [apply IHd|]. intros [] h2 H2. cbn in H2. set_solver.
Qed.

(** ** The measure *)
(** The lookups that a replacement access still needs. *)
Definition lookups_left (k : option Kind) : nat := match k with Some (ReplAccessEvent n) => Z.to_nat n | _ => O end.
(** The events and lookups that are left; the events that do not wait for an MSHR; and, for the
    queued events, the slots of the port that may be taken from their cycle on. *)
Definition work (w : W Outcome) : nat := sum_list_with (fun p => Datatypes.S (lookups_left (w_kinds w !! p))) (elements (D (w_heap w))).
Definition unheld (h : EvHeap) : nat := base.size (filter (fun x : nat * TimingEvent => ev_state x.2 <> EV_HELD) (hp_events h)).
Definition ahead (acc : Z) (q : list (nat * Z)) : nat := sum_list_with (fun x => Z.to_nat (acc + 2 - x.2)) q.
Definition Less (w' w : W Outcome) : Prop :=
  (work w' < work w)%nat \/
  work w' = work w /\ D (w_heap w') = D (w_heap w) /\ lastAccCycle (w_tc w') = lastAccCycle (w_tc w) /\
  ((unheld (w_heap w') < unheld (w_heap w))%nat \/
   unheld (w_heap w') = unheld (w_heap w) /\
   (ahead (lastAccCycle (w_tc w')) (hp_queue (w_heap w')) < ahead (lastAccCycle (w_tc w)) (hp_queue (w_heap w)))%nat).
Definition bounded (w : W Outcome) : Prop := forall p n, p ∈ D (w_heap w) -> w_kinds w !! p = Some (ReplAccessEvent n) -> 0 <= n < two32.

Lemma sum_perm {A} (f : A -> nat) l l' : l ≡ₚ l' -> sum_list_with f l = sum_list_with f l'.
Proof. induction 1; cbn; lia. Qed.
Lemma sum_ext {A} (f g : A -> nat) l : (forall x, x ∈ l -> f x = g x) -> sum_list_with f l = sum_list_with g l.
Proof.
  induction l as [|a l IH]; intros H; [done|]. cbn. rewrite (H a) by apply list_elem_of_here. f_equal. apply IH. intros x Hx. apply H. by apply elem_of_cons; right.
Qed.

(** The work without the event [p]. *)
Lemma work_split w p : p ∈ D (w_heap w) ->
  work w = (Datatypes.S (lookups_left (w_kinds w !! p)) + sum_list_with (fun p => Datatypes.S (lookups_left (w_kinds w !! p))) (elements (D (w_heap w) ∖ {[p]})))%nat.
Proof.
  intros Hp. unfold work. rewrite (sum_perm _ _ (p :: elements (D (w_heap w) ∖ {[p]}))); [done|].
  rewrite <- elements_union_singleton by set_solver. apply elements_proper. intros x. destruct (decide (x = p)); set_solver.
Qed.
Lemma less_done w w' p : p ∈ D (w_heap w) -> D (w_heap w') ⊆ D (w_heap w) ∖ {[p]} -> (forall q, q <> p -> w_kinds w' !! q = w_kinds w !! q) ->
  Less w' w /\ (bounded w -> bounded w').
Proof.
  intros Hp HD HK. split.
  - left. rewrite (work_split w p Hp). unfold work.
    assert (Hs : elements (D (w_heap w')) ⊆+ elements (D (w_heap w) ∖ {[p]})) by (by apply elements_submseteq).
    apply submseteq_Permutation in Hs as [k Hk]. rewrite (sum_perm _ _ _ Hk), sum_list_with_app.
    rewrite (sum_ext (fun q => Datatypes.S (lookups_left (w_kinds w' !! q))) (fun q => Datatypes.S (lookups_left (w_kinds w !! q)))); [lia|].
    intros q Hq%elem_of_elements. rewrite HK; [done|]. set_solver.
  - intros HB q n Hq. rewrite HK by set_solver. apply HB. set_solver.
Qed.
Lemma less_lookup w w' p n n' : p ∈ D (w_heap w) -> D (w_heap w') = D (w_heap w) -> w_kinds w !! p = Some (ReplAccessEvent n) ->
  w_kinds w' = <[p := ReplAccessEvent n']> (w_kinds w) -> 0 <= n' < n -> n < two32 -> Less w' w /\ (bounded w -> bounded w').
Proof.
  intros Hp HD Hk HK Hn Hn2. split.
  - left. rewrite (work_split w p Hp), (work_split w' p) by (by rewrite HD). rewrite HD, HK, lookup_insert_eq, Hk. cbn [lookups_left].
    rewrite (sum_ext (fun q => Datatypes.S (lookups_left (<[p := ReplAccessEvent n']> (w_kinds w) !! q))) (fun q => Datatypes.S (lookups_left (w_kinds w !! q)))); [lia|].
    intros q Hq%elem_of_elements. rewrite lookup_insert_ne; [done|]. set_solver.
  - intros HB q m Hq. rewrite HD in Hq. rewrite HK. destruct (decide (p = q)) as [<-|Hne]; [rewrite lookup_insert_eq; intros [= <-]; lia|].
    rewrite lookup_insert_ne by done. by apply HB.
Qed.
Lemma work_same w w' : D (w_heap w') = D (w_heap w) -> w_kinds w' = w_kinds w -> work w' = work w /\ (bounded w -> bounded w').
Proof. intros HD HK. unfold work, bounded. by rewrite HD, HK. Qed.

Lemma unheld_put (m : gmap nat TimingEvent) nx q nx' q' p e e' : m !! p = Some e -> ev_state e <> EV_HELD -> ev_state e' <> EV_HELD ->
  unheld (mkHeap (<[p := e']> m) nx' q') = unheld (mkHeap m nx q).
Proof.
  intros He Hs Hs'. unfold unheld. cbn. rewrite map_filter_insert_True by done. apply map_size_insert_Some.
  exists e. by apply map_lookup_filter_Some.
Qed.
Lemma unheld_hold (m : gmap nat TimingEvent) nx q nx' q' p e e' : m !! p = Some e -> ev_state e <> EV_HELD -> ev_state e' = EV_HELD ->
  (unheld (mkHeap (<[p := e']> m) nx' q') < unheld (mkHeap m nx q))%nat.
Proof.
  intros He Hs Hs'. unfold unheld. cbn. rewrite map_filter_insert_False by (cbn; tauto). rewrite map_filter_delete.
  assert (Hf : filter (fun x : nat * TimingEvent => ev_state x.2 <> EV_HELD) m !! p = Some e) by (by apply map_lookup_filter_Some).
  rewrite map_size_delete, Hf. assert (base.size (filter (fun x : nat * TimingEvent => ev_state x.2 <> EV_HELD) m) <> 0%nat); [|lia].
  intros E%map_size_empty_inv. by rewrite E in Hf.
Qed.

(** ** Operations that leave the other events alone, and the end of the running event *)
Definition soft {A} (p : nat) (m : M (W Outcome) A) : Prop := forall w,
  post m (fun _ w' => D (w_heap w') ⊆ D (w_heap w) /\ forall q, q <> p -> w_kinds w' !! q = w_kinds w !! q) w.
Definition ends {A} (p : nat) (m : M (W Outcome) A) : Prop := forall w,
  post m (fun _ w' => D (w_heap w') ⊆ D (w_heap w) ∖ {[p]} /\ forall q, q <> p -> w_kinds w' !! q = w_kinds w !! q) w.

Lemma soft_bind {A B} p (m : M (W Outcome) A) (k : A -> M (W Outcome) B) : soft p m -> (forall a, soft p (k a)) -> soft p (m ≫= k).
Proof.
  intros Hm Hk w. apply post_bind. eapply post_mono; [apply Hm|]. intros a w1 [H1 K1]. eapply post_mono; [apply Hk|]. intros b w2 [H2 K2].
  split; [set_solver|]. intros q Hq. by rewrite K2, K1.
Qed.
Lemma ends_bind {A B} p (m : M (W Outcome) A) (k : A -> M (W Outcome) B) : soft p m -> (forall a, ends p (k a)) -> ends p (m ≫= k).
Proof.
  intros Hm Hk w. apply post_bind. eapply post_mono; [apply Hm|]. intros a w1 [H1 K1]. eapply post_mono; [apply Hk|]. intros b w2 [H2 K2].
  split; [set_solver|]. intros q Hq. by rewrite K2, K1.
Qed.
Lemma soft_stay {A} p (m : M (W Outcome) A) : (forall w, post m (fun _ w' => w_heap w' = w_heap w /\ w_kinds w' = w_kinds w) w) -> soft p m.
Proof. intros Hm w. eapply post_mono; [apply Hm|]. intros a w' [-> ->]. split; [set_solver|done]. Qed.
Lemma soft_get p : soft p mget.
Proof. by apply soft_stay. Qed.
Lemma soft_ret {A} p (a : A) : soft p (mret a).
Proof. by apply soft_stay. Qed.
Lemma soft_fail {A} p msg : soft p (mfail msg : M (W Outcome) A).
Proof. by apply soft_stay. Qed.
Lemma soft_assert p b msg : soft p (massert b msg).
Proof. apply soft_stay. intros w. by apply post_assert. Qed.
Lemma soft_lift {A} p (r : res A) : soft p (mlift r).
Proof. apply soft_stay. intros w. unfold post, mlift. by destruct r. Qed.
Lemma soft_onTc {A} p (m : M t A) : soft p (onTc m).
Proof. apply soft_stay. intros w. apply post_onTc. unfold post. by destruct (m (w_tc w)) as [[? ?]|]. Qed.
Lemma soft_setKind p k : soft p (setKind p k).
Proof. intros w. unfold post, setKind, mmodify. cbn. split; [set_solver|]. intros q Hq. by rewrite lookup_insert_ne. Qed.
#[local] Hint Resolve soft_get soft_ret soft_fail soft_assert soft_lift soft_onTc soft_setKind : soft.
Lemma soft_transition p n c : soft p (transition n c).
Proof. unfold transition. repeat (apply soft_bind; [auto with soft|intros ?]). auto with soft. Qed.
Lemma soft_startCycle p mse : soft p (startCycle mse).
Proof. unfold startCycle. apply soft_bind; [auto with soft|intros s]. destruct (_ !! mse) as [[|[]| | |]|]; auto with soft. Qed.
Lemma requeue_D p c h : post (requeue_ev p c) (fun _ h' => D h' ⊆ D h) h.
Proof.
  unfold requeue_ev. apply post_bind, post_get. intros e He. apply post_bind, post_assert. intros _. apply post_bind, post_assert. intros _. cbn.
  apply post_bind. unfold post, D. cbn. rewrite dom_insert_lookup_L by (by eexists). set_solver.
Qed.
Lemma soft_requeue p x c : soft p (onHeap (requeue_ev x c)).
Proof. intros w. apply post_onHeap. eapply post_mono; [apply requeue_D|]. intros [] h H. by split. Qed.
Lemma soft_requeue_all p l c : soft p (requeue_all l c).
Proof. unfold requeue_all. induction l as [|x l IH]; cbn; [auto with soft|]. apply soft_bind; [apply soft_requeue|]. by intros _. Qed.
#[local] Hint Resolve soft_transition soft_startCycle soft_requeue_all : soft.
Lemma ends_done p c : ends p (done p c).
Proof.
  intros w. unfold done. apply post_bind. cbn. apply post_onHeap. eapply post_mono; [apply done_D|]. intros [] h H. by split.
Qed.

#[local] Ltac ends_tac := repeat first [by apply ends_done | apply ends_bind; [by auto with soft|intros ?]].

(** ** Each step is smaller *)
(** The state [w1] in which the event [p] of the queue of [w] runs, at the cycle [c]. *)
Record Running (w w1 : W Outcome) (p : nat) (c : Z) (e : TimingEvent) : Prop := {
  ru_e : hp_events (w_heap w) !! p = Some e;
  ru_st : ev_state e <> EV_HELD;
  ru_ev : hp_events (w_heap w1) = <[p := ev_set_state EV_RUNNING e]> (hp_events (w_heap w));
  ru_q : hp_queue (w_heap w) ≡ₚ (p, c) :: hp_queue (w_heap w1);
  ru_kinds : w_kinds w1 = w_kinds w;
  ru_tc : w_tc w1 = w_tc w }.

(** What [run_event] does with it. *)
Definition simulates (w1 : W Outcome) (p : nat) (c : Z) (e : TimingEvent) : M (W Outcome) unit :=
  match w_kinds w1 !! p with
  | Some HitEvent => simulateHit p c
  | Some (MissStartEvent _) => simulateMissStart p c
  | Some (MissResponseEvent mse) => simulateMissResponse p c mse
  | Some (MissWritebackEvent mse) => simulateMissWriteback p c mse
  | Some (ReplAccessEvent n) => simulateReplAccess p c n
  | None => match ev_class e with ClsMem lat => done p (u64 (c + lat)) | _ => mfail "simulate() of an unknown event" end
  end.

Lemma step_runs w k p c (Q : Z -> W Outcome -> Prop) : hp_queue (w_heap w) !! k = Some (p, c) ->
  (forall w1 e, Running w w1 p c e -> post (simulates w1 p c e) (fun _ => Q c) w1) -> post (step k) Q w.
Proof.
  intros Hk HQ. unfold step. apply post_bind. unfold post at 1. cbn. apply post_bind. unfold post at 1. rewrite Hk. cbn. apply post_bind. unfold post at 1. cbn.
  apply post_bind. apply (post_mono _ (fun _ => Q c)); [|done]. unfold run_event. apply post_bind, post_onHeap. unfold run_ev. apply post_bind, post_get. cbn. intros e He.
  apply post_bind, post_assert. intros Hs. apply post_bind. unfold post at 1. cbn. apply post_bind, post_assert. intros _. unfold post at 1. cbn. apply post_bind. unfold post at 1. cbn.
  match goal with |- post _ _ ?x => set (w1 := x) end. apply (HQ w1 e). split; cbn; try done.
  - intros E. rewrite E in Hs. done.
  - by apply delete_Permutation.
Qed.

Section Step.
Context (w w1 : W Outcome) (p : nat) (c : Z) (e : TimingEvent) (R : Running w w1 p c e).
Definition smaller (w' : W Outcome) : Prop := Less w' w /\ (bounded w -> bounded w').

Lemma run_D : D (w_heap w1) = D (w_heap w) /\ p ∈ D (w_heap w).
Proof.
  destruct R. unfold D. rewrite ru_ev0, dom_insert_lookup_L by (by eexists). split; [done|]. apply elem_of_dom. by eexists.
Qed.
Lemma run_p : hp_events (w_heap w1) !! p = Some (ev_set_state EV_RUNNING e).
Proof. rewrite (ru_ev _ _ _ _ _ R). apply lookup_insert_eq. Qed.

Lemma ends_smaller {A} (m : M (W Outcome) A) : ends p m -> post m (fun _ => smaller) w1.
Proof.
  intros Hm. destruct run_D as [HD Hp]. eapply post_mono; [apply Hm|]. intros a w' [H1 H2]. rewrite HD in H1. rewrite (ru_kinds _ _ _ _ _ R) in H2. by apply (less_done w w' p).
Qed.
Lemma park_smaller : post (park p) (fun _ => smaller) w1.
Proof.
  destruct run_D as [HD Hp]. unfold park. apply post_bind, post_onHeap. unfold hold. apply post_bind, post_get. intros e1 He1. rewrite run_p in He1. injection He1 as <-.
  apply post_bind, post_assert. intros _. unfold post. cbn. set (w' := mkW _ _ _ _ _).
  assert (HD' : D (w_heap w') = D (w_heap w)) by (rewrite <- HD; unfold D; cbn; apply dom_insert_lookup_L; rewrite run_p; by eexists).
  destruct (work_same w w' HD' (ru_kinds _ _ _ _ _ R)) as [Ew Hb]. split; [|done]. right. split; [done|]. split; [done|]. split; [cbn; by rewrite (ru_tc _ _ _ _ _ R)|]. left. cbn.
  rewrite (ru_ev _ _ _ _ _ R), insert_insert_eq. destruct (w_heap w) as [m nx q] eqn:Ew0. eapply (unheld_hold m); [|by apply R|done].
  pose proof (ru_e _ _ _ _ _ R) as He. by rewrite Ew0 in He.
Qed.

Lemma requeue_heap x h : hp_events h !! p = Some (ev_set_state EV_RUNNING e) ->
  post (requeue_ev p x) (fun _ h' => h' = set_st p EV_QUEUED (ev_set_state EV_RUNNING e) h (hp_queue h ++ [(p, x)])) h.
Proof. intros He. unfold requeue_ev. apply post_bind, post_get. intros e1 He1. rewrite He in He1. injection He1 as <-. apply post_bind, post_assert. intros _. by apply post_bind, post_assert. Qed.

(** A lookup that found no slot. *)
Lemma retry_smaller : c - 1 <= lastAccCycle (w_tc w) -> 0 < c < 2 ^ 62 -> post (onHeap (requeue_ev p (u64 (c + 1)))) (fun _ => smaller) w1.
Proof.
  intros Hacc Hc. destruct run_D as [HD Hp]. rewrite u64_small by (unfold two64; lia). apply post_onHeap. eapply post_mono; [apply requeue_heap, run_p|]. intros [] h ->.
  set (w' := with_heap _ _). assert (HD' : D (w_heap w') = D (w_heap w)) by (rewrite <- HD; unfold D; cbn; apply dom_insert_lookup_L; rewrite run_p; by eexists).
  destruct (work_same w w' HD' (ru_kinds _ _ _ _ _ R)) as [Ew Hb]. split; [|done]. right. split; [done|]. split; [done|]. cbn. rewrite (ru_tc _ _ _ _ _ R). split; [done|]. right. split.
  - unfold set_st. rewrite (ru_ev _ _ _ _ _ R), insert_insert_eq. pose proof (ru_e _ _ _ _ _ R) as He. destruct (w_heap w) as [m nx q]. by eapply unheld_put; [|by apply R|].
  - unfold ahead. rewrite (sum_perm _ _ _ (ru_q _ _ _ _ _ R)), sum_list_with_app. cbn. lia.
Qed.
(** A lookup that was granted, and not the last one. *)
Lemma lookup_smaller w2 n : w_heap w2 = w_heap w1 -> w_kinds w !! p = Some (ReplAccessEvent n) -> bounded w -> n <> 0 ->
  w_kinds w2 = <[p := ReplAccessEvent (u32 (n - 1))]> (w_kinds w) -> post (onHeap (requeue_ev p (u64 (c + 1)))) (fun _ => smaller) w2.
Proof.
  intros Eh Hk HB Hn EK. destruct run_D as [HD Hp]. pose proof (HB p n Hp Hk). rewrite u32_small in EK by lia.
  apply post_onHeap. rewrite Eh. eapply post_mono; [apply requeue_heap, run_p|]. intros [] h ->.
  apply (less_lookup w _ p n (n - 1)); [done| |done|done|lia|lia]. rewrite <- HD. unfold D. cbn. apply dom_insert_lookup_L. rewrite run_p. by eexists.
Qed.

Lemma low_result : 0 < c < 2 ^ 62 -> post (tryLowPrioAccess c) (fun r tc => r <> 0 \/ r = 0 /\ tc = w_tc w1 /\ c - 1 <= lastAccCycle (w_tc w)) (w_tc w1).
Proof.
  intros Hc. unfold tryLowPrioAccess. rewrite (u64_small (c - 1)) by (unfold two64; lia). apply post_bind. unfold post at 1. cbn.
  rewrite (ru_tc _ _ _ _ _ R). destruct (Z.ltb_spec (lastAccCycle (w_tc w)) (c - 1)) as [Hlt|Hge]; cbn; [unfold post; cbn; left; lia|].
  destruct (_ =? _); unfold post; cbn; [left; lia|right; lia || done].
Qed.

Lemma simulate_smaller : 0 < c < 2 ^ 62 -> bounded w -> post (simulates w1 p c e) (fun _ => smaller) w1.
Proof.
  intros Hc HB. unfold simulates. destruct (w_kinds w1 !! p) as [[|s|mse|mse|n]|] eqn:Ek.
  - unfold simulateHit. apply post_bind. unfold post at 1. cbn. destruct (_ <? _); [|apply park_smaller]. apply ends_smaller. ends_tac.
  - unfold simulateMissStart. apply post_bind. unfold post at 1. cbn. destruct (_ <? _); [|apply park_smaller]. apply ends_smaller. ends_tac.
  - unfold simulateMissResponse. apply ends_smaller. ends_tac.
  - unfold simulateMissWriteback. apply post_bind, post_onTc. eapply post_mono; [by apply low_result|]. intros r tc [Hr|(->&->&Hacc)].
    + rewrite (proj2 (Z.eqb_neq r 0)) by done. cbn [negb].
      assert (HE : ends p (s ← mget; massert (negb (activeMisses (w_tc s) =? 0)) "activeMisses";; st ← startCycle mse;
        onTc (mmodify (fun c0 => with_prof (profHitLat c0) (profMissRespLat c0) (u64 (profMissLat c0 + (c - st))) c0));;
        transition (u32 (activeMisses (w_tc s) - 1)) r;; requeue_all (pendingQueue (w_tc s)) (u64 (c + 1));; onTc (mmodify (with_pending []));; done p c)).
      { ends_tac. }
      destruct run_D as [HD Hp]. eapply post_mono; [apply HE|]. intros [] w' [H1 H2]. cbn in H1, H2. rewrite HD in H1. rewrite (ru_kinds _ _ _ _ _ R) in H2. by apply (less_done w w' p).
    + replace (with_tc (w_tc w1) w1) with w1 by (by destruct w1). by apply retry_smaller.
  - unfold simulateReplAccess. apply post_bind, post_assert. intros Hn%negb_true_iff%Z.eqb_neq. apply post_bind, post_onTc. eapply post_mono; [by apply low_result|].
    rewrite (ru_kinds _ _ _ _ _ R) in Ek. intros r tc [Hr|(->&->&Hacc)].
    + rewrite (proj2 (Z.eqb_neq r 0)) by done. cbn [negb]. apply post_bind. unfold post at 1. cbn. destruct (_ =? 0).
      * destruct run_D as [HD Hp]. eapply post_mono; [apply ends_done|]. intros [] w' [H1 H2]. cbn in H1, H2. rewrite HD in H1. rewrite (ru_kinds _ _ _ _ _ R) in H2.
        apply (less_done w w' p); [done|done|]. intros q Hq. rewrite H2, lookup_insert_ne by done. done.
      * eapply (lookup_smaller _ n); [done|done|done|done|]. cbn. by rewrite (ru_kinds _ _ _ _ _ R).
    + replace (with_tc (w_tc w1) w1) with w1 by (by destruct w1). by apply retry_smaller.
  - destruct (ev_class e); try done. apply ends_smaller, ends_done.
Qed.
End Step.

Lemma step_smaller w k p c : hp_queue (w_heap w) !! k = Some (p, c) -> 0 < c < 2 ^ 62 -> bounded w -> post (step k) (fun _ => smaller w) w.
Proof. intros Hk Hc HB. eapply step_runs; [done|]. intros w1 e R. by apply simulate_smaller. Qed.
End TCE.
