(* ===== verification/TimingCacheDrain.v ===== *)
(** * The weave phase of the timing cache drains

    How far each step may move the cycles; the number of steps is bounded by the events, the
    lookups and the slots of the tag port that are taken; so, far enough from the wrap-around
    of the cycle counter, the weave phase runs every event and stops. *)

From stdpp Require Import relations.
From S2P Require Import Prelude Bithacks MemHier TimingEvent CoreRecorder EventTree TimingCache TimingCachePort TimingCacheDag TimingCacheInv TimingCacheBuild TimingCacheMiss TimingCacheAccess TimingCacheCore TimingCacheThms TimingCacheTerm.
Import TCache TCP TCD TCI TCT TCE.

Module TCF.

(** ** How far the cycles go *)
(** The DelayEvents of [h] were notified up to cycle [b], the other events by a delay later,
    and they are queued up to two delays later. *)
Definition lim (b : Z) (e : TimingEvent) : Z := if decide (ev_class e = ClsDelay) then b else b + 2 ^ 33.
Record Capped (b : Z) (h : EvHeap) : Prop := {
  ca_q : forall p x, (p, x) ∈ hp_queue h -> x <= b + 2 ^ 34;
  ca_ev : forall p e, hp_events h !! p = Some e -> 0 <= ev_cycle e <= lim b e /\ 0 <= ev_preDelay e < two32 /\ 0 <= ev_postDelay e < two32 /\
    forall lat, ev_class e = ClsMem lat -> 0 <= lat < two32;
  ca_nd : forall p e c ec, hp_events h !! p = Some e -> ev_class e = ClsDelay -> c ∈ chl e -> hp_events h !! c = Some ec -> ev_class ec <> ClsDelay }.
(** The events of [h'] are events of [h]. *)
Definition Kept (h h' : EvHeap) : Prop := forall p e', hp_events h' !! p = Some e' -> exists e, hp_events h !! p = Some e /\ same e e'.

Lemma lim_le b b' e : b <= b' -> lim b e <= lim b' e.
Proof. unfold lim. destruct (decide _); lia. Qed.
Lemma lim_ge b e : b <= lim b e.
Proof. unfold lim. destruct (decide _); lia. Qed.
Lemma lim_same b e e' : same e e' -> lim b e' = lim b e.
Proof. intros S. unfold lim. by rewrite (sm_class _ _ S). Qed.
Lemma Capped_mono b b' h : Capped b h -> b <= b' -> Capped b' h.
Proof.
  intros [Cq Ce Cn] Hb. split; [intros p x Hx; specialize (Cq _ _ Hx); lia| |done].
  intros p e He. destruct (Ce _ _ He) as (?&?). pose proof (lim_le _ _ e Hb). split; [lia|done].
Qed.
Lemma Kept_refl h : Kept h h.
Proof. intros p e He. eauto using same_refl. Qed.
Lemma Kept_trans h1 h2 h3 : Kept h1 h2 -> Kept h2 h3 -> Kept h1 h3.
Proof. intros H1 H2 p e He. destruct (H2 _ _ He) as (e2&He2&?). destruct (H1 _ _ He2) as (e1&?&?). eauto using same_trans. Qed.
Lemma u64_le x : 0 <= x -> 0 <= u64 x <= x.
Proof. intros Hx. unfold u64. pose proof (Z.mod_pos_bound x two64 ltac:(done)). pose proof (Z.mod_le x two64 Hx ltac:(done)). lia. Qed.

Lemma Capped_put b h p e e' q : Capped b h -> hp_events h !! p = Some e -> same e e' -> 0 <= ev_cycle e' <= lim b e ->
  (forall x y, (x, y) ∈ q -> (x, y) ∈ hp_queue h \/ y <= b + 2 ^ 34) ->
  Capped b (mkHeap (<[p := e']> (hp_events h)) (hp_next h) q) /\ Kept h (mkHeap (<[p := e']> (hp_events h)) (hp_next h) q).
Proof.
  intros [Cq Ce Cn] He S Hc Hq. assert (HK : forall x ex', <[p := e']> (hp_events h) !! x = Some ex' -> exists ex, hp_events h !! x = Some ex /\ same ex ex').
  { intros x ex'. by apply (put_back _ _ e). }
  split; [|exact HK]. split; cbn.
  - intros x y Hx. destruct (Hq _ _ Hx) as [H|H]; [by eapply Cq|done].
  - intros x ex Hx. apply (put_inv _ _ e) in Hx as [[-> ->]|[_ Hx]]; [|exact (Ce _ _ Hx)|done..].
    destruct (Ce _ _ He) as (_&?). rewrite (lim_same _ _ _ S), (sm_pre _ _ S), (sm_post _ _ S), (sm_class _ _ S). done.
  - intros x ex y ey Hx Hd Hy Hey. destruct (HK _ _ Hx) as (ex0&Hx0&S1), (HK _ _ Hey) as (ey0&Hy0&S2). rewrite (sm_class _ _ S2).
    rewrite (sm_class _ _ S1) in Hd. rewrite (same_chl _ _ S1) in Hy. exact (Cn _ _ _ _ Hx0 Hd Hy Hy0).
Qed.
Lemma Capped_free b h p : Capped b h -> Capped b (mkHeap (delete p (hp_events h)) (hp_next h) (hp_queue h)) /\ Kept h (mkHeap (delete p (hp_events h)) (hp_next h) (hp_queue h)).
Proof.
  intros [Cq Ce Cn]. split; [split; cbn; [done| |]|].
  - intros x ex [_ Hx]%lookup_delete_Some. exact (Ce _ _ Hx).
  - intros x ex y ey [_ Hx]%lookup_delete_Some Hd Hy [_ Hey]%lookup_delete_Some. exact (Cn _ _ _ _ Hx Hd Hy Hey).
  - intros x ex Hx. cbn in Hx. apply lookup_delete_Some in Hx as [_ Hx]. eauto using same_refl.
Qed.

(** *** The end of an event *)
Lemma post_and {S A} (m : M S A) (P Q : A -> S -> Prop) s : post m P s -> post m Q s -> post m (fun a s' => P a s' /\ Q a s') s.
Proof. unfold post. by destruct (m s) as [[a s']|]. Qed.
Definition cap {A} (b : Z) (m : EvM A) (h : EvHeap) : Prop := post m (fun _ h' => Capped b h' /\ Kept h h') h.
Lemma mapM_cap b (f : nat -> EvM unit) (P : TimingEvent -> Prop) l : (forall e e', same e e' -> P e -> P e') ->
  (forall c h, Capped b h -> (forall e, hp_events h !! c = Some e -> P e) -> cap b (f c) h) ->
  forall h, Capped b h -> (forall c e, c ∈ l -> hp_events h !! c = Some e -> P e) -> cap b (mapM_ f l) h.
Proof.
  intros HP Hf. induction l as [|c l IH]; intros h HC Hl; [by split; [|apply Kept_refl]|]. cbn. unfold cap. apply post_bind.
  eapply post_mono; [apply Hf; [done|]|]. { intros e. apply Hl, list_elem_of_here. }
  intros [] h1 [C1 K1]. cbn. eapply post_mono; [apply IH; [done|]|].
  - intros x e1 Hx He1. destruct (K1 _ _ He1) as (e&He&S). eapply HP; [done|]. eapply Hl; [|done]. by apply elem_of_cons; right.
  - intros [] h2 [C2 K2]. split; [done|]. by eapply Kept_trans.
Qed.
Lemma done_cap b fuel :
  (forall p c h, Capped b h -> 0 <= c -> (forall e, hp_events h !! p = Some e -> c + ev_postDelay e <= if decide (ev_class e = ClsDelay) then b + 2 ^ 33 else b) -> cap b (ev_done fuel p c) h) /\
  (forall s p h, Capped b h -> 0 <= s -> (forall e, hp_events h !! p = Some e -> s <= lim b e) -> cap b (parentDone fuel p s) h).
Proof.
  induction fuel as [|fuel [IHd IHp]]; [by split|]. split.
  - intros p c h HC Hc Hl. unfold cap. cbn. apply post_bind, post_get. intros e He. specialize (Hl _ He). destruct (ca_ev _ _ HC _ _ He) as (?&?&?&?).
    apply post_bind, post_assert. intros _. apply post_bind. cbn. pose proof (u64_le (c + ev_postDelay e) ltac:(lia)) as Hu. set (s := u64 (c + ev_postDelay e)) in *.
    destruct (Capped_put b h p e (ev_set_state EV_DONE e) (hp_queue h) HC He ltac:(by split) ltac:(done) ltac:(by left)) as [C0 K0]. cbn in C0, K0.
    apply post_bind. unfold visitChildren. apply post_bind, post_get. intros e1 He1. cbn in He1. rewrite lookup_insert_eq in He1. injection He1 as <-. cbn [ev_numChildren ev_children ev_set_state]. fold (chl e).
    apply post_bind. eapply post_mono; [apply (mapM_cap b _ (fun x => s <= lim b x)); [intros ? ? S; by rewrite (lim_same _ _ _ S)| |exact C0|]|].
    { intros x hx Cx Hx. apply IHp; [done|lia|done]. }
    { intros x ex Hx Hex. destruct (decide (ev_class e = ClsDelay)) as [Ed|].
      - unfold lim. rewrite decide_False; [lia|]. apply (ca_nd _ _ C0 p (ev_set_state EV_DONE e) x ex); [apply lookup_insert_eq|done|done|done].
      - pose proof (lim_ge b ex). lia. }
    intros [] h1 [C1 K1]. cbn. apply (post_mono _ (fun _ h2 => h2 = h1)); [destruct (_ <? 2); [done|by apply post_assert]|]. intros [] h2 ->. cbn.
    destruct (Capped_free b h1 p C1) as [C2 K2]. split; [done|]. eauto using Kept_trans.
  - intros s p h HC Hs Hl. unfold cap. cbn. apply post_bind, post_get. intros e He. specialize (Hl _ He). destruct (ca_ev _ _ HC _ _ He) as (?&?&?&?).
    set (np := u32 (ev_numParents e - 1)). set (cyc := MAX (ev_cycle e) s).
    assert (Hcyc : 0 <= cyc <= lim b e) by (unfold cyc; rewrite MAX_max; lia). pose proof (u64_le (cyc + ev_preDelay e) ltac:(lia)) as Hu.
    assert (HP : forall e' q, same e e' -> ev_cycle e' = cyc -> (forall x y, (x, y) ∈ q -> (x, y) ∈ hp_queue h \/ y <= b + 2 ^ 34) ->
      let h' := mkHeap (<[p := e']> (hp_events h)) (hp_next h) q in Capped b h' /\ Kept h h').
    { intros e' q S Ec Hq. apply (Capped_put b h p e); [done|done|done|by rewrite Ec|done]. }
    set (e1 := ev_set_numParents np (ev_set_cycle cyc e)). assert (S1 : same e e1) by (by split).
    assert (HB : post (put_ev p e1) (fun _ h' => Capped b h' /\ Kept h h') h) by (apply HP; [done|done|by left]).
    destruct (ev_class e) eqn:Ecl.
    2: { destruct (np =? 0); [|exact HB]. apply post_bind. cbn. destruct (HP (ev_set_state EV_RUNNING e1) (hp_queue h) ltac:(by split) eq_refl ltac:(by left)) as [C2 K2].
      eapply post_mono; [apply IHd; [exact C2|lia|]|].
      - intros e2 He2. cbn in He2. rewrite lookup_insert_eq in He2. injection He2 as <-. rewrite decide_True by exact Ecl. change (ev_postDelay (ev_set_state EV_RUNNING e1)) with (ev_postDelay e). unfold lim in Hcyc. rewrite decide_True in Hcyc by done. unfold two32 in *. lia.
      - intros [] h3 [C3 K3]. split; [done|]. by eapply Kept_trans. }
    all: apply post_bind, post_assert; intros _; (destruct (np =? 0); [|exact HB]); apply post_bind, post_assert; intros _;
      apply (HP (ev_set_state EV_QUEUED e1) (hp_queue h ++ [(p, u64 (cyc + ev_preDelay e))])); [by split|done|];
      intros x y [Hx|[= -> ->]%list_elem_of_singleton]%elem_of_app; [by left|right];
      unfold lim in Hcyc; rewrite decide_False in Hcyc by congruence; unfold two32 in *; lia.
Qed.

(** *** A step *)
Lemma Capped_ext b h h' : hp_events h' = hp_events h -> hp_queue h' = hp_queue h -> Capped b h -> Capped b h'.
Proof. intros E1 E2 []. split; by rewrite ?E1, ?E2. Qed.
(** Operations on the cache's own fields, other than the port. *)
Definition calm {A} (m : M (W Outcome) A) : Prop := forall w, post m (fun _ w' => w_heap w' = w_heap w /\ lastAccCycle (w_tc w') = lastAccCycle (w_tc w)) w.
Lemma calm_bind {A B} (m : M (W Outcome) A) (k : A -> M (W Outcome) B) : calm m -> (forall a, calm (k a)) -> calm (m ≫= k).
Proof.
  intros Hm Hk w. apply post_bind. eapply post_mono; [apply Hm|]. intros a w1 [H1 A1]. eapply post_mono; [apply Hk|]. intros x w2 [H2 A2]. split; congruence.
Qed.
Lemma post_calm {A B} (m : M (W Outcome) A) (k : A -> M (W Outcome) B) Q w : calm m ->
  (forall a w', w_heap w' = w_heap w -> lastAccCycle (w_tc w') = lastAccCycle (w_tc w) -> post (k a) Q w') -> post (m ≫= k) Q w.
Proof. intros Hm Hk. apply post_bind. eapply post_mono; [apply Hm|]. intros a w' [H1 H2]. by apply Hk. Qed.
Lemma calm_get : calm mget. Proof. by intros w. Qed.
Lemma calm_assert x msg : calm (massert x msg). Proof. intros w. by apply post_assert. Qed.
Lemma calm_ret {A} (a : A) : calm (mret a). Proof. by intros w. Qed.
Lemma calm_fail {A} msg : calm (mfail msg : M (W Outcome) A). Proof. by intros w. Qed.
Lemma calm_lift {A} (r : res A) : calm (mlift r). Proof. intros w. unfold post, mlift. by destruct r. Qed.
Lemma calm_setKind p k : calm (setKind p k). Proof. by intros w. Qed.
Lemma calm_tc f : (forall c, lastAccCycle (f c) = lastAccCycle c) -> calm (onTc (mmodify f)).
Proof. intros Hf w. apply post_onTc. unfold post. cbn. by rewrite Hf. Qed.
Lemma calm_transition n c : calm (transition n c).
Proof. unfold transition. apply calm_bind; [apply calm_get|intros s]. apply calm_bind; [apply calm_lift|intros x]. by apply calm_tc. Qed.
Lemma calm_startCycle mse : calm (startCycle mse).
Proof. unfold startCycle. apply calm_bind; [apply calm_get|intros s]. destruct (_ !! mse) as [[|[]| | |]|]; auto using calm_ret, calm_fail. Qed.
Create HintDb calm.
#[local] Hint Resolve calm_get calm_assert calm_ret calm_fail calm_lift calm_setKind calm_transition calm_startCycle : calm.
#[local] Hint Extern 1 (calm (onTc (mmodify _))) => by apply calm_tc : calm.
#[local] Ltac calm_step a w H1 H2 := apply post_calm; [auto with calm nocore|intros a w H1 H2].

Lemma high_acc x tc : 0 <= x < 2 ^ 62 -> 0 <= lastAccCycle tc < 2 ^ 63 ->
  post (highPrioAccess x) (fun r tc' => r = Z.max x (lastAccCycle tc + 1) /\ lastAccCycle tc' = r) tc.
Proof.
  intros Hx Ha. unfold highPrioAccess. apply post_bind. unfold post at 1. cbn. apply post_bind, post_assert. intros _. apply post_bind. unfold post. cbn.
  rewrite (u64_small (lastAccCycle tc + 1)) by (unfold two64; lia). by rewrite MAX_max.
Qed.
Lemma low_acc x tc : 0 < x < 2 ^ 62 -> 0 <= lastAccCycle tc ->
  post (tryLowPrioAccess x) (fun r tc' => (r = 0 /\ tc' = tc \/ r = x) /\ 0 <= lastAccCycle tc' <= Z.max x (lastAccCycle tc)) tc.
Proof.
  intros Hx Ha. unfold tryLowPrioAccess. rewrite (u64_small (x - 1)) by (unfold two64; lia). apply post_bind. unfold post at 1. cbn.
  destruct (_ || _).
  - apply post_bind. unfold post. cbn. rewrite MAX_max. split; [by right|lia].
  - unfold post. cbn. split; [by left|lia].
Qed.

Section Moves.
Context (w w1 : W Outcome) (p : nat) (c : Z) (e : TimingEvent) (R : Running w w1 p c e).
Context (b : Z) (HC : Capped b (w_heap w)) (Hacc : 0 <= lastAccCycle (w_tc w) <= b + 2 ^ 34) (Hb : b < 2 ^ 62) (Hc : 0 < c < 2 ^ 62).

Definition Moved (w' : W Outcome) : Prop :=
  0 <= lastAccCycle (w_tc w') <= Z.max (lastAccCycle (w_tc w) + 1) c /\
  (Capped (b + 1) (w_heap w') \/ p ∉ D (w_heap w') /\ Capped (b + 2 ^ 35) (w_heap w')).

Lemma cycle_cap : c <= b + 2 ^ 34.
Proof. apply (ca_q _ _ HC p). rewrite (ru_q _ _ _ _ _ R). apply list_elem_of_here. Qed.
Lemma run_cap : Capped b (w_heap w1).
Proof.
  destruct (Capped_put b (w_heap w) p e (ev_set_state EV_RUNNING e) (hp_queue (w_heap w1)) HC (ru_e _ _ _ _ _ R)) as [C1 _]; [by split|apply (ca_ev _ _ HC _ _ (ru_e _ _ _ _ _ R))| |].
  - intros x y Hx. left. rewrite (ru_q _ _ _ _ _ R). by apply elem_of_cons; right.
  - eapply Capped_ext; [..|exact C1]; [by rewrite (ru_ev _ _ _ _ _ R)|done].
Qed.

(** The running event ends at the cycle [x]. *)
Lemma done_moved x (w2 : W Outcome) : Capped (b + 1) (w_heap w2) -> 0 <= lastAccCycle (w_tc w2) <= Z.max (lastAccCycle (w_tc w) + 1) c -> 0 <= x <= b + 2 ^ 34 + 1 + two32 ->
  post (done p x) (fun _ => Moved) w2.
Proof.
  intros C2 Ha Hx. unfold done. calm_step s w3 H3 A3. apply post_onHeap. rewrite H3.
  eapply post_mono; [apply post_and; [apply done_D|apply (done_cap (b + 2 ^ 35))]|].
  - eapply Capped_mono; [exact C2|lia].
  - lia.
  - intros e2 He2. destruct (ca_ev _ _ C2 _ _ He2) as (_&_&?&_). unfold two32 in *. destruct (decide _); lia.
  - intros [] h [H4 [C4 _]]. split; [cbn; by rewrite A3|]. right. split; [|exact C4]. cbn. set_solver.
Qed.
Lemma requeue_moved (w2 : W Outcome) x : Capped (b + 1) (w_heap w2) -> 0 <= lastAccCycle (w_tc w2) <= Z.max (lastAccCycle (w_tc w) + 1) c ->
  post (onHeap (requeue_ev x (u64 (c + 1)))) (fun _ w' => Capped (b + 1) (w_heap w') /\ w_tc w' = w_tc w2) w2.
Proof.
  intros C2 Ha. pose proof cycle_cap. pose proof (u64_le (c + 1) ltac:(lia)). apply post_onHeap. unfold requeue_ev. apply post_bind, post_get. intros ex Hx.
  apply post_bind, post_assert. intros _. apply post_bind, post_assert. intros _. cbn. split; [|done].
  refine (proj1 (Capped_put (b + 1) (w_heap w2) x ex (ev_set_state EV_QUEUED ex) (hp_queue (w_heap w2) ++ [(x, u64 (c + 1))]) C2 Hx _ _ _)); [by split|apply (ca_ev _ _ C2 _ _ Hx)|]. intros y z [Hy|[= -> ->]%list_elem_of_singleton]%elem_of_app; [by left|right; lia].
Qed.
Lemma requeue_all_moved l : forall (w2 : W Outcome), Capped (b + 1) (w_heap w2) -> 0 <= lastAccCycle (w_tc w2) <= Z.max (lastAccCycle (w_tc w) + 1) c ->
  post (requeue_all l (u64 (c + 1))) (fun _ w' => Capped (b + 1) (w_heap w') /\ w_tc w' = w_tc w2) w2.
Proof.
  induction l as [|x l IH]; intros w2 C2 Ha; [done|]. unfold requeue_all. cbn. apply post_bind. eapply post_mono; [by apply requeue_moved|].
  intros [] w3 [C3 E3]. eapply post_mono; [apply IH; [done|by rewrite E3]|]. intros [] w4 [C4 E4]. split; [done|congruence].
Qed.
Lemma park_moved w2 : w_heap w2 = w_heap w1 -> lastAccCycle (w_tc w2) = lastAccCycle (w_tc w) -> post (park p) (fun _ => Moved) w2.
Proof.
  intros EH EA. pose proof run_cap as C1. unfold park. apply post_bind, post_onHeap. rewrite EH. unfold hold. apply post_bind, post_get. intros e1 He1. apply post_bind, post_assert. intros _.
  unfold post. cbn. split; [cbn; rewrite EA; lia|]. left.
  eapply Capped_mono; [refine (proj1 (Capped_put b (w_heap w1) p e1 (ev_set_state EV_HELD e1) (hp_queue (w_heap w1)) C1 He1 _ _ _)); [by split|apply (ca_ev _ _ C1 _ _ He1)|by left]|lia].
Qed.

Lemma simulate_moved : (forall lat, ev_class e = ClsMem lat -> 0 <= lat < two32) -> post (simulates w1 p c e) (fun _ => Moved) w1.
Proof.
  intros Hlat. pose proof cycle_cap as Hcap. pose proof run_cap as C1. assert (C1' : Capped (b + 1) (w_heap w1)) by (eapply Capped_mono; [exact C1|lia]).
  assert (EA : lastAccCycle (w_tc w1) = lastAccCycle (w_tc w)) by (by rewrite (ru_tc _ _ _ _ _ R)).
  assert (HH : forall w2 (k : Z -> M (W Outcome) unit), w_heap w2 = w_heap w1 -> lastAccCycle (w_tc w2) = lastAccCycle (w_tc w) ->
    (forall x w3, w_heap w3 = w_heap w1 -> lastAccCycle (w_tc w3) = x -> x = Z.max c (lastAccCycle (w_tc w) + 1) -> post (k x) (fun _ => Moved) w3) ->
    post (onTc (highPrioAccess c) ≫= k) (fun _ => Moved) w2).
  { intros w2 k E2 A2 Hk. apply post_bind, post_onTc. eapply post_mono; [apply high_acc; [lia|rewrite A2; lia]|]. intros x tc [Ex Et]. rewrite A2 in Ex. by apply Hk. }
  assert (HL : forall w2 (k : Z -> M (W Outcome) unit), w_heap w2 = w_heap w1 -> lastAccCycle (w_tc w2) = lastAccCycle (w_tc w) -> (forall w3, w_heap w3 = w_heap w1 -> 0 <= lastAccCycle (w_tc w3) <= Z.max c (lastAccCycle (w_tc w) + 1) -> post (k c) (fun _ => Moved) w3) ->
    (forall w3, w_heap w3 = w_heap w1 -> 0 <= lastAccCycle (w_tc w3) <= Z.max c (lastAccCycle (w_tc w) + 1) -> post (k 0) (fun _ => Moved) w3) ->
    post (onTc (tryLowPrioAccess c) ≫= k) (fun _ => Moved) w2).
  { intros w2 k E2 A2 Hk Hk0. apply post_bind, post_onTc. eapply post_mono; [apply low_acc; [lia|rewrite A2; lia]|]. intros x tc [[[-> ->]| ->] Ht]; [apply Hk0|apply Hk]; cbn; try done; rewrite A2 in *; lia. }
  assert (HR : forall w3 : W Outcome, w_heap w3 = w_heap w1 -> 0 <= lastAccCycle (w_tc w3) <= Z.max c (lastAccCycle (w_tc w) + 1) -> post (onHeap (requeue_ev p (u64 (c + 1)))) (fun _ => Moved) w3).
  { intros w3 E3 A3. eapply post_mono; [apply requeue_moved; [by rewrite E3|lia]|]. intros [] w4 [C4 E4]. split; [rewrite E4; lia|by left]. }
  unfold simulates. destruct (w_kinds w1 !! p) as [[|s|mse|mse|n]|].
  - unfold simulateHit. calm_step s w2 H2 A2. destruct (_ <? _); [|apply park_moved; [done|congruence]]. apply HH; [done|congruence|]. intros x w3 H3 A3 Hx.
    calm_step u w4 H4 A4. apply done_moved; [by rewrite H4, H3|lia|unfold two32; lia].
  - unfold simulateMissStart. calm_step s2 w2 H2 A2. destruct (_ <? _); [|apply park_moved; [done|congruence]]. calm_step u w3 H3 A3. calm_step u2 w4 H4 A4.
    apply HH; [congruence|congruence|]. intros x w5 H5 A5 Hx. apply done_moved; [by rewrite H5|lia|unfold two32; lia].
  - unfold simulateMissResponse. calm_step s w2 H2 A2. calm_step u w3 H3 A3. apply done_moved; [by rewrite H3, H2|lia|unfold two32; lia].
  - unfold simulateMissWriteback. apply HL; [done|done| |apply HR]. intros w2 H2 A2. rewrite (proj2 (Z.eqb_neq c 0)) by lia. cbn [negb].
    calm_step s w3 H3 A3. calm_step u w4 H4 A4. calm_step st w5 H5 A5. calm_step u1 w6 H6 A6. calm_step u2 w7 H7 A7. apply post_bind.
    eapply post_mono; [apply requeue_all_moved; [by rewrite H7, H6, H5, H4, H3, H2|lia]|]. intros [] w8 [C8 E8]. calm_step u3 w9 H9 A9. apply done_moved; [by rewrite H9|rewrite A9, E8; lia|unfold two32; lia].
  - unfold simulateReplAccess. calm_step u w0 H0 A0. apply HL; [done|congruence| |apply HR]. intros w2 H2 A2. rewrite (proj2 (Z.eqb_neq c 0)) by lia. cbn [negb].
    calm_step u2 w3 H3 A3. destruct (_ =? 0); [apply done_moved; [by rewrite H3, H2|lia|unfold two32; lia]|apply HR; [congruence|lia]].
  - destruct (ev_class e) as [| | |lat]; try done. specialize (Hlat lat eq_refl). pose proof (u64_le (c + lat) ltac:(lia)). apply done_moved; [done|lia|lia].
Qed.
End Moves.

Lemma step_moved w k p c b : hp_queue (w_heap w) !! k = Some (p, c) -> 0 < c < 2 ^ 62 -> Capped b (w_heap w) -> 0 <= lastAccCycle (w_tc w) <= b + 2 ^ 34 -> b < 2 ^ 62 ->
  post (step k) (fun x w' => x = c /\ Moved w p c b w') w.
Proof.
  intros Hk Hc HC Ha Hb. eapply step_runs; [done|]. intros w1 e R. eapply post_mono; [eapply simulate_moved; [done..|]|done]. apply (ca_ev _ _ HC _ _ (ru_e _ _ _ _ _ R)).
Qed.

(** ** How many steps *)
(** The cycles that are in the state. *)
Definition horizon (w : W Outcome) : Z :=
  foldr Z.max (lastAccCycle (w_tc w)) ((hp_queue (w_heap w)).*2 ++ ((fun x => ev_cycle x.2) <$> map_to_list (hp_events (w_heap w)))).
(** The slots of the port that may be taken from the current cycle on, two at least. *)
Definition slots (s : Sys) : Z := Z.max 2 (lastAccCycle (w_tc (s_w s)) + 2 - s_now s).
(** With [W] events and lookups left, each of the [W] events can find at most [W + slots] slots
    taken, and wait for an MSHR, before the next event or lookup ends. *)
Definition weave_bound (s : Sys) : Z :=
  let W := Z.of_nat (work (s_w s)) in (W + 1) * (W + 1) * (W * (W + slots s) + 1).
(** The cycles stay below 2^62 while the weave phase makes so many steps. *)
Definition room (s : Sys) : bool := horizon (s_w s) + weave_bound s + 2 ^ 35 * (Z.of_nat (work (s_w s)) + 1) <? 2 ^ 62.

Lemma horizon_ge w x : x ∈ lastAccCycle (w_tc w) :: (hp_queue (w_heap w)).*2 ++ ((fun x => ev_cycle x.2) <$> map_to_list (hp_events (w_heap w))) -> x <= horizon w.
Proof.
  unfold horizon. generalize ((hp_queue (w_heap w)).*2 ++ ((fun x => ev_cycle x.2) <$> map_to_list (hp_events (w_heap w)))) as l. intros l.
  rewrite elem_of_cons. induction l as [|y l IH]; cbn; [intros [->|H%elem_of_nil]; [lia|done]|]. rewrite elem_of_cons. intros [H|[->|H]]; [|lia|]; specialize (IH ltac:(tauto)); lia.
Qed.
Lemma horizon_cap wm c k s rank grp used act : Inv wm c k s rank grp used act -> Capped (horizon (s_w s)) (w_heap (s_w s)) /\ 0 <= lastAccCycle (w_tc (s_w s)) <= horizon (s_w s).
Proof.
  intros [I _ _ _ _ _]. pose proof (s_gi _ _ _ _ _ _ I) as G. pose proof (s_ki _ _ _ _ _ _ I) as K. split; [split|].
  - intros p x Hx. assert (x <= horizon (s_w s)); [|lia]. apply horizon_ge, elem_of_cons. right. apply elem_of_app. left. apply list_elem_of_fmap. by exists (p, x).
  - intros p e He. destruct (g_wf _ _ _ _ G _ _ He) as (?&?&_&[? _]&_). split; [split; [done|]|split; [done|split; [done|]]].
    + etrans; [|apply lim_ge]. apply horizon_ge, elem_of_cons. right. apply elem_of_app. right. apply list_elem_of_fmap. exists (p, e). split; [done|]. by apply elem_of_map_to_list.
    + intros lat El. pose proof (k_class _ _ _ _ _ K _ _ He) as Hk. destruct (w_kinds (s_w s) !! p) as [[]|]; cbn in Hk; try congruence; [by destruct Hk; congruence|].
      destruct Hk as [?|(l&?&?)]; congruence.
  - intros p e x ex He Hd Hx Hex. apply (g_nd _ _ _ _ G p x e ex); [|done..]. apply elem_of_app. left. apply elem_edges. exists e. split; [done|]. split; [|done].
    destruct (s_rest _ _ _ _ _ _ I p e He ltac:(apply not_elem_of_nil)) as [->|[->| ->]]; done.
  - destruct (po_acc _ _ _ (s_port _ _ _ _ _ _ I)) as [? _]. split; [done|]. apply horizon_ge, list_elem_of_here.
Qed.

Lemma live_work w : (base.size (D (w_heap w)) <= work w)%nat.
Proof.
  change (length (elements (D (w_heap w))) <= work w)%nat. unfold work. induction (elements (D (w_heap w))) as [|x l IH]; [done|]. cbn [length sum_list_with]. lia.
Qed.
Lemma unheld_work w : (unheld (w_heap w) <= work w)%nat.
Proof.
  etrans; [|apply live_work]. unfold unheld, D. rewrite size_dom. apply map_subseteq_size, map_filter_subseteq.
Qed.
Lemma queue_work wm c k s rank grp used act : Inv wm c k s rank grp used act -> (length (hp_queue (w_heap (s_w s))) <= work (s_w s))%nat.
Proof.
  intros [I _ _ _ _ _]. pose proof (s_gi _ _ _ _ _ _ I) as G. etrans; [|apply live_work].
  rewrite <- (length_fmap fst (hp_queue (w_heap (s_w s)))), <- (size_list_to_set (C := gset nat) _ (g_qd _ _ _ _ G)). apply subseteq_size.
  intros p Hp%elem_of_list_to_set. apply (g_q _ _ _ _ G) in Hp as (e&He&_). apply elem_of_dom. by exists e.
Qed.
Lemma ahead_le acc q m : (forall p x, (p, x) ∈ q -> acc + 2 - x <= m) -> 0 <= m -> Z.of_nat (ahead acc q) <= Z.of_nat (length q) * m.
Proof.
  intros Hq Hm. induction q as [|[p x] q IH]; cbn; [lia|]. unfold ahead in IH. specialize (IH ltac:(intros y z Hy; apply (Hq y), elem_of_cons; by right)).
  pose proof (Hq p x (list_elem_of_here _ _)). cbn in *. lia.
Qed.

Lemma lex_less (w w' u u' a a' W A : Z) : 0 <= u' <= W -> 0 <= a' <= A -> 0 <= u -> 0 <= a ->
  w' < w \/ w' = w /\ (u' < u \/ u' = u /\ a' < a) -> w' * ((W + 1) * (A + 1)) + u' * (A + 1) + a' + 1 <= w * ((W + 1) * (A + 1)) + u * (A + 1) + a.
Proof.
  intros Hu Ha Hu0 Ha0 H. assert (0 <= u * (A + 1)) by (apply Z.mul_nonneg_nonneg; lia). destruct H as [H|[-> [H|[-> H]]]]; [| |lia].
  - assert (u' * (A + 1) <= W * (A + 1)) by (apply Z.mul_le_mono_nonneg_r; lia).
    assert (w' * ((W + 1) * (A + 1)) + (W + 1) * (A + 1) <= w * ((W + 1) * (A + 1))).
    { replace (w' * ((W + 1) * (A + 1)) + (W + 1) * (A + 1)) with ((w' + 1) * ((W + 1) * (A + 1))) by ring. apply Z.mul_le_mono_nonneg_r; [apply Z.mul_nonneg_nonneg|]; lia. }
    replace ((W + 1) * (A + 1)) with (W * (A + 1) + (A + 1)) in * by ring. lia.
  - assert (u' * (A + 1) + (A + 1) <= u * (A + 1)) by (replace (u' * (A + 1) + (A + 1)) with ((u' + 1) * (A + 1)) by ring; apply Z.mul_le_mono_nonneg_r; lia). lia.
Qed.

(** ** The weave phase *)
(** The [k]-th entry of the queue is one of the earliest. *)
Definition earliest (k : nat) (s : Sys) : bool :=
  match hp_queue (w_heap (s_w s)) !! k with
  | Some (_, c) => bool_decide (Forall (fun x => c <= x.2) (hp_queue (w_heap (s_w s))))
  | None => false
  end.
Definition weave_step (wm : WM.t) (lineBits : Z) (a b : Sys) : Prop := exists k, earliest k a = true /\ do_op wm lineBits (Step k) a = Ok (tt, b).

Section Weave.
Context (wm : WM.t) (lineBits : Z) (c : t) (k0 : nat) (s0 : Sys) (rank : nat -> nat) (grp : nat -> option nat) (used0 : list Z) (act0 : list nat).
Context (I0 : Inv wm c k0 s0 rank grp used0 act0) (HB0 : bounded (s_w s0)) (HR : room s0 = true) (Hk0 : Z.of_nat k0 + weave_bound s0 < 2 ^ 61).
#[local] Abbreviation W0 := (Z.of_nat (work (s_w s0))).
#[local] Abbreviation A0 := (W0 * (W0 + slots s0)).

Definition left (s : Sys) : Z :=
  Z.of_nat (work (s_w s)) * ((W0 + 1) * (A0 + 1)) + Z.of_nat (unheld (w_heap (s_w s))) * (A0 + 1) + Z.of_nat (ahead (lastAccCycle (w_tc (s_w s))) (hp_queue (w_heap (s_w s)))).
(** After [n] steps. *)
Record After (n : nat) (s : Sys) : Prop := {
  af_inv : exists used act, Inv wm c (k0 + n) s rank grp used act;
  af_bd : bounded (s_w s);
  af_work : (work (s_w s) <= work (s_w s0))%nat;
  af_slots : slots s + Z.of_nat (work (s_w s)) <= slots s0 + W0;
  af_cap : Capped (horizon (s_w s0) + Z.of_nat n + 2 ^ 35 * (W0 - Z.of_nat (work (s_w s)))) (w_heap (s_w s));
  af_acc : 0 <= lastAccCycle (w_tc (s_w s)) <= horizon (s_w s0) + Z.of_nat n + 2 ^ 35 * (W0 - Z.of_nat (work (s_w s))) + 2 ^ 34;
  af_left : left s + Z.of_nat n <= left s0 }.

(** The two lower parts of the measure. *)
Lemma left_parts k s used act : Inv wm c k s rank grp used act -> (work (s_w s) <= work (s_w s0))%nat -> slots s + Z.of_nat (work (s_w s)) <= slots s0 + W0 ->
  0 <= Z.of_nat (unheld (w_heap (s_w s))) <= W0 /\ 0 <= Z.of_nat (ahead (lastAccCycle (w_tc (s_w s))) (hp_queue (w_heap (s_w s)))) <= A0.
Proof.
  intros I Hw Hs. pose proof (unheld_work (s_w s)). split; [lia|]. split; [lia|].
  etrans; [apply (ahead_le _ _ (W0 + slots s0))|].
  - intros p x Hx. unfold slots in Hs. pose proof (s_gi _ _ _ _ _ _ (i_st _ _ _ _ _ _ _ _ I)) as G.
    destruct (proj1 (g_q _ _ _ _ G p)) as (e&He&_); [apply list_elem_of_fmap; by exists (p, x)|]. destruct (g_qt _ _ _ _ G p x e Hx He) as (_&_&?). unfold slots. lia.
  - unfold slots. lia.
  - pose proof (queue_work _ _ _ _ _ _ _ _ I). apply Z.mul_le_mono_nonneg_r; [unfold slots; lia|lia].
Qed.
Lemma After_0 : After 0 s0.
Proof.
  destruct (horizon_cap _ _ _ _ _ _ _ _ I0) as [HC HA]. rewrite <- (Nat.add_0_r k0) in I0. split; try done; try lia.
  - by exists used0, act0.
  - eapply Capped_mono; [exact HC|lia].
Qed.
Lemma After_bound n s : After n s -> Z.of_nat n < weave_bound s0.
Proof.
  intros HA. pose proof (af_left _ _ HA) as HL. destruct HA as [(used&act&I) _ Hw Hs _ _ _].
  destruct (left_parts _ _ _ _ I0 ltac:(lia) ltac:(lia)) as [H1 H2]. destruct (left_parts _ _ _ _ I Hw Hs) as [H3 H4].
  assert (0 <= left s) by (unfold left; unfold slots in *; nia). unfold weave_bound. unfold left in HL at 2. nia.
Qed.

(** The next step is legal. *)
Lemma After_legal n s k : After n s -> earliest k s = true -> exists p x, hp_queue (w_heap (s_w s)) !! k = Some (p, x) /\ s_now s <= x < 2 ^ 62 /\ 0 < x /\ legal wm (Step k) s = true.
Proof.
  intros HA He. pose proof (After_bound _ _ HA) as Hn. pose proof HR as Hroom. unfold room in Hroom. apply Z.ltb_lt in Hroom. destruct HA as [(used&act&I) _ Hw _ HC _ _].
  unfold earliest in He. cbn. destruct (hp_queue (w_heap (s_w s)) !! k) as [[p x]|] eqn:Hk; [|done]. exists p, x. rewrite He. cbn.
  assert (Hin : (p, x) ∈ hp_queue (w_heap (s_w s))) by (by eapply list_elem_of_lookup_2). pose proof (ca_q _ _ HC _ _ Hin).
  pose proof (s_gi _ _ _ _ _ _ (i_st _ _ _ _ _ _ _ _ I)) as G. pose proof (i_now _ _ _ _ _ _ _ _ I).
  destruct (proj1 (g_q _ _ _ _ G p)) as (e&Hev&_); [apply list_elem_of_fmap; by exists (p, x)|]. destruct (g_qt _ _ _ _ G p x e Hin Hev) as (_&_&?).
  split; [done|]. split; [lia|]. split; [lia|]. lia.
Qed.
Lemma After_runs n s k : After n s -> earliest k s = true -> exists s', do_op wm lineBits (Step k) s = Ok (tt, s') /\ After (Datatypes.S n) s'.
Proof.
  intros HA He. pose proof (After_bound _ _ HA) as Hn. destruct (After_legal _ _ _ HA He) as (p&x&Hk&Hx&Hx0&HL).
  pose proof HR as Hroom. unfold room in Hroom. apply Z.ltb_lt in Hroom.
  destruct HA as [(used&act&I) Hbd Hw Hs HC Ha Hl]. destruct (do_step_inv wm lineBits _ _ _ _ _ _ _ _ I HL ltac:(lia)) as (s'&used'&act'&E&I').
  exists s'. split; [done|]. cbn [do_op] in E. set (b := horizon (s_w s0) + Z.of_nat n + 2 ^ 35 * (W0 - Z.of_nat (work (s_w s)))) in *.
  pose proof (step_smaller _ _ _ _ Hk (conj Hx0 (proj2 Hx)) Hbd) as Hsm. pose proof (step_moved _ _ _ _ b Hk (conj Hx0 (proj2 Hx)) HC Ha ltac:(lia)) as Hmv.
  unfold post in Hsm, Hmv. destruct (step k (s_w s)) as [[y w']|] eqn:Es; [|done]. injection E as <-. destruct Hsm as [Hless Hbd'], Hmv as [-> [Hacc Hcap]].
  assert (Hin : (p, x) ∈ hp_queue (w_heap (s_w s))) by (by eapply list_elem_of_lookup_2). pose proof (ca_q _ _ HC _ _ Hin) as Hxb.
  assert (Hp : p ∈ D (w_heap (s_w s))).
  { destruct (proj1 (g_q _ _ _ _ (s_gi _ _ _ _ _ _ (i_st _ _ _ _ _ _ _ _ I)) p)) as (e&Hev&_); [apply list_elem_of_fmap; by exists (p, x)|]. apply elem_of_dom. by exists e. }
  assert (Hw' : (work w' <= work (s_w s))%nat) by (destruct Hless as [?|[? _]]; lia).
  assert (Hs' : slots (mkSys w' x) + Z.of_nat (work w') <= slots s0 + W0) by (unfold slots in *; cbn; destruct Hless as [?|(?&_&?&_)]; lia).
  destruct (left_parts _ _ _ _ I' ltac:(cbn; lia) Hs') as [Hu' Ha']. cbn [s_w] in Hu', Ha'.
  split; cbn [s_w]; [by exists used', act'; rewrite Nat.add_succ_r|by apply Hbd'|lia|done| |unfold b in *; lia|].
  - destruct Hcap as [C'|[Hg C']]; (eapply Capped_mono; [exact C'|]); [unfold b; lia|]. destruct Hless as [?|(_&ED&_)]; [unfold b; lia|]. by rewrite ED in Hg.
  - unfold left in Hl |- *. cbn [s_w]. 
    match goal with |- ?x + _ <= _ => match type of Hl with ?y + _ <= _ => assert (x + 1 <= y); [|lia] end end.
    apply lex_less; [done|done|lia|lia|]. destruct Hless as [?|(?&_&_&?)]; lia.
Qed.
Lemma After_steps n s n' s' : After n s -> nsteps (weave_step wm lineBits) n' s s' -> After (n + n') s'.
Proof.
  intros HA Hs. revert n HA. induction Hs as [s|n' s s1 s' (k&He&E) _ IH]; intros n HA; [by rewrite Nat.add_0_r|].
  destruct (After_runs _ _ _ HA He) as (s2&E2&HA2). rewrite E in E2. injection E2 as <-. rewrite <- Nat.add_succ_comm. by apply IH.
Qed.

(** Nothing is left: no event, no miss in flight, no access that waits for an MSHR. *)
Definition drained (s : Sys) : Prop := hp_events (w_heap (s_w s)) = ∅ /\ activeMisses (w_tc (s_w s)) = 0 /\ pendingQueue (w_tc (s_w s)) = [].
Lemma After_next n s : After n s -> drained s \/ exists k, earliest k s = true.
Proof.
  intros [(used&act&[I M _ _ _ _]) _ _ _ _ _ _]. destruct (decide (hp_events (w_heap (s_w s)) = ∅)) as [E|Hne].
  - left. split; [done|]. assert (Hno : forall p, ~ is_Some (hp_events (w_heap (s_w s)) !! p)) by (intros p [e He]; by rewrite E, lookup_empty in He). split.
    + rewrite (m_len _ _ _ M). destruct act as [|x act]; [done|]. exfalso. destruct (proj1 (m_in _ _ _ M x) (list_elem_of_here _ _)) as (_&_&Hx&_). by apply (Hno x).
    + destruct (pendingQueue (w_tc (s_w s))) as [|p q] eqn:Eq; [done|]. exfalso. destruct (proj1 (s_held _ _ _ _ _ _ I p)) as (e&He&_); [rewrite Eq; apply list_elem_of_here|]. apply (Hno p). by exists e.
  - right. destruct (min_entry _ (progress _ _ _ _ _ _ I M Hne)) as (k&p&x&Hk&HF). exists k. unfold earliest. rewrite Hk. by apply bool_decide_eq_true_2.
Qed.
Lemma After_drains m : forall n s, After n s -> (Z.to_nat (weave_bound s0) - n <= m)%nat -> exists n' s', nsteps (weave_step wm lineBits) n' s s' /\ drained s'.
Proof.
  induction m as [|m IH]; intros n s HA Hm; [pose proof (After_bound _ _ HA); lia|]. destruct (After_next _ _ HA) as [Hd|[k He]].
  - exists 0%nat, s. split; [constructor|done].
  - destruct (After_runs _ _ _ HA He) as (s1&E&HA1). destruct (IH _ _ HA1 ltac:(lia)) as (n'&s'&Hs&Hd). exists (Datatypes.S n'), s'. split; [|done]. econstructor; [by exists k|done].
Qed.
End Weave.

(** C22: after any sequence of accesses and weave-phase steps the weave phase drains, if it runs
    without new accesses and the cycles are far enough below 2^62 (by [room]: the bound on the steps, and 2^35
    cycles for each event and lookup that is left).  It can be run until no event is left, no
    MSHR is in use and no access waits; and whatever the order of the events of a cycle, it makes fewer
    than [weave_bound] steps, none of them fails, and it only stops when nothing is left.  The
    bound counts the events and lookups that are left and the slots of the tag port that are
    taken, not the cycles: a lookup of low priority that finds its slot taken is tried again
    in the next cycle, and an access that finds every MSHR in use waits and is run again, but neither
    forever. *)
Theorem tcache_weave_ends mshrs tagLat ways cands accLat dom lat zll wm c recs lineBits l s' :
  init mshrs tagLat ways cands accLat dom = Ok c -> cfg_ok c = true -> WM.init lat zll dom = Ok wm -> wm_ok wm c = true -> quiet recs = true ->
  legal_run wm lineBits l (boot c recs) = true -> run wm lineBits l (boot c recs) = Ok (tt, s') ->
  room s' = true -> Z.of_nat (length l) + weave_bound s' < 2 ^ 61 ->
  (exists n s'', nsteps (weave_step wm lineBits) n s' s'' /\ drained s'') /\
  forall n s'', nsteps (weave_step wm lineBits) n s' s'' ->
    Z.of_nat n < weave_bound s' /\
    (forall k, earliest k s'' = true -> exists s3, do_op wm lineBits (Step k) s'' = Ok (tt, s3)) /\
    ((forall s3, ~ weave_step wm lineBits s'' s3) -> drained s'').
Proof.
  intros Hi Hc Hw Hm Hq HL Hr HR Hl. destruct (boot_spec _ _ _ _ _ _ _ _ _ _ _ Hi Hc Hw Hm Hq) as [HI _].
  assert (0 <= weave_bound s') by (unfold weave_bound, slots; repeat apply Z.mul_nonneg_nonneg; try apply Z.add_nonneg_nonneg; try apply Z.mul_nonneg_nonneg; lia).
  destruct (run_inv _ _ _ _ _ _ _ _ _ _ HI HL ltac:(lia)) as (s1&k'&rank&grp&used&act&E&HI'&Hk'). rewrite Hr in E. injection E as <-.
  assert (HB : bounded (s_w s')).
  { intros p n Hp Hk. unfold D in Hp. apply elem_of_dom in Hp as [e He]. pose proof (k_class _ _ _ _ _ (s_ki _ _ _ _ _ _ (i_st _ _ _ _ _ _ _ _ HI')) p e He) as HC.
    rewrite Hk in HC. destruct HC as [_ HC]. lia. }
  pose proof (After_0 _ _ _ _ _ _ _ _ HI' HB) as H0. split; [by eapply (After_drains wm lineBits _ _ _ _ _ _ _ HI' HR ltac:(lia) _ 0%nat s' H0)|].
  intros n s'' Hn. pose proof (After_steps wm lineBits _ _ _ _ _ _ _ HI' HR ltac:(lia) _ _ _ _ H0 Hn) as HA. cbn in HA. split; [by eapply After_bound|]. split.
  - intros k He. destruct (After_runs wm lineBits _ _ _ _ _ _ _ HI' HR ltac:(lia) _ _ _ HA He) as (s3&E3&_). by exists s3.
  - intros Hstop. destruct (After_next _ _ _ _ _ _ _ _ HA) as [Hd|[k He]]; [done|].
    destruct (After_runs wm lineBits _ _ _ _ _ _ _ HI' HR ltac:(lia) _ _ _ HA He) as (s3&E3&_). exfalso. apply (Hstop s3). by exists k.
Qed.

Lemma tcache_weave_ends_witness : exists c wm s', init 1 5 4 16 10 0 = Ok c /\ WM.init 120 100 0 = Ok wm /\
  run wm 6 demo_ops (boot c [demo_er; demo_er]) = Ok (tt, s') /\ (exists b, weave_step wm 6 s' b) /\
  (exists n s'', nsteps (weave_step wm 6) n s' s'' /\ drained s'') /\
  forall n s'', nsteps (weave_step wm 6) n s' s'' -> Z.of_nat n < weave_bound s'.
Proof.
  eexists _, _, _. split; [reflexivity|]. split; [reflexivity|]. split; [vm_compute; reflexivity|].
  split; [eexists; exists 4%nat; split; vm_compute; reflexivity|].
  match goal with |- (exists n s'', nsteps (weave_step ?wm 6) n ?s s'' /\ _) /\ _ =>
    destruct (tcache_weave_ends 1 5 4 16 10 0 120 100 wm _ [demo_er; demo_er] 6 demo_ops s eq_refl ltac:(vm_compute; reflexivity) eq_refl ltac:(vm_compute; reflexivity)
      ltac:(vm_compute; reflexivity) ltac:(vm_compute; reflexivity) ltac:(vm_compute; reflexivity) ltac:(vm_compute; reflexivity) ltac:(vm_compute; reflexivity)) as [HD HN] end.
  split; [exact HD|]. intros n s'' Hn. apply (HN n s'' Hn).
Defined.
End TCF.
