(* ===== verification/DDRMem.v ===== *)
(** * The DDR memory controller (src/src/ddr_mem.h, ddr_mem.cpp)

    A single-channel controller with FR-FCFS scheduling: [access] in the bound phase, and in
    the weave phase [enqueue], [tick] and [refresh], together with the SchedEvents that the
    controller queues in the contention simulator.  The intrusive lists of requests, which
    InList models as a data structure, appear as the sequences that they hold.  Cycles are
    64-bit and latencies 32-bit unsigned integers. *)

From S2P Require Import Prelude Bithacks Double MemHier TimingEvent CoreRecorder.
From Stdlib Require Import Ascii.

Module DDR.

(** ** Timing parameters *)
Record Tech := mkTech {
  tBL : Z; tCL : Z; tRCD : Z; tRTP : Z; tRP : Z; tRRD : Z; tRAS : Z; tFAW : Z; tWTR : Z; tWR : Z; tRFC : Z; tREFI : Z;
  memFreqKHz : Z }.

(** [(uint64_t)(1e9/tCK/1e3)]. *)
Definition freq_of (tCK : double) : res Z := d_to_u64 (ddiv (ddiv (d_of_Z 1000000000) tCK) (d_of_Z 1000)).

(** The tBL of a line size, from that of 64-byte lines. *)
Definition scale_tBL (lineSize tBL : Z) : res Z :=
  if isPow2 lineSize && (64 <=? lineSize) then Ok (u32 (lineSize * tBL) / 64)
  else if lineSize =? 32 then Ok (tBL / 2)
  else Err (Panic "Unsupported line size").

(** [tCK = 1.5] and [tCK = 1.875] are exact in binary. *)
Definition initTech (tech : string) (lineSize : Z) : res Tech :=
  let mk tCK bl cl rcd rtp rp rrd ras faw wtr wr rfc refi :=
    _ ← rassert (dlt (d_of_Z 0) tCK) "tCK > 0.0";
    _ ← rassert (forallb (fun x => negb (x =? 0)) [bl; cl; rcd; rtp; rp; rrd; ras; faw; wtr; wr; rfc; refi]) "all parameters set";
    bl ← scale_tBL lineSize bl;
    f ← freq_of tCK;
    Ok (mkTech bl cl rcd rtp rp rrd ras faw wtr wr rfc refi f) in
  if bool_decide (tech = "DDR3-1333-CL10"%string) then mk (ddiv (d_of_Z 3) (d_of_Z 2)) 4 10 10 5 10 4 24 20 5 10 74 5200
  else if bool_decide (tech = "DDR3-1066-CL7"%string) then mk (ddiv (d_of_Z 15) (d_of_Z 8)) 4 7 7 4 7 4 18 18 4 7 59 4160
  else if bool_decide (tech = "DDR3-1066-CL8"%string) then mk (ddiv (d_of_Z 15) (d_of_Z 8)) 4 8 8 4 8 4 20 20 4 8 59 4160
  else Err (Panic "Unknown technology").

(** ** Address mapping *)

(** [Tokenize(str, tokens, ":")] (config.cpp): a token ends at a delimiter, the delimiters
    after it are skipped.  [acc] is the current token, [skip] tells that none has begun. *)
Fixpoint tokenize (skip : bool) (acc s : string) : list string :=
  match s with
  | EmptyString => if skip then [] else [acc]
  | String c s =>
      if bool_decide (c = ":"%char) then (if skip then tokenize true EmptyString s else acc :: tokenize true EmptyString s)
      else tokenize false (acc +:+ String c EmptyString) s
  end.
Definition Tokenize (str : string) : list string := tokenize false EmptyString str.
Record AddrMap := mkMap { colShift : Z; colMask : Z; rankShift : Z; rankMask : Z; bankShift : Z; bankMask : Z; startBit : Z }.

(** [computeShiftAndMask] on one field. *)
Definition field_mask (bits : Z) : Z := u32 (Z.shiftl 1 bits - 1).
Definition map_token (colBits rankBits bankBits : Z) (t : string) (m : AddrMap) : res AddrMap :=
  let sb := startBit m in
  if bool_decide (t = "col"%string) then
    _ ← rassert (colMask m =? 0) "Repeated field";
    Ok (mkMap sb (field_mask colBits) (rankShift m) (rankMask m) (bankShift m) (bankMask m) (u32 (sb + colBits)))
  else if bool_decide (t = "rank"%string) then
    _ ← rassert (rankMask m =? 0) "Repeated field";
    Ok (mkMap (colShift m) (colMask m) sb (field_mask rankBits) (bankShift m) (bankMask m) (u32 (sb + rankBits)))
  else if bool_decide (t = "bank"%string) then
    _ ← rassert (bankMask m =? 0) "Repeated field";
    Ok (mkMap (colShift m) (colMask m) (rankShift m) (rankMask m) sb (field_mask bankBits) (u32 (sb + bankBits)))
  else Err (Panic "Invalid token in addrMapping").
Fixpoint map_tokens (colBits rankBits bankBits : Z) (ts : list string) (m : AddrMap) : res AddrMap :=
  match ts with [] => Ok m | t :: ts => m ← map_token colBits rankBits bankBits t m; map_tokens colBits rankBits bankBits ts m end.

(** ** The configuration of a controller *)
Record Config := mkConfig {
  ranksPerChannel : Z; banksPerRank : Z; controllerSysLatency : Z; queueDepth : Z; rowHitLimit : Z;
  deferredWrites : bool; closedPage : bool; domain : Z; sysFreqKHz : Z; tech : Tech; amap : AddrMap;
  minRdLatency : Z; minWrLatency : Z; preDelay : Z; postDelayRd : Z; postDelayWr : Z }.

Definition memFreq (c : Config) : Z := memFreqKHz (tech c).
Definition sysToMem (mf sf s : Z) : Z := u64 (u64 (s * mf) / sf + 1).
Definition memToSys (mf sf m : Z) : Z := u64 (u64 (m + 1) * sf) / mf.
(** [(2*memCycle-1)*sysFreqKHz/memFreqKHz/2]. *)
Definition matchingMemToSys (mf sf m : Z) : Z := u64 (u64 (2 * m - 1) * sf) / mf / 2.
Definition sysToMemCycle (c : Config) : Z -> Z := sysToMem (memFreq c) (sysFreqKHz c).
Definition memToSysCycle (c : Config) : Z -> Z := memToSys (memFreq c) (sysFreqKHz c).
Definition matchingMemToSysCycle (c : Config) : Z -> Z := matchingMemToSys (memFreq c) (sysFreqKHz c).

(** ** The window of the last activations of a rank *)
Module AW.
Record t := mk { buf : list Z; idx : nat }.
Definition init (size : nat) : t := mk (replicate size 0) 0.
Definition minActCycle (w : t) : res Z := arr_get (buf w) (idx w).
Definition inc (w : t) (i : nat) : nat := if (i <? length (buf w) - 1)%nat then S i else O.
Definition dec (w : t) (i : nat) : nat := match i with O => (length (buf w) - 1)%nat | S j => j end.
(** The loop that shifts the later activations; it returns the free slot. *)
Fixpoint shift (fuel : nat) (actCycle : Z) (cur : nat) (w : t) : res (nat * t) :=
  x ← arr_get (buf w) (dec w cur);
  if actCycle <? x then
    match fuel with
    | O => Err OutOfFuel
    | S fuel =>
        b ← arr_set (buf w) cur x;
        let cur := dec w cur in
        let w := mk b (idx w) in
        if bool_decide (cur = idx w) then Ok (cur, w) else shift fuel actCycle cur w
    end
  else Ok (cur, w).
Definition addActivation (actCycle : Z) (w : t) : res t :=
  m ← minActCycle w;
  _ ← rassert (m <=? actCycle) "buf[idx] <= actCycle";
  '(cur, w) ← shift (length (buf w)) actCycle (idx w) w;
  b ← arr_set (buf w) cur actCycle;
  Ok (mk b (inc w (idx w))).
End AW.

(** ** Requests, banks and queues *)
Record AddrLoc := mkLoc { row : Z; bank : Z; rank : Z; col : Z }.
(** [ev]: the event to respond to; none for a write once it was responded. *)
Record Request := mkReq {
  addr : Z; loc : AddrLoc; write : bool; rowHitSeq : Z; arrivalCycle : Z; startSysCycle : Z; ev : option nat }.
Record Bank := mkBank {
  openRow : Z; open : bool; minPreCycle : Z; lastActCycle : Z; lastCmdCycle : Z; curRowHits : Z;
  rdReqs : list nat; wrReqs : list nat }.
Definition zero_req : Request := mkReq 0 (mkLoc 0 0 0 0) false 0 0 0 None.
Definition zero_bank : Bank := mkBank 0 false 0 0 0 0 [] [].

(** A RequestQueue: its nodes, and the lists of those in use, in the order of arrival, and
    of those that are free. *)
Module RQ.
Record t := mk { reqList : list nat; freeList : list nat; elems : list Request }.
Definition init (size : nat) : t := mk [] (seq 0 size) (replicate size zero_req).
Definition empty (q : t) : bool := match reqList q with [] => true | _ => false end.
Definition full (q : t) : bool := match freeList q with [] => true | _ => false end.
Definition size (q : t) : Z := Z.of_nat (length (reqList q)).
Definition alloc (q : t) : res (nat * t) :=
  _ ← rassert (negb (full q)) "!full()";
  n ← from_opt (list.last (freeList q)) "freeList.back()";
  Ok (n, mk (reqList q ++ [n]) (take (length (freeList q) - 1) (freeList q)) (elems q)).
Definition remove (n : nat) (q : t) : t :=
  mk (base.filter (fun x => x <> n) (reqList q)) (freeList q ++ [n]) (elems q).
Definition get (n : nat) (q : t) : res Request := arr_get (elems q) n.
Definition set (n : nat) (r : Request) (q : t) : t := mk (reqList q) (freeList q) (<[n := r]> (elems q)).
End RQ.

(** What the controller does to the devices: a command sequence, with the cycles of its ACT
    (if the row was not open), of its RD or WR and of the end of the burst, and a refresh,
    from its start to its end.  The log of them is not part of the source: it is what the
    timing constraints speak about. *)
Inductive Entry :=
| Cmd (c_rank c_bank c_row : Z) (c_act : option Z) (c_cas c_end : Z) (c_write : bool)
| Ref (r_start r_done : Z).
#[global] Instance Entry_eq_dec : EqDecision Entry.
Proof. solve_decision. Defined.

(** The banks, the windows and the global constraints. *)
Record Dev := mkDev {
  minRespCycle : Z; lastCmdWasWrite : bool; banks : list (list Bank); rankActWindows : list AW.t; log : list Entry }.
Definition get_bank (d : Dev) (l : AddrLoc) : res Bank :=
  rb ← arr_get (banks d) (Z.to_nat (rank l)); arr_get rb (Z.to_nat (bank l)).
Definition put_bank (l : AddrLoc) (b : Bank) (d : Dev) : res Dev :=
  rb ← arr_get (banks d) (Z.to_nat (rank l));
  rb ← arr_set rb (Z.to_nat (bank l)) b;
  bs ← arr_set (banks d) (Z.to_nat (rank l)) rb;
  Ok (mkDev (minRespCycle d) (lastCmdWasWrite d) bs (rankActWindows d) (log d)).

(** ** Scheduling events, access events, statistics *)
Inductive SState := IDLE | QUEUED | RUNNING | ANNULLED.
#[global] Instance SState_eq_dec : EqDecision SState.
Proof. solve_decision. Defined.
(** [s_base]: the state of the TimingEvent. *)
Record SchedEvent := mkSched { s_state : SState; s_base : EventState; s_next : option nat }.
Definition new_SchedEvent : SchedEvent := mkSched IDLE EV_HELD None.
(** [pending]: the events that wait in the contention simulator, with their cycles. *)
Record Sch := mkSch {
  nextSchedEvent : option nat; nextSchedCycle : Z; eventFreelist : option nat; scheds : list SchedEvent; pending : list (nat * Z) }.
Definition noEvent : Z := two64 - 1.

(** The state of a DDRMemoryAccEvent that the controller knows. *)
Record AccEvent := mkAcc { a_addr : Z; a_write : bool; a_state : EventState }.
(** A response: the event, the cycle at which it was simulated, and the cycle of [done]. *)
Record Resp := mkResp { r_ev : nat; r_sim : Z; r_cycle : Z }.
Record Prof := mkProf { profReads : Z; profWrites : Z; profTotalRdLat : Z; profTotalWrLat : Z; profReadHits : Z; profWriteHits : Z;
  latencyHist : list Z }.
Definition BINSIZE : Z := 10.
Definition NUMBINS : Z := 100.

(** The controller.  [now] is the cycle of the last simulated event, and [refreshAt] that of
    the pending RefreshEvent. *)
Record t := mk {
  dev : Dev; rdQueue : RQ.t; wrQueue : RQ.t; overflowQueue : list Request; sch : Sch;
  evs : gmap nat AccEvent; resps : list Resp; prof : Prof; refreshAt : Z; now : Z }.
Definition with_dev (d : Dev) (s : t) : t := mk d (rdQueue s) (wrQueue s) (overflowQueue s) (sch s) (evs s) (resps s) (prof s) (refreshAt s) (now s).
Definition with_queue (wr : bool) (q : RQ.t) (s : t) : t :=
  mk (dev s) (if wr then rdQueue s else q) (if wr then q else wrQueue s) (overflowQueue s) (sch s) (evs s) (resps s) (prof s) (refreshAt s) (now s).
Definition with_overflow (o : list Request) (s : t) : t := mk (dev s) (rdQueue s) (wrQueue s) o (sch s) (evs s) (resps s) (prof s) (refreshAt s) (now s).
Definition with_sch (c : Sch) (s : t) : t := mk (dev s) (rdQueue s) (wrQueue s) (overflowQueue s) c (evs s) (resps s) (prof s) (refreshAt s) (now s).
Definition with_evs (e : gmap nat AccEvent) (r : list Resp) (s : t) : t :=
  mk (dev s) (rdQueue s) (wrQueue s) (overflowQueue s) (sch s) e r (prof s) (refreshAt s) (now s).
Definition with_prof (p : Prof) (s : t) : t := mk (dev s) (rdQueue s) (wrQueue s) (overflowQueue s) (sch s) (evs s) (resps s) p (refreshAt s) (now s).
Definition with_refresh (c : Z) (s : t) : t := mk (dev s) (rdQueue s) (wrQueue s) (overflowQueue s) (sch s) (evs s) (resps s) (prof s) c (now s).
Definition with_now (c : Z) (s : t) : t := mk (dev s) (rdQueue s) (wrQueue s) (overflowQueue s) (sch s) (evs s) (resps s) (prof s) (refreshAt s) c.
Definition queue_of (wr : bool) (s : t) : RQ.t := if wr then wrQueue s else rdQueue s.
Definition bank_queue (wr : bool) (b : Bank) : list nat := if wr then wrReqs b else rdReqs b.
Definition with_bank_queue (wr : bool) (q : list nat) (b : Bank) : Bank :=
  mkBank (openRow b) (open b) (minPreCycle b) (lastActCycle b) (lastCmdCycle b) (curRowHits b)
    (if wr then rdReqs b else q) (if wr then q else wrReqs b).
Definition DM := M t.

(** ** The constructor *)
Record Args := mkArgs {
  a_lineSize : Z; a_colSize : Z; a_ranks : Z; a_banks : Z; a_sysFreqMHz : Z; a_tech : string; a_addrMapping : string;
  a_controllerSysLatency : Z; a_queueDepth : Z; a_rowHitLimit : Z; a_deferredWrites : bool; a_closedPage : bool; a_domain : Z }.

Definition addr_map (a : Args) : res AddrMap :=
  let colBits := ilog2_32 (u32 (a_colSize a / 8 * 64) / a_lineSize a) in
  let tokens := Tokenize (a_addrMapping a) in
  _ ← rassert (bool_decide (length tokens = 3%nat)) "Invalid addrMapping";
  map_tokens colBits (ilog2_32 (a_ranks a)) (ilog2_32 (a_banks a)) (reverse tokens) (mkMap 0 0 0 0 0 0 0).

(** The constructor leaves [lastCmdWasWrite] as it finds it in memory: [lastW]. *)
Definition init (lastW : bool) (a : Args) : res (Config * t) :=
  let sysFreq := u32 (1000 * a_sysFreqMHz a) in
  th ← initTech (a_tech a) (a_lineSize a);
  _ ← rassert (negb (sysFreq / 2 <=? memFreqKHz th)) "You may need to tweak the scheduling code";
  let minRd := u32 (a_controllerSysLatency a + memToSys (memFreqKHz th) sysFreq (u32 (tCL th + tBL th - 1))) in
  let pre := a_controllerSysLatency a in
  m ← addr_map a;
  let c := mkConfig (a_ranks a) (a_banks a) (a_controllerSysLatency a) (a_queueDepth a) (a_rowHitLimit a)
             (a_deferredWrites a) (a_closedPage a) (a_domain a) sysFreq th m minRd (a_controllerSysLatency a) pre (u32 (minRd - pre)) 0 in
  let q := RQ.init (Z.to_nat (a_queueDepth a)) in
  let d := mkDev (u32 (tCL th + tBL th + 1)) lastW
             (replicate (Z.to_nat (a_ranks a)) (replicate (Z.to_nat (a_banks a)) zero_bank))
             (replicate (Z.to_nat (a_ranks a)) (AW.init 4)) [] in
  Ok (c, mk d q q [] (mkSch None noEvent None [] []) ∅ [] (mkProf 0 0 0 0 0 0 (replicate (Z.to_nat NUMBINS) 0)) 0 0).

(** The interval of the RefreshEvent, in system cycles. *)
Definition refInterval (c : Config) : Z := u32 (memToSysCycle c (tREFI (tech c))).

(** ** Access events *)
Definition ev_hold (e : nat) : DM unit :=
  s ← mget;
  a ← mlift (from_opt (evs s !! e) "event");
  massert (bool_decide (a_state a = EV_RUNNING)) "called hold()";;
  mmodify (with_evs (<[e := mkAcc (a_addr a) (a_write a) EV_HELD]> (evs s)) (resps s)).
(** [release()] and then [done(doneCycle)], which frees the event; [sim] is the cycle at which
    it was simulated. *)
Definition ev_respond (e : nat) (sim doneCycle : Z) : DM unit :=
  s ← mget;
  a ← mlift (from_opt (evs s !! e) "event");
  massert (bool_decide (a_state a = EV_HELD)) "state should be EV_HELD";;
  mmodify (with_evs (base.delete e (evs s)) (resps s ++ [mkResp e sim doneCycle])).

Section Ops.
Context (c : Config).
Let tc := tech c.

(** ** The bound phase *)
(** [access]: the latency, the MESI state of the line, and the DDRMemoryAccEvent with its
    record.  [hasRec]: the core has an event recorder. *)
Definition access (hasRec : bool) (lineAddr reqCycle : Z) (type : AccessType) (noexcl : bool) : WM.PM (Z * MESIState * option (nat * AccEvent)) :=
  let st := match type with PUTS | PUTX => StI | GETS => if noexcl then StS else StE | GETX => StM end in
  if bool_decide (type = PUTS) then mret (reqCycle, st, None)
  else
    let isWrite := bool_decide (type = PUTX) in
    let respCycle := u64 (reqCycle + (if isWrite then minWrLatency c else minRdLatency c)) in
    if hasRec then
      memEv ← WM.onHeap (new_TimingEvent ClsTiming (preDelay c) (if isWrite then postDelayWr c else postDelayRd c) (domain c));
      WM.onHeap (setMinStartCycle memEv reqCycle);;
      WM.push (mkRecord lineAddr reqCycle respCycle type (Some memEv) (Some memEv));;
      mret (respCycle, st, Some (memEv, mkAcc lineAddr isWrite EV_NONE))
    else mret (respCycle, st, None).

(** ** The weave phase *)
Definition mapLineAddr (lineAddr : Z) : res AddrLoc :=
  let m := amap c in
  let l := mkLoc (Z.shiftr lineAddr (startBit m)) (Z.land (Z.shiftr lineAddr (bankShift m)) (bankMask m))
             (Z.land (Z.shiftr lineAddr (rankShift m)) (rankMask m)) (Z.land (Z.shiftr lineAddr (colShift m)) (colMask m)) in
  _ ← rassert (rank l <? ranksPerChannel c) "l.rank < ranksPerChannel";
  _ ← rassert (bank l <? banksPerRank c) "l.bank < banksPerRank";
  Ok l.

(** The row of a request is open. *)
Definition isHit (r : Request) (b : Bank) : bool := (row (loc r) =? openRow b) && open b.

(** The cycles of the PRE and the ACT of a request whose row is not open. *)
Definition preAct (r : Request) (b : Bank) (d : Dev) : res (Z * Z) :=
  preCycle ← (if negb (open b) then Ok (minPreCycle b)
              else _ ← rassert (negb (row (loc r) =? openRow b)) "r.loc.row != bank.openRow";
                   Ok (Z.max (arrivalCycle r) (minPreCycle b)));
  let actCycle := Z.max (arrivalCycle r) (Z.max (u64 (preCycle + tRP tc)) (u64 (lastActCycle b + tRRD tc))) in
  w ← arr_get (rankActWindows d) (Z.to_nat (rank (loc r)));
  m ← AW.minActCycle w;
  Ok (preCycle, Z.max actCycle (u64 (m + tFAW tc))).

Definition findMinCmdCycle (r : Request) (d : Dev) : res Z :=
  b ← get_bank d (loc r);
  if isHit r b then Ok (Z.max (arrivalCycle r) (u64 (lastCmdCycle b + 1)))
  else '(_, actCycle) ← preAct r b d; Ok (u64 (actCycle + tRCD tc)).

(** The walk of [queue] over a bank queue from its back, for a request [n] to a row:
    the sequence number and the new queue.  [rq] holds the nodes still to visit, the last
    one first, and [after] those passed. *)
Fixpoint walk_back (q : RQ.t) (rw : Z) (n : nat) (rq after : list nat) : res (option (Z * list nat)) :=
  match rq with
  | [] => Ok None
  | m :: rq =>
      x ← RQ.get m q;
      if row (loc x) =? rw then
        if rowHitSeq x <? rowHitLimit c then Ok (Some (u64 (rowHitSeq x + 1), reverse rq ++ m :: n :: after))
        else Ok (Some (0, reverse rq ++ m :: after ++ [n]))
      else walk_back q rw n rq (m :: after)
  end.
Definition place (q : RQ.t) (rw : Z) (n : nat) (b : Bank) (l : list nat) : res (Z * list nat) :=
  o ← walk_back q rw n (reverse l) [];
  match o with
  | Some x => Ok x
  | None =>
      if open b && (rw =? openRow b) && (curRowHits b <? rowHitLimit c) && bool_decide (l = [])
      then Ok (u64 (curRowHits b + 1), n :: l)
      else Ok (0, l ++ [n])
  end.

(** [queue(req, memCycle)] for the node [n] of the write ([wr]) or read queue. *)
Definition queue (wr : bool) (n : nat) (memCycle : Z) : DM unit :=
  s ← mget;
  r ← mlift (RQ.get n (queue_of wr s));
  (if write r then
     e ← mlift (from_opt (ev r) "req->ev");
     ev_respond e (startSysCycle r) (u64 (u64 (u64 (memToSysCycle c memCycle + minWrLatency c) - preDelay c) - postDelayWr c))
   else mret tt);;
  s ← mget;
  b ← mlift (get_bank (dev s) (loc r));
  '(seq, l) ← mlift (place (queue_of wr s) (row (loc r)) n b (bank_queue wr b));
  let r' := mkReq (addr r) (loc r) (write r) seq memCycle (startSysCycle r) (if write r then None else ev r) in
  d ← mlift (put_bank (loc r) (with_bank_queue wr l b) (dev s));
  mmodify (with_dev d);; mmodify (with_queue wr (RQ.set n r' (queue_of wr s))).

(** [!req->prev]: the request is the first of its bank queue. *)
Definition isFirst (wr : bool) (n : nat) (r : Request) (d : Dev) : res bool :=
  b ← get_bank d (loc r); Ok (bool_decide (head (bank_queue wr b) = Some n)).

(** Assignment of [state] of a SchedEvent, and its [hold], [requeue], [enqueue] and [annul]. *)
Definition sched_update (n : nat) (f : SchedEvent -> SchedEvent) (p : list (nat * Z)) : DM unit :=
  s ← mget;
  let h := sch s in
  e ← mlift (arr_get (scheds h) n);
  mmodify (with_sch (mkSch (nextSchedEvent h) (nextSchedCycle h) (eventFreelist h) (<[n := f e]> (scheds h)) (pending h ++ p))).
Definition sched_state (n : nat) (st : SState) : DM unit := sched_update n (fun e => mkSched st (s_base e) (s_next e)) [].
Definition sched_base (n : nat) (bs : EventState) (p : list (nat * Z)) : DM unit := sched_update n (fun e => mkSched (s_state e) bs (s_next e)) p.
Definition sched_get (n : nat) : DM SchedEvent := s ← mget; mlift (arr_get (scheds (sch s)) n).
Definition sched_hold (n : nat) : DM unit :=
  e ← sched_get n;
  massert (bool_decide (s_base e = EV_RUNNING)) "called hold()";;
  sched_base n EV_HELD [].
Definition sched_requeue (n : nat) (cycle : Z) : DM unit :=
  e ← sched_get n;
  massert (bool_decide (s_base e = EV_RUNNING) || bool_decide (s_base e = EV_HELD)) "state == EV_RUNNING || state == EV_HELD";;
  sched_base n EV_QUEUED [(n, cycle)].
Definition sched_enqueue (n : nat) (cycle : Z) : DM unit :=
  e ← sched_get n;
  massert (bool_decide (s_state e = IDLE)) "state == IDLE";;
  sched_state n QUEUED;; sched_requeue n cycle.
Definition sched_annul (n : nat) : DM unit :=
  e ← sched_get n;
  massert (bool_decide (s_state e = QUEUED)) "sched state";;
  sched_state n ANNULLED.
(** The next SchedEvent: the first of the free list, or a new one. *)
Definition sched_take : DM nat :=
  s ← mget;
  let h := sch s in
  match eventFreelist h with
  | Some n =>
      e ← mlift (arr_get (scheds h) n);
      mmodify (with_sch (mkSch (Some n) (nextSchedCycle h) (s_next e) (<[n := mkSched (s_state e) (s_base e) None]> (scheds h)) (pending h)));;
      mret n
  | None =>
      let n := length (scheds h) in
      mmodify (with_sch (mkSch (Some n) (nextSchedCycle h) None (scheds h ++ [new_SchedEvent]) (pending h)));;
      mret n
  end.
Definition set_nextSchedCycle (m : Z) : DM unit :=
  mmodify (fun s => with_sch (mkSch (nextSchedEvent (sch s)) m (eventFreelist (sch s)) (scheds (sch s)) (pending (sch s))) s).

(** The end of [enqueue]: schedule an event for a request that is the first of its bank queue. *)
Definition wake (r : Request) (memCycle sysCycle : Z) : DM unit :=
  s ← mget;
  let next := nextSchedCycle (sch s) in
  let m := Z.max memCycle (u64 (u64 (minRespCycle (dev s) - tCL tc) - tBL tc)) in
  m ← (if m <? next then x ← mlift (findMinCmdCycle r (dev s)); mret (Z.max m x) else mret m);
  if m <? next then
    match nextSchedEvent (sch s) with Some n => sched_annul n | None => mret tt end;;
    n ← sched_take;
    sched_enqueue n (Z.max (matchingMemToSysCycle c m) sysCycle);;
    set_nextSchedCycle m
  else mret tt.

Definition enqueue (e : nat) (sysCycle : Z) : DM unit :=
  let memCycle := sysToMemCycle c sysCycle in
  s ← mget;
  a ← mlift (from_opt (evs s !! e) "event");
  let overflow := RQ.full (rdQueue s) || RQ.full (wrQueue s) in
  let wr := deferredWrites c && a_write a in
  l ← mlift (mapLineAddr (a_addr a));
  let req := mkReq (a_addr a) l (a_write a) 0 memCycle sysCycle (Some e) in
  ev_hold e;;
  if overflow then mmodify (fun s => with_overflow (overflowQueue s ++ [req]) s)
  else
    '(n, q) ← mlift (RQ.alloc (queue_of wr s));
    mmodify (with_queue wr (RQ.set n req q));;
    queue wr n memCycle;;
    s ← mget;
    r ← mlift (RQ.get n (queue_of wr s));
    first ← mlift (isFirst wr n r (dev s));
    if (first : bool) then wake r memCycle sysCycle else mret tt.

(** *** trySchedule *)

(** The scan of the chosen queue for the first request that can issue by [curCycle]: it, if
    any, and the least cycle of the requests seen. *)
Fixpoint scan (wr : bool) (curCycle : Z) (q : RQ.t) (d : Dev) (l : list nat) (minSched : Z) : res (option nat * Z) :=
  match l with
  | [] => Ok (None, minSched)
  | n :: l =>
      r ← RQ.get n q;
      first ← isFirst wr n r d;
      if (first : bool) then
        x ← findMinCmdCycle r d;
        let minSched := Z.min minSched x in
        if x <=? curCycle then Ok (Some n, minSched) else scan wr curCycle q d l minSched
      else scan wr curCycle q d l minSched
  end.

Definition useWrites (s : t) : bool :=
  let prioWrites := (u32 (3 * queueDepth c) / 4 <? RQ.size (wrQueue s)) ||
    (lastCmdWasWrite (dev s) && (queueDepth c / 4 <? RQ.size (wrQueue s))) in
  RQ.empty (rdQueue s) || prioWrites.

(** The PRE and ACT of the request: the least cycle of its RD or WR command, whether the row
    was open, and the cycle of the ACT. *)
Definition activate (curCycle : Z) (r : Request) (d : Dev) : res (Z * option Z * Dev) :=
  b ← get_bank d (loc r);
  let m := Z.max curCycle (u64 (minRespCycle d - tCL tc)) in
  let m := if lastCmdWasWrite d && negb (write r) then Z.max m (u64 (minRespCycle d + tWTR tc)) else m in
  if isHit r b then Ok (m, None, d)
  else
    '(preCycle, actCycle) ← preAct r b d;
    w ← arr_get (rankActWindows d) (Z.to_nat (rank (loc r)));
    w ← AW.addActivation actCycle w;
    ws ← arr_set (rankActWindows d) (Z.to_nat (rank (loc r))) w;
    let b := mkBank (row (loc r)) true (if open b then u64 (preCycle + tRAS tc) else minPreCycle b) actCycle (lastCmdCycle b) (curRowHits b)
               (rdReqs b) (wrReqs b) in
    d ← put_bank (loc r) b (mkDev (minRespCycle d) (lastCmdWasWrite d) (banks d) ws (log d));
    Ok (Z.max m (u64 (actCycle + tRCD tc)), Some actCycle, d).

(** The RD or WR command.  [more]: the next request of the bank queue is a row hit. *)
Definition column (r : Request) (more : bool) (minCmdCycle : Z) (act : option Z) (d : Dev) : res Dev :=
  let cmdCycle := Z.max minCmdCycle (u64 (minRespCycle d - tCL tc)) in
  let resp := u64 (u64 (cmdCycle + tCL tc) + tBL tc) in
  b ← get_bank d (loc r);
  let op := if closedPage c && negb more then false else open b in
  let pre := Z.max (minPreCycle b) (Z.max (u64 (lastActCycle b + tRAS tc))
               (if write r then u64 (resp + tWR tc) else u64 (cmdCycle + tRTP tc))) in
  _ ← rassert (lastCmdCycle b <? cmdCycle) "bank.lastCmdCycle < cmdCycle";
  put_bank (loc r) (mkBank (openRow b) op pre (lastActCycle b) cmdCycle (rowHitSeq r) (rdReqs b) (wrReqs b))
    (mkDev resp (write r) (banks d) (rankActWindows d)
       (Cmd (rank (loc r)) (bank (loc r)) (row (loc r)) act cmdCycle resp (write r) :: log d)).

(** The response to a read, and the counters. *)
Definition respond (r : Request) (rowHit : bool) (sysCycle : Z) : DM unit :=
  s ← mget;
  let doneSysCycle := u64 (memToSysCycle c (minRespCycle (dev s)) + controllerSysLatency c) in
  let scDelay := u32 (doneSysCycle - startSysCycle r) in
  let p := prof s in
  match ev r with
  | Some e =>
      a ← mlift (from_opt (evs s !! e) "event");
      massert (negb (a_write a) && negb (write r)) "reads only";;
      massert (sysCycle <=? doneSysCycle) "doneSysCycle >= sysCycle";;
      ev_respond e (startSysCycle r) (u64 (u64 (doneSysCycle - preDelay c) - postDelayRd c));;
      let bucket := Z.min (NUMBINS - 1) (scDelay / BINSIZE) in
      h ← mlift (arr_get (latencyHist p) (Z.to_nat bucket));
      mmodify (with_prof (mkProf (u64 (profReads p + 1)) (profWrites p) (u64 (profTotalRdLat p + scDelay)) (profTotalWrLat p)
        (if rowHit then u64 (profReadHits p + 1) else profReadHits p) (profWriteHits p)
        (<[Z.to_nat bucket := u64 (h + 1)]> (latencyHist p))))
  | None =>
      mmodify (with_prof (mkProf (profReads p) (u64 (profWrites p + 1)) (profTotalRdLat p) (u64 (profTotalWrLat p + scDelay))
        (profReadHits p) (if rowHit then u64 (profWriteHits p + 1) else profWriteHits p) (latencyHist p)))
  end.

(** [queue.remove(ir)], and [pop_front] of the bank queue. *)
Definition dequeue (wr : bool) (n : nat) (r : Request) : DM unit :=
  s ← mget;
  b ← mlift (get_bank (dev s) (loc r));
  d ← mlift (put_bank (loc r) (with_bank_queue wr (tail (bank_queue wr b)) b) (dev s));
  mmodify (with_queue wr (RQ.remove n (queue_of wr s)));; mmodify (with_dev d).

(** [r->next && r->next->rowHitSeq != 0] for the first request of a bank queue. *)
Definition moreHits (q : RQ.t) (l : list nat) : res bool :=
  match l with
  | _ :: n :: _ => r ← RQ.get n q; Ok (negb (rowHitSeq r =? 0))
  | _ => Ok false
  end.

(** The issue of the request [n] of the chosen queue. *)
Definition issue (wr : bool) (n : nat) (curCycle sysCycle : Z) : DM Z :=
  s ← mget;
  r ← mlift (RQ.get n (queue_of wr s));
  '(m, act, d) ← mlift (activate curCycle r (dev s));
  b ← mlift (get_bank d (loc r));
  more ← mlift (moreHits (queue_of wr s) (bank_queue wr b));
  d ← mlift (column r more m act d);
  mmodify (with_dev d);;
  respond r (bool_decide (act = None)) sysCycle;;
  dequeue wr n r;;
  s ← mget;
  mret (if RQ.empty (rdQueue s) && RQ.empty (wrQueue s) then noEvent else u64 (minRespCycle (dev s) - tCL tc)).

Definition trySchedule (curCycle sysCycle : Z) : DM Z :=
  s ← mget;
  if RQ.empty (rdQueue s) && RQ.empty (wrQueue s) then mret noEvent
  else if u64 (curCycle + tCL tc) <? minRespCycle (dev s) then mret (u64 (minRespCycle (dev s) - tCL tc))
  else
    let wr := useWrites s in
    massert (negb (RQ.empty (queue_of wr s))) "!queue.empty()";;
    '(o, minSched) ← mlift (scan wr curCycle (queue_of wr s) (dev s) (RQ.reqList (queue_of wr s)) noEvent);
    match o with
    | None => mret minSched
    | Some n => issue wr n curCycle sysCycle
    end.

(** *** tick *)

(** Move the first request of the overflow queue; the result is the new cycle of the next tick. *)
Definition refill (memCycle minSched : Z) : DM Z :=
  s ← mget;
  match overflowQueue s with
  | [] => mret minSched
  | req :: ovf =>
      if negb (RQ.full (rdQueue s)) && negb (RQ.full (wrQueue s)) then
        let wr := deferredWrites c && write req in
        '(n, q) ← mlift (RQ.alloc (queue_of wr s));
        mmodify (with_queue wr (RQ.set n req q));; mmodify (with_overflow ovf);;
        queue wr n memCycle;;
        s ← mget;
        r ← mlift (RQ.get n (queue_of wr s));
        first ← mlift (isFirst wr n r (dev s));
        if (first : bool) then
          let m := Z.max memCycle (u64 (u64 (minRespCycle (dev s) - tCL tc) - tBL tc)) in
          minSched ← (if m <? minSched then x ← mlift (findMinCmdCycle r (dev s)); mret (Z.max m x) else mret minSched);
          mret (if m <? minSched then m else minSched)
        else mret minSched
      else mret minSched
  end.

Definition tick (sysCycle : Z) : DM Z :=
  let memCycle := sysToMemCycle c sysCycle in
  s ← mget;
  massert (memCycle =? nextSchedCycle (sch s)) "memCycle == nextSchedCycle";;
  m ← trySchedule memCycle sysCycle;
  massert (memCycle <=? m) "minSchedCycle >= memCycle";;
  m ← refill memCycle m;
  set_nextSchedCycle m;;
  if m =? noEvent then
    mmodify (fun s => with_sch (mkSch None (nextSchedCycle (sch s)) (eventFreelist (sch s)) (scheds (sch s)) (pending (sch s))) s);;
    mret 0
  else mret (Z.max (matchingMemToSysCycle c m) sysCycle).

Definition recycleEvent (n : nat) : DM unit :=
  s ← mget;
  let h := sch s in
  massert (negb (bool_decide (nextSchedEvent h = Some n))) "ev != nextSchedEvent";;
  e ← mlift (arr_get (scheds h) n);
  massert (bool_decide (s_next e = None)) "ev->next == nullptr";;
  mmodify (with_sch (mkSch (nextSchedEvent h) (nextSchedCycle h) (Some n) (<[n := mkSched (s_state e) (s_base e) (eventFreelist h)]> (scheds h)) (pending h))).

(** [simulate] of a SchedEvent. *)
Definition sched_simulate (n : nat) (startCycle : Z) : DM unit :=
  e ← sched_get n;
  if bool_decide (s_state e = QUEUED) then
    sched_state n RUNNING;;
    next ← tick startCycle;
    if negb (next =? 0) then sched_requeue n next;; sched_state n QUEUED
    else sched_state n IDLE;; sched_hold n;; recycleEvent n
  else
    massert (bool_decide (s_state e = ANNULLED)) "state == ANNULLED";;
    sched_state n IDLE;; sched_hold n;; recycleEvent n.

(** *** Refreshes *)
Definition close_bank (pre : Z) (b : Bank) : Bank :=
  mkBank (openRow b) false pre (lastActCycle b) (lastCmdCycle b) (curRowHits b) (rdReqs b) (wrReqs b).
Definition refresh (sysCycle : Z) (d : Dev) : res Dev :=
  let memCycle := sysToMemCycle c sysCycle in
  let start := fold_left (fun m b => Z.max m (Z.max (minPreCycle b) (lastCmdCycle b))) (concat (banks d)) memCycle in
  _ ← rassert (memCycle <=? start) "minRefreshCycle >= memCycle";
  let dn := u64 (start + tRFC tc) in
  _ ← rassert (tRP tc <=? tRFC tc) "tRFC >= tRP";
  Ok (mkDev (minRespCycle d) (lastCmdWasWrite d) (map (map (close_bank (u64 (dn - tRP tc)))) (banks d)) (rankActWindows d) (Ref start dn :: log d)).
Definition refresh_simulate (startCycle : Z) : DM unit :=
  s ← mget;
  d ← mlift (refresh startCycle (dev s));
  mmodify (with_dev d);; mmodify (with_refresh (u64 (startCycle + refInterval c))).

(** ** The events of the contention simulator

    [Acc]: a DDRMemoryAccEvent is simulated; [Sched] and [Refresh]: the SchedEvent and the
    RefreshEvent that wait are. *)
Inductive op :=
| Acc (e : nat) (lineAddr : Z) (isWrite : bool) (cycle : Z)
| Sched (n : nat) (cycle : Z)
| Refresh.
Definition op_cycle (s : t) (o : op) : Z :=
  match o with Acc _ _ _ cy => cy | Sched _ cy => cy | Refresh => refreshAt s end.

(** [run] of a SchedEvent, after it left the queue of the simulator. *)
Definition step_sched (n : nat) (cy : Z) : DM unit :=
  mmodify (fun s => with_sch (mkSch (nextSchedEvent (sch s)) (nextSchedCycle (sch s)) (eventFreelist (sch s)) (scheds (sch s))
    (base.filter (fun x => x <> (n, cy)) (pending (sch s)))) s);;
  e ← sched_get n;
  massert (bool_decide (s_base e = EV_NONE) || bool_decide (s_base e = EV_QUEUED)) "state == EV_NONE || state == EV_QUEUED";;
  sched_base n EV_RUNNING [];;
  sched_simulate n cy.
(** An event is run. *)
Definition step (o : op) : DM unit :=
  s ← mget;
  mmodify (with_now (op_cycle s o));;
  match o with
  | Acc e lineAddr w cy =>
      mmodify (fun s => with_evs (<[e := mkAcc lineAddr w EV_RUNNING]> (evs s)) (resps s) s);;
      enqueue e cy
  | Sched n cy => step_sched n cy
  | Refresh => refresh_simulate (refreshAt s)
  end.
Fixpoint run (l : list op) : DM unit :=
  match l with [] => mret tt | o :: l => step o;; run l end.
End Ops.
End DDR.
