(* ===== verification/DDRTiming.v ===== *)
(** * The timing of the DDR memory controller

    The conversions between system and memory cycles, the window of activations as a sorted
    sequence, and the commands that [activate], [column] and [refresh] issue: the log of a
    controller obeys the timing constraints of its devices. *)

From S2P Require Import Prelude Bithacks Double MemHier TimingEvent CoreRecorder DDRMem.

Module DDRT.
Import DDR.

(** ** What a configuration must satisfy *)
(** The bounds on memory cycles and on system cycles. *)
Definition lim : Z := 2 ^ 40.
Definition slim : Z := 2 ^ 44.
Definition param (x : Z) : Prop := 1 <= x <= 2 ^ 16.
Record CfgOK (c : Config) : Prop := {
  ok_params : Forall param [tBL (tech c); tCL (tech c); tRCD (tech c); tRTP (tech c); tRP (tech c); tRRD (tech c); tRAS (tech c);
                            tFAW (tech c); tWTR (tech c); tWR (tech c); tRFC (tech c); tREFI (tech c)];
  ok_rfc : tRP (tech c) <= tRFC (tech c);
  ok_freq : 2 ^ 19 <= memFreq c < 2 ^ 20 /\ 2 * memFreq c + 2 <= sysFreqKHz c < 2 ^ 23;
  ok_ranks : 0 <= rankMask (amap c) < ranksPerChannel c;
  ok_banks : 0 <= bankMask (amap c) < banksPerRank c;
  ok_depth : 1 <= queueDepth c < 2 ^ 30;
  ok_lat : 0 <= controllerSysLatency c < 2 ^ 20;
  ok_pre : preDelay c = controllerSysLatency c /\ minWrLatency c = controllerSysLatency c /\ postDelayWr c = 0;
  ok_post : postDelayRd c = memToSysCycle c (tCL (tech c) + tBL (tech c) - 1) }.

(** ** Cycles *)
Section Cycles.
Context (mf sf : Z) (Hf : 2 ^ 19 <= mf < 2 ^ 20 /\ 2 * mf + 2 <= sf < 2 ^ 23).

Lemma sysToMem_eq s : 0 <= s < slim -> sysToMem mf sf s = s * mf / sf + 1.
Proof using Hf.
  unfold slim. intros Hs. unfold sysToMem. rewrite (u64_small (s * mf)) by (unfold two64; nia).
  apply u64_small. split; [|]; pose proof (Z.div_pos (s * mf) sf ltac:(nia) ltac:(lia)); [lia|].
  pose proof (Z.div_le_upper_bound (s * mf) sf (s * mf) ltac:(lia) ltac:(nia)). unfold two64. nia.
Qed.

Lemma memToSys_eq m : 0 <= m < lim -> memToSys mf sf m = (m + 1) * sf / mf.
Proof using Hf. unfold lim. intros Hm. unfold memToSys. rewrite (u64_small (m + 1)), u64_small; unfold two64; nia. Qed.

Lemma matching_eq m : 1 <= m < lim -> matchingMemToSys mf sf m = (2 * m - 1) * sf / mf / 2.
Proof using Hf. unfold lim. intros Hm. unfold matchingMemToSys. rewrite (u64_small (2 * m - 1)), u64_small; unfold two64; nia. Qed.

Lemma sysToMem_pos s : 0 <= s < slim -> 1 <= sysToMem mf sf s <= s + 1.
Proof using Hf.
  intros Hs. rewrite sysToMem_eq by done.
  pose proof (Z.div_pos (s * mf) sf ltac:(nia) ltac:(lia)). pose proof (Z.div_le_upper_bound (s * mf) sf s ltac:(lia) ltac:(nia)). lia.
Qed.

Lemma sysToMem_mono s s' : 0 <= s <= s' -> s' < slim -> sysToMem mf sf s <= sysToMem mf sf s'.
Proof using Hf. intros H1 H2. rewrite !sysToMem_eq by lia. pose proof (Z.div_le_mono (s * mf) (s' * mf) sf ltac:(lia) ltac:(nia)). lia. Qed.

(** The matching cycle lies between the edges of its memory cycle. *)
Lemma matching_bounds m : 1 <= m < lim -> 1 <= matchingMemToSys mf sf m /\
  (m - 1) * sf <= matchingMemToSys mf sf m * mf < m * sf.
Proof using Hf.
  intros Hm. rewrite matching_eq by done. rewrite Z.div_div by lia.
  pose proof (Z.div_mod ((2 * m - 1) * sf) (mf * 2) ltac:(lia)) as Hd.
  pose proof (Z.mod_pos_bound ((2 * m - 1) * sf) (mf * 2) ltac:(lia)) as Hb.
  set (q := (2 * m - 1) * sf / (mf * 2)) in *. split; [|nia]. 
  apply Z.div_le_lower_bound; nia.
Qed.

Lemma matching_lim m : 1 <= m < lim -> 1 <= matchingMemToSys mf sf m < slim.
Proof using Hf. intros Hm. destruct (matching_bounds m Hm) as (H1&H2). unfold lim, slim in *. nia. Qed.

(** The comment of matchingMemToSysCycle: the cycle translates back to [m]. *)
Lemma cycles_roundtrip m : 1 <= m < lim -> sysToMem mf sf (matchingMemToSys mf sf m) = m.
Proof using Hf.
  intros Hm. destruct (matching_bounds m Hm) as (H1&H2). pose proof (matching_lim m Hm). rewrite sysToMem_eq by lia.
  enough (matchingMemToSys mf sf m * mf / sf = m - 1) by lia. symmetry. apply Z.div_unique with (matchingMemToSys mf sf m * mf - (m - 1) * sf); lia.
Qed.

(** An event at the later of the matching cycle and the present runs at [m]. *)
Lemma wake_cycle m s : 1 <= m < lim -> 0 <= s < slim -> sysToMem mf sf s <= m ->
  sysToMem mf sf (Z.max (matchingMemToSys mf sf m) s) = m.
Proof using Hf.
  intros Hm Hs Hle. pose proof (matching_lim m Hm). destruct (Z.max_spec (matchingMemToSys mf sf m) s) as [[H1 ->]|[H1 ->]]; [|by apply cycles_roundtrip].
  pose proof (sysToMem_mono (matchingMemToSys mf sf m) s ltac:(lia) ltac:(lia)) as H2. rewrite cycles_roundtrip in H2 by done. lia.
Qed.

(** A burst that ends [k] memory cycles after the present ends [k] cycles and more later. *)
Lemma memToSys_later s m k : 0 <= s < slim -> 0 <= k -> m < lim -> sysToMem mf sf s + k <= m ->
  s + (k + 1) * sf / mf <= memToSys mf sf m.
Proof using Hf.
  intros Hs Hk Hm Hle. pose proof (sysToMem_pos s Hs). rewrite memToSys_eq by lia. rewrite sysToMem_eq in Hle by done.
  pose proof (Z.div_mod (s * mf) sf ltac:(lia)) as Hd. pose proof (Z.mod_pos_bound (s * mf) sf ltac:(lia)) as Hb.
  apply Z.div_le_lower_bound; [lia|]. pose proof (Z.mul_div_le ((k + 1) * sf) mf ltac:(lia)). nia.
Qed.

Lemma memToSys_range m : 0 <= m < lim -> 0 <= memToSys mf sf m < 2 ^ 45.
Proof using Hf.
  intros Hm. rewrite memToSys_eq by done. unfold lim in Hm. split; [apply Z.div_pos; nia|]. apply Z.div_lt_upper_bound; nia.
Qed.
End Cycles.

(** ** The window of activations

    Each new activation takes the place of the one at [idx], whatever the order of the
    others: the window is a pool of four tokens, each of which is free again tFAW cycles
    after its use. *)
Section Window.
Context (F : Z).
Definition tight (l : list Z) : Prop := forall p q, p ∈ l -> q ∈ l -> q < p + F.
(** Activations that lie within less than [F] cycles, the first of them at [p], are at
    most as many as the tokens used at [p] or later. *)
Definition Pool (V A : list Z) : Prop := forall l, l ⊆+ A -> tight l -> l <> [] ->
  exists p, p ∈ l /\ (forall q, q ∈ l -> p <= q) /\ (length l <= length (base.filter (fun q : Z => (p <= q)%Z) V))%nat.

Lemma Pool_perm V V' A A' : V ≡ₚ V' -> A ≡ₚ A' -> Pool V A -> Pool V' A'.
Proof. intros HV HA HP l Hl Ht Hn. rewrite <- HA in Hl. destruct (HP l Hl Ht Hn) as (p&H1&H2&H3). exists p. by rewrite <- HV. Qed.

Lemma Pool_nil V : Pool V [].
Proof. intros l Hl _ Hn. by apply submseteq_nil_r in Hl. Qed.

Lemma tight_perm l l' : l ≡ₚ l' -> tight l -> tight l'.
Proof. intros Hp Ht p q. rewrite <- Hp. apply Ht. Qed.

Lemma Pool_add a R A x : 0 < F -> Pool (a :: R) A -> a + F <= x -> Pool (x :: R) (x :: A).
Proof.
  intros HF HP Hx l Hl Ht Hn. apply submseteq_cons_r in Hl as [Hl|(l'&Hp&Hl)].
  - destruct (HP l Hl Ht Hn) as (p&H1&H2&H3). exists p. split_and!; [done..|]. revert H3. rewrite !filter_cons. repeat case_decide; cbn; lia.
  - apply (tight_perm _ _ Hp) in Ht. destruct (decide (l' = [])) as [->|Hn'].
    { exists x. split_and!; [rewrite Hp; set_solver|intros q; rewrite Hp, list_elem_of_singleton; lia|]. rewrite Hp, filter_cons, decide_True by lia. cbn. lia. }
    destruct (HP l' Hl) as (p&H1&H2&H3); [intros u v Hu Hv; apply Ht; set_solver|done|].
    assert (x < p + F) by (apply Ht; set_solver). rewrite filter_cons, decide_False in H3 by lia.
    exists (Z.min p x). split_and!.
    + rewrite Hp. destruct (Z.min_spec p x) as [[_ ->]|[_ ->]]; set_solver.
    + intros q Hq. rewrite Hp in Hq. apply elem_of_cons in Hq as [->|Hq]; [lia|]. specialize (H2 q Hq). lia.
    + rewrite Hp, filter_cons, decide_True by lia. cbn. apply le_n_S. etransitivity; [exact H3|].
      apply submseteq_length. clear. induction R as [|r R IH]; [done|]. rewrite !filter_cons. repeat case_decide; try lia; [by apply submseteq_skip|by apply submseteq_cons|done].
Qed.

(** So five activations of a pool of four are never that close. *)
Lemma Pool_apart V A l : Pool V A -> l ⊆+ A -> (length V < length l)%nat -> exists p q, p ∈ l /\ q ∈ l /\ p + F <= q.
Proof.
  intros HP Hl Hlen. destruct (decide (Exists (fun p => Exists (fun q => p + F <= q) l) l)) as [H|H].
  - apply list.Exists_exists in H as (p&Hp&H). apply list.Exists_exists in H as (q&Hq&H). by exists p, q.
  - exfalso. destruct (HP l Hl) as (p&_&_&H3); [|intros ->; cbn in Hlen; lia|].
    + intros p q Hp Hq. destruct (Z_lt_le_dec q (p + F)) as [|Hle]; [done|]. destruct H. apply list.Exists_exists. exists p. split; [done|]. apply list.Exists_exists. by exists q.
    + pose proof (length_filter (fun q : Z => p <= q) V). lia.
Qed.
End Window.

(** A window of four: its oldest entry, and the others. *)
Definition WinOK (w : AW.t) : Prop := length (AW.buf w) = 4%nat /\ (AW.idx w < 4)%nat.

Lemma addActivation_spec w x a : WinOK w -> AW.minActCycle w = Ok a -> a <= x ->
  rwp (AW.addActivation x w) (fun w' => WinOK w' /\ exists R, AW.buf w ≡ₚ a :: R /\ AW.buf w' ≡ₚ x :: R).
Proof.
  destruct w as [[|b0 [|b1 [|b2 [|b3 [|]]]]] i]; intros [Hl Hi] Hm Hx; try done. cbn [AW.idx AW.buf] in *.
  do 4 try destruct i as [|i]; [..|lia]; cbn in Hm; injection Hm as ->;
  unfold AW.addActivation, AW.minActCycle, rwp; cbn; rewrite (proj2 (Z.leb_le a x)) by done; cbn;
  repeat (case_match; cbn; try done);
  match goal with H : _ ≫= _ = Ok _ |- _ => cbn in H; injection H as <- end;
  (split; [by split; cbn; [|lia]|]); cbn [AW.buf];
  first [by exists [b1; b2; b3]; split; solve_Permutation | by exists [b0; b2; b3]; split; solve_Permutation
        |by exists [b0; b1; b3]; split; solve_Permutation | by exists [b0; b1; b2]; split; solve_Permutation].
Qed.

(** ** The banks *)
Definition bank_at (d : Dev) (i j : nat) : option Bank := banks d !! i ≫= fun l => l !! j.
Definition LocOK (c : Config) (l : AddrLoc) : Prop := 0 <= rank l < ranksPerChannel c /\ 0 <= bank l < banksPerRank c.
Record Shape (c : Config) (d : Dev) : Prop := {
  sh_ranks : length (banks d) = Z.to_nat (ranksPerChannel c);
  sh_banks : Forall (fun l => length l = Z.to_nat (banksPerRank c)) (banks d);
  sh_wins : length (rankActWindows d) = Z.to_nat (ranksPerChannel c) }.
Definition loc_at (l : AddrLoc) (i j : nat) : Prop := rank l = Z.of_nat i /\ bank l = Z.of_nat j.

Lemma Shape_bank c d l : Shape c d -> LocOK c l ->
  exists i j b, loc_at l i j /\ bank_at d i j = Some b /\ get_bank d l = Ok b /\ Z.to_nat (rank l) = i.
Proof.
  intros HS [H1 H2]. destruct (lookup_lt_is_Some_2 (banks d) (Z.to_nat (rank l))) as [rb Hr]; [rewrite (sh_ranks _ _ HS); lia|].
  pose proof (Forall_lookup_1 _ _ _ _ (sh_banks _ _ HS) Hr) as Hl. cbn in Hl.
  destruct (lookup_lt_is_Some_2 rb (Z.to_nat (bank l))) as [b Hb]; [lia|].
  exists (Z.to_nat (rank l)), (Z.to_nat (bank l)), b. unfold loc_at, bank_at, get_bank. rewrite (arr_get_Some _ _ _ Hr), Hr. cbn.
  rewrite (arr_get_Some _ _ _ Hb), Hb. split_and!; [lia..|done|done|done].
Qed.

Lemma get_bank_at d l i j b : loc_at l i j -> bank_at d i j = Some b -> get_bank d l = Ok b.
Proof.
  intros [H1 H2] Hb. unfold bank_at in Hb. destruct (banks d !! i) as [rb|] eqn:E; [|done]. cbn in Hb.
  unfold get_bank. rewrite H1, H2, !Nat2Z.id, (arr_get_Some _ _ _ E). cbn. by apply arr_get_Some.
Qed.

(** [put_bank] changes one bank and nothing else. *)
Record Put (i j : nat) (b : Bank) (d d' : Dev) : Prop := {
  pt_bank : forall i' j', bank_at d' i' j' = if decide (i' = i /\ j' = j) then Some b else bank_at d i' j';
  pt_shape : forall c, Shape c d -> Shape c d';
  pt_resp : minRespCycle d' = minRespCycle d;
  pt_lastW : lastCmdWasWrite d' = lastCmdWasWrite d;
  pt_wins : rankActWindows d' = rankActWindows d;
  pt_log : log d' = log d }.

Lemma put_bank_spec d l i j b b0 : loc_at l i j -> bank_at d i j = Some b0 -> rwp (put_bank l b d) (Put i j b d).
Proof.
  intros [H1 H2] Hb. unfold bank_at in Hb. destruct (banks d !! i) as [rb|] eqn:E; [|done]. cbn in Hb.
  pose proof (lookup_lt_Some _ _ _ E). pose proof (lookup_lt_Some _ _ _ Hb).
  unfold put_bank. rewrite H1, H2, !Nat2Z.id, (arr_get_Some _ _ _ E). cbn.
  rewrite (arr_set_lt rb) by done. cbn. rewrite arr_set_lt by done. cbn. split; try done.
  - intros i' j'. unfold bank_at. cbn. destruct (decide (i' = i)) as [->|Hi].
    + rewrite list_lookup_insert_eq by done. cbn. rewrite E. cbn. destruct (decide (j' = j)) as [->|Hj].
      * rewrite list_lookup_insert_eq by done. by rewrite decide_True.
      * rewrite list_lookup_insert_ne by done. rewrite decide_False; [done|tauto].
    + rewrite list_lookup_insert_ne by done. rewrite decide_False; [done|tauto].
  - intros c [A B C]. split; cbn; [by rewrite length_insert| |done].
    apply Forall_insert; [done|]. rewrite length_insert. by apply (Forall_lookup_1 _ _ _ _ B E).
Qed.

(** ** The timing constraints

    The log has the newest entry first. *)
Section Protocol.
Context (tc : Tech).
(** The first cycle at which the bank of a command may be precharged. *)
Definition recovered (cas en : Z) (w : bool) : Z := if w then en + tWR tc else cas + tRTP tc.
Definition entry_ok (e : Entry) : Prop :=
  match e with
  | Cmd _ _ _ act cas en _ => en = cas + tCL tc + tBL tc /\ forall x, act = Some x -> x + tRCD tc <= cas
  | Ref st dn => dn = st + tRFC tc
  end.
(** The constraints between an older and a newer entry. *)
Definition pair_ok (o n : Entry) : Prop :=
  match o, n with
  | Cmd r b _ act cas en w, Cmd r' b' _ act' cas' en' w' =>
      en <= cas' + tCL tc /\
      (w = true -> w' = false -> en + tWTR tc <= cas') /\
      (r = r' -> b = b' -> cas < cas' /\
        forall x, act' = Some x -> recovered cas en w + tRP tc <= x /\
          forall y, act = Some y -> y + tRAS tc + tRP tc <= x /\ y + tRRD tc <= x)
  | Ref st dn, Cmd _ _ _ act' cas' _ _ => dn + tRCD tc <= cas' /\ forall x, act' = Some x -> dn <= x
  | Cmd _ _ _ act cas en w, Ref st _ => recovered cas en w <= st /\ forall y, act = Some y -> y + tRAS tc <= st
  | Ref _ dn, Ref st' _ => dn <= st' + tRP tc
  end.
(** The row that the entries leave in the sense amplifiers of a bank. *)
Fixpoint row_of (r b : Z) (l : list Entry) : option Z :=
  match l with
  | [] | Ref _ _ :: _ => None
  | Cmd r' b' rw _ _ _ _ :: l => if bool_decide (r' = r /\ b' = b) then Some rw else row_of r b l
  end.
Fixpoint valid (l : list Entry) : Prop :=
  match l with
  | [] => True
  | n :: l => entry_ok n /\ Forall (fun o => pair_ok o n) l /\
      match n with Cmd r b rw None _ _ _ => row_of r b l = Some rw | _ => True end /\ valid l
  end.
(** The activations of a rank. *)
Definition rank_acts (rk : Z) (l : list Entry) : list Z :=
  omap (fun e => match e with Cmd r _ _ (Some a) _ _ _ => if bool_decide (r = rk) then Some a else None | _ => None end) l.
End Protocol.

(** ** The invariant of the devices *)
Definition BankB (M : Z) (b : Bank) : Prop :=
  0 <= minPreCycle b <= M /\ 0 <= lastActCycle b <= M /\ 0 <= lastCmdCycle b <= M.
Definition DevB (M : Z) (d : Dev) : Prop :=
  minRespCycle d <= M /\ (forall i j b, bank_at d i j = Some b -> BankB M b) /\
  forall i w, rankActWindows d !! i = Some w -> Forall (fun x => 0 <= x <= M) (AW.buf w).

Section Inv.
Context (c : Config) (HC : CfgOK c).
Let tc := tech c.
(** What the fields of a bank say of an entry of the log. *)
Definition bank_entry (i j : nat) (b : Bank) (e : Entry) : Prop :=
  match e with
  | Cmd r k _ act cas en w => r = Z.of_nat i -> k = Z.of_nat j ->
      cas <= lastCmdCycle b /\ recovered tc cas en w <= minPreCycle b /\
      forall y, act = Some y -> y <= lastActCycle b /\ y + tRAS tc <= minPreCycle b
  | Ref _ dn => dn <= minPreCycle b + tRP tc /\ (open b = true -> dn + tRCD tc <= lastCmdCycle b)
  end.
Definition BankI (i j : nat) (l : list Entry) (b : Bank) : Prop :=
  lastCmdCycle b <= minPreCycle b /\ Forall (bank_entry i j b) l /\
  (open b = true -> row_of (Z.of_nat i) (Z.of_nat j) l = Some (openRow b)).
Definition bus_entry (resp : Z) (lastW : bool) (e : Entry) : Prop :=
  match e with
  | Cmd _ _ _ _ _ en w => en <= resp /\ (w = true -> lastW = false -> en + tWTR tc + tCL tc <= resp)
  | Ref _ _ => True
  end.
Record DevI (d : Dev) : Prop := {
  d_shape : Shape c d;
  d_resp : tCL tc + tBL tc + 1 <= minRespCycle d;
  d_wins : forall i w, rankActWindows d !! i = Some w -> WinOK w /\ Pool (tFAW tc) (AW.buf w) (rank_acts (Z.of_nat i) (log d));
  d_bus : Forall (bus_entry (minRespCycle d) (lastCmdWasWrite d)) (log d);
  d_banks : forall i j b, bank_at d i j = Some b -> BankI i j (log d) b;
  d_locs : Forall (fun e => match e with Cmd r k _ _ _ _ _ => LocOK c (mkLoc 0 k r 0) | Ref _ _ => True end) (log d);
  d_log : valid tc (log d) }.

Definition Params : Prop := param (tBL tc) /\ param (tCL tc) /\ param (tRCD tc) /\ param (tRTP tc) /\ param (tRP tc) /\ param (tRRD tc) /\
  param (tRAS tc) /\ param (tFAW tc) /\ param (tWTR tc) /\ param (tWR tc) /\ param (tRFC tc) /\ param (tREFI tc) /\ tRP tc <= tRFC tc.
Lemma params_ok : Params.
Proof using HC. pose proof (ok_params c HC) as H. pose proof (ok_rfc c HC). rewrite !list.Forall_cons in H. unfold Params, tc. tauto. Qed.
Ltac params := pose proof params_ok as HP; unfold Params, param in HP;
  destruct HP as (HtBL&HtCL&HtRCD&HtRTP&HtRP&HtRRD&HtRAS&HtFAW&HtWTR&HtWR&HtRFC&HtREFI&Hrfc).
Ltac u64s := repeat match goal with
  | |- context [u64 ?x] => rewrite (u64_small x) by (unfold two64, lim in *; lia)
  end.

Lemma isHit_true r b : isHit r b = true -> open b = true /\ row (loc r) = openRow b.
Proof. unfold isHit. intros [H1 H2]%andb_true_iff. apply Z.eqb_eq in H1. done. Qed.

(** The precharge and the activation of a request whose row is not open. *)
Definition pre_of (r : Request) (b : Bank) : Z := if open b then Z.max (arrivalCycle r) (minPreCycle b) else minPreCycle b.
Definition act_of (r : Request) (b : Bank) (a : Z) : Z :=
  Z.max (arrivalCycle r) (Z.max (pre_of r b + tRP tc) (Z.max (lastActCycle b + tRRD tc) (a + tFAW tc))).

Lemma window_at d l i j : Shape c d -> LocOK c l -> loc_at l i j -> exists w, rankActWindows d !! i = Some w.
Proof. intros HS [Hl _] [H1 _]. apply lookup_lt_is_Some_2. rewrite (sh_wins _ _ HS). lia. Qed.

Lemma min_act w M : WinOK w -> Forall (fun x => 0 <= x <= M) (AW.buf w) -> exists a, AW.minActCycle w = Ok a /\ 0 <= a <= M.
Proof.
  intros [H1 H2] Hb. destruct (lookup_lt_is_Some_2 (AW.buf w) (AW.idx w)) as [a Ha]; [lia|]. exists a.
  split; [by apply arr_get_Some|]. by apply (Forall_lookup_1 _ _ _ _ Hb Ha).
Qed.

Lemma preAct_eq r b d w a i j M : isHit r b = false -> loc_at (loc r) i j -> rankActWindows d !! i = Some w -> AW.minActCycle w = Ok a ->
  0 <= a <= M -> BankB M b -> 0 <= arrivalCycle r <= M -> M + 2 ^ 16 < lim ->
  preAct c r b d = Ok (pre_of r b, act_of r b a).
Proof using HC.
  intros Hh [Hi _] Hw Ha Hab (Hb1&Hb2&Hb3) Har HM. params. unfold lim in HM.
  assert (0 <= pre_of r b <= M) by (unfold pre_of; destruct (open b); lia).
  unfold preAct. fold tc.
  assert ((if negb (open b) then Ok (minPreCycle b)
           else rassert (negb (row (loc r) =? openRow b)) "r.loc.row != bank.openRow" ≫= fun _ => Ok (Z.max (arrivalCycle r) (minPreCycle b))) =
          Ok (pre_of r b)) as E.
  { unfold pre_of. destruct (open b) eqn:Eo; [|done]. cbn. unfold isHit in Hh. rewrite Eo, andb_true_r in Hh. by rewrite Hh. }
  rewrite E. cbn. rewrite Hi, Nat2Z.id, (arr_get_Some _ _ _ Hw). cbn. rewrite Ha. cbn. u64s. unfold act_of. do 2 f_equal. lia.
Qed.

(** The least command cycle of a request. *)
Definition min_cmd (r : Request) (b : Bank) (a : Z) : Z :=
  if isHit r b then Z.max (arrivalCycle r) (lastCmdCycle b + 1) else act_of r b a + tRCD tc.

Lemma findMinCmdCycle_eq r d b w a i j M : loc_at (loc r) i j -> bank_at d i j = Some b -> rankActWindows d !! i = Some w -> AW.minActCycle w = Ok a ->
  0 <= a <= M -> BankB M b -> 0 <= arrivalCycle r <= M -> M + 2 ^ 18 < lim ->
  findMinCmdCycle c r d = Ok (min_cmd r b a) /\ 0 <= min_cmd r b a <= M + 2 ^ 18.
Proof using HC.
  intros Hl Hb Hw Ha Hab HB Har HM. pose proof HB as (Hb1&Hb2&Hb3). params. unfold lim in HM.
  unfold findMinCmdCycle, min_cmd. rewrite (get_bank_at _ _ _ _ _ Hl Hb). cbn [mbind res_bind].
  destruct (isHit r b) eqn:Eh; [u64s; split; [done|lia]|].
  rewrite (preAct_eq r b d w a i j M) by (done || (unfold lim; lia)). cbn [mbind res_bind].
  assert (0 <= pre_of r b <= M) by (unfold pre_of; destruct (open b); lia). assert (0 <= act_of r b a <= M + 2 ^ 16) by (unfold act_of; lia).
  fold tc. u64s. split; [done|lia].
Qed.

Lemma findMin_ok r d M : DevI d -> DevB M d -> LocOK c (loc r) -> 0 <= arrivalCycle r <= M -> M + 2 ^ 18 < lim ->
  exists x, findMinCmdCycle c r d = Ok x /\ 0 <= x <= M + 2 ^ 18.
Proof using HC.
  intros HD (H1&H2&H3) HL Har HM. destruct (Shape_bank c d (loc r) (d_shape _ HD) HL) as (i&j&b&Hl&Hb&_).
  destruct (window_at d (loc r) i j (d_shape _ HD) HL Hl) as [w Hw]. destruct (d_wins _ HD i w Hw) as [Hok _].
  destruct (min_act w M Hok (H3 i w Hw)) as (a&Ha&Hr). eexists. by apply (findMinCmdCycle_eq r d b w a i j M); eauto.
Qed.

(** *** The issue of a request *)
Definition bq (b : Bank) : list nat * list nat := (rdReqs b, wrReqs b).

(** The banks and windows after [activate]: the row of [r] is open in its bank, now [b1]. *)
Record Activated (M cur : Z) (r : Request) (d : Dev) (i j : nat) (b : Bank) (m : Z) (act : option Z) (d1 : Dev) (b1 : Bank) : Prop := {
  av_bank : forall i' j', bank_at d1 i' j' = if decide (i' = i /\ j' = j) then Some b1 else bank_at d i' j';
  av_shape : Shape c d1;
  av_same : minRespCycle d1 = minRespCycle d /\ lastCmdWasWrite d1 = lastCmdWasWrite d /\ log d1 = log d;
  av_wins : forall k w', rankActWindows d1 !! k = Some w' -> WinOK w' /\ Forall (fun x => 0 <= x <= M + 2 ^ 16) (AW.buf w') /\
    exists w, rankActWindows d !! k = Some w /\
      match act with
      | Some x => if decide (k = i) then exists a R, a + tFAW tc <= x /\ AW.buf w ≡ₚ a :: R /\ AW.buf w' ≡ₚ x :: R else w' = w
      | None => w' = w
      end;
  av_open : open b1 = true /\ openRow b1 = row (loc r) /\ bq b1 = bq b /\ lastCmdCycle b1 = lastCmdCycle b;
  av_m : cur <= m <= M + 2 ^ 18 /\ minRespCycle d - tCL tc <= m /\ (lastCmdWasWrite d = true -> write r = false -> minRespCycle d + tWTR tc <= m);
  av_act : match act with
    | None => b1 = b /\ isHit r b = true
    | Some x => minPreCycle b + tRP tc <= x <= M + 2 ^ 16 /\ lastActCycle b + tRRD tc <= x /\ lastActCycle b1 = x /\
        minPreCycle b <= minPreCycle b1 <= x + tRAS tc /\ x + tRCD tc <= m
    end }.

Lemma activate_spec M cur r d i j b : DevI d -> DevB M d -> LocOK c (loc r) -> loc_at (loc r) i j -> bank_at d i j = Some b ->
  0 <= arrivalCycle r <= M -> 0 <= cur <= M -> M + 2 ^ 18 < lim ->
  rwp (activate c cur r d) (fun '(m, act, d1) => exists b1, Activated M cur r d i j b m act d1 b1).
Proof using HC.
  intros HD HDB HL Hl Hb Har Hcur HM. pose proof HDB as (HB1&HB2&HB3). pose proof (HB2 i j b Hb) as HBb. pose proof HBb as (Hb1&Hb2&Hb3). params.
  pose proof (d_resp _ HD) as Hresp. unfold lim in HM.
  destruct (window_at d (loc r) i j (d_shape _ HD) HL Hl) as [w Hw]. destruct (d_wins _ HD i w Hw) as [Hok _].
  destruct (min_act w M Hok (HB3 i w Hw)) as (a&Ha&Hr).
  unfold activate. rewrite (get_bank_at _ _ _ _ _ Hl Hb). cbn [mbind res_bind]. fold tc. u64s.
  set (m := if lastCmdWasWrite d && negb (write r) then _ else _).
  assert (cur <= m <= M + 2 ^ 17 /\ minRespCycle d - tCL tc <= m /\ (lastCmdWasWrite d = true -> write r = false -> minRespCycle d + tWTR tc <= m)) as Hm.
  { unfold m. destruct (lastCmdWasWrite d), (write r); cbn; split_and!; try done; lia. }
  clearbody m. destruct (isHit r b) eqn:Eh.
  - cbn. exists b. destruct (isHit_true _ _ Eh) as [Ho Hrow]. split; try done; [|exact (d_shape _ HD)| |destruct Hm as (?&?&?); split_and!; done || lia].
    + intros i' j'. case_decide as E; [|done]. by destruct E as [-> ->].
    + intros k w' Hk. destruct (d_wins _ HD k w' Hk) as [H1 _]. split_and!; [done| |by exists w'].
      eapply list.Forall_impl; [exact (HB3 k w' Hk)|]. cbn. lia.
  - rewrite (preAct_eq r b d w a i j M) by (done || (unfold lim; lia)). cbn [mbind res_bind].
    destruct Hl as [Hl1 Hl2]. rewrite Hl1, Nat2Z.id, (arr_get_Some _ _ _ Hw). cbn [mbind res_bind].
    assert (0 <= pre_of r b <= M /\ minPreCycle b <= pre_of r b) as Hpre by (unfold pre_of; destruct (open b); lia).
    assert (act_of r b a <= M + 2 ^ 16 /\ pre_of r b + tRP tc <= act_of r b a /\ lastActCycle b + tRRD tc <= act_of r b a /\ a + tFAW tc <= act_of r b a)
      as Hact by (unfold act_of; lia).
    set (x := act_of r b a) in *. clearbody x.
    destruct (rwp_elim _ _ (addActivation_spec w x a Hok Ha ltac:(lia))) as (w'&->&Hok'&R&HR1&HR2). cbn [mbind res_bind].
    rewrite arr_set_lt by (by eapply lookup_lt_Some). cbn [mbind res_bind].
    set (b1 := mkBank _ _ _ _ _ _ _ _). set (d0 := mkDev _ _ _ _ _).
    destruct (rwp_elim _ _ (put_bank_spec d0 (loc r) i j b1 b ltac:(done) ltac:(done))) as (d1&->&HPut). cbn.
    destruct HPut as [P1 P2 P3 P4 P5 P6]. exists b1. split; try done.
    + apply P2. destruct (d_shape _ HD) as [S1 S2 S3]. split; [done|done|]. cbn. by rewrite length_insert.
    + intros k wk Hk. rewrite P5 in Hk. cbn in Hk. pose proof (HB3 i w Hw) as HBw. rewrite HR1 in HBw. apply list.Forall_cons in HBw as [_ HBw].
      destruct (decide (k = i)) as [->|Hne].
      * rewrite list_lookup_insert_eq in Hk by (by eapply lookup_lt_Some). injection Hk as <-. split_and!; [done| |].
        -- rewrite HR2. constructor; [lia|]. eapply list.Forall_impl; [exact HBw|]. cbn. lia.
        -- exists w. split; [done|]. exists a, R. split_and!; [lia|done..].
      * rewrite list_lookup_insert_ne in Hk by done. destruct (d_wins _ HD k wk Hk) as [H1 _]. split_and!; [done| |by exists wk].
        eapply list.Forall_impl; [exact (HB3 k wk Hk)|]. cbn. lia.
    + rewrite (u64_small (x + _)) by (unfold two64; lia). destruct Hm as (?&?&Hm). split_and!; try lia. intros Hw1 Hw2. specialize (Hm Hw1 Hw2). lia.
    + rewrite (u64_small (x + _)) by (unfold two64; lia). unfold b1. cbn. split_and!; try lia; destruct (open b); try lia; fold tc; u64s; lia.
Qed.

Lemma BankI_other i j l b e : BankI i j l b -> (match e with Cmd r k _ _ _ _ _ => ~ (r = Z.of_nat i /\ k = Z.of_nat j) | Ref _ _ => False end) ->
  BankI i j (e :: l) b.
Proof.
  intros (H1&H2&H3) He. split_and!; [done| |].
  - constructor; [|done]. destruct e; [|done]. intros -> ->. by destruct He.
  - intros Ho. destruct e; [|done]. cbn. rewrite bool_decide_eq_false_2 by done. by apply H3.
Qed.

(** The entry of a command against the older ones. *)
Lemma new_pairs M cur r d i j b m act d1 b1 e : DevI d -> loc_at (loc r) i j -> bank_at d i j = Some b ->
  (isHit r b = true -> lastCmdCycle b < cur) -> 0 <= lastCmdCycle b -> Activated M cur r d i j b m act d1 b1 -> e ∈ log d ->
  pair_ok tc e (Cmd (rank (loc r)) (bank (loc r)) (row (loc r)) act m (m + tCL tc + tBL tc) (write r)).
Proof using HC.
  intros HD [Hl1 Hl2] Hb Hcas H0 HA He. params. destruct (d_banks _ HD i j b Hb) as (HB1&HB2&HB3).
  rewrite list.Forall_forall in HB2. specialize (HB2 e He). pose proof (d_bus _ HD) as Hbus. rewrite list.Forall_forall in Hbus. specialize (Hbus e He).
  pose proof (av_m _ _ _ _ _ _ _ _ _ _ _ HA) as (Hm1&Hm2&Hm3). pose proof (av_act _ _ _ _ _ _ _ _ _ _ _ HA) as Hact.
  assert (lastCmdCycle b < m) by (destruct act; [lia|destruct Hact as [_ Hh]; specialize (Hcas Hh); lia]).
  destruct e as [r' k' rw' act' cas' en' w'|st dn]; cbn in *.
  - destruct Hbus as [Hbus1 Hbus2]. split_and!; [lia| |].
    + intros -> Hw. destruct (lastCmdWasWrite d); [specialize (Hm3 eq_refl Hw)|specialize (Hbus2 eq_refl eq_refl)]; lia.
    + intros -> ->. destruct (HB2 Hl1 Hl2) as (P1&P2&P3). split; [lia|]. intros x ->. split; [lia|]. intros y ->. destruct (P3 y eq_refl). lia.
  - destruct HB2 as [P1 P2]. destruct act as [x|].
    + split; [lia|]. intros ? [= <-]. lia.
    + destruct Hact as [_ Hh]. apply isHit_true in Hh as [Ho _]. specialize (P2 Ho). split; [lia|done].
Qed.

Section Issue.
Context (M cur m : Z) (r : Request) (d d1 : Dev) (i j : nat) (b b1 b2 : Bank) (act : option Z).
Context (HD : DevI d) (HDB : DevB M d) (HL : LocOK c (loc r)) (Hl : loc_at (loc r) i j) (Hb : bank_at d i j = Some b)
  (Hcas : isHit r b = true -> lastCmdCycle b < cur) (HA : Activated M cur r d i j b m act d1 b1) (HM : M + 2 ^ 20 < lim).
Let resp := m + tCL tc + tBL tc.
Let E := Cmd (rank (loc r)) (bank (loc r)) (row (loc r)) act m resp (write r).
Context (Hb2 : lastCmdCycle b2 = m /\ lastActCycle b2 = lastActCycle b1 /\ openRow b2 = row (loc r) /\ bq b2 = bq b)
  (Hpre : minPreCycle b <= minPreCycle b2 <= M + 2 ^ 19 /\ lastActCycle b1 + tRAS tc <= minPreCycle b2 /\
     recovered tc m resp (write r) <= minPreCycle b2 /\ m <= minPreCycle b2).

Lemma before_cmd : lastCmdCycle b < m /\ lastActCycle b <= lastActCycle b1 /\ 0 <= lastActCycle b1 <= M + 2 ^ 16.
Proof using HC HD HDB Hb HA Hcas.
  clear Hb2 Hpre HM. params. destruct HDB as (_&HB2&_). destruct (HB2 i j b Hb) as (Q1&Q2&Q3). pose proof (av_act _ _ _ _ _ _ _ _ _ _ _ HA) as Hact.
  pose proof (av_m _ _ _ _ _ _ _ _ _ _ _ HA) as (Hm1&_). destruct (d_banks _ HD i j b Hb) as (HB1&_).
  destruct act; [|destruct Hact as [-> Hh]; specialize (Hcas Hh)]; lia.
Qed.

Lemma issued_bank : BankI i j (E :: log d) b2.
Proof using HC HD HDB Hl Hb Hcas HA Hb2 Hpre.
  clear HM. params. pose proof before_cmd as (Q1&Q2&_). destruct Hb2 as (B1&B2&B3&_), Hl as [Hl1 Hl2], Hpre as (P1&P2&P3&P4).
  pose proof (av_act _ _ _ _ _ _ _ _ _ _ _ HA) as Hact. destruct (d_banks _ HD i j b Hb) as (HB1&HB2&HB3). split_and!; [lia| |].
  - constructor.
    + intros _ _. rewrite B1. split_and!; [lia|done|]. intros y ->. destruct Hact as (_&_&H&_). lia.
    + eapply list.Forall_impl; [exact HB2|]. intros [r' k' rw' act' cas' en' w'|st dn]; cbn.
      * intros H Hr Hk. destruct (H Hr Hk) as (R1&R2&R3). split_and!; [lia|lia|]. intros y Hy. specialize (R3 y Hy). lia.
      * intros [R1 R2]. split; [lia|]. intros _. destruct act as [x|]; [lia|]. destruct Hact as [_ Hh]. apply isHit_true in Hh as [Ho _]. specialize (R2 Ho). lia.
  - intros _. cbn. rewrite bool_decide_eq_true_2 by done. by rewrite B3.
Qed.

Lemma issued_window k w' : rankActWindows d1 !! k = Some w' -> Pool (tFAW tc) (AW.buf w') (rank_acts (Z.of_nat k) (E :: log d)).
Proof using HC HD HA Hl.
  clear Hb2 Hpre HM Hcas HL. params. destruct Hl as [Hl1 _]. intros Hk. destruct (av_wins _ _ _ _ _ _ _ _ _ _ _ HA k w' Hk) as (_&_&w&Hw&Hact).
  destruct (d_wins _ HD k w Hw) as [_ HPool]. unfold rank_acts, E. cbn. rewrite Hl1. destruct act as [x|]; [|by subst].
  destruct (decide (k = i)) as [->|Hne].
  - rewrite bool_decide_eq_true_2 by done. destruct Hact as (a&R&HR1&HR2&HR3).
    eapply (Pool_perm _ (x :: R)); [done|done|]. eapply Pool_add; [lia| |done]. by eapply (Pool_perm _ (AW.buf w)).
  - rewrite bool_decide_eq_false_2 by lia. by subst.
Qed.

Lemma issued_dev d2 : Put i j b2 (mkDev resp (write r) (banks d1) (rankActWindows d1) (E :: log d1)) d2 ->
  DevI d2 /\ DevB (M + 2 ^ 20) d2 /\ (forall i' j', bq <$> bank_at d2 i' j' = bq <$> bank_at d i' j') /\
  cur + tCL tc + tBL tc <= minRespCycle d2 /\ minRespCycle d <= minRespCycle d2.
Proof using HC HD HDB HL Hl Hb Hcas HA HM Hb2 Hpre.
  params. pose proof issued_bank as HB. pose proof issued_window as HW. pose proof before_cmd as (Q1&Q2&Q3).
  pose proof (new_pairs M cur r d i j b m act d1 b1) as Hpairs. destruct HDB as (M1&M2&M3). pose proof (M2 i j b Hb) as (F1&F2&F3).
  destruct Hpre as (P1&P2&P3&P4), Hb2 as (B1&B2&B3&B4). pose proof HA as [A1 A2 (A3&A4&A5) A6 _ (A11&A12&A13) A14]. rewrite A5. unfold lim in HM.
  intros [T1 T2 T3 T4 T5 T6]. cbn in T3, T4, T5, T6.
  assert (forall i' j', bank_at d2 i' j' = if decide (i' = i /\ j' = j) then Some b2 else bank_at d i' j') as T1'.
  { intros i' j'. rewrite T1. unfold bank_at in *. cbn. rewrite A1. by case_decide. }
  split_and!; [split| |..]; rewrite ?T3, ?T4, ?T5, ?T6; try (unfold resp; lia).
  - apply T2. destruct A2 as [S1 S2 S3]. by split.
  - intros k w' Hk. split; [exact (proj1 (A6 k w' Hk))|by apply HW].
  - constructor; [by cbn; destruct (write r)|]. eapply list.Forall_impl; [exact (d_bus _ HD)|]. intros [r' k' rw' act' cas' en' w'|st dn]; [|done]. cbn.
    intros [R1 R2]. split; [unfold resp; lia|]. intros -> Hw. destruct (lastCmdWasWrite d); [specialize (A13 eq_refl Hw)|specialize (R2 eq_refl eq_refl)]; unfold resp; lia.
  - intros i' j' b'. rewrite T1'. case_decide as Ed; [intros [= <-]; by destruct Ed as [-> ->]|]. intros Hb'. apply BankI_other; [by apply (d_banks _ HD)|].
    cbn. destruct Hl as [-> ->]. lia.
  - constructor; [done|exact (d_locs _ HD)].
  - cbn. split_and!; [done| |apply list.Forall_forall; intros e He; apply Hpairs; done || lia| |exact (d_log _ HD)].
    + intros x ->. lia.
    + destruct act; [done|]. destruct A14 as [_ Hh]. apply isHit_true in Hh as [Ho ->]. destruct Hl as [-> ->]. by apply (d_banks _ HD i j b Hb).
  - split_and!; [unfold resp; lia| |].
    + intros i' j' b'. rewrite T1'. case_decide; [intros [= <-]; unfold BankB; lia|]. intros Hb'. destruct (M2 i' j' b' Hb') as (?&?&?). unfold BankB; lia.
    + intros k w' Hk. rewrite T5 in Hk. destruct (A6 k w' Hk) as (_&H&_). eapply list.Forall_impl; [exact H|]. cbn. lia.
  - intros i' j'. rewrite T1'. case_decide as Ed; [|done]. destruct Ed as [-> ->]. by rewrite Hb; cbn; rewrite B4.
Qed.
End Issue.

Lemma column_spec M cur r more d i j b m act d1 b1 : DevI d -> DevB M d -> LocOK c (loc r) -> loc_at (loc r) i j -> bank_at d i j = Some b ->
  (isHit r b = true -> lastCmdCycle b < cur) -> Activated M cur r d i j b m act d1 b1 -> M + 2 ^ 20 < lim ->
  rwp (column c r more m act d1) (fun d2 => DevI d2 /\ DevB (M + 2 ^ 20) d2 /\ (forall i' j', bq <$> bank_at d2 i' j' = bq <$> bank_at d i' j') /\
    cur + tCL tc + tBL tc <= minRespCycle d2 /\ minRespCycle d <= minRespCycle d2).
Proof using HC.
  intros HD HDB HL Hl Hb Hcas HA HM. params. pose proof HDB as (HB1&HB2&HB3). pose proof (HB2 i j b Hb) as (Hb1&Hb2&Hb3).
  pose proof (d_resp _ HD) as Hresp. pose proof HM as HM'. unfold lim in HM'.
  pose proof (before_cmd M cur m r d d1 i j b b1 act HD HDB Hb Hcas HA) as (Q1&Q2&Q3).
  pose proof HA as [A1 A2 (A3&A4&A5) _ (A7&A8&A9&A10) (A11&A12&A13) A14].
  assert (bank_at d1 i j = Some b1) as Hb1' by (by rewrite A1, decide_True).
  unfold column. rewrite (get_bank_at _ _ _ _ _ Hl Hb1'). cbn [mbind res_bind]. fold tc. rewrite A3.
  rewrite (u64_small (minRespCycle d - _)) by (unfold two64; lia). replace (Z.max m (minRespCycle d - tCL tc)) with m by lia.
  rewrite (u64_small (m + tCL tc)), (u64_small (m + tCL tc + tBL tc)) by (unfold two64; lia). set (resp := m + tCL tc + tBL tc).
  assert (minPreCycle b <= minPreCycle b1 <= M + 2 ^ 17) as Hb1f by (destruct act; [lia|destruct A14 as [-> _]; lia]).
  rewrite (u64_small (lastActCycle b1 + _)), (u64_small (resp + _)), (u64_small (m + tRTP tc)) by (unfold two64, resp; lia).
  rewrite A10, (proj2 (Z.ltb_lt _ _) Q1). cbn [mbind res_bind rassert].
  set (pre := Z.max _ _). set (b2 := mkBank _ _ _ _ _ _ _ _). set (d0 := mkDev _ _ _ _ _).
  destruct (rwp_elim _ _ (put_bank_spec d0 (loc r) i j b2 b1 Hl Hb1')) as (d2&->&HPut). unfold rwp.
  eapply (issued_dev M cur m r d d1 i j b b1 b2 act); try done; cbn.
  all: unfold pre, recovered, resp; destruct (write r); lia.
Qed.

(** The whole issue: both parts on the devices. *)
Lemma issue_dev M cur r more d x : DevI d -> DevB M d -> LocOK c (loc r) -> 0 <= arrivalCycle r <= M -> 0 <= cur <= M -> M + 2 ^ 20 < lim ->
  findMinCmdCycle c r d = Ok x -> x <= cur ->
  exists m act d1 b1, activate c cur r d = Ok (m, act, d1) /\ get_bank d1 (loc r) = Ok b1 /\ (exists b, get_bank d (loc r) = Ok b /\ bq b1 = bq b) /\
  rwp (column c r more m act d1) (fun d2 => DevI d2 /\ DevB (M + 2 ^ 20) d2 /\ (forall i' j', bq <$> bank_at d2 i' j' = bq <$> bank_at d i' j') /\
    cur + tCL tc + tBL tc <= minRespCycle d2 /\ minRespCycle d <= minRespCycle d2).
Proof using HC.
  intros HD HDB HL Har Hcur HM Hx Hle. unfold lim in HM. destruct (Shape_bank c d (loc r) (d_shape _ HD) HL) as (i&j&b&Hl&Hb&Hg&_).
  destruct (rwp_elim _ _ (activate_spec M cur r d i j b HD HDB HL Hl Hb Har Hcur ltac:(unfold lim; lia))) as ([[m act] d1]&->&b1&HA).
  exists m, act, d1, b1. split_and!; [done| |exists b; split; [done|]; apply HA|].
  - eapply get_bank_at; [done|]. by rewrite (av_bank _ _ _ _ _ _ _ _ _ _ _ HA), decide_True.
  - eapply column_spec; try done. intros Hh. revert Hx. unfold findMinCmdCycle. rewrite Hg. cbn [mbind res_bind]. rewrite Hh.
    destruct HDB as (_&HB2&_). destruct (HB2 i j b Hb) as (?&?&?). rewrite u64_small by (unfold two64; lia). intros [= <-]. lia.
Qed.

(** *** Refreshes *)
Lemma bank_at_elem d i j b : bank_at d i j = Some b -> b ∈ concat (banks d).
Proof.
  unfold bank_at. destruct (banks d !! i) as [rb|] eqn:E; [|done]. cbn. intros Hb.
  apply list_elem_of_In, in_concat. exists rb. split; apply list_elem_of_In; by eapply list_elem_of_lookup_2.
Qed.

Lemma elem_bank_at d b : b ∈ concat (banks d) -> exists i j, bank_at d i j = Some b.
Proof.
  intros H. apply list_elem_of_In, in_concat in H as (rb&H1&H2). apply list_elem_of_In, list_elem_of_lookup_1 in H1 as [i Hi].
  apply list_elem_of_In, list_elem_of_lookup_1 in H2 as [j Hj]. exists i, j. unfold bank_at. by rewrite Hi.
Qed.

Lemma fold_start l m M : let z := fold_left (fun m b => Z.max m (Z.max (minPreCycle b) (lastCmdCycle b))) l m in
  m <= z /\ (forall b, b ∈ l -> minPreCycle b <= z /\ lastCmdCycle b <= z) /\ (m <= M -> (forall b, b ∈ l -> BankB M b) -> z <= M).
Proof.
  revert m. induction l as [|b l IH]; intros m z; cbn in z.
  - unfold z. split_and!; [lia|intros b Hb; by apply elem_of_nil in Hb|done].
  - destruct (IH (Z.max m (Z.max (minPreCycle b) (lastCmdCycle b)))) as (H1&H2&H3). fold z in H1, H2, H3. split_and!; [lia| |].
    + intros b' Hb'. apply elem_of_cons in Hb' as [->|Hb']; [lia|by apply H2].
    + intros Hm Hb. apply H3; [|intros b' Hb'; apply Hb; set_solver]. destruct (Hb b (list_elem_of_here _ _)) as (?&?&?). lia.
Qed.

Lemma refreshed d pre l i j : bank_at (mkDev (minRespCycle d) (lastCmdWasWrite d) (map (map (close_bank pre)) (banks d)) (rankActWindows d) l) i j =
  close_bank pre <$> bank_at d i j.
Proof. unfold bank_at. cbn. change (map (map (close_bank pre)) (banks d)) with (map (close_bank pre) <$> banks d). rewrite list_lookup_fmap.
  destruct (banks d !! i) as [rb|]; [|done]. cbn. apply (list_lookup_fmap (close_bank pre)). Qed.

(** A bank of the command of an entry, or any bank. *)
Lemma refresh_bank d e : DevI d -> e ∈ log d -> exists i j b, bank_at d i j = Some b /\
  match e with Cmd r k _ _ _ _ _ => r = Z.of_nat i /\ k = Z.of_nat j | Ref _ _ => True end.
Proof using HC.
  intros HD He. pose proof (d_locs _ HD) as H. rewrite list.Forall_forall in H. specialize (H e He).
  destruct e as [r k rw act cas en w|st dn].
  - destruct (Shape_bank c d _ (d_shape _ HD) H) as (i&j&b&[Hl1 Hl2]&Hb&_). by exists i, j, b.
  - destruct (Shape_bank c d (mkLoc 0 0 0 0) (d_shape _ HD)) as (i&j&b&_&Hb&_); [|by exists i, j, b].
    pose proof (ok_ranks c HC). pose proof (ok_banks c HC). split; cbn; lia.
Qed.

Lemma refresh_dev M s d : DevI d -> DevB M d -> sysToMemCycle c s <= M -> M + 2 ^ 17 < lim ->
  rwp (refresh c s d) (fun d' => DevI d' /\ DevB (M + 2 ^ 17) d' /\ (forall i j, bq <$> bank_at d' i j = bq <$> bank_at d i j) /\ minRespCycle d' = minRespCycle d).
Proof using HC.
  intros HD (M1&M2&M3) Hs HM. params. unfold lim in HM. pose proof (d_resp _ HD). unfold refresh. fold tc.
  pose proof (fold_start (concat (banks d)) (sysToMemCycle c s) M) as (F1&F2&F3). set (st := fold_left _ _ _) in *.
  specialize (F3 Hs (fun b Hb => let '(ex_intro _ i (ex_intro _ j H)) := elem_bank_at d b Hb in M2 i j b H)).
  assert (0 <= st) by (unfold sysToMemCycle, sysToMem in F1; pose proof (u64_range (u64 (s * memFreq c) / sysFreqKHz c + 1)); lia).
  rewrite (proj2 (Z.leb_le _ _) F1). cbn [mbind res_bind rassert]. rewrite (proj2 (Z.leb_le _ _) Hrfc). cbn [mbind res_bind rassert].
  rewrite (u64_small (st + tRFC tc)), u64_small by (unfold two64; lia). set (pre := st + tRFC tc - tRP tc). unfold rwp. clearbody st.
  assert (forall i j b, bank_at d i j = Some b -> minPreCycle b <= st /\ lastCmdCycle b <= st) as F2' by (intros i j b Hb; eapply F2, bank_at_elem, Hb).
  split_and!; [split| |..].
  - destruct (d_shape _ HD) as [S1 S2 S3]. split; cbn; [by rewrite length_map| |done]. apply Forall_map. eapply list.Forall_impl; [exact S2|]. intros l Hl. by rewrite length_map.
  - done.
  - exact (d_wins _ HD).
  - cbn. constructor; [done|exact (d_bus _ HD)].
  - intros i j b'. rewrite refreshed. intros (b&Hb&->)%fmap_Some. destruct (F2' i j b Hb), (d_banks _ HD i j b Hb) as (B1&B2&_). unfold BankI. cbn. split_and!; [lia| |done].
    constructor; [cbn; split; [lia|done]|]. eapply list.Forall_impl; [exact B2|]. intros [r k rw act cas en w|st' dn']; cbn.
    + intros R Hr Hk. destruct (R Hr Hk) as (R1&R2&R3). split_and!; [done|lia|]. intros y Hy. destruct (R3 y Hy). lia.
    + intros [R1 R2]. split; [lia|done].
  - constructor; [done|exact (d_locs _ HD)].
  - cbn. split_and!; [done| |done|exact (d_log _ HD)]. apply list.Forall_forall. intros e He.
    destruct (refresh_bank d e HD He) as (i&j&b&Hb&Hloc). destruct (F2' i j b Hb), (d_banks _ HD i j b Hb) as (B1&B2&_).
    rewrite list.Forall_forall in B2. specialize (B2 e He). destruct e as [r k rw act cas en w|st' dn']; cbn in *; [|lia].
    destruct Hloc as [Hr Hk], (B2 Hr Hk) as (R1&R2&R3). split; [lia|]. intros y Hy. destruct (R3 y Hy). lia.
  - split_and!; [cbn; lia| |intros k w Hk; eapply list.Forall_impl; [exact (M3 k w Hk)|cbn; lia]].
    intros i j b'. rewrite refreshed. intros (b&Hb&->)%fmap_Some. destruct (M2 i j b Hb) as (?&?&?). unfold BankB. cbn. lia.
  - intros i j. rewrite refreshed. by destruct (bank_at d i j).
  - done.
Qed.
End Inv.
End DDRT.
