(* ===== verification/DDRQueue.v ===== *)
(** * The request queues of the DDR memory controller

    A read or write queue and the bank queues hold the same requests: every request in use is
    in the bank queue of its location, once, and nothing else is.  The lemmas say how
    [alloc], [place] and [remove] change them. *)

From S2P Require Import Prelude Bithacks Double MemHier TimingEvent CoreRecorder DDRMem DDRTiming.

Module DDRQ.
Import DDR DDRT.

Section Q.
Context (c : Config).

(** [B i j] is the queue of the bank [j] of the rank [i]. *)
Record QI (q : RQ.t) (B : nat -> nat -> list nat) : Prop := {
  q_perm : RQ.reqList q ++ RQ.freeList q ≡ₚ seq 0 (length (RQ.elems q));
  q_len : Z.of_nat (length (RQ.elems q)) = queueDepth c;
  q_in : forall n, n ∈ RQ.reqList q -> exists r i j, RQ.elems q !! n = Some r /\ LocOK c (loc r) /\ loc_at (loc r) i j /\ n ∈ B i j;
  q_out : forall n i j, n ∈ B i j -> n ∈ RQ.reqList q /\ exists r, RQ.elems q !! n = Some r /\ loc_at (loc r) i j;
  q_nodup : forall i j, NoDup (B i j) }.

(** The requests in use, in the order of arrival. *)
Definition live (q : RQ.t) : list Request := omap (fun n => RQ.elems q !! n) (RQ.reqList q).

Lemma QI_ext q B B' : (forall i j, B i j = B' i j) -> QI q B -> QI q B'.
Proof.
  intros HB [H1 H2 H3 H4 H5]. split; [done|done|..].
  - intros n Hn. destruct (H3 n Hn) as (r&i&j&?&?&?&?). exists r, i, j. by rewrite <- HB.
  - intros n i j. rewrite <- HB. apply H4.
  - intros i j. rewrite <- HB. apply H5.
Qed.

Lemma QI_NoDup q B : QI q B -> NoDup (RQ.reqList q ++ RQ.freeList q).
Proof. intros HQ. rewrite (q_perm _ _ HQ). apply NoDup_seq. Qed.

Lemma loc_at_inj l i j i' j' : loc_at l i j -> loc_at l i' j' -> i = i' /\ j = j'.
Proof. intros [H1 H2] [H3 H4]. lia. Qed.

Lemma empty_nil q : RQ.empty q = true <-> RQ.reqList q = [].
Proof. unfold RQ.empty. by destruct (RQ.reqList q). Qed.

Lemma full_nonempty q B : QI q B -> 1 <= queueDepth c -> RQ.full q = true -> RQ.empty q = false.
Proof.
  intros HQ Hd Hf. unfold RQ.full in Hf. destruct (RQ.freeList q) eqn:E; [|done]. pose proof (q_perm _ _ HQ) as Hp. rewrite E, app_nil_r in Hp.
  apply Permutation_length in Hp. rewrite length_seq in Hp. pose proof (q_len _ _ HQ). unfold RQ.empty. destruct (RQ.reqList q); [cbn in Hp; lia|done].
Qed.

Lemma ddr_alloc_spec q B : QI q B -> RQ.full q = false -> exists n fl, RQ.freeList q = fl ++ [n] /\ n ∉ RQ.reqList q /\ (n < length (RQ.elems q))%nat /\
  RQ.alloc q = Ok (n, RQ.mk (RQ.reqList q ++ [n]) fl (RQ.elems q)).
Proof.
  intros HQ Hf. pose proof (QI_NoDup _ _ HQ) as Hnd. pose proof (q_perm _ _ HQ) as Hp. unfold RQ.alloc. rewrite Hf. cbn [negb rassert mbind res_bind].
  unfold RQ.full in Hf. destruct (RQ.freeList q) as [|n fl _] eqn:E using rev_ind; [done|]. exists n, fl. split_and!; [done| | |].
  - apply list.NoDup_app in Hnd as (_&Hnd&_). intros Hn. apply (Hnd n Hn). set_solver.
  - assert (n ∈ seq 0 (length (RQ.elems q))) as Hn by (rewrite <- Hp; set_solver). apply elem_of_seq in Hn. lia.
  - rewrite last_snoc. cbn. rewrite length_app, Nat.add_sub, take_app_length. done.
Qed.

(** A new request takes a node and enters the queue of its bank. *)
Lemma QI_admit q B n fl r i j l : QI q B -> RQ.freeList q = fl ++ [n] -> LocOK c (loc r) -> loc_at (loc r) i j -> l ≡ₚ n :: B i j ->
  QI (RQ.mk (RQ.reqList q ++ [n]) fl (<[n := r]> (RQ.elems q))) (fun i' j' => if decide (i' = i /\ j' = j) then l else B i' j').
Proof.
  intros HQ Hfl HL Hl Hperm. pose proof (QI_NoDup _ _ HQ) as Hnd. pose proof (q_perm _ _ HQ) as Hp. rewrite Hfl in Hnd, Hp.
  assert (n ∉ RQ.reqList q) as Hn by (apply list.NoDup_app in Hnd as (_&Hnd&_); intros Hn; apply (Hnd n Hn); set_solver).
  assert (n < length (RQ.elems q))%nat as Hlt by (assert (n ∈ seq 0 (length (RQ.elems q))) as H by (rewrite <- Hp; set_solver); apply elem_of_seq in H; lia).
  assert (forall i' j' m, m ∈ B i' j' -> m <> n) as Hne by (intros i' j' m Hm ->; destruct (q_out _ _ HQ n i' j' Hm); done).
  split; cbn [RQ.reqList RQ.freeList RQ.elems].
  - rewrite length_insert, <- Hp. rewrite <- app_assoc. apply Permutation_app_head. by rewrite Permutation_app_comm.
  - rewrite length_insert. apply HQ.
  - intros m Hm. apply elem_of_app in Hm as [Hm|Hm%list_elem_of_singleton].
    + destruct (q_in _ _ HQ m Hm) as (r'&i'&j'&H1&H2&H3&H4). exists r', i', j'. rewrite list_lookup_insert_ne by set_solver. split_and!; [done..|].
      case_decide as Ed; [|done]. destruct Ed as [-> ->]. rewrite Hperm. set_solver.
    + subst m. exists r, i, j. rewrite list_lookup_insert_eq by done. split_and!; [done..|]. rewrite decide_True by done. rewrite Hperm. set_solver.
  - intros m i' j' Hm. case_decide as Ed; [destruct Ed as [-> ->]; rewrite Hperm in Hm; apply elem_of_cons in Hm as [->|Hm]|].
    + split; [set_solver|]. exists r. by rewrite list_lookup_insert_eq.
    + destruct (q_out _ _ HQ m i j Hm) as (H1&r'&H2&H3). split; [set_solver|]. exists r'. rewrite list_lookup_insert_ne; [done|]. apply not_eq_sym. by eapply Hne.
    + destruct (q_out _ _ HQ m i' j' Hm) as (H1&r'&H2&H3). split; [set_solver|]. exists r'. rewrite list_lookup_insert_ne; [done|]. apply not_eq_sym. by eapply Hne.
  - intros i' j'. case_decide; [|apply HQ]. rewrite Hperm. apply list.NoDup_cons. split; [|apply HQ]. intros Hm. by apply (Hne _ _ _ Hm).
Qed.

Lemma live_admit q n fl r : n ∉ RQ.reqList q -> (n < length (RQ.elems q))%nat ->
  live (RQ.mk (RQ.reqList q ++ [n]) fl (<[n := r]> (RQ.elems q))) = live q ++ [r].
Proof.
  intros Hn Hlt. unfold live. cbn [RQ.reqList RQ.elems]. rewrite omap_app. f_equal.
  - apply list_omap_ext. clear -Hn. induction (RQ.reqList q) as [|m l IH]; [constructor|]. apply not_elem_of_cons in Hn as [Hne Hn].
    constructor; [by rewrite list_lookup_insert_ne|by apply IH].
  - cbn. by rewrite list_lookup_insert_eq.
Qed.

Lemma filter_ne (n : nat) (l : list nat) : n ∉ l -> base.filter (fun x => x <> n) l = l.
Proof.
  induction l as [|m l IH]; [done|]. intros [Hne Hn]%not_elem_of_cons. rewrite filter_cons, decide_True by done. by rewrite IH.
Qed.

(** The request at the front of a bank queue leaves. *)
Lemma QI_remove q B n i j l r : QI q B -> RQ.elems q !! n = Some r -> loc_at (loc r) i j -> B i j = n :: l ->
  QI (RQ.remove n q) (fun i' j' => if decide (i' = i /\ j' = j) then l else B i' j').
Proof.
  intros HQ Hr Hl HB. pose proof (QI_NoDup _ _ HQ) as Hnd. pose proof (q_nodup _ _ HQ i j) as Hndl. rewrite HB in Hndl. apply list.NoDup_cons in Hndl as [Hnl Hndl].
  destruct (q_out _ _ HQ n i j) as [Hin _]; [rewrite HB; set_solver|].
  assert (forall m i' j', m ∈ B i' j' -> (i' = i /\ j' = j) \/ m <> n) as Hne.
  { intros m i' j' Hm. destruct (decide (m = n)) as [->|]; [left|by right]. destruct (q_out _ _ HQ n i' j' Hm) as (_&r'&Hr'&Hl'). simplify_eq. by eapply loc_at_inj. }
  split; cbn [RQ.remove RQ.reqList RQ.freeList RQ.elems].
  - rewrite <- (q_perm _ _ HQ). rewrite (Permutation_app_comm (RQ.freeList q)), app_assoc. apply Permutation_app_tail.
    apply list.NoDup_app in Hnd as (Hnd&_&_). clear -Hin Hnd. induction (RQ.reqList q) as [|m l IH]; [by apply elem_of_nil in Hin|].
    apply list.NoDup_cons in Hnd as [Hm Hnd]. rewrite filter_cons. apply elem_of_cons in Hin as [->|Hin].
    + rewrite decide_False by tauto. rewrite filter_ne by done. by rewrite Permutation_app_comm.
    + rewrite decide_True by (intros ->; done). cbn. by rewrite IH.
  - apply HQ.
  - intros m [Hm1 Hm2]%list_elem_of_filter. destruct (q_in _ _ HQ m Hm2) as (r'&i'&j'&H1&H2&H3&H4). exists r', i', j'. split_and!; [done..|].
    case_decide as Ed; [|done]. destruct Ed as [-> ->]. rewrite HB in H4. set_solver.
  - intros m i' j' Hm. case_decide as Ed; [destruct Ed as [-> ->]|].
    + destruct (q_out _ _ HQ m i j) as [H1 H2]; [rewrite HB; set_solver|]. split; [|done]. apply list_elem_of_filter. split; [by intros ->|done].
    + destruct (q_out _ _ HQ m i' j' Hm) as [H1 H2]. split; [|done]. apply list_elem_of_filter. split; [|done]. by destruct (Hne _ _ _ Hm).
  - intros i' j'. case_decide; [done|apply HQ].
Qed.

Lemma live_remove q n r : NoDup (RQ.reqList q) -> n ∈ RQ.reqList q -> RQ.elems q !! n = Some r -> live q ≡ₚ r :: live (RQ.remove n q).
Proof.
  intros Hnd Hin Hr. unfold live. cbn [RQ.remove RQ.reqList RQ.elems]. induction (RQ.reqList q) as [|m l IH]; [by apply elem_of_nil in Hin|].
  apply list.NoDup_cons in Hnd as [Hm Hnd]. rewrite filter_cons. apply elem_of_cons in Hin as [->|Hin].
  - rewrite decide_False by tauto. rewrite filter_ne by done. cbn. by rewrite Hr.
  - rewrite decide_True by (intros ->; done). cbn. destruct (RQ.elems q !! m); [rewrite IH by done; apply Permutation_swap|by apply IH].
Qed.

(** [place] adds the request, and the front of a queue that is not empty stays. *)
Lemma place_spec q rw n b L : (forall m, m ∈ L -> exists x, RQ.elems q !! m = Some x) ->
  rwp (place c q rw n b L) (fun '(_, l) => l ≡ₚ n :: L /\ head l = head (L ++ [n])).
Proof.
  intros Hel. unfold place.
  assert (forall rq after, L = reverse rq ++ after -> rwp (walk_back c q rw n rq after)
    (fun o => match o with Some (_, l) => l ≡ₚ n :: L /\ head l = head (L ++ [n]) | None => True end)) as Hw.
  { induction rq as [|m rq IH]; intros after HL; [done|]. cbn [walk_back]. rewrite reverse_cons, <- app_assoc in HL. cbn in HL.
    destruct (Hel m) as [x Hx]; [rewrite HL; set_solver|]. unfold RQ.get. rewrite (arr_get_Some _ _ _ Hx). cbn [mbind res_bind].
    destruct (_ =? _); [|by apply IH]. destruct (_ <? _); cbn; rewrite HL.
    - split; [solve_Permutation|]. by destruct (reverse rq).
    - split; [solve_Permutation|]. by destruct (reverse rq). }
  specialize (Hw (reverse L) []). rewrite reverse_involutive, app_nil_r in Hw. destruct (rwp_elim _ _ (Hw eq_refl)) as (o&->&Ho). cbn [mbind res_bind].
  destruct o as [[z l]|]; [done|]. case_match eqn:Eb; cbn.
  - apply andb_true_iff in Eb as [_ Eb]. apply bool_decide_eq_true in Eb. by rewrite Eb.
  - split; [by rewrite Permutation_app_comm|done].
Qed.
End Q.
End DDRQ.
