(* ===== verification/DDRInv.v ===== *)
(** * The invariant of the DDR memory controller

    The devices obey the timing constraints, the queues hold the requests of the bank queues,
    and the events that the controller holds are those of the waiting requests.  The lemmas
    say that [queue], [trySchedule] and [refill] keep it and fail no assertion. *)

From S2P Require Import Prelude Bithacks Double MemHier TimingEvent CoreRecorder DDRMem DDRTiming DDRQueue.

Module DDRI.
Import DDR DDRT DDRQ.

Definition bqs (wr : bool) (d : Dev) (i j : nat) : list nat := default [] (bank_queue wr <$> bank_at d i j).

Section Inv.
Context (c : Config) (HC : CfgOK c).
Let tc := tech c.
Let toMem := sysToMemCycle c.

(** A request that arrived by [nw]. *)
Definition ReqOK (nw : Z) (r : Request) : Prop :=
  LocOK c (loc r) /\ 0 <= startSysCycle r <= nw /\ toMem (startSysCycle r) <= arrivalCycle r <= toMem nw.
(** In its queue, a write was responded, and a read waits for its response. *)
Definition LiveOK (wr : bool) (r : Request) : Prop :=
  (if write r then ev r = None else is_Some (ev r)) /\ (wr = true -> write r = true).
Definition wait1 (r : Request) : option (nat * bool) := (fun e => (e, write r)) <$> ev r.
(** The events that wait for a response, with their kind. *)
Definition reqs (s : t) : list Request := live (rdQueue s) ++ live (wrQueue s) ++ overflowQueue s.
Definition waiting (s : t) : list (nat * bool) := omap wait1 (reqs s).
Definition HeldI (evs : gmap nat AccEvent) (W : list (nat * bool)) : Prop :=
  NoDup W.*1 /\ forall e w, (e, w) ∈ W -> exists a, evs !! e = Some (mkAcc a w EV_HELD).
(** The events that the controller was given, with the cycles at which they were simulated:
    those it responded to and those that wait. *)
Definition since (r : Request) : option (nat * Z) := (fun e => (e, startSysCycle r)) <$> ev r.
Definition unanswered (s : t) : list (nat * Z) := omap since (reqs s).
Definition given (s : t) : list (nat * Z) := ((fun p => (r_ev p, r_sim p)) <$> resps s) ++ unanswered s.
Definition idle (s : t) : bool := RQ.empty (rdQueue s) && RQ.empty (wrQueue s).

Record Inv (M : Z) (s : t) : Prop := {
  i_now : 0 <= now s < 2 ^ 40 /\ toMem (now s) <= M;
  i_dev : DevI c (dev s);
  i_devB : DevB M (dev s);
  i_q : forall wr, QI c (queue_of wr s) (bqs wr (dev s));
  i_live : forall wr, Forall (fun r => ReqOK (now s) r /\ LiveOK wr r) (live (queue_of wr s));
  i_ovf : Forall (fun r => ReqOK (now s) r /\ is_Some (ev r)) (overflowQueue s);
  i_held : HeldI (evs s) (waiting s);
  i_resps : Forall (fun p => r_sim p <= r_cycle p) (resps s);
  i_hist : length (latencyHist (prof s)) = Z.to_nat NUMBINS }.

(** *** Small facts *)
Lemma toMem_pos x : 0 <= x < slim -> 1 <= toMem x.
Proof using HC. intros Hx. apply (sysToMem_pos _ _ (ok_freq c HC) x Hx). Qed.

Lemma toMem_mono x y : 0 <= x <= y -> y < slim -> toMem x <= toMem y.
Proof using HC. apply (sysToMem_mono _ _ (ok_freq c HC)). Qed.

Lemma ReqOK_later nw nw' r : nw <= nw' < slim -> ReqOK nw r -> ReqOK nw' r.
Proof using HC.
  intros Hn (H1&H2&H3). split_and!; try done; try lia. pose proof (toMem_mono nw nw' ltac:(lia) ltac:(lia)). lia.
Qed.

Lemma waiting_unanswered s : (waiting s).*1 = (unanswered s).*1.
Proof. unfold waiting, unanswered. induction (reqs s) as [|r l IH]; [done|]. cbn. unfold wait1 at 1, since at 1. destruct (ev r); cbn; [f_equal|]; exact IH. Qed.

Lemma HeldI_perm evs W W' : W ≡ₚ W' -> HeldI evs W -> HeldI evs W'.
Proof. intros HP [H1 H2]. split; [by rewrite <- HP|]. intros e w. rewrite <- HP. apply H2. Qed.

Lemma HeldI_respond evs e w W : HeldI evs ((e, w) :: W) -> HeldI (base.delete e evs) W.
Proof.
  intros [H1 H2]. cbn in H1. apply list.NoDup_cons in H1 as [Hn H1]. split; [done|]. intros e' w' He. destruct (H2 e' w') as [a Ha]; [set_solver|]. exists a.
  rewrite lookup_delete_ne; [done|]. intros ->. apply Hn. apply list_elem_of_fmap. by exists (e', w').
Qed.

(** A bank whose queues alone changed. *)
Lemma put_queue_dev M d d' i j wr l b : bank_at d i j = Some b -> Put i j (with_bank_queue wr l b) d d' -> DevI c d -> DevB M d -> DevI c d' /\ DevB M d'.
Proof.
  intros Hb [P1 P2 P3 P4 P5 P6] HD (M1&M2&M3).
  assert (forall i' j' b', bank_at d' i' j' = Some b' -> exists b0, bank_at d i' j' = Some b0 /\ minPreCycle b' = minPreCycle b0 /\ lastActCycle b' = lastActCycle b0 /\
    lastCmdCycle b' = lastCmdCycle b0 /\ open b' = open b0 /\ openRow b' = openRow b0) as HT.
  { intros i' j' b'. rewrite P1. case_decide as Ed; [|intros H; by exists b']. destruct Ed as [-> ->]. intros [= <-]. by exists b. }
  split.
  - destruct HD as [D1 D2 D3 D4 D5 D6 D7]. split; rewrite ?P3, ?P4, ?P5, ?P6; try done; [by apply P2|].
    intros i' j' b' Hb'. destruct (HT _ _ _ Hb') as (b0&Hb0&T1&T2&T3&T4&T5). destruct (D5 _ _ _ Hb0) as (B1&B2&B3). unfold BankI. rewrite T1, T3, T4, T5. split_and!; [done| |done].
    eapply list.Forall_impl; [exact B2|]. intros e. unfold bank_entry. by rewrite T1, T2, T3, T4.
  - split_and!; rewrite ?P3, ?P5; [done| |done]. intros i' j' b' Hb'. destruct (HT _ _ _ Hb') as (b0&Hb0&T1&T2&T3&_). unfold BankB. rewrite T1, T2, T3. by apply (M2 i' j').
Qed.

Lemma bqs_put d d' i j wr l b wr' : bank_at d i j = Some b -> Put i j (with_bank_queue wr l b) d d' ->
  forall i' j', bqs wr' d' i' j' = if decide (wr' = wr) then (if decide (i' = i /\ j' = j) then l else bqs wr d i' j') else bqs wr' d i' j'.
Proof.
  intros Hb [P1 _ _ _ _ _] i' j'. unfold bqs. rewrite P1. destruct (decide (i' = i /\ j' = j)) as [[-> ->]|].
  - rewrite Hb. cbn. destruct wr', wr; done.
  - case_decide; [by subst|done].
Qed.

Lemma bqs_bq d d' : (forall i j, bq <$> bank_at d' i j = bq <$> bank_at d i j) -> forall wr i j, bqs wr d' i j = bqs wr d i j.
Proof.
  intros H wr i j. specialize (H i j). unfold bqs. destruct (bank_at d' i j) as [b'|], (bank_at d i j) as [b|]; try done. cbn in *. injection H as H1 H2.
  by destruct wr; cbn.
Qed.

Lemma isFirst_eq wr n r d i j b : loc_at (loc r) i j -> bank_at d i j = Some b -> isFirst wr n r d = Ok (bool_decide (head (bqs wr d i j) = Some n)).
Proof. intros Hl Hb. unfold isFirst. rewrite (get_bank_at _ _ _ _ _ Hl Hb). unfold bqs. by rewrite Hb. Qed.

(** *** queue *)

(** The cycle of the response to a write. *)
Lemma write_done m : 0 <= m < lim ->
  u64 (u64 (u64 (memToSysCycle c m + minWrLatency c) - preDelay c) - postDelayWr c) = memToSysCycle c m.
Proof using HC.
  intros Hm. destruct (ok_pre c HC) as (->&->&->). pose proof (ok_lat c HC). pose proof (memToSys_range _ _ (ok_freq c HC) m Hm). unfold memToSysCycle.
  rewrite (u64_small (memToSys _ _ m + _)) by (unfold two64; lia). rewrite (u64_small (_ + _ - _)) by (unfold two64; lia). rewrite u64_small by (unfold two64; lia). lia.
Qed.

(** A request in the node [n], taken from the free list. *)
Definition taken (wr : bool) (n : nat) (fl : list nat) (req : Request) (s : t) : t :=
  with_queue wr (RQ.mk (RQ.reqList (queue_of wr s) ++ [n]) fl (<[n := req]> (RQ.elems (queue_of wr s)))) s.

(** What [queue] does: it changes the bank queues, the queue and the events alone. *)
Record Queued (M : Z) (wr : bool) (n : nat) (e : nat) (st : Z) (s s' : t) : Prop := {
  qd_inv : Inv M s';
  qd_sch : sch s' = sch s;
  qd_ovf : overflowQueue s' = overflowQueue s;
  qd_time : now s' = now s /\ refreshAt s' = refreshAt s;
  qd_resp : minRespCycle (dev s') = minRespCycle (dev s);
  qd_busy : idle s' = false;
  qd_log : log (dev s') = log (dev s);
  qd_given : given s' ≡ₚ (e, st) :: given s;
  qd_node : exists r, RQ.get n (queue_of wr s') = Ok r /\ ReqOK (now s) r /\
    exists first, isFirst wr n r (dev s') = Ok first /\ (first = false -> idle s = false) }.

Lemma idle_false s wr n : n ∈ RQ.reqList (queue_of wr s) -> idle s = false.
Proof. intros Hn. unfold idle, RQ.empty. apply andb_false_iff. destruct wr; [right|left]; cbn in Hn; by destruct (RQ.reqList _); [apply elem_of_nil in Hn|]. Qed.

Lemma queue_of_with wr wr' q s : queue_of wr' (with_queue wr q s) = if decide (wr' = wr) then q else queue_of wr' s.
Proof. by destruct wr, wr'. Qed.

Lemma reqs_taken wr n fl r s : n ∉ RQ.reqList (queue_of wr s) -> (n < length (RQ.elems (queue_of wr s)))%nat ->
  reqs (taken wr n fl r s) ≡ₚ r :: reqs s.
Proof. intros Hn Hlt. unfold reqs. destruct wr; cbn -[live]; rewrite live_admit by done; solve_Permutation. Qed.

Lemma ev_respond_spec e sim dn Q s a : evs s !! e = Some a -> a_state a = EV_HELD ->
  Q tt (with_evs (base.delete e (evs s)) (resps s ++ [mkResp e sim dn]) s) -> wp (ev_respond e sim dn) Q s.
Proof.
  intros He Ha HQ. unfold ev_respond. apply wp_bind, wp_get. apply wp_bind. unfold wp at 1. unfold mlift. rewrite He. cbn.
  apply wp_bind, wp_assert; [by rewrite Ha|]. by apply wp_modify.
Qed.

Lemma ddr_wp_lift_ok {S A} (m : res A) a Q (s : S) : m = Ok a -> Q a s -> wp (mlift m) Q s.
Proof. intros -> HQ. exact HQ. Qed.

Section Queue.
Context (M : Z) (wr : bool) (n : nat) (fl : list nat) (req : Request) (e : nat) (s : t).
Context (HI : Inv M s) (HM : M < lim) (Hfl : RQ.freeList (queue_of wr s) = fl ++ [n]) (HR : ReqOK (now s) req) (He : ev req = Some e)
  (Hw : wr = true -> write req = true) (HH : HeldI (evs s) ((e, write req) :: waiting s)).
Let mem := toMem (now s).
Let resps' := if write req then resps s ++ [mkResp e (startSysCycle req) (memToSysCycle c mem)] else resps s.
Let evs' := if write req then base.delete e (evs s) else evs s.

Lemma node_free : n ∉ RQ.reqList (queue_of wr s) /\ (n < length (RQ.elems (queue_of wr s)))%nat.
Proof using HI Hfl.
  clear HR HM He Hw HH HC. pose proof (i_q _ _ HI wr) as HQI. pose proof (QI_NoDup _ _ _ HQI) as Hnd. rewrite Hfl in Hnd. split.
  - apply list.NoDup_app in Hnd as (_&Hnd&_). intros Hn. apply (Hnd n Hn). set_solver.
  - assert (n ∈ seq 0 (length (RQ.elems (queue_of wr s)))) as H by (rewrite <- (q_perm _ _ _ HQI), Hfl; set_solver). apply elem_of_seq in H. lia.
Qed.

Lemma queued_state i j b d l sq : let r' := mkReq (addr req) (loc req) (write req) sq mem (startSysCycle req) (if write req then None else ev req) in
  loc_at (loc req) i j -> bank_at (dev s) i j = Some b -> Put i j (with_bank_queue wr l b) (dev s) d ->
  l ≡ₚ n :: bank_queue wr b -> head l = head (bank_queue wr b ++ [n]) ->
  Queued M wr n e (startSysCycle req) s (with_dev d (with_evs evs' resps' (taken wr n fl r' s))).
Proof using HC HI HM Hfl HR He Hw HH.
  intros r' Hl Hb HPut Hperm Hhead. pose proof node_free as [Hn Hlt]. pose proof HR as (HL&Hst&Harr). destruct (i_now _ _ HI) as [Hnow HnM].
  pose proof (put_queue_dev M _ _ _ _ _ _ _ Hb HPut (i_dev _ _ HI) (i_devB _ _ HI)) as [HD HDB].
  assert (forall i' j', bqs wr d i' j' = if decide (i' = i /\ j' = j) then l else bqs wr (dev s) i' j') as Hbq
    by (intros i' j'; by rewrite (bqs_put _ _ _ _ _ _ _ wr Hb HPut), decide_True).
  assert (bqs wr (dev s) i j = bank_queue wr b) as Hbb by (unfold bqs; by rewrite Hb).
  assert (ReqOK (now s) r') as HR' by (split_and!; [exact HL|cbn; fold mem in Harr; try lia..]; done).
  set (s2 := with_dev d (with_evs evs' resps' (taken wr n fl r' s))).
  assert (reqs s2 ≡ₚ r' :: reqs s) as Hrq by (by apply reqs_taken).
  assert (waiting s2 ≡ₚ omap wait1 [r'] ++ waiting s) as HW by (unfold waiting; rewrite <- omap_app; by rewrite Hrq).
  assert (HeldI evs' (waiting s2)) as HH2.
  { eapply HeldI_perm; [symmetry; exact HW|]. unfold evs'. unfold r'. destruct (write req) eqn:Ew; cbn; [by eapply HeldI_respond|]. by rewrite He. }
  split; try done; try (by destruct wr).
  - destruct HI as [I1 I2 I3 I4 I5 I6 I7 I8 I9]. split; try done; try (by destruct wr).
    + intros wr'. change (queue_of wr' s2) with (queue_of wr' (taken wr n fl r' s)). unfold taken. rewrite queue_of_with. case_decide as Ed.
      * subst wr'. eapply QI_ext; [intros i' j'; symmetry; exact (Hbq i' j')|]. eapply QI_admit; [by apply I4|done|done|done|]. by rewrite Hbb.
      * eapply QI_ext; [|apply I4]. intros i' j'. cbn. by rewrite (bqs_put _ _ _ _ _ _ _ wr' Hb HPut), decide_False.
    + intros wr'. change (queue_of wr' s2) with (queue_of wr' (taken wr n fl r' s)). unfold taken. rewrite queue_of_with. case_decide as Ed; [|by apply I5].
      subst wr'. rewrite live_admit by done. apply list.Forall_app. split; [by apply I5|]. apply list.Forall_singleton. split; [done|].
      split; [cbn; rewrite He; by destruct (write req)|done].
    + cbn. unfold resps'. destruct (write req); [|done]. apply list.Forall_app. split; [done|]. apply list.Forall_singleton. cbn.
      pose proof (memToSys_later _ _ (ok_freq c HC) (startSysCycle req) mem 0 ltac:(unfold slim; lia) ltac:(lia) ltac:(lia) ltac:(fold mem in Harr; unfold toMem in Harr; unfold sysToMemCycle in Harr; lia)) as Hlat.
      unfold memToSysCycle. pose proof (ok_freq c HC). pose proof (Z.div_pos ((0 + 1) * sysFreqKHz c) (memFreq c) ltac:(lia) ltac:(lia)). lia.
  - cbn. by rewrite (pt_resp _ _ _ _ _ HPut).
  - eapply (idle_false _ wr n). unfold s2. change (queue_of wr (with_dev d (with_evs evs' resps' (taken wr n fl r' s)))) with (queue_of wr (taken wr n fl r' s)).
    unfold taken. rewrite queue_of_with, decide_True by done. cbn. set_solver.
  - cbn. by rewrite (pt_log _ _ _ _ _ HPut).
  - unfold given, unanswered. rewrite Hrq. change (r' :: reqs s) with ([r'] ++ reqs s). rewrite omap_app. change (resps s2) with resps'.
    unfold resps', r'. destruct (write req) eqn:Ew; cbn -[reqs].
    + rewrite fmap_app. cbn -[reqs]. solve_Permutation.
    + rewrite He. cbn -[reqs]. solve_Permutation.
  - exists r'. split_and!; [|done|].
    + unfold RQ.get. apply arr_get_Some. change (queue_of wr s2) with (queue_of wr (taken wr n fl r' s)). unfold taken. rewrite queue_of_with, decide_True by done.
      cbn. by rewrite list_lookup_insert_eq.
    + assert (bank_at d i j = Some (with_bank_queue wr l b)) as Hb' by (by rewrite (pt_bank _ _ _ _ _ HPut), decide_True).
      eexists. split; [by eapply isFirst_eq|]. rewrite bool_decide_eq_false, Hbq, decide_True by done. intros Hne.
      destruct (bank_queue wr b) as [|m q] eqn:Eq; [cbn in Hhead; by rewrite Hhead in Hne|].
      eapply (idle_false _ wr m). eapply (q_out _ _ _ (i_q _ _ HI wr) m i j). rewrite Hbb. set_solver.
Qed.
End Queue.

Lemma queue_spec M wr n fl req e s Q : Inv M s -> M < lim -> RQ.freeList (queue_of wr s) = fl ++ [n] -> ReqOK (now s) req -> ev req = Some e ->
  (wr = true -> write req = true) -> HeldI (evs s) ((e, write req) :: waiting s) ->
  (forall s', Queued M wr n e (startSysCycle req) s s' -> Q tt s') -> wp (queue c wr n (toMem (now s))) Q (taken wr n fl req s).
Proof using HC.
  intros HI HM Hfl HR He Hw HH HQ. pose proof (i_q _ _ HI wr) as HQI. pose proof HR as (HL&Hst&Harr). destruct (i_now _ _ HI) as [Hnow HnM].
  pose proof (toMem_pos (now s) ltac:(unfold slim; lia)) as Hmem. set (mem := toMem (now s)) in *.
  destruct (node_free M wr n fl s HI Hfl) as [Hn Hlt].
  destruct (Shape_bank c (dev s) (loc req) (d_shape _ _ (i_dev _ _ HI)) HL) as (i&j&b&Hl&Hb&Hg&_).
  assert (bqs wr (dev s) i j = bank_queue wr b) as Hbb by (unfold bqs; by rewrite Hb).
  set (resps' := if write req then resps s ++ [mkResp e (startSysCycle req) (memToSysCycle c mem)] else resps s).
  set (evs' := if write req then base.delete e (evs s) else evs s).
  unfold queue. apply wp_bind, wp_get. apply wp_bind, (ddr_wp_lift_ok _ req).
  { unfold RQ.get. apply arr_get_Some. unfold taken. rewrite queue_of_with, decide_True by done. cbn. by rewrite list_lookup_insert_eq. }
  apply wp_bind. eapply (wp_mono _ (fun _ s1 => s1 = with_evs evs' resps' (taken wr n fl req s))).
  { unfold resps', evs'. destruct (write req) eqn:Ew.
    - apply wp_bind, (ddr_wp_lift_ok _ e); [by rewrite He|]. rewrite write_done by lia. destruct HH as [_ HH]. destruct (HH e true) as [a Ha]; [set_solver|].
      by eapply ev_respond_spec.
    - apply wp_ret. by destruct s, wr. }
  intros [] s1 ->. apply wp_bind, wp_get. apply wp_bind, (ddr_wp_lift_ok _ b); [done|]. apply wp_bind, wp_lift.
  assert (forall m, m ∈ bank_queue wr b -> exists x, RQ.elems (queue_of wr (taken wr n fl req s)) !! m = Some x) as Hel.
  { intros m Hm. rewrite <- Hbb in Hm. destruct (q_out _ _ _ HQI m i j Hm) as (Hin&x&Hx&_). exists x. unfold taken. rewrite queue_of_with, decide_True by done. cbn.
    rewrite list_lookup_insert_ne; [done|]. by intros ->. }
  destruct (rwp_elim _ _ (place_spec c (queue_of wr (taken wr n fl req s)) (row (loc req)) n b (bank_queue wr b) Hel)) as ([sq l]&Hpl&Hperm&Hhead).
  eapply rwp_ok; [exact Hpl|]. destruct (rwp_elim _ _ (put_bank_spec (dev s) (loc req) i j (with_bank_queue wr l b) b Hl Hb)) as (d&Hd&HPut).
  apply wp_bind, (ddr_wp_lift_ok _ d); [done|]. apply wp_bind, wp_modify. apply wp_modify.
  pose proof (queued_state M wr n fl req e s HI HM Hfl HR He Hw HH i j b d l sq Hl Hb HPut Hperm Hhead) as Hqs. apply HQ.
  match goal with |- Queued _ _ _ _ _ _ ?x => match type of Hqs with Queued _ _ _ _ _ _ ?y => assert (x = y) as -> end end; [|exact Hqs].
  unfold taken, with_queue, with_dev, with_evs, RQ.set. destruct wr; cbn; rewrite list_insert_insert_eq; done.
Qed.

(** *** trySchedule *)
Lemma live_elem wr s n : n ∈ RQ.reqList (queue_of wr s) -> forall r, RQ.elems (queue_of wr s) !! n = Some r -> r ∈ live (queue_of wr s).
Proof. intros Hn r Hr. unfold live. apply list_elem_of_omap. by exists n. Qed.

Lemma live_req M wr s n : Inv M s -> n ∈ RQ.reqList (queue_of wr s) ->
  exists r i j b, RQ.elems (queue_of wr s) !! n = Some r /\ ReqOK (now s) r /\ LiveOK wr r /\ loc_at (loc r) i j /\ bank_at (dev s) i j = Some b /\
    n ∈ bqs wr (dev s) i j.
Proof.
  intros HI Hn. destruct (q_in _ _ _ (i_q _ _ HI wr) n Hn) as (r&i&j&Hr&HL&Hl&Hin).
  pose proof (i_live _ _ HI wr) as HF. rewrite list.Forall_forall in HF. destruct (HF r (live_elem _ _ _ Hn r Hr)) as [H1 H2].
  destruct (Shape_bank c (dev s) (loc r) (d_shape _ _ (i_dev _ _ HI)) HL) as (i'&j'&b&Hl'&Hb&_). destruct (loc_at_inj _ _ _ _ _ Hl Hl') as [<- <-].
  by exists r, i, j, b.
Qed.

Lemma ReqOK_arr M s r : Inv M s -> ReqOK (now s) r -> LocOK c (loc r) /\ 0 <= arrivalCycle r <= M.
Proof using HC.
  intros HI (H1&H2&H3). destruct (i_now _ _ HI) as [H4 H5]. pose proof (toMem_pos (startSysCycle r) ltac:(unfold slim; lia)). split; [done|lia].
Qed.

Lemma ddr_scan_spec M s wr cur l z : Inv M s -> M + 2 ^ 18 < lim -> (forall n, n ∈ l -> n ∈ RQ.reqList (queue_of wr s)) ->
  rwp (scan c wr cur (queue_of wr s) (dev s) l z) (fun '(o, z') =>
    match o with
    | Some n => n ∈ l /\ exists r x, RQ.elems (queue_of wr s) !! n = Some r /\ isFirst wr n r (dev s) = Ok true /\ findMinCmdCycle c r (dev s) = Ok x /\ x <= cur
    | None => z' <= z /\ (z' = z \/ cur < z') /\
        forall n r, n ∈ l -> RQ.elems (queue_of wr s) !! n = Some r -> isFirst wr n r (dev s) = Ok true -> z' <= M + 2 ^ 18
    end).
Proof using HC.
  intros HI HM. revert z. induction l as [|n l IH]; intros z Hl; cbn [scan].
  { split_and!; [lia|by left|]. intros n r Hn. by apply elem_of_nil in Hn. }
  destruct (live_req M wr s n HI) as (r&i&j&b&Hr&HR&HLv&Hloc&Hb&Hin); [apply Hl; set_solver|].
  unfold RQ.get. rewrite (arr_get_Some _ _ _ Hr). cbn [mbind res_bind]. rewrite (isFirst_eq wr n r (dev s) i j b Hloc Hb). cbn [mbind res_bind].
  destruct (ReqOK_arr M s r HI HR) as [HL Har]. destruct (findMin_ok c HC r (dev s) M (i_dev _ _ HI) (i_devB _ _ HI) HL Har HM) as (x&Hx&Hxr).
  assert (forall n, n ∈ l -> n ∈ RQ.reqList (queue_of wr s)) as Hl' by (intros; apply Hl; set_solver).
  case_bool_decide as Eh.
  - rewrite Hx. cbn [mbind res_bind]. destruct (Z.leb_spec x cur) as [Hle|Hgt].
    + cbn. split; [set_solver|]. exists r, x. split_and!; [done| |done|done]. rewrite (isFirst_eq wr n r (dev s) i j b Hloc Hb). by rewrite bool_decide_eq_true_2.
    + destruct (rwp_elim _ _ (IH (Z.min z x) Hl')) as ([[n'|] z'']&->&H); cbn; [destruct H as [H H']; split; [set_solver|done]|].
      destruct H as (H1&H2&H3). split_and!; [lia|lia|]. intros n' r' Hn' Hr' Hf'. apply elem_of_cons in Hn' as [->|Hn']; [lia|by eapply H3].
  - destruct (rwp_elim _ _ (IH z Hl')) as ([[n'|] z'']&->&H); cbn; [destruct H as [H H']; split; [set_solver|done]|].
    destruct H as (H1&H2&H3). split_and!; [done|done|]. intros n' r' Hn' Hr' Hf'. apply elem_of_cons in Hn' as [->|Hn']; [|by eapply H3].
    rewrite Hr in Hr'. injection Hr' as <-. rewrite (isFirst_eq wr n r (dev s) i j b Hloc Hb) in Hf'. rewrite bool_decide_eq_false_2 in Hf' by done. done.
Qed.

(** A queue that is not empty has a request at the front of its bank queue. *)
Lemma first_exists M wr s : Inv M s -> RQ.empty (queue_of wr s) = false ->
  exists n r, n ∈ RQ.reqList (queue_of wr s) /\ RQ.elems (queue_of wr s) !! n = Some r /\ isFirst wr n r (dev s) = Ok true.
Proof.
  intros HI He. unfold RQ.empty in He. destruct (RQ.reqList (queue_of wr s)) as [|n0 l0] eqn:E; [done|].
  destruct (live_req M wr s n0 HI) as (r&i&j&b&_&_&_&_&Hb&Hin); [rewrite E; set_solver|].
  destruct (bqs wr (dev s) i j) as [|n q] eqn:Eq; [by apply elem_of_nil in Hin|].
  destruct (q_out _ _ _ (i_q _ _ HI wr) n i j) as (Hn&r'&Hr'&Hl'); [rewrite Eq; set_solver|]. rewrite E in Hn. exists n, r'. split_and!; [done|done|].
  rewrite (isFirst_eq wr n r' (dev s) i j b Hl' Hb), Eq. by rewrite bool_decide_eq_true_2.
Qed.

(** The cycle of the response to a read that arrived at [st]. *)
Lemma read_done m st : 0 <= st < slim -> m < lim -> toMem st + tCL tc + tBL tc <= m ->
  let dn := u64 (memToSysCycle c m + controllerSysLatency c) in
  st <= dn /\ st <= u64 (u64 (dn - preDelay c) - postDelayRd c).
Proof using HC.
  intros Hst Hm Hle. pose proof (params_ok c HC) as HP. unfold Params, param in HP. fold tc in HP. pose proof (toMem_pos st Hst) as Hp.
  destruct (ok_pre c HC) as (->&_&_). rewrite (ok_post c HC). pose proof (ok_lat c HC). unfold toMem, sysToMemCycle, memToSysCycle in *.
  pose proof (memToSys_range _ _ (ok_freq c HC) m ltac:(lia)) as Hr.
  pose proof (memToSys_later _ _ (ok_freq c HC) st m (tCL tc + tBL tc) Hst ltac:(lia) ltac:(lia) ltac:(lia)) as Hlat.
  fold tc. rewrite (memToSys_eq _ _ (ok_freq c HC) (tCL tc + tBL tc - 1)) by (unfold lim; lia).
  pose proof (ok_freq c HC). pose proof (Z.div_le_mono ((tCL tc + tBL tc - 1 + 1) * sysFreqKHz c) ((tCL tc + tBL tc + 1) * sysFreqKHz c) (memFreq c) ltac:(lia) ltac:(nia)).
  pose proof (Z.div_pos ((tCL tc + tBL tc - 1 + 1) * sysFreqKHz c) (memFreq c) ltac:(nia) ltac:(lia)).
  rewrite (u64_small (memToSys _ _ m + _)) by (unfold two64; lia). rewrite (u64_small (_ + _ - _)) by (unfold two64; lia). rewrite u64_small by (unfold two64; lia). lia.
Qed.

(** [respond]: the event of a read, and the counters. *)
Lemma respond_spec wr r hit s (Q : unit -> t -> Prop) : LiveOK wr r -> length (latencyHist (prof s)) = Z.to_nat NUMBINS ->
  0 <= startSysCycle r <= now s -> now s < slim -> minRespCycle (dev s) < lim ->
  toMem (now s) + tCL tc + tBL tc <= minRespCycle (dev s) ->
  (forall e, ev r = Some e -> exists a, evs s !! e = Some (mkAcc a (write r) EV_HELD)) ->
  (forall p evs' resps', length (latencyHist p) = Z.to_nat NUMBINS ->
     match ev r with
     | Some e => evs' = base.delete e (evs s) /\ exists dn, resps' = resps s ++ [mkResp e (startSysCycle r) dn] /\ startSysCycle r <= dn
     | None => evs' = evs s /\ resps' = resps s
     end -> Q tt (with_prof p (with_evs evs' resps' s))) ->
  wp (respond c r hit (now s)) Q s.
Proof using HC.
  intros HLv Hh Hst Hnow Hm Hle Hev HQ. unfold respond. apply wp_bind, wp_get. destruct HLv as [HLv _]. destruct (ev r) as [e|] eqn:Ee.
  - destruct (write r) eqn:Ew; [done|]. destruct (Hev e eq_refl) as [a Ha]. apply wp_bind, (ddr_wp_lift_ok _ (mkAcc a false EV_HELD)); [by rewrite Ha|].
    apply wp_bind, wp_assert; [done|]. pose proof (toMem_mono (startSysCycle r) (now s) ltac:(lia) ltac:(lia)) as Hmono.
    destruct (read_done (minRespCycle (dev s)) (now s) ltac:(lia) ltac:(lia) ltac:(lia)) as [D1 D2].
    apply wp_bind, wp_assert; [by apply Z.leb_le|]. apply wp_bind. eapply ev_respond_spec; [exact Ha|done|].
    destruct (lookup_lt_is_Some_2 (latencyHist (prof s)) (Z.to_nat (Z.min (NUMBINS - 1) (u32 (u64 (memToSysCycle c (minRespCycle (dev s)) + controllerSysLatency c) - startSysCycle r) / BINSIZE)))) as [h Hhist].
    { rewrite Hh. unfold NUMBINS. lia. }
    apply wp_bind, (ddr_wp_lift_ok _ h); [by apply arr_get_Some|]. apply wp_modify. apply HQ; [cbn; by rewrite length_insert|]. split; [done|]. eexists. split; [done|]. lia.
  - apply wp_modify. apply (HQ _ (evs s) (resps s)) ; [done|done].
Qed.

(** What [trySchedule] does: it may issue one request. *)
Record Served (M : Z) (s s' : t) : Prop := {
  sv_inv : Inv (M + 2 ^ 20) s';
  sv_sch : sch s' = sch s;
  sv_ovf : overflowQueue s' = overflowQueue s;
  sv_time : now s' = now s /\ refreshAt s' = refreshAt s;
  sv_given : given s' ≡ₚ given s }.

Section Issue.
Context (M : Z) (wr : bool) (n : nat) (r : Request) (s : t) (i j : nat) (q : list nat).
Context (HI : Inv M s) (HM : M + 2 ^ 20 < lim) (Hr : RQ.elems (queue_of wr s) !! n = Some r) (HR : ReqOK (now s) r) (HLv : LiveOK wr r)
  (Hl : loc_at (loc r) i j) (Hq : bqs wr (dev s) i j = n :: q).

Lemma reqs_issue d p ev' rs : reqs s ≡ₚ r :: reqs (with_dev d (with_queue wr (RQ.remove n (queue_of wr s)) (with_prof p (with_evs ev' rs s)))).
Proof using HI Hr Hq.
  clear HC HM HR HLv Hl. pose proof (i_q _ _ HI wr) as HQI. destruct (q_out _ _ _ HQI n i j) as [Hn _]; [rewrite Hq; set_solver|].
  pose proof (QI_NoDup _ _ _ HQI) as Hnd. apply list.NoDup_app in Hnd as (Hnd&_&_). pose proof (live_remove _ _ _ Hnd Hn Hr) as Hp.
  unfold reqs. destruct wr; cbn -[live] in *; rewrite Hp; solve_Permutation.
Qed.

(** The state after an issue. *)
Lemma issued_state d2 d3 b2 p ev' rs : DevI c d2 -> DevB (M + 2 ^ 20) d2 -> (forall i' j', bq <$> bank_at d2 i' j' = bq <$> bank_at (dev s) i' j') ->
  bank_at d2 i j = Some b2 -> Put i j (with_bank_queue wr q b2) d2 d3 -> length (latencyHist p) = Z.to_nat NUMBINS ->
  match ev r with
  | Some e => ev' = base.delete e (evs s) /\ exists dn, rs = resps s ++ [mkResp e (startSysCycle r) dn] /\ startSysCycle r <= dn
  | None => ev' = evs s /\ rs = resps s
  end -> Served M s (with_dev d3 (with_queue wr (RQ.remove n (queue_of wr s)) (with_prof p (with_evs ev' rs s)))).
Proof using HC HI HM Hr HR HLv Hl Hq.
  intros HD HDB Hbq Hb2 HPut Hp Hev. destruct (put_queue_dev (M + 2 ^ 20) _ _ _ _ _ _ _ Hb2 HPut HD HDB) as [HD3 HDB3].
  pose proof (reqs_issue d3 p ev' rs) as Hrq. set (s' := with_dev d3 _) in *.
  assert (waiting s ≡ₚ omap wait1 [r] ++ waiting s') as HW by (unfold waiting; rewrite <- omap_app; by rewrite Hrq).
  assert (omap wait1 [r] = match ev r with Some e => [(e, write r)] | None => [] end) as Hw1 by (cbn; unfold wait1; by destruct (ev r)).
  rewrite Hw1 in HW. clear Hw1. pose proof (bqs_bq _ _ Hbq) as Hbq'.
  pose proof (i_held _ _ HI) as HH. pose proof (HeldI_perm _ _ _ HW HH) as HH'.
  split; try done; try (by destruct wr).
  - pose proof HI as [I1 I2 I3 I4 I5 I6 I7 I8 I9]. split; try done; try (by destruct wr).
    + change (now s') with (now s). lia.
    + intros wr'. change (queue_of wr' s') with (queue_of wr' (with_queue wr (RQ.remove n (queue_of wr s)) s)). rewrite queue_of_with. case_decide as Ed.
      * subst wr'. eapply QI_ext; [|eapply (QI_remove c _ _ n i j q r); [apply (I4 wr)|exact Hr|exact Hl|exact Hq]]. intros i' j'. cbn.
        rewrite (bqs_put _ _ _ _ _ _ _ wr Hb2 HPut). destruct (decide (wr = wr)); [|done]. case_decide; [done|]. by rewrite Hbq'.
      * eapply QI_ext; [|apply I4]. intros i' j'. cbn. rewrite (bqs_put _ _ _ _ _ _ _ wr' Hb2 HPut), decide_False by done. by rewrite Hbq'.
    + intros wr'. change (queue_of wr' s') with (queue_of wr' (with_queue wr (RQ.remove n (queue_of wr s)) s)). rewrite queue_of_with. case_decide as Ed; [|by apply I5].
      subst wr'. pose proof (I5 wr) as HF. destruct (q_out _ _ _ (I4 wr) n i j) as [Hn _]; [rewrite Hq; set_solver|].
      pose proof (QI_NoDup _ _ _ (I4 wr)) as Hnd. apply list.NoDup_app in Hnd as (Hnd&_&_). rewrite (live_remove _ _ _ Hnd Hn Hr) in HF. by apply list.Forall_cons in HF as [_ HF].
    + change (evs s') with ev'. destruct (ev r) as [e|] eqn:Ee.
      * destruct Hev as [-> _]. eapply HeldI_respond. exact HH'.
      * destruct Hev as [-> _]. exact HH'.
    + change (resps s') with rs. destruct (ev r); [|by destruct Hev as [_ ->]]. destruct Hev as (_&dn&->&Hdn). apply list.Forall_app. split; [done|]. by apply list.Forall_singleton.
  - unfold given, unanswered. rewrite Hrq. change (r :: reqs s') with ([r] ++ reqs s'). rewrite omap_app.
    assert (omap since [r] = match ev r with Some e => [(e, startSysCycle r)] | None => [] end) as -> by (cbn; unfold since; by destruct (ev r)).
    change (resps s') with rs. destruct (ev r) as [e|].
    + destruct Hev as (_&dn&->&_). rewrite !fmap_app. cbn -[reqs s']. solve_Permutation.
    + by destruct Hev as [_ ->].
Qed.
End Issue.

(** The cycle of the next tick. *)
Definition next_ok (M : Z) (s : t) (z : Z) : Prop :=
  if idle s then z = noEvent else toMem (now s) <= z <= M.

Lemma issue_spec M wr n r x s Q : Inv M s -> M + 2 ^ 20 < lim -> RQ.elems (queue_of wr s) !! n = Some r -> n ∈ RQ.reqList (queue_of wr s) ->
  isFirst wr n r (dev s) = Ok true -> findMinCmdCycle c r (dev s) = Ok x -> x <= toMem (now s) ->
  (forall z s', Served M s s' -> next_ok (M + 2 ^ 20) s' z -> Q z s') -> wp (issue c wr n (toMem (now s)) (now s)) Q s.
Proof using HC.
  intros HI HM Hr Hn Hf Hx Hle HQ. pose proof (params_ok c HC) as HP. unfold Params, param in HP. fold tc in HP. pose proof HM as HM'. unfold lim in HM'.
  destruct (live_req M wr s n HI Hn) as (r0&i&j&b&Hr0&HR&HLv&Hl&Hb&_). rewrite Hr in Hr0. injection Hr0 as <-.
  rewrite (isFirst_eq wr n r (dev s) i j b Hl Hb) in Hf. injection Hf as Hf%bool_decide_eq_true.
  destruct (bqs wr (dev s) i j) as [|n' q] eqn:Hq; [done|]. cbn in Hf. injection Hf as ->.
  destruct (ReqOK_arr M s r HI HR) as [HL Har]. destruct (i_now _ _ HI) as [Hnow HnM]. pose proof (toMem_pos (now s) ltac:(unfold slim; lia)) as Hpos.
  unfold issue. apply wp_bind, wp_get. apply wp_bind, (ddr_wp_lift_ok _ r); [by apply arr_get_Some|].
  pose proof (issue_dev c HC M (toMem (now s)) r) as Hdev.
  assert (exists more m act d1 b1, activate c (toMem (now s)) r (dev s) = Ok (m, act, d1) /\ get_bank d1 (loc r) = Ok b1 /\
    moreHits (queue_of wr s) (bank_queue wr b1) = Ok more /\
    rwp (column c r more m act d1) (fun d2 => DevI c d2 /\ DevB (M + 2 ^ 20) d2 /\ (forall i' j', bq <$> bank_at d2 i' j' = bq <$> bank_at (dev s) i' j') /\
      toMem (now s) + tCL tc + tBL tc <= minRespCycle d2 /\ minRespCycle (dev s) <= minRespCycle d2)) as (more&m&act&d1&b1&->&Hg1&Hmore&Hcol).
  { destruct (Hdev false (dev s) x (i_dev _ _ HI) (i_devB _ _ HI) HL Har ltac:(lia) HM Hx Hle) as (m&act&d1&b1&Ha&Hg1&(b0&Hb0&Hbq)&_).
    assert (bank_queue wr b1 = n :: q) as Hbq1.
    { unfold bqs in Hq. rewrite Hb in Hq. cbn in Hq. rewrite (get_bank_at _ _ _ _ _ Hl Hb) in Hb0. injection Hb0 as <-. injection Hbq as H1 H2. destruct wr; cbn in *; congruence. }
    assert (exists more, moreHits (queue_of wr s) (bank_queue wr b1) = Ok more) as [more Hmore].
    { rewrite Hbq1. destruct q as [|n2 q]; [by eexists|]. cbn. destruct (q_out _ _ _ (i_q _ _ HI wr) n2 i j) as (_&r2&Hr2&_); [rewrite Hq; set_solver|].
      unfold RQ.get. rewrite (arr_get_Some _ _ _ Hr2). by eexists. }
    destruct (Hdev more (dev s) x (i_dev _ _ HI) (i_devB _ _ HI) HL Har ltac:(lia) HM Hx Hle) as (m'&act'&d1'&b1'&Ha'&_&_&Hcol).
    rewrite Ha in Ha'. injection Ha' as <- <- <-. by exists more, m, act, d1, b1. }
  apply wp_bind, (ddr_wp_lift_ok _ (m, act, d1)); [done|]. apply wp_bind, (ddr_wp_lift_ok _ b1); [done|]. apply wp_bind, (ddr_wp_lift_ok _ more); [done|].
  destruct (rwp_elim _ _ Hcol) as (d2&Hd2&HD2&HDB2&Hbq2&Hresp&_). apply wp_bind, (ddr_wp_lift_ok _ d2); [done|]. apply wp_bind, wp_modify. apply wp_bind.
  change (now s) with (now (with_dev d2 s)) at 1. pose proof HDB2 as (HR2&_).
  destruct (i_held _ _ HI) as [_ Hheld].
  eapply (respond_spec wr); [done|exact (i_hist _ _ HI)|apply HR|cbn; unfold slim; lia|cbn; lia|done| |].
  { intros e He. destruct (Hheld e (write r)) as [a Ha]; [|by exists a]. unfold waiting. apply list_elem_of_omap. exists r. split; [|unfold wait1; by rewrite He].
    pose proof (live_elem wr s n Hn r Hr). unfold reqs. apply elem_of_app. destruct wr; [right|by left]. apply elem_of_app. by left. }
  intros p ev' rs Hp Hev. destruct (bank_at d2 i j) as [b2|] eqn:Hb2; [|specialize (Hbq2 i j); rewrite Hb2, Hb in Hbq2; done].
  assert (bank_queue wr b2 = n :: q) as Hbq2'.
  { rewrite <- Hq, <- (bqs_bq _ _ Hbq2). unfold bqs. by rewrite Hb2. }
  apply wp_bind. unfold dequeue. apply wp_bind, wp_get. apply wp_bind, (ddr_wp_lift_ok _ b2); [by apply (get_bank_at _ _ _ _ _ Hl Hb2)|].
  rewrite Hbq2'. cbn [tail]. destruct (rwp_elim _ _ (put_bank_spec d2 (loc r) i j (with_bank_queue wr q b2) b2 Hl Hb2)) as (d3&Hd3&HPut).
  apply wp_bind, (ddr_wp_lift_ok _ d3); [done|]. apply wp_bind, wp_modify. apply wp_modify. apply wp_bind, wp_get.
  pose proof (issued_state M wr n r s i j q HI HM Hr HR HLv Hl Hq d2 d3 b2 p ev' rs HD2 HDB2 Hbq2 Hb2 HPut Hp Hev) as HS.
  match goal with |- wp _ _ ?y => match type of HS with Served _ _ ?x => assert (y = x) as -> by (by destruct wr) end end.
  apply wp_ret. apply HQ; [done|].
  match goal with |- next_ok _ ?x _ => fold (idle x); unfold next_ok; destruct (idle x); [done|] end. cbn [dev with_dev minRespCycle]. rewrite (pt_resp _ _ _ _ _ HPut).
  fold tc. rewrite u64_small by (unfold two64; lia). split; [|lia]. replace (now _) with (now s) by (by destruct wr). lia.
Qed.

Lemma useWrites_nonempty s : idle s = false -> 0 <= queueDepth c < 2 ^ 30 -> RQ.empty (queue_of (useWrites c s) s) = false.
Proof.
  unfold idle, useWrites. intros Hi Hd. destruct (RQ.empty (rdQueue s)) eqn:E; cbn in *; [done|]. destruct (_ || _) eqn:Ew; cbn; [|done].
  unfold RQ.size in Ew. unfold RQ.empty. destruct (RQ.reqList (wrQueue s)); [|done]. cbn in Ew. exfalso.
  pose proof (Z.div_pos (u32 (3 * queueDepth c)) 4 ltac:(apply u32_range) ltac:(lia)). pose proof (Z.div_pos (queueDepth c) 4 ltac:(lia) ltac:(lia)).
  apply orb_true_iff in Ew as [Ew%Z.ltb_lt|[_ Ew%Z.ltb_lt]%andb_true_iff]; lia.
Qed.

Lemma Inv_weaken M M' s : Inv M s -> M <= M' -> Inv M' s.
Proof.
  intros [I1 I2 (B1&B2&B3) I4 I5 I6 I7 I8 I9] Hle. split; try done; [lia|]. split_and!; [lia| |].
  - intros i j b Hb. destruct (B2 i j b Hb) as (?&?&?). unfold BankB. lia.
  - intros k w Hk. eapply list.Forall_impl; [exact (B3 k w Hk)|]. cbn. lia.
Qed.

Lemma ddr_trySchedule_spec M s Q : Inv M s -> M + 2 ^ 20 < lim ->
  (forall z s', Served M s s' -> next_ok (M + 2 ^ 20) s' z -> Q z s') -> wp (trySchedule c (toMem (now s)) (now s)) Q s.
Proof using HC.
  intros HI HM HQ. pose proof (params_ok c HC) as HP. unfold Params, param in HP. fold tc in HP. pose proof HM as HM'. unfold lim in HM'.
  destruct (i_now _ _ HI) as [Hnow HnM]. pose proof (toMem_pos (now s) ltac:(unfold slim; lia)) as Hpos. pose proof (i_devB _ _ HI) as (HB1&_).
  assert (Served M s s) as HS by (split; try done; by eapply Inv_weaken; [exact HI|lia]).
  unfold trySchedule. apply wp_bind, wp_get. fold (idle s). destruct (idle s) eqn:Ei.
  { apply wp_ret, HQ; [done|]. unfold next_ok. by rewrite Ei. }
  fold tc. rewrite u64_small by (unfold two64; lia). destruct (Z.ltb_spec (toMem (now s) + tCL tc) (minRespCycle (dev s))) as [Hlt|Hge].
  { apply wp_ret, HQ; [done|]. unfold next_ok. rewrite Ei. rewrite u64_small by (unfold two64; lia). lia. }
  pose proof (useWrites_nonempty s Ei ltac:(pose proof (ok_depth c HC); lia)) as Hne. set (wr := useWrites c s) in *.
  apply wp_bind, wp_assert; [by rewrite Hne|]. apply wp_bind, wp_lift.
  destruct (rwp_elim _ _ (ddr_scan_spec M s wr (toMem (now s)) (RQ.reqList (queue_of wr s)) noEvent HI ltac:(unfold lim; lia) ltac:(done))) as ([[n|] z]&Hs&H);
    (eapply rwp_ok; [exact Hs|]).
  - destruct H as (Hn&r&x&Hr&Hf&Hx&Hle). by eapply issue_spec.
  - destruct H as (H1&H2&H3). apply wp_ret, HQ; [done|]. unfold next_ok. rewrite Ei. destruct (first_exists M wr s HI Hne) as (n&r&Hn&Hr&Hf).
    specialize (H3 n r Hn Hr Hf). unfold noEvent, two64 in *. lia.
Qed.

(** *** refill *)
Record Refilled (M : Z) (s s' : t) : Prop := {
  rf_inv : Inv M s';
  rf_sch : sch s' = sch s;
  rf_time : now s' = now s /\ refreshAt s' = refreshAt s;
  rf_given : given s' ≡ₚ given s;
  rf_busy : overflowQueue s' <> [] -> idle s' = false }.

(** The head of the overflow queue leaves it. *)
Lemma Inv_pop M s req ovf : Inv M s -> overflowQueue s = req :: ovf -> exists e, ev req = Some e /\ ReqOK (now s) req /\
  Inv M (with_overflow ovf s) /\ HeldI (evs s) ((e, write req) :: waiting (with_overflow ovf s)) /\ given s ≡ₚ (e, startSysCycle req) :: given (with_overflow ovf s).
Proof.
  intros HI Ho. pose proof HI as [I1 I2 I3 I4 I5 I6 I7 I8 I9]. rewrite Ho in I6. apply list.Forall_cons in I6 as [[HR [e He]] I6].
  assert (reqs s ≡ₚ req :: reqs (with_overflow ovf s)) as Hrq by (unfold reqs; rewrite Ho; cbn -[live]; solve_Permutation).
  assert (waiting s ≡ₚ (e, write req) :: waiting (with_overflow ovf s)) as HW.
  { transitivity (omap wait1 [req] ++ waiting (with_overflow ovf s)); [|cbn -[waiting]; unfold wait1 at 1; by rewrite He]. unfold waiting. by rewrite Hrq, <- omap_app. }
  assert (unanswered s ≡ₚ (e, startSysCycle req) :: unanswered (with_overflow ovf s)) as HU.
  { transitivity (omap since [req] ++ unanswered (with_overflow ovf s)); [|cbn -[unanswered]; unfold since at 1; by rewrite He]. unfold unanswered. by rewrite Hrq, <- omap_app. }
  pose proof (HeldI_perm _ _ _ HW I7) as HH. exists e. split_and!; [done|done| |done|unfold given; rewrite HU; cbn -[unanswered]; solve_Permutation].
  split; try done. destruct HH as [H1 H2]. cbn -[waiting] in H1. apply list.NoDup_cons in H1 as [_ H1]. split; [done|]. intros e' w' He'. apply H2. set_solver.
Qed.

Lemma full_busy M s : Inv M s -> RQ.full (rdQueue s) || RQ.full (wrQueue s) = true -> idle s = false.
Proof using HC.
  intros HI Hf. pose proof (ok_depth c HC). unfold idle. apply orb_true_iff in Hf as [Hf|Hf].
  - pose proof (full_nonempty c _ _ (i_q _ _ HI false) ltac:(lia) Hf) as H'. cbn in H'. by rewrite H'.
  - pose proof (full_nonempty c _ _ (i_q _ _ HI true) ltac:(lia) Hf) as H'. cbn in H'. rewrite H'. apply andb_false_r.
Qed.

Lemma refill_spec M s z Q : Inv M s -> M + 2 ^ 18 < lim -> next_ok M s z ->
  (forall z' s', Refilled M s s' -> next_ok M s' z' -> Q z' s') -> wp (refill c (toMem (now s)) z) Q s.
Proof using HC.
  intros HI HM Hz HQ. pose proof (params_ok c HC) as HP. unfold Params, param in HP. fold tc in HP. pose proof HM as HM'. unfold lim in HM'.
  unfold refill. apply wp_bind, wp_get. destruct (overflowQueue s) as [|req ovf] eqn:Eo; [apply wp_ret, HQ; [by split; try rewrite Eo|done]|].
  destruct (negb (RQ.full (rdQueue s)) && negb (RQ.full (wrQueue s))) eqn:Ef.
  2:{ apply wp_ret, HQ; [|done]. split; try done. intros _. apply (full_busy M s HI). by destruct (RQ.full (rdQueue s)), (RQ.full (wrQueue s)). }
  set (wr := deferredWrites c && write req) in *. apply andb_true_iff in Ef as [Ef1%negb_true_iff Ef2%negb_true_iff].
  destruct (Inv_pop M s req ovf HI Eo) as (e&He&HR&HI0&HH&Hgiv).
  destruct (ddr_alloc_spec c (queue_of wr s) _ (i_q _ _ HI wr)) as (n&fl&Hfl&Hn&Hlt&Hal); [by destruct wr|].
  apply wp_bind, (ddr_wp_lift_ok _ _ _ _ Hal). apply wp_bind, wp_modify. apply wp_bind, wp_modify. apply wp_bind.
  match goal with |- wp _ _ ?x => assert (x = taken wr n fl req (with_overflow ovf s)) as -> by (by destruct wr) end.
  change (now s) with (now (with_overflow ovf s)) at 1. eapply (queue_spec M wr n fl req e (with_overflow ovf s)); try done.
  { unfold lim; lia. }
  { intros Hw. by apply andb_true_iff in Hw as [_ Hw]. }
  intros s' [Q1 Q2 Q3 Q4 Q5 Q6 Q7 Q8 (r&Hg&HR'&first&Hfirst&Hidle)].
  assert (Refilled M s s') as HRef by (split; [done|done|done|by rewrite Q8, Hgiv|done]).
  apply wp_bind, wp_get. apply wp_bind, (ddr_wp_lift_ok _ _ _ _ Hg). apply wp_bind, (ddr_wp_lift_ok _ _ _ _ Hfirst).
  cbn in Q4. destruct Q4 as [Q4 _]. pose proof (i_devB _ _ Q1) as (HB1&_). pose proof (d_resp _ _ (i_dev _ _ Q1)) as Hresp. fold tc in Hresp.
  destruct (i_now _ _ HI) as [Hnow HnM]. pose proof (toMem_pos (now s) ltac:(unfold slim; lia)) as Hpos.
  destruct first; [|apply wp_ret, HQ; [done|]; unfold next_ok in *; rewrite Q6, Q4; change (idle (with_overflow ovf s)) with (idle s) in Hidle; by rewrite Hidle in Hz].
  fold tc. rewrite (u64_small (minRespCycle (dev s') - tCL tc)), u64_small by (unfold two64; lia).
  set (m := Z.max (toMem (now s)) _). assert (toMem (now s) <= m <= M) by (unfold m; lia).
  assert (toMem (now s) <= z) by (unfold next_ok in Hz; destruct (idle s); [unfold noEvent, two64 in Hz|]; lia).
  destruct (Z.ltb_spec m z) as [Hlt'|Hge].
  - change (now (with_overflow ovf s)) with (now s) in HR'. rewrite <- Q4 in HR'. destruct (ReqOK_arr M s' r Q1 HR') as [HL Har].
    destruct (findMin_ok c HC r (dev s') M (i_dev _ _ Q1) (i_devB _ _ Q1) HL Har HM) as (x&Hx&Hxr).
    apply wp_bind, wp_bind, (ddr_wp_lift_ok _ _ _ _ Hx), wp_ret. apply wp_ret, HQ; [done|]. unfold next_ok. rewrite Q6, Q4. destruct (Z.ltb_spec m (Z.max m x)); lia.
  - apply wp_bind, wp_ret, wp_ret, HQ; [done|]. unfold next_ok. rewrite Q6, Q4. destruct (Z.ltb_spec m z); [lia|]. unfold next_ok in Hz. destruct (idle s); [unfold noEvent, two64 in Hz; lia|lia].
Qed.
End Inv.
End DDRI.
