(* ===== verification/DDRSched.v ===== *)
(** * The scheduling events of the DDR memory controller

    At most one SchedEvent is QUEUED, at a cycle that translates to [nextSchedCycle]; the
    others wait ANNULLED in the contention simulator or are in the free list. *)

From S2P Require Import Prelude Bithacks Double MemHier TimingEvent CoreRecorder DDRMem DDRTiming DDRQueue DDRInv.

Module DDRS.
Import DDR DDRT DDRQ DDRI.

(** The free list from [o] on is [fl], of events that are IDLE and held. *)
Fixpoint chain (sc : list SchedEvent) (o : option nat) (fl : list nat) : Prop :=
  match fl with
  | [] => o = None
  | n :: fl => o = Some n /\ exists e, sc !! n = Some e /\ s_state e = IDLE /\ s_base e = EV_HELD /\ chain sc (s_next e) fl
  end.

(** All events but those of [hs] are in the free list or annulled. *)
Record Rest (nw : Z) (sc : list SchedEvent) (pd : list (nat * Z)) (fr : option nat) (hs fl : list nat) : Prop := {
  rs_nodup : NoDup fl;
  rs_chain : chain sc fr fl;
  rs_holes : forall n, n ∈ hs -> n ∉ fl;
  rs_ev : forall n e, sc !! n = Some e -> n ∉ hs -> n ∈ fl \/ (e = mkSched ANNULLED EV_QUEUED None /\ n ∈ pd.*1);
  rs_pd : forall n cy, (n, cy) ∈ pd -> nw <= cy < slim /\ (n < length sc)%nat /\ n ∉ fl;
  rs_pnd : NoDup pd.*1 }.

Lemma chain_insert sc o fl n e : n ∉ fl -> chain sc o fl -> chain (<[n := e]> sc) o fl.
Proof.
  revert o. induction fl as [|m fl IH]; intros o; [done|]. intros [Hne Hn]%not_elem_of_cons (->&x&Hx&H1&H2&H3). split; [done|]. exists x.
  rewrite list_lookup_insert_ne by done. split_and!; [done..|by apply IH].
Qed.

Lemma chain_app sc sc' o fl : chain sc o fl -> chain (sc ++ sc') o fl.
Proof.
  revert o. induction fl as [|m fl IH]; intros o; [done|]. intros (->&x&Hx&H1&H2&H3). split; [done|]. exists x.
  rewrite (lookup_app_l_Some _ _ _ _ Hx). split_and!; [done..|by apply IH].
Qed.

Section Rest.
Context (nw : Z) (sc : list SchedEvent) (pd : list (nat * Z)) (fr : option nat).
Implicit Types (n : nat) (hs fl : list nat) (e : SchedEvent).

Lemma Rest_set hs fl n e : n ∈ hs -> Rest nw sc pd fr hs fl -> Rest nw (<[n := e]> sc) pd fr hs fl.
Proof.
  intros Hn [R1 R2 R3 R4 R5 R6]. split; try done; [by apply chain_insert; [apply R3|]| |].
  - intros m x Hx Hm. rewrite list_lookup_insert_ne in Hx by (intros ->; done). by apply R4.
  - intros m cy Hm. rewrite length_insert. by apply R5.
Qed.

Lemma Rest_annul hs fl n : n ∈ pd.*1 -> Rest nw sc pd fr (n :: hs) fl -> Rest nw (<[n := mkSched ANNULLED EV_QUEUED None]> sc) pd fr hs fl.
Proof.
  intros Hn HR. pose proof (Rest_set (n :: hs) fl n (mkSched ANNULLED EV_QUEUED None) ltac:(set_solver) HR) as [R1 R2 R3 R4 R5 R6].
  split; try done; [intros m Hm; apply R3; set_solver|]. intros m x Hx Hm. destruct (decide (m = n)) as [->|Hne]; [|apply R4; set_solver].
  right. split; [|done]. apply list_elem_of_fmap in Hn as ([n' cy]&->&Hn). destruct (R5 _ _ Hn) as (_&Hlt&_). cbn in *. rewrite length_insert in Hlt.
  rewrite list_lookup_insert_eq in Hx by done. by injection Hx as <-.
Qed.

Lemma Rest_take_free hs fl n : Rest nw sc pd (Some n) hs fl -> exists e fl', sc !! n = Some e /\ s_state e = IDLE /\ s_base e = EV_HELD /\
  n ∉ pd.*1 /\ (n < length sc)%nat /\ forall e', Rest nw (<[n := e']> sc) pd (s_next e) (n :: hs) fl'.
Proof.
  intros [R1 R2 R3 R4 R5 R6]. destruct fl as [|m fl']; [done|]. destruct R2 as ([= <-]&e&He&H1&H2&H3). apply list.NoDup_cons in R1 as [R0 R1].
  exists e, fl'. split_and!; [done..| |by eapply lookup_lt_Some|].
  { intros Hn. apply list_elem_of_fmap in Hn as ([n' cy]&->&Hn). destruct (R5 _ _ Hn) as (_&_&Hn'). set_solver. }
  intros e'. split; try done; [by apply chain_insert|intros m Hm; set_solver| |].
  - intros m x Hx Hm. rewrite list_lookup_insert_ne in Hx by set_solver. destruct (R4 m x Hx) as [Hm'|Hm']; [set_solver|left; set_solver|by right].
  - intros m cy Hm. rewrite length_insert. destruct (R5 m cy Hm) as (?&?&?). split_and!; [lia|lia|done|set_solver].
Qed.

Lemma Rest_take_new hs fl e : Rest nw sc pd None hs fl -> length sc ∉ pd.*1 /\ Rest nw (sc ++ [e]) pd None (length sc :: hs) fl.
Proof.
  intros [R1 R2 R3 R4 R5 R6]. assert (fl = []) as -> by (destruct fl; [done|by destruct R2]). split.
  { intros Hn. apply list_elem_of_fmap in Hn as ([n' cy]&Hn'&Hn). destruct (R5 _ _ Hn) as (_&Hlt&_). cbn in *. lia. }
  split; try done; [set_solver| |].
  - intros m x Hx [Hm1 Hm2]%not_elem_of_cons. apply lookup_app_Some in Hx as [Hx|[Hx1 Hx2]]; [by apply R4|]. apply list_lookup_singleton_Some in Hx2 as [Hx2 _]. lia.
  - intros m cy Hm. rewrite length_app. destruct (R5 m cy Hm) as (?&?&?). split_and!; [lia|lia|cbn; lia|done].
Qed.

Lemma Rest_pend hs fl n cy : n ∈ hs -> n ∉ pd.*1 -> (n < length sc)%nat -> nw <= cy < slim -> Rest nw sc pd fr hs fl -> Rest nw sc (pd ++ [(n, cy)]) fr hs fl.
Proof.
  intros Hh Hn Hlt Hcy [R1 R2 R3 R4 R5 R6]. split; try done.
  - intros m x Hx Hm. destruct (R4 m x Hx Hm) as [|[-> ?]]; [by left|right]. split; [done|]. rewrite fmap_app. set_solver.
  - intros m cy' [Hm|Hm%list_elem_of_singleton]%elem_of_app; [by apply R5|]. injection Hm as -> ->. split_and!; [lia|lia|done|by apply R3].
  - rewrite fmap_app. apply list.NoDup_app. split_and!; [done|set_solver|by apply NoDup_singleton].
Qed.

Lemma pend_unique n cy cy' : (n, cy) ∈ pd -> (n, cy') ∈ pd -> NoDup pd.*1 -> cy' = cy.
Proof.
  intros Hin Hf Hnd. apply list_elem_of_lookup_1 in Hin as [i Hi]. apply list_elem_of_lookup_1 in Hf as [j Hj].
  assert (i = j) as -> by (eapply (NoDup_lookup pd.*1); [done|by rewrite list_lookup_fmap, Hi|by rewrite list_lookup_fmap, Hj]). congruence.
Qed.

Lemma unpend_notin n cy : (n, cy) ∈ pd -> NoDup pd.*1 -> n ∉ (base.filter (fun x => x <> (n, cy)) pd).*1.
Proof.
  intros Hin Hnd Hn. apply list_elem_of_fmap in Hn as ([n' cy']&Hn'&Hf). apply list_elem_of_filter in Hf as [Hne Hf]. cbn in Hn'. subst n'.
  by rewrite (pend_unique n cy cy') in Hne.
Qed.

Lemma unpend_in n cy m : m <> n -> m ∈ pd.*1 -> m ∈ (base.filter (fun x => x <> (n, cy)) pd).*1.
Proof.
  intros Hne Hm. apply list_elem_of_fmap in Hm as (x&Hx&Hf). apply list_elem_of_fmap. exists x. split; [done|]. apply list_elem_of_filter. split; [|done]. intros ->. by cbn in Hx.
Qed.

Lemma Rest_unpend hs fl n cy : n ∈ hs -> Rest nw sc pd fr hs fl -> Rest nw sc (base.filter (fun x => x <> (n, cy)) pd) fr hs fl.
Proof.
  intros Hh [R1 R2 R3 R4 R5 R6]. split; try done.
  - intros m x Hx Hm. destruct (R4 m x Hx Hm) as [|[-> ?]]; [by left|right]. split; [done|]. apply unpend_in; [by intros ->|done].
  - intros m cy' [_ Hm]%list_elem_of_filter. by apply R5.
  - eapply sublist_NoDup; [exact R6|]. apply fmap_sublist, sublist_filter.
Qed.

Lemma Rest_open hs fl n : n ∈ pd.*1 -> Rest nw sc pd fr hs fl -> Rest nw sc pd fr (n :: hs) fl.
Proof.
  intros Hn [R1 R2 R3 R4 R5 R6]. split; try done; [|intros m x Hx Hm; apply R4; [done|set_solver]]. intros m [->|Hm]%elem_of_cons; [|by apply R3].
  apply list_elem_of_fmap in Hn as ([n' cy]&->&Hn). by destruct (R5 _ _ Hn) as (_&_&?).
Qed.

Lemma Rest_recycle hs fl n e : n ∉ pd.*1 -> n ∉ hs -> sc !! n = Some e -> s_state e = IDLE -> s_base e = EV_HELD -> Rest nw sc pd fr (n :: hs) fl ->
  Rest nw (<[n := mkSched (s_state e) (s_base e) fr]> sc) pd (Some n) hs (n :: fl).
Proof.
  intros Hn Hh He H1 H2 HR. pose proof (lookup_lt_Some _ _ _ He) as Hlt. pose proof (rs_holes _ _ _ _ _ _ HR n ltac:(set_solver)) as Hfl.
  pose proof (Rest_set (n :: hs) fl n (mkSched (s_state e) (s_base e) fr) ltac:(set_solver) HR) as [R1 R2 R3 R4 R5 R6]. split; try done.
  - by apply list.NoDup_cons.
  - split; [done|]. eexists. split; [by apply list_lookup_insert_eq|]. split_and!; [exact H1|exact H2|exact R2].
  - intros m Hm [->|Hm']%elem_of_cons; [done|]. apply (R3 m); [set_solver|done].
  - intros m x Hx Hm. destruct (decide (m = n)) as [->|Hne]; [left; set_solver|]. destruct (R4 m x Hx) as [|]; [set_solver|left; set_solver|by right].
  - intros m cy Hm. destruct (R5 m cy Hm) as (?&?&?). split_and!; [lia|lia|done|]. intros [->|]%elem_of_cons; [|done]. apply Hn, list_elem_of_fmap. by exists (n, cy).
Qed.

Lemma Rest_time nw' hs fl : (forall n cy, (n, cy) ∈ pd -> nw' <= cy) -> Rest nw sc pd fr hs fl -> Rest nw' sc pd fr hs fl.
Proof. intros Hle [R1 R2 R3 R4 R5 R6]. split; try done. intros n cy Hn. destruct (R5 n cy Hn) as (?&?&?). specialize (Hle n cy Hn). split_and!; [lia|lia|done..]. Qed.
End Rest.

Section SchI.
Context (c : Config) (HC : CfgOK c).
Let toMem := sysToMemCycle c.

Definition SchI (nw : Z) (h : Sch) : Prop := exists fl, Rest nw (scheds h) (pending h) (eventFreelist h) (option_list (nextSchedEvent h)) fl /\
  match nextSchedEvent h with
  | None => nextSchedCycle h = noEvent
  | Some n => 1 <= nextSchedCycle h < lim /\ scheds h !! n = Some (mkSched QUEUED EV_QUEUED None) /\
      exists cy, (n, cy) ∈ pending h /\ toMem cy = nextSchedCycle h
  end.

(** *** The operations on the events *)
Lemma sched_update_spec n f p e s Q : scheds (sch s) !! n = Some e ->
  Q tt (with_sch (mkSch (nextSchedEvent (sch s)) (nextSchedCycle (sch s)) (eventFreelist (sch s)) (<[n := f e]> (scheds (sch s))) (pending (sch s) ++ p)) s) ->
  wp (sched_update n f p) Q s.
Proof. intros He HQ. unfold sched_update. apply wp_bind, wp_get. apply wp_bind, (ddr_wp_lift_ok _ _ _ _ (arr_get_Some _ _ _ He)). by apply wp_modify. Qed.

Lemma sched_get_spec n e s Q : scheds (sch s) !! n = Some e -> Q e s -> wp (sched_get n) Q s.
Proof. intros He HQ. unfold sched_get. apply wp_bind, wp_get. by apply (ddr_wp_lift_ok _ _ _ _ (arr_get_Some _ _ _ He)). Qed.

Lemma sched_enqueue_spec n cy e s Q : scheds (sch s) !! n = Some e -> s_state e = IDLE -> s_base e = EV_HELD ->
  Q tt (with_sch (mkSch (nextSchedEvent (sch s)) (nextSchedCycle (sch s)) (eventFreelist (sch s))
          (<[n := mkSched QUEUED EV_QUEUED (s_next e)]> (scheds (sch s))) (pending (sch s) ++ [(n, cy)])) s) ->
  wp (sched_enqueue n cy) Q s.
Proof.
  intros He H1 H2 HQ. pose proof (lookup_lt_Some _ _ _ He) as Hlt. unfold sched_enqueue. apply wp_bind, (sched_get_spec n e); [done|].
  apply wp_bind, wp_assert; [by rewrite H1|]. apply wp_bind. unfold sched_state. eapply sched_update_spec; [done|]. unfold sched_requeue.
  apply wp_bind, (sched_get_spec n (mkSched QUEUED (s_base e) (s_next e))); [cbn; by rewrite list_lookup_insert_eq|].
  apply wp_bind, wp_assert; [cbn; by rewrite H2|]. unfold sched_base. eapply sched_update_spec; [cbn; by rewrite list_lookup_insert_eq|].
  cbn. by rewrite list_insert_insert_eq, app_nil_r.
Qed.

(** The event that the controller takes for its next tick, when none is queued. *)
Lemma sched_take_spec nw fl s Q : Rest nw (scheds (sch s)) (pending (sch s)) (eventFreelist (sch s)) [] fl ->
  (forall n sc fr fl', Rest nw sc (pending (sch s)) fr [n] fl' -> n ∉ (pending (sch s)).*1 -> sc !! n = Some (mkSched IDLE EV_HELD None) ->
     Q n (with_sch (mkSch (Some n) (nextSchedCycle (sch s)) fr sc (pending (sch s))) s)) ->
  wp sched_take Q s.
Proof.
  intros HR HQ. unfold sched_take. apply wp_bind, wp_get. destruct (eventFreelist (sch s)) as [n|] eqn:Ef.
  - destruct (Rest_take_free _ _ _ _ _ _ HR) as (e&fl'&He&H1&H2&H3&Hlt&H4). apply wp_bind, (ddr_wp_lift_ok _ _ _ _ (arr_get_Some _ _ _ He)).
    apply wp_bind, wp_modify, wp_ret. eapply HQ; [apply H4|done|]. rewrite list_lookup_insert_eq by done. by rewrite H1, H2.
  - destruct (Rest_take_new _ _ _ _ _ new_SchedEvent HR) as [H1 H2]. apply wp_bind, wp_modify, wp_ret. eapply HQ; [exact H2|done|].
    by rewrite lookup_app_r, Nat.sub_diag.
Qed.

(** [wake]: afterwards an event is queued. *)
Lemma wake_spec M r s Q : Inv c M s -> M + 2 ^ 18 < lim -> SchI (now s) (sch s) -> ReqOK c (now s) r ->
  (forall h, SchI (now s) h -> is_Some (nextSchedEvent h) -> Q tt (with_sch h s)) -> wp (wake c r (toMem (now s)) (now s)) Q s.
Proof using HC.
  intros HI HM (fl&HR&HN) HRq HQ. pose proof (params_ok c HC) as HP. unfold Params, param in HP. pose proof HM as HM'. unfold lim in HM'.
  pose proof (i_devB _ _ _ HI) as (HB1&_). pose proof (d_resp _ _ (i_dev _ _ _ HI)) as Hresp.
  destruct (i_now _ _ _ HI) as [Hnow HnM]. pose proof (toMem_pos c HC (now s) ltac:(unfold slim; lia)) as Hpos.
  destruct (ReqOK_arr c HC M s r HI HRq) as [HL Har]. destruct (findMin_ok c HC r (dev s) M (i_dev _ _ _ HI) (i_devB _ _ _ HI) HL Har HM) as (x&Hx&Hxr).
  assert (nextSchedCycle (sch s) < noEvent -> Q tt s) as Hkeep.
  { intros Hlt. replace s with (with_sch (sch s) s) by (by destruct s). apply HQ; [by exists fl|]. destruct (nextSchedEvent (sch s)); [by eexists|lia]. }
  unfold wake. apply wp_bind, wp_get. rewrite (u64_small (minRespCycle (dev s) - tCL (tech c))), u64_small by (unfold two64; lia).
  set (m := Z.max (toMem (now s)) _). assert (toMem (now s) <= m <= M) as Hm by (unfold m, toMem; lia).
  destruct (Z.ltb_spec m (nextSchedCycle (sch s))) as [H1|H1].
  2:{ apply wp_bind, wp_ret. rewrite (proj2 (Z.ltb_ge _ _)) by done. apply wp_ret, Hkeep. unfold noEvent, two64. lia. }
  apply wp_bind, wp_bind, (ddr_wp_lift_ok _ _ _ _ Hx), wp_ret. set (m' := Z.max m x). assert (toMem (now s) <= m' < lim) as Hm' by (unfold m', lim; lia).
  destruct (Z.ltb_spec m' (nextSchedCycle (sch s))) as [H2|H2]; [|apply wp_ret, Hkeep; unfold noEvent, two64, lim in *; lia].
  set (cy := Z.max (matchingMemToSysCycle c m') (now s)).
  assert (now s <= cy < slim /\ toMem cy = m') as [Hcy1 Hcy2].
  { pose proof (matching_lim _ _ (ok_freq c HC) m' ltac:(unfold lim in *; lia)). split; [unfold cy, matchingMemToSysCycle, slim in *; lia|].
    apply (wake_cycle _ _ (ok_freq c HC)); unfold lim, slim in *; [lia|lia|]. apply Hm'. }
  (* annul *)
  apply wp_bind. eapply (wp_mono _ (fun _ s1 => exists sc, s1 = with_sch (mkSch (nextSchedEvent (sch s)) (nextSchedCycle (sch s)) (eventFreelist (sch s)) sc (pending (sch s))) s /\
    Rest (now s) sc (pending (sch s)) (eventFreelist (sch s)) [] fl)).
  { destruct (nextSchedEvent (sch s)) as [n|] eqn:En.
    - destruct HN as (_&Hn&cy'&Hcy'&_). unfold sched_annul. apply wp_bind, (sched_get_spec n (mkSched QUEUED EV_QUEUED None)); [done|].
      apply wp_bind, wp_assert; [done|]. eapply sched_update_spec; [done|]. cbn. rewrite app_nil_r, En. eexists. split; [done|]. apply Rest_annul; [|done].
      apply list_elem_of_fmap. by exists (n, cy').
    - apply wp_ret. exists (scheds (sch s)). split; [rewrite <- En at 1; by destruct s as [? ? ? ? []]|done]. }
  intros _ s1 (sc&->&HR1). apply wp_bind. eapply (sched_take_spec (now s) fl); [done|]. cbn. intros n sc' fr fl' HR2 Hn He. pose proof (lookup_lt_Some _ _ _ He) as Hlt.
  apply wp_bind. eapply sched_enqueue_spec; [done|done|done|]. cbn. apply wp_modify. cbn.
  apply (HQ (mkSch (Some n) m' fr (<[n := mkSched QUEUED EV_QUEUED None]> sc') (pending (sch s) ++ [(n, cy)]))); [|by eexists].
  exists fl'. cbn. split.
  - apply Rest_set; [set_solver|]. by apply Rest_pend; [set_solver|..].
  - split_and!; [lia|lia|by apply list_lookup_insert_eq|]. exists cy. split; [set_solver|done].
Qed.

(** *** tick *)
Definition with_next (e : option nat) (m : Z) (h : Sch) : Sch := mkSch e m (eventFreelist h) (scheds h) (pending h).

Record Ticked (M : Z) (s s' : t) : Prop := {
  tk_inv : Inv c M s';
  tk_time : now s' = now s /\ refreshAt s' = refreshAt s;
  tk_given : given s' ≡ₚ given s;
  tk_busy : overflowQueue s' <> [] -> idle s' = false }.

Lemma Inv_sch M h s : Inv c M s -> Inv c M (with_sch h s).
Proof. intros [I1 I2 I3 I4 I5 I6 I7 I8 I9]. by split. Qed.

Lemma tick_spec M s Q : Inv c M s -> M + 2 ^ 21 < lim -> toMem (now s) = nextSchedCycle (sch s) ->
  (forall z s', Ticked (M + 2 ^ 20) s s' ->
     (if idle s' then z = 0 /\ sch s' = with_next None noEvent (sch s)
      else z <> 0 /\ now s <= z < slim /\ 1 <= toMem z < lim /\ sch s' = with_next (nextSchedEvent (sch s)) (toMem z) (sch s)) -> Q z s') ->
  wp (tick c (now s)) Q s.
Proof using HC.
  intros HI HM Hn HQ. pose proof HM as HM'. unfold lim in HM'. destruct (i_now _ _ _ HI) as [Hnow HnM]. pose proof (toMem_pos c HC (now s) ltac:(unfold slim; lia)) as Hpos.
  unfold tick. apply wp_bind, wp_get. apply wp_bind, wp_assert; [by apply Z.eqb_eq|]. apply wp_bind.
  eapply (ddr_trySchedule_spec c HC M); [done|unfold lim; lia|]. intros z s1 HS Hz. destruct HS as [S1 S2 S3 [S4 S5] S6].
  assert (toMem (now s) <= z) as Hzle by (unfold next_ok in Hz; rewrite S4 in Hz; destruct (idle s1); [unfold noEvent, two64, toMem in *; lia|apply Hz]).
  apply wp_bind, wp_assert; [by apply Z.leb_le|]. apply wp_bind. rewrite <- S4.
  change (sysToMemCycle c (now s1)) with (toMem (now s1)). eapply (refill_spec c HC (M + 2 ^ 20)); [done|unfold lim; lia|done|].
  intros z' s2 [R1 R2 [R3 R4] R5 R6] Hz'. apply wp_bind, wp_modify. unfold next_ok in Hz'. rewrite R3, S4 in Hz'.
  assert (Ticked (M + 2 ^ 20) s s2) as HT by (split; [done|split; congruence|by rewrite R5, S6|done]).
  assert (forall h, Ticked (M + 2 ^ 20) s (with_sch h s2)) as HT' by (intros h; destruct HT as [T1 T2 T3 T4]; split; [by apply Inv_sch|done..]).
  destruct (idle s2) eqn:Ei.
  - rewrite Hz', Z.eqb_refl. apply wp_bind, wp_modify, wp_ret. apply HQ; [apply HT'|]. change (idle _) with (idle s2). rewrite Ei. split; [done|]. cbn. by rewrite R2, S2.
  - assert (z' <> noEvent) as Hne by (unfold noEvent, two64; lia). rewrite (proj2 (Z.eqb_neq _ _) Hne). apply wp_ret.
    set (cy := Z.max (matchingMemToSysCycle c z') (now s1)). assert (now s <= cy < slim /\ toMem cy = z' /\ 1 <= cy) as (Hcy1&Hcy2&Hcy3).
    { pose proof (matching_lim _ _ (ok_freq c HC) z' ltac:(unfold lim, toMem in *; lia)).
      split_and!; [unfold cy, matchingMemToSysCycle, slim in *; lia..|
        unfold cy; rewrite S4; apply (wake_cycle _ _ (ok_freq c HC)); unfold lim, slim, toMem, sysToMemCycle in *; lia|unfold cy, matchingMemToSysCycle, slim in *; lia]. }
    apply HQ; [apply HT'|]. change (idle _) with (idle s2). rewrite Ei. split_and!; [lia|lia|lia|unfold toMem in *; lia|unfold lim, toMem in *; lia|]. cbn. by rewrite R2, S2, Hcy2.
Qed.

(** *** simulate *)
Lemma recycle_spec n e nw hs fl s Q : Rest nw (scheds (sch s)) (pending (sch s)) (eventFreelist (sch s)) (n :: hs) fl -> n ∉ (pending (sch s)).*1 -> n ∉ hs ->
  scheds (sch s) !! n = Some e -> s_base e = EV_RUNNING -> s_next e = None -> nextSchedEvent (sch s) <> Some n ->
  (forall fr sc fl', Rest nw sc (pending (sch s)) fr hs fl' -> (forall m, m <> n -> sc !! m = scheds (sch s) !! m) ->
     Q tt (with_sch (mkSch (nextSchedEvent (sch s)) (nextSchedCycle (sch s)) fr sc (pending (sch s))) s)) ->
  wp (sched_state n IDLE;; sched_hold n;; recycleEvent n) Q s.
Proof.
  intros HR Hp Hh He Hb Hnx Hne HQ. pose proof (lookup_lt_Some _ _ _ He) as Hlt. apply wp_bind. eapply sched_update_spec; [exact He|].
  apply wp_bind. unfold sched_hold. eapply wp_bind, (sched_get_spec n (mkSched IDLE (s_base e) (s_next e))); [cbn; by rewrite list_lookup_insert_eq|].
  apply wp_bind, wp_assert; [cbn; by rewrite Hb|]. eapply sched_update_spec; [cbn; by rewrite list_lookup_insert_eq|]. cbn.
  rewrite list_insert_insert_eq, !app_nil_r. unfold recycleEvent. apply wp_bind, wp_get. cbn.
  apply wp_bind, wp_assert; [by rewrite bool_decide_eq_false_2|]. apply wp_bind. eapply (ddr_wp_lift_ok _ (mkSched IDLE EV_HELD (s_next e))); [apply arr_get_Some; by rewrite list_lookup_insert_eq|].
  apply wp_bind, wp_assert; [cbn; by rewrite Hnx|]. apply wp_modify. cbn. eapply HQ.
  - apply (Rest_recycle _ _ _ _ hs fl n (mkSched IDLE EV_HELD (s_next e))); [done|done|by rewrite list_lookup_insert_eq|done|done|]. by apply Rest_set; [set_solver|].
  - intros m Hm. by rewrite !list_lookup_insert_ne.
Qed.
End SchI.
End DDRS.
