(* ===== verification/DDRThms.v ===== *)
(** * The DDR memory controller: theorems

    A sequence of events of the contention simulator, in the order of their cycles: the
    controller fails no assertion, loses no request, obeys the timing constraints of its
    devices, and responds no earlier than the bound phase assumed. *)

From S2P Require Import Prelude Bithacks Double MemHier TimingEvent CoreRecorder DDRMem DDRTiming DDRQueue DDRInv DDRSched.

Module DDRP.
Import DDR DDRT DDRQ DDRI DDRS.

(** ** Admissible sequences of events *)

(** All cycles of the controller are at most [L]. *)
Definition below (L : Z) (s : t) : bool :=
  (minRespCycle (dev s) <=? L) &&
  forallb (fun b => (minPreCycle b <=? L) && (lastActCycle b <=? L) && (lastCmdCycle b <=? L)) (concat (banks (dev s))) &&
  forallb (fun w => forallb (fun x => x <=? L) (AW.buf w)) (rankActWindows (dev s)).
Definition horizon : Z := 2 ^ 39.
(** The event is the first one in the order of cycles. *)
Definition op_ok (s : t) (o : op) : bool :=
  let cy := op_cycle s o in
  below horizon s && (now s <=? cy) && (cy <? horizon) && forallb (fun p => cy <=? p.2) (pending (sch s)) && (cy <=? refreshAt s) &&
  match o with
  | Acc _ lineAddr _ _ => 0 <=? lineAddr
  | Sched n cy => bool_decide ((n, cy) ∈ pending (sch s))
  | Refresh => true
  end.
Fixpoint admissible (c : Config) (l : list op) (s : t) : bool :=
  match l with
  | [] => true
  | o :: l => op_ok s o && match step c o s with Ok (_, s') => admissible c l s' | Err _ => true end
  end.
(** The access events of a sequence, with their cycles. *)
Definition acc_of (o : op) : list (nat * Z) := match o with Acc e _ _ cy => [(e, cy)] | _ => [] end.
Definition accs (l : list op) : list (nat * Z) := l ≫= acc_of.

Section Ops.
Context (c : Config) (HC : CfgOK c).
Let toMem := sysToMemCycle c.

Record Full (M : Z) (s : t) : Prop := {
  f_inv : Inv c M s;
  f_sch : SchI c (now s) (sch s);
  f_busy : overflowQueue s <> [] -> idle s = false;
  f_wake : nextSchedEvent (sch s) = None -> idle s = true;
  f_ref : now s <= refreshAt s < slim }.

Lemma below_spec L M s : DevB M (dev s) -> below L s = true -> DevB L (dev s).
Proof.
  intros (B1&B2&B3). unfold below. intros [[H1%Z.leb_le H2]%andb_true_iff H3]%andb_true_iff.
  rewrite forallb_forall in H2, H3. split_and!; [done| |].
  - intros i j b Hb. specialize (H2 b (proj1 (list_elem_of_In _ _) (bank_at_elem _ _ _ _ Hb))).
    apply andb_true_iff in H2 as [[H2%Z.leb_le H4%Z.leb_le]%andb_true_iff H5%Z.leb_le]. destruct (B2 i j b Hb) as (?&?&?). unfold BankB. lia.
  - intros k w Hk. pose proof (B3 k w Hk) as Hw. specialize (H3 w (proj1 (list_elem_of_In _ _) (list_elem_of_lookup_2 _ _ _ Hk))). rewrite forallb_forall in H3.
    apply list.Forall_forall. intros x Hx. rewrite list.Forall_forall in Hw. specialize (H3 x (proj1 (list_elem_of_In _ _) Hx)). apply Z.leb_le in H3. specialize (Hw x Hx). lia.
Qed.

(** The state at the cycle of the next event. *)
Lemma Inv_at M cy s : Inv c M s -> below horizon s = true -> now s <= cy < horizon -> Inv c horizon (with_now cy s).
Proof using HC.
  intros [I1 I2 I3 I4 I5 I6 I7 I8 I9] Hb Hcy. pose proof (below_spec horizon M s I3 Hb) as HB. unfold horizon in Hcy.
  assert (forall r, ReqOK c (now s) r -> ReqOK c cy r) as HR by (intros r; apply (ReqOK_later c HC); unfold slim; lia).
  split; try done; cbn.
  - pose proof (sysToMem_pos _ _ (ok_freq c HC) cy ltac:(unfold slim; lia)). unfold sysToMemCycle, horizon. lia.
  - intros wr. eapply list.Forall_impl; [apply I5|]. cbn. intros r [H1 H2]. split; [by apply HR|done].
  - eapply list.Forall_impl; [apply I6|]. cbn. intros r [H1 H2]. split; [by apply HR|done].
Qed.

Lemma SchI_at nw nw' h : SchI c nw h -> (forall n cy, (n, cy) ∈ pending h -> nw' <= cy) -> SchI c nw' h.
Proof. intros (fl&HR&HN) Hle. exists fl. split; [by eapply Rest_time|done]. Qed.

Lemma mapLineAddr_ok a : exists l, mapLineAddr c a = Ok l /\ LocOK c l.
Proof using HC.
  unfold mapLineAddr. pose proof (ok_ranks c HC). pose proof (ok_banks c HC). set (l := mkLoc _ _ _ _).
  assert (LocOK c l) as [H1 H2].
  { unfold LocOK, l. cbn. rewrite (Z.land_comm _ (rankMask _)), (Z.land_comm _ (bankMask _)).
    pose proof (land_le_l (rankMask (amap c)) (Z.shiftr a (rankShift (amap c))) ltac:(lia)). pose proof (land_le_l (bankMask (amap c)) (Z.shiftr a (bankShift (amap c))) ltac:(lia)). lia. }
  exists l. rewrite (proj2 (Z.ltb_lt _ _)) by lia. cbn [mbind res_bind rassert]. rewrite (proj2 (Z.ltb_lt _ _)) by lia. done.
Qed.

(** *** Access events *)
Lemma ddr_enqueue_spec M s e a w (Q : unit -> t -> Prop) : Inv c M s -> M + 2 ^ 18 < lim -> SchI c (now s) (sch s) -> (overflowQueue s <> [] -> idle s = false) ->
  (nextSchedEvent (sch s) = None -> idle s = true) -> e ∉ (waiting s).*1 ->
  (forall s', Inv c M s' -> SchI c (now s) (sch s') -> (overflowQueue s' <> [] -> idle s' = false) -> (nextSchedEvent (sch s') = None -> idle s' = true) ->
     now s' = now s /\ refreshAt s' = refreshAt s -> given s' ≡ₚ (e, now s) :: given s -> Q tt s') ->
  wp (enqueue c e (now s)) Q (with_evs (<[e := mkAcc a w EV_RUNNING]> (evs s)) (resps s) s).
Proof using HC.
  intros HI HM HS Hbusy Hwake He HQ. unfold enqueue. fold toMem. apply wp_bind, wp_get. apply wp_bind, (ddr_wp_lift_ok _ (mkAcc a w EV_RUNNING)); [cbn; by rewrite lookup_insert_eq|].
  destruct (mapLineAddr_ok a) as (l&Hl&HL). apply wp_bind, (ddr_wp_lift_ok _ l); [done|]. cbn [a_write a_addr].
  apply wp_bind. unfold ev_hold. apply wp_bind, wp_get. apply wp_bind, (ddr_wp_lift_ok _ (mkAcc a w EV_RUNNING)); [cbn; by rewrite lookup_insert_eq|].
  apply wp_bind, wp_assert; [done|]. apply wp_modify. cbn [evs resps with_evs a_addr a_write rdQueue wrQueue]. rewrite insert_insert_eq.
  set (s1 := with_evs (<[e := mkAcc a w EV_HELD]> (evs s)) (resps s) _). set (req := mkReq _ _ _ _ _ _ _).
  assert (HeldI (evs s1) ((e, w) :: waiting s)) as HH.
  { destruct (i_held _ _ _ HI) as [H1 H2]. split; [by apply list.NoDup_cons|]. intros e' w' [[= -> ->]|Hin]%elem_of_cons; cbn.
    - exists a. by rewrite lookup_insert_eq.
    - destruct (H2 e' w' Hin) as [a' Ha']. exists a'. rewrite lookup_insert_ne; [done|]. intros ->. apply He, list_elem_of_fmap. by exists (e', w'). }
  assert (Inv c M s1) as HI1.
  { destruct HI as [I1 I2 I3 I4 I5 I6 I7 I8 I9]. split; try done. destruct HH as [H1 H2]. apply list.NoDup_cons in H1 as [_ H1]. split; [done|]. intros. apply H2. set_solver. }
  destruct (i_now _ _ _ HI) as [Hnow HnM]. pose proof (toMem_pos c HC (now s) ltac:(unfold slim; lia)) as Hpos.
  assert (ReqOK c (now s) req) as HR by (split_and!; [exact HL|cbn; try lia..]; done).
  destruct (RQ.full (rdQueue s) || RQ.full (wrQueue s)) eqn:Ef.
  { apply wp_modify. assert (reqs (with_overflow (overflowQueue s1 ++ [req]) s1) ≡ₚ [req] ++ reqs s) as Hrq by (unfold reqs; cbn -[live]; solve_Permutation).
    assert (waiting (with_overflow (overflowQueue s1 ++ [req]) s1) ≡ₚ (e, w) :: waiting s) as HW.
    { transitivity (omap wait1 [req] ++ waiting s); [|done]. unfold waiting. rewrite <- omap_app. by rewrite Hrq. }
    pose proof (full_busy c HC M s HI Ef) as Hb. apply HQ; try done.
    - destruct HI1 as [I1 I2 I3 I4 I5 I6 I7 I8 I9]. split; try done.
      + cbn. apply list.Forall_app. split; [done|]. apply list.Forall_singleton. split; [done|by eexists].
      + eapply HeldI_perm; [symmetry; exact HW|done].
    - unfold given, unanswered. rewrite Hrq, omap_app. cbn -[reqs]. solve_Permutation. }
  apply orb_false_iff in Ef as [Ef1 Ef2]. set (wr := deferredWrites c && w).
  destruct (ddr_alloc_spec c (queue_of wr s) _ (i_q _ _ _ HI wr)) as (n&fl&Hfl&Hn&Hlt&Hal); [by destruct wr|].
  apply wp_bind, (ddr_wp_lift_ok _ (n, RQ.mk (RQ.reqList (queue_of wr s) ++ [n]) fl (RQ.elems (queue_of wr s)))); [by destruct wr|].
  apply wp_bind, wp_modify. apply wp_bind.
  match goal with |- wp _ _ ?x => assert (x = taken wr n fl req s1) as -> by (by destruct wr) end.
  change (now s) with (now s1) at 1. eapply (queue_spec c HC M wr n fl req e s1); try done.
  { unfold lim in *; lia. }
  { intros Hw. by apply andb_true_iff in Hw as [_ Hw]. }
  intros s' [Q1 Q2 Q3 Q4 Q5 Q6 Q7 Q8 (r&Hg&HR'&first&Hfirst&Hidle)]. destruct Q4 as [Q4 Q4'].
  change (now s1) with (now s) in *. change (refreshAt s1) with (refreshAt s) in *. change (sch s1) with (sch s) in *. change (idle s1) with (idle s) in *.
  change (given s1) with (given s) in *.
  apply wp_bind, wp_get. apply wp_bind, (ddr_wp_lift_ok _ _ _ _ Hg). apply wp_bind, (ddr_wp_lift_ok _ _ _ _ Hfirst).
  destruct first.
  - rewrite <- Q4 in HR' |- *. eapply (wake_spec c HC M); [done|done|by rewrite Q2, Q4|done|]. intros h Hh [n' Hn']. apply HQ; try done.
    + by apply Inv_sch.
    + by rewrite <- Q4.
    + intros Hnone. cbn in Hnone. congruence.
  - apply wp_ret. apply HQ; try done; rewrite Q2; [done|]. intros Hnone. specialize (Hwake Hnone). specialize (Hidle eq_refl). congruence.
Qed.

(** *** Scheduling events *)
Lemma sched_spec M s n cy (Q : unit -> t -> Prop) : Inv c M s -> M + 2 ^ 21 < lim -> SchI c (now s) (sch s) -> (overflowQueue s <> [] -> idle s = false) ->
  (nextSchedEvent (sch s) = None -> idle s = true) -> (n, cy) ∈ pending (sch s) -> now s = cy ->
  (forall s', Inv c (M + 2 ^ 20) s' -> SchI c (now s) (sch s') -> (overflowQueue s' <> [] -> idle s' = false) -> (nextSchedEvent (sch s') = None -> idle s' = true) ->
     now s' = now s /\ refreshAt s' = refreshAt s -> given s' ≡ₚ given s -> Q tt s') ->
  wp (step_sched c n cy) Q s.
Proof using HC.
  intros HI HM (fl&HR&HN) Hbusy Hwake Hin Hcy HQ. unfold step_sched. apply wp_bind, wp_modify.
  pose proof (rs_pnd _ _ _ _ _ _ HR) as Hnd. destruct (rs_pd _ _ _ _ _ _ HR n cy Hin) as (_&Hlt&Hfl). pose proof (unpend_notin _ n cy Hin Hnd) as Hout.
  assert (n ∈ (pending (sch s)).*1) as Hin1 by (apply list_elem_of_fmap; by exists (n, cy)).
  set (pd := base.filter _ _) in *. destruct (lookup_lt_is_Some_2 _ _ Hlt) as [e He].
  assert (s_base e = EV_QUEUED /\ s_next e = None /\ (s_state e = QUEUED /\ nextSchedEvent (sch s) = Some n \/ s_state e = ANNULLED /\ nextSchedEvent (sch s) <> Some n)) as (E1&E2&E3).
  { destruct (decide (nextSchedEvent (sch s) = Some n)) as [Hn|Hn].
    - rewrite Hn in HN. destruct HN as (_&HN&_). rewrite He in HN. injection HN as ->. split_and!; [done..|by left].
    - destruct (rs_ev _ _ _ _ _ _ HR n e He) as [|[-> _]]; [|done|split_and!; [done..|by right]]. destruct (nextSchedEvent (sch s)); cbn; set_solver. }
  apply wp_bind, (sched_get_spec n e); [done|]. apply wp_bind, wp_assert; [by rewrite E1, orb_true_r|].
  apply wp_bind. eapply sched_update_spec; [exact He|]. cbn [sch with_sch nextSchedEvent nextSchedCycle eventFreelist scheds pending]. rewrite app_nil_r.
  unfold sched_simulate. apply wp_bind, (sched_get_spec n (mkSched (s_state e) EV_RUNNING (s_next e))); [cbn; by rewrite list_lookup_insert_eq|]. cbn [s_state].
  destruct E3 as [[E3 E4]|[E3 E4]].
  - rewrite bool_decide_eq_true_2 by done. rewrite E4 in HN, HR. destruct HN as (HN1&HN2&cy'&HN3&HN4). pose proof (pend_unique _ _ _ _ Hin HN3 Hnd) as ->.
    apply wp_bind. eapply sched_update_spec; [cbn; by rewrite list_lookup_insert_eq|]. cbn [sch with_sch nextSchedEvent nextSchedCycle eventFreelist scheds pending s_base s_next].
    rewrite app_nil_r, list_insert_insert_eq. set (sc := <[n := _]> (scheds (sch s))). set (s1 := with_sch (mkSch _ _ _ sc pd) _).
    assert (Rest (now s) sc pd (eventFreelist (sch s)) [n] fl) as HR1 by (apply Rest_set; [set_solver|]; apply Rest_unpend; [set_solver|done]).
    apply wp_bind. replace cy with (now s1) by done. eapply (tick_spec c HC M); [by apply Inv_sch, Inv_sch, Inv_sch|done|by cbn; rewrite Hcy|].
    intros z s2 [T1 [T2 T3] T4 T5] Hz. change (now s1) with (now s) in *. change (given s1) with (given s) in *. change (refreshAt s1) with (refreshAt s) in *.
    destruct (idle s2) eqn:Ei.
    + destruct Hz as [-> Hs2]. cbn [Z.eqb negb]. eapply (recycle_spec c HC n (mkSched RUNNING EV_RUNNING (s_next e)) (now s) [] fl); rewrite ?Hs2; cbn; try done.
      * set_solver.
      * unfold sc. by rewrite list_lookup_insert_eq.
      * intros fr sc' fl' HR2 _. apply HQ; try done; [by apply Inv_sch|by exists fl'|]. intros Ho. by specialize (T5 Ho).
    + destruct Hz as (Hz1&Hz2&Hz3&Hs2). rewrite (proj2 (Z.eqb_neq _ _) Hz1). cbn [negb]. apply wp_bind. unfold sched_requeue.
      apply wp_bind, (sched_get_spec n (mkSched RUNNING EV_RUNNING (s_next e))); [rewrite Hs2; cbn; unfold sc; by rewrite list_lookup_insert_eq|].
      apply wp_bind, wp_assert; [done|]. eapply sched_update_spec; [rewrite Hs2; cbn; unfold sc; by rewrite list_lookup_insert_eq|]. cbn [s_state s_base s_next].
      eapply sched_update_spec; [rewrite Hs2; cbn; unfold sc; by rewrite !list_lookup_insert_eq by (by rewrite ?length_insert)|]. cbn [s_state s_base s_next].
      rewrite Hs2. cbn. rewrite app_nil_r. apply HQ; try done.
      * by apply Inv_sch, Inv_sch.
      * exists fl. cbn. rewrite E4. cbn. rewrite list_insert_insert_eq. split.
        -- apply Rest_set; [set_solver|]. apply Rest_pend; try done; [set_solver|unfold sc; by rewrite length_insert].
        -- rewrite E2. split_and!; [lia|lia|unfold sc; by rewrite list_lookup_insert_eq by (by rewrite length_insert)|]. exists z. split; [set_solver|done].
      * intros Hnone. cbn in Hnone. congruence.
  - rewrite bool_decide_eq_false_2 by (rewrite E3; done). apply wp_bind, wp_assert; [by rewrite E3|].
    assert (n ∉ option_list (nextSchedEvent (sch s))) as Hnh by (destruct (nextSchedEvent (sch s)); cbn; set_solver).
    eapply (recycle_spec c HC n (mkSched (s_state e) EV_RUNNING (s_next e)) (now s) (option_list (nextSchedEvent (sch s))) fl); cbn; try done.
    + apply Rest_set; [set_solver|]. apply Rest_unpend; [set_solver|]. by apply Rest_open.
    + by rewrite list_lookup_insert_eq.
    + intros fr sc' fl' HR2 Hsame. apply HQ; try done; [by eapply Inv_weaken; [apply Inv_sch, Inv_sch, Inv_sch; exact HI|lia]|].
      exists fl'. cbn. split; [done|]. destruct (nextSchedEvent (sch s)) as [n0|]; [|done]. destruct HN as (H1&H2&cy'&H3&H4). assert (n0 <> n) as Hne by congruence.
      split_and!; [lia|lia|rewrite Hsame by done; by rewrite list_lookup_insert_ne|]. exists cy'. split; [|done]. apply list_elem_of_filter. split; [|done]. congruence.
Qed.

(** *** All events *)
Definition bound : Z := horizon + 2 ^ 20.

Lemma refInterval_range : 0 <= refInterval c < 2 ^ 32.
Proof. unfold refInterval. pose proof (u32_range (memToSysCycle c (tREFI (tech c)))). unfold two32 in *. lia. Qed.

Lemma ddr_step_spec o s : Full bound s -> op_ok s o = true -> NoDup (acc_of o ++ given s).*1 ->
  wp (step c o) (fun _ s' => Full bound s' /\ given s' ≡ₚ acc_of o ++ given s) s.
Proof using HC.
  intros [F1 F2 F3 F4 F5] Hok Hnd. unfold op_ok in Hok.
  apply andb_true_iff in Hok as [Hok Hop]. apply andb_true_iff in Hok as [Hok Hle%Z.leb_le]. apply andb_true_iff in Hok as [Hok Hpd].
  apply andb_true_iff in Hok as [Hok Hlt%Z.ltb_lt]. apply andb_true_iff in Hok as [Hbel Hnow%Z.leb_le].
  set (cy := op_cycle s o) in *. pose proof (Inv_at bound cy s F1 Hbel ltac:(lia)) as HI.
  assert (forall n z, (n, z) ∈ pending (sch s) -> cy <= z) as Hpd'.
  { intros n z Hin. rewrite forallb_forall in Hpd. apply list_elem_of_In in Hin. by apply Z.leb_le, (Hpd (n, z)). }
  pose proof (SchI_at _ _ _ F2 Hpd') as HS. set (s1 := with_now cy s) in *. destruct (i_now _ _ _ F1) as [Hn0 _].
  unfold step. apply wp_bind, wp_get. apply wp_bind, wp_modify. fold cy. fold s1. destruct o as [e a w cy0|n cy0|].
  - apply wp_bind, wp_modify. replace cy0 with (now s1) by done. eapply (ddr_enqueue_spec horizon s1 e a w); try done.
    + rewrite waiting_unanswered. intros He. cbn in Hnd. apply list.NoDup_cons in Hnd as [Hnd _]. apply Hnd. unfold given. rewrite fmap_app. apply elem_of_app. by right.
    + intros s' I1 I2 I3 I4 [I5 I6] I7. split; [|by cbn]. split; try done; [by eapply Inv_weaken; [exact I1|unfold bound; lia]|by rewrite I5|]. rewrite I5, I6. split; [exact Hle|apply F5].
  - apply bool_decide_eq_true in Hop. eapply (sched_spec horizon s1); try done.
    intros s' I1 I2 I3 I4 [I5 I6] I7. split; [|done]. split; try done; [by rewrite I5|]. rewrite I5, I6. split; [exact Hle|apply F5].
  - unfold refresh_simulate. apply wp_bind, wp_get.
    destruct (rwp_elim _ _ (refresh_dev c HC horizon cy (dev s1) (i_dev _ _ _ HI) (i_devB _ _ _ HI) ltac:(apply (i_now _ _ _ HI)) ltac:(unfold horizon, lim; lia))) as (d&Hd&R1&R2&R3&R4).
    apply wp_bind, (ddr_wp_lift_ok _ _ _ _ Hd). apply wp_bind, wp_modify. apply wp_modify. split; [|done].
    pose proof refInterval_range as Hri. assert (cy = refreshAt s) as Hcy by done.
    rewrite u64_small by (unfold two64, horizon in *; lia). split; try done.
    + destruct HI as [I1 I2 I3 I4 I5 I6 I7 I8 I9]. split; try done.
      * cbn. cbn in I1. unfold bound. lia.
      * eapply (Inv_weaken c (horizon + 2 ^ 17) bound (with_dev d s1)); [|unfold bound; lia]. split; try done; [cbn in *; lia|]. intros wr. eapply QI_ext; [|apply I4]. intros i j. cbn. by rewrite (bqs_bq _ _ R3).
      * intros wr. eapply QI_ext; [|apply I4]. intros i j. cbn. by rewrite (bqs_bq _ _ R3).
    + cbn. unfold horizon, slim in *. lia.
Qed.

Lemma ddr_run_spec l s : Full bound s -> admissible c l s = true -> NoDup (accs l ++ given s).*1 ->
  wp (run c l) (fun _ s' => Full bound s' /\ given s' ≡ₚ accs l ++ given s) s.
Proof using HC.
  revert s. induction l as [|o l IH]; intros s HF Ha Hnd; [by apply wp_ret|]. cbn in Ha. apply andb_true_iff in Ha as [Hok Ha].
  change (accs (o :: l)) with (acc_of o ++ accs l) in *.
  assert (acc_of o ++ accs l ++ given s ≡ₚ accs l ++ acc_of o ++ given s) as Hp by solve_Permutation. rewrite <- app_assoc, Hp in Hnd.
  destruct (wp_elim _ _ _ (ddr_step_spec o s HF Hok ltac:(rewrite fmap_app in Hnd; by apply list.NoDup_app in Hnd as (_&_&Hnd)))) as (u&s'&Hs&HF'&Hg).
  rewrite Hs in Ha. cbn [run]. apply wp_bind. unfold wp at 1. rewrite Hs. eapply wp_mono; [apply IH; [done|done|by rewrite Hg]|].
  intros _ s2 [H1 H2]. split; [done|]. rewrite H2, Hg, <- app_assoc. by rewrite Hp.
Qed.
End Ops.

(** ** The constructor *)
Definition args_ok (a : Args) : bool :=
  (1 <=? a_lineSize a) && (a_lineSize a <=? 2 ^ 16) && (1 <=? a_ranks a) && (a_ranks a <? 2 ^ 31) && (1 <=? a_banks a) && (a_banks a <? 2 ^ 31) &&
  (0 <=? a_sysFreqMHz a) && (a_sysFreqMHz a <=? 8000) && (0 <=? a_controllerSysLatency a) && (a_controllerSysLatency a <? 2 ^ 20) &&
  (1 <=? a_queueDepth a) && (a_queueDepth a <? 2 ^ 30).

Lemma ilog2_mask v : 1 <= v < 2 ^ 31 -> 0 <= field_mask (ilog2_32 v) < v.
Proof.
  intros Hv. unfold ilog2_32, builtin_clz, field_mask. rewrite (proj2 (Z.eqb_neq v 0)) by lia. cbn [negb].
  replace (31 - (32 - 1 - Z.log2 v)) with (Z.log2 v) by lia. rewrite Z.shiftl_1_l. destruct (Z.log2_spec v ltac:(lia)) as [H1 H2].
  pose proof (Z.log2_nonneg v). pose proof (Z.pow_pos_nonneg 2 (Z.log2 v) ltac:(lia) ltac:(lia)). rewrite u32_small by (unfold two32; lia). lia.
Qed.

Lemma map_tokens_masks cb rb bb ts m m' : map_tokens cb rb bb ts m = Ok m' ->
  (rankMask m' = rankMask m \/ rankMask m' = field_mask rb) /\ (bankMask m' = bankMask m \/ bankMask m' = field_mask bb).
Proof.
  revert m. induction ts as [|tk ts IH]; intros m; cbn [map_tokens]; [intros [= ->]; by split; left|].
  destruct (map_token cb rb bb tk m) as [m1|] eqn:E; [|done]. cbn [mbind res_bind]. intros H. specialize (IH m1 H).
  unfold map_token in E. repeat case_match; try done; destruct (rassert _ _); try done; injection E as <-; cbn in IH; tauto.
Qed.

Lemma scale_tBL_ok ls bl : 1 <= ls <= 2 ^ 16 -> scale_tBL ls 4 = Ok bl -> param bl.
Proof.
  intros Hl. unfold scale_tBL, param. case_match eqn:E1.
  - apply andb_true_iff in E1 as [_ E1%Z.leb_le]. intros [= <-]. rewrite u32_small by (unfold two32; lia).
    pose proof (Z.div_le_lower_bound (ls * 4) 64 4 ltac:(lia) ltac:(lia)). pose proof (Z.div_le_upper_bound (ls * 4) 64 (2 ^ 16) ltac:(lia) ltac:(lia)). lia.
  - case_match; [|done]. intros [= <-]. change (4 / 2) with 2. lia.
Qed.

Lemma initTech_ok tech ls th : 1 <= ls <= 2 ^ 16 -> initTech tech ls = Ok th ->
  Forall param [tBL th; tCL th; tRCD th; tRTP th; tRP th; tRRD th; tRAS th; tFAW th; tWTR th; tWR th; tRFC th; tREFI th] /\
  tRP th <= tRFC th /\ 2 ^ 19 <= memFreqKHz th < 2 ^ 20.
Proof.
  intros Hl. unfold initTech.
  assert (freq_of (ddiv (d_of_Z 3) (d_of_Z 2)) = Ok 666666) as -> by (vm_compute; reflexivity).
  assert (freq_of (ddiv (d_of_Z 15) (d_of_Z 8)) = Ok 533333) as -> by (vm_compute; reflexivity).
  assert (dlt (d_of_Z 0) (ddiv (d_of_Z 3) (d_of_Z 2)) = true) as -> by (vm_compute; reflexivity).
  assert (dlt (d_of_Z 0) (ddiv (d_of_Z 15) (d_of_Z 8)) = true) as -> by (vm_compute; reflexivity).
  repeat (case_match; [|]); cbn; try done; destruct (scale_tBL ls 4) as [bl|] eqn:Eb; cbn; try done; intros [= <-]; cbn;
    pose proof (scale_tBL_ok _ _ Hl Eb); (split; [|lia]);
    repeat (apply Forall_cons; [first [done|unfold param; lia]|]); apply Forall_nil.
Qed.

Lemma init_cfg lastW a c s : args_ok a = true -> init lastW a = Ok (c, s) -> CfgOK c.
Proof.
  unfold args_ok. intros Ha. repeat (apply andb_true_iff in Ha as [Ha ?]). repeat match goal with
    | H : (_ <=? _) = true |- _ => apply Z.leb_le in H | H : (_ <? _) = true |- _ => apply Z.ltb_lt in H end.
  unfold init. destruct (initTech (a_tech a) (a_lineSize a)) as [th|] eqn:Et; [|done]. cbn [mbind res_bind].
  destruct (initTech_ok _ (a_lineSize a) _ ltac:(lia) Et) as (T1&T2&T3). destruct (Z.leb_spec (u32 (1000 * a_sysFreqMHz a) / 2) (memFreqKHz th)) as [|Hf]; [done|]. cbn [rassert negb mbind res_bind].
  destruct (addr_map a) as [m|] eqn:Em; [|done]. cbn [mbind res_bind]. intros [= <- _].
  rewrite (u32_small (1000 * _)) in * by (unfold two32; lia). set (sf := 1000 * a_sysFreqMHz a) in *.
  pose proof (Z.div_mod sf 2 ltac:(lia)). pose proof (Z.mod_pos_bound sf 2 ltac:(lia)).
  assert (2 ^ 19 <= memFreqKHz th < 2 ^ 20 /\ 2 * memFreqKHz th + 2 <= sf < 2 ^ 23) as HF by (unfold sf in *; lia).
  unfold addr_map in Em. destruct (rassert _ _); [|done]. cbn [mbind res_bind] in Em. apply map_tokens_masks in Em as [Em1 Em2]. cbn in Em1, Em2.
  pose proof (ilog2_mask (a_ranks a) ltac:(lia)). pose proof (ilog2_mask (a_banks a) ltac:(lia)).
  split; cbn; try done; try lia.
  rewrite !list.Forall_cons in T1. unfold param in T1. rewrite (u32_small (_ - 1)) by (unfold two32; lia).
  assert (0 <= memToSys (memFreqKHz th) sf (tCL th + tBL th - 1) < 2 ^ 24) as Hr.
  { rewrite (memToSys_eq _ _ HF) by (unfold lim; lia). split; [apply Z.div_pos; nia|]. apply Z.div_lt_upper_bound; nia. }
  rewrite (u32_small (_ + memToSys _ _ _)) by (unfold two32; lia). rewrite u32_small by (unfold two32; lia). unfold memToSysCycle, memFreq. cbn. lia.
Qed.

(** The state of the constructor. *)
Definition start_state (c : Config) (lastW : bool) : t :=
  let q := RQ.init (Z.to_nat (queueDepth c)) in
  mk (mkDev (tCL (tech c) + tBL (tech c) + 1) lastW (replicate (Z.to_nat (ranksPerChannel c)) (replicate (Z.to_nat (banksPerRank c)) zero_bank))
        (replicate (Z.to_nat (ranksPerChannel c)) (AW.init 4)) [])
    q q [] (mkSch None noEvent None [] []) ∅ [] (mkProf 0 0 0 0 0 0 (replicate (Z.to_nat NUMBINS) 0)) 0 0.

Lemma init_start lastW a c s : args_ok a = true -> init lastW a = Ok (c, s) -> s = start_state c lastW.
Proof.
  intros Ha Hi. pose proof (init_cfg _ _ _ _ Ha Hi) as HC. pose proof (params_ok c HC) as HP. unfold Params, param in HP. revert Hi.
  unfold init. destruct (initTech (a_tech a) (a_lineSize a)) as [th|]; [|done]. cbn [mbind res_bind].
  destruct (rassert _ _); [|done]. cbn [mbind res_bind]. destruct (addr_map a) as [m|]; [|done]. cbn [mbind res_bind].
  set (cfg := mkConfig _ _ _ _ _ _ _ _ _ _ _ _ _ _ _ _). intros [= Hc <-]. unfold start_state. rewrite <- Hc in HP |- *. cbn in *. by rewrite u32_small by (unfold two32; lia).
Qed.

Lemma start_bank c lastW i j b : bank_at (dev (start_state c lastW)) i j = Some b -> b = zero_bank.
Proof.
  unfold bank_at. cbn. destruct (replicate _ _ !! i) as [rb|] eqn:E; [|done]. cbn. apply lookup_replicate in E as [-> _]. by intros [-> _]%lookup_replicate.
Qed.

Lemma start_full c lastW : CfgOK c -> Full c bound (start_state c lastW).
Proof.
  intros HC. pose proof (params_ok c HC) as HP. unfold Params, param in HP. pose proof (ok_depth c HC).
  assert (forall i j wr, bqs wr (dev (start_state c lastW)) i j = []) as Hbq.
  { intros i j wr. unfold bqs. destruct (bank_at _ i j) as [b|] eqn:E; [|done]. apply start_bank in E as ->. by destruct wr. }
  assert (forall wr, queue_of wr (start_state c lastW) = RQ.init (Z.to_nat (queueDepth c))) as Hq by (by intros []).
  split; [split| | | |]; try done; try (cbn; unfold slim; lia).
  - split; try done; cbn.
    + split; cbn; [by rewrite length_replicate| |by rewrite length_replicate]. apply Forall_replicate. by rewrite length_replicate.
    + intros i w [-> _]%lookup_replicate. split; [by split; cbn; [|lia]|apply Pool_nil].
    + intros i j b ->%start_bank. unfold BankI. cbn. split_and!; [lia|done|done].
  - split_and!; [cbn; unfold bound, horizon; lia| |].
    + intros i j b ->%start_bank. unfold BankB, bound, horizon. cbn. lia.
    + intros i w [-> _]%lookup_replicate. cbn. unfold bound, horizon. repeat constructor; lia.
  - intros wr. rewrite Hq. split; cbn; [by rewrite length_replicate|rewrite length_replicate; lia|..].
    + intros n Hn. by apply elem_of_nil in Hn.
    + intros n i j Hn. rewrite Hbq in Hn. by apply elem_of_nil in Hn.
    + intros i j. rewrite Hbq. apply NoDup_nil_2.
  - intros wr. rewrite Hq. apply Forall_nil.
  - split; [apply NoDup_nil_2|]. intros e w Hn. by apply elem_of_nil in Hn.
  - exists []. cbn. split; [|done]. split; try done; try (by intros ? ? ?%elem_of_nil). apply NoDup_nil_2. apply NoDup_nil_2.
Qed.

(** ** The theorems *)
Section Thms.
Context (lastW : bool) (a : Args) (c : Config) (s : t) (ops : list op).
Context (Ha : args_ok a = true) (Hi : init lastW a = Ok (c, s)) (Hops : admissible c ops s = true) (Hevs : NoDup (accs ops).*1).

Lemma run_ok : exists s', run c ops s = Ok (tt, s') /\ Full c bound s' /\ given s' ≡ₚ accs ops.
Proof using Ha Hi Hops Hevs.
  pose proof (init_cfg _ _ _ _ Ha Hi) as HC. pose proof (init_start _ _ _ _ Ha Hi) as ->.
  assert (given (start_state c lastW) = []) as Hg by done.
  destruct (wp_elim _ _ _ (ddr_run_spec c HC ops _ (start_full c lastW HC) Hops ltac:(by rewrite Hg, app_nil_r))) as ([]&s'&Hr&HF&HG).
  exists s'. split_and!; [done|done|]. by rewrite HG, Hg, app_nil_r.
Qed.

Lemma idle_reqs s' : Full c bound s' -> idle s' = true -> reqs s' = [].
Proof.
  intros HF Hid. pose proof (f_busy _ _ _ HF) as Hb. rewrite Hid in Hb. destruct (overflowQueue s') eqn:Eo; [|by specialize (Hb ltac:(done))].
  unfold idle in Hid. apply andb_true_iff in Hid as [H1%empty_nil H2%empty_nil]. unfold reqs, live. by rewrite H1, H2, Eo.
Qed.
End Thms.

(** C16: the controller fails no assertion (the cycle of a tick, the states of the scheduling
    and access events, the order of the commands of a bank, the window of activations, the
    ranges of ranks and banks) on any sequence of access, scheduling and refresh events that
    the contention simulator may run, in the order of their cycles; and afterwards, if a
    request waits, in a queue or in the overflow queue, then a scheduling event is queued in
    the simulator, at a cycle that translates back to that of the next tick: no wakeup is lost. *)
Theorem ddr_safe lastW a c s ops : args_ok a = true -> init lastW a = Ok (c, s) -> admissible c ops s = true -> NoDup (accs ops).*1 ->
  exists s', run c ops s = Ok (tt, s') /\
    (reqs s' <> [] -> exists n cy, nextSchedEvent (sch s') = Some n /\ scheds (sch s') !! n = Some (mkSched QUEUED EV_QUEUED None) /\
       (n, cy) ∈ pending (sch s') /\ sysToMemCycle c cy = nextSchedCycle (sch s')).
Proof.
  intros Ha Hi Hops Hevs. destruct (run_ok lastW a c s ops Ha Hi Hops Hevs) as (s'&Hr&HF&_). exists s'. split; [done|]. intros Hn.
  destruct (nextSchedEvent (sch s')) as [n|] eqn:En; [|by destruct Hn; eapply idle_reqs, (f_wake _ _ _ HF)].
  destruct (f_sch _ _ _ HF) as (fl&_&HN). rewrite En in HN. destruct HN as (_&H1&cy&H2&H3). by exists n, cy.
Qed.

(** C17: the commands of the controller obey the timing constraints of its devices: bursts do
    not overlap on the data bus, a read follows a write by tWTR, and in each bank tRCD, tRTP,
    tWR, tRAS, tRP, tRRD and tRFC separate activations, accesses, precharges and refreshes;
    and an access without activation finds its row open. *)
Theorem ddr_timing lastW a c s ops : args_ok a = true -> init lastW a = Ok (c, s) -> admissible c ops s = true -> NoDup (accs ops).*1 ->
  exists s', run c ops s = Ok (tt, s') /\ valid (tech c) (log (dev s')).
Proof.
  intros Ha Hi Hops Hevs. destruct (run_ok lastW a c s ops Ha Hi Hops Hevs) as (s'&Hr&HF&_). exists s'. split; [done|].
  exact (d_log _ _ (i_dev _ _ _ (f_inv _ _ _ HF))).
Qed.

(** C18: of any five activations of a rank, two are at least tFAW cycles apart: no window of
    tFAW cycles holds more than four. *)
Theorem ddr_faw lastW a c s ops rk : args_ok a = true -> init lastW a = Ok (c, s) -> admissible c ops s = true -> NoDup (accs ops).*1 ->
  0 <= rk < ranksPerChannel c ->
  exists s', run c ops s = Ok (tt, s') /\
    forall l, l ⊆+ rank_acts rk (log (dev s')) -> length l = 5%nat -> exists p q, p ∈ l /\ q ∈ l /\ p + tFAW (tech c) <= q.
Proof.
  intros Ha Hi Hops Hevs Hrk. destruct (run_ok lastW a c s ops Ha Hi Hops Hevs) as (s'&Hr&HF&_). exists s'. split; [done|]. intros l Hl Hlen.
  pose proof (i_dev _ _ _ (f_inv _ _ _ HF)) as HD. destruct (lookup_lt_is_Some_2 (rankActWindows (dev s')) (Z.to_nat rk)) as [w Hw].
  { rewrite (sh_wins _ _ (d_shape _ _ HD)). lia. }
  destruct (d_wins _ _ HD _ _ Hw) as [[Hw1 _] HP]. rewrite Z2Nat.id in HP by lia. eapply Pool_apart; [exact HP|done|]. rewrite Hw1, Hlen. lia.
Qed.

(** C19: every access that was simulated either got one response or still waits for it, and
    none of a response is earlier than the cycle of the access: the weave phase never makes
    a memory access faster than the bound phase assumed. *)
Theorem ddr_latency lastW a c s ops : args_ok a = true -> init lastW a = Ok (c, s) -> admissible c ops s = true -> NoDup (accs ops).*1 ->
  exists s', run c ops s = Ok (tt, s') /\
    accs ops ≡ₚ ((fun p => (r_ev p, r_sim p)) <$> resps s') ++ unanswered s' /\
    forall p, p ∈ resps s' -> r_sim p <= r_cycle p.
Proof.
  intros Ha Hi Hops Hevs. destruct (run_ok lastW a c s ops Ha Hi Hops Hevs) as (s'&Hr&HF&Hg). exists s'. split_and!; [done|by rewrite <- Hg|].
  pose proof (i_resps _ _ _ (f_inv _ _ _ HF)) as HR. by rewrite list.Forall_forall in HR.
Qed.

(** ** Witnesses *)
Definition demo_args : Args := mkArgs 64 8192 2 8 2400 "DDR3-1333-CL10" "rank:col:bank" 20 2 4 true true 0.
Definition demo_ops : list op :=
  [Refresh; Acc 0 0 false 500; Acc 1 1 false 501; Acc 2 2 true 502; Acc 3 65536 false 504; Acc 4 16384 false 505; Acc 5 3 true 506;
   Sched 0 534; Sched 0 534; Sched 0 534; Sched 0 549; Acc 6 4 false 560; Sched 0 563; Acc 7 5 false 600; Sched 0 657; Sched 0 657;
   Sched 0 671; Sched 0 671; Sched 0 685; Sched 0 693; Sched 0 707; Sched 0 761].

Lemma demo_init : exists c s, init false demo_args = Ok (c, s) /\ admissible c demo_ops s = true /\ ranksPerChannel c = 2.
Proof.
  assert (match init false demo_args with Ok (c, s) => admissible c demo_ops s && (ranksPerChannel c =? 2) | Err _ => false end = true) as H by (vm_compute; reflexivity).
  destruct (init false demo_args) as [[c s]|]; [|done]. apply andb_true_iff in H as [H1 H2%Z.eqb_eq]. by exists c, s.
Qed.

Lemma demo_evs : NoDup (accs demo_ops).*1.
Proof. refine (bool_decide_eq_true_1 _ _). vm_compute. reflexivity. Qed.

Lemma ddr_safe_witness : exists c s s', init false demo_args = Ok (c, s) /\ run c demo_ops s = Ok (tt, s').
Proof.
  destruct demo_init as (c&s&Hi&Ha&_). destruct (ddr_safe false demo_args c s demo_ops ltac:(vm_compute; reflexivity) Hi Ha demo_evs) as (s'&Hr&_).
  exists c, s, s'. split; [exact Hi|exact Hr].
Defined.

Lemma ddr_timing_witness : exists c s s', init false demo_args = Ok (c, s) /\ run c demo_ops s = Ok (tt, s') /\ valid (tech c) (log (dev s')).
Proof.
  destruct demo_init as (c&s&Hi&Ha&_). destruct (ddr_timing false demo_args c s demo_ops ltac:(vm_compute; reflexivity) Hi Ha demo_evs) as (s'&Hr&Hv).
  exists c, s, s'. split; [exact Hi|]. split; [exact Hr|exact Hv].
Defined.

Lemma ddr_faw_witness : exists c s s', init false demo_args = Ok (c, s) /\ run c demo_ops s = Ok (tt, s') /\
  forall l, l ⊆+ rank_acts 0 (log (dev s')) -> length l = 5%nat -> exists p q, p ∈ l /\ q ∈ l /\ p + tFAW (tech c) <= q.
Proof.
  destruct demo_init as (c&s&Hi&Ha&Hrk). destruct (ddr_faw false demo_args c s demo_ops 0 ltac:(vm_compute; reflexivity) Hi Ha demo_evs ltac:(rewrite Hrk; lia)) as (s'&Hr&Hv).
  exists c, s, s'. split; [exact Hi|]. split; [exact Hr|exact Hv].
Defined.

Lemma ddr_latency_witness : exists c s s', init false demo_args = Ok (c, s) /\ run c demo_ops s = Ok (tt, s') /\ forall p, p ∈ resps s' -> r_sim p <= r_cycle p.
Proof.
  destruct demo_init as (c&s&Hi&Ha&_). destruct (ddr_latency false demo_args c s demo_ops ltac:(vm_compute; reflexivity) Hi Ha demo_evs) as (s'&Hr&_&Hv).
  exists c, s, s'. split; [exact Hi|]. split; [exact Hr|exact Hv].
Defined.

(** ** What the model shows of the code *)
Definition demo_run : option t :=
  match init false demo_args with
  | Ok (c, s) => match run c demo_ops s with Ok (_, s') => Some s' | Err _ => None end
  | Err _ => None
  end.

(** An activation that is older than all but the oldest of the window leaves the window out of
    order: the next activation is held back by the newest one, at 170, and not by 140. *)
Example window_out_of_order : exists w, AW.addActivation 140 (AW.mk [100; 150; 160; 170] 0) = Ok w /\ AW.minActCycle w = Ok 170 /\ 140 ∈ AW.buf w.
Proof. eexists. split; [vm_compute; reflexivity|]. split; [vm_compute; reflexivity|]. vm_compute. set_solver. Qed.

(** Activations of two banks of a rank are not kept tRRD apart. *)
Example rrd_not_kept : exists s, demo_run = Some s /\ Cmd 0 0 0 (Some 139) 149 163 false ∈ log (dev s) /\ Cmd 0 1 0 (Some 140) 153 167 false ∈ log (dev s).
Proof.
  assert (match demo_run with
          | Some s => bool_decide (Cmd 0 0 0 (Some 139) 149 163 false ∈ log (dev s)) && bool_decide (Cmd 0 1 0 (Some 140) 153 167 false ∈ log (dev s))
          | None => false end = true) as H by (vm_compute; reflexivity).
  destruct demo_run as [s|]; [|done]. apply andb_true_iff in H as [H1%bool_decide_eq_true H2%bool_decide_eq_true]. exists s. split; [reflexivity|]. split; [exact H1|exact H2].
Qed.

(** A new request overtakes the one that waits in the overflow queue. *)
Example overflow_overtaken : exists s, demo_run = Some s /\ (4%nat, 505) ∈ unanswered s /\ (6%nat, 560) ∈ (fun p => (r_ev p, r_sim p)) <$> resps s.
Proof.
  assert (match demo_run with
          | Some s => bool_decide ((4%nat, 505) ∈ unanswered s) && bool_decide ((6%nat, 560) ∈ (fun p => (r_ev p, r_sim p)) <$> resps s)
          | None => false end = true) as H by (vm_compute; reflexivity).
  destruct demo_run as [s|]; [|done]. apply andb_true_iff in H as [H1%bool_decide_eq_true H2%bool_decide_eq_true]. exists s. split; [reflexivity|]. split; [exact H1|exact H2].
Qed.
End DDRP.
