(* ===== verification/ReplPolicies.v ===== *)
(** * Replacement policies (src/src/repl_policies.h)

    The [ReplPolicy] interface and its implementations: LRU (sharers-aware or
    not), tree LRU, NRU, LFU and the violation-profiling wrapper.  Each policy
    is a record of its fields; [update], [replaced] and [rankCands] return the
    new record or the failure of an assertion or of an index out of range. *)

From S2P Require Import Prelude Bithacks MemHier.

(** What a policy asks of its coherence controller ([CC::numSharers] and
    [CC::isValid]). *)
Record CCView := mkView {
  cc_numSharers : nat -> Z;
  cc_isValid : nat -> bool
}.

(** ** The interface

    [rankCands] gets the candidates as the list of line ids that the iterators
    of [SetAssocCands] or [ZCands] produce. *)
Class ReplPolicy (R : Type) := {
  rp_update : R -> nat -> MemReq -> res R;
  rp_replaced : R -> nat -> res R;
  rp_rankCands : R -> CCView -> MemReq -> list nat -> res (nat * R)
}.

(** What a cache array relies on.  [rp_wf n k r]: [r] serves [n] lines and up to
    [k] candidates; [rp_idle] also says that no ranking is pending, i.e. every
    [rankCands] was followed by a [replaced]. *)
Class ReplPolicyLaws (R : Type) `{ReplPolicy R} := {
  rp_wf : nat -> nat -> R -> Prop;
  rp_idle : nat -> nat -> R -> Prop;
  rp_idle_wf : forall n k r, rp_idle n k r -> rp_wf n k r;
  rp_update_ok : forall n k r id req,
    rp_wf n k r -> (id < n)%nat -> IsGet (type req) = true ->
    rwp (rp_update r id req) (fun r' => rp_wf n k r' /\ (rp_idle n k r -> rp_idle n k r'));
  rp_replaced_ok : forall n k r id,
    rp_wf n k r -> (id < n)%nat -> rwp (rp_replaced r id) (fun r' => rp_idle n k r');
  rp_rankCands_ok : forall n k r cc req cands,
    rp_idle n k r -> cands <> [] -> (length cands <= k)%nat ->
    Forall (fun id => (id < n)%nat) cands ->
    rwp (rp_rankCands r cc req cands) (fun '(v, r') => v ∈ cands /\ rp_wf n k r')
}.

(** ** LRU *)
Module LRU.

(** [LRUReplPolicy<sharersAware>]. *)
Record t := mk {
  sharersAware : bool;
  timestamp : Z;
  array : list Z
}.

Definition init (sharersAware : bool) (numLines : nat) : t :=
  mk sharersAware 1 (replicate numLines 0).

Definition update (r : t) (id : nat) (_ : MemReq) : res t :=
  a ← arr_set (array r) id (timestamp r);
  Ok (mk (sharersAware r) (u64 (timestamp r + 1)) a).

Definition replaced (r : t) (id : nat) : res t :=
  a ← arr_set (array r) id 0;
  Ok (mk (sharersAware r) (timestamp r) a).

Definition score (r : t) (cc : CCView) (id : nat) : res Z :=
  x ← arr_get (array r) id;
  Ok (u64 ((if sharersAware r then cc_numSharers cc id else 0) * timestamp r
           + x * (if cc_isValid cc id then 1 else 0))).

(** The loop of [rank]: the score is stored in a [uint32_t], which keeps its low 32 bits. *)
Fixpoint rank_loop (r : t) (cc : CCView) (cands : list nat)
    (bestCand : option nat) (bestScore : Z) : res (option nat) :=
  match cands with
  | [] => Ok bestCand
  | c :: cands' =>
    sc ← score r cc c;
    let s := u32 sc in
    rank_loop r cc cands' (if s <? bestScore then Some c else bestCand) (MIN s bestScore)
  end.

Definition rank (r : t) (cc : CCView) (_ : MemReq) (cands : list nat) : res (nat * t) :=
  best ← rank_loop r cc cands None (two64 - 1);
  b ← from_opt best "bestCand == -1";
  Ok (b, r).

End LRU.

#[export] Instance LRU_ReplPolicy : ReplPolicy LRU.t := {
  rp_update := LRU.update;
  rp_replaced := LRU.replaced;
  rp_rankCands := LRU.rank
}.

(** ** Tree LRU *)
Module TreeLRU.

(** [TreeLRUReplPolicy] extends [LRUReplPolicy<true>]. *)
Record t := mk {
  base : LRU.t;
  candArray : list nat;
  numCands : nat;
  candIdx : nat
}.

Definition init (numLines numCands : nat) : res t :=
  _ ← rassert (Z.land (Z.of_nat numCands) (u32 (Z.of_nat numCands - 1)) =? 0)
        "Tree LRU needs a power of 2 candidates";
  Ok (mk (LRU.init true numLines) (replicate numCands 0%nat) numCands 0).

Definition recordCandidate (r : t) (id : nat) : res t :=
  a ← arr_set (candArray r) (candIdx r) id;
  Ok (mk (base r) a (numCands r) (Nat.succ (candIdx r))).

(** [t = MAX(t, array[candArray[i]])] over [i] in [lo, lo + len). *)
Fixpoint max_ts (r : t) (lo len : nat) (acc : Z) : res Z :=
  match len with
  | O => Ok acc
  | Datatypes.S len' =>
    c ← arr_get (candArray r) lo;
    x ← arr_get (LRU.array (base r)) c;
    max_ts r (Nat.succ lo) len' (MAX acc x)
  end.

Fixpoint best_loop (fuel : nat) (r : t) (start end_ : nat) : res nat :=
  match fuel with
  | O => Err OutOfFuel
  | Datatypes.S fuel' =>
    if (1 <? end_ - start)%nat then
      let pivot := (start + (end_ - start) / 2)%nat in
      t1 ← max_ts r start (pivot - start) 0;
      t2 ← max_ts r pivot (end_ - pivot) 0;
      if t1 >? t2 then best_loop fuel' r pivot end_ else best_loop fuel' r start pivot
    else arr_get (candArray r) start
  end.

Definition getBestCandidate (r : t) : res nat :=
  _ ← rassert (candIdx r =? numCands r)%nat "candIdx == numCands";
  best_loop (Nat.succ (numCands r)) r 0 (numCands r).

Definition update (r : t) (id : nat) (req : MemReq) : res t :=
  b ← LRU.update (base r) id req;
  Ok (mk b (candArray r) (numCands r) (candIdx r)).

Definition replaced (r : t) (id : nat) : res t :=
  b ← LRU.replaced (base r) id;
  Ok (mk b (candArray r) (numCands r) 0).

(** [rankCands] is bound in the base class, to the base class's [rank]. *)
Definition rankCands (r : t) (cc : CCView) (req : MemReq) (cands : list nat) : res (nat * t) :=
  '(v, b) ← LRU.rank (base r) cc req cands;
  Ok (v, mk b (candArray r) (numCands r) (candIdx r)).

End TreeLRU.

#[export] Instance TreeLRU_ReplPolicy : ReplPolicy TreeLRU.t := {
  rp_update := TreeLRU.update;
  rp_replaced := TreeLRU.replaced;
  rp_rankCands := TreeLRU.rankCands
}.

(** ** The legacy interface: [startReplacement], [recordCandidate] per
    candidate, then [getBestCandidate] *)
Fixpoint record_all {R} (recordCandidate : R -> nat -> res R) (r : R) (cands : list nat) : res R :=
  match cands with
  | [] => Ok r
  | c :: cands' => r' ← recordCandidate r c; record_all recordCandidate r' cands'
  end.
Definition legacy_rank {R} (startReplacement : R -> MemReq -> res R)
    (recordCandidate : R -> nat -> res R) (getBestCandidate : R -> res nat)
    (r : R) (req : MemReq) (cands : list nat) : res (nat * R) :=
  r ← startReplacement r req;
  r ← record_all recordCandidate r cands;
  v ← getBestCandidate r;
  Ok (v, r).

(** ** NRU *)
Module NRU.

(** [NRUReplPolicy]: 2-bit ages. *)
Record t := mk {
  array : list Z;
  candArray : list nat;
  numLines : nat;
  numCands : nat;
  youngLines : Z;
  candVal : Z;
  candIdx : nat
}.

Definition init (numLines numCands : nat) : t :=
  mk (replicate numLines 0) (replicate numCands 0%nat) numLines numCands 0 (Z.shiftl 1 20) 0.

Definition update (r : t) (id : nat) (_ : MemReq) : res t :=
  v ← arr_get (array r) id;
  let young := u32 (youngLines r + (1 - Z.shiftr v 1)) in
  a ← arr_set (array r) id (Z.lor v 2);
  if young >=? Z.of_nat (numLines r / 2)
  then Ok (mk ((fun x => Z.shiftr x 1) <$> a) (candArray r) (numLines r) (numCands r) 0
             (candVal r) (candIdx r))
  else Ok (mk a (candArray r) (numLines r) (numCands r) young (candVal r) (candIdx r)).

Definition recordCandidate (r : t) (id : nat) : res t :=
  iVal ← arr_get (array r) id;
  if iVal <? candVal r then
    ca ← arr_set (candArray r) 0 id;
    Ok (mk (array r) ca (numLines r) (numCands r) (youngLines r) iVal 1)
  else if iVal =? candVal r then
    ca ← arr_set (candArray r) (candIdx r) id;
    Ok (mk (array r) ca (numLines r) (numCands r) (youngLines r) (candVal r)
          (Nat.succ (candIdx r)))
  else Ok r.

Definition getBestCandidate (r : t) : res nat :=
  _ ← rassert (0 <? candIdx r)%nat "candIdx > 0";
  arr_get (candArray r) (Z.to_nat (youngLines r mod Z.of_nat (candIdx r))).

Definition replaced (r : t) (id : nat) : res t :=
  a ← arr_set (array r) id 0;
  Ok (mk a (candArray r) (numLines r) (numCands r) (youngLines r) (Z.shiftl 1 20) 0).

End NRU.

#[export] Instance NRU_ReplPolicy : ReplPolicy NRU.t := {
  rp_update := NRU.update;
  rp_replaced := NRU.replaced;
  rp_rankCands r _ req cands :=
    legacy_rank (fun r _ => Ok r) NRU.recordCandidate NRU.getBestCandidate r req cands
}.

(** ** LFU *)
Module LFU.

Record LFUInfo := mkInfo { ts : Z; acc : Z }.
Record Rank := mkRank { lfuInfo : LFUInfo; sharers : Z; valid : bool }.

Definition Rank_reset : Rank := mkRank (mkInfo 0 0) 0 false.

Definition lessThan (this other : Rank) (curTs : Z) : bool :=
  if negb (valid this) && valid other then true
  else if Bool.eqb (valid this) (valid other) then
    if (sharers this =? 0) && (sharers other >? 0) then true
    else if (sharers this >? 0) && (sharers other =? 0) then false
    else if acc (lfuInfo this) =? 0 then true
    else if acc (lfuInfo other) =? 0 then false
    else
      let ownInvFreq := u64 (curTs - ts (lfuInfo this)) / acc (lfuInfo this) in
      let otherInvFreq := u64 (curTs - ts (lfuInfo other)) / acc (lfuInfo other) in
      ownInvFreq >? otherInvFreq
  else false.

(** [LFUReplPolicy]; [bestCandidate == -1] is [None]. *)
Record t := mk {
  timestamp : Z;
  bestCandidate : option nat;
  array : list LFUInfo;
  bestRank : Rank
}.

Definition init (numLines : nat) : t :=
  mk 1 None (replicate numLines (mkInfo 0 0)) Rank_reset.

Definition update (r : t) (id : nat) (_ : MemReq) : res t :=
  i ← arr_get (array r) id;
  d ← (let d := u64 (acc i + 1) in
       if d =? 0 then Err (Panic "division by zero") else Ok d);
  a ← arr_set (array r) id
        (mkInfo (u64 (u64 (acc i * ts i) + timestamp r) / d) d);
  Ok (mk (u64 (timestamp r + 1000)) (bestCandidate r) a (bestRank r)).

Definition recordCandidate (cc : CCView) (r : t) (id : nat) : res t :=
  i ← arr_get (array r) id;
  let candRank := mkRank i (cc_numSharers cc id) (cc_isValid cc id) in
  if bool_decide (bestCandidate r = None) || lessThan candRank (bestRank r) (timestamp r)
  then Ok (mk (timestamp r) (Some id) (array r) candRank)
  else Ok r.

Definition getBestCandidate (r : t) : res nat :=
  from_opt (bestCandidate r) "bestCandidate != -1".

Definition replaced (r : t) (id : nat) : res t :=
  i ← arr_get (array r) id;
  a ← arr_set (array r) id (mkInfo (ts i) 0);
  Ok (mk (timestamp r) None a Rank_reset).

End LFU.

#[export] Instance LFU_ReplPolicy : ReplPolicy LFU.t := {
  rp_update := LFU.update;
  rp_replaced := LFU.replaced;
  rp_rankCands r cc req cands :=
    legacy_rank (fun r _ => Ok r) (LFU.recordCandidate cc) LFU.getBestCandidate r req cands
}.

(** ** Violation profiling over LRU *)
Module ProfViol.

Record AccTimes := mkTimes { read : Z; write : Z }.
Record Prof := mkProf {
  profRAW : Z; profWAR : Z; profRAR : Z; profWAW : Z; profNoViolAcc : Z;
  profAAE : Z; profNoViolEv : Z
}.

(** [ProfViolReplPolicy< LRUReplPolicy<true> >], the instance [BuildCacheBank]
    builds. *)
Record t := mk {
  base : LRU.t;
  accTimes : list AccTimes;
  prof : Prof;
  replCycle : Z
}.

Definition init (numLines : nat) : t :=
  mk (LRU.init true numLines) (replicate numLines (mkTimes 0 0))
     (mkProf 0 0 0 0 0 0 0) 0.

Inductive Viol := RAW | WAR | RAR | WAW.

(** Which counter an access at [cycle] on a line with times [a] increments:
    [None] when there is no violation. *)
Definition classify (a : AccTimes) (isRead : bool) (cycle : Z) : res (option Viol) :=
  if cycle <? MAX (read a) (write a) then
    readViol ←
      (if cycle <? MIN (read a) (write a) then Ok (read a <? write a)
       else if cycle <? read a then Ok true
       else _ ← rassert (cycle <? write a) "cycle < accTimes[id].write"; Ok false);
    Ok (Some (if isRead then (if (readViol : bool) then RAR else RAW)
              else (if (readViol : bool) then WAR else WAW)))
  else Ok None.

Definition count (p : Prof) (v : option Viol) : Prof :=
  match p with mkProf raw war rar waw nv aae ne =>
  match v with
  | Some RAW => mkProf (u64 (raw + 1)) war rar waw nv aae ne
  | Some WAR => mkProf raw (u64 (war + 1)) rar waw nv aae ne
  | Some RAR => mkProf raw war (u64 (rar + 1)) waw nv aae ne
  | Some WAW => mkProf raw war rar (u64 (waw + 1)) nv aae ne
  | None => mkProf raw war rar waw (u64 (nv + 1)) aae ne
  end end.

Definition update (r : t) (id : nat) (req : MemReq) : res t :=
  b ← LRU.update (base r) id req;
  let isRead := bool_decide (type req = GETS) in
  _ ← rassert (isRead || bool_decide (type req = GETX)) "read || req->type == GETX";
  a ← arr_get (accTimes r) id;
  v ← classify a isRead (cycle req);
  let a' := if isRead then mkTimes (MAX (read a) (cycle req)) (write a)
            else mkTimes (read a) (MAX (write a) (cycle req)) in
  at' ← arr_set (accTimes r) id a';
  b' ← LRU.update b id req;
  Ok (mk b' at' (count (prof r) v) (replCycle r)).

Definition replaced (r : t) (id : nat) : res t :=
  b ← LRU.replaced (base r) id;
  a ← arr_get (accTimes r) id;
  let p := match prof r with mkProf raw war rar waw nv aae ne =>
             if replCycle r <? MAX (read a) (write a)
             then mkProf raw war rar waw nv (u64 (aae + 1)) ne
             else mkProf raw war rar waw nv aae (u64 (ne + 1)) end in
  at' ← arr_set (accTimes r) id (mkTimes 0 0);
  Ok (mk b at' p (replCycle r)).

Definition rankCands (r : t) (cc : CCView) (req : MemReq) (cands : list nat) : res (nat * t) :=
  '(v, b) ← LRU.rank (base r) cc req cands;
  Ok (v, mk b (accTimes r) (prof r) (replCycle r)).

End ProfViol.

#[export] Instance ProfViol_ReplPolicy : ReplPolicy ProfViol.t := {
  rp_update := ProfViol.update;
  rp_replaced := ProfViol.replaced;
  rp_rankCands := ProfViol.rankCands
}.

(** ** LRU: the ranking returns a candidate of minimal (truncated) score *)
Section LRU_laws.
Import LRU.
Implicit Types (r : LRU.t) (cc : CCView).

(** The number that [rank] compares. *)
Definition lru_key r cc (c : nat) : Z :=
  u32 (u64 ((if sharersAware r then cc_numSharers cc c else 0) * timestamp r
            + (array r !!! c) * (if cc_isValid cc c then 1 else 0))).

Lemma LRU_score_lt r cc c : (c < length (array r))%nat ->
  exists sc, score r cc c = Ok sc /\ u32 sc = lru_key r cc c.
Proof.
  intros Hc. destruct (arr_get_lt (array r) c Hc) as (x&Hx&Hg).
  unfold score. rewrite Hg. eexists. split; [reflexivity|].
  unfold lru_key. by rewrite (list_lookup_total_correct _ _ _ Hx).
Qed.

Lemma LRU_rank_loop_spec r cc cands best sc :
  Forall (fun c => (c < length (array r))%nat) cands ->
  rwp (rank_loop r cc cands best sc) (fun b =>
    (b = best /\ Forall (fun c => sc <= lru_key r cc c) cands) \/
    (exists v, b = Some v /\ v ∈ cands /\ lru_key r cc v < sc /\
       Forall (fun c => lru_key r cc v <= lru_key r cc c) cands)).
Proof.
  revert best sc. induction cands as [|c cands IH]; intros best sc HF.
  { left. split; [done|constructor]. }
  apply Forall_cons_1 in HF as [Hc HF]. cbn [rank_loop].
  destruct (LRU_score_lt r cc c Hc) as (s&Hs&Hk). rewrite Hs. cbn [mbind res_bind]. rewrite Hk, MIN_min.
  destruct (Z.ltb_spec (lru_key r cc c) sc) as [Hlt|Hge].
  - rewrite Z.min_l by lia.
    destruct (rwp_elim _ _ (IH (Some c) (lru_key r cc c) HF)) as (b&Hb&Hor).
    eapply rwp_ok; [exact Hb|]. right. destruct Hor as [[-> Hall]|(v&->&Hv&Hlv&Hall)].
    + exists c. split_and!; [done|apply list_elem_of_here|done|]. constructor; [lia|done].
    + exists v. split_and!; [done|by apply list_elem_of_further|lia|]. constructor; [lia|done].
  - rewrite Z.min_r by lia.
    destruct (rwp_elim _ _ (IH best sc HF)) as (b&Hb&Hor).
    eapply rwp_ok; [exact Hb|]. destruct Hor as [[-> Hall]|(v&->&Hv&Hlv&Hall)].
    + left. split; [done|]. constructor; [lia|done].
    + right. exists v. split_and!; [done|by apply list_elem_of_further|lia|]. constructor; [lia|done].
Qed.

Lemma LRU_rank_spec r cc req cands :
  cands <> [] -> Forall (fun c => (c < length (array r))%nat) cands ->
  rwp (rank r cc req cands) (fun '(v, r') => r' = r /\ v ∈ cands /\
    Forall (fun c => lru_key r cc v <= lru_key r cc c) cands).
Proof.
  intros Hne HF. unfold rank.
  destruct (rwp_elim _ _ (LRU_rank_loop_spec r cc cands None (two64 - 1) HF)) as (b&Hb&Hor).
  rewrite Hb. cbn [mbind res_bind]. destruct Hor as [[-> Hall]|(v&->&Hv&_&Hall)]; [|done].
  destruct cands as [|c cands]; [done|]. apply Forall_cons_1 in Hall as [Hc _].
  pose proof (u32_range (u64 ((if sharersAware r then cc_numSharers cc c else 0) * timestamp r
            + (array r !!! c) * (if cc_isValid cc c then 1 else 0)))) as Hr.
  unfold lru_key in Hc. unfold two32, two64 in *. lia.
Qed.

Lemma LRU_update_ok r id req : (id < length (array r))%nat ->
  exists r', update r id req = Ok r' /\ length (array r') = length (array r).
Proof.
  intros Hid. unfold update. rewrite arr_set_lt by done. eexists. split; [reflexivity|].
  cbn. apply length_insert.
Qed.
Lemma LRU_replaced_ok r id : (id < length (array r))%nat ->
  exists r', replaced r id = Ok r' /\ length (array r') = length (array r).
Proof.
  intros Hid. unfold replaced. rewrite arr_set_lt by done. eexists. split; [reflexivity|].
  cbn. apply length_insert.
Qed.
End LRU_laws.

#[export] Program Instance LRU_Laws : ReplPolicyLaws LRU.t := {
  rp_wf n _ r := length (LRU.array r) = n;
  rp_idle n _ r := length (LRU.array r) = n
}.
Next Obligation. done. Qed.
Next Obligation.
  cbn. intros n k r id req <- Hid _. destruct (LRU_update_ok r id req Hid) as (r'&->&Hl). by split.
Qed.
Next Obligation.
  cbn. intros n k r id <- Hid. by destruct (LRU_replaced_ok r id Hid) as (r'&->&Hl).
Qed.
Next Obligation.
  cbn. intros n k r cc req cands <- Hne _ HF.
  destruct (rwp_elim _ _ (LRU_rank_spec r cc req cands Hne HF)) as ([v r']&->&->&Hv&_). by split.
Qed.

#[export] Program Instance TreeLRU_Laws : ReplPolicyLaws TreeLRU.t := {
  rp_wf n _ r := length (LRU.array (TreeLRU.base r)) = n;
  rp_idle n _ r := length (LRU.array (TreeLRU.base r)) = n
}.
Next Obligation. done. Qed.
Next Obligation.
  cbn. intros n k r id req <- Hid _. unfold TreeLRU.update.
  destruct (LRU_update_ok (TreeLRU.base r) id req Hid) as (r'&->&Hl). by split.
Qed.
Next Obligation.
  cbn. intros n k r id <- Hid. unfold TreeLRU.replaced.
  by destruct (LRU_replaced_ok (TreeLRU.base r) id Hid) as (r'&->&Hl).
Qed.
Next Obligation.
  cbn. intros n k r cc req cands <- Hne _ HF. unfold TreeLRU.rankCands.
  destruct (rwp_elim _ _ (LRU_rank_spec (TreeLRU.base r) cc req cands Hne HF)) as ([v r']&->&->&Hv&_).
  by split.
Qed.

Lemma ProfViol_classify_ok a isRead cyc : exists v, ProfViol.classify a isRead cyc = Ok v.
Proof.
  unfold ProfViol.classify. rewrite MAX_max, MIN_min.
  destruct (Z.ltb_spec cyc (Z.max (ProfViol.read a) (ProfViol.write a))); [|by eexists].
  destruct (Z.ltb_spec cyc (Z.min (ProfViol.read a) (ProfViol.write a))); [by eexists|].
  destruct (Z.ltb_spec cyc (ProfViol.read a)); [by eexists|].
  destruct (Z.ltb_spec cyc (ProfViol.write a)); [by eexists|]. lia.
Qed.

#[export] Program Instance ProfViol_Laws : ReplPolicyLaws ProfViol.t := {
  rp_wf n _ r := length (LRU.array (ProfViol.base r)) = n /\ length (ProfViol.accTimes r) = n;
  rp_idle n _ r := length (LRU.array (ProfViol.base r)) = n /\ length (ProfViol.accTimes r) = n
}.
Next Obligation. done. Qed.
Next Obligation.
  cbn. intros n k r id req [<- Ha] Hid Hg. unfold ProfViol.update.
  destruct (LRU_update_ok (ProfViol.base r) id req Hid) as (b&->&Hb). cbn [mbind res_bind].
  replace (bool_decide (type req = GETS) || bool_decide (type req = GETX)) with true
    by (by destruct (type req)).
  destruct (arr_get_lt (ProfViol.accTimes r) id) as (a&_&->); [by rewrite Ha|].
  cbn [mbind res_bind rassert].
  destruct (ProfViol_classify_ok a (bool_decide (type req = GETS)) (cycle req)) as (v&->).
  cbn [mbind res_bind]. rewrite arr_set_lt by by rewrite Ha. cbn [mbind res_bind].
  destruct (LRU_update_ok b id req) as (b'&->&Hb'); [by rewrite Hb|].
  cbn. rewrite length_insert. split; [|intros _]; split; congruence.
Qed.
Next Obligation.
  cbn. intros n k r id [<- Ha] Hid. unfold ProfViol.replaced.
  destruct (LRU_replaced_ok (ProfViol.base r) id Hid) as (b&->&Hb). cbn [mbind res_bind].
  destruct (arr_get_lt (ProfViol.accTimes r) id) as (a&_&->); [by rewrite Ha|]. cbn [mbind res_bind].
  rewrite arr_set_lt by by rewrite Ha. cbn. rewrite length_insert. split; congruence.
Qed.
Next Obligation.
  cbn. intros n k r cc req cands [<- Ha] Hne _ HF. unfold ProfViol.rankCands.
  destruct (rwp_elim _ _ (LRU_rank_spec (ProfViol.base r) cc req cands Hne HF)) as ([v b]&->&->&Hv&_).
  done.
Qed.

(** ** NRU: the victim is one of the oldest candidates *)
Section NRU_laws.
Import NRU.
Implicit Types (r : NRU.t).

Definition nru_wf (n k : nat) r : Prop :=
  length (array r) = n /\ Forall (fun x => 0 <= x < 4) (array r) /\ length (candArray r) = k /\
  0 <= youngLines r.
Definition nru_idle (n k : nat) r : Prop := nru_wf n k r /\ candVal r = Z.shiftl 1 20 /\ candIdx r = 0%nat.

Lemma nru_age r id n k : nru_wf n k r -> (id < n)%nat ->
  exists x, array r !! id = Some x /\ arr_get (array r) id = Ok x /\ 0 <= x < 4.
Proof.
  intros (Hl&HF&_) Hid. rewrite <- Hl in Hid. destruct (arr_get_lt (array r) id Hid) as (x&Hx&Hg).
  exists x. split_and!; [done|done|..]; by apply (Forall_lookup_1 _ _ _ _ HF Hx).
Qed.

Lemma NRU_update_ok n k r id req : nru_wf n k r -> (id < n)%nat ->
  exists r', update r id req = Ok r' /\ nru_wf n k r' /\ candVal r' = candVal r /\ candIdx r' = candIdx r.
Proof.
  intros Hwf Hid. destruct (nru_age r id n k Hwf Hid) as (x&Hx&Hg&Hr).
  destruct Hwf as (Hl&HF&Hc&Hy). unfold update. rewrite Hg. cbn [mbind res_bind].
  rewrite arr_set_lt by by rewrite Hl. cbn [mbind res_bind].
  assert (HF' : Forall (fun y => 0 <= y < 4) (<[id := Z.lor x 2]> (array r))).
  { apply Forall_insert; [done|]. assert (x = 0 \/ x = 1 \/ x = 2 \/ x = 3) as [->|[->|[->| ->]]] by lia; done. }
  case_match.
  - eexists. split; [reflexivity|]. split; [|done]. split_and!; cbn.
    + by rewrite length_fmap, length_insert.
    + apply Forall_fmap. eapply Forall_impl; [|exact HF']. intros y Hy'. cbn in *.
      rewrite Z.shiftr_div_pow2 by lia. change (2 ^ 1) with 2. split; [apply Z.div_pos; lia|].
      apply Z.div_lt_upper_bound; lia.
    + done.
    + done.
  - eexists. split; [reflexivity|]. split; [|done]. split_and!; cbn.
    + by rewrite length_insert.
    + done.
    + done.
    + apply u32_range.
Qed.

Lemma NRU_replaced_ok n k r id : nru_wf n k r -> (id < n)%nat ->
  exists r', replaced r id = Ok r' /\ nru_idle n k r'.
Proof.
  intros (Hl&HF&Hc&Hy) Hid. unfold replaced. rewrite arr_set_lt by by rewrite Hl.
  eexists. split; [reflexivity|]. split; [|done]. split_and!; cbn; try done.
  - by rewrite length_insert.
  - apply Forall_insert; [done|lia].
Qed.

(** After recording [done]: the first [candIdx] entries of [candArray] are
    recorded candidates of age [candVal], the minimum of the recorded ages. *)
Definition nru_rec (n k : nat) r0 (seen : list nat) r : Prop :=
  nru_wf n k r /\ array r = array r0 /\ youngLines r = youngLines r0 /\
  (candIdx r <= length seen)%nat /\
  (seen = [] -> candIdx r = 0%nat /\ candVal r = Z.shiftl 1 20) /\
  (seen <> [] -> (0 < candIdx r)%nat /\ 0 <= candVal r < 4) /\
  Forall (fun c => candVal r <= array r0 !!! c) seen /\
  (forall i, (i < candIdx r)%nat -> exists c, candArray r !! i = Some c /\ c ∈ seen /\ array r0 !!! c = candVal r).

Lemma nru_rec_step n k r0 seen r id : nru_rec n k r0 seen r -> (id < n)%nat -> (length seen < k)%nat ->
  exists r', recordCandidate r id = Ok r' /\ nru_rec n k r0 (seen ++ [id]) r'.
Proof.
  intros (Hwf&Har&Hyl&Hci&He&Hne&Hmin&Hcs) Hid Hk.
  destruct (nru_age r id n k Hwf Hid) as (x&Hx&Hg&Hr).
  assert (Hx0 : array r0 !!! id = x) by (rewrite <- Har; by apply list_lookup_total_correct).
  destruct Hwf as (Hl&HF&Hc&Hy). unfold recordCandidate. rewrite Hg. cbn [mbind res_bind].
  assert (Happ : seen ++ [id] <> []) by by destruct seen.
  destruct (Z.ltb_spec x (candVal r)) as [Hlt|Hge].
  - rewrite arr_set_lt by lia. eexists. split; [reflexivity|].
    split_and!; cbn; try done; try lia.
    + split_and!; cbn; try done. by rewrite length_insert.
    + rewrite length_app. change (length [id]) with 1%nat. lia.
    + apply Forall_app. split; [|constructor; [lia|constructor]].
      eapply Forall_impl; [|exact Hmin]. cbn. lia.
    + intros i Hi. assert (i = 0%nat) as -> by lia. exists id.
      rewrite list_lookup_insert_eq by lia. split_and!; [done| |done]. apply elem_of_app. right. apply list_elem_of_here.
  - assert (Hsn : seen <> []).
    { intros ->. destruct (He eq_refl) as [_ Hcv]. rewrite Hcv in Hge. change (Z.shiftl 1 20) with 1048576 in Hge. lia. }
    destruct (Z.eqb_spec x (candVal r)) as [Heq|Hneq].
    + rewrite arr_set_lt by lia. eexists. split; [reflexivity|].
      destruct (Hne Hsn) as [Hpos Hcv]. split_and!; unfold Nat.succ; cbn; try done; try lia.
      * split_and!; cbn; try done. by rewrite length_insert.
      * rewrite length_app. change (length [id]) with 1%nat. lia.
      * apply Forall_app. split; [done|constructor; [lia|constructor]].
      * intros i Hi. destruct (decide (i = candIdx r)) as [->|Hi'].
        -- exists id. rewrite list_lookup_insert_eq by lia. split_and!; [done| |lia].
           apply elem_of_app. right. apply list_elem_of_here.
        -- destruct (Hcs i) as (c&Hc'&Hin&Ha); [lia|]. exists c.
           rewrite list_lookup_insert_ne by done. split_and!; [done| |done]. apply elem_of_app. by left.
    + eexists. split; [reflexivity|]. destruct (Hne Hsn) as [Hpos Hcv]. split_and!; try done; try lia.
      * rewrite length_app. change (length [id]) with 1%nat. lia.
      * apply Forall_app. split; [done|constructor; [lia|constructor]].
      * intros i Hi. destruct (Hcs i Hi) as (c&Hc'&Hin&Ha). exists c. split_and!; [done| |done]. apply elem_of_app. by left.
Qed.

Lemma nru_rec_all n k r0 cands seen r : nru_rec n k r0 seen r ->
  Forall (fun id => (id < n)%nat) cands -> (length seen + length cands <= k)%nat ->
  exists r', record_all recordCandidate r cands = Ok r' /\ nru_rec n k r0 (seen ++ cands) r'.
Proof.
  revert seen r. induction cands as [|c cands IH]; intros seen r Hrec HF Hk.
  { exists r. by rewrite app_nil_r. }
  apply Forall_cons_1 in HF as [Hc HF]. cbn [length record_all] in *.
  destruct (nru_rec_step n k r0 seen r c Hrec Hc) as (r'&->&Hrec'); [lia|]. cbn [mbind res_bind].
  destruct (IH (seen ++ [c]) r' Hrec' HF) as (r''&Hr&Hrec''); [rewrite length_app; cbn; lia|].
  exists r''. split; [done|]. by rewrite <- app_assoc in Hrec''.
Qed.

Lemma NRU_rank_spec n k r req cands :
  nru_idle n k r -> cands <> [] -> (length cands <= k)%nat -> Forall (fun id => (id < n)%nat) cands ->
  rwp (legacy_rank (fun r _ => Ok r) recordCandidate getBestCandidate r req cands)
    (fun '(v, r') => nru_wf n k r' /\ v ∈ cands /\
       Forall (fun c => array r !!! v <= array r !!! c) cands).
Proof.
  intros [Hwf [Hcv Hci]] Hne Hk HF.
  destruct (nru_rec_all n k r cands [] r) as (r'&Hr'&Hrec); [|done|cbn; lia|].
  { split_and!; try done; [by rewrite Hci|]. intros i. rewrite Hci. lia. }
  unfold legacy_rank. cbn [mbind res_bind]. rewrite Hr'. cbn [mbind res_bind].
  destruct Hrec as (Hwf'&Har&Hyl&Hle&_&Hpos&Hmin&Hcs). destruct (Hpos Hne) as [Hp Hv].
  unfold getBestCandidate. rewrite (proj2 (Nat.ltb_lt 0 (candIdx r')) Hp). cbn [rassert mbind res_bind].
  destruct Hwf' as (?&?&?&Hy).
  assert (Hmod := Z.mod_pos_bound (youngLines r') (Z.of_nat (candIdx r')) ltac:(lia)).
  destruct (Hcs (Z.to_nat (youngLines r' mod Z.of_nat (candIdx r')))) as (v&Hlk&Hin&Hav); [lia|].
  rewrite (arr_get_Some _ _ _ Hlk). cbn. split_and!; try done.
  rewrite Hav. exact Hmin.
Qed.
End NRU_laws.

#[export] Program Instance NRU_Laws : ReplPolicyLaws NRU.t := {
  rp_wf := nru_wf;
  rp_idle := nru_idle
}.
Next Obligation. by intros n k r [? _]. Qed.
Next Obligation.
  cbn. intros n k r id req Hwf Hid _. destruct (NRU_update_ok n k r id req Hwf Hid) as (r'&->&Hwf'&Hv&Hi).
  split; [done|]. intros [_ [??]]. split; [done|]. split; congruence.
Qed.
Next Obligation.
  cbn. intros n k r id Hwf Hid. by destruct (NRU_replaced_ok n k r id Hwf Hid) as (r'&->&?).
Qed.
Next Obligation.
  intros n k r cc req cands Hi Hne Hk HF.
  destruct (rwp_elim _ _ (NRU_rank_spec n k r req cands Hi Hne Hk HF)) as ([v r']&Hrun&?&?&_).
  by eapply rwp_ok; [exact Hrun|].
Qed.
