(* ===== verification/PartRepl.v ===== *)
(** * Partitioned replacement policies (src/src/part_repl_policies.h)

    [WayPart] gives whole ways to partitions and ranks only the candidates in the ways
    of the incoming line's partition; [Vantage] keeps the lines of a partition near its
    target size by demoting old ones to an unmanaged region, from which it evicts.  Both
    drive a monitor behind [PartitionMonitor]; the partition of a request comes from a
    mapper ([partOf]), the number generator of Vantage is a parameter as in the barrier. *)

From S2P Require Import Prelude Bithacks Double MemHier Partition ReplPolicies.

(** The statistics of a partition that both policies keep. *)
Record Prof := mkProf { profHits : Z; profMisses : Z; profSelfEvictions : Z; profExtEvictions : Z }.
Definition incHits (f : Prof) : Prof := mkProf (u64 (profHits f + 1)) (profMisses f) (profSelfEvictions f) (profExtEvictions f).
Definition incMisses (f : Prof) : Prof := mkProf (profHits f) (u64 (profMisses f + 1)) (profSelfEvictions f) (profExtEvictions f).
Definition incSelf (f : Prof) : Prof := mkProf (profHits f) (profMisses f) (u64 (profSelfEvictions f + 1)) (profExtEvictions f).
Definition incExt (f : Prof) : Prof := mkProf (profHits f) (profMisses f) (profSelfEvictions f) (u64 (profExtEvictions f + 1)).

(** Update of an array entry in place. *)
Definition arr_mod {A} (l : list A) (i : nat) (f : A -> A) : res (list A) :=
  x ← arr_get l i; arr_set l i (f x).

(** A monitor that takes accesses of [n] partitions. *)
Class AccessLaws (Mo : Type) `{PartitionMonitor Mo} := {
  acc_ok : nat -> Mo -> Prop;
  acc_access : forall n q a mo, acc_ok n mo -> (q < n)%nat -> wp (pm_access q a) (fun _ mo' => acc_ok n mo') mo
}.

(** ** Way partitioning *)
Module WayPart.

Record PartInfo := mkPI { size : Z; targetSize : Z; prof : Prof }.
Definition set_size (z : Z) (i : PartInfo) : PartInfo := mkPI z (targetSize i) (prof i).
Definition set_target (z : Z) (i : PartInfo) : PartInfo := mkPI (size i) z (prof i).
Definition on_prof (f : Prof -> Prof) (i : PartInfo) : PartInfo := mkPI (size i) (targetSize i) (f (prof i)).

Record WayPartInfo := mkWP { addr : Z; ts : Z; p : nat }.

(** [bestId] is -1 ([None]) or a line. *)
Record t {Mo : Type} := mk {
  partInfo : list PartInfo;
  partitions : nat;
  totalSize : Z;
  ways : nat;
  array : list WayPartInfo;
  wayPartIndex : list nat;
  testMode : bool;
  bestId : option nat;
  candIdx : nat;
  incomingLinePart : nat;
  incomingLineAddr : Z;
  timestamp : Z;
  monitor : Mo }.
Arguments t Mo : clear implicits.

Section Ops.
Context {Mo : Type} `{PartitionMonitor Mo} (partOf : MemReq -> res nat).
Abbreviation R := (t Mo).

Definition with_part (l : list PartInfo) (r : R) : R :=
  mk Mo l (partitions r) (totalSize r) (ways r) (array r) (wayPartIndex r) (testMode r) (bestId r) (candIdx r)
    (incomingLinePart r) (incomingLineAddr r) (timestamp r) (monitor r).
Definition with_array (l : list WayPartInfo) (r : R) : R :=
  mk Mo (partInfo r) (partitions r) (totalSize r) (ways r) l (wayPartIndex r) (testMode r) (bestId r) (candIdx r)
    (incomingLinePart r) (incomingLineAddr r) (timestamp r) (monitor r).
Definition with_ways (l : list nat) (r : R) : R :=
  mk Mo (partInfo r) (partitions r) (totalSize r) (ways r) (array r) l (testMode r) (bestId r) (candIdx r)
    (incomingLinePart r) (incomingLineAddr r) (timestamp r) (monitor r).
Definition with_cand (b : option nat) (i : nat) (r : R) : R :=
  mk Mo (partInfo r) (partitions r) (totalSize r) (ways r) (array r) (wayPartIndex r) (testMode r) b i
    (incomingLinePart r) (incomingLineAddr r) (timestamp r) (monitor r).
Definition with_incoming (q : nat) (a : Z) (r : R) : R :=
  mk Mo (partInfo r) (partitions r) (totalSize r) (ways r) (array r) (wayPartIndex r) (testMode r) (bestId r) (candIdx r)
    q a (timestamp r) (monitor r).
Definition with_ts (z : Z) (r : R) : R :=
  mk Mo (partInfo r) (partitions r) (totalSize r) (ways r) (array r) (wayPartIndex r) (testMode r) (bestId r) (candIdx r)
    (incomingLinePart r) (incomingLineAddr r) z (monitor r).
Definition with_monitor (m : Mo) (r : R) : R :=
  mk Mo (partInfo r) (partitions r) (totalSize r) (ways r) (array r) (wayPartIndex r) (testMode r) (bestId r) (candIdx r)
    (incomingLinePart r) (incomingLineAddr r) (timestamp r) m.

(** The initial assignment of ways, from [w], [n] left: way [w] goes to partition w*partitions/ways. *)
Fixpoint init_ways (n w : nat) (ways parts : nat) (waySize : Z) (idx : list nat) (info : list PartInfo) :
    res (list nat * list PartInfo) :=
  match n with
  | O => Ok (idx, info)
  | S n' =>
      let q := (w * parts / ways)%nat in
      idx ← arr_set idx w q;
      info ← arr_mod info q (fun i => set_target (u64 (targetSize i + waySize)) i);
      init_ways n' (S w) ways parts waySize idx info
  end.

Definition init (m : Mo) (parts : nat) (lines : Z) (ways : nat) (testMode : bool) : res R :=
  let waySize := lines / Z.of_nat ways in
  rassert (u32 (waySize * Z.of_nat ways) =? lines) "waySize*ways == totalSize";;
  let info := replicate parts (mkPI 0 0 (mkProf 0 0 0 0)) in
  info ← arr_mod info 0 (set_size lines);
  '(idx, info) ← init_ways ways 0 ways parts waySize (replicate ways 0%nat) info;
  Ok (mk Mo info parts lines ways (replicate (Z.to_nat lines) (mkWP 0 0 0)) idx testMode None 0 0 0 1 m).

Definition update (r : R) (id : nat) (_ : MemReq) : res R :=
  e ← arr_get (array r) id;
  '(info, q) ←
    (if 0 <? ts e then
       info ← arr_mod (partInfo r) (p e) (on_prof incHits); Ok (info, p e)
     else
       let oldPart := p e in
       let newPart := incomingLinePart r in
       info ← (if negb (oldPart =? newPart)%nat then
                 info ← arr_mod (partInfo r) oldPart (fun i => on_prof incExt (set_size (u64 (size i - 1)) i));
                 arr_mod info newPart (fun i => set_size (u64 (size i + 1)) i)
               else arr_mod (partInfo r) oldPart (on_prof incSelf));
       info ← arr_mod info newPart (on_prof incMisses);
       Ok (info, newPart));
  l ← arr_set (array r) id (mkWP (addr e) (timestamp r) q);
  let r := with_ts (u64 (timestamp r + 1)) (with_array l (with_part info r)) in
  match pm_access q (addr e) (monitor r) with
  | Ok (_, m) => Ok (with_monitor m r)
  | Err f => Err f
  end.

Definition startReplacement (r : R) (req : MemReq) : res R :=
  rassert (candIdx r =? 0)%nat "candIdx == 0";;
  rassert (bool_decide (bestId r = None)) "bestId == -1";;
  q ← partOf req;
  Ok (with_incoming q (lineAddr req) r).

(** Does candidate [c] replace [best] as the one to evict? *)
Definition beats (r : R) (c best : WayPartInfo) : bool :=
  let q := incomingLinePart r in
  if testMode r || ((p c =? q)%nat && (p best =? q)%nat) then ts c <? ts best
  else if (p c =? q)%nat && negb (p best =? q)%nat then false
  else if negb (p c =? q)%nat && (p best =? q)%nat then true
  else ts c <? ts best.

Definition recordCandidate (r : R) (id : nat) : res R :=
  rassert (candIdx r <? ways r)%nat "candIdx < ways";;
  c ← arr_get (array r) id;
  best ← match bestId r with None => Ok None | Some b => x ← arr_get (array r) b; Ok (Some x) end;
  let way := candIdx r in
  w ← arr_get (wayPartIndex r) way;
  let r' := with_cand (bestId r) (S way) r in
  if testMode r || (w =? incomingLinePart r)%nat then
    match best with
    | None => Ok (with_cand (Some id) (S way) r)
    | Some b => Ok (if beats r c b then with_cand (Some id) (S way) r else r')
    end
  else Ok r'.

Definition getBestCandidate (r : R) : res nat := from_opt (bestId r) "bestId >= 0".

Definition replaced (r : R) (id : nat) : res R :=
  l ← arr_mod (array r) id (fun e => mkWP (incomingLineAddr r) 0 (p e));
  Ok (with_array l (with_cand None 0 r)).

(** [for (i = 0; i < waysPart[p]; i++) wayPartIndex[curWay++] = p]. *)
Fixpoint give_ways (n curWay q : nat) (idx : list nat) : res (list nat) :=
  match n with
  | O => Ok idx
  | S n' => idx ← arr_set idx curWay q; give_ways n' (S curWay) q idx
  end.

(** The loop over the partitions from [q], [n] left; returns the ways and [curWay]. *)
Fixpoint set_parts (n q curWay : nat) (r : R) (waysPart : list Z) : res (nat * R) :=
  match n with
  | O => Ok (curWay, r)
  | S n' =>
      w ← arr_get waysPart q;
      info ← arr_mod (partInfo r) q (set_target (u32 (totalSize r * w) / Z.of_nat (ways r)));
      idx ← give_ways (Z.to_nat w) curWay q (wayPartIndex r);
      set_parts n' (S q) (curWay + Z.to_nat w) (with_ways idx (with_part info r)) waysPart
  end.

Definition setPartitionSizes (waysPart : list Z) (r : R) : res R :=
  '(curWay, r) ← set_parts (partitions r) 0 0 r waysPart;
  rassert (curWay =? ways r)%nat "curWay == ways";;
  Ok r.

(** [rank] of LegacyReplPolicy. *)
Definition rank (r : R) (req : MemReq) (cands : list nat) : res (nat * R) :=
  legacy_rank startReplacement recordCandidate getBestCandidate r req cands.

#[global] Instance waypart_ReplPolicy : ReplPolicy R := {|
  rp_update := update;
  rp_replaced := replaced;
  rp_rankCands := fun r _ req cands => rank r req cands |}.

#[global] Instance waypart_PartRepl : PartRepl R Mo := {|
  prp_monitor := monitor;
  prp_set_monitor := with_monitor;
  prp_setPartitionSizes := fun sizes r => r' ← setPartitionSizes sizes r; Ok (tt, r') |}.
End Ops.

(** *** The victim *)
Section Victim.
Context {Mo : Type} `{PartitionMonitor Mo} (partOf : MemReq -> res nat).

(** The ways that the incoming line may use. *)
Definition eligible (r : t Mo) (w : nat) : bool :=
  testMode r || bool_decide (wayPartIndex r !! w = Some (incomingLinePart r)).

(** [e] is evicted rather than [f], or they tie: lines of other partitions first, older first. *)
Definition evict_le (r : t Mo) (e f : WayPartInfo) : bool :=
  let own x := (p x =? incomingLinePart r)%nat in
  if testMode r then ts e <=? ts f
  else if own e then own f && (ts e <=? ts f) else own f || (ts e <=? ts f).

Lemma evict_le_refl r e : evict_le r e e = true.
Proof. unfold evict_le. rewrite Z.leb_refl. repeat case_match; done. Qed.

Lemma evict_le_trans r e f g : evict_le r e f = true -> evict_le r f g = true -> evict_le r e g = true.
Proof.
  unfold evict_le. destruct (testMode r), (p e =? incomingLinePart r)%nat, (p f =? incomingLinePart r)%nat,
    (p g =? incomingLinePart r)%nat; cbn;
    rewrite ?Z.leb_le; try done; lia.
Qed.

Lemma beats_spec r c b : if beats r c b then evict_le r c b = true else evict_le r b c = true.
Proof.
  unfold beats, evict_le. destruct (testMode r); cbn.
  - destruct (Z.ltb_spec (ts c) (ts b)); apply Z.leb_le; lia.
  - destruct (p c =? incomingLinePart r)%nat, (p b =? incomingLinePart r)%nat; cbn; try done;
      destruct (Z.ltb_spec (ts c) (ts b)); try apply Z.leb_le; try lia.
Qed.

(** After the candidates [seen] were recorded: the count, and the best of the eligible ones. *)
Definition Recorded (r0 : t Mo) (seen : list nat) (r : t Mo) : Prop :=
  exists b, r = with_cand b (length seen) r0 /\
  match b with
  | None => forall w, (w < length seen)%nat -> eligible r0 w = false
  | Some v => exists w e, seen !! w = Some v /\ eligible r0 w = true /\ array r0 !! v = Some e /\
      forall w' c f, seen !! w' = Some c -> eligible r0 w' = true -> array r0 !! c = Some f -> evict_le r0 e f = true
  end.

Lemma recordCandidate_spec r0 seen r id e : Recorded r0 seen r -> (length seen < ways r0)%nat ->
  length (wayPartIndex r0) = ways r0 -> array r0 !! id = Some e ->
  exists r', recordCandidate r id = Ok r' /\ Recorded r0 (seen ++ [id]) r'.
Proof.
  intros (b&->&Hb) Hlt Hlen He. unfold recordCandidate. cbn [candIdx ways with_cand array bestId wayPartIndex testMode].
  rewrite (proj2 (Nat.ltb_lt _ _) Hlt). cbn [rassert mbind res_bind]. rewrite (arr_get_Some _ _ _ He). cbn [mbind res_bind].
  destruct (arr_get_lt (wayPartIndex r0) (length seen)) as (q&Hq&Eq); [lia|].
  assert (Hel : eligible r0 (length seen) = testMode r0 || (q =? incomingLinePart r0)%nat).
  { unfold eligible. rewrite Hq. f_equal. case_bool_decide as Hd; destruct (Nat.eqb_spec q (incomingLinePart r0)); naive_solver. }
  assert (Hsn : length (seen ++ [id]) = S (length seen)) by (rewrite length_app; cbn; lia).
  destruct b as [v|]; cbn [mbind res_bind].
  - destruct Hb as (w&f&Hw&Hew&Hf&Hmin). rewrite (arr_get_Some _ _ _ Hf). cbn [mbind res_bind]. rewrite Eq. cbn [mbind res_bind].
    change (incomingLinePart (with_cand _ _ r0)) with (incomingLinePart r0). rewrite <- Hel.
    pose proof (beats_spec r0 e f) as HB. change (beats (with_cand _ _ r0) e f) with (beats r0 e f).
    assert (Hold : forall b, (match b with Some x => x = v | None => False end) -> evict_le r0 f e = true \/ eligible r0 (length seen) = false ->
      Recorded r0 (seen ++ [id]) (with_cand b (S (length seen)) r0)).
    { intros [x|] Hx Hcase; [subst x|done]. exists (Some v). rewrite Hsn. split; [done|].
      exists w, f. split; [by apply lookup_app_l_Some|]. repeat split; try done.
      intros w' c g [Hc|[Hl Hc]]%lookup_app_Some Hew' Hg; [by eapply Hmin|].
      apply list_lookup_singleton_Some in Hc as [Hl' <-]. simplify_eq.
      replace w' with (length seen) in Hew' by lia. destruct Hcase; [done|congruence]. }
    destruct (eligible r0 (length seen)) eqn:Ee; [|eexists; split; [reflexivity|apply (Hold (Some v)); auto]].
    destruct (beats r0 e f); (eexists; split; [reflexivity|]); [|apply (Hold (Some v)); auto].
    exists (Some id). rewrite Hsn. split; [done|]. exists (length seen), e.
    split; [by rewrite lookup_app_r, Nat.sub_diag by lia|]. repeat split; try done.
    intros w' c g [Hc|[Hl Hc]]%lookup_app_Some Hew' Hg.
    + eapply evict_le_trans; [exact HB|]. by eapply Hmin.
    + apply list_lookup_singleton_Some in Hc as [Hl' <-]. simplify_eq. apply evict_le_refl.
  - rewrite Eq. cbn [mbind res_bind]. change (incomingLinePart (with_cand _ _ r0)) with (incomingLinePart r0).
    rewrite <- Hel. destruct (eligible r0 (length seen)) eqn:Ee; (eexists; split; [reflexivity|]).
    + exists (Some id). rewrite Hsn. split; [done|]. exists (length seen), e.
      split; [by rewrite lookup_app_r, Nat.sub_diag by lia|]. repeat split; try done.
      intros w' c g [Hc|[Hl Hc]]%lookup_app_Some Hew' Hg.
      * rewrite Hb in Hew'; [done|]. by eapply lookup_lt_Some.
      * apply list_lookup_singleton_Some in Hc as [Hl' <-]. simplify_eq. apply evict_le_refl.
    + exists None. rewrite Hsn. split; [done|]. intros w Hw. destruct (decide (w = length seen)) as [->|]; [done|]. apply Hb. lia.
Qed.

Lemma record_all_spec r0 cands : length (wayPartIndex r0) = ways r0 ->
  forall seen r, Recorded r0 seen r -> (length seen + length cands <= ways r0)%nat ->
  Forall (fun id => is_Some (array r0 !! id)) cands ->
  exists r', record_all recordCandidate r cands = Ok r' /\ Recorded r0 (seen ++ cands) r'.
Proof.
  intros Hlen. induction cands as [|c cands IH]; intros seen r HR Hl HF; cbn [record_all].
  { exists r. by rewrite app_nil_r. }
  apply Forall_cons_1 in HF as [[e He] HF]. cbn [length] in Hl.
  destruct (recordCandidate_spec r0 seen r c e HR) as (r'&->&HR'); [lia|done|done|]. cbn [mbind res_bind].
  destruct (IH (seen ++ [c]) r' HR') as (r''&E&HR''); [rewrite length_app; cbn; lia|done|].
  exists r''. rewrite <- app_assoc in HR''. done.
Qed.
End Victim.

(** *** Handing out the ways *)
Section Sizes.
Context {Mo : Type} `{PartitionMonitor Mo}.

Lemma give_ways_spec n q : forall cur idx, (cur + n <= length idx)%nat ->
  exists idx', give_ways n cur q idx = Ok idx' /\ length idx' = length idx /\
    (forall w, (cur <= w < cur + n)%nat -> idx' !! w = Some q) /\
    (forall w, (w < cur)%nat -> idx' !! w = idx !! w).
Proof.
  induction n as [|n IH]; intros cur idx Hl; cbn [give_ways].
  { exists idx. repeat split; lia || done. }
  rewrite arr_set_lt by lia. cbn [mbind res_bind].
  destruct (IH (S cur) (<[cur := q]> idx)) as (idx'&E&Hlen&H1&H2); [rewrite length_insert; lia|].
  exists idx'. rewrite length_insert in Hlen. split; [done|]. split; [done|]. split.
  - intros w Hw. destruct (decide (w = cur)) as [->|]; [|apply H1; lia].
    rewrite H2 by lia. apply list_lookup_insert_eq. lia.
  - intros w Hw. rewrite H2 by lia. by rewrite list_lookup_insert_ne by lia.
Qed.

Lemma arr_mod_lt {A} (l : list A) i f x : l !! i = Some x -> arr_mod l i f = Ok (<[i := f x]> l).
Proof. intros E. unfold arr_mod. rewrite (arr_get_Some _ _ _ E). cbn. apply arr_set_lt. by eapply lookup_lt_Some. Qed.

(** The number of ways of each partition, and the first way of partition [q]. *)
Definition widths (sizes : list Z) : list nat := Z.to_nat <$> sizes.
Definition first_way (sizes : list Z) (q : nat) : nat := sum_list (take q (widths sizes)).

Lemma first_way_S sizes q z : sizes !! q = Some z -> first_way sizes (S q) = (first_way sizes q + Z.to_nat z)%nat.
Proof.
  intros E. unfold first_way. rewrite (take_S_r _ _ (Z.to_nat z)) by (unfold widths; by rewrite list_lookup_fmap, E).
  rewrite sum_list_with_app. cbn. lia.
Qed.

Lemma first_way_mono sizes q q' : (q <= q')%nat -> (first_way sizes q <= first_way sizes q')%nat.
Proof.
  intros Hle. unfold first_way. replace q' with (q + (q' - q))%nat by lia.
  generalize (q' - q)%nat. intros d. revert q Hle. generalize (widths sizes). intros l q _.
  revert q. induction l as [|x l IH]; intros [|q]; cbn; try lia. specialize (IH q). unfold sum_list in *. lia.
Qed.

(** What a partition's entry keeps when only targets change. *)
Definition same_sizes : list PartInfo -> list PartInfo -> Prop :=
  Forall2 (fun i i' => size i = size i' /\ prof i = prof i').

#[export] Instance same_sizes_preorder : PreOrder same_sizes.
Proof.
  unfold same_sizes. assert (PreOrder (fun i i' : PartInfo => size i = size i' /\ prof i = prof i')) by
    (split; [done|intros ??? [??] [??]; split; congruence]). apply _.
Qed.

Lemma set_parts_spec sizes n : forall q (r : t Mo), length (partInfo r) = partitions r -> (q + n <= partitions r)%nat ->
  (partitions r <= length sizes)%nat -> (first_way sizes (q + n) <= length (wayPartIndex r))%nat ->
  (forall q' w, (q' < q)%nat -> (first_way sizes q' <= w < first_way sizes (S q'))%nat -> wayPartIndex r !! w = Some q') ->
  exists info idx, set_parts n q (first_way sizes q) r sizes =
      Ok (first_way sizes (q + n), with_ways idx (with_part info r)) /\
    length idx = length (wayPartIndex r) /\ same_sizes (partInfo r) info /\
    (forall q' w, (q' < q + n)%nat -> (first_way sizes q' <= w < first_way sizes (S q'))%nat -> idx !! w = Some q').
Proof.
  induction n as [|n IH]; intros q r Hp Hq Hl Hf Hdone; cbn [set_parts].
  { exists (partInfo r), (wayPartIndex r). rewrite Nat.add_0_r in *. repeat split; try done; by destruct r. }
  destruct (arr_get_lt sizes q) as (z&Hz&Ez); [lia|]. rewrite Ez. cbn [mbind res_bind].
  destruct (lookup_lt_is_Some_2 (partInfo r) q) as [i Hi]; [lia|].
  rewrite (arr_mod_lt _ _ _ _ Hi). cbn [mbind res_bind].
  pose proof (first_way_S _ _ _ Hz) as HS.
  pose proof (first_way_mono sizes (S q) (q + S n) ltac:(lia)) as Hmono.
  destruct (give_ways_spec (Z.to_nat z) q (first_way sizes q) (wayPartIndex r)) as (idx&E&Hlen&H1&H2); [lia|].
  rewrite E. cbn [mbind res_bind]. rewrite <- HS.
  match goal with |- context [set_parts n (S q) _ ?r' _] => destruct (IH (S q) r') as (info'&idx'&E'&Hlen'&Hsame&Hways) end;
    cbn.
  - rewrite length_insert. exact Hp.
  - lia.
  - done.
  - replace (S (q + n)) with (q + S n)%nat by lia. rewrite Hlen. exact Hf.
  - intros q' w Hq' Hw. destruct (decide (q' = q)) as [->|].
    + apply H1. lia.
    + pose proof (first_way_mono sizes (S q') q ltac:(lia)). rewrite H2 by lia. apply Hdone; [lia|done].
  - exists info', idx'. replace (q + S n)%nat with (S q + n)%nat by lia. split; [exact E'|]. split; [by rewrite Hlen'|].
    split; [|done]. cbn in Hsame. etrans; [|exact Hsame].
    apply Forall2_same_length_lookup. split; [by rewrite length_insert|].
    intros j x y Hx Hy. destruct (decide (q = j)) as [<-|].
    + rewrite list_lookup_insert_eq in Hy by (by eapply lookup_lt_Some). simplify_eq. done.
    + rewrite list_lookup_insert_ne in Hy by done. by simplify_eq.
Qed.
(** Sizes that add up to more than the ways run off the end of [wayPartIndex]. *)
Lemma give_ways_over n q : forall cur idx, (cur <= length idx < cur + n)%nat ->
  give_ways n cur q idx = Err (Panic "array index out of range").
Proof.
  induction n as [|n IH]; intros cur idx Hl; cbn [give_ways]; [lia|].
  destruct (decide (cur = length idx)) as [->|].
  - unfold arr_set. by rewrite Nat.ltb_irrefl.
  - rewrite arr_set_lt by lia. cbn [mbind res_bind]. apply IH. rewrite length_insert. lia.
Qed.

Lemma first_over sizes m : forall q, (m < first_way sizes q)%nat -> exists p, (p < q)%nat /\ (first_way sizes p <= m < first_way sizes (S p))%nat.
Proof.
  induction q as [|q IH]; intros Hm; [change (first_way sizes 0) with O in Hm; lia|]. destruct (decide (m < first_way sizes q)%nat) as [Hlt|].
  - destruct (IH Hlt) as (p&?&?). exists p. split; [lia|done].
  - exists q. split; [lia|]. lia.
Qed.

Lemma set_parts_split sizes a : forall b q cur (r : t Mo),
  set_parts (a + b) q cur r sizes = ('(cur, r) ← set_parts a q cur r sizes; set_parts b (q + a) cur r sizes).
Proof.
  induction a as [|a IH]; intros b q cur r; cbn [set_parts Nat.add]; [by rewrite Nat.add_0_r|].
  destruct (arr_get sizes q) as [z|]; [|done]. cbn [mbind res_bind]. destruct (arr_mod _ _ _) as [info|]; [|done]. cbn [mbind res_bind].
  destruct (give_ways _ _ _ _) as [idx|]; [|done]. cbn [mbind res_bind]. rewrite IH. by rewrite <- Nat.add_succ_comm.
Qed.

Lemma setPartitionSizes_over (r : t Mo) sizes :
  length (partInfo r) = partitions r -> length (wayPartIndex r) = ways r -> (partitions r <= length sizes)%nat ->
  (ways r < first_way sizes (partitions r))%nat ->
  exists p w r1, (p < partitions r)%nat /\ sizes !! p = Some w /\ set_parts p 0 0 r sizes = Ok (first_way sizes p, r1) /\
    (first_way sizes p <= length (wayPartIndex r1))%nat /\ length (wayPartIndex r1) = ways r /\
    give_ways (Z.to_nat w) (first_way sizes p) p (wayPartIndex r1) = Err (Panic "array index out of range") /\
    setPartitionSizes sizes r = Err (Panic "array index out of range").
Proof.
  intros Hp Hw Hl Hover. destruct (first_over sizes (ways r) _ Hover) as (p&Hpn&Hlo&Hhi).
  destruct (lookup_lt_is_Some_2 sizes p) as [w Hz]; [lia|]. pose proof (first_way_S _ _ _ Hz) as HS.
  destruct (set_parts_spec sizes p 0 r Hp) as (info&idx&E&Hli&Hsame&_); [lia|done|rewrite Nat.add_0_l; lia|intros; lia|].
  rewrite Nat.add_0_l in E. change (first_way sizes 0) with O in E.
  assert (Hg : give_ways (Z.to_nat w) (first_way sizes p) p idx = Err (Panic "array index out of range"))
    by (apply give_ways_over; lia).
  exists p, w, (with_ways idx (with_part info r)). cbn [wayPartIndex with_ways]. split_and!; try done; try lia.
  unfold setPartitionSizes. replace (partitions r) with (p + S (partitions r - S p))%nat by lia.
  rewrite set_parts_split, E. cbn [mbind res_bind set_parts]. rewrite Nat.add_0_l, (arr_get_Some _ _ _ Hz). cbn [mbind res_bind].
  pose proof Hsame as Hlen. apply Forall2_length in Hlen.
  destruct (lookup_lt_is_Some_2 info p) as [i Hi]; [lia|]. cbn [partInfo with_ways with_part].
  rewrite (arr_mod_lt _ _ _ _ Hi). cbn [mbind res_bind wayPartIndex with_ways]. by rewrite Hg.
Qed.

End Sizes.

(** *** The invariant *)
Section Invariant.
Context {Mo : Type} `{AccessLaws Mo} (partOf : MemReq -> res nat).

(** The lines of partition [q]. *)
Definition lines_of (q : nat) (l : list WayPartInfo) : Z := Z.of_nat (cnt (fun e => (p e =? q)%nat) l).

Record Inv (r : t Mo) : Prop := {
  inv_parts : length (partInfo r) = partitions r;
  inv_array : Z.of_nat (length (array r)) < two32;
  inv_ways : length (wayPartIndex r) = ways r;
  inv_lines : Forall (fun e => (p e < partitions r)%nat) (array r);
  inv_sizes : forall q, (q < partitions r)%nat -> size <$> partInfo r !! q = Some (lines_of q (array r));
  inv_inc : (incomingLinePart r < partitions r)%nat;
  inv_owned : forall q, (q < partitions r)%nat -> exists w, (w < ways r)%nat /\ wayPartIndex r !! w = Some q;
  inv_acc : acc_ok (partitions r) (monitor r) }.

Definition Idle (r : t Mo) : Prop := bestId r = None /\ candIdx r = O.

Lemma cnt_length_le {A} (f : A -> bool) l : (cnt f l <= length l)%nat.
Proof. induction l; cbn; [lia|]. case_match; lia. Qed.

Lemma sz_mod (l : list PartInfo) i x y q : l !! i = Some x ->
  size <$> (<[i := y]> l) !! q = if decide (i = q) then Some (size y) else size <$> l !! q.
Proof.
  intros E. case_decide as Hd; [subst|by rewrite list_lookup_insert_ne].
  rewrite list_lookup_insert_eq by (by eapply lookup_lt_Some). done.
Qed.

(** How the number of lines of a partition changes when a line moves. *)
Lemma lines_of_insert l id e e' q : l !! id = Some e ->
  lines_of q (<[id := e']> l) = lines_of q l + (if decide (p e' = q) then 1 else 0) - (if decide (p e = q) then 1 else 0).
Proof.
  intros E. unfold lines_of. pose proof (cnt_insert (fun x => (p x =? q)%nat) l id e e' E) as Hc. cbn in Hc.
  repeat case_decide; destruct (Nat.eqb_spec (p e) q), (Nat.eqb_spec (p e') q); try done; lia.
Qed.

(** The statistics of the partitions after [update] moved a line from [oldPart] to [newPart]. *)
Lemma move_line r id e : Inv r -> array r !! id = Some e -> let newPart := incomingLinePart r in
  exists info,
    (info ← (if negb (p e =? newPart)%nat then
               info ← arr_mod (partInfo r) (p e) (fun i => on_prof incExt (set_size (u64 (size i - 1)) i));
               arr_mod info newPart (fun i => set_size (u64 (size i + 1)) i)
             else arr_mod (partInfo r) (p e) (on_prof incSelf));
     info ← arr_mod info newPart (on_prof incMisses);
     Ok (info, newPart)) = Ok (info, newPart) /\ length info = partitions r /\
    forall q a ts', (q < partitions r)%nat -> size <$> info !! q = Some (lines_of q (<[id := mkWP a ts' newPart]> (array r))).
Proof.
  intros [] He newPart.
  assert (p e < partitions r)%nat as Hold by (by eapply Forall_lookup_1 in inv_lines0; eauto).
  destruct (lookup_lt_is_Some_2 (partInfo r) (p e)) as [io Hio]; [lia|].
  destruct (lookup_lt_is_Some_2 (partInfo r) newPart) as [inw Hin]; [lia|].
  pose proof (inv_sizes0 _ Hold) as So. rewrite Hio in So. cbn in So. injection So as So.
  pose proof (inv_sizes0 _ inv_inc0) as Sn. fold newPart in Sn. rewrite Hin in Sn. cbn in Sn. injection Sn as Sn.
  assert (forall q, 0 <= lines_of q (array r) <= Z.of_nat (length (array r))) as Hr.
  { intros q. unfold lines_of. pose proof (cnt_length_le (fun e => (p e =? q)%nat) (array r)). lia. }
  assert (0 < lines_of (p e) (array r)) as Hpos.
  { unfold lines_of. pose proof (cnt_pos (fun x => (p x =? p e)%nat) _ _ _ He (Nat.eqb_refl _)). lia. }
  destruct (Nat.eqb_spec (p e) newPart) as [Heq|Hne]; cbn [negb].
  - rewrite (arr_mod_lt _ _ _ _ Hio). cbn [mbind res_bind].
    rewrite (arr_mod_lt _ newPart _ (on_prof incSelf io)) by (rewrite Heq; apply list_lookup_insert_eq; lia).
    cbn [mbind res_bind]. eexists. split; [done|]. split; [by rewrite !length_insert|].
    intros q a ts' Hq. rewrite (lines_of_insert _ _ e) by done. cbn.
    rewrite (sz_mod _ _ (on_prof incSelf io)) by (rewrite Heq; apply list_lookup_insert_eq; lia).
    rewrite (sz_mod _ _ _ _ _ Hio), inv_sizes0 by done. rewrite Heq.
    case_decide; [|f_equal; lia]. cbn. rewrite So. subst q. f_equal. rewrite Heq. lia.
  - rewrite (arr_mod_lt _ _ _ _ Hio). cbn [mbind res_bind].
    rewrite (arr_mod_lt _ newPart _ inw) by (by rewrite list_lookup_insert_ne). cbn [mbind res_bind].
    erewrite (arr_mod_lt _ newPart) by (apply list_lookup_insert_eq; rewrite length_insert; lia). cbn [mbind res_bind].
    eexists. split; [done|]. split; [by rewrite !length_insert|].
    intros q a ts' Hq. rewrite (lines_of_insert _ _ e) by done. cbn.
    erewrite sz_mod by (apply list_lookup_insert_eq; rewrite length_insert; lia).
    rewrite (sz_mod _ _ inw) by (by rewrite list_lookup_insert_ne).
    rewrite (sz_mod _ _ _ _ _ Hio), inv_sizes0 by done. cbn.
    pose proof (Hr newPart). pose proof (Hr (p e)). pose proof (Hr q). rewrite So, Sn, !u64_small by (unfold two64, two32 in *; lia).
    repeat case_decide; subst; try done; f_equal; lia.
Qed.

Lemma update_spec r id req : Inv r -> (id < length (array r))%nat ->
  exists r', update r id req = Ok r' /\ Inv r' /\ length (array r') = length (array r) /\
    (bestId r', candIdx r', testMode r', partitions r', ways r') = (bestId r, candIdx r, testMode r, partitions r, ways r).
Proof.
  intros HI Hid. pose proof HI as [Hp Ha Hw Hl Hs Hi Ho Hacc].
  destruct (arr_get_lt _ _ Hid) as (e&He&Ee). unfold update. rewrite Ee. cbn [mbind res_bind].
  assert (p e < partitions r)%nat as Hpe by (by eapply Forall_lookup_1 in Hl; eauto).
  assert (exists info q, (if 0 <? ts e then info ← arr_mod (partInfo r) (p e) (on_prof incHits); Ok (info, p e)
     else
       info ← (if negb (p e =? incomingLinePart r)%nat then
                 info ← arr_mod (partInfo r) (p e) (fun i => on_prof incExt (set_size (u64 (size i - 1)) i));
                 arr_mod info (incomingLinePart r) (fun i => set_size (u64 (size i + 1)) i)
               else arr_mod (partInfo r) (p e) (on_prof incSelf));
       info ← arr_mod info (incomingLinePart r) (on_prof incMisses);
       Ok (info, incomingLinePart r)) = Ok (info, q) /\ length info = partitions r /\ (q < partitions r)%nat /\
    forall q' a ts', (q' < partitions r)%nat -> size <$> info !! q' = Some (lines_of q' (<[id := mkWP a ts' q]> (array r))))
    as (info&q&E&Hli&Hq&Hsz).
  { case_match.
    - destruct (lookup_lt_is_Some_2 (partInfo r) (p e)) as [i Hi']; [lia|]. rewrite (arr_mod_lt _ _ _ _ Hi'). cbn [mbind res_bind].
      eexists _, (p e). split; [done|]. split; [by rewrite length_insert|]. split; [done|].
      intros q' a ts' Hq'. rewrite (lines_of_insert _ _ e) by done. cbn. rewrite (sz_mod _ _ _ _ _ Hi').
      rewrite Hs by done. case_decide; [subst q'|f_equal; lia]. cbn.
      pose proof (Hs _ Hpe) as E. rewrite Hi' in E. cbn in E. injection E as ->. f_equal. lia.
    - destruct (move_line r id e HI He) as (info&E&Hli&Hsz). eauto 10. }
  cbn zeta. rewrite E. cbn [mbind res_bind]. rewrite arr_set_lt by done. cbn [mbind res_bind].
  destruct (wp_elim _ _ _ (acc_access (partitions r) q (addr e) (monitor r) Hacc Hq)) as ([]&mo&Em&Hmo).
  cbn [monitor with_ts with_array with_part]. rewrite Em. eexists. split; [done|]. split; [|split; [apply length_insert|done]].
  constructor; cbn; try done.
  - by rewrite length_insert.
  - by apply Forall_insert.
  - intros q' Hq'. by apply Hsz.
Qed.

Lemma rank_spec r req cands q : Inv r -> Idle r -> partOf req = Ok q -> (q < partitions r)%nat ->
  length cands = ways r -> Forall (fun id => (id < length (array r))%nat) cands ->
  exists v r' w e, rank partOf r req cands = Ok (v, r') /\ array r !! v = Some e /\ cands !! w = Some v /\
    (testMode r = false -> wayPartIndex r !! w = Some q) /\
    (forall w' c f, cands !! w' = Some c -> (testMode r = false -> wayPartIndex r !! w' = Some q) -> array r !! c = Some f ->
      evict_le (with_incoming q (lineAddr req) r) e f = true) /\
    r' = with_cand (Some v) (length cands) (with_incoming q (lineAddr req) r).
Proof.
  intros HI [Hb Hc] Hpart Hq Hlen HF. pose proof HI as [Hp Ha Hw Hl Hs Hi Ho Hacc].
  set (r0 := with_incoming q (lineAddr req) r).
  destruct (record_all_spec r0 cands) with (seen := @nil nat) (r := r0) as (r'&Er&(b&->&Hbest)); [done| |cbn; lia| |].
  - exists None. split; [|cbn; lia]. unfold r0, with_cand, with_incoming. cbn. by rewrite Hb, Hc.
  - eapply Forall_impl; [|exact HF]. intros id Hid. by apply lookup_lt_is_Some_2.
  - assert (Hel : forall w, eligible r0 w = true <-> (testMode r = false -> wayPartIndex r !! w = Some q)).
    { intros w. unfold eligible. cbn. destruct (testMode r); cbn; [by split|].
      rewrite bool_decide_eq_true. naive_solver. }
    destruct b as [v|].
    + destruct Hbest as (w&e&Hwv&Hew&He&Hmin). exists v, (with_cand (Some v) (length cands) r0), w, e.
      cbn [app] in *. split; [|split; [done|split; [done|split; [by apply Hel|split; [|done]]]]].
      * unfold rank, legacy_rank, startReplacement. rewrite Hc, Hb, Hpart. cbn [Nat.eqb rassert mbind res_bind].
        rewrite bool_decide_true by done. cbn [rassert mbind res_bind]. fold r0. rewrite Er. done.
      * intros w' c f Hc' Hew' Hf. eapply Hmin; eauto. by apply Hel.
    + destruct (Ho q Hq) as (w&Hww&Hwq). specialize (Hbest w). cbn in Hbest.
      rewrite (proj2 (Hel w) (fun _ => Hwq)) in Hbest. rewrite Hlen in Hbest. by specialize (Hbest Hww).
Qed.

Lemma replaced_spec r v : Inv r -> (v < length (array r))%nat ->
  exists r', replaced r v = Ok r' /\ Inv r' /\ Idle r' /\ length (array r') = length (array r).
Proof.
  intros HI Hv. pose proof HI as [Hp Ha Hw Hl Hs Hi Ho Hacc].
  destruct (lookup_lt_is_Some_2 _ _ Hv) as [e He]. unfold replaced. rewrite (arr_mod_lt _ _ _ _ He). cbn [mbind res_bind].
  eexists. split; [done|]. split; [|split; [done|apply length_insert]]. constructor; cbn; try done.
  - by rewrite length_insert.
  - apply Forall_insert; [done|]. cbn. by eapply Forall_lookup_1 in Hl; eauto.
  - intros q Hq. rewrite Hs by done. rewrite (lines_of_insert _ _ e) by done. cbn. f_equal. case_decide; lia.
Qed.

(** The sizes that a partitioner may set: one or more ways for each partition, all the ways in all. *)
Definition sizes_ok (r : t Mo) (sizes : list Z) : Prop :=
  (partitions r <= length sizes)%nat /\ Forall (fun z => 1 <= z) sizes /\ first_way sizes (partitions r) = ways r.

Lemma setPartitionSizes_spec r sizes : Inv r -> sizes_ok r sizes ->
  exists r', setPartitionSizes sizes r = Ok r' /\ Inv r' /\
    (bestId r', candIdx r', array r', testMode r', partitions r', ways r') =
      (bestId r, candIdx r, array r, testMode r, partitions r, ways r) /\
    (forall q w, (q < partitions r)%nat -> (first_way sizes q <= w < first_way sizes (S q))%nat -> wayPartIndex r' !! w = Some q).
Proof.
  intros HI (Hlen&Hpos&Hsum). pose proof HI as [Hp Ha Hw Hl Hs Hi Ho Hacc].
  destruct (set_parts_spec sizes (partitions r) 0 r) as (info&idx&E&Hli&Hsame&Hways);
    [done|done|done|rewrite Nat.add_0_l; lia|intros; lia|].
  cbn [Nat.add] in E, Hways. change (first_way sizes 0) with O in E.
  unfold setPartitionSizes. rewrite E. cbn [mbind res_bind ways with_ways with_part]. rewrite Hsum, Nat.eqb_refl.
  cbn [rassert mbind res_bind]. eexists. split; [done|]. split; [|split; [done|exact Hways]].
  constructor; cbn; try done.
  - apply Forall2_length in Hsame. congruence.
  - congruence.
  - intros q Hq. rewrite <- Hs by done. 
    destruct (lookup_lt_is_Some_2 (partInfo r) q) as [i Hiq]; [lia|].
    destruct (Forall2_lookup_l _ _ _ _ _ Hsame Hiq) as (i'&Hi'&[Hsz _]). rewrite Hiq, Hi'. cbn. by rewrite Hsz.
  - intros q Hq. destruct (lookup_lt_is_Some_2 sizes q) as [z Hz]; [lia|].
    assert (1 <= z) by (by eapply Forall_lookup_1 in Hpos; eauto). pose proof (first_way_S _ _ _ Hz).
    pose proof (first_way_mono sizes (S q) (partitions r) ltac:(lia)).
    exists (first_way sizes q). split; [lia|]. apply Hways; [done|lia].
Qed.

(** *** Runs *)
Inductive op :=
| Hit (id : nat) (req : MemReq)               (** the array found the line *)
| Miss (req : MemReq) (cands : list nat)      (** a replacement among [cands] *)
| Resize (sizes : list Z).                    (** the partitioner sets the ways *)

Definition do_op (o : op) (r : t Mo) : res (t Mo) :=
  match o with
  | Hit id req => update r id req
  | Miss req cands =>
      '(v, r) ← rank partOf r req cands;
      r ← replaced r v;
      update r v req
  | Resize sizes => setPartitionSizes sizes r
  end.
Fixpoint run (l : list op) (r : t Mo) : res (t Mo) :=
  match l with [] => Ok r | o :: l => r ← do_op o r; run l r end.

(** What the callers see to: lines that exist, the candidates of a set, one per way, a
    partition that exists. *)
Definition op_ok (n parts nways : nat) (o : op) : Prop :=
  match o with
  | Hit id _ => (id < n)%nat
  | Miss req cands => (exists q, partOf req = Ok q /\ (q < parts)%nat) /\ length cands = nways /\
      Forall (fun id => (id < n)%nat) cands
  | Resize sizes => (parts <= length sizes)%nat /\ Forall (fun z => 1 <= z) sizes /\ first_way sizes parts = nways
  end.

(** The state between operations. *)
Definition Ready (n parts nways : nat) (tm : bool) (r : t Mo) : Prop :=
  Inv r /\ Idle r /\ length (array r) = n /\ partitions r = parts /\ ways r = nways /\ testMode r = tm.

Lemma do_op_spec n parts nways tm o r : Ready n parts nways tm r -> op_ok n parts nways o ->
  exists r', do_op o r = Ok r' /\ Ready n parts nways tm r'.
Proof.
  intros (HI&HId&<-&<-&<-&<-) Ho. destruct o as [id req|req cands|sizes]; cbn [do_op op_ok] in *.
  - destruct (update_spec r id req HI Ho) as (r'&E&HI'&Hl&Heq). exists r'. split; [done|].
    injection Heq as E1 E2 E0 E3 E4. destruct HId.
    split; [done|]. split; [by split; congruence|]. split_and!; congruence.
  - destruct Ho as ((q&Eq&Hq)&Hl&HF).
    destruct (rank_spec r req cands q HI HId Eq Hq Hl HF) as (v&r1&w&e&E&He&_&_&_&->). rewrite E. cbn [mbind res_bind].
    assert (Inv (with_cand (Some v) (length cands) (with_incoming q (lineAddr req) r))) as HI1 by (destruct HI; by constructor).
    assert (v < length (array r))%nat as Hv by (by eapply lookup_lt_Some).
    destruct (replaced_spec _ v HI1 Hv) as (r2&E2&HI2&HId2&Hl2). rewrite E2. cbn [mbind res_bind].
    assert (partitions r2 = partitions r /\ ways r2 = ways r /\ testMode r2 = testMode r) as (Ep2&Ew2&Et2).
    { unfold replaced in E2. destruct (arr_mod _ _ _); cbn in E2; [|done]. by injection E2 as <-. }
    destruct (update_spec r2 v req HI2) as (r3&E3&HI3&Hl3&Heq); [rewrite Hl2; exact Hv|].
    exists r3. split; [done|]. injection Heq as F1 F2 F0 F3 F4. destruct HId2.
    split; [done|]. split; [by split; congruence|]. rewrite Hl3, Hl2. split_and!; [done|congruence..].
  - destruct (setPartitionSizes_spec r sizes HI Ho) as (r'&E&HI'&Heq&_). exists r'. split; [done|].
    injection Heq as F1 F2 F3 F0 F4 F5. destruct HId.
    split; [done|]. split; [by split; congruence|]. split_and!; congruence.
Qed.

Lemma run_spec_way n parts nways tm l : forall r, Ready n parts nways tm r -> Forall (op_ok n parts nways) l ->
  exists r', run l r = Ok r' /\ Ready n parts nways tm r'.
Proof.
  induction l as [|o l IH]; intros r HR HF; cbn [run]; [eauto|]. apply Forall_cons_1 in HF as [Ho HF].
  destruct (do_op_spec n parts nways tm o r HR Ho) as (r'&->&HR'). cbn [mbind res_bind]. by apply IH.
Qed.

End Invariant.

(** *** The constructor *)
Section Init.
Context {Mo : Type} `{AccessLaws Mo}.

Lemma init_ways_spec nways parts sz n : forall w idx info, (w + n = nways)%nat -> length idx = nways -> length info = parts ->
  (0 < parts)%nat -> (forall w', (w' < w)%nat -> idx !! w' = Some (w' * parts / nways)%nat) ->
  exists idx' info', init_ways n w nways parts sz idx info = Ok (idx', info') /\ length idx' = nways /\
    (forall w', (w' < nways)%nat -> idx' !! w' = Some (w' * parts / nways)%nat) /\ same_sizes info info'.
Proof.
  induction n as [|n IH]; intros w idx info Hw Hl Hli Hp Hd; cbn [init_ways].
  { rewrite Nat.add_0_r in Hw. subst w. exists idx, info. by repeat split. }
  rewrite arr_set_lt by lia. cbn [mbind res_bind].
  assert (w * parts / nways < parts)%nat as Hq by (apply Nat.Div0.div_lt_upper_bound; nia).
  destruct (lookup_lt_is_Some_2 info (w * parts / nways)) as [i Hi]; [lia|]. rewrite (arr_mod_lt _ _ _ _ Hi). cbn [mbind res_bind].
  destruct (IH (S w) (<[w := (w * parts / nways)%nat]> idx)
    (<[(w * parts / nways)%nat := set_target (u64 (targetSize i + sz)) i]> info)) as (idx'&info'&E&H1&H2&H3);
    try rewrite length_insert; try done; try lia.
  - intros w' Hw'. destruct (decide (w' = w)) as [->|]; [apply list_lookup_insert_eq; lia|].
    rewrite list_lookup_insert_ne by lia. apply Hd. lia.
  - exists idx', info'. split; [done|]. split; [done|]. split; [done|]. etrans; [|exact H3].
    apply Forall2_same_length_lookup. split; [by rewrite length_insert|].
    intros j x y Hx Hy. destruct (decide ((w * parts / nways)%nat = j)) as [<-|].
    + rewrite list_lookup_insert_eq in Hy by (by eapply lookup_lt_Some). by simplify_eq.
    + rewrite list_lookup_insert_ne in Hy by done. by simplify_eq.
Qed.

Lemma init_ready (mo : Mo) parts waySize nways tm : acc_ok parts mo -> (0 < parts <= nways)%nat ->
  0 <= waySize -> waySize * Z.of_nat nways < two32 ->
  exists r, init mo parts (waySize * Z.of_nat nways) nways tm = Ok r /\
    Ready (Z.to_nat (waySize * Z.of_nat nways)) parts nways tm r.
Proof.
  intros Hacc Hp Hws Hlt. set (lines := waySize * Z.of_nat nways) in *. unfold init.
  assert (lines / Z.of_nat nways = waySize) as -> by (unfold lines; apply Z.div_mul; lia).
  rewrite u32_small by (unfold lines; nia). rewrite Z.eqb_refl. cbn [rassert mbind res_bind].
  destruct parts as [|parts']; [lia|]. set (parts := S parts') in *.
  rewrite (arr_mod_lt _ 0 _ (mkPI 0 0 (mkProf 0 0 0 0))) by done. cbn [mbind res_bind].
  destruct (init_ways_spec nways parts waySize nways 0 (replicate nways 0%nat)
    (<[0%nat := set_size lines (mkPI 0 0 (mkProf 0 0 0 0))]> (replicate parts (mkPI 0 0 (mkProf 0 0 0 0)))))
    as (idx&info&E&Hli&Hidx&Hsame); try rewrite ?length_insert, ?length_replicate; try done; try lia.
  rewrite E. cbn [mbind res_bind]. eexists. split; [done|].
  split; [|split; [done|split; [apply length_replicate|done]]].
  constructor; cbn [partInfo partitions array ways wayPartIndex incomingLinePart monitor].
  - apply Forall2_length in Hsame. rewrite length_insert, length_replicate in Hsame. done.
  - rewrite length_replicate. lia.
  - done.
  - apply Forall_replicate. cbn. lia.
  - intros q Hq.
    assert (lines_of q (replicate (Z.to_nat lines) (mkWP 0 0 0)) = if decide (q = O) then lines else 0) as ->.
    { unfold lines_of. case_decide as Hd.
      - subst q. assert (forall n, cnt (fun e => (p e =? 0)%nat) (replicate n (mkWP 0 0 0)) = n) as -> by (induction n; cbn; lia).
        unfold lines. lia.
      - rewrite cnt_replicate; [done|]. cbn. by destruct q. }
    destruct (lookup_lt_is_Some_2 info q) as [i Hi].
    { apply Forall2_length in Hsame. rewrite length_insert, length_replicate in Hsame. lia. }
    destruct (Forall2_lookup_r _ _ _ _ _ Hsame Hi) as (i0&Hi0&[Hsz _]). rewrite Hi. cbn. f_equal. rewrite <- Hsz.
    destruct q as [|q]; [by cbn in Hi0; simplify_eq|].
    rewrite list_lookup_insert_ne in Hi0 by done. apply lookup_replicate in Hi0 as [-> _]. done.
  - lia.
  - intros q Hq. exists ((q * nways + parts - 1) / parts)%nat.
    assert (q * nways <= (q * nways + parts - 1) / parts * parts <= q * nways + parts - 1)%nat as Hw.
    { pose proof (Nat.div_mod_eq (q * nways + parts - 1) parts).
      pose proof (Nat.mod_upper_bound (q * nways + parts - 1) parts ltac:(lia)). lia. }
    set (w := ((q * nways + parts - 1) / parts)%nat) in *.
    assert (w < nways)%nat as Hwn by nia. split; [done|]. rewrite Hidx by done. f_equal.
    symmetry. apply (Nat.div_unique _ _ _ (w * parts - q * nways)); lia.
  - done.
Qed.
End Init.
End WayPart.

(** ** Theorems *)
Section Theorems.
Context {Mo : Type} `{AccessLaws Mo} (partOf : MemReq -> res nat).
Import WayPart.

(** C31: (way partitioning is safe) From the constructor, any sequence of hits, replacements among the candidates of a set
    and resizings to one or more ways each runs without a failed
    assertion or an access out of range; after it the size of each partition is the
    number of lines that belong to it, and each partition owns a way. *)
Theorem waypart_safe (mo : Mo) (parts nways : nat) (waySize : Z) (tm : bool) (l : list op) :
  acc_ok parts mo -> (0 < parts <= nways)%nat -> 0 <= waySize -> waySize * Z.of_nat nways < two32 ->
  Forall (op_ok partOf (Z.to_nat (waySize * Z.of_nat nways)) parts nways) l ->
  exists r0 r, init mo parts (waySize * Z.of_nat nways) nways tm = Ok r0 /\ run partOf l r0 = Ok r /\
    (forall q, (q < parts)%nat -> exists i, partInfo r !! q = Some i /\ size i = lines_of q (array r) /\
      exists w, (w < nways)%nat /\ wayPartIndex r !! w = Some q).
Proof.
  intros Hacc Hp Hw Hlt HF. destruct (init_ready mo parts waySize nways tm Hacc Hp Hw Hlt) as (r0&E0&HR0).
  destruct (run_spec_way partOf _ _ _ _ l r0 HR0 HF) as (r&E&HI&_&_&Hpr&Hwr&_).
  exists r0, r. split; [done|]. split; [done|]. intros q Hq. rewrite <- Hpr in Hq.
  pose proof (inv_sizes r HI q Hq) as Hs. destruct (partInfo r !! q) as [i|]; [|done]. exists i.
  split; [done|]. split; [by injection Hs|]. rewrite <- Hwr. by apply (inv_owned r HI).
Qed.

(** (the victim) In every state that such a sequence reaches, a replacement for a request
    of partition [q] evicts a line in a way that [q] owns; among the candidates in those
    ways it takes one that another partition left there if there is one, and the least
    recently used of its kind. *)
Theorem waypart_victim (mo : Mo) (parts nways : nat) (waySize : Z) (l : list op) (r0 r : t Mo) (req : MemReq)
    (cands : list nat) (q : nat) :
  acc_ok parts mo -> (0 < parts <= nways)%nat -> 0 <= waySize -> waySize * Z.of_nat nways < two32 ->
  Forall (op_ok partOf (Z.to_nat (waySize * Z.of_nat nways)) parts nways) l ->
  init mo parts (waySize * Z.of_nat nways) nways false = Ok r0 -> run partOf l r0 = Ok r ->
  partOf req = Ok q -> (q < parts)%nat -> length cands = nways -> Forall (fun id => (id < length (array r))%nat) cands ->
  exists v r' w e, rank partOf r req cands = Ok (v, r') /\ cands !! w = Some v /\ wayPartIndex r !! w = Some q /\
    array r !! v = Some e /\
    (forall w' c f, cands !! w' = Some c -> wayPartIndex r !! w' = Some q -> array r !! c = Some f ->
      (p f <> q -> p e <> q) /\ ((p e = q <-> p f = q) -> ts e <= ts f)).
Proof.
  intros Hacc Hp Hw Hlt HF E0 E Hpart Hq Hlen Hc.
  destruct (init_ready mo parts waySize nways false Hacc Hp Hw Hlt) as (r0'&E0'&HR0).
  rewrite E0 in E0'. injection E0' as <-.
  destruct (run_spec_way partOf _ _ _ _ l r0 HR0 HF) as (r''&E''&HI&HId&_&Hpr&Hwr&Ht).
  rewrite E in E''. injection E'' as <-.
  destruct (rank_spec partOf r req cands q HI HId Hpart ltac:(lia) ltac:(lia) Hc) as (v&r'&w&e&Er&He&Hwv&Hwq&Hmin&_).
  exists v, r', w, e. split; [done|]. split; [done|]. split; [by apply Hwq|]. split; [done|].
  intros w' c f Hc' Hw' Hf. specialize (Hmin w' c f Hc' (fun _ => Hw') Hf). revert Hmin.
  unfold evict_le. cbn. rewrite Ht.
  destruct (Nat.eqb_spec (p e) q), (Nat.eqb_spec (p f) q); cbn; rewrite ?Z.leb_le; try done; intros; split; try tauto; lia.
Qed.

Lemma wp_on_monitor {A} (f : M Mo A) (l : Partitioner.LookaheadPartitioner) (r : t Mo) Q :
  wp f (fun a mo => Q a (l, with_monitor mo r)) (monitor r) -> wp (Partitioner.on_monitor f) Q (l, r).
Proof. unfold wp. cbn. by destruct (f (monitor r)) as [[a mo]|]. Qed.

Lemma copy_allocs_Ok best : forall i cur cur', Partitioner.copy_allocs i best cur = Ok cur' ->
  length cur' = length cur /\ (best <> [] -> (i + length best <= length cur)%nat) /\ (forall j, (j < i)%nat -> cur' !! j = cur !! j) /\
  (forall j, (j < length best)%nat -> cur' !! (i + j)%nat = best !! j).
Proof.
  induction best as [|a best IH]; intros i cur cur' E; cbn [Partitioner.copy_allocs] in E.
  { injection E as <-. repeat split; try done. intros j Hj. cbn in Hj. lia. }
  unfold arr_set in E. destruct (Nat.ltb_spec i (length cur)) as [Hi|]; [|done]. cbn [mbind res_bind] in E.
  destruct (IH _ _ _ E) as (Hl&Hb&Hlow&Hhi). rewrite length_insert in *. split; [done|]. split; [|split].
  - intros _. cbn. destruct best; [cbn; lia|]. specialize (Hb ltac:(done)). cbn in *. lia.
  - intros j Hj. rewrite Hlow by lia. by rewrite list_lookup_insert_ne by lia.
  - intros [|j] Hj.
    + rewrite Nat.add_0_r, Hlow by lia. by apply list_lookup_insert_eq.
    + replace (i + S j)%nat with (S i + j)%nat by lia. cbn in Hj. apply Hhi. lia.
Qed.

Lemma copy_allocs_total best : forall i cur, (i + length best <= length cur)%nat -> exists cur', Partitioner.copy_allocs i best cur = Ok cur'.
Proof.
  induction best as [|a best IH]; intros i cur Hi; cbn [Partitioner.copy_allocs]; [eauto|]. cbn in Hi.
  rewrite arr_set_lt by lia. cbn [mbind res_bind]. apply IH. rewrite length_insert. lia.
Qed.

Lemma sum_widths l : Forall (fun z => 0 <= z) l -> Z.of_nat (sum_list (widths l)) = zsum l.
Proof. unfold widths, zsum, sum_list. induction 1 as [|z l Hz Hl IH]; cbn in *; [done|]. unfold id in *. lia. Qed.

Lemma choose_allocs_spec (l : Partitioner.LookaheadPartitioner) (r : t Mo) (n B : nat) `{!MonitorLaws Mo} :
  (0 < n)%nat -> Partitioner.numPartitions l = n -> Partitioner.forbidden l = None -> Partitioner.minAlloc l = 1 ->
  (n <= B)%nat -> Z.of_nat B < two32 ->
  d_to_u32 (dmul (Partitioner.allocPortion l) (d_of_Z (Z.of_nat (Partitioner.buckets l)))) = Ok (Z.of_nat B) ->
  mon_ok n B (monitor r) -> (n <= length (Partitioner.curAllocs l))%nat ->
  (forall p a, (p < n)%nat -> Partitioner.curAllocs l !! p = Some a -> 0 <= a <= Z.of_nat B) ->
  exists best mo1 mo2 cur,
    Lookahead.computeBestPartitioning n (Z.of_nat B) (Z.of_nat n) None (monitor r) = Ok (best, mo1) /\
    Lookahead.greedy (curve (monitor r)) None (replicate n (Z.of_nat n)) (Z.of_nat B - Z.of_nat n) best /\
    Partitioner.copy_allocs 0 best (Partitioner.curAllocs l) = Ok cur /\
    Partitioner.choose_allocs (l, r) = Ok (tt, Partitioner.set_allocs cur (l, with_monitor mo2 r)).
Proof.
  intros Hn Hnl Hfb Hmin HnB HB Hd Hok Hlen Hcur.
  destruct (wp_elim _ _ _ (lookahead_reads n B (Z.of_nat n) None (monitor r) Hok HB ltac:(lia) I ltac:(by exists O)))
    as (best&mo1&Eb&Hg&HR1).
  pose proof (Lookahead.greedy_length _ _ _ _ _ Hg) as Hlb. rewrite length_replicate in Hlb.
  assert (Hbest : forall p a, (p < n)%nat -> best !! p = Some a -> 0 <= a <= Z.of_nat B).
  { intros p a Hp Ha. assert (Hr : replicate n (Z.of_nat n) !! p = Some (Z.of_nat n)) by (by apply lookup_replicate).
    destruct (Lookahead.greedy_grows _ _ _ _ _ Hg _ _ Hr) as (a'&Ha'&?&_). pose proof (Lookahead.greedy_le _ _ _ _ _ Hg _ _ _ Hr Ha).
    simplify_eq. lia. }
  destruct (copy_allocs_total best 0 (Partitioner.curAllocs l)) as [cur Ec]; [lia|].
  enough (wp Partitioner.choose_allocs (fun _ st => exists mo2, st = Partitioner.set_allocs cur (l, with_monitor mo2 r)) (l, r)) as Hw.
  { destruct (wp_elim _ _ _ Hw) as ([]&st&E&mo2&->). by exists best, mo1, mo2, cur. }
  unfold Partitioner.choose_allocs. wp_steps. apply wp_lift. rewrite Hd. cbn beta iota. wp_steps. rewrite Hnl, Hfb, Hmin.
  rewrite Z.mul_1_l, u32_small by lia. apply wp_bind, wp_on_monitor. unfold wp at 1. rewrite Eb. apply wp_bind.
  apply wp_on_monitor. cbn [monitor with_monitor].
  eapply wp_mono; [apply (Lookahead.utility_loop_spec n B (curve (monitor r)) _ Hbest); [lia|done|done]|]. intros ? mo3 HR3. apply wp_bind.
  apply wp_on_monitor. cbn [monitor with_monitor].
  eapply wp_mono; [apply (Lookahead.utility_loop_spec n B (curve (monitor r)) _ Hcur); [lia|done|done]|]. intros ? mo4 HR4. apply wp_bind.
  apply wp_lift. rewrite Ec. cbn beta iota. wp_steps. by exists mo4.
Qed.

(** C33: (the partitioner and way partitioning do not fit) Take two or more partitions on
    a way-partitioned cache set up as init.cpp does (one bucket per way, minimum
    allocation 1, at least as many ways as partitions, nothing forbidden, allocPortion *
    buckets converting to the number of ways), a monitor that has the curves, a
    wayPartIndex with one entry per way, one partInfo per partition and current
    allocations of at most all the ways.  Then LookaheadPartitioner::partition computes,
    without a failure, sizes that add up to the ways plus n * (n - 1) for n partitions,
    and copies them to curAllocs; the call of setPartitionSizes with these sizes gives
    the partitions before some p their ways and then writes past the end of wayPartIndex
    in the loop of p. *)
Theorem lookahead_overcommits_ways `{!MonitorLaws Mo} (l : Partitioner.LookaheadPartitioner) (r : t Mo) (n : nat) :
  (2 <= n)%nat -> Partitioner.numPartitions l = n -> partitions r = n -> Partitioner.forbidden l = None ->
  Partitioner.minAlloc l = 1 -> (n <= ways r)%nat -> Z.of_nat (ways r) < two32 ->
  d_to_u32 (dmul (Partitioner.allocPortion l) (d_of_Z (Z.of_nat (Partitioner.buckets l)))) = Ok (Z.of_nat (ways r)) ->
  mon_ok n (ways r) (monitor r) -> length (wayPartIndex r) = ways r -> length (partInfo r) = n ->
  (n <= length (Partitioner.curAllocs l))%nat ->
  (forall p a, (p < n)%nat -> Partitioner.curAllocs l !! p = Some a -> 0 <= a <= Z.of_nat (ways r)) ->
  exists best mo l' r' p w r1,
    Lookahead.computeBestPartitioning n (Z.of_nat (ways r)) (Z.of_nat n) None (monitor r) = Ok (best, mo) /\
    zsum best = Z.of_nat (ways r) + Z.of_nat n * (Z.of_nat n - 1) /\
    Partitioner.choose_allocs (l, r) = Ok (tt, (l', r')) /\ take n (Partitioner.curAllocs l') = best /\
    (ways r', wayPartIndex r', partInfo r') = (ways r, wayPartIndex r, partInfo r) /\
    (p < n)%nat /\ best !! p = Some w /\
    set_parts p 0 0 r' (Partitioner.curAllocs l') = Ok (first_way best p, r1) /\
    (first_way best p <= length (wayPartIndex r1) < first_way best p + Z.to_nat w)%nat /\
    give_ways (Z.to_nat w) (first_way best p) p (wayPartIndex r1) = Err (Panic "array index out of range") /\
    setPartitionSizes (Partitioner.curAllocs l') r' = Err (Panic "array index out of range") /\
    Partitioner.partition (l, r) = Err (Panic "array index out of range").
Proof.
  intros Hn Hnl Hpr Hfb Hmin Hnw Hlt Hd Hmon Hwi Hpi Hlc Hcur.
  destruct (choose_allocs_spec l r n (ways r)) as (best&mo1&mo2&cur&Eb&Hg&Ec&E); try done; [lia|].
  pose proof (Lookahead.greedy_length _ _ _ _ _ Hg) as Hlen. rewrite length_replicate in Hlen.
  pose proof (Lookahead.greedy_sum _ _ _ _ _ Hg) as Hsum. rewrite zsum_replicate in Hsum.
  assert (Forall (fun z => 0 <= z) best) as Hnn.
  { apply Forall_lookup. intros j z Hz. assert (j < n)%nat by (apply lookup_lt_Some in Hz; lia).
    destruct (Lookahead.greedy_grows _ _ _ _ _ Hg j (Z.of_nat n)) as (z'&Hz'&?&_); [by apply lookup_replicate|].
    simplify_eq. lia. }
  pose proof (sum_widths _ Hnn) as Hsw. destruct (copy_allocs_Ok _ _ _ _ Ec) as (Hcl&_&_&Hcp).
  assert (Htake : take n cur = best).
  { apply list_eq. intros j. destruct (decide (j < n)%nat).
    - rewrite lookup_take_lt by done. by rewrite <- (Hcp j) by lia.
    - rewrite lookup_take_ge by lia. symmetry. apply lookup_ge_None. lia. }
  assert (Hfw : forall q, (q <= n)%nat -> first_way cur q = first_way best q).
  { intros q Hq. unfold first_way, widths. rewrite <- Htake, <- !fmap_take, take_take. by rewrite Nat.min_l. }
  assert (Hfn : first_way best n = sum_list (widths best)).
  { unfold first_way. rewrite take_ge; [done|]. unfold widths. rewrite length_fmap. lia. }
  destruct (setPartitionSizes_over (with_monitor mo2 r) cur) as (p&w&r1&Hp&Hw&E1&H1&H2&H3&H4);
    cbn [partitions ways partInfo wayPartIndex with_monitor] in *; [lia|done|lia| |].
  { rewrite Hfw by lia. rewrite Hpr, Hfn. nia. }
  assert (Hwb : best !! p = Some w) by (rewrite <- Hw, <- (Hcp p) by lia; done).
  rewrite Hfw in * by lia. cbn [Partitioner.set_allocs] in E.
  eexists best, mo1, _, _, p, w, r1. split; [done|]. split; [lia|]. split; [exact E|]. cbn [Partitioner.curAllocs].
  split_and!; try done; try lia.
  - destruct (decide (length (wayPartIndex r1) < first_way best p + Z.to_nat w)%nat) as [|Hge]; [done|].
    destruct (give_ways_spec (Z.to_nat w) p (first_way best p) (wayPartIndex r1)) as (?&Hc&_); [lia|]. congruence.
  - unfold Partitioner.partition, mbind, M_bind. rewrite E. unfold mget, Partitioner.on_repl.
    cbn [Partitioner.curAllocs prp_setPartitionSizes waypart_PartRepl]. by rewrite H4.
Qed.
End Theorems.

(** ** Examples *)
#[global, refine] Instance table_AccessLaws : AccessLaws Table.TableMon := {| acc_ok n mo := True |}.
Proof. done. Defined.

(** Partitions by source core, as CorePartMapper maps them. *)
Definition core_of (req : MemReq) : res nat :=
  q ← Mapper.getPartition (Mapper.CorePartMapper 2) 0 0 req; Ok (Z.to_nat q).
Definition req_of (core : nat) (a : Z) : MemReq := mkMemReq a GETS 0 (RefDummy 0) 0 None StI core 0.

(** A set of four ways: two misses of each core, a resizing to one and three ways, a hit. *)
Definition way_ops : list WayPart.op :=
  [WayPart.Miss (req_of 0 5) [0; 1; 2; 3]; WayPart.Miss (req_of 1 6) [0; 1; 2; 3]; WayPart.Resize [1%Z; 3%Z];
   WayPart.Miss (req_of 1 7) [0; 1; 2; 3]; WayPart.Hit 1 (req_of 1 7)]%nat.
Lemma way_ops_ok : Forall (WayPart.op_ok core_of (Z.to_nat (1 * Z.of_nat 4)) 2 4) way_ops.
Proof.
  unfold way_ops. repeat constructor; cbn; try lia.
  all: try (eexists; split; [vm_compute; reflexivity|lia]).
Qed.

Lemma waypart_safe_witness : exists r0 r, WayPart.init Table.mon 2 4 4 false = Ok r0 /\ WayPart.run core_of way_ops r0 = Ok r /\
  (forall q, (q < 2)%nat -> exists i, WayPart.partInfo r !! q = Some i /\ WayPart.size i = WayPart.lines_of q (WayPart.array r)).
Proof.
  destruct (waypart_safe core_of Table.mon 2 4 1 false way_ops) as (r0&r&E0&E&H);
    [done|lia|lia|done|exact way_ops_ok|].
  exists r0, r. split; [exact E0|]. split; [exact E|]. intros q Hq. destruct (H q Hq) as (i&?&?&_). eauto.
Defined.

(** The state after [way_ops]. *)
Definition way_state : option (WayPart.t Table.TableMon) :=
  match (r0 ← WayPart.init Table.mon 2 4 4 false; WayPart.run core_of way_ops r0) with Ok r => Some r | Err _ => None end.

Lemma waypart_victim_witness : exists r v r', way_state = Some r /\
  WayPart.rank core_of r (req_of 1 9) [0; 1; 2; 3]%nat = Ok (v, r') /\ WayPart.wayPartIndex r = [0; 1; 1; 1]%nat.
Proof.
  destruct (WayPart.init Table.mon 2 (1 * Z.of_nat 4) 4 false) as [r0|] eqn:E0; [|by vm_compute in E0].
  destruct (WayPart.run core_of way_ops r0) as [r|] eqn:E.
  - destruct (waypart_victim core_of Table.mon 2 4 1 way_ops r0 r (req_of 1 9) [0; 1; 2; 3]%nat 1) as (v&r'&w&e&Er&_);
      [done|lia|lia|done|exact way_ops_ok|done|done|done|lia|done| |].
    + vm_compute in E0. injection E0 as <-. vm_compute in E. injection E as <-. repeat constructor; cbn; lia.
    + exists r, v, r'. vm_compute in E0. injection E0 as <-. vm_compute in E. injection E as <-.
      split; [by vm_compute|]. split; [exact Er|done].
  - vm_compute in E0. injection E0 as <-. by vm_compute in E.
Defined.

Lemma lookahead_overcommits_ways_witness : exists r mo best,
  WayPart.init Table.mon 2 4 4 false = Ok r /\
  Lookahead.computeBestPartitioning 2 4 2 None Table.mon = Ok (best, mo) /\ zsum best = 6 /\
  Partitioner.partition (Partitioner.mkPart 1 (d_of_Z 1) None 2 4 (replicate 5 0), r) =
    Err (Panic "array index out of range").
Proof.
  destruct (WayPart.init Table.mon 2 4 4 false) as [r|] eqn:E; [|by vm_compute in E].
  assert (WayPart.partitions r = 2%nat /\ WayPart.ways r = 4%nat /\ WayPart.monitor r = Table.mon /\
    length (WayPart.wayPartIndex r) = 4%nat /\ length (WayPart.partInfo r) = 2%nat) as (Hp&Hw&Hm&Hi&Hl)
    by (vm_compute in E; injection E as <-; done). clear E.
  destruct (lookahead_overcommits_ways (Partitioner.mkPart 1 (d_of_Z 1) None 2 4 (replicate 5 0)) r 2)
    as (best&mo&l'&r'&p&w&r1&Eb&Hs&_&_&_&_&_&_&_&_&_&Ep); rewrite ?Hw, ?Hm in *; try done; try (cbn; lia).
  - exact Table.mon_ok_4.
  - intros p a Hpn Ha. destruct p as [|[|p]]; cbn in *; [injection Ha as <-; lia..|lia].
  - exists r, mo, best. split; [done|]. split; [exact Eb|]. split; [exact Hs|exact Ep].
Defined.
