(* ===== verification/Vantage.v ===== *)
(** * The Vantage replacement policy (src/src/part_repl_policies.h, VantageReplPolicy)

    Lines belong to a partition or to the unmanaged region, which has the last index.  An
    update inserts and promotes lines; a replacement first demotes candidates that are
    older than their partition's setpoint, adjusts the setpoints every 256
    candidates by a feedback rule in doubles, and then evicts from the unmanaged region if it
    can.  The invariant says that the sizes are those of the lines; the only
    assertion of a run that is not shown to hold is that of the feedback rule (its slope is positive). *)

From S2P Require Import Prelude Bithacks Double MemHier Partition ReplPolicies PartRepl.

Module Vantage.

(** VantagePartInfo: the sizes, the feedback state and the statistics. *)
Record Sizes := mkSizes { size : Z; targetSize : Z; longTermTargetSize : Z; extendedSize : Z }.
Record Feedback := mkFb {
  curBts : Z; curBtsHits : Z; setpointBts : Z; setpointAdjs : Z;
  curIntervalIns : Z; curIntervalDems : Z; curIntervalCands : Z }.
Record Stats := mkStats {
  profHits : Z; profMisses : Z; profDemotions : Z; profEvictions : Z; profSizeCycles : Z; profExtendedSizeCycles : Z }.
Record PInfo := mkPInfo { sz : Sizes; fb : Feedback; st : Stats }.

Definition on_sz (f : Sizes -> Sizes) (i : PInfo) : PInfo := mkPInfo (f (sz i)) (fb i) (st i).
Definition on_fb (f : Feedback -> Feedback) (i : PInfo) : PInfo := mkPInfo (sz i) (f (fb i)) (st i).
Definition on_st (f : Stats -> Stats) (i : PInfo) : PInfo := mkPInfo (sz i) (fb i) (f (st i)).

Definition add_size (d : Z) (s : Sizes) : Sizes :=
  mkSizes (u64 (size s + d)) (targetSize s) (longTermTargetSize s) (extendedSize s).
Definition add_ext (d : Z) (s : Sizes) : Sizes :=
  mkSizes (size s) (targetSize s) (longTermTargetSize s) (u64 (extendedSize s + d)).
Definition set_target (z : Z) (s : Sizes) : Sizes := mkSizes (size s) z (longTermTargetSize s) (extendedSize s).
Definition set_longTerm (z : Z) (s : Sizes) : Sizes := mkSizes (size s) (targetSize s) z (extendedSize s).

Definition incIns (f : Feedback) : Feedback :=
  mkFb (curBts f) (curBtsHits f) (setpointBts f) (setpointAdjs f) (u32 (curIntervalIns f + 1)) (curIntervalDems f) (curIntervalCands f).
Definition incDems (f : Feedback) : Feedback :=
  mkFb (curBts f) (curBtsHits f) (setpointBts f) (setpointAdjs f) (curIntervalIns f) (u32 (curIntervalDems f + 1)) (curIntervalCands f).
Definition incCands (f : Feedback) : Feedback :=
  mkFb (curBts f) (curBtsHits f) (setpointBts f) (setpointAdjs f) (curIntervalIns f) (curIntervalDems f) (u32 (curIntervalCands f + 1)).
Definition add_setpoint (d : Z) (f : Feedback) : Feedback :=
  mkFb (curBts f) (curBtsHits f) (u64 (setpointBts f + d)) (setpointAdjs f) (curIntervalIns f) (curIntervalDems f) (curIntervalCands f).
Definition end_interval (f : Feedback) : Feedback :=
  mkFb (curBts f) (curBtsHits f) (setpointBts f) (u64 (setpointAdjs f + 1)) 0 0 0.
(** [++curBtsHits >= size/16], and the next coarse timestamp. *)
Definition bump_bts (sz32 : Z) (f : Feedback) : Feedback :=
  let h := u32 (curBtsHits f + 1) in
  if sz32 / 16 <=? h then
    mkFb (u64 (curBts f + 1)) 0 (u64 (setpointBts f + 1)) (setpointAdjs f) (curIntervalIns f) (curIntervalDems f) (curIntervalCands f)
  else mkFb (curBts f) h (setpointBts f) (setpointAdjs f) (curIntervalIns f) (curIntervalDems f) (curIntervalCands f).

Definition incHits (s : Stats) : Stats :=
  mkStats (u64 (profHits s + 1)) (profMisses s) (profDemotions s) (profEvictions s) (profSizeCycles s) (profExtendedSizeCycles s).
Definition incMisses (s : Stats) : Stats :=
  mkStats (profHits s) (u64 (profMisses s + 1)) (profDemotions s) (profEvictions s) (profSizeCycles s) (profExtendedSizeCycles s).
Definition incDemotions (s : Stats) : Stats :=
  mkStats (profHits s) (profMisses s) (u64 (profDemotions s + 1)) (profEvictions s) (profSizeCycles s) (profExtendedSizeCycles s).
Definition incEvictions (s : Stats) : Stats :=
  mkStats (profHits s) (profMisses s) (profDemotions s) (u64 (profEvictions s + 1)) (profSizeCycles s) (profExtendedSizeCycles s).
Definition addCycles (a b : Z) (s : Stats) : Stats :=
  mkStats (profHits s) (profMisses s) (profDemotions s) (profEvictions s) (u64 (profSizeCycles s + a)) (u64 (profExtendedSizeCycles s + b)).

Record LineInfo := mkLine { addr : Z; ts : Z; bts : Z; p : nat; op : nat }.

Record Cfg := mkCfg {
  partitions : nat; totalSize : nat; assoc : nat;
  partPortion : double; partSlack : double; maxAperture : double;
  partGranularity : Z; smoothTransients : bool }.

Record t {R Mo : Type} := mk {
  cfg : Cfg;
  partInfo : list PInfo;
  array : list LineInfo;
  profPromotions : Z;
  profUpdateCycles : Z;
  candList : list nat;
  candIdx : nat;
  incomingLineAddr : Z;
  timestamp : Z;
  lastUpdateCycle : Z;
  rng : R;
  monitor : Mo }.
Arguments t R Mo : clear implicits.

Section Ops.
Context {R Mo : Type} `{PartitionMonitor Mo} (randInt : R -> Z -> Z * R) (partOf : MemReq -> res nat).
Abbreviation V := (t R Mo).
Abbreviation VM := (M V).

Definition with_part (l : list PInfo) (v : V) : V :=
  mk R Mo (cfg v) l (array v) (profPromotions v) (profUpdateCycles v) (candList v) (candIdx v) (incomingLineAddr v)
    (timestamp v) (lastUpdateCycle v) (rng v) (monitor v).
Definition with_array (l : list LineInfo) (v : V) : V :=
  mk R Mo (cfg v) (partInfo v) l (profPromotions v) (profUpdateCycles v) (candList v) (candIdx v) (incomingLineAddr v)
    (timestamp v) (lastUpdateCycle v) (rng v) (monitor v).
Definition with_promotions (z : Z) (v : V) : V :=
  mk R Mo (cfg v) (partInfo v) (array v) z (profUpdateCycles v) (candList v) (candIdx v) (incomingLineAddr v)
    (timestamp v) (lastUpdateCycle v) (rng v) (monitor v).
Definition with_update (c l : Z) (v : V) : V :=
  mk R Mo (cfg v) (partInfo v) (array v) (profPromotions v) c (candList v) (candIdx v) (incomingLineAddr v)
    (timestamp v) l (rng v) (monitor v).
Definition with_cands (l : list nat) (i : nat) (v : V) : V :=
  mk R Mo (cfg v) (partInfo v) (array v) (profPromotions v) (profUpdateCycles v) l i (incomingLineAddr v)
    (timestamp v) (lastUpdateCycle v) (rng v) (monitor v).
Definition with_incoming (a : Z) (v : V) : V :=
  mk R Mo (cfg v) (partInfo v) (array v) (profPromotions v) (profUpdateCycles v) (candList v) (candIdx v) a
    (timestamp v) (lastUpdateCycle v) (rng v) (monitor v).
Definition with_ts (z : Z) (v : V) : V :=
  mk R Mo (cfg v) (partInfo v) (array v) (profPromotions v) (profUpdateCycles v) (candList v) (candIdx v) (incomingLineAddr v)
    z (lastUpdateCycle v) (rng v) (monitor v).
Definition with_rng (r : R) (v : V) : V :=
  mk R Mo (cfg v) (partInfo v) (array v) (profPromotions v) (profUpdateCycles v) (candList v) (candIdx v) (incomingLineAddr v)
    (timestamp v) (lastUpdateCycle v) r (monitor v).
Definition with_monitor (m : Mo) (v : V) : V :=
  mk R Mo (cfg v) (partInfo v) (array v) (profPromotions v) (profUpdateCycles v) (candList v) (candIdx v) (incomingLineAddr v)
    (timestamp v) (lastUpdateCycle v) (rng v) m.

(** partInfo[q] and array[id], read and changed in place. *)
Definition pget (q : nat) : VM PInfo := v ← mget; mlift (arr_get (partInfo v) q).
Definition pmod (q : nat) (f : PInfo -> PInfo) : VM unit :=
  v ← mget; l ← mlift (arr_mod (partInfo v) q f); mmodify (with_part l).
Definition lget (id : nat) : VM LineInfo := v ← mget; mlift (arr_get (array v) id).
Definition lset (id : nat) (e : LineInfo) : VM unit :=
  v ← mget; l ← mlift (arr_set (array v) id e); mmodify (with_array l).
(** [timestamp++]. *)
Definition next_ts : VM Z :=
  v ← mget; mmodify (with_ts (u64 (timestamp v + 1)));; mret (timestamp v).
Definition mon_access (q : nat) (a : Z) : VM unit :=
  fun v => match pm_access q a (monitor v) with Ok (_, m) => Ok (tt, with_monitor m v) | Err f => Err f end.

(** [(int32_t) z]. *)
Definition s32 (z : Z) : Z := let x := u32 z in if x <? 2147483648 then x else x - two32.

(** [partInfo[p].targetSize - partInfo[p].longTermTargetSize] as an int32_t, for each partition. *)
Fixpoint lines_left (n q : nat) (acc : Z) : VM Z :=
  match n with
  | O => mret acc
  | S n' =>
      i ← pget q;
      let left := s32 (u64 (targetSize (sz i) - longTermTargetSize (sz i))) in
      lines_left n' (S q) (u32 (acc + MAX left 0))
  end.
Fixpoint take_from (n q : nat) (l curLines : Z) : VM unit :=
  match n with
  | O => mfail "Could not find any partition to take away space from???"
  | S n' =>
      i ← pget q;
      let left := s32 (u64 (targetSize (sz i) - longTermTargetSize (sz i))) in
      let curLines := u32 (curLines + MAX left 0) in
      if (0 <? left) && (l <? curLines) then pmod q (on_sz (fun s => set_target (u64 (targetSize s - 1)) s))
      else take_from n' (S q) l curLines
  end.
Definition takeOneLine : VM unit :=
  v ← mget;
  massert (smoothTransients (cfg v)) "smoothTransients";;
  linesLeft ← lines_left (partitions (cfg v)) 0 0;
  massert (0 <? linesLeft) "linesLeft > 0";;
  v ← mget;
  let '(l, r) := randInt (rng v) (u32 (linesLeft - 1)) in
  mmodify (with_rng r);;
  take_from (partitions (cfg v)) 0 l 0.

(** The loop over partInfo in [update], from [q], [n] left. *)
Fixpoint size_cycles (n q : nat) (diff : Z) : VM unit :=
  match n with
  | O => mret tt
  | S n' =>
      pmod q (fun i => on_st (addCycles (u64 (diff * size (sz i))) (u64 (diff * extendedSize (sz i)))) i);;
      size_cycles n' (S q) diff
  end.

(** [update]; [now] is zinfo->globPhaseCycles. *)
Definition update (now : Z) (id : nat) (req : MemReq) : VM unit :=
  v ← mget;
  let umgd := partitions (cfg v) in
  (if lastUpdateCycle v <? now then
     let diff := u64 (now - lastUpdateCycle v) in
     size_cycles (S umgd) 0 diff;;
     mmodify (fun v => with_update (u64 (profUpdateCycles v + diff)) now v)
   else mret tt);;
  e ← lget id;
  (if 0 <? ts e then
     q ← (if (p e =? umgd)%nat then
            q ← mlift (partOf req);
            lset id (mkLine (addr e) (ts e) (bts e) q (op e));;
            mmodify (fun v => with_promotions (u64 (profPromotions v + 1)) v);;
            pmod q (on_fb incIns);;
            pmod q (on_sz (add_size 1));;
            pmod umgd (on_sz (add_size (-1)));;
            mret q
          else mret (p e));
     z ← next_ts;
     lset id (mkLine (addr e) z (bts e) q (op e));;
     pmod q (on_st incHits)
   else
     z ← next_ts;
     pmod (p e) (on_sz (add_size (-1)));;
     pmod (p e) (on_st incEvictions);;
     pmod (op e) (on_sz (add_ext (-1)));;
     q ← mlift (partOf req);
     lset id (mkLine (addr e) z (bts e) q q);;
     pmod q (on_fb incIns);;
     pmod q (on_sz (add_size 1));;
     pmod q (on_sz (add_ext 1));;
     pmod q (on_st incMisses);;
     i ← pget q;
     if targetSize (sz i) <? longTermTargetSize (sz i) then
       massert (smoothTransients (cfg v)) "smoothTransients";;
       pmod q (on_sz (fun s => set_target (u64 (targetSize s + 1)) s));;
       takeOneLine
     else mret tt);;
  e ← lget id;
  mon_access (p e) (addr e);;
  i ← pget (p e);
  lset id (mkLine (addr e) (ts e) (curBts (fb i)) (p e) (op e));;
  pmod (p e) (fun i => on_fb (bump_bts (u32 (size (sz i)))) i).

Definition startReplacement (req : MemReq) : VM unit := mmodify (with_incoming (lineAddr req)).

Definition recordCandidate (id : nat) : VM unit :=
  v ← mget;
  massert (candIdx v <? assoc (cfg v))%nat "candIdx < assoc";;
  l ← mlift (arr_set (candList v) (candIdx v) id);
  mmodify (with_cands l (S (candIdx v))).

(** The feedback rule: the aperture of a partition and what becomes of its setpoint. *)
Definition aperture_of (c : Cfg) (s : Sizes) : res double :=
  let tgt := d_of_Z (targetSize s) in
  let maxSz := dmul tgt (dadd (d_of_Z 1) (partSlack c)) in
  let curSz := d_of_Z (size s) in
  if dle maxSz curSz then Ok (maxAperture c)
  else
    let slope := ddiv (maxAperture c) (dsub maxSz tgt) in
    rassert (dlt (d_of_Z 0) slope) "slope > 0.0";;
    Ok (dmul slope (dsub curSz tgt)).

Definition adjust_setpoint (aperture : double) (f : Feedback) : Feedback :=
  if dlt (d_of_Z 0) aperture then
    let shrink := d_of_Z (s32 (curIntervalDems f)) in
    let x := dmul aperture (d_of_Z (curIntervalCands f)) in
    if dlt shrink x then
      if setpointBts f <? curBts f then add_setpoint 1 f else f
    else if dlt x shrink then
      if u64 (curBts f - setpointBts f) <? 255 then add_setpoint (-1) f else f
    else f
  else f.

(** Demote candidate [id] if it is old, and end the interval of its partition. *)
Definition demote (id : nat) : VM unit :=
  v ← mget;
  let umgd := partitions (cfg v) in
  e ← lget id;
  if ts e =? 0 then mret tt
  else if (p e =? umgd)%nat then mret tt
  else
    let q := p e in
    i ← pget q;
    if u32 (size (sz i)) <=? targetSize (sz i) then mret tt
    else
      (if u64 (curBts (fb i) - setpointBts (fb i)) mod 256 <=? u64 (curBts (fb i) - bts e) mod 256 then
         pmod q (on_st incDemotions);;
         pmod q (on_sz (add_size (-1)));;
         lset id (mkLine (addr e) (ts e) (bts e) umgd (op e));;
         pmod umgd (on_sz (add_size 1));;
         pmod q (on_fb incDems)
       else mret tt);;
      pmod q (on_fb incCands);;
      i ← pget q;
      if 256 <=? curIntervalCands (fb i) then
        aperture ← mlift (aperture_of (cfg v) (sz i));
        pmod q (on_fb (adjust_setpoint aperture));;
        pmod q (on_fb end_interval)
      else mret tt.

Fixpoint demote_all (n i : nat) : VM unit :=
  match n with
  | O => mret tt
  | S n' =>
      v ← mget;
      id ← mlift (arr_get (candList v) i);
      demote id;;
      demote_all n' (S i)
  end.

(** Should [e] be evicted rather than [best]? *)
Definition worse (umgd : nat) (e best : LineInfo) : bool :=
  if (p e =? umgd)%nat && negb (p best =? umgd)%nat then true
  else if (p e =? umgd)%nat && (p best =? umgd)%nat then ts e <? ts best
  else if negb (p e =? umgd)%nat && (p best =? umgd)%nat then false
  else ts e <? ts best.

Fixpoint select (n i bestId : nat) : VM nat :=
  match n with
  | O => mret bestId
  | S n' =>
      v ← mget;
      id ← mlift (arr_get (candList v) i);
      e ← lget id;
      best ← lget bestId;
      if ts e =? 0 then mret id
      else select n' (S i) (if worse (partitions (cfg v)) e best then id else bestId)
  end.

Definition getBestCandidate : VM nat :=
  v ← mget;
  massert (0 <? candIdx v)%nat "candIdx > 0";;
  massert (candIdx v <=? assoc (cfg v))%nat "candIdx <= assoc";;
  demote_all (candIdx v) 0;;
  first ← mlift (arr_get (candList v) 0);
  bestId ← select (candIdx v) 0 first;
  massert (bestId <? totalSize (cfg v))%nat "bestId >= 0 && bestId < totalSize";;
  mret bestId.

Definition replaced (id : nat) : VM unit :=
  v ← mget;
  mmodify (with_cands (candList v) 0);;
  e ← lget id;
  lset id (mkLine (incomingLineAddr v) 0 0 (p e) (op e)).

(** The loop of setPartitionSizes from [q], [n] left; returns linesToTakeAway. *)
Fixpoint set_targets (n q : nat) (sizes : list Z) (takeAway : Z) : VM Z :=
  match n with
  | O => mret takeAway
  | S n' =>
      v ← mget;
      s ← mlift (arr_get sizes q);
      let sp := u32 (Z.of_nat (totalSize (cfg v)) * s) / partGranularity (cfg v) in
      if smoothTransients (cfg v) then
        pmod q (on_sz (set_longTerm sp));;
        i ← pget q;
        if targetSize (sz i) <? sp then
          let newTarget := u32 (MAX (targetSize (sz i)) (MIN (longTermTargetSize (sz i)) (u64 (size (sz i) + 1)))) in
          pmod q (on_sz (set_target newTarget));;
          set_targets n' (S q) sizes (u32 (takeAway + newTarget - targetSize (sz i)))
        else set_targets n' (S q) sizes takeAway
      else
        pmod q (on_sz (set_target sp));;
        pmod q (on_sz (set_longTerm sp));;
        set_targets n' (S q) sizes takeAway
  end.
Fixpoint take_lines (n : nat) : VM unit :=
  match n with O => mret tt | S n' => takeOneLine;; take_lines n' end.
Definition setPartitionSizes (sizes : list Z) : VM unit :=
  v ← mget;
  takeAway ← set_targets (partitions (cfg v)) 0 sizes 0;
  take_lines (Z.to_nat takeAway).

Fixpoint record_cands (cands : list nat) : VM unit :=
  match cands with [] => mret tt | c :: cands => recordCandidate c;; record_cands cands end.
(** [rank] of LegacyReplPolicy. *)
Definition rank (req : MemReq) (cands : list nat) : VM nat :=
  startReplacement req;;
  record_cands cands;;
  getBestCandidate.

Definition pct (z : Z) : double := ddiv (d_of_Z z) (d_of_Z 100).
Definition new_part (target : Z) : PInfo :=
  mkPInfo (mkSizes 0 target target 0) (mkFb 0 0 0 0 0 0 0) (mkStats 0 0 0 0 0 0).

Definition init (m : Mo) (rng : R) (parts lines assoc : nat) (partPortionPct partSlackPct maxAperturePct granularity : Z)
    (smooth : bool) : res V :=
  rassert (partPortionPct <=? 100) "partPortionPct <= 100";;
  rassert (partSlackPct <=? 100) "partSlackPct <= 100";;
  rassert (maxAperturePct <=? 100) "maxAperturePct <= 100";;
  let c := mkCfg parts lines assoc (pct partPortionPct) (pct partSlackPct) (pct maxAperturePct) granularity smooth in
  targetManagedSize ← d_to_u32 (dmul (d_of_Z (Z.of_nat lines)) (partPortion c));
  let umgd := mkPInfo (mkSizes (Z.of_nat lines) 0 0 (Z.of_nat lines)) (mkFb 0 0 0 0 0 0 0) (mkStats 0 0 0 0 0 0) in
  Ok (mk R Mo c (replicate parts (new_part (targetManagedSize / Z.of_nat parts)) ++ [umgd])
    (replicate lines (mkLine 0 0 0 parts parts)) 0 0 (replicate assoc 0%nat) 0 0 1 0 rng m).

#[global] Instance vantage_PartRepl : PartRepl V Mo := {|
  prp_monitor := monitor;
  prp_set_monitor := with_monitor;
  prp_setPartitionSizes := setPartitionSizes |}.
End Ops.

(** ** The sizes and the lines *)
Section Sizes.
Context {R Mo : Type} `{AccessLaws Mo} (randInt : R -> Z -> Z * R) (partOf : MemReq -> res nat).
Abbreviation V := (t R Mo).

(** The lines of partition [q], and those that were inserted by it. *)
Definition in_part (q : nat) (a : list LineInfo) : Z := Z.of_nat (cnt (fun e => (p e =? q)%nat) a).
Definition from_part (q : nat) (a : list LineInfo) : Z := Z.of_nat (cnt (fun e => (op e =? q)%nat) a).
Definition one (b : bool) : Z := if b then 1 else 0.

(** What holds at every step; [dS] and [dE] are how far the sizes are off the lines. *)
Record St (c : Cfg) (a : list LineInfo) (cl : list nat) (ci : nat) (dS dE : nat -> Z) (v : V) : Prop := {
  st_cfg : cfg v = c;
  st_array : array v = a;
  st_cl : candList v = cl;
  st_ci : candIdx v = ci;
  st_smooth : smoothTransients c = false;
  st_assoc : length cl = assoc c;
  st_cands : forall j, (j < ci)%nat -> exists id, cl !! j = Some id /\ (id < totalSize c)%nat;
  st_parts : length (partInfo v) = S (partitions c);
  st_len : length a = totalSize c;
  st_small : Z.of_nat (totalSize c) < two32;
  st_lines : Forall (fun e => (p e <= partitions c)%nat /\ (op e <= partitions c)%nat) a;
  st_sizes : forall q, (q <= partitions c)%nat -> exists i, partInfo v !! q = Some i /\
    size (sz i) = in_part q a + dS q /\ extendedSize (sz i) = from_part q a + dE q /\
    targetSize (sz i) = longTermTargetSize (sz i);
  st_acc : acc_ok (partitions c) (monitor v) }.

Lemma cnt_le_length {A} (f : A -> bool) l : (cnt f l <= length l)%nat.
Proof. induction l; cbn; [lia|]. case_match; lia. Qed.

Lemma St_ext c a cl ci dS dE dS' dE' v : St c a cl ci dS dE v -> (forall q, dS q = dS' q) -> (forall q, dE q = dE' q) ->
  St c a cl ci dS' dE' v.
Proof.
  intros [] H1 H2. constructor; try done. intros q Hq. destruct (st_sizes0 q Hq) as (i&?&?&?&?).
  exists i. by rewrite <- H1, <- H2.
Qed.

Section Steps.
Variables (c : Cfg) (cl : list nat) (ci : nat).

Lemma wp_pget a dS dE v q (Q : PInfo -> V -> Prop) : St c a cl ci dS dE v -> (q <= partitions c)%nat ->
  (forall i, partInfo v !! q = Some i -> size (sz i) = in_part q a + dS q -> targetSize (sz i) = longTermTargetSize (sz i) -> Q i v) ->
  wp (pget q) Q v.
Proof.
  intros HS Hq HQ. unfold pget. wp_steps. destruct (st_sizes _ _ _ _ _ _ _ HS q Hq) as (i&Hi&?&?&?).
  apply wp_lift. rewrite (arr_get_Some _ _ _ Hi). by apply HQ.
Qed.

Lemma wp_pmod a dS dE dS' dE' v q f : St c a cl ci dS dE v -> (q <= partitions c)%nat ->
  (forall i, size (sz i) = in_part q a + dS q -> extendedSize (sz i) = from_part q a + dE q ->
    targetSize (sz i) = longTermTargetSize (sz i) ->
    size (sz (f i)) = in_part q a + dS' q /\ extendedSize (sz (f i)) = from_part q a + dE' q /\
    targetSize (sz (f i)) = longTermTargetSize (sz (f i))) ->
  (forall q', q' <> q -> dS' q' = dS q' /\ dE' q' = dE q') ->
  wp (pmod q f) (fun _ v' => St c a cl ci dS' dE' v') v.
Proof.
  intros HS Hq Hf Hne. pose proof HS as []. unfold pmod. wp_steps.
  destruct (st_sizes0 q Hq) as (i&Hi&Hs&He&Ht). apply wp_lift. rewrite (WayPart.arr_mod_lt _ _ _ _ Hi). cbn. wp_steps.
  constructor; cbn; try done.
  - by rewrite length_insert.
  - intros q' Hq'. destruct (decide (q' = q)) as [->|Hneq].
    + exists (f i). rewrite list_lookup_insert_eq by (by eapply lookup_lt_Some). split; [done|]. by apply Hf.
    + destruct (st_sizes0 q' Hq') as (i'&Hi'&?&?&?). exists i'. rewrite list_lookup_insert_ne by done.
      destruct (Hne q' Hneq) as [-> ->]. done.
Qed.

(** Steps that leave the sizes alone. *)
Lemma wp_pmod_neutral a dS dE v q f : St c a cl ci dS dE v -> (q <= partitions c)%nat -> (forall i, sz (f i) = sz i) ->
  wp (pmod q f) (fun _ v' => St c a cl ci dS dE v') v.
Proof. intros HS Hq Hf. eapply wp_pmod; eauto. intros i Hs He Ht. by rewrite Hf. Qed.

Lemma in_part_range q a : length a = totalSize c -> Z.of_nat (totalSize c) < two32 ->
  0 <= in_part q a < two32 /\ 0 <= from_part q a < two32.
Proof.
  intros Hl Hs. unfold in_part, from_part.
  pose proof (cnt_le_length (fun e => (p e =? q)%nat) a). pose proof (cnt_le_length (fun e => (op e =? q)%nat) a). lia.
Qed.

Lemma wp_add_size a dS dE v q d : St c a cl ci dS dE v -> (q <= partitions c)%nat ->
  0 <= in_part q a + dS q + d -> dS q + d <= 1 ->
  wp (pmod q (on_sz (add_size d))) (fun _ v' => St c a cl ci (fun x => dS x + (if decide (x = q) then d else 0)) dE v') v.
Proof.
  intros HS Hq H1 H2. pose proof HS as []. destruct (in_part_range q a st_len0 st_small0) as [Hr _].
  eapply wp_pmod; eauto.
  - intros i Hs He Ht. cbn. rewrite Hs, u64_small by (unfold two64, two32 in *; lia).
    rewrite decide_True by done. repeat split; try done; lia.
  - intros q' Hne. rewrite decide_False by done. split; [lia|done].
Qed.

Lemma wp_add_ext a dS dE v q d : St c a cl ci dS dE v -> (q <= partitions c)%nat ->
  0 <= from_part q a + dE q + d -> dE q + d <= 1 ->
  wp (pmod q (on_sz (add_ext d))) (fun _ v' => St c a cl ci dS (fun x => dE x + (if decide (x = q) then d else 0)) v') v.
Proof.
  intros HS Hq H1 H2. pose proof HS as []. destruct (in_part_range q a st_len0 st_small0) as [_ Hr].
  eapply wp_pmod; eauto.
  - intros i Hs He Ht. cbn. rewrite He, u64_small by (unfold two64, two32 in *; lia).
    rewrite decide_True by done. repeat split; try done; lia.
  - intros q' Hne. rewrite decide_False by done. split; [done|lia].
Qed.

Lemma cnt_moves (f : LineInfo -> nat) a id e e' q : a !! id = Some e ->
  Z.of_nat (cnt (fun x => (f x =? q)%nat) (<[id := e']> a)) =
  Z.of_nat (cnt (fun x => (f x =? q)%nat) a) + one (f e' =? q)%nat - one (f e =? q)%nat.
Proof.
  intros E. pose proof (cnt_insert (fun x => (f x =? q)%nat) a id e e' E) as Hc. cbn in Hc. unfold one.
  destruct (f e =? q)%nat, (f e' =? q)%nat; lia.
Qed.

Lemma wp_lset a dS dE v id e e' : St c a cl ci dS dE v -> a !! id = Some e ->
  (p e' <= partitions c)%nat -> (op e' <= partitions c)%nat ->
  wp (lset id e') (fun _ v' => St c (<[id := e']> a) cl ci
    (fun q => dS q + one (p e =? q)%nat - one (p e' =? q)%nat) (fun q => dE q + one (op e =? q)%nat - one (op e' =? q)%nat) v') v.
Proof.
  intros HS He Hp Hop. pose proof HS as []. unfold lset. wp_steps. rewrite st_array0. apply wp_lift.
  rewrite arr_set_lt by (by eapply lookup_lt_Some). cbn. wp_steps. constructor; cbn; try done.
  - by rewrite length_insert.
  - by apply Forall_insert.
  - intros q Hq. destruct (st_sizes0 q Hq) as (i&Hi&Hs&Hx&Ht). exists i. split; [done|].
    unfold in_part, from_part in *. rewrite (cnt_moves p _ _ e), (cnt_moves op _ _ e) by done. repeat split; try done; lia.
Qed.

Lemma wp_lget a dS dE v id (Q : LineInfo -> V -> Prop) : St c a cl ci dS dE v -> (id < length a)%nat ->
  (forall e, a !! id = Some e -> Q e v) -> wp (lget id) Q v.
Proof.
  intros HS Hid HQ. unfold lget. wp_steps. rewrite (st_array _ _ _ _ _ _ _ HS). apply wp_lift.
  destruct (arr_get_lt a id Hid) as (e&He&->). by apply HQ.
Qed.

(** A change of other fields. *)
Lemma St_other a dS dE v v' : St c a cl ci dS dE v ->
  (cfg v', array v', candList v', candIdx v', partInfo v', monitor v') =
  (cfg v, array v, candList v, candIdx v, partInfo v, monitor v) -> St c a cl ci dS dE v'.
Proof. intros [] E. injection E as E1 E2 E3 E4 E5 E6. constructor; try congruence; rewrite ?E5, ?E6; done. Qed.

Lemma wp_next_ts a dS dE v : St c a cl ci dS dE v -> wp next_ts (fun _ v' => St c a cl ci dS dE v') v.
Proof. intros HS. unfold next_ts. wp_steps. by eapply St_other. Qed.

Lemma wp_mon_access a dS dE v q x : St c a cl ci dS dE v -> (q < partitions c)%nat ->
  wp (mon_access q x) (fun _ v' => St c a cl ci dS dE v') v.
Proof.
  intros [] Hq. unfold wp, mon_access. destruct (wp_elim _ _ _ (acc_access _ q x _ st_acc0 Hq)) as ([]&m&->&Hm).
  by constructor.
Qed.

Lemma wp_size_cycles a dS dE n : forall q d v, St c a cl ci dS dE v -> (q + n = S (partitions c))%nat ->
  wp (size_cycles n q d) (fun _ v' => St c a cl ci dS dE v') v.
Proof.
  induction n as [|n IH]; intros q d v HS Hq; cbn [size_cycles]; wp_steps; [done|].
  eapply wp_mono; [apply wp_pmod_neutral; [done|lia|done]|]. intros [] v' HS'. apply IH; [done|lia].
Qed.

Definition zero : nat -> Z := fun _ => 0.

(** The sizes are those of the lines. *)
Definition Bal (v : V) : Prop := exists a, St c a cl ci zero zero v.

(** The line is of a managed partition: what the end of [update] does. *)
Definition touch_line (id : nat) : M V unit :=
  e ← lget id;
  mon_access (p e) (addr e);;
  i ← pget (p e);
  lset id (mkLine (addr e) (ts e) (curBts (fb i)) (p e) (op e));;
  pmod (p e) (fun i => on_fb (bump_bts (u32 (size (sz i)))) i).

Lemma touch_line_spec a v id e : St c a cl ci zero zero v -> a !! id = Some e -> (p e < partitions c)%nat ->
  wp (touch_line id) (fun _ v' => Bal v') v.
Proof.
  intros HS He Hp. unfold touch_line. wp_steps.
  assert (id < length a)%nat as Hid by (by eapply lookup_lt_Some).
  assert (op e <= partitions c)%nat as Hop by (pose proof (st_lines _ _ _ _ _ _ _ HS) as HF; by eapply Forall_lookup_1 in HF as [_ ?]; eauto).
  eapply wp_lget; [done|done|]. intros e' He'. simplify_eq. wp_steps.
  eapply wp_mono; [by apply wp_mon_access|]. intros [] v1 HS1. wp_steps.
  eapply wp_pget; [done|lia|]. intros i _ _ _. wp_steps.
  eapply wp_mono; [eapply wp_lset; [done|done|cbn; lia|done]|]. intros [] v2 HS2.
  eapply wp_mono; [eapply wp_pmod_neutral; [exact HS2|lia|done]|]. intros [] v3 HS3.
  eexists. eapply St_ext; [exact HS3| |]; intros q; cbn; unfold zero; lia.
Qed.

(** A line of the unmanaged region that is hit goes to the partition of the request. *)
Lemma hit_spec a v id e q : St c a cl ci zero zero v -> a !! id = Some e -> (q < partitions c)%nat ->
  wp (q ← (if (p e =? partitions c)%nat then
            q ← mlift (Ok q);
            lset id (mkLine (addr e) (ts e) (bts e) q (op e));;
            mmodify (fun v => with_promotions (u64 (profPromotions v + 1)) v);;
            pmod q (on_fb incIns);;
            pmod q (on_sz (add_size 1));;
            pmod (partitions c) (on_sz (add_size (-1)));;
            mret q
          else mret (p e));
     z ← next_ts;
     lset id (mkLine (addr e) z (bts e) q (op e));;
     pmod q (on_st incHits))
   (fun _ v' => exists a' e', St c a' cl ci zero zero v' /\ a' !! id = Some e' /\ (p e' < partitions c)%nat) v.
Proof.
  intros HS He Hq. assert (id < length a)%nat as Hid by (by eapply lookup_lt_Some).
  assert (p e <= partitions c /\ op e <= partitions c)%nat as [Hpe Hop]
    by (pose proof (st_lines _ _ _ _ _ _ _ HS) as HF; by eapply Forall_lookup_1 in HF; eauto).
  apply wp_bind. eapply wp_mono with (Q := fun q' v' => exists a' e', St c a' cl ci zero zero v' /\ a' !! id = Some e' /\ p e' = q' /\
    op e' = op e /\ (q' < partitions c)%nat).
  - destruct (Nat.eqb_spec (p e) (partitions c)) as [Hu|Hu]; [|wp_steps; exists a, e; split_and!; try done; lia].
    wp_steps. apply wp_lift. cbn. wp_steps.
    eapply wp_mono; [eapply wp_lset; [done|done|cbn; lia|done]|]. intros [] v1 HS1. wp_steps.
    assert (HS2 : St c (<[id:=mkLine (addr e) (ts e) (bts e) q (op e)]> a) cl ci
      (fun x => zero x + one (p e =? x)%nat - one (q =? x)%nat) zero (with_promotions (u64 (profPromotions v1 + 1)) v1)).
    { apply (St_other _ _ _ v1); [|reflexivity]. eapply St_ext; [exact HS1|done|]. intros x. cbn. unfold zero. lia. }
    pose proof HS2 as [_ _ _ _ _ _ _ _ Hlen Hsm _ _ _].
    destruct (in_part_range q _ Hlen Hsm) as [Hr1 _]. destruct (in_part_range (partitions c) _ Hlen Hsm) as [Hr2 _].
    eapply wp_mono; [eapply wp_pmod_neutral; [exact HS2|lia|done]|]. intros [] v2 HS3. wp_steps.
    eapply wp_mono; [eapply wp_add_size; [exact HS3|lia| |]|].
    { unfold zero. rewrite Nat.eqb_refl. destruct (Nat.eqb_spec (p e) q); [lia|]. cbn. lia. }
    { unfold zero. rewrite Nat.eqb_refl. destruct (Nat.eqb_spec (p e) q); [lia|]. cbn. lia. }
    intros [] v3 HS4. wp_steps. eapply wp_mono; [eapply wp_add_size; [exact HS4|lia| |]|].
    { cbn beta. rewrite decide_False by lia. unfold zero. rewrite Hu, Nat.eqb_refl. destruct (Nat.eqb_spec q (partitions c)); [lia|]. cbn. lia. }
    { cbn beta. rewrite decide_False by lia. unfold zero. rewrite Hu, Nat.eqb_refl. destruct (Nat.eqb_spec q (partitions c)); [lia|]. cbn. lia. }
    intros [] v4 HS5. wp_steps. eexists _, (mkLine (addr e) (ts e) (bts e) q (op e)).
    split; [|split; [by apply list_lookup_insert_eq|done]].
    eapply St_ext; [exact HS5| |done]. intros x. unfold zero. rewrite Hu.
    destruct (Nat.eqb_spec (partitions c) x), (Nat.eqb_spec q x); repeat case_decide; cbn; lia.
  - intros q' v1 (a1&e1&HS1&He1&Hp1&Hop1&Hq'). wp_steps.
    eapply wp_mono; [by apply wp_next_ts|]. intros z v2 HS2. wp_steps.
    eapply wp_mono; [eapply wp_lset; [exact HS2|exact He1|cbn; lia|done]|]. intros [] v3 HS3.
    eapply wp_mono; [eapply wp_pmod_neutral; [exact HS3|lia|done]|]. intros [] v4 HS4.
    eexists _, (mkLine (addr e) z (bts e) q' (op e)). split; [|split; [apply list_lookup_insert_eq; by eapply lookup_lt_Some|done]].
    eapply St_ext; [exact HS4| |]; intros x; cbn; unfold zero; [rewrite Hp1|rewrite Hop1]; lia.
Qed.

(** An empty line goes from its old partitions to that of the request. *)
Lemma fill_line_spec a v id e q sm : St c a cl ci zero zero v -> a !! id = Some e -> (q < partitions c)%nat ->
  wp (z ← next_ts;
     pmod (p e) (on_sz (add_size (-1)));;
     pmod (p e) (on_st incEvictions);;
     pmod (op e) (on_sz (add_ext (-1)));;
     q ← mlift (Ok q);
     lset id (mkLine (addr e) z (bts e) q q);;
     pmod q (on_fb incIns);;
     pmod q (on_sz (add_size 1));;
     pmod q (on_sz (add_ext 1));;
     pmod q (on_st incMisses);;
     i ← pget q;
     if targetSize (sz i) <? longTermTargetSize (sz i) then
       massert sm "smoothTransients";;
       pmod q (on_sz (fun s => set_target (u64 (targetSize s + 1)) s));;
       takeOneLine randInt
     else mret tt)
   (fun _ v' => exists a' e', St c a' cl ci zero zero v' /\ a' !! id = Some e' /\ (p e' < partitions c)%nat) v.
Proof.
  intros HS He Hq. assert (id < length a)%nat as Hid by (by eapply lookup_lt_Some).
  assert (p e <= partitions c /\ op e <= partitions c)%nat as [Hpe Hop]
    by (pose proof (st_lines _ _ _ _ _ _ _ HS) as HF; by eapply Forall_lookup_1 in HF; eauto).
  assert (0 < in_part (p e) a /\ 0 < from_part (op e) a) as [Hc1 Hc2].
  { unfold in_part, from_part. pose proof (cnt_pos (fun x => (p x =? p e)%nat) _ _ _ He (Nat.eqb_refl _)).
    pose proof (cnt_pos (fun x => (op x =? op e)%nat) _ _ _ He (Nat.eqb_refl _)). lia. }
  wp_steps. eapply wp_mono; [by apply wp_next_ts|]. intros z v1 HS1. wp_steps.
  eapply wp_mono; [eapply wp_add_size; [exact HS1|done|unfold zero; lia|unfold zero; lia]|]. intros [] v2 HS2. wp_steps.
  eapply wp_mono; [eapply wp_pmod_neutral; [exact HS2|done|done]|]. intros [] v3 HS3. wp_steps.
  eapply wp_mono; [eapply wp_add_ext; [exact HS3|done|unfold zero; lia|unfold zero; lia]|]. intros [] v4 HS4. wp_steps.
  apply wp_lift. cbn. wp_steps.
  eapply wp_mono; [eapply wp_lset; [exact HS4|done|cbn; lia|cbn; lia]|]. intros [] v5 HS5. wp_steps. cbn [p op] in HS5.
  pose proof HS5 as [_ _ _ _ _ _ _ _ Hlen Hsm _ _ _]. destruct (in_part_range q _ Hlen Hsm) as [Hr1 Hr2].
  eapply wp_mono; [eapply wp_pmod_neutral; [exact HS5|lia|done]|]. intros [] v6 HS6. wp_steps.
  assert (forall y, (zero q + (if decide (q = y) then -1 else 0) + one (y =? q)%nat - one (q =? q)%nat) = -1) as Hd.
  { intros y. unfold zero, one. rewrite Nat.eqb_refl. case_decide; destruct (Nat.eqb_spec y q); lia. }
  eapply wp_mono; [eapply wp_add_size; [exact HS6|lia|cbn beta; rewrite Hd; lia|cbn beta; rewrite Hd; lia]|]. intros [] v7 HS7. wp_steps.
  eapply wp_mono; [eapply wp_add_ext; [exact HS7|lia|cbn beta; rewrite Hd; lia|cbn beta; rewrite Hd; lia]|]. intros [] v8 HS8. wp_steps.
  eapply wp_mono; [eapply wp_pmod_neutral; [exact HS8|lia|done]|]. intros [] v9 HS9. wp_steps.
  eapply wp_pget; [exact HS9|lia|]. intros i _ _ Ht. rewrite Ht, Z.ltb_irrefl. wp_steps.
  eexists _, (mkLine (addr e) z (bts e) q q). split; [|split; [by apply list_lookup_insert_eq|done]].
  eapply St_ext; [exact HS9| |]; intros x; unfold zero, one;
    [destruct (Nat.eqb_spec (p e) x)|destruct (Nat.eqb_spec (op e) x)]; destruct (Nat.eqb_spec q x); repeat case_decide; subst; try done; lia.
Qed.

Lemma update_spec_vantage v now id req q : Bal v -> (id < totalSize c)%nat -> partOf req = Ok q -> (q < partitions c)%nat ->
  wp (update randInt partOf now id req) (fun _ v' => Bal v') v.
Proof.
  intros (a&HS) Hid Hpart Hq. unfold update. wp_steps. rewrite (st_cfg _ _ _ _ _ _ _ HS), Hpart.
  eapply wp_mono with (Q := fun _ v' => St c a cl ci zero zero v').
  { case_match; wp_steps; [|done]. eapply wp_mono; [by eapply wp_size_cycles|]. intros [] v' HS'. wp_steps. by eapply St_other. }
  intros [] v1 HS1. wp_steps. pose proof (st_len _ _ _ _ _ _ _ HS1) as Hlen.
  eapply wp_lget; [done|lia|]. intros e He. apply wp_bind.
  eapply wp_mono with (Q := fun _ v' => exists a' e', St c a' cl ci zero zero v' /\ a' !! id = Some e' /\ (p e' < partitions c)%nat);
    [|intros [] v2 (a2&e2&HS2&He2&Hp2); by eapply touch_line_spec].
  case_match; [by eapply hit_spec|by eapply fill_line_spec].
Qed.

(** *** Demotions

    [wpf m Q v]: [m] returns and [Q] holds, or it fails in the assertion on the slope. *)
Definition slope_failure : failure := Panic "slope > 0.0".
Definition wpf {A} (m : M V A) (Q : A -> V -> Prop) (v : V) : Prop :=
  match m v with Ok (a, v') => Q a v' | Err f => f = slope_failure end.

Lemma wpf_wp {A} (m : M V A) Q v : wp m Q v -> wpf m Q v.
Proof. unfold wp, wpf. destruct (m v) as [[a v']|]; [done|]. intros []. Qed.
Lemma wpf_bind {A B} (m : M V A) (k : A -> M V B) Q v : wpf m (fun a v' => wpf (k a) Q v') v -> wpf (m ≫= k) Q v.
Proof. unfold wpf, mbind, M_bind. by destruct (m v) as [[a v']|]. Qed.
Lemma wpf_mono {A} (m : M V A) (Q Q' : A -> V -> Prop) v : wpf m Q v -> (forall a v', Q a v' -> Q' a v') -> wpf m Q' v.
Proof. unfold wpf. destruct (m v) as [[a v']|]; auto. Qed.

(** A step that cannot fail, then the rest. *)
Lemma wpf_step {A B} (m : M V A) (k : A -> M V B) (P : A -> V -> Prop) Q v :
  wp m P v -> (forall a v', P a v' -> wpf (k a) Q v') -> wpf (m ≫= k) Q v.
Proof. intros Hm Hk. apply wpf_bind. eapply wpf_mono; [by apply wpf_wp|done]. Qed.

Lemma wpf_get {B} (k : V -> M V B) Q v : wpf (k v) Q v -> wpf (mget ≫= k) Q v.
Proof. done. Qed.

Lemma aperture_fails s f : aperture_of c s = Err f -> f = slope_failure.
Proof. unfold aperture_of, rassert. repeat case_match; cbn; try done. by intros [= <-]. Qed.

(** A demotion moves a line from its partition to the unmanaged region. *)
Lemma demotion_spec a v id e : St c a cl ci zero zero v -> a !! id = Some e -> p e <> partitions c ->
  wp (pmod (p e) (on_st incDemotions);;
      pmod (p e) (on_sz (add_size (-1)));;
      lset id (mkLine (addr e) (ts e) (bts e) (partitions c) (op e));;
      pmod (partitions c) (on_sz (add_size 1));;
      pmod (p e) (on_fb incDems)) (fun _ v' => Bal v') v.
Proof.
  intros HS He Hne.
  assert (p e <= partitions c /\ op e <= partitions c)%nat as [Hpe Hop]
    by (pose proof (st_lines _ _ _ _ _ _ _ HS) as HF; by eapply Forall_lookup_1 in HF; eauto).
  assert (0 < in_part (p e) a) as Hc.
  { unfold in_part. pose proof (cnt_pos (fun x => (p x =? p e)%nat) _ _ _ He (Nat.eqb_refl _)). lia. }
  wp_steps. eapply wp_mono; [by eapply wp_pmod_neutral|]. intros [] v1 HS1. wp_steps.
  eapply wp_mono; [eapply wp_add_size; [exact HS1|done|unfold zero; lia|unfold zero; lia]|]. intros [] v2 HS2. wp_steps.
  eapply wp_mono; [eapply wp_lset; [exact HS2|exact He|cbn; lia|done]|]. intros [] v3 HS3. wp_steps. cbn [p op] in HS3.
  pose proof HS3 as [_ _ _ _ _ _ _ _ Hlen Hsm _ _ _]. destruct (in_part_range (partitions c) _ Hlen Hsm) as [Hr _].
  assert (zero (partitions c) + (if decide (partitions c = p e) then -1 else 0) + one (p e =? partitions c)%nat -
    one (partitions c =? partitions c)%nat = -1) as Hd.
  { unfold zero, one. rewrite Nat.eqb_refl, decide_False by done. destruct (Nat.eqb_spec (p e) (partitions c)); lia. }
  eapply wp_mono; [eapply wp_add_size; [exact HS3|lia|cbn beta; rewrite Hd; lia|cbn beta; rewrite Hd; lia]|]. intros [] v4 HS4.
  eapply wp_mono; [by eapply wp_pmod_neutral|]. intros [] v5 HS5. eexists. eapply St_ext; [exact HS5| |]; intros x; unfold zero, one.
  - destruct (Nat.eqb_spec (p e) x), (Nat.eqb_spec (partitions c) x); repeat case_decide; subst; try done; lia.
  - lia.
Qed.

Lemma demote_spec v id : Bal v -> (id < totalSize c)%nat -> wpf (demote id) (fun _ v' => Bal v') v.
Proof.
  intros (a&HS) Hid. unfold demote. apply wpf_get. rewrite (st_cfg _ _ _ _ _ _ _ HS).
  pose proof (st_len _ _ _ _ _ _ _ HS) as Hlen.
  eapply wpf_step with (P := fun e v' => a !! id = Some e /\ v' = v); [eapply wp_lget; [exact HS|lia|done]|].
  intros e v' [He ->].
  assert (p e <= partitions c)%nat as Hpe
    by (pose proof (st_lines _ _ _ _ _ _ _ HS) as HF; by eapply Forall_lookup_1 in HF as [? _]; eauto).
  case_match; [by exists a|]. destruct (Nat.eqb_spec (p e) (partitions c)) as [|Hne]; [by exists a|].
  eapply wpf_step with (P := fun _ v' => v' = v); [eapply wp_pget; [exact HS|done|done]|]. intros i v' ->.
  case_match; [by exists a|].
  eapply wpf_step with (P := fun _ v' => Bal v').
  { case_match; [by eapply demotion_spec|]. apply wp_ret. by exists a. }
  intros [] v1 (a1&HS1). eapply wpf_step with (P := fun _ v' => St c a1 cl ci zero zero v'); [by eapply wp_pmod_neutral|].
  intros [] v2 HS2. eapply wpf_step with (P := fun _ v' => v' = v2); [by eapply wp_pget|]. intros i' v' ->.
  case_match; [|by exists a1]. apply wpf_bind. unfold wpf at 1, mlift.
  destruct (aperture_of c (sz i')) as [x|f] eqn:Ea; [|by apply aperture_fails in Ea].
  apply wpf_wp. wp_steps. eapply wp_mono; [by eapply wp_pmod_neutral|]. intros [] v3 HS3.
  eapply wp_mono; [by eapply wp_pmod_neutral|]. intros [] v4 HS4. by exists a1.
Qed.

Lemma demote_all_spec n : forall i v, Bal v -> (i + n <= ci)%nat -> wpf (demote_all n i) (fun _ v' => Bal v') v.
Proof.
  induction n as [|n IH]; intros i v HB Hi; cbn [demote_all]; [done|]. apply wpf_get.
  destruct HB as (a&HS). destruct (st_cands _ _ _ _ _ _ _ HS i) as (id&Hid&Hlt); [lia|].
  eapply wpf_step with (P := fun id' v' => id' = id /\ v' = v).
  { apply wp_lift. rewrite (st_cl _ _ _ _ _ _ _ HS), (arr_get_Some _ _ _ Hid). done. }
  intros id' v' [-> ->]. apply wpf_bind. eapply wpf_mono; [apply demote_spec; [by exists a|done]|].
  intros [] v' HB'. apply IH; [done|lia].
Qed.

(** *** The choice of the victim *)

(** [e] is evicted rather than [f], or they tie: unmanaged lines first, older first. *)
Definition evict_le (e f : LineInfo) : bool :=
  if (p e =? partitions c)%nat then negb (p f =? partitions c)%nat || (ts e <=? ts f)
  else negb (p f =? partitions c)%nat && (ts e <=? ts f).

Lemma vevict_refl e : evict_le e e = true.
Proof. unfold evict_le. rewrite Z.leb_refl. destruct (p e =? partitions c)%nat; done. Qed.
Lemma vevict_trans e f g : evict_le e f = true -> evict_le f g = true -> evict_le e g = true.
Proof.
  unfold evict_le. destruct (p e =? partitions c)%nat, (p f =? partitions c)%nat, (p g =? partitions c)%nat; cbn;
    rewrite ?Z.leb_le; try done; lia.
Qed.
Lemma worse_spec e b : if worse (partitions c) e b then evict_le e b = true else evict_le b e = true.
Proof.
  unfold worse, evict_le. destruct (p e =? partitions c)%nat, (p b =? partitions c)%nat; cbn; try done;
    destruct (Z.ltb_spec (ts e) (ts b)); apply Z.leb_le; lia.
Qed.

(** The choice among the recorded candidates: an empty line, or the first in the order. *)
Definition Chosen (a : list LineInfo) (r : nat) : Prop :=
  exists e, a !! r = Some e /\ (exists j, (j < ci)%nat /\ cl !! j = Some r) /\
    (ts e = 0 \/ forall j id f, (j < ci)%nat -> cl !! j = Some id -> a !! id = Some f -> ts f <> 0 /\ evict_le e f = true).

Lemma select_spec a v n : forall i best e, St c a cl ci zero zero v -> (i + n = ci)%nat ->
  (exists j, (j < ci)%nat /\ cl !! j = Some best) -> a !! best = Some e ->
  (forall j id f, (j < i)%nat -> cl !! j = Some id -> a !! id = Some f -> ts f <> 0 /\ evict_le e f = true) ->
  wp (select n i best) (fun r v' => v' = v /\ Chosen a r) v.
Proof.
  induction n as [|n IH]; intros i best e HS Hi Hbest He Hseen; cbn [select]; wp_steps.
  { split; [done|]. exists e. split; [done|]. split; [done|]. right. rewrite Nat.add_0_r in Hi. by subst i. }
  destruct (st_cands _ _ _ _ _ _ _ HS i) as (id&Hid&Hlt); [lia|]. pose proof (st_len _ _ _ _ _ _ _ HS) as Hlen.
  apply wp_lift. rewrite (st_cl _ _ _ _ _ _ _ HS), (arr_get_Some _ _ _ Hid). cbn. wp_steps.
  eapply wp_lget; [exact HS|lia|]. intros f Hf. wp_steps.
  eapply wp_lget; [exact HS|by eapply lookup_lt_Some|]. intros e' He'. simplify_eq.
  destruct (Z.eqb_spec (ts f) 0) as [Hz|Hz].
  { wp_steps. split; [done|]. exists f. split; [done|]. split; [exists i; split; [lia|done]|by left]. }
  rewrite (st_cfg _ _ _ _ _ _ _ HS). pose proof (worse_spec f e) as Hw.
  destruct (worse (partitions c) f e); (eapply IH; [exact HS|lia| |eassumption|]).
  - exists i. split; [lia|done].
  - intros j id' g Hj Hid' Hg. destruct (decide (j = i)) as [->|]; [simplify_eq; split; [done|apply vevict_refl]|].
    destruct (Hseen j id' g) as [? Hle]; [lia|done|done|]. split; [done|]. by eapply vevict_trans.
  - done.
  - intros j id' g Hj Hid' Hg. destruct (decide (j = i)) as [->|]; [by simplify_eq|]. apply (Hseen j id'); [lia|done|done].
Qed.

Lemma getBestCandidate_spec v : Bal v -> (0 < ci <= assoc c)%nat ->
  wpf getBestCandidate (fun r v' => exists a, St c a cl ci zero zero v' /\ Chosen a r) v.
Proof.
  intros HB Hci. pose proof HB as (a&HS). unfold getBestCandidate. apply wpf_get.
  rewrite (st_ci _ _ _ _ _ _ _ HS), (st_cfg _ _ _ _ _ _ _ HS), (st_cl _ _ _ _ _ _ _ HS).
  eapply wpf_step with (P := fun _ v' => v' = v); [apply wp_assert; [apply Nat.ltb_lt; lia|done]|]. intros [] v' ->.
  eapply wpf_step with (P := fun _ v' => v' = v); [apply wp_assert; [apply Nat.leb_le; lia|done]|]. intros [] v' ->.
  apply wpf_bind. eapply wpf_mono; [apply demote_all_spec; [done|lia]|]. intros [] v1 (a1&HS1). apply wpf_wp. wp_steps.
  destruct (st_cands _ _ _ _ _ _ _ HS1 O) as (id&Hid&Hlt); [lia|]. apply wp_lift. rewrite (arr_get_Some _ _ _ Hid). cbn. wp_steps.
  pose proof (st_len _ _ _ _ _ _ _ HS1) as Hlen. destruct (lookup_lt_is_Some_2 a1 id) as [e He]; [lia|].
  eapply wp_mono; [eapply select_spec; [exact HS1|lia|exists O; split; [lia|done]|exact He|intros; lia]|].
  intros r v' [-> HC]. pose proof HC as (f&Hf&_). wp_steps.
  apply wp_assert; [apply Nat.ltb_lt; rewrite <- Hlen; by eapply lookup_lt_Some|]. wp_steps. by exists a1.
Qed.
End Steps.

(** *** The other operations *)
Lemma record_cands_spec c a cands : forall cl ci v, St c a cl ci zero zero v -> (ci + length cands <= assoc c)%nat ->
  Forall (fun id => (id < totalSize c)%nat) cands ->
  wp (record_cands cands) (fun _ v' => exists cl', St c a cl' (ci + length cands) zero zero v' /\ take ci cl' = take ci cl /\
    forall j id, cands !! j = Some id -> cl' !! (ci + j)%nat = Some id) v.
Proof.
  induction cands as [|x cands IH]; intros cl ci v HS Hci HF; cbn [record_cands]; wp_steps.
  { exists cl. cbn. rewrite Nat.add_0_r. done. }
  apply Forall_cons_1 in HF as [Hx HF]. pose proof HS as []. unfold recordCandidate. wp_steps.
  rewrite st_ci0, st_cfg0, st_cl0. cbn [length] in Hci. apply wp_assert; [apply Nat.ltb_lt; lia|]. wp_steps.
  apply wp_lift. rewrite arr_set_lt by lia. cbn. wp_steps.
  eapply wp_mono; [apply (IH (<[ci := x]> cl) (S ci)); [|lia|done]|].
  - constructor; cbn; try done.
    + by rewrite length_insert.
    + intros j Hj. destruct (decide (j = ci)) as [->|].
      * exists x. split; [apply list_lookup_insert_eq; lia|done].
      * rewrite list_lookup_insert_ne by done. apply st_cands0. lia.
  - intros [] v' (cl'&HS'&Ht&Hc). exists cl'. cbn [length]. replace (ci + S (length cands))%nat with (S ci + length cands)%nat by lia.
    split; [done|]. assert (take ci cl' = take ci cl) as Ht'.
    { apply (f_equal (take ci)) in Ht. rewrite !take_take in Ht. replace (ci `min` S ci)%nat with ci in Ht by lia.
      by rewrite take_insert_ge in Ht by lia. }
    split; [done|]. intros [|j] id Hj; cbn in Hj.
    + injection Hj as <-. rewrite Nat.add_0_r. apply (f_equal (lookup ci)) in Ht. rewrite !lookup_take_lt in Ht by lia.
      rewrite Ht. apply list_lookup_insert_eq. lia.
    + rewrite Nat.add_succ_r. by apply Hc.
Qed.

Lemma replaced_spec_vantage c cl ci v id : Bal c cl ci v -> (id < totalSize c)%nat ->
  wp (replaced id) (fun _ v' => Bal c cl 0 v') v.
Proof.
  intros (a&HS) Hid. unfold replaced. wp_steps. pose proof (st_len _ _ _ _ _ _ _ HS) as Hlen.
  assert (HS0 : St c a cl 0 zero zero (with_cands (candList v) 0 v)) by (destruct HS; constructor; cbn; try done; lia).
  eapply wp_lget; [exact HS0|lia|]. intros e He.
  assert (p e <= partitions c /\ op e <= partitions c)%nat as [Hpe Hop]
    by (pose proof (st_lines _ _ _ _ _ _ _ HS) as HF; by eapply Forall_lookup_1 in HF; eauto).
  eapply wp_mono; [eapply wp_lset; [exact HS0|exact He|done|done]|]. intros [] v' HS'.
  eexists. eapply St_ext; [exact HS'| |]; intros x; cbn; unfold zero; lia.
Qed.

Lemma pmod_pmod q f g (Q : unit -> V -> Prop) v : wp (pmod q (fun i => g (f i))) Q v -> wp (pmod q f;; pmod q g) Q v.
Proof.
  unfold pmod, wp, mbind, M_bind, mget, mlift, mmodify, arr_mod, arr_get. cbn.
  destruct (partInfo v !! q) as [i|] eqn:Ei; cbn; [|done]. rewrite !arr_set_lt by (by eapply lookup_lt_Some). cbn.
  rewrite list_lookup_insert_eq by (by eapply lookup_lt_Some). cbn.
  rewrite arr_set_lt by (rewrite length_insert; by eapply lookup_lt_Some). cbn. by rewrite list_insert_insert_eq.
Qed.

(** Setting both targets of a partition, then the rest. *)
Lemma wp_pmod_then c cl ci a v q z (k : M V Z) Q : St c a cl ci zero zero v -> (q <= partitions c)%nat ->
  (forall v', Bal c cl ci v' -> wp k Q v') ->
  wp (pmod q (on_sz (set_target z));; pmod q (on_sz (set_longTerm z));; k) Q v.
Proof.
  intros HS Hq Hk.
  assert (wp (pmod q (on_sz (set_target z));; pmod q (on_sz (set_longTerm z))) (fun _ v' => Bal c cl ci v') v) as H1.
  { apply pmod_pmod. eapply wp_mono; [eapply (wp_pmod c cl ci _ zero zero zero zero); [exact HS|done|done|done]|].
    intros [] v' HS'. by exists a. }
  apply wp_bind_inv in H1. apply wp_bind. eapply wp_mono; [exact H1|]. intros [] v1 H2.
  apply wp_bind. eapply wp_mono; [exact H2|]. intros [] v2 HB. by apply Hk.
Qed.

Lemma set_targets_spec c cl ci sizes n : forall q v, Bal c cl ci v -> (q + n = partitions c)%nat -> (partitions c <= length sizes)%nat ->
  wp (set_targets n q sizes 0) (fun z v' => z = 0 /\ Bal c cl ci v') v.
Proof.
  induction n as [|n IH]; intros q v HB Hq Hl; cbn [set_targets]; wp_steps; [done|].
  pose proof HB as (a&HS). destruct (arr_get_lt sizes q) as (z&_&Ez); [lia|]. apply wp_lift. rewrite Ez. cbn.
  rewrite (st_cfg _ _ _ _ _ _ _ HS), (st_smooth _ _ _ _ _ _ _ HS).
  eapply (wp_pmod_then c cl ci); [exact HS|lia|]. intros v' HB'. apply IH; [done|lia|done].
Qed.

(** *** Runs *)
Inductive vop :=
| Hit (now : Z) (id : nat) (req : MemReq)
| Miss (now : Z) (req : MemReq) (cands : list nat)
| Resize (sizes : list Z).

Definition do_vop (o : vop) : M V unit :=
  match o with
  | Hit now id req => update randInt partOf now id req
  | Miss now req cands => r ← rank req cands; replaced r;; update randInt partOf now r req
  | Resize sizes => setPartitionSizes randInt sizes
  end.
Fixpoint run_vops (l : list vop) : M V unit :=
  match l with [] => mret tt | o :: l => do_vop o;; run_vops l end.

Definition vop_ok (c : Cfg) (o : vop) : Prop :=
  let part_ok req := exists q, partOf req = Ok q /\ (q < partitions c)%nat in
  match o with
  | Hit _ id req => part_ok req /\ (id < totalSize c)%nat
  | Miss _ req cands => part_ok req /\ (0 < length cands <= assoc c)%nat /\ Forall (fun id => (id < totalSize c)%nat) cands
  | Resize sizes => (partitions c <= length sizes)%nat
  end.

(** Between operations no candidates are recorded. *)
Definition Ready (c : Cfg) (v : V) : Prop := exists cl, Bal c cl 0 v.

Lemma rank_spec_vantage c v req cands : Ready c v -> (0 < length cands <= assoc c)%nat ->
  Forall (fun id => (id < totalSize c)%nat) cands ->
  wpf (rank req cands) (fun r v' => exists cl a, St c a cl (length cands) zero zero v' /\ Chosen c cl (length cands) a r /\
    forall j id, cands !! j = Some id -> cl !! j = Some id) v.
Proof.
  intros (cl&a&HS) Hc HF. unfold rank.
  eapply wpf_step with (P := fun _ v' => St c a cl 0 zero zero v').
  { unfold startReplacement. wp_steps. by eapply St_other. }
  intros [] v1 HS1. eapply wpf_step; [apply (record_cands_spec c a cands cl 0); [done|lia|done]|].
  intros [] v2 (cl'&HS2&_&Hcl). cbn in HS2. eapply wpf_mono; [apply (getBestCandidate_spec c cl' (length cands)); [by exists a|done]|].
  intros r v3 (a3&HS3&HC). by exists cl', a3.
Qed.

Lemma do_vop_spec c o v : Ready c v -> vop_ok c o -> wpf (do_vop o) (fun _ v' => Ready c v') v.
Proof.
  intros HR Ho. destruct o as [now id req|now req cands|sizes]; cbn [do_vop vop_ok] in *.
  - destruct Ho as [(q&Eq&Hq) Hid], HR as (cl&HB). apply wpf_wp.
    eapply wp_mono; [by eapply update_spec_vantage|]. intros [] v' HB'. by exists cl.
  - destruct Ho as ((q&Eq&Hq)&Hl&HF). apply wpf_bind. eapply wpf_mono; [by apply rank_spec_vantage|].
    intros r v1 (cl&a&HS&(e&He&_)&_). apply wpf_wp. wp_steps.
    assert (r < totalSize c)%nat as Hr by (rewrite <- (st_len _ _ _ _ _ _ _ HS); by eapply lookup_lt_Some).
    eapply wp_mono; [eapply (replaced_spec_vantage c cl (length cands)); [by exists a|done]|]. intros [] v2 HB2.
    eapply wp_mono; [by eapply update_spec_vantage|]. intros [] v3 HB3. by exists cl.
  - destruct HR as (cl&HB). apply wpf_wp. unfold setPartitionSizes. wp_steps. pose proof HB as (a&HS).
    rewrite (st_cfg _ _ _ _ _ _ _ HS). eapply wp_mono; [by eapply set_targets_spec|].
    intros z v' [-> HB']. cbn. wp_steps. by exists cl.
Qed.

Lemma run_vops_spec c l : forall v, Ready c v -> Forall (vop_ok c) l -> wpf (run_vops l) (fun _ v' => Ready c v') v.
Proof.
  induction l as [|o l IH]; intros v HR HF; cbn [run_vops]; [done|]. apply Forall_cons_1 in HF as [Ho HF].
  apply wpf_bind. eapply wpf_mono; [by apply do_vop_spec|]. intros [] v' HR'. by apply IH.
Qed.

Lemma init_ready_vantage (m : Mo) (r : R) parts lines assoc pp ps ma g v : acc_ok parts m -> Z.of_nat lines < two32 ->
  init m r parts lines assoc pp ps ma g false = Ok v ->
  Ready (mkCfg parts lines assoc (pct pp) (pct ps) (pct ma) g false) v.
Proof.
  intros Hacc Hl E. unfold init, rassert in E.
  destruct (pp <=? 100), (ps <=? 100), (ma <=? 100); try done. cbn [mbind res_bind] in E.
  destruct (d_to_u32 _) as [tm|]; [|done]. cbn [mbind res_bind] in E. injection E as <-.
  exists (replicate assoc 0%nat), (replicate lines (mkLine 0 0 0 parts parts)).
  assert (forall (f : LineInfo -> nat), f (mkLine 0 0 0 parts parts) = parts -> forall q,
    Z.of_nat (cnt (fun e => (f e =? q)%nat) (replicate lines (mkLine 0 0 0 parts parts))) = if decide (q = parts) then Z.of_nat lines else 0)
    as Hcnt.
  { intros f Hf q. case_decide as Hd.
    - subst q. f_equal. induction lines as [|k IHk]; cbn [replicate cnt]; [done|]. rewrite Hf, Nat.eqb_refl, IHk; lia.
    - rewrite cnt_replicate; [done|]. rewrite Hf. by apply Nat.eqb_neq. }
  constructor; cbn; try done.
  - apply length_replicate.
  - intros j Hj. lia.
  - rewrite length_app, length_replicate. cbn. lia.
  - apply length_replicate.
  - apply Forall_replicate. cbn. lia.
  - intros q Hq. unfold in_part, from_part. rewrite (Hcnt p), (Hcnt op) by done. unfold zero.
    destruct (decide (q = parts)) as [->|Hne].
    + eexists. rewrite lookup_app_r, length_replicate, Nat.sub_diag by (rewrite length_replicate; lia).
      split; [reflexivity|]. cbn. repeat split; lia.
    + eexists. rewrite lookup_app_l by (rewrite length_replicate; lia).
      rewrite lookup_replicate_2 by lia. split; [reflexivity|]. cbn. repeat split; lia.
Qed.
End Sizes.
End Vantage.

(** ** Theorems *)
Section VantageTheorems.
Context {R Mo : Type} `{AccessLaws Mo} (randInt : R -> Z -> Z * R) (partOf : MemReq -> res nat).
Import Vantage.

(** C32: (the sizes of Vantage's regions) From the constructor, without smoothed transients, any sequence of hits,
    replacements and resizings either ends in the feedback rule's assertion on
    its slope or returns, and then the size of every partition and of the unmanaged
    region is the number of lines in it, its extended size the number of lines that it inserted, and
    together they are all the lines. *)
Theorem vantage_sizes (mo : Mo) (rng : R) (parts lines nassoc : nat) (pp ps ma g : Z) (v0 : t R Mo) (l : list vop) :
  acc_ok parts mo -> Z.of_nat lines < two32 -> init mo rng parts lines nassoc pp ps ma g false = Ok v0 ->
  Forall (vop_ok partOf (cfg v0)) l ->
  run_vops randInt partOf l v0 = Err slope_failure \/
  exists v, run_vops randInt partOf l v0 = Ok (tt, v) /\ length (array v) = lines /\
    forall q, (q <= parts)%nat -> exists i, partInfo v !! q = Some i /\
      size (sz i) = in_part q (array v) /\ extendedSize (sz i) = from_part q (array v).
Proof.
  intros Hacc Hl E HF. pose proof (init_ready_vantage _ _ _ _ _ _ _ _ _ _ Hacc Hl E) as HR.
  assert (cfg v0 = mkCfg parts lines nassoc (pct pp) (pct ps) (pct ma) g false) as Ec
    by (destruct HR as (cl&a&HS); exact (st_cfg _ _ _ _ _ _ _ HS)).
  rewrite Ec in HF. pose proof (run_vops_spec randInt partOf _ l v0 HR HF) as Hrun. unfold wpf in Hrun.
  destruct (run_vops randInt partOf l v0) as [[[] v]|f]; [right|left; by rewrite Hrun].
  exists v. split; [done|]. destruct Hrun as (cl&a&HS). rewrite (st_array _ _ _ _ _ _ _ HS).
  split; [exact (st_len _ _ _ _ _ _ _ HS)|]. intros q Hq.
  destruct (st_sizes _ _ _ _ _ _ _ HS q Hq) as (i&?&?&?&_). exists i. unfold zero in *. repeat split; try done; lia.
Qed.

(** (Vantage's victim) In every state that such a sequence reaches, a replacement fails in that assertion or
    returns one of its candidates: an empty line if one of them is empty, otherwise an unmanaged
    line if there is one, after the demotions, and the oldest of its kind. *)
Theorem vantage_victim (mo : Mo) (rng : R) (parts lines nassoc : nat) (pp ps ma g : Z) (v0 v : t R Mo) (l : list vop)
    (req : MemReq) (cands : list nat) :
  acc_ok parts mo -> Z.of_nat lines < two32 -> init mo rng parts lines nassoc pp ps ma g false = Ok v0 ->
  Forall (vop_ok partOf (cfg v0)) l -> run_vops randInt partOf l v0 = Ok (tt, v) ->
  (0 < length cands <= nassoc)%nat -> Forall (fun id => (id < lines)%nat) cands ->
  rank req cands v = Err slope_failure \/
  exists r v' e, rank req cands v = Ok (r, v') /\ r ∈ cands /\ array v' !! r = Some e /\
    (ts e = 0 \/ forall id f, id ∈ cands -> array v' !! id = Some f ->
      ts f <> 0 /\ (p f = parts -> p e = parts) /\ ((p e = parts <-> p f = parts) -> ts e <= ts f)).
Proof.
  intros Hacc Hl E HF Er Hc HFc. pose proof (init_ready_vantage _ _ _ _ _ _ _ _ _ _ Hacc Hl E) as HR.
  set (c := mkCfg parts lines nassoc (pct pp) (pct ps) (pct ma) g false) in *.
  assert (cfg v0 = c) as Ec by (destruct HR as (cl&a&HS); exact (st_cfg _ _ _ _ _ _ _ HS)).
  rewrite Ec in HF. pose proof (run_vops_spec randInt partOf _ l v0 HR HF) as Hrun. unfold wpf in Hrun. rewrite Er in Hrun.
  pose proof (rank_spec_vantage c v req cands Hrun Hc HFc) as Hrank. unfold wpf in Hrank.
  destruct (rank req cands v) as [[r v']|f]; [right|left; by rewrite Hrank].
  destruct Hrank as (cl&a&HS&(e&He&(j&Hj&Hcl)&Hcase)&Hcands). exists r, v', e. rewrite (st_array _ _ _ _ _ _ _ HS).
  split; [done|]. split; [|split; [done|]].
  - destruct (lookup_lt_is_Some_2 cands j Hj) as [id Hid]. pose proof (Hcands _ _ Hid). simplify_eq. by eapply list_elem_of_lookup_2.
  - destruct Hcase as [|Hall]; [by left|right]. intros id f [k Hk]%list_elem_of_lookup_1 Hf.
    destruct (Hall k id f) as [Hz Hle]; [by eapply lookup_lt_Some|by apply Hcands|done|]. split; [done|].
    revert Hle. unfold evict_le. cbn [partitions c].
    destruct (Nat.eqb_spec (p e) parts), (Nat.eqb_spec (p f) parts); cbn; rewrite ?Z.leb_le; try done; intros; split; try tauto; lia.
Qed.
End VantageTheorems.

(** ** Examples *)
Definition vantage_ops : list Vantage.vop :=
  [Vantage.Miss 10 (req_of 0 5) [0; 1; 2; 3]%nat; Vantage.Miss 10 (req_of 1 6) [0; 1; 2; 3]%nat; Vantage.Resize [2; 2];
   Vantage.Miss 20 (req_of 1 7) [1; 2; 3]%nat; Vantage.Hit 30 0 (req_of 0 5)].
Definition vantage_start : option (Vantage.t unit Table.TableMon) :=
  match Vantage.init Table.mon tt 2 4 4 85 10 50 4 false with Ok v => Some v | Err _ => None end.
Lemma vantage_ops_ok v : vantage_start = Some v -> Forall (Vantage.vop_ok core_of (Vantage.cfg v)) vantage_ops.
Proof.
  intros E. vm_compute in E. injection E as <-. unfold vantage_ops. repeat constructor; cbn; try lia.
  all: try (eexists; split; [vm_compute; reflexivity|cbn; lia]).
Qed.

Lemma vantage_sizes_witness : exists v0 v, vantage_start = Some v0 /\
  Vantage.run_vops (fun r _ => (0, r)) core_of vantage_ops v0 = Ok (tt, v) /\
  forall q, (q <= 2)%nat -> exists i, Vantage.partInfo v !! q = Some i /\ Vantage.size (Vantage.sz i) = Vantage.in_part q (Vantage.array v).
Proof.
  destruct (Vantage.init Table.mon tt 2 4 4 85 10 50 4 false) as [v0|] eqn:E; [|by vm_compute in E].
  assert (vantage_start = Some v0) as Es by (unfold vantage_start; by rewrite E).
  destruct (vantage_sizes (fun r _ => (0, r)) core_of Table.mon tt 2 4 4 85 10 50 4 v0 vantage_ops) as [Hf|(v&Ev&_&Hs)];
    [done|done|done|by apply vantage_ops_ok| |].
  - exfalso. vm_compute in E. injection E as <-. by vm_compute in Hf.
  - exists v0, v. split; [done|]. split; [done|]. intros q Hq. destruct (Hs q Hq) as (i&?&?&_). eauto.
Defined.

Lemma vantage_victim_witness : exists v r v', (v0 ← vantage_start;
    match Vantage.run_vops (fun r _ => (0, r)) core_of vantage_ops v0 with Ok (_, v) => Some v | Err _ => None end) = Some v /\
  Vantage.rank (req_of 1 9) [0; 1; 2; 3]%nat v = Ok (r, v') /\ r ∈ [0; 1; 2; 3]%nat.
Proof.
  destruct (Vantage.init Table.mon tt 2 4 4 85 10 50 4 false) as [v0|] eqn:E; [|by vm_compute in E].
  assert (vantage_start = Some v0) as Es by (unfold vantage_start; by rewrite E).
  destruct (Vantage.run_vops (fun r _ => (0, r)) core_of vantage_ops v0) as [[[] v]|] eqn:Er;
    [|exfalso; vm_compute in E; injection E as <-; by vm_compute in Er].
  destruct (vantage_victim (fun r _ => (0, r)) core_of Table.mon tt 2 4 4 85 10 50 4 v0 v vantage_ops (req_of 1 9) [0; 1; 2; 3]%nat)
    as [Hf|(r&v'&e&Ek&Hin&_)]; [done|done|done|by apply vantage_ops_ok|done|cbn; lia|repeat constructor; lia| |].
  - exfalso. vm_compute in E. injection E as <-. vm_compute in Er. injection Er as <-. by vm_compute in Hf.
  - exists v, r, v'. rewrite Es. cbn [mbind option_bind]. rewrite Er. done.
Defined.
