(* ===== verification/CacheArrays.v ===== *)
(** * Cache arrays (src/src/cache_arrays.h, cache_arrays.cpp)

    The [CacheArray] interface (lookup, preinsert, postinsert), its laws as the
    coherent cache needs them, and the set-associative and zcache arrays over
    any replacement policy and any hash family. *)

From S2P Require Import Prelude Bithacks MemHier ReplPolicies.

(** ** The interface *)
Class CacheArray (A : Type) := {
  ca_lookup : A -> Z -> option MemReq -> bool -> res (option nat * A);
  ca_preinsert : A -> CCView -> Z -> MemReq -> res (nat * Z * A);
  ca_postinsert : A -> Z -> MemReq -> nat -> res A
}.

(** [ca_find a x] is the line that holds address [x], [ca_tag a l] the address
    in line [l].  Between [preinsert] and [postinsert] the array is pending on
    the chosen line; [ca_idle] says that it is not. *)
Class CacheArrayLaws (A : Type) `{CacheArray A} := {
  ca_numLines : A -> nat;
  ca_addr_ok : A -> Z -> Prop;
  ca_find : A -> Z -> option nat;
  ca_tag : A -> nat -> Z;
  ca_wf : A -> Prop;
  ca_idle : A -> Prop;
  ca_pending : A -> Z -> nat -> Prop;
  ca_idle_wf : forall a, ca_idle a -> ca_wf a;
  ca_pending_wf : forall a x l, ca_pending a x l -> ca_wf a;
  ca_find_tag : forall a x l,
    ca_wf a -> ca_find a x = Some l -> (l < ca_numLines a)%nat /\ ca_tag a l = x;
  (** A lookup returns the line; without [updateReplacement] it changes nothing. *)
  ca_lookup_ok : forall a x, ca_wf a -> ca_addr_ok a x ->
    ca_lookup a x None false = Ok (ca_find a x, a);
  ca_lookup_noupd : forall a x req, ca_wf a -> ca_addr_ok a x ->
    ca_lookup a x (Some req) false = Ok (ca_find a x, a);
  ca_lookup_upd : forall a x req, ca_idle a -> ca_addr_ok a x -> IsGet (type req) = true ->
    rwp (ca_lookup a x (Some req) true) (fun '(r, a') =>
      r = ca_find a x /\ ca_idle a' /\ ca_numLines a' = ca_numLines a /\
      (forall y, ca_addr_ok a' y <-> ca_addr_ok a y) /\
      (forall y, ca_find a' y = ca_find a y) /\ (forall l, ca_tag a' l = ca_tag a l));
  (** [preinsert] of an absent address picks a line and returns its address. *)
  ca_preinsert_ok : forall a cc x req,
    ca_idle a -> ca_addr_ok a x -> ca_find a x = None ->
    rwp (ca_preinsert a cc x req) (fun '(l, wb, a') =>
      wb = ca_tag a l /\ (l < ca_numLines a)%nat /\ ca_tag a l <> x /\
      ca_pending a' x l /\ ca_numLines a' = ca_numLines a /\
      (forall y, ca_addr_ok a' y <-> ca_addr_ok a y) /\
      (forall y, ca_find a' y = ca_find a y) /\ (forall l, ca_tag a' l = ca_tag a l));
  (** [postinsert] puts the address there; every other line is found as before. *)
  ca_postinsert_ok : forall a x req l,
    ca_pending a x l -> ca_find a x = None -> IsGet (type req) = true ->
    rwp (ca_postinsert a x req l) (fun a' =>
      ca_idle a' /\ ca_numLines a' = ca_numLines a /\
      (forall y, ca_addr_ok a' y <-> ca_addr_ok a y) /\
      ca_find a' x = Some l /\
      (forall y, y <> x -> ca_find a y <> Some l -> ca_find a' y = ca_find a y) /\
      (forall l', ca_tag a' l' = if decide (l = l') then x else ca_tag a l'))
}.

(** [rp->update(id, req)] when [updateReplacement] is set. *)
Definition update_if {R} `{ReplPolicy R} (b : bool) (rp : R) (id : nat) (req : option MemReq) : res R :=
  if b then match req with
            | Some q => rp_update rp id q
            | None => Err (Panic "null request in update")
            end
  else Ok rp.

(** ** Set-associative arrays *)
Module SetAssoc.

Record t {R : Type} := mk {
  array : list Z;
  rp : R;
  hf : nat -> Z -> Z;
  numLines : nat;
  numSets : nat;
  assoc : nat;
  setMask : Z
}.
Arguments t R : clear implicits.

Section Defs.
Context {R : Type} `{ReplPolicy R}.

Definition init (numLines assoc : nat) (rp : R) (hf : nat -> Z -> Z) : res (t R) :=
  let numSets := (numLines / assoc)%nat in
  _ ← rassert (isPow2 (Z.of_nat numSets)) "must have a power of 2 # sets";
  Ok (mk R (replicate numLines 0) rp hf numLines numSets assoc (u32 (Z.of_nat numSets - 1))).

Definition with_rp (a : t R) (rp : R) : t R :=
  mk R (array a) rp (hf a) (numLines a) (numSets a) (assoc a) (setMask a).

(** [hf->hash(0, lineAddr) & setMask], times [assoc]. *)
Definition first (a : t R) (x : Z) : nat :=
  (Z.to_nat (Z.land (hf a 0%nat x) (setMask a)) * assoc a)%nat.

Fixpoint lookup_loop (tags : list Z) (x : Z) (id n : nat) : res (option nat) :=
  match n with
  | O => Ok None
  | Datatypes.S n' =>
    y ← arr_get tags id;
    if y =? x then Ok (Some id) else lookup_loop tags x (Nat.succ id) n'
  end.

Definition lookup (a : t R) (x : Z) (req : option MemReq) (updateReplacement : bool)
    : res (option nat * t R) :=
  r ← lookup_loop (array a) x (first a x) (assoc a);
  match r with
  | Some id => rp' ← update_if updateReplacement (rp a) id req; Ok (Some id, with_rp a rp')
  | None => Ok (None, a)
  end.

Definition preinsert (a : t R) (cc : CCView) (x : Z) (req : MemReq) : res (nat * Z * t R) :=
  '(candidate, rp') ← rp_rankCands (rp a) cc req (seq (first a x) (assoc a));
  wb ← arr_get (array a) candidate;
  Ok (candidate, wb, with_rp a rp').

Definition postinsert (a : t R) (x : Z) (req : MemReq) (candidate : nat) : res (t R) :=
  rp1 ← rp_replaced (rp a) candidate;
  tags ← arr_set (array a) candidate x;
  rp2 ← rp_update rp1 candidate req;
  Ok (mk R tags rp2 (hf a) (numLines a) (numSets a) (assoc a) (setMask a)).

End Defs.
End SetAssoc.

#[export] Instance SetAssoc_CacheArray {R} `{ReplPolicy R} : CacheArray (SetAssoc.t R) := {
  ca_lookup := SetAssoc.lookup;
  ca_preinsert := SetAssoc.preinsert;
  ca_postinsert := SetAssoc.postinsert
}.

(** ** Zcache arrays *)
Module ZArr.

(** [ZWalkInfo]; [parentIdx == -1] (a seed) is [None]. *)
Record ZWalkInfo := mkWalk { pos : nat; lineId : nat; parentIdx : option nat }.

Record t {R : Type} := mk {
  array : list Z;
  lookupArray : list nat;
  rp : R;
  hf : nat -> Z -> Z;
  numLines : nat;
  numSets : nat;
  ways : nat;
  cands : nat;
  setMask : Z;
  swapArray : list nat;  (** its first [swapArrayLen] entries *)
  lastCandIdx : nat;
  statSwaps : Z
}.
Arguments t R : clear implicits.

Section Defs.
Context {R : Type} `{ReplPolicy R}.

Definition init (numLines ways cands : nat) (rp : R) (hf : nat -> Z -> Z) : res (t R) :=
  _ ← rassert (1 <? ways)%nat "zcaches need >=2 ways to work";
  _ ← rassert (ways <=? cands)%nat "candidates < ways does not make sense in a zcache";
  _ ← rassert (numLines mod ways =? 0)%nat "number of lines is not a multiple of ways";
  let numSets := (numLines / ways)%nat in
  _ ← rassert (isPow2 (Z.of_nat numSets)) "must have a power of 2 # sets";
  Ok (mk R (replicate numLines 0) (seq 0 numLines) rp hf numLines numSets ways cands
        (u32 (Z.of_nat numSets - 1)) [] 0 0).

(** [w*numSets + (hf->hash(w, addr) & setMask)]. *)
Definition position (a : t R) (w : nat) (x : Z) : nat :=
  (w * numSets a + Z.to_nat (Z.land (hf a w x) (setMask a)))%nat.

Definition with_rp (a : t R) (rp : R) : t R :=
  mk R (array a) (lookupArray a) rp (hf a) (numLines a) (numSets a) (ways a) (cands a)
     (setMask a) (swapArray a) (lastCandIdx a) (statSwaps a).

Fixpoint lookup_loop (a : t R) (x : Z) (w n : nat) : res (option nat) :=
  match n with
  | O => Ok None
  | Datatypes.S n' =>
    l ← arr_get (lookupArray a) (position a w x);
    y ← arr_get (array a) l;
    if y =? x then Ok (Some l) else lookup_loop a x (Nat.succ w) n'
  end.

Definition lookup (a : t R) (x : Z) (req : option MemReq) (updateReplacement : bool)
    : res (option nat * t R) :=
  _ ← rassert (negb (x =? 0)) "ZArray::lookup called with lineAddr==0";
  r ← lookup_loop a x 0 (ways a);
  match r with
  | Some l => rp' ← update_if updateReplacement (rp a) l req; Ok (Some l, with_rp a rp')
  | None => Ok (None, a)
  end.

(** The seeds: one candidate per way. *)
Fixpoint seeds (a : t R) (x : Z) (w n : nat) (cs : list ZWalkInfo) (all_valid : bool)
    : res (list ZWalkInfo * bool) :=
  match n with
  | O => Ok (cs, all_valid)
  | Datatypes.S n' =>
    let p := position a w x in
    l ← arr_get (lookupArray a) p;
    y ← arr_get (array a) l;
    seeds a x (Nat.succ w) n' (cs ++ [mkWalk p l None]) (all_valid && negb (y =? 0))
  end.

(** The inner loop of the expansion.  Entry [numCandidates] of the local array
    (of [cands + ways] entries) is always written, and kept when the line is not
    the fringe line itself. *)
Fixpoint expand (a : t R) (fringeId : nat) (fringeAddr : Z) (fringeStart : nat) (w n : nat)
    (cs : list ZWalkInfo) (all_valid : bool) : res (list ZWalkInfo * bool) :=
  match n with
  | O => Ok (cs, all_valid)
  | Datatypes.S n' =>
    let p := position a w fringeAddr in
    l ← arr_get (lookupArray a) p;
    _ ← rassert (length cs <? cands a + ways a)%nat "candidates[] overflow";
    y ← arr_get (array a) l;
    expand a fringeId fringeAddr fringeStart (Nat.succ w) n'
      (if (l =? fringeId)%nat then cs else cs ++ [mkWalk p l (Some fringeStart)])
      (all_valid && negb (y =? 0))
  end.

(** [while (numCandidates < cands && all_valid)]: the breadth-first walk. *)
Fixpoint walk (fuel : nat) (a : t R) (fringeStart : nat) (cs : list ZWalkInfo) (all_valid : bool)
    : res (list ZWalkInfo * bool) :=
  match fuel with
  | O => Err OutOfFuel
  | Datatypes.S fuel' =>
    if (length cs <? cands a)%nat && all_valid then
      f ← arr_get cs fringeStart;
      fringeAddr ← arr_get (array a) (lineId f);
      _ ← rassert (negb (fringeAddr =? 0)) "fringeAddr";
      '(cs, v) ← expand a (lineId f) fringeAddr fringeStart 0 (ways a) cs all_valid;
      walk fuel' a (Nat.succ fringeStart) cs v
    else Ok (cs, all_valid)
  end.

(** The minimum index whose candidate is [l]. *)
Fixpoint min_idx (cs : list ZWalkInfo) (l : nat) (ii : nat) : option nat :=
  match cs with
  | [] => None
  | c :: cs' => if (lineId c =? l)%nat then Some ii else min_idx cs' l (Nat.succ ii)
  end.

(** Following the parent indices fills [swapArray], which has
    [cands/ways + 2] entries. *)
Fixpoint fill_swaps (fuel : nat) (a : t R) (cs : list ZWalkInfo) (idx : option nat) (sw : list nat)
    : res (list nat) :=
  match idx with
  | None => Ok sw
  | Some i =>
    match fuel with
    | O => Err OutOfFuel
    | Datatypes.S fuel' =>
      c ← arr_get cs i;
      _ ← rassert (length sw <? cands a / ways a + 2)%nat "swapArray overflow";
      fill_swaps fuel' a cs (parentIdx c) (sw ++ [pos c])
    end
  end.

Definition preinsert (a : t R) (cc : CCView) (x : Z) (req : MemReq) : res (nat * Z * t R) :=
  '(cs, v) ← seeds a x 0 (ways a) [] true;
  '(cs, v) ← walk (Nat.succ (cands a)) a 0 cs v;
  _ ← rassert (negb v || (cands a <=? length cs)%nat) "!all_valid || numCandidates >= cands";
  let cs := take (cands a) cs in
  '(best, rp') ← rp_rankCands (rp a) cc req (lineId <$> cs);
  _ ← rassert (best <? numLines a)%nat "bestCandidate < numLines";
  minIdx ← from_opt (min_idx cs best 0) "candidates[-1]";
  sw ← fill_swaps (Nat.succ (length cs)) a cs (Some minIdx) [];
  _ ← rassert (0 <? length sw)%nat "swapArrayLen > 0";
  wb ← arr_get (array a) best;
  Ok (best, wb, mk R (array a) (lookupArray a) rp' (hf a) (numLines a) (numSets a) (ways a)
                  (cands a) (setMask a) sw minIdx (statSwaps a)).

(** The swaps: each position takes the line of the next one, the last takes the
    candidate. *)
Fixpoint do_swaps (la : list nat) (sw : list nat) (candidate : nat) : res (list nat) :=
  match sw with
  | [] => Ok la
  | p :: sw' =>
    match sw' with
    | [] => arr_set la p candidate
    | p' :: _ =>
      l ← arr_get la p';
      la' ← arr_set la p l;
      do_swaps la' sw' candidate
    end
  end.

Definition postinsert (a : t R) (x : Z) (req : MemReq) (candidate : nat) : res (t R) :=
  p0 ← arr_get (swapArray a) 0;
  l0 ← arr_get (lookupArray a) p0;
  _ ← rassert (l0 =? candidate)%nat "lookupArray[swapArray[0]] == candidate";
  la ← do_swaps (lookupArray a) (swapArray a) candidate;
  rp1 ← rp_replaced (rp a) candidate;
  tags ← arr_set (array a) candidate x;
  rp2 ← rp_update rp1 candidate req;
  Ok (mk R tags la rp2 (hf a) (numLines a) (numSets a) (ways a) (cands a) (setMask a)
        (swapArray a) (lastCandIdx a)
        (u64 (statSwaps a + (Z.of_nat (length (swapArray a)) - 1)))).

End Defs.
End ZArr.

#[export] Instance ZArr_CacheArray {R} `{ReplPolicy R} : CacheArray (ZArr.t R) := {
  ca_lookup := ZArr.lookup;
  ca_preinsert := ZArr.preinsert;
  ca_postinsert := ZArr.postinsert
}.

(** ** Set-associative arrays satisfy the interface's laws *)
Section SetAssoc_laws.
Context {R : Type} `{RL : ReplPolicyLaws R}.
Import SetAssoc.
Implicit Types (a : SetAssoc.t R) (tags : list Z) (x y : Z) (l : nat).

(** The first line of a range that holds [x]. *)
Definition first_at tags x (lo n : nat) (r : option nat) : Prop :=
  match r with
  | Some j => (lo <= j < lo + n)%nat /\ tags !!! j = x /\
              forall i, (lo <= i < j)%nat -> tags !!! i <> x
  | None => forall i, (lo <= i < lo + n)%nat -> tags !!! i <> x
  end.

Lemma first_at_unique tags x lo n r r' : first_at tags x lo n r -> first_at tags x lo n r' -> r = r'.
Proof.
  destruct r as [j|], r' as [j'|]; simpl; [| | |done].
  - intros (Hr&Hj&Hb) (Hr'&Hj'&Hb').
    destruct (lt_eq_lt_dec j j') as [[Hlt| ->]|Hgt]; [|done|].
    + destruct (Hb' j); [lia|done].
    + destruct (Hb j'); [lia|done].
  - intros (Hr&Hj&_) Hn. by destruct (Hn j).
  - intros Hn (Hr&Hj&_). by destruct (Hn j').
Qed.

Lemma lookup_loop_spec tags x id n : (id + n <= length tags)%nat ->
  exists r, lookup_loop tags x id n = Ok r /\ first_at tags x id n r.
Proof.
  revert id. induction n as [|n IH]; intros id Hlen.
  { exists None. split; [done|]. intros i Hi. lia. }
  destruct (arr_get_lt tags id) as (y&Hy&Hg); [lia|].
  apply list_lookup_total_correct in Hy. cbn [lookup_loop]. rewrite Hg. cbn [mbind res_bind].
  destruct (Z.eqb_spec y x) as [->|Hne].
  - exists (Some id). split; [done|]. split_and!; try lia; try done.
  - destruct (IH (Nat.succ id)) as (r&Hr&Hf); [unfold Nat.succ; lia|]. exists r. split; [done|].
    unfold Nat.succ in Hf. destruct r as [j|]; simpl in *.
    + destruct Hf as (Hj&Hx&Hb). split_and!; try lia; try done.
      intros i Hi. destruct (decide (i = id)) as [->|]; [congruence|]. apply Hb. lia.
    + intros i Hi. destruct (decide (i = id)) as [->|]; [congruence|]. apply Hf. lia.
Qed.

Lemma lookup_loop_eq tags x id n r : (id + n <= length tags)%nat ->
  first_at tags x id n r -> lookup_loop tags x id n = Ok r.
Proof.
  intros Hlen Hf. destruct (lookup_loop_spec tags x id n Hlen) as (r'&->&Hf').
  f_equal. by eapply first_at_unique.
Qed.

Definition sa_find a x : option nat :=
  match lookup_loop (array a) x (first a x) (assoc a) with Ok r => r | Err _ => None end.

(** [lines] and [rpok] are the parts that the replacement policy's state changes. *)
Record sa_shape a : Prop := {
  sa_len : length (array a) = numLines a;
  sa_lines : (numSets a * assoc a <= numLines a)%nat;
  sa_mask : setMask a = Z.of_nat (numSets a) - 1;
  sa_sets : (0 < numSets a)%nat;
  sa_assoc : (0 < assoc a)%nat
}.

Lemma sa_first_bound a x : sa_shape a -> (first a x + assoc a <= length (array a))%nat.
Proof.
  intros [Hl Hn Hm Hs Ha]. unfold first. rewrite Hl.
  pose proof (land_le_l (setMask a) (hf a 0 x)) as Hb. rewrite Z.land_comm in Hb.
  assert (Z.to_nat (Z.land (hf a 0 x) (setMask a)) < numSets a)%nat by lia. nia.
Qed.

Lemma sa_find_spec a x : sa_shape a -> first_at (array a) x (first a x) (assoc a) (sa_find a x).
Proof.
  intros Hs. destruct (lookup_loop_spec (array a) x _ _ (sa_first_bound a x Hs)) as (r&Hr&Hf).
  unfold sa_find. by rewrite Hr.
Qed.

Lemma sa_lookup_loop a x : sa_shape a ->
  lookup_loop (array a) x (first a x) (assoc a) = Ok (sa_find a x).
Proof. intros Hs. apply lookup_loop_eq; [by apply sa_first_bound|by apply sa_find_spec]. Qed.

Definition sa_wf a : Prop := sa_shape a /\ rp_wf (numLines a) (assoc a) (rp a).
Definition sa_idle a : Prop := sa_shape a /\ rp_idle (numLines a) (assoc a) (rp a).
Definition sa_pending a x l : Prop := sa_wf a /\ (first a x <= l < first a x + assoc a)%nat.

Lemma with_rp_shape a rp' : sa_shape a -> sa_shape (with_rp a rp').
Proof. by intros [????]. Qed.

Lemma sa_in_set a x l : sa_shape a -> (first a x <= l < first a x + assoc a)%nat -> (l < numLines a)%nat.
Proof. intros Hs Hl. pose proof (sa_first_bound a x Hs). rewrite <- (sa_len a Hs). lia. Qed.

Lemma first_in_find a x l : sa_shape a -> sa_find a x = None ->
  (first a x <= l < first a x + assoc a)%nat -> array a !!! l <> x.
Proof. intros Hs Hn Hl. pose proof (sa_find_spec a x Hs) as Hf. rewrite Hn in Hf. by apply Hf. Qed.

(** Writing [x] into a line of its set. *)
Lemma first_at_insert_eq tags x lo n l : (lo <= l < lo + n)%nat -> (lo + n <= length tags)%nat ->
  first_at tags x lo n None -> first_at (<[l := x]> tags) x lo n (Some l).
Proof.
  intros Hl Hlen Hn. split_and!; [lia|lia| |].
  - rewrite list_lookup_total_alt, list_lookup_insert_eq by lia. done.
  - intros i Hi. rewrite list_lookup_total_alt, list_lookup_insert_ne by lia.
    rewrite <- list_lookup_total_alt. apply Hn. lia.
Qed.
Lemma first_at_insert_ne tags x y lo n l r : x <> y -> (l < length tags)%nat ->
  first_at tags y lo n r -> r <> Some l -> first_at (<[l := x]> tags) y lo n r.
Proof.
  intros Hxy Hlen Hf Hr.
  assert (Hget : forall i, <[l := x]> tags !!! i = if decide (i = l) then x else tags !!! i).
  { intros i. rewrite !list_lookup_total_alt. case_decide as Hil.
    - subst. by rewrite list_lookup_insert_eq.
    - by rewrite list_lookup_insert_ne. }
  destruct r as [j|]; simpl in *.
  - destruct Hf as (Hj&Hy&Hb). split_and!; [lia|lia| |].
    + rewrite Hget, decide_False; [done|congruence].
    + intros i Hi. rewrite Hget. case_decide; [done|]. by apply Hb.
  - intros i Hi. rewrite Hget. case_decide; [done|]. by apply Hf.
Qed.

Lemma sa_lookup_none a x : sa_wf a -> lookup a x None false = Ok (sa_find a x, a).
Proof.
  intros [Hs _]. unfold lookup. rewrite sa_lookup_loop by done. cbn.
  destruct (sa_find a x); [|done]. by destruct a.
Qed.

Lemma sa_lookup_upd a x req : sa_idle a -> IsGet (type req) = true ->
  rwp (lookup a x (Some req) true) (fun '(r, a') =>
    r = sa_find a x /\ sa_idle a' /\ numLines a' = numLines a /\
    (forall y, sa_find a' y = sa_find a y) /\ (forall l, array a' !!! l = array a !!! l)).
Proof.
  intros [Hs Hi] Hg. unfold lookup. rewrite sa_lookup_loop by done. cbn [mbind res_bind].
  pose proof (sa_find_spec a x Hs) as Hf. destruct (sa_find a x) as [id|]; [|done].
  destruct (rwp_elim _ _ (rp_update_ok (numLines a) (assoc a) (rp a) id req (rp_idle_wf _ _ _ Hi)
    (sa_in_set a x id Hs (proj1 Hf)) Hg)) as (rp'&Hu&Hw&Hid). cbn [update_if]. rewrite Hu. cbn.
  split_and!; try done. split; [by apply with_rp_shape|by apply Hid].
Qed.

Lemma sa_preinsert a cc x req : sa_idle a -> sa_find a x = None ->
  rwp (preinsert a cc x req) (fun '(l, wb, a') =>
    wb = array a !!! l /\ (l < numLines a)%nat /\ array a !!! l <> x /\ sa_pending a' x l /\
    numLines a' = numLines a /\
    (forall y, sa_find a' y = sa_find a y) /\ (forall l, array a' !!! l = array a !!! l)).
Proof.
  intros [Hs Hi] Hn. unfold preinsert.
  assert (Hrk := rp_rankCands_ok (numLines a) (assoc a) (rp a) cc req (seq (first a x) (assoc a)) Hi).
  destruct (rwp_elim _ _ (Hrk ltac:(destruct (assoc a) eqn:E; [pose proof (sa_assoc a Hs); lia|done])
    ltac:(by rewrite length_seq)
    ltac:(apply Forall_forall; intros i Hi'%in_seq; by apply (sa_in_set a x))))
    as ([l rp']&Hrun&Hl&Hw).
  rewrite Hrun. cbn [mbind res_bind]. apply elem_of_seq in Hl.
  assert (Hlt := sa_in_set a x l Hs Hl).
  destruct (arr_get_lt (array a) l) as (y&Hy&Hg); [by rewrite (sa_len a Hs)|].
  rewrite Hg. cbn. apply list_lookup_total_correct in Hy. rewrite Hy.
  split_and!; try done.
  - rewrite <- Hy. by apply (first_in_find a x).
  - split; [|exact Hl]. split; [by apply with_rp_shape|done].
Qed.

Lemma sa_postinsert a x req l : sa_pending a x l -> sa_find a x = None -> IsGet (type req) = true ->
  rwp (postinsert a x req l) (fun a' =>
    sa_idle a' /\ numLines a' = numLines a /\ sa_find a' x = Some l /\
    (forall y, y <> x -> sa_find a y <> Some l -> sa_find a' y = sa_find a y) /\
    (forall l', array a' !!! l' = if decide (l = l') then x else array a !!! l')).
Proof.
  intros [[Hs Hw] Hl] Hn Hg. unfold postinsert. assert (Hlt := sa_in_set a x l Hs Hl).
  destruct (rwp_elim _ _ (rp_replaced_ok _ _ _ l Hw Hlt)) as (rp1&->&Hi1). cbn [mbind res_bind].
  rewrite arr_set_lt by by rewrite (sa_len a Hs). cbn [mbind res_bind].
  destruct (rwp_elim _ _ (rp_update_ok _ _ _ l req (rp_idle_wf _ _ _ Hi1) Hlt Hg)) as (rp2&->&_&Hi2).
  cbn. set (a' := mk _ _ _ _ _ _ _ _).
  assert (Hs' : sa_shape a').
  { destruct Hs as [H1 H2 H3 H4 H5]. split; try done. cbn. by rewrite length_insert. }
  split_and!; try done.
  - split; [done|by apply Hi2].
  - pose proof (sa_find_spec a x Hs) as Hf. rewrite Hn in Hf.
    apply (first_at_unique (array a') x (first a' x) (assoc a')); [by apply sa_find_spec|].
    apply first_at_insert_eq; [done|exact (sa_first_bound a x Hs)|done].
  - intros y Hy Hyl. apply (first_at_unique (array a') y (first a' y) (assoc a')); [by apply sa_find_spec|].
    apply first_at_insert_ne; [done|by rewrite (sa_len a Hs)|exact (sa_find_spec a y Hs)|done].
  - intros l'. cbn. rewrite !list_lookup_total_alt. case_decide; subst.
    + rewrite list_lookup_insert_eq by by rewrite (sa_len a Hs). done.
    + by rewrite list_lookup_insert_ne.
Qed.

(** The constructor's array. *)
Lemma sa_init n assoc0 (rp0 : R) hf0 : (0 < assoc0)%nat -> Z.of_nat n < two32 ->
  isPow2 (Z.of_nat (n / assoc0)) = true -> rp_idle n assoc0 rp0 ->
  exists a, init n assoc0 rp0 hf0 = Ok a /\ sa_idle a /\ numLines a = n.
Proof.
  intros Ha Hn Hp Hrp. unfold init. rewrite Hp. cbn [rassert mbind res_bind].
  eexists. split; [reflexivity|]. split; [|done]. split; [|done].
  assert (Hd : (assoc0 * (n / assoc0) <= n)%nat) by (apply Nat.Div0.mul_div_le).
  apply isPow2_iff in Hp; [|unfold two32, two64 in *; nia]. destruct Hp as (k&Hk&Hpow).
  assert (0 < 2 ^ k) by by apply Z.pow_pos_nonneg.
  split; cbn.
  - apply length_replicate.
  - lia.
  - apply u32_small. unfold two32 in *. nia.
  - lia.
  - done.
Qed.
End SetAssoc_laws.

#[export] Program Instance SetAssoc_Laws {R} `{RL : ReplPolicyLaws R} : CacheArrayLaws (SetAssoc.t R) := {
  ca_numLines := SetAssoc.numLines;
  ca_addr_ok _ _ := True;
  ca_find := sa_find;
  ca_tag a l := SetAssoc.array a !!! l;
  ca_wf := sa_wf;
  ca_idle := sa_idle;
  ca_pending := sa_pending
}.
Next Obligation. intros R ?? a [??]. split; [done|]. by apply rp_idle_wf. Qed.
Next Obligation. by intros R ?? a x l [? _]. Qed.
Next Obligation.
  cbn. intros R ?? a x l [Hs _] Hf. pose proof (sa_find_spec a x Hs) as Hsp. rewrite Hf in Hsp.
  destruct Hsp as (Hl&Hx&_). split; [by apply (sa_in_set a x)|done].
Qed.
Next Obligation.
  cbn. intros R ?? a x Hwf _. by apply sa_lookup_none.
Qed.
Next Obligation.
  cbn. intros R ?? a x req [Hs _] _. unfold SetAssoc.lookup. rewrite sa_lookup_loop by done. cbn.
  destruct (sa_find a x); [|done]. by destruct a.
Qed.
Next Obligation.
  intros R ?? a x req Hi _ Hg.
  destruct (rwp_elim _ _ (sa_lookup_upd a x req Hi Hg)) as ([r a']&Hrun&?&?&?&?&?).
  eapply rwp_ok; [exact Hrun|]. done.
Qed.
Next Obligation.
  intros R ?? a cc x req Hi _ Hn.
  destruct (rwp_elim _ _ (sa_preinsert a cc x req Hi Hn)) as ([[l wb] a']&Hrun&?&?&?&?&?&?&?).
  eapply rwp_ok; [exact Hrun|]. done.
Qed.
Next Obligation.
  intros R ?? a x req l Hp Hn Hg.
  destruct (rwp_elim _ _ (sa_postinsert a x req l Hp Hn Hg)) as (a'&Hrun&?&?&?&?&?).
  eapply rwp_ok; [exact Hrun|]. done.
Qed.

(** ** The arrays' contract *)
Section Contract.
Context {R : Type} `{RL : ReplPolicyLaws R}.
Implicit Types (a : SetAssoc.t R).

(** C40: inserting an address that a set-associative array does not hold: a line of
    its set is chosen and its old address reported for writeback; afterwards a lookup
    finds the new address in that line, the replaced address no longer there, and
    every other address where it was. *)
Theorem set_assoc_insert a cc x req :
  sa_idle a -> sa_find a x = None -> IsGet (type req) = true ->
  exists l wb a1 a2,
    SetAssoc.preinsert a cc x req = Ok (l, wb, a1) /\ SetAssoc.postinsert a1 x req l = Ok a2 /\
    wb = SetAssoc.array a !!! l /\ (l < SetAssoc.numLines a)%nat /\ sa_idle a2 /\
    SetAssoc.lookup a2 x None false = Ok (Some l, a2) /\
    (exists r, SetAssoc.lookup a2 wb None false = Ok (r, a2) /\ r <> Some l) /\
    forall y, y <> x -> sa_find a y <> Some l -> SetAssoc.lookup a2 y None false = Ok (sa_find a y, a2).
Proof.
  intros Hi Hn Hg. destruct (rwp_elim _ _ (sa_preinsert a cc x req Hi Hn)) as ([[l wb] a1]&E1&->&Hl&Hne&Hp&_&Hf1&_).
  destruct (rwp_elim _ _ (sa_postinsert a1 x req l Hp ltac:(by rewrite Hf1) Hg)) as (a2&E2&Hi2&_&Hx&Hy&Ht).
  assert (Hw2 : sa_wf a2) by (destruct Hi2; split; [done|by apply rp_idle_wf]).
  exists l, (SetAssoc.array a !!! l), a1, a2. split_and!; try done.
  - by rewrite sa_lookup_none, Hx.
  - exists (sa_find a2 (SetAssoc.array a !!! l)). split; [by apply sa_lookup_none|]. intros Hfl.
    pose proof (sa_find_spec a2 (SetAssoc.array a !!! l) (proj1 Hw2)) as Hsp. rewrite Hfl in Hsp.
    destruct Hsp as (_&Htag&_).
    rewrite Ht, decide_True in Htag by done. congruence.
  - intros y Hyx Hyl. rewrite sa_lookup_none by done. rewrite Hy, Hf1; [done|done|by rewrite Hf1].
Qed.
End Contract.

Definition ex_array : SetAssoc.t LRU.t :=
  SetAssoc.mk LRU.t [8; 4; 5; 13] (LRU.mk true 9 [3; 7; 8; 2]) (fun _ a => a) 4 2 2 1.

Lemma set_assoc_insert_witness :
  exists l wb a1 a2,
    SetAssoc.preinsert ex_array (mkView (fun _ => 0) (fun _ => true)) 12
      (mkMemReq 12 GETS 0 (RefDummy 0) 5 None StI 0 0) = Ok (l, wb, a1) /\
    SetAssoc.postinsert a1 12 (mkMemReq 12 GETS 0 (RefDummy 0) 5 None StI 0 0) l = Ok a2 /\
    wb = SetAssoc.array ex_array !!! l /\ (l < SetAssoc.numLines ex_array)%nat /\ sa_idle a2 /\
    SetAssoc.lookup a2 12 None false = Ok (Some l, a2) /\
    (exists r, SetAssoc.lookup a2 wb None false = Ok (r, a2) /\ r <> Some l) /\
    forall y, y <> 12 -> sa_find ex_array y <> Some l -> SetAssoc.lookup a2 y None false = Ok (sa_find ex_array y, a2).
Proof.
  apply (set_assoc_insert ex_array (mkView (fun _ => 0) (fun _ => true)) 12
    (mkMemReq 12 GETS 0 (RefDummy 0) 5 None StI 0 0)).
  - split; [split; cbn; lia || done|done].
  - reflexivity.
  - reflexivity.
Defined.

(** The LRU policy ranks by the low 32 bits of the score; while the timestamps
    fit 32 bits and sharers are not counted, it evicts a candidate of score 0 (an invalid
    line or one just replaced) if there is one, and otherwise the least recently used one. *)
Theorem lru_evicts_oldest (r : LRU.t) cc req cands :
  cands <> [] -> Forall (fun c => (c < length (LRU.array r))%nat) cands ->
  Forall (fun t => 0 <= t < two32) (LRU.array r) -> LRU.sharersAware r = false ->
  exists v, LRU.rank r cc req cands = Ok (v, r) /\ v ∈ cands /\
    forall c, c ∈ cands ->
      if cc_isValid cc v then
        (if cc_isValid cc c then LRU.array r !!! v <= LRU.array r !!! c else LRU.array r !!! v = 0)
      else True.
Proof.
  intros Hne HF Ht Hs. destruct (rwp_elim _ _ (LRU_rank_spec r cc req cands Hne HF)) as ([v r']&E&->&Hv&Hmin).
  exists v. split; [done|]. split; [done|]. intros c Hc.
  assert (Hk : forall k, k ∈ cands -> lru_key r cc k = if cc_isValid cc k then LRU.array r !!! k else 0).
  { intros k Hk. eapply list.Forall_forall in HF; [|exact Hk].
    pose proof (Forall_lookup_total_1 _ _ _ Ht HF) as Hr. simpl in Hr. unfold lru_key. rewrite Hs.
    destruct (cc_isValid cc k); rewrite ?Z.mul_1_r, ?Z.mul_0_r; cbn [Z.mul Z.add]; [|done].
    rewrite u64_small, u32_small by (unfold two32, two64 in *; lia). done. }
  eapply list.Forall_forall in Hmin; [|exact Hc]. simpl in Hmin. rewrite !Hk in Hmin by done.
  eapply list.Forall_forall in HF; [|exact Hv]. pose proof (Forall_lookup_total_1 _ _ _ Ht HF) as Hr. simpl in Hr.
  destruct (cc_isValid cc v); [|done]. destruct (cc_isValid cc c); lia.
Qed.

Lemma lru_evicts_oldest_witness :
  exists v, LRU.rank (LRU.mk false 9 [3; 7; 8; 2]) (mkView (fun _ => 0) (fun _ => true))
      (mkMemReq 12 GETS 0 (RefDummy 0) 5 None StI 0 0) [0; 1]%nat = Ok (v, LRU.mk false 9 [3; 7; 8; 2]) /\
    v ∈ [0; 1]%nat /\
    forall c, c ∈ [0; 1]%nat ->
      if cc_isValid (mkView (fun _ => 0) (fun _ => true)) v then
        (if cc_isValid (mkView (fun _ => 0) (fun _ => true)) c
         then LRU.array (LRU.mk false 9 [3; 7; 8; 2]) !!! v <= LRU.array (LRU.mk false 9 [3; 7; 8; 2]) !!! c
         else LRU.array (LRU.mk false 9 [3; 7; 8; 2]) !!! v = 0)
      else True.
Proof.
  apply (lru_evicts_oldest (LRU.mk false 9 [3; 7; 8; 2])).
  - discriminate.
  - repeat constructor; cbn; lia.
  - repeat constructor; unfold two32; lia.
  - reflexivity.
Defined.
