(* ===== verification/Coherence.v ===== *)
(** * The coherent cache hierarchy: model
      (src/src/coherence_ctrls.h, coherence_ctrls.cpp, cache.h, cache.cpp,
       filter_cache.h, and SimpleMemory of mem_ctrls.h, mem_ctrls.cpp)

    All cache objects live in one store, because the controllers write through
    pointers into each other: a parent's top controller sets the state of a line
    of its child ([*req.state]) and takes and releases the child's lock.  The
    model is the sequential execution of one thread at a time; taking a lock
    that is held is a failure (the thread would wait for itself). *)

From S2P Require Import Prelude Bithacks MemHier TimingEvent ReplPolicies CacheArrays.

Definition MAX_CACHE_CHILDREN : nat := 256.

(** A parent pointer: another cache or a memory controller. *)
Inductive MemObj := OCache (c : nat) | OMem (m : nat).

(** What the constructors and [setParents]/[setChildren]/[init] fix. *)
Record CacheCfg := mkCfg {
  cfg_terminal : bool;              (** FilterCache over MESITerminalCC, or Cache over MESICC *)
  cfg_nonInclusiveHack : bool;
  cfg_numLines : nat;
  cfg_selfId : nat;
  cfg_parents : list MemObj;
  cfg_parentRTTs : list Z;
  cfg_children : list nat;
  cfg_childrenRTTs : list Z;
  cfg_accLat : Z;
  cfg_invLat : Z;
  cfg_filterSetMask : Z;
  cfg_srcId : nat;
  cfg_reqFlags : Z
}.

(** [MESITopCC::Entry]; the bitset of sharers is the set of its 1 bits. *)
Record Entry := mkEntry {
  numSharers : Z;
  sharers : gset nat;
  exclusive : bool
}.
Definition Entry_clear : Entry := mkEntry 0 ∅ false.
Definition isEmpty (e : Entry) : bool := numSharers e =? 0.
Definition isExclusive (e : Entry) : bool := (numSharers e =? 1) && exclusive e.
#[global] Instance Entry_inhabited : Inhabited Entry := populate Entry_clear.

(** The profiling counters of [MESIBottomCC]. *)
Inductive BccCounter :=
| profGETSHit | profGETSMiss | profGETXHit | profGETXMissIM | profGETXMissSM
| profPUTS | profPUTX | profINV | profINVX | profFWD
| profGETNextLevelLat | profGETNetLat.
#[global] Instance BccCounter_eq_dec : EqDecision BccCounter.
Proof. solve_decision. Defined.

(** [FilterCache::FilterEntry]. *)
Record FilterEntry := mkFEntry { rdAddr : Z; wrAddr : Z; availCycle : Z }.
Definition FilterEntry_clear : FilterEntry := mkFEntry 0 0 0.
Record Filter := mkFilter {
  filterArray : list FilterEntry;
  filterLock : bool;
  fGETSHit : Z;
  fGETXHit : Z
}.

(** The state of one cache object. *)
Record CacheSt {A : Type} := mkCache {
  c_array : A;                       (** the array with its replacement policy *)
  c_bcc : list MESIState;            (** [MESIBottomCC::array] *)
  c_prof : BccCounter -> Z;
  c_bccLock : bool;
  c_tcc : list Entry;                (** [MESITopCC::array] *)
  c_tccLock : bool;
  c_filter : Filter
}.
Arguments CacheSt A : clear implicits.

(** The whole system: the caches, the [dummyState] locals of the filter caches,
    [zinfo->eventRecorders], the event heap and the running process's
    [procMask]. *)
Record Sys {A : Type} := mkSys {
  sys_caches : nat -> CacheSt A;
  sys_dummy : nat -> MESIState;
  sys_evRecs : nat -> option EventRecorder;
  sys_heap : EvHeap;
  sys_procMask : Z
}.
Arguments Sys A : clear implicits.

(** ** Field updates *)
Section Updates.
Context {A : Type}.

Definition set_cache (n : nat) (f : CacheSt A -> CacheSt A) (s : Sys A) : Sys A :=
  mkSys A (upd (sys_caches s) n (f (sys_caches s n))) (sys_dummy s) (sys_evRecs s) (sys_heap s)
    (sys_procMask s).
Definition set_array (a : A) (c : CacheSt A) : CacheSt A :=
  mkCache A a (c_bcc c) (c_prof c) (c_bccLock c) (c_tcc c) (c_tccLock c) (c_filter c).
Definition set_bcc (l : nat) (st : MESIState) (c : CacheSt A) : CacheSt A :=
  mkCache A (c_array c) (<[l := st]> (c_bcc c)) (c_prof c) (c_bccLock c) (c_tcc c) (c_tccLock c)
    (c_filter c).
Definition add_prof (k : BccCounter) (d : Z) (c : CacheSt A) : CacheSt A :=
  mkCache A (c_array c) (c_bcc c)
    (fun k' => if decide (k = k') then u64 (c_prof c k' + d) else c_prof c k')
    (c_bccLock c) (c_tcc c) (c_tccLock c) (c_filter c).
Definition set_bccLock (b : bool) (c : CacheSt A) : CacheSt A :=
  mkCache A (c_array c) (c_bcc c) (c_prof c) b (c_tcc c) (c_tccLock c) (c_filter c).
Definition set_tcc (l : nat) (e : Entry) (c : CacheSt A) : CacheSt A :=
  mkCache A (c_array c) (c_bcc c) (c_prof c) (c_bccLock c) (<[l := e]> (c_tcc c)) (c_tccLock c)
    (c_filter c).
Definition set_tccLock (b : bool) (c : CacheSt A) : CacheSt A :=
  mkCache A (c_array c) (c_bcc c) (c_prof c) (c_bccLock c) (c_tcc c) b (c_filter c).
Definition set_filter (f : Filter) (c : CacheSt A) : CacheSt A :=
  mkCache A (c_array c) (c_bcc c) (c_prof c) (c_bccLock c) (c_tcc c) (c_tccLock c) f.
Definition set_filterLock (b : bool) (c : CacheSt A) : CacheSt A :=
  set_filter (mkFilter (filterArray (c_filter c)) b (fGETSHit (c_filter c))
                (fGETXHit (c_filter c))) c.
Definition set_filterEntry (i : nat) (e : FilterEntry) (c : CacheSt A) : CacheSt A :=
  set_filter (mkFilter (<[i := e]> (filterArray (c_filter c))) (filterLock (c_filter c))
                (fGETSHit (c_filter c)) (fGETXHit (c_filter c))) c.
Definition set_dummy (n : nat) (st : MESIState) (s : Sys A) : Sys A :=
  mkSys A (sys_caches s) (upd (sys_dummy s) n st) (sys_evRecs s) (sys_heap s) (sys_procMask s).
Definition set_evRec (i : nat) (r : option EventRecorder) (s : Sys A) : Sys A :=
  mkSys A (sys_caches s) (sys_dummy s) (upd (sys_evRecs s) i r) (sys_heap s) (sys_procMask s).
Definition set_heap (h : EvHeap) (s : Sys A) : Sys A :=
  mkSys A (sys_caches s) (sys_dummy s) (sys_evRecs s) h (sys_procMask s).
End Updates.

Section Hierarchy.
Context {A : Type} `{CacheArray A}.
Context (cfg : nat -> CacheCfg) (memLatency : nat -> Z).
Abbreviation HM := (M (Sys A)).

(** ** Reads and writes through the store *)
Definition get_bcc (n l : nat) : HM MESIState := fun s =>
  match c_bcc (sys_caches s n) !! l with
  | Some st => Ok (st, s)
  | None => Err (Panic "lineId out of range")
  end.
Definition put_bcc (n l : nat) (st : MESIState) : HM unit := mmodify (set_cache n (set_bcc l st)).
Definition get_entry (n l : nat) : HM Entry := fun s =>
  match c_tcc (sys_caches s n) !! l with
  | Some e => Ok (e, s)
  | None => Err (Panic "lineId out of range")
  end.
Definition put_entry (n l : nat) (e : Entry) : HM unit := mmodify (set_cache n (set_tcc l e)).
Definition prof_inc (n : nat) (k : BccCounter) (d : Z) : HM unit :=
  mmodify (set_cache n (add_prof k d)).

(** [*state] and [*state = st] for a [MESIState*]. *)
Definition read_ref (r : StateRef) : HM MESIState :=
  match r with RefLine c l => get_bcc c l | RefDummy c => mgets (fun s => sys_dummy s c) end.
Definition write_ref (r : StateRef) (st : MESIState) : HM unit :=
  match r with RefLine c l => put_bcc c l st | RefDummy c => mmodify (set_dummy c st) end.

(** [futex_lock] and [futex_unlock]. *)
Definition lock_held (r : LockRef) (s : Sys A) : bool :=
  match r with
  | LkBcc c => c_bccLock (sys_caches s c)
  | LkFilter c => filterLock (c_filter (sys_caches s c))
  end.
Definition set_lock (r : LockRef) (b : bool) : Sys A -> Sys A :=
  match r with
  | LkBcc c => set_cache c (set_bccLock b)
  | LkFilter c => set_cache c (set_filterLock b)
  end.
Definition futex_lock (r : LockRef) : HM unit :=
  b ← mgets (lock_held r);
  massert (negb b) "futex_lock: deadlock";; mmodify (set_lock r true).
Definition futex_unlock (r : LockRef) : HM unit := mmodify (set_lock r false).
Definition tcc_lock (n : nat) : HM unit :=
  b ← mgets (fun s => c_tccLock (sys_caches s n));
  massert (negb b) "futex_lock: deadlock";; mmodify (set_cache n (set_tccLock true)).
Definition tcc_unlock (n : nat) : HM unit := mmodify (set_cache n (set_tccLock false)).
Definition opt_lock (f : LockRef -> HM unit) (r : option LockRef) : HM unit :=
  match r with Some l => f l | None => mret tt end.

(** ** MESIBottomCC *)

(** [getParentId]: xor of the four 16-bit chunks, modulo the number of parents. *)
Definition getParentId (n : nat) (addr : Z) : nat :=
  let c (k : Z) := u32 (Z.land 65535 (Z.shiftr addr (16 * k))) in
  let r := Z.lxor (Z.lxor (Z.lxor (Z.lxor 0 (c 0)) (c 1)) (c 2)) (c 3) in
  Z.to_nat (r mod Z.of_nat (length (cfg_parents (cfg n)))).

Definition parent_of (n : nat) (addr : Z) : option MemObj :=
  cfg_parents (cfg n) !! getParentId n addr.

(** [parents[getParentId(lineAddr)]->access(req)]. *)
Definition up_access (up : MemObj -> MemReq -> HM Z) (n : nat) (addr : Z) (req : MemReq) : HM Z :=
  p ← mlift (from_opt (parent_of n addr) "no parent");
  up p req.

Definition bcc_isExclusive (n l : nat) : HM bool :=
  st ← get_bcc n l; mret (bool_decide (st = StE) || bool_decide (st = StM)).
Definition bcc_isValid (n l : nat) : HM bool :=
  st ← get_bcc n l; mret (bool_decide (st <> StI)).

Definition bcc_processEviction (up : MemObj -> MemReq -> HM Z) (n : nat) (wbLineAddr : Z)
    (l : nat) (lowerLevelWriteback : bool) (cyc : Z) (src : nat) : HM Z :=
  (if lowerLevelWriteback then
     st ← get_bcc n l;
     massert (bool_decide (st = StM) || bool_decide (st = StE)) "*state == M || *state == E";;
     put_bcc n l StM
   else mret tt);;
  st ← get_bcc n l;
  respCycle ←
    match st with
    | StI => mret cyc
    | StS | StE =>
      up_access up n wbLineAddr
        (mkMemReq wbLineAddr PUTS (cfg_selfId (cfg n)) (RefLine n l) cyc (Some (LkBcc n)) st src 0)
    | StM =>
      up_access up n wbLineAddr
        (mkMemReq wbLineAddr PUTX (cfg_selfId (cfg n)) (RefLine n l) cyc (Some (LkBcc n)) st src 0)
    end;
  st ← get_bcc n l;
  massert (bool_decide (st = StI)) "Wrong final state on eviction";;
  mret respCycle.

(** The common part of a GETS and a GETX miss: the request to the parent, its
    latencies and their profiling. *)
Definition bcc_miss (up : MemObj -> MemReq -> HM Z) (n : nat) (addr : Z) (l : nat)
    (t : AccessType) (st : MESIState) (cyc : Z) (src : nat) (fl : Z) : HM Z :=
  resp ← up_access up n addr
    (mkMemReq addr t (cfg_selfId (cfg n)) (RefLine n l) cyc (Some (LkBcc n)) st src fl);
  let nextLevelLat := u32 (resp - cyc) in
  netLat ← mlift (arr_get (cfg_parentRTTs (cfg n)) (getParentId n addr));
  prof_inc n profGETNextLevelLat nextLevelLat;;
  prof_inc n profGETNetLat netLat;;
  mret (u64 (cyc + u32 (nextLevelLat + netLat))).

Definition bcc_processAccess (up : MemObj -> MemReq -> HM Z) (n : nat) (addr : Z) (l : nat)
    (t : AccessType) (cyc : Z) (src : nat) (fl : Z) : HM Z :=
  st ← get_bcc n l;
  respCycle ←
    match t with
    | PUTS =>
      massert (bool_decide (st <> StI)) "*state != I";;
      prof_inc n profPUTS 1;; mret cyc
    | PUTX =>
      massert (bool_decide (st = StM) || bool_decide (st = StE)) "*state == M || *state == E";;
      (if bool_decide (st = StE) then put_bcc n l StM else mret tt);;
      prof_inc n profPUTX 1;; mret cyc
    | GETS =>
      if bool_decide (st = StI) then
        r ← bcc_miss up n addr l GETS st cyc src fl;
        prof_inc n profGETSMiss 1;;
        st' ← get_bcc n l;
        massert (bool_decide (st' = StS) || bool_decide (st' = StE)) "*state == S || *state == E";;
        mret r
      else prof_inc n profGETSHit 1;; mret cyc
    | GETX =>
      r ← (if bool_decide (st = StI) || bool_decide (st = StS) then
             (if bool_decide (st = StI) then prof_inc n profGETXMissIM 1
              else prof_inc n profGETXMissSM 1);;
             bcc_miss up n addr l GETX st cyc src fl
           else
             (if bool_decide (st = StE) then put_bcc n l StM else mret tt);;
             prof_inc n profGETXHit 1;; mret cyc);
      st' ← get_bcc n l;
      massert (bool_decide (st' = StM)) "Wrong final state on GETX";;
      mret r
    end;
  massert (cyc <=? respCycle) "respCycle >= cycle";;
  mret respCycle.

Definition bcc_processWritebackOnAccess (n l : nat) : HM unit :=
  st ← get_bcc n l;
  massert (bool_decide (st = StM) || bool_decide (st = StE)) "*state == M || *state == E";;
  if bool_decide (st = StE) then put_bcc n l StM else mret tt.

(** Returns the new value of [*reqWriteback]. *)
Definition bcc_processInval (n l : nat) (t : InvType) (reqWriteback : bool) : HM bool :=
  st ← get_bcc n l;
  massert (bool_decide (st <> StI)) "*state != I";;
  match t with
  | INVX =>
    massert (bool_decide (st = StE) || bool_decide (st = StM)) "Invalid state";;
    put_bcc n l StS;; prof_inc n profINVX 1;;
    mret (bool_decide (st = StM) || reqWriteback)
  | INV =>
    put_bcc n l StI;; prof_inc n profINV 1;;
    mret (bool_decide (st = StM) || reqWriteback)
  | FWD =>
    massert (bool_decide (st = StS)) "Invalid state on FWD";;
    prof_inc n profFWD 1;; mret reqWriteback
  end.

Definition bcc_processNonInclusiveWriteback (up : MemObj -> MemReq -> HM Z) (n : nat) (addr : Z)
    (t : AccessType) (cyc : Z) (ref : StateRef) (src : nat) (fl : Z) : HM Z :=
  massert (cfg_nonInclusiveHack (cfg n)) "this cache should be inclusive";;
  st ← read_ref ref;
  up_access up n addr
    (mkMemReq addr t (cfg_selfId (cfg n)) ref cyc (Some (LkBcc n)) st src (Z.lor fl NONINCLWB)).

(** ** MESITopCC *)

(** The loop of [sendInvalidates] over the children [cs]: [inv] is
    [children[c]->invalidate]; the accumulator is the maximum cycle, the value
    of [*reqWriteback] and [sentInvs]. *)
Fixpoint sendInv_loop (inv : nat -> InvReq -> HM (Z * bool)) (n : nat) (addr : Z) (l : nat)
    (t : InvType) (cyc : Z) (src : nat) (cs : list nat) (maxCycle : Z) (wb : bool) (sentInvs : Z)
    : HM (Z * bool * Z) :=
  match cs with
  | [] => mret (maxCycle, wb, sentInvs)
  | c :: cs' =>
    e ← get_entry n l;
    if bool_decide (c ∈ sharers e) then
      child ← mlift (from_opt (cfg_children (cfg n) !! c) "no child");
      '(resp, wb') ← inv child (mkInvReq addr t wb cyc src);
      rtt ← mlift (arr_get (cfg_childrenRTTs (cfg n)) c);
      let resp := u64 (resp + rtt) in
      e ← get_entry n l;
      (match t with
       | INV => put_entry n l (mkEntry (numSharers e) (sharers e ∖ {[c]}) (exclusive e))
       | _ => mret tt
       end);;
      sendInv_loop inv n addr l t cyc src cs' (MAX resp maxCycle) wb' (u32 (sentInvs + 1))
    else sendInv_loop inv n addr l t cyc src cs' maxCycle wb sentInvs
  end.

Definition sendInvalidates (inv : nat -> InvReq -> HM (Z * bool)) (n : nat) (addr : Z) (l : nat)
    (t : InvType) (wb : bool) (cyc : Z) (src : nat) : HM (Z * bool) :=
  e ← get_entry n l;
  if bool_decide (t = INVX) && negb (isExclusive e) then mret (cyc, wb)
  else if isEmpty e then mret (cyc, wb)
  else
    '(maxCycle, wb', sentInvs) ←
      sendInv_loop inv n addr l t cyc src (seq 0 (length (cfg_children (cfg n)))) cyc wb 0;
    e ← get_entry n l;
    massert (sentInvs =? numSharers e) "sentInvs == e->numSharers";;
    (match t with
     | INV => put_entry n l (mkEntry 0 (sharers e) (exclusive e))
     | _ =>
       massert (exclusive e) "e->exclusive";;
       massert (numSharers e =? 1) "e->numSharers == 1";;
       put_entry n l (mkEntry (numSharers e) (sharers e) false)
     end);;
    mret (maxCycle, wb').

Definition tcc_processEviction (inv : nat -> InvReq -> HM (Z * bool)) (n : nat) (wbLineAddr : Z)
    (l : nat) (wb : bool) (cyc : Z) (src : nat) : HM (Z * bool) :=
  if cfg_nonInclusiveHack (cfg n) then put_entry n l Entry_clear;; mret (cyc, wb)
  else sendInvalidates inv n wbLineAddr l INV wb cyc src.

(** The PUTS case, which a PUTX falls through to. *)
Definition tcc_put (n l child : nat) (ref : StateRef) : HM unit :=
  e ← get_entry n l;
  massert (bool_decide (child ∈ sharers e)) "e->sharers[childId]";;
  put_entry n l (mkEntry (u32 (numSharers e - 1)) (sharers e ∖ {[child]}) (exclusive e));;
  write_ref ref StI.

(** Returns the response cycle and the value of [*inducedWriteback]. *)
Definition tcc_processAccess (inv : nat -> InvReq -> HM (Z * bool)) (n : nat) (addr : Z) (l : nat)
    (t : AccessType) (child : nat) (haveExclusive : bool) (ref : StateRef) (wb : bool)
    (cyc : Z) (src : nat) (fl : Z) : HM (Z * bool) :=
  e ← get_entry n l;
  match t with
  | PUTX =>
    massert (isExclusive e) "e->isExclusive()";;
    if flag_is fl PUTX_KEEPEXCL then
      massert (bool_decide (child ∈ sharers e)) "e->sharers[childId]";;
      st ← read_ref ref;
      massert (bool_decide (st = StM)) "*childState == M";;
      write_ref ref StE;; mret (cyc, wb)
    else tcc_put n l child ref;; mret (cyc, wb)
  | PUTS => tcc_put n l child ref;; mret (cyc, wb)
  | GETS =>
    if isEmpty e && haveExclusive && negb (flag_is fl NOEXCL) then
      put_entry n l (mkEntry 1 (sharers e ∪ {[child]}) true);;
      write_ref ref StE;; mret (cyc, wb)
    else
      massert (negb (bool_decide (child ∈ sharers e))) "e->sharers[childId] == false";;
      '(resp, wb') ← (if isExclusive e then sendInvalidates inv n addr l INVX wb cyc src
                      else mret (cyc, wb));
      e ← get_entry n l;
      massert (negb (isExclusive e)) "Can't have exclusivity here";;
      put_entry n l (mkEntry (u32 (numSharers e + 1)) (sharers e ∪ {[child]}) false);;
      write_ref ref StS;; mret (resp, wb')
  | GETX =>
    massert haveExclusive "haveExclusive";;
    (if bool_decide (child ∈ sharers e) then
       massert (negb (isExclusive e)) "Spurious GETX";;
       put_entry n l (mkEntry (u32 (numSharers e - 1)) (sharers e ∖ {[child]}) (exclusive e))
     else mret tt);;
    '(resp, wb') ← sendInvalidates inv n addr l INV wb cyc src;
    e ← get_entry n l;
    put_entry n l (mkEntry (u32 (numSharers e + 1)) (sharers e ∪ {[child]}) true);;
    e ← get_entry n l;
    massert (numSharers e =? 1) "e->numSharers == 1";;
    write_ref ref StM;; mret (resp, wb')
  end.

Definition tcc_processInval (inv : nat -> InvReq -> HM (Z * bool)) (n : nat) (addr : Z) (l : nat)
    (t : InvType) (wb : bool) (cyc : Z) (src : nat) : HM (Z * bool) :=
  match t with
  | FWD => massert (negb (cfg_nonInclusiveHack (cfg n))) "!nonInclusiveHack";; mret (cyc, wb)
  | _ => sendInvalidates inv n addr l t wb cyc src
  end.

(** ** The controllers: MESICC and MESITerminalCC *)

(** [CheckForMESIRace]: the new request type and whether to skip the access. *)
Definition CheckForMESIRace (t : AccessType) (st init : MESIState) : res (AccessType * bool) :=
  if bool_decide (st = init) then Ok (t, false)
  else match t with
  | PUTS | PUTX =>
    if bool_decide (st = StI) then Ok (t, true)
    else _ ← rassert (bool_decide (st = StS)) "*state == S"; Ok (PUTS, false)
  | GETX =>
    _ ← rassert (bool_decide (init = StS)) "initialState == S";
    _ ← rassert (bool_decide (st = StI)) "*state == I";
    Ok (GETX, false)
  | GETS => Err (Panic "Invalid true race happened (?)")
  end.

(** Returns the request, whose type may have changed, and whether to skip it. *)
Definition cc_startAccess (n : nat) (req : MemReq) : HM (MemReq * bool) :=
  (if cfg_terminal (cfg n) then massert (IsGet (type req)) "no puts!" else mret tt);;
  opt_lock futex_unlock (childLock req);;
  (if cfg_terminal (cfg n) then mret tt else tcc_lock n);;
  futex_lock (LkBcc n);;
  st ← read_ref (state req);
  '(t, skip) ← mlift (CheckForMESIRace (type req) st (initialState req));
  mret (with_type req t, skip).

Definition cc_shouldAllocate (n : nat) (req : MemReq) : HM bool :=
  if cfg_terminal (cfg n) then mret true
  else if IsGet (type req) then mret true
  else massert (cfg_nonInclusiveHack (cfg n)) "We lost inclusion on this line!";; mret false.

Definition cc_processEviction (up : MemObj -> MemReq -> HM Z) (inv : nat -> InvReq -> HM (Z * bool))
    (n : nat) (triggerReq : MemReq) (wbLineAddr : Z) (l : nat) (startCycle : Z) : HM Z :=
  if cfg_terminal (cfg n) then
    bcc_processEviction up n wbLineAddr l false startCycle (srcId triggerReq)
  else
    '(evCycle, lowerLevelWriteback) ←
      tcc_processEviction inv n wbLineAddr l false startCycle (srcId triggerReq);
    bcc_processEviction up n wbLineAddr l lowerLevelWriteback evCycle (srcId triggerReq).

(** [lineId == -1] is [None]. *)
Definition cc_processAccess (up : MemObj -> MemReq -> HM Z) (inv : nat -> InvReq -> HM (Z * bool))
    (n : nat) (req : MemReq) (lineId : option nat) (startCycle : Z) : HM Z :=
  if cfg_terminal (cfg n) then
    l ← mlift (from_opt lineId "lineId != -1");
    bcc_processAccess up n (lineAddr req) l (type req) startCycle (srcId req) (flags req)
  else
    bypass ← match lineId with
             | None => mret true
             | Some l => v ← bcc_isValid n l; mret (IsPut (type req) && negb v)
             end;
    if (bypass : bool) then
      massert (cfg_nonInclusiveHack (cfg n)) "nonInclusiveHack";;
      massert (IsPut (type req)) "PUTS or PUTX";;
      bcc_processNonInclusiveWriteback up n (lineAddr req) (type req) startCycle (state req)
        (srcId req) (flags req)
    else
      l ← mlift (from_opt lineId "lineId != -1");
      let isPrefetch := flag_is (flags req) PREFETCH in
      massert (negb isPrefetch || bool_decide (type req = GETS)) "!isPrefetch || req.type == GETS";;
      let fl := Z.ldiff (flags req) PREFETCH in
      respCycle ← bcc_processAccess up n (lineAddr req) l (type req) startCycle (srcId req) fl;
      if isPrefetch then mret respCycle
      else
        excl ← bcc_isExclusive n l;
        '(respCycle, lowerLevelWriteback) ←
          tcc_processAccess inv n (lineAddr req) l (type req) (childId req) excl (state req) false
            respCycle (srcId req) fl;
        (if (lowerLevelWriteback : bool) then bcc_processWritebackOnAccess n l else mret tt);;
        mret respCycle.

Definition cc_endAccess (n : nat) (req : MemReq) : HM unit :=
  opt_lock futex_lock (childLock req);;
  futex_unlock (LkBcc n);;
  if cfg_terminal (cfg n) then mret tt else tcc_unlock n.

Definition cc_startInv (n : nat) : HM unit := futex_lock (LkBcc n).

Definition cc_processInv (inv : nat -> InvReq -> HM (Z * bool)) (n : nat) (req : InvReq) (l : nat)
    (startCycle : Z) : HM (Z * bool) :=
  if cfg_terminal (cfg n) then
    wb ← bcc_processInval n l (inv_type req) (inv_writeback req);
    futex_unlock (LkBcc n);; mret (startCycle, wb)
  else
    '(respCycle, wb) ← tcc_processInval inv n (inv_lineAddr req) l (inv_type req)
                         (inv_writeback req) startCycle (inv_srcId req);
    wb ← bcc_processInval n l (inv_type req) wb;
    futex_unlock (LkBcc n);; mret (respCycle, wb).

(** What the replacement policy sees of the controller. *)
Definition cc_view (n : nat) (s : Sys A) : CCView :=
  mkView (fun l => if cfg_terminal (cfg n) then 0 else numSharers (c_tcc (sys_caches s n) !!! l))
         (fun l => bool_decide (c_bcc (sys_caches s n) !!! l <> StI)).

(** ** Cache *)
Definition array_lookup (n : nat) (addr : Z) (req : option MemReq) (upd_repl : bool)
    : HM (option nat) :=
  s ← mget;
  '(r, a) ← mlift (ca_lookup (c_array (sys_caches s n)) addr req upd_repl);
  mmodify (set_cache n (set_array a));; mret r.
Definition array_preinsert (n : nat) (addr : Z) (req : MemReq) : HM (nat * Z) :=
  s ← mget;
  '(l, wb, a) ← mlift (ca_preinsert (c_array (sys_caches s n)) (cc_view n s) addr req);
  mmodify (set_cache n (set_array a));; mret (l, wb).
Definition array_postinsert (n : nat) (addr : Z) (req : MemReq) (l : nat) : HM unit :=
  s ← mget;
  a ← mlift (ca_postinsert (c_array (sys_caches s n)) addr req l);
  mmodify (set_cache n (set_array a)).

(** [finishInvalidate]; [inv] invalidates the children. *)
Definition finishInvalidate (inv : nat -> InvReq -> HM (Z * bool)) (n : nat) (req : InvReq)
    : HM (Z * bool) :=
  lineId ← array_lookup n (inv_lineAddr req) None false;
  l ← mlift (from_opt lineId "Invalidate on non-existing address");
  cc_processInv inv n req l (u64 (inv_cycle req + cfg_invLat (cfg n))).

(** The filter-array part of [FilterCache::invalidate]. *)
Definition filter_invalidate (n : nat) (addr : Z) : HM unit :=
  s ← mget;
  let fs := filterArray (c_filter (sys_caches s n)) in
  let idx := Z.to_nat (Z.land addr (cfg_filterSetMask (cfg n))) in
  fe ← mlift (arr_get fs idx);
  if Z.lor (rdAddr fe) (sys_procMask s) =? addr
  then mmodify (set_cache n (set_filterEntry idx (mkFEntry (two64 - 1) (two64 - 1) (availCycle fe))))
  else mret tt.

(** [BaseCache::invalidate]: [Cache::invalidate] or [FilterCache::invalidate]. *)
Fixpoint invalidate (fuel : nat) (n : nat) (req : InvReq) : HM (Z * bool) :=
  match fuel with
  | O => fun _ => Err OutOfFuel
  | Datatypes.S fuel' =>
    cc_startInv n;;
    if cfg_terminal (cfg n) then
      futex_lock (LkFilter n);;
      filter_invalidate n (inv_lineAddr req);;
      r ← finishInvalidate (invalidate fuel') n req;
      futex_unlock (LkFilter n);; mret r
    else finishInvalidate (invalidate fuel') n req
  end.

(** The timing-record stitching of [Cache::access]. *)
Definition ev_run {B} (m : EvM B) : HM B := fun s =>
  match m (sys_heap s) with Ok (b, h) => Ok (b, set_heap h s) | Err f => Err f end.
Definition domain_fuel (s : Sys A) : nat := Nat.succ (size (hp_events (sys_heap s))).

(** Pops the record that a writeback may have left. *)
Definition pop_wb_record (src : nat) : HM (option TimingRecord) :=
  er ← mgets (fun s => sys_evRecs s src);
  match er with
  | Some er => if hasRecord er
               then let '(r, er') := popRecord er in
                    mmodify (set_evRec src (Some er'));; mret (Some r)
               else mret None
  | None => mret None
  end.

Definition stitch_records (src : nat) (reqCycle : Z) (wbAcc : option TimingRecord) : HM unit :=
  match wbAcc with
  | None => mret tt
  | Some wbAcc =>
    er ← mgets (fun s => sys_evRecs s src);
    er ← mlift (from_opt er "evRec");
    if negb (hasRecord er) then
      er' ← mlift (pushRecord er (mkRecord (tr_addr wbAcc) (tr_reqCycle wbAcc) (tr_respCycle wbAcc)
                                    (tr_type wbAcc) (tr_startEvent wbAcc) None));
      mmodify (set_evRec src (Some er'))
    else
      let '(acc, er) := popRecord er in
      massert (reqCycle <=? tr_reqCycle wbAcc) "wbAcc.reqCycle >= req.cycle";;
      massert (reqCycle <=? tr_reqCycle acc) "acc.reqCycle >= req.cycle";;
      startEv ← ev_run (new_DelayEvent 0);
      dWbEv ← ev_run (new_DelayEvent (u32 (tr_reqCycle wbAcc - reqCycle)));
      dAccEv ← ev_run (new_DelayEvent (u32 (tr_reqCycle acc - reqCycle)));
      ev_run (setMinStartCycle startEv reqCycle);;
      ev_run (setMinStartCycle dWbEv reqCycle);;
      ev_run (setMinStartCycle dAccEv reqCycle);;
      fuel ← mgets domain_fuel;
      wbStart ← mlift (from_opt (tr_startEvent wbAcc) "null event");
      accStart ← mlift (from_opt (tr_startEvent acc) "null event");
      c ← ev_run (addChild fuel startEv dWbEv);
      ev_run (addChild fuel c wbStart);;
      c ← ev_run (addChild fuel startEv dAccEv);
      ev_run (addChild fuel c accStart);;
      er' ← mlift (pushRecord er (mkRecord (tr_addr acc) reqCycle (tr_respCycle acc) (tr_type acc)
                                    (Some startEv) (tr_endEvent acc)));
      mmodify (set_evRec src (Some er'))
  end.

(** [Cache::access]; [up] is the parents' [access], [inv] the children's
    [invalidate]. *)
Definition cache_access (up : MemObj -> MemReq -> HM Z) (inv : nat -> InvReq -> HM (Z * bool))
    (n : nat) (req : MemReq) : HM Z :=
  '(req, skipAccess) ← cc_startAccess n req;
  respCycle ←
    (if (skipAccess : bool) then mret (cycle req)
     else
       let updateReplacement := IsGet (type req) in
       lineId ← array_lookup n (lineAddr req) (Some req) updateReplacement;
       let respCycle := u64 (cycle req + cfg_accLat (cfg n)) in
       lineId ←
         match lineId with
         | Some l => mret (Some l)
         | None =>
           alloc ← cc_shouldAllocate n req;
           if (alloc : bool) then
             '(l, wbLineAddr) ← array_preinsert n (lineAddr req) req;
             cc_processEviction up inv n req wbLineAddr l respCycle;;
             array_postinsert n (lineAddr req) req l;;
             mret (Some l)
           else mret None
         end;
       wbAcc ← pop_wb_record (srcId req);
       respCycle ← cc_processAccess up inv n req lineId respCycle;
       stitch_records (srcId req) (cycle req) wbAcc;;
       mret respCycle);
  cc_endAccess n req;;
  massert (cycle req <=? respCycle) "resp < req?";;
  mret respCycle.

(** [SimpleMemory::access]. *)
Definition mem_access (m : nat) (req : MemReq) : HM Z :=
  (match type req with
   | PUTS | PUTX => write_ref (state req) StI
   | GETS => write_ref (state req) (if MemReq_is req NOEXCL then StS else StE)
   | GETX => write_ref (state req) StM
   end);;
  let respCycle := u64 (cycle req + memLatency m) in
  massert (cycle req <? respCycle) "respCycle > req.cycle";;
  mret respCycle.

(** [MemObject::access]: [fuel] bounds the levels above, [ifuel] those below. *)
Fixpoint access (fuel ifuel : nat) (obj : MemObj) (req : MemReq) : HM Z :=
  match obj with
  | OMem m => mem_access m req
  | OCache n =>
    match fuel with
    | O => fun _ => Err OutOfFuel
    | Datatypes.S fuel' => cache_access (access fuel' ifuel) (invalidate ifuel) n req
    end
  end.

(** ** FilterCache: the core's port *)
Definition filter_replace (fuel ifuel n : nat) (vLineAddr : Z) (idx : nat) (isLoad : bool)
    (curCycle : Z) : HM Z :=
  procMask ← mgets sys_procMask;
  let pLineAddr := Z.lor procMask vLineAddr in
  mmodify (set_dummy n StI);;
  futex_lock (LkFilter n);;
  respCycle ← access fuel ifuel (OCache n)
    (mkMemReq pLineAddr (if isLoad then GETS else GETX) 0 (RefDummy n) curCycle
       (Some (LkFilter n)) StI (cfg_srcId (cfg n)) (cfg_reqFlags (cfg n)));
  s ← mget;
  fe ← mlift (arr_get (filterArray (c_filter (sys_caches s n))) idx);
  mmodify (set_cache n (set_filterEntry idx
    (mkFEntry vLineAddr (if isLoad then two64 - 1 else vLineAddr)
       (if negb (rdAddr fe =? vLineAddr) then respCycle else availCycle fe))));;
  futex_unlock (LkFilter n);;
  mret respCycle.

Definition count_filter_hit (isLoad : bool) (c : CacheSt A) : CacheSt A :=
  let f := c_filter c in
  set_filter (if isLoad
              then mkFilter (filterArray f) (filterLock f) (u64 (fGETSHit f + 1)) (fGETXHit f)
              else mkFilter (filterArray f) (filterLock f) (fGETSHit f) (u64 (fGETXHit f + 1))) c.

(** [FilterCache::load] ([isLoad]) and [FilterCache::store]. *)
Definition filter_access (fuel ifuel lineBits n : nat) (isLoad : bool) (vAddr curCycle : Z) : HM Z :=
  let vLineAddr := Z.shiftr vAddr (Z.of_nat lineBits) in
  let idx := Z.to_nat (Z.land vLineAddr (cfg_filterSetMask (cfg n))) in
  s ← mget;
  fe ← mlift (arr_get (filterArray (c_filter (sys_caches s n))) idx);
  if vLineAddr =? (if isLoad then rdAddr fe else wrAddr fe) then
    mmodify (set_cache n (count_filter_hit isLoad));;
    mret (MAX curCycle (availCycle fe))
  else filter_replace fuel ifuel n vLineAddr idx isLoad curCycle.

Definition load (fuel ifuel lineBits n : nat) (vAddr curCycle : Z) : HM Z :=
  filter_access fuel ifuel lineBits n true vAddr curCycle.
Definition store (fuel ifuel lineBits n : nat) (vAddr curCycle : Z) : HM Z :=
  filter_access fuel ifuel lineBits n false vAddr curCycle.

(** [FilterCache::contextSwitch]. *)
Definition contextSwitch (n : nat) : HM unit :=
  futex_lock (LkFilter n);;
  mmodify (set_cache n (fun c =>
    set_filter (mkFilter (replicate (length (filterArray (c_filter c))) FilterEntry_clear)
                  (filterLock (c_filter c)) (fGETSHit (c_filter c)) (fGETXHit (c_filter c))) c));;
  futex_unlock (LkFilter n).

End Hierarchy.
