(* ===== verification/CoherenceInv.v ===== *)
(** * The coherent cache hierarchy: invariants

    The topology a hierarchy must have, the per-address view of the store (the
    state and the directory entry of an address in a cache), the invariant, and
    the facts about them that do not mention the operations. *)

From S2P Require Import Prelude Bithacks MemHier TimingEvent ReplPolicies CacheArrays Coherence.

(** ** Projections of the store through updates *)
Section Store.
Context {A : Type}.
Implicit Types (s : Sys A) (g : CacheSt A -> CacheSt A).

Lemma proj_keep {X} (f : CacheSt A -> X) n g s m :
  (forall c, f (g c) = f c) -> f (sys_caches (set_cache n g s) m) = f (sys_caches s m).
Proof. intros Hg. simpl. unfold upd. case_decide; [subst; apply Hg|done]. Qed.

Lemma proj_eq n g s : sys_caches (set_cache n g s) n = g (sys_caches s n).
Proof. simpl. by rewrite upd_eq. Qed.

Lemma proj_ne n g s m : n <> m -> sys_caches (set_cache n g s) m = sys_caches s m.
Proof. intros. simpl. by rewrite upd_ne. Qed.
End Store.

Create Rewrite HintDb sys.
#[export] Hint Rewrite
  @proj_eq (@proj_keep) using (intros; reflexivity) : sys.

(** Simplify reads of the store after a sequence of updates. *)
Ltac sys_keep f :=
  repeat match goal with
  | |- context [f (sys_caches (set_cache ?n ?g ?s) ?m)] =>
    rewrite (proj_keep f n g s m) by (intros; reflexivity)
  end.
Ltac sys_simpl :=
  sys_keep @c_array; sys_keep @c_bcc; sys_keep @c_bccLock; sys_keep @c_tcc; sys_keep @c_tccLock;
  sys_keep @c_filter.

Definition EM (st : MESIState) : Prop := st = StE \/ st = StM.
Definition emptyEntry (e : Entry) : Prop := numSharers e = 0 /\ sharers e = ∅.

Section Inv.
Context {A : Type} `{HL : CacheArrayLaws A}.
Context (cfg : nat -> CacheCfg) (memLatency : nat -> Z).
Implicit Types (s : Sys A) (n m c p l : nat) (a b : Z).

(** ** Topology *)
Context (node : nat -> Prop) (lvl : nat -> nat) (top : nat) (root : Z -> nat) (K : Z).

(** [anc a n m]: [n] is on the path of [a] from [m] towards memory ([m] itself
    included), i.e. [m] is in the subtree of [n]. *)
Inductive anc (a : Z) (n : nat) : nat -> Prop :=
| anc_refl : anc a n n
| anc_step m q : parent_of cfg m a = Some (OCache q) -> anc a n q -> anc a n m.

(** [n] is on the path of [a] from some core's cache. *)
Definition reach (n : nat) (a : Z) : Prop :=
  exists t, node t /\ cfg_terminal (cfg t) = true /\ anc a n t.

(** What [InitSystem] establishes: parents and children agree on their links
    and identifiers, levels grow towards memory, each address has one last-level
    bank; and the latencies are between 0 and [K]. *)
Record WfHier : Prop := {
  wf_parents : forall n, node n -> cfg_parents (cfg n) <> [];
  wf_up : forall c p, node c -> OCache p ∈ cfg_parents (cfg c) ->
    node p /\ (lvl c < lvl p)%nat /\ cfg_terminal (cfg p) = false /\
    cfg_children (cfg p) !! cfg_selfId (cfg c) = Some c;
  wf_down : forall p i c, node p -> cfg_children (cfg p) !! i = Some c ->
    node c /\ cfg_selfId (cfg c) = i /\ OCache p ∈ cfg_parents (cfg c);
  wf_lvl : forall n, node n -> (lvl n <= top)%nat;
  wf_leaf : forall n, node n -> cfg_terminal (cfg n) = true -> cfg_children (cfg n) = [];
  wf_maxChildren : forall n, node n -> (length (cfg_children (cfg n)) <= MAX_CACHE_CHILDREN)%nat;
  wf_prtt : forall n, node n -> length (cfg_parentRTTs (cfg n)) = length (cfg_parents (cfg n));
  wf_crtt : forall n, node n -> length (cfg_childrenRTTs (cfg n)) = length (cfg_children (cfg n));
  wf_incl : forall n, node n -> cfg_nonInclusiveHack (cfg n) = false;
  wf_root : forall n a m, reach n a -> parent_of cfg n a = Some (OMem m) -> n = root a;
  wf_mask : forall n, node n -> 0 <= cfg_filterSetMask (cfg n);
  wf_K : 0 <= K;
  wf_accLat : forall n, node n -> 0 <= cfg_accLat (cfg n) <= K;
  wf_invLat : forall n, node n -> 0 <= cfg_invLat (cfg n) <= K;
  wf_prttK : forall n, node n -> Forall (fun x => 0 <= x <= K) (cfg_parentRTTs (cfg n));
  wf_crttK : forall n, node n -> Forall (fun x => 0 <= x <= K) (cfg_childrenRTTs (cfg n));
  wf_memLat : forall m, 0 < memLatency m <= K
}.

(** ** The view of one address *)
Definition arr s n : A := c_array (sys_caches s n).
Definition bccl s n l : MESIState := c_bcc (sys_caches s n) !!! l.
Definition tccl s n l : Entry := c_tcc (sys_caches s n) !!! l.

(** The state and the directory entry of [a] in cache [n]. *)
Definition stt s n a : MESIState :=
  match ca_find (arr s n) a with Some l => bccl s n l | None => StI end.
Definition dir s n a : Entry :=
  match ca_find (arr s n) a with Some l => tccl s n l | None => Entry_clear end.

(** The directory of [p] for [a] agrees with the states of its children. *)
Record NodeInv s p a : Prop := {
  ni_size : numSharers (dir s p a) = Z.of_nat (size (sharers (dir s p a)));
  ni_child : forall i, i ∈ sharers (dir s p a) -> exists c,
    cfg_children (cfg p) !! i = Some c /\ parent_of cfg c a = Some (OCache p) /\ stt s c a <> StI;
  ni_sharer : forall c, node c -> parent_of cfg c a = Some (OCache p) -> stt s c a <> StI ->
    cfg_selfId (cfg c) ∈ sharers (dir s p a);
  ni_excl : forall c, node c -> parent_of cfg c a = Some (OCache p) -> EM (stt s c a) ->
    isExclusive (dir s p a) = true;
  ni_exclEM : forall c, node c -> parent_of cfg c a = Some (OCache p) ->
    isExclusive (dir s p a) = true -> stt s c a <> StI -> EM (stt s c a);
  ni_incl : sharers (dir s p a) <> ∅ -> stt s p a <> StI;
  ni_inclEM : isExclusive (dir s p a) = true -> EM (stt s p a);
  ni_flag : exclusive (dir s p a) = true -> numSharers (dir s p a) <= 1
}.

Context (aok : Z -> Prop).

(** Everything but the directories: array sizes, the arrays' own invariants,
    lines that no lookup can reach are invalid and unshared, no pending timing
    records. *)
Record Base s : Prop := {
  b_wf : forall n, node n -> ca_wf (arr s n);
  b_lines : forall n, node n -> ca_numLines (arr s n) = length (c_bcc (sys_caches s n));
  b_tlines : forall n, node n -> cfg_terminal (cfg n) = false ->
    length (c_tcc (sys_caches s n)) = length (c_bcc (sys_caches s n));
  b_addr : forall n a, node n -> aok a -> ca_addr_ok (arr s n) a;
  b_clean : forall n l, node n -> (l < length (c_bcc (sys_caches s n)))%nat ->
    ca_find (arr s n) (ca_tag (arr s n) l) <> Some l ->
    bccl s n l = StI /\ (cfg_terminal (cfg n) = false -> emptyEntry (tccl s n l));
  b_valid : forall n a, node n -> stt s n a <> StI -> aok a /\ reach n a;
  b_filter : forall n, node n -> cfg_terminal (cfg n) = true ->
    cfg_filterSetMask (cfg n) < Z.of_nat (length (filterArray (c_filter (sys_caches s n))));
  b_norec : forall i er, sys_evRecs s i = Some er -> hasRecord er = false
}.

Record Inv s : Prop := {
  inv_base : Base s;
  inv_node : forall p a, node p -> cfg_terminal (cfg p) = false -> NodeInv s p a
}.

Context (WF : WfHier).

(** ** Topology facts *)
Lemma getParentId_lt n a : node n -> (getParentId cfg n a < length (cfg_parents (cfg n)))%nat.
Proof.
  intros Hn. unfold getParentId. pose proof (wf_parents WF n Hn) as Hp.
  set (x := Z.lxor _ _).
  pose proof (Z.mod_pos_bound x (Z.of_nat (length (cfg_parents (cfg n))))).
  destruct (cfg_parents (cfg n)); [done|]. simpl in *. lia.
Qed.

Lemma parent_of_is_Some n a : node n -> exists o, parent_of cfg n a = Some o.
Proof. intros Hn. by apply lookup_lt_is_Some_2, getParentId_lt. Qed.

Lemma rtt_child n i c : node n -> cfg_children (cfg n) !! i = Some c ->
  exists rtt, cfg_childrenRTTs (cfg n) !! i = Some rtt /\ 0 <= rtt <= K.
Proof.
  intros Hn Hc. destruct (lookup_lt_is_Some_2 (cfg_childrenRTTs (cfg n)) i) as [rtt Hrtt].
  - rewrite (wf_crtt WF n Hn). by eapply lookup_lt_Some.
  - exists rtt. split; [done|]. by apply (Forall_lookup_1 _ _ _ _ (wf_crttK WF n Hn) Hrtt).
Qed.
Lemma rtt_parent n a : node n ->
  exists rtt, cfg_parentRTTs (cfg n) !! getParentId cfg n a = Some rtt /\ 0 <= rtt <= K.
Proof.
  intros Hn. destruct (lookup_lt_is_Some_2 (cfg_parentRTTs (cfg n)) (getParentId cfg n a)) as [rtt Hrtt].
  - rewrite (wf_prtt WF n Hn). by apply getParentId_lt.
  - exists rtt. split; [done|]. by apply (Forall_lookup_1 _ _ _ _ (wf_prttK WF n Hn) Hrtt).
Qed.

Lemma parent_up c p a : node c -> parent_of cfg c a = Some (OCache p) ->
  node p /\ (lvl c < lvl p)%nat /\ cfg_terminal (cfg p) = false /\
  cfg_children (cfg p) !! cfg_selfId (cfg c) = Some c.
Proof. intros Hc Hp. apply (wf_up WF c p); [done|]. by eapply list_elem_of_lookup_2. Qed.

Lemma anc_node a m n : anc a n m -> node m -> node n.
Proof. induction 1 as [|m q Hq Hanc IH]; [done|]. intros Hm. by apply IH, (parent_up m q a). Qed.

Lemma anc_lvl a m n : anc a n m -> node m -> m = n \/ (lvl m < lvl n)%nat.
Proof.
  induction 1 as [|m q Hq Hanc IH]; [by left|]. intros Hm. right.
  destruct (parent_up m q a) as (Hnq&?&?); [done..|].
  destruct (IH Hnq); subst; lia.
Qed.

Lemma anc_snoc a m c p : anc a c m -> parent_of cfg c a = Some (OCache p) -> anc a p m.
Proof. induction 1; intros; eauto using anc. Qed.

Lemma anc_inv a m n : anc a n m -> m <> n ->
  exists c, parent_of cfg c a = Some (OCache n) /\ anc a c m.
Proof.
  induction 1 as [|m q Hq Hanc IH]; [done|]. intros _.
  destruct (decide (q = n)) as [->|Hne]; [eauto using anc|].
  destruct (IH Hne) as (c&?&?). eauto using anc.
Qed.

(** The subtrees of two children of [p] are disjoint. *)
Lemma anc_disjoint a m c1 c2 p : node m ->
  parent_of cfg c1 a = Some (OCache p) -> parent_of cfg c2 a = Some (OCache p) ->
  anc a c1 m -> anc a c2 m -> c1 = c2.
Proof.
  intros Hm Hp1 Hp2 H1. revert Hm. induction H1 as [|m q Hq H1 IH]; intros Hm H2.
  - inversion H2 as [|? q' Hq' Hanc]; subst; [done|].
    rewrite Hp1 in Hq'. injection Hq' as <-.
    destruct (parent_up c1 p a) as (Hnp&?&?); [done..|].
    destruct (anc_lvl a p c2 Hanc Hnp) as [->|Hlt].
    + destruct (parent_up c2 c2 a) as (?&?&?); [done..|]. lia.
    + destruct (parent_up c2 p a) as (?&?&?); [by eapply anc_node|done|]. lia.
  - destruct (parent_up m q a) as (Hnq&?&?); [done..|].
    inversion H2 as [|? q' Hq' Hanc]; subst.
    + rewrite Hp2 in Hq. injection Hq as <-.
      destruct (anc_lvl a p c1 H1 Hnq) as [->|Hlt].
      * destruct (parent_up c1 c1 a) as (?&?&?); [done..|]. lia.
      * destruct (parent_up c1 p a) as (?&?&?); [by eapply anc_node|done|]. lia.
    + rewrite Hq in Hq'. injection Hq' as <-. by apply IH.
Qed.

(** A parent is not in the subtree of its child. *)
Lemma anc_not_parent a c p : node c -> parent_of cfg c a = Some (OCache p) -> ~ anc a c p.
Proof.
  intros Hc Hp Hanc. destruct (parent_up c p a) as (Hnp&?&?); [done..|].
  destruct (anc_lvl _ _ _ Hanc Hnp); subst; lia.
Qed.

Lemma reach_up c p a : node c -> reach c a -> parent_of cfg c a = Some (OCache p) -> reach p a.
Proof.
  intros Hc (t&?&?&Hanc) Hp. exists t. split_and!; [done..|]. by eapply anc_snoc.
Qed.

(** ** The view of an address depends on its cells only *)
Lemma stt_find s n a l : ca_find (arr s n) a = Some l -> stt s n a = bccl s n l.
Proof. unfold stt. by intros ->. Qed.
Lemma dir_find s n a l : ca_find (arr s n) a = Some l -> dir s n a = tccl s n l.
Proof. unfold dir. by intros ->. Qed.
Lemma stt_valid_find s n a : stt s n a <> StI -> exists l, ca_find (arr s n) a = Some l.
Proof. unfold stt. destruct (ca_find _ _) as [l|]; [by exists l|done]. Qed.

Lemma NodeInv_ext s s' p a :
  node p ->
  stt s' p a = stt s p a -> dir s' p a = dir s p a ->
  (forall c, node c -> parent_of cfg c a = Some (OCache p) -> stt s' c a = stt s c a) ->
  NodeInv s p a -> NodeInv s' p a.
Proof.
  intros Hp Hst Hdir Hch [N1 N2 N3 N4 N5 N6 N7 N8].
  split; rewrite ?Hdir, ?Hst; try done.
  - intros i Hi. destruct (N2 i Hi) as (c&Hc&Hpar&Hv). exists c. split_and!; try done.
    rewrite Hch; [done| |done]. by eapply (wf_down WF p i c).
  - intros c Hc Hpar. rewrite Hch by done. by apply N3.
  - intros c Hc Hpar. rewrite Hch by done. by apply N4.
  - intros c Hc Hpar. rewrite Hch by done. by apply N5.
Qed.

(** An invalid line has no sharers. *)
Lemma NodeInv_invalid s p a : NodeInv s p a -> stt s p a = StI -> emptyEntry (dir s p a).
Proof.
  intros N Hst. assert (Hs : sharers (dir s p a) = ∅).
  { destruct (decide (sharers (dir s p a) = ∅)) as [|Hne]; [done|].
    by pose proof (ni_incl _ _ _ N Hne). }
  split; [|done]. by rewrite (ni_size _ _ _ N), Hs, size_empty.
Qed.

(** Inclusion along the path, and exclusivity. *)
Lemma inclusion s a m n : Inv s -> node m -> anc a n m -> stt s m a <> StI -> stt s n a <> StI.
Proof.
  intros HI Hm Hanc. revert Hm. induction Hanc as [|m q Hq Hanc IH]; intros Hm Hv; [done|].
  destruct (parent_up m q a) as (Hnq&?&Ht&?); [done..|].
  apply IH; [done|]. pose proof (inv_node _ HI q a Hnq Ht) as N.
  apply (ni_incl _ _ _ N). pose proof (ni_sharer _ _ _ N m Hm Hq Hv). set_solver.
Qed.

Lemma exclusion s a m n : Inv s -> node m -> anc a n m -> EM (stt s m a) -> EM (stt s n a).
Proof.
  intros HI Hm Hanc. revert Hm. induction Hanc as [|m q Hq Hanc IH]; intros Hm Hv; [done|].
  destruct (parent_up m q a) as (Hnq&?&Ht&?); [done..|].
  apply IH; [done|]. pose proof (inv_node _ HI q a Hnq Ht) as N.
  apply (ni_inclEM _ _ _ N). by apply (ni_excl _ _ _ N m).
Qed.

(** An exclusive entry has a single sharer. *)
Lemma exclusive_unique s p a i j : NodeInv s p a -> isExclusive (dir s p a) = true ->
  i ∈ sharers (dir s p a) -> j ∈ sharers (dir s p a) -> i = j.
Proof.
  intros N Hex Hi Hj. unfold isExclusive in Hex.
  apply andb_true_iff in Hex as [Hsz%Z.eqb_eq _].
  rewrite (ni_size _ _ _ N) in Hsz.
  assert (size (sharers (dir s p a)) = 1%nat) as H1 by lia.
  apply size_1_elem_of in H1 as [x Hx].
  apply Hx, elem_of_singleton in Hi, Hj. congruence.
Qed.

(** Two caches at the bottom of one path cannot hold a line if one of them has
    it exclusively. *)
Lemma swmr_path s a t t' n : Inv s -> node t -> node t' ->
  cfg_terminal (cfg t) = true -> cfg_terminal (cfg t') = true ->
  anc a n t -> anc a n t' -> EM (stt s t a) -> stt s t' a <> StI -> t = t'.
Proof.
  intros HI Ht Ht' Htt Htt' Hn Hn' HEM Hv.
  remember (lvl n) as k eqn:Hk. revert n Hk Hn Hn'.
  induction k as [k IH] using lt_wf_ind. intros n -> Hn Hn'.
  assert (Hleaf : forall x c, node x -> cfg_terminal (cfg x) = true -> node c ->
            parent_of cfg c a = Some (OCache x) -> False).
  { intros x c _ Hx Hc Hp. destruct (parent_up c x a) as (?&?&?&?); congruence. }
  destruct (decide (t = n)) as [->|Hne].
  { destruct (decide (t' = n)) as [->|Hne']; [done|].
    destruct (anc_inv a t' n Hn' Hne') as (c'&Hp'&Hc').
    exfalso. eapply (Hleaf n c'); eauto using anc_node. }
  destruct (anc_inv a t n Hn Hne) as (c&Hp&Hc).
  assert (Hnc : node c) by eauto using anc_node.
  destruct (decide (t' = n)) as [->|Hne'].
  { exfalso. by eapply (Hleaf n c). }
  destruct (anc_inv a t' n Hn' Hne') as (c'&Hp'&Hc').
  assert (Hnc' : node c') by eauto using anc_node.
  destruct (parent_up c n a) as (Hnn&Hlt&Htn&Hch); [done..|].
  destruct (parent_up c' n a) as (_&_&_&Hch'); [done..|].
  pose proof (inv_node _ HI n a Hnn Htn) as N.
  pose proof (exclusion s a t c HI Ht Hc HEM) as HEc.
  pose proof (inclusion s a t' c' HI Ht' Hc' Hv) as Hvc'.
  assert (Hvc : stt s c a <> StI) by (destruct HEc as [->| ->]; done).
  pose proof (ni_excl _ _ _ N c Hnc Hp HEc) as Hex.
  pose proof (exclusive_unique s n a _ _ N Hex
    (ni_sharer _ _ _ N c Hnc Hp Hvc) (ni_sharer _ _ _ N c' Hnc' Hp' Hvc')) as Heq.
  rewrite Heq, Hch' in Hch. simplify_eq. eapply IH; [exact Hlt|done..].
Qed.

(** Every path ends at the address's last-level bank. *)
Lemma anc_root a n : node n -> reach n a -> anc a (root a) n.
Proof.
  remember (top - lvl n)%nat as k eqn:Hk. revert n Hk.
  induction k as [k IH] using lt_wf_ind. intros n -> Hn Hr.
  destruct (parent_of_is_Some n a Hn) as [[p|m] Hp].
  - destruct (parent_up n p a) as (Hnp&Hlt&_&_); [done..|].
    pose proof (wf_lvl WF p Hnp).
    eapply anc_step; [done|].
    eapply (IH (top - lvl p)%nat); [lia|done|done|]. by apply (reach_up n).
  - rewrite <- (wf_root WF n a m Hr Hp). constructor.
Qed.

(** Single writer, multiple readers: a line that one core's cache holds
    exclusively is in no other core's cache. *)
Lemma swmr s a t t' : Inv s -> node t -> node t' ->
  cfg_terminal (cfg t) = true -> cfg_terminal (cfg t') = true ->
  EM (stt s t a) -> stt s t' a <> StI -> t = t'.
Proof.
  intros HI Ht Ht' Htt Htt' HE Hv.
  eapply (swmr_path s a t t' (root a)); try done; apply anc_root; try done.
  - eexists; eauto using anc.
  - eexists; eauto using anc.
Qed.

(** ** Frames: what an operation on address [a] in the caches [Q] leaves alone *)
Record Frame (a : Z) (Q : nat -> Prop) s s' : Prop := {
  fr_arr : forall m, arr s' m = arr s m;
  fr_blen : forall m, length (c_bcc (sys_caches s' m)) = length (c_bcc (sys_caches s m));
  fr_tlen : forall m, length (c_tcc (sys_caches s' m)) = length (c_tcc (sys_caches s m));
  fr_bcc : forall m l, ~ (Q m /\ ca_find (arr s m) a = Some l) -> bccl s' m l = bccl s m l;
  fr_tcc : forall m l, ~ (Q m /\ ca_find (arr s m) a = Some l) -> tccl s' m l = tccl s m l;
  fr_filter : forall m, length (filterArray (c_filter (sys_caches s' m)))
                        = length (filterArray (c_filter (sys_caches s m)));
  fr_dummy : forall m, sys_dummy s' m = sys_dummy s m;
  fr_evRecs : forall i, sys_evRecs s' i = sys_evRecs s i;
  fr_procMask : sys_procMask s' = sys_procMask s
}.

(** All locks as before. *)
Record LockEq s s' : Prop := {
  le_bcc : forall m, c_bccLock (sys_caches s' m) = c_bccLock (sys_caches s m);
  le_tcc : forall m, c_tccLock (sys_caches s' m) = c_tccLock (sys_caches s m);
  le_filter : forall m, filterLock (c_filter (sys_caches s' m))
                        = filterLock (c_filter (sys_caches s m))
}.

Lemma LockEq_refl s : LockEq s s.
Proof. by split. Qed.
Lemma LockEq_trans s1 s2 s3 : LockEq s1 s2 -> LockEq s2 s3 -> LockEq s1 s3.
Proof. intros [] []; split; congruence. Qed.

Lemma Frame_refl a Q s : Frame a Q s s.
Proof. by split. Qed.

Lemma Frame_trans a Q s1 s2 s3 : Frame a Q s1 s2 -> Frame a Q s2 s3 -> Frame a Q s1 s3.
Proof.
  intros F G. split; intros.
  - by rewrite (fr_arr _ _ _ _ G), (fr_arr _ _ _ _ F).
  - by rewrite (fr_blen _ _ _ _ G), (fr_blen _ _ _ _ F).
  - by rewrite (fr_tlen _ _ _ _ G), (fr_tlen _ _ _ _ F).
  - rewrite (fr_bcc _ _ _ _ G), (fr_bcc _ _ _ _ F); rewrite ?(fr_arr _ _ _ _ F); done.
  - rewrite (fr_tcc _ _ _ _ G), (fr_tcc _ _ _ _ F); rewrite ?(fr_arr _ _ _ _ F); done.
  - by rewrite (fr_filter _ _ _ _ G), (fr_filter _ _ _ _ F).
  - by rewrite (fr_dummy _ _ _ _ G), (fr_dummy _ _ _ _ F).
  - by rewrite (fr_evRecs _ _ _ _ G), (fr_evRecs _ _ _ _ F).
  - by rewrite (fr_procMask _ _ _ _ G), (fr_procMask _ _ _ _ F).
Qed.

Lemma Frame_weaken a (Q Q' : nat -> Prop) s s' :
  (forall m, Q m -> Q' m) -> Frame a Q s s' -> Frame a Q' s s'.
Proof.
  intros HQ [F1 F2 F3 F4 F5 F6 F7 F8 F9]. split; try done.
  - intros m l Hn. apply F4. intros [??]. apply Hn. auto.
  - intros m l Hn. apply F5. intros [??]. apply Hn. auto.
Qed.

(** The view of an address outside the frame. *)
Lemma Frame_stt a Q s s' m b : Base s -> node m -> Frame a Q s s' -> b <> a \/ ~ Q m ->
  stt s' m b = stt s m b.
Proof.
  intros HB Hm F Hor. unfold stt. rewrite (fr_arr _ _ _ _ F).
  destruct (ca_find (arr s m) b) as [l|] eqn:Hl; [|done].
  apply (fr_bcc _ _ _ _ F). intros [HQ Hl']. destruct Hor as [Hb|?]; [|done].
  destruct (ca_find_tag _ _ _ (b_wf _ HB m Hm) Hl).
  destruct (ca_find_tag _ _ _ (b_wf _ HB m Hm) Hl'). congruence.
Qed.

Lemma Frame_dir a Q s s' m b : Base s -> node m -> Frame a Q s s' -> b <> a \/ ~ Q m ->
  dir s' m b = dir s m b.
Proof.
  intros HB Hm F Hor. unfold dir. rewrite (fr_arr _ _ _ _ F).
  destruct (ca_find (arr s m) b) as [l|] eqn:Hl; [|done].
  apply (fr_tcc _ _ _ _ F). intros [HQ Hl']. destruct Hor as [Hb|?]; [|done].
  destruct (ca_find_tag _ _ _ (b_wf _ HB m Hm) Hl).
  destruct (ca_find_tag _ _ _ (b_wf _ HB m Hm) Hl'). congruence.
Qed.

Lemma Frame_Base a Q s s' : Base s -> Frame a Q s s' ->
  (forall m, node m -> stt s' m a <> StI -> stt s m a <> StI \/ aok a /\ reach m a) -> Base s'.
Proof.
  intros HB F Hv. split.
  - intros n Hn. rewrite (fr_arr _ _ _ _ F). by apply HB.
  - intros n Hn. rewrite (fr_arr _ _ _ _ F), (fr_blen _ _ _ _ F). by apply HB.
  - intros n Hn Ht. rewrite (fr_tlen _ _ _ _ F), (fr_blen _ _ _ _ F). by apply HB.
  - intros n b Hn. rewrite (fr_arr _ _ _ _ F). by apply HB.
  - intros n l Hn. rewrite (fr_arr _ _ _ _ F), (fr_blen _ _ _ _ F). intros Hl Hf.
    rewrite (fr_bcc _ _ _ _ F), (fr_tcc _ _ _ _ F); [by apply HB|..].
    + intros [_ Hf']. apply Hf. destruct (ca_find_tag _ _ _ (b_wf _ HB n Hn) Hf') as [_ ->]. done.
    + intros [_ Hf']. apply Hf. destruct (ca_find_tag _ _ _ (b_wf _ HB n Hn) Hf') as [_ ->]. done.
  - intros n b Hn Hst. destruct (decide (b = a)) as [->|Hne].
    + destruct (Hv n Hn Hst); [by apply (b_valid _ HB)|done].
    + apply (b_valid _ HB n b Hn). by rewrite <- (Frame_stt a Q s s' n b) by auto.
  - intros n Hn. rewrite (fr_filter _ _ _ _ F). by apply HB.
  - intros i er. rewrite (fr_evRecs _ _ _ _ F). by apply HB.
Qed.

(** ** The primitive updates *)
Lemma LockEq_set_cache n g s :
  (forall k, c_bccLock (g k) = c_bccLock k) -> (forall k, c_tccLock (g k) = c_tccLock k) ->
  (forall k, filterLock (c_filter (g k)) = filterLock (c_filter k)) ->
  LockEq s (set_cache n g s).
Proof.
  intros H1 H2 H3. split; intros m.
  - by apply (proj_keep c_bccLock).
  - by apply (proj_keep c_tccLock).
  - by apply (proj_keep (fun k => filterLock (c_filter k))).
Qed.

Lemma Frame_set_cache a Q n g s :
  (forall k, c_array (g k) = c_array k) -> (forall k, c_bcc (g k) = c_bcc k) ->
  (forall k, c_tcc (g k) = c_tcc k) ->
  (forall k, length (filterArray (c_filter (g k))) = length (filterArray (c_filter k))) ->
  Frame a Q s (set_cache n g s).
Proof.
  intros H1 H2 H3 H4. split; try done; intros.
  - by apply (proj_keep c_array).
  - by rewrite (proj_keep c_bcc).
  - by rewrite (proj_keep c_tcc).
  - unfold bccl. by rewrite (proj_keep c_bcc).
  - unfold tccl. by rewrite (proj_keep c_tcc).
  - by rewrite (proj_keep (fun k => length (filterArray (c_filter k)))).
Qed.

Lemma list_insert_total_ne {X} `{Inhabited X} (xs : list X) i j x :
  i <> j -> <[i := x]> xs !!! j = xs !!! j.
Proof. intros. rewrite !list_lookup_total_alt. by rewrite list_lookup_insert_ne. Qed.
Lemma list_insert_total_eq {X} `{Inhabited X} (xs : list X) i x :
  (i < length xs)%nat -> <[i := x]> xs !!! i = x.
Proof. intros. rewrite !list_lookup_total_alt. by rewrite list_lookup_insert_eq. Qed.

Lemma Frame_put_bcc a n l st s : ca_find (arr s n) a = Some l ->
  Frame a (eq n) s (set_cache n (set_bcc l st) s).
Proof.
  intros Hl. split; try done; intros m.
  - by apply (proj_keep c_array).
  - simpl. unfold upd. case_decide; subst; simpl; [by rewrite length_insert|done].
  - by rewrite (proj_keep c_tcc).
  - intros l' Hn. unfold bccl. simpl. unfold upd. case_decide; subst; simpl; [|done].
    apply list_insert_total_ne. intros ->. by apply Hn.
  - intros l' Hn. unfold tccl. by rewrite (proj_keep c_tcc).
  - by rewrite (proj_keep c_filter).
Qed.

Lemma Frame_put_entry a n l e s : ca_find (arr s n) a = Some l ->
  Frame a (eq n) s (set_cache n (set_tcc l e) s).
Proof.
  intros Hl. split; try done; intros m.
  - by apply (proj_keep c_array).
  - by rewrite (proj_keep c_bcc).
  - simpl. unfold upd. case_decide; subst; simpl; [by rewrite length_insert|done].
  - intros l' Hn. unfold bccl. by rewrite (proj_keep c_bcc).
  - intros l' Hn. unfold tccl. simpl. unfold upd. case_decide; subst; simpl; [|done].
    apply list_insert_total_ne. intros ->. by apply Hn.
  - by rewrite (proj_keep c_filter).
Qed.

Lemma bccl_put_bcc n l st s : (l < length (c_bcc (sys_caches s n)))%nat ->
  bccl (set_cache n (set_bcc l st) s) n l = st.
Proof. intros Hl. unfold bccl. rewrite proj_eq. simpl. by apply list_insert_total_eq. Qed.
Lemma tccl_put_bcc n l st s m l' : tccl (set_cache n (set_bcc l st) s) m l' = tccl s m l'.
Proof. unfold tccl. by rewrite (proj_keep c_tcc). Qed.
Lemma tccl_put_entry n l e s : (l < length (c_tcc (sys_caches s n)))%nat ->
  tccl (set_cache n (set_tcc l e) s) n l = e.
Proof. intros Hl. unfold tccl. rewrite proj_eq. simpl. by apply list_insert_total_eq. Qed.
Lemma bccl_put_entry n l e s m l' : bccl (set_cache n (set_tcc l e) s) m l' = bccl s m l'.
Proof. unfold bccl. by rewrite (proj_keep c_bcc). Qed.

Lemma anc_em a m n : node m -> anc a n m \/ ~ anc a n m.
Proof.
  remember (top - lvl m)%nat as k eqn:Hk. revert m Hk.
  induction k as [k IH] using lt_wf_ind. intros m -> Hm.
  destruct (decide (m = n)) as [->|Hne]; [left; constructor|].
  destruct (parent_of_is_Some m a Hm) as [[p|o] Hp].
  - destruct (parent_up m p a) as (Hnp&Hlt&_&_); [done..|].
    pose proof (wf_lvl WF p Hnp).
    destruct (IH (top - lvl p)%nat ltac:(lia) p eq_refl Hnp) as [Ha|Hna].
    + left. by eapply anc_step.
    + right. intros Hanc. inversion Hanc; subst; [done|]. by simplify_eq.
  - right. intros Hanc. inversion Hanc; subst; [done|]. by simplify_eq.
Qed.

Lemma stt_put_entry n l e s m b : stt (set_cache n (set_tcc l e) s) m b = stt s m b.
Proof.
  unfold stt, arr. rewrite (proj_keep c_array) by done.
  destruct (ca_find _ _); [|done]. apply bccl_put_entry.
Qed.
Lemma dir_put_entry_ne n l e s m b : m <> n -> dir (set_cache n (set_tcc l e) s) m b = dir s m b.
Proof. intros Hne. unfold dir, tccl, arr. by rewrite proj_ne by done. Qed.
Lemma dir_put_bcc n l st s m b : dir (set_cache n (set_bcc l st) s) m b = dir s m b.
Proof.
  unfold dir, arr. rewrite (proj_keep c_array) by done.
  destruct (ca_find _ _); [|done]. apply tccl_put_bcc.
Qed.
Lemma stt_put_bcc_ne n l st s m b : m <> n -> stt (set_cache n (set_bcc l st) s) m b = stt s m b.
Proof. intros Hne. unfold stt, bccl, arr. by rewrite proj_ne by done. Qed.

Lemma find_lt s n a l : Base s -> node n -> ca_find (arr s n) a = Some l ->
  (l < length (c_bcc (sys_caches s n)))%nat.
Proof.
  intros HB Hn Hl. rewrite <- (b_lines _ HB n Hn).
  by apply (ca_find_tag _ _ _ (b_wf _ HB n Hn)) in Hl as [? _].
Qed.
Lemma find_tlt s n a l : Base s -> node n -> cfg_terminal (cfg n) = false ->
  ca_find (arr s n) a = Some l -> (l < length (c_tcc (sys_caches s n)))%nat.
Proof. intros HB Hn Ht Hl. rewrite (b_tlines _ HB n Hn Ht). by eapply find_lt. Qed.

Lemma stt_put_bcc n l st s a : Base s -> node n -> ca_find (arr s n) a = Some l ->
  stt (set_cache n (set_bcc l st) s) n a = st.
Proof.
  intros HB Hn Hl. unfold stt, arr. rewrite (proj_keep c_array) by done.
  unfold arr in Hl. rewrite Hl. apply bccl_put_bcc. by eapply find_lt.
Qed.
Lemma dir_put_entry n l e s a : Base s -> node n -> cfg_terminal (cfg n) = false ->
  ca_find (arr s n) a = Some l -> dir (set_cache n (set_tcc l e) s) n a = e.
Proof.
  intros HB Hn Ht Hl. unfold dir, arr. rewrite (proj_keep c_array) by done.
  unfold arr in Hl. rewrite Hl. apply tccl_put_entry. by eapply find_tlt.
Qed.

(** The whole view after a write to the line of [a] in [n]. *)
Lemma stt_set_bcc n l st s a m b : ca_wf (arr s n) -> (l < length (c_bcc (sys_caches s n)))%nat ->
  ca_find (arr s n) a = Some l ->
  stt (set_cache n (set_bcc l st) s) m b = if decide (m = n /\ b = a) then st else stt s m b.
Proof.
  intros Hw Hlen Hl. destruct (decide (m = n)) as [->|Hne].
  - destruct (decide (b = a)) as [->|Hb].
    + rewrite decide_True by done. unfold stt, arr. rewrite (proj_keep c_array) by done.
      unfold arr in Hl. rewrite Hl. by apply bccl_put_bcc.
    + rewrite decide_False by (by intros [_ ?]).
      unfold stt, arr. rewrite (proj_keep c_array) by done. fold (arr s n).
      destruct (ca_find (arr s n) b) as [l'|] eqn:Hl'; [|done].
      unfold bccl. rewrite proj_eq. simpl. apply list_insert_total_ne. intros <-.
      destruct (ca_find_tag _ _ _ Hw Hl), (ca_find_tag _ _ _ Hw Hl'). congruence.
  - rewrite decide_False by (by intros [? _]). by apply stt_put_bcc_ne.
Qed.
Lemma dir_set_entry n l e s a m b : ca_wf (arr s n) -> (l < length (c_tcc (sys_caches s n)))%nat ->
  ca_find (arr s n) a = Some l ->
  dir (set_cache n (set_tcc l e) s) m b = if decide (m = n /\ b = a) then e else dir s m b.
Proof.
  intros Hw Hlen Hl. destruct (decide (m = n)) as [->|Hne].
  - destruct (decide (b = a)) as [->|Hb].
    + rewrite decide_True by done. unfold dir, arr. rewrite (proj_keep c_array) by done.
      unfold arr in Hl. rewrite Hl. by apply tccl_put_entry.
    + rewrite decide_False by (by intros [_ ?]).
      unfold dir, arr. rewrite (proj_keep c_array) by done. fold (arr s n).
      destruct (ca_find (arr s n) b) as [l'|] eqn:Hl'; [|done].
      unfold tccl. rewrite proj_eq. simpl. apply list_insert_total_ne. intros <-.
      destruct (ca_find_tag _ _ _ Hw Hl), (ca_find_tag _ _ _ Hw Hl'). congruence.
  - rewrite decide_False by (by intros [? _]). by apply dir_put_entry_ne.
Qed.

(** ** Symbolic execution of the store operations *)
Lemma wp_get_bcc n l (Q : MESIState -> Sys A -> Prop) s :
  (l < length (c_bcc (sys_caches s n)))%nat -> Q (bccl s n l) s -> wp (get_bcc n l) Q s.
Proof.
  intros Hl HQ. unfold wp, get_bcc.
  destruct (lookup_lt_is_Some_2 _ _ Hl) as [x Hx]. rewrite Hx.
  unfold bccl in HQ. by rewrite (list_lookup_total_correct _ _ _ Hx) in HQ.
Qed.
Lemma wp_get_entry n l (Q : Entry -> Sys A -> Prop) s :
  (l < length (c_tcc (sys_caches s n)))%nat -> Q (tccl s n l) s -> wp (get_entry n l) Q s.
Proof.
  intros Hl HQ. unfold wp, get_entry.
  destruct (lookup_lt_is_Some_2 _ _ Hl) as [x Hx]. rewrite Hx.
  unfold tccl in HQ. by rewrite (list_lookup_total_correct _ _ _ Hx) in HQ.
Qed.
Lemma wp_from_opt {X} (o : option X) msg x (Q : X -> Sys A -> Prop) s :
  o = Some x -> Q x s -> wp (mlift (from_opt o msg)) Q s.
Proof. by intros ->. Qed.
Lemma wp_arr_get {X} (xs : list X) i x (Q : X -> Sys A -> Prop) s :
  xs !! i = Some x -> Q x s -> wp (mlift (arr_get xs i)) Q s.
Proof. intros Hx HQ. unfold arr_get. by eapply wp_from_opt. Qed.

(** ** States with the same view: only locks, counters, filters differ *)
Definition Same s s' : Prop := Frame 0 (fun _ => False) s s'.

Lemma Same_Frame a Q s s' : Same s s' -> Frame a Q s s'.
Proof. intros [F1 F2 F3 F4 F5 F6 F7 F8 F9]. split; try done; intros; [apply F4|apply F5]; by intros [[] _]. Qed.
Lemma Same_stt s s' m b : Same s s' -> stt s' m b = stt s m b.
Proof.
  intros F. unfold stt. rewrite (fr_arr _ _ _ _ F). destruct (ca_find _ _); [|done].
  apply (fr_bcc _ _ _ _ F). by intros [[] _].
Qed.
Lemma Same_dir s s' m b : Same s s' -> dir s' m b = dir s m b.
Proof.
  intros F. unfold dir. rewrite (fr_arr _ _ _ _ F). destruct (ca_find _ _); [|done].
  apply (fr_tcc _ _ _ _ F). by intros [[] _].
Qed.
Lemma Same_Base s s' : Same s s' -> Base s -> Base s'.
Proof.
  intros F HB. eapply (Frame_Base _ _ s s' HB F). intros m Hm. rewrite (Same_stt s s') by done. auto.
Qed.
Lemma Same_NodeInv s s' p a : node p -> Same s s' -> NodeInv s p a -> NodeInv s' p a.
Proof.
  intros Hp F. apply NodeInv_ext; [done|..].
  - by apply Same_stt.
  - by apply Same_dir.
  - intros c _ _. by apply Same_stt.
Qed.
Lemma Same_Inv s s' : Same s s' -> Inv s -> Inv s'.
Proof.
  intros F [HB HN]. split; [by eapply Same_Base|]. intros p a Hp Ht.
  eapply Same_NodeInv; [done|done|]. by apply HN.
Qed.
Lemma Same_refl s : Same s s.
Proof. apply Frame_refl. Qed.
Lemma Same_trans s1 s2 s3 : Same s1 s2 -> Same s2 s3 -> Same s1 s3.
Proof. apply Frame_trans. Qed.
Lemma Same_set_cache n g s :
  (forall k, c_array (g k) = c_array k) -> (forall k, c_bcc (g k) = c_bcc k) ->
  (forall k, c_tcc (g k) = c_tcc k) ->
  (forall k, length (filterArray (c_filter (g k))) = length (filterArray (c_filter k))) ->
  Same s (set_cache n g s).
Proof. apply Frame_set_cache. Qed.
Lemma Same_set_array n s : Same s (set_cache n (set_array (arr s n)) s).
Proof.
  split; try done; intros m.
  - unfold arr. simpl. unfold upd. case_decide; by subst.
  - by rewrite (proj_keep c_bcc).
  - by rewrite (proj_keep c_tcc).
  - intros. unfold bccl. by rewrite (proj_keep c_bcc).
  - intros. unfold tccl. by rewrite (proj_keep c_tcc).
  - by rewrite (proj_keep c_filter).
Qed.
End Inv.

(** The topology and the invariants determine their parameters. *)
#[global] Arguments wf_parents {_ _ _ _ _ _ _} _ _ _.
#[global] Arguments wf_up {_ _ _ _ _ _ _} _ _ _ _ _.
#[global] Arguments wf_down {_ _ _ _ _ _ _} _ _ _ _ _ _.
#[global] Arguments wf_lvl {_ _ _ _ _ _ _} _ _ _.
#[global] Arguments wf_leaf {_ _ _ _ _ _ _} _ _ _ _.
#[global] Arguments wf_maxChildren {_ _ _ _ _ _ _} _ _ _.
#[global] Arguments wf_prtt {_ _ _ _ _ _ _} _ _ _.
#[global] Arguments wf_crtt {_ _ _ _ _ _ _} _ _ _.
#[global] Arguments wf_incl {_ _ _ _ _ _ _} _ _ _.
#[global] Arguments wf_root {_ _ _ _ _ _ _} _ _ _ _ _ _.
#[global] Arguments wf_mask {_ _ _ _ _ _ _} _ _ _.
#[global] Arguments wf_K {_ _ _ _ _ _ _} _.
#[global] Arguments wf_accLat {_ _ _ _ _ _ _} _ _ _.
#[global] Arguments wf_invLat {_ _ _ _ _ _ _} _ _ _.
#[global] Arguments wf_prttK {_ _ _ _ _ _ _} _ _ _.
#[global] Arguments wf_crttK {_ _ _ _ _ _ _} _ _ _.
#[global] Arguments wf_memLat {_ _ _ _ _ _ _} _ _.
#[global] Arguments ni_size {_ _ _ _ _ _ _ _} _.
#[global] Arguments ni_child {_ _ _ _ _ _ _ _} _ _ _.
#[global] Arguments ni_sharer {_ _ _ _ _ _ _ _} _ _ _ _ _.
#[global] Arguments ni_excl {_ _ _ _ _ _ _ _} _ _ _ _ _.
#[global] Arguments ni_exclEM {_ _ _ _ _ _ _ _} _ _ _ _ _ _.
#[global] Arguments ni_incl {_ _ _ _ _ _ _ _} _ _.
#[global] Arguments ni_inclEM {_ _ _ _ _ _ _ _} _ _.
#[global] Arguments ni_flag {_ _ _ _ _ _ _ _} _ _.
#[global] Arguments b_wf {_ _ _ _ _ _ _} _ _ _.
#[global] Arguments b_lines {_ _ _ _ _ _ _} _ _ _.
#[global] Arguments b_tlines {_ _ _ _ _ _ _} _ _ _ _.
#[global] Arguments b_addr {_ _ _ _ _ _ _} _ _ _ _ _.
#[global] Arguments b_clean {_ _ _ _ _ _ _} _ _ _ _ _ _.
#[global] Arguments b_valid {_ _ _ _ _ _ _} _ _ _ _ _.
#[global] Arguments b_filter {_ _ _ _ _ _ _} _ _ _ _.
#[global] Arguments b_norec {_ _ _ _ _ _ _} _ _ _ _.
#[global] Arguments inv_base {_ _ _ _ _ _ _} _.
#[global] Arguments inv_node {_ _ _ _ _ _ _} _ _ _ _ _.
#[global] Arguments fr_arr {_ _ _ _ _ _ _} _ _.
#[global] Arguments fr_blen {_ _ _ _ _ _ _} _ _.
#[global] Arguments fr_tlen {_ _ _ _ _ _ _} _ _.
#[global] Arguments fr_bcc {_ _ _ _ _ _ _} _ _ _ _.
#[global] Arguments fr_tcc {_ _ _ _ _ _ _} _ _ _ _.
#[global] Arguments fr_filter {_ _ _ _ _ _ _} _ _.
#[global] Arguments fr_dummy {_ _ _ _ _ _ _} _ _.
#[global] Arguments fr_evRecs {_ _ _ _ _ _ _} _ _.
#[global] Arguments fr_procMask {_ _ _ _ _ _ _} _.
#[global] Arguments getParentId_lt {_ _ _ _ _ _ _} _ _ _ _.
#[global] Arguments parent_of_is_Some {_ _ _ _ _ _ _} _ _ _ _.
#[global] Arguments rtt_child {_ _ _ _ _ _ _} _ _ _ _ _ _.
#[global] Arguments rtt_parent {_ _ _ _ _ _ _} _ _ _ _.
#[global] Arguments parent_up {_ _ _ _ _ _ _} _ _ _ _ _ _.
#[global] Arguments anc_node {_ _ _ _ _ _ _} _ {_ _ _} _ _.
#[global] Arguments anc_lvl {_ _ _ _ _ _ _} _ {_ _ _} _ _.
#[global] Arguments anc_disjoint {_ _ _ _ _ _ _} _ {_ _ _ _ _} _ _ _ _ _.
#[global] Arguments anc_not_parent {_ _ _ _ _ _ _} _ {_ _ _} _ _ _.
#[global] Arguments anc_em {_ _ _ _ _ _ _} _ _ _ _ _.
#[global] Arguments anc_inv {_ _ _ _} _ _.
#[global] Arguments anc_snoc {_ _ _ _ _} _ _.
#[global] Arguments reach_up {_ _ _ _ _} _ _ _.
#[global] Arguments NodeInv_ext {_ _ _ _ _ _ _ _ _ _} _ _ _ {_ _} _ _ _ _ _.
#[global] Arguments NodeInv_invalid {_ _ _ _ _ _ _ _} _ _.
#[global] Arguments inclusion {_ _ _ _ _ _ _ _ _ _ _} _ {_ _ _ _} _ _ _ _ _.
#[global] Arguments exclusion {_ _ _ _ _ _ _ _ _ _ _} _ {_ _ _ _} _ _ _ _.
#[global] Arguments exclusive_unique {_ _ _ _ _ _ _ _ _ _} _ _ _ _.
#[global] Arguments Frame_stt {_ _ _ _ _ _ _ _ _ _} _ _ _ _ _ _.
#[global] Arguments Frame_dir {_ _ _ _ _ _ _ _ _ _} _ _ _ _ _ _.
#[global] Arguments Frame_Base {_ _ _ _ _ _ _ _ _ _} _ _ _.
#[global] Arguments Same_Base {_ _ _ _ _ _ _ _} _ _.
#[global] Arguments Same_NodeInv {_ _ _ _ _ _ _ _ _ _} _ {_ _ _ _} _ _ _.
#[global] Arguments Same_Inv {_ _ _ _ _ _ _ _ _ _ _} _ {_ _} _ _.
#[global] Arguments find_lt {_ _ _ _ _ _ _ _ _ _} _ _ _.
#[global] Arguments find_tlt {_ _ _ _ _ _ _ _ _ _} _ _ _ _.
#[global] Arguments stt_put_bcc {_ _ _ _ _ _} _ _ _ {_} _ _ _ _.
#[global] Arguments dir_put_entry {_ _ _ _ _ _} _ _ _ {_} _ _ _ _ _.
