(* ===== verification/CoherenceDown.v ===== *)
(** * The coherent cache hierarchy: invalidations

    An invalidation of address [a] at a cache reaches exactly the caches below
    it that hold [a], leaves them invalid ([INV]) or shared ([INVX]), changes no
    other line, reports a writeback exactly when one of them was dirty, and
    never fails an assertion or waits for a lock. *)

From S2P Require Import Prelude Bithacks MemHier TimingEvent ReplPolicies CacheArrays Coherence CoherenceInv.

Section Down.
Context {A : Type} `{HL : CacheArrayLaws A}.
Context (cfg : nat -> CacheCfg) (memLatency : nat -> Z).
Context (node : nat -> Prop) (lvl : nat -> nat) (top : nat) (root : Z -> nat) (K : Z).
Context (aok : Z -> Prop).
Context (WF : WfHier cfg memLatency node lvl top root K).
Implicit Types (s : Sys A) (n m c p l : nat) (a b : Z).
Abbreviation anc := (anc cfg).
Abbreviation NodeInv := (NodeInv cfg node).
Abbreviation Base := (Base cfg node aok).
Abbreviation term := (fun n => cfg_terminal (cfg n)).

(** The state an invalidation leaves. *)
Definition inv_target (t : InvType) : MESIState := match t with INV => StI | _ => StS end.

(** Everything below [n] is consistent for [a]. *)
Definition SubInv s n a : Prop :=
  forall m, node m -> anc a n m -> term m = false -> NodeInv s m a.
Definition FreeLocks s n a : Prop :=
  forall m, node m -> anc a n m ->
    c_bccLock (sys_caches s m) = false /\ filterLock (c_filter (sys_caches s m)) = false.
(** No line becomes valid. *)
Definition Mono a s s' : Prop := forall m, node m -> stt s' m a <> StI -> stt s m a <> StI.

Definition InvPre (fuel n : nat) (a : Z) (t : InvType) (cyc : Z) s : Prop :=
  Base s /\ node n /\ aok a /\ SubInv s n a /\ FreeLocks s n a /\
  stt s n a <> StI /\ t <> FWD /\ (t = INVX -> EM (stt s n a)) /\
  (lvl n < fuel)%nat /\ 0 <= cyc /\ cyc + 2 * K * Z.of_nat fuel < two64.

Definition InvPost (fuel n : nat) (a : Z) (t : InvType) (cyc : Z) (wb : bool) s
    (r : Z * bool) s' : Prop :=
  Base s' /\ Frame a (fun m => anc a n m) s s' /\ LockEq s s' /\ Mono a s s' /\
  SubInv s' n a /\ stt s' n a = inv_target t /\
  cyc <= r.1 <= cyc + 2 * K * Z.of_nat fuel /\
  (r.2 = true <-> wb = true \/ exists m, node m /\ anc a n m /\ stt s m a = StM).

Definition InvSpec (fuel : nat) (inv : nat -> InvReq -> M (Sys A) (Z * bool)) : Prop :=
  forall n a t cyc wb src s, InvPre fuel n a t cyc s ->
    wp (inv n (mkInvReq a t wb cyc src)) (InvPost fuel n a t cyc wb s) s.

(** ** The loop of [sendInvalidates] *)
Section Loop.
Context (fuel : nat) (inv : nat -> InvReq -> M (Sys A) (Z * bool)) (IH : InvSpec fuel inv).
Context (n : nat) (a : Z) (l : nat) (t : InvType) (cyc : Z) (src : nat).
Context (Hn : node n) (Ht : term n = false) (Haok : aok a) (HtF : t <> FWD).
Context (Hlvl : (lvl n <= fuel)%nat) (Hcyc : 0 <= cyc)
        (Hb : cyc + 2 * K * Z.of_nat fuel + K < two64).

(** The sharers among [cs] are children that hold the line. *)
Definition SharersOK s (e : Entry) (cs : list nat) : Prop :=
  forall i, i ∈ cs -> i ∈ sharers e -> exists c,
    cfg_children (cfg n) !! i = Some c /\ parent_of cfg c a = Some (OCache n) /\
    stt s c a <> StI /\ (t = INVX -> EM (stt s c a)).
Definition BelowInv s : Prop :=
  forall m, node m -> m <> n -> anc a n m -> term m = false -> NodeInv s m a.
Definition BelowFree s : Prop :=
  forall m, node m -> m <> n -> anc a n m ->
    c_bccLock (sys_caches s m) = false /\ filterLock (c_filter (sys_caches s m)) = false.

Definition hit (e : Entry) (cs : list nat) (i c : nat) : Prop :=
  i ∈ cs /\ i ∈ sharers e /\ cfg_children (cfg n) !! i = Some c.

Record LoopPost s (e : Entry) (cs : list nat) (mx : Z) (wb : bool) (sent : Z)
    (r : Z * bool * Z) s' : Prop := {
  lp_base : Base s';
  lp_frame : Frame a (fun m => anc a n m) s s';
  lp_locks : LockEq s s';
  lp_mono : Mono a s s';
  lp_bcc : stt s' n a = stt s n a;
  lp_tcc : dir s' n a = mkEntry (numSharers e)
      (match t with INV => sharers e ∖ list_to_set cs | _ => sharers e end) (exclusive e);
  lp_below : BelowInv s';
  lp_hit : forall i c, hit e cs i c -> stt s' c a = inv_target t;
  lp_miss : forall c m, node m -> parent_of cfg c a = Some (OCache n) -> anc a c m ->
      ~ hit e cs (cfg_selfId (cfg c)) c -> stt s' m a = stt s m a /\ dir s' m a = dir s m a;
  lp_cyc : mx <= r.1.1 <= cyc + 2 * K * Z.of_nat fuel + K;
  lp_sent : r.2 = sent + Z.of_nat (length (filter (fun i => i ∈ sharers e) cs));
  lp_wb : r.1.2 = true <-> wb = true \/
      exists i c m, hit e cs i c /\ node m /\ anc a c m /\ stt s m a = StM
}.

Lemma child_facts i c : cfg_children (cfg n) !! i = Some c ->
  node c /\ cfg_selfId (cfg c) = i /\ (lvl c < lvl n)%nat.
Proof.
  intros Hc. destruct (wf_down WF n i c Hn Hc) as (Hnc&Hi&Hp).
  destruct (wf_up WF c n Hnc Hp) as (_&?&_). done.
Qed.

Lemma below_ne c m : node c -> parent_of cfg c a = Some (OCache n) -> anc a c m -> m <> n.
Proof. intros Hc Hp Hanc ->. by eapply (anc_not_parent WF). Qed.

(** Writing the entry of [n] for [a] affects neither states nor other entries. *)
Lemma put_entry_facts e s : Base s -> ca_find (arr s n) a = Some l ->
  Base (set_cache n (set_tcc l e) s) /\
  Frame a (eq n) s (set_cache n (set_tcc l e) s) /\
  LockEq s (set_cache n (set_tcc l e) s) /\ Mono a s (set_cache n (set_tcc l e) s).
Proof.
  intros HB Hl. assert (F := Frame_put_entry a n l e s Hl).
  assert (HM : Mono a s (set_cache n (set_tcc l e) s)).
  { intros m _. by rewrite stt_put_entry. }
  split_and!; try done.
  - eapply (Frame_Base HB F). auto.
  - by apply LockEq_set_cache.
Qed.

Lemma Mono_trans s1 s2 s3 : Mono a s1 s2 -> Mono a s2 s3 -> Mono a s1 s3.
Proof. unfold Mono. auto. Qed.

(** One iteration of the loop on a sharer: the child is invalidated, and on an
    [INV] its bit is cleared. *)
Definition after_child (i : nat) s1 : Sys A :=
  match t with
  | INV => set_cache n (set_tcc l (mkEntry (numSharers (tccl s1 n l))
             (sharers (tccl s1 n l) ∖ {[i]}) (exclusive (tccl s1 n l)))) s1
  | _ => s1
  end.

Record StepPost s (i c : nat) s2 : Prop := {
  sp_base : Base s2;
  sp_frame : Frame a (fun m => anc a n m) s s2;
  sp_locks : LockEq s s2;
  sp_mono : Mono a s s2;
  sp_bcc : stt s2 n a = stt s n a;
  sp_tcc : dir s2 n a = mkEntry (numSharers (dir s n a))
     (match t with INV => sharers (dir s n a) ∖ {[i]} | _ => sharers (dir s n a) end)
     (exclusive (dir s n a));
  sp_below : BelowInv s2;
  sp_hit : stt s2 c a = inv_target t;
  sp_miss : forall m, node m -> m <> n -> ~ anc a c m ->
     stt s2 m a = stt s m a /\ dir s2 m a = dir s m a
}.

Lemma step_child s i c s1 r wb :
  Base s -> ca_find (arr s n) a = Some l -> BelowInv s ->
  cfg_children (cfg n) !! i = Some c -> parent_of cfg c a = Some (OCache n) ->
  InvPost fuel c a t cyc wb s r s1 -> StepPost s i c (after_child i s1).
Proof.
  intros HB Hl HBI Hch Hpar (HB1&F&L&Mo&SI&Hst&Hr&Hwb).
  destruct (child_facts i c Hch) as (Hnc&Hself&Hlc).
  assert (Hnn : ~ anc a c n) by by apply (anc_not_parent WF).
  assert (Hsub : forall m, anc a c m -> anc a n m) by (intros m Hm; by eapply anc_snoc).
  assert (Hst1 : stt s1 n a = stt s n a) by (apply (Frame_stt _ _ HB Hn F); auto).
  assert (Hd1 : dir s1 n a = dir s n a) by (apply (Frame_dir _ _ HB Hn F); auto).
  assert (Hl1 : ca_find (arr s1 n) a = Some l) by by rewrite (fr_arr F).
  assert (HBI1 : BelowInv s1).
  { intros m Hm Hne Hanc Htm. destruct (anc_em WF a m c Hm) as [Hcm|Hcm]; [by apply SI|].
    apply (NodeInv_ext WF s s1 Hm); [..|by apply HBI].
    - by apply (Frame_stt _ _ HB Hm F); auto.
    - by apply (Frame_dir _ _ HB Hm F); auto.
    - intros d Hd Hpd. apply (Frame_stt _ _ HB Hd F). right. intros Hcd.
      apply Hcm. inversion Hcd as [|? q Hq Hcq]; subst; by simplify_eq. }
  assert (Hm1 : forall m, node m -> m <> n -> ~ anc a c m ->
     stt s1 m a = stt s m a /\ dir s1 m a = dir s m a).
  { intros m Hm Hne Hnc'. split; [apply (Frame_stt _ _ HB Hm F)|apply (Frame_dir _ _ HB Hm F)]; auto. }
  assert (Fn : Frame a (fun m => anc a n m) s s1) by (eapply Frame_weaken; [|done]; done).
  assert (Hnoput : t <> INV -> StepPost s i c s1).
  { intros Hne. split; try done. rewrite Hd1. destruct t; [done| |done]. by destruct (dir s n a). }
  unfold after_child. destruct t eqn:Et; [|by apply Hnoput..]. clear Hnoput.
  set (e' := mkEntry _ _ _).
  destruct (put_entry_facts e' s1 HB1 Hl1) as (HB2&F2&L2&Mo2).
  split; try done.
  - eapply Frame_trans; [exact Fn|]. eapply Frame_weaken; [|exact F2]. intros m <-. constructor.
  - by eapply LockEq_trans.
  - by eapply Mono_trans.
  - by rewrite stt_put_entry.
  - rewrite (dir_put_entry n l e' a HB1 Hn Ht Hl1).
    unfold e'. by rewrite <- (dir_find s1 n a l Hl1), Hd1, Et.
  - intros m Hm Hne Hanc Htm. apply (NodeInv_ext WF s1 _ Hm); [..|by apply HBI1].
    + by rewrite stt_put_entry.
    + by rewrite dir_put_entry_ne.
    + intros d _ _. by rewrite stt_put_entry.
  - by rewrite stt_put_entry, Et.
  - intros m Hm Hne Hnc'. rewrite stt_put_entry, dir_put_entry_ne by done. by apply Hm1.
Qed.

(** The subtrees of the other children are not below [c]. *)
Lemma sibling_untouched i c j d m :
  cfg_children (cfg n) !! i = Some c -> parent_of cfg c a = Some (OCache n) ->
  cfg_children (cfg n) !! j = Some d -> parent_of cfg d a = Some (OCache n) ->
  j <> i -> node m -> anc a d m -> m <> n /\ ~ anc a c m.
Proof.
  intros Hc Hpc Hd Hpd Hj Hm Hdm.
  destruct (child_facts j d Hd) as (Hnd&Hsj&_). split.
  - intros ->. exact (anc_not_parent WF Hnd Hpd Hdm).
  - intros Hcm. assert (d = c) as -> by by eapply (anc_disjoint WF Hm Hpd Hpc).
    destruct (child_facts i c Hc) as (_&?&_). congruence.
Qed.

Lemma hit_cons e cs i c j d : cfg_children (cfg n) !! i = Some c -> i ∈ sharers e -> i ∉ cs ->
  hit e (i :: cs) j d <-> (j = i /\ d = c) \/ (j <> i /\ hit e cs j d).
Proof.
  intros Hc Hi Hni. unfold hit. rewrite elem_of_cons. split.
  - intros ([->|Hj]&?&?); [left; split; congruence|]. right. split; [|done]. by intros ->.
  - intros [[-> ->]|(?&?&?&?)]; auto.
Qed.

(** The entry after one iteration has the same sharers among the rest. *)
Lemma hit_step s i c s2 cs j d : StepPost s i c s2 -> i ∉ cs ->
  hit (dir s2 n a) cs j d <-> j <> i /\ hit (dir s n a) cs j d.
Proof.
  intros SP Hni. unfold hit. rewrite (sp_tcc _ _ _ _ SP). cbn [sharers]. split.
  - intros (Hj&Hs&Hd). split; [by intros ->|]. split_and!; try done.
    destruct t; [by apply elem_of_difference in Hs as [? _]|done..].
  - intros (Hne&Hj&Hs&Hd). split_and!; try done.
    destruct t; [|done..]. apply elem_of_difference. split; [done|]. by intros ->%elem_of_singleton.
Qed.

Lemma filter_diff (S : gset nat) (i : nat) (cs : list nat) : i ∉ cs ->
  filter (fun j => j ∈ S ∖ {[i]}) cs = filter (fun j => j ∈ S) cs.
Proof.
  induction cs as [|j cs IHcs]; [done|]. intros Hni.
  apply not_elem_of_cons in Hni as [Hne Hni]. rewrite !filter_cons, (IHcs Hni).
  destruct (decide (j ∈ S ∖ {[i]})) as [Hd|Hd], (decide (j ∈ S)) as [Hs|Hs]; try done.
  - by apply elem_of_difference in Hd as [? _].
  - destruct Hd. apply elem_of_difference. split; [done|]. by intros ->%elem_of_singleton.
Qed.

Lemma filter_step s i c s2 (cs : list nat) : StepPost s i c s2 -> i ∉ cs ->
  filter (fun j => j ∈ sharers (dir s2 n a)) cs = filter (fun j => j ∈ sharers (dir s n a)) cs.
Proof.
  intros SP Hni. rewrite (sp_tcc _ _ _ _ SP). cbn [sharers].
  destruct t; [by apply filter_diff|done..].
Qed.

Lemma loop_cons_hit s i c s2 s3 cs mx mx2 wb wb1 sent r :
  StepPost s i c s2 -> i ∉ cs ->
  cfg_children (cfg n) !! i = Some c -> parent_of cfg c a = Some (OCache n) ->
  i ∈ sharers (dir s n a) -> SharersOK s (dir s n a) (i :: cs) -> mx <= mx2 ->
  (wb1 = true <-> wb = true \/ exists m, node m /\ anc a c m /\ stt s m a = StM) ->
  LoopPost s2 (dir s2 n a) cs mx2 wb1 (sent + 1) r s3 ->
  LoopPost s (dir s n a) (i :: cs) mx wb sent r s3.
Proof.
  intros SP Hni Hch Hpar Hi HS Hmx Hwb [P1 P2 P3 P4 P5 P6 P7 P8 P9 P10 P11 P12].
  assert (Hsib : forall j d m, hit (dir s2 n a) cs j d -> node m -> anc a d m ->
            stt s2 m a = stt s m a).
  { intros j d m Hh Hm Hanc. apply (hit_step s i c s2) in Hh as (Hne&Hj&Hs&Hd); [|done..].
    destruct (HS j) as (d'&Hd'&Hpd&_); [by apply elem_of_cons; right|done|]. simplify_eq.
    destruct (sibling_untouched i c j d m) as [??]; [done..|]. by apply (sp_miss _ _ _ _ SP). }
  split.
  - done.
  - eapply Frame_trans; [apply SP|done].
  - eapply LockEq_trans; [apply SP|done].
  - eapply Mono_trans; [apply SP|done].
  - rewrite P5. apply SP.
  - rewrite P6, (sp_tcc _ _ _ _ SP). cbn [numSharers sharers exclusive list_to_set].
    destruct t; [|done..]. by rewrite difference_difference_l_L.
  - done.
  - intros j d [[-> ->]|[Hne Hj]]%(hit_cons _ _ i c);
      [|by apply (P8 j), (hit_step s i c s2)|done..].
    destruct (P9 c c) as [-> _]; [by eapply child_facts|done|constructor| |apply SP].
    intros Hh. destruct (child_facts i c Hch) as (_&Hs&_). rewrite Hs in Hh.
    by apply (hit_step s i c s2) in Hh as [? _].
  - intros d m Hm Hpd Hdm Hnh.
    assert (Hnd : node d) by exact (anc_node WF Hdm Hm).
    destruct (parent_up WF d n a Hnd Hpd) as (_&_&_&Hcd).
    assert (Hdi : cfg_selfId (cfg d) <> i).
    { intros Heq. assert (d = c) as -> by congruence. rewrite Heq in Hnh.
      apply Hnh, (hit_cons _ _ i c); auto. }
    destruct (sibling_untouched i c (cfg_selfId (cfg d)) d m) as [Hmn Hmc]; [done..|].
    destruct (sp_miss _ _ _ _ SP m Hm Hmn Hmc) as [<- <-]. apply (P9 d); try done.
    intros Hh. apply (hit_step s i c s2) in Hh as [? Hh]; [|done..].
    apply Hnh, (hit_cons _ _ i c); auto.
  - lia.
  - rewrite P11, (filter_step s i c s2 cs), filter_cons_True by done. cbn [length]. lia.
  - rewrite P12, Hwb. split.
    + intros [[?|(m&?&?&?)]|(j&d&m&Hh&Hm&Hanc&Hst)].
      * by left.
      * right. exists i, c, m. split_and!; try done. apply (hit_cons _ _ i c); auto.
      * right. exists j, d, m. rewrite <- (Hsib j d m) by done. split_and!; try done.
        apply (hit_step s i c s2) in Hh as [? Hh]; [|done..]. apply (hit_cons _ _ i c); auto.
    + intros [?|(j&d&m&Hh&Hm&Hanc&Hst)]; [by left; left|].
      apply (hit_cons _ _ i c) in Hh as [[-> ->]|[Hne Hh]]; [|..|done|done|done].
      * left. right. eauto.
      * right. exists j, d, m. assert (Hh2 : hit (dir s2 n a) cs j d) by by apply (hit_step s i c s2).
        by rewrite (Hsib j d m).
Qed.

Lemma loop_cons_miss s i s3 cs mx wb sent r :
  i ∉ sharers (dir s n a) ->
  LoopPost s (dir s n a) cs mx wb sent r s3 -> LoopPost s (dir s n a) (i :: cs) mx wb sent r s3.
Proof.
  intros Hi [P1 P2 P3 P4 P5 P6 P7 P8 P9 P10 P11 P12].
  assert (Hh : forall j d, hit (dir s n a) (i :: cs) j d <-> hit (dir s n a) cs j d).
  { intros j d. unfold hit. rewrite elem_of_cons. split; [|tauto].
    intros ([->|?]&?&?); [done|auto]. }
  split; try done.
  - rewrite P6. f_equal. destruct t; [|done..]. cbn [list_to_set].
    rewrite <- difference_difference_l_L. f_equal. symmetry. apply difference_disjoint_L. set_solver.
  - intros j d. rewrite Hh. apply P8.
  - intros d m Hm Hpd Hdm Hnh. apply (P9 d); try done. by rewrite <- Hh.
  - by rewrite P11, filter_cons_False by done.
  - rewrite P12. by setoid_rewrite Hh.
Qed.

Lemma loop_spec cs s mx wb sent :
  NoDup cs -> Base s -> ca_find (arr s n) a = Some l ->
  SharersOK s (dir s n a) cs -> BelowInv s -> BelowFree s ->
  cyc <= mx <= cyc + 2 * K * Z.of_nat fuel + K ->
  0 <= sent -> sent + Z.of_nat (length cs) < two32 ->
  wp (sendInv_loop cfg inv n a l t cyc src cs mx wb sent)
     (LoopPost s (dir s n a) cs mx wb sent) s.
Proof.
  revert s mx wb sent. induction cs as [|i cs IHcs]; intros s mx wb sent Hnd HB Hl HS HBI HBF Hmx Hs Hs'.
  - apply wp_ret. split; try done; cbn [fst snd].
    + intros m _. done.
    + destruct (dir s n a) as [k S x]. cbn.
      destruct t; [|done..]. by rewrite difference_empty_L.
    + intros j c (Hj&_). by apply elem_of_nil in Hj.
    + lia.
    + rewrite filter_nil. cbn [length]. lia.
    + split; [by left|]. intros [?|(j&c&m&(Hj&_)&_)]; [done|].
      by apply elem_of_nil in Hj.
  - apply list.NoDup_cons in Hnd as [Hi Hnd]. cbn [sendInv_loop].
    apply wp_bind. apply wp_get_entry; [by eapply find_tlt|].
    rewrite <- (dir_find s n a l Hl).
    case_bool_decide as Hsh.
    + destruct (HS i) as (c&Hch&Hpar&Hv&HEM); [apply list_elem_of_here|done|].
      destruct (child_facts i c Hch) as (Hnc&Hself&Hlc).
      apply wp_bind. eapply wp_from_opt; [done|].
      apply wp_bind. eapply wp_mono; [apply IH|].
      { pose proof (wf_K WF). split_and!; try done; try lia.
        - intros m Hm Hanc Htm. apply HBI; [done| |by eapply anc_snoc|done].
          intros ->. exact (anc_not_parent WF Hnc Hpar Hanc).
        - intros m Hm Hanc. apply HBF; [done| |by eapply anc_snoc].
          intros ->. exact (anc_not_parent WF Hnc Hpar Hanc). }
      intros [r wb'] s1 Hpost.
      assert (Hstep := step_child s i c s1 _ _ HB Hl HBI Hch Hpar Hpost).
      destruct Hpost as (HB1&F1&_&_&_&_&Hr&Hwb). cbn [fst snd] in *.
      destruct (rtt_child WF n i c Hn Hch) as (rtt&Hrtt&Hrb).
      apply wp_bind. eapply wp_arr_get; [done|].
      assert (Hl1 : ca_find (arr s1 n) a = Some l) by by rewrite (fr_arr F1).
      apply wp_bind. apply wp_get_entry; [by eapply find_tlt|].
      apply wp_bind. apply (wp_mono _ (fun _ s2 => s2 = after_child i s1)).
      { unfold after_child. destruct t; by apply wp_modify || by apply wp_ret. }
      intros [] s2 ->. destruct Hstep as [HB2 F2 L2 Mo2 Hst2 Hd2 HBI2 Hhit2 Hmiss2].
      set (s2 := after_child i s1) in *.
      assert (Hl2 : ca_find (arr s2 n) a = Some l) by by rewrite (fr_arr F2).
      assert (Hru : u64 (r + rtt) = r + rtt).
      { apply u64_small. pose proof (wf_K WF). lia. }
      assert (Hsu : u32 (sent + 1) = sent + 1).
      { apply u32_small. simpl in Hs'. lia. }
      rewrite Hru, Hsu, MAX_max.
      eapply wp_mono; [apply IHcs|].
      * done.
      * done.
      * done.
      * rewrite Hd2. intros j Hj Hjs. cbn [sharers] in Hjs.
        assert (j <> i) by (intros ->; done).
        destruct (HS j) as (d&Hd&Hpd&Hvd&HEd).
        { by apply elem_of_cons; right. }
        { destruct t; [by apply elem_of_difference in Hjs as [? _]|done..]. }
        exists d. destruct (child_facts j d Hd) as (Hnd'&_).
        destruct (sibling_untouched i c j d d) as [Hdn Hdc]; [done..|constructor|].
        destruct (Hmiss2 d) as [-> _]; done.
      * done.
      * intros m Hm Hne Hanc. rewrite (le_bcc _ _ L2), (le_filter _ _ L2). by apply HBF.
      * lia.
      * lia.
      * simpl in Hs'. lia.
      * intros r3 s3 LP. apply (loop_cons_hit s i c s2 s3 cs mx (Z.max (r + rtt) mx) wb wb' sent); try done. lia.
    + eapply wp_mono; [apply IHcs|]; try done.
      * intros j Hj. apply HS. by apply elem_of_cons; right.
      * simpl in Hs'. lia.
      * intros r s' LP. by apply loop_cons_miss.
Qed.

(** ** [sendInvalidates] *)
Definition SendSharers s (e : Entry) : Prop :=
  forall i, i ∈ sharers e -> exists c,
    cfg_children (cfg n) !! i = Some c /\ parent_of cfg c a = Some (OCache n) /\
    stt s c a <> StI /\ (t = INVX -> (isExclusive e = true <-> EM (stt s c a))).

Definition is_sharer (e : Entry) (c : nat) : Prop :=
  cfg_selfId (cfg c) ∈ sharers e /\ cfg_children (cfg n) !! cfg_selfId (cfg c) = Some c.

Definition send_entry (e : Entry) : Entry :=
  match t with
  | INV => mkEntry 0 ∅ (exclusive e)
  | _ => if isExclusive e then mkEntry (numSharers e) (sharers e) false else e
  end.

Record SendPost s (wb : bool) (r : Z * bool) s' : Prop := {
  se_base : Base s';
  se_frame : Frame a (fun m => anc a n m) s s';
  se_locks : LockEq s s';
  se_mono : Mono a s s';
  se_bcc : stt s' n a = stt s n a;
  se_tcc : dir s' n a = send_entry (dir s n a);
  se_below : BelowInv s';
  se_hit : forall c, is_sharer (dir s n a) c -> t = INV \/ isExclusive (dir s n a) = true ->
      stt s' c a = inv_target t;
  se_miss : forall c m, node m -> parent_of cfg c a = Some (OCache n) -> anc a c m ->
      cfg_selfId (cfg c) ∉ sharers (dir s n a) \/ (t = INVX /\ isExclusive (dir s n a) = false) ->
      stt s' m a = stt s m a /\ dir s' m a = dir s m a;
  se_cyc : cyc <= r.1 <= cyc + 2 * K * Z.of_nat fuel + K;
  se_wb : r.2 = true <-> wb = true \/
      exists c m, is_sharer (dir s n a) c /\ node m /\ anc a c m /\ stt s m a = StM
}.

(** Exclusivity goes up inside a consistent subtree. *)
Lemma below_EM s c m : BelowInv s -> node c -> parent_of cfg c a = Some (OCache n) ->
  node m -> anc a c m -> EM (stt s m a) -> EM (stt s c a).
Proof.
  intros HBI Hc Hp Hm Hanc. revert Hm. induction Hanc as [|m q Hq Hanc IHa]; intros Hm; [done|].
  intros HE. destruct (parent_up WF m q a Hm Hq) as (Hnq&_&Htq&_). apply IHa; [done|].
  assert (N : NodeInv s q a).
  { apply HBI; [done| |by eapply anc_snoc|done].
    intros ->. exact (anc_not_parent WF Hc Hp Hanc). }
  apply (ni_inclEM N), (ni_excl N m); done.
Qed.

Lemma size_filter (S : gset nat) (cs : list nat) : NoDup cs -> (forall i, i ∈ S -> i ∈ cs) ->
  length (filter (fun i => i ∈ S) cs) = size S.
Proof.
  intros Hnd Hsub. rewrite <- (size_list_to_set (C:=gset nat)) by by apply list.NoDup_filter.
  f_equal. apply set_eq. intros i. rewrite elem_of_list_to_set, list_elem_of_filter. naive_solver.
Qed.

(** The bookkeeping after the loop. *)
Lemma send_finish s wb cs r s1 :
  ca_find (arr s n) a = Some l ->
  (forall i, i ∈ sharers (dir s n a) -> i ∈ cs) ->
  t = INV \/ (t = INVX /\ isExclusive (dir s n a) = true) ->
  LoopPost s (dir s n a) cs cyc wb 0 r s1 ->
  SendPost s wb r.1 (set_cache n (set_tcc l (send_entry (dir s n a))) s1).
Proof.
  intros Hl Hcs Hact [P1 P2 P3 P4 P5 P6 P7 P8 P9 P10 P11 P12].
  assert (Hl1 : ca_find (arr s1 n) a = Some l) by by rewrite (fr_arr P2).
  set (e' := send_entry (dir s n a)).
  destruct (put_entry_facts e' s1 P1 Hl1) as (HB2&F2&L2&Mo2).
  assert (Hhit : forall c, is_sharer (dir s n a) c <-> hit (dir s n a) cs (cfg_selfId (cfg c)) c).
  { intros c. unfold is_sharer, hit. split; [|tauto]. intros [??]. auto. }
  split.
  - done.
  - eapply Frame_trans; [exact P2|]. eapply Frame_weaken; [|exact F2]. intros m <-. constructor.
  - by eapply LockEq_trans.
  - by eapply Mono_trans.
  - by rewrite stt_put_entry.
  - by rewrite (dir_put_entry n l e' a P1 Hn Ht Hl1).
  - intros m Hm Hne Hanc Htm. apply (NodeInv_ext WF s1 _ Hm); [..|by apply P7].
    + by rewrite stt_put_entry.
    + by rewrite dir_put_entry_ne.
    + intros d _ _. by rewrite stt_put_entry.
  - intros c Hc _. rewrite stt_put_entry. by apply (P8 (cfg_selfId (cfg c))), Hhit.
  - intros c m Hm Hp Hcm Hor. rewrite stt_put_entry, dir_put_entry_ne.
    + apply (P9 c); try done. intros (_&Hs&_). destruct Hor as [?|[-> Hex]]; [done|].
      destruct Hact as [?|[_ ?]]; congruence.
    + intros ->. exact (anc_not_parent WF (anc_node WF Hcm Hm) Hp Hcm).
  - exact P10.
  - rewrite P12. split.
    + intros [?|(i&c&m&Hh&?)]; [by left|]. right. exists c, m. rewrite Hhit.
      destruct (child_facts i c) as (_&Hs&_); [apply Hh|]. by rewrite Hs.
    + intros [?|(c&m&Hh&?)]; [by left|]. right. exists (cfg_selfId (cfg c)), c, m.
      by rewrite <- Hhit.
Qed.

Lemma send_spec s wb :
  Base s -> ca_find (arr s n) a = Some l ->
  numSharers (dir s n a) = Z.of_nat (size (sharers (dir s n a))) ->
  SendSharers s (dir s n a) -> BelowInv s -> BelowFree s ->
  wp (sendInvalidates cfg inv n a l t wb cyc src) (SendPost s wb) s.
Proof.
  intros HB Hl Hsz HS HBI HBF. pose proof (wf_K WF) as HK.
  unfold sendInvalidates. apply wp_bind, wp_get_entry; [by eapply find_tlt|].
  rewrite <- (dir_find s n a l Hl).
  assert (Hnone : (t = INVX /\ isExclusive (dir s n a) = false) \/ sharers (dir s n a) = ∅ -> SendPost s wb (cyc, wb) s).
  { intros Hor. split; try done; cbn [fst snd].
    - intros m _. done.
    - unfold send_entry. destruct Hor as [[Ht' Hex]|Hemp]; [by rewrite Ht', Hex|].
      rewrite Hemp, size_empty in Hsz. destruct (dir s n a) as [k S x]. cbn in *. subst.
      by destruct t.
    - intros c [Hc _]. destruct Hor as [[Ht' Hex]|Hemp]; [rewrite Ht', Hex; by intros [?|?]|].
      rewrite Hemp in Hc. by apply not_elem_of_empty in Hc.
    - lia.
    - split; [by left|]. intros [?|(c&m&[Hc Hch]&Hm&Hcm&Hst)]; [done|]. exfalso.
      destruct Hor as [[Ht' Hex]|Hemp].
      + destruct (HS _ Hc) as (c'&Hc'&Hp&Hv&HE). rewrite Hch in Hc'. injection Hc' as <-.
        destruct (child_facts _ _ Hch) as (Hnc&_). rewrite Hex in HE.
        assert (EM (stt s c a)) as HEM%(HE Ht'); [|done].
        apply (below_EM s c m); try done. by right.
      + rewrite Hemp in Hc. by apply not_elem_of_empty in Hc. }
  destruct (bool_decide (t = INVX) && negb (isExclusive (dir s n a))) eqn:Hskip.
  { apply wp_ret, Hnone. left. apply andb_true_iff in Hskip as [Hs1%bool_decide_eq_true Hs2].
    split; [done|]. by apply negb_true_iff. }
  destruct (isEmpty (dir s n a)) eqn:Hemp.
  { apply wp_ret, Hnone. right. unfold isEmpty in Hemp. apply Z.eqb_eq in Hemp.
    rewrite Hsz in Hemp. apply leibniz_equiv, size_empty_inv. lia. }
  assert (Hact : t = INV \/ (t = INVX /\ isExclusive (dir s n a) = true)).
  { destruct t; [by left| |done]. right. split; [done|].
    destruct (isExclusive (dir s n a)); [done|]. by rewrite bool_decide_eq_true_2 in Hskip. }
  set (cs := seq 0 (length (cfg_children (cfg n)))).
  assert (Hcs : forall i, i ∈ sharers (dir s n a) -> i ∈ cs).
  { intros i Hi. destruct (HS i Hi) as (c&Hch&_). apply elem_of_seq.
    apply lookup_lt_Some in Hch. lia. }
  apply wp_bind. eapply wp_mono; [apply loop_spec|]; try done.
  - apply NoDup_seq.
  - intros i _ Hi. destruct (HS i Hi) as (c&Hch&Hp&Hv&HE). exists c. split_and!; try done.
    intros Ht'. apply HE; [done|]. destruct Hact as [->|[_ ?]]; done.
  - lia.
  - unfold cs. rewrite length_seq. pose proof (wf_maxChildren WF n Hn).
    unfold MAX_CACHE_CHILDREN in *. unfold two32. lia.
  - intros [[mx wb'] sent] s1 LP.
    assert (Hl1 : ca_find (arr s1 n) a = Some l) by by rewrite (fr_arr (lp_frame _ _ _ _ _ _ _ _ LP)).
    assert (HB1 := lp_base _ _ _ _ _ _ _ _ LP).
    assert (Hd1 := lp_tcc _ _ _ _ _ _ _ _ LP). rewrite (dir_find s1 n a l Hl1) in Hd1.
    assert (Hsent := lp_sent _ _ _ _ _ _ _ _ LP). cbn [fst snd] in Hsent.
    rewrite size_filter, <- Hsz in Hsent; [|apply NoDup_seq|done].
    assert (HSP := send_finish s wb cs _ s1 Hl Hcs Hact LP). cbn [fst] in HSP.
    apply wp_bind, wp_get_entry; [by eapply find_tlt|]. rewrite Hd1.
    apply wp_bind, wp_assert; [apply Z.eqb_eq; cbn; lia|].
    cbn [numSharers sharers exclusive]. unfold send_entry in HSP.
    destruct Hact as [->|[-> Hex]]; cbn in HSP |- *.
    + apply wp_bind, wp_modify, wp_ret.
      replace (sharers (dir s n a) ∖ list_to_set cs) with (∅ : gset nat); [done|].
      apply set_eq. intros i. rewrite elem_of_difference, elem_of_list_to_set. set_solver.
    + rewrite Hex in HSP. apply andb_true_iff in Hex as [Hn1 Hexcl].
      apply wp_bind. apply wp_bind, wp_assert; [done|]. apply wp_bind, wp_assert; [done|].
      apply wp_modify, wp_ret. done.
Qed.

(** What [sendInvalidates] needs, from the invariant of the node. *)
Lemma NodeInv_SendSharers s : NodeInv s n a -> SendSharers s (dir s n a).
Proof.
  intros N i Hi. destruct (ni_child N i Hi) as (c&Hch&Hp&Hv). exists c. split_and!; try done.
  destruct (child_facts i c Hch) as (Hnc&_). intros _. split.
  - intros Hex. by apply (ni_exclEM N).
  - by apply (ni_excl N).
Qed.

Lemma send_entry_not_exclusive e : isExclusive (send_entry e) = false.
Proof.
  unfold send_entry. destruct t; [done|..];
    (destruct (isExclusive e) eqn:He; [unfold isExclusive; apply andb_false_r|done]).
Qed.

(** The node is consistent again after [sendInvalidates], with any state of its
    own line that the invalidation allows. *)
Lemma send_NodeInv s wb r s1 s2 :
  NodeInv s n a -> SendPost s wb r s1 ->
  dir s2 n a = dir s1 n a -> (stt s2 n a <> StI \/ t = INV) ->
  (forall c, node c -> parent_of cfg c a = Some (OCache n) -> stt s2 c a = stt s1 c a) ->
  NodeInv s2 n a.
Proof.
  intros N SP Hd Hst Hch.
  assert (Hsh : forall c, node c -> parent_of cfg c a = Some (OCache n) -> stt s1 c a <> StI ->
            cfg_selfId (cfg c) ∈ sharers (dir s n a)).
  { intros c Hc Hp Hv. apply (ni_sharer N c Hc Hp). by apply (se_mono _ _ _ _ SP). }
  assert (Hsub : forall c, node c -> parent_of cfg c a = Some (OCache n) ->
            cfg_selfId (cfg c) ∈ sharers (dir s n a) -> is_sharer (dir s n a) c).
  { intros c Hc Hp Hv. split; [done|]. by apply (parent_up WF c n a). }
  assert (Hnex := send_entry_not_exclusive (dir s n a)).
  assert (Htc := se_tcc _ _ _ _ SP).
  assert (Hfinal : forall c, node c -> parent_of cfg c a = Some (OCache n) -> stt s1 c a <> StI ->
            t <> INV /\ ~ EM (stt s1 c a)).
  { intros c Hc Hp Hv. pose proof (Hsub c Hc Hp (Hsh c Hc Hp Hv)) as His.
    assert (t <> INV).
    { intros Et. rewrite (se_hit _ _ _ _ SP c) in Hv; [|done|by left]. by rewrite Et in Hv. }
    split; [done|]. destruct (isExclusive (dir s n a)) eqn:Hex.
    - rewrite (se_hit _ _ _ _ SP c) by (done || by right). destruct t; [done|..]; by intros [?|?].
    - destruct (se_miss _ _ _ _ SP c c) as [-> _]; [done|done|constructor| |].
      + right. split; [|done]. destruct t; done.
      + intros HE. pose proof (ni_excl N c Hc Hp HE). congruence. }
  split; rewrite ?Hd, ?Htc, ?Hnex; try done.
  - pose proof (ni_size N). unfold send_entry. destruct t; [cbn; by rewrite size_empty|..];
      by destruct (isExclusive (dir s n a)).
  - intros i Hi. assert (Hi' : t <> INV /\ i ∈ sharers (dir s n a)).
    { unfold send_entry in Hi. destruct t; [set_solver|..];
        (split; [done|]; by destruct (isExclusive (dir s n a))). }
    destruct Hi' as [Hti Hi']. destruct (ni_child N i Hi') as (c&Hc&Hp&Hv). exists c.
    destruct (child_facts i c Hc) as (Hnc&Hs&_). split_and!; try done. rewrite Hch by done.
    destruct (isExclusive (dir s n a)) eqn:Hex.
    + rewrite (se_hit _ _ _ _ SP c); [by destruct t|split; by rewrite Hs|by right].
    + destruct (se_miss _ _ _ _ SP c c) as [-> _]; try done; [constructor|].
      right. split; [|done]. destruct t; done.
  - intros c Hc Hp. rewrite Hch by done. intros Hv. destruct (Hfinal c Hc Hp Hv) as [Hti _].
    pose proof (Hsh c Hc Hp Hv). unfold send_entry. destruct t; [done|..];
      by destruct (isExclusive (dir s n a)).
  - intros c Hc Hp. rewrite Hch by done. intros HE. exfalso.
    destruct (Hfinal c Hc Hp) as [_ ?]; [|done]. by destruct HE as [-> | ->].
  - intros Hne. destruct Hst as [?|Et]; [done|]. unfold send_entry in Hne. by rewrite Et in Hne.
  - pose proof (ni_flag N). unfold send_entry. destruct t; [by intros _|..];
      by destruct (isExclusive (dir s n a)).
Qed.

(** A dirty copy below [n] is below a sharer. *)
Lemma dirty_below s m : NodeInv s n a -> BelowInv s -> node m -> m <> n -> anc a n m ->
  stt s m a = StM -> exists c, is_sharer (dir s n a) c /\ anc a c m.
Proof.
  intros N HBI Hm Hne Hanc Hst. destruct (anc_inv Hanc Hne) as (c&Hp&Hc).
  assert (Hnc := anc_node WF Hc Hm). exists c. split; [|done].
  destruct (parent_up WF c n a Hnc Hp) as (_&_&_&Hch). split; [|done].
  apply (ni_sharer N c); try done.
  assert (EM (stt s c a)) as [-> | ->]; [|done..].
  apply (below_EM s c m); try done. by right.
Qed.

Lemma send_wb s wb r s1 : NodeInv s n a -> BelowInv s -> SendPost s wb r s1 ->
  (r.2 = true <-> wb = true \/ exists m, node m /\ m <> n /\ anc a n m /\ stt s m a = StM).
Proof.
  intros N HBI SP. rewrite (se_wb _ _ _ _ SP). split.
  - intros [?|(c&m&[Hs Hch]&Hm&Hcm&Hst)]; [by left|]. right. exists m.
    destruct (child_facts _ c Hch) as (Hnc&_&_).
    destruct (ni_child N _ Hs) as (c'&Hch'&Hp&_). assert (c' = c) as -> by congruence.
    split_and!; try done; [|by eapply anc_snoc].
    intros ->. exact (anc_not_parent WF Hnc Hp Hcm).
  - intros [?|(m&Hm&Hne&Hanc&Hst)]; [by left|]. right.
    destruct (dirty_below s m) as (c&Hs&Hcm); try done. by exists c, m.
Qed.

End Loop.

#[local] Arguments send_NodeInv {_ _ _ _ _} _ _ {_ _ _ _} _ _ _ _ _ _.
#[local] Arguments send_wb {_ _ _ _ _} _ {_ _ _ _} _ _ _.
#[local] Arguments se_base {_ _ _ _ _ _ _ _ _} _.
#[local] Arguments se_frame {_ _ _ _ _ _ _ _ _} _.
#[local] Arguments se_cyc {_ _ _ _ _ _ _ _ _} _.
#[local] Arguments se_bcc {_ _ _ _ _ _ _ _ _} _.
#[local] Arguments se_below {_ _ _ _ _ _ _ _ _} _ _ _ _ _ _.
#[local] Arguments se_mono {_ _ _ _ _ _ _ _ _} _ _ _ _.

(** ** [processInval] of the bottom controller *)
Lemma Same_set_lock r (x : bool) s : Same s (set_lock r x s).
Proof. destruct r; by apply Same_set_cache. Qed.

Lemma bcc_inval_spec n a l t wb s :
  Base s -> node n -> ca_find (arr s n) a = Some l -> stt s n a <> StI -> t <> FWD ->
  (t = INVX -> EM (stt s n a)) ->
  wp (bcc_processInval n l t wb) (fun wb' s' =>
    Base s' /\ Frame a (eq n) s s' /\ LockEq s s' /\
    (forall m b, stt s' m b = if decide (m = n /\ b = a) then inv_target t else stt s m b) /\
    (forall m b, dir s' m b = dir s m b) /\
    wb' = bool_decide (stt s n a = StM) || wb) s.
Proof.
  intros HB Hn Hl Hv Ht HE.
  assert (Hcore : forall k, let s' := set_cache n (add_prof k 1) (set_cache n (set_bcc l (inv_target t)) s) in
    Base s' /\ Frame a (eq n) s s' /\ LockEq s s' /\
    (forall m b, stt s' m b = if decide (m = n /\ b = a) then inv_target t else stt s m b) /\
    (forall m b, dir s' m b = dir s m b)).
  { intros k s'.
    assert (S1 : Same (set_cache n (set_bcc l (inv_target t)) s) s') by by apply Same_set_cache.
    assert (F1 := Frame_put_bcc a n l (inv_target t) s Hl).
    assert (F : Frame a (eq n) s s') by (eapply Frame_trans; [done|by apply Same_Frame]).
    assert (Hst : forall m b, node m -> stt s' m b = if decide (m = n /\ b = a) then inv_target t else stt s m b).
    { intros m b Hm. case_decide as Hd.
      - destruct Hd as [-> ->]. rewrite (Same_stt _ _ _ _ S1). exact (stt_put_bcc n l (inv_target t) a HB Hn Hl).
      - apply (Frame_stt _ _ HB Hm F). destruct (decide (b = a)); [|by left]. right. intros <-. auto. }
    split_and!.
    - apply (Frame_Base HB F). intros m Hm. rewrite Hst by done. case_decide as Hd; [|by left].
      destruct Hd as [-> _]. by left.
    - done.
    - eapply LockEq_trans; by apply LockEq_set_cache.
    - intros m b. rewrite (Same_stt _ _ _ _ S1). destruct (decide (m = n)) as [->|Hne].
      + rewrite <- (Hst n b Hn). by rewrite (Same_stt _ _ _ _ S1).
      + rewrite stt_put_bcc_ne by done. case_decide; naive_solver.
    - intros m b. by rewrite (Same_dir _ _ _ _ S1), dir_put_bcc. }
  unfold bcc_processInval. apply wp_bind, wp_get_bcc; [by eapply find_lt|].
  rewrite <- (stt_find s n a l Hl).
  apply wp_bind, wp_assert; [by apply bool_decide_eq_true|].
  destruct t; [| |done].
  - unfold put_bcc, prof_inc. repeat wp_step. destruct (Hcore profINV) as (?&?&?&?&?). by split_and!.
  - apply wp_bind, wp_assert; [destruct (HE eq_refl) as [-> | ->]; done|].
    unfold put_bcc, prof_inc. repeat wp_step. destruct (Hcore profINVX) as (?&?&?&?&?). by split_and!.
Qed.

(** ** [invalidate] *)
Lemma LockEq_bcc n s s3 : c_bccLock (sys_caches s n) = false ->
  LockEq (set_lock (LkBcc n) true s) s3 -> LockEq s (set_lock (LkBcc n) false s3).
Proof.
  intros Hf [L1 L2 L3].
  split; intros m; specialize (L1 m); specialize (L2 m); specialize (L3 m); simpl in *;
    unfold upd in *; case_decide; subst; simpl in *; congruence.
Qed.
Lemma LockEq_bcc_filter n s s3 : c_bccLock (sys_caches s n) = false ->
  filterLock (c_filter (sys_caches s n)) = false ->
  LockEq (set_lock (LkFilter n) true (set_lock (LkBcc n) true s)) s3 ->
  LockEq s (set_lock (LkFilter n) false (set_lock (LkBcc n) false s3)).
Proof.
  intros Hf Hf' [L1 L2 L3].
  split; intros m; specialize (L1 m); specialize (L2 m); specialize (L3 m); simpl in *;
    unfold upd in *; repeat (case_decide; subst; simpl in *); congruence.
Qed.

Lemma wp_futex_lock r (Q : unit -> Sys A -> Prop) s :
  lock_held r s = false -> Q tt (set_lock r true s) -> wp (futex_lock r) Q s.
Proof. intros Hf HQ. unfold futex_lock. repeat wp_step. by rewrite Hf. Qed.

Lemma wp_lookup_quiet n a (Q : option nat -> Sys A -> Prop) s :
  Base s -> node n -> aok a ->
  (forall s', Same s s' -> LockEq s s' -> Q (ca_find (arr s n) a) s') ->
  wp (array_lookup n a None false) Q s.
Proof.
  intros HB Hn Ha HQ. unfold array_lookup. repeat wp_step.
  apply wp_lift. eapply rwp_ok; [apply ca_lookup_ok|].
  - by apply (b_wf HB).
  - by apply (b_addr HB).
  - repeat wp_step. apply HQ; [by apply Same_set_array|by apply LockEq_set_cache].
Qed.

Lemma filter_invalidate_spec n a s : Base s -> node n -> term n = true ->
  wp (filter_invalidate cfg n a) (fun _ s' => Same s s' /\ LockEq s s') s.
Proof.
  intros HB Hn Ht. unfold filter_invalidate. repeat wp_step.
  pose proof (wf_mask WF n Hn) as Hm. pose proof (b_filter HB n Hn Ht) as Hf.
  set (idx := Z.to_nat _).
  assert (Hidx : (idx < length (filterArray (c_filter (sys_caches s n))))%nat).
  { unfold idx. rewrite Z.land_comm. pose proof (land_le_l (cfg_filterSetMask (cfg n)) a Hm). lia. }
  destruct (lookup_lt_is_Some_2 _ _ Hidx) as [fe Hfe].
  eapply wp_arr_get; [done|]. destruct (Z.eqb _ _).
  - apply wp_modify. split.
    + apply Same_set_cache; try done. intros k. simpl. by rewrite length_insert.
    + by apply LockEq_set_cache.
  - apply wp_ret. split; [apply Same_refl|apply LockEq_refl].
Qed.

(** The part of an invalidation under the lock of the bottom controller: lookup,
    the children, the line itself. *)
Record CorePost n a t cyc (fuel : nat) (wb : bool) s (r : Z * bool) s' : Prop := {
  cp_base : Base s';
  cp_frame : Frame a (fun m => anc a n m) s s';
  cp_locks : LockEq s s';
  cp_mono : Mono a s s';
  cp_sub : SubInv s' n a;
  cp_stt : stt s' n a = inv_target t;
  cp_cyc : cyc <= r.1 <= cyc + 2 * K * Z.of_nat fuel;
  cp_wb : r.2 = true <-> wb = true \/ exists m, node m /\ anc a n m /\ stt s m a = StM
}.

Lemma terminal_anc n a m : node n -> term n = true -> node m -> anc a n m -> m = n.
Proof.
  intros Hn Ht Hm Hanc. destruct (decide (m = n)) as [|Hne]; [done|].
  destruct (anc_inv Hanc Hne) as (c&Hp&Hc).
  destruct (parent_up WF c n a (anc_node WF Hc Hm) Hp) as (_&_&?&_). congruence.
Qed.

(** Writing the state of the invalidated line after its subtree was. *)
Lemma core_finish n a l t cyc fuel wb s0 s r s' :
  node n -> ca_find (arr s n) a = Some l -> Base s -> stt s n a <> StI -> t <> FWD ->
  (t = INVX -> EM (stt s n a)) ->
  Base s0 -> Frame a (fun m => anc a n m) s0 s -> LockEq s0 s -> Mono a s0 s -> stt s n a = stt s0 n a ->
  (forall s', stt s' n a = inv_target t -> (forall m, m <> n -> stt s' m a = stt s m a) ->
     (forall m, dir s' m a = dir s m a) -> SubInv s' n a) ->
  cyc <= r.1 <= cyc + 2 * K * Z.of_nat fuel ->
  (r.2 = true <-> wb = true \/ exists m, node m /\ m <> n /\ anc a n m /\ stt s0 m a = StM) ->
  Base s' -> Frame a (eq n) s s' -> LockEq s s' ->
  (forall m b, stt s' m b = if decide (m = n /\ b = a) then inv_target t else stt s m b) ->
  (forall m b, dir s' m b = dir s m b) ->
  CorePost n a t cyc fuel wb s0 (r.1, bool_decide (stt s n a = StM) || r.2) s'.
Proof.
  intros Hn Hl HB Hv HtF HE HB0 F0 L0 M0 Hst0 Hsub Hr Hwb HB' F' L' Hst' Hdir'.
  assert (Hstn : stt s' n a = inv_target t).
  { rewrite Hst'. by rewrite decide_True. }
  assert (Hsto : forall m, m <> n -> stt s' m a = stt s m a).
  { intros m Hne. rewrite Hst'. rewrite decide_False; [done|]. by intros [? _]. }
  split.
  - done.
  - eapply Frame_trans; [done|]. eapply Frame_weaken; [|done]. intros m <-. constructor.
  - by eapply LockEq_trans.
  - intros m Hm. destruct (decide (m = n)) as [->|Hne].
    + intros _. by rewrite <- Hst0.
    + rewrite Hsto by done. by apply M0.
  - by apply Hsub.
  - done.
  - done.
  - cbn [snd]. rewrite orb_true_iff, bool_decide_eq_true, Hwb, Hst0. split.
    + intros [?|[?|(m&?&?&?&?)]]; [right; exists n; split_and!; [done|constructor|done]|by left|].
      right. by exists m.
    + intros [?|(m&?&?&?)]; [by auto|]. destruct (decide (m = n)) as [->|Hne]; [by left|].
      right. right. by exists m.
Qed.

Lemma finishInvalidate_spec fuel' (inv : nat -> InvReq -> M (Sys A) (Z * bool)) n a t cyc wb src s :
  InvSpec fuel' inv -> node n -> Base s -> aok a -> SubInv s n a -> BelowFree n a s ->
  stt s n a <> StI -> t <> FWD -> (t = INVX -> EM (stt s n a)) -> (lvl n <= fuel')%nat ->
  0 <= cyc -> cyc + 2 * K * Z.of_nat (Datatypes.S fuel') < two64 ->
  wp (finishInvalidate cfg inv n (mkInvReq a t wb cyc src))
     (fun r s' => exists s1, CorePost n a t cyc (Datatypes.S fuel') wb s r s1 /\
                             s' = set_lock (LkBcc n) false s1) s.
Proof.
  intros IH Hn HB Ha HSub HFree Hv HtF HE Hlvl Hcyc Hb.
  pose proof (wf_K WF) as HK. pose proof (wf_invLat WF n Hn) as Hil.
  unfold finishInvalidate. cbn [inv_lineAddr inv_cycle].
  apply wp_bind, wp_lookup_quiet; [done..|]. intros s1 S1 L1.
  destruct (stt_valid_find s n a Hv) as [l Hl]. rewrite Hl.
  apply wp_bind. eapply wp_from_opt; [done|].
  rewrite u64_small by lia.
  assert (Hl1 : ca_find (arr s1 n) a = Some l) by by rewrite (fr_arr S1).
  assert (HB1 : Base s1) by by apply (Same_Base S1).
  assert (Hst1 : forall m b, stt s1 m b = stt s m b) by (intros; by apply Same_stt).
  assert (Hd1 : forall m b, dir s1 m b = dir s m b) by (intros; by apply Same_dir).
  assert (F1 : Frame a (fun m => anc a n m) s s1) by by apply Same_Frame.
  unfold cc_processInv. cbn [inv_type inv_writeback inv_lineAddr inv_srcId].
  destruct (term n) eqn:Htn.
  - apply wp_bind. eapply wp_mono; [apply (bcc_inval_spec n a l)|]; rewrite ?Hst1; try done.
    intros wb' s2 (HB2&F2&L2&Hst2&Hd2&->).
    unfold futex_unlock. repeat wp_step. exists s2. split; [|done].
    rewrite <- (Hst1 n a).
    apply (core_finish n a l t cyc (Datatypes.S fuel') wb s s1 (cyc + cfg_invLat (cfg n), wb) s2);
      rewrite ?Hst1; try done.
    + intros m _. by rewrite Hst1.
    + intros s' _ _ _ m Hm Hanc Htm. rewrite (terminal_anc n a m) in Htm by done. congruence.
    + cbn [fst]. lia.
    + cbn [snd]. split; [by left|]. intros [?|(m&Hm&Hne&Hanc&_)]; [done|].
      by destruct (Hne (terminal_anc n a m Hn Htn Hm Hanc)).
  - assert (N : NodeInv s1 n a).
    { apply (Same_NodeInv WF Hn S1). apply HSub; [done|constructor|done]. }
    assert (HBI1 : BelowInv n a s1).
    { intros m Hm Hne Hanc Htm. apply (Same_NodeInv WF Hm S1). by apply HSub. }
    replace (tcc_processInval cfg inv n a l t wb (cyc + cfg_invLat (cfg n)) src)
      with (sendInvalidates cfg inv n a l t wb (cyc + cfg_invLat (cfg n)) src) by by destruct t.
    apply wp_bind. eapply wp_mono; [eapply (send_spec fuel' inv IH n a l t)|]; try done.
    + lia.
    + lia.
    + by apply (ni_size N).
    + by apply NodeInv_SendSharers.
    + intros m Hm Hne Hanc. rewrite (le_bcc _ _ L1), (le_filter _ _ L1). by apply HFree.
    + intros [r wb2] s2 SP.
      assert (F2 := se_frame SP). assert (HB2 := se_base SP).
      assert (Hr := se_cyc SP). cbn [fst] in Hr.
      assert (Hl2 : ca_find (arr s2 n) a = Some l) by by rewrite (fr_arr F2).
      assert (Hst2 : stt s2 n a = stt s n a).
      { rewrite (se_bcc SP). apply Hst1. }
      apply wp_bind. eapply wp_mono; [apply (bcc_inval_spec n a l)|]; rewrite ?Hst2; try done.
      intros wb' s3 (HB3&F3&L3&Hst3&Hd3&->).
      unfold futex_unlock. repeat wp_step. exists s3. split; [|done].
      rewrite <- Hst2.
      apply (core_finish n a l t cyc (Datatypes.S fuel') wb s s2 (r, wb2) s3); rewrite ?Hst2; try done.
      * by eapply Frame_trans.
      * eapply LockEq_trans; [done|]. apply SP.
      * intros m Hm. rewrite <- Hst1. by apply (se_mono SP).
      * intros s' Hn' Hm' Hd' m Hm Hanc Htm. destruct (decide (m = n)) as [->|Hne].
        -- apply (send_NodeInv Hn HtF s' N SP); [done|..].
           ++ rewrite Hn'. destruct t; [by right|by left..].
           ++ intros c Hc Hp. apply Hm'. intros ->.
              exact (anc_not_parent WF Hn Hp (anc_refl _ _ _)).
        -- apply (NodeInv_ext WF s2 s' Hm); [by apply Hm'|done| |by apply (se_below SP)].
           intros c Hc Hp. apply Hm'. intros ->.
           exact (anc_not_parent WF Hn Hp Hanc).
      * cbn [fst]. lia.
      * rewrite (send_wb Hn N HBI1 SP). by setoid_rewrite Hst1.
Qed.

Lemma invalidate_spec fuel : InvSpec fuel (invalidate cfg fuel).
Proof.
  induction fuel as [|fuel IH].
  { intros n a t cyc wb src s HP. destruct HP as (_&_&_&_&_&_&_&_&?&_). lia. }
  intros n a t cyc wb src s (HB&Hn&Ha&HSub&HFree&Hv&HtF&HE&Hlvl&Hcyc&Hb).
  destruct (HFree n Hn (anc_refl _ _ _)) as [Hbf Hff].
  cbn [invalidate]. unfold cc_startInv.
  apply wp_bind, wp_futex_lock; [done|]. set (s1 := set_lock (LkBcc n) true s).
  assert (S1 : Same s s1) by apply Same_set_lock.
  assert (Hfin : forall s2 s3 r, Same s s2 -> LockEq s s3 ->
    (exists s', CorePost n a t cyc (Datatypes.S fuel) wb s2 r s' /\ Same s' s3) ->
    InvPost (Datatypes.S fuel) n a t cyc wb s r s3).
  { intros s2 s3 r S2 L3 (s'&[P1 P2 P3 P4 P5 P6 P7 P8]&S3).
    assert (Hst2 : forall m, stt s2 m a = stt s m a) by (intros; by apply Same_stt).
    assert (Hst3 : forall m, stt s3 m a = stt s' m a) by (intros; by apply Same_stt).
    split_and!; try done.
    - by apply (Same_Base S3).
    - eapply Frame_trans; [by apply Same_Frame|]. eapply Frame_trans; [done|by apply Same_Frame].
    - intros m Hm. rewrite Hst3, <- Hst2. by apply P4.
    - intros m Hm Hanc Htm. apply (Same_NodeInv WF Hm S3). by apply P5.
    - by rewrite Hst3.
    - lia.
    - lia.
    - rewrite P8. by setoid_rewrite Hst2. }
  assert (Hcore : forall s2, Same s s2 -> BelowFree n a s2 ->
    wp (finishInvalidate cfg (invalidate cfg fuel) n (mkInvReq a t wb cyc src))
     (fun r s' => exists s1, CorePost n a t cyc (Datatypes.S fuel) wb s2 r s1 /\
                             s' = set_lock (LkBcc n) false s1) s2).
  { intros s2 S2 HF2. apply finishInvalidate_spec; try done.
    - by apply (Same_Base S2).
    - intros m Hm Hanc Htm. apply (Same_NodeInv WF Hm S2). by apply HSub.
    - by rewrite (Same_stt _ _ _ _ S2).
    - by rewrite (Same_stt _ _ _ _ S2).
    - lia. }
  assert (Hloc : forall m, m <> n -> sys_caches s1 m = sys_caches s m) by (intros; by apply proj_ne).
  destruct (term n) eqn:Htn.
  - apply wp_bind, wp_futex_lock.
    { unfold lock_held, s1. simpl. by rewrite upd_eq. }
    set (s2 := set_lock (LkFilter n) true s1).
    assert (S2 : Same s s2) by (eapply Same_trans; [done|apply Same_set_lock]).
    apply wp_bind. eapply wp_mono; [apply filter_invalidate_spec|]; try done.
    { by apply (Same_Base S2). }
    intros [] s3 [S3 L3].
    assert (S3' : Same s s3) by by eapply Same_trans.
    apply wp_bind. eapply wp_mono; [apply Hcore; [done|]|].
    + intros m Hm Hne Hanc. rewrite (le_bcc _ _ L3), (le_filter _ _ L3).
      unfold s2, set_lock. rewrite proj_ne by done. rewrite Hloc by done. by apply HFree.
    + intros r s4 (s5&CP&->). unfold futex_unlock. repeat wp_step.
      apply (Hfin s3); [done|..].
      * apply LockEq_bcc_filter; [done..|]. eapply LockEq_trans; [done|]. apply CP.
      * exists s5. split; [done|]. eapply Same_trans; apply Same_set_lock.
  - eapply wp_mono; [apply Hcore; [done|]|].
    + intros m Hm Hne Hanc. rewrite Hloc by done. by apply HFree.
    + intros r s4 (s5&CP&->). apply (Hfin s1); [done|..].
      * apply LockEq_bcc; [done|]. apply CP.
      * exists s5. split; [done|]. apply Same_set_lock.
Qed.
End Down.
