(* ===== verification/CoherenceUp.v ===== *)
(** * The coherent cache hierarchy: accesses

    A request that a child sends towards memory (GETS, GETX, PUTS, PUTX), with
    the evictions and invalidations it causes on its way, returns normally,
    gives the child the permission it asked for, keeps the invariant of the
    whole hierarchy, and leaves the locks as they were. *)

From S2P Require Import Prelude Bithacks MemHier TimingEvent ReplPolicies CacheArrays Coherence CoherenceInv CoherenceDown.

(** The directories see E and M as the same permission. *)
Definition sim (x y : MESIState) : Prop := x = y \/ (EM x /\ EM y).
#[global] Instance sim_equiv : Equivalence sim.
Proof.
  unfold sim. split.
  - intros x. by left.
  - intros x y [->|[??]]; auto.
  - intros x y z [->|[??]] [->|[??]]; auto.
Qed.
Lemma sim_valid x y : sim x y -> (x <> StI <-> y <> StI).
Proof. intros [->|[[-> | ->] [-> | ->]]]; done. Qed.
Lemma sim_EM x y : sim x y -> (EM x <-> EM y).
Proof. intros [->|[??]]; tauto. Qed.

Section Up.
Context {A : Type} `{HL : CacheArrayLaws A}.
Context (cfg : nat -> CacheCfg) (memLatency : nat -> Z).
Context (node : nat -> Prop) (lvl : nat -> nat) (top : nat) (root : Z -> nat) (K : Z).
Context (aok : Z -> Prop).
Context (WF : WfHier cfg memLatency node lvl top root K).
Implicit Types (s : Sys A) (n m c p l : nat) (a b : Z).
Abbreviation anc := (anc cfg).
Abbreviation NodeInv := (NodeInv cfg node).
Abbreviation Base := (Base cfg node aok).
Abbreviation Inv := (Inv cfg node aok).
Abbreviation reach := (reach cfg node).
Abbreviation term := (fun n => cfg_terminal (cfg n)).
Abbreviation SubInv := (SubInv cfg node).

(** ** Changing a node's view *)
Lemma NodeInv_sim s s' p a :
  node p -> sim (stt s' p a) (stt s p a) -> dir s' p a = dir s p a ->
  (forall c, node c -> parent_of cfg c a = Some (OCache p) -> sim (stt s' c a) (stt s c a)) ->
  NodeInv s p a -> NodeInv s' p a.
Proof.
  intros Hp Hst Hdir Hch [N1 N2 N3 N4 N5 N6 N7 N8].
  split; rewrite ?Hdir; try done.
  - intros i Hi. destruct (N2 i Hi) as (c&Hc&Hpar&Hv). exists c. split_and!; try done.
    apply (sim_valid _ _ (Hch c (proj1 (wf_down WF p i c Hp Hc)) Hpar)). done.
  - intros c Hc Hpar Hv. apply N3; try done. by apply (sim_valid _ _ (Hch c Hc Hpar)).
  - intros c Hc Hpar HE. apply (N4 c); try done. by apply (sim_EM _ _ (Hch c Hc Hpar)).
  - intros c Hc Hpar Hex Hv. apply (sim_EM _ _ (Hch c Hc Hpar)), N5; try done.
    by apply (sim_valid _ _ (Hch c Hc Hpar)).
  - intros Hne. by apply (sim_valid _ _ Hst), N6.
  - intros Hex. by apply (sim_EM _ _ Hst), N7.
Qed.

(** A node whose own line gains permission stays consistent. *)
Lemma NodeInv_own s s' p a :
  node p -> dir s' p a = dir s p a -> stt s' p a <> StI ->
  (isExclusive (dir s p a) = true -> EM (stt s' p a)) ->
  (forall c, node c -> parent_of cfg c a = Some (OCache p) -> stt s' c a = stt s c a) ->
  NodeInv s p a -> NodeInv s' p a.
Proof.
  intros Hp Hdir Hv Hex Hch [N1 N2 N3 N4 N5 N6 N7 N8].
  split; rewrite ?Hdir; try done.
  - intros i Hi. destruct (N2 i Hi) as (c&Hc&Hpar&Hvc). exists c. split_and!; try done.
    by rewrite (Hch c (proj1 (wf_down WF p i c Hp Hc)) Hpar).
  - intros c Hc Hpar. rewrite Hch by done. by apply N3.
  - intros c Hc Hpar. rewrite Hch by done. by apply N4.
  - intros c Hc Hpar. rewrite Hch by done. by apply N5.
Qed.

Lemma isExclusive_empty e : emptyEntry e -> isExclusive e = false.
Proof. unfold isExclusive. by intros [-> _]. Qed.

(** A node without sharers is consistent when its children do not hold the line. *)
Lemma NodeInv_empty s p a : emptyEntry (dir s p a) ->
  (forall c, node c -> parent_of cfg c a = Some (OCache p) -> stt s c a = StI) -> NodeInv s p a.
Proof.
  intros He Hch. assert (Hex := isExclusive_empty _ He). destruct He as [Hn Hs].
  split; rewrite ?Hn, ?Hs, ?Hex; try done.
  - intros c Hc Hp. by rewrite Hch.
  - intros c Hc Hp. rewrite Hch by done. by intros [?|?].
Qed.
Lemma NodeInv_empty_children s p a c : NodeInv s p a -> emptyEntry (dir s p a) ->
  node c -> parent_of cfg c a = Some (OCache p) -> stt s c a = StI.
Proof.
  intros N [_ Hs] Hc Hp. destruct (decide (stt s c a = StI)) as [|Hv]; [done|].
  pose proof (ni_sharer N c Hc Hp Hv) as Hi. rewrite Hs in Hi. by apply not_elem_of_empty in Hi.
Qed.

(** An operation on [a] in the subtree of [p] keeps the invariant if it leaves
    that subtree consistent and the permission of [p] as it was. *)
Lemma Inv_local a p s s' : Inv s -> node p -> Base s' -> Frame a (fun m => anc a p m) s s' ->
  (forall q, parent_of cfg p a = Some (OCache q) -> sim (stt s' p a) (stt s p a)) ->
  SubInv s' p a -> Inv s'.
Proof.
  intros [HB HN] Hp HB' F Hsim HS. split; [done|]. intros q b Hq Htq.
  destruct (decide (b = a)) as [->|Hne]; [|].
  - destruct (anc_em WF a q p Hq) as [Hqp|Hqp]; [by apply HS|].
    apply (NodeInv_sim s s'); [done| | |..|by apply HN].
    + rewrite (Frame_stt _ _ HB Hq F) by auto. done.
    + by rewrite (Frame_dir _ _ HB Hq F) by auto.
    + intros c Hc Hpc. destruct (anc_em WF a c p Hc) as [Hcp|Hcp].
      * destruct (decide (c = p)) as [->|Hcne]; [by apply (Hsim q)|].
        exfalso. apply Hqp. inversion Hcp as [|? q' Hq' Hanc]; subst; [done|]. by simplify_eq.
      * rewrite (Frame_stt _ _ HB Hc F) by auto. done.
  - apply (NodeInv_ext WF s s' Hq); [..|by apply HN].
    + by apply (Frame_stt _ _ HB Hq F); auto.
    + by apply (Frame_dir _ _ HB Hq F); auto.
    + intros c Hc _. by apply (Frame_stt _ _ HB Hc F); auto.
Qed.

(** The number of sharers fits its counter. *)
Lemma sharers_bound s p a : node p -> NodeInv s p a ->
  numSharers (dir s p a) = Z.of_nat (size (sharers (dir s p a))) /\
  (size (sharers (dir s p a)) <= MAX_CACHE_CHILDREN)%nat.
Proof.
  intros Hp N. split; [apply (ni_size N)|].
  assert (Hsub : sharers (dir s p a) ⊆ list_to_set (seq 0 (length (cfg_children (cfg p))))).
  { intros i Hi. destruct (ni_child N i Hi) as (c&Hc&_).
    apply elem_of_list_to_set, elem_of_seq. apply lookup_lt_Some in Hc. lia. }
  apply subseteq_size in Hsub. rewrite size_list_to_set, length_seq in Hsub by apply NoDup_seq.
  pose proof (wf_maxChildren WF p Hp). lia.
Qed.

(** The line of an address in the parent: a valid child is a sharer. *)
Lemma child_sharer s c p a : Inv s -> node c -> parent_of cfg c a = Some (OCache p) ->
  (cfg_selfId (cfg c) ∈ sharers (dir s p a) <-> stt s c a <> StI).
Proof.
  intros HI Hc Hp. destruct (parent_up WF c p a Hc Hp) as (Hnp&_&Htp&Hch).
  pose proof (inv_node HI p a Hnp Htp) as N. split; [|by apply (ni_sharer N)].
  intros Hi. destruct (ni_child N _ Hi) as (c'&Hc'&_&Hv). by assert (c' = c) as -> by congruence.
Qed.

(** ** Locks *)

(** Only the bottom lock of [n] is held, and no top lock above [n]. *)
Record LockPre s n : Prop := {
  lk_bcc : forall m, node m -> c_bccLock (sys_caches s m) = bool_decide (m = n);
  lk_filter : forall m, node m -> filterLock (c_filter (sys_caches s m)) = false;
  lk_tcc : forall m, node m -> (lvl n < lvl m)%nat -> c_tccLock (sys_caches s m) = false
}.
Lemma LockPre_eq s s' n : LockEq s s' -> LockPre s n -> LockPre s' n.
Proof.
  intros [L1 L2 L3] [P1 P2 P3].
  split; intros; rewrite ?L1, ?L2, ?L3; auto.
Qed.
Lemma LockPre_BelowFree s n a : LockPre s n -> BelowFree cfg node n a s.
Proof.
  intros [P1 P2 P3] m Hm Hne _. split; [|by apply P2].
  rewrite P1 by done. by apply bool_decide_eq_false.
Qed.

(** [startAccess] and [endAccess] of a cache for a request of its child. *)
Definition started c p s : Sys A :=
  set_lock (LkBcc p) true (set_cache p (set_tccLock true) (set_lock (LkBcc c) false s)).

Lemma started_Same c p s : Same s (started c p s).
Proof.
  eapply Same_trans; [apply Same_set_lock|].
  eapply Same_trans; [|apply Same_set_lock]. by apply Same_set_cache.
Qed.

Lemma started_LockPre c p s : node c -> node p -> (lvl c < lvl p)%nat -> LockPre s c ->
  LockPre (started c p s) p.
Proof.
  intros Hc Hp Hlt [P1 P2 P3]. unfold started.
  split; intros m Hm; simpl.
  - destruct (decide (m = p)) as [->|Hmp].
    { by rewrite upd_eq, bool_decide_eq_true_2. }
    rewrite !(upd_ne _ p m) by done. rewrite bool_decide_eq_false_2 by done.
    unfold upd. case_decide; [done|]. rewrite P1 by done. by apply bool_decide_eq_false_2.
  - unfold upd. repeat case_decide; subst; simpl; auto.
  - unfold upd. intros Hlm. repeat case_decide; subst; simpl; try lia; apply P3; lia || done.
Qed.

Lemma startAccess_spec c p t lc cyc st src fl a s :
  Base s -> node c -> node p -> (lvl c < lvl p)%nat -> term p = false -> LockPre s c ->
  ca_find (arr s c) a = Some lc -> stt s c a = st ->
  let req := mkMemReq a t (cfg_selfId (cfg c)) (RefLine c lc) cyc (Some (LkBcc c)) st src fl in
  wp (cc_startAccess cfg p req) (fun r s' => r = (req, false) /\ s' = started c p s) s.
Proof.
  intros HB Hc Hp Hlt Htp L Hl Hst req. unfold cc_startAccess. rewrite Htp.
  unfold futex_unlock, tcc_lock, opt_lock. cbn [childLock req]. repeat wp_step.
  apply wp_assert; [|].
  { simpl. unfold upd. case_decide; subst; simpl; by rewrite (lk_tcc _ _ L). }
  repeat wp_step. apply wp_futex_lock.
  { simpl. unfold upd. repeat case_decide; subst; simpl; try done.
    rewrite (lk_bcc _ _ L) by done. apply bool_decide_eq_false. congruence. }
  change (set_lock (LkBcc p) true _) with (started c p s).
  assert (S1 := started_Same c p s).
  apply wp_bind. unfold read_ref. cbn [state req]. apply wp_get_bcc.
  { rewrite (fr_blen S1). by eapply find_lt. }
  rewrite (fr_bcc S1) by (by intros [[] _]). rewrite <- (stt_find s c a lc Hl), Hst.
  unfold CheckForMESIRace. cbn [initialState req]. rewrite bool_decide_eq_true_2 by done.
  by repeat wp_step.
Qed.

Lemma endAccess_spec c p req s0 s : childLock req = Some (LkBcc c) -> c <> p ->
  node c -> node p -> (lvl c < lvl p)%nat -> term p = false ->
  LockPre s0 c -> LockEq (started c p s0) s ->
  wp (cc_endAccess cfg p req) (fun _ s' => Same s s' /\ LockEq s0 s') s.
Proof.
  intros Hcl Hne Hc Hp Hlt Htp L [E1 E2 E3]. unfold cc_endAccess. rewrite Hcl, Htp.
  unfold opt_lock, futex_unlock, tcc_unlock.
  apply wp_bind, wp_futex_lock.
  { simpl. rewrite E1. unfold started. simpl. by rewrite upd_ne, upd_ne, upd_eq. }
  repeat wp_step. split.
  - eapply Same_trans; [apply Same_set_lock|]. eapply Same_trans; [apply Same_set_lock|].
    by apply Same_set_cache.
  - assert (Hbc := lk_bcc _ _ L c Hc). assert (Hbp := lk_bcc _ _ L p Hp).
    rewrite bool_decide_eq_true_2 in Hbc by done.
    rewrite bool_decide_eq_false_2 in Hbp by done.
    assert (Htcc := lk_tcc _ _ L p Hp Hlt).
    split; intros m; specialize (E1 m); specialize (E2 m); specialize (E3 m);
      unfold started in *; simpl in *; unfold upd in *;
      repeat (case_decide; subst; simpl in *); congruence.
Qed.

(** Reads of the records: no response record is pending. *)
Lemma wp_pop_none src (Q : option TimingRecord -> Sys A -> Prop) s :
  Base s -> Q None s -> wp (pop_wb_record src) Q s.
Proof.
  intros HB HQ. unfold pop_wb_record. repeat wp_step.
  destruct (sys_evRecs s src) as [er|] eqn:Her; [|by apply wp_ret].
  rewrite (b_norec HB _ _ Her). by apply wp_ret.
Qed.

Lemma wp_lookup_noupd n a req (Q : option nat -> Sys A -> Prop) s :
  Base s -> node n -> aok a ->
  (forall s', Same s s' -> LockEq s s' -> Q (ca_find (arr s n) a) s') ->
  wp (array_lookup n a (Some req) false) Q s.
Proof.
  intros HB Hn Ha HQ. unfold array_lookup. repeat wp_step.
  apply wp_lift. eapply rwp_ok; [apply ca_lookup_noupd|].
  - by apply (b_wf HB).
  - by apply (b_addr HB).
  - repeat wp_step. apply HQ; [by apply Same_set_array|by apply LockEq_set_cache].
Qed.

(** ** Writes to the line of an address, by their effect on the view *)
Record At s n a l : Prop := {
  at_wf : ca_wf (arr s n);
  at_find : ca_find (arr s n) a = Some l;
  at_blen : (l < length (c_bcc (sys_caches s n)))%nat;
  at_tlen : term n = false -> (l < length (c_tcc (sys_caches s n)))%nat
}.
Lemma Base_At s n a l : Base s -> node n -> ca_find (arr s n) a = Some l -> At s n a l.
Proof.
  intros HB Hn Hl. split; [by apply HB|done|by eapply find_lt|]. intros Ht. by eapply find_tlt.
Qed.
Lemma At_frame b Q s s' n a l : Frame b Q s s' -> At s n a l -> At s' n a l.
Proof.
  intros F [? ? ? ?]. split; rewrite ?(fr_arr F), ?(fr_blen F), ?(fr_tlen F); done.
Qed.

Lemma wp_read_bcc n a l (Q : MESIState -> Sys A -> Prop) s :
  At s n a l -> Q (stt s n a) s -> wp (get_bcc n l) Q s.
Proof. intros [? Hl ? ?]. rewrite (stt_find s n a l Hl). by apply wp_get_bcc. Qed.
Lemma wp_read_entry n a l (Q : Entry -> Sys A -> Prop) s :
  At s n a l -> term n = false -> Q (dir s n a) s -> wp (get_entry n l) Q s.
Proof. intros [? Hl ? Ht] Htn. rewrite (dir_find s n a l Hl). apply wp_get_entry. auto. Qed.

Lemma wp_write_bcc n a l st (Q : unit -> Sys A -> Prop) s :
  At s n a l ->
  (forall s', Frame a (eq n) s s' -> LockEq s s' ->
     (forall m b, stt s' m b = if decide (m = n /\ b = a) then st else stt s m b) ->
     (forall m b, dir s' m b = dir s m b) -> Q tt s') ->
  wp (put_bcc n l st) Q s.
Proof.
  intros [? Hl ? ?] HQ. apply wp_modify, HQ.
  - by apply Frame_put_bcc.
  - by apply LockEq_set_cache.
  - intros. by apply stt_set_bcc.
  - intros. apply dir_put_bcc.
Qed.
Lemma wp_write_entry n a l e (Q : unit -> Sys A -> Prop) s :
  At s n a l -> term n = false ->
  (forall s', Frame a (eq n) s s' -> LockEq s s' ->
     (forall m b, stt s' m b = stt s m b) ->
     (forall m b, dir s' m b = if decide (m = n /\ b = a) then e else dir s m b) -> Q tt s') ->
  wp (put_entry n l e) Q s.
Proof.
  intros [? Hl ? Ht] Htn HQ. apply wp_modify, HQ.
  - by apply Frame_put_entry.
  - by apply LockEq_set_cache.
  - intros. apply stt_put_entry.
  - intros. apply dir_set_entry; auto.
Qed.
Lemma wp_prof n k d (Q : unit -> Sys A -> Prop) s :
  (forall s', Same s s' -> LockEq s s' -> Q tt s') -> wp (prof_inc n k d) Q s.
Proof. intros HQ. apply wp_modify, HQ; [by apply Same_set_cache|by apply LockEq_set_cache]. Qed.

(** ** Writebacks to the parent (PUTS, PUTX) *)

(** A sharer leaves. *)
Lemma NodeInv_remove s s' p a c k :
  node p -> node c -> parent_of cfg c a = Some (OCache p) -> NodeInv s p a -> stt s c a <> StI ->
  k = numSharers (dir s p a) - 1 ->
  dir s' p a = mkEntry k (sharers (dir s p a) ∖ {[cfg_selfId (cfg c)]}) (exclusive (dir s p a)) ->
  sim (stt s' p a) (stt s p a) -> stt s' c a = StI ->
  (forall d, node d -> d <> c -> parent_of cfg d a = Some (OCache p) -> stt s' d a = stt s d a) ->
  NodeInv s' p a.
Proof.
  intros Hp Hc Hpc N Hv -> Hd Hst Hsc Hso.
  assert (Hci := ni_sharer N c Hc Hpc Hv).
  destruct (parent_up WF c p a Hc Hpc) as (_&_&_&Hch).
  assert (Hne : forall d, node d -> parent_of cfg d a = Some (OCache p) -> stt s' d a <> StI ->
    d <> c /\ cfg_selfId (cfg d) <> cfg_selfId (cfg c) /\ stt s d a = stt s' d a).
  { intros d Hnd Hpd Hvd. assert (d <> c) by (intros ->; by rewrite Hsc in Hvd).
    split_and!; [done| |by rewrite Hso].
    destruct (parent_up WF d p a Hnd Hpd) as (_&_&_&Hchd). congruence. }
  assert (Hnex : isExclusive (dir s' p a) = false).
  { apply not_true_iff_false. rewrite Hd. unfold isExclusive. cbn [numSharers exclusive].
    intros [Hk%Z.eqb_eq Hx]%andb_true_iff. pose proof (ni_flag N Hx). lia. }
  split; rewrite ?Hnex; rewrite ?Hd; cbn [numSharers sharers exclusive]; try done.
  - rewrite size_difference, size_singleton, (ni_size N) by set_solver.
    assert (size (sharers (dir s p a)) <> 0%nat); [|lia].
    intros Hz%size_empty_inv. set_solver.
  - intros i [Hi Hni]%elem_of_difference. destruct (ni_child N i Hi) as (d&Hchd&Hpd&Hvd).
    exists d. split_and!; try done. destruct (wf_down WF p i d Hp Hchd) as (Hnd&Hsd&_).
    rewrite Hso; try done. intros ->. set_solver.
  - intros d Hnd Hpd Hvd. destruct (Hne d Hnd Hpd Hvd) as (?&?&Hsd).
    apply elem_of_difference. split; [|set_solver]. apply (ni_sharer N d); try done. by rewrite Hsd.
  - intros d Hnd Hpd HE. exfalso.
    destruct (Hne d Hnd Hpd) as (?&Hs&Hsd); [by destruct HE as [-> | ->]|]. rewrite <- Hsd in HE.
    apply Hs, (exclusive_unique N (ni_excl N d Hnd Hpd HE)); [|done].
    apply (ni_sharer N d Hnd Hpd). by destruct HE as [-> | ->].
  - intros Hne'. apply (sim_valid _ _ Hst), (ni_incl N). set_solver.
  - intros Hx. pose proof (ni_flag N Hx). lia.
Qed.

Record PutPre c b lc st cyc s : Prop := {
  pp_inv : Inv s;
  pp_node : node c;
  pp_find : ca_find (arr s c) b = Some lc;
  pp_stt : stt s c b = st;
  pp_valid : st <> StI;
  pp_empty : term c = false -> emptyEntry (dir s c b);
  pp_locks : LockPre s c;
  pp_cyc : 0 <= cyc;
  pp_cycb : cyc + K < two64
}.

Record PutPost c b cyc s (r : Z) s' : Prop := {
  po_inv : Inv s';
  po_frame : Frame b (fun m => m = c \/ parent_of cfg c b = Some (OCache m)) s s';
  po_locks : LockEq s s';
  po_mono : Mono node b s s';
  po_stt : stt s' c b = StI;
  po_dir : dir s' c b = dir s c b;
  po_cyc : cyc <= r <= cyc + K
}.

Definition put_type (st : MESIState) : AccessType := if bool_decide (st = StM) then PUTX else PUTS.

(** The final state of a writeback to a cache. *)
Lemma put_finish c p b st' s s' :
  Inv s -> node c -> parent_of cfg c b = Some (OCache p) ->
  stt s c b <> StI -> (term c = false -> emptyEntry (dir s c b)) -> sim st' (stt s p b) ->
  Frame b (fun m => m = c \/ parent_of cfg c b = Some (OCache m)) s s' ->
  (forall m, stt s' m b = if decide (m = c) then StI else if decide (m = p) then st' else stt s m b) ->
  (forall m, dir s' m b = if decide (m = p)
     then mkEntry (numSharers (dir s p b) - 1) (sharers (dir s p b) ∖ {[cfg_selfId (cfg c)]})
            (exclusive (dir s p b))
     else dir s m b) ->
  Inv s' /\ Mono node b s s' /\ stt s' c b = StI /\ dir s' c b = dir s c b.
Proof.
  intros HI Hc Hp Hv Hemp Hst' F Hst Hdr.
  destruct (parent_up WF c p b Hc Hp) as (Hnp&Hlt&Htp&Hch).
  assert (Hcp : c <> p) by (intros ->; lia).
  assert (HB := inv_base HI).
  assert (Hpv : stt s p b <> StI).
  { apply (inclusion WF HI Hc); [|done]. by eapply anc_step, anc_refl. }
  assert (Hstc : stt s' c b = StI) by (by rewrite Hst, decide_True).
  assert (Hstp : stt s' p b = st').
  { by rewrite Hst, decide_False, decide_True. }
  assert (Hsto : forall m, m <> c -> m <> p -> stt s' m b = stt s m b).
  { intros m ??. by rewrite Hst, !decide_False. }
  assert (Hdrp := Hdr p). rewrite decide_True in Hdrp by done.
  assert (Hdro : forall m, m <> p -> dir s' m b = dir s m b).
  { intros m ?. by rewrite Hdr, !decide_False. }
  assert (HM : Mono node b s s').
  { intros m Hm. destruct (decide (m = c)) as [->|]; [by intros _|].
    destruct (decide (m = p)) as [->|]; [by intros _|]. by rewrite Hsto. }
  assert (HB' : Base s').
  { apply (Frame_Base HB F). intros m Hm Hvm. left. by apply HM. }
  split_and!; try done; [|by apply Hdro].
  assert (Hnotp : forall d m, node d -> parent_of cfg d b = Some (OCache m) -> anc b p m -> d <> p).
  { intros d m Hd Hpd Hm ->. exact (anc_not_parent WF Hnp Hpd Hm). }
  apply (Inv_local b p s); try done.
  - eapply Frame_weaken; [|exact F]. cbn. intros m [->|Hm].
    + by eapply anc_step, anc_refl.
    + rewrite Hp in Hm. injection Hm as <-. constructor.
  - intros q _. by rewrite Hstp.
  - intros m Hm Hanc Htm.
    assert (N := inv_node HI m b Hm Htm). destruct (decide (m = p)) as [->|Hmp].
    { eapply (NodeInv_remove s s' p b c); try done.
      - by rewrite Hstp.
      - intros d Hnd Hdc Hpd. apply Hsto; [done|]. by eapply Hnotp. }
    destruct (decide (m = c)) as [->|Hmc].
    { apply NodeInv_empty; [rewrite Hdro by done; by apply Hemp|].
      intros d Hnd Hpd. rewrite Hsto.
      - apply (NodeInv_empty_children s c b d N); [by apply Hemp|done|done].
      - intros ->. destruct (parent_up WF c c b Hnd Hpd) as (_&?&_). lia.
      - by eapply Hnotp. }
    apply (NodeInv_ext WF s s' Hm); [by apply Hsto|by apply Hdro| |done].
    intros d Hnd Hpd. apply Hsto; [|by eapply Hnotp]. intros ->. congruence.
Qed.

Lemma bcc_put_spec up p b l t cyc src fl s : At s p b l -> stt s p b <> StI -> IsPut t = true ->
  (t = PUTX -> EM (stt s p b)) ->
  wp (bcc_processAccess cfg up p b l t cyc src fl) (fun r s' =>
    r = cyc /\ Frame b (eq p) s s' /\ LockEq s s' /\
    (forall m a, stt s' m a = if decide (m = p /\ a = b)
       then (if decide (t = PUTX) then StM else stt s p b) else stt s m a) /\
    (forall m a, dir s' m a = dir s m a)) s.
Proof.
  intros Hat Hv Hput HE. unfold bcc_processAccess.
  apply wp_bind, (wp_read_bcc p b); [done|].
  assert (Hno : forall s' k, t = PUTS \/ stt s p b = StM -> Same s s' -> LockEq s s' ->
     wp (prof_inc p k 1;; mret cyc) (fun r s' =>
      wp (massert (cyc <=? r) "respCycle >= cycle";; mret r) (fun r s' =>
      r = cyc /\ Frame b (eq p) s s' /\ LockEq s s' /\
    (forall m a, stt s' m a = if decide (m = p /\ a = b)
       then (if decide (t = PUTX) then StM else stt s p b) else stt s m a) /\
    (forall m a, dir s' m a = dir s m a)) s') s').
  { intros s1 k Hor S1 L1. apply wp_bind, wp_prof. intros s2 S2 L2. repeat wp_step.
    apply wp_assert; [by apply Z.leb_refl|]. apply wp_ret.
    assert (S' : Same s s2) by by eapply Same_trans. split_and!; try done.
    - by apply Same_Frame.
    - by eapply LockEq_trans.
    - intros m a. rewrite (Same_stt _ _ _ _ S'). case_decide as Hd; [|done].
      destruct Hd as [-> ->]. case_decide; [|done]. destruct Hor; congruence.
    - intros m a. by apply Same_dir. }
  apply wp_bind. destruct t; try done.
  - apply wp_bind, wp_assert; [by apply bool_decide_eq_true|].
    apply Hno; [by left|apply Same_refl|apply LockEq_refl].
  - specialize (HE eq_refl).
    apply wp_bind, wp_assert; [by destruct HE as [-> | ->]|].
    case_bool_decide as Hst.
    + apply wp_bind, (wp_write_bcc p b); [done|]. intros s1 F1 L1 Hst1 Hd1.
      apply wp_bind, wp_prof. intros s2 S2 L2. repeat wp_step.
      apply wp_assert; [by apply Z.leb_refl|]. apply wp_ret. split_and!; try done.
      * eapply Frame_trans; [done|by apply Same_Frame].
      * by eapply LockEq_trans.
      * intros m a. by rewrite (Same_stt _ _ _ _ S2), Hst1.
      * intros m a. by rewrite (Same_dir _ _ _ _ S2).
    + repeat wp_step. apply (Hno s profPUTX); [|apply Same_refl|apply LockEq_refl].
      right. by destruct HE.
Qed.

Lemma tcc_put_spec inv p c b l lc t hx cyc src s :
  At s p b l -> At s c b lc -> term p = false -> c <> p -> IsPut t = true ->
  cfg_selfId (cfg c) ∈ sharers (dir s p b) -> 1 <= numSharers (dir s p b) < two32 ->
  (t = PUTX -> isExclusive (dir s p b) = true) ->
  wp (tcc_processAccess cfg inv p b l t (cfg_selfId (cfg c)) hx (RefLine c lc) false cyc src 0)
    (fun r s' => r = (cyc, false) /\ Frame b (fun m => m = c \/ m = p) s s' /\ LockEq s s' /\
      (forall m, stt s' m b = if decide (m = c) then StI else stt s m b) /\
      (forall m, dir s' m b = if decide (m = p)
         then mkEntry (numSharers (dir s p b) - 1) (sharers (dir s p b) ∖ {[cfg_selfId (cfg c)]})
            (exclusive (dir s p b))
         else dir s m b)) s.
Proof.
  intros Hp Hc Ht Hne Hput Hs Hn Hx. unfold tcc_processAccess.
  apply wp_bind, (wp_read_entry p b); [done..|].
  assert (Hgo : wp (tcc_put p l (cfg_selfId (cfg c)) (RefLine c lc);; mret (cyc, false))
    (fun r s' => r = (cyc, false) /\ Frame b (fun m => m = c \/ m = p) s s' /\ LockEq s s' /\
      (forall m, stt s' m b = if decide (m = c) then StI else stt s m b) /\
      (forall m, dir s' m b = if decide (m = p)
         then mkEntry (numSharers (dir s p b) - 1) (sharers (dir s p b) ∖ {[cfg_selfId (cfg c)]})
            (exclusive (dir s p b))
         else dir s m b)) s).
  { unfold tcc_put. apply wp_bind. apply wp_bind, (wp_read_entry p b); [done..|].
    apply wp_bind, wp_assert; [by apply bool_decide_eq_true|].
    apply wp_bind, (wp_write_entry p b); [done..|]. intros s1 F1 L1 Hst1 Hd1.
    unfold write_ref. apply (wp_write_bcc c b); [by eapply At_frame|]. intros s2 F2 L2 Hst2 Hd2.
    apply wp_ret. rewrite u32_small in Hd1 by lia. split_and!; try done.
    - eapply Frame_trans; (eapply Frame_weaken; [|done]); intros m <-; auto.
    - by eapply LockEq_trans.
    - intros m. rewrite Hst2, Hst1. by destruct (decide (m = c)), (decide (m = c /\ b = b)); naive_solver.
    - intros m. rewrite Hd2, Hd1. by destruct (decide (m = p)), (decide (m = p /\ b = b)); naive_solver. }
  destruct t; try done.
  apply wp_bind, wp_assert; [by apply Hx|]. exact Hgo.
Qed.

Lemma cc_put_spec up inv p c b l lc st cyc0 lk cyc src s :
  Inv s -> node c -> parent_of cfg c b = Some (OCache p) ->
  ca_find (arr s c) b = Some lc -> ca_find (arr s p) b = Some l ->
  stt s c b = st -> st <> StI -> (term c = false -> emptyEntry (dir s c b)) ->
  wp (cc_processAccess cfg up inv p
        (mkMemReq b (put_type st) (cfg_selfId (cfg c)) (RefLine c lc) cyc0 lk st src 0) (Some l) cyc)
     (fun r s' => r = cyc /\ LockEq s s' /\
        Frame b (fun m => m = c \/ parent_of cfg c b = Some (OCache m)) s s' /\
        Inv s' /\ Mono node b s s' /\ stt s' c b = StI /\ dir s' c b = dir s c b) s.
Proof.
  intros HI Hc Hp Hlc Hl Hst Hv Hemp. assert (HB := inv_base HI).
  destruct (parent_up WF c p b Hc Hp) as (Hnp&Hlt&Htp&Hch).
  assert (Hcp : c <> p) by (intros ->; lia).
  assert (Hvc : stt s c b <> StI) by by rewrite Hst.
  assert (Hatc : At s c b lc) by by apply Base_At.
  assert (Hatp : At s p b l) by by apply Base_At.
  assert (N := inv_node HI p b Hnp Htp).
  assert (Hpv : stt s p b <> StI).
  { apply (inclusion WF HI Hc); [|done]. by eapply anc_step, anc_refl. }
  assert (Hput : IsPut (put_type st) = true) by (unfold put_type; by case_bool_decide).
  assert (HM : put_type st = PUTX -> EM (stt s c b)).
  { rewrite Hst. unfold put_type. case_bool_decide; [by right|done]. }
  assert (Hpx : put_type st = PUTX -> EM (stt s p b)).
  { intros Hx. apply (ni_inclEM N), (ni_excl N c); auto. }
  unfold cc_processAccess. rewrite Htp. cbn [type lineAddr srcId flags childId state].
  apply wp_bind. unfold bcc_isValid. apply wp_bind. apply wp_bind, (wp_read_bcc p b); [done|].
  apply wp_ret. rewrite bool_decide_eq_true_2, andb_false_r by done. apply wp_ret.
  apply wp_bind. apply wp_ret. apply wp_bind, wp_assert; [done|].
  apply wp_bind. eapply wp_mono; [by apply bcc_put_spec|].
  intros r s1 (->&F1&L1&Hst1&Hd1). change (flag_is 0 PREFETCH) with false. cbn iota.
  apply wp_bind. unfold bcc_isExclusive. apply wp_bind, (wp_read_bcc p b); [by eapply At_frame|].
  apply wp_ret. apply wp_bind. change (Z.ldiff 0 PREFETCH) with 0.
  destruct (sharers_bound s p b Hnp N) as [Hsz Hmax].
  assert (Hin := ni_sharer N c Hc Hp Hvc).
  assert (Hs1 : size (sharers (dir s p b)) <> 0%nat).
  { intros Hz%size_empty_inv. set_solver. }
  eapply wp_mono; [apply tcc_put_spec|]; rewrite ?Hd1; try done; try by eapply At_frame.
  - rewrite Hsz. unfold MAX_CACHE_CHILDREN in *. unfold two32. lia.
  - intros Hx. by apply (ni_excl N c Hc Hp), HM.
  - intros [r wb] s2 ([= -> ->]&F2&L2&Hst2&Hd2). repeat wp_step.
    split; [done|]. split; [by eapply LockEq_trans|].
    assert (F : Frame b (fun m => m = c \/ parent_of cfg c b = Some (OCache m)) s s2).
    { eapply Frame_trans; (eapply Frame_weaken; [|done]); cbn; [intros m <-; by right|].
      intros m [->| ->]; auto. }
    split; [done|].
    eapply (put_finish c p b (if decide (put_type st = PUTX) then StM else stt s p b)); try done.
    + case_decide; [|done]. right. split; [by right|auto].
    + intros m. rewrite Hst2, Hst1. destruct (decide (m = c)); [done|].
      destruct (decide (m = p)) as [->|]; [by rewrite decide_True|].
      rewrite decide_False; [done|]. by intros [? _].
    + intros m. by rewrite Hd2, !Hd1.
Qed.

Lemma put_spec fuel ifuel c b lc st cyc src s : (top <= lvl c + fuel)%nat ->
  PutPre c b lc st cyc s ->
  wp (up_access cfg (access cfg memLatency fuel ifuel) c b
        (mkMemReq b (put_type st) (cfg_selfId (cfg c)) (RefLine c lc) cyc (Some (LkBcc c)) st src 0))
     (PutPost c b cyc s) s.
Proof.
  intros Hfuel [HI Hc Hlc Hst Hv Hemp Hlk Hcyc Hcb]. assert (HB := inv_base HI).
  assert (Hvc : stt s c b <> StI) by by rewrite Hst.
  destruct (b_valid HB c b Hc Hvc) as [Hok Hr].
  assert (Hatc : At s c b lc) by by apply Base_At.
  assert (Hput : IsPut (put_type st) = true) by (unfold put_type; by case_bool_decide).
  unfold up_access. destruct (parent_of_is_Some WF c b Hc) as [o Ho].
  apply wp_bind. eapply wp_from_opt; [done|]. destruct o as [p|mc].
  - destruct (parent_up WF c p b Hc Ho) as (Hnp&Hlt&Htp&Hch).
    assert (Hcp : c <> p) by (intros ->; lia).
    pose proof (wf_lvl WF p Hnp). destruct fuel as [|fuel]; [lia|].
    cbn [access]. unfold cache_access.
    apply wp_bind. eapply wp_mono; [by apply startAccess_spec|]. intros [req sk] s1 [[= -> ->] ->].
    assert (S1 := started_Same c p s).
    cbn [type lineAddr srcId cycle]. replace (IsGet (put_type st)) with false
      by (unfold put_type; by case_bool_decide).
    apply wp_bind. apply wp_bind, wp_lookup_noupd; [by apply (Same_Base S1)|done..|].
    intros s2 S2 L2. rewrite (fr_arr S1).
    assert (Hpv : stt s p b <> StI).
    { apply (inclusion WF HI Hc); [|done]. by eapply anc_step, anc_refl. }
    destruct (stt_valid_find s p b Hpv) as [l Hl]. rewrite Hl.
    assert (S12 : Same s s2) by by eapply Same_trans.
    assert (HI2 : Inv s2) by by apply (Same_Inv WF S12).
    apply wp_bind, wp_ret. apply wp_bind, wp_pop_none; [by apply HI2|].
    pose proof (wf_accLat WF p Hnp). rewrite u64_small by lia.
    apply wp_bind. eapply wp_mono; [apply (cc_put_spec _ _ p c b l)|]; try done.
    + by rewrite (fr_arr S12).
    + by rewrite (fr_arr S12).
    + by rewrite (Same_stt _ _ _ _ S12).
    + by rewrite (Same_dir _ _ _ _ S12).
    + intros r s3 (->&L3&F3&HI3&M3&Hst3&Hd3). unfold stitch_records. repeat wp_step.
      eapply wp_mono; [eapply (endAccess_spec c p _ s)|]; try done; [by eapply LockEq_trans|].
      intros [] s4 [S4 L4]. repeat wp_step. apply wp_assert; [apply Z.leb_le; lia|].
      apply wp_ret. split.
      * by apply (Same_Inv WF S4).
      * eapply Frame_trans; [by apply Same_Frame|]. eapply Frame_trans; [done|by apply Same_Frame].
      * done.
      * intros m Hm. rewrite (Same_stt _ _ _ _ S4), <- (Same_stt _ _ _ _ S12). by apply M3.
      * by rewrite (Same_stt _ _ _ _ S4).
      * by rewrite (Same_dir _ _ _ _ S4), Hd3, (Same_dir _ _ _ _ S12).
      * lia.
  - assert (Hacc : forall k, access cfg memLatency k ifuel (OMem mc) = mem_access memLatency mc) by by intros [].
    rewrite Hacc. clear Hacc. unfold mem_access. cbn [type state cycle].
    replace (match put_type st with PUTS | PUTX => _ | _ => _ end) with (write_ref (A:=A) (RefLine c lc) StI)
      by (unfold put_type; by case_bool_decide).
    apply wp_bind, (wp_write_bcc c b); [done|]. intros s1 F1 L1 Hst1 Hd1.
    pose proof (wf_memLat WF mc). rewrite u64_small by lia.
    apply wp_bind, wp_assert; [apply Z.ltb_lt; lia|]. apply wp_ret.
    assert (Hstc : stt s1 c b = StI) by (by rewrite Hst1, decide_True).
    assert (Hsto : forall m, m <> c -> stt s1 m b = stt s m b).
    { intros m ?. rewrite Hst1, decide_False; [done|]. by intros [? _]. }
    assert (M1 : Mono node b s s1).
    { intros m Hm. destruct (decide (m = c)) as [->|]; [done|]. by rewrite Hsto. }
    split; try done; [| |lia].
    + assert (Hnc : forall q d, node d -> parent_of cfg d b = Some (OCache q) -> anc b c q -> d <> c).
      { intros q d Hd Hpd _ ->. congruence. }
      apply (Inv_local b c s); try done.
      * apply (Frame_Base HB F1). intros m Hm Hvm. left. by apply M1.
      * eapply Frame_weaken; [|done]. intros m <-. constructor.
      * intros q Hq. congruence.
      * intros m Hm Hanc Htm. assert (N := inv_node HI m b Hm Htm).
        destruct (decide (m = c)) as [->|Hmc].
        -- apply NodeInv_empty; [rewrite Hd1; by apply Hemp|]. intros d Hd Hpd.
           rewrite Hsto by (by eapply Hnc). apply (NodeInv_empty_children s c b d N); auto.
        -- apply (NodeInv_ext WF s s1 Hm); [by apply Hsto|done| |done].
           intros d Hd Hpd. apply Hsto. by eapply Hnc.
    + eapply Frame_weaken; [|done]. intros m <-. by left.
Qed.

(** ** Evictions *)

(** A write to a node's own line that keeps its permission. *)
Lemma Inv_sim_write n a s s' : Inv s -> node n -> Frame a (eq n) s s' ->
  sim (stt s' n a) (stt s n a) -> (forall m, m <> n -> stt s' m a = stt s m a) ->
  (forall m, dir s' m a = dir s m a) -> Inv s'.
Proof.
  intros HI Hn F Hsim Hst Hd. assert (HB := inv_base HI).
  apply (Inv_local a n s); try done.
  - apply (Frame_Base HB F). intros m Hm. destruct (decide (m = n)) as [->|].
    + intros Hv. left. by apply (sim_valid _ _ Hsim).
    + rewrite Hst by done. by left.
  - eapply Frame_weaken; [|done]. intros m <-. constructor.
  - intros m Hm Hanc Htm. apply (NodeInv_sim s s'); try done; [..|by apply (inv_node HI)].
    + destruct (decide (m = n)) as [->|]; [done|]. by rewrite Hst.
    + intros c Hc _. destruct (decide (c = n)) as [->|]; [done|]. by rewrite Hst.
Qed.

Record EvictPost n b l s s' : Prop := {
  ev_inv : Inv s';
  ev_frame : Frame b (fun m => anc b n m \/ parent_of cfg n b = Some (OCache m)) s s';
  ev_locks : LockEq s s';
  ev_mono : Mono node b s s';
  ev_bcc : bccl s' n l = StI;
  ev_tcc : term n = false -> emptyEntry (tccl s' n l)
}.

Lemma wp_result {T B} (m : M T B) Q (x : T) : wp m Q x -> wp m (fun v y => m x = Ok (v, y) /\ Q v y) x.
Proof. unfold wp. destruct (m x) as [[v y]|]; auto. Qed.

(** The victim is written back: the one request that the eviction sends to the parent is a
    PUTX if [dirty] holds and a PUTS otherwise, and its result is that of the eviction. *)
Definition Sent fuel ifuel n b l src (dirty : Prop) (r : Z) s' : Prop :=
  exists (o : MemObj) (ty : AccessType) (c1 : Z) s1, parent_of cfg n b = Some o /\ (forall m, node m -> m <> n -> anc b n m -> stt s1 m b = StI) /\
    access cfg memLatency fuel ifuel o
      (mkMemReq b ty (cfg_selfId (cfg n)) (RefLine n l) c1 (Some (LkBcc n)) (bccl s1 n l) src 0) s1 = Ok (r, s') /\
    (ty = PUTX /\ dirty \/ ty = PUTS /\ ~ dirty).

Lemma bcc_evict_spec fuel ifuel n b l lwb cyc src s :
  (top <= lvl n + fuel)%nat -> Inv s -> node n -> ca_find (arr s n) b = Some l ->
  stt s n b <> StI -> (term n = false -> emptyEntry (dir s n b)) -> LockPre s n ->
  (lwb = true -> EM (stt s n b)) -> 0 <= cyc -> cyc + K < two64 ->
  (forall m, node m -> m <> n -> anc b n m -> stt s m b = StI) ->
  wp (bcc_processEviction cfg (access cfg memLatency fuel ifuel) n b l lwb cyc src)
     (fun r s' => EvictPost n b l s s' /\ Sent fuel ifuel n b l src (lwb = true \/ stt s n b = StM) r s') s.
Proof.
  intros Hfuel HI Hn Hl Hv Hemp Hlk Hlwb Hcyc Hcb Hbel. assert (HB := inv_base HI).
  unfold bcc_processEviction.
  apply wp_bind. apply (wp_mono _ (fun _ s1 => Inv s1 /\ Frame b (eq n) s s1 /\ LockEq s s1 /\
     Mono node b s s1 /\ stt s1 n b <> StI /\ dir s1 n b = dir s n b /\
     stt s1 n b = (if lwb then StM else stt s n b) /\ (forall m, m <> n -> stt s1 m b = stt s m b))).
  { assert (Hat : At s n b l) by by apply Base_At. destruct lwb.
    - apply wp_bind, (wp_read_bcc n b); [done|].
      apply wp_bind, wp_assert; [by destruct (Hlwb eq_refl) as [-> | ->]|].
      apply (wp_write_bcc n b); [done|]. intros s1 F1 L1 Hst1 Hd1.
      assert (Hstn : stt s1 n b = StM) by (by rewrite Hst1, decide_True).
      assert (Hsto : forall m, m <> n -> stt s1 m b = stt s m b).
      { intros m ?. rewrite Hst1, decide_False; [done|]. by intros [? _]. }
      split_and!; try done; [| |by rewrite Hstn].
      + apply (Inv_sim_write n b s); try done. rewrite Hstn. right. split; [by right|auto].
      + intros m Hm. destruct (decide (m = n)) as [->|]; [done|]. by rewrite Hsto.
    - apply wp_ret. split_and!; try done. intros m _. done. }
  intros [] s1 (HI1&F1&L1&M1&Hv1&Hd1&Hs1&Ho1). assert (HB1 := inv_base HI1).
  assert (Hl1 : ca_find (arr s1 n) b = Some l) by by rewrite (fr_arr F1).
  assert (Hat1 : At s1 n b l) by by apply Base_At.
  apply wp_bind, (wp_read_bcc n b); [done|].
  apply wp_bind.
  replace (match stt s1 n b with StI => _ | _ => _ end) with
    (up_access cfg (access cfg memLatency fuel ifuel) n b
        (mkMemReq b (put_type (stt s1 n b)) (cfg_selfId (cfg n)) (RefLine n l) cyc (Some (LkBcc n))
           (stt s1 n b) src 0)) by (by destruct (stt s1 n b)).
  eapply wp_mono; [apply wp_result, put_spec; [done|]|].
  { split; try done; [by rewrite Hd1|by eapply LockPre_eq]. }
  intros r s2 [Hup [HI2 F2 L2 M2 Hst2 Hd2 Hr]].
  assert (Hl2 : ca_find (arr s2 n) b = Some l) by by rewrite (fr_arr F2).
  apply wp_bind, (wp_read_bcc n b); [apply Base_At; [apply HI2|done|done]|].
  apply wp_bind, wp_assert; [by rewrite Hst2|]. apply wp_ret. split; [split|].
  - done.
  - eapply Frame_trans; (eapply Frame_weaken; [|done]); cbn; [intros m <-; left; constructor|].
    intros m [->|?]; [left; constructor|by right].
  - by eapply LockEq_trans.
  - intros m Hm Hvm. apply (M1 m Hm). by apply (M2 m Hm).
  - by rewrite <- (stt_find s2 n b l Hl2).
  - intros Ht. rewrite <- (dir_find s2 n b l Hl2), Hd2, Hd1. auto.
  - unfold up_access in Hup. unfold mbind, M_bind, mlift in Hup. destruct (parent_of cfg n b) as [p|] eqn:Hp; [|done]. cbn in Hup.
    exists p, (put_type (stt s1 n b)), cyc, s1. split; [done|]. split; [intros m Hm Hne Ha; rewrite Ho1 by done; by apply Hbel|].
    split; [by rewrite <- (stt_find s1 n b l Hl1)|]. rewrite Hs1. unfold put_type. destruct lwb.
    + left. rewrite bool_decide_eq_true_2 by done. auto.
    + case_bool_decide; [left|right]; (split; [done|]); [by right|by intros [?|?]].
Qed.

Lemma evict_idle up inv n req b l cyc s : node n ->
  (l < length (c_bcc (sys_caches s n)))%nat -> (term n = false -> (l < length (c_tcc (sys_caches s n)))%nat) ->
  bccl s n l = StI -> (term n = false -> emptyEntry (tccl s n l)) ->
  wp (cc_processEviction cfg up inv n req b l cyc) (fun _ s' => s' = s) s.
Proof.
  intros Hn Hbl Htl Hst He. unfold cc_processEviction.
  assert (Hb : forall cyc src, wp (bcc_processEviction cfg up n b l false cyc src) (fun _ s' => s' = s) s).
  { intros c' src. unfold bcc_processEviction. apply wp_bind, wp_ret.
    apply wp_bind, wp_get_bcc; [done|]. rewrite Hst. apply wp_bind, wp_ret.
    apply wp_bind, wp_get_bcc; [done|]. rewrite Hst. by apply wp_bind, wp_assert, wp_ret. }
  destruct (term n) eqn:Ht; [apply Hb|].
  unfold tcc_processEviction. rewrite (wf_incl WF n Hn).
  unfold sendInvalidates. apply wp_bind. apply wp_bind, wp_get_entry; [auto|].
  rewrite bool_decide_eq_false_2 by done. cbn [andb].
  destruct (He eq_refl) as [Hz _]. unfold isEmpty. rewrite Hz. apply wp_ret, Hb.
Qed.

Lemma Inv_BelowInv s n a : Inv s -> BelowInv cfg node n a s.
Proof. intros HI m Hm _ _ Htm. by apply (inv_node HI). Qed.

(** The children are invalidated: the subtree no longer holds the line. *)
Lemma send_inval_spec ifuel n a l wb cyc src s :
  (top <= ifuel)%nat -> Inv s -> node n -> term n = false -> aok a ->
  ca_find (arr s n) a = Some l -> LockPre s n -> 0 <= cyc ->
  cyc + 2 * K * Z.of_nat ifuel + K < two64 ->
  wp (sendInvalidates cfg (invalidate cfg ifuel) n a l INV wb cyc src) (fun r s' =>
    Inv s' /\ Frame a (fun m => anc a n m) s s' /\ LockEq s s' /\ Mono node a s s' /\
    stt s' n a = stt s n a /\ emptyEntry (dir s' n a) /\
    cyc <= r.1 <= cyc + 2 * K * Z.of_nat ifuel + K /\
    (r.2 = true <-> wb = true \/ exists m, node m /\ m <> n /\ anc a n m /\ stt s m a = StM)) s.
Proof.
  intros Hif HI Hn Htn Ha Hl Hlk Hcyc Hcb. assert (HB := inv_base HI).
  assert (N := inv_node HI n a Hn Htn). pose proof (wf_lvl WF n Hn).
  eapply wp_mono; [eapply (send_spec cfg memLatency node lvl top root K aok WF ifuel _ (invalidate_spec cfg memLatency node lvl top root K aok WF ifuel))|];
    try done; try lia.
  - apply (ni_size N).
  - by eapply NodeInv_SendSharers.
  - by apply Inv_BelowInv.
  - by apply LockPre_BelowFree.
  - intros r s' SP. assert (Hwb := send_wb _ _ _ _ _ _ _ _ WF _ _ _ _ _ Hn _ _ _ _ N (Inv_BelowInv s n a HI) SP).
    assert (SP' := SP). destruct SP' as [P1 P2 P3 P4 P5 P6 P7 P8 P9 P10 P11].
    split_and!; try done; try lia.
    + apply (Inv_local a n s); try done.
      * intros q _. by rewrite P5.
      * intros m Hm Hanc Htm. destruct (decide (m = n)) as [->|]; [|by apply P7].
        exact (send_NodeInv _ _ _ _ _ _ _ _ WF _ n a INV _ Hn ltac:(done) s _ _ s' s' N SP eq_refl
                 (or_intror eq_refl) (fun _ _ _ => eq_refl)).
    + rewrite P6. done.
Qed.

Lemma evict_spec fuel ifuel n l cyc req s :
  (top <= lvl n + fuel)%nat -> (top <= ifuel)%nat -> Inv s -> node n ->
  (l < ca_numLines (arr s n))%nat -> LockPre s n ->
  0 <= cyc -> cyc + 2 * K * Z.of_nat ifuel + 2 * K < two64 ->
  wp (cc_processEviction cfg (access cfg memLatency fuel ifuel) (invalidate cfg ifuel) n req
        (ca_tag (arr s n) l) l cyc)
     (fun r s' => EvictPost n (ca_tag (arr s n) l) l s s' /\
        (bccl s n l = StI -> s' = s) /\
        (bccl s n l <> StI -> Sent fuel ifuel n (ca_tag (arr s n) l) l (srcId req)
           (exists m, node m /\ anc (ca_tag (arr s n) l) n m /\ stt s m (ca_tag (arr s n) l) = StM) r s')) s.
Proof.
  intros Hfuel Hif HI Hn Hlt Hlk Hcyc Hcb. assert (HB := inv_base HI).
  pose proof (wf_K WF) as HK. set (b := ca_tag (arr s n) l).
  rewrite (b_lines HB n Hn) in Hlt.
  assert (Htl : term n = false -> (l < length (c_tcc (sys_caches s n)))%nat).
  { intros Ht. by rewrite (b_tlines HB n Hn Ht). }
  assert (Hidle : bccl s n l = StI -> (term n = false -> emptyEntry (tccl s n l)) ->
    wp (cc_processEviction cfg (access cfg memLatency fuel ifuel) (invalidate cfg ifuel) n req b l cyc)
     (fun r s' => EvictPost n b l s s' /\ (bccl s n l = StI -> s' = s) /\ (bccl s n l <> StI -> Sent fuel ifuel n b l (srcId req)
        (exists m, node m /\ anc b n m /\ stt s m b = StM) r s')) s).
  { intros Hi He. eapply wp_mono; [by apply evict_idle|]. intros r s' ->. split; [|by split].
    split; try done. intros m _. done. }
  destruct (decide (ca_find (arr s n) b = Some l)) as [Hl|Hl].
  2:{ destruct (b_clean HB n l Hn Hlt Hl) as [??]. by apply Hidle. }
  assert (Eb := stt_find s n b l Hl).
  destruct (decide (stt s n b = StI)) as [Hi|Hv].
  { apply Hidle; [by rewrite <- Eb|]. intros Ht.
    rewrite <- (dir_find s n b l Hl). by apply (NodeInv_invalid (inv_node HI n b Hn Ht)). }
  destruct (b_valid HB n b Hn Hv) as [Hok _]. rewrite <- Eb.
  unfold cc_processEviction. destruct (term n) eqn:Htn.
  { assert (Hbel : forall m, node m -> m <> n -> anc b n m -> stt s m b = StI).
    { intros m Hm Hne Ha. by destruct Hne; apply (terminal_anc _ _ _ _ _ _ _ WF n b m). }
    eapply wp_mono; [apply bcc_evict_spec|]; try done; try lia; [by rewrite Htn|]. intros r s' [P (p&t&c1&s1&S1&S2&S3&S4)]. split; [done|].
    split; [by intros ?|]. intros _. exists p, t, c1, s1. do 3 (split; [done|]).
    assert (Hiff : (exists m, node m /\ anc b n m /\ stt s m b = StM) <-> stt s n b = StM).
    { split; [|intros ?; exists n; split; [done|]; by split; [constructor|]]. intros (m&Hm&Ha&Hst). by rewrite <- (terminal_anc _ _ _ _ _ _ _ WF n b m). }
    rewrite Hiff. destruct S4 as [[? [?|?]]|[? ?]]; [done|by left|right; tauto]. }
  unfold tcc_processEviction. rewrite (wf_incl WF n Hn). apply wp_bind.
  eapply wp_mono; [apply (send_inval_spec ifuel n b l)|]; try done; try lia.
  intros [cy wb] s1 (HI1&F1&L1&M1&Hst1&He1&Hcy&Hwb). cbn [fst snd] in *.
  assert (Hl1 : ca_find (arr s1 n) b = Some l) by by rewrite (fr_arr F1).
  assert (Hbel : forall m, node m -> m <> n -> anc b n m -> stt s1 m b = StI).
  { intros m Hm Hne Ha. apply dec_stable. intros Hvm. destruct (anc_inv Ha Hne) as (c&Hc&Hac).
    assert (Hnc : node c) by by eapply (anc_node WF). assert (Hvc := inclusion WF HI1 Hm Hac Hvm).
    assert (N1 := inv_node HI1 n b Hn Htn). pose proof (ni_sharer N1 c Hnc Hc Hvc) as Hs. destruct He1 as [_ He1]. set_solver. }
  eapply wp_mono; [apply (bcc_evict_spec fuel ifuel n b l)|]; try done; try lia.
  - by rewrite Hst1.
  - by eapply LockPre_eq.
  - intros ->. rewrite Hst1. destruct Hwb as [Hwb _]. destruct (Hwb eq_refl) as [?|(m&Hm&_&Hanc&Hst)]; [done|].
    apply (exclusion WF HI Hm Hanc). by right.
  - intros r s2 [[P1 P2 P3 P4 P5 P6] (p&t&c1&s3&S1&S2&S3&S4)]. split; [split; try done|split; [by intros ?|]].
    + eapply Frame_trans; [|done]. eapply Frame_weaken; [|exact F1]. by left.
    + by eapply LockEq_trans.
    + intros m Hm Hvm. apply (M1 m Hm). by apply P4.
    + intros _. exists p, t, c1, s3. do 3 (split; [done|]). rewrite Hst1 in S4.
      assert (Hiff : (exists m, node m /\ anc b n m /\ stt s m b = StM) <-> wb = true \/ stt s n b = StM).
      { rewrite Hwb. split.
        - intros (m&Hm&Ha&Hst). destruct (decide (m = n)) as [->|Hne]; [by right|]. left. right. by exists m.
        - intros [[?|(m&Hm&_&Ha&Hst)]|Hst]; [done|by exists m|]. exists n. split; [done|]. by split; [constructor|]. }
      by rewrite Hiff.
Qed.

(** ** Changing the array of a cache *)
Lemma arr_set_array n x s m : arr (set_cache n (set_array x) s) m = if decide (m = n) then x else arr s m.
Proof. unfold arr. simpl. destruct (decide (m = n)) as [->|]; [by rewrite upd_eq|by rewrite upd_ne]. Qed.
Lemma bccl_set_array n x s m l : bccl (set_cache n (set_array x) s) m l = bccl s m l.
Proof. unfold bccl. by rewrite (proj_keep c_bcc). Qed.
Lemma tccl_set_array n x s m l : tccl (set_cache n (set_array x) s) m l = tccl s m l.
Proof. unfold tccl. by rewrite (proj_keep c_tcc). Qed.

(** A new array of the same size in which every line that is not found is clean,
    and through which every address has the view it had. *)
Lemma Inv_new_array n x s : Inv s -> node n ->
  ca_wf x -> ca_numLines x = ca_numLines (arr s n) ->
  (forall y, ca_addr_ok x y <-> ca_addr_ok (arr s n) y) ->
  (forall l, (l < ca_numLines x)%nat -> ca_find x (ca_tag x l) <> Some l ->
     bccl s n l = StI /\ (term n = false -> emptyEntry (tccl s n l))) ->
  (forall y, match ca_find x y with Some l => bccl s n l | None => StI end = stt s n y) ->
  (forall y, term n = false -> match ca_find x y with Some l => tccl s n l | None => Entry_clear end = dir s n y
     \/ (emptyEntry (match ca_find x y with Some l => tccl s n l | None => Entry_clear end)
         /\ emptyEntry (dir s n y))) ->
  let s' := set_cache n (set_array x) s in
  Inv s' /\ LockEq s s' /\ (forall m b, stt s' m b = stt s m b).
Proof.
  intros HI Hn Hw Hnl Hok Hcl Hs Hd s'. assert (HB := inv_base HI).
  assert (Harr := arr_set_array n x s). fold s' in Harr.
  assert (Hst : forall m b, stt s' m b = stt s m b).
  { intros m b. unfold stt at 1. rewrite Harr. case_decide as Hm; [subst|].
    - rewrite <- Hs. destruct (ca_find x b); [apply bccl_set_array|done].
    - fold (stt s' m b). unfold stt. destruct (ca_find (arr s m) b); [apply bccl_set_array|done]. }
  assert (Hdir : forall m b, term m = false -> dir s' m b = dir s m b \/
            (emptyEntry (dir s' m b) /\ emptyEntry (dir s m b))).
  { intros m b Ht. destruct (decide (m = n)) as [->|Hm].
    - replace (dir s' n b) with (match ca_find x b with Some l => tccl s n l | None => Entry_clear end).
      { by apply Hd. }
      unfold dir. rewrite Harr, decide_True by done.
      destruct (ca_find x b); [symmetry; apply tccl_set_array|done].
    - left. unfold dir. rewrite Harr, decide_False by done.
      destruct (ca_find (arr s m) b); [apply tccl_set_array|done]. }
  split_and!; [|by apply LockEq_set_cache|done].
  assert (Hbl : forall m, length (c_bcc (sys_caches s' m)) = length (c_bcc (sys_caches s m))).
  { intros m. unfold s'. by rewrite (proj_keep c_bcc). }
  split.
  - split.
    + intros m Hm. rewrite Harr. case_decide; [done|by apply HB].
    + intros m Hm. rewrite Harr, Hbl. case_decide; [subst; rewrite Hnl|]; by apply HB.
    + intros m Hm Ht. rewrite Hbl. unfold s'. rewrite (proj_keep c_tcc) by done. by apply HB.
    + intros m b Hm Hb. rewrite Harr. case_decide; [subst; apply Hok|]; by apply HB.
    + intros m l Hm. rewrite Hbl, Harr. unfold s'. rewrite bccl_set_array, tccl_set_array. fold s'.
      case_decide; [subst|by apply HB].
      intros Hl Hf. apply Hcl; [|done]. by rewrite Hnl, (b_lines HB n Hn).
    + intros m b Hm. rewrite Hst. by apply HB.
    + intros m Hm Ht. unfold s'. rewrite (proj_keep c_filter) by done. by apply HB.
    + apply HB.
  - intros p b Hp Htp. assert (N := inv_node HI p b Hp Htp).
    destruct (Hdir p b Htp) as [He|[He1 He2]].
    + by apply (NodeInv_ext WF s s' Hp).
    + apply NodeInv_empty; [done|]. intros c Hc Hpc. rewrite Hst. by apply (NodeInv_empty_children s p b c N).
Qed.

(** ... in particular one that finds what the old one found. *)
Lemma Inv_same_array n x s : Inv s -> node n ->
  ca_wf x -> ca_numLines x = ca_numLines (arr s n) ->
  (forall y, ca_addr_ok x y <-> ca_addr_ok (arr s n) y) ->
  (forall y, ca_find x y = ca_find (arr s n) y) -> (forall l, ca_tag x l = ca_tag (arr s n) l) ->
  let s' := set_cache n (set_array x) s in
  Inv s' /\ LockEq s s' /\ (forall m b, stt s' m b = stt s m b).
Proof.
  intros HI Hn Hw Hnl Hok Hf Ht. apply Inv_new_array; try done.
  - intros l Hl. rewrite Ht, Hf. apply (b_clean (inv_base HI) n l Hn).
    by rewrite <- (b_lines (inv_base HI) n Hn), <- Hnl.
  - intros y. by rewrite Hf.
  - intros y _. rewrite Hf. by left.
Qed.

(** ... or the one after an insertion into a clean line. *)
Lemma Inv_postinsert n a l x s : Inv s -> node n ->
  bccl s n l = StI -> (term n = false -> emptyEntry (tccl s n l)) -> ca_find (arr s n) a = None ->
  ca_wf x -> ca_numLines x = ca_numLines (arr s n) ->
  (forall y, ca_addr_ok x y <-> ca_addr_ok (arr s n) y) ->
  ca_find x a = Some l ->
  (forall y, y <> a -> ca_find (arr s n) y <> Some l -> ca_find x y = ca_find (arr s n) y) ->
  (forall l', ca_tag x l' = if decide (l = l') then a else ca_tag (arr s n) l') ->
  let s' := set_cache n (set_array x) s in
  Inv s' /\ LockEq s s' /\ (forall m b, stt s' m b = stt s m b).
Proof.
  intros HI Hn Hbl Htl Hna Hw Hnl Hok Hfa Hfo Htag. assert (HB := inv_base HI).
  assert (Hclean : forall l' y, (l' < ca_numLines x)%nat -> ca_tag (arr s n) l' = y ->
    ca_find (arr s n) y <> Some l' -> bccl s n l' = StI /\ (term n = false -> emptyEntry (tccl s n l'))).
  { intros l' y Hlt <- Hne. apply (b_clean HB n l' Hn); [|done].
    by rewrite <- (b_lines HB n Hn), <- Hnl. }
  (** the lines that [x] finds where the old array found [l] *)
  assert (Hmoved : forall y, y <> a -> ca_find (arr s n) y = Some l ->
    match ca_find x y with
    | Some l' => bccl s n l' = StI /\ (term n = false -> emptyEntry (tccl s n l')) | None => True end).
  { intros y Hy Hyl. destruct (ca_find x y) as [l'|] eqn:Hl'; [|done].
    destruct (ca_find_tag _ _ _ Hw Hl') as [Hlt Ht]. rewrite Htag in Ht.
    case_decide as Hll; [congruence|]. apply (Hclean l' y Hlt Ht). congruence. }
  apply Inv_new_array; try done.
  - intros l' Hlt. rewrite Htag. case_decide as Hll; [subst; congruence|]. intros Hne.
    apply (Hclean l' _ Hlt eq_refl). destruct (decide (ca_tag (arr s n) l' = a)) as [->|Hta]; [congruence|].
    intros Hfl. apply Hne. rewrite Hfo; [done|done|]. rewrite Hfl. congruence.
  - intros y. destruct (decide (y = a)) as [->|Hy].
    + rewrite Hfa. unfold stt. by rewrite Hna.
    + destruct (decide (ca_find (arr s n) y = Some l)) as [Hyl|Hyl]; [|by rewrite Hfo].
      rewrite (stt_find s n y l Hyl), Hbl. specialize (Hmoved y Hy Hyl).
      destruct (ca_find x y); [by apply Hmoved|done].
  - intros y Ht. destruct (decide (y = a)) as [->|Hy].
    + right. rewrite Hfa. unfold dir. rewrite Hna. split; [auto|done].
    + destruct (decide (ca_find (arr s n) y = Some l)) as [Hyl|Hyl]; [|left; by rewrite Hfo].
      right. rewrite (dir_find s n y l Hyl). specialize (Hmoved y Hy Hyl).
      destruct (ca_find x y); split; auto; [by apply Hmoved|done].
Qed.

(** ** Finding or allocating the line of a GET *)
Record FillPost n a l s s' : Prop := {
  fi_inv : Inv s';
  fi_locks : LockEq s s';
  fi_arr : forall m, m <> n -> arr s' m = arr s m;
  fi_idle : ca_idle (arr s' n);
  fi_find : ca_find (arr s' n) a = Some l;
  fi_stt : forall m, node m -> stt s' m a = stt s m a;
  fi_mono : forall b, Mono node b s s';
  fi_mask : sys_procMask s' = sys_procMask s
}.

Lemma wp_lookup_upd n a req (Q : option nat -> Sys A -> Prop) s :
  Inv s -> node n -> aok a -> ca_idle (arr s n) -> IsGet (type req) = true ->
  (forall s', Inv s' -> LockEq s s' -> (forall m, m <> n -> arr s' m = arr s m) ->
     ca_idle (arr s' n) -> (forall m b, stt s' m b = stt s m b) ->
     sys_procMask s' = sys_procMask s -> Q (ca_find (arr s' n) a) s') ->
  wp (array_lookup n a (Some req) true) Q s.
Proof.
  intros HI Hn Ha Hid Hg HQ. unfold array_lookup. repeat wp_step. apply wp_lift.
  destruct (rwp_elim _ _ (ca_lookup_upd (arr s n) a req Hid (b_addr (inv_base HI) n a Hn Ha) Hg))
    as ([r x]&Hrun&->&Hix&Hnl&Hok&Hf&Ht).
  eapply rwp_ok; [exact Hrun|]. cbn beta iota. repeat wp_step.
  destruct (Inv_same_array n x s) as (HI'&L'&Hst'); try done; [by apply ca_idle_wf|].
  assert (Harr := arr_set_array n x s). rewrite <- Hf.
  assert (Hxn : arr (set_cache n (set_array x) s) n = x) by by rewrite Harr, decide_True.
  rewrite <- Hxn at 1. apply HQ; try done.
  - intros m Hm. by rewrite Harr, decide_False.
  - by rewrite Harr, decide_True.
Qed.

Lemma alloc_spec fuel ifuel n a req cyc s :
  (top <= lvl n + fuel)%nat -> (top <= ifuel)%nat -> Inv s -> node n -> aok a ->
  ca_idle (arr s n) -> ca_find (arr s n) a = None -> LockPre s n -> IsGet (type req) = true ->
  0 <= cyc -> cyc + 2 * K * Z.of_nat ifuel + 2 * K < two64 ->
  wp ('(l, wbLineAddr) ← array_preinsert cfg n a req;
      cc_processEviction cfg (access cfg memLatency fuel ifuel) (invalidate cfg ifuel) n req wbLineAddr l cyc;;
      array_postinsert n a req l;;
      mret (Some l))
     (fun r s' => exists l, r = Some l /\ FillPost n a l s s') s.
Proof.
  intros Hfuel Hif HI Hn Ha Hid Hna Hlk Hg Hcyc Hcb.
  unfold array_preinsert. repeat wp_step. apply wp_lift.
  destruct (rwp_elim _ _ (ca_preinsert_ok (arr s n) (cc_view cfg n s) a req Hid
    (b_addr (inv_base HI) n a Hn Ha) Hna)) as ([[l wb] x]&Hrun&->&Hlt&Hta&Hpend&Hnl&Hok&Hf&Ht).
  eapply rwp_ok; [exact Hrun|]. cbn beta iota. repeat wp_step.
  destruct (Inv_same_array n x s) as (HI1&L1&Hst1); try done; [by eapply ca_pending_wf|].
  set (s1 := set_cache n (set_array x) s) in *.
  assert (Harr1 := arr_set_array n x s). fold s1 in Harr1.
  assert (Harr1n : arr s1 n = x) by by rewrite Harr1, decide_True.
  rewrite <- Ht, <- Harr1n.
  eapply wp_mono; [apply evict_spec|]; try done.
  { by rewrite Harr1n, Hnl. }
  { by eapply LockPre_eq. }
  rewrite Harr1n, Ht. set (b := ca_tag (arr s n) l) in *.
  intros _ s2 [[HI2 F2 L2 M2 Hb2 Ht2] _].
  assert (Harr2 : forall m, arr s2 m = arr s1 m) by apply (fr_arr F2).
  unfold array_postinsert. repeat wp_step. apply wp_lift.
  assert (Hpn : ca_pending (arr s2 n) a l) by by rewrite Harr2, Harr1n.
  assert (Hna2 : ca_find (arr s2 n) a = None) by by rewrite Harr2, Harr1n, Hf.
  destruct (rwp_elim _ _ (ca_postinsert_ok (arr s2 n) a req l Hpn Hna2 Hg))
    as (x'&Hrun'&Hidx&Hnl'&Hok'&Hfa&Hfo&Ht').
  eapply rwp_ok; [exact Hrun'|]. cbn beta iota. repeat wp_step.
  destruct (Inv_postinsert n a l x' s2) as (HI3&L3&Hst3); try done; [by apply ca_idle_wf|].
  set (s3 := set_cache n (set_array x') s2) in *.
  assert (Harr3 := arr_set_array n x' s2). fold s3 in Harr3.
  exists l. split; [done|]. split; try done.
  - eapply LockEq_trans; [|done]. by eapply LockEq_trans.
  - intros m Hm. rewrite Harr3, decide_False, Harr2, Harr1, decide_False by done. done.
  - by rewrite Harr3, decide_True.
  - by rewrite Harr3, decide_True.
  - intros m Hm. rewrite Hst3, <- Hst1. apply (Frame_stt _ _ (inv_base HI1) Hm F2). by left.
  - intros y m Hm. rewrite Hst3, <- Hst1. destruct (decide (y = b)) as [->|Hy]; [by apply M2|].
    by rewrite (Frame_stt _ _ (inv_base HI1) Hm F2) by (by left).
  - apply (fr_procMask F2).
Qed.

(** ** GETS and GETX *)
Definition IdleAbove s (k : nat) : Prop := forall m, node m -> (k < lvl m)%nat -> ca_idle (arr s m).

(** The latency of a request that can still climb [fuel] levels. *)
Definition lat (ifuel fuel : nat) : Z := K * (Z.of_nat fuel * (2 * Z.of_nat ifuel + 3) + 1).
Lemma lat_S ifuel fuel : lat ifuel (Datatypes.S fuel) = lat ifuel fuel + K * (2 * Z.of_nat ifuel + 3).
Proof. unfold lat. lia. Qed.
Lemma lat_ge ifuel fuel : K <= lat ifuel fuel.
Proof. unfold lat. pose proof (wf_K WF). nia. Qed.

Record UpPre ifuel fuel c a lc t st cyc s : Prop := {
  up_inv : Inv s;
  up_node : node c;
  up_reach : reach c a;
  up_aok : aok a;
  up_find : ca_find (arr s c) a = Some lc;
  up_stt : stt s c a = st;
  up_need : (t = GETS /\ st = StI) \/ (t = GETX /\ (st = StI \/ st = StS));
  up_locks : LockPre s c;
  up_idle : IdleAbove s (lvl c);
  up_fuel : (top <= lvl c + fuel)%nat;
  up_cyc : 0 <= cyc;
  up_cycb : cyc + lat ifuel fuel + K < two64;
  up_lat : lat ifuel fuel + K < two32
}.

(** The request is granted: [G] says of what. *)
Record GetPost (G : MESIState -> Prop) c a cyc bound s (r : Z) s' : Prop := {
  gp_inv : Inv s';
  gp_locks : LockEq s s';
  gp_arr : forall m, node m -> (lvl m <= lvl c)%nat -> arr s' m = arr s m;
  gp_idle : IdleAbove s' (lvl c);
  gp_stt : G (stt s' c a);
  gp_below : forall m, node m -> m <> c -> anc a c m -> stt s' m a = stt s m a;
  gp_mono : forall b, b <> a -> Mono node b s s';
  gp_cyc : cyc <= r <= cyc + bound;
  gp_mask : sys_procMask s' = sys_procMask s
}.
Definition granted (t : AccessType) (st : MESIState) : Prop :=
  match t with GETS => st = StS \/ st = StE | _ => st = StM end.
Definition permits (t : AccessType) (st : MESIState) : Prop :=
  match t with GETS => st <> StI | _ => st = StM end.

Definition UpSpec ifuel fuel (up : MemObj -> MemReq -> M (Sys A) Z) : Prop :=
  forall c a lc t st cyc src fl s, UpPre ifuel fuel c a lc t st cyc s ->
    flag_is fl PREFETCH = false ->
    wp (up_access cfg up c a
          (mkMemReq a t (cfg_selfId (cfg c)) (RefLine c lc) cyc (Some (LkBcc c)) st src fl))
       (GetPost (granted t) c a cyc (lat ifuel fuel) s) s.

Lemma GetPost_Same (G G' : MESIState -> Prop) c a cyc bound bound' s0 s r r' s1 s2 :
  (forall x, G x -> G' x) -> cyc <= r' <= cyc + bound' -> Same s0 s -> LockEq s0 s ->
  Same s1 s2 -> LockEq s1 s2 ->
  GetPost G c a cyc bound s r s1 -> GetPost G' c a cyc bound' s0 r' s2.
Proof.
  intros HG Hr S0 L0 S1 L1 [P1 P2 P3 P4 P5 P6 P7 P8 P9]. split; try done.
  - by apply (Same_Inv WF S1).
  - eapply LockEq_trans; [done|]. by eapply LockEq_trans.
  - intros m Hm Hl. by rewrite (fr_arr S1), P3, (fr_arr S0).
  - intros m Hm Hl. rewrite (fr_arr S1). by apply P4.
  - rewrite (Same_stt _ _ _ _ S1). auto.
  - intros m ???. rewrite (Same_stt _ _ _ _ S1), <- (Same_stt _ _ _ _ S0). auto.
  - intros b Hb m Hm. rewrite (Same_stt _ _ _ _ S1), <- (Same_stt _ _ m b S0). by apply P7.
  - by rewrite (fr_procMask S1), P9, (fr_procMask S0).
Qed.

(** A request to the parent, with the latency accounting of the miss path. *)
Lemma bcc_miss_spec ifuel fuel up n a l t st cyc src fl s :
  UpSpec ifuel fuel up -> UpPre ifuel fuel n a l t st cyc s -> flag_is fl PREFETCH = false ->
  wp (bcc_miss cfg up n a l t st cyc src fl)
     (GetPost (granted t) n a cyc (lat ifuel fuel + K) s) s.
Proof.
  intros Hup Hpre Hfl. assert (Hn := up_node _ _ _ _ _ _ _ _ _ Hpre).
  pose proof (up_cyc _ _ _ _ _ _ _ _ _ Hpre). pose proof (up_cycb _ _ _ _ _ _ _ _ _ Hpre).
  pose proof (up_lat _ _ _ _ _ _ _ _ _ Hpre). pose proof (wf_K WF).
  unfold bcc_miss. apply wp_bind. eapply wp_mono; [by apply Hup|].
  intros r s1 HP. assert (Hr := gp_cyc _ _ _ _ _ _ _ _ HP).
  destruct (rtt_parent WF n a Hn) as (rtt&Hrtt&Hrb).
  apply wp_bind. eapply wp_arr_get; [done|].
  apply wp_bind, wp_prof. intros s2 S2 L2. apply wp_bind, wp_prof. intros s3 S3 L3. apply wp_ret.
  rewrite !(u32_small (r - cyc)), (u32_small (r - cyc + rtt)), u64_small by lia.
  eapply GetPost_Same; [|..|exact HP]; try done; [lia|..].
  - by eapply Same_trans.
  - by eapply LockEq_trans.
Qed.

(** Nothing to do. *)
Lemma GetPost_hit (G : MESIState -> Prop) c a cyc bound s : Inv s -> IdleAbove s (lvl c) ->
  G (stt s c a) -> 0 <= bound -> GetPost G c a cyc bound s cyc s.
Proof. intros HI Hid HG Hb. split; try done; [|lia]. intros b _ m Hm. done. Qed.

Lemma bcc_get_spec ifuel fuel up n a l t cyc src fl s :
  UpSpec ifuel fuel up -> IsGet t = true -> flag_is fl PREFETCH = false ->
  Inv s -> node n -> reach n a -> aok a -> ca_find (arr s n) a = Some l ->
  LockPre s n -> IdleAbove s (lvl n) -> (top <= lvl n + fuel)%nat ->
  0 <= cyc -> cyc + lat ifuel fuel + K < two64 -> lat ifuel fuel + K < two32 ->
  wp (bcc_processAccess cfg up n a l t cyc src fl)
     (GetPost (permits t) n a cyc (lat ifuel fuel + K) s) s.
Proof.
  intros Hup Hg Hfl HI Hn Hr Ha Hl Hlk Hid Hf Hcyc Hcb Hlat. assert (HB := inv_base HI).
  pose proof (wf_K WF) as HK. pose proof (lat_ge ifuel fuel) as Hge.
  assert (Hat : At s n a l) by by apply Base_At.
  unfold bcc_processAccess. apply wp_bind, (wp_read_bcc n a); [done|].
  (** the end of the function, common to all cases *)
  assert (Hend : forall (go : M (Sys A) Z) (msg : string) s1,
    wp go (GetPost (permits t) n a cyc (lat ifuel fuel + K) s) s1 ->
    wp (go ≫= fun r => massert (cyc <=? r) msg;; mret r)
       (GetPost (permits t) n a cyc (lat ifuel fuel + K) s) s1).
  { intros go msg s1 Hm. apply wp_bind. eapply wp_mono; [exact Hm|]. intros r s2 HP.
    apply wp_bind, wp_assert; [apply Z.leb_le; by apply HP|]. by apply wp_ret. }
  apply Hend. clear Hend.
  assert (Hhit : forall k s1, Inv s1 -> LockEq s s1 -> (forall m, arr s1 m = arr s m) ->
     permits t (stt s1 n a) -> (forall m, node m -> m <> n -> stt s1 m a = stt s m a) ->
     (forall b, b <> a -> Mono node b s s1) -> sys_procMask s1 = sys_procMask s ->
     wp (prof_inc n k 1;; mret cyc) (GetPost (permits t) n a cyc (lat ifuel fuel + K) s) s1).
  { intros k s1 HI1 L1 Ha1 Hp1 Hst1 Hm1 Hpm1. apply wp_bind, wp_prof. intros s2 S2 L2. apply wp_ret.
    eapply (GetPost_Same _ (permits t) n a cyc (lat ifuel fuel + K) _ s s cyc); try done; [lia|].
    split; try done; [|by auto|lia]. intros m Hm Hlm. rewrite Ha1. by apply Hid. }
  destruct t; try done.
  - (* GETS *)
    case_bool_decide as Hst.
    + apply wp_bind. eapply wp_mono; [eapply (bcc_miss_spec ifuel fuel)|]; try done.
      { split; try done. by left. }
      intros r s1 HP. apply wp_bind, wp_prof. intros s2 S2 L2.
      assert (HI2 : Inv s2) by (apply (Same_Inv WF S2); apply HP).
      assert (Hl2 : ca_find (arr s2 n) a = Some l).
      { rewrite (fr_arr S2), (gp_arr _ _ _ _ _ _ _ _ HP); done. }
      apply wp_bind, (wp_read_bcc n a); [apply Base_At; [apply HI2|done..]|].
      assert (Hg2 : granted GETS (stt s2 n a)).
      { rewrite (Same_stt _ _ _ _ S2). apply HP. }
      apply wp_bind, wp_assert; [by destruct Hg2 as [-> | ->]|]. apply wp_ret.
      eapply GetPost_Same; [| |apply Same_refl|apply LockEq_refl|exact S2|exact L2|exact HP].
      * intros x [-> | ->]; done.
      * apply HP.
    + apply Hhit; try done. intros b _ m Hm. done.
  - (* GETX *)
    assert (Hend : forall (go : M (Sys A) Z) (msg : string),
      wp go (GetPost (permits GETX) n a cyc (lat ifuel fuel + K) s) s ->
      wp (go ≫= fun r => st' ← get_bcc n l; massert (bool_decide (st' = StM)) msg;; mret r)
       (GetPost (permits GETX) n a cyc (lat ifuel fuel + K) s) s).
    { intros go msg Hm. apply wp_bind. eapply wp_mono; [exact Hm|]. intros r s2 HP.
      apply wp_bind, (wp_read_bcc n a).
      { apply Base_At; [apply HP|done|]. by rewrite (gp_arr _ _ _ _ _ _ _ _ HP). }
      apply wp_bind, wp_assert; [apply bool_decide_eq_true, HP|]. by apply wp_ret. }
    apply Hend. clear Hend.
    destruct (bool_decide (stt s n a = StI) || bool_decide (stt s n a = StS)) eqn:Hneed.
    + assert (Hmiss : forall k, wp (prof_inc n k 1;; bcc_miss cfg up n a l GETX (stt s n a) cyc src fl)
        (GetPost (permits GETX) n a cyc (lat ifuel fuel + K) s) s).
      { intros k. apply wp_bind, wp_prof. intros s1 S1 L1.
        eapply wp_mono; [eapply (bcc_miss_spec ifuel fuel)|]; try done.
        - split; try done.
          + by apply (Same_Inv WF S1).
          + by rewrite (fr_arr S1).
          + by apply Same_stt.
          + right. split; [done|]. apply orb_true_iff in Hneed.
            destruct Hneed as [?%bool_decide_eq_true|?%bool_decide_eq_true]; auto.
          + by eapply LockPre_eq.
          + intros m Hm Hlm. rewrite (fr_arr S1). by apply Hid.
        - intros r s2 HP. eapply GetPost_Same; [|..|exact HP]; try done. apply HP. }
      case_bool_decide; apply Hmiss.
    + apply orb_false_iff in Hneed as [HnI%bool_decide_eq_false HnS%bool_decide_eq_false].
      case_bool_decide as HE.
      * apply wp_bind, (wp_write_bcc n a); [done|]. intros s1 F1 L1 Hst1 Hd1.
        assert (Hstn : stt s1 n a = StM) by (by rewrite Hst1, decide_True).
        assert (Hsto : forall m, m <> n -> stt s1 m a = stt s m a).
        { intros m ?. rewrite Hst1, decide_False; [done|]. by intros [? _]. }
        apply Hhit; try done.
        -- apply (Inv_sim_write n a s); try done. rewrite Hstn, HE. right. split; [by right|by left].
        -- apply (fr_arr F1).
        -- by auto.
        -- intros b Hb m Hm. rewrite Hst1, decide_False; [done|]. by intros [_ ?].
        -- apply (fr_procMask F1).
      * apply wp_bind, wp_ret. apply Hhit; try done; [|intros b _ m Hm; done].
        by destruct (stt s n a).
Qed.

(** ** The directory grants the line to a child *)

(** ... exclusively *)
Lemma NodeInv_single s p a c : node p -> node c -> parent_of cfg c a = Some (OCache p) ->
  dir s p a = mkEntry 1 {[cfg_selfId (cfg c)]} true -> EM (stt s c a) -> EM (stt s p a) ->
  (forall d, node d -> d <> c -> parent_of cfg d a = Some (OCache p) -> stt s d a = StI) ->
  NodeInv s p a.
Proof.
  intros Hp Hc Hpc Hd HEc HEp Ho. destruct (parent_up WF c p a Hc Hpc) as (_&_&_&Hch).
  assert (Hvc : stt s c a <> StI) by by destruct HEc as [-> | ->].
  assert (Hvp : stt s p a <> StI) by by destruct HEp as [-> | ->].
  assert (Hd' : forall d, node d -> parent_of cfg d a = Some (OCache p) -> stt s d a <> StI -> d = c).
  { intros d Hnd Hpd Hv. destruct (decide (d = c)) as [|Hne]; [done|]. by rewrite Ho in Hv. }
  split; rewrite ?Hd; cbn [numSharers sharers exclusive]; try done.
  - by rewrite size_singleton.
  - intros i ->%elem_of_singleton. by exists c.
  - intros d Hnd Hpd Hv. rewrite (Hd' d) by done. by apply elem_of_singleton.
  - intros d Hnd Hpd _ Hv. by rewrite (Hd' d).
Qed.

(** ... shared *)
Lemma NodeInv_share s s' p a c : node p -> node c -> parent_of cfg c a = Some (OCache p) ->
  NodeInv s p a -> isExclusive (dir s p a) = false -> cfg_selfId (cfg c) ∉ sharers (dir s p a) ->
  dir s' p a = mkEntry (numSharers (dir s p a) + 1) (sharers (dir s p a) ∪ {[cfg_selfId (cfg c)]}) false ->
  stt s' c a = StS -> stt s' p a <> StI ->
  (forall d, node d -> d <> c -> parent_of cfg d a = Some (OCache p) -> stt s' d a = stt s d a) ->
  NodeInv s' p a.
Proof.
  intros Hp Hc Hpc N Hnx Hni Hd Hsc Hvp Ho. destruct (parent_up WF c p a Hc Hpc) as (_&_&_&Hch).
  assert (Hex : isExclusive (dir s' p a) = false) by (rewrite Hd; apply andb_false_r).
  split; rewrite ?Hex; rewrite ?Hd; cbn [numSharers sharers exclusive]; try done.
  - rewrite size_union, size_singleton, (ni_size N) by set_solver. lia.
  - intros i [Hi| ->%elem_of_singleton]%elem_of_union; [|by exists c; rewrite Hsc].
    destruct (ni_child N i Hi) as (d&Hchd&Hpd&Hv). exists d. split_and!; try done.
    destruct (wf_down WF p i d Hp Hchd) as (Hnd&Hsd&_).
    rewrite Ho; try done. intros ->. by rewrite Hsd in Hni.
  - intros d Hnd Hpd Hv. apply elem_of_union. destruct (decide (d = c)) as [->|Hne]; [right; set_solver|].
    left. rewrite Ho in Hv by done. by apply (ni_sharer N).
  - intros d Hnd Hpd HE. destruct (decide (d = c)) as [->|Hne]; [by rewrite Hsc in HE; destruct HE|].
    rewrite Ho in HE by done. pose proof (ni_excl N d Hnd Hpd HE). congruence.
Qed.

(** The writes of a grant, after the other children were dealt with ([s1]). *)
Lemma grant_finish c p a st' e' s s1 s' :
  Inv s -> node c -> reach c a -> aok a -> parent_of cfg c a = Some (OCache p) -> ~ EM (stt s c a) ->
  Base s1 -> Frame a (fun m => anc a p m) s s1 -> BelowInv cfg node p a s1 -> stt s1 p a = stt s p a ->
  (forall m, node m -> anc a c m -> stt s1 m a = stt s m a /\ dir s1 m a = dir s m a) ->
  Frame a (fun m => m = c \/ m = p) s1 s' ->
  (forall m, stt s' m a = if decide (m = c) then st' else stt s1 m a) ->
  (forall m, dir s' m a = if decide (m = p) then e' else dir s1 m a) ->
  st' <> StI -> NodeInv s' p a -> Inv s'.
Proof.
  intros HI Hc Hr Ha Hpc HnE HB1 F1 HBI Hp1 Hsub F2 Hst Hd Hv NP.
  destruct (parent_up WF c p a Hc Hpc) as (Hnp&Hlt&Htp&Hch).
  assert (Hcp : c <> p) by (intros ->; lia).
  assert (Hstc : stt s' c a = st') by (by rewrite Hst, decide_True).
  assert (Hsto : forall m, m <> c -> stt s' m a = stt s1 m a) by (intros m ?; by rewrite Hst, decide_False).
  assert (Hdo : forall m, m <> p -> dir s' m a = dir s1 m a) by (intros m ?; by rewrite Hd, decide_False).
  assert (HB' : Base s').
  { apply (Frame_Base HB1 F2). intros m Hm. destruct (decide (m = c)) as [->|]; [by right|].
    rewrite Hsto by done. by left. }
  apply (Inv_local a p s); try done.
  - eapply Frame_trans; [done|]. eapply Frame_weaken; [|done]. intros m [->| ->]; [|constructor].
    by eapply anc_step, anc_refl.
  - intros q _. by rewrite Hsto, Hp1.
  - intros m Hm Hanc Htm. destruct (decide (m = p)) as [->|Hmp]; [done|].
    assert (Hdp : forall d, parent_of cfg d a = Some (OCache m) -> d = c -> False).
    { intros d Hpd ->. congruence. }
    destruct (decide (m = c)) as [->|Hmc].
    + assert (N := inv_node HI c a Hc Htm).
      apply (NodeInv_own s s' c a); try done.
      * rewrite Hdo by done. apply Hsub; [done|constructor].
      * by rewrite Hstc.
      * intros Hex. by destruct HnE; apply (ni_inclEM N).
      * intros d Hnd Hpd. rewrite Hsto by (intros ->; by eapply Hdp).
        apply Hsub; [done|]. by eapply anc_step, anc_refl.
    + apply (NodeInv_ext WF s1 s' Hm); [by apply Hsto|by apply Hdo| |by apply HBI].
      intros d Hnd Hpd. apply Hsto. intros ->. by eapply Hdp.
Qed.

Record TccPre ifuel p c a l lc cyc s : Prop := {
  tp_inv : Inv s;
  tp_node : node c;
  tp_reach : reach c a;
  tp_aok : aok a;
  tp_parent : parent_of cfg c a = Some (OCache p);
  tp_find : ca_find (arr s p) a = Some l;
  tp_cfind : ca_find (arr s c) a = Some lc;
  tp_locks : LockPre s p;
  tp_cyc : 0 <= cyc;
  tp_cycb : cyc + 2 * K * Z.of_nat ifuel + K < two64
}.

Record TccPost ifuel t p c a cyc s (r : Z * bool) s' : Prop := {
  to_inv : Inv s';
  to_locks : LockEq s s';
  to_frame : Frame a (fun m => anc a p m) s s';
  to_own : stt s' p a = stt s p a;
  to_child : granted t (stt s' c a);
  to_below : forall m, node m -> m <> c -> anc a c m -> stt s' m a = stt s m a;
  to_wb : r.2 = true -> EM (stt s p a);
  to_cyc : cyc <= r.1 <= cyc + 2 * K * Z.of_nat ifuel + K
}.

(** The two final writes. *)
Lemma grant_writes {B} p c a l lc e' st' (k : M (Sys A) B) (Q : B -> Sys A -> Prop) s :
  At s p a l -> At s c a lc -> term p = false -> c <> p ->
  (forall s', Frame a (fun m => m = c \/ m = p) s s' -> LockEq s s' ->
    (forall m, stt s' m a = if decide (m = c) then st' else stt s m a) ->
    (forall m, dir s' m a = if decide (m = p) then e' else dir s m a) -> wp k Q s') ->
  wp (put_entry p l e';; write_ref (RefLine c lc) st';; k) Q s.
Proof.
  intros Hp Hc Ht Hne HQ. apply wp_bind, (wp_write_entry p a); [done..|]. intros s1 F1 L1 Hst1 Hd1.
  unfold write_ref. apply wp_bind, (wp_write_bcc c a); [by eapply At_frame|]. intros s2 F2 L2 Hst2 Hd2.
  apply HQ.
  - eapply Frame_trans; (eapply Frame_weaken; [|done]); intros m <-; auto.
  - by eapply LockEq_trans.
  - intros m. rewrite Hst2, Hst1. by destruct (decide (m = c)), (decide (m = c /\ a = a)); naive_solver.
  - intros m. rewrite Hd2, Hd1. by destruct (decide (m = p)), (decide (m = p /\ a = a)); naive_solver.
Qed.

(** An exclusive owner among the children is downgraded before a share. *)
Record DownPost ifuel p c a cyc s (r : Z * bool) s1 : Prop := {
  dp_base : Base s1;
  dp_locks : LockEq s s1;
  dp_frame : Frame a (fun m => anc a p m) s s1;
  dp_below : BelowInv cfg node p a s1;
  dp_own : stt s1 p a = stt s p a;
  dp_node : NodeInv s1 p a;
  dp_notex : isExclusive (dir s1 p a) = false;
  dp_sharers : sharers (dir s1 p a) = sharers (dir s p a);
  dp_num : numSharers (dir s1 p a) = numSharers (dir s p a);
  dp_child : forall m, node m -> anc a c m -> stt s1 m a = stt s m a /\ dir s1 m a = dir s m a;
  dp_wb : r.2 = true -> EM (stt s p a);
  dp_cyc : cyc <= r.1 <= cyc + 2 * K * Z.of_nat ifuel + K
}.

Lemma downgrade_spec ifuel p c a l lc cyc src s :
  (top <= ifuel)%nat -> TccPre ifuel p c a l lc cyc s -> stt s c a = StI -> stt s p a <> StI ->
  wp (if isExclusive (dir s p a)
      then sendInvalidates cfg (invalidate cfg ifuel) p a l INVX false cyc src
      else mret (cyc, false)) (DownPost ifuel p c a cyc s) s.
Proof.
  intros Hif [HI Hc Hr Ha Hpc Hl Hlc Hlk Hcyc Hcb] Hst Hpv.
  assert (HB := inv_base HI). pose proof (wf_K WF).
  destruct (parent_up WF c p a Hc Hpc) as (Hnp&Hlt&Htp&Hch).
  assert (N := inv_node HI p a Hnp Htp). pose proof (wf_lvl WF p Hnp).
  assert (Hni : cfg_selfId (cfg c) ∉ sharers (dir s p a)).
  { intros Hi. apply (child_sharer s c p a HI Hc Hpc) in Hi. congruence. }
  destruct (isExclusive (dir s p a)) eqn:Hex.
  - eapply wp_mono; [eapply (send_spec cfg memLatency node lvl top root K aok WF ifuel _
      (invalidate_spec cfg memLatency node lvl top root K aok WF ifuel))|]; try done; try lia.
    + apply (ni_size N).
    + by eapply NodeInv_SendSharers.
    + by apply Inv_BelowInv.
    + by apply LockPre_BelowFree.
    + intros r s1 SP.
      assert (Hp1 : stt s1 p a <> StI) by (by destruct SP as [_ _ _ _ -> _ _ _ _ _ _]).
      assert (Hn1 := send_NodeInv _ _ _ _ _ _ _ _ WF _ p a INVX _ Hnp ltac:(done) s _ _ s1 s1 N SP eq_refl
         (or_introl Hp1) (fun _ _ _ => eq_refl)).
      destruct SP as [P1 P2 P3 P4 P5 P6 P7 P8 P9 P10 P11].
      unfold send_entry in P6. rewrite Hex in P6.
      split; try done.
      * rewrite P6. apply andb_false_r.
      * by rewrite P6.
      * by rewrite P6.
      * intros m Hm Hcm. apply (P9 c m Hm Hpc Hcm). by left.
      * intros _. by apply (ni_inclEM N).
  - apply wp_ret. split; try done; [by apply Inv_BelowInv|]. cbn [fst]. lia.
Qed.

Lemma tcc_gets_spec ifuel p c a l lc cyc src fl s :
  (top <= ifuel)%nat -> TccPre ifuel p c a l lc cyc s -> stt s c a = StI -> stt s p a <> StI ->
  wp (tcc_processAccess cfg (invalidate cfg ifuel) p a l GETS (cfg_selfId (cfg c))
        (bool_decide (stt s p a = StE) || bool_decide (stt s p a = StM)) (RefLine c lc) false cyc src fl)
     (TccPost ifuel GETS p c a cyc s) s.
Proof.
  intros Hif HP Hst Hpv. assert (HP' := HP). destruct HP' as [HI Hc Hr Ha Hpc Hl Hlc Hlk Hcyc Hcb].
  assert (HB := inv_base HI). pose proof (wf_K WF).
  destruct (parent_up WF c p a Hc Hpc) as (Hnp&Hlt&Htp&Hch).
  assert (Hcp : c <> p) by (intros ->; lia).
  assert (N := inv_node HI p a Hnp Htp).
  assert (Hatp : At s p a l) by by apply Base_At. assert (Hatc : At s c a lc) by by apply Base_At.
  assert (Hni : cfg_selfId (cfg c) ∉ sharers (dir s p a)).
  { intros Hi. apply (child_sharer s c p a HI Hc Hpc) in Hi. congruence. }
  assert (HnE : ~ EM (stt s c a)) by (rewrite Hst; by intros [?|?]).
  unfold tcc_processAccess. apply wp_bind, (wp_read_entry p a); [done..|].
  destruct (isEmpty (dir s p a) && _ && _) eqn:Hexc.
  - apply andb_true_iff in Hexc as [[Hem Hx]%andb_true_iff _].
    assert (HEp : EM (stt s p a)).
    { apply orb_true_iff in Hx as [?%bool_decide_eq_true|?%bool_decide_eq_true]; [by left|by right]. }
    apply Z.eqb_eq in Hem. rewrite (ni_size N) in Hem.
    assert (Hemp : sharers (dir s p a) = ∅) by (apply leibniz_equiv, size_empty_inv; lia).
    rewrite Hemp, union_empty_l_L.
    apply (grant_writes p c a); [done..|]. intros s' F L Hst' Hd'. apply wp_ret.
    assert (HcE : stt s' c a = StE) by by rewrite Hst', decide_True.
    assert (Hp' : stt s' p a = stt s p a) by by rewrite Hst', decide_False.
    split; try done.
    + eapply (grant_finish c p a StE _ s s s'); try done; [by apply Inv_BelowInv|].
      apply (NodeInv_single s' p a c); try done.
      * by rewrite Hd', decide_True.
      * rewrite HcE. by left.
      * by rewrite Hp'.
      * intros d Hnd Hdc Hpd. rewrite Hst', decide_False by done.
        apply (NodeInv_empty_children s p a d N); [|done..]. split; [by rewrite (ni_size N); lia|done].
    + eapply Frame_weaken; [|done]. intros m [->| ->]; [|constructor]. by eapply anc_step, anc_refl.
    + by right.
    + intros m Hm Hne _. by rewrite Hst', decide_False.
    + cbn [fst]. lia.
  - clear Hexc. apply wp_bind, wp_assert; [by rewrite bool_decide_eq_false_2|].
    apply wp_bind. eapply wp_mono; [by eapply downgrade_spec|].
    intros [r wb] s1 [P1 P2 P3 P4 P5 P6 P7 P8 P9 P10 P11 P12].
    assert (Hat1 : At s1 p a l) by by eapply At_frame. assert (Hatc1 : At s1 c a lc) by by eapply At_frame.
    apply wp_bind, (wp_read_entry p a); [done..|].
    apply wp_bind, wp_assert; [by rewrite P7|].
    destruct (sharers_bound s p a Hnp N) as [Hsz Hmax].
    rewrite u32_small by (rewrite P9, Hsz; unfold MAX_CACHE_CHILDREN in *; unfold two32; lia).
    apply (grant_writes p c a); [done..|]. intros s' F L Hst' Hd'. apply wp_ret.
    assert (HcS : stt s' c a = StS) by by rewrite Hst', decide_True.
    assert (Hp' : stt s' p a = stt s p a) by by rewrite Hst', decide_False.
    split; try done.
    + eapply (grant_finish c p a StS _ s s1 s'); try done.
      eapply (NodeInv_share s1 s' p a c); try done.
      * by rewrite P8.
      * by rewrite Hd', decide_True.
      * by rewrite Hp'.
      * intros d Hnd Hdc Hpd. by rewrite Hst', decide_False.
    + by eapply LockEq_trans.
    + eapply Frame_trans; [done|]. eapply Frame_weaken; [|done].
      intros m [->| ->]; [|constructor]. by eapply anc_step, anc_refl.
    + by left.
    + intros m Hm Hne Hcm. rewrite Hst', decide_False by done. by apply P10.
Qed.

Lemma NodeInv_valid_children s p a c : Inv s -> node p -> term p = false -> node c ->
  parent_of cfg c a = Some (OCache p) -> stt s c a = StS -> isExclusive (dir s p a) = false.
Proof.
  intros HI Hp Ht Hc Hpc Hst. apply not_true_iff_false. intros Hex.
  assert (HE : EM (stt s c a)); [|rewrite Hst in HE; by destruct HE].
  apply (ni_exclEM (inv_node HI p a Hp Ht)); try done. by rewrite Hst.
Qed.

Lemma tcc_getx_spec ifuel p c a l lc cyc src fl s :
  (top <= ifuel)%nat -> TccPre ifuel p c a l lc cyc s ->
  stt s c a = StI \/ stt s c a = StS -> stt s p a = StM ->
  wp (tcc_processAccess cfg (invalidate cfg ifuel) p a l GETX (cfg_selfId (cfg c))
        (bool_decide (stt s p a = StE) || bool_decide (stt s p a = StM)) (RefLine c lc) false cyc src fl)
     (TccPost ifuel GETX p c a cyc s) s.
Proof.
  intros Hif HP Hst Hpv. assert (HP' := HP). destruct HP' as [HI Hc Hr Ha Hpc Hl Hlc Hlk Hcyc Hcb].
  assert (HB := inv_base HI). pose proof (wf_K WF).
  destruct (parent_up WF c p a Hc Hpc) as (Hnp&Hlt&Htp&Hch).
  assert (Hcp : c <> p) by (intros ->; lia).
  assert (N := inv_node HI p a Hnp Htp). pose proof (wf_lvl WF p Hnp).
  assert (Hatp : At s p a l) by by apply Base_At. assert (Hatc : At s c a lc) by by apply Base_At.
  assert (HnE : ~ EM (stt s c a)) by (destruct Hst as [-> | ->]; by intros [?|?]).
  destruct (sharers_bound s p a Hnp N) as [Hsz Hmax].
  unfold tcc_processAccess. apply wp_bind, (wp_read_entry p a); [done..|].
  apply wp_bind, wp_assert; [by rewrite Hpv|].
  (** the child is taken out of the sharers *)
  apply wp_bind. apply (wp_mono _ (fun _ s0 => Base s0 /\ Frame a (eq p) s s0 /\ LockEq s s0 /\
    (forall m, stt s0 m a = stt s m a) /\ (forall m, m <> p -> dir s0 m a = dir s m a) /\
    numSharers (dir s0 p a) = Z.of_nat (size (sharers (dir s0 p a))) /\
    sharers (dir s0 p a) = sharers (dir s p a) ∖ {[cfg_selfId (cfg c)]})).
  { case_bool_decide as Hin.
    - assert (Hstc : stt s c a = StS).
      { apply (child_sharer s c p a HI Hc Hpc) in Hin. by destruct Hst. }
      apply wp_bind, wp_assert; [by rewrite (NodeInv_valid_children s p a c)|].
      assert (Hs1 : size (sharers (dir s p a)) <> 0%nat) by (intros Hz%size_empty_inv; set_solver).
      apply (wp_write_entry p a); [done..|]. intros s0 F0 L0 Hst0 Hd0. specialize (Hd0 p a) as Hdp.
      rewrite decide_True in Hdp by done. rewrite Hdp. cbn [numSharers sharers]. split_and!; try done.
      + apply (Frame_Base HB F0). intros m Hm. rewrite Hst0. by left.
      + intros m Hm. rewrite Hd0, decide_False; [done|]. by intros [? _].
      + rewrite u32_small by (rewrite Hsz; unfold MAX_CACHE_CHILDREN in *; unfold two32; lia).
        rewrite size_difference, size_singleton, Hsz by set_solver. lia.
    - apply wp_ret. split_and!; try done. symmetry. apply difference_disjoint_L. set_solver. }
  intros [] s0 (HB0&F0&L0&Hst0&Hd0&Hn0&Hs0).
  assert (Hat0 : At s0 p a l) by by eapply At_frame.
  apply wp_bind. eapply wp_mono; [eapply (send_spec cfg memLatency node lvl top root K aok WF ifuel _
      (invalidate_spec cfg memLatency node lvl top root K aok WF ifuel))|]; try done; try lia.
  { by rewrite (fr_arr F0). }
  { intros i. rewrite Hs0. intros [Hi _]%elem_of_difference.
    destruct (ni_child N i Hi) as (d&Hchd&Hpd&Hv). exists d. by rewrite Hst0. }
  { intros m Hm Hne Hanc Htm. apply (NodeInv_ext WF s s0 Hm); [by apply Hst0|by apply Hd0| |by apply HI].
    intros; by apply Hst0. }
  { apply LockPre_BelowFree. by eapply LockPre_eq. }
  intros [r wb] s1 [P1 P2 P3 P4 P5 P6 P7 P8 P9 P10 P11]. cbn in P6.
  assert (F01 : Frame a (fun m => anc a p m) s s1).
  { eapply Frame_trans; [|done]. eapply Frame_weaken; [|done]. intros m <-. constructor. }
  assert (Hat1 : At s1 p a l) by by eapply At_frame. assert (Hatc1 : At s1 c a lc) by by eapply At_frame.
  apply wp_bind, (wp_read_entry p a); [done..|]. rewrite P6. cbn [numSharers sharers exclusive].
  rewrite union_empty_l_L. change (u32 (0 + 1)) with 1.
  apply wp_bind, (wp_write_entry p a); [done..|]. intros s2 F2 L2 Hst2 Hd2.
  apply wp_bind, (wp_read_entry p a); [by eapply At_frame|done|].
  rewrite Hd2, decide_True by done. apply wp_bind, wp_assert; [done|].
  apply wp_bind, (wp_write_bcc c a); [by eapply At_frame|]. intros s3 F3 L3 Hst3 Hd3. apply wp_ret.
  assert (HcM : stt s3 c a = StM) by by rewrite Hst3, decide_True.
  assert (Hso : forall m, m <> c -> stt s3 m a = stt s1 m a).
  { intros m ?. rewrite Hst3, decide_False, Hst2; [done|]. by intros [? _]. }
  assert (Hdo : forall m, dir s3 m a = if decide (m = p) then mkEntry 1 {[cfg_selfId (cfg c)]} true else dir s1 m a).
  { intros m. rewrite Hd3, Hd2. by destruct (decide (m = p)), (decide (m = p /\ a = a)); naive_solver. }
  assert (Hp' : stt s3 p a = stt s p a) by by rewrite Hso, P5, Hst0.
  assert (Hcsub : forall m, node m -> anc a c m -> stt s1 m a = stt s m a /\ dir s1 m a = dir s m a).
  { intros m Hm Hcm. destruct (P9 c m Hm Hpc Hcm) as [-> ->].
    - left. rewrite Hs0. set_solver.
    - split; [done|]. apply Hd0. intros ->. exact (anc_not_parent WF Hc Hpc Hcm). }
  assert (F13 : Frame a (fun m => m = c \/ m = p) s1 s3).
  { eapply Frame_trans; (eapply Frame_weaken; [|done]); intros m <-; auto. }
  split; try done.
  - eapply (grant_finish c p a StM _ s s1 s3); try done.
    + by rewrite P5, Hst0.
    + intros m. destruct (decide (m = c)) as [->|]; [done|by apply Hso].
    + apply (NodeInv_single s3 p a c); try done.
      * by rewrite Hdo, decide_True.
      * rewrite HcM. by right.
      * rewrite Hp', Hpv. by right.
      * intros d Hnd Hdc Hpd. rewrite Hso by done.
        destruct (decide (stt s1 d a = StI)) as [|Hv]; [done|].
        rewrite (P8 d); [done| |by left]. pose proof (P4 d Hnd Hv) as Hv0. rewrite Hst0 in Hv0.
        destruct (parent_up WF d p a Hnd Hpd) as (_&_&_&Hchd). split; [|done]. rewrite Hs0.
        apply elem_of_difference. split; [by apply (ni_sharer N)|]. intros Heq%elem_of_singleton. congruence.
  - eapply LockEq_trans; [done|]. eapply LockEq_trans; [done|]. by eapply LockEq_trans.
  - eapply Frame_trans; [done|]. eapply Frame_weaken; [|done].
    intros m [->| ->]; [|constructor]. by eapply anc_step, anc_refl.
  - intros m Hm Hne Hcm. rewrite Hso by done. by apply Hcsub.
  - intros _. rewrite Hpv. by right.
Qed.

(** ** A GET at a cache, between [startAccess] and [endAccess] *)
Lemma flag_ldiff fl : flag_is (Z.ldiff fl PREFETCH) PREFETCH = false.
Proof.
  unfold flag_is. apply negb_false_iff, Z.eqb_eq. apply Z.bits_inj'. intros i Hi.
  rewrite Z.land_spec, Z.ldiff_spec, Z.bits_0. by destruct (Z.testbit fl i), (Z.testbit PREFETCH i).
Qed.

Lemma fill_spec fuel ifuel n a req cyc s :
  (top <= lvl n + fuel)%nat -> (top <= ifuel)%nat -> Inv s -> node n -> lineAddr req = a -> aok a ->
  ca_idle (arr s n) -> LockPre s n -> IsGet (type req) = true ->
  0 <= cyc -> cyc + 2 * K * Z.of_nat ifuel + 2 * K < two64 ->
  wp (lineId ← array_lookup n (lineAddr req) (Some req) (IsGet (type req));
      match lineId with
      | Some l => mret (Some l)
      | None =>
        alloc ← cc_shouldAllocate cfg n req;
        if (alloc : bool) then
          '(l, wbLineAddr) ← array_preinsert cfg n (lineAddr req) req;
          cc_processEviction cfg (access cfg memLatency fuel ifuel) (invalidate cfg ifuel) n req wbLineAddr l cyc;;
          array_postinsert n (lineAddr req) req l;;
          mret (Some l)
        else mret None
      end)
     (fun r s' => exists l, r = Some l /\ FillPost n a l s s') s.
Proof.
  intros Hf Hif HI Hn -> Ha Hid Hlk Hg Hcyc Hcb. rewrite Hg.
  apply wp_bind, wp_lookup_upd; [done..|]. intros s1 HI1 L1 Harr1 Hid1 Hst1 Hpm1.
  destruct (ca_find (arr s1 n) a) as [l|] eqn:Hl.
  - apply wp_ret. exists l. split; [done|]. split; try done. intros b m _. by rewrite Hst1.
  - assert (Hal : cc_shouldAllocate cfg n req s1 = Ok (true, s1)).
    { unfold cc_shouldAllocate. rewrite Hg. by destruct (term n). }
    unfold wp, mbind at 1, M_bind. rewrite Hal.
    eapply wp_mono; [by apply alloc_spec; [..|eapply LockPre_eq| | |]|].
    intros r s2 (l&->&[P1 P2 P3 P4 P5 P6 P7 P8]). exists l. split; [done|]. split; try done.
    + by eapply LockEq_trans.
    + intros m Hm. by rewrite P3, Harr1.
    + intros m Hm. by rewrite P6, Hst1.
    + intros b m Hm Hv. rewrite <- Hst1. by apply (P7 b m Hm).
    + by rewrite P8.
Qed.

(** The rest of the GET in a cache with children: the parent, then the directory. *)
Lemma cc_get_spec ifuel fuel up p c a l lc t st cyc0 lk cyc src fl s :
  (top <= ifuel)%nat -> UpSpec ifuel fuel up -> IsGet t = true -> flag_is fl PREFETCH = false ->
  Inv s -> node c -> reach c a -> aok a -> parent_of cfg c a = Some (OCache p) ->
  ca_find (arr s p) a = Some l -> ca_find (arr s c) a = Some lc -> stt s c a = st ->
  (t = GETS /\ st = StI) \/ (t = GETX /\ (st = StI \/ st = StS)) ->
  LockPre s p -> IdleAbove s (lvl p) -> (top <= lvl p + fuel)%nat ->
  0 <= cyc -> cyc + lat ifuel fuel + 2 * K * Z.of_nat ifuel + 2 * K < two64 -> lat ifuel fuel + K < two32 ->
  wp (cc_processAccess cfg up (invalidate cfg ifuel) p
        (mkMemReq a t (cfg_selfId (cfg c)) (RefLine c lc) cyc0 lk st src fl) (Some l) cyc)
     (fun r s' => Inv s' /\ LockEq s s' /\
        (forall m, node m -> (lvl m <= lvl p)%nat -> arr s' m = arr s m) /\ IdleAbove s' (lvl p) /\
        granted t (stt s' c a) /\
        (forall m, node m -> m <> c -> anc a c m -> stt s' m a = stt s m a) /\
        (forall b, b <> a -> Mono node b s s') /\ sys_procMask s' = sys_procMask s /\
        cyc <= r <= cyc + lat ifuel fuel + 2 * K * Z.of_nat ifuel + 2 * K) s.
Proof.
  intros Hif Hup Hg Hfl HI Hc Hr Ha Hpc Hl Hlc Hst Hneed Hlk Hid Hf Hcyc Hcb Hlat.
  assert (HB := inv_base HI). pose proof (wf_K WF). pose proof (lat_ge ifuel fuel).
  destruct (parent_up WF c p a Hc Hpc) as (Hnp&Hlt&Htp&Hch).
  assert (Hcp : c <> p) by (intros ->; lia).
  assert (Hcanc : forall m, anc a c m -> anc a p m) by (intros; by eapply anc_snoc).
  unfold cc_processAccess. rewrite Htp. cbn [type lineAddr srcId flags childId state].
  apply wp_bind. unfold bcc_isValid. apply wp_bind.
  apply wp_bind, (wp_read_bcc p a); [by apply Base_At|]. apply wp_ret.
  replace (IsPut t) with false by by destruct t. cbn [andb]. apply wp_ret.
  apply wp_bind. apply wp_ret. rewrite Hfl. cbn [negb orb].
  apply wp_bind, wp_assert; [done|].
  apply wp_bind. eapply wp_mono; [eapply (bcc_get_spec ifuel fuel)|]; try done; try lia.
  { apply flag_ldiff. }
  { exact (reach_up Hc Hr Hpc). }
  intros r s1 [P1 P2 P3 P4 P5 P6 P7 P8 P9]. cbn iota.
  assert (Hl1 : ca_find (arr s1 p) a = Some l) by by rewrite P3.
  assert (Hlc1 : ca_find (arr s1 c) a = Some lc) by (rewrite P3; [done|done|lia]).
  assert (Hst1 : stt s1 c a = st).
  { rewrite P6; [done|done|done|]. by eapply anc_step, anc_refl. }
  apply wp_bind. unfold bcc_isExclusive. apply wp_bind, (wp_read_bcc p a); [by apply Base_At; [apply P1|..]|].
  apply wp_ret.
  assert (TP : TccPre ifuel p c a l lc r s1).
  { split; try done; [by eapply LockPre_eq|lia..]. }
  apply wp_bind. apply (wp_mono _ (TccPost ifuel t p c a r s1)).
  { destruct Hneed as [[-> ->]|[-> Hor]].
    - by eapply tcc_gets_spec.
    - eapply tcc_getx_spec; try done. by rewrite Hst1. }
  intros [r2 wb] s2 [T1 T2 T3 T4 T5 T6 T7 T8]. cbn [fst snd] in *.
  assert (Hl2 : ca_find (arr s2 p) a = Some l) by by rewrite (fr_arr T3).
  (** an induced writeback makes the line dirty here *)
  apply wp_bind. apply (wp_mono _ (fun _ s3 => Inv s3 /\ Frame a (fun m => anc a p m) s2 s3 /\ LockEq s2 s3 /\
    forall m, m <> p -> stt s3 m a = stt s2 m a)).
  { destruct wb; [|by apply wp_ret].
    assert (Hat2 : At s2 p a l) by (apply Base_At; [apply T1|done..]).
    unfold bcc_processWritebackOnAccess. apply wp_bind, (wp_read_bcc p a); [done|].
    rewrite T4. specialize (T7 eq_refl).
    apply wp_bind, wp_assert; [by destruct T7 as [-> | ->]|].
    case_bool_decide; [|by apply wp_ret].
    apply (wp_write_bcc p a); [done|]. intros s3 F3 L3 Hst3 Hd3.
    assert (Hso : forall m, m <> p -> stt s3 m a = stt s2 m a).
    { intros m ?. rewrite Hst3, decide_False; [done|]. by intros [? _]. }
    split_and!; try done.
    - apply (Inv_sim_write p a s2); try done. rewrite Hst3, decide_True, T4 by done.
      right. split; [by right|done].
    - eapply Frame_weaken; [|done]. intros m <-. constructor. }
  intros [] s3 (HI3&F3&L3&Hso). apply wp_ret.
  assert (F13 : Frame a (fun m => anc a p m) s1 s3) by by eapply Frame_trans.
  split_and!; try done; try lia.
  - eapply LockEq_trans; [done|]. by eapply LockEq_trans.
  - intros m Hm Hlm. by rewrite (fr_arr F13), P3.
  - intros m Hm Hlm. rewrite (fr_arr F13). by apply P4.
  - by rewrite Hso.
  - intros m Hm Hne Hcm.
    assert (m <> p) by (intros ->; exact (anc_not_parent WF Hc Hpc Hcm)).
    rewrite Hso, T6, P6 by auto. done.
  - intros b Hb m Hm. rewrite (Frame_stt _ _ (inv_base P1) Hm F13) by (by left). by apply P7.
  - by rewrite (fr_procMask F13).
Qed.

(** The last level asks memory. *)
Lemma mem_get_spec ifuel fuel mc c a lc t st cyc src fl s :
  UpPre ifuel fuel c a lc t st cyc s -> parent_of cfg c a = Some (OMem mc) ->
  wp (mem_access memLatency mc
        (mkMemReq a t (cfg_selfId (cfg c)) (RefLine c lc) cyc (Some (LkBcc c)) st src fl))
     (GetPost (granted t) c a cyc (lat ifuel fuel) s) s.
Proof.
  intros [HI Hc Hr Ha Hlc Hst Hneed Hlk Hid Hfuel Hcyc Hcb Hlat] Hpc.
  assert (HB := inv_base HI). pose proof (lat_ge ifuel fuel). pose proof (wf_memLat WF mc).
  assert (Hat : At s c a lc) by by apply Base_At.
  unfold mem_access. cbn [type state cycle].
  set (st' := match t with GETX => StM | _ => if flag_is fl NOEXCL then StS else StE end).
  replace (match t with PUTS | PUTX => _ | _ => _ end) with (write_ref (A:=A) (RefLine c lc) st')
    by (by destruct Hneed as [[-> _]|[-> _]]).
  apply wp_bind, (wp_write_bcc c a); [done|]. intros s1 F1 L1 Hst1 Hd1.
  rewrite u64_small by lia. apply wp_bind, wp_assert; [apply Z.ltb_lt; lia|]. apply wp_ret.
  assert (Hg : granted t st').
  { unfold st'. destruct Hneed as [[-> _]|[-> _]]; simpl; [|done]. destruct (flag_is fl NOEXCL); auto. }
  assert (Hv : st' <> StI) by (destruct t; simpl in Hg; intuition congruence).
  assert (HnE : ~ EM (stt s c a)).
  { rewrite Hst. destruct Hneed as [[_ ->]|[_ [-> | ->]]]; by intros [?|?]. }
  assert (Hstc : stt s1 c a = st') by (by rewrite Hst1, decide_True).
  assert (Hsto : forall m, m <> c -> stt s1 m a = stt s m a).
  { intros m ?. rewrite Hst1, decide_False; [done|]. by intros [? _]. }
  split; try done; try lia.
  - apply (Inv_local a c s); try done.
    + apply (Frame_Base HB F1). intros m Hm. destruct (decide (m = c)) as [->|]; [by right|].
      rewrite Hsto by done. by left.
    + eapply Frame_weaken; [|done]. intros m <-. constructor.
    + intros q Hq. congruence.
    + intros m Hm Hanc Htm. assert (N := inv_node HI m a Hm Htm).
      assert (Hch : forall d, node d -> parent_of cfg d a = Some (OCache m) -> stt s1 d a = stt s d a).
      { intros d Hd Hpd. apply Hsto. intros ->. congruence. }
      destruct (decide (m = c)) as [->|Hmc].
      * apply (NodeInv_own s s1 c a); try done; [by rewrite Hstc|].
        intros Hex. destruct HnE. by apply (ni_inclEM N).
      * apply (NodeInv_ext WF s s1 Hm); try done. by apply Hsto.
  - intros m _ _. apply (fr_arr F1).
  - intros m Hm Hlm. rewrite (fr_arr F1). by apply Hid.
  - by rewrite Hstc.
  - intros m _ Hmc _. by apply Hsto.
  - intros b Hb m Hm. rewrite Hst1, decide_False; [done|]. by intros [_ ?].
  - apply (fr_procMask F1).
Qed.

(** ** Every request to a parent is granted *)
Lemma access_spec ifuel fuel : (top <= ifuel)%nat -> UpSpec ifuel fuel (access cfg memLatency fuel ifuel).
Proof.
  intros Hif. induction fuel as [|fuel IH];
    intros c a lc t st cyc src fl s HP Hfl; assert (HP' := HP);
    destruct HP as [HI Hc Hr Ha Hlc Hst Hneed Hlk Hid Hfuel Hcyc Hcb Hlat];
    unfold up_access; destruct (parent_of_is_Some WF c a Hc) as [o Hpc];
    (apply wp_bind; eapply wp_from_opt; [done|]); (destruct o as [p|mc]; [|by eapply mem_get_spec]).
  { destruct (parent_up WF c p a Hc Hpc) as (Hnp&Hlt&_). pose proof (wf_lvl WF p Hnp). lia. }
  destruct (parent_up WF c p a Hc Hpc) as (Hnp&Hlt&Htp&Hch).
  assert (Hcp : c <> p) by (intros ->; lia).
  pose proof (wf_accLat WF p Hnp). pose proof (wf_K WF). pose proof (lat_ge ifuel fuel).
  rewrite lat_S in Hcb, Hlat. assert (HB := inv_base HI).
  assert (Hg : IsGet t = true) by (by destruct Hneed as [[-> _]|[-> _]]).
  cbn [access]. unfold cache_access.
  apply wp_bind. eapply wp_mono; [by apply startAccess_spec|]. intros [req sk] s1 [[= -> ->] ->].
  set (req := mkMemReq _ _ _ _ _ _ _ _ _).
  assert (S1 := started_Same c p s). assert (L1 := started_LockPre c p s Hc Hnp Hlt Hlk).
  set (s1 := started c p s) in *.
  assert (HI1 : Inv s1) by by apply (Same_Inv WF S1).
  cbn iota. rewrite u64_small by (cbn [cycle req]; nia).
  apply wp_bind. apply wp_bind.
  eapply wp_mono; [eapply wp_bind_inv, (fill_spec fuel ifuel p a req (cycle req + cfg_accLat (cfg p)))|];
    try done; try (cbn [cycle req]; nia); try lia.
  { rewrite (fr_arr S1). by apply Hid. }
  intros r s2 Hfill. apply wp_bind. eapply wp_mono; [exact Hfill|]. clear Hfill.
  intros rl s3 (l&->&[P1 P2 P3 P4 P5 P6 P7 P8]).
  apply wp_bind, wp_pop_none; [by apply P1|].
  apply wp_bind. eapply wp_mono; [eapply (cc_get_spec ifuel fuel _ p c a l lc)|];
    try done; try (cbn [cycle req]; nia); try lia.
  { by rewrite P3, (fr_arr S1). }
  { by rewrite P6, (Same_stt _ _ _ _ S1). }
  { by eapply LockPre_eq. }
  { intros m Hm Hlm. assert (m <> p) by (intros ->; lia). rewrite P3, (fr_arr S1) by done. apply Hid; [done|lia]. }
  intros rr s4 (Q1&Q2&Q3&Q4&Q5&Q6&Q7&Q8&Q9). unfold stitch_records. repeat wp_step.
  eapply wp_mono; [eapply (endAccess_spec c p req s)|]; try done.
  { eapply LockEq_trans; [exact P2|exact Q2]. }
  intros [] s5 [S5 L5]. repeat wp_step. cbn [cycle req] in *.
  apply wp_assert; [apply Z.leb_le; lia|]. apply wp_ret.
  assert (Hne : forall m, node m -> (lvl m <= lvl c)%nat -> m <> p) by (intros m ? ? ->; lia).
  split; try done.
  - by apply (Same_Inv WF S5).
  - intros m Hm Hlm. assert (m <> p) by auto. rewrite (fr_arr S5), Q3, P3, (fr_arr S1) by (done || lia). done.
  - intros m Hm Hlm. rewrite (fr_arr S5). destruct (decide (lvl m <= lvl p)%nat) as [Hle|Hgt].
    + rewrite Q3 by done. destruct (decide (m = p)) as [->|Hmp]; [done|].
      rewrite P3, (fr_arr S1) by done. by apply Hid.
    + apply Q4; [done|lia].
  - by rewrite (Same_stt _ _ _ _ S5).
  - intros m Hm Hmc Hcm. rewrite (Same_stt _ _ _ _ S5), Q6, P6, (Same_stt _ _ _ _ S1) by done. done.
  - intros b Hb m Hm. rewrite (Same_stt _ _ _ _ S5), <- (Same_stt _ _ m b S1). intros Hv.
    apply (P7 b m Hm). by apply (Q7 b Hb m Hm).
  - rewrite lat_S. nia.
  - by rewrite (fr_procMask S5), Q8, P8, (fr_procMask S1).
Qed.
End Up.
