(* ===== verification/CoherenceTop.v ===== *)
(** * The coherent cache hierarchy: cores

    The filter caches' ports: loads, stores and context switches of the cores,
    in any order, from the initial state of any well-formed hierarchy. *)

From S2P Require Import Prelude Bithacks MemHier TimingEvent ReplPolicies CacheArrays Coherence CoherenceInv CoherenceDown CoherenceUp.

Section Top.
Context {A : Type} `{HL : CacheArrayLaws A}.
Context (cfg : nat -> CacheCfg) (memLatency : nat -> Z).
Context (node : nat -> Prop) (lvl : nat -> nat) (top : nat) (root : Z -> nat) (K : Z).
Context (aok : Z -> Prop).
Context (WF : WfHier cfg memLatency node lvl top root K).
Implicit Types (s : Sys A) (n m c p l : nat) (a b : Z).
Abbreviation Inv := (Inv cfg node aok).
Abbreviation term := (fun n => cfg_terminal (cfg n)).
Abbreviation lat := (lat K).
Abbreviation LockPre := (LockPre node lvl).
Abbreviation IdleAbove := (IdleAbove node lvl).

(** Between two requests no lock is held and no insertion is pending. *)
Record Ready s : Prop := {
  rd_inv : Inv s;
  rd_bcc : forall m, node m -> c_bccLock (sys_caches s m) = false;
  rd_tcc : forall m, node m -> c_tccLock (sys_caches s m) = false;
  rd_filter : forall m, node m -> filterLock (c_filter (sys_caches s m)) = false;
  rd_idle : forall m, node m -> ca_idle (arr s m)
}.

(** ** The access of a filter cache to the cache it filters *)

(** [startAccess] of a terminal controller. *)
Definition tstarted n s : Sys A := set_lock (LkBcc n) true (set_lock (LkFilter n) false s).

Lemma tstart_spec n t a cyc src fl s : term n = true -> IsGet t = true -> sys_dummy s n = StI ->
  c_bccLock (sys_caches s n) = false ->
  let req := mkMemReq a t 0 (RefDummy n) cyc (Some (LkFilter n)) StI src fl in
  wp (cc_startAccess cfg n req) (fun r s' => r = (req, false) /\ s' = tstarted n s) s.
Proof.
  intros Ht Hg Hd Hl req. unfold cc_startAccess. rewrite Ht. cbn [type childLock req].
  apply wp_bind, wp_assert; [done|]. unfold opt_lock, futex_unlock. repeat wp_step.
  apply wp_futex_lock.
  { simpl. by rewrite upd_eq. }
  unfold read_ref. cbn [state req]. repeat wp_step.
  replace (sys_dummy _ n) with StI by (symmetry; exact Hd).
  by repeat wp_step.
Qed.

Lemma tend_spec n t a cyc src fl s0 s : term n = true ->
  c_bccLock (sys_caches s0 n) = false -> filterLock (c_filter (sys_caches s0 n)) = true ->
  LockEq (tstarted n s0) s ->
  let req := mkMemReq a t 0 (RefDummy n) cyc (Some (LkFilter n)) StI src fl in
  wp (cc_endAccess cfg n req) (fun _ s' => Same s s' /\ LockEq s0 s') s.
Proof.
  intros Ht Hb Hf [E1 E2 E3] req. unfold cc_endAccess. rewrite Ht. cbn [childLock req].
  unfold opt_lock, futex_unlock. apply wp_bind, wp_futex_lock.
  { simpl. rewrite E3. unfold tstarted. simpl. by rewrite !upd_eq. }
  repeat wp_step. split.
  - eapply Same_trans; apply Same_set_lock.
  - split; intros m; specialize (E1 m); specialize (E2 m); specialize (E3 m);
      unfold tstarted in *; simpl in *; unfold upd in *;
      repeat (case_decide; subst; simpl in *); congruence.
Qed.

(** A core's request at its first-level cache. *)
Lemma terminal_access_spec fuel ifuel n a t cyc src fl s :
  (top <= ifuel)%nat -> (top <= lvl n + fuel)%nat ->
  Inv s -> node n -> term n = true -> aok a -> IsGet t = true -> flag_is fl PREFETCH = false ->
  sys_dummy s n = StI ->
  (forall m, node m -> c_bccLock (sys_caches s m) = false) ->
  (forall m, node m -> c_tccLock (sys_caches s m) = false) ->
  (forall m, node m -> filterLock (c_filter (sys_caches s m)) = bool_decide (m = n)) ->
  (forall m, node m -> ca_idle (arr s m)) ->
  0 <= cyc -> cyc + lat ifuel (Datatypes.S fuel) < two64 -> lat ifuel (Datatypes.S fuel) < two32 ->
  wp (access cfg memLatency (Datatypes.S fuel) ifuel (OCache n)
        (mkMemReq a t 0 (RefDummy n) cyc (Some (LkFilter n)) StI src fl))
     (fun r s' => Inv s' /\ LockEq s s' /\ (forall m, node m -> ca_idle (arr s' m)) /\
        permits t (stt s' n a) /\ (forall b, b <> a -> Mono node b s s') /\
        sys_procMask s' = sys_procMask s /\
        cyc <= r <= cyc + lat ifuel (Datatypes.S fuel)) s.
Proof.
  intros Hif Hf HI Hn Ht Ha Hg Hfl Hd Hb Htl Hff Hid Hcyc Hcb Hlat.
  pose proof (wf_K WF). pose proof (lat_ge cfg memLatency node lvl top root K WF ifuel fuel).
  pose proof (wf_accLat WF n Hn). rewrite lat_S in *.
  cbn [access]. unfold cache_access.
  apply wp_bind. eapply wp_mono; [apply tstart_spec; by auto|]. intros [req sk] s1 [[= -> ->] ->].
  set (req := mkMemReq _ _ _ _ _ _ _ _ _).
  assert (S1 : Same s (tstarted n s)).
  { eapply Same_trans; apply Same_set_lock. }
  assert (L1 : LockPre (tstarted n s) n).
  { split; intros m Hm; unfold tstarted; simpl; unfold upd.
    - specialize (Hb m Hm). destruct (decide (n = m)) as [->|Hne]; simpl.
      + by rewrite bool_decide_eq_true_2.
      + rewrite Hb. by rewrite bool_decide_eq_false_2 by congruence.
    - specialize (Hff m Hm). destruct (decide (n = m)) as [->|Hne]; simpl; [by case_decide|].
      rewrite Hff. by rewrite bool_decide_eq_false_2 by congruence.
    - intros _. repeat case_decide; subst; simpl; auto. }
  set (s1 := tstarted n s) in *.
  assert (HI1 : Inv s1) by by apply (Same_Inv WF S1).
  cbn iota. cbv zeta. rewrite u64_small by (cbn [cycle req]; nia).
  apply wp_bind. apply wp_bind.
  eapply wp_mono; [eapply wp_bind_inv, (fill_spec cfg memLatency node lvl top root K aok WF fuel ifuel n a req (cycle req + cfg_accLat (cfg n)))|];
    try done; try (cbn [cycle req]; nia); try lia.
  { rewrite (fr_arr S1). by apply Hid. }
  intros r s2 Hfill. apply wp_bind. eapply wp_mono; [exact Hfill|]. clear Hfill.
  intros rl s3 (l&->&[P1 P2 P3 P4 P5 P6 P7 P8]).
  apply wp_bind, (wp_pop_none cfg node aok); [by apply P1|].
  assert (Hidle3 : forall m, node m -> ca_idle (arr s3 m)).
  { intros m Hm. destruct (decide (m = n)) as [->|Hne]; [done|]. rewrite P3, (fr_arr S1) by done. auto. }
  apply wp_bind. unfold cc_processAccess. rewrite Ht. apply wp_bind. eapply wp_from_opt; [done|].
  eapply wp_mono; [eapply (bcc_get_spec cfg memLatency node lvl top root K aok WF ifuel fuel)|];
    try done; try (cbn [cycle req]; nia); try lia.
  { by eapply access_spec. }
  { exists n. split_and!; try done. constructor. }
  { by eapply LockPre_eq. }
  { intros m Hm _. auto. }
  intros rr s4 [Q1 Q2 Q3 Q4 Q5 Q6 Q7 Q8 Q9]. unfold stitch_records. repeat wp_step.
  eapply wp_mono; [eapply (tend_spec n t a cyc src fl s)|]; try done.
  { auto. }
  { rewrite Hff by done. by apply bool_decide_eq_true_2. }
  { eapply LockEq_trans; [exact P2|exact Q2]. }
  intros [] s5 [S5 L5]. repeat wp_step. cbn [cycle req] in *.
  apply wp_assert; [apply Z.leb_le; lia|]. apply wp_ret. split_and!; try done; try lia.
  - by apply (Same_Inv WF S5).
  - intros m Hm. rewrite (fr_arr S5). destruct (decide (lvl m <= lvl n)%nat).
    + rewrite Q3 by done. auto.
    + apply Q4; [done|lia].
  - by rewrite (Same_stt _ _ _ _ S5).
  - intros b Hne m Hm. rewrite (Same_stt _ _ _ _ S5), <- (Same_stt _ _ m b S1). intros Hv.
    apply (P7 b m Hm). by apply (Q7 b Hne m Hm).
  - by rewrite (fr_procMask S5), Q9, P8, (fr_procMask S1).
Qed.

(** ** Loads, stores and context switches *)
Lemma Inv_set_dummy n st s : Inv s -> Inv (set_dummy n st s).
Proof.
  intros [[H1 H2 H3 H4 H5 H6 H7 H8] HN]. split; [by split|].
  intros p a Hp Ht. destruct (HN p a Hp Ht). by split.
Qed.

Lemma Ready_Same s s' : Same s s' -> LockEq s s' -> Ready s -> Ready s'.
Proof.
  intros S [L1 L2 L3] [R1 R2 R3 R4 R5].
  split; intros; rewrite ?L1, ?L2, ?L3, ?(fr_arr S); auto. by apply (Same_Inv WF S).
Qed.

Lemma filter_idx n x s : Inv s -> node n -> term n = true ->
  (Z.to_nat (Z.land x (cfg_filterSetMask (cfg n)))
   < length (filterArray (c_filter (sys_caches s n))))%nat.
Proof.
  intros HI Hn Ht. pose proof (b_filter (inv_base HI) n Hn Ht).
  pose proof (land_le_l (cfg_filterSetMask (cfg n)) x (wf_mask WF n Hn)).
  rewrite Z.land_comm. lia.
Qed.

Definition get_type (isLoad : bool) : AccessType := if isLoad then GETS else GETX.

(** What a core may ask for. *)
Record PortOk fuel ifuel n (vLine cyc : Z) s : Prop := {
  po_ifuel : (top <= ifuel)%nat;
  po_fuel : (top <= lvl n + fuel)%nat;
  po_node : node n;
  po_term : term n = true;
  po_aok : aok (Z.lor (sys_procMask s) vLine);
  po_flags : flag_is (cfg_reqFlags (cfg n)) PREFETCH = false;
  po_cyc0 : 0 <= cyc;
  po_cycb0 : cyc + lat ifuel (Datatypes.S fuel) < two64;
  po_lat : lat ifuel (Datatypes.S fuel) < two32
}.

Lemma filter_replace_spec fuel ifuel n vLine isLoad cyc s :
  Ready s -> PortOk fuel ifuel n vLine cyc s ->
  wp (filter_replace cfg memLatency (Datatypes.S fuel) ifuel n vLine
        (Z.to_nat (Z.land vLine (cfg_filterSetMask (cfg n)))) isLoad cyc)
     (fun r s' => Ready s' /\ sys_procMask s' = sys_procMask s /\
        permits (get_type isLoad) (stt s' n (Z.lor (sys_procMask s) vLine)) /\
        (forall b, b <> Z.lor (sys_procMask s) vLine -> Mono node b s s') /\
        cyc <= r <= cyc + lat ifuel (Datatypes.S fuel)) s.
Proof.
  intros [R1 R2 R3 R4 R5] [Hif Hf Hn Ht Ha Hfl Hcyc Hcb Hlat].
  unfold filter_replace. repeat wp_step. apply wp_futex_lock.
  { simpl. auto. }
  set (pa := Z.lor (sys_procMask s) vLine) in *.
  set (s1 := set_lock (LkFilter n) true (set_dummy n StI s)).
  assert (S1 : Same (set_dummy n StI s) s1) by apply Same_set_lock.
  fold (get_type isLoad).
  apply wp_bind. eapply wp_mono; [eapply (terminal_access_spec fuel ifuel n pa (get_type isLoad))|]; try done.
  - apply (Same_Inv WF S1). by apply Inv_set_dummy.
  - by destruct isLoad.
  - unfold s1. simpl. by rewrite upd_eq.
  - intros m Hm. unfold s1. simpl. unfold upd. case_decide; subst; simpl; auto.
  - intros m Hm. unfold s1. simpl. unfold upd. case_decide; subst; simpl; auto.
  - intros m Hm. unfold s1. simpl. unfold upd. case_decide as Hd; subst; simpl.
    + by rewrite bool_decide_eq_true_2.
    + rewrite R4 by done. by rewrite bool_decide_eq_false_2 by congruence.
  - intros m Hm. rewrite (fr_arr S1). by apply R5.
  - intros r s2 (HI2&L2&Hid2&Hp2&HM2&Hpm2&Hr2). repeat wp_step.
    destruct (lookup_lt_is_Some_2 _ _ (filter_idx n vLine s2 HI2 Hn Ht)) as [fe Hfe].
    eapply wp_arr_get; [exact Hfe|]. unfold futex_unlock. repeat wp_step.
    set (s3 := set_lock _ _ _).
    assert (S3 : Same s2 s3).
    { eapply Same_trans; [|apply Same_set_lock]. apply Same_set_cache; try done.
      intros k. simpl. by rewrite length_insert. }
    assert (Hst : forall m b, stt s3 m b = stt s2 m b) by (intros; by apply Same_stt).
    assert (Hst1 : forall m b, stt s1 m b = stt s m b).
    { intros m b. exact (Same_stt _ _ m b S1). }
    split_and!.
    + split.
      * by apply (Same_Inv WF S3).
      * intros m Hm. unfold s3. simpl. pose proof (le_bcc _ _ L2 m) as E. unfold s1 in E. simpl in E.
        unfold upd in *. repeat (case_decide; subst; simpl in *); rewrite ?E; auto.
      * intros m Hm. unfold s3. simpl. pose proof (le_tcc _ _ L2 m) as E. unfold s1 in E. simpl in E.
        unfold upd in *. repeat (case_decide; subst; simpl in *); rewrite ?E; auto.
      * intros m Hm. unfold s3. simpl. pose proof (le_filter _ _ L2 m) as E. unfold s1 in E. simpl in E.
        unfold upd in *. repeat (case_decide; subst; simpl in *); rewrite ?E; auto.
      * intros m Hm. rewrite (fr_arr S3). auto.
    + by rewrite (fr_procMask S3), Hpm2.
    + by rewrite Hst.
    + intros b Hb m Hm. rewrite Hst, <- Hst1. by apply HM2.
    + lia.
    + lia.
Qed.

(** A load or a store: either the filter answers, or the cache is asked. *)
Lemma filter_access_spec fuel ifuel lineBits n isLoad vAddr cyc s :
  Ready s -> PortOk fuel ifuel n (Z.shiftr vAddr (Z.of_nat lineBits)) cyc s ->
  wp (filter_access cfg memLatency (Datatypes.S fuel) ifuel lineBits n isLoad vAddr cyc)
     (fun r s' => Ready s' /\ sys_procMask s' = sys_procMask s /\ cyc <= r) s.
Proof.
  intros HR HP. assert (Hn := po_node _ _ _ _ _ _ HP). assert (Ht := po_term _ _ _ _ _ _ HP).
  set (vLine := Z.shiftr vAddr (Z.of_nat lineBits)) in *.
  unfold filter_access. fold vLine. repeat wp_step.
  destruct (lookup_lt_is_Some_2 _ _ (filter_idx n vLine s (rd_inv _ HR) Hn Ht)) as [fe Hfe].
  eapply wp_arr_get; [exact Hfe|]. case_match.
  - repeat wp_step. rewrite MAX_max. split_and!; [|done|lia].
    eapply Ready_Same; [apply Same_set_cache|apply LockEq_set_cache|done]; intros k; by destruct isLoad.
  - eapply wp_mono; [by apply filter_replace_spec|]. intros r s' (?&?&_&_&?). split_and!; [done..|lia].
Qed.

Lemma contextSwitch_spec n s : Ready s -> node n ->
  wp (contextSwitch n) (fun _ s' => Ready s' /\ sys_procMask s' = sys_procMask s) s.
Proof.
  intros HR Hn. unfold contextSwitch. apply wp_bind, wp_futex_lock; [by apply HR|].
  unfold futex_unlock. repeat wp_step. set (s' := set_lock _ _ _).
  assert (S' : Same s s').
  { eapply Same_trans; [apply (Same_set_lock (LkFilter n) true)|].
    eapply Same_trans; [|apply Same_set_lock]. apply Same_set_cache; try done.
    intros k. simpl. by rewrite length_replicate. }
  split; [|by apply (fr_procMask S')]. destruct HR as [R1 R2 R3 R4 R5]. split.
  - by apply (Same_Inv WF S').
  - intros m Hm. unfold s'. simpl. unfold upd. repeat case_decide; subst; simpl; auto.
  - intros m Hm. unfold s'. simpl. unfold upd. repeat case_decide; subst; simpl; auto.
  - intros m Hm. unfold s'. simpl. unfold upd. repeat case_decide; subst; simpl; auto.
  - intros m Hm. rewrite (fr_arr S'). auto.
Qed.

(** ** Sequences of core operations *)
Inductive CoreOp :=
| OpLoad (n : nat) (vAddr cyc : Z)
| OpStore (n : nat) (vAddr cyc : Z)
| OpSwitch (n : nat) (mask : Z).

Context (fuel ifuel lineBits : nat).

(** A context switch at a core empties its filter; the next requests are those
    of the process with [mask]. *)
Definition set_procMask (mask : Z) s : Sys A :=
  mkSys A (sys_caches s) (sys_dummy s) (sys_evRecs s) (sys_heap s) mask.
Definition run_op (op : CoreOp) : M (Sys A) Z :=
  match op with
  | OpLoad n v c => load cfg memLatency (Datatypes.S fuel) ifuel lineBits n v c
  | OpStore n v c => store cfg memLatency (Datatypes.S fuel) ifuel lineBits n v c
  | OpSwitch n mask => contextSwitch n;; mmodify (set_procMask mask);; mret 0
  end.
Fixpoint run (ops : list CoreOp) : M (Sys A) (list Z) :=
  match ops with
  | [] => mret []
  | op :: ops => r ← run_op op; rs ← run ops; mret (r :: rs)
  end.

(** Requests of the cores' own caches, to representable addresses, at cycles
    that the 64-bit cycle counter can hold. *)
Definition port_ok (mask : Z) (n : nat) (v c : Z) : Prop :=
  node n /\ term n = true /\ aok (Z.lor mask (Z.shiftr v (Z.of_nat lineBits))) /\
  0 <= c /\ c + lat ifuel (Datatypes.S fuel) < two64.
Fixpoint ops_ok (mask : Z) (ops : list CoreOp) : Prop :=
  match ops with
  | [] => True
  | OpLoad n v c :: ops => port_ok mask n v c /\ ops_ok mask ops
  | OpStore n v c :: ops => port_ok mask n v c /\ ops_ok mask ops
  | OpSwitch n mask' :: ops => node n /\ ops_ok mask' ops
  end.

(** The fuel covers the levels, a request's latency fits the 32-bit counters,
    and the cores' requests are not prefetches. *)
Record PortCfg : Prop := {
  pc_ifuel : (top <= ifuel)%nat;
  pc_fuel : (top <= fuel)%nat;
  pc_lat : lat ifuel (Datatypes.S fuel) < two32;
  pc_flags : forall n, node n -> flag_is (cfg_reqFlags (cfg n)) PREFETCH = false
}.
Context (PC : PortCfg).

Lemma port_ok_PortOk n v (c : Z) s : port_ok (sys_procMask s) n v c ->
  PortOk fuel ifuel n (Z.shiftr v (Z.of_nat lineBits)) c s.
Proof.
  intros (?&?&?&?&?). destruct PC as [P1 P2 P3 P4]. split; auto. lia.
Qed.

Lemma Ready_set_procMask mask s : Ready s -> Ready (set_procMask mask s).
Proof.
  intros [[[H1 H2 H3 H4 H5 H6 H7 H8] HN] R2 R3 R4 R5]. split; try done. split; [by split|].
  intros p a Hp Ht. destruct (HN p a Hp Ht). by split.
Qed.

Lemma run_spec ops s : Ready s -> ops_ok (sys_procMask s) ops ->
  wp (run ops) (fun rs s' => Ready s' /\ length rs = length ops) s.
Proof.
  revert s. induction ops as [|op ops IH]; intros s HR Hok; [by apply wp_ret|].
  cbn [run]. apply wp_bind.
  apply (wp_mono _ (fun _ s' => Ready s' /\ ops_ok (sys_procMask s') ops)).
  - destruct op as [n v c|n v c|n mask]; cbn [run_op] in *; destruct Hok as [Hop Hok].
    + eapply wp_mono; [eapply filter_access_spec; [done|by apply port_ok_PortOk]|].
      intros r s' (?&->&_). done.
    + eapply wp_mono; [eapply filter_access_spec; [done|by apply port_ok_PortOk]|].
      intros r s' (?&->&_). done.
    + apply wp_bind. eapply wp_mono; [by apply contextSwitch_spec|]. intros [] s' [HR' _].
      repeat wp_step. split; [by apply Ready_set_procMask|done].
  - intros r s' [HR' Hok']. apply wp_bind. eapply wp_mono; [by apply IH|].
    intros rs s'' [HR'' Hlen]. apply wp_ret. cbn [length]. by rewrite Hlen.
Qed.

(** ** The initial state *)
Definition init_filter n : Filter :=
  mkFilter (replicate (Z.to_nat (cfg_filterSetMask (cfg n) + 1)) FilterEntry_clear) false 0 0.
Definition init_cache (arrays : nat -> A) n : CacheSt A :=
  mkCache A (arrays n) (replicate (cfg_numLines (cfg n)) StI) (fun _ => 0) false
    (replicate (cfg_numLines (cfg n)) Entry_clear) false (init_filter n).
Definition init_sys (arrays : nat -> A) (evRecs : nat -> option EventRecorder) (heap : EvHeap)
    (mask : Z) : Sys A :=
  mkSys A (init_cache arrays) (fun _ => StI) evRecs heap mask.

(** The arrays are freshly built, and no core has pending timing records. *)
Record InitOk (arrays : nat -> A) (evRecs : nat -> option EventRecorder) : Prop := {
  io_idle : forall n, node n -> ca_idle (arrays n);
  io_lines : forall n, node n -> ca_numLines (arrays n) = cfg_numLines (cfg n);
  io_addr : forall n a, node n -> aok a -> ca_addr_ok (arrays n) a;
  io_norec : forall i er, evRecs i = Some er -> hasRecord er = false
}.

Lemma replicate_total {X} `{Inhabited X} (k l : nat) (x : X) :
  (l < k)%nat -> replicate k x !!! l = x.
Proof. intros Hl. apply list_lookup_total_correct. by apply lookup_replicate. Qed.

Lemma init_stt arrays evRecs heap mask n a : InitOk arrays evRecs -> node n ->
  stt (init_sys arrays evRecs heap mask) n a = StI /\
  dir (init_sys arrays evRecs heap mask) n a = Entry_clear.
Proof.
  intros [I1 I2 I3 I4] Hn. unfold stt, dir, arr, bccl, tccl. simpl.
  destruct (ca_find (arrays n) a) as [l|] eqn:Hl; [|done].
  destruct (ca_find_tag _ _ _ (ca_idle_wf _ (I1 n Hn)) Hl) as [Hlt _]. rewrite I2 in Hlt by done.
  by rewrite !replicate_total.
Qed.

Lemma init_Ready arrays evRecs heap mask : InitOk arrays evRecs ->
  Ready (init_sys arrays evRecs heap mask).
Proof.
  intros HO. assert (Hst := fun n a => init_stt arrays evRecs heap mask n a HO).
  destruct HO as [I1 I2 I3 I4]. split; try done. split.
  - split; unfold arr; simpl.
    + intros n Hn. by apply ca_idle_wf, I1.
    + intros n Hn. by rewrite length_replicate, I2.
    + intros n Hn _. by rewrite !length_replicate.
    + intros n a Hn Ha. by apply I3.
    + intros n l Hn Hl _. rewrite length_replicate in Hl. unfold bccl, tccl. simpl.
      by rewrite !replicate_total.
    + intros n a Hn Hv. destruct Hv. exact (proj1 (Hst n a Hn)).
    + intros n Hn Ht. rewrite length_replicate. pose proof (wf_mask WF n Hn). lia.
    + done.
  - intros p a Hp Ht. apply NodeInv_empty; [by destruct (Hst p a Hp) as [_ ->]|].
    intros c Hc _. by apply Hst.
Qed.
End Top.
