(* ===== verification/CoherenceExample.v ===== *)
(** * A concrete hierarchy

    Two cores with first-level caches (nodes 0 and 1), two last-level banks
    (nodes 2 and 3) between which the addresses are interleaved, and one memory
    controller; set-associative arrays with LRU replacement.  It instantiates
    the theorems on hierarchies and evaluates sequences of requests. *)

From S2P Require Import Prelude Bithacks MemHier TimingEvent ReplPolicies CacheArrays Coherence CoherenceInv CoherenceDown CoherenceUp CoherenceTop.

Module Ex.

Definition cfg (n : nat) : CacheCfg :=
  match n with
  | 0%nat => mkCfg true false 4 0 [OCache 2; OCache 3] [2; 2] [] [] 3 1 1 0 0
  | 1%nat => mkCfg true false 4 1 [OCache 2; OCache 3] [2; 2] [] [] 3 1 1 1 0
  | 2%nat => mkCfg false false 8 0 [OMem 0] [4] [0%nat; 1%nat] [1; 1] 7 2 0 0 0
  | _ => mkCfg false false 8 0 [OMem 0] [4] [0%nat; 1%nat] [1; 1] 7 2 0 0 0
  end.
Definition memLatency (m : nat) : Z := 100.
Definition node (n : nat) : Prop := (n < 4)%nat.
Definition lvl (n : nat) : nat := if (n <? 2)%nat then 0 else 1.
Definition root (a : Z) : nat := (2 + getParentId cfg 0 a)%nat.
Definition K : Z := 100.

Lemma nodes n : node n -> n = 0%nat \/ n = 1%nat \/ n = 2%nat \/ n = 3%nat.
Proof. unfold node. lia. Qed.

Lemma parent01 a : parent_of cfg 1 a = parent_of cfg 0 a.
Proof. done. Qed.

Lemma getParentId_2 a : getParentId cfg 0 a = 0%nat \/ getParentId cfg 0 a = 1%nat.
Proof.
  unfold getParentId. cbn [cfg cfg_parents length]. set (x := Z.lxor _ _).
  pose proof (Z.mod_pos_bound x 2 ltac:(lia)). change (Z.of_nat 2) with 2. lia.
Qed.

Lemma reach_bank n a : (2 <= n)%nat -> node n -> reach cfg node n a -> n = root a.
Proof.
  intros H2 Hn (t&Ht&Htt&Hanc). unfold root.
  assert (Ht01 : t = 0%nat \/ t = 1%nat).
  { destruct (nodes t Ht) as [->|[->|[->| ->]]]; auto; done. }
  assert (Hpar : parent_of cfg t a = [OCache 2; OCache 3] !! getParentId cfg 0 a).
  { by destruct Ht01 as [-> | ->]. }
  inversion Hanc as [|? q Hq Hq']; subst; [lia|].
  rewrite Hpar in Hq. destruct (getParentId_2 a) as [Hg|Hg]; rewrite Hg in Hq |- *; cbn in Hq; injection Hq as <-.
  - inversion Hq' as [|? q2 Hq2 _]; subst; [done|]. unfold parent_of in Hq2. cbn in Hq2.
    destruct (getParentId cfg 2 a); done.
  - inversion Hq' as [|? q2 Hq2 _]; subst; [done|]. unfold parent_of in Hq2. cbn in Hq2.
    destruct (getParentId cfg 3 a); done.
Qed.

(** Case analysis on the nodes of the example. *)
Ltac each_node :=
  repeat match goal with
  | H : node ?n |- _ => destruct (nodes n H) as [->|[->|[->| ->]]]; clear H
  end.

Lemma WF : WfHier cfg memLatency node lvl 1 root K.
Proof.
  split.
  - intros n Hn. each_node; done.
  - intros c p Hc Hp. each_node; cbn in Hp; rewrite ?elem_of_cons, ?elem_of_nil in Hp;
      (repeat destruct Hp as [Hp|Hp]); try done; injection Hp as ->; split_and!; try done; unfold node, lvl; cbn; lia.
  - intros p i c Hp Hc. each_node; cbn in Hc; try done;
      (destruct i as [|[|i]]; cbn in Hc; try done; injection Hc as <-;
       (split_and!; [unfold node; lia|done|cbn; rewrite !elem_of_cons; auto])).
  - intros n Hn. each_node; unfold lvl; cbn; lia.
  - intros n Hn Ht. each_node; done.
  - intros n Hn. unfold MAX_CACHE_CHILDREN. each_node; cbn; lia.
  - intros n Hn. each_node; done.
  - intros n Hn. each_node; done.
  - intros n Hn. each_node; done.
  - intros n a m Hr Hp. assert (Hn : node n).
    { destruct Hr as (t&Ht&_&Hanc). destruct (decide (n < 4)%nat) as [|Hge]; [done|]. exfalso.
      assert (Hbig : forall x y, anc cfg a x y -> (y < 4)%nat -> (x < 4)%nat); [|by apply Hge, (Hbig n t)].
      clear. intros x y Hanc. induction Hanc as [|m q Hq Hanc IH]; intros Hm; [done|]. apply IH.
      assert (Hnm : node m) by done. each_node; unfold parent_of in Hq; cbn in Hq;
        [destruct (getParentId cfg _ a) as [|[|]]; cbn in Hq; try done; injection Hq as <-; lia..| |];
        destruct (getParentId cfg _ a) as [|]; done. }
    destruct (decide (2 <= n)%nat) as [H2|H2]; [by apply reach_bank|].
    exfalso. assert (n = 0%nat \/ n = 1%nat) as [-> | ->] by lia; unfold parent_of in Hp; cbn in Hp;
      destruct (getParentId cfg _ a) as [|[|]]; done.
  - intros n Hn. each_node; cbn; lia.
  - unfold K. lia.
  - intros n Hn. unfold K. each_node; cbn; lia.
  - intros n Hn. unfold K. each_node; cbn; lia.
  - intros n Hn. unfold K. each_node; cbn; repeat constructor; lia.
  - intros n Hn. unfold K. each_node; cbn; repeat constructor; lia.
  - intros m. unfold K, memLatency. lia.
Qed.

(** Arrays: 2-way L1s of 4 lines, 4-way banks of 8 lines, indexed by the address. *)
Definition idHash (_ : nat) (a : Z) : Z := a.
Definition mkArray (lines assoc : nat) : SetAssoc.t LRU.t :=
  SetAssoc.mk LRU.t (replicate lines 0) (LRU.init true lines) idHash lines (lines / assoc) assoc
    (Z.of_nat (lines / assoc) - 1).
Definition arrays (n : nat) : SetAssoc.t LRU.t := if (n <? 2)%nat then mkArray 4 2 else mkArray 8 4.

Lemma arrays_built n : node n ->
  SetAssoc.init (cfg_numLines (cfg n)) (if (n <? 2)%nat then 2%nat else 4%nat)
    (LRU.init true (cfg_numLines (cfg n))) idHash = Ok (arrays n).
Proof. intros Hn. each_node; reflexivity. Qed.

Definition aok (_ : Z) : Prop := True.
Definition noRecs (_ : nat) : option EventRecorder := None.

Lemma InitOk : InitOk cfg node aok arrays noRecs.
Proof.
  split.
  - intros n Hn. each_node; (split; [split; cbn; lia || done|done]).
  - intros n Hn. each_node; done.
  - done.
  - done.
Qed.

Definition init : Sys (SetAssoc.t LRU.t) := init_sys cfg arrays noRecs empty_heap 0.

Lemma PC : PortCfg cfg node 1 K 1 1.
Proof.
  split; [lia|lia| |].
  - unfold CoherenceUp.lat, K, two32. cbn. lia.
  - intros n Hn. each_node; reflexivity.
Qed.

(** Core 0 writes line 5, core 1 reads it, then writes it, core 0 reads four
    other lines of the same set. *)
Definition ops : list CoreOp :=
  [OpStore 0 320 10; OpLoad 1 320 400; OpStore 1 320 800; OpLoad 0 320 1200;
   OpLoad 0 448 1500; OpLoad 0 576 1800; OpSwitch 0 0; OpLoad 0 704 2100].

Lemma ops_are_ok : ops_ok cfg node K aok 1 1 6 0 ops.
Proof. repeat split; cbn; unfold node; try lia; done. Qed.

(** The state they lead to. *)
Definition result : list Z * Sys (SetAssoc.t LRU.t) :=
  match run cfg memLatency 1 1 6 ops init with Ok p => p | Err _ => ([], init) end.
Definition final : Sys (SetAssoc.t LRU.t) := result.2.

Lemma run_result : run cfg memLatency 1 1 6 ops init = Ok result.
Proof.
  unfold result. destruct (run cfg memLatency 1 1 6 ops init) as [p|] eqn:E; [done|].
  assert (H : is_ok (run cfg memLatency 1 1 6 ops init) = true) by (vm_compute; reflexivity).
  by rewrite E in H.
Qed.

(** The response cycles: a miss to memory costs 116 cycles, a transfer between
    the cores 14 (17 with the writeback), and at the end core 1 shares line 5
    with nobody, core 0 having evicted it. *)
Lemma run_cycles : result.1 = [126; 414; 814; 1214; 1616; 1916; 0; 2216].
Proof. vm_compute. reflexivity. Qed.
Lemma run_states :
  c_bcc (sys_caches final 0) = [StI; StI; StE; StE] /\
  c_bcc (sys_caches final 1) = [StI; StI; StS; StI] /\
  c_bcc (sys_caches final 3) = [StI; StI; StI; StI; StM; StE; StE; StE].
Proof. vm_compute. repeat split; reflexivity. Qed.

Lemma run_Ready p : run cfg memLatency 1 1 6 ops init = Ok p -> Ready cfg node aok p.2.
Proof.
  intros Hrun.
  destruct (wp_elim _ _ _ (run_spec cfg memLatency node lvl 1 root K aok WF 1 1 6 PC ops init
    (init_Ready cfg memLatency node lvl 1 root K aok WF arrays noRecs empty_heap 0 InitOk) ops_are_ok))
    as (rs&s&Hr&HR&_).
  rewrite Hrun in Hr. by injection Hr as ->.
Qed.
Lemma final_Ready : Ready cfg node aok final.
Proof. exact (run_Ready result run_result). Qed.

(** The same state with the lock of one cache taken, as when it sends a request. *)
Definition locked (n : nat) : Sys (SetAssoc.t LRU.t) := set_lock (LkBcc n) true final.
Section Locked.
Context (s : Sys (SetAssoc.t LRU.t)) (n : nat) (HR : Ready cfg node aok s).
Lemma lock_Inv : Inv cfg node aok (set_lock (LkBcc n) true s).
Proof. apply (Same_Inv WF (Same_set_lock (LkBcc n) true s)), HR. Qed.
Lemma lock_LockPre : LockPre node lvl (set_lock (LkBcc n) true s) n.
Proof.
  destruct HR as [R1 R2 R3 R4 R5]. split; intros m Hm; simpl; unfold upd.
  - case_decide; simpl; [subst; by rewrite bool_decide_eq_true_2|].
    rewrite R2 by done. by rewrite bool_decide_eq_false_2 by congruence.
  - case_decide; subst; simpl; auto.
  - intros _. case_decide; subst; simpl; auto.
Qed.
Lemma lock_idle k : IdleAbove node lvl (set_lock (LkBcc n) true s) k.
Proof.
  intros m Hm _. rewrite (fr_arr (Same_set_lock (LkBcc n) true s)). by apply HR.
Qed.
End Locked.
Lemma locked_Inv n : Inv cfg node aok (locked n).
Proof. exact (lock_Inv final n final_Ready). Qed.
Lemma locked_LockPre n : LockPre node lvl (locked n) n.
Proof. exact (lock_LockPre final n final_Ready). Qed.
Lemma locked_idle n k : IdleAbove node lvl (locked n) k.
Proof. exact (lock_idle final n final_Ready k). Qed.
End Ex.
