(* ===== verification/CoherenceThms.v ===== *)
(** * The coherent cache hierarchy: theorems

    What the whole hierarchy promises to the cores, for any topology, arrays
    and replacement policies that satisfy the interfaces, with an instance of
    each theorem on the concrete hierarchy of [CoherenceExample]. *)

From S2P Require Import Prelude Bithacks MemHier TimingEvent ReplPolicies CacheArrays Coherence CoherenceInv CoherenceDown CoherenceUp CoherenceTop CoherenceExample.

Section Thms.
Context {A : Type} `{HL : CacheArrayLaws A}.
Context (cfg : nat -> CacheCfg) (memLatency : nat -> Z).
Context (node : nat -> Prop) (lvl : nat -> nat) (top : nat) (root : Z -> nat) (K : Z).
Context (aok : Z -> Prop) (fuel ifuel lineBits : nat).
Context (arrays : nat -> A) (evRecs : nat -> option EventRecorder) (heap : EvHeap) (mask : Z).
Implicit Types (s : Sys A) (a : Z).

(** A state that the cores' requests lead to. *)
Definition reached (ops : list CoreOp) (rs : list Z) s : Prop :=
  run cfg memLatency fuel ifuel lineBits ops (init_sys cfg arrays evRecs heap mask) = Ok (rs, s).

Lemma reached_Ready ops rs s :
  WfHier cfg memLatency node lvl top root K -> PortCfg cfg node top K fuel ifuel ->
  InitOk cfg node aok arrays evRecs -> ops_ok cfg node K aok fuel ifuel lineBits mask ops ->
  reached ops rs s -> Ready cfg node aok s.
Proof.
  intros WF PC HI Hok Hrun.
  pose proof (run_spec cfg memLatency node lvl top root K aok WF fuel ifuel lineBits PC ops
    (init_sys cfg arrays evRecs heap mask)
    (init_Ready cfg memLatency node lvl top root K aok WF arrays evRecs heap mask HI) Hok) as Hwp.
  unfold wp in Hwp. unfold reached in Hrun. rewrite Hrun in Hwp. apply Hwp.
Qed.

(** C1: any sequence of loads, stores and context switches of the cores runs to
    completion from the initial state: no assertion of the caches, controllers,
    arrays or memory fails, no lock is waited for by its own holder, the
    recursions terminate; afterwards no lock is held and the hierarchy's
    invariant (directories agree with the states below, lines not found are
    clean) holds. *)
Theorem hierarchy_safe ops :
  WfHier cfg memLatency node lvl top root K -> PortCfg cfg node top K fuel ifuel ->
  InitOk cfg node aok arrays evRecs -> ops_ok cfg node K aok fuel ifuel lineBits mask ops ->
  exists rs s, reached ops rs s /\ length rs = length ops /\ Ready cfg node aok s.
Proof.
  intros WF PC HI Hok.
  destruct (wp_elim _ _ _ (run_spec cfg memLatency node lvl top root K aok WF fuel ifuel lineBits PC ops
    (init_sys cfg arrays evRecs heap mask)
    (init_Ready cfg memLatency node lvl top root K aok WF arrays evRecs heap mask HI) Hok))
    as (rs&s&Hrun&HR&Hlen). eauto.
Qed.

(** C2: single writer, multiple readers: in every state that the cores' requests
    lead to, when one core's cache holds a line in E or M no other core's cache
    holds it. *)
Theorem hierarchy_swmr ops rs s a t t' :
  WfHier cfg memLatency node lvl top root K -> PortCfg cfg node top K fuel ifuel ->
  InitOk cfg node aok arrays evRecs -> ops_ok cfg node K aok fuel ifuel lineBits mask ops ->
  reached ops rs s -> node t -> node t' ->
  cfg_terminal (cfg t) = true -> cfg_terminal (cfg t') = true ->
  EM (stt s t a) -> stt s t' a <> StI -> t = t'.
Proof.
  intros WF PC HI Hok Hrun. apply (swmr cfg memLatency node lvl top root K aok WF).
  apply (reached_Ready ops rs s WF PC HI Hok Hrun).
Qed.

(** C3: inclusion: in every state that the cores' requests lead to, a line valid
    in a cache is valid in every cache on its path to memory, is recorded by each
    parent's directory, and is exclusive there if it is exclusive below. *)
Theorem hierarchy_inclusion ops rs s a c p :
  WfHier cfg memLatency node lvl top root K -> PortCfg cfg node top K fuel ifuel ->
  InitOk cfg node aok arrays evRecs -> ops_ok cfg node K aok fuel ifuel lineBits mask ops ->
  reached ops rs s -> node c -> parent_of cfg c a = Some (OCache p) -> stt s c a <> StI ->
  stt s p a <> StI /\ cfg_selfId (cfg c) ∈ sharers (dir s p a) /\
  (EM (stt s c a) -> EM (stt s p a) /\ sharers (dir s p a) = {[cfg_selfId (cfg c)]}).
Proof.
  intros WF PC HI Hok Hrun Hc Hp Hv.
  assert (HR := reached_Ready ops rs s WF PC HI Hok Hrun). assert (HInv := rd_inv _ _ _ _ HR).
  destruct (parent_up WF c p a Hc Hp) as (Hnp&_&Ht&_).
  assert (N := inv_node HInv p a Hnp Ht). assert (Hs := ni_sharer N c Hc Hp Hv).
  split; [apply (ni_incl N); set_solver|]. split; [done|]. intros HE.
  assert (Hex := ni_excl N c Hc Hp HE). split; [by apply (ni_inclEM N)|].
  apply set_eq. intros i. rewrite elem_of_singleton. split; [|by intros ->].
  intros Hi. by eapply (exclusive_unique N).
Qed.

(** C4: a load or store that the filter does not answer returns with the line in
    the core's cache, readable after a load and in M after a store, within the
    latency of the levels, and no other line becomes valid anywhere. *)
Theorem miss_grants n vLine isLoad cyc s :
  WfHier cfg memLatency node lvl top root K -> Ready cfg node aok s ->
  PortOk cfg node lvl top K aok fuel ifuel n vLine cyc s ->
  exists r s',
    filter_replace cfg memLatency (Datatypes.S fuel) ifuel n vLine
      (Z.to_nat (Z.land vLine (cfg_filterSetMask (cfg n)))) isLoad cyc s = Ok (r, s') /\
    Ready cfg node aok s' /\
    (if isLoad then stt s' n (Z.lor (sys_procMask s) vLine) <> StI
     else stt s' n (Z.lor (sys_procMask s) vLine) = StM) /\
    (forall b m, b <> Z.lor (sys_procMask s) vLine -> node m -> stt s' m b <> StI -> stt s m b <> StI) /\
    cyc <= r <= cyc + lat K ifuel (Datatypes.S fuel).
Proof.
  intros WF HR HP.
  destruct (wp_elim _ _ _ (filter_replace_spec cfg memLatency node lvl top root K aok WF fuel ifuel n
    vLine isLoad cyc s HR HP)) as (r&s'&Hrun&HR'&_&Hp&HM&Hr).
  exists r, s'. split_and!; [done|done| | |lia|lia].
  - by destruct isLoad.
  - intros b m Hb Hm. by apply HM.
Qed.

(** C5: an invalidation returns, leaves the line invalid in the cache ([INV]) or
    shared ([INVX]) and its subtree consistent, reports a writeback exactly when
    some cache of the subtree held the line dirty, makes no line valid, and changes
    only the lines of that address in that subtree. *)
Theorem invalidate_correct n a t cyc wb src s :
  WfHier cfg memLatency node lvl top root K -> InvPre cfg node lvl K aok ifuel n a t cyc s ->
  exists r wb' s', invalidate cfg ifuel n (mkInvReq a t wb cyc src) s = Ok ((r, wb'), s') /\
    stt s' n a = inv_target t /\ SubInv cfg node s' n a /\
    (wb' = true <-> wb = true \/ exists m, node m /\ anc cfg a n m /\ stt s m a = StM) /\
    (forall m, node m -> stt s' m a <> StI -> stt s m a <> StI) /\
    (forall m b, node m -> b <> a \/ ~ anc cfg a n m -> stt s' m b = stt s m b /\ dir s' m b = dir s m b) /\
    cyc <= r <= cyc + 2 * K * Z.of_nat ifuel.
Proof.
  intros WF HP.
  destruct (wp_elim _ _ _ (invalidate_spec cfg memLatency node lvl top root K aok WF ifuel n a t cyc wb src s HP))
    as ([r wb']&s'&Hrun&HB'&F&L&HM&HS&Hst&Hr&Hwb).
  assert (HB : Base cfg node aok s) by apply HP.
  exists r, wb', s'. cbn [fst snd] in *. split_and!; try done; try lia.
  intros m b Hm Hor. split; [by apply (Frame_stt _ _ HB Hm F)|by apply (Frame_dir _ _ HB Hm F)].
Qed.

(** a GETS or GETX that a cache sends to its parent is granted: the child's
    line ends in S or E (GETS) or M (GETX), the whole hierarchy keeps its
    invariant and its locks, and the copies below the child are untouched. *)
Theorem request_granted c a lc t st cyc src fl s :
  WfHier cfg memLatency node lvl top root K -> (top <= ifuel)%nat ->
  UpPre cfg node lvl top K aok ifuel fuel c a lc t st cyc s -> flag_is fl PREFETCH = false ->
  exists r s',
    up_access cfg (access cfg memLatency fuel ifuel) c a
      (mkMemReq a t (cfg_selfId (cfg c)) (RefLine c lc) cyc (Some (LkBcc c)) st src fl) s = Ok (r, s') /\
    Inv cfg node aok s' /\ LockEq s s' /\ granted t (stt s' c a) /\
    (forall m, node m -> m <> c -> anc cfg a c m -> stt s' m a = stt s m a) /\
    cyc <= r <= cyc + lat K ifuel fuel.
Proof.
  intros WF Hif HP Hfl.
  destruct (wp_elim _ _ _ (access_spec cfg memLatency node lvl top root K aok WF ifuel fuel Hif
    c a lc t st cyc src fl s HP Hfl)) as (r&s'&Hrun&[P1 P2 P3 P4 P5 P6 P7 P8 P9]).
  exists r, s'. done.
Qed.

(** C6: an eviction of an invalid line changes nothing.  One of a valid line first
    invalidates every copy below, then sends the parent exactly one request, a PUTX if
    the line was dirty here or in a cache below and a PUTS otherwise, with whose answer
    it returns; afterwards neither the cache nor any cache below holds the line, the
    directory entry is clear, no other address has changed, and the hierarchy's
    invariant and its locks are as before. *)
Theorem eviction_correct n l cyc req s :
  WfHier cfg memLatency node lvl top root K -> (top <= lvl n + fuel)%nat -> (top <= ifuel)%nat ->
  Inv cfg node aok s -> node n -> (l < ca_numLines (arr s n))%nat -> LockPre node lvl s n ->
  0 <= cyc -> cyc + 2 * K * Z.of_nat ifuel + 2 * K < two64 ->
  let b := ca_tag (arr s n) l in
  exists r s',
    cc_processEviction cfg (access cfg memLatency fuel ifuel) (invalidate cfg ifuel) n req b l cyc s = Ok (r, s') /\
    (bccl s n l = StI -> s' = s) /\
    (bccl s n l <> StI -> Sent cfg memLatency node fuel ifuel n b l (srcId req)
       (exists m, node m /\ anc cfg b n m /\ stt s m b = StM) r s') /\
    Inv cfg node aok s' /\ LockEq s s' /\ bccl s' n l = StI /\
    (bccl s n l <> StI -> forall m, node m -> anc cfg b n m -> stt s' m b = StI) /\
    (cfg_terminal (cfg n) = false -> emptyEntry (tccl s' n l)) /\
    (forall m a, node m -> a <> b -> stt s' m a = stt s m a /\ dir s' m a = dir s m a).
Proof.
  intros WF Hf Hif HI Hn Hl Hlk Hc Hcb b.
  destruct (wp_elim _ _ _ (evict_spec cfg memLatency node lvl top root K aok WF fuel ifuel n l cyc req s
    Hf Hif HI Hn Hl Hlk Hc Hcb)) as (r&s'&Hrun&[P1 P2 P3 P4 P5 P6]&Hid&Hsent).
  exists r, s'. split_and!; try done.
  - intros Hv m Hm Ha. apply dec_stable. intros Hvm. apply (inclusion WF P1 Hm Ha Hvm).
    unfold stt. rewrite (fr_arr P2). destruct (ca_find (arr s n) b) as [l'|] eqn:El; [|done].
    destruct (decide (l' = l)) as [->|Hne]; [done|]. exfalso. apply Hv.
    rewrite (b_lines (inv_base HI) n Hn) in Hl. apply (b_clean (inv_base HI) n l Hn Hl). unfold b in El. rewrite El. congruence.
  - intros m a Hm Hb.
    split; [apply (Frame_stt _ _ (inv_base HI) Hm P2)|apply (Frame_dir _ _ (inv_base HI) Hm P2)]; by left.
Qed.
End Thms.

(** ** Instances on the concrete hierarchy *)
Abbreviation ex_reached := (reached Ex.cfg Ex.memLatency 1 1 6 Ex.arrays Ex.noRecs empty_heap 0 Ex.ops).

Lemma ex_reached_result : ex_reached Ex.result.1 Ex.final.
Proof. unfold reached. rewrite <- surjective_pairing. exact Ex.run_result. Qed.

Lemma hierarchy_safe_witness :
  exists rs s, ex_reached rs s /\ length rs = 8%nat /\ Ready Ex.cfg Ex.node Ex.aok s.
Proof.
  exact (hierarchy_safe Ex.cfg Ex.memLatency Ex.node Ex.lvl 1 Ex.root Ex.K Ex.aok 1 1 6 Ex.arrays Ex.noRecs
    empty_heap 0 Ex.ops Ex.WF Ex.PC Ex.InitOk Ex.ops_are_ok).
Defined.

Lemma hierarchy_swmr_witness : EM (stt Ex.final 0 9) /\ 0%nat = 0%nat.
Proof.
  assert (H : EM (stt Ex.final 0 9)) by (left; vm_compute; reflexivity). split; [exact H|].
  apply (hierarchy_swmr Ex.cfg Ex.memLatency Ex.node Ex.lvl 1 Ex.root Ex.K Ex.aok 1 1 6 Ex.arrays Ex.noRecs
    empty_heap 0 Ex.ops Ex.result.1 Ex.final 9 0 0 Ex.WF Ex.PC Ex.InitOk Ex.ops_are_ok ex_reached_result);
    try (unfold Ex.node; lia); try reflexivity; [exact H|]. destruct H as [-> | ->]; discriminate.
Defined.

Lemma hierarchy_inclusion_witness :
  stt Ex.final 1 5 = StS /\ stt Ex.final 3 5 <> StI /\ 1%nat ∈ sharers (dir Ex.final 3 5).
Proof.
  assert (H : stt Ex.final 1 5 = StS) by (vm_compute; reflexivity). split; [exact H|].
  destruct (hierarchy_inclusion Ex.cfg Ex.memLatency Ex.node Ex.lvl 1 Ex.root Ex.K Ex.aok 1 1 6 Ex.arrays Ex.noRecs
    empty_heap 0 Ex.ops Ex.result.1 Ex.final 5 1 3 Ex.WF Ex.PC Ex.InitOk Ex.ops_are_ok ex_reached_result)
    as (H1&H2&_).
  - unfold Ex.node; lia.
  - vm_compute; reflexivity.
  - rewrite H; discriminate.
  - split; [exact H1|exact H2].
Defined.

Lemma miss_grants_witness : exists r s',
  filter_replace Ex.cfg Ex.memLatency 2 1 0 13 1 false 3000 Ex.final = Ok (r, s') /\ stt s' 0 13 = StM.
Proof.
  destruct (miss_grants Ex.cfg Ex.memLatency Ex.node Ex.lvl 1 Ex.root Ex.K Ex.aok 1 1 0 13 false 3000 Ex.final
    Ex.WF Ex.final_Ready) as (r&s'&H1&_&H2&_).
  - split.
    + lia.
    + unfold Ex.lvl; cbn; lia.
    + unfold Ex.node; lia.
    + reflexivity.
    + exact I.
    + reflexivity.
    + lia.
    + unfold CoherenceUp.lat, Ex.K, two64; cbn; lia.
    + unfold CoherenceUp.lat, Ex.K, two32; cbn; lia.
  - exists r, s'. split; [exact H1|exact H2].
Defined.

Lemma invalidate_correct_witness : exists r wb s',
  invalidate Ex.cfg 2 3 (mkInvReq 9 INV false 3000 0) Ex.final = Ok ((r, wb), s') /\
  stt Ex.final 0 9 = StE /\ stt s' 3 9 = StI.
Proof.
  destruct (invalidate_correct Ex.cfg Ex.memLatency Ex.node Ex.lvl 1 Ex.root Ex.K Ex.aok 2 3 9 INV 3000 false 0
    Ex.final Ex.WF) as (r&wb&s'&H1&H2&_).
  - destruct Ex.final_Ready as [R1 R2 R3 R4 R5]. split; [exact (inv_base R1)|].
    split; [unfold Ex.node; lia|]. split; [exact I|].
    split; [intros m Hm _ Ht; exact (inv_node R1 m 9 Hm Ht)|].
    split; [intros m Hm _; split; [exact (R2 m Hm)|exact (R4 m Hm)]|].
    split; [vm_compute; discriminate|]. split; [discriminate|]. split; [discriminate|].
    unfold Ex.lvl, Ex.K, two64; cbn; lia.
  - exists r, wb, s'. split; [exact H1|]. split; [vm_compute; reflexivity|exact H2].
Defined.

Lemma request_granted_witness : exists r s',
  up_access Ex.cfg (access Ex.cfg Ex.memLatency 1 1) 1 5
    (mkMemReq 5 GETX 1 (RefLine 1 2) 3000 (Some (LkBcc 1)) StS 1 0) (Ex.locked 1) = Ok (r, s') /\
  stt (Ex.locked 1) 1 5 = StS /\ stt s' 1 5 = StM.
Proof.
  destruct (request_granted Ex.cfg Ex.memLatency Ex.node Ex.lvl 1 Ex.root Ex.K Ex.aok 1 1 1 5 2 GETX StS 3000 1 0
    (Ex.locked 1) Ex.WF) as (r&s'&H1&_&_&H2&_).
  - lia.
  - split.
    + exact (Ex.locked_Inv 1).
    + unfold Ex.node; lia.
    + exists 1%nat. split; [unfold Ex.node; lia|]. split; [reflexivity|constructor].
    + exact I.
    + vm_compute; reflexivity.
    + vm_compute; reflexivity.
    + right. split; [reflexivity|right; reflexivity].
    + exact (Ex.locked_LockPre 1).
    + exact (Ex.locked_idle 1 _).
    + unfold Ex.lvl; cbn; lia.
    + lia.
    + unfold CoherenceUp.lat, Ex.K, two64; cbn; lia.
    + unfold CoherenceUp.lat, Ex.K, two32; cbn; lia.
  - reflexivity.
  - exists r, s'. split; [exact H1|]. split; [vm_compute; reflexivity|exact H2].
Defined.

Lemma eviction_correct_witness : exists r s',
  cc_processEviction Ex.cfg (access Ex.cfg Ex.memLatency 1 1) (invalidate Ex.cfg 1) 0
    (mkMemReq 13 GETS 0 (RefDummy 0) 3000 None StI 0 0) 9 2 3000 (Ex.locked 0) = Ok (r, s') /\
  bccl (Ex.locked 0) 0 2 = StE /\ bccl s' 0 2 = StI /\
  Sent Ex.cfg Ex.memLatency Ex.node 1 1 0 9 2 0 (exists m, Ex.node m /\ anc Ex.cfg 9 0 m /\ stt (Ex.locked 0) m 9 = StM) r s'.
Proof.
  destruct (eviction_correct Ex.cfg Ex.memLatency Ex.node Ex.lvl 1 Ex.root Ex.K Ex.aok 1 1 0 2 3000
    (mkMemReq 13 GETS 0 (RefDummy 0) 3000 None StI 0 0) (Ex.locked 0) Ex.WF) as (r&s'&H1&_&Hs&_&_&H2&_).
  - unfold Ex.lvl; cbn; lia.
  - lia.
  - exact (Ex.locked_Inv 0).
  - unfold Ex.node; lia.
  - vm_compute; lia.
  - exact (Ex.locked_LockPre 0).
  - lia.
  - unfold Ex.K, two64; cbn; lia.
  - exists r, s'. split; [exact H1|]. split; [vm_compute; reflexivity|]. split; [exact H2|]. apply Hs. vm_compute. discriminate.
Defined.
