(* ===== verification/InsWindow.v ===== *)
(** * The instruction window of the out-of-order core

    [WindowStructure<H, WSZ>] of src/src/ooo_core.h: the calendar of execution
    ports.  Two arrays of [H] cycles and an ordered map for the cycles beyond
    them hold, per cycle, the mask of busy ports and the number of uops that
    occupy the window.  The theorems relate the three-level structure to one
    unbounded calendar, a function from cycles to port masks. *)

From Stdlib Require Import Sorted.
From S2P Require Import Prelude Bithacks.

(** [__builtin_ffs]: one plus the index of the least significant bit set. *)
Fixpoint pos_ctz (p : positive) : Z :=
  match p with
  | xO q => 1 + pos_ctz q
  | _ => 0
  end.
Definition builtin_ffs (x : Z) : Z :=
  match x with
  | Zpos p => 1 + pos_ctz p
  | _ => 0
  end.

Module Win.

Record WinCycle := mkWC { occUnits : Z; count : Z }.
Definition wc0 : WinCycle := mkWC 0 0.
#[export] Instance WinCycle_inhabited : Inhabited WinCycle := populate wc0.

(** [ubWin] is a [std::map]: the list of its pairs in key order. *)
Record t := mk {
  curWin : list WinCycle;
  nextWin : list WinCycle;
  ubWin : list (Z * WinCycle);
  occupancy : Z;
  curPos : Z;
  lastPort : Z
}.

Definition trySchedule (touchOccupancy recordPort : bool) (wc : WinCycle) (portMask last : Z)
    : Z * WinCycle * Z :=
  let availMask := u8 (Z.land (Z.lnot (occUnits wc)) portMask) in
  if touchOccupancy then
    if availMask =? 0 then (availMask, wc, last)
    else
      let firstAvail := u8 (builtin_ffs availMask - 1) in
      (availMask,
       mkWC (u8 (Z.lor (occUnits wc) (Z.shiftl 1 firstAvail))) (u8 (count wc + 1)),
       if recordPort then firstAvail else last)
  else (availMask, mkWC (u8 (Z.lor (occUnits wc) portMask)) (count wc), last).

(** The scan of one window array: the index of the first cycle that takes the
    uop, counted from the head of the list. *)
Fixpoint scan (touchOccupancy recordPort : bool) (l : list WinCycle) (portMask last : Z)
    : option nat * list WinCycle * Z :=
  match l with
  | [] => (None, [], last)
  | wc :: l =>
    let '(ok, wc', last') := trySchedule touchOccupancy recordPort wc portMask last in
    if negb (ok =? 0) then (Some O, wc' :: l, last')
    else
      let '(i, l', last'') := scan touchOccupancy recordPort l portMask last' in
      (Datatypes.S <$> i, wc' :: l', last'')
  end.

(** The [while (true)] loop over the unbounded window, from
    [lower_bound(schedCycle)]: [Err] is the failed [assert(success)]. *)
Fixpoint ub_schedule (touchOccupancy recordPort : bool) (ub : list (Z * WinCycle))
    (schedCycle portMask last : Z) : res (Z * list (Z * WinCycle) * Z) :=
  let fresh rest :=
    let '(ok, wc', last') := trySchedule touchOccupancy recordPort wc0 portMask last in
    rassert (negb (ok =? 0)) "success";;
    mret (schedCycle, (schedCycle, wc') :: rest, last') in
  match ub with
  | [] => fresh []
  | (k, wc) :: ub' =>
    if k <? schedCycle then
      '(sc, ub'', last') ← ub_schedule touchOccupancy recordPort ub' schedCycle portMask last;
      mret (sc, (k, wc) :: ub'', last')
    else if negb (k =? schedCycle) then fresh ub
    else
      let '(ok, wc', last') := trySchedule touchOccupancy recordPort wc portMask last in
      if negb (ok =? 0) then mret (schedCycle, (k, wc') :: ub', last')
      else
        '(sc, ub'', last'') ← ub_schedule touchOccupancy recordPort ub' (schedCycle + 1) portMask last';
        mret (sc, (k, wc') :: ub'', last'')
  end.

Section Window.
Context (H WSZ : Z).

Definition init : t :=
  mk (replicate (Z.to_nat H) wc0) (replicate (Z.to_nat H) wc0) [] 0 0 0.

(** The transfer from the unbounded window at a rebase. *)
Fixpoint move_ub (curCycle nextWinHorizon : Z) (ub : list (Z * WinCycle)) (nw : list WinCycle)
    : res (list WinCycle * list (Z * WinCycle)) :=
  match ub with
  | [] => mret (nw, [])
  | (k, wc) :: ub' =>
    if k <? nextWinHorizon then
      let nextWinPos := u32 (k - H - curCycle) in
      rassert (nextWinPos <? H) "WindowStructure: ubWin elem exceeds limit";;
      nw ← arr_set nw (Z.to_nat nextWinPos) wc;
      move_ub curCycle nextWinHorizon ub' nw
    else mret (nw, ub)
  end.

(** [advancePos]; the result is the new [curCycle]. *)
Definition advancePos (curCycle : Z) : M t Z :=
  w ← mget;
  wc ← mlift (arr_get (curWin w) (Z.to_nat (curPos w)));
  cw ← mlift (arr_set (curWin w) (Z.to_nat (curPos w)) wc0);
  let occ := u32 (occupancy w - count wc) in
  let pos := curPos w + 1 in
  let curCycle := curCycle + 1 in
  if pos =? H then
    '(nw, ub) ← mlift (move_ub curCycle (curCycle + 2 * H) (ubWin w) cw);
    mmodify (fun _ => mk (nextWin w) nw ub occ 0 (lastPort w));;
    mret curCycle
  else
    mmodify (fun _ => mk cw (nextWin w) (ubWin w) occ pos (lastPort w));;
    mret curCycle.

(** [while (touchOccupancy && occupancy == WSZ) advancePos(curCycle)]. *)
Fixpoint advance_while_full (fuel : nat) (curCycle : Z) : M t Z :=
  match fuel with
  | O => fun _ => Err OutOfFuel
  | Datatypes.S fuel =>
    w ← mget;
    if occupancy w =? WSZ then curCycle ← advancePos curCycle; advance_while_full fuel curCycle
    else mret curCycle
  end.

(** No cycle from here on is in use: a bound on the loop above. *)
Definition last_used (w : t) (curCycle : Z) : Z :=
  foldr (fun kv m => Z.max (fst kv + 1) m) (curCycle - curPos w + 2 * H) (ubWin w).

Definition set_slots (cw nw : list WinCycle) (ub : list (Z * WinCycle)) (last : Z) (w : t) : t :=
  mk cw nw ub (occupancy w) (curPos w) last.
Definition inc_occupancy (w : t) : t :=
  mk (curWin w) (nextWin w) (ubWin w) (u32 (occupancy w + 1)) (curPos w) (lastPort w).

(** The search for a slot, in the current array, the next one, the map. *)
Definition find_slot (touchOccupancy recordPort : bool) (curCycle schedCycle portMask : Z) : M t Z :=
  w ← mget;
  let delay := u32 (if schedCycle >? curCycle then schedCycle - curCycle else 0) in
  let curWinPos := u32 (curPos w + delay) in
  let p := Z.to_nat curWinPos in
  let '(i, cw', last) := scan touchOccupancy recordPort (drop p (curWin w)) portMask (lastPort w) in
  let cw := take p (curWin w) ++ cw' in
  match i with
  | Some i =>
    mmodify (set_slots cw (nextWin w) (ubWin w) last);;
    mret (curCycle + u32 (curWinPos + Z.of_nat i - curPos w))
  | None =>
    let nextWinPos := u32 (Z.max curWinPos H - H) in
    let q := Z.to_nat nextWinPos in
    let '(i, nw', last) := scan touchOccupancy recordPort (drop q (nextWin w)) portMask last in
    let nw := take q (nextWin w) ++ nw' in
    match i with
    | Some i =>
      mmodify (set_slots cw nw (ubWin w) last);;
      mret (curCycle + u32 (nextWinPos + Z.of_nat i + H - curPos w))
    | None =>
      let nextWinPos := Z.max nextWinPos H in
      let schedCycle := curCycle + u32 (nextWinPos + H - curPos w) in
      '(sc, ub, last) ← mlift (ub_schedule touchOccupancy recordPort (ubWin w) schedCycle portMask last);
      mmodify (set_slots cw nw ub last);;
      mret sc
    end
  end.

(** [scheduleInternal<touchOccupancy, recordPort>]; the result is the new
    [curCycle] and [schedCycle]. *)
Definition scheduleInternal (touchOccupancy recordPort : bool) (curCycle schedCycle portMask : Z)
    : M t (Z * Z) :=
  w ← mget;
  curCycle ← (if touchOccupancy
              then advance_while_full (Datatypes.S (Z.to_nat (last_used w curCycle - curCycle))) curCycle
              else mret curCycle);
  schedCycle ← find_slot touchOccupancy recordPort curCycle schedCycle portMask;
  (if touchOccupancy then mmodify inc_occupancy else mret tt);;
  mret (curCycle, schedCycle).

(** The loop over the extra slots of a uop that keeps its port busy. *)
Fixpoint extra_slots (n : nat) (curCycle extraSlotCycle extraSlotPortMask : Z) : M t Z :=
  match n with
  | O => mret curCycle
  | Datatypes.S n =>
    '(curCycle, extraSlotCycle) ← scheduleInternal false false curCycle extraSlotCycle extraSlotPortMask;
    extra_slots n curCycle (extraSlotCycle + 1) extraSlotPortMask
  end.

Definition schedule (curCycle schedCycle portMask extraSlots : Z) : M t (Z * Z) :=
  r ← (if extraSlots =? 0 then scheduleInternal true false curCycle schedCycle portMask
       else
         '(curCycle, schedCycle) ← scheduleInternal true true curCycle schedCycle portMask;
         last ← mgets lastPort;
         curCycle ← extra_slots (Z.to_nat extraSlots) curCycle (schedCycle + 1) (u8 (Z.shiftl 1 last));
         mret (curCycle, schedCycle));
  w ← mget;
  massert (occupancy w <=? WSZ) "occupancy <= WSZ";;
  mret r.

(** [longAdvance]. *)
Fixpoint drain (fuel : nat) (curCycle targetCycle : Z) : M t Z :=
  match fuel with
  | O => fun _ => Err OutOfFuel
  | Datatypes.S fuel =>
    w ← mget;
    if negb (occupancy w =? 0) && (curCycle <? targetCycle)
    then curCycle ← advancePos curCycle; drain fuel curCycle targetCycle
    else mret curCycle
  end.
Definition longAdvance (curCycle targetCycle : Z) : M t Z :=
  massert (curCycle <=? targetCycle) "curCycle <= targetCycle";;
  curCycle ← drain (Datatypes.S (Z.to_nat (targetCycle - curCycle))) curCycle targetCycle;
  w ← mget;
  if negb (occupancy w =? 0)
  then massert (curCycle =? targetCycle) "curCycle == targetCycle";; mret curCycle
  else massert (curCycle <=? targetCycle) "curCycle <= targetCycle";; mret targetCycle.

(** [poisonRange]; the loop ends when the slot found is at or past the target. *)
Fixpoint poison (fuel : nat) (curCycle poisonCycle targetCycle portMask : Z) : M t Z :=
  match fuel with
  | O => fun _ => Err OutOfFuel
  | Datatypes.S fuel =>
    if poisonCycle <? targetCycle then
      '(curCycle, poisonCycle) ← scheduleInternal false false curCycle poisonCycle portMask;
      poison fuel curCycle poisonCycle targetCycle portMask
    else mret curCycle
  end.
Definition poisonRange (curCycle targetCycle portMask : Z) : M t unit :=
  let startCycle := curCycle in
  curCycle ← poison (Z.to_nat (targetCycle - curCycle) + 2) curCycle curCycle targetCycle portMask;
  massert (startCycle =? curCycle) "startCycle == curCycle".

End Window.

(** ** One cycle of the calendar *)

(** A uop with ports [mask] can start in [wc]. *)
Definition free (mask : Z) (wc : WinCycle) : bool :=
  negb (Z.land (Z.lnot (occUnits wc)) mask =? 0).
(** The port it takes: the first free one, or the one it was given. *)
Definition port (mask : Z) (wc : WinCycle) : Z :=
  pos_ctz (Z.to_pos (Z.land (Z.lnot (occUnits wc)) mask)).
Definition taken (touch : bool) (mask : Z) (wc : WinCycle) : WinCycle :=
  mkWC (Z.lor (occUnits wc) (Z.shiftl 1 (port mask wc))) (count wc + if touch then 1 else 0).

Definition popcount8 (x : Z) : Z :=
  Z.b2z (Z.testbit x 0) + Z.b2z (Z.testbit x 1) + Z.b2z (Z.testbit x 2) + Z.b2z (Z.testbit x 3) +
  Z.b2z (Z.testbit x 4) + Z.b2z (Z.testbit x 5) + Z.b2z (Z.testbit x 6) + Z.b2z (Z.testbit x 7).

(** A byte of ports, with at most one uop per busy port. *)
Record WcOk (wc : WinCycle) : Prop := {
  wo_occ : 0 <= occUnits wc < 256;
  wo_count : 0 <= count wc <= popcount8 (occUnits wc)
}.
(** What the decoder passes: a nonzero byte; a single bit for the extra slots. *)
Definition mask_ok (touch : bool) (mask : Z) : Prop :=
  if touch then 0 < mask < 256 else exists i, 0 <= i < 8 /\ mask = Z.shiftl 1 i.

Lemma pos_ctz_nonneg p : 0 <= pos_ctz p.
Proof. induction p; simpl; lia. Qed.

Lemma pos_ctz_bit p : Z.testbit (Zpos p) (pos_ctz p) = true.
Proof.
  induction p as [p IH|p IH|]; [done| |done]. cbn [pos_ctz].
  rewrite Pos2Z.inj_xO, Z.add_comm, Z.add_1_r, Z.double_bits_succ. done.
Qed.

Lemma byte_high x i : 0 <= x < 256 -> 8 <= i -> Z.testbit x i = false.
Proof.
  intros Hx Hi. destruct (decide (x = 0)) as [->|Hne]; [apply Z.bits_0|].
  apply Z.bits_above_log2; [lia|].
  assert (Z.log2 x < 8) by (apply Z.log2_lt_pow2; lia). lia.
Qed.

Lemma byte_of_bits x : 0 <= x -> (forall i, 8 <= i -> Z.testbit x i = false) -> 0 <= x < 256.
Proof.
  intros H0 Hb. split; [done|]. destruct (decide (x = 0)) as [->|Hne]; [done|].
  change 256 with (2 ^ 8). apply Z.log2_lt_pow2; [lia|].
  destruct (decide (Z.log2 x < 8)); [done|]. pose proof (Hb (Z.log2 x) ltac:(lia)) as E.
  rewrite Z.bit_log2 in E by lia. done.
Qed.

Lemma shift1_bit i j : 0 <= i -> 0 <= j -> Z.testbit (Z.shiftl 1 i) j = (i =? j).
Proof. intros. rewrite Z.shiftl_1_l, Z.pow2_bits_eqb by lia. done. Qed.

Lemma popcount8_set x i : 0 <= i < 8 -> Z.testbit x i = false ->
  popcount8 (Z.lor x (Z.shiftl 1 i)) = popcount8 x + 1.
Proof.
  intros Hi Hb. unfold popcount8. rewrite !Z.lor_spec, !shift1_bit by lia.
  assert (E : i = 0 \/ i = 1 \/ i = 2 \/ i = 3 \/ i = 4 \/ i = 5 \/ i = 6 \/ i = 7) by lia.
  decompose [or] E; subst; rewrite Hb; cbn; rewrite ?orb_false_r; lia.
Qed.

Lemma popcount8_le x : 0 <= popcount8 x <= 8.
Proof. unfold popcount8. repeat (case (Z.testbit _ _); cbn [Z.b2z]); lia. Qed.

Lemma free_byte mask wc : 0 <= mask < 256 ->
  0 <= Z.land (Z.lnot (occUnits wc)) mask < 256.
Proof.
  intros Hm. rewrite Z.land_comm. pose proof (land_le_l mask (Z.lnot (occUnits wc)) ltac:(lia)). lia.
Qed.

Lemma mask_ok_byte touch mask : mask_ok touch mask -> 0 < mask < 256.
Proof.
  destruct touch; [done|]. intros (i&Hi&->). rewrite Z.shiftl_1_l.
  pose proof (Z.pow_pos_nonneg 2 i). assert (2 ^ i < 2 ^ 8) by (apply Z.pow_lt_mono_r; lia). lia.
Qed.

(** The port a uop takes is one of its own and was free. *)
Lemma port_spec mask wc : 0 <= mask < 256 -> free mask wc = true ->
  0 <= port mask wc < 8 /\ Z.testbit mask (port mask wc) = true /\
  Z.testbit (occUnits wc) (port mask wc) = false.
Proof.
  intros Hm Hf. unfold free in Hf. apply negb_true_iff, Z.eqb_neq in Hf.
  pose proof (free_byte mask wc Hm) as Hb. unfold port.
  set (a := Z.land _ mask) in *. destruct a as [|p|p] eqn:Ea; [done| |lia]. cbn [Z.to_pos].
  pose proof (pos_ctz_bit p) as Hbit. pose proof (pos_ctz_nonneg p).
  assert (pos_ctz p < 8).
  { destruct (decide (pos_ctz p < 8)); [done|]. rewrite byte_high in Hbit by lia. done. }
  rewrite <- Ea in Hbit. unfold a in Hbit. rewrite Z.land_spec, Z.lnot_spec in Hbit by lia.
  apply andb_true_iff in Hbit as [H1 H2]. apply negb_true_iff in H1. done.
Qed.

Lemma free_wc0 mask : 0 < mask < 256 -> free mask wc0 = true.
Proof.
  intros Hm. unfold free. cbn [occUnits wc0]. rewrite (Z.land_m1_l mask : Z.land (Z.lnot 0) mask = mask).
  apply negb_true_iff, Z.eqb_neq. lia.
Qed.

Lemma WcOk_wc0 : WcOk wc0.
Proof. done. Qed.

Lemma taken_ok touch mask wc : WcOk wc -> 0 <= mask < 256 -> free mask wc = true ->
  WcOk (taken touch mask wc).
Proof.
  intros [[O1 O2] [C1 C2]] Hm Hf. destruct (port_spec mask wc Hm Hf) as (Hp&_&Hb).
  split; cbn [taken occUnits count].
  - apply byte_of_bits; [apply Z.lor_nonneg; split; [done|apply Z.shiftl_nonneg; lia]|].
    intros i Hi. rewrite Z.lor_spec, byte_high, shift1_bit by lia. apply Z.eqb_neq. lia.
  - rewrite popcount8_set by done. destruct touch; lia.
Qed.

(** A slot that is not free for a single-port request has that port busy. *)
Lemma not_free_lor i wc : 0 <= i -> free (Z.shiftl 1 i) wc = false ->
  Z.lor (occUnits wc) (Z.shiftl 1 i) = occUnits wc.
Proof.
  intros Hi Hf. unfold free in Hf. apply negb_false_iff, Z.eqb_eq in Hf.
  apply Z.bits_inj'. intros j Hj. rewrite Z.lor_spec, shift1_bit by lia.
  destruct (Z.eqb_spec i j) as [->|]; [|by rewrite orb_false_r].
  assert (E : Z.testbit (Z.land (Z.lnot (occUnits wc)) (Z.shiftl 1 j)) j = false) by by rewrite Hf, Z.bits_0.
  rewrite Z.land_spec, Z.lnot_spec, shift1_bit, Z.eqb_refl, andb_true_r in E by lia.
  apply negb_false_iff in E. by rewrite E.
Qed.

Lemma single_port i wc : 0 <= i < 8 -> free (Z.shiftl 1 i) wc = true -> port (Z.shiftl 1 i) wc = i.
Proof.
  intros Hi Hf. assert (Hm : 0 < Z.shiftl 1 i < 256) by (apply (mask_ok_byte false); by exists i).
  destruct (port_spec (Z.shiftl 1 i) wc ltac:(lia) Hf) as (Hp&Hb&_). rewrite shift1_bit in Hb by lia. apply Z.eqb_eq in Hb. lia.
Qed.

(** What one [trySchedule] does. *)
Lemma trySchedule_spec touch record wc mask last : WcOk wc -> mask_ok touch mask ->
  exists ok, trySchedule touch record wc mask last =
    (if free mask wc then (ok, taken touch mask wc, if touch && record then port mask wc else last)
     else (0, wc, last))
  /\ (free mask wc = true -> ok <> 0).
Proof.
  intros Hwc Hmk. pose proof (mask_ok_byte _ _ Hmk) as Hm. assert (Hm' : 0 <= mask < 256) by lia.
  pose proof (free_byte mask wc Hm') as Hb. unfold trySchedule. rewrite (u8_small _ Hb).
  exists (Z.land (Z.lnot (occUnits wc)) mask).
  destruct (free mask wc) eqn:Hf.
  - pose proof (taken_ok touch mask wc Hwc Hm' Hf) as [T1 T2]. destruct (port_spec mask wc Hm' Hf) as (P1&_).
    split; [|intros _; unfold free in Hf; apply negb_true_iff, Z.eqb_neq in Hf; done].
    pose proof (popcount8_le (occUnits (taken touch mask wc))). destruct touch; cbn [andb].
    + unfold free in Hf. apply negb_true_iff in Hf. rewrite Hf.
      assert (E : builtin_ffs (Z.land (Z.lnot (occUnits wc)) mask) - 1 = port mask wc).
      { unfold port. apply Z.eqb_neq in Hf. destruct (Z.land _ mask); [done|cbn; lia|lia]. }
      rewrite E, (u8_small (port _ _)) by lia. unfold taken in *. cbn [occUnits count] in *.
      rewrite !u8_small by lia. done.
    + destruct Hmk as (i&Hi&->). unfold taken in *. rewrite single_port in * by done. cbn [occUnits count] in *.
      rewrite u8_small by lia. by rewrite Z.add_0_r.
  - split; [|done]. assert (Hf0 := Hf). unfold free in Hf. apply negb_false_iff, Z.eqb_eq in Hf. rewrite Hf.
    destruct touch; [done|]. destruct Hmk as (i&Hi&->). rewrite not_free_lor by (done || lia).
    rewrite u8_small by apply Hwc. by destruct wc.
Qed.

(** ** The searches *)
Definition csum (l : list WinCycle) : Z := foldr (fun wc n => count wc + n) 0 l.
Definition bit (b : bool) : Z := if b then 1 else 0.

Lemma csum_app l l' : csum (l ++ l') = csum l + csum l'.
Proof. induction l; simpl; lia. Qed.

Lemma csum_insert l i wc wc' : l !! i = Some wc -> csum (<[i := wc']> l) = csum l - count wc + count wc'.
Proof.
  revert i. induction l as [|x l IH]; intros [|i] Hi; simplify_eq/=; [lia|]. rewrite (IH i Hi). lia.
Qed.

Lemma csum_zero l : Forall (eq wc0) l -> csum l = 0.
Proof. induction 1 as [|x l <- _ IH]; [done|]. simpl. by rewrite IH. Qed.

Lemma scan_spec touch record l mask last : Forall WcOk l -> mask_ok touch mask ->
  match scan touch record l mask last with
  | (None, l', last') => l' = l /\ last' = last /\ forall j wc, l !! j = Some wc -> free mask wc = false
  | (Some i, l', last') => exists wc, l !! i = Some wc /\ free mask wc = true /\
      l' = <[i := taken touch mask wc]> l /\ last' = (if touch && record then port mask wc else last) /\
      forall j wc, (j < i)%nat -> l !! j = Some wc -> free mask wc = false
  end.
Proof.
  intros Hl Hm. revert last. induction Hl as [|wc l Hwc Hl IH]; intros last; simpl; [done|].
  destruct (trySchedule_spec touch record wc mask last Hwc Hm) as (ok&->&Hok).
  destruct (free mask wc) eqn:Hf.
  - rewrite (proj2 (Z.eqb_neq ok 0)) by auto. simpl. exists wc. split_and!; [done..|]. intros; lia.
  - simpl. specialize (IH last). destruct (scan touch record l mask last) as [[[i|] l'] last']; simpl.
    + destruct IH as (w&H1&H2&->&->&H5). exists w. split_and!; try done.
      intros [|j] w' Hj; simpl; [congruence|]. intros. eapply H5; [|done]. lia.
    + destruct IH as (->&->&H3). split_and!; [done..|]. intros [|j] w'; simpl; [congruence|]. apply H3.
Qed.

Fixpoint ub_get (ub : list (Z * WinCycle)) (c : Z) : WinCycle :=
  match ub with
  | [] => wc0
  | (k, wc) :: ub' => if k =? c then wc else ub_get ub' c
  end.

Definition keys_sorted (ub : list (Z * WinCycle)) : Prop := StronglySorted Z.lt ub.*1.

Lemma ub_get_below ub k c : Forall (Z.lt k) ub.*1 -> c <= k -> ub_get ub c = wc0.
Proof.
  intros Hall Hc. induction ub as [|[k' wc] ub IH]; [done|]. apply Forall_cons_1 in Hall as [H1 H2]. simpl in *.
  destruct (Z.eqb_spec k' c); [lia|auto].
Qed.

Lemma ub_get_ok ub c : Forall WcOk ub.*2 -> WcOk (ub_get ub c).
Proof.
  induction ub as [|[k wc] ub IH]; simpl; [done|]. intros [H1 H2]%Forall_cons_1. case_match; auto.
Qed.

Definition usum (ub : list (Z * WinCycle)) : Z := csum ub.*2.
Lemma usum_cons k wc ub : usum ((k, wc) :: ub) = count wc + usum ub.
Proof. done. Qed.
Lemma usum_csum ub : usum ub = csum ub.*2.
Proof. done. Qed.
#[local] Opaque usum.

(** What the search of the unbounded window finds. *)
Record UbFound (touch record : bool) (mask : Z) (ub : list (Z * WinCycle)) (sc last : Z)
    (sc' : Z) (ub' : list (Z * WinCycle)) (last' : Z) : Prop := {
  uf_ge : sc <= sc';
  uf_free : free mask (ub_get ub sc') = true;
  uf_first : forall c, sc <= c < sc' -> free mask (ub_get ub c) = false;
  uf_get : forall c, ub_get ub' c = if c =? sc' then taken touch mask (ub_get ub sc') else ub_get ub c;
  uf_sorted : keys_sorted ub';
  uf_keys : forall k, k ∈ ub'.*1 -> k = sc' \/ k ∈ ub.*1;
  uf_ok : Forall WcOk ub'.*2;
  uf_sum : usum ub' = usum ub + bit touch;
  uf_last : last' = if touch && record then port mask (ub_get ub sc') else last
}.

(** The search inserts a fresh cycle in front of the later keys. *)
Lemma ub_fresh touch record mask ub sc last : mask_ok touch mask ->
  keys_sorted ub -> Forall WcOk ub.*2 -> Forall (Z.lt sc) ub.*1 ->
  exists ok, trySchedule touch record wc0 mask last =
    (ok, taken touch mask wc0, if touch && record then port mask wc0 else last) /\ ok <> 0 /\
  UbFound touch record mask ub sc last sc ((sc, taken touch mask wc0) :: ub)
    (if touch && record then port mask wc0 else last).
Proof.
  intros Hm Hs Hok Hlt. destruct (trySchedule_spec touch record wc0 mask last WcOk_wc0 Hm) as (ok&->&Hne).
  pose proof (mask_ok_byte _ _ Hm) as Hb. rewrite free_wc0 in * by done.
  assert (E : ub_get ub sc = wc0) by (apply (ub_get_below ub sc); [done|lia]).
  exists ok. split; [done|]. split; [auto|]. split; rewrite ?E; try done.
  - by apply free_wc0.
  - lia.
  - intros c. simpl. by rewrite Z.eqb_sym.
  - constructor; done.
  - intros k. simpl. rewrite elem_of_cons. tauto.
  - simpl. constructor; [|done]. apply taken_ok; [apply WcOk_wc0|lia|by apply free_wc0].
  - rewrite usum_cons. unfold bit. destruct touch; simpl; lia.
Qed.

Lemma ub_schedule_spec touch record mask ub sc last : mask_ok touch mask ->
  keys_sorted ub -> Forall WcOk ub.*2 ->
  exists sc' ub' last', ub_schedule touch record ub sc mask last = Ok (sc', ub', last') /\
    UbFound touch record mask ub sc last sc' ub' last'.
Proof.
  intros Hm. revert sc last. induction ub as [|[k wc] ub IH]; intros sc last Hs Hok.
  - destruct (ub_fresh touch record mask [] sc last Hm Hs Hok (Forall_nil_2 _)) as (ok&E&Hne&HF).
    simpl. rewrite E. rewrite (proj2 (Z.eqb_neq ok 0)) by done. eauto.
  - assert (Hs' := Hs). unfold keys_sorted in Hs. simpl in Hs. inversion Hs as [|? ? Hs1 Hs2]; subst.
    simpl in Hok. apply Forall_cons_1 in Hok as [Hwc Hok]. cbn [ub_schedule].
    destruct (Z.ltb_spec k sc) as [Hk|Hk]; [|destruct (Z.eqb_spec k sc) as [->|Hne]].
    + destruct (IH sc last Hs1 Hok) as (sc'&ub'&last'&->&[F1 F2 F3 F4 F5 F6 F7 F8 F9]).
      do 3 eexists. split; [reflexivity|]. split; simpl; rewrite ?(proj2 (Z.eqb_neq k sc')) by lia; try done.
      * intros c Hc. rewrite (proj2 (Z.eqb_neq k c)) by lia. auto.
      * intros c. rewrite F4. destruct (Z.eqb_spec k c), (Z.eqb_spec c sc'); try done; lia.
      * constructor; [done|]. apply list.Forall_forall. intros k' [->|Hk']%F6; [simpl; lia|].
        by eapply list.Forall_forall in Hs2.
      * intros k'. rewrite !elem_of_cons. intros [->|?%F6]; tauto.
      * by constructor.
      * rewrite !usum_cons. lia.
    + cbn [negb]. destruct (trySchedule_spec touch record wc mask last Hwc Hm) as (ok&->&Hne).
      destruct (free mask wc) eqn:Hf; cbn iota.
      * rewrite (proj2 (Z.eqb_neq ok 0)) by auto. cbn [negb]. do 3 eexists. split; [reflexivity|].
        split; simpl; rewrite ?Z.eqb_refl; try done; try lia.
        -- intros c. destruct (Z.eqb_spec sc c), (Z.eqb_spec c sc); done || lia.
        -- intros k'. tauto.
        -- constructor; [|done]. apply taken_ok; [done|pose proof (mask_ok_byte _ _ Hm); lia|done].
        -- rewrite !usum_cons. unfold bit. destruct touch; simpl; lia.
      * cbn [Z.eqb negb]. destruct (IH (sc + 1) last Hs1 Hok) as (sc'&ub'&last'&->&[F1 F2 F3 F4 F5 F6 F7 F8 F9]).
        do 3 eexists. split; [reflexivity|].
        split; simpl; rewrite ?(proj2 (Z.eqb_neq sc sc')) by lia; try done; try lia.
        -- intros c Hc. destruct (Z.eqb_spec sc c); [by subst|]. apply F3. lia.
        -- intros c. rewrite F4. destruct (Z.eqb_spec sc c), (Z.eqb_spec c sc'); try done; lia.
        -- constructor; [done|]. apply list.Forall_forall. intros k' [->|Hk']%F6; [simpl; lia|].
           by eapply list.Forall_forall in Hs2.
        -- intros k'. rewrite !elem_of_cons. intros [->|?%F6]; tauto.
        -- by constructor.
        -- rewrite !usum_cons. lia.
    + cbn [negb]. assert (Hlt : Forall (Z.lt sc) ((k, wc) :: ub).*1).
      { simpl. constructor; [lia|]. eapply Forall_impl; [|exact Hs2]. intros x Hx. simpl in *. lia. }
      destruct (ub_fresh touch record mask ((k, wc) :: ub) sc last Hm Hs') as (ok&E&Hn&HF); [by constructor|done|].
      rewrite E, (proj2 (Z.eqb_neq ok 0)) by done. do 3 eexists. split; [reflexivity|done].
Qed.

Lemma take_insert_drop {A} (l : list A) (p i : nat) x :
  take p l ++ <[i := x]> (drop p l) = <[(p + i)%nat := x]> l.
Proof.
  revert l. induction p as [|p IH]; intros [|y l]; simpl; try done. f_equal. apply IH.
Qed.

(** A scan of an array from position [p]. *)
Lemma scan_at touch record l mask last p : Forall WcOk l -> mask_ok touch mask -> 0 <= p ->
  match scan touch record (drop (Z.to_nat p) l) mask last with
  | (None, l', last') => take (Z.to_nat p) l ++ l' = l /\ last' = last /\
      forall j, p <= j < Z.of_nat (length l) -> free mask (l !!! Z.to_nat j) = false
  | (Some i, l', last') => let j := p + Z.of_nat i in
      j < Z.of_nat (length l) /\ free mask (l !!! Z.to_nat j) = true /\
      take (Z.to_nat p) l ++ l' = <[Z.to_nat j := taken touch mask (l !!! Z.to_nat j)]> l /\
      last' = (if touch && record then port mask (l !!! Z.to_nat j) else last) /\
      forall j', p <= j' < j -> free mask (l !!! Z.to_nat j') = false
  end.
Proof.
  intros Hl Hm Hp.
  pose proof (scan_spec touch record (drop (Z.to_nat p) l) mask last (Forall_drop _ _ _ Hl) Hm) as Hs.
  destruct (scan _ _ _ _ _) as [[[i|] l'] last'].
  - destruct Hs as (wc&Hi&Hf&->&->&Hb). rewrite lookup_drop in Hi.
    assert (Hlt := lookup_lt_Some _ _ _ Hi). cbv zeta.
    replace (Z.to_nat (p + Z.of_nat i)) with (Z.to_nat p + i)%nat by lia.
    rewrite (list_lookup_total_correct _ _ _ Hi). split_and!; try done; [lia|apply take_insert_drop|].
    intros j' Hj'. destruct (lookup_lt_is_Some_2 l (Z.to_nat j')) as [wc' Hwc']; [lia|].
    rewrite (list_lookup_total_correct _ _ _ Hwc'). apply (Hb (Z.to_nat j' - Z.to_nat p)%nat); [lia|].
    rewrite lookup_drop. replace (Z.to_nat p + (Z.to_nat j' - Z.to_nat p))%nat with (Z.to_nat j') by lia. done.
  - destruct Hs as (->&->&Hb). split_and!; [apply take_drop|done|].
    intros j' Hj'. destruct (lookup_lt_is_Some_2 l (Z.to_nat j')) as [wc' Hwc']; [lia|].
    rewrite (list_lookup_total_correct _ _ _ Hwc'). apply (Hb (Z.to_nat j' - Z.to_nat p)%nat).
    rewrite lookup_drop. replace (Z.to_nat p + (Z.to_nat j' - Z.to_nat p))%nat with (Z.to_nat j') by lia. done.
Qed.

(** ** The calendar that a window represents *)
Section Calendar.
Context (H WSZ : Z) (HH : 0 < H < 2 ^ 30) (HW : 0 < WSZ < two32).
Implicit Types (w : t) (cur c : Z).

(** The cycle at offset [off] of the window's base. *)
Definition slot w (base off : Z) : WinCycle :=
  if off <? H then curWin w !!! Z.to_nat off
  else if off <? 2 * H then nextWin w !!! Z.to_nat (off - H)
  else ub_get (ubWin w) (base + off).

Definition view w cur c : WinCycle :=
  if c <? cur then wc0 else slot w (cur - curPos w) (c - cur + curPos w).

Definition total w : Z := csum (curWin w) + csum (nextWin w) + usum (ubWin w).

Record Shape w cur : Prop := {
  i_pos : 0 <= curPos w < H;
  i_lenc : length (curWin w) = Z.to_nat H;
  i_lenn : length (nextWin w) = Z.to_nat H;
  i_past : forall j, (j < Z.to_nat (curPos w))%nat -> curWin w !! j = Some wc0;
  i_okc : Forall WcOk (curWin w);
  i_okn : Forall WcOk (nextWin w);
  i_oku : Forall WcOk (ubWin w).*2;
  i_sorted : keys_sorted (ubWin w);
  i_keys : Forall (Z.le (cur - curPos w + 2 * H)) (ubWin w).*1
}.
Record Inv w cur : Prop := {
  i_shape : Shape w cur;
  i_occ : occupancy w = total w;
  i_max : occupancy w <= WSZ
}.

Lemma keys_ge_get ub b c : Forall (Z.le b) ub.*1 -> c < b -> ub_get ub c = wc0.
Proof.
  intros Hall Hc. apply (ub_get_below ub (b - 1)); [|lia].
  eapply Forall_impl; [|exact Hall]. simpl. intros; lia.
Qed.

Lemma move_ub_spec cur ub nw : keys_sorted ub -> Forall (Z.le (cur + H)) ub.*1 ->
  length nw = Z.to_nat H -> Forall WcOk ub.*2 -> Forall WcOk nw ->
  (forall j, cur + H + Z.of_nat j ∈ ub.*1 -> (j < Z.to_nat H)%nat -> nw !! j = Some wc0) ->
  exists nw' ub', move_ub H cur (cur + 2 * H) ub nw = Ok (nw', ub') /\
    length nw' = Z.to_nat H /\ Forall WcOk nw' /\ Forall WcOk ub'.*2 /\ keys_sorted ub' /\
    Forall (Z.le (cur + 2 * H)) ub'.*1 /\
    (forall c, cur + 2 * H <= c -> ub_get ub' c = ub_get ub c) /\
    (forall j, (j < Z.to_nat H)%nat -> nw' !!! j =
       if decide (cur + H + Z.of_nat j ∈ ub.*1) then ub_get ub (cur + H + Z.of_nat j) else nw !!! j) /\
    csum nw' + usum ub' = csum nw + usum ub.
Proof.
  revert nw. induction ub as [|[k wc] ub IH]; intros nw Hs Hk Hl Hu Hn Hz; cbn [move_ub].
  { do 2 eexists. split; [reflexivity|]. split_and!; try done. }
  unfold keys_sorted in Hs. simpl in *. apply Forall_cons_1 in Hk as [Hk0 Hk]. apply Forall_cons_1 in Hu as [Hwc Hu].
  inversion Hs as [|? ? Hs1 Hs2]; subst. destruct (Z.ltb_spec k (cur + 2 * H)) as [Hlt|Hge].
  - set (j0 := Z.to_nat (k - H - cur)).
    rewrite u32_small by (unfold two32; lia). rewrite (proj2 (Z.ltb_lt _ _)) by lia.
    cbn [rassert mbind res_bind]. fold j0. rewrite arr_set_lt by lia. cbn [mbind res_bind].
    assert (Hj0 : cur + H + Z.of_nat j0 = k) by lia.
    assert (Hnj : forall j, cur + H + Z.of_nat j ∈ ub.*1 -> j <> j0).
    { intros j Hj ->. rewrite Hj0 in Hj. eapply list.Forall_forall in Hs2; [|exact Hj]. simpl in Hs2. lia. }
    assert (E0 : nw !! j0 = Some wc0).
    { apply Hz; [|lia]. rewrite Hj0. set_solver. }
    destruct (IH (<[j0 := wc]> nw)) as (nw'&ub'&->&G1&G2&G3&G4&G5&G6&G7&G8); try done.
    { by rewrite length_insert. }
    { by apply Forall_insert. }
    { intros j Hj Hjh. rewrite list_lookup_insert_ne by (symmetry; by apply Hnj). apply Hz; [set_solver|done]. }
    do 2 eexists. split; [reflexivity|]. split_and!; try done.
    + intros c Hc. rewrite G6 by done. simpl. destruct (Z.eqb_spec k c); [lia|done].
    + intros j Hj. rewrite G7 by done. simpl. destruct (decide (j = j0)) as [->|Hne].
      * rewrite Hj0, Z.eqb_refl. rewrite (decide_True (P := k ∈ k :: _)) by set_solver.
        rewrite decide_False.
        -- apply list_lookup_total_insert_eq. lia.
        -- intros Hin. rewrite <- Hj0 in Hin. by destruct (Hnj j0 Hin).
      * rewrite (proj2 (Z.eqb_neq k _)) by lia. rewrite list_lookup_total_insert_ne by done.
        case_decide as D1; case_decide as D2; try done; set_solver by lia.
    + rewrite G8, (csum_insert _ _ _ _ E0), usum_cons. simpl. lia.
  - do 2 eexists. split; [reflexivity|]. split_and!; try done.
    + by constructor.
    + constructor; [done|]. eapply Forall_impl; [|exact Hs2]. simpl. intros; lia.
    + intros j Hj. rewrite decide_False; [done|]. intros [E|Hin]%elem_of_cons; [lia|].
      eapply list.Forall_forall in Hs2; [|exact Hin]. simpl in Hs2. lia.
Qed.

Lemma csum_nonneg l : Forall WcOk l -> 0 <= csum l.
Proof. induction 1 as [|wc l [_ [? ?]] _ IH]; [done|]. simpl. lia. Qed.

Lemma count_le_csum l i wc : Forall WcOk l -> l !! i = Some wc -> 0 <= count wc <= csum l.
Proof.
  intros Hl. revert i. induction Hl as [|x l Hx Hl IH]; intros [|i] Hi; simplify_eq/=.
  - pose proof (csum_nonneg l Hl). pose proof (wo_count _ Hx). lia.
  - pose proof (IH i Hi). pose proof (wo_count _ Hx). lia.
Qed.

(** [advancePos] drops the current cycle and keeps every later one, also when it
    rebases the arrays. *)
Lemma advancePos_spec w cur : Inv w cur ->
  wp (advancePos H cur) (fun cur' w' => cur' = cur + 1 /\ Inv w' cur' /\
    (forall c, cur' <= c -> view w' cur' c = view w cur c) /\
    occupancy w' = occupancy w - count (view w cur cur) /\ lastPort w' = lastPort w) w.
Proof.
  intros [[I1 I2 I3 I4 I5 I6 I7 I8 I9] Io Im]. unfold advancePos.
  apply wp_bind, wp_get, wp_bind. eapply wp_arr_get_lt; [lia|]. apply wp_bind, wp_arr_set_lt; [lia|].
  set (wc := curWin w !!! Z.to_nat (curPos w)). set (cw := <[_ := wc0]> (curWin w)).
  assert (Hwc : curWin w !! Z.to_nat (curPos w) = Some wc) by (apply list_lookup_lookup_total_lt; lia).
  assert (Hview : view w cur cur = wc).
  { unfold view, slot. rewrite Z.ltb_irrefl, Z.sub_diag. by rewrite (proj2 (Z.ltb_lt _ _)) by lia. }
  assert (Hcnt := count_le_csum _ _ _ I5 Hwc).
  pose proof (csum_nonneg _ I6). pose proof (csum_nonneg _ I7) as Hus. rewrite <- usum_csum in Hus.
  assert (Hcs : csum cw = csum (curWin w) - count wc) by (unfold cw; rewrite (csum_insert _ _ _ _ Hwc); simpl; lia).
  assert (Hcw : Forall WcOk cw) by (by apply Forall_insert).
  unfold total in Io. rewrite u32_small by lia. rewrite Hview.
  destruct (Z.eqb_spec (curPos w + 1) H) as [Hreb|Hnr].
  - assert (Hz : forall j, (j < Z.to_nat H)%nat -> cw !! j = Some wc0).
    { intros j Hj. unfold cw. destruct (decide (j = Z.to_nat (curPos w))) as [->|].
      - apply list_lookup_insert_eq. lia.
      - rewrite list_lookup_insert_ne by done. apply I4. lia. }
    destruct (move_ub_spec (cur + 1) (ubWin w) cw) as (nw&ub&E&G1&G2&G3&G4&G5&G6&G7&G8); try done.
    { eapply Forall_impl; [|exact I9]. simpl. intros; lia. }
    { unfold cw. by rewrite length_insert. }
    { intros j _. apply Hz. }
    apply wp_bind, wp_lift. rewrite E. cbn [rwp]. apply wp_bind, wp_modify, wp_ret.
    split_and!; try done; cycle 1.
    + intros c Hc. unfold view, slot. cbn [curPos curWin nextWin ubWin].
      rewrite (proj2 (Z.ltb_ge c (cur + 1))), (proj2 (Z.ltb_ge c cur)) by lia.
      destruct (Z.ltb_spec (c - (cur + 1) + 0) H), (Z.ltb_spec (c - cur + curPos w) H); try lia.
      { rewrite (proj2 (Z.ltb_lt _ (2 * H))) by lia. f_equal. lia. }
      rewrite (proj2 (Z.ltb_ge (c - cur + curPos w) (2 * H))) by lia.
      replace (cur - curPos w + (c - cur + curPos w)) with c by lia.
      destruct (Z.ltb_spec (c - (cur + 1) + 0) (2 * H)) as [Hlt|Hge]; [|rewrite G6 by lia; f_equal; lia].
      rewrite G7 by lia.
      replace (cur + 1 + H + Z.of_nat (Z.to_nat (c - (cur + 1) + 0 - H))) with c by lia.
      case_decide as Hin; [done|]. rewrite (list_lookup_total_correct cw _ wc0) by (apply Hz; lia).
      symmetry. clear -Hin. induction (ubWin w) as [|[k x] ub IH]; [done|]. simpl in *.
      apply not_elem_of_cons in Hin as [H1 H2]. destruct (Z.eqb_spec k c); [congruence|auto].
    + split; [split|..]; cbn [curPos curWin nextWin ubWin occupancy]; try done; try lia.
      * eapply Forall_impl; [|exact G5]. simpl. intros; lia.
      * unfold total. cbn [curPos curWin nextWin ubWin]. lia.
  - apply wp_bind, wp_modify, wp_ret. split_and!; try done; cycle 1.
    + intros c Hc. unfold view, slot. cbn [curPos curWin nextWin ubWin].
      rewrite (proj2 (Z.ltb_ge c (cur + 1))), (proj2 (Z.ltb_ge c cur)) by lia.
      replace (c - (cur + 1) + (curPos w + 1)) with (c - cur + curPos w) by lia.
      destruct (Z.ltb_spec (c - cur + curPos w) H).
      { unfold cw. apply list_lookup_total_insert_ne. lia. }
      destruct (Z.ltb_spec (c - cur + curPos w) (2 * H)); [done|]. f_equal. lia.
    + split; [split|..]; cbn [curPos curWin nextWin ubWin occupancy]; try done; try lia.
      * unfold cw. by rewrite length_insert.
      * intros j Hj. unfold cw. destruct (decide (j = Z.to_nat (curPos w))) as [->|].
        -- apply list_lookup_insert_eq. lia.
        -- rewrite list_lookup_insert_ne by done. apply I4. lia.
      * eapply Forall_impl; [|exact I9]. simpl. intros; lia.
      * unfold total. cbn [curPos curWin nextWin ubWin]. lia.
Qed.

(** ** Scheduling *)

(** The slot found for a request at [sc]: the first cycle, from the later of [sc]
    and now, with a free port; only that cycle changes. *)
Record Found (touch record : bool) (mask sc : Z) w cur (sc' : Z) w' : Prop := {
  fd_ge : Z.max sc cur <= sc';
  fd_free : free mask (view w cur sc') = true;
  fd_first : forall c, Z.max sc cur <= c < sc' -> free mask (view w cur c) = false;
  fd_view : forall c, view w' cur c = if c =? sc' then taken touch mask (view w cur sc') else view w cur c;
  fd_last : lastPort w' = if touch && record then port mask (view w cur sc') else lastPort w
}.

Lemma view_slot w cur c : cur <= c -> view w cur c = slot w (cur - curPos w) (c - cur + curPos w).
Proof. intros. unfold view. by rewrite (proj2 (Z.ltb_ge c cur)) by lia. Qed.

Lemma slot_cur w base off : off < H -> slot w base off = curWin w !!! Z.to_nat off.
Proof. intros. unfold slot. by rewrite (proj2 (Z.ltb_lt off H)) by lia. Qed.
Lemma slot_next w base off : H <= off < 2 * H -> slot w base off = nextWin w !!! Z.to_nat (off - H).
Proof.
  intros. unfold slot. by rewrite (proj2 (Z.ltb_ge off H)), (proj2 (Z.ltb_lt off (2 * H))) by lia.
Qed.
Lemma slot_ub w base off : 2 * H <= off -> slot w base off = ub_get (ubWin w) (base + off).
Proof.
  intros. unfold slot. by rewrite (proj2 (Z.ltb_ge off H)), (proj2 (Z.ltb_ge off (2 * H))) by lia.
Qed.

Lemma Found_slots touch record mask sc w cur off w' : 0 <= curPos w ->
  curPos w' = curPos w -> curPos w + (Z.max sc cur - cur) <= off ->
  free mask (slot w (cur - curPos w) off) = true ->
  (forall o, curPos w + (Z.max sc cur - cur) <= o < off -> free mask (slot w (cur - curPos w) o) = false) ->
  (forall o, 0 <= o -> slot w' (cur - curPos w) o =
     if o =? off then taken touch mask (slot w (cur - curPos w) off) else slot w (cur - curPos w) o) ->
  lastPort w' = (if touch && record then port mask (slot w (cur - curPos w) off) else lastPort w) ->
  Found touch record mask sc w cur (cur - curPos w + off) w'.
Proof.
  intros H0 Hp Hge Hf Hb Hv Hl.
  assert (E : view w cur (cur - curPos w + off) = slot w (cur - curPos w) off).
  { rewrite view_slot by lia. f_equal. lia. }
  split; rewrite ?E; try done; [lia| |].
  - intros c Hc. rewrite view_slot by lia. apply Hb. lia.
  - intros c. destruct (decide (c < cur)) as [Hlt|Hge'].
    + rewrite (proj2 (Z.eqb_neq c _)) by lia. unfold view. by rewrite (proj2 (Z.ltb_lt c cur)) by lia.
    + rewrite !view_slot, Hp, Hv by lia.
      destruct (Z.eqb_spec (c - cur + curPos w) off), (Z.eqb_spec c (cur - curPos w + off)); done || lia.
Qed.

Lemma total_insert_lookup (l : list WinCycle) i : (i < length l)%nat -> l !! i = Some (l !!! i).
Proof. intros. by apply list_lookup_lookup_total_lt. Qed.

Lemma insert_total_Z (l : list WinCycle) (i j : Z) x : 0 <= i -> 0 <= j < Z.of_nat (length l) ->
  <[Z.to_nat j := x]> l !!! Z.to_nat i = if i =? j then x else l !!! Z.to_nat i.
Proof.
  intros Hi Hj. destruct (Z.eqb_spec i j) as [->|Hne].
  - apply list_lookup_total_insert_eq. lia.
  - apply list_lookup_total_insert_ne. lia.
Qed.

Lemma WcOk_total (l : list WinCycle) i : Forall WcOk l -> WcOk (l !!! i).
Proof.
  intros Hl. rewrite list_lookup_total_alt. destruct (l !! i) as [x|] eqn:E; simpl; [|apply WcOk_wc0].
  by eapply Forall_lookup_1.
Qed.

Definition SlotPost (touch record : bool) (mask sc : Z) w cur (sc' : Z) w' : Prop :=
  Found touch record mask sc w cur sc' w' /\ Shape w' cur /\
  occupancy w' = occupancy w /\ total w' = total w + bit touch.

(** A slot found in the current or the next array. *)
Lemma found_cur touch record mask sc w cur j last : Shape w cur -> mask_ok touch mask ->
  curPos w + (Z.max sc cur - cur) <= j < H -> free mask (curWin w !!! Z.to_nat j) = true ->
  (forall j', curPos w + (Z.max sc cur - cur) <= j' < j -> free mask (curWin w !!! Z.to_nat j') = false) ->
  last = (if touch && record then port mask (curWin w !!! Z.to_nat j) else lastPort w) ->
  SlotPost touch record mask sc w cur (cur - curPos w + j)
    (set_slots (<[Z.to_nat j := taken touch mask (curWin w !!! Z.to_nat j)]> (curWin w)) (nextWin w) (ubWin w) last w).
Proof.
  intros [I1 I2 I3 I4 I5 I6 I7 I8 I9] Hm Hj Hf Hb Hl. pose proof (mask_ok_byte _ _ Hm).
  split; [|split; [|split; [done|]]].
  - apply Found_slots; try done; rewrite ?slot_cur by lia; try done; try lia.
    + intros o Ho. rewrite slot_cur by lia. by apply Hb.
    + intros o Ho. unfold slot. cbn [set_slots curWin nextWin ubWin]. rewrite insert_total_Z by lia.
      destruct (Z.ltb_spec o H), (Z.eqb_spec o j); done || lia.
  - split; cbn [set_slots curWin nextWin ubWin curPos]; try done; try lia.
    + by rewrite length_insert.
    + intros i Hi. rewrite list_lookup_insert_ne by lia. by apply I4.
    + apply Forall_insert; [done|]. apply taken_ok; [by apply WcOk_total|lia|done].
  - unfold total. cbn [set_slots curWin nextWin ubWin].
    rewrite (csum_insert _ _ _ _ (total_insert_lookup (curWin w) (Z.to_nat j) ltac:(lia))). cbn [taken count]. unfold bit.
    destruct touch; lia.
Qed.

Lemma found_next touch record mask sc w cur j last : Shape w cur -> mask_ok touch mask ->
  curPos w + (Z.max sc cur - cur) <= j + H -> 0 <= j < H -> free mask (nextWin w !!! Z.to_nat j) = true ->
  (forall o, curPos w + (Z.max sc cur - cur) <= o < j + H -> free mask (slot w (cur - curPos w) o) = false) ->
  last = (if touch && record then port mask (nextWin w !!! Z.to_nat j) else lastPort w) ->
  SlotPost touch record mask sc w cur (cur - curPos w + (j + H))
    (set_slots (curWin w) (<[Z.to_nat j := taken touch mask (nextWin w !!! Z.to_nat j)]> (nextWin w)) (ubWin w) last w).
Proof.
  intros [I1 I2 I3 I4 I5 I6 I7 I8 I9] Hm Hge Hj Hf Hb Hl. pose proof (mask_ok_byte _ _ Hm).
  assert (E : slot w (cur - curPos w) (j + H) = nextWin w !!! Z.to_nat j).
  { rewrite slot_next by lia. f_equal. lia. }
  split; [|split; [|split; [done|]]].
  - apply Found_slots; try done; rewrite ?E; try done; try lia.
    intros o Ho. unfold slot. cbn [set_slots curWin nextWin ubWin].
    destruct (Z.ltb_spec o H); [by rewrite (proj2 (Z.eqb_neq o _)) by lia|].
    destruct (Z.ltb_spec o (2 * H)); [|by rewrite (proj2 (Z.eqb_neq o _)) by lia].
    rewrite insert_total_Z by lia. destruct (Z.eqb_spec (o - H) j), (Z.eqb_spec o (j + H)); done || lia.
  - split; cbn [set_slots curWin nextWin ubWin curPos]; try done; try lia.
    + by rewrite length_insert.
    + apply Forall_insert; [done|]. apply taken_ok; [by apply WcOk_total|lia|done].
  - unfold total. cbn [set_slots curWin nextWin ubWin].
    rewrite (csum_insert _ _ _ _ (total_insert_lookup (nextWin w) (Z.to_nat j) ltac:(lia))). cbn [taken count]. unfold bit.
    destruct touch; lia.
Qed.

Lemma found_ub touch record mask sc w cur sc0 sc' ub last : Shape w cur -> mask_ok touch mask ->
  sc0 = cur - curPos w + Z.max (2 * H) (curPos w + (Z.max sc cur - cur)) ->
  UbFound touch record mask (ubWin w) sc0 (lastPort w) sc' ub last ->
  (forall o, curPos w + (Z.max sc cur - cur) <= o < 2 * H -> free mask (slot w (cur - curPos w) o) = false) ->
  SlotPost touch record mask sc w cur sc' (set_slots (curWin w) (nextWin w) ub last w).
Proof.
  intros [I1 I2 I3 I4 I5 I6 I7 I8 I9] Hm Hsc0 [F1 F2 F3 F4 F5 F6 F7 F8 F9] Hb.
  assert (E : slot w (cur - curPos w) (sc' - cur + curPos w) = ub_get (ubWin w) sc').
  { rewrite slot_ub by lia. f_equal. lia. }
  split; [|split; [|split; [done|]]].
  - replace sc' with (cur - curPos w + (sc' - cur + curPos w)) by lia.
    apply Found_slots; try done; rewrite ?E; try done; try lia.
    + intros o Ho. destruct (decide (o < 2 * H)); [apply Hb; lia|]. rewrite slot_ub by lia. apply F3. lia.
    + intros o Ho. unfold slot. cbn [set_slots curWin nextWin ubWin].
      destruct (Z.ltb_spec o H); [by rewrite (proj2 (Z.eqb_neq o _)) by lia|].
      destruct (Z.ltb_spec o (2 * H)); [by rewrite (proj2 (Z.eqb_neq o _)) by lia|].
      rewrite F4. destruct (Z.eqb_spec (cur - curPos w + o) sc'), (Z.eqb_spec o (sc' - cur + curPos w)); done || lia.
  - split; cbn [set_slots curWin nextWin ubWin curPos]; try done; try lia.
    apply list.Forall_forall. intros k [->|Hk]%F6; [lia|]. by eapply list.Forall_forall in I9.
  - unfold total. cbn [set_slots curWin nextWin ubWin]. lia.
Qed.

Lemma find_slot_spec touch record mask sc w cur : Shape w cur -> mask_ok touch mask ->
  sc - cur < 2 ^ 31 ->
  wp (find_slot H touch record cur sc mask) (SlotPost touch record mask sc w cur) w.
Proof.
  intros HS Hm Hsc. assert (HS' := HS). destruct HS as [I1 I2 I3 I4 I5 I6 I7 I8 I9].
  unfold find_slot. apply wp_bind, wp_get.
  set (o := curPos w + (Z.max sc cur - cur)).
  assert (Ed : u32 (if sc >? cur then sc - cur else 0) = Z.max sc cur - cur).
  { rewrite Z.gtb_ltb. rewrite u32_small; destruct (Z.ltb_spec cur sc); unfold two32; lia. }
  rewrite Ed. fold o. rewrite (u32_small o) by (unfold two32; lia).
  pose proof (scan_at touch record (curWin w) mask (lastPort w) o I5 Hm ltac:(lia)) as Hs1.
  destruct (scan _ _ (drop (Z.to_nat o) _) _ _) as [[[i|] cw'] last1].
  { destruct Hs1 as (J1&J2&->&->&J5). rewrite I2, Z2Nat.id in J1 by lia.
    rewrite u32_small by (unfold two32; lia). apply wp_bind, wp_modify, wp_ret.
    replace (cur + (o + Z.of_nat i - curPos w)) with (cur - curPos w + (o + Z.of_nat i)) by lia.
    by apply found_cur; try done; lia. }
  destruct Hs1 as (->&->&J3). rewrite I2, Z2Nat.id in J3 by lia.
  rewrite (u32_small (Z.max o H - H)) by (unfold two32; lia). set (q := Z.max o H - H).
  pose proof (scan_at touch record (nextWin w) mask (lastPort w) q I6 Hm ltac:(lia)) as Hs2.
  destruct (scan _ _ (drop (Z.to_nat q) _) _ _) as [[[i|] nw'] last2].
  { destruct Hs2 as (K1&K2&->&->&K5). rewrite I3, Z2Nat.id in K1 by lia.
    rewrite u32_small by (unfold two32; lia). apply wp_bind, wp_modify, wp_ret.
    replace (cur + (q + Z.of_nat i + H - curPos w)) with (cur - curPos w + (q + Z.of_nat i + H)) by lia.
    apply found_next; try done; try lia. intros o' Ho'. destruct (decide (o' < H)).
    - rewrite slot_cur by lia. apply J3. lia.
    - rewrite slot_next by lia. apply K5. lia. }
  destruct Hs2 as (->&->&K3). rewrite I3, Z2Nat.id in K3 by lia.
  rewrite u32_small by (unfold two32; lia).
  destruct (ub_schedule_spec touch record mask (ubWin w) (cur + (Z.max q H + H - curPos w)) (lastPort w) Hm I8 I7)
    as (sc'&ub'&last'&E&HF).
  apply wp_bind, wp_lift. rewrite E. cbn [rwp]. apply wp_bind, wp_modify, wp_ret.
  eapply (found_ub touch record mask sc w cur _ sc' ub' last' HS' Hm); [|exact HF|]; [lia|].
  intros o' Ho'. destruct (decide (o' < H)).
  - rewrite slot_cur by lia. apply J3. lia.
  - rewrite slot_next by lia. apply K3. lia.
Qed.

(** ** Progress: no cycle from [T] on is in use *)
Definition zero_from (f : Z -> WinCycle) (T : Z) : Prop := forall c, T <= c -> f c = wc0.

Lemma zero_from_mono f T T' : zero_from f T -> T <= T' -> zero_from f T'.
Proof. intros Hz Hle c Hc. apply Hz. lia. Qed.

Lemma ub_all_zero ub b : keys_sorted ub -> Forall (Z.le b) ub.*1 ->
  (forall c, b <= c -> ub_get ub c = wc0) -> Forall (eq wc0) ub.*2.
Proof.
  induction ub as [|[k wc] ub IH]; [constructor|]. intros Hs Hk Hz. unfold keys_sorted in Hs. simpl in *.
  inversion Hs as [|? ? Hs1 Hs2]; subst. apply Forall_cons_1 in Hk as [Hk0 Hk]. constructor.
  - specialize (Hz k Hk0). by rewrite Z.eqb_refl in Hz.
  - apply IH; [done..|]. intros c Hc. specialize (Hz c Hc). destruct (Z.eqb_spec k c) as [->|]; [|done].
    by apply (ub_get_below ub c); [|lia].
Qed.

Lemma zero_total w cur : Shape w cur -> zero_from (view w cur) cur -> total w = 0.
Proof.
  intros [I1 I2 I3 I4 I5 I6 I7 I8 I9] Hz.
  assert (Hs : forall o, curPos w <= o -> slot w (cur - curPos w) o = wc0).
  { intros o Ho. rewrite <- (Hz (cur - curPos w + o)) by lia. rewrite view_slot by lia. f_equal. lia. }
  unfold total. rewrite usum_csum, !csum_zero; [done|..].
  - apply (ub_all_zero _ (cur - curPos w + 2 * H)); try done. intros c Hc.
    rewrite <- (Hs (c - cur + curPos w)) by lia. rewrite slot_ub by lia. f_equal. lia.
  - apply Forall_lookup_2. intros i x Hi. assert (Hlt := lookup_lt_Some _ _ _ Hi).
    rewrite <- (Hs (Z.of_nat i + H)) by lia. rewrite slot_next by lia.
    replace (Z.to_nat (Z.of_nat i + H - H)) with i by lia. by apply list_lookup_total_correct.
  - apply Forall_lookup_2. intros i x Hi. assert (Hlt := lookup_lt_Some _ _ _ Hi).
    destruct (decide (i < Z.to_nat (curPos w))%nat); [by rewrite I4 in Hi by done; simplify_eq|].
    rewrite <- (Hs (Z.of_nat i)) by lia. rewrite slot_cur, Nat2Z.id by lia. by apply list_lookup_total_correct.
Qed.

Lemma last_used_ge w cur : cur - curPos w + 2 * H <= last_used H w cur /\
  Forall (fun k => k < last_used H w cur) (ubWin w).*1.
Proof.
  unfold last_used. generalize (cur - curPos w + 2 * H) as b. intros b.
  induction (ubWin w) as [|[k wc] ub IH]; [split; [simpl; lia|constructor]|].
  destruct IH as [IH1 IH2]. cbn [fmap list_fmap foldr fst]. split; [lia|].
  constructor; [simpl; lia|]. eapply Forall_impl; [|exact IH2]. simpl. intros; lia.
Qed.

Lemma last_used_zero w cur : Shape w cur -> zero_from (view w cur) (last_used H w cur).
Proof.
  intros [I1 _ _ _ _ _ _ _ _] c Hc. destruct (last_used_ge w cur) as [L1 L2].
  rewrite view_slot, slot_ub by lia.
  replace (cur - curPos w + (c - cur + curPos w)) with c by lia. clear -L2 Hc.
  induction (ubWin w) as [|[k wc] ub IH]; [done|]. simpl in *. apply Forall_cons_1 in L2 as [L L2].
  destruct (Z.eqb_spec k c); [lia|auto].
Qed.

(** The part of the calendar from [cur'] on is unchanged. *)
Definition same_from cur' (f f' : Z -> WinCycle) : Prop := forall c, cur' <= c -> f' c = f c.

Lemma view_past w cur c : c < cur -> view w cur c = wc0.
Proof. intros. unfold view. by rewrite (proj2 (Z.ltb_lt c cur)) by lia. Qed.

Lemma zero_from_same w cur w' cur' T : same_from cur' (view w cur) (view w' cur') ->
  zero_from (view w cur) T -> zero_from (view w' cur') T.
Proof.
  intros Hs Hz c Hc. destruct (decide (c < cur')); [by apply view_past|]. rewrite Hs by lia. by apply Hz.
Qed.

(** A full window advances to a cycle at which a uop has left, and stops there. *)
Lemma advance_while_full_spec fuel w cur T0 : Inv w cur -> zero_from (view w cur) T0 ->
  (Z.to_nat (T0 - cur) < fuel)%nat ->
  wp (advance_while_full H WSZ fuel cur) (fun cur' w' => cur <= cur' /\ Inv w' cur' /\
    occupancy w' < WSZ /\ same_from cur' (view w cur) (view w' cur') /\ lastPort w' = lastPort w /\
    (occupancy w < WSZ -> cur' = cur /\ w' = w) /\
    (forall T, zero_from (view w cur) T -> cur' <= Z.max cur T)) w.
Proof.
  revert w cur. induction fuel as [|fuel IH]; intros w cur HI Hz Hfu; [lia|].
  cbn [advance_while_full]. apply wp_bind, wp_get. destruct (Z.eqb_spec (occupancy w) WSZ) as [Hfull|Hn].
  - assert (Hlt : forall T, zero_from (view w cur) T -> cur < T).
    { intros T HT. destruct (decide (cur < T)); [done|].
      pose proof (zero_total w cur (i_shape _ _ HI) (zero_from_mono _ T cur HT ltac:(lia))).
      pose proof (i_occ _ _ HI). lia. }
    assert (Hlt0 := Hlt T0 Hz). apply wp_bind. eapply wp_mono; [by apply advancePos_spec|].
    intros cur1 w1 (->&HI1&Hv1&_&Hl1).
    eapply wp_mono; [apply IH; [done|by eapply zero_from_same|lia]|].
    intros cur' w' (G1&G2&G3&G4&G5&G6&G7). split_and!; try done; try lia; try congruence.
    + intros c Hc. rewrite G4 by done. apply Hv1. lia.
    + intros T HT. pose proof (G7 T ltac:(by eapply zero_from_same)). pose proof (Hlt T HT). lia.
  - apply wp_ret. pose proof (i_max _ _ HI). split_and!; try done; try lia.
Qed.

(** ** [scheduleInternal]: one step of the abstract calendar

    From calendar [f] at cycle [cur], a request for [sc] on the ports [mask] is
    placed at [sc'], the current cycle having become [cur']. *)
Record Step (touch : bool) (mask sc : Z) (f : Z -> WinCycle) (cur cur' sc' : Z) (f' : Z -> WinCycle) : Prop := {
  st_cur : cur <= cur';
  st_ge : Z.max sc cur' <= sc';
  st_free : free mask (f sc') = true;
  st_first : forall c, Z.max sc cur' <= c < sc' -> free mask (f c) = false;
  st_view : forall c, cur' <= c -> f' c = if c =? sc' then taken touch mask (f sc') else f c;
  st_bound : forall T, zero_from f T -> cur' <= Z.max cur T /\ sc' <= Z.max (Z.max sc cur') T
}.

Lemma Found_Step touch record mask sc w cur w1 cur' sc' w' : mask_ok touch mask -> cur <= cur' ->
  same_from cur' (view w cur) (view w1 cur') ->
  (forall T, zero_from (view w cur) T -> cur' <= Z.max cur T) ->
  Found touch record mask sc w1 cur' sc' w' ->
  Step touch mask sc (view w cur) cur cur' sc' (view w' cur').
Proof.
  intros Hm Hc Hs HT [F1 F2 F3 F4 F5]. rewrite Hs in F2 by lia.
  assert (F3' : forall c, Z.max sc cur' <= c < sc' -> free mask (view w cur c) = false).
  { intros c Hcc. rewrite <- Hs by lia. by apply F3. }
  split; try done.
  - intros c Hcc. rewrite F4, !Hs by lia. done.
  - intros T Hz. split; [by apply HT|].
    destruct (decide (sc' <= Z.max (Z.max sc cur') T)); [done|].
    pose proof (F3' (Z.max (Z.max sc cur') T) ltac:(lia)) as E.
    rewrite Hz, free_wc0 in E by (try lia; by eapply mask_ok_byte). done.
Qed.

Lemma scheduleInternal_spec touch record mask sc w cur : Inv w cur -> mask_ok touch mask ->
  sc - cur < 2 ^ 31 ->
  wp (scheduleInternal H WSZ touch record cur sc mask) (fun r w' =>
    Inv w' r.1 /\ Step touch mask sc (view w cur) cur r.1 r.2 (view w' r.1) /\
    lastPort w' = (if touch && record then port mask (view w cur r.2) else lastPort w) /\
    (touch = false \/ occupancy w < WSZ -> r.1 = cur)) w.
Proof.
  intros HI Hm Hsc. unfold scheduleInternal. apply wp_bind, wp_get, wp_bind.
  eapply (wp_mono _ (fun cur' w1 => cur <= cur' /\ Inv w1 cur' /\ (touch = true -> occupancy w1 < WSZ) /\
    same_from cur' (view w cur) (view w1 cur') /\ lastPort w1 = lastPort w /\
    (touch = false \/ occupancy w < WSZ -> cur' = cur) /\
    (forall T, zero_from (view w cur) T -> cur' <= Z.max cur T))).
  { destruct touch.
    - eapply wp_mono; [eapply advance_while_full_spec; [done|by apply last_used_zero, HI|lia]|].
      intros cur' w1 (?&?&?&?&?&E&?). split_and!; try done. intros [?|?]; [done|by apply E].
    - apply wp_ret. split_and!; try done; try lia. }
  intros cur' w1 (Hc&HI1&Hocc&Hs&Hl&Heq&HT). apply wp_bind.
  eapply wp_mono; [apply find_slot_spec; [apply HI1|done|lia]|].
  intros sc' w2 (HF&HS2&Ho2&Ht2). apply wp_bind.
  pose proof (Found_Step _ _ _ _ _ _ _ _ _ _ Hm Hc Hs HT HF) as HStep.
  assert (Hlp : lastPort w2 = if touch && record then port mask (view w cur sc') else lastPort w).
  { rewrite (fd_last _ _ _ _ _ _ _ _ HF), Hl. rewrite Hs; [done|]. pose proof (fd_ge _ _ _ _ _ _ _ _ HF). lia. }
  destruct HI1 as [HS1 Ho1 Hm1]. destruct touch; cbn [bit] in Ht2.
  - specialize (Hocc eq_refl). apply wp_modify, wp_ret. cbn [fst snd].
    assert (0 <= total w1).
    { destruct HS1. unfold total. rewrite usum_csum. repeat (rewrite <- Z.add_assoc || apply Z.add_nonneg_nonneg); by apply csum_nonneg. }
    split_and!; try done. destruct HS2. split; [by split|..]; cbn [inc_occupancy occupancy].
    + rewrite u32_small by lia. unfold total in *. cbn [inc_occupancy curWin nextWin ubWin]. lia.
    + rewrite u32_small by lia. lia.
  - apply wp_ret, wp_ret. cbn [fst snd]. split_and!; try done. split; [done|lia..].
Qed.

(** ** [schedule]: a uop and the extra slots it keeps its port for *)
Definition port_mask (i : Z) : Z := Z.shiftl 1 i.

Record Extra (mask c0 : Z) (n : nat) (f : Z -> WinCycle) cur (es : list Z) (f' : Z -> WinCycle) : Prop := {
  ex_len : length es = n;
  ex_sorted : StronglySorted Z.lt es;
  ex_ge : Forall (Z.le c0) es;
  ex_free : Forall (fun e => free mask (f e) = true) es;
  ex_view : forall c, cur <= c -> f' c = if decide (c ∈ es) then taken false mask (f c) else f c;
  ex_bound : forall T, zero_from f T -> zero_from f' (Z.max T c0 + Z.of_nat n)
}.

Lemma taken_zero_bound touch mask f f' cur sc' T : cur <= sc' ->
  (forall c, cur <= c -> f' c = if c =? sc' then taken touch mask (f sc') else f c) ->
  zero_from f T -> forall T', T <= T' -> sc' < T' -> cur <= T' -> zero_from f' T'.
Proof.
  intros Hc Hv Hz T' H1 H2 H3 c Hcc. rewrite Hv by lia. rewrite (proj2 (Z.eqb_neq c sc')) by lia. apply Hz. lia.
Qed.

Lemma extra_slots_spec n i c0 w cur T : Inv w cur -> 0 <= i < 8 -> cur <= c0 ->
  zero_from (view w cur) T -> Z.max T c0 + Z.of_nat n - cur < 2 ^ 31 ->
  wp (extra_slots H WSZ n cur c0 (port_mask i)) (fun cur' w' => cur' = cur /\ Inv w' cur /\
    exists es, Extra (port_mask i) c0 n (view w cur) cur es (view w' cur)) w.
Proof.
  revert c0 w T. induction n as [|n IH]; intros c0 w T HI Hi Hc0 Hz Hb; cbn [extra_slots].
  { apply wp_ret. split_and!; try done. exists []. split; try done; try constructor.
    intros T' HT'. eapply zero_from_mono; [done|lia]. }
  assert (Hm : mask_ok false (port_mask i)) by (by exists i).
  apply wp_bind. eapply wp_mono; [apply scheduleInternal_spec; [done|done|lia]|].
  intros [cur1 e] w1 (HI1&HSt&_&Hc). cbn [fst snd] in *. rewrite (Hc (or_introl eq_refl)) in *. clear Hc cur1.
  destruct HSt as [S1 S2 S3 S4 S5 S6]. destruct (S6 T Hz) as [_ He].
  eapply wp_mono; [apply (IH (e + 1) w1 (Z.max T (e + 1))); [done|done|lia|..|lia]|].
  { eapply (taken_zero_bound false _ _ _ cur e T); try done; lia. }
  intros cur' w' (->&HI'&es&[E1 E2 E3 E4 E5 E6]). split_and!; try done. exists (e :: es).
  assert (Hnin : forall c, c <= e -> c ∉ es).
  { intros c Hce Hin. eapply list.Forall_forall in E3; [|done]. simpl in E3. lia. }
  split.
  - simpl. by rewrite E1.
  - constructor; [done|]. eapply Forall_impl; [|exact E3]. simpl. intros; lia.
  - constructor; [lia|]. eapply Forall_impl; [|exact E3]. simpl. intros; lia.
  - constructor; [done|]. apply list.Forall_forall. intros x Hx.
    eapply list.Forall_forall in E4; [|done]. eapply list.Forall_forall in E3; [|done]. simpl in *.
    rewrite S5 in E4 by lia. by rewrite (proj2 (Z.eqb_neq x e)) in E4 by lia.
  - intros c Hcc. rewrite E5, S5 by done. destruct (Z.eqb_spec c e) as [->|Hne].
    + rewrite decide_False by (apply Hnin; lia). by rewrite decide_True by set_solver.
    + case_decide as D1; case_decide as D2; try done; set_solver.
  - intros T' HT'. destruct (S6 T' HT') as [_ He']. eapply zero_from_mono; [apply (E6 (Z.max T' (e + 1)))|lia].
    eapply (taken_zero_bound false _ _ _ cur e T'); try done; lia.
Qed.

(** What [schedule] promises: the uop starts at the first cycle, not before the
    one asked for, that has one of its ports free, and holds that port in the
    extra slots; nothing else in the calendar changes. *)
Record Scheduled (mask sc extra : Z) (f : Z -> WinCycle) (cur cur' sc' : Z) (es : list Z)
    (f' : Z -> WinCycle) : Prop := {
  sd_cur : cur <= cur';
  sd_ge : Z.max sc cur' <= sc';
  sd_free : free mask (f sc') = true;
  sd_first : forall c, Z.max sc cur' <= c < sc' -> free mask (f c) = false;
  sd_len : length es = Z.to_nat extra;
  sd_extra : Forall (fun e => sc' < e /\ free (port_mask (port mask (f sc'))) (f e) = true) es;
  sd_sorted : StronglySorted Z.lt es;
  sd_view : forall c, cur' <= c -> f' c =
    if c =? sc' then taken true mask (f sc')
    else if decide (c ∈ es) then taken false (port_mask (port mask (f sc'))) (f c) else f c;
  sd_bound : forall T, zero_from f T -> cur' <= Z.max cur T /\ sc' <= Z.max (Z.max sc cur') T /\
    zero_from f' (Z.max T (Z.max sc cur') + 1 + extra)
}.

Lemma schedule_spec mask sc extra w cur T : Inv w cur -> 0 < mask < 256 -> 0 <= extra ->
  zero_from (view w cur) T -> Z.max (Z.max T sc) cur + 1 + extra - cur < 2 ^ 31 ->
  wp (schedule H WSZ cur sc mask extra) (fun r w' => Inv w' r.1 /\
    (exists es, Scheduled mask sc extra (view w cur) cur r.1 r.2 es (view w' r.1)) /\
    (occupancy w < WSZ -> r.1 = cur)) w.
Proof.
  intros HI Hm Hx Hz Hb. unfold schedule.
  apply wp_bind. eapply (wp_mono _ (fun r w' => Inv w' r.1 /\
    (exists es, Scheduled mask sc extra (view w cur) cur r.1 r.2 es (view w' r.1)) /\
    (occupancy w < WSZ -> r.1 = cur))).
  - destruct (Z.eqb_spec extra 0) as [->|Hne].
    + eapply wp_mono; [apply scheduleInternal_spec; [done|done|lia]|].
      intros [cur' sc'] w' (HI'&[S1 S2 S3 S4 S5 S6]&_&Hc). cbn [fst snd] in *. split_and!; [done| |tauto].
      exists []. split; try done; try apply Forall_nil_2; try apply SSorted_nil.
      intros T' HT'. destruct (S6 T' HT'). split_and!; [done..|].
      eapply (taken_zero_bound true _ _ _ cur' sc' T'); try done; lia.
    + apply wp_bind. eapply wp_mono; [apply scheduleInternal_spec; [done|done|lia]|].
      intros [cur' sc'] w1 (HI1&[S1 S2 S3 S4 S5 S6]&Hl&Hc). cbn [fst snd andb] in *.
      destruct (S6 T Hz) as [B1 B2]. destruct (port_spec mask (view w cur sc') ltac:(lia) S3) as (Hp&_).
      apply wp_bind, wp_gets. rewrite Hl. fold (port_mask (port mask (view w cur sc'))).
      rewrite u8_small by (pose proof (mask_ok_byte false (port_mask (port mask (view w cur sc'))) ltac:(by eexists)); lia).
      assert (Hz1 : zero_from (view w1 cur') (Z.max T (sc' + 1))).
      { eapply (taken_zero_bound true _ _ _ cur' sc' T); try done; lia. }
      apply wp_bind. eapply wp_mono; [eapply extra_slots_spec; [exact HI1|exact Hp| |exact Hz1|]; lia|].
      intros cur2 w2 (->&HI2&es&[E1 E2 E3 E4 E5 E6]). apply wp_ret. cbn [fst snd].
      split_and!; [done| |tauto]. exists es. split; try done.
      * apply list.Forall_forall. intros e He. eapply list.Forall_forall in E3; [|done].
        eapply list.Forall_forall in E4; [|done]. simpl in *. split; [lia|].
        rewrite S5 in E4 by lia. by rewrite (proj2 (Z.eqb_neq e sc')) in E4 by lia.
      * intros c Hcc. rewrite E5, S5 by done. destruct (Z.eqb_spec c sc') as [->|]; [|done].
        rewrite decide_False; [done|]. intros Hin. eapply list.Forall_forall in E3; [|done]. simpl in E3. lia.
      * intros T' HT'. destruct (S6 T' HT'). split_and!; [done..|].
        eapply zero_from_mono; [apply (E6 (Z.max T' (sc' + 1)))|lia].
        eapply (taken_zero_bound true _ _ _ cur' sc' T'); try done; lia.
  - intros r w' (HI'&Hr). apply wp_bind, wp_get, wp_bind, wp_assert; [apply Z.leb_le, HI'|by apply wp_ret].
Qed.

(** ** [longAdvance] and [poisonRange] *)
Lemma move_ub_nil cur hz nw : move_ub H cur hz [] nw = Ok (nw, []).
Proof. done. Qed.

Lemma advancePos_ubWin w cur : ubWin w = [] -> Inv w cur ->
  wp (advancePos H cur) (fun _ w' => ubWin w' = []) w.
Proof.
  intros Hu [[I1 I2 I3 _ _ _ _ _ _] _ _]. unfold advancePos.
  apply wp_bind, wp_get, wp_bind. eapply wp_arr_get_lt; [lia|]. apply wp_bind, wp_arr_set_lt; [lia|].
  rewrite Hu. case_match; repeat wp_step; done.
Qed.

Lemma drain_spec fuel w cur target : Inv w cur -> ubWin w = [] -> cur <= target ->
  (Z.to_nat (target - cur) < fuel)%nat ->
  wp (drain H fuel cur target) (fun cur' w' => cur <= cur' <= target /\ Inv w' cur' /\ ubWin w' = [] /\
    (occupancy w' = 0 \/ cur' = target) /\ same_from cur' (view w cur) (view w' cur')) w.
Proof.
  revert w cur. induction fuel as [|fuel IH]; intros w cur HI Hu Hle Hf; [lia|].
  cbn [drain]. apply wp_bind, wp_get.
  destruct (Z.eqb_spec (occupancy w) 0) as [H0|H0]; cbn [negb andb].
  { apply wp_ret. split_and!; try done; try lia. }
  destruct (Z.ltb_spec cur target) as [Hlt|Hge].
  - apply wp_bind. eapply wp_mono; [apply wp_conj; [by apply advancePos_spec|by apply advancePos_ubWin]|].
    intros cur1 w1 [(->&HI1&Hv&_) Hu1]. eapply wp_mono; [apply IH; [done|done|lia|lia]|].
    intros cur' w' (?&?&?&?&Hs). split_and!; try done; try lia.
    intros c Hc. rewrite Hs by done. apply Hv. lia.
  - apply wp_ret. split_and!; try done; try lia.
Qed.

(** With nothing in the unbounded window the window moves to the target: either
    cycle by cycle, or by a jump once no uop is left, which shifts the slots that
    are still reserved. *)
Lemma longAdvance_spec w cur target : Inv w cur -> ubWin w = [] -> cur <= target ->
  wp (longAdvance H cur target) (fun cur' w' => cur' = target /\ Inv w' target /\ ubWin w' = [] /\
    exists mid, cur <= mid <= target /\ (mid < target -> occupancy w' = 0) /\
      forall c, target <= c -> view w' target c = view w cur (c - target + mid)) w.
Proof.
  intros HI Hu Hle. unfold longAdvance. apply wp_bind, wp_assert; [by apply Z.leb_le|].
  apply wp_bind. eapply wp_mono; [apply drain_spec; [done..|lia]|].
  intros mid w1 (Hmid&HI1&Hu1&Hor&Hs). apply wp_bind, wp_get.
  destruct (Z.eqb_spec (occupancy w1) 0) as [H0|H0]; cbn [negb].
  - apply wp_bind, wp_assert; [apply Z.leb_le; lia|]. apply wp_ret. split_and!; try done.
    + destruct HI1 as [[I1 I2 I3 I4 I5 I6 I7 I8 I9] Io Im]. split; [split|..]; try done. by rewrite Hu1.
    + exists mid. split_and!; try done; try lia. intros c Hc. rewrite <- (Hs (c - target + mid)) by lia.
      rewrite !view_slot by lia. unfold slot. rewrite Hu1. cbn [ub_get].
      replace (c - target + mid - mid + curPos w1) with (c - target + curPos w1) by lia. done.
  - destruct Hor as [?| ->]; [done|]. apply wp_bind, wp_assert; [by apply Z.eqb_refl|]. apply wp_ret.
    split_and!; try done. exists target. split_and!; try done; try lia. intros c Hc.
    rewrite Hs by lia. f_equal. lia.
Qed.

(** The ports that are busy stay busy, and only the poisoned port is added. *)
Definition poisoned (mask : Z) (f f' : Z -> WinCycle) (c : Z) : Prop :=
  f' c = f c \/ (free mask (f c) = true /\ f' c = taken false mask (f c)).

Lemma taken_not_free i wc : 0 <= i < 8 -> free (port_mask i) (taken false (port_mask i) wc) = false \/
  free (port_mask i) wc = false.
Proof.
  intros Hi. destruct (free (port_mask i) wc) eqn:Hf; [left|by right].
  assert (Ep := single_port i wc Hi Hf). unfold port_mask in *. unfold taken, free. rewrite Ep. cbn [occUnits].
  apply negb_false_iff, Z.eqb_eq. apply Z.bits_inj'. intros j Hj.
  rewrite Z.land_spec, Z.lnot_spec, Z.lor_spec, shift1_bit, Z.bits_0 by lia.
  destruct (i =? j); [by rewrite orb_true_r|by rewrite andb_false_r].
Qed.

Lemma poison_spec fuel i pc target f0 w cur : Inv w cur -> 0 <= i < 8 -> cur <= pc ->
  target - cur < 2 ^ 31 ->
  (forall c, cur <= c -> poisoned (port_mask i) f0 (view w cur) c) ->
  (forall c, cur <= c <= pc -> free (port_mask i) (view w cur c) = false) ->
  (Z.to_nat (target - pc) < fuel)%nat ->
  wp (poison H WSZ fuel cur pc target (port_mask i)) (fun cur' w' => cur' = cur /\ Inv w' cur /\
    (forall c, cur <= c -> poisoned (port_mask i) f0 (view w' cur) c) /\
    (forall c, cur <= c < target -> free (port_mask i) (view w' cur c) = false)) w.
Proof.
  revert pc w. induction fuel as [|fuel IH]; intros pc w HI Hi Hpc Hb Hp Hbusy Hf; [lia|].
  cbn [poison]. destruct (Z.ltb_spec pc target) as [Hlt|Hge].
  - apply wp_bind. eapply wp_mono; [apply scheduleInternal_spec; [done|by exists i|lia]|].
    intros [cur1 sc'] w1 (HI1&[S1 S2 S3 S4 S5 S6]&_&Hc). cbn [fst snd] in *.
    rewrite (Hc (or_introl eq_refl)) in *. clear Hc cur1.
    assert (Hgt : pc < sc').
    { destruct (decide (pc < sc')); [done|]. rewrite Hbusy in S3 by lia. done. }
    apply IH; try done; try lia.
    + intros c Hcc. unfold poisoned. rewrite S5 by done. destruct (Z.eqb_spec c sc') as [->|]; [|by apply Hp].
      right. destruct (Hp sc' Hcc) as [E|[E1 E2]]; [by rewrite <- E|].
      destruct (taken_not_free i (f0 sc') Hi) as [F|F]; [rewrite E2 in S3|]; congruence.
    + intros c Hcc. rewrite S5 by lia. destruct (Z.eqb_spec c sc') as [->|].
      * destruct (taken_not_free i (view w cur sc') Hi); [done|congruence].
      * destruct (decide (c <= pc)); [apply Hbusy; lia|apply S4; lia].
  - apply wp_ret. split_and!; try done. intros c Hcc. apply Hbusy. lia.
Qed.

Lemma poisonRange_spec i target w cur : Inv w cur -> 0 <= i < 8 -> target - cur < 2 ^ 31 ->
  wp (poisonRange H WSZ cur target (port_mask i)) (fun _ w' => Inv w' cur /\
    (forall c, cur <= c -> poisoned (port_mask i) (view w cur) (view w' cur) c) /\
    (forall c, cur <= c < target -> free (port_mask i) (view w' cur c) = false)) w.
Proof.
  intros HI Hi Hb. unfold poisonRange. apply wp_bind.
  replace (Z.to_nat (target - cur) + 2)%nat with (Datatypes.S (Z.to_nat (target - cur) + 1)) by lia. cbn [poison].
  destruct (Z.ltb_spec cur target) as [Hlt|Hge].
  - apply wp_bind. eapply wp_mono; [apply scheduleInternal_spec; [done|by exists i|lia]|].
    intros [cur1 sc'] w1 (HI1&[S1 S2 S3 S4 S5 S6]&_&Hc). cbn [fst snd] in *.
    rewrite (Hc (or_introl eq_refl)) in *. clear Hc cur1.
    eapply wp_mono; [apply (poison_spec _ i sc' target (view w cur)); try done; try lia|].
    + intros c Hcc. unfold poisoned. rewrite S5 by done. destruct (Z.eqb_spec c sc') as [->|]; [by right|by left].
    + intros c Hcc. rewrite S5 by lia. destruct (Z.eqb_spec c sc') as [->|].
      * destruct (taken_not_free i (view w cur sc') Hi); [done|congruence].
      * apply S4; lia.
    + intros cur' w' (->&?&?&?). by apply wp_assert; [apply Z.eqb_refl|].
  - apply wp_ret, wp_assert; [apply Z.eqb_refl|]. split_and!; try done; [by left|lia].
Qed.
End Calendar.

(** The constructor's state is a window with an empty calendar, at any cycle. *)
Lemma init_Inv H WSZ cur : 0 < H < 2 ^ 30 -> 0 < WSZ -> Inv H WSZ (init H) cur.
Proof.
  intros HH HW. assert (Hz : forall n, Forall (eq wc0) (replicate n wc0)) by (intros; by apply Forall_replicate).
  assert (Hok : forall n, Forall WcOk (replicate n wc0)) by (intros; apply Forall_replicate, WcOk_wc0).
  split; [split|..]; cbn [init curPos curWin nextWin ubWin occupancy]; rewrite ?length_replicate; try done; try lia.
  - constructor.
  - unfold total. cbn [init curWin nextWin ubWin]. by rewrite !csum_zero.
Qed.

Lemma init_zero H cur : zero_from (view H (init H) cur) cur.
Proof.
  intros c Hc. unfold view, slot. cbn [init curPos curWin nextWin ubWin]. case_match; [done|].
  assert (Hr : forall n i, replicate n wc0 !!! i = wc0).
  { intros n i. rewrite list_lookup_total_alt. destruct (replicate n wc0 !! i) eqn:E; [|done].
    by apply lookup_replicate in E as [-> _]. }
  repeat case_match; by rewrite ?Hr.
Qed.

(** ** The window's contract *)

(** C37: the three-level instruction window behaves as one unbounded calendar:
    a uop is scheduled at the first cycle, not before the one asked for and not in
    the past, in which one of its ports is free, takes one free port there and keeps
    it for its extra slots, and no other cycle changes; the search ends, the window
    advances only when it is full and never past the last reservation, no
    assertion fails and the occupancy never exceeds [WSZ]. *)
Theorem schedule_first_free H WSZ mask sc extra w cur T :
  0 < H < 2 ^ 30 -> 0 < WSZ < two32 -> Inv H WSZ w cur -> 0 < mask < 256 -> 0 <= extra ->
  zero_from (view H w cur) T -> Z.max (Z.max T sc) cur + 1 + extra - cur < 2 ^ 31 ->
  exists cur' sc' es w', schedule H WSZ cur sc mask extra w = Ok ((cur', sc'), w') /\
    Inv H WSZ w' cur' /\ occupancy w' <= WSZ /\
    Scheduled mask sc extra (view H w cur) cur cur' sc' es (view H w' cur') /\
    (occupancy w < WSZ -> cur' = cur).
Proof.
  intros HH HW HI Hm Hx Hz Hb.
  destruct (wp_elim _ _ _ (schedule_spec H WSZ HH HW mask sc extra w cur T HI Hm Hx Hz Hb))
    as ([cur' sc']&w'&E&HI'&[es HS]&Hc).
  exists cur', sc', es, w'. split_and!; try done. apply HI'.
Qed.

Lemma schedule_first_free_witness :
  exists cur' sc' es w', schedule 1024 36 100 103 33 2 (init 1024) = Ok ((cur', sc'), w') /\
    Inv 1024 36 w' cur' /\ occupancy w' <= 36 /\
    Scheduled 33 103 2 (view 1024 (init 1024) 100) 100 cur' sc' es (view 1024 w' cur') /\
    (occupancy (init 1024) < 36 -> cur' = 100).
Proof.
  apply (schedule_first_free 1024 36 33 103 2 (init 1024) 100 100); try done; try lia.
  - by apply init_Inv.
  - apply init_zero.
Defined.

(** poisoning a port up to a target cycle terminates, leaves the current
    cycle and the occupancy's invariant alone, makes the port busy in every cycle
    before the target and touches no other port. *)
Theorem poison_blocks_port H WSZ i target w cur :
  0 < H < 2 ^ 30 -> 0 < WSZ < two32 -> Inv H WSZ w cur -> 0 <= i < 8 -> target - cur < 2 ^ 31 ->
  exists w', poisonRange H WSZ cur target (port_mask i) w = Ok (tt, w') /\ Inv H WSZ w' cur /\
    (forall c, cur <= c < target -> free (port_mask i) (view H w' cur c) = false) /\
    (forall c, cur <= c -> poisoned (port_mask i) (view H w cur) (view H w' cur) c).
Proof.
  intros HH HW HI Hi Hb.
  destruct (wp_elim _ _ _ (poisonRange_spec H WSZ HH HW i target w cur HI Hi Hb)) as ([]&w'&E&?&?&?). eauto.
Qed.

Lemma poison_blocks_port_witness :
  exists w', poisonRange 1024 36 7 3000 (port_mask 2) (init 1024) = Ok (tt, w') /\ Inv 1024 36 w' 7 /\
    (forall c, 7 <= c < 3000 -> free (port_mask 2) (view 1024 w' 7 c) = false) /\
    (forall c, 7 <= c -> poisoned (port_mask 2) (view 1024 (init 1024) 7) (view 1024 w' 7) c).
Proof. apply (poison_blocks_port 1024 36 2 3000 (init 1024) 7); try done; try lia. by apply init_Inv. Defined.

(** [n] uops on port 0 with [extra] extra slots each, every one asked for a cycle
    before the previous one's. *)
Fixpoint schedule_down (H WSZ : Z) (n : nat) (cur extra : Z) : M t Z :=
  match n with
  | O => mret cur
  | Datatypes.S n =>
    '(cur, _) ← schedule H WSZ cur (Z.of_nat n) 1 extra;
    schedule_down H WSZ n cur extra
  end.
Fixpoint advance_n (H : Z) (n : nat) (cur : Z) : M t Z :=
  match n with
  | O => mret cur
  | Datatypes.S n => cur ← advancePos H cur; advance_n H n cur
  end.

(** [longAdvance] may jump once no uop is left in the window, but the slots
    that uops reserved beyond their own are not part of the occupancy: after 36
    uops with 62 extra slots each (the extra slots of a 64-bit division) on one
    port and a jump, the next rebase finds a reservation of the past in the
    unbounded window and its assertion fails. *)
Theorem stale_slots_break_rebase :
  (cur ← schedule_down 1024 36 36 0 62; cur ← longAdvance 1024 cur 20000; mret cur) (init 1024)
    ≫= (fun '(cur, w) => Ok (cur, occupancy w)) = Ok (20000, 0) /\
  (cur ← schedule_down 1024 36 36 0 62; cur ← longAdvance 1024 cur 20000; advance_n 1024 1024 cur) (init 1024)
    = Err (Panic "WindowStructure: ubWin elem exceeds limit").
Proof. split; vm_compute; reflexivity. Qed.
End Win.
