(* ===== verification/OOOStructs.v ===== *)
(** * The small structures of the out-of-order core

    [BranchPredictorPAg], [ReorderBuffer] and [CycleQueue] of src/src/ooo_core.h. *)

From Stdlib Require Import Sorted.
From S2P Require Import Prelude Bithacks InsWindow.

(** ** Ring buffers: [buf[idx++] = x; if (idx == SZ) idx = 0;] *)
Module Ring.
Record t := mk { buf : list Z; idx : nat }.
Definition init (SZ : nat) : t := mk (replicate SZ 0) 0.
Definition top (r : t) : res Z := arr_get (buf r) (idx r).
Definition push (SZ : nat) (r : t) (x : Z) : res t :=
  b ← arr_set (buf r) (idx r) x;
  let i := Datatypes.S (idx r) in
  mret (mk b (if (i =? SZ)%nat then O else i)).

(** The entries from the oldest to the newest. *)
Definition view (r : t) : list Z := drop (idx r) (buf r) ++ take (idx r) (buf r).
Definition Ok_ring (SZ : nat) (r : t) : Prop := length (buf r) = SZ /\ (idx r < SZ)%nat.

Lemma init_ok SZ : (0 < SZ)%nat -> Ok_ring SZ (init SZ) /\ view (init SZ) = replicate SZ 0.
Proof. intros. split; [split; [apply length_replicate|done]|]. unfold view. simpl. by rewrite app_nil_r. Qed.

Lemma view_perm r x : x ∈ buf r <-> x ∈ view r.
Proof. unfold view. rewrite <- (take_drop (idx r) (buf r)) at 1. rewrite !elem_of_app. tauto. Qed.

Lemma view_length SZ r : Ok_ring SZ r -> length (view r) = SZ.
Proof. intros [? ?]. unfold view. rewrite length_app, length_drop, length_take. lia. Qed.

(** [top] reads the oldest entry, [push] replaces it by a new one. *)
Lemma top_spec SZ r : Ok_ring SZ r -> exists x l, view r = x :: l /\ top r = Ok x.
Proof.
  intros [Hl Hi]. destruct (lookup_lt_is_Some_2 (buf r) (idx r)) as [x Hx]; [lia|].
  exists x, (drop (Datatypes.S (idx r)) (buf r) ++ take (idx r) (buf r)). unfold view, top.
  split; [by rewrite (drop_S _ x _ Hx)|by apply arr_get_Some].
Qed.

Lemma push_spec SZ r x : Ok_ring SZ r ->
  exists r' y l, push SZ r x = Ok r' /\ Ok_ring SZ r' /\ view r = y :: l /\ view r' = l ++ [x].
Proof.
  intros [Hl Hi]. destruct (lookup_lt_is_Some_2 (buf r) (idx r)) as [y Hy]; [lia|].
  unfold push. rewrite arr_set_lt by lia. eexists _, y, _. split; [reflexivity|].
  unfold view. rewrite (drop_S _ y _ Hy). split; [|split; [reflexivity|]].
  - split; cbn [buf idx]; [by rewrite length_insert|]. destruct (Nat.eqb_spec (Datatypes.S (idx r)) SZ); lia.
  - cbn [buf idx]. destruct (Nat.eqb_spec (Datatypes.S (idx r)) SZ) as [He|Hne].
    + rewrite drop_0, take_0, app_nil_r, insert_take_drop by lia. by rewrite (drop_ge _ (Datatypes.S (idx r))) by lia.
    + rewrite drop_insert_lt by lia. rewrite <- app_assoc. f_equal.
      rewrite (take_S_r _ _ x) by (apply list_lookup_insert_eq; lia). by rewrite take_insert_ge by lia.
Qed.
End Ring.

(** ** CycleQueue<SZ> *)
Module CycleQueue.
Definition minAllocCycle (q : Ring.t) : res Z := Ring.top q.
Definition markLeave (SZ : nat) (q : Ring.t) (leaveCycle : Z) : res Ring.t := Ring.push SZ q leaveCycle.
End CycleQueue.

(** ** ReorderBuffer<SZ, W> *)
Module ROB.
Record t := mk { ring : Ring.t; curRetireCycle : Z; curCycleRetires : Z }.
Definition init (SZ : nat) : t := mk (Ring.init SZ) 0 1.
Definition minAllocCycle (r : t) : res Z := Ring.top (ring r).
Definition markRetire (SZ : nat) (W : Z) (r : t) (minRetireCycle : Z) : res t :=
  let '(crc, ccr) :=
    if minRetireCycle <=? curRetireCycle r then
      if curCycleRetires r =? W then (curRetireCycle r + 1, 0)
      else (curRetireCycle r, u32 (curCycleRetires r + 1))
    else (minRetireCycle, 1) in
  ring ← Ring.push SZ (ring r) crc;
  mret (mk ring crc ccr).

(** [retire r cs] marks the uops of [cs] in order, and logs their retire cycles. *)
Fixpoint retire (SZ : nat) (W : Z) (r : t) (cs : list Z) : res (list Z * t) :=
  match cs with
  | [] => mret ([], r)
  | c :: cs =>
    r ← markRetire SZ W r c;
    '(log, r') ← retire SZ W r cs;
    mret (curRetireCycle r :: log, r')
  end.

(** The uops of a log that retire in cycle [c]. *)
Definition in_cycle (c : Z) (log : list Z) : Z := Z.of_nat (length (filter (eq c) log)).

Lemma in_cycle_cons c x log : in_cycle c (x :: log) = (if decide (c = x) then 1 else 0) + in_cycle c log.
Proof. unfold in_cycle. rewrite filter_cons. case_decide; simpl length; lia. Qed.

Section Rob.
Context (SZ : nat) (W : Z) (HSZ : (0 < SZ)%nat) (HW : 0 < W < two32).

Record Inv (r : t) : Prop := {
  r_ring : Ring.Ok_ring SZ (ring r);
  r_width : 0 <= curCycleRetires r <= W
}.

Lemma rob_init_Inv : Inv (init SZ).
Proof. split; [by apply Ring.init_ok|]. simpl. lia. Qed.

Lemma markRetire_spec r c : Inv r ->
  exists r' y l, markRetire SZ W r c = Ok r' /\ Inv r' /\
    Ring.view (ring r) = y :: l /\ Ring.view (ring r') = l ++ [curRetireCycle r'] /\
    c <= curRetireCycle r' /\ curRetireCycle r <= curRetireCycle r' <= Z.max c (curRetireCycle r + 1) /\
    ((curRetireCycle r' = curRetireCycle r /\ curCycleRetires r' = curCycleRetires r + 1 /\ curCycleRetires r < W) \/
     (curRetireCycle r < curRetireCycle r' /\ curCycleRetires r' <= 1)).
Proof.
  clear HSZ. intros [R1 R2]. unfold markRetire.
  destruct (Z.leb_spec c (curRetireCycle r)); [destruct (Z.eqb_spec (curCycleRetires r) W)|];
    (edestruct (Ring.push_spec SZ (ring r)) as (ring'&y&l&->&G1&G2&G3); [done|]); cbn [mbind res_bind mret res_ret];
    eexists _, y, l; (split; [reflexivity|]); cbn [ring curRetireCycle curCycleRetires];
    rewrite ?u32_small by lia;
    (split; [split; cbn [ring curCycleRetires]; [done|lia]|]); split_and!; try done; try lia.
Qed.

Lemma retire_spec cs r : Inv r ->
  exists log r', retire SZ W r cs = Ok (log, r') /\ Inv r' /\
    Ring.view (ring r') = drop (length cs) (Ring.view (ring r) ++ log) /\
    Forall2 Z.le cs log /\ Sorted Z.le (curRetireCycle r :: log) /\
    forall c, in_cycle c log <= if decide (c = curRetireCycle r) then W - curCycleRetires r
                                else if decide (c < curRetireCycle r) then 0 else W + 1.
Proof.
  clear HSZ. revert r. induction cs as [|c cs IH]; intros r HI; cbn [retire].
  { exists [], r. pose proof (r_width _ HI). split_and!; try done; try (by rewrite app_nil_r).
    - constructor; constructor.
    - intros c. unfold in_cycle. simpl. repeat case_decide; lia. }
  destruct (markRetire_spec r c HI) as (r1&y&l&->&HI1&V0&V1&Hc&Hm&Hw). cbn [mbind res_bind].
  destruct (IH r1 HI1) as (log&r'&->&HI'&HV&HF&HS&HC). cbn [mbind res_bind].
  eexists _, r'. split; [reflexivity|]. split; [done|]. split_and!.
  - rewrite HV, V0, V1. cbn [length app drop]. by rewrite <- app_assoc.
  - by constructor.
  - constructor; [done|]. constructor. lia.
  - intros x. rewrite in_cycle_cons. specialize (HC x). pose proof (r_width _ HI). pose proof (r_width _ HI1).
    revert HC. repeat case_decide; lia.
Qed.
End Rob.

(** the reorder buffer retires in order and not before a uop's own cycle; a
    uop's entry frees up when the uop [SZ] places before it retired
    ([minAllocCycle] is the head of the last [SZ] retire cycles); at most [W + 1]
    uops retire in one cycle. *)
Theorem rob_retires_in_order SZ W cs :
  (0 < SZ)%nat -> 0 < W < two32 ->
  exists log r', retire SZ W (init SZ) cs = Ok (log, r') /\
    Forall2 Z.le cs log /\ Sorted Z.le log /\
    minAllocCycle r' = from_opt ((replicate SZ 0 ++ log) !! length cs) "array index out of range" /\
    forall c, in_cycle c log <= W + 1.
Proof.
  intros HSZ HW. destruct (retire_spec SZ W HW cs (init SZ) (rob_init_Inv SZ W HSZ HW))
    as (log&r'&E&[R1 R2]&HV&HF&HS&HC).
  exists log, r'. split; [done|]. split; [done|]. split; [by inversion HS|]. split.
  - destruct (Ring.top_spec SZ (ring r') R1) as (x&l&Hx&Ht). unfold minAllocCycle. rewrite Ht.
    rewrite Hx in HV. cbn [init ring] in HV. rewrite (proj2 (Ring.init_ok SZ HSZ)) in HV.
    pose proof (f_equal (fun l => l !! 0%nat) HV) as E0. simpl in E0. rewrite lookup_drop, Nat.add_0_r in E0.
    by rewrite <- E0.
  - intros c. specialize (HC c). cbn [init curRetireCycle curCycleRetires] in HC. repeat case_decide; lia.
Qed.

Lemma rob_retires_in_order_witness :
  exists log r', retire 4 2 (init 4) [3; 1; 9; 9; 2; 2; 2] = Ok (log, r') /\
    Forall2 Z.le [3; 1; 9; 9; 2; 2; 2] log /\ Sorted Z.le log /\
    minAllocCycle r' = from_opt ((replicate 4 0 ++ log) !! 7%nat) "array index out of range" /\
    forall c, in_cycle c log <= 2 + 1.
Proof. apply (rob_retires_in_order 4 2 [3; 1; 9; 9; 2; 2; 2]); [lia|unfold two32; lia]. Defined.

(** when a cycle's retire slots are used up the next cycle starts counting at 0
    instead of 1, so a 4-wide reorder buffer retires 5 uops in it. *)
Theorem rob_width_exceeded :
  (retire 128 4 (init 128) (replicate 8 0)) ≫= (fun '(log, _) => Ok log) = Ok [0; 0; 0; 1; 1; 1; 1; 1].
Proof. vm_compute. reflexivity. Qed.
End ROB.

(** ** BranchPredictorPAg<NB, HB, LB> *)
Module BP.
Record t := mk { bhsr : list Z; pht : list Z }.

Section Pred.
Context (NB HB LB : Z).

Definition init : t := mk (replicate (Z.to_nat (2 ^ NB)) 0) (replicate (Z.to_nat (2 ^ LB)) 1).

Definition bhsrMask : Z := Z.shiftl 1 NB - 1.
Definition histMask : Z := Z.shiftl 1 HB - 1.
Definition phtMask : Z := Z.shiftl 1 LB - 1.

Definition bhsr_idx (branchPc : Z) : Z := Z.land (u32 (Z.shiftr branchPc 1)) bhsrMask.
(** Shift-XOR-mask to fit in the PHT. *)
Definition pht_idx (hist : Z) : Z :=
  Z.land (Z.lxor hist (Z.shiftr (Z.land hist (u32 (Z.lnot phtMask))) (HB - LB))) phtMask.
Definition next_counter (ctr : Z) (pred taken : bool) : Z :=
  u8 (if taken then (if pred then 3 else ctr + 1) else (if pred then ctr - 1 else 0)).
Definition next_hist (hist : Z) (taken : bool) : Z :=
  Z.lor (Z.land (u32 (Z.shiftl hist 1)) histMask) (if taken then 1 else 0).

(** [predict]: false if mispredicted. *)
Definition predict (branchPc : Z) (taken : bool) : M t bool :=
  b ← mget;
  let i := Z.to_nat (bhsr_idx branchPc) in
  hist ← mlift (arr_get (bhsr b) i);
  let j := Z.to_nat (pht_idx hist) in
  ctr ← mlift (arr_get (pht b) j);
  let pred := ctr >? 1 in
  pht' ← mlift (arr_set (pht b) j (next_counter ctr pred taken));
  bhsr' ← mlift (arr_set (bhsr b) i (next_hist hist taken));
  mmodify (fun _ => mk bhsr' pht');;
  mret (eqb taken pred).

(** A branch executed with the outcomes [os]. *)
Fixpoint predict_all (branchPc : Z) (os : list bool) : M t (list bool) :=
  match os with
  | [] => mret []
  | o :: os => r ← predict branchPc o; rs ← predict_all branchPc os; mret (r :: rs)
  end.

Context (HN : 0 <= NB <= LB) (HL : LB <= HB) (HB1 : 1 <= HB <= 30).

Record Inv (b : t) : Prop := {
  p_lenb : length (bhsr b) = Z.to_nat (2 ^ NB);
  p_lenp : length (pht b) = Z.to_nat (2 ^ LB);
  p_hist : Forall (fun h => 0 <= h < 2 ^ HB) (bhsr b);
  p_ctr : Forall (fun c => 0 <= c <= 3) (pht b)
}.

Lemma pow2_pos n : 0 <= n -> 0 < 2 ^ n.
Proof. intros. by apply Z.pow_pos_nonneg. Qed.

Lemma bp_init_Inv : Inv init.
Proof.
  split; cbn [init bhsr pht]; rewrite ?length_replicate; try done.
  - apply Forall_replicate. pose proof (pow2_pos HB). lia.
  - apply Forall_replicate. lia.
Qed.

Lemma land_mask x n : 0 <= n -> Z.land x (Z.shiftl 1 n - 1) = x mod 2 ^ n.
Proof.
  intros Hn. rewrite Z.shiftl_1_l. replace (2 ^ n - 1) with (Z.ones n) by (rewrite Z.ones_equiv; lia).
  by apply Z.land_ones.
Qed.

Lemma bhsr_idx_range pc : 0 <= bhsr_idx pc < 2 ^ NB.
Proof. unfold bhsr_idx, bhsrMask. rewrite land_mask by lia. apply Z.mod_pos_bound, pow2_pos. lia. Qed.
Lemma pht_idx_range h : 0 <= pht_idx h < 2 ^ LB.
Proof. unfold pht_idx, phtMask. rewrite land_mask by lia. apply Z.mod_pos_bound, pow2_pos. lia. Qed.

(** The history register is a shift register of [HB] bits. *)
Lemma next_hist_mod h d : 0 <= h < 2 ^ HB -> next_hist h d = (2 * h + Z.b2z d) mod 2 ^ HB.
Proof.
  intros Hh. unfold next_hist, histMask. rewrite land_mask by lia.
  assert (2 ^ HB <= 2 ^ 30) by (apply Z.pow_le_mono_r; lia).
  rewrite Z.shiftl_mul_pow2, u32_small by (unfold two32; lia). change (2 ^ 1) with 2.
  assert (E : 2 ^ HB = 2 * 2 ^ (HB - 1)) by (rewrite <- Z.pow_succ_r by lia; f_equal; lia).
  pose proof (pow2_pos (HB - 1) ltac:(lia)).
  rewrite (Z.mul_comm h 2), E, Z.mul_mod_distr_l by lia.
  pose proof (Z.mod_pos_bound h (2 ^ (HB - 1)) ltac:(lia)).
  destruct d; cbn [Z.b2z].
  - rewrite <- Z.add_nocarry_lor.
    + rewrite (Z.div_mod h (2 ^ (HB - 1))) at 2 by lia.
      apply Z.mod_unique with (q := h / 2 ^ (HB - 1)); lia.
    + change 1 with (Z.ones 1). rewrite Z.land_ones by lia. change (2 ^ 1) with 2. rewrite Z.mul_comm. apply Z.mod_mul. lia.
  - rewrite Z.lor_0_r, Z.add_0_r, Z.mul_mod_distr_l by lia. done.
Qed.

Lemma next_hist_range h d : 0 <= h < 2 ^ HB -> 0 <= next_hist h d < 2 ^ HB.
Proof. intros. rewrite next_hist_mod by done. apply Z.mod_pos_bound, pow2_pos. lia. Qed.

Lemma next_counter_range c p d : 0 <= c <= 3 -> p = (c >? 1) -> 0 <= next_counter c p d <= 3.
Proof.
  intros Hc ->. unfold next_counter. rewrite Z.gtb_ltb.
  rewrite u8_small; destruct d, (Z.ltb_spec 1 c); lia.
Qed.

(** The state of a branch: its history and the counter this selects. *)
Definition hist_of (b : t) (pc : Z) : Z := bhsr b !!! Z.to_nat (bhsr_idx pc).
Definition ctr_of (b : t) (h : Z) : Z := pht b !!! Z.to_nat (pht_idx h).

Lemma hist_of_range b pc : Inv b -> 0 <= hist_of b pc < 2 ^ HB.
Proof.
  intros [L1 L2 F1 F2]. unfold hist_of. pose proof (bhsr_idx_range pc).
  eapply Forall_lookup_total_1 in F1; [exact F1|lia].
Qed.
Lemma ctr_of_range b h : Inv b -> 0 <= ctr_of b h <= 3.
Proof.
  intros [L1 L2 F1 F2]. unfold ctr_of. pose proof (pht_idx_range h).
  eapply Forall_lookup_total_1 in F2; [exact F2|lia].
Qed.

Lemma predict_spec b pc d : Inv b ->
  wp (predict pc d) (fun r b' => Inv b' /\ r = eqb d (ctr_of b (hist_of b pc) >? 1) /\
    hist_of b' pc = next_hist (hist_of b pc) d /\
    ctr_of b' (hist_of b pc) =
      next_counter (ctr_of b (hist_of b pc)) (ctr_of b (hist_of b pc) >? 1) d) b.
Proof.
  intros HI. pose proof (bhsr_idx_range pc). pose proof (pht_idx_range (hist_of b pc)).
  pose proof (hist_of_range b pc HI). pose proof (ctr_of_range b (hist_of b pc) HI).
  destruct HI as [L1 L2 F1 F2]. unfold predict. apply wp_bind, wp_get, wp_bind.
  eapply wp_arr_get_lt; [lia|]. fold (hist_of b pc). apply wp_bind.
  eapply wp_arr_get_lt; [lia|]. fold (ctr_of b (hist_of b pc)).
  apply wp_bind, wp_arr_set_lt; [lia|]. apply wp_bind, wp_arr_set_lt; [lia|].
  apply wp_bind, wp_modify, wp_ret. split_and!; try done.
  - split; cbn [bhsr pht]; rewrite ?length_insert; try done.
    + apply Forall_insert; [done|]. by apply next_hist_range.
    + apply Forall_insert; [done|]. by apply next_counter_range.
  - unfold hist_of at 1. cbn [bhsr]. apply list_lookup_total_insert_eq. lia.
  - unfold ctr_of at 1. cbn [pht]. apply list_lookup_total_insert_eq. lia.
Qed.

(** ** A branch that always goes the same way *)
Definition steady (d : bool) : Z := if d then 2 ^ HB - 1 else 0.
Definition agrees (d : bool) (ctr : Z) : Prop := (ctr >? 1) = d.

Lemma steady_next d : next_hist (steady d) d = steady d.
Proof.
  pose proof (pow2_pos HB ltac:(lia)).
  rewrite next_hist_mod by (destruct d; simpl; lia). destruct d; cbn [steady Z.b2z].
  - symmetry. apply Z.mod_unique with (q := 1); lia.
  - by rewrite Z.mod_0_l by lia.
Qed.

(** After [n] executions the low [n] bits of the history are the outcome. *)
Lemma hist_fill pc d n b : Inv b ->
  wp (predict_all pc (replicate n d)) (fun rs b' => Inv b' /\ length rs = n /\
    hist_of b' pc = (hist_of b pc * 2 ^ Z.of_nat n + (2 ^ Z.of_nat n - 1) * Z.b2z d) mod 2 ^ HB) b.
Proof.
  revert b. induction n as [|n IH]; intros b HI; cbn [replicate predict_all].
  { apply wp_ret. split_and!; try done. change (Z.of_nat 0) with 0.
    pose proof (hist_of_range b pc HI). rewrite Z.mod_small; lia. }
  apply wp_bind. eapply wp_mono; [by apply predict_spec|]. intros r b1 (HI1&_&Hh&_).
  apply wp_bind. eapply wp_mono; [by apply IH|]. intros rs b2 (HI2&Hl&Hh2).
  apply wp_ret. split_and!; [done|simpl; lia|]. rewrite Hh2, Hh, next_hist_mod by (by apply hist_of_range).
  pose proof (pow2_pos HB ltac:(lia)).
  rewrite Z.add_mod, Z.mul_mod_idemp_l, <- Z.add_mod by lia. f_equal.
  rewrite Nat2Z.inj_succ, Z.pow_succ_r by lia. lia.
Qed.

Lemma hist_steady pc d b : Inv b ->
  wp (predict_all pc (replicate (Z.to_nat HB) d)) (fun rs b' => Inv b' /\ length rs = Z.to_nat HB /\
    hist_of b' pc = steady d) b.
Proof.
  intros HI. eapply wp_mono; [by apply hist_fill|]. intros rs b' (HI'&Hl&Hh). split_and!; [done..|].
  rewrite Hh, Z2Nat.id by lia. pose proof (pow2_pos HB ltac:(lia)).
  rewrite Z.add_comm, Z.mod_add by lia. destruct d; cbn [Z.b2z steady].
  - rewrite Z.mul_1_r. apply Z.mod_small. lia.
  - by rewrite Z.mul_0_r, Z.mod_0_l by lia.
Qed.

(** With a steady history the counter moves towards the outcome. *)
Lemma steady_step pc d b : Inv b -> hist_of b pc = steady d ->
  wp (predict pc d) (fun r b' => Inv b' /\ hist_of b' pc = steady d /\
    r = eqb d (ctr_of b (steady d) >? 1) /\
    ctr_of b' (steady d) = next_counter (ctr_of b (steady d)) (ctr_of b (steady d) >? 1) d) b.
Proof.
  intros HI Hs. eapply wp_mono; [by apply predict_spec|]. rewrite Hs.
  intros r b' (HI'&Hr&Hh&Hc). rewrite Hh, steady_next. done.
Qed.

Lemma agrees_stays d c : 0 <= c <= 3 -> agrees d c -> agrees d (next_counter c (c >? 1) d).
Proof.
  unfold agrees, next_counter. rewrite !Z.gtb_ltb. intros Hc Ha. destruct (Z.ltb_spec 1 c); subst d.
  - by rewrite u8_small by lia.
  - by rewrite u8_small by lia.
Qed.
Lemma agrees_two d c c' : 0 <= c <= 3 -> c' = next_counter c (c >? 1) d ->
  agrees d (next_counter c' (c' >? 1) d).
Proof.
  intros Hc ->. unfold agrees, next_counter. rewrite !Z.gtb_ltb.
  destruct d, (Z.ltb_spec 1 c);
    rewrite ?(u8_small 3), ?(u8_small 0), ?(u8_small (c + 1)), ?(u8_small (c - 1)) by lia; cbn [Z.ltb];
    repeat case_match; try rewrite u8_small by lia; lia.
Qed.

Lemma steady_correct pc d k b : Inv b -> hist_of b pc = steady d -> agrees d (ctr_of b (steady d)) ->
  wp (predict_all pc (replicate k d)) (fun rs b' => Inv b' /\ rs = replicate k true) b.
Proof.
  revert b. induction k as [|k IH]; intros b HI Hs Ha; cbn [replicate predict_all]; [by apply wp_ret|].
  apply wp_bind. eapply wp_mono; [by apply steady_step|]. intros r b1 (HI1&Hs1&Hr&Hc).
  apply wp_bind. eapply wp_mono; [apply IH; [done|done|]|].
  { rewrite Hc. apply agrees_stays; [by apply ctr_of_range|done]. }
  intros rs b2 (HI2&->). apply wp_ret. split; [done|]. unfold agrees in Ha. rewrite Ha in Hr.
  by rewrite Hr, eqb_reflx.
Qed.

Lemma predict_all_app pc os os' b Q :
  wp (predict_all pc os) (fun rs b' => wp (predict_all pc os') (fun rs' b'' => Q (rs ++ rs') b'') b') b ->
  wp (predict_all pc (os ++ os')) Q b.
Proof.
  revert b Q. induction os as [|o os IH]; intros b Q Hw; cbn [app predict_all] in *.
  { exact Hw. }
  apply wp_bind. apply wp_bind_inv in Hw. eapply wp_mono; [exact Hw|]. intros r b1 Hw1.
  apply wp_bind. apply wp_bind_inv in Hw1. apply IH. eapply wp_mono; [exact Hw1|]. intros rs b2 Hw2.
  unfold wp at 1 in Hw2. simpl in Hw2. eapply wp_mono; [exact Hw2|]. intros rs' b3 HQ. by apply wp_ret.
Qed.
End Pred.

(** a branch that always goes the same way is predicted correctly after at most
    [HB + 2] executions, whatever the tables hold; no table access is out of range
    and the counters stay 2-bit counters. *)
Theorem predictor_learns NB HB LB pc d k b :
  0 <= NB <= LB -> LB <= HB -> 1 <= HB <= 30 -> Inv NB HB LB b ->
  exists rs b', predict_all NB HB LB pc (replicate (Z.to_nat HB + 2 + k) d) b = Ok (rs, b') /\
    Inv NB HB LB b' /\ drop (Z.to_nat HB + 2) rs = replicate k true.
Proof.
  intros HN HL HB1 HI.
  assert (Hw : wp (predict_all NB HB LB pc (replicate (Z.to_nat HB + 2 + k) d))
    (fun rs b' => Inv NB HB LB b' /\ drop (Z.to_nat HB + 2) rs = replicate k true) b); cycle 1.
  { destruct (wp_elim _ _ _ Hw) as (rs&b'&?&?). eauto. }
  rewrite !replicate_add, <- app_assoc. apply predict_all_app.
  eapply wp_mono; [by apply hist_steady|]. intros rs1 b1 (HI1&Hl1&Hs1). apply predict_all_app.
  cbn [replicate predict_all]. apply wp_bind. eapply wp_mono; [by apply steady_step|].
  intros r2 b2 (HI2&Hs2&_&Hc2). apply wp_bind, wp_bind. eapply wp_mono; [by apply steady_step|].
  intros r3 b3 (HI3&Hs3&_&Hc3). repeat wp_step.
  eapply wp_mono; [eapply steady_correct; try done|].
  { rewrite Hc3. apply (agrees_two d (ctr_of HB LB b1 (steady HB d))); [by eapply ctr_of_range|done]. }
  intros rs4 b4 (HI4&->). split; [done|]. rewrite drop_app_ge by lia.
  by replace (Z.to_nat HB + 2 - length rs1)%nat with 2%nat by lia.
Qed.

Lemma predictor_learns_witness :
  exists rs b', predict_all 11 18 14 4198400 (replicate (Z.to_nat 18 + 2 + 3) true) (init 11 14) = Ok (rs, b') /\
    Inv 11 18 14 b' /\ drop (Z.to_nat 18 + 2) rs = replicate 3 true.
Proof. apply (predictor_learns 11 18 14 4198400 true 3 (init 11 14)); try lia. apply bp_init_Inv; lia. Defined.
End BP.
