(* ===== verification/OOOCore.v ===== *)
(** * The out-of-order core

    [OOOCore] of src/src/ooo_core.cpp: the instruction-driven timing model of a
    Westmere-like core.  Every basic block is simulated when the next one starts:
    its uops are decoded, issued, scheduled in the instruction window, executed
    (loads and stores through the L1 data cache) and retired; then the branch
    prediction and the fetch of the next block are simulated.

    The caches and the event recorder are an interface ([CorePorts]): the theorems
    hold for any implementation that keeps its laws ([CorePortsLaws]). *)

From S2P Require Import Prelude Bithacks InsWindow OOOStructs.

(** ** Decoded code (src/src/decoder.h, src/src/core.h) *)
Inductive UopType := UOP_GENERAL | UOP_LOAD | UOP_STORE | UOP_STORE_ADDR | UOP_FENCE.
#[export] Instance UopType_eq_dec : EqDecision UopType.
Proof. solve_decision. Defined.

Record DynUop := mkUop {
  u_rs0 : nat; u_rs1 : nat; u_rd0 : nat; u_rd1 : nat;
  u_lat : Z; u_decCycle : Z; u_type : UopType; u_portMask : Z; u_extraSlots : Z
}.
Record DynBbl := mkBbl { db_approxInstrs : Z; db_uop : list DynUop }.
Record BblInfo := mkInfo { bi_instrs : Z; bi_bytes : Z; bi_oooBbl : DynBbl }.

(** ** The ports of a core *)
Class CorePorts (E : Type) := {
  l1i_load : Z -> Z -> M E Z;
  l1d_load : Z -> Z -> M E Z;
  l1d_store : Z -> Z -> M E Z;
  l1i_contextSwitch : M E unit;
  l1d_contextSwitch : M E unit;
  cRec_record : Z -> Z -> Z -> M E unit;
  cRec_notifyJoin : Z -> M E Z;
  cRec_notifyLeave : Z -> M E unit;
  cRec_cSimStart : Z -> M E Z;
  cRec_cSimEnd : Z -> M E Z
}.

(** ** Parameters of the core *)
Definition FETCH_STAGE : Z := 1.
Definition DECODE_STAGE : Z := 4.
Definition ISSUE_STAGE : Z := 7.
Definition DISPATCH_STAGE : Z := 13.
Definition L1D_LAT : Z := 4.
Definition FETCH_BYTES_PER_CYCLE : Z := 16.
Definition ISSUES_PER_CYCLE : Z := 4.
Definition RF_READS_PER_CYCLE : Z := 3.
Definition FWD_ENTRIES : nat := 32.
Definition IW_H : Z := 1024.
Definition IW_SZ : Z := 36.
Definition ROB_SZ : nat := 128.
Definition LSQ_SZ : nat := 32.
Definition LSQ_W : Z := 4.
Definition ROB_W : Z := 4.
Definition UQ_SZ : nat := 28.
Definition BP_NB : Z := 11.
Definition BP_HB : Z := 18.
Definition BP_LB : Z := 14.
(** [(Address)-1L]: the address recorded for a load that does not execute. *)
Definition NO_ADDR : Z := two64 - 1.

(** ** The state, grouped by the stage that uses it *)
Record Issue := mkIssue {
  curCycle : Z;
  decodeCycle : Z;
  uopQueue : Ring.t;
  curCycleRFReads : Z;
  curCycleIssuedUops : Z;
  regScoreboard : list Z;
  insWindow : Win.t;
  rob : ROB.t
}.
Record FwdEntry := mkFwd { fwd_addr : Z; fwd_storeCycle : Z }.
Record Lsu := mkLsu {
  loadQueue : ROB.t;
  storeQueue : ROB.t;
  lastStoreCommitCycle : Z;
  lastStoreAddrCommitCycle : Z;
  fwdArray : list FwdEntry
}.
Record MemOps := mkMem { loadAddrs : list Z; storeAddrs : list Z; loads : nat; stores : nat }.
Record Branch := mkBranch {
  branchPred : BP.t; branchPc : Z; branchTaken : bool; branchTakenNpc : Z; branchNotTakenNpc : Z
}.
Record Counters := mkCnt { instrs : Z; uops : Z; bbls : Z; approxInstrs : Z; mispredBranches : Z }.
Record OOOCore := mkCore {
  c_issue : Issue; c_lsu : Lsu; c_mem : MemOps; c_branch : Branch; c_cnt : Counters;
  phaseEndCycle : Z; prevBbl : option BblInfo
}.

Definition set_curCycle x (i : Issue) := mkIssue x (decodeCycle i) (uopQueue i) (curCycleRFReads i) (curCycleIssuedUops i) (regScoreboard i) (insWindow i) (rob i).
Definition set_decodeCycle x (i : Issue) := mkIssue (curCycle i) x (uopQueue i) (curCycleRFReads i) (curCycleIssuedUops i) (regScoreboard i) (insWindow i) (rob i).
Definition set_uopQueue x (i : Issue) := mkIssue (curCycle i) (decodeCycle i) x (curCycleRFReads i) (curCycleIssuedUops i) (regScoreboard i) (insWindow i) (rob i).
(** [curCycleRFReads] and [curCycleIssuedUops]. *)
Definition set_slots_used x y (i : Issue) := mkIssue (curCycle i) (decodeCycle i) (uopQueue i) x y (regScoreboard i) (insWindow i) (rob i).
Definition set_regScoreboard x (i : Issue) := mkIssue (curCycle i) (decodeCycle i) (uopQueue i) (curCycleRFReads i) (curCycleIssuedUops i) x (insWindow i) (rob i).
Definition set_window x y (i : Issue) := mkIssue x (decodeCycle i) (uopQueue i) (curCycleRFReads i) (curCycleIssuedUops i) (regScoreboard i) y (rob i).
Definition set_rob x (i : Issue) := mkIssue (curCycle i) (decodeCycle i) (uopQueue i) (curCycleRFReads i) (curCycleIssuedUops i) (regScoreboard i) (insWindow i) x.

Definition set_issue x (c : OOOCore) := mkCore x (c_lsu c) (c_mem c) (c_branch c) (c_cnt c) (phaseEndCycle c) (prevBbl c).
Definition set_lsu x (c : OOOCore) := mkCore (c_issue c) x (c_mem c) (c_branch c) (c_cnt c) (phaseEndCycle c) (prevBbl c).
Definition set_mem x (c : OOOCore) := mkCore (c_issue c) (c_lsu c) x (c_branch c) (c_cnt c) (phaseEndCycle c) (prevBbl c).
Definition set_branch x (c : OOOCore) := mkCore (c_issue c) (c_lsu c) (c_mem c) x (c_cnt c) (phaseEndCycle c) (prevBbl c).
Definition set_cnt x (c : OOOCore) := mkCore (c_issue c) (c_lsu c) (c_mem c) (c_branch c) x (phaseEndCycle c) (prevBbl c).
Definition set_phaseEndCycle x (c : OOOCore) := mkCore (c_issue c) (c_lsu c) (c_mem c) (c_branch c) (c_cnt c) x (prevBbl c).
Definition set_prevBbl x (c : OOOCore) := mkCore (c_issue c) (c_lsu c) (c_mem c) (c_branch c) (c_cnt c) (phaseEndCycle c) x.

(** [OOOCore::OOOCore]; [MAX_REGISTERS] comes from the instrumentation library. *)
Definition init_core (MAX_REGISTERS : nat) (phaseLength : Z) : OOOCore :=
  mkCore
    (mkIssue 0 DECODE_STAGE (Ring.init UQ_SZ) 0 0 (replicate MAX_REGISTERS 0) (Win.init IW_H) (ROB.init ROB_SZ))
    (mkLsu (ROB.init LSQ_SZ) (ROB.init LSQ_SZ) 0 0 (replicate FWD_ENTRIES (mkFwd NO_ADDR 0)))
    (mkMem (replicate 256 0) (replicate 256 0) 0 0)
    (mkBranch (BP.init BP_NB BP_LB) 0 false 0 0)
    (mkCnt 0 0 0 0 0) phaseLength None.

(** ** Decode, issue and dispatch of a uop *)
Definition win_op {B} (m : M Win.t B) : M Issue B := fun i =>
  match m (insWindow i) with
  | Ok (b, w) => Ok (b, set_window (curCycle i) w i)
  | Err f => Err f
  end.

(** [insWindow.advancePos(curCycle)]. *)
Definition advance1 : M Issue unit :=
  i ← mget;
  cyc ← win_op (Win.advancePos IW_H (curCycle i));
  mmodify (set_curCycle cyc).
Fixpoint advance_many (n : nat) : M Issue unit :=
  match n with
  | O => mret tt
  | Datatypes.S n => advance1;; advance_many n
  end.

Definition decode_stalls (prevDecCycle : Z) (uop : DynUop) : M Issue unit :=
  i ← mget;
  let decDiff := u32 (u_decCycle uop - prevDecCycle) in
  minAlloc ← mlift (CycleQueue.minAllocCycle (uopQueue i));
  let dec := MAX (decodeCycle i + decDiff) minAlloc in
  mmodify (set_decodeCycle dec);;
  (if dec >? curCycle i then
     let cdDiff := u32 (dec - curCycle i) in
     mmodify (set_slots_used 0 0);;
     advance_many (Z.to_nat cdDiff)
   else mret tt);;
  i ← mget;
  q ← mlift (CycleQueue.markLeave UQ_SZ (uopQueue i) (curCycle i));
  mmodify (set_uopQueue q).

Definition issue_width : M Issue unit :=
  i ← mget;
  (if curCycleIssuedUops i >=? ISSUES_PER_CYCLE
   then mmodify (set_slots_used 0 0);; advance1
   else mret tt);;
  mmodify (fun i => set_slots_used (curCycleRFReads i) (u32 (curCycleIssuedUops i + 1)) i).

(** The source operands' cycles, and the stalls for register file reads. *)
Definition read_regs (uop : DynUop) : M Issue (Z * Z) :=
  i ← mget;
  regs ← mlift (arr_set (regScoreboard i) 0 (curCycle i));
  mmodify (set_regScoreboard regs);;
  c0 ← mlift (arr_get regs (u_rs0 uop));
  c1 ← mlift (arr_get regs (u_rs1 uop));
  let reads := u32 (curCycleRFReads i + ((if c0 <? curCycle i then 1 else 0) + (if c1 <? curCycle i then 1 else 0))) in
  mmodify (fun i => set_slots_used reads (curCycleIssuedUops i) i);;
  (if reads >? RF_READS_PER_CYCLE
   then mmodify (set_slots_used (u32 (reads - RF_READS_PER_CYCLE)) 0);; advance1
   else mret tt);;
  mret (c0, c1).

(** The dispatch cycle: operands, the reorder buffer, the window's ports. *)
Definition dispatch (uop : DynUop) (c0 c1 : Z) : M Issue Z :=
  i ← mget;
  c2 ← mlift (ROB.minAllocCycle (rob i));
  let c3 := curCycle i in
  let cOps := MAX c0 c1 in
  let dispatchCycle := MAX cOps (MAX c2 c3 + (DISPATCH_STAGE - ISSUE_STAGE)) in
  '(cyc, dispatchCycle) ← win_op (Win.schedule IW_H IW_SZ c3 dispatchCycle (u_portMask uop) (u_extraSlots uop));
  mmodify (set_curCycle cyc);;
  (if cyc >? c3 then mmodify (set_slots_used 0 0) else mret tt);;
  mret dispatchCycle.

Definition issue_uop (prevDecCycle : Z) (uop : DynUop) : M Issue Z :=
  decode_stalls prevDecCycle uop;;
  issue_width;;
  '(c0, c1) ← read_regs uop;
  dispatch uop c0 c1.

(** The retirement of a uop and the registers it writes. *)
Definition retire_uop (uop : DynUop) (commitCycle : Z) : M Issue unit :=
  i ← mget;
  r ← mlift (ROB.markRetire ROB_SZ ROB_W (rob i) commitCycle);
  mmodify (set_rob r);;
  regs ← mlift (arr_set (regScoreboard i) (u_rd0 uop) commitCycle);
  regs ← mlift (arr_set regs (u_rd1 uop) commitCycle);
  mmodify (set_regScoreboard regs).

(** ** The load-store unit *)
Section Core.
Context {E : Type} `{CP : CorePorts E}.

Definition on_env {S B} (m : M E B) : M (S * E) B := fun '(s, e) =>
  match m e with Ok (b, e') => Ok (b, (s, e')) | Err f => Err f end.
Definition on_state {S B} (m : M S B) : M (S * E) B := fun '(s, e) =>
  match m s with Ok (b, s') => Ok (b, (s', e)) | Err f => Err f end.

Definition fwd_idx (addr : Z) : nat := Z.to_nat (Z.land (Z.shiftr addr 2) (Z.of_nat FWD_ENTRIES - 1)).

Definition lsu_load (cyc dispatchCycle addr : Z) : M (Lsu * E) Z :=
  l ← on_state mget;
  lqCycle ← on_state (mlift (ROB.minAllocCycle (loadQueue l)));
  let dispatchCycle := if lqCycle >? dispatchCycle then lqCycle else dispatchCycle in
  let dispatchCycle := MAX (lastStoreAddrCommitCycle l + 1) dispatchCycle in
  reqSatisfiedCycle ←
    (if negb (addr =? NO_ADDR) then
       r ← on_env (l1d_load addr dispatchCycle);
       let r := r + L1D_LAT in
       on_env (cRec_record cyc dispatchCycle r);; mret r
     else mret dispatchCycle);
  f ← on_state (mlift (arr_get (fwdArray l) (fwd_idx addr)));
  let commitCycle := if fwd_addr f =? addr then MAX reqSatisfiedCycle (fwd_storeCycle f) else reqSatisfiedCycle in
  q ← on_state (mlift (ROB.markRetire LSQ_SZ LSQ_W (loadQueue l) commitCycle));
  on_state (mmodify (fun l => mkLsu q (storeQueue l) (lastStoreCommitCycle l) (lastStoreAddrCommitCycle l) (fwdArray l)));;
  mret commitCycle.

Definition lsu_store (cyc dispatchCycle addr : Z) : M (Lsu * E) Z :=
  l ← on_state mget;
  sqCycle ← on_state (mlift (ROB.minAllocCycle (storeQueue l)));
  let dispatchCycle := if sqCycle >? dispatchCycle then sqCycle else dispatchCycle in
  let dispatchCycle := MAX (lastStoreAddrCommitCycle l + 1) dispatchCycle in
  r ← on_env (l1d_store addr dispatchCycle);
  let reqSatisfiedCycle := r + L1D_LAT in
  on_env (cRec_record cyc dispatchCycle reqSatisfiedCycle);;
  fwd ← on_state (mlift (arr_set (fwdArray l) (fwd_idx addr) (mkFwd addr reqSatisfiedCycle)));
  q ← on_state (mlift (ROB.markRetire LSQ_SZ LSQ_W (storeQueue l) reqSatisfiedCycle));
  on_state (mmodify (fun l => mkLsu (loadQueue l) q (MAX (lastStoreCommitCycle l) reqSatisfiedCycle) (lastStoreAddrCommitCycle l) fwd));;
  mret reqSatisfiedCycle.

Definition set_storeAddrCommit (x : Z) (l : Lsu) : Lsu :=
  mkLsu (loadQueue l) (storeQueue l) (lastStoreCommitCycle l) x (fwdArray l).

(** The switch on the uop's type; [addr] is the next recorded address of its
    kind. *)
Definition lsu_uop (uop : DynUop) (cyc dispatchCycle addr : Z) : M (Lsu * E) Z :=
  match u_type uop with
  | UOP_GENERAL => mret (dispatchCycle + u_lat uop)
  | UOP_LOAD => lsu_load cyc dispatchCycle addr
  | UOP_STORE => lsu_store cyc dispatchCycle addr
  | UOP_STORE_ADDR =>
    let commitCycle := dispatchCycle + u_lat uop in
    on_state (mmodify (fun l => set_storeAddrCommit (MAX (lastStoreAddrCommitCycle l) commitCycle) l));;
    mret commitCycle
  | UOP_FENCE =>
    let commitCycle := dispatchCycle + u_lat uop in
    on_state (mmodify (fun l => set_storeAddrCommit
      (MAX commitCycle (MAX (lastStoreAddrCommitCycle l) (lastStoreCommitCycle l + u_lat uop))) l));;
    mret commitCycle
  end.

(** ** The simulation of a block's uops *)
Definition CM := M (OOOCore * E).
Definition on_issue {B} (m : M Issue B) : CM B := fun '(c, e) =>
  match m (c_issue c) with Ok (b, i) => Ok (b, (set_issue i c, e)) | Err f => Err f end.
Definition on_lsu {B} (m : M (Lsu * E) B) : CM B := fun '(c, e) =>
  match m (c_lsu c, e) with Ok (b, (l, e')) => Ok (b, (set_lsu l c, e')) | Err f => Err f end.

(** [loadAddrs[loadIdx++]] and [storeAddrs[storeIdx++]]. *)
Definition next_addr (uop : DynUop) (mem : MemOps) (loadIdx storeIdx : nat) : res (Z * nat * nat) :=
  match u_type uop with
  | UOP_LOAD => a ← arr_get (loadAddrs mem) loadIdx; mret (a, Datatypes.S loadIdx, storeIdx)
  | UOP_STORE => a ← arr_get (storeAddrs mem) storeIdx; mret (a, loadIdx, Datatypes.S storeIdx)
  | _ => mret (0, loadIdx, storeIdx)
  end.

Definition run_uop (uop : DynUop) (prevDecCycle : Z) (loadIdx storeIdx : nat) : CM (Z * nat * nat) :=
  dispatchCycle ← on_issue (issue_uop prevDecCycle uop);
  '(c, _) ← mget;
  '(addr, loadIdx, storeIdx) ← mlift (next_addr uop (c_mem c) loadIdx storeIdx);
  commitCycle ← on_lsu (lsu_uop uop (curCycle (c_issue c)) dispatchCycle addr);
  on_issue (retire_uop uop commitCycle);;
  mret (commitCycle, loadIdx, storeIdx).

(** The loop over the uops: the last commit cycle and the indices reached. *)
Fixpoint run_uops (us : list DynUop) (prevDecCycle : Z) (loadIdx storeIdx : nat) (lastCommitCycle : Z)
    : CM (Z * nat * nat) :=
  match us with
  | [] => mret (lastCommitCycle, loadIdx, storeIdx)
  | u :: us =>
    '(commitCycle, loadIdx, storeIdx) ← run_uop u prevDecCycle loadIdx storeIdx;
    run_uops us (u_decCycle u) loadIdx storeIdx commitCycle
  end.

(** ** The front end *)
Context (lineBits : Z).
Definition lineSize : Z := Z.shiftl 1 lineBits.

(** The wrong-path fetches after a misprediction. *)
Fixpoint wrong_path (n : nat) (i wrongPathAddr cyc reqCycle lastCommitCycle : Z) : CM unit :=
  match n with
  | O => mret tt
  | Datatypes.S n =>
    r ← on_env (l1i_load (u64 (wrongPathAddr + u32 (lineSize * i))) cyc);
    let fetchLat := u64 (r - cyc) in
    on_env (cRec_record cyc cyc (cyc + fetchLat));;
    let respCycle := reqCycle + fetchLat in
    if respCycle >? lastCommitCycle then mret tt
    else wrong_path n (i + 1) wrongPathAddr cyc (respCycle + lineSize / FETCH_BYTES_PER_CYCLE) lastCommitCycle
  end.

(** The fetch of the block's lines: the new [fetchCycle]. *)
Fixpoint ifetch (fuel : nat) (fetchAddr endAddr cyc fetchCycle : Z) : CM Z :=
  if fetchAddr <? endAddr then
    match fuel with
    | O => fun _ => Err OutOfFuel
    | Datatypes.S fuel =>
      r ← on_env (l1i_load fetchAddr cyc);
      let fetchLat := u64 (r - cyc) in
      on_env (cRec_record cyc cyc (cyc + fetchLat));;
      ifetch fuel (u64 (fetchAddr + lineSize)) endAddr cyc (fetchCycle + fetchLat)
    end
  else mret fetchCycle.

Definition set_branchPred (b : BP.t) (x : Branch) : Branch :=
  mkBranch b (branchPc x) (branchTaken x) (branchTakenNpc x) (branchNotTakenNpc x).
Definition clear_branchPc (x : Branch) : Branch :=
  mkBranch (branchPred x) 0 (branchTaken x) (branchTakenNpc x) (branchNotTakenNpc x).
Definition inc_mispred (n : Counters) : Counters :=
  mkCnt (instrs n) (uops n) (bbls n) (approxInstrs n) (u64 (mispredBranches n + 1)).

(** [branchPc && !branchPred.predict(branchPc, branchTaken)]. *)
Definition predict_branch : CM bool := fun '(c, e) =>
  let b := c_branch c in
  if branchPc b =? 0 then Ok (false, (c, e))
  else match BP.predict BP_NB BP_HB BP_LB (branchPc b) (branchTaken b) (branchPred b) with
       | Ok (correct, p) => Ok (negb correct, (set_branch (set_branchPred p b) c, e))
       | Err f => Err f
       end.

Definition modify_core (f : OOOCore -> OOOCore) : CM unit := on_state (mmodify f).

(** Branch prediction: the cycle at which the right path is fetched. *)
Definition branch_fetch (fetchCycle lastCommitCycle : Z) : CM Z :=
  mispred ← predict_branch;
  fetchCycle ←
    (if (mispred : bool) then
       modify_core (fun c => set_cnt (inc_mispred (c_cnt c)) c);;
       '(c, _) ← mget;
       let b := c_branch c in
       let wrongPathAddr := if branchTaken b then branchNotTakenNpc b else branchTakenNpc b in
       wrong_path (Z.to_nat (5 * 64 / lineSize)) 0 wrongPathAddr (curCycle (c_issue c)) fetchCycle lastCommitCycle;;
       mret lastCommitCycle
     else mret fetchCycle);
  modify_core (fun c => set_branch (clear_branchPc (c_branch c)) c);;
  mret fetchCycle.

Definition frontend (bblAddr : Z) (bblInfo : BblInfo) (lastCommitCycle : Z) : CM unit :=
  '(c, _) ← mget;
  let fetchCycle := u64 (decodeCycle (c_issue c) - (DECODE_STAGE - FETCH_STAGE)) in
  fetchCycle ← branch_fetch fetchCycle lastCommitCycle;
  let endAddr := u64 (bblAddr + bi_bytes bblInfo) in
  '(c, _) ← mget;
  fetchCycle ← ifetch (Z.to_nat (bi_bytes bblInfo)) bblAddr endAddr (curCycle (c_issue c)) fetchCycle;
  modify_core (fun c =>
    let dec := decodeCycle (c_issue c) + 1 in
    let minFetchDecCycle := fetchCycle + (DECODE_STAGE - FETCH_STAGE) in
    set_issue (set_decodeCycle (if minFetchDecCycle >? dec then minFetchDecCycle else dec) (c_issue c)) c).

(** ** [OOOCore::bbl] *)
Definition add_counters (bblInstrs nuops approx : Z) (n : Counters) : Counters :=
  mkCnt (u64 (instrs n + bblInstrs)) (u64 (uops n + nuops)) (u64 (bbls n + 1))
    (u64 (approxInstrs n + approx)) (mispredBranches n).
Definition clear_mem (m : MemOps) : MemOps := mkMem (loadAddrs m) (storeAddrs m) 0 0.

Definition bbl (bblAddr : Z) (bblInfo : BblInfo) : CM unit :=
  '(c, _) ← mget;
  match prevBbl c with
  | None => modify_core (fun c => set_mem (clear_mem (c_mem c)) (set_prevBbl (Some bblInfo) c))
  | Some prev =>
    let b := bi_oooBbl prev in
    modify_core (set_prevBbl (Some bblInfo));;
    '(lastCommitCycle, loadIdx, storeIdx) ← run_uops (db_uop b) 0 0 0 0;
    modify_core (fun c => set_cnt
      (add_counters (bi_instrs prev) (Z.of_nat (length (db_uop b))) (db_approxInstrs b) (c_cnt c)) c);;
    '(c, _) ← mget;
    massert (loadIdx =? loads (c_mem c))%nat "loadIdx != loads";;
    massert (storeIdx =? stores (c_mem c))%nat "storeIdx != stores";;
    modify_core (fun c => set_mem (clear_mem (c_mem c)) c);;
    frontend bblAddr bblInfo lastCommitCycle
  end.

(** ** The other entry points *)
Definition load (addr : Z) : CM unit :=
  '(c, _) ← mget;
  let m := c_mem c in
  l ← mlift (arr_set (loadAddrs m) (loads m) addr);
  modify_core (set_mem (mkMem l (storeAddrs m) (Datatypes.S (loads m)) (stores m))).
Definition store (addr : Z) : CM unit :=
  '(c, _) ← mget;
  let m := c_mem c in
  l ← mlift (arr_set (storeAddrs m) (stores m) addr);
  modify_core (set_mem (mkMem (loadAddrs m) l (loads m) (Datatypes.S (stores m)))).
Definition predFalseMemOp : CM unit := load NO_ADDR.
Definition PredLoadFunc (addr : Z) (pred : bool) : CM unit := if pred then load addr else predFalseMemOp.
Definition PredStoreFunc (addr : Z) (pred : bool) : CM unit := if pred then store addr else predFalseMemOp.

Definition branch (pc : Z) (taken : bool) (takenNpc notTakenNpc : Z) : CM unit :=
  modify_core (fun c => set_branch (mkBranch (branchPred (c_branch c)) pc taken takenNpc notTakenNpc) c).

Definition contextSwitch (gid : Z) : CM unit :=
  if gid =? -1 then
    modify_core (set_prevBbl None);;
    on_env l1i_contextSwitch;;
    on_env l1d_contextSwitch
  else mret tt.

(** [OOOCore::advance]. *)
Definition advance (targetCycle : Z) : M Issue unit :=
  i ← mget;
  massert (curCycle i <? targetCycle) "targetCycle > curCycle";;
  mmodify (set_decodeCycle (decodeCycle i + (targetCycle - curCycle i)));;
  cyc ← win_op (Win.longAdvance IW_H (curCycle i) targetCycle);
  mmodify (set_curCycle cyc);;
  mmodify (set_slots_used 0 0);;
  massert (targetCycle =? cyc) "targetCycle == curCycle".

Definition advance_to (targetCycle : Z) : CM unit :=
  '(c, _) ← mget;
  if targetCycle >? curCycle (c_issue c) then on_issue (advance targetCycle) else mret tt.

Definition join (globPhaseCycles phaseLength : Z) : CM unit :=
  '(c, _) ← mget;
  targetCycle ← on_env (cRec_notifyJoin (curCycle (c_issue c)));
  advance_to targetCycle;;
  modify_core (set_phaseEndCycle (globPhaseCycles + phaseLength)).
Definition leave : CM unit :=
  '(c, _) ← mget;
  on_env (cRec_notifyLeave (curCycle (c_issue c))).
Definition cSim (op : Z -> M E Z) : CM unit :=
  '(c, _) ← mget;
  targetCycle ← on_env (op (curCycle (c_issue c)));
  massert (curCycle (c_issue c) <=? targetCycle) "targetCycle >= curCycle";;
  advance_to targetCycle.
Definition cSimStart : CM unit := cSim cRec_cSimStart.
Definition cSimEnd : CM unit := cSim cRec_cSimEnd.

Definition getInstrs (c : OOOCore) : Z := instrs (c_cnt c).
Definition getPhaseCycles (phaseLength : Z) (c : OOOCore) : Z := curCycle (c_issue c) mod phaseLength.

End Core.
