(* ===== verification/OOOCoreInv.v ===== *)
(** * The out-of-order core: invariant and specifications of the stages

    [T] bounds every time stamp that the core and its ports hold: no port of the
    instruction window is reserved from [T] on.  Each stage is total, keeps the
    invariant and moves the bound by a known amount. *)

From S2P Require Import Prelude Bithacks InsWindow OOOStructs OOOCore.

(** ** Program logic of the state components *)
Section Lift.
Context {E S B : Type}.

Lemma wp_on_env (m : M E B) Q (s : S) e : wp m (fun b e' => Q b (s, e')) e -> wp (on_env m) Q (s, e).
Proof. unfold wp, on_env. by destruct (m e) as [[b e']|]. Qed.
Lemma wp_on_state (m : M S B) Q (s : S) (e : E) : wp m (fun b s' => Q b (s', e)) s -> wp (on_state m) Q (s, e).
Proof. unfold wp, on_state. by destruct (m s) as [[b s']|]. Qed.
Lemma wp_on_issue (m : M Issue B) Q c (e : E) :
  wp m (fun b i => Q b (set_issue i c, e)) (c_issue c) -> wp (on_issue m) Q (c, e).
Proof. unfold wp, on_issue. by destruct (m (c_issue c)) as [[b i]|]. Qed.
Lemma wp_on_lsu (m : M (Lsu * E) B) Q c (e : E) :
  wp m (fun b le => Q b (set_lsu le.1 c, le.2)) (c_lsu c, e) -> wp (on_lsu m) Q (c, e).
Proof. unfold wp, on_lsu. by destruct (m (c_lsu c, e)) as [[b [l e']]|]. Qed.
Lemma wp_win_op (m : M Win.t B) Q i :
  wp m (fun b w => Q b (set_window (curCycle i) w i)) (insWindow i) -> wp (win_op m) Q i.
Proof. unfold wp, win_op. by destruct (m (insWindow i)) as [[b w]|]. Qed.
Lemma wp_lift_ok (r : res B) b Q (s : S) : r = Ok b -> Q b s -> wp (mlift r) Q s.
Proof. unfold wp, mlift. by intros ->. Qed.
End Lift.

Lemma IW_H_ok : 0 < IW_H < 2 ^ 30. Proof. done. Qed.
Lemma IW_SZ_ok : 0 < IW_SZ < two32. Proof. done. Qed.
Lemma ROB_W_ok : 0 < ROB_W < two32. Proof. done. Qed.
Lemma LSQ_W_ok : 0 < LSQ_W < two32. Proof. done. Qed.

#[global] Opaque IW_H IW_SZ ROB_SZ LSQ_SZ UQ_SZ FWD_ENTRIES.

(** ** Time stamps up to [T] *)
Definition upto (T x : Z) : Prop := 0 <= x <= T.

Lemma upto_mono T T' l : T <= T' -> Forall (upto T) l -> Forall (upto T') l.
Proof. intros. eapply Forall_impl; [|done]. unfold upto. intros; lia. Qed.

Record RingOk (SZ : nat) (T : Z) (r : Ring.t) : Prop := {
  ri_ok : Ring.Ok_ring SZ r;
  ri_upto : Forall (upto T) (Ring.view r)
}.
Record RobOk (SZ : nat) (W T : Z) (r : ROB.t) : Prop := {
  ro_inv : ROB.Inv SZ W r;
  ro_upto : Forall (upto T) (Ring.view (ROB.ring r));
  ro_cur : upto T (ROB.curRetireCycle r)
}.

Lemma RingOk_mono SZ T T' r : T <= T' -> RingOk SZ T r -> RingOk SZ T' r.
Proof. intros ? [? ?]. split; [done|by eapply upto_mono]. Qed.
Lemma RobOk_mono SZ W T T' r : T <= T' -> RobOk SZ W T r -> RobOk SZ W T' r.
Proof. intros ? [? ? ?]. split; [done|by eapply upto_mono|]. unfold upto in *. lia. Qed.

Lemma RingOk_top SZ T r : RingOk SZ T r -> exists x, CycleQueue.minAllocCycle r = Ok x /\ upto T x.
Proof.
  intros [R1 R2]. destruct (Ring.top_spec SZ r R1) as (x&l&Hx&Ht). exists x. split; [done|].
  rewrite Hx in R2. by apply Forall_cons_1 in R2 as [? _].
Qed.
Lemma RingOk_push SZ T r x : RingOk SZ T r -> upto T x ->
  exists r', CycleQueue.markLeave SZ r x = Ok r' /\ RingOk SZ T r'.
Proof.
  intros [R1 R2] Hx. destruct (Ring.push_spec SZ r x R1) as (r'&y&l&He&Hr&Hv&Hv').
  exists r'. split; [done|]. split; [done|]. rewrite Hv'. rewrite Hv in R2.
  apply Forall_app. split; [by apply Forall_cons_1 in R2 as [_ ?]|by constructor].
Qed.
Lemma RobOk_top SZ W T r : RobOk SZ W T r -> exists x, ROB.minAllocCycle r = Ok x /\ upto T x.
Proof. intros [[R1 _] R2 _]. apply (RingOk_top SZ T). by split. Qed.

(** Retiring at [c] ends at or after [c], not before the uops retired so far. *)
Lemma RobOk_mark SZ W T T' r c : 0 < W < two32 -> RobOk SZ W T r -> T < T' -> upto T' c ->
  exists r', ROB.markRetire SZ W r c = Ok r' /\ RobOk SZ W T' r' /\
    c <= ROB.curRetireCycle r' /\ ROB.curRetireCycle r <= ROB.curRetireCycle r'.
Proof.
  intros HW [R1 R2 R3] HT Hc.
  destruct (ROB.markRetire_spec SZ W HW r c R1) as (r'&y&l&He&HI&Hv&Hv'&Hge&Hm&_).
  exists r'. unfold upto in *. split; [done|]. split; [split; [done| |unfold upto; lia]|lia].
  rewrite Hv'. rewrite Hv in R2. apply Forall_app. split.
  - apply Forall_cons_1 in R2 as [_ R2]. eapply upto_mono; [|done]. lia.
  - constructor; [|constructor]. unfold upto. lia.
Qed.

(** ** The issue stages *)
Section IssueStages.
Context (NREG : nat) (HNREG : (0 < NREG)%nat).

Record IssueOk (T : Z) (i : Issue) : Prop := {
  io_win : Win.Inv IW_H IW_SZ (insWindow i) (curCycle i);
  io_zero : Win.zero_from (Win.view IW_H (insWindow i) (curCycle i)) T;
  io_cur : upto T (curCycle i);
  io_dec : DECODE_STAGE <= decodeCycle i <= T;
  io_uq : RingOk UQ_SZ T (uopQueue i);
  io_rf : 0 <= curCycleRFReads i <= RF_READS_PER_CYCLE;
  io_iss : 0 <= curCycleIssuedUops i <= ISSUES_PER_CYCLE;
  io_regs : length (regScoreboard i) = NREG;
  io_regsT : Forall (upto T) (regScoreboard i);
  io_rob : RobOk ROB_SZ ROB_W T (rob i)
}.

Lemma IssueOk_mono T T' i : T <= T' -> IssueOk T i -> IssueOk T' i.
Proof.
  clear HNREG. intros HT [I1 I2 I3 I4 I5 I6 I7 I8 I9 I10]. unfold upto in *.
  split; try done; try (unfold upto; lia); [by eapply Win.zero_from_mono|by eapply RingOk_mono| |by eapply RobOk_mono].
  by eapply upto_mono.
Qed.

Lemma advance1_spec T i : IssueOk T i -> curCycle i + 1 <= T ->
  wp advance1 (fun _ i' => exists w, i' = set_window (curCycle i + 1) w i /\ IssueOk T i') i.
Proof.
  intros [I1 I2 I3 I4 I5 I6 I7 I8 I9 I10] HT. unfold advance1. apply wp_bind, wp_get, wp_bind, wp_win_op.
  eapply wp_mono; [by apply (Win.advancePos_spec IW_H IW_SZ IW_H_ok IW_SZ_ok)|].
  intros cyc w (->&HI&Hv&_&_). apply wp_modify. exists w. split; [done|]. unfold upto in *.
  split; cbn; try done; try (unfold upto; lia).
  intros c Hc. destruct (decide (c < curCycle i + 1)); [by apply Win.view_past|].
  rewrite Hv by lia. by apply I2.
Qed.

Lemma advance_many_spec T n i : IssueOk T i -> curCycle i + Z.of_nat n <= T ->
  wp (advance_many n) (fun _ i' => exists w, i' = set_window (curCycle i + Z.of_nat n) w i /\ IssueOk T i') i.
Proof.
  revert i. induction n as [|n IH]; intros i HI HT; cbn [advance_many].
  { apply wp_ret. exists (insWindow i). rewrite Z.add_0_r. by destruct i. }
  apply wp_bind. eapply wp_mono; [apply advance1_spec; [done|lia]|].
  intros [] i1 (w&->&HI1). eapply wp_mono; [apply IH; [done|cbn; lia]|].
  intros [] i2 (w'&->&HI2). exists w'. split; [|done]. cbn.
  replace (curCycle i + Z.of_nat (Datatypes.S n)) with (curCycle i + 1 + Z.of_nat n) by lia. done.
Qed.

(** The parts of the stage's state that no stall touches. *)
Definition regs_rob (i i' : Issue) : Prop :=
  regScoreboard i' = regScoreboard i /\ rob i' = rob i /\ curCycle i <= curCycle i' /\ decodeCycle i <= decodeCycle i'.

Lemma IssueOk_slots T x y i : IssueOk T i -> 0 <= x <= RF_READS_PER_CYCLE -> 0 <= y <= ISSUES_PER_CYCLE ->
  IssueOk T (set_slots_used x y i).
Proof. intros [I1 I2 I3 I4 I5 I6 I7 I8 I9 I10] Hx Hy. by split. Qed.

Lemma decode_stalls_spec T prev uop i : IssueOk T i -> 0 <= prev <= u_decCycle uop -> u_decCycle uop < 65536 ->
  T + (u_decCycle uop - prev) - curCycle i < 2 ^ 31 ->
  wp (decode_stalls prev uop) (fun _ i' => IssueOk (T + (u_decCycle uop - prev)) i' /\ regs_rob i i') i.
Proof.
  intros HI Hp Hd Hb. set (T1 := T + (u_decCycle uop - prev)) in *.
  assert (HI1 : IssueOk T1 i) by (eapply IssueOk_mono; [|done]; lia).
  pose proof (io_cur _ _ HI) as Hc. pose proof (io_dec _ _ HI) as Hdec.
  unfold decode_stalls. apply wp_bind, wp_get.
  destruct (RingOk_top _ _ _ (io_uq _ _ HI)) as (x&Ex&Hx). unfold upto in *.
  apply wp_bind. eapply wp_lift_ok; [exact Ex|]. rewrite u32_small by (unfold two32; lia). rewrite MAX_max.
  set (dec := Z.max _ x). apply wp_bind, wp_modify, wp_bind.
  assert (HId : IssueOk T1 (set_decodeCycle dec i)).
  { destruct HI1. split; try done. cbn. lia. }
  eapply (wp_mono _ (fun _ i' => IssueOk T1 i' /\ regs_rob (set_decodeCycle dec i) i')).
  - rewrite Z.gtb_ltb. destruct (Z.ltb_spec (curCycle i) dec) as [Hlt|Hge]; [|by apply wp_ret].
    rewrite u32_small by (unfold two32; lia). apply wp_bind, wp_modify.
    eapply wp_mono; [apply (advance_many_spec T1)|].
    + apply IssueOk_slots; [done|unfold RF_READS_PER_CYCLE, ISSUES_PER_CYCLE; lia..].
    + cbn. lia.
    + intros [] i' (w&->&HI'). split; [done|]. unfold regs_rob. cbn. split_and!; try done; lia.
  - intros [] i' [HI' (R1&R2&R3&R4)]. apply wp_bind, wp_get, wp_bind.
    destruct (RingOk_push UQ_SZ T1 (uopQueue i') (curCycle i') (io_uq _ _ HI') (io_cur _ _ HI')) as (q&Eq&Hq).
    eapply wp_lift_ok; [exact Eq|]. apply wp_modify. split.
    + destruct HI'. by split.
    + cbn in R4. unfold regs_rob. cbn in *. split_and!; try done. lia.
Qed.

Lemma issue_width_spec T i : IssueOk T i ->
  wp issue_width (fun _ i' => IssueOk (T + 1) i' /\ regs_rob i i') i.
Proof.
  intros HI. assert (HI1 : IssueOk (T + 1) i) by (eapply IssueOk_mono; [|done]; lia).
  pose proof (io_cur _ _ HI) as Hc. pose proof (io_iss _ _ HI) as Hi. pose proof (io_rf _ _ HI) as Hr.
  unfold upto, ISSUES_PER_CYCLE, RF_READS_PER_CYCLE in *.
  unfold issue_width. apply wp_bind, wp_get, wp_bind. rewrite Z.geb_leb.
  destruct (Z.leb_spec ISSUES_PER_CYCLE (curCycleIssuedUops i)) as [Hge|Hlt]; unfold ISSUES_PER_CYCLE in *.
  - apply wp_bind, wp_modify. eapply wp_mono; [apply (advance1_spec (T + 1))|].
    + apply IssueOk_slots; [done|unfold RF_READS_PER_CYCLE, ISSUES_PER_CYCLE; lia..].
    + cbn. lia.
    + intros [] i' (w&->&HI'). apply wp_modify. cbn. split; [|unfold regs_rob; cbn; split_and!; try done; lia].
      apply IssueOk_slots; [done|done|done].
  - apply wp_ret, wp_modify. rewrite u32_small by (unfold two32; lia).
    split; [|unfold regs_rob; cbn; split_and!; try done; lia].
    apply IssueOk_slots; [done|unfold RF_READS_PER_CYCLE, ISSUES_PER_CYCLE; lia..].
Qed.

(** The operands read, register 0 standing for "no dependence". *)
Definition operand (regs : list Z) (r : nat) (c : Z) : Prop := r <> 0%nat -> regs !!! r = c.

Lemma read_regs_spec T uop i : IssueOk T i -> (u_rs0 uop < NREG)%nat -> (u_rs1 uop < NREG)%nat ->
  wp (read_regs uop) (fun r i' => IssueOk (T + 1) i' /\
    regScoreboard i' = <[0%nat := curCycle i]> (regScoreboard i) /\ rob i' = rob i /\
    curCycle i <= curCycle i' /\ decodeCycle i' = decodeCycle i /\
    upto T r.1 /\ upto T r.2 /\
    operand (regScoreboard i) (u_rs0 uop) r.1 /\ operand (regScoreboard i) (u_rs1 uop) r.2) i.
Proof.
  intros HI H0 H1. pose proof (io_cur _ _ HI) as Hc. pose proof (io_rf _ _ HI) as Hr. pose proof (io_regs _ _ HI) as Hl.
  unfold read_regs. apply wp_bind, wp_get, wp_bind, wp_arr_set_lt; [lia|].
  set (regs := <[0%nat := curCycle i]> (regScoreboard i)).
  assert (Hlen : length regs = NREG) by (unfold regs; by rewrite length_insert).
  assert (HT : Forall (upto T) regs) by (apply Forall_insert; [apply HI|done]).
  assert (Hin : forall r, (r < NREG)%nat -> upto T (regs !!! r)).
  { intros r Hrr. eapply Forall_lookup_total_1; [done|lia]. }
  assert (Hop : forall r, operand (regScoreboard i) r (regs !!! r)).
  { intros r Hne. unfold regs. by rewrite list_lookup_total_insert_ne by done. }
  apply wp_bind, wp_modify, wp_bind. eapply wp_arr_get_lt; [lia|]. apply wp_bind. eapply wp_arr_get_lt; [lia|].
  set (c0 := regs !!! u_rs0 uop). set (c1 := regs !!! u_rs1 uop).
  assert (HIr : IssueOk T (set_regScoreboard regs i)) by (destruct HI; by split).
  unfold RF_READS_PER_CYCLE in *.
  assert (E : exists k, 0 <= k <= 2 /\
    ((if c0 <? curCycle i then 1 else 0) + (if c1 <? curCycle i then 1 else 0)) = k).
  { eexists; split; [|reflexivity]. repeat case_match; lia. }
  destruct E as (k&Hk&->). apply wp_bind, wp_modify, wp_bind.
  rewrite u32_small by (unfold two32; lia). rewrite Z.gtb_ltb.
  destruct (Z.ltb_spec 3 (curCycleRFReads i + k)) as [Hgt|Hle].
  - apply wp_bind, wp_modify. rewrite u32_small by (unfold two32; lia).
    eapply wp_mono; [apply (advance1_spec (T + 1))|].
    + change (IssueOk (T + 1) (set_slots_used (curCycleRFReads i + k - 3) 0 (set_regScoreboard regs i))).
      apply IssueOk_slots; [eapply (IssueOk_mono T); [lia|done]|unfold RF_READS_PER_CYCLE, ISSUES_PER_CYCLE; lia..].
    + cbn. unfold upto in *. lia.
    + intros [] i' (w&->&HI'). apply wp_ret. cbn [fst snd]. split_and!; try done; try (by apply Hin); try (by apply Hop).
      cbn. lia.
  - apply wp_ret, wp_ret. cbn [fst snd]. split_and!; try done; try (by apply Hin); try (by apply Hop).
    eapply (IssueOk_mono T); [lia|]. destruct HIr. split; try done; cbn; unfold RF_READS_PER_CYCLE; lia.
Qed.

(** The uops a decoder may produce. *)
Record UopOk (uop : DynUop) : Prop := {
  uo_rs0 : (u_rs0 uop < NREG)%nat;
  uo_rs1 : (u_rs1 uop < NREG)%nat;
  uo_rd0 : (u_rd0 uop < NREG)%nat;
  uo_rd1 : (u_rd1 uop < NREG)%nat;
  uo_lat : 0 <= u_lat uop;
  uo_dec : 0 <= u_decCycle uop < 65536;
  uo_mask : 0 < u_portMask uop < 256;
  uo_extra : 0 <= u_extraSlots uop
}.

Lemma dispatch_spec T uop c0 c1 i : IssueOk T i -> UopOk uop -> upto T c0 -> upto T c1 ->
  T + 7 + u_extraSlots uop - curCycle i < 2 ^ 31 ->
  wp (dispatch uop c0 c1) (fun d i' => IssueOk (T + 7 + u_extraSlots uop) i' /\ regs_rob i i' /\
    c0 <= d /\ c1 <= d /\ curCycle i' <= d /\ curCycle i + 6 <= d /\ d <= T + 6) i.
Proof.
  intros HI HU H0 H1 Hb. pose proof (io_cur _ _ HI) as Hc. pose proof (uo_extra _ HU) as Hx.
  unfold upto in *. unfold dispatch. apply wp_bind, wp_get.
  destruct (RobOk_top _ _ _ _ (io_rob _ _ HI)) as (c2&E2&H2). apply wp_bind. eapply wp_lift_ok; [exact E2|].
  rewrite !MAX_max. unfold upto, DISPATCH_STAGE, ISSUE_STAGE in *. set (sc := Z.max (Z.max c0 c1) _).
  apply wp_bind, wp_win_op.
  eapply wp_mono; [apply (Win.schedule_spec IW_H IW_SZ IW_H_ok IW_SZ_ok _ _ _ _ _ T); try apply HI; try apply HU; lia|].
  intros [cyc d] w (HW&[es HS]&_). cbn [fst snd] in *. destruct HS as [S1 S2 S3 S4 S5 S6 S7 S8 S9].
  destruct (S9 T (io_zero _ _ HI)) as (B1&B2&B3).
  apply wp_bind, wp_modify, wp_bind.
  assert (HI' : forall x y, 0 <= x <= RF_READS_PER_CYCLE -> 0 <= y <= ISSUES_PER_CYCLE ->
    IssueOk (T + 7 + u_extraSlots uop) (set_slots_used x y (set_curCycle cyc (set_window (curCycle i) w i)))).
  { intros x y Hx' Hy'. pose proof (IssueOk_mono T (T + 7 + u_extraSlots uop) i ltac:(lia) HI) as [J1 J2 J3 J4 J5 J6 J7 J8 J9 J10].
    split; try done; cbn; [|unfold upto; lia]. eapply Win.zero_from_mono; [exact B3|lia]. }
  eapply (wp_mono _ (fun _ i' => IssueOk (T + 7 + u_extraSlots uop) i' /\ regs_rob i i' /\ curCycle i' = cyc)).
  - destruct (cyc >? curCycle i).
    + apply wp_modify. split; [apply HI'; unfold RF_READS_PER_CYCLE, ISSUES_PER_CYCLE; lia|].
      unfold regs_rob. cbn. split_and!; try done; lia.
    + apply wp_ret. split; [|unfold regs_rob; cbn; split_and!; try done; lia].
      exact (HI' _ _ (io_rf _ _ HI) (io_iss _ _ HI)).
  - intros [] i' (HI2&HR&Hcy). apply wp_ret. split_and!; try done; lia.
Qed.

(** Decode to dispatch: the bound moves by the decode distance, nine cycles and
    the extra slots; the dispatch cycle respects the operands. *)
Lemma issue_uop_spec T prev uop i : IssueOk T i -> UopOk uop -> 0 <= prev <= u_decCycle uop ->
  T + (u_decCycle uop - prev) + 9 + u_extraSlots uop - curCycle i < 2 ^ 31 ->
  wp (issue_uop prev uop) (fun d i' => IssueOk (T + (u_decCycle uop - prev) + 9 + u_extraSlots uop) i' /\
    (exists x, regScoreboard i' = <[0%nat := x]> (regScoreboard i)) /\ rob i' = rob i /\
    curCycle i <= curCycle i' /\ decodeCycle i <= decodeCycle i' /\
    (u_rs0 uop <> 0%nat -> regScoreboard i !!! u_rs0 uop <= d) /\
    (u_rs1 uop <> 0%nat -> regScoreboard i !!! u_rs1 uop <= d) /\
    curCycle i' <= d /\ curCycle i + 6 <= d <= T + (u_decCycle uop - prev) + 8) i.
Proof.
  intros HI HU Hp Hb. pose proof (uo_dec _ HU). pose proof (uo_extra _ HU). unfold issue_uop.
  apply wp_bind. eapply wp_mono; [apply decode_stalls_spec; [done|done|lia|lia]|].
  intros [] i1 (HI1&R1&R2&R3&R4). apply wp_bind. eapply wp_mono; [by apply issue_width_spec|].
  intros [] i2 (HI2&Q1&Q2&Q3&Q4). apply wp_bind. eapply wp_mono; [apply read_regs_spec; [done|apply HU|apply HU]|].
  intros [c0 c1] i3 (HI3&V1&V2&V3&V4&V5&V6&V7&V8). cbn [fst snd] in *.
  eapply wp_mono; [apply (dispatch_spec (T + (u_decCycle uop - prev) + 1 + 1)); [done|done|unfold upto in *; lia..|lia]|].
  intros d i4 (HI4&(W1&W2&W3&W4)&D1&D2&D3&D4&D5).
  assert (Er : regScoreboard i2 = regScoreboard i) by congruence. rewrite Er in *.
  split_and!; try lia; try congruence.
  - eapply IssueOk_mono; [|exact HI4]. lia.
  - exists (curCycle i2). congruence.
  - intros Hne. rewrite (V7 Hne). done.
  - intros Hne. rewrite (V8 Hne). done.
Qed.

Lemma retire_uop_spec T T' uop commit i : IssueOk T i -> UopOk uop -> T < T' -> upto T' commit ->
  wp (retire_uop uop commit) (fun _ i' => IssueOk T' i' /\
    regScoreboard i' = <[u_rd1 uop := commit]> (<[u_rd0 uop := commit]> (regScoreboard i)) /\
    curCycle i' = curCycle i /\ decodeCycle i' = decodeCycle i /\
    commit <= ROB.curRetireCycle (rob i') /\ ROB.curRetireCycle (rob i) <= ROB.curRetireCycle (rob i')) i.
Proof.
  intros HI HU HT Hc. pose proof (io_regs _ _ HI) as Hl. unfold retire_uop. apply wp_bind, wp_get.
  destruct (RobOk_mark ROB_SZ ROB_W T T' (rob i) commit ROB_W_ok (io_rob _ _ HI) HT Hc) as (r&Er&Hr&Hr1&Hr2).
  apply wp_bind. eapply wp_lift_ok; [exact Er|]. apply wp_bind, wp_modify, wp_bind, wp_arr_set_lt.
  { rewrite Hl. apply HU. }
  apply wp_bind, wp_arr_set_lt; [rewrite length_insert, Hl; apply HU|]. apply wp_modify.
  split_and!; try done.
  pose proof (IssueOk_mono T T' i ltac:(lia) HI) as [J1 J2 J3 J4 J5 J6 J7 J8 J9 J10]. split; try done; cbn.
  - by rewrite !length_insert.
  - by repeat apply Forall_insert.
Qed.
End IssueStages.
