(* ===== verification/OOOCoreThms.v ===== *)
(** * The out-of-order core: theorems

    The simulation of a block is total and bounded in time, for any caches that
    keep the laws of [CorePortsLaws]. *)

From S2P Require Import Prelude Bithacks InsWindow OOOStructs OOOCore OOOCoreInv.

(** What the core relies on: the caches answer, not before the request and within
    [port_lat] cycles of the latest time stamp, for addresses they accept and
    cycles below [cycle_limit]; recording an access changes nothing the caches rely
    on. *)
Class CorePortsLaws (E : Type) `{CP : CorePorts E} := {
  env_ok : Z -> E -> Prop;
  port_lat : Z;
  cycle_limit : Z;
  iaddr_ok : Z -> Prop;
  daddr_ok : Z -> Prop;
  port_lat_nonneg : 0 <= port_lat;
  cycle_limit_64 : cycle_limit + port_lat <= two64;
  env_mono T T' e : env_ok T e -> T <= T' -> env_ok T' e;
  l1i_load_law T e a c : env_ok T e -> iaddr_ok a -> upto T c -> T < cycle_limit ->
    wp (l1i_load a c) (fun r e' => c <= r <= T + port_lat /\ env_ok (T + port_lat) e') e;
  l1d_load_law T e a c : env_ok T e -> daddr_ok a -> upto T c -> T < cycle_limit ->
    wp (l1d_load a c) (fun r e' => c <= r <= T + port_lat /\ env_ok (T + port_lat) e') e;
  l1d_store_law T e a c : env_ok T e -> daddr_ok a -> upto T c -> T < cycle_limit ->
    wp (l1d_store a c) (fun r e' => c <= r <= T + port_lat /\ env_ok (T + port_lat) e') e;
  record_law T e cur disp resp : env_ok T e -> cur <= disp <= resp ->
    wp (cRec_record cur disp resp) (fun _ e' => env_ok T e') e
}.

Section Thms.
Context {E : Type} `{CL : CorePortsLaws E}.
Context (NREG : nat) (HNREG : (0 < NREG)%nat).
Implicit Types (e : E) (c : OOOCore) (T : Z).

(** ** The load-store unit *)
Record LsuOk (T : Z) (l : Lsu) : Prop := {
  lo_lq : RobOk LSQ_SZ LSQ_W T (loadQueue l);
  lo_sq : RobOk LSQ_SZ LSQ_W T (storeQueue l);
  lo_st : upto T (lastStoreCommitCycle l);
  lo_sta : upto T (lastStoreAddrCommitCycle l);
  lo_fwd : length (fwdArray l) = FWD_ENTRIES;
  lo_fwdT : Forall (fun f => upto T (fwd_storeCycle f)) (fwdArray l)
}.

Lemma LsuOk_mono T T' l : T <= T' -> LsuOk T l -> LsuOk T' l.
Proof.
  intros HT [L1 L2 L3 L4 L5 L6]. split; try done; try (by eapply RobOk_mono); try (unfold upto in *; lia).
  eapply Forall_impl; [|done]. unfold upto. simpl. intros; lia.
Qed.

Lemma fwd_idx_lt a : (fwd_idx a < FWD_ENTRIES)%nat.
Proof.
  unfold fwd_idx. pose proof (land_le_l (Z.of_nat FWD_ENTRIES - 1) (Z.shiftr a 2)) as Hl.
  rewrite Z.land_comm. Transparent FWD_ENTRIES. unfold FWD_ENTRIES in *. lia.
Qed.
#[local] Opaque FWD_ENTRIES.

Definition addr_of (uop : DynUop) (a : Z) : Prop :=
  match u_type uop with
  | UOP_LOAD => a = NO_ADDR \/ daddr_ok a
  | UOP_STORE => daddr_ok a
  | _ => True
  end.

(** The cycles that the execution of a uop takes at least. *)
Definition exec_lat (uop : DynUop) (a : Z) : Z :=
  match u_type uop with
  | UOP_LOAD => if a =? NO_ADDR then 0 else L1D_LAT
  | UOP_STORE => L1D_LAT
  | _ => u_lat uop
  end.

(** Memory order: a load or store waits for the earlier store addresses, a load
    for the data of a store to its address, a fence orders the later ones. *)
Definition mem_order (uop : DynUop) (a commit : Z) (l l' : Lsu) : Prop :=
  match u_type uop with
  | UOP_LOAD => lastStoreAddrCommitCycle l < commit /\
      (forall f, fwdArray l !! fwd_idx a = Some f -> fwd_addr f = a -> fwd_storeCycle f <= commit)
  | UOP_STORE => lastStoreAddrCommitCycle l < commit /\
      fwdArray l' !! fwd_idx a = Some (mkFwd a commit) /\ commit <= lastStoreCommitCycle l'
  | UOP_STORE_ADDR => commit <= lastStoreAddrCommitCycle l'
  | UOP_FENCE => commit <= lastStoreAddrCommitCycle l' /\
      lastStoreCommitCycle l + u_lat uop <= lastStoreAddrCommitCycle l'
  | UOP_GENERAL => l' = l
  end.

Definition LsuPost (T : Z) (uop : DynUop) (a d : Z) (l : Lsu) (commit : Z) (le : Lsu * E) : Prop :=
  LsuOk T le.1 /\ env_ok T le.2 /\ d + exec_lat uop a <= commit <= T /\ mem_order uop a commit l le.1.

Lemma lsu_load_spec T uop cyc d a l e : LsuOk T l -> env_ok T e -> u_type uop = UOP_LOAD -> addr_of uop a ->
  0 <= cyc <= d -> d <= T -> T + 1 < cycle_limit ->
  wp (lsu_load cyc d a) (LsuPost (T + port_lat + 5) uop a d l) (l, e).
Proof.
  intros HL HE Ht Ha Hd HdT Hlim. pose proof port_lat_nonneg as Hp.
  assert (HT5 : T < T + port_lat + 5) by lia. unfold addr_of in Ha. rewrite Ht in Ha.
  assert (HL0 := HL). destruct HL as [L1 L2 L3 L4 L5 L6]. unfold lsu_load. unfold upto in L3, L4.
  apply wp_bind, wp_on_state, wp_get. destruct (RobOk_top _ _ _ _ L1) as (lq&Elq&Hlq). unfold upto in Hlq.
  apply wp_bind, wp_on_state. eapply wp_lift_ok; [exact Elq|]. rewrite MAX_max, Z.gtb_ltb.
  set (d' := Z.max _ _). assert (Hd' : d <= d' <= T + 1 /\ lastStoreAddrCommitCycle l < d').
  { unfold d'. destruct (Z.ltb_spec d lq); lia. }
  apply wp_bind. eapply (wp_mono _ (fun r le => le.1 = l /\ env_ok (T + 1 + port_lat) le.2 /\
    d' + exec_lat uop a <= r <= T + port_lat + 5)).
  { unfold exec_lat. rewrite Ht. destruct (Z.eqb_spec a NO_ADDR) as [->|Hne]; cbn [negb].
    - apply wp_ret. cbn. split_and!; try done; try lia. eapply env_mono; [done|lia].
    - destruct Ha as [?|Ha]; [done|]. apply wp_bind, wp_on_env.
      eapply wp_mono; [apply (l1d_load_law (T + 1)); [eapply env_mono; [done|lia]|done|unfold upto; lia|lia]|].
      intros r e1 [Hr HE1]. apply wp_bind, wp_on_env. unfold L1D_LAT.
      eapply wp_mono; [apply record_law; [done|lia]|]. intros [] e2 HE2. apply wp_ret. cbn. split_and!; try done; lia. }
  intros r [l1 e1] (El&HE1&Hr). cbn [fst snd] in El, HE1. subst l1. apply wp_bind, wp_on_state.
  destruct (lookup_lt_is_Some_2 (fwdArray l) (fwd_idx a)) as [f Hf]; [rewrite L5; apply fwd_idx_lt|].
  assert (Hft : upto T (fwd_storeCycle f)) by (by eapply (Forall_lookup_1 _ _ _ _ L6)).
  eapply wp_lift_ok; [by apply arr_get_Some|]. rewrite MAX_max. unfold upto in Hft.
  set (commit := if fwd_addr f =? a then _ else r).
  assert (Hc : r <= commit <= T + port_lat + 5 /\ (fwd_addr f = a -> fwd_storeCycle f <= commit)).
  { unfold commit. destruct (Z.eqb_spec (fwd_addr f) a); split; try done; lia. }
  destruct (RobOk_mark LSQ_SZ LSQ_W T (T + port_lat + 5) (loadQueue l) commit LSQ_W_ok L1 HT5) as (q&Eq&Hq&_).
  { unfold upto. unfold exec_lat in Hr. rewrite Ht in Hr. case_match; unfold L1D_LAT in *; lia. }
  apply wp_bind, wp_on_state. eapply wp_lift_ok; [exact Eq|].
  apply wp_bind, wp_on_state, wp_modify, wp_ret. cbn [fst snd].
  pose proof (LsuOk_mono T (T + port_lat + 5) l (Z.lt_le_incl _ _ HT5) HL0) as [G1 G2 G3 G4 G5 G6].
  split_and!.
  - by split.
  - eapply env_mono; [done|]. simpl. lia.
  - lia.
  - lia.
  - unfold mem_order, exec_lat in *. rewrite Ht in *. assert (0 <= (if a =? NO_ADDR then 0 else L1D_LAT)) by (case_match; done).
    split; [lia|]. intros f' Hf'. rewrite Hf in Hf'. simplify_eq. apply Hc.
Qed.

Lemma lsu_store_spec T uop cyc d a l e : LsuOk T l -> env_ok T e -> u_type uop = UOP_STORE -> addr_of uop a ->
  0 <= cyc <= d -> d <= T -> T + 1 < cycle_limit ->
  wp (lsu_store cyc d a) (LsuPost (T + port_lat + 5) uop a d l) (l, e).
Proof.
  intros HL HE Ht Ha Hd HdT Hlim. pose proof port_lat_nonneg as Hp.
  assert (HT5 : T < T + port_lat + 5) by lia. unfold addr_of in Ha. rewrite Ht in Ha.
  assert (HL0 := HL). destruct HL as [L1 L2 L3 L4 L5 L6]. unfold lsu_store. unfold upto in L3, L4.
  apply wp_bind, wp_on_state, wp_get. destruct (RobOk_top _ _ _ _ L2) as (sq&Esq&Hsq). unfold upto in Hsq.
  apply wp_bind, wp_on_state. eapply wp_lift_ok; [exact Esq|]. rewrite MAX_max, Z.gtb_ltb.
  set (d' := Z.max _ _). assert (Hd' : d <= d' <= T + 1 /\ lastStoreAddrCommitCycle l < d').
  { unfold d'. destruct (Z.ltb_spec d sq); lia. }
  apply wp_bind, wp_on_env.
  eapply wp_mono; [apply (l1d_store_law (T + 1)); [eapply env_mono; [done|lia]|done|unfold upto; lia|lia]|].
  intros r e1 [Hr HE1]. apply wp_bind, wp_on_env. unfold L1D_LAT.
  eapply wp_mono; [apply record_law; [done|lia]|]. intros [] e2 HE2.
  apply wp_bind, wp_on_state, wp_arr_set_lt; [rewrite L5; apply fwd_idx_lt|].
  destruct (RobOk_mark LSQ_SZ LSQ_W T (T + port_lat + 5) (storeQueue l) (r + 4) LSQ_W_ok L2 HT5) as (q&Eq&Hq&_).
  { unfold upto. lia. }
  apply wp_bind, wp_on_state. eapply wp_lift_ok; [exact Eq|].
  apply wp_bind, wp_on_state, wp_modify, wp_ret. cbn [fst snd].
  pose proof (LsuOk_mono T (T + port_lat + 5) l (Z.lt_le_incl _ _ HT5) HL0) as [G1 G2 G3 G4 G5 G6]. unfold upto in G3.
  unfold LsuPost, mem_order, exec_lat. rewrite Ht, MAX_max. cbn [fst snd]. unfold L1D_LAT. split_and!; try lia.
  - split; cbn; try done.
    + unfold upto. lia.
    + by rewrite length_insert.
    + apply Forall_insert; [done|]. cbn. unfold upto. lia.
  - eapply env_mono; [done|]. lia.
  - cbn. apply list_lookup_insert_eq. rewrite L5. apply fwd_idx_lt.
  - cbn. lia.
Qed.

Lemma lsu_uop_spec T uop cyc d a l e : LsuOk T l -> env_ok T e -> addr_of uop a -> 0 <= u_lat uop ->
  0 <= cyc <= d -> d <= T -> T + 1 < cycle_limit ->
  wp (lsu_uop uop cyc d a) (LsuPost (T + u_lat uop + port_lat + 5) uop a d l) (l, e).
Proof.
  intros HL HE Ha Hlat Hd HdT Hlim. pose proof port_lat_nonneg as Hp. unfold lsu_uop.
  set (T' := T + u_lat uop + port_lat + 5).
  assert (HL' : LsuOk T' l) by (eapply LsuOk_mono; [|done]; lia).
  assert (HE' : env_ok T' e) by (eapply env_mono; [done|lia]).
  assert (Hmono : forall Q, wp Q (LsuPost (T + port_lat + 5) uop a d l) (l, e) -> wp Q (LsuPost T' uop a d l) (l, e)).
  { intros Q HQ. eapply wp_mono; [exact HQ|]. intros r le (P1&P2&P3&P4).
    split_and!; [eapply LsuOk_mono; [|done]; lia|eapply env_mono; [done|lia]|lia|lia|done]. }
  unfold LsuPost, mem_order, exec_lat in *. pose proof (lo_st _ _ HL) as H1. pose proof (lo_sta _ _ HL) as H2. unfold upto in *.
  destruct (u_type uop) eqn:Ht.
  - apply wp_ret. cbn. split_and!; try done; lia.
  - apply Hmono. pose proof (lsu_load_spec T uop cyc d a l e HL HE Ht Ha Hd HdT Hlim) as Hl.
    unfold LsuPost, mem_order, exec_lat in Hl. by rewrite Ht in Hl.
  - apply Hmono. pose proof (lsu_store_spec T uop cyc d a l e HL HE Ht Ha Hd HdT Hlim) as Hl.
    unfold LsuPost, mem_order, exec_lat in Hl. by rewrite Ht in Hl.
  - apply wp_bind, wp_on_state, wp_modify, wp_ret. rewrite MAX_max. cbn. split_and!; try done; try lia.
    destruct HL'. split; try done. cbn. unfold upto. lia.
  - apply wp_bind, wp_on_state, wp_modify, wp_ret. rewrite !MAX_max. cbn. split_and!; try done; try lia.
    destruct HL'. split; try done. cbn. unfold upto. lia.
Qed.

(** ** One uop *)
Record CoreOk (T : Z) c : Prop := {
  co_issue : IssueOk NREG T (c_issue c);
  co_lsu : LsuOk T (c_lsu c);
  co_bp : BP.Inv BP_NB BP_HB BP_LB (branchPred (c_branch c));
  co_lda : length (loadAddrs (c_mem c)) = 256%nat;
  co_sta : length (storeAddrs (c_mem c)) = 256%nat;
  co_lds : (loads (c_mem c) <= 256)%nat;
  co_sts : (stores (c_mem c) <= 256)%nat
}.
(** The recorded addresses are ones the data cache accepts. *)
Record MemOk (m : MemOps) : Prop := {
  mo_loads : forall k, (k < loads m)%nat -> loadAddrs m !!! k = NO_ADDR \/ daddr_ok (loadAddrs m !!! k);
  mo_stores : forall k, (k < stores m)%nat -> daddr_ok (storeAddrs m !!! k)
}.
(** The parts of the core that the execution of uops leaves alone. *)
Definition frame c c' : Prop :=
  c_mem c' = c_mem c /\ c_branch c' = c_branch c /\ c_cnt c' = c_cnt c /\
  phaseEndCycle c' = phaseEndCycle c /\ prevBbl c' = prevBbl c.
Definition later c c' : Prop :=
  curCycle (c_issue c) <= curCycle (c_issue c') /\ decodeCycle (c_issue c) <= decodeCycle (c_issue c') /\
  ROB.curRetireCycle (rob (c_issue c)) <= ROB.curRetireCycle (rob (c_issue c')).

(** How far a uop can move the latest time stamp. *)
Definition ucost (prev : Z) (uop : DynUop) : Z :=
  (u_decCycle uop - prev) + u_extraSlots uop + u_lat uop + port_lat + 16.

Definition is_type (t : UopType) (uop : DynUop) : nat := if decide (u_type uop = t) then 1 else 0.

(** A uop commits at [commit], having started at [d]: after its operands were
    available and in memory order, and its results carry that cycle; it retires
    in order. *)
Record Executed (uop : DynUop) (a d commit : Z) c c' : Prop := {
  ex_rs0 : u_rs0 uop <> 0%nat -> regScoreboard (c_issue c) !!! u_rs0 uop <= d;
  ex_rs1 : u_rs1 uop <> 0%nat -> regScoreboard (c_issue c) !!! u_rs1 uop <= d;
  ex_issue : curCycle (c_issue c) + (DISPATCH_STAGE - ISSUE_STAGE) <= d;
  ex_lat : d + exec_lat uop a <= commit;
  ex_mem : mem_order uop a commit (c_lsu c) (c_lsu c');
  ex_regs : exists x, regScoreboard (c_issue c') =
    <[u_rd1 uop := commit]> (<[u_rd0 uop := commit]> (<[0%nat := x]> (regScoreboard (c_issue c))));
  ex_rob : commit <= ROB.curRetireCycle (rob (c_issue c'))
}.

Lemma next_addr_spec T uop c li si : CoreOk T c -> MemOk (c_mem c) ->
  (u_type uop = UOP_LOAD -> (li < loads (c_mem c))%nat) ->
  (u_type uop = UOP_STORE -> (si < stores (c_mem c))%nat) ->
  exists a, next_addr uop (c_mem c) li si =
    Ok (a, (li + is_type UOP_LOAD uop)%nat, (si + is_type UOP_STORE uop)%nat) /\ addr_of uop a.
Proof.
  intros [_ _ _ C1 C2 C3 C4] [M1 M2] Hl Hs. unfold next_addr, addr_of, is_type.
  destruct (u_type uop); cbn [decide]; rewrite ?Nat.add_0_r; eauto.
  - specialize (Hl eq_refl). destruct (arr_get_lt (loadAddrs (c_mem c)) li) as (a&Ha&->); [lia|].
    exists a. cbn. rewrite ?Nat.add_0_r, ?Nat.add_1_r. split; [done|].
    specialize (M1 li Hl). by rewrite (list_lookup_total_correct _ _ _ Ha) in M1.
  - specialize (Hs eq_refl). destruct (arr_get_lt (storeAddrs (c_mem c)) si) as (a&Ha&->); [lia|].
    exists a. cbn. rewrite ?Nat.add_0_r, ?Nat.add_1_r. split; [done|].
    specialize (M2 si Hs). by rewrite (list_lookup_total_correct _ _ _ Ha) in M2.
Qed.

Lemma run_uop_spec T prev uop li si c e : CoreOk T c -> env_ok T e -> MemOk (c_mem c) ->
  UopOk NREG uop -> 0 <= prev <= u_decCycle uop ->
  (u_type uop = UOP_LOAD -> (li < loads (c_mem c))%nat) ->
  (u_type uop = UOP_STORE -> (si < stores (c_mem c))%nat) ->
  T + ucost prev uop - curCycle (c_issue c) < 2 ^ 31 -> T + ucost prev uop < cycle_limit ->
  wp (run_uop uop prev li si) (fun r ce =>
    CoreOk (T + ucost prev uop) ce.1 /\ env_ok (T + ucost prev uop) ce.2 /\
    r.1.2 = (li + is_type UOP_LOAD uop)%nat /\ r.2 = (si + is_type UOP_STORE uop)%nat /\
    upto (T + ucost prev uop) r.1.1 /\ frame c ce.1 /\ later c ce.1 /\
    exists a d, next_addr uop (c_mem c) li si = Ok (a, r.1.2, r.2) /\ Executed uop a d r.1.1 c ce.1) (c, e).
Proof.
  intros HC HE HM HU Hprev Hl Hs Hb Hlim. pose proof port_lat_nonneg as Hp. unfold ucost in *.
  pose proof (uo_lat _ _ HU) as Hlat. pose proof (uo_extra _ _ HU) as Hx.
  destruct (next_addr_spec T uop c li si HC HM Hl Hs) as (a&Ea&Ha).
  destruct HC as [C1 C2 C3 C4 C5 C6 C7]. unfold run_uop.
  apply wp_bind, wp_on_issue. eapply wp_mono; [apply (issue_uop_spec NREG HNREG T); [done|done|done|lia]|].
  intros d i1 (HI1&[x Hx1]&Hr1&Hc1&Hd1&Hs0&Hs1&Hcd&Hd6). set (T1 := T + _ + 9 + _) in *.
  pose proof (io_cur _ _ _ HI1) as Hc1'. pose proof (io_cur _ _ _ C1) as Hc0. unfold upto in Hc1', Hc0.
  apply wp_bind, wp_get. apply wp_bind. eapply wp_lift_ok; [exact Ea|]. apply wp_bind, wp_on_lsu.
  eapply wp_mono; [apply (lsu_uop_spec T1); [eapply LsuOk_mono; [|exact C2]; lia|eapply env_mono; [done|lia]|done|done|cbn; lia|lia|lia]|].
  intros commit [l2 e2] (HL2&HE2&Hcm&Hmo). cbn [fst snd] in *.
  set (T2 := T1 + u_lat uop + port_lat + 5) in *. apply wp_bind, wp_on_issue.
  set (T' := T + (u_decCycle uop - prev + u_extraSlots uop + u_lat uop + port_lat + 16)).
  assert (He : 0 <= exec_lat uop a).
  { unfold exec_lat. destruct (u_type uop); try done. by case_match. }
  eapply wp_mono; [apply (retire_uop_spec NREG HNREG T2 T'); [eapply IssueOk_mono; [|exact HI1]; lia|done|lia|unfold upto; lia]|].
  intros [] i3 (HI3&R1&R2&R3&R4&R5). apply wp_ret. cbn [fst snd] in *.
  split_and!; try done; try lia.
  - split; cbn; try done. eapply LsuOk_mono; [|exact HL2]. lia.
  - eapply env_mono; [exact HE2|]. lia.
  - unfold upto. lia.
  - unfold later. cbn in *. rewrite R2, R3, <- Hr1. split_and!; lia.
  - exists a, d. split; [done|]. split; cbn in *; try done.
    + unfold DISPATCH_STAGE, ISSUE_STAGE. lia.
    + lia.
    + exists x. rewrite R1. cbn. by rewrite Hx1.
Qed.

(** ** The uops of a block *)
Fixpoint ucosts (prev : Z) (us : list DynUop) : Z :=
  match us with [] => 0 | u :: us => ucost prev u + ucosts (u_decCycle u) us end.
(** Uops in decode order. *)
Fixpoint decoded (prev : Z) (us : list DynUop) : Prop :=
  match us with [] => True | u :: us => UopOk NREG u /\ prev <= u_decCycle u /\ decoded (u_decCycle u) us end.
Fixpoint count_type (t : UopType) (us : list DynUop) : nat :=
  match us with [] => 0 | u :: us => is_type t u + count_type t us end.

Lemma ucost_nonneg prev u : UopOk NREG u -> prev <= u_decCycle u -> 16 <= ucost prev u.
Proof. intros [] ?. pose proof port_lat_nonneg. unfold ucost. lia. Qed.
Lemma ucosts_nonneg prev us : decoded prev us -> 0 <= ucosts prev us.
Proof.
  revert prev. induction us as [|u us IH]; intros prev; [done|]. intros (HU&Hp&Hd). cbn [ucosts].
  pose proof (ucost_nonneg prev u HU Hp). pose proof (IH _ Hd). lia.
Qed.

Lemma later_trans c1 c2 c3 : later c1 c2 -> later c2 c3 -> later c1 c3.
Proof. unfold later. lia. Qed.
Lemma frame_trans c1 c2 c3 : frame c1 c2 -> frame c2 c3 -> frame c1 c3.
Proof. unfold frame. intros (?&?&?&?&?) (?&?&?&?&?). split_and!; congruence. Qed.

(** The uops [us] commit one after the other, at the cycles [cs]; [li] and [si] index
    the recorded loads and stores. *)
Inductive Runs : list DynUop -> nat -> nat -> OOOCore -> list Z -> OOOCore -> Prop :=
| runs_nil li si c : Runs [] li si c [] c
| runs_cons u us li si li' si' c a d commit c1 cs c2 :
    next_addr u (c_mem c) li si = Ok (a, li', si') -> Executed u a d commit c c1 -> frame c c1 -> later c c1 ->
    Runs us li' si' c1 cs c2 -> Runs (u :: us) li si c (commit :: cs) c2.

Lemma last_commit (lc commit : Z) cs : default lc (list.last (commit :: cs)) = default commit (list.last cs).
Proof. rewrite last_cons. by destruct (list.last cs). Qed.

Lemma run_uops_spec us T prev li si lc c e : CoreOk T c -> env_ok T e -> MemOk (c_mem c) ->
  0 <= prev -> decoded prev us -> upto T lc ->
  (li + count_type UOP_LOAD us <= loads (c_mem c))%nat ->
  (si + count_type UOP_STORE us <= stores (c_mem c))%nat ->
  T + ucosts prev us - curCycle (c_issue c) < 2 ^ 31 -> T + ucosts prev us < cycle_limit ->
  wp (run_uops us prev li si lc) (fun r ce =>
    CoreOk (T + ucosts prev us) ce.1 /\ env_ok (T + ucosts prev us) ce.2 /\
    r.1.2 = (li + count_type UOP_LOAD us)%nat /\ r.2 = (si + count_type UOP_STORE us)%nat /\
    upto (T + ucosts prev us) r.1.1 /\ frame c ce.1 /\ later c ce.1 /\
    exists cs, Runs us li si c cs ce.1 /\ r.1.1 = default lc (list.last cs)) (c, e).
Proof.
  revert T prev li si lc c e. induction us as [|u us IH]; intros T prev li si lc c e HC HE HM Hp Hd Hlc Hl Hs Hb Hlim.
  { apply wp_ret. cbn. rewrite !Z.add_0_r, !Nat.add_0_r. split_and!; try done; [unfold later; lia..|]. exists []. split; [constructor|done]. }
  destruct Hd as (HU&Hpu&Hd). cbn [run_uops ucosts count_type] in *.
  pose proof (ucosts_nonneg _ _ Hd). pose proof (ucost_nonneg prev u HU Hpu).
  apply wp_bind. eapply wp_mono; [apply (run_uop_spec T); try done; try lia|].
  { intros Ht. unfold is_type in Hl. rewrite decide_True in Hl by done. lia. }
  { intros Ht. unfold is_type in Hs. rewrite decide_True in Hs by done. lia. }
  intros [[commit li'] si'] [c1 e1] (HC1&HE1&E1&E2&Hc&HF&HL&a&d&Ha&HX). cbn [fst snd] in *. subst li' si'.
  pose proof HF as HF0. pose proof HL as HL0. destruct HF as (F1&F2&F3&F4&F5). destruct HL as (L1&L2&L3).
  eapply wp_mono; [apply (IH (T + ucost prev u)); try done; rewrite ?F1; try done; try lia|].
  intros [[lc' li'] si'] [c2 e2] (HC2&HE2&E1&E2&Hc2&HF2&HL2&cs&HRs&Elc). cbn [fst snd] in *.
  rewrite Z.add_assoc. split_and!; try done; try lia.
  - by eapply frame_trans; [|exact HF2].
  - by eapply later_trans; [|exact HL2].
  - exists (commit :: cs). split; [by econstructor|]. by rewrite last_commit.
Qed.

(** ** The front end *)
Section Front.
Context (lineBits : Z) (HLB : 0 <= lineBits <= 6).
Abbreviation lineSize := (lineSize lineBits).

Lemma lineSize_range : 1 <= lineSize <= 64.
Proof.
  unfold OOOCore.lineSize. rewrite Z.shiftl_1_l. pose proof (Z.pow_pos_nonneg 2 lineBits).
  assert (2 ^ lineBits <= 2 ^ 6) by (apply Z.pow_le_mono_r; lia). lia.
Qed.

Definition wrong_lines : Z := 5 * 64 / lineSize.
Definition bbl_lines (bytes : Z) : Z := (bytes + lineSize - 1) / lineSize.

(** The latest time stamp after the front end of a block. *)
Definition front_env (T bytes : Z) : Z := T + (wrong_lines + bbl_lines bytes) * port_lat.
Definition front_bound (T cur bytes : Z) : Z :=
  front_env T bytes + 4 + bbl_lines bytes * (front_env T bytes - cur).

(** The instruction addresses that may be fetched. *)
Record FetchOk (b : Branch) (bblAddr : Z) (info : BblInfo) : Prop := {
  fo_wrong : branchPc b <> 0 -> forall i, 0 <= i < wrong_lines ->
    iaddr_ok (u64 ((if branchTaken b then branchNotTakenNpc b else branchTakenNpc b) + u32 (lineSize * i)));
  fo_bytes : 0 <= bi_bytes info;
  fo_addr : 0 <= bblAddr /\ bblAddr + bi_bytes info + lineSize < two64;
  fo_lines : forall k, 0 <= k < bbl_lines (bi_bytes info) -> iaddr_ok (bblAddr + lineSize * k)
}.

Lemma wrong_path_spec n i a cyc req lc T c e : env_ok T e -> upto T cyc ->
  (forall j, i <= j < i + Z.of_nat n -> iaddr_ok (u64 (a + u32 (lineSize * j)))) ->
  T + Z.of_nat n * port_lat < cycle_limit ->
  wp (wrong_path lineBits n i a cyc req lc) (fun _ ce => ce.1 = c /\ env_ok (T + Z.of_nat n * port_lat) ce.2) (c, e).
Proof.
  pose proof port_lat_nonneg as Hp. revert i req T e. induction n as [|n IH]; intros i req T e HE Hc Ha Hlim; cbn [wrong_path].
  { apply wp_ret. cbn. rewrite Z.add_0_r. done. }
  unfold upto in Hc. apply wp_bind, wp_on_env.
  eapply wp_mono; [apply (l1i_load_law T); [done|apply Ha; lia|done|nia]|].
  intros r e1 [Hr HE1]. apply wp_bind, wp_on_env. pose proof (u64_range (r - cyc)).
  eapply wp_mono; [apply record_law; [done|lia]|]. intros [] e2 HE2.
  case_match.
  - apply wp_ret. split; [done|]. eapply env_mono; [done|]. simpl. nia.
  - eapply wp_mono; [apply (IH _ _ (T + port_lat)); [done|unfold upto; lia|intros; apply Ha; lia|nia]|].
    intros [] ce [? ?]. split; [done|]. eapply env_mono; [done|]. nia.
Qed.

Lemma ifetch_spec fuel k a end_ cyc fc T c e : env_ok T e -> upto T cyc -> 0 <= a ->
  end_ <= a + lineSize * Z.of_nat k -> end_ + lineSize < two64 -> (k <= fuel)%nat ->
  (forall j, 0 <= j -> a + lineSize * j < end_ -> iaddr_ok (a + lineSize * j)) ->
  T + Z.of_nat k * port_lat < cycle_limit ->
  wp (ifetch lineBits fuel a end_ cyc fc) (fun fc' ce => ce.1 = c /\
    env_ok (T + Z.of_nat k * port_lat) ce.2 /\
    fc <= fc' <= fc + Z.of_nat k * (T + Z.of_nat k * port_lat - cyc)) (c, e).
Proof.
  pose proof port_lat_nonneg as Hp. pose proof lineSize_range as HLS. pose proof cycle_limit_64 as H64.
  revert k a fc T e. induction fuel as [|fuel IH]; intros k a fc T e HE Hc Ha Hend H2 Hk Hok Hlim; cbn [ifetch];
    unfold upto in Hc; destruct (Z.ltb_spec a end_) as [Hlt|Hge].
  - assert (k = 0%nat) as -> by lia. lia.
  - apply wp_ret. cbn. split_and!; try done; [|nia..]. eapply env_mono; [done|nia].
  - destruct k as [|k]; [lia|]. apply wp_bind, wp_on_env.
    eapply wp_mono; [apply (l1i_load_law T); [done| |done|nia]|].
    { pose proof (Hok 0 ltac:(lia)) as H0. rewrite Z.mul_0_r, Z.add_0_r in H0. by apply H0. }
    intros r e1 [Hr HE1]. apply wp_bind, wp_on_env. rewrite (u64_small (r - cyc)) by nia.
    eapply wp_mono; [apply record_law; [done|lia]|]. intros [] e2 HE2.
    rewrite u64_small by nia.
    eapply wp_mono; [apply (IH k _ _ (T + port_lat)); [done|unfold upto; lia|lia|nia|done|lia| |nia]|].
    { intros j Hj Hjl. replace (a + lineSize + lineSize * j) with (a + lineSize * (j + 1)) in * by lia. apply Hok; lia. }
    intros fc' ce (->&HE'&Hfc). split_and!; try done; [|nia..]. eapply env_mono; [done|nia].
  - apply wp_ret. cbn. split_and!; try done; [|nia..]. eapply env_mono; [done|nia].
Qed.

Lemma bbl_lines_spec bytes : 0 <= bytes ->
  0 <= bbl_lines bytes <= bytes /\ bytes <= lineSize * bbl_lines bytes.
Proof.
  intros Hb. pose proof lineSize_range as HLS. unfold bbl_lines. set (L := lineSize) in *.
  pose proof (Z.div_mod (bytes + L - 1) L ltac:(lia)). pose proof (Z.mod_pos_bound (bytes + L - 1) L ltac:(lia)).
  split; [split|lia].
  - apply Z.div_pos; lia.
  - destruct (decide (bytes = 0)) as [->|]; [rewrite Z.div_small; lia|]. apply Z.div_le_upper_bound; [lia|nia].
Qed.

Lemma wrong_lines_nonneg : 0 <= wrong_lines.
Proof. unfold wrong_lines. pose proof lineSize_range. apply Z.div_pos; lia. Qed.

(** The parts of the core that the front end leaves alone. *)
Definition front_frame c c' : Prop :=
  c_mem c' = c_mem c /\ prevBbl c' = prevBbl c /\ phaseEndCycle c' = phaseEndCycle c /\
  instrs (c_cnt c') = instrs (c_cnt c) /\ uops (c_cnt c') = uops (c_cnt c) /\
  bbls (c_cnt c') = bbls (c_cnt c) /\ approxInstrs (c_cnt c') = approxInstrs (c_cnt c).

Definition BpOk c : Prop := BP.Inv BP_NB BP_HB BP_LB (branchPred (c_branch c)).

Lemma predict_branch_spec c e : BpOk c ->
  wp predict_branch (fun m ce => ce.2 = e /\ (m = true -> branchPc (c_branch c) <> 0) /\
    exists b, BpOk ce.1 /\ ce.1 = set_branch b c /\ branchTaken b = branchTaken (c_branch c) /\
      branchTakenNpc b = branchTakenNpc (c_branch c) /\ branchNotTakenNpc b = branchNotTakenNpc (c_branch c)) (c, e).
Proof.
  intros HB. unfold wp, predict_branch. destruct (Z.eqb_spec (branchPc (c_branch c)) 0) as [H0|H0].
  - split; [done|]. split; [done|]. exists (c_branch c). split_and!; try done. by destruct c.
  - pose proof (BP.predict_spec BP_NB BP_HB BP_LB ltac:(unfold BP_NB, BP_LB; lia)
      ltac:(unfold BP_HB; lia) (branchPred (c_branch c))
      (branchPc (c_branch c)) (branchTaken (c_branch c)) HB) as Hw.
    unfold wp in Hw. destruct (BP.predict _ _ _ _ _ _) as [[ok p]|]; [|done]. destruct Hw as [Hp _].
    split; [done|]. split; [done|]. eexists. split_and!; try reflexivity. exact Hp.
Qed.

(** Branch prediction, with the wrong-path fetches of a misprediction. *)
Lemma branch_fetch_spec T fc lc c e bblAddr info : BpOk c -> env_ok T e ->
  upto T (curCycle (c_issue c)) -> upto T fc -> upto T lc -> FetchOk (c_branch c) bblAddr info ->
  T + wrong_lines * port_lat < cycle_limit ->
  wp (branch_fetch lineBits fc lc) (fun fc' ce => env_ok (T + wrong_lines * port_lat) ce.2 /\ BpOk ce.1 /\
    upto T fc' /\ front_frame c ce.1 /\ branchPc (c_branch ce.1) = 0 /\
    c_issue ce.1 = c_issue c /\ c_lsu ce.1 = c_lsu c) (c, e).
Proof.
  intros HB HE Hcur Hfc Hlc HF Hlim. pose proof port_lat_nonneg. pose proof wrong_lines_nonneg.
  unfold branch_fetch. apply wp_bind. eapply wp_mono; [by apply predict_branch_spec|].
  intros m [c1 e1] (E1&Hm&b&HB1&E2&B1&B2&B3). cbn [fst snd] in *. subst e1 c1. apply wp_bind.
  eapply (wp_mono _ (fun fc' ce => env_ok (T + wrong_lines * port_lat) ce.2 /\ upto T fc' /\
    exists n, ce.1 = set_cnt n (set_branch b c) /\ instrs n = instrs (c_cnt c) /\ uops n = uops (c_cnt c) /\
      bbls n = bbls (c_cnt c) /\ approxInstrs n = approxInstrs (c_cnt c))).
  - destruct m.
    + apply wp_bind. unfold modify_core. apply wp_on_state, wp_modify, wp_bind, wp_get, wp_bind. cbn [c_branch c_issue set_cnt set_branch].
      eapply wp_mono; [apply (wrong_path_spec _ 0 _ _ _ _ T); [done|done| |]|].
      * intros j Hj. rewrite B1, B2, B3. apply HF; [by apply Hm|]. unfold wrong_lines in *. lia.
      * fold wrong_lines. lia.
      * intros [] [c3 e3] [E3 HE']. cbn [fst snd] in E3, HE'. subst c3. fold wrong_lines in HE'. rewrite Z2Nat.id in HE' by lia. apply wp_ret.
        split_and!; try done. eexists. split; [reflexivity|done].
    + apply wp_ret. split_and!; try done; [eapply env_mono; [done|simpl; nia]|].
      exists (c_cnt c). split; [done|done].
  - intros fc' [c2 e2] (HE2&Hfc'&n&E2&N1&N2&N3&N4). cbn [fst snd] in *. subst c2.
    apply wp_bind. unfold modify_core. apply wp_on_state, wp_modify, wp_ret. cbn [fst snd].
    unfold front_frame. cbn. by split_and!.
Qed.

Lemma frontend_spec T lc c e bblAddr info : CoreOk T c -> env_ok T e -> upto T lc ->
  FetchOk (c_branch c) bblAddr info ->
  front_bound T (curCycle (c_issue c)) (bi_bytes info) < cycle_limit ->
  wp (frontend lineBits bblAddr info lc) (fun _ ce =>
    CoreOk (front_bound T (curCycle (c_issue c)) (bi_bytes info)) ce.1 /\
    env_ok (front_bound T (curCycle (c_issue c)) (bi_bytes info)) ce.2 /\
    front_frame c ce.1 /\ branchPc (c_branch ce.1) = 0 /\ later c ce.1 /\
    decodeCycle (c_issue c) < decodeCycle (c_issue ce.1)) (c, e).
Proof.
  intros HC HE Hlc HF Hlim. destruct HC as [C1 C2 C3 C4 C5 C6 C7].
  pose proof port_lat_nonneg as Hp. pose proof wrong_lines_nonneg as Hw. pose proof cycle_limit_64 as H64.
  destruct (bbl_lines_spec (bi_bytes info) (fo_bytes _ _ _ HF)) as [Hl1 Hl2].
  destruct (fo_addr _ _ _ HF) as [Ha1 Ha2]. pose proof lineSize_range as HLS.
  pose proof (io_cur _ _ _ C1) as Hcur. pose proof (io_dec _ _ _ C1) as Hdec.
  set (Tf := front_bound _ _ _) in *. set (nl := bbl_lines (bi_bytes info)) in *.
  assert (HTe : T <= front_env T (bi_bytes info)) by (unfold front_env; fold nl; nia).
  assert (HTf : front_env T (bi_bytes info) + 4 <= Tf).
  { unfold Tf, front_bound. fold nl. unfold upto in Hcur. nia. }
  assert (ETe : T + wrong_lines * port_lat + nl * port_lat = front_env T (bi_bytes info)) by (unfold front_env; fold nl; lia).
  assert (Hwp : T <= T + wrong_lines * port_lat <= front_env T (bi_bytes info)) by (rewrite <- ETe; nia).
  unfold frontend. apply wp_bind, wp_get. unfold DECODE_STAGE, FETCH_STAGE, upto in *.
  rewrite (u64_small (decodeCycle _ - _)), (u64_small (bblAddr + _)) by lia. apply wp_bind.
  eapply wp_mono; [eapply (branch_fetch_spec T); try done; unfold upto; lia|].
  intros fc [c1 e1] (HE1&HB1&Hfc&HFr&Hpc&E1&E2). cbn [fst snd] in *. unfold upto in Hfc.
  apply wp_bind, wp_get. rewrite E1. apply wp_bind.
  eapply wp_mono; [apply (ifetch_spec _ (Z.to_nat nl) _ _ _ _ (T + wrong_lines * port_lat)); try done; try lia|].
  - unfold upto. nia.
  - intros j Hj Hjl. apply HF. split; [done|]. fold nl. nia.
  - intros fc' [c2 e2] (Ec&HE2&Hfc'). cbn [fst snd] in *. subst c2. rewrite Z2Nat.id in HE2, Hfc' by lia.
    rewrite ETe in *. unfold modify_core. apply wp_on_state, wp_modify. cbn [fst snd]. rewrite E1.
    destruct HFr as (F1&F2&F3&F4&F5&F6&F7). rewrite Z.gtb_ltb.
    set (dec := if _ <? _ then _ else _).
    assert (Hd : decodeCycle (c_issue c) < dec <= Tf).
    { unfold dec, Tf, front_bound. fold nl. destruct (Z.ltb_spec (decodeCycle (c_issue c) + 1) (fc' + (4 - 1))); lia. }
    pose proof (IssueOk_mono NREG T Tf (c_issue c) ltac:(lia) C1) as [J1 J2 J3 J4 J5 J6 J7 J8 J9 J10].
    split_and!; try done; try (cbn; rewrite ?E1; lia).
    + split; cbn; rewrite ?E2, ?F1; try done; [|eapply LsuOk_mono; [|done]; lia].
      split; try done. cbn. unfold DECODE_STAGE. lia.
    + eapply env_mono; [done|lia].
    + unfold later. cbn. lia.
Qed.

(** ** [OOOCore::bbl] *)

(** What a basic block needs: the previous one is decoded and its memory
    operations were recorded, and the time stamps do not overflow. *)
Record BblOk (T : Z) c (bblAddr : Z) (info : BblInfo) (prev : BblInfo) : Prop := {
  bo_decoded : decoded 0 (db_uop (bi_oooBbl prev));
  bo_loads : loads (c_mem c) = count_type UOP_LOAD (db_uop (bi_oooBbl prev));
  bo_stores : stores (c_mem c) = count_type UOP_STORE (db_uop (bi_oooBbl prev));
  bo_mem : MemOk (c_mem c);
  bo_fetch : FetchOk (c_branch c) bblAddr info;
  bo_horizon : T + ucosts 0 (db_uop (bi_oooBbl prev)) - curCycle (c_issue c) < 2 ^ 31;
  bo_limit : front_bound (T + ucosts 0 (db_uop (bi_oooBbl prev))) (curCycle (c_issue c)) (bi_bytes info) < cycle_limit
}.
Definition bbl_bound (T : Z) c (info prev : BblInfo) : Z :=
  front_bound (T + ucosts 0 (db_uop (bi_oooBbl prev))) (curCycle (c_issue c)) (bi_bytes info).

Lemma front_bound_ge T cur bytes : 0 <= bytes -> cur <= T -> front_env T bytes + 4 <= front_bound T cur bytes /\ T <= front_env T bytes.
Proof.
  intros Hb Hc. pose proof port_lat_nonneg. pose proof wrong_lines_nonneg. destruct (bbl_lines_spec bytes Hb) as [? _].
  unfold front_bound. assert (T <= front_env T bytes) by (unfold front_env; nia). split; [nia|done].
Qed.
Lemma front_bound_anti T cur cur' bytes : 0 <= bytes -> cur <= cur' -> front_bound T cur' bytes <= front_bound T cur bytes.
Proof. intros Hb Hc. destruct (bbl_lines_spec bytes Hb) as [? _]. unfold front_bound. nia. Qed.

Lemma bbl_spec T c e bblAddr info prev : CoreOk T c -> env_ok T e -> prevBbl c = Some prev ->
  BblOk T c bblAddr info prev ->
  wp (bbl lineBits bblAddr info) (fun _ ce =>
    CoreOk (bbl_bound T c info prev) ce.1 /\ env_ok (bbl_bound T c info prev) ce.2 /\
    prevBbl ce.1 = Some info /\ loads (c_mem ce.1) = 0%nat /\ stores (c_mem ce.1) = 0%nat /\
    branchPc (c_branch ce.1) = 0 /\
    instrs (c_cnt ce.1) = u64 (instrs (c_cnt c) + bi_instrs prev) /\
    uops (c_cnt ce.1) = u64 (uops (c_cnt c) + Z.of_nat (length (db_uop (bi_oooBbl prev)))) /\
    bbls (c_cnt ce.1) = u64 (bbls (c_cnt c) + 1) /\
    later c ce.1 /\ decodeCycle (c_issue c) < decodeCycle (c_issue ce.1)) (c, e).
Proof.
  intros HC HE Hprev [B1 B2 B3 B4 B5 B6 B7]. unfold bbl_bound. set (us := db_uop (bi_oooBbl prev)) in *.
  pose proof (io_cur _ _ _ (co_issue _ _ HC)) as Hcur. unfold upto in Hcur.
  pose proof (ucosts_nonneg 0 us B1) as Hu.
  destruct (front_bound_ge (T + ucosts 0 us) (curCycle (c_issue c)) (bi_bytes info) (fo_bytes _ _ _ B5) ltac:(lia)) as [HT1 HT2].
  unfold bbl. apply wp_bind, wp_get. rewrite Hprev. fold us. apply wp_bind. unfold modify_core at 1. apply wp_on_state, wp_modify.
  apply wp_bind. eapply wp_mono; [apply (run_uops_spec us T 0 0 0 0); try done; try lia|].
  - destruct HC. by split.
  - unfold upto. lia.
  - cbn. lia.
  - cbn. lia.
  - intros [[lc li] si] [c1 e1] (HC1&HE1&Eli&Esi&Hlc&HF&HL&_). cbn [fst snd] in *. subst li si.
    destruct HF as (F1&F2&F3&F4&F5). cbn in F1, F2, F3, F4, F5. destruct HL as (L1&L2&L3). cbn in L1, L2, L3.
    apply wp_bind. unfold modify_core at 1. apply wp_on_state, wp_modify, wp_bind, wp_get. cbn [c_mem set_cnt]. rewrite F1.
    apply wp_bind, wp_assert; [rewrite B2; by apply Nat.eqb_refl|].
    apply wp_bind, wp_assert; [rewrite B3; by apply Nat.eqb_refl|].
    apply wp_bind. unfold modify_core at 1. apply wp_on_state, wp_modify.
    pose proof (front_bound_anti (T + ucosts 0 us) _ _ (bi_bytes info) (fo_bytes _ _ _ B5) L1) as Hanti.
    eapply wp_mono; [apply (frontend_spec (T + ucosts 0 us)); try done|].
    + destruct HC1 as [C1 C2 C3 C4 C5 C6 C7]. split; cbn; rewrite ?F1 in *; try done; lia.
    + cbn. by rewrite F2.
    + cbn. lia.
    + intros [] [c2 e2] (HC2&HE2&(G1&G2&G3&G4&G5&G6&G7)&Hpc&HL2&Hdec). cbn [fst snd] in *. cbn in *.
      split_and!; try congruence; try lia.
      * destruct HC2 as [D1 D2 D3 D4 D5 D6 D7]. split; try done; [eapply IssueOk_mono; [|done]; lia|eapply LsuOk_mono; [|done]; lia].
      * eapply env_mono; [done|lia].
      * rewrite G1. cbn. done.
      * rewrite G1. cbn. done.
      * unfold later in *. cbn in *. lia.
Qed.
End Front.
End Thms.
