(* ===== verification/OOOTrace.v ===== *)
(** * The requests of an out-of-order core

    [logged] puts a log between the core and its ports: every fetch, load and store is
    recorded with its address, its cycle and the cycle of the answer.  The core does the
    same on the logged ports as on the plain ones, and the log of a basic block is
    computed: the recorded memory operations in program order, the wrong path after a
    misprediction, the lines of the next block. *)

From S2P Require Import Prelude Bithacks InsWindow OOOStructs OOOCore OOOCoreInv OOOCoreThms.

Inductive Port := Fetch | DLoad | DStore.
Record Acc := mkAcc { acc_port : Port; acc_addr : Z; acc_cycle : Z; acc_resp : Z }.

(** ** The logged ports *)
Section Log.
Context {E : Type} `{CP : CorePorts E}.
Abbreviation EL := (E * list Acc)%type.

Definition on_log (k : Z -> Acc) (m : M E Z) : M EL Z := fun '(e, l) =>
  match m e with Ok (r, e') => Ok (r, (e', l ++ [k r])) | Err f => Err f end.
Definition off_log {B} (m : M E B) : M EL B := fun '(e, l) =>
  match m e with Ok (b, e') => Ok (b, (e', l)) | Err f => Err f end.

Definition logged : CorePorts EL := {|
  l1i_load a c := on_log (mkAcc Fetch a c) (l1i_load a c);
  l1d_load a c := on_log (mkAcc DLoad a c) (l1d_load a c);
  l1d_store a c := on_log (mkAcc DStore a c) (l1d_store a c);
  l1i_contextSwitch := off_log l1i_contextSwitch;
  l1d_contextSwitch := off_log l1d_contextSwitch;
  cRec_record cur disp resp := off_log (cRec_record cur disp resp);
  cRec_notifyJoin c := off_log (cRec_notifyJoin c);
  cRec_notifyLeave c := off_log (cRec_notifyLeave c);
  cRec_cSimStart c := off_log (cRec_cSimStart c);
  cRec_cSimEnd c := off_log (cRec_cSimEnd c)
|}.

(** ** The log does not change what the core does *)
Definition same {X B} (ml : M (X * EL) B) (m : M (X * E) B) : Prop := forall x e l,
  match ml (x, (e, l)), m (x, e) with
  | Ok (b, (x1, (e1, _))), Ok (b2, (x2, e2)) => b = b2 /\ x1 = x2 /\ e1 = e2
  | Err f, Err g => f = g
  | _, _ => False
  end.

Lemma same_ret {X B} (b : B) : same (X := X) (mret b) (mret b).
Proof. by intros x e l. Qed.
Lemma same_lift {X B} (r : res B) : same (X := X) (mlift r) (mlift r).
Proof. intros x e l. unfold mlift. by destruct r. Qed.
Lemma same_assert {X} b msg : same (X := X) (massert b msg) (massert b msg).
Proof. intros x e l. unfold massert. by destruct b. Qed.
Lemma same_err {X B} f : same (X := X) (B := B) (fun _ => Err f) (fun _ => Err f).
Proof. by intros x e l. Qed.
Lemma same_bind {X B C} (ml : M (X * EL) B) m (kl : B -> M (X * EL) C) k :
  same ml m -> (forall b, same (kl b) (k b)) -> same (ml ≫= kl) (m ≫= k).
Proof.
  intros Hm Hk x e l. specialize (Hm x e l). unfold mbind, M_bind.
  destruct (ml (x, (e, l))) as [[b [x1 [e1 l1]]]|], (m (x, e)) as [[b2 [x2 e2]]|]; try done.
  destruct Hm as (-> & -> & ->). apply Hk.
Qed.
(** Only the core's part of the state is read. *)
Lemma same_get {X C} (kl : X -> M (X * EL) C) k : (forall x, same (kl x) (k x)) ->
  same (mget ≫= fun '(x, _) => kl x) (mget ≫= fun '(x, _) => k x).
Proof. intros Hk x e l. unfold mbind, M_bind, mget. apply Hk. Qed.
Lemma same_on_state {X B} (m : M X B) : same (on_state m) (on_state m).
Proof. intros x e l. unfold on_state. by destruct (m x) as [[b x']|]. Qed.
Lemma same_log {X} k (m : M E Z) : same (X := X) (on_env (on_log k m)) (on_env m).
Proof. intros x e l. unfold on_env, on_log. by destruct (m e) as [[b e']|]. Qed.
Lemma same_off {X B} (m : M E B) : same (X := X) (on_env (off_log m)) (on_env m).
Proof. intros x e l. unfold on_env, off_log. by destruct (m e) as [[b e']|]. Qed.
Lemma same_on_issue {B} (m : M Issue B) : same (on_issue m) (on_issue m).
Proof. intros x e l. unfold on_issue. by destruct (m _) as [[b x']|]. Qed.
Lemma same_on_lsu {B} (ml : M (Lsu * EL) B) m : same ml m -> same (on_lsu ml) (on_lsu m).
Proof.
  intros Hm c e l. specialize (Hm (c_lsu c) e l). unfold on_lsu.
  destruct (ml _) as [[b [x1 [e1 l1]]]|], (m _) as [[b2 [x2 e2]]|]; try done. by destruct Hm as (-> & -> & ->).
Qed.

Create HintDb samedb.
Ltac same_step :=
  lazymatch goal with
  | |- forall _, _ => intros ?
  | |- same (mbind (fun '(x, _) => _) mget) _ => apply same_get
  | |- same (mbind _ _) (mbind _ _) => apply same_bind
  | |- same (match ?x with _ => _ end) _ => destruct x
  | |- same (on_lsu _) _ => apply same_on_lsu
  | |- same (mret _) _ => apply same_ret
  | |- same (mlift _) _ => apply same_lift
  | |- same (massert _ _) _ => apply same_assert
  | |- same (on_state _) _ => apply same_on_state
  | |- same (on_issue _) _ => apply same_on_issue
  | |- same (on_env (on_log _ _)) _ => apply same_log
  | |- same (on_env (off_log _)) _ => apply same_off
  | |- same (fun _ => Err _) _ => apply same_err
  | |- _ => solve [auto with samedb nocore]
  end.
Ltac same_tac := repeat same_step.

Lemma same_lsu_uop uop cyc d a : same (lsu_uop (CP := logged) uop cyc d a) (lsu_uop uop cyc d a).
Proof. unfold lsu_uop, lsu_load, lsu_store. cbn [logged l1d_load l1d_store cRec_record]. same_tac. Qed.
#[local] Hint Resolve same_lsu_uop : samedb.
Lemma same_run_uop uop prev li si : same (run_uop (CP := logged) uop prev li si) (run_uop uop prev li si).
Proof. unfold run_uop. same_tac. Qed.
#[local] Hint Resolve same_run_uop : samedb.
Lemma same_run_uops us : forall prev li si lc, same (run_uops (CP := logged) us prev li si lc) (run_uops us prev li si lc).
Proof. induction us as [|u us IH]; intros; cbn [run_uops]; same_tac. Qed.
Lemma same_wrong_path lineBits n : forall i a cyc req lc,
  same (wrong_path (CP := logged) lineBits n i a cyc req lc) (wrong_path lineBits n i a cyc req lc).
Proof. induction n as [|n IH]; intros; cbn [wrong_path logged l1i_load cRec_record]; same_tac. Qed.
Lemma same_ifetch lineBits n : forall a b cyc fc,
  same (ifetch (CP := logged) lineBits n a b cyc fc) (ifetch lineBits n a b cyc fc).
Proof. induction n as [|n IH]; intros; cbn [ifetch logged l1i_load cRec_record]; same_tac. Qed.
#[local] Hint Resolve same_run_uops same_wrong_path same_ifetch : samedb.
Lemma same_predict : same (predict_branch (E := EL)) (predict_branch (E := E)).
Proof. intros c e l. unfold predict_branch. destruct (_ =? 0); [done|]. by destruct (BP.predict _ _ _ _ _ _) as [[b p]|]. Qed.
#[local] Hint Resolve same_predict : samedb.
Lemma same_bbl lineBits bblAddr info : same (bbl (CP := logged) lineBits bblAddr info) (bbl lineBits bblAddr info).
Proof. unfold bbl, frontend, branch_fetch, modify_core. same_tac. Qed.

(** ** What is logged *)
Definition emits {X B} (m : M (X * EL) B) (x : X) (P : B -> X -> list Acc -> Prop) : Prop :=
  forall e l b x' e' l', m (x, (e, l)) = Ok (b, (x', (e', l'))) -> exists k, l' = l ++ k /\ P b x' k.

Lemma emits_mono {X B} (m : M (X * EL) B) x (P Q : B -> X -> list Acc -> Prop) :
  emits m x P -> (forall b x' k, P b x' k -> Q b x' k) -> emits m x Q.
Proof. intros Hm HPQ e l b x' e' l' Hr. destruct (Hm e l b x' e' l' Hr) as (k & -> & HP). eauto. Qed.
Lemma emits_ret {X B} (b : B) x (P : B -> X -> list Acc -> Prop) : P b x [] -> emits (mret b) x P.
Proof. intros HP e l b' x' e' l' [= <- <- <- <-]. exists []. by rewrite app_nil_r. Qed.
Lemma emits_bind {X B C} (m : M (X * EL) B) (f : B -> M (X * EL) C) x P Q :
  emits m x P -> (forall b x' k, P b x' k -> emits (f b) x' (fun c x'' k' => Q c x'' (k ++ k'))) -> emits (m ≫= f) x Q.
Proof.
  intros Hm Hf e l c x' e' l' Hr. unfold mbind, M_bind in Hr. destruct (m (x, (e, l))) as [[b [x1 [e1 l1]]]|] eqn:E1; [|done].
  destruct (Hm e l b x1 e1 l1 E1) as (k & -> & HP). destruct (Hf b x1 k HP e1 (l ++ k) c x' e' l' Hr) as (k' & -> & HQ).
  exists (k ++ k'). by rewrite app_assoc.
Qed.
Lemma emits_lift {X B} (r : res B) x (P : B -> X -> list Acc -> Prop) : (forall b, r = Ok b -> P b x []) -> emits (mlift r) x P.
Proof. intros HP e l b x' e' l'. unfold mlift. destruct r as [b0|]; [|done]. intros [= <- <- <- <-]. exists []. rewrite app_nil_r. eauto. Qed.
Lemma emits_get {X C} (f : X -> M (X * EL) C) x Q : emits (f x) x Q -> emits (mget ≫= fun '(x, _) => f x) x Q.
Proof. intros Hf e l c x' e' l' Hr. by eapply (Hf e l). Qed.
Lemma emits_on_state {X B} (m : M X B) x (P : B -> X -> list Acc -> Prop) :
  (forall b x', m x = Ok (b, x') -> P b x' []) -> emits (on_state m) x P.
Proof.
  intros HP e l b x' e' l'. unfold on_state. destruct (m x) as [[b0 x0]|] eqn:Em; [|done]. intros [= <- <- <- <-].
  exists []. rewrite app_nil_r. eauto.
Qed.
Lemma emits_on_issue {B} (m : M Issue B) c (P : B -> OOOCore -> list Acc -> Prop) :
  (forall b i, m (c_issue c) = Ok (b, i) -> P b (set_issue i c) []) -> emits (on_issue m) c P.
Proof.
  intros HP e l b x' e' l'. unfold on_issue. destruct (m (c_issue c)) as [[b0 x0]|] eqn:Em; [|done]. intros [= <- <- <- <-].
  exists []. rewrite app_nil_r. eauto.
Qed.
Lemma emits_on_lsu {B} (m : M (Lsu * EL) B) c (P : B -> OOOCore -> list Acc -> Prop) :
  emits m (c_lsu c) (fun b l k => P b (set_lsu l c) k) -> emits (on_lsu m) c P.
Proof.
  intros Hm e l b x' e' l'. unfold on_lsu. destruct (m (c_lsu c, (e, l))) as [[b0 [l0 [e0 l1]]]|] eqn:Em; [|done].
  intros [= <- <- <- <-]. by eapply Hm.
Qed.
Lemma emits_log {X} h (m : M E Z) x (P : Z -> X -> list Acc -> Prop) : (forall r, P r x [h r]) -> emits (on_env (on_log h m)) x P.
Proof.
  intros HP e l b x' e' l'. unfold on_env, on_log. destruct (m e) as [[r e0]|]; [|done]. intros [= <- <- <- <-]. eauto.
Qed.
Lemma emits_off {X B} (m : M E B) x (P : B -> X -> list Acc -> Prop) : (forall b, P b x []) -> emits (on_env (off_log m)) x P.
Proof.
  intros HP e l b x' e' l'. unfold on_env, off_log. destruct (m e) as [[r e0]|]; [|done]. intros [= <- <- <- <-].
  exists []. rewrite app_nil_r. eauto.
Qed.

(** The port and the address of a request. *)
Definition ref (a : Acc) : Port * Z := (acc_port a, acc_addr a).
(** The requests of a uop with the recorded address [a]; a predicated-off load has none. *)
Definition uop_refs (u : DynUop) (a : Z) : list (Port * Z) :=
  match u_type u with
  | UOP_LOAD => if a =? NO_ADDR then [] else [(DLoad, a)]
  | UOP_STORE => [(DStore, a)]
  | _ => []
  end.
(** Those of the uops of a block, from load [li] and store [si] on. *)
Fixpoint mem_refs (us : list DynUop) (m : MemOps) (li si : nat) : list (Port * Z) :=
  match us with
  | [] => []
  | u :: us =>
    match u_type u with
    | UOP_LOAD => uop_refs u (loadAddrs m !!! li) ++ mem_refs us m (S li) si
    | UOP_STORE => uop_refs u (storeAddrs m !!! si) ++ mem_refs us m li (S si)
    | _ => mem_refs us m li si
    end
  end.

Lemma emits_lsu_uop u cyc d a lsu : emits (lsu_uop (CP := logged) u cyc d a) lsu (fun _ _ k => ref <$> k = uop_refs u a).
Proof.
  unfold lsu_uop, uop_refs. destruct (u_type u).
  - by apply emits_ret.
  - unfold lsu_load. cbn [logged l1d_load cRec_record]. eapply emits_bind; [by apply (emits_on_state _ _ (fun b _ k => k = [])); intros|]. intros l0 x1 ? ->.
    eapply emits_bind; [by apply (emits_on_state _ _ (fun b _ k => k = [])); intros|]. intros lq x2 ? ->.
    eapply (emits_bind _ _ _ (fun _ _ k => ref <$> k = if a =? NO_ADDR then [] else [(DLoad, a)])).
    + destruct (a =? NO_ADDR); cbn [negb]; [by apply emits_ret|]. eapply emits_bind; [by apply (emits_log _ _ _ (fun r _ k => ref <$> k = [(DLoad, a)]))|].
      intros r x3 k Hk. eapply emits_bind; [by apply (emits_off _ _ (fun _ _ k => k = []))|]. intros [] x4 ? ->. apply emits_ret. by rewrite !app_nil_r.
    + intros r x3 k Hk. eapply emits_bind; [by apply (emits_on_state _ _ (fun b _ k => k = [])); intros|]. intros f x4 ? ->.
      eapply emits_bind; [by apply (emits_on_state _ _ (fun b _ k => k = [])); intros|]. intros q x5 ? ->.
      eapply emits_bind; [by apply (emits_on_state _ _ (fun b _ k => k = [])); intros|]. intros [] x6 ? ->.
      apply emits_ret. by rewrite !app_nil_r.
  - unfold lsu_store. cbn [logged l1d_store cRec_record]. eapply emits_bind; [by apply (emits_on_state _ _ (fun b _ k => k = [])); intros|]. intros l0 x1 ? ->.
    eapply emits_bind; [by apply (emits_on_state _ _ (fun b _ k => k = [])); intros|]. intros lq x2 ? ->.
    eapply emits_bind; [by apply (emits_log _ _ _ (fun r _ k => ref <$> k = [(DStore, a)]))|]. intros r x3 k Hk.
    eapply emits_bind; [by apply (emits_off _ _ (fun _ _ k => k = []))|]. intros [] x4 ? ->.
    do 3 (eapply emits_bind; [by apply (emits_on_state _ _ (fun b _ k => k = [])); intros|]; intros ? ? ? ->).
    apply emits_ret. by rewrite !app_nil_r.
  - eapply emits_bind; [by apply (emits_on_state _ _ (fun b _ k => k = [])); intros|]. intros [] x1 ? ->. by apply emits_ret.
  - eapply emits_bind; [by apply (emits_on_state _ _ (fun b _ k => k = [])); intros|]. intros [] x1 ? ->. by apply emits_ret.
Qed.

Lemma emits_run_uop u prev li si c : emits (run_uop (CP := logged) u prev li si) c (fun r c' k =>
  c_mem c' = c_mem c /\ exists a, next_addr u (c_mem c) li si = Ok (a, r.1.2, r.2) /\ ref <$> k = uop_refs u a).
Proof.
  unfold run_uop. eapply emits_bind; [by apply (emits_on_issue _ _ (fun _ c' k => k = [] /\ c_mem c' = c_mem c)); intros|].
  intros d c1 ? [-> E1]. apply emits_get.
  eapply (emits_bind _ _ _ (fun r c' k => k = [] /\ c' = c1 /\ next_addr u (c_mem c1) li si = Ok r)); [by apply emits_lift; intros|].
  intros [[a li'] si'] ? ? (-> & -> & Ha).
  eapply (emits_bind _ _ _ (fun _ c' k => c_mem c' = c_mem c1 /\ ref <$> k = uop_refs u a)).
  - apply emits_on_lsu. eapply emits_mono; [apply emits_lsu_uop|]. intros b lsu k Hk. done.
  - intros commit c2 k [E2 Hk]. eapply emits_bind; [by apply (emits_on_issue _ _ (fun _ c' k => k = [] /\ c_mem c' = c_mem c2)); intros|].
    intros [] c3 ? [-> E3]. apply emits_ret. rewrite !app_nil_r. split; [congruence|]. exists a. cbn. by rewrite <- E1.
Qed.

Lemma next_addr_refs u m li si a li' si' : next_addr u m li si = Ok (a, li', si') ->
  (forall us, uop_refs u a ++ mem_refs us m li' si' = mem_refs (u :: us) m li si).
Proof.
  unfold next_addr, arr_get. intros Er us. cbn [mem_refs]. unfold uop_refs.
  destruct (u_type u); [by injection Er as <- <- <-| | |by injection Er as <- <- <-..].
  - destruct (loadAddrs m !! li) as [x|] eqn:Ex; [|done]. injection Er as <- <- <-. by rewrite (list_lookup_total_correct _ _ _ Ex).
  - destruct (storeAddrs m !! si) as [x|] eqn:Ex; [|done]. injection Er as <- <- <-. by rewrite (list_lookup_total_correct _ _ _ Ex).
Qed.

Lemma emits_run_uops us : forall prev li si lc c, emits (run_uops (CP := logged) us prev li si lc) c (fun _ c' k =>
  c_mem c' = c_mem c /\ ref <$> k = mem_refs us (c_mem c) li si).
Proof.
  induction us as [|u us IH]; intros prev li si lc c; cbn [run_uops]; [by apply emits_ret|].
  eapply emits_bind; [apply emits_run_uop|]. intros [[commit li'] si'] c1 k (E1 & a & Ha & Hk). cbn [fst snd] in *.
  eapply emits_mono; [apply IH|]. intros b c2 k' [E2 Hk']. split; [congruence|].
  rewrite fmap_app, Hk, Hk', E1. by apply next_addr_refs.
Qed.

(** *** The front end *)
Context (lineBits : Z).
Abbreviation lineSize := (lineSize lineBits).

(** The branch that ended the last block was mispredicted. *)
Definition mispredicted (b : Branch) : bool :=
  if branchPc b =? 0 then false
  else match BP.predict BP_NB BP_HB BP_LB (branchPc b) (branchTaken b) (branchPred b) with
       | Ok (correct, _) => negb correct
       | Err _ => false
       end.
(** The other target of the branch. *)
Definition wrong_target (b : Branch) : Z := if branchTaken b then branchNotTakenNpc b else branchTakenNpc b.

(** The fetches [ws] at cycle [cyc] of at most [n] lines of the path at [a], from line [i]
    on: the first at [req], each one [lineSize / 16] cycles after the answer to the one
    before, until an answer comes after [lc]. *)
Fixpoint WrongPath (n : nat) (i a cyc req lc : Z) (ws : list Acc) : Prop :=
  match n, ws with
  | O, [] => True
  | S n, w :: ws =>
    acc_port w = Fetch /\ acc_addr w = u64 (a + u32 (lineSize * i)) /\ acc_cycle w = cyc /\
    let resp := req + u64 (acc_resp w - cyc) in
    if resp >? lc then ws = []
    else WrongPath n (i + 1) a cyc (resp + lineSize / FETCH_BYTES_PER_CYCLE) lc ws
  | _, _ => False
  end.

Lemma emits_wrong_path n : forall i a cyc req lc c, emits (wrong_path (CP := logged) lineBits n i a cyc req lc) c (fun _ c' k =>
  c' = c /\ WrongPath n i a cyc req lc k).
Proof.
  induction n as [|n IH]; intros i a cyc req lc c; cbn [wrong_path]; [by apply emits_ret|]. cbn [logged l1i_load cRec_record].
  eapply emits_bind; [by apply (emits_log _ _ _ (fun r c' k => c' = c /\ k = [mkAcc Fetch (u64 (a + u32 (lineSize * i))) cyc r]))|].
  intros r c1 ? (-> & ->). eapply emits_bind; [by apply (emits_off _ _ (fun _ c' k => c' = c /\ k = []))|]. intros [] c2 ? (-> & ->).
  destruct (_ >? lc) eqn:Egt.
  - apply emits_ret. split; [done|]. cbn [WrongPath app acc_port acc_addr acc_cycle acc_resp]. by rewrite Egt.
  - eapply emits_mono; [apply IH|]. intros b c3 k [-> Hk]. split; [done|]. cbn [WrongPath app acc_port acc_addr acc_cycle acc_resp]. by rewrite Egt.
Qed.

(** The fetches [ks] at cycle [cyc] of the lines from [a] to [b]. *)
Fixpoint Lines (a b cyc : Z) (ks : list Acc) : Prop :=
  match ks with
  | [] => b <= a
  | k :: ks => a < b /\ acc_port k = Fetch /\ acc_addr k = a /\ acc_cycle k = cyc /\ Lines (u64 (a + lineSize)) b cyc ks
  end.
Definition fetch_lat (cyc : Z) (ks : list Acc) : Z := foldr (fun k s => u64 (acc_resp k - cyc) + s) 0 ks.

Lemma emits_ifetch n : forall a b cyc fc c, emits (ifetch (CP := logged) lineBits n a b cyc fc) c (fun fc' c' k =>
  c' = c /\ Lines a b cyc k /\ fc' = fc + fetch_lat cyc k).
Proof.
  induction n as [|n IH]; intros a b cyc fc c; cbn [ifetch]; destruct (Z.ltb_spec a b).
  - intros e l ? ? ? ? Hr. done.
  - apply emits_ret. cbn. split; [done|]. split; lia.
  - cbn [logged l1i_load cRec_record].
    eapply emits_bind; [by apply (emits_log _ _ _ (fun r c' k => c' = c /\ k = [mkAcc Fetch a cyc r]))|].
    intros r c1 ? (-> & ->). eapply emits_bind; [by apply (emits_off _ _ (fun _ c' k => c' = c /\ k = []))|]. intros [] c2 ? (-> & ->).
    eapply emits_mono; [apply IH|]. intros fc' c3 k (-> & Hk & ->). split; [done|]. unfold fetch_lat. cbn. split; [done|lia].
  - apply emits_ret. cbn. split; [done|]. split; lia.
Qed.

Definition fetch_start (b : Branch) (dec lc : Z) : Z := if mispredicted b then lc else u64 (dec - (DECODE_STAGE - FETCH_STAGE)).

Lemma emits_branch_fetch fc lc c : emits (branch_fetch (CP := logged) lineBits fc lc) c (fun fc' c' k =>
  (if mispredicted (c_branch c) then
     WrongPath (Z.to_nat (5 * 64 / lineSize)) 0 (wrong_target (c_branch c)) (curCycle (c_issue c)) fc lc k /\ fc' = lc
   else k = [] /\ fc' = fc) /\
  c_issue c' = c_issue c /\ c_lsu c' = c_lsu c /\
  mispredBranches (c_cnt c') = if mispredicted (c_branch c) then u64 (mispredBranches (c_cnt c) + 1) else mispredBranches (c_cnt c)).
Proof.
  unfold branch_fetch. eapply (emits_bind _ _ _ (fun m c' k => k = [] /\ m = mispredicted (c_branch c) /\ exists p, c' = set_branch p c /\
    wrong_target p = wrong_target (c_branch c))).
  { intros e l m c' e' l'. unfold predict_branch, mispredicted. destruct (_ =? 0).
    - intros [= <- <- <- <-]. exists []. rewrite app_nil_r. split; [done|]. split; [done|]. split; [done|]. exists (c_branch c). by destruct c.
    - destruct (BP.predict _ _ _ _ _ _) as [[ok p]|]; [|done]. intros [= <- <- <- <-]. exists []. rewrite app_nil_r. do 3 (split; [done|]). by eexists. }
  intros m c1 ? (-> & -> & p & -> & Ep).
  eapply (emits_bind _ _ _ (fun fc' c' k => (if mispredicted (c_branch c) then
     WrongPath (Z.to_nat (5 * 64 / lineSize)) 0 (wrong_target (c_branch c)) (curCycle (c_issue c)) fc lc k /\ fc' = lc
   else k = [] /\ fc' = fc) /\ c_issue c' = c_issue c /\ c_lsu c' = c_lsu c /\
   mispredBranches (c_cnt c') = if mispredicted (c_branch c) then u64 (mispredBranches (c_cnt c) + 1) else mispredBranches (c_cnt c))).
  - destruct (mispredicted (c_branch c)).
    + eapply (emits_bind _ _ _ (fun _ c' k => k = [] /\ c' = set_cnt (inc_mispred (c_cnt c)) (set_branch p c))).
      { unfold modify_core. apply emits_on_state. by intros b x [= <- <-]. }
      intros [] c2 ? (-> & ->). apply emits_get. eapply emits_bind; [apply emits_wrong_path|]. intros [] c3 k [-> Hk].
      apply emits_ret. cbn in Hk. fold (wrong_target p) in Hk. rewrite Ep in Hk. rewrite app_nil_r. cbn. done.
    + apply emits_ret. by cbn.
  - intros fc' c2 k Hk. eapply emits_bind.
    { unfold modify_core. apply (emits_on_state _ _ (fun _ c' k => k = [] /\ c_issue c' = c_issue c2 /\ c_lsu c' = c_lsu c2 /\ c_cnt c' = c_cnt c2)).
      by intros b x [= <- <-]. }
    intros [] c3 ? (-> & E1 & E2 & E3). apply emits_ret. rewrite !app_nil_r, E1, E2, E3. done.
Qed.

Lemma emits_frontend bblAddr info lc c : emits (frontend (CP := logged) lineBits bblAddr info lc) c (fun _ c' k =>
  exists ws ks, k = ws ++ ks /\
    (if mispredicted (c_branch c) then WrongPath (Z.to_nat (5 * 64 / lineSize)) 0 (wrong_target (c_branch c)) (curCycle (c_issue c))
       (u64 (decodeCycle (c_issue c) - (DECODE_STAGE - FETCH_STAGE))) lc ws else ws = []) /\
    Lines bblAddr (u64 (bblAddr + bi_bytes info)) (curCycle (c_issue c)) ks /\
    decodeCycle (c_issue c') = Z.max (decodeCycle (c_issue c) + 1)
      (fetch_start (c_branch c) (decodeCycle (c_issue c)) lc + fetch_lat (curCycle (c_issue c)) ks + (DECODE_STAGE - FETCH_STAGE)) /\
    regScoreboard (c_issue c') = regScoreboard (c_issue c) /\ rob (c_issue c') = rob (c_issue c) /\ curCycle (c_issue c') = curCycle (c_issue c) /\
    c_lsu c' = c_lsu c /\
    mispredBranches (c_cnt c') = if mispredicted (c_branch c) then u64 (mispredBranches (c_cnt c) + 1) else mispredBranches (c_cnt c)).
Proof.
  unfold frontend. apply emits_get. eapply emits_bind; [apply emits_branch_fetch|]. intros fc c1 ws (Hws & E1 & E2 & E3). apply emits_get.
  rewrite E1. eapply emits_bind; [apply emits_ifetch|]. intros fc' ? ks (-> & Hks & ->). unfold modify_core. apply emits_on_state.
  intros [] c2 [= <-]. exists ws, ks. rewrite app_nil_r. cbn. rewrite E1. split; [done|].
  split; [by destruct (mispredicted (c_branch c)); [apply Hws|apply Hws]|]. split; [done|]. split; [|done].
  rewrite Z.gtb_ltb. assert (Hfc : fc = fetch_start (c_branch c) (decodeCycle (c_issue c)) lc).
  { unfold fetch_start. destruct (mispredicted (c_branch c)); apply Hws. } rewrite Hfc.
  unfold DECODE_STAGE, FETCH_STAGE. match goal with |- context [?x <? ?y] => destruct (Z.ltb_spec x y) end; lia.
Qed.
End Log.

(** ** The laws of the logged ports *)
Section Laws.
Context {E : Type} `{CL : CorePortsLaws E}.

Lemma wp_on_log k (m : M E Z) Q e l : wp m (fun r e' => Q r (e', l ++ [k r])) e -> wp (on_log k m) Q (e, l).
Proof. unfold wp, on_log. by destruct (m e) as [[b e']|]. Qed.
Lemma wp_off_log {B} (m : M E B) Q e l : wp m (fun b e' => Q b (e', l)) e -> wp (off_log m) Q (e, l).
Proof. unfold wp, off_log. by destruct (m e) as [[b e']|]. Qed.

Definition logged_laws : CorePortsLaws (CP := logged) (E * list Acc).
Proof.
  refine (Build_CorePortsLaws _ logged (fun T el => env_ok T el.1) port_lat cycle_limit iaddr_ok daddr_ok port_lat_nonneg cycle_limit_64 _ _ _ _ _).
  - intros T T' [e l]. apply env_mono.
  - intros T [e l] a c HE Ha Hc HT. apply wp_on_log. by apply l1i_load_law.
  - intros T [e l] a c HE Ha Hc HT. apply wp_on_log. by apply l1d_load_law.
  - intros T [e l] a c HE Ha Hc HT. apply wp_on_log. by apply l1d_store_law.
  - intros T [e l] cur disp resp HE Hr. apply wp_off_log. by apply record_law.
Defined.
End Laws.

(** ** The lines of a block *)
Lemma Lines_addrs lineBits b cyc ks : 0 <= lineBits <= 6 -> b + lineSize lineBits < two64 -> forall a, 0 <= a ->
  Lines lineBits a b cyc ks -> Forall (fun k => acc_port k = Fetch /\ acc_cycle k = cyc) ks /\
    acc_addr <$> ks = (fun i => a + lineSize lineBits * Z.of_nat i) <$> seq 0 (Z.to_nat ((b - a + lineSize lineBits - 1) / lineSize lineBits)).
Proof.
  intros HLB Hb. pose proof (lineSize_range 1 Nat.lt_0_1 lineBits HLB) as HL. set (L := lineSize lineBits) in *.
  induction ks as [|k ks IH]; intros a Ha; cbn [Lines].
  - intros Hle. split; [done|]. assert ((b - a + L - 1) / L <= 0) by (apply Z.lt_succ_r, Z.div_lt_upper_bound; lia).
    by replace (Z.to_nat _) with 0%nat by lia.
  - intros (Hlt & Hp & Ek & Hc & Hks). fold L in Hks. rewrite u64_small in Hks by lia. destruct (IH (a + L) ltac:(lia) Hks) as [HF Hm]. split; [by constructor|].
    cbn [fmap list_fmap]. rewrite Ek.
    assert (E : (b - a + L - 1) / L = 1 + (b - (a + L) + L - 1) / L).
    { replace (b - a + L - 1) with (1 * L + (b - (a + L) + L - 1)) by lia. rewrite Z.div_add_l by lia. lia. }
    assert (0 <= (b - (a + L) + L - 1) / L) by (apply Z.div_pos; lia).
    rewrite E, Z2Nat.inj_add by lia. change (Z.to_nat 1) with 1%nat. cbn [seq Nat.add fmap list_fmap]. f_equal; [lia|].
    etrans; [exact Hm|]. rewrite <- fmap_S_seq, <- list_fmap_compose. apply list_fmap_ext. intros _ i _. cbn. lia.
Qed.

(** ** A basic block *)
Section Block.
Context {E : Type} `{CL : CorePortsLaws E}.
Context (NREG : nat) (HN : (0 < NREG)%nat) (lineBits : Z) (HLB : 0 <= lineBits <= 6).

(** The core after the uops of [prev], before the front end. *)
Definition counted (prev : BblInfo) (c1 : OOOCore) : OOOCore :=
  let b := bi_oooBbl prev in
  let c2 := set_cnt (add_counters (bi_instrs prev) (Z.of_nat (length (db_uop b))) (db_approxInstrs b) (c_cnt c1)) c1 in
  set_mem (clear_mem (c_mem c2)) c2.

(** [bbl] is the loop over the uops and the front end. *)
Lemma bbl_split T c e bblAddr info prev : CoreOk NREG T c -> env_ok T e -> prevBbl c = Some prev ->
  BblOk NREG lineBits T c bblAddr info prev ->
  exists lc li si cs c1 e1 c' e', bbl lineBits bblAddr info (c, e) = Ok (tt, (c', e')) /\
    run_uops (db_uop (bi_oooBbl prev)) 0 0 0 0 (set_prevBbl (Some info) c, e) = Ok ((lc, li, si), (c1, e1)) /\
    Runs (db_uop (bi_oooBbl prev)) 0 0 (set_prevBbl (Some info) c) cs c1 /\ lc = default 0 (list.last cs) /\
    frame (set_prevBbl (Some info) c) c1 /\
    frontend lineBits bblAddr info lc (counted prev c1, e1) = Ok (tt, (c', e')).
Proof.
  intros HC HE Hprev HB. destruct (wp_elim _ _ _ (bbl_spec NREG HN lineBits HLB T c e bblAddr info prev HC HE Hprev HB)) as ([] & [c' e'] & Hrun & _).
  pose proof HB as [B1 B2 B3 B4 B5 B6 B7]. pose proof (io_cur _ _ _ (co_issue _ _ _ HC)) as Hcur. unfold upto in Hcur.
  pose proof (ucosts_nonneg NREG HN 0 _ B1) as Hu.
  assert (Hcu : curCycle (c_issue c) <= T + ucosts 0 (db_uop (bi_oooBbl prev))) by lia.
  destruct (front_bound_ge NREG HN lineBits HLB _ _ _ (fo_bytes _ _ _ _ B5) Hcu) as [HT1 HT2].
  assert (Hw := run_uops_spec NREG HN (db_uop (bi_oooBbl prev)) T 0 0 0 0 (set_prevBbl (Some info) c) e).
  destruct (wp_elim _ _ _ (Hw ltac:(destruct HC; by split) HE B4 ltac:(lia) B1 ltac:(unfold upto; lia) ltac:(cbn; lia) ltac:(cbn; lia) ltac:(cbn; lia) ltac:(lia)))
    as ([[lc li] si] & [c1 e1] & Hu1 & _ & _ & Eli & Esi & _ & HF & _ & cs & HRs & Elc). cbn [fst snd] in *.
  exists lc, li, si, cs, c1, e1, c', e'. split; [done|]. split; [done|]. split; [done|]. split; [done|]. split; [done|].
  unfold bbl, mbind, M_bind, mget in Hrun. rewrite Hprev in Hrun. unfold modify_core, on_state, mmodify in Hrun. rewrite Hu1 in Hrun.
  destruct HF as (F1 & _). cbn in F1. cbn [c_mem set_cnt] in Hrun. rewrite F1, B2, B3 in Hrun. subst li si. unfold massert in Hrun. rewrite !Nat.eqb_refl in Hrun.
  exact Hrun.
Qed.
End Block.

Section Run.
Context {E : Type} `{CL : CorePortsLaws E}.
Context (NREG : nat) (HN : (0 < NREG)%nat) (lineBits : Z) (HLB : 0 <= lineBits <= 6).

(** What a block does: [data] are its requests for the uops' memory operations, [ws] those
    on the wrong path, [ks] those for the lines of the next block; [cs] are the commit cycles
    of the uops and [c1] is the core after them. *)
Record BlockRun c (bblAddr : Z) (info prev : BblInfo) (data ws ks : list Acc) (cs : list Z) (c1 c' : OOOCore) : Prop := {
  br_uops : Runs (db_uop (bi_oooBbl prev)) 0 0 (set_prevBbl (Some info) c) cs c1;
  br_all : length cs = length (db_uop (bi_oooBbl prev));
  br_data : ref <$> data = mem_refs (db_uop (bi_oooBbl prev)) (c_mem c) 0 0;
  br_wrong : if mispredicted (c_branch c)
    then WrongPath lineBits (Z.to_nat (5 * 64 / lineSize lineBits)) 0 (wrong_target (c_branch c)) (curCycle (c_issue c1))
           (u64 (decodeCycle (c_issue c1) - (DECODE_STAGE - FETCH_STAGE))) (default 0 (list.last cs)) ws
    else ws = [];
  br_ports : Forall (fun k => acc_port k = Fetch /\ acc_cycle k = curCycle (c_issue c1)) ks;
  br_lines : acc_addr <$> ks = (fun i => bblAddr + lineSize lineBits * Z.of_nat i) <$> seq 0 (Z.to_nat (bbl_lines lineBits (bi_bytes info)));
  br_decode : decodeCycle (c_issue c') = Z.max (decodeCycle (c_issue c1) + 1)
    (fetch_start (c_branch c) (decodeCycle (c_issue c1)) (default 0 (list.last cs)) + fetch_lat (curCycle (c_issue c1)) ks
       + (DECODE_STAGE - FETCH_STAGE));
  br_kept : regScoreboard (c_issue c') = regScoreboard (c_issue c1) /\ rob (c_issue c') = rob (c_issue c1) /\
    curCycle (c_issue c') = curCycle (c_issue c1) /\ c_lsu c' = c_lsu c1;
  br_mispred : mispredBranches (c_cnt c') =
    if mispredicted (c_branch c) then u64 (mispredBranches (c_cnt c) + 1) else mispredBranches (c_cnt c)
}.

Lemma Runs_length us li si c cs c1 : Runs us li si c cs c1 -> length cs = length us.
Proof. induction 1; cbn; lia. Qed.

Lemma block_run T c e bblAddr info prev : CoreOk NREG T c -> env_ok T e -> prevBbl c = Some prev ->
  BblOk NREG lineBits T c bblAddr info prev ->
  exists c' e' data ws ks cs c1, bbl lineBits bblAddr info (c, e) = Ok (tt, (c', e')) /\
    bbl (CP := logged) lineBits bblAddr info (c, (e, [])) = Ok (tt, (c', (e', data ++ ws ++ ks))) /\
    BlockRun c bblAddr info prev data ws ks cs c1 c'.
Proof.
  intros HC HE Hprev HB. pose proof HB as [B1 B2 B3 [B4 B4'] [B5 B6 [B7 B8] B9] B10 B11].
  destruct (bbl_split (CL := logged_laws) NREG HN lineBits HLB T c (e, []) bblAddr info prev HC HE Hprev ltac:(split; try done; by split)) as
    (lc & li & si & cs & c1 & [e1 l1] & c' & [e' l'] & Hbl & Hu & HRs & -> & HF & Hf).
  pose proof (same_bbl lineBits bblAddr info c e []) as Hs. rewrite Hbl in Hs.
  destruct (bbl lineBits bblAddr info (c, e)) as [[[] [c2 e2]]|] eqn:Hp; [|done]. destruct Hs as (_ & <- & <-).
  destruct (emits_run_uops _ _ _ _ _ _ _ _ _ _ _ _ Hu) as (data & -> & _ & Hd).
  destruct (emits_frontend _ _ _ _ _ _ _ _ _ _ _ Hf) as (k & -> & ws & ks & -> & Hw & Hk & H1 & H2 & H3 & H4 & H5 & H6).
  destruct HF as (F1 & F2 & F3 & _). cbn in F1, F2, F3.
  cbn [counted set_mem set_cnt c_branch c_issue c_lsu c_cnt mispredBranches add_counters] in Hw, Hk, H1, H2, H3, H4, H5, H6.
  rewrite F2 in Hw, H1, H6. rewrite F3 in H6.
  pose proof (lineSize_range NREG HN lineBits HLB).
  rewrite u64_small in Hk by (unfold two64 in *; lia). destruct (Lines_addrs lineBits _ _ _ HLB B8 _ B7 Hk) as [HK1 HK2].
  exists c', e', data, ws, ks, cs, c1. split; [done|]. split; [by rewrite Hbl|]. split; try done.
  - by eapply Runs_length.
  - etrans; [exact HK2|]. unfold bbl_lines. by replace (bblAddr + bi_bytes info - bblAddr) with (bi_bytes info) by lia.
Qed.
End Run.
