(* ===== verification/OOOSystem.v ===== *)
(** * An out-of-order core on the coherent hierarchy

    The filter caches of [Coherence] implement the ports of [OOOCore]: they answer
    within the latency of the hierarchy, and no filter entry becomes available
    later than that.  The core's theorems then hold on the hierarchy. *)

From S2P Require Import Prelude Bithacks MemHier TimingEvent ReplPolicies CacheArrays Coherence CoherenceInv CoherenceDown CoherenceUp CoherenceTop CoherenceExample InsWindow OOOStructs OOOCore OOOCoreInv OOOCoreThms OOOTrace.

(** ** Properties that a computation keeps, if it returns *)
Section Keeps.
Context {S : Type} (P : S -> Prop).

Definition keeps {B} (m : M S B) : Prop := forall s b s', m s = Ok (b, s') -> P s -> P s'.

Lemma keeps_ret {B} (b : B) : keeps (mret b).
Proof. by intros s b' s' [= <- <-]. Qed.
Lemma keeps_bind {B C} (m : M S B) (k : B -> M S C) : keeps m -> (forall b, keeps (k b)) -> keeps (m ≫= k).
Proof.
  intros Hm Hk s c s' Hrun HP. unfold mbind, M_bind in Hrun. destruct (m s) as [[b s1]|] eqn:E; [|done].
  eapply Hk; [done|]. by eapply Hm.
Qed.
Lemma keeps_get : keeps mget.
Proof. by intros s b' s' [= <- <-]. Qed.
Lemma keeps_gets {B} (f : S -> B) : keeps (mgets f).
Proof. by intros s b' s' [= <- <-]. Qed.
Lemma keeps_modify f : (forall s, P s -> P (f s)) -> keeps (mmodify f).
Proof. intros Hf s b' s' [= <- <-]. apply Hf. Qed.
Lemma keeps_assert b msg : keeps (massert b msg).
Proof. intros s b' s'. unfold massert. destruct b; [|done]. by intros [= <- <-]. Qed.
Lemma keeps_lift {B} (r : res B) : keeps (mlift r).
Proof. intros s b' s'. unfold mlift. destruct r; [|done]. by intros [= <- <-]. Qed.
Lemma keeps_err {B} f : keeps (fun _ => Err f : res (B * S)).
Proof. done. Qed.

Lemma wp_keeps {B} (m : M S B) Q s : wp m Q s -> keeps m -> P s -> wp m (fun b s' => Q b s' /\ P s') s.
Proof. unfold wp. destruct (m s) as [[b s']|] eqn:E; [|done]. intros HQ Hk HP. split; [done|]. by eapply Hk. Qed.
End Keeps.

(** ** The availability cycles of the filter entries *)
Section Avail.
Context {A : Type} `{HL : CacheArrayLaws A}.
Context (cfg : nat -> CacheCfg) (memLatency : nat -> Z).
Implicit Types (s : Sys A).

Definition Avail (T : Z) s : Prop :=
  forall n, Forall (fun fe => availCycle fe <= T) (filterArray (c_filter (sys_caches s n))).

Lemma Avail_mono T T' s : T <= T' -> Avail T s -> Avail T' s.
Proof. intros HT HA n. eapply Forall_impl; [|apply (HA n)]. simpl. intros; lia. Qed.

Section Fixed.
Context (T : Z).
Abbreviation keep := (keeps (Avail T)).

Lemma Avail_set_cache n f s :
  (Forall (fun fe => availCycle fe <= T) (filterArray (c_filter (sys_caches s n))) ->
   Forall (fun fe => availCycle fe <= T) (filterArray (c_filter (f (sys_caches s n))))) ->
  Avail T s -> Avail T (set_cache n f s).
Proof.
  intros Hf HA m. unfold set_cache. cbn [sys_caches]. unfold upd. case_decide as E; [subst m|by apply HA].
  apply Hf, HA.
Qed.

Lemma keep_cache n f : (forall c, filterArray (c_filter (f c)) = filterArray (c_filter c)) ->
  keep (mmodify (set_cache n f)).
Proof. intros Hf. apply keeps_modify. intros s HA. apply Avail_set_cache; [|done]. by rewrite Hf. Qed.

Lemma keep_get_bcc n l : keep (get_bcc n l).
Proof. intros s b s'. unfold get_bcc. case_match; [|done]. by intros [= <- <-]. Qed.
Lemma keep_get_entry n l : keep (get_entry n l).
Proof. intros s b s'. unfold get_entry. case_match; [|done]. by intros [= <- <-]. Qed.
Lemma keep_ev_run {B} (m : EvM B) : keep (ev_run m).
Proof. intros s b s'. unfold ev_run. destruct (m (sys_heap s)) as [[b0 h]|]; [|done]. by intros [= <- <-]. Qed.

(** Proves [keep] of a program from those of its parts. *)
Ltac keep_step :=
  first
  [ assumption
  | apply keeps_ret | apply keeps_get | apply keeps_gets | apply keeps_assert | apply keeps_lift | apply keeps_err
  | apply keep_get_bcc | apply keep_get_entry | apply keep_ev_run
  | (apply keep_cache; intros; reflexivity)
  | (apply keeps_modify; intros ? ?; assumption)
  | solve [auto with keepdb]
  | (apply keeps_bind; [|intros ?])
  | case_match ].
Ltac keep_tac := repeat keep_step.

Create HintDb keepdb.

Lemma keep_read_ref r : keep (read_ref r).
Proof. unfold read_ref. keep_tac. Qed.
Lemma keep_write_ref r st : keep (write_ref r st).
Proof. unfold write_ref, put_bcc. keep_tac. Qed.
Lemma keep_lock r : keep (futex_lock r).
Proof. unfold futex_lock, set_lock. keep_tac. Qed.
Lemma keep_unlock r : keep (futex_unlock r).
Proof. unfold futex_unlock, set_lock. keep_tac. Qed.
Lemma keep_opt_lock f r : (forall r, keep (f r)) -> keep (opt_lock f r).
Proof. intros. unfold opt_lock. case_match; [done|]. keep_tac. Qed.
Hint Resolve keep_read_ref keep_write_ref keep_lock keep_unlock keep_opt_lock : keepdb.

Section Below.
Context (up : MemObj -> MemReq -> M (Sys A) Z) (inv : nat -> InvReq -> M (Sys A) (Z * bool)).
Context (Hup : forall o r, keep (up o r)) (Hinv : forall n r, keep (inv n r)).
Hint Resolve Hup Hinv : keepdb.

Lemma keep_bcc_processEviction n wb l llw cyc src : keep (bcc_processEviction cfg up n wb l llw cyc src).
Proof. unfold bcc_processEviction, up_access, put_bcc. keep_tac. Qed.
Lemma keep_bcc_miss n a l t st cyc src fl : keep (bcc_miss cfg up n a l t st cyc src fl).
Proof. unfold bcc_miss, up_access, prof_inc. keep_tac. Qed.
Hint Resolve keep_bcc_miss : keepdb.
Lemma keep_bcc_processAccess n a l t cyc src fl : keep (bcc_processAccess cfg up n a l t cyc src fl).
Proof. unfold bcc_processAccess, put_bcc, prof_inc. keep_tac. Qed.
Lemma keep_bcc_processInval n l t wb : keep (bcc_processInval n l t wb).
Proof. unfold bcc_processInval, put_bcc, prof_inc. keep_tac. Qed.
Lemma keep_sendInv_loop n a l t cyc src cs mx wb k : keep (sendInv_loop cfg inv n a l t cyc src cs mx wb k).
Proof. revert mx wb k. induction cs as [|c cs IH]; intros; cbn [sendInv_loop]; unfold put_entry; keep_tac. Qed.
Hint Resolve keep_sendInv_loop : keepdb.
Lemma keep_sendInvalidates n a l t wb cyc src : keep (sendInvalidates cfg inv n a l t wb cyc src).
Proof. unfold sendInvalidates, put_entry. keep_tac. Qed.
Hint Resolve keep_sendInvalidates keep_bcc_processInval keep_bcc_processAccess keep_bcc_processEviction : keepdb.
Lemma keep_tcc_processAccess n a l t ch ex ref wb cyc src fl :
  keep (tcc_processAccess cfg inv n a l t ch ex ref wb cyc src fl).
Proof. unfold tcc_processAccess, tcc_put, put_entry. keep_tac. Qed.
Hint Resolve keep_tcc_processAccess : keepdb.

Lemma keep_array_lookup n a r u : keep (array_lookup n a r u).
Proof. unfold array_lookup. keep_tac. Qed.
Hint Resolve keep_array_lookup : keepdb.
Lemma keep_finishInvalidate n r : keep (finishInvalidate cfg inv n r).
Proof. unfold finishInvalidate, cc_processInv, tcc_processInval. keep_tac. Qed.
Lemma keep_cache_access n r : keep (cache_access cfg up inv n r).
Proof.
  unfold cache_access, cc_startAccess, cc_shouldAllocate, array_preinsert, cc_processEviction, tcc_processEviction,
    array_postinsert, pop_wb_record, cc_processAccess, bcc_isValid, bcc_processNonInclusiveWriteback, up_access,
    bcc_isExclusive, bcc_processWritebackOnAccess, stitch_records, cc_endAccess, tcc_lock, tcc_unlock, put_entry, put_bcc.
  keep_tac.
Qed.
End Below.

Lemma keep_filter_invalidate n a : keep (filter_invalidate cfg n a).
Proof.
  intros s b s' Hrun HA. unfold filter_invalidate, mbind, M_bind in Hrun. cbn in Hrun.
  destruct (arr_get _ _) as [fe|] eqn:E; cbn in Hrun; [|done].
  unfold arr_get in E. destruct (_ !! _) as [fe'|] eqn:El; [|done]. injection E as ->.
  case_match; injection Hrun as <- <-; [|done].
  apply Avail_set_cache; [|done]. intros HF. cbn. apply Forall_insert; [done|]. cbn.
  eapply (Forall_lookup_1 _ _ _ _ HF El).
Qed.

Lemma keep_invalidate fuel n r : keep (invalidate cfg fuel n r).
Proof.
  revert n r. induction fuel as [|fuel IH]; intros n r; cbn [invalidate]; [done|].
  pose proof (keep_finishInvalidate (invalidate cfg fuel) IH). pose proof keep_filter_invalidate.
  unfold cc_startInv. keep_tac.
Qed.

Lemma keep_access fuel ifuel o r : keep (access cfg memLatency fuel ifuel o r).
Proof.
  revert o r. induction fuel as [|fuel IH]; intros [n|m] r; cbn [access]; try (unfold mem_access; keep_tac; fail).
  apply keep_cache_access; [done|]. intros; apply keep_invalidate.
Qed.
End Fixed.

(** ** The timing of a filter cache *)
Context (node : nat -> Prop) (lvl : nat -> nat) (top : nat) (root : Z -> nat) (K : Z).
Context (aok : Z -> Prop).
Context (WF : WfHier cfg memLatency node lvl top root K).
Abbreviation lat := (lat K).

Lemma set_filterEntry_avail T n idx fe s : Avail T s -> availCycle fe <= T ->
  Avail T (set_cache n (set_filterEntry idx fe) s).
Proof. intros HA Hfe. apply Avail_set_cache; [|done]. intros HF. cbn. by apply Forall_insert. Qed.

Lemma filter_replace_avail T fuel ifuel n v idx isLoad cyc s r s' : Avail T s ->
  filter_replace cfg memLatency fuel ifuel n v idx isLoad cyc s = Ok (r, s') -> Avail (Z.max T r) s'.
Proof.
  intros HA Hrun. unfold filter_replace in Hrun. unfold mbind, M_bind in Hrun. cbn [mgets mmodify] in Hrun.
  destruct (futex_lock _ _) as [[[] s1]|] eqn:E1; [|done].
  assert (HA1 : Avail T s1) by (eapply keep_lock; [exact E1|exact HA]).
  destruct (access _ _ _ _ _ _ s1) as [[r2 s2]|] eqn:E2; [|done].
  assert (HA2 : Avail T s2) by (eapply keep_access; [exact E2|exact HA1]).
  cbn [mget mlift] in Hrun. destruct (arr_get _ _) as [fe|] eqn:E3; [|done]. cbn in Hrun.
  unfold arr_get in E3. destruct (_ !! _) as [fe'|] eqn:El; [|done]. injection E3 as ->.
  injection Hrun as <- <-. apply Avail_set_cache; [done|].
  apply set_filterEntry_avail; [eapply Avail_mono; [|exact HA2]; lia|]. cbn.
  pose proof (Forall_lookup_1 _ _ _ _ (HA2 n) El) as Hav. simpl in Hav. destruct (negb _); lia.
Qed.

Lemma filter_access_time T fuel ifuel lineBits n isLoad vAddr cyc s :
  Ready cfg node aok s -> PortOk cfg node lvl top K aok fuel ifuel n (Z.shiftr vAddr (Z.of_nat lineBits)) cyc s ->
  Avail T s -> cyc <= T ->
  wp (filter_access cfg memLatency (Datatypes.S fuel) ifuel lineBits n isLoad vAddr cyc)
     (fun r s' => Ready cfg node aok s' /\ sys_procMask s' = sys_procMask s /\
        cyc <= r <= T + lat ifuel (Datatypes.S fuel) /\ Avail (T + lat ifuel (Datatypes.S fuel)) s') s.
Proof.
  intros HR HP HA HT. assert (Hn := po_node _ _ _ _ _ _ _ _ _ _ _ _ HP).
  assert (Ht := po_term _ _ _ _ _ _ _ _ _ _ _ _ HP).
  set (vLine := Z.shiftr vAddr (Z.of_nat lineBits)) in *.
  assert (HK : 0 <= lat ifuel (Datatypes.S fuel)).
  { pose proof (lat_ge cfg memLatency node lvl top root K WF ifuel (Datatypes.S fuel)). pose proof (wf_K WF). lia. }
  unfold filter_access. fold vLine. apply wp_bind, wp_get, wp_bind.
  destruct (lookup_lt_is_Some_2 _ _ (filter_idx cfg memLatency node lvl top root K aok WF n vLine s (rd_inv _ _ _ _ HR) Hn Ht)) as [fe Hfe].
  eapply wp_arr_get; [exact Hfe|].
  pose proof (Forall_lookup_1 _ _ _ _ (HA n) Hfe) as Hav. simpl in Hav. case_match.
  - apply wp_bind, wp_modify, wp_ret. rewrite MAX_max. split_and!; try lia; try done.
    + eapply Ready_Same; [exact WF|apply Same_set_cache|apply LockEq_set_cache|done]; intros k; by destruct isLoad.
    + apply Avail_set_cache; [by destruct isLoad|]. eapply Avail_mono; [|exact HA]. lia.
  - pose proof (filter_replace_spec cfg memLatency node lvl top root K aok WF fuel ifuel n vLine isLoad cyc s HR HP) as Hw.
    unfold wp in *. destruct (filter_replace _ _ _ _ _ _ _ _ _ _) as [[r s']|] eqn:E; [|done].
    destruct Hw as (?&?&_&_&Hr). split_and!; try done; try lia.
    eapply Avail_mono; [|eapply filter_replace_avail; [exact HA|exact E]]. lia.
Qed.

Lemma contextSwitch_avail T n s : 0 <= T -> Avail T s -> Ready cfg node aok s -> node n ->
  wp (Coherence.contextSwitch n) (fun _ s' => Ready cfg node aok s' /\ sys_procMask s' = sys_procMask s /\ Avail T s') s.
Proof.
  intros H0 HA HR Hn.
  eapply wp_mono; [apply (wp_keeps (Avail T)); [by eapply contextSwitch_spec| |done]|].
  - unfold Coherence.contextSwitch. apply keeps_bind; [apply keep_lock|]. intros _.
    apply keeps_bind; [|intros _; apply keep_unlock]. apply keeps_modify. intros s1 HA1.
    apply Avail_set_cache; [|done]. intros _. cbn. by apply Forall_replicate.
  - intros [] s' [[? ?] ?]; done.
Qed.
End Avail.

(** ** The hierarchy as the ports of a core

    The core fetches through the filter cache [ni] and loads and stores through
    [nd]; its recorder, on a pending timing record, calls [recordAccess]; the
    recorder's other operations are arguments. *)
Section System.
Context {A : Type} `{HL : CacheArrayLaws A}.
Context (cfg : nat -> CacheCfg) (memLatency : nat -> Z).
Context (node : nat -> Prop) (lvl : nat -> nat) (top : nat) (root : Z -> nat) (K : Z).
Context (aok : Z -> Prop) (fuel ifuel lineBits : nat).
Context (ni nd src : nat) (mask : Z).
Context (recordAccess : Z -> Z -> Z -> M (Sys A) unit).
Context (notifyJoin simStart simEnd : Z -> M (Sys A) Z) (notifyLeave : Z -> M (Sys A) unit).

(** [OOOCoreRecorder::record]. *)
Definition record (cur disp resp : Z) : M (Sys A) unit :=
  er ← mgets (fun s => sys_evRecs s src);
  match er with
  | Some er => if hasRecord er then recordAccess cur disp resp else mret tt
  | None => mret tt
  end.

Definition ports : CorePorts (Sys A) := {|
  l1i_load := Coherence.load cfg memLatency (Datatypes.S fuel) ifuel lineBits ni;
  l1d_load := Coherence.load cfg memLatency (Datatypes.S fuel) ifuel lineBits nd;
  l1d_store := Coherence.store cfg memLatency (Datatypes.S fuel) ifuel lineBits nd;
  l1i_contextSwitch := Coherence.contextSwitch ni;
  l1d_contextSwitch := Coherence.contextSwitch nd;
  cRec_record := record;
  cRec_notifyJoin := notifyJoin;
  cRec_notifyLeave := notifyLeave;
  cRec_cSimStart := simStart;
  cRec_cSimEnd := simEnd
|}.

Context (WF : WfHier cfg memLatency node lvl top root K) (PC : PortCfg cfg node top K fuel ifuel).
Context (Hni : node ni) (Hnd : node nd).
Context (Hti : cfg_terminal (cfg ni) = true) (Htd : cfg_terminal (cfg nd) = true).

Definition hier_lat : Z := lat K ifuel (Datatypes.S fuel).
Definition hier_ok (T : Z) (s : Sys A) : Prop :=
  Ready cfg node aok s /\ sys_procMask s = mask /\ Avail T s.
Definition hier_addr (a : Z) : Prop := aok (Z.lor mask (Z.shiftr a (Z.of_nat lineBits))).

Lemma hier_lat_nonneg : 0 <= hier_lat.
Proof.
  unfold hier_lat. pose proof (lat_ge cfg memLatency node lvl top root K WF ifuel (Datatypes.S fuel)).
  pose proof (wf_K WF). lia.
Qed.

Lemma hier_access_law n isLoad T s a c : node n -> cfg_terminal (cfg n) = true ->
  hier_ok T s -> hier_addr a -> upto T c -> T < two64 - hier_lat ->
  wp (filter_access cfg memLatency (Datatypes.S fuel) ifuel lineBits n isLoad a c)
    (fun r s' => c <= r <= T + hier_lat /\ hier_ok (T + hier_lat) s') s.
Proof.
  intros Hn Ht (HR&Hm&HA) Ha Hc HT. unfold upto in Hc. destruct PC as [P1 P2 P3 P4].
  eapply wp_mono; [eapply (filter_access_time cfg memLatency node lvl top root K aok WF T); try done; try lia|].
  - split; try done; try lia; [by rewrite Hm|by apply P4|unfold hier_lat in HT; lia].
  - intros r s' (?&E&?&?). split; [done|]. split_and!; try done. congruence.
Qed.

#[local] Instance ports_inst : CorePorts (Sys A) := ports.
Definition ports_laws : CorePortsLaws (Sys A).
Proof.
  refine (Build_CorePortsLaws (Sys A) ports hier_ok hier_lat (two64 - hier_lat) hier_addr hier_addr
    hier_lat_nonneg _ _ _ _ _ _).
  - lia.
  - intros T T' s (?&?&?) HT. split_and!; try done. by eapply Avail_mono.
  - intros T s a c. by apply (hier_access_law ni true).
  - intros T s a c. by apply (hier_access_law nd true).
  - intros T s a c. by apply (hier_access_law nd false).
  - intros T s cur disp resp (HR&Hm&HA) _. cbn. unfold record. apply wp_bind, wp_gets.
    destruct (sys_evRecs s src) as [er|] eqn:Her; [|by apply wp_ret].
    rewrite (b_norec (inv_base (rd_inv _ _ _ _ HR)) _ _ Her). by apply wp_ret.
Defined.
End System.

(** The constructor's core satisfies the invariant. *)
Lemma init_CoreOk NREG phaseLength T : DECODE_STAGE <= T ->
  CoreOk NREG T (init_core NREG phaseLength).
Proof.
  intros HT. unfold DECODE_STAGE in HT. assert (U0 : upto T 0) by (unfold upto; lia).
  assert (HZ : forall n, Forall (upto T) (replicate n 0)) by (intros; by apply Forall_replicate).
  assert (HR : forall SZ W, (0 < SZ)%nat -> 0 < W -> RobOk SZ W T (ROB.init SZ)).
  { intros SZ W HS HW. destruct (Ring.init_ok SZ HS) as [R1 R2]. split; [split; [done|cbn; lia]| |done].
    change (Forall (upto T) (Ring.view (Ring.init SZ))). by rewrite R2. }
  assert (HQ : (0 < UQ_SZ)%nat /\ (0 < ROB_SZ)%nat /\ (0 < LSQ_SZ)%nat) by (vm_compute; lia).
  destruct (Ring.init_ok UQ_SZ ltac:(tauto)) as [Q1 Q2].
  split; cbn; rewrite ?length_replicate; try done; try lia.
  - split; cbn; rewrite ?length_replicate; try done; try lia.
    + by apply Win.init_Inv.
    + eapply Win.zero_from_mono; [apply Win.init_zero|lia].
    + split; [done|]. by rewrite Q2.
    + by apply HR; [tauto|].
  - split; cbn; rewrite ?length_replicate; try done.
    + by apply HR; [tauto|].
    + by apply HR; [tauto|].
    + by apply Forall_replicate.
  - apply BP.bp_init_Inv. unfold BP_HB. lia.
Qed.

(** ** A core on the example hierarchy *)
Module ExCore.
Abbreviation HS := (Sys (SetAssoc.t LRU.t)).
Definition recordAccess (_ _ _ : Z) : M HS unit := mfail "recordAccess".
Definition cycleOp (c : Z) : M HS Z := mret c.
#[export] Instance ex_ports : CorePorts HS :=
  ports (A := SetAssoc.t LRU.t) Ex.cfg Ex.memLatency 1 1 6 0 1 0 recordAccess cycleOp cycleOp cycleOp (fun _ => mret tt).
Lemma node0 : Ex.node 0. Proof. unfold Ex.node. lia. Qed.
Lemma node1 : Ex.node 1. Proof. unfold Ex.node. lia. Qed.
#[export] Instance ex_laws : CorePortsLaws HS :=
  ports_laws (A := SetAssoc.t LRU.t) Ex.cfg Ex.memLatency Ex.node Ex.lvl 1 Ex.root Ex.K Ex.aok 1 1 6 0 1 0 0
    recordAccess cycleOp cycleOp cycleOp (fun _ => mret tt) Ex.WF Ex.PC node0 node1 eq_refl eq_refl.

(** A load, an addition that uses it and the two uops of a store. *)
Definition block : BblInfo := mkInfo 3 12 (mkBbl 0 [
  mkUop 5 0 16 0 0 1 UOP_LOAD 4 0;
  mkUop 16 6 17 18 1 1 UOP_GENERAL 35 0;
  mkUop 7 0 19 0 1 2 UOP_STORE_ADDR 8 0;
  mkUop 17 19 0 0 0 2 UOP_STORE 16 0]).
Definition core : OOOCore :=
  set_prevBbl (Some block)
    (set_mem (mkMem (<[0%nat := 4096]> (replicate 256 0)) (<[0%nat := 4096]> (replicate 256 0)) 1 1)
       (init_core 300 10000)).

Lemma core_ok : CoreOk 300 4 core.
Proof. destruct (init_CoreOk 300 10000 4 ltac:(done)) as [C1 C2 C3 C4 C5 C6 C7]. by split; cbn; try lia. Qed.

Lemma init_avail : env_ok 4 Ex.init.
Proof.
  cbn. split_and!.
  - apply (init_Ready Ex.cfg Ex.memLatency Ex.node Ex.lvl 1 Ex.root Ex.K Ex.aok Ex.WF), Ex.InitOk.
  - done.
  - intros n. apply Forall_replicate. cbn. lia.
Qed.

Lemma core_mem : MemOk (c_mem core).
Proof. split; intros k _; [right|]; exact I. Qed.

Lemma block_decoded : decoded 300 0 (db_uop (bi_oooBbl block)).
Proof. cbn. repeat split; cbn; lia. Qed.

Lemma lat_value : port_lat = 1100.
Proof. reflexivity. Qed.
Lemma limit_value : cycle_limit = two64 - 1100.
Proof. reflexivity. Qed.

Lemma block_ok : BblOk 300 6 4 core 4198400 block block.
Proof.
  split; try done.
  - apply block_decoded.
  - apply core_mem.
Qed.
End ExCore.

(** ** Theorems *)
Import ExCore.

(** a uop that is issued starts, on a port it may use, after its source
    registers are available and at least six cycles after it was issued; it commits
    after its latency, a load or store not before the earlier store addresses are
    known, a load not before the store that it forwards from, and its destination
    registers carry that cycle; it retires in order, and no other register, address,
    counter or branch state changes. *)
Theorem uop_executes {E} `{CL : CorePortsLaws E} NREG T prev uop li si c (e : E) :
  (0 < NREG)%nat -> CoreOk NREG T c -> env_ok T e -> MemOk (c_mem c) ->
  UopOk NREG uop -> 0 <= prev <= u_decCycle uop ->
  (u_type uop = UOP_LOAD -> (li < loads (c_mem c))%nat) ->
  (u_type uop = UOP_STORE -> (si < stores (c_mem c))%nat) ->
  T + ucost prev uop - curCycle (c_issue c) < 2 ^ 31 -> T + ucost prev uop < cycle_limit ->
  exists a d commit c' e',
    run_uop uop prev li si (c, e) =
      Ok ((commit, (li + is_type UOP_LOAD uop)%nat, (si + is_type UOP_STORE uop)%nat), (c', e')) /\
    next_addr uop (c_mem c) li si = Ok (a, (li + is_type UOP_LOAD uop)%nat, (si + is_type UOP_STORE uop)%nat) /\
    Executed uop a d commit c c' /\ frame c c' /\ later c c' /\
    CoreOk NREG (T + ucost prev uop) c' /\ env_ok (T + ucost prev uop) e'.
Proof.
  intros HN HC HE HM HU Hp Hl Hs Hb Hlim.
  destruct (wp_elim _ _ _ (run_uop_spec NREG HN T prev uop li si c e HC HE HM HU Hp Hl Hs Hb Hlim))
    as ([[commit li'] si']&[c' e']&Hrun&HC'&HE'&E1&E2&_&HF&HL&a&d&Ha&HX). cbn [fst snd] in *. subst li' si'.
  exists a, d, commit, c', e'. done.
Qed.

Lemma uop_executes_witness :
  exists a d commit c' e',
    run_uop (mkUop 5 0 16 0 0 1 UOP_LOAD 4 0) 0 0 0 (ExCore.core, Ex.init) = Ok ((commit, 1%nat, 0%nat), (c', e')) /\
    next_addr (mkUop 5 0 16 0 0 1 UOP_LOAD 4 0) (c_mem ExCore.core) 0 0 = Ok (a, 1%nat, 0%nat) /\
    Executed (mkUop 5 0 16 0 0 1 UOP_LOAD 4 0) a d commit ExCore.core c' /\ frame ExCore.core c' /\ later ExCore.core c' /\
    CoreOk 300 (4 + ucost 0 (mkUop 5 0 16 0 0 1 UOP_LOAD 4 0)) c' /\ env_ok (4 + ucost 0 (mkUop 5 0 16 0 0 1 UOP_LOAD 4 0)) e'.
Proof.
  apply (uop_executes 300 4 0 (mkUop 5 0 16 0 0 1 UOP_LOAD 4 0) 0 0 ExCore.core Ex.init).
  - lia.
  - apply ExCore.core_ok.
  - apply ExCore.init_avail.
  - apply ExCore.core_mem.
  - split; cbn; lia.
  - cbn. lia.
  - intros _. cbn. lia.
  - done.
  - vm_compute. reflexivity.
  - vm_compute. reflexivity.
Defined.



Section OnHierarchy.
Context {A : Type} `{HL : CacheArrayLaws A}.
Context (cfg : nat -> CacheCfg) (memLatency : nat -> Z).
Context (node : nat -> Prop) (lvl : nat -> nat) (top : nat) (root : Z -> nat) (K : Z).
Context (aok : Z -> Prop) (fuel ifuel lineBits : nat) (ni nd src : nat) (mask : Z).
Context (recordAccess : Z -> Z -> Z -> M (Sys A) unit).
Context (notifyJoin simStart simEnd : Z -> M (Sys A) Z) (notifyLeave : Z -> M (Sys A) unit).

(** C39: an out-of-order core on a coherent hierarchy, fetching through one filter
    cache and loading and storing through another: a block runs to completion on
    both, the hierarchy is coherent afterwards (no lock held, directories and states
    consistent, single writer) and no filter entry becomes available after the
    block's time bound. *)
Theorem core_on_hierarchy NREG T c s bblAddr info prev
    (WF : WfHier cfg memLatency node lvl top root K) (PC : PortCfg cfg node top K fuel ifuel)
    (Hni : node ni) (Hnd : node nd)
    (Hti : cfg_terminal (cfg ni) = true) (Htd : cfg_terminal (cfg nd) = true) :
  let CP := ports cfg memLatency fuel ifuel lineBits ni nd src recordAccess notifyJoin simStart simEnd notifyLeave in
  let CL := ports_laws cfg memLatency node lvl top root K aok fuel ifuel lineBits ni nd src mask
    recordAccess notifyJoin simStart simEnd notifyLeave WF PC Hni Hnd Hti Htd in
  (0 < NREG)%nat -> (lineBits <= 6)%nat -> CoreOk NREG T c ->
  Ready cfg node aok s -> sys_procMask s = mask -> Avail T s ->
  prevBbl c = Some prev -> BblOk NREG (Z.of_nat lineBits) T c bblAddr info prev ->
  exists c' s', bbl (Z.of_nat lineBits) bblAddr info (c, s) = Ok (tt, (c', s')) /\
    CoreOk NREG (bbl_bound (Z.of_nat lineBits) T c info prev) c' /\
    Ready cfg node aok s' /\ Avail (bbl_bound (Z.of_nat lineBits) T c info prev) s' /\
    forall a t t', node t -> node t' -> cfg_terminal (cfg t) = true -> cfg_terminal (cfg t') = true ->
      EM (stt s' t a) -> stt s' t' a <> StI -> t = t'.
Proof.
  intros CP CL HN HLB HC HR Hm HA Hprev HB.
  assert (HE : env_ok T s) by (split_and!; done).
  destruct (wp_elim _ _ _ (bbl_spec NREG HN (Z.of_nat lineBits) ltac:(lia) T c s bblAddr info prev HC HE Hprev HB))
    as ([]&[c' s']&Hrun&HC'&(HR'&Hm'&HA')&_). cbn [fst snd] in *.
  exists c', s'. split_and!; try done.
  intros a t t'. apply (swmr cfg memLatency node lvl top root K aok WF). apply HR'.
Qed.
End OnHierarchy.

Lemma core_on_hierarchy_witness :
  exists c' s', bbl (CP := ExCore.ex_ports) 6 4198400 ExCore.block (ExCore.core, Ex.init) = Ok (tt, (c', s')) /\
    CoreOk 300 (bbl_bound (CL := ExCore.ex_laws) 6 4 ExCore.core ExCore.block ExCore.block) c' /\
    Ready Ex.cfg Ex.node Ex.aok s' /\ Avail (bbl_bound (CL := ExCore.ex_laws) 6 4 ExCore.core ExCore.block ExCore.block) s' /\
    forall a t t', Ex.node t -> Ex.node t' -> cfg_terminal (Ex.cfg t) = true -> cfg_terminal (Ex.cfg t') = true ->
      EM (stt s' t a) -> stt s' t' a <> StI -> t = t'.
Proof.
  apply (core_on_hierarchy (A := SetAssoc.t LRU.t) Ex.cfg Ex.memLatency Ex.node Ex.lvl 1 Ex.root Ex.K Ex.aok 1 1 6 0 1 0 0
    ExCore.recordAccess ExCore.cycleOp ExCore.cycleOp ExCore.cycleOp (fun _ => mret tt) 300 4 ExCore.core Ex.init 4198400
    ExCore.block ExCore.block Ex.WF Ex.PC ExCore.node0 ExCore.node1 eq_refl eq_refl).
  - lia.
  - lia.
  - apply ExCore.core_ok.
  - apply ExCore.init_avail.
  - apply ExCore.init_avail.
  - apply ExCore.init_avail.
  - reflexivity.
  - apply ExCore.block_ok.
Defined.
