(* ===== verification/Scheduler.v ===== *)
(** * The scheduler (src/src/scheduler.h, src/src/scheduler.cpp)

    The scheduler maps the threads of the simulated processes to core contexts
    and drives the phase barrier.  Every definition is one section under
    [schedLock]: a call that releases the lock in the middle ([sync], [join]
    with a futex wake, [waitForContext]) is split there.  Threads are named by
    their gid; [threads] is the heap of [ThreadInfo] objects, so reading one that
    was deleted is a failure; a list of threads or contexts is the sequence that
    [InList] implements, with the ownership assertions of its operations.  The
    calls to the cores, to the statistics and to the end-of-phase function of the
    simulator are recorded in [calls]; the barrier is an interface. *)

From S2P Require Import Prelude Bithacks Barrier.

(** ** What the scheduler uses of the barrier *)
Class BarrierOps (B : Type) := {
  bar_join : nat -> M B unit;
  bar_leave : nat -> M B unit;
  bar_sync : nat -> M B unit;
  (** The calls of [sched->callback()] so far. *)
  bar_phases : B -> Z
}.

Module Sch.

(** ** Data *)
Inductive ThreadState := STARTED | RUNNING | OUT | BLOCKED | SLEEPING | QUEUED.
Inductive ContextState := IDLE | USED.
Inductive FutexJoinAction := FJA_NONE | FJA_WAKE | FJA_WAIT.
#[global] Instance ThreadState_eq_dec : EqDecision ThreadState.
Proof. solve_decision. Defined.
#[global] Instance ContextState_eq_dec : EqDecision ContextState.
Proof. solve_decision. Defined.
#[global] Instance FutexJoinAction_eq_dec : EqDecision FutexJoinAction.
Proof. solve_decision. Defined.

Record FutexJoinInfo := mkFutexJoin { fj_action : FutexJoinAction; fj_maxWakes : Z; fj_wokenUp : Z }.
Record FakeLeaveInfo := mkFakeLeave { fl_pc : Z; fl_syscallNumber : Z; fl_arg0 : Z; fl_arg1 : Z }.

Record ThreadInfo := mkThread {
  linuxPid : Z;
  linuxTid : Z;
  state : ThreadState;
  cid : nat;
  handoffThread : option Z;
  futexWord : Z;
  needsJoin : bool;
  markedForSleep : bool;
  wakeupPhase : Z;
  mask : list bool;
  fakeLeave : option FakeLeaveInfo;
  futexJoin : FutexJoinInfo;
  (** The thread is inside the loop of [futexWakeJoin] (its program counter). *)
  matching : bool
}.

Record ContextInfo := mkContext { c_state : ContextState; curThread : option Z }.

Inductive SchedCounter :=
| threadsCreated | threadsFinished | scheduleEvents | waitEvents | handoffEvents | sleepEvents
| idlePhases | idlePeriods.
#[global] Instance SchedCounter_eq_dec : EqDecision SchedCounter.
Proof. solve_decision. Defined.

(** The calls to the other parts of the simulator, newest first. *)
Inductive Call :=
| CoreJoin (cid : nat)
| CoreLeave (cid : nat)
| CoreContextSwitch (cid : nat) (gid : Z)
| ProcStatsDeschedule
| ProcessStatsDeschedule (cid : nat) (pid : Z)
| AtSync.

Record Queues := mkQueues {
  freeList : list nat;
  runQueue : list Z;
  outQueue : list Z;
  sleepQueue : list Z
}.

Record Stats := mkStats {
  counters : SchedCounter -> Z;
  occHist : list Z;
  runQueueHist : list Z
}.

Record Futexes := mkFutexes { maxAllowedFutexWakeups : Z; unmatchedFutexWakeups : Z }.

(** [numPhases] and [globPhaseCycles] are fields of [zinfo]; [blockingSyscalls]
    holds the (process, pc) pairs; [fakeLeaves] lists the threads of its elements. *)
Record Sched {B R : Type} := mkSched {
  bar : B;
  rnd : R;
  gidMap : gset Z;
  threads : gmap Z ThreadInfo;
  contexts : list ContextInfo;
  queues : Queues;
  fakeLeaves : list Z;
  blockingSyscalls : gset (Z * Z);
  futexes : Futexes;
  curPhase : Z;
  numPhases : Z;
  globPhaseCycles : Z;
  scheduledThreads : Z;
  pendingPidCleanups : list (Z * Z);
  terminateWatchdogThread : bool;
  stats : Stats;
  calls : list Call
}.
Arguments Sched B R : clear implicits.

(** ** gid <-> (pid, tid) *)
Definition getGid (pid tid : Z) : Z := Z.lor (u32 (Z.shiftl pid 16)) tid.
Definition getPid (gid : Z) : Z := Z.shiftr gid 16.
Definition getTid (gid : Z) : Z := Z.land gid 65535.

(** ** Field updates *)
Section Setters.
Context {B R : Type}.
Implicit Type s : Sched B R.
Definition set_bar b s := mkSched B R b (rnd s) (gidMap s) (threads s) (contexts s) (queues s) (fakeLeaves s)
  (blockingSyscalls s) (futexes s) (curPhase s) (numPhases s) (globPhaseCycles s) (scheduledThreads s)
  (pendingPidCleanups s) (terminateWatchdogThread s) (stats s) (calls s).
Definition set_rnd r s := mkSched B R (bar s) r (gidMap s) (threads s) (contexts s) (queues s) (fakeLeaves s)
  (blockingSyscalls s) (futexes s) (curPhase s) (numPhases s) (globPhaseCycles s) (scheduledThreads s)
  (pendingPidCleanups s) (terminateWatchdogThread s) (stats s) (calls s).
Definition set_gidMap m s := mkSched B R (bar s) (rnd s) m (threads s) (contexts s) (queues s) (fakeLeaves s)
  (blockingSyscalls s) (futexes s) (curPhase s) (numPhases s) (globPhaseCycles s) (scheduledThreads s)
  (pendingPidCleanups s) (terminateWatchdogThread s) (stats s) (calls s).
Definition set_threads m s := mkSched B R (bar s) (rnd s) (gidMap s) m (contexts s) (queues s) (fakeLeaves s)
  (blockingSyscalls s) (futexes s) (curPhase s) (numPhases s) (globPhaseCycles s) (scheduledThreads s)
  (pendingPidCleanups s) (terminateWatchdogThread s) (stats s) (calls s).
Definition set_contexts l s := mkSched B R (bar s) (rnd s) (gidMap s) (threads s) l (queues s) (fakeLeaves s)
  (blockingSyscalls s) (futexes s) (curPhase s) (numPhases s) (globPhaseCycles s) (scheduledThreads s)
  (pendingPidCleanups s) (terminateWatchdogThread s) (stats s) (calls s).
Definition set_queues q s := mkSched B R (bar s) (rnd s) (gidMap s) (threads s) (contexts s) q (fakeLeaves s)
  (blockingSyscalls s) (futexes s) (curPhase s) (numPhases s) (globPhaseCycles s) (scheduledThreads s)
  (pendingPidCleanups s) (terminateWatchdogThread s) (stats s) (calls s).
Definition set_fakeLeaves l s := mkSched B R (bar s) (rnd s) (gidMap s) (threads s) (contexts s) (queues s) l
  (blockingSyscalls s) (futexes s) (curPhase s) (numPhases s) (globPhaseCycles s) (scheduledThreads s)
  (pendingPidCleanups s) (terminateWatchdogThread s) (stats s) (calls s).
Definition set_blockingSyscalls b s := mkSched B R (bar s) (rnd s) (gidMap s) (threads s) (contexts s) (queues s)
  (fakeLeaves s) b (futexes s) (curPhase s) (numPhases s) (globPhaseCycles s) (scheduledThreads s)
  (pendingPidCleanups s) (terminateWatchdogThread s) (stats s) (calls s).
Definition set_futexes f s := mkSched B R (bar s) (rnd s) (gidMap s) (threads s) (contexts s) (queues s)
  (fakeLeaves s) (blockingSyscalls s) f (curPhase s) (numPhases s) (globPhaseCycles s) (scheduledThreads s)
  (pendingPidCleanups s) (terminateWatchdogThread s) (stats s) (calls s).
Definition set_phase cur num glob s := mkSched B R (bar s) (rnd s) (gidMap s) (threads s) (contexts s) (queues s)
  (fakeLeaves s) (blockingSyscalls s) (futexes s) cur num glob (scheduledThreads s)
  (pendingPidCleanups s) (terminateWatchdogThread s) (stats s) (calls s).
Definition add_scheduled d s := mkSched B R (bar s) (rnd s) (gidMap s) (threads s) (contexts s) (queues s)
  (fakeLeaves s) (blockingSyscalls s) (futexes s) (curPhase s) (numPhases s) (globPhaseCycles s)
  (u32 (scheduledThreads s + d)) (pendingPidCleanups s) (terminateWatchdogThread s) (stats s) (calls s).
Definition set_pending l s := mkSched B R (bar s) (rnd s) (gidMap s) (threads s) (contexts s) (queues s)
  (fakeLeaves s) (blockingSyscalls s) (futexes s) (curPhase s) (numPhases s) (globPhaseCycles s)
  (scheduledThreads s) l (terminateWatchdogThread s) (stats s) (calls s).
Definition set_terminate b s := mkSched B R (bar s) (rnd s) (gidMap s) (threads s) (contexts s) (queues s)
  (fakeLeaves s) (blockingSyscalls s) (futexes s) (curPhase s) (numPhases s) (globPhaseCycles s)
  (scheduledThreads s) (pendingPidCleanups s) b (stats s) (calls s).
Definition set_stats st s := mkSched B R (bar s) (rnd s) (gidMap s) (threads s) (contexts s) (queues s)
  (fakeLeaves s) (blockingSyscalls s) (futexes s) (curPhase s) (numPhases s) (globPhaseCycles s)
  (scheduledThreads s) (pendingPidCleanups s) (terminateWatchdogThread s) st (calls s).
Definition add_call c s := mkSched B R (bar s) (rnd s) (gidMap s) (threads s) (contexts s) (queues s)
  (fakeLeaves s) (blockingSyscalls s) (futexes s) (curPhase s) (numPhases s) (globPhaseCycles s)
  (scheduledThreads s) (pendingPidCleanups s) (terminateWatchdogThread s) (stats s) (c :: calls s).
End Setters.

Definition with_state x t := mkThread (linuxPid t) (linuxTid t) x (cid t) (handoffThread t) (futexWord t)
  (needsJoin t) (markedForSleep t) (wakeupPhase t) (mask t) (fakeLeave t) (futexJoin t) (matching t).
Definition with_cid x t := mkThread (linuxPid t) (linuxTid t) (state t) x (handoffThread t) (futexWord t)
  (needsJoin t) (markedForSleep t) (wakeupPhase t) (mask t) (fakeLeave t) (futexJoin t) (matching t).
Definition with_handoff x t := mkThread (linuxPid t) (linuxTid t) (state t) (cid t) x (futexWord t)
  (needsJoin t) (markedForSleep t) (wakeupPhase t) (mask t) (fakeLeave t) (futexJoin t) (matching t).
Definition with_futexWord x t := mkThread (linuxPid t) (linuxTid t) (state t) (cid t) (handoffThread t) x
  (needsJoin t) (markedForSleep t) (wakeupPhase t) (mask t) (fakeLeave t) (futexJoin t) (matching t).
Definition with_needsJoin x t := mkThread (linuxPid t) (linuxTid t) (state t) (cid t) (handoffThread t) (futexWord t)
  x (markedForSleep t) (wakeupPhase t) (mask t) (fakeLeave t) (futexJoin t) (matching t).
Definition with_sleep x w t := mkThread (linuxPid t) (linuxTid t) (state t) (cid t) (handoffThread t) (futexWord t)
  (needsJoin t) x w (mask t) (fakeLeave t) (futexJoin t) (matching t).
Definition with_mask x t := mkThread (linuxPid t) (linuxTid t) (state t) (cid t) (handoffThread t) (futexWord t)
  (needsJoin t) (markedForSleep t) (wakeupPhase t) x (fakeLeave t) (futexJoin t) (matching t).
Definition with_fakeLeave x t := mkThread (linuxPid t) (linuxTid t) (state t) (cid t) (handoffThread t) (futexWord t)
  (needsJoin t) (markedForSleep t) (wakeupPhase t) (mask t) x (futexJoin t) (matching t).
Definition with_futexJoin x m t := mkThread (linuxPid t) (linuxTid t) (state t) (cid t) (handoffThread t) (futexWord t)
  (needsJoin t) (markedForSleep t) (wakeupPhase t) (mask t) (fakeLeave t) x m.
Definition with_runQueue l q := mkQueues (freeList q) l (outQueue q) (sleepQueue q).
Definition with_outQueue l q := mkQueues (freeList q) (runQueue q) l (sleepQueue q).
Definition with_sleepQueue l q := mkQueues (freeList q) (runQueue q) (outQueue q) l.
Definition with_freeList l q := mkQueues l (runQueue q) (outQueue q) (sleepQueue q).

(** [std::find]-like loops and the removal of one element. *)
Fixpoint remove_first {A} `{EqDecision A} (x : A) (l : list A) : list A :=
  match l with
  | [] => []
  | y :: l' => if decide (x = y) then l' else y :: remove_first x l'
  end.

Section Ops.
Context {B R : Type} `{BarrierOps B} (randInt : R -> nat -> nat * R).
(** [numCores], [schedQuantum] and [atSyncFunc != nullptr] are arguments of the
    constructor; [phaseLength] and [procStats != nullptr] are those of [zinfo]. *)
Variables (numCores : nat) (schedQuantum phaseLength : Z) (atSyncFunc procStats : bool).
Abbreviation St := (Sched B R).
Abbreviation SM := (M St).

Definition nofuel {A} : SM A := fun _ => Err OutOfFuel.
Definition get_th (g : Z) : SM ThreadInfo := s ← mget; mlift (from_opt (threads s !! g) "no such thread").
Definition upd_th (g : Z) (f : ThreadInfo -> ThreadInfo) : SM unit :=
  th ← get_th g; mmodify (fun s => set_threads (<[g := f th]> (threads s)) s).
Definition get_ctx (c : nat) : SM ContextInfo := s ← mget; mlift (arr_get (contexts s) c).
Definition put_ctx (c : nat) (x : ContextInfo) : SM unit :=
  s ← mget; l ← mlift (arr_set (contexts s) c x); mmodify (set_contexts l).
Definition lookup_gid (g : Z) : SM ThreadInfo :=
  s ← mget; massert (bool_decide (g ∈ gidMap s)) "null thread";; get_th g.
Definition inc (c : SchedCounter) : SM unit :=
  mmodify (fun s => set_stats (mkStats (fun k => if decide (c = k) then u64 (counters (stats s) k + 1) else counters (stats s) k)
    (occHist (stats s)) (runQueueHist (stats s))) s).
Definition call (c : Call) : SM unit := mmodify (add_call c).
Definition allowed (th : ThreadInfo) (c : nat) : SM bool := mlift (arr_get (mask th) c).

(** *** The lists, with the assertions of [InList] *)
Definition owned (g : Z) (q : Queues) : bool :=
  bool_decide (g ∈ runQueue q) || bool_decide (g ∈ outQueue q) || bool_decide (g ∈ sleepQueue q).
Definition runQueue_push_back (g : Z) : SM unit :=
  s ← mget; massert (negb (owned g (queues s))) "!e->owner";;
  mmodify (set_queues (with_runQueue (runQueue (queues s) ++ [g]) (queues s))).
Definition runQueue_remove (g : Z) : SM unit :=
  s ← mget; massert (bool_decide (g ∈ runQueue (queues s))) "e->owner == this";;
  mmodify (set_queues (with_runQueue (remove_first g (runQueue (queues s))) (queues s))).
Definition outQueue_push_back (g : Z) : SM unit :=
  s ← mget; massert (negb (owned g (queues s))) "!e->owner";;
  mmodify (set_queues (with_outQueue (outQueue (queues s) ++ [g]) (queues s))).
Definition outQueue_remove (g : Z) : SM unit :=
  s ← mget; massert (bool_decide (g ∈ outQueue (queues s))) "e->owner == this";;
  mmodify (set_queues (with_outQueue (remove_first g (outQueue (queues s))) (queues s))).
Definition sleepQueue_remove (g : Z) : SM unit :=
  s ← mget; massert (bool_decide (g ∈ sleepQueue (queues s))) "e->owner == this";;
  mmodify (set_queues (with_sleepQueue (remove_first g (sleepQueue (queues s))) (queues s))).
Definition freeList_push_back (c : nat) : SM unit :=
  s ← mget; massert (negb (bool_decide (c ∈ freeList (queues s)))) "!e->owner";;
  mmodify (set_queues (with_freeList (freeList (queues s) ++ [c]) (queues s))).
Definition freeList_remove (c : nat) : SM unit :=
  s ← mget; massert (bool_decide (c ∈ freeList (queues s))) "e->owner == this";;
  mmodify (set_queues (with_freeList (remove_first c (freeList (queues s))) (queues s))).

(** A loop over a list that stops at the first element that satisfies [p]. *)
Fixpoint mfind {A} (p : A -> SM bool) (l : list A) : SM (option A) :=
  match l with
  | [] => mret None
  | x :: l' => b ← p x; if (b : bool) then mret (Some x) else mfind p l'
  end.

(** *** Contexts and threads *)
Definition schedule (g : Z) (c : nat) : SM unit :=
  th ← get_th g;
  massert (bool_decide (state th = STARTED) || bool_decide (state th = BLOCKED) || bool_decide (state th = QUEUED))
    "STARTED, BLOCKED or QUEUED";;
  ctx ← get_ctx c;
  massert (bool_decide (c_state ctx = IDLE)) "ctx->state == IDLE";;
  massert (bool_decide (curThread ctx = None)) "ctx->curThread == nullptr";;
  upd_th g (fun t => with_cid c (with_state RUNNING t));;
  put_ctx c (mkContext USED (Some g));;
  inc scheduleEvents;;
  mmodify (add_scheduled 1);;
  call (CoreContextSwitch c g).

Definition deschedule (g : Z) (c : nat) (targetState : ThreadState) : SM unit :=
  th ← get_th g;
  massert (bool_decide (state th = RUNNING) || bool_decide (state th = OUT)) "RUNNING or OUT";;
  ctx ← get_ctx c;
  massert (bool_decide (c_state ctx = USED)) "ctx->state == USED";;
  massert (c =? cid th)%nat "ctx->cid == th->cid";;
  massert (bool_decide (curThread ctx = Some g)) "ctx->curThread == th";;
  massert (bool_decide (targetState = BLOCKED) || bool_decide (targetState = QUEUED) || bool_decide (targetState = SLEEPING))
    "BLOCKED, QUEUED or SLEEPING";;
  (if procStats then call ProcStatsDeschedule else mret tt);;
  upd_th g (with_state targetState);;
  put_ctx c (mkContext IDLE None);;
  mmodify (add_scheduled (-1));;
  call (CoreContextSwitch c (-1));;
  call (ProcessStatsDeschedule c (getPid g)).

(** [wakeup]; [waitUntilQueued], which only waits, is left out. *)
Definition wakeup (g : Z) (nj : bool) : SM unit :=
  upd_th g (with_needsJoin nj);;
  th ← get_th g;
  massert (futexWord th =? 1) "Wakeup race in barrier?";;
  upd_th g (with_futexWord 0).

(** *** The scheduling policy *)
Definition schedThread (g : Z) : SM (option nat) :=
  th ← get_th g;
  massert (cid th <? numCores)%nat "th->cid < numCores";;
  ctx ← get_ctx (cid th);
  ok ← (if bool_decide (c_state ctx = IDLE) then allowed th (cid th) else mret false);
  r ← (if (ok : bool) then freeList_remove (cid th);; mret (Some (cid th)) else mret None);
  r ← match r with
      | Some c => mret (Some c)
      | None =>
        s ← mget;
        f ← mfind (allowed th) (freeList (queues s));
        match f with Some c => freeList_remove c;; mret (Some c) | None => mret None end
      end;
  r ← match r with
      | Some c => mret (Some c)
      | None =>
        s ← mget;
        f ← mfind (fun o => oth ← get_th o; allowed th (cid oth)) (outQueue (queues s));
        match f with
        | Some o =>
          oth ← get_th o;
          outQueue_remove o;; deschedule o (cid oth) BLOCKED;; mret (Some (cid oth))
        | None => mret None
        end
      end;
  match r with
  | Some c => a ← allowed th c; massert a "th->mask[ctx->cid]";; mret (Some c)
  | None => mret None
  end.

Definition schedContext (c : nat) : SM (option Z) :=
  s ← mget;
  f ← mfind (fun g => th ← get_th g; allowed th c) (runQueue (queues s));
  match f with
  | Some g => runQueue_remove g;; mret (Some g)
  | None => mret None
  end.

(** The Fisher-Yates shuffle of [schedTick], for [i] down to 1. *)
Fixpoint shuffle (i : nat) (v : list nat) : SM (list nat) :=
  match i with
  | O => mret v
  | Datatypes.S i' =>
    s ← mget;
    let '(j, r) := randInt (rnd s) i in
    mmodify (set_rnd r);;
    vi ← mlift (arr_get v i);
    vj ← mlift (arr_get v j);
    v ← mlift (arr_set v i vj);
    v ← mlift (arr_set v j vi);
    shuffle i' v
  end.

(** The [while] over the run queue, of which [q] is what remains. *)
Fixpoint tick_loop (q : list Z) (avail : list nat) : SM unit :=
  match q with
  | [] => mret tt
  | g :: q' =>
    if decide (avail = []) then mret tt
    else
      th ← get_th g;
      f ← mfind (allowed th) avail;
      match f with
      | Some c =>
        ctx ← get_ctx c;
        victim ← mlift (from_opt (curThread ctx) "victimTh");
        upd_th victim (with_handoff (Some g));;
        runQueue_remove g;;
        tick_loop q' (remove_first c avail)
      | None => tick_loop q' avail
      end
  end.

(** [printState], for its panic. *)
Fixpoint printState (l : list ContextInfo) : SM unit :=
  match l with
  | [] => mret tt
  | x :: l' =>
    (if bool_decide (c_state x = IDLE) then mret tt
     else g ← mlift (from_opt (curThread x) "null thread");
          th ← get_th g;
          massert (bool_decide (state th = RUNNING) || bool_decide (state th = OUT)) "Invalid state");;
    printState l'
  end.

Definition schedTick : SM unit :=
  avail ← shuffle (numCores - 1) (seq 0 numCores);
  s ← mget;
  tick_loop (runQueue (queues s)) avail;;
  s ← mget;
  printState (contexts s).

(** *** The end of a phase *)
Fixpoint wake_sleepers (fuel : nat) : SM unit :=
  mget ≫= fun s : St =>
  match sleepQueue (queues s) with
  | [] => mret tt
  | g :: rest =>
    th ← get_th g;
    if wakeupPhase th <=? curPhase s then
      match fuel with
      | O => nofuel
      | Datatypes.S fuel' =>
        massert (wakeupPhase th =? curPhase s) "th->wakeupPhase == curPhase";;
        upd_th g (with_state BLOCKED);;
        wakeup g false;;
        mmodify (fun s => set_queues (with_sleepQueue rest (queues s)) s);;
        wake_sleepers fuel'
      end
    else mret tt
  end.

Definition phase_stats : SM unit :=
  s ← mget;
  massert (scheduledThreads s <=? Z.of_nat numCores) "scheduledThreads <= numCores";;
  let i := Z.to_nat (scheduledThreads s) in
  n ← mlift (arr_get (occHist (stats s)) i);
  occ ← mlift (arr_set (occHist (stats s)) i (u64 (n + 1)));
  let last := (length (runQueueHist (stats s)) - 1)%nat in
  let rqPos := if (length (runQueue (queues s)) <? last)%nat then length (runQueue (queues s)) else last in
  n ← mlift (arr_get (runQueueHist (stats s)) rqPos);
  rq ← mlift (arr_set (runQueueHist (stats s)) rqPos (u64 (n + 1)));
  mmodify (set_stats (mkStats (counters (stats s)) occ rq)).

Definition callback : SM unit :=
  phase_stats;;
  (if atSyncFunc then call AtSync else mret tt);;
  mmodify (fun s => set_phase (u64 (curPhase s + 1)) (u64 (numPhases s + 1)) (u64 (globPhaseCycles s + phaseLength)) s);;
  s ← mget;
  massert (curPhase s =? numPhases s) "curPhase == zinfo->numPhases";;
  wake_sleepers (length (sleepQueue (queues s)));;
  s ← mget;
  if decide (runQueue (queues s) = []) then mret tt
  else if schedQuantum =? 0 then mfail "division by zero"
  else if curPhase s mod schedQuantum =? 0 then schedTick
  else mret tt.

(** A barrier operation; when it ends the phase the barrier calls back, on the
    scheduler's side of the state, which the barrier does not read. *)
Definition on_bar (m : M B unit) : SM unit := fun s =>
  match m (bar s) with
  | Ok (_, b) => if bar_phases b =? bar_phases (bar s) then Ok (tt, set_bar b s) else callback (set_bar b s)
  | Err f => Err f
  end.

(** *** Waiting for a context *)
Definition waitForContext (g : Z) : SM unit :=
  upd_th g (with_futexWord 1);; inc waitEvents.
(** After the futex wait. *)
Definition waitForContext_end (g : Z) : SM unit :=
  th ← get_th g;
  if needsJoin th then call (CoreJoin (cid th));; on_bar (bar_join (cid th)) else mret tt.

(** *** Fake leaves *)
Definition finishFakeLeave (g : Z) : SM unit :=
  th ← get_th g;
  massert (bool_decide (fakeLeave th <> None)) "th->fakeLeave";;
  massert (bool_decide (state th = RUNNING)) "invalid state";;
  s ← mget;
  massert (bool_decide (g ∈ fakeLeaves s)) "e->owner == this";;
  mmodify (set_fakeLeaves (remove_first g (fakeLeaves s)));;
  upd_th g (with_fakeLeave None).

(** *** Futex wake/wait matching *)
Definition futexWaitJoin (g : Z) : SM unit :=
  th ← get_th g;
  massert (bool_decide (fj_action (futexJoin th) = FJA_WAIT)) "action == FJA_WAIT";;
  s ← mget;
  let f := futexes s in
  if maxAllowedFutexWakeups f <=? unmatchedFutexWakeups f then mret tt
  else mmodify (set_futexes (mkFutexes (maxAllowedFutexWakeups f) (u32 (unmatchedFutexWakeups f + 1)))).

(** [futexWakeJoin] up to the release of the lock. *)
Definition futexWakeJoin_begin (g : Z) : SM unit :=
  th ← get_th g;
  massert (bool_decide (fj_action (futexJoin th) = FJA_WAKE)) "action == FJA_WAKE";;
  s ← mget;
  let maxWakes := fj_maxWakes (futexJoin th) in
  let wokenUp := fj_wokenUp (futexJoin th) in
  let f := futexes s in
  massert (maxWakes <=? maxAllowedFutexWakeups f) "maxWakes <= maxAllowedFutexWakeups";;
  massert (wokenUp <=? maxWakes) "wokenUp <= maxWakes";;
  let allow := u32 (maxAllowedFutexWakeups f - (maxWakes - wokenUp)) in
  mmodify (set_futexes (mkFutexes allow (unmatchedFutexWakeups f)));;
  massert (unmatchedFutexWakeups f <=? allow) "unmatchedFutexWakeups <= maxAllowedFutexWakeups";;
  upd_th g (with_futexJoin (futexJoin th) true).

(** Its end, with the lock taken again: after the matching waits arrived, or
    after the time-out.  [false] when the recheck fails and the loop goes on. *)
Definition futexWakeJoin_end (g : Z) (timeout : bool) : SM bool :=
  th ← get_th g;
  s ← mget;
  let wokenUp := fj_wokenUp (futexJoin th) in
  let f := futexes s in
  if timeout then
    mmodify (set_futexes (mkFutexes (u32 (maxAllowedFutexWakeups f - wokenUp)) 0));; mret true
  else if wokenUp <=? unmatchedFutexWakeups f then
    mmodify (set_futexes (mkFutexes (u32 (maxAllowedFutexWakeups f - wokenUp)) (u32 (unmatchedFutexWakeups f - wokenUp))));;
    mret true
  else mret false.

Definition notifyFutexWakeStart (pid tid maxWakes : Z) : SM unit :=
  th ← lookup_gid (getGid pid tid);
  massert (bool_decide (fj_action (futexJoin th) = FJA_NONE)) "action == FJA_NONE";;
  let maxWakes := MIN maxWakes (Z.shiftl 1 24) in
  mmodify (fun s => set_futexes (mkFutexes (u32 (maxAllowedFutexWakeups (futexes s) + maxWakes))
                                   (unmatchedFutexWakeups (futexes s))) s);;
  upd_th (getGid pid tid) (with_futexJoin (mkFutexJoin FJA_NONE maxWakes (fj_wokenUp (futexJoin th))) (matching th)).

Definition notifyFutexWakeEnd (pid tid wokenUp : Z) : SM unit :=
  th ← lookup_gid (getGid pid tid);
  upd_th (getGid pid tid) (with_futexJoin (mkFutexJoin FJA_WAKE (fj_maxWakes (futexJoin th)) wokenUp) (matching th)).

Definition notifyFutexWaitWoken (pid tid : Z) : SM unit :=
  th ← lookup_gid (getGid pid tid);
  upd_th (getGid pid tid) (with_futexJoin (mkFutexJoin FJA_WAIT 0 0) (matching th)).

(** *** The threads' interface *)

(** The constructor of [ThreadInfo] leaves [needsJoin] and the rest of [futexJoin]
    unset; both are written before they are read. *)
Definition new_ThreadInfo (lpid ltid : Z) (m : list bool) : SM ThreadInfo :=
  massert (length m =? numCores)%nat "mask.size() == zinfo->numCores";;
  massert (existsb id m) "Empty mask";;
  mret (mkThread lpid ltid STARTED 0 None 0 false false 0 m None (mkFutexJoin FJA_NONE 0 0) false).

(** [lpid] and [ltid] are what the operating system answers. *)
Definition start (pid tid lpid ltid : Z) (m : list bool) : SM unit :=
  let g := getGid pid tid in
  s ← mget;
  massert (negb (bool_decide (g ∈ gidMap s))) "gidMap.find(gid) == gidMap.end()";;
  th ← new_ThreadInfo lpid ltid m;
  mmodify (set_threads (<[g := th]> (threads s)));;
  mmodify (fun s => set_gidMap ({[g]} ∪ gidMap s) s);;
  inc threadsCreated.

(** [cur = sleepQueue.front()], [rest] what follows it: insert [g] after the last
    element whose deadline is not later than [w]. *)
Fixpoint sleep_after (g w cur : Z) (rest : list Z) : SM (list Z) :=
  match rest with
  | [] => mret [cur; g]
  | n :: rest' =>
    nth ← get_th n;
    if wakeupPhase nth <=? w then l ← sleep_after g w n rest'; mret (cur :: l)
    else mret (cur :: g :: rest)
  end.
Definition sleepQueue_insert (g : Z) : SM unit :=
  th ← get_th g;
  s ← mget;
  massert (negb (owned g (queues s))) "!e->owner";;
  l ← match sleepQueue (queues s) with
      | [] => mret [g]
      | f :: rest =>
        fth ← get_th f;
        if wakeupPhase th <? wakeupPhase fth then mret (g :: f :: rest)
        else sleep_after g (wakeupPhase th) f rest
      end;
  mmodify (fun s => set_queues (with_sleepQueue l (queues s)) s).

(** Give the context that is left to a queued thread: the core is told, and the
    thread does not join the barrier, since nobody left it. *)
Definition hand_over (inTh : Z) (c : nat) : SM unit :=
  schedule inTh c;; call (CoreJoin c);; wakeup inTh false.

Definition leave (pid tid : Z) (c : nat) : SM unit :=
  ctx ← get_ctx c;
  g ← mlift (from_opt (curThread ctx) "null thread");
  th ← get_th g;
  massert (g =? getGid pid tid) "th->gid == gid";;
  massert (bool_decide (state th = RUNNING)) "th->state == RUNNING";;
  call (CoreLeave c);;
  if markedForSleep th then
    upd_th g (with_sleep false (wakeupPhase th));;
    deschedule g c SLEEPING;;
    sleepQueue_insert g;;
    inc sleepEvents;;
    inTh ← schedContext c;
    match inTh with
    | Some i => hand_over i c
    | None => freeList_push_back c;; on_bar (bar_leave c)
    end
  else
    inTh ← schedContext c;
    match inTh with
    | Some i => deschedule g c BLOCKED;; hand_over i c
    | None =>
      a ← allowed th (cid th);
      if (a : bool) then
        upd_th g (with_state OUT);; outQueue_push_back g;; on_bar (bar_leave c)
      else deschedule g c BLOCKED;; freeList_push_back c;; on_bar (bar_leave c)
    end.

Definition finish (pid tid : Z) : SM unit :=
  let g := getGid pid tid in
  th ← lookup_gid g;
  mmodify (fun s => set_gidMap (gidMap s ∖ {[g]}) s);;
  (if bool_decide (fakeLeave th <> None) then finishFakeLeave g;; leave pid tid (cid th) else mret tt);;
  th ← get_th g;
  (if bool_decide (state th = RUNNING) then leave pid tid (cid th) else mret tt);;
  th ← get_th g;
  massert (bool_decide (state th = STARTED) || bool_decide (state th = OUT) || bool_decide (state th = BLOCKED) ||
           bool_decide (state th = QUEUED)) "finish";;
  s ← mget;
  (if bool_decide (state th = QUEUED) then runQueue_remove g
   else if owned g (queues s) then
     outQueue_remove g;; deschedule g (cid th) BLOCKED;; freeList_push_back (cid th)
   else mret tt);;
  mmodify (fun s => set_threads (delete g (threads s)) s);;
  inc threadsFinished.

(** [join] once its futex matching is over. *)
Definition join_body (g : Z) : SM unit :=
  th ← get_th g;
  if bool_decide (fakeLeave th <> None) then finishFakeLeave g
  else
    massert (negb (markedForSleep th)) "!th->markedForSleep";;
    (if bool_decide (state th = SLEEPING) then sleepQueue_remove g;; upd_th g (with_state BLOCKED) else mret tt);;
    th ← get_th g;
    if bool_decide (state th = OUT) then
      upd_th g (with_state RUNNING);; outQueue_remove g;;
      call (CoreJoin (cid th));; on_bar (bar_join (cid th))
    else
      massert (bool_decide (state th = BLOCKED) || bool_decide (state th = STARTED)) "BLOCKED or STARTED";;
      ctx ← schedThread g;
      match ctx with
      | Some c => schedule g c;; call (CoreJoin c);; on_bar (bar_join c)
      | None => upd_th g (with_state QUEUED);; runQueue_push_back g;; waitForContext g
      end.

(** [join] from its start, for a thread that has no futex wake to match; with one
    it goes up to the wait, and [join_matched] is the rest. *)
Definition join (pid tid : Z) : SM unit :=
  let g := getGid pid tid in
  th ← lookup_gid g;
  match fj_action (futexJoin th) with
  | FJA_NONE => join_body g
  | FJA_WAIT =>
    futexWaitJoin g;;
    upd_th g (fun t => with_futexJoin (mkFutexJoin FJA_NONE (fj_maxWakes (futexJoin t)) (fj_wokenUp (futexJoin t))) (matching t) t);;
    join_body g
  | FJA_WAKE => futexWakeJoin_begin g
  end.
Definition join_matched (pid tid : Z) (timeout : bool) : SM unit :=
  let g := getGid pid tid in
  ok ← futexWakeJoin_end g timeout;
  if (ok : bool) then
    upd_th g (fun t => with_futexJoin (mkFutexJoin FJA_NONE (fj_maxWakes (futexJoin t)) (fj_wokenUp (futexJoin t))) false t);;
    join_body g
  else mret tt.

(** [sync] up to the barrier. *)
Definition sync (c : nat) : SM unit :=
  ctx ← get_ctx c;
  g ← mlift (from_opt (curThread ctx) "null thread");
  th ← get_th g;
  massert (negb (markedForSleep th)) "!th->markedForSleep";;
  on_bar (bar_sync c).

(** [sync] after the barrier: the hand-off. *)
Definition sync_handoff (g : Z) : SM unit :=
  th ← get_th g;
  match handoffThread th with
  | None => mret tt
  | Some dst =>
    upd_th g (with_handoff None);;
    deschedule g (cid th) QUEUED;;
    schedule dst (cid th);;
    wakeup dst false;;
    inc handoffEvents;;
    ctx ← schedThread g;
    match ctx with
    | Some c => schedule g c;; call (CoreJoin c);; on_bar (bar_join c)
    | None => runQueue_push_back g;; waitForContext g
    end
  end.

(** The end of [sync], once the thread runs again. *)
Definition sync_return (g : Z) : SM nat :=
  th ← get_th g; massert (bool_decide (state th = RUNNING)) "th->state == RUNNING";; mret (cid th).

Definition markForSleep (pid tid wakeup : Z) : SM unit :=
  th ← lookup_gid (getGid pid tid);
  massert (negb (markedForSleep th)) "!th->markedForSleep";;
  upd_th (getGid pid tid) (fun t => with_futexWord 1 (with_sleep true wakeup t)).

Definition isSleeping (pid tid : Z) : SM bool :=
  th ← lookup_gid (getGid pid tid); mret (bool_decide (state th = SLEEPING)).

Definition notifySleepEnd (pid tid : Z) : SM unit :=
  let g := getGid pid tid in
  th ← lookup_gid g;
  massert (negb (markedForSleep th)) "th->markedForSleep == false";;
  massert (bool_decide (state th = SLEEPING) || bool_decide (state th = BLOCKED)) "SLEEPING or BLOCKED";;
  if bool_decide (state th = BLOCKED) then mret tt
  else sleepQueue_remove g;; upd_th g (with_state BLOCKED).

Definition notifyTermination : SM unit := mmodify (set_terminate true).

Definition syscallLeave (pid tid : Z) (c : nat) (pc syscallNumber arg0 arg1 : Z) : SM unit :=
  ctx ← get_ctx c;
  g ← mlift (from_opt (curThread ctx) "null thread");
  th ← get_th g;
  massert (g =? getGid pid tid) "th->gid == gid";;
  massert (cid th =? c)%nat "th->cid == cid";;
  massert (bool_decide (state th = RUNNING)) "th->state == RUNNING";;
  massert (pid <? Z.of_nat MAX_THREADS) "pid < blockingSyscalls.size()";;
  s ← mget;
  a ← allowed th c;
  if bool_decide ((pid, pc) ∈ blockingSyscalls s) || markedForSleep th || negb a then leave pid tid c
  else
    massert (bool_decide (fakeLeave th = None)) "th->fakeLeave == nullptr";;
    upd_th g (with_fakeLeave (Some (mkFakeLeave pc syscallNumber arg0 arg1)));;
    mmodify (fun s => set_fakeLeaves (fakeLeaves s ++ [g]) s).

(** *** Masks and processes *)
Definition getMask (pid tid : Z) : SM (list bool) :=
  s ← mget;
  if bool_decide (getGid pid tid ∈ gidMap s) then th ← get_th (getGid pid tid); mret (mask th)
  else mret (replicate numCores true).

Definition updateMask (pid tid : Z) (m : list bool) : SM unit :=
  s ← mget;
  if bool_decide (getGid pid tid ∈ gidMap s) then
    massert (length m =? numCores)%nat "mask.size() == zinfo->numCores";;
    massert (existsb id m) "Empty mask";;
    upd_th (getGid pid tid) (with_mask m)
  else mret tt.

Definition getScheduledPid (c : nat) : SM Z :=
  ctx ← get_ctx c;
  if bool_decide (c_state ctx = USED) then g ← mlift (from_opt (curThread ctx) "null thread"); mret (getPid g)
  else mret (two32 - 1).

Definition queueProcessCleanup (pid osPid : Z) : SM unit :=
  mmodify (fun s => set_pending (pendingPidCleanups s ++ [(pid, osPid)]) s).

(** [doomed] lists the tids of the process in the order of the hash map. *)
Definition doomedTids (pid : Z) : SM (list Z) :=
  s ← mget; mret (map getTid (filter (fun g => getPid g = pid) (elements (gidMap s)))).
Fixpoint cleanup_tids (pid : Z) (tids : list Z) : SM unit :=
  match tids with
  | [] => mret tt
  | tid :: tids' =>
    b ← isSleeping pid tid;
    (if (b : bool) then notifySleepEnd pid tid else mret tt);;
    finish pid tid;;
    cleanup_tids pid tids'
  end.
Definition processCleanup (pid : Z) : SM unit := tids ← doomedTids pid; cleanup_tids pid tids.

(** *** The watchdog thread *)

(** Every scheduled thread is out and some thread sleeps. *)
Definition watchdog_idle (s : St) : bool :=
  (scheduledThreads s =? Z.of_nat (length (outQueue (queues s)))) && negb (bool_decide (sleepQueue (queues s) = [])).

(** The loop that drives time forward until the first sleeper [sth] is awake;
    [stop] tells when another thread waits for the lock or the simulation ends. *)
Fixpoint watchdog_loop (fuel : nat) (stop : nat -> bool) (sth : Z) : SM unit :=
  th ← get_th sth;
  if bool_decide (state th = SLEEPING) then
    match fuel with
    | O => nofuel
    | Datatypes.S fuel' =>
      inc idlePhases;; callback;;
      if stop fuel' then mret tt else watchdog_loop fuel' stop sth
    end
  else mret tt.
Definition watchdog_drive (fuel : nat) (stop : nat -> bool) : SM unit :=
  s ← mget;
  if watchdog_idle s then
    sth ← mlift (from_opt (head (sleepQueue (queues s))) "null thread");
    watchdog_loop fuel stop sth;; inc idlePeriods
  else mret tt.

(** A stall in a fake leave, found when no phase ended for a while: the first one
    becomes a leave, if the process's regular expression [matches] its system call; if
    it is the only one its pc is blacklisted.  The leaves at the same pc follow while
    more than 8 remain.  Between a [finishFakeLeave] and its [leave] the lock is free,
    and nobody else takes it here. *)
Fixpoint stall_loop (fuel : nat) (pid pc g tid : Z) (c : nat) : SM unit :=
  match fuel with
  | O => nofuel
  | Datatypes.S fuel' =>
    finishFakeLeave g;;
    leave pid tid c;;
    mget ≫= fun s : St =>
    match fakeLeaves s with
    | [] => mret tt
    | g' :: _ =>
      th' ← get_th g';
      fl ← mlift (from_opt (fakeLeave th') "null fake leave");
      if negb (getPid g =? pid) || negb (fl_pc fl =? pc) then mret tt
      else if (8 <? length (fakeLeaves s))%nat then stall_loop fuel' pid pc g' (getTid g') (cid th')
      else mret tt
    end
  end.
Definition watchdog_stall (matches : Z -> FakeLeaveInfo -> bool) : SM unit :=
  mget ≫= fun s : St =>
  match fakeLeaves s with
  | [] => mret tt
  | g :: rest =>
    th ← get_th g;
    if bool_decide (fj_action (futexJoin th) = FJA_WAKE) then mret tt
    else
      fl ← mlift (from_opt (fakeLeave th) "null fake leave");
      if matches (getPid g) fl then
        (if decide (rest = []) then mmodify (set_blockingSyscalls ({[(getPid g, fl_pc fl)]} ∪ blockingSyscalls s)) else mret tt);;
        stall_loop (length (fakeLeaves s)) (getPid g) (fl_pc fl) g (getTid g) (cid th)
      else mret tt
  end.

(** The end of the watchdog's round: the processes that terminated abruptly, last
    queued first, up to one that the operating system still knows ([alive]). *)
Fixpoint cleanups (alive : Z -> bool) (back : list (Z * Z)) : SM unit :=
  match back with
  | [] => mret tt
  | (pid, osPid) :: back' =>
    if alive osPid then mret tt
    else mmodify (set_pending (rev back'));; processCleanup pid;; cleanups alive back'
  end.
Definition watchdog_cleanup (alive : Z -> bool) : SM unit :=
  s ← mget; cleanups alive (rev (pendingPidCleanups s)).

(** *** The constructor *)
Definition initStats : Stats :=
  mkStats (fun _ => 0) (replicate (numCores + 1) 0) (replicate ((if (16 <? numCores)%nat then numCores else 16) + 1) 0).
Definition init (b : B) (r : R) : St :=
  mkSched B R b r ∅ ∅ (replicate numCores (mkContext IDLE None)) (mkQueues (seq 0 numCores) [] [] []) [] ∅
    (mkFutexes 0 0) 0 0 0 0 [] false initStats [].
End Ops.
End Sch.
