(* ===== verification/SchedulerInv.v ===== *)
(** * The scheduler's invariant

    The laws that the scheduler relies on of the barrier, and the invariant of the
    scheduler's state.  A scheduling operation goes through states where a context
    or a thread is between two lists or the barrier has not been told yet, so the
    invariant has holes: [GInv h s] is the invariant up to the elements that [h]
    names, and [GInv no_holes s] holds between the operations. *)

From Stdlib Require Import Sorted.
From S2P Require Import Prelude Bithacks Barrier Scheduler.

(** What an operation on core [z] does for the others: nobody enters or leaves, and
    either the phase goes on, with running cores still running and no further one
    arrived, or it ends, which takes every core inside to have arrived. *)
Definition Others {B} (phases : B -> Z) (inside runs : B -> nat -> bool) (arrived : B -> nat -> Prop)
    (z : nat) (b b' : B) : Prop :=
  (forall y, y <> z -> inside b' y = inside b y) /\
  (phases b' = phases b /\ (forall y, y <> z -> runs b y = true -> runs b' y = true) /\
     (forall y, y <> z -> arrived b' y -> arrived b y) \/
   phases b' = phases b + 1 /\ (forall y, y <> z -> inside b y = true -> arrived b y) /\ (forall y, ~ arrived b' y)).

Class BarrierLaws (B : Type) `{BarrierOps B} := {
  bar_ok : B -> Prop;
  bar_in : B -> nat -> bool;
  bar_runs : B -> nat -> bool;
  bar_arrived : B -> nat -> Prop;
  bar_runs_in b z : bar_runs b z = true -> bar_in b z = true;
  bar_runs_arrived b z : bar_runs b z = true -> ~ bar_arrived b z;
  bar_join_law b z : bar_ok b -> (z < MAX_THREADS)%nat -> bar_in b z = false ->
    exists b', bar_join z b = Ok (tt, b') /\ bar_ok b' /\ bar_in b' z = true /\ ~ bar_arrived b' z /\
      bar_phases b' = bar_phases b /\ Others bar_phases bar_in bar_runs bar_arrived z b b';
  bar_leave_law b z : bar_ok b -> bar_runs b z = true ->
    exists b', bar_leave z b = Ok (tt, b') /\ bar_ok b' /\ bar_in b' z = false /\
      Others bar_phases bar_in bar_runs bar_arrived z b b';
  bar_sync_law b z : bar_ok b -> bar_runs b z = true ->
    exists b', bar_sync z b = Ok (tt, b') /\ bar_ok b' /\ bar_in b' z = true /\
      Others bar_phases bar_in bar_runs bar_arrived z b b'
}.

Module SchI.
Import Sch.

(** ** Lists *)
Lemma remove_first_elem {A} `{EqDecision A} (x y : A) l : NoDup l -> y ∈ remove_first x l <-> y ∈ l /\ y <> x.
Proof.
  induction l as [|z l IH]; cbn; intros Hn; [set_solver|].
  apply list.NoDup_cons in Hn as [Hz Hn]. case_decide as E; [subst; set_solver|].
  rewrite !elem_of_cons, IH by done. set_solver.
Qed.
Lemma remove_first_NoDup {A} `{EqDecision A} (x : A) l : NoDup l -> NoDup (remove_first x l).
Proof.
  induction l as [|z l IH]; cbn; intros Hn; [done|]. apply list.NoDup_cons in Hn as [Hz Hn].
  case_decide; [done|]. apply list.NoDup_cons. split; [|by apply IH].
  rewrite remove_first_elem by done. naive_solver.
Qed.
Lemma NoDup_snoc {A} (x : A) l : NoDup l -> x ∉ l -> NoDup (l ++ [x]).
Proof. intros. apply list.NoDup_app. split; [done|]. split; [set_solver|apply NoDup_singleton]. Qed.

(** The core's side: [Some b] when the calls to its [join] and [leave] alternate
    and [b] tells whether it is joined. *)
Fixpoint joined (c : nat) (l : list Call) : option bool :=
  match l with
  | [] => Some false
  | CoreJoin d :: l' =>
    if decide (c = d) then (if joined c l' is Some false then Some true else None) else joined c l'
  | CoreLeave d :: l' =>
    if decide (c = d) then (if joined c l' is Some true then Some false else None) else joined c l'
  | _ :: l' => joined c l'
  end.

(** The context that is idle but not in [freeList], the threads that are not in the
    list of their state, the core whose barrier and the core whose calls are not up
    to date. *)
Record Holes := mkHoles {
  h_ctx : option nat;
  h_thr : gset Z;
  h_bar : option nat;
  h_core : option nat
}.
Definition no_holes := mkHoles None ∅ None None.

(** Cases on whether a thread is the one updated. *)
Ltac lk := repeat match goal with
  | H : <[?g := _]> _ !! ?g' = Some _ |- _ =>
    apply lookup_insert_Some in H; destruct H as [[? ?]|[? ?]]; [subst|]
  end.

(** The threads whose mask was changed, while they had a context, to one that does not
    allow it: [updateMask] leaves them where they are. *)
Class Remasked := remasked : gset Z.

Section Inv.
Context {B R : Type} `{BL : BarrierLaws B} {W : Remasked}.
Variable numCores : nat.
Abbreviation St := (Sched B R).
Implicit Type s : St.

Definition run_on (l : list ContextInfo) (m : gmap Z ThreadInfo) (c : nat) : bool :=
  match l !! c ≫= curThread with
  | Some g => match m !! g with Some th => bool_decide (state th = RUNNING) | None => false end
  | None => false
  end.
(** Core [c] has a running thread. *)
Definition running s (c : nat) : bool := run_on (contexts s) (threads s) c.

Definition idle : ContextInfo := mkContext IDLE None.
Definition used (g : Z) : ContextInfo := mkContext USED (Some g).
Definition nused (l : list ContextInfo) : nat := length (filter (fun x => c_state x = USED) l).

(** Some thread is to hand its context to [g]. *)
Definition handed (m : gmap Z ThreadInfo) (g : Z) : Prop :=
  exists v vt, m !! v = Some vt /\ handoffThread vt = Some g.
Definition onctx (th : ThreadInfo) : Prop := state th = RUNNING \/ state th = OUT.
#[export] Instance onctx_dec th : Decision (onctx th).
Proof. apply _. Defined.
Definition wk (m : gmap Z ThreadInfo) (g : Z) : Z := if m !! g is Some th then wakeupPhase th else 0.

(** The invariant of thread [g]. *)
Record TOk (h : Holes) s (g : Z) (th : ThreadInfo) : Prop := mkTOk {
  to_cid : (cid th < numCores)%nat;
  to_len : length (mask th) = numCores;
  to_on : onctx th -> contexts s !! cid th = Some (used g) /\ (g ∉ (remasked : gset Z) -> mask th !! cid th = Some true);
  to_out : g ∈ outQueue (queues s) <-> state th = OUT /\ g ∉ h_thr h;
  to_sleep : g ∈ sleepQueue (queues s) <-> state th = SLEEPING /\ g ∉ h_thr h;
  to_run : g ∈ runQueue (queues s) <-> state th = QUEUED /\ g ∉ h_thr h /\ ~ handed (threads s) g;
  to_word : state th = SLEEPING \/ state th = QUEUED /\ g ∉ h_thr h -> futexWord th = 1;
  to_wake : state th = SLEEPING -> curPhase s < wakeupPhase th;
  to_mark : markedForSleep th = true ->
    state th = RUNNING /\ handoffThread th = None /\ fakeLeave th = None /\ bar_runs (bar s) (cid th) = true /\
    curPhase s < wakeupPhase th /\ futexWord th = 1;
  to_fake : g ∈ fakeLeaves s <-> fakeLeave th <> None;
  to_faked : fakeLeave th <> None ->
    state th = RUNNING /\ handoffThread th = None /\ bar_runs (bar s) (cid th) = true
}.

Record GInv (h : Holes) s : Prop := mkGInv {
  gi_thr : forall g th, threads s !! g = Some th -> TOk h s g th;
  gi_dom : forall g, g ∈ runQueue (queues s) \/ g ∈ outQueue (queues s) \/ g ∈ sleepQueue (queues s) \/ g ∈ fakeLeaves s ->
    is_Some (threads s !! g);
  gi_nodup : NoDup (runQueue (queues s)) /\ NoDup (outQueue (queues s)) /\ NoDup (sleepQueue (queues s)) /\
    NoDup (freeList (queues s)) /\ NoDup (fakeLeaves s);
  gi_len : length (contexts s) = numCores;
  gi_ctx : forall c x, contexts s !! c = Some x ->
    x = idle \/ exists g th, x = used g /\ threads s !! g = Some th /\ cid th = c /\ onctx th;
  gi_gid : forall g, g ∈ gidMap s <-> is_Some (threads s !! g);
  gi_free : forall c, c ∈ freeList (queues s) <-> contexts s !! c = Some idle /\ h_ctx h <> Some c;
  gi_sorted : StronglySorted (fun a b => wk (threads s) a <= wk (threads s) b) (sleepQueue (queues s));
  gi_hand : forall v vt g, threads s !! v = Some vt -> handoffThread vt = Some g ->
    state vt = RUNNING /\ ~ bar_arrived (bar s) (cid vt) /\ g ∉ h_thr h /\
    exists gt, threads s !! g = Some gt /\ state gt = QUEUED /\ mask gt !! cid vt = Some true;
  gi_hinj : forall v vt v' vt' g, threads s !! v = Some vt -> threads s !! v' = Some vt' ->
    handoffThread vt = Some g -> handoffThread vt' = Some g -> v = v';
  gi_work : forall g th c, g ∈ runQueue (queues s) -> threads s !! g = Some th -> mask th !! c = Some true ->
    running s c = true \/ h_ctx h = Some c;
  gi_cnt : scheduledThreads s = Z.of_nat (nused (contexts s));
  gi_bar : bar_ok (bar s) /\ forall c, h_bar h <> Some c -> bar_in (bar s) c = running s c;
  gi_core : forall c, h_core h <> Some c -> joined c (calls s) = Some (running s c);
  gi_phase : curPhase s = numPhases s /\ 0 <= curPhase s;
  gi_hist : length (occHist (stats s)) = (numCores + 1)%nat /\ (0 < length (runQueueHist (stats s)))%nat
}.

(** ** Symbolic execution *)
Lemma wp_get_th g th (Q : ThreadInfo -> St -> Prop) s : threads s !! g = Some th -> Q th s -> wp (get_th g) Q s.
Proof. intros E HQ. unfold get_th. wp_steps. apply wp_lift. unfold from_opt. by rewrite E. Qed.
Lemma wp_upd_th g th f (Q : unit -> St -> Prop) s :
  threads s !! g = Some th -> Q tt (set_threads (<[g := f th]> (threads s)) s) -> wp (upd_th g f) Q s.
Proof. intros E HQ. unfold upd_th. wp_steps. eapply wp_get_th; [done|]. by wp_steps. Qed.
Lemma wp_get_ctx c x (Q : ContextInfo -> St -> Prop) s : contexts s !! c = Some x -> Q x s -> wp (get_ctx c) Q s.
Proof. intros E HQ. unfold get_ctx. wp_steps. apply wp_lift. by rewrite (arr_get_Some _ _ _ E). Qed.
Lemma wp_put_ctx c x (Q : unit -> St -> Prop) s :
  (c < length (contexts s))%nat -> Q tt (set_contexts (<[c := x]> (contexts s)) s) -> wp (put_ctx c x) Q s.
Proof. intros Hc HQ. unfold put_ctx. wp_steps. apply wp_arr_set_lt; [done|]. by wp_steps. Qed.
Lemma wp_allowed th c b (Q : bool -> St -> Prop) s : mask th !! c = Some b -> Q b s -> wp (allowed th c) Q s.
Proof. intros E HQ. unfold allowed. apply wp_lift. by rewrite (arr_get_Some _ _ _ E). Qed.

(** ** Which cores run *)
Lemma run_on_same l (m : gmap Z ThreadInfo) g th th' c :
  m !! g = Some th -> state th' = state th -> run_on l (<[g := th']> m) c = run_on l m c.
Proof.
  intros E Hs. unfold run_on. destruct (l !! c ≫= curThread) as [g'|]; [|done].
  destruct (decide (g' = g)) as [->|]; [by rewrite lookup_insert_eq, E, Hs|]. by rewrite lookup_insert_ne.
Qed.
(** A thread without a context may change as it likes. *)
Lemma run_on_off l (m : gmap Z ThreadInfo) g th' c :
  l !! c ≫= curThread <> Some g -> run_on l (<[g := th']> m) c = run_on l m c.
Proof.
  intros Hc. unfold run_on. destruct (l !! c ≫= curThread) as [g'|]; [|done].
  destruct (decide (g' = g)) as [->|]; [done|]. by rewrite lookup_insert_ne.
Qed.
Lemma run_on_ctx l (m : gmap Z ThreadInfo) c d x : d <> c -> run_on (<[c := x]> l) m d = run_on l m d.
Proof. intros Hd. unfold run_on. by rewrite list_lookup_insert_ne. Qed.
Lemma run_on_at l (m : gmap Z ThreadInfo) c g th :
  l !! c = Some (used g) -> m !! g = Some th -> run_on l m c = bool_decide (state th = RUNNING).
Proof. intros E1 E2. unfold run_on. rewrite E1. cbn. by rewrite E2. Qed.
Lemma run_on_idle l (m : gmap Z ThreadInfo) c : l !! c = Some idle -> run_on l m c = false.
Proof. intros E. unfold run_on. by rewrite E. Qed.

Lemma nused_cons x l : nused (x :: l) = ((if decide (c_state x = USED) then 1 else 0) + nused l)%nat.
Proof. unfold nused. rewrite filter_cons. by case_decide. Qed.
Lemma nused_insert l c x y : l !! c = Some x ->
  (nused (<[c := y]> l) + (if decide (c_state x = USED) then 1 else 0) = nused l + (if decide (c_state y = USED) then 1 else 0))%nat.
Proof.
  revert c. induction l as [|z l IH]; intros c E; [done|]. destruct c as [|c].
  - injection E as ->. change (<[0%nat := y]> (x :: l)) with (y :: l). rewrite !nused_cons. lia.
  - change (<[S c := y]> (z :: l)) with (z :: <[c := y]> l). rewrite !nused_cons. specialize (IH c E). lia.
Qed.
Lemma nused_use l c g : l !! c = Some idle -> nused (<[c := used g]> l) = S (nused l).
Proof. intros E. pose proof (nused_insert l c idle (used g) E) as HN. repeat case_decide; simpl in *; (lia || done). Qed.
Lemma nused_free l c g : l !! c = Some (used g) -> nused l = S (nused (<[c := idle]> l)).
Proof. intros E. pose proof (nused_insert l c (used g) idle E) as HN. repeat case_decide; simpl in *; (lia || done). Qed.
Lemma nused_le l : (nused l <= length l)%nat.
Proof. unfold nused. apply length_filter. Qed.

(** ** Facts of the invariant *)
Lemma gi_inj h s c g : GInv h s -> contexts s !! c = Some (used g) ->
  exists th, threads s !! g = Some th /\ cid th = c /\ onctx th.
Proof. intros HI E. destruct (gi_ctx h s HI c _ E) as [?|(g' & th & E' & ? & ? & ?)]; [done|]. injection E' as <-. eauto. Qed.
Lemma gi_off h s g th c : GInv h s -> threads s !! g = Some th -> ~ onctx th -> contexts s !! c ≫= curThread <> Some g.
Proof.
  intros HI E Hs Hc. destruct (contexts s !! c) as [x|] eqn:Ex; [|done]. cbn in Hc.
  destruct (gi_ctx h s HI c x Ex) as [->|(g' & th' & -> & ? & ? & ?)]; [done|]. cbn in Hc. simplify_eq. done.
Qed.
Lemma gi_running h s c : GInv h s -> running s c = true ->
  exists g th, contexts s !! c = Some (used g) /\ threads s !! g = Some th /\ cid th = c /\ state th = RUNNING.
Proof.
  intros HI Hr. unfold running, run_on in Hr. destruct (contexts s !! c) as [x|] eqn:Ex; [|done]. cbn in Hr.
  destruct (gi_ctx h s HI c x Ex) as [->|(g & th & -> & E & Hc & ?)]; [done|]. cbn in Hr. rewrite E in Hr.
  apply bool_decide_eq_true in Hr. eauto 10.
Qed.
Lemma gi_idle h s c : GInv h s -> (c < numCores)%nat -> running s c = false ->
  contexts s !! c = Some idle \/ exists g th, contexts s !! c = Some (used g) /\ threads s !! g = Some th /\ cid th = c /\ state th = OUT.
Proof.
  intros HI Hc Hr. destruct (lookup_lt_is_Some_2 (contexts s) c) as [x Ex]; [by rewrite (gi_len h s HI)|].
  destruct (gi_ctx h s HI c x Ex) as [->|(g & th & -> & E & Ec & [Hs|Hs])]; [by left| |right; eauto 10].
  unfold running in Hr. rewrite (run_on_at _ _ _ _ _ Ex E), Hs in Hr. done.
Qed.

(** ** Updating one thread *)
Lemma handed_same (m : gmap Z ThreadInfo) g th th' x :
  m !! g = Some th -> handoffThread th' = handoffThread th -> handed (<[g := th']> m) x <-> handed m x.
Proof.
  intros E Hh. unfold handed. split; intros (v & vt & Ev & Hv).
  - lk; [rewrite Hh in Hv|]; eauto.
  - destruct (decide (v = g)) as [->|]; [exists g, th'; rewrite lookup_insert_eq; naive_solver congruence|].
    exists v, vt. by rewrite lookup_insert_ne.
Qed.
Lemma wk_same (m : gmap Z ThreadInfo) g th th' x :
  m !! g = Some th -> wakeupPhase th' = wakeupPhase th -> wk (<[g := th']> m) x = wk m x.
Proof.
  intros E Hw. unfold wk. destruct (decide (x = g)) as [->|]; [by rewrite lookup_insert_eq, E|]. by rewrite lookup_insert_ne.
Qed.
Lemma wk_off (m : gmap Z ThreadInfo) g th' x : x <> g -> wk (<[g := th']> m) x = wk m x.
Proof. intros. unfold wk. by rewrite lookup_insert_ne. Qed.
Lemma sorted_ext (f f' : Z -> Z) l : (forall x, x ∈ l -> f' x = f x) ->
  StronglySorted (fun a b => f a <= f b) l -> StronglySorted (fun a b => f' a <= f' b) l.
Proof.
  induction l as [|x l IH]; intros E Hs; [constructor|]. apply StronglySorted_inv in Hs as [Hs Hx]. constructor.
  - apply IH; [|done]. intros y Hy. apply E. by right.
  - apply list.Forall_forall. intros y Hy. eapply list.Forall_forall in Hx; [|exact Hy]. cbn in Hx.
    rewrite !E; [done|by right|by left].
Qed.

(** The rest of the state, which the thread operations leave alone. *)
Record Frame s s' : Prop := mkFrame {
  fr_bar : bar s' = bar s;
  fr_gid : gidMap s' = gidMap s;
  fr_cur : curPhase s' = curPhase s;
  fr_num : numPhases s' = numPhases s;
  fr_occ : occHist (stats s') = occHist (stats s);
  fr_rq : runQueueHist (stats s') = runQueueHist (stats s)
}.

(** Membership in the lists is the same for every thread but [g]. *)
Record QFrame (g : Z) h h' s s' : Prop := mkQFrame {
  qf_run : forall x, x <> g -> x ∈ runQueue (queues s') <-> x ∈ runQueue (queues s);
  qf_out : forall x, x <> g -> x ∈ outQueue (queues s') <-> x ∈ outQueue (queues s);
  qf_sleep : forall x, x <> g -> x ∈ sleepQueue (queues s') <-> x ∈ sleepQueue (queues s);
  qf_fake : forall x, x <> g -> x ∈ fakeLeaves s' <-> x ∈ fakeLeaves s;
  qf_thr : forall x, x <> g -> x ∈ h_thr h' <-> x ∈ h_thr h
}.

(** The invariant after thread [g], which takes no part in a hand-off, changes. *)
Lemma upd_inv h h' s s' g th th' :
  GInv h s -> threads s !! g = Some th -> threads s' = <[g := th']> (threads s) -> Frame s s' -> QFrame g h h' s s' ->
  handoffThread th = None -> handoffThread th' = None -> ~ handed (threads s) g ->
  NoDup (runQueue (queues s')) /\ NoDup (outQueue (queues s')) /\ NoDup (sleepQueue (queues s')) /\
    NoDup (freeList (queues s')) /\ NoDup (fakeLeaves s') ->
  length (contexts s') = numCores ->
  (forall x t, x <> g -> threads s !! x = Some t -> onctx t -> contexts s' !! cid t = contexts s !! cid t) ->
  (forall c x, contexts s' !! c = Some x ->
    x = idle \/ exists g th, x = used g /\ threads s' !! g = Some th /\ cid th = c /\ onctx th) ->
  TOk h' s' g th' ->
  (forall c, c ∈ freeList (queues s') <-> contexts s' !! c = Some idle /\ h_ctx h' <> Some c) ->
  StronglySorted (fun a b => wk (threads s') a <= wk (threads s') b) (sleepQueue (queues s')) ->
  (forall g th c, g ∈ runQueue (queues s') -> threads s' !! g = Some th -> mask th !! c = Some true ->
    running s' c = true \/ h_ctx h' = Some c) ->
  scheduledThreads s' = Z.of_nat (nused (contexts s')) ->
  (forall c, h_bar h' <> Some c -> bar_in (bar s') c = running s' c) ->
  (forall c, h_core h' <> Some c -> joined c (calls s') = Some (running s' c)) ->
  GInv h' s'.
Proof.
  intros HI Hg Ht [] [] Hn Hn' Hnh Hnd Hlen Hcx Hctx HT Hfree Hsort Hwork Hcnt Hbar Hcore.
  assert (Hhd : forall x, handed (threads s') x <-> handed (threads s) x).
  { intros x. rewrite Ht. apply (handed_same _ _ th); [done|congruence]. }
  constructor; try done.
  - intros x t Hx. rewrite Ht in Hx. lk; [done|]. destruct (gi_thr _ _ HI x t ltac:(done)).
    assert (Hne : x <> g) by congruence. constructor; try done.
    + intros Ho. rewrite (Hcx x t) by done. by apply to_on0.
    + rewrite qf_out0, qf_thr0 by done. done.
    + rewrite qf_sleep0, qf_thr0 by done. done.
    + rewrite qf_run0, qf_thr0, Hhd by done. done.
    + rewrite qf_thr0 by done. done.
    + by rewrite fr_cur0.
    + by rewrite fr_bar0, fr_cur0.
    + by rewrite qf_fake0.
    + by rewrite fr_bar0.
  - intros x Hx. rewrite Ht. destruct (decide (x = g)) as [->|Hne]; [by rewrite lookup_insert_eq|].
    rewrite lookup_insert_ne by done. apply (gi_dom _ _ HI). by rewrite <- qf_run0, <- qf_out0, <- qf_sleep0, <- qf_fake0.
  - intros x. rewrite fr_gid0, (gi_gid _ _ HI), Ht. destruct (decide (x = g)) as [->|]; [|by rewrite lookup_insert_ne].
    rewrite lookup_insert_eq, Hg. done.
  - intros v vt x Hv Hx. rewrite Ht in Hv. lk; [congruence|].
    destruct (gi_hand _ _ HI v vt x) as (? & ? & Hxt & gt & Hgt & ? & ?); [done..|].
    assert (x <> g) by (intros ->; apply Hnh; by exists v, vt).
    rewrite fr_bar0, qf_thr0 by done. do 3 (split; [done|]). exists gt. rewrite Ht, lookup_insert_ne by done. done.
  - intros v vt v' vt' x Hv Hv' Hx Hx'. rewrite Ht in Hv, Hv'. lk; try congruence.
    eapply (gi_hinj _ _ HI v vt v' vt'); done.
  - split; [rewrite fr_bar0; apply (gi_bar _ _ HI)|done].
  - rewrite fr_cur0, fr_num0. apply (gi_phase _ _ HI).
  - rewrite fr_occ0, fr_rq0. apply (gi_hist _ _ HI).
Qed.

(** A thread without a context is not marked for sleep, in a fake leave or handing
    off its context. *)
Lemma off_plain h s g th : GInv h s -> threads s !! g = Some th -> state th <> RUNNING ->
  markedForSleep th = false /\ fakeLeave th = None /\ handoffThread th = None.
Proof.
  intros HI Hg Hs. pose proof (gi_thr _ _ HI _ _ Hg) as HT. split; [|split].
  - destruct (markedForSleep th) eqn:E; [|done]. by destruct (to_mark _ _ _ _ HT E).
  - destruct (fakeLeave th) eqn:E; [|done]. by destruct (to_faked _ _ _ _ HT ltac:(congruence)).
  - destruct (handoffThread th) eqn:E; [|done]. by destruct (gi_hand _ _ HI _ _ _ Hg E).
Qed.
Lemma not_handed h s g th : GInv h s -> threads s !! g = Some th -> state th <> QUEUED \/ g ∈ h_thr h -> ~ handed (threads s) g.
Proof.
  intros HI Hg Hs (v & vt & Hv & Hx). destruct (gi_hand _ _ HI _ _ _ Hv Hx) as (_ & _ & ? & gt & ? & ? & _).
  destruct Hs; naive_solver congruence.
Qed.
Lemma not_queued h s g th : GInv h s -> threads s !! g = Some th ->
  g ∈ h_thr h \/ state th <> OUT /\ state th <> SLEEPING /\ state th <> QUEUED ->
  g ∉ runQueue (queues s) /\ g ∉ outQueue (queues s) /\ g ∉ sleepQueue (queues s).
Proof.
  intros HI Hg Hs. destruct (gi_thr _ _ HI _ _ Hg). rewrite to_out0, to_sleep0, to_run0. destruct Hs; naive_solver.
Qed.
Lemma bar_false h s c : GInv h s -> h_bar h <> Some c -> running s c = false -> bar_in (bar s) c = false.
Proof. intros HI Hh Hr. by rewrite (proj2 (gi_bar _ _ HI)). Qed.

Hypothesis HNC : (numCores <= MAX_THREADS)%nat.

(** ** The primitives *)
Definition calls_same s s' : Prop := forall d, joined d (calls s') = joined d (calls s).

Lemma schedule_thread_spec h s g th c :
  GInv h s -> h_ctx h = Some c -> h_bar h = Some c -> h_core h = Some c -> threads s !! g = Some th ->
  state th = STARTED \/ state th = BLOCKED \/ state th = QUEUED /\ g ∈ h_thr h ->
  contexts s !! c = Some idle -> mask th !! c = Some true ->
  wp (schedule g c) (fun _ s' =>
    GInv (mkHoles None (h_thr h ∖ {[g]}) (Some c) (Some c)) s' /\ Frame s s' /\ calls_same s s' /\ queues s' = queues s /\
    threads s' = <[g := with_cid c (with_state RUNNING th)]> (threads s) /\ contexts s' = <[c := used g]> (contexts s)) s.
Proof.
  intros HI Hh Hb Hk Hg Hs Hc Hm. unfold schedule. wp_steps. eapply wp_get_th; [done|]. wp_steps.
  apply wp_assert. { destruct Hs as [->|[->|[-> _]]]; done. }
  wp_steps. eapply wp_get_ctx; [done|]. wp_steps. apply wp_assert; [done|]. wp_steps. apply wp_assert; [done|]. wp_steps.
  eapply wp_upd_th; [done|]. wp_steps. pose proof (lookup_lt_Some _ _ _ Hc) as Hlt.
  apply wp_put_ctx; [done|]. unfold inc, call. wp_steps.
  match goal with |- GInv _ ?x /\ _ => set (s' := x) end. split; [|done].
  assert (Hoff : ~ onctx th) by (intros [?|?]; destruct Hs as [?|[?|[? _]]]; congruence).
  assert (Hnr : state th <> RUNNING) by (intros ?; apply Hoff; by left).
  destruct (off_plain h s g th HI Hg Hnr) as (Hmk & Hfk & Hho).
  assert (Hnh : ~ handed (threads s) g) by (eapply not_handed; [done..|]; destruct Hs as [?|[?|[? ?]]]; [left; congruence..|by right]).
  assert (Hnq : g ∉ runQueue (queues s) /\ g ∉ outQueue (queues s) /\ g ∉ sleepQueue (queues s)).
  { eapply not_queued; [done..|]. destruct Hs as [E|[E|[E ?]]]; [rewrite E; by right..|by left]. }
  assert (Hrun : forall d, running s' d = if decide (d = c) then true else running s d).
  { intros d. unfold running, s'. cbn. case_decide as E; [subst d|].
    - unfold run_on. rewrite list_lookup_insert_eq by done. cbn. by rewrite lookup_insert_eq.
    - rewrite run_on_ctx by done. apply run_on_off. by eapply gi_off. }
  pose proof (gi_thr _ _ HI _ _ Hg) as HT. pose proof (gi_len _ _ HI) as Hlen.
  apply (upd_inv h _ s s' g th (with_cid c (with_state RUNNING th))); try done.
  - constructor; try done. cbn. set_solver.
  - apply (gi_nodup _ _ HI).
  - cbn. by rewrite length_insert.
  - intros x t Hx Ex Ho. cbn. rewrite list_lookup_insert_ne; [done|]. intros ->.
    destruct (to_on _ _ _ _ (gi_thr _ _ HI x t Ex) Ho) as [E _]. rewrite Hc in E. done.
  - intros d x. cbn. intros [(<- & <- & _)|[? Hd]]%list_lookup_insert_Some.
    + right. exists g, (with_cid c (with_state RUNNING th)). rewrite lookup_insert_eq. split; [done|]. split; [done|]. split; [done|]. by left.
    + destruct (gi_ctx _ _ HI d x Hd) as [?|(g' & t & -> & Et & ? & Ho)]; [by left|]. right. exists g', t.
      rewrite lookup_insert_ne; [done|]. intros ->. rewrite Hg in Et. by injection Et as <-.
  - destruct HT. constructor; cbn; rewrite ?Hmk, ?Hfk; try done.
    + lia.
    + intros _. by rewrite list_lookup_insert_eq.
    + destruct Hnq as (? & ? & ?). split; [done|]. by intros [? _].
    + destruct Hnq as (? & ? & ?). split; [done|]. by intros [? _].
    + destruct Hnq as (? & ? & ?). split; [done|]. by intros [? _].
    + by intros [?|[? _]].
    + by rewrite to_fake0, Hfk.
  - intros d. cbn. rewrite (gi_free _ _ HI d), Hh. split.
    + intros [? ?]. rewrite list_lookup_insert_ne by congruence. done.
    + intros [[(-> & ? & _)|[? ?]]%list_lookup_insert_Some _]; [done|]. split; [done|]. congruence.
  - eapply sorted_ext; [|exact (gi_sorted _ _ HI)]. intros x _. cbn. by apply (wk_same _ _ th).
  - intros x t d Hx Ex Hd. left. rewrite Hrun. case_decide; [done|]. cbn in Ex. lk; [by destruct Hnq|].
    destruct (gi_work _ _ HI x t d) as [?|?]; [done..|congruence].
  - change (u32 (scheduledThreads s + 1) = Z.of_nat (nused (<[c := used g]> (contexts s)))).
    rewrite nused_use, (gi_cnt _ _ HI) by done. pose proof (nused_le (contexts s)).
    unfold MAX_THREADS in *. rewrite u32_small by (unfold two32; lia). lia.
  - intros d Hd. cbn in Hd. rewrite Hrun, decide_False by congruence. apply (proj2 (gi_bar _ _ HI)). congruence.
  - intros d Hd. cbn in Hd. rewrite Hrun, decide_False by congruence. apply (gi_core _ _ HI). congruence.
Qed.

(** What [h_thr] becomes when thread [g] is given state [st]. *)
Definition detach (st : ThreadState) (g : Z) (X : gset Z) : gset Z :=
  match st with BLOCKED => X ∖ {[g]} | _ => {[g]} ∪ X end.

Lemma deschedule_spec procStats h s g th c st :
  GInv h s -> h_ctx h = None -> h_bar h = None \/ h_bar h = Some c -> h_core h = None \/ h_core h = Some c ->
  threads s !! g = Some th -> cid th = c -> state th = RUNNING \/ state th = OUT /\ g ∈ h_thr h ->
  markedForSleep th = false -> fakeLeave th = None -> handoffThread th = None ->
  st = BLOCKED \/ st = QUEUED \/ st = SLEEPING /\ curPhase s < wakeupPhase th /\ futexWord th = 1 ->
  wp (deschedule procStats g c st) (fun _ s' =>
    GInv (mkHoles (Some c) (detach st g (h_thr h)) (Some c) (Some c)) s' /\ Frame s s' /\ calls_same s s' /\ queues s' = queues s /\
    threads s' = <[g := with_state st th]> (threads s) /\ contexts s' = <[c := idle]> (contexts s)) s.
Proof.
  intros HI Hh Hb Hk Hg <- Hs Hmk Hfk Hho Hst. set (c := cid th) in *.
  assert (Hon : onctx th) by (destruct Hs as [?|[? _]]; [by left|by right]).
  destruct (to_on _ _ _ _ (gi_thr _ _ HI _ _ Hg) Hon) as [Hc Hm]. fold c in Hc, Hm.
  pose proof (lookup_lt_Some _ _ _ Hc) as Hlt.
  unfold deschedule. wp_steps. eapply wp_get_th; [done|]. wp_steps.
  apply wp_assert. { destruct Hon as [->| ->]; done. }
  wp_steps. eapply wp_get_ctx; [done|]. wp_steps. apply wp_assert; [done|]. wp_steps. apply wp_assert; [by apply Nat.eqb_eq|]. wp_steps.
  apply wp_assert; [by apply bool_decide_eq_true|]. wp_steps.
  apply wp_assert. { destruct Hst as [->|[->|[-> _]]]; done. }
  wp_steps. set (s0 := if procStats then add_call ProcStatsDeschedule s else s).
  enough (HG : wp (upd_th g (with_state st);; put_ctx c {| c_state := IDLE; curThread := None |};;
      mmodify (add_scheduled (-1));; call (CoreContextSwitch c (-1));; call (ProcessStatsDeschedule c (getPid g)))
    (fun _ s' => GInv (mkHoles (Some c) (detach st g (h_thr h)) (Some c) (Some c)) s' /\ Frame s s' /\ calls_same s s' /\ queues s' = queues s /\
    threads s' = <[g := with_state st th]> (threads s) /\ contexts s' = <[c := idle]> (contexts s)) s0)
    by (destruct procStats; [apply wp_modify|apply wp_ret]; exact HG).
  assert (E0 : threads s0 = threads s /\ contexts s0 = contexts s) by (by destruct procStats). destruct E0 as [Et Ec].
  wp_steps. eapply wp_upd_th; [by rewrite Et|]. wp_steps. apply wp_put_ctx; [cbn; by rewrite Ec|]. unfold call. wp_steps.
  match goal with |- GInv _ ?x /\ _ => set (s' := x) end.
  assert (F : Frame s s' /\ calls_same s s' /\ queues s' = queues s /\
    threads s' = <[g := with_state st th]> (threads s) /\ contexts s' = <[c := idle]> (contexts s) /\
    scheduledThreads s' = u32 (scheduledThreads s - 1) /\ fakeLeaves s' = fakeLeaves s) by (by destruct procStats).
  clearbody s'. clear s0 Et Ec. destruct F as (HF & HC & Eq & Et & Ec & Es & Ef). split; [|done].
  assert (Hnh : ~ handed (threads s) g) by (eapply not_handed; [done..|]; left; destruct Hon as [->| ->]; done).
  assert (Hnq : g ∉ runQueue (queues s) /\ g ∉ outQueue (queues s) /\ g ∉ sleepQueue (queues s)).
  { eapply not_queued; [done..|]. destruct Hs as [E|[E ?]]; [rewrite E; by right|by left]. }
  assert (Hrun : forall d, running s' d = if decide (d = c) then false else running s d).
  { intros d. unfold running. rewrite Et, Ec. case_decide as E; [subst d|].
    - apply run_on_idle. by rewrite list_lookup_insert_eq.
    - rewrite run_on_ctx by done. apply run_on_off. intros Hd. destruct (contexts s !! d) as [x|] eqn:Ex; [|done]. cbn in Hd.
      destruct (gi_ctx _ _ HI d x Ex) as [->|(g' & t & -> & ? & ? & _)]; [done|]. cbn in Hd. by simplify_eq. }
  pose proof (gi_thr _ _ HI _ _ Hg) as HT. pose proof (gi_len _ _ HI) as Hlen.
  apply (upd_inv h _ s s' g th (with_state st th)); try done; rewrite ?Eq, ?Ec, ?Ef.
  - constructor; rewrite ?Eq, ?Ef; try done. cbn. intros x Hx. destruct st; cbn; set_solver.
  - apply (gi_nodup _ _ HI).
  - by rewrite length_insert.
  - intros x t Hx Ex Ho. rewrite list_lookup_insert_ne; [done|]. intros E.
    destruct (to_on _ _ _ _ (gi_thr _ _ HI x t Ex) Ho) as [E' _]. rewrite <- E, Hc in E'. apply Hx. by injection E'.
  - intros d x [(<- & <- & _)|[? Hd]]%list_lookup_insert_Some; [by left|].
    destruct (gi_ctx _ _ HI d x Hd) as [?|(g' & t & -> & Etx & ? & Ho)]; [by left|]. right. exists g', t.
    rewrite Et, lookup_insert_ne; [done|]. intros ->. rewrite Hg in Etx. by injection Etx as <-.
  - destruct HT. destruct Hnq as (? & ? & ?). constructor; rewrite ?Eq, ?Ec, ?Ef, ?Hmk, ?Hfk; cbn; try done.
    + intros [?|?]; destruct Hst as [?|[?|[? _]]]; cbn in *; congruence.
    + split; [done|]. intros [? _]. destruct Hst as [?|[?|[? _]]]; congruence.
    + split; [done|]. intros [-> Hx]. cbn in Hx. set_solver.
    + split; [done|]. intros (-> & Hx & _). cbn in Hx. set_solver.
    + intros [->|[-> Hx]]; [by destruct Hst as [?|[?|(_ & _ & ?)]]|]. cbn in Hx. set_solver.
    + intros ->. rewrite (fr_cur _ _ HF). by destruct Hst as [?|[?|(_ & ? & _)]].
    + by rewrite Hmk.
  - intros d. cbn. rewrite (gi_free _ _ HI d), Hh. split.
    + intros [Hd _]. rewrite list_lookup_insert_ne by (intros <-; rewrite Hc in Hd; done). split; [done|]. intros [= <-]. rewrite Hc in Hd; done.
    + intros [[(<- & ? & _)|[? ?]]%list_lookup_insert_Some ?]; done.
  - eapply sorted_ext; [|exact (gi_sorted _ _ HI)]. intros x _. rewrite Et. by apply (wk_same _ _ th).
  - intros x t d Hx Ex Hd. rewrite Hrun. case_decide; [right; by subst|]. rewrite Et in Ex. lk; [by destruct Hnq|].
    destruct (gi_work _ _ HI x t d) as [?|?]; [done..|by left|congruence].
  - pose proof (nused_free _ _ _ Hc). rewrite Es, (gi_cnt _ _ HI). pose proof (nused_le (contexts s)).
    unfold MAX_THREADS in *. rewrite u32_small by (unfold two32; lia). lia.
  - intros d Hd. cbn in Hd. rewrite (fr_bar _ _ HF), Hrun, decide_False by congruence. apply (proj2 (gi_bar _ _ HI)). destruct Hb; congruence.
  - intros d Hd. cbn in Hd. rewrite HC, Hrun, decide_False by congruence. apply (gi_core _ _ HI). destruct Hk; congruence.
Qed.
End Inv.
End SchI.
