(* ===== verification/SchedulerPrim.v ===== *)
(** * The steps of the scheduling operations

    Each lemma says how a step of an operation fills or makes the holes of the
    invariant: list insertions and removals, wake-ups, the choice of a context for
    a thread and of a thread for a context. *)

From Stdlib Require Import Sorted.
From S2P Require Import Prelude Bithacks Barrier Scheduler SchedulerInv.

Module SchP.
Import Sch SchI.

Section Prim.
Context {B R : Type} `{BL : BarrierLaws B} {W : Remasked}.
Variable numCores : nat.
Hypothesis HNC : (numCores <= MAX_THREADS)%nat.
Abbreviation St := (Sched B R).
Abbreviation GInv := (GInv (B := B) (R := R) numCores).
Implicit Type s : St.

(** ** Updates of a thread that keep its state *)
Lemma touch_inv h s g th th' :
  GInv h s -> threads s !! g = Some th -> state th' = state th -> cid th' = cid th -> mask th' = mask th ->
  fakeLeave th' = fakeLeave th -> wakeupPhase th' = wakeupPhase th \/ state th <> SLEEPING ->
  handoffThread th = None -> handoffThread th' = None -> ~ handed (threads s) g ->
  (state th = SLEEPING \/ state th = QUEUED /\ g ∉ h_thr h -> futexWord th' = 1) ->
  (markedForSleep th' = true -> state th = RUNNING /\ fakeLeave th = None /\ bar_runs (bar s) (cid th) = true /\
     curPhase s < wakeupPhase th' /\ futexWord th' = 1) ->
  GInv h (set_threads (<[g := th']> (threads s)) s).
Proof.
  intros HI Hg E1 E2 E3 E4 E5 Hn Hn' Hnh Hw Hm. set (s' := set_threads _ _).
  assert (Hrun : forall c, running s' c = running s c) by (intros c; by apply (run_on_same _ _ _ th)).
  pose proof (gi_thr _ _ _ HI _ _ Hg) as HT.
  apply (upd_inv numCores h h s s' g th th'); try done.
  - apply (gi_nodup _ _ _ HI).
  - apply (gi_len _ _ _ HI).
  - intros c x Hx. destruct (gi_ctx _ _ _ HI c x Hx) as [?|(g' & t & -> & Et & ? & Ho)]; [by left|]. right.
    cbn. destruct (decide (g' = g)) as [->|]; [|exists g', t; by rewrite lookup_insert_ne].
    exists g, th'. rewrite lookup_insert_eq. unfold onctx in *. naive_solver congruence.
  - destruct HT. constructor; unfold onctx in *; rewrite ?E1, ?E2, ?E3, ?E4; try done.
    + cbn. rewrite (handed_same _ _ th) by congruence. done.
    + intros Hs. destruct E5 as [->|?]; [by apply to_wake0|done].
    + intros Hk. destruct (Hm Hk) as (? & ? & ? & ? & ?). naive_solver.
    + intros Hf. destruct (to_faked0 Hf) as (? & ? & ?). naive_solver.
  - apply (gi_free _ _ _ HI).
  - destruct E5 as [E5|E5].
    + eapply sorted_ext; [|exact (gi_sorted _ _ _ HI)]. intros x _. by apply (wk_same _ _ th).
    + eapply sorted_ext; [|exact (gi_sorted _ _ _ HI)]. intros x Hx. apply wk_off. intros ->.
      apply (to_sleep _ _ _ _ _ HT) in Hx as [? _]. done.
  - intros x t c Hx Ex Hc. rewrite Hrun. cbn in Ex. lk; [|by eapply gi_work].
    eapply (gi_work _ _ _ HI); [done..|]. congruence.
  - apply (gi_cnt _ _ _ HI).
  - intros c Hc. rewrite Hrun. by apply (gi_bar _ _ _ HI).
  - intros c Hc. rewrite Hrun. by apply (gi_core _ _ _ HI).
Qed.

(** Changes to a thread that has no context, and to its place in the lists. *)
Lemma off_inv h X s s' g th th' :
  GInv h s -> threads s !! g = Some th -> threads s' = <[g := th']> (threads s) -> Frame s s' ->
  QFrame g h (mkHoles (h_ctx h) X (h_bar h) (h_core h)) s s' ->
  contexts s' = contexts s -> freeList (queues s') = freeList (queues s) -> fakeLeaves s' = fakeLeaves s ->
  scheduledThreads s' = scheduledThreads s -> calls_same s s' ->
  ~ onctx th -> ~ onctx th' -> cid th' = cid th -> mask th' = mask th ->
  handoffThread th' = None -> fakeLeave th' = None -> markedForSleep th' = false -> ~ handed (threads s) g ->
  NoDup (runQueue (queues s')) /\ NoDup (outQueue (queues s')) /\ NoDup (sleepQueue (queues s')) ->
  g ∉ outQueue (queues s') ->
  (g ∈ sleepQueue (queues s') <-> state th' = SLEEPING /\ g ∉ X) ->
  (g ∈ runQueue (queues s') <-> state th' = QUEUED /\ g ∉ X) ->
  (state th' = SLEEPING -> futexWord th' = 1 /\ curPhase s < wakeupPhase th') ->
  (state th' = QUEUED -> g ∉ X -> futexWord th' = 1 /\
     forall c, mask th !! c = Some true -> running s c = true \/ h_ctx h = Some c) ->
  StronglySorted (fun a b => wk (threads s') a <= wk (threads s') b) (sleepQueue (queues s')) ->
  GInv (mkHoles (h_ctx h) X (h_bar h) (h_core h)) s'.
Proof.
  intros HI Hg Et HF HQ Ec Efl Efk Es HC Ho Ho' E2 E3 Hn Hf Hm Hnh Hnd Hout Hsl Hru Hws Hwq Hsort.
  assert (Hrun : forall c, running s' c = running s c).
  { intros c. unfold running. rewrite Ec, Et. apply run_on_off. by eapply gi_off. }
  assert (Hnr : state th <> RUNNING) by (intros ?; apply Ho; by left).
  destruct (off_plain numCores h s g th HI Hg Hnr) as (Hmk & Hfk & Hho).
  pose proof (gi_thr _ _ _ HI _ _ Hg) as HT.
  apply (upd_inv numCores h _ s s' g th th'); try done; rewrite ?Ec, ?Efl, ?Efk.
  - pose proof (gi_nodup _ _ _ HI). naive_solver.
  - apply (gi_len _ _ _ HI).
  - done.
  - intros c x Hx. destruct (gi_ctx _ _ _ HI c x Hx) as [?|(g' & t & -> & Ex & ? & ?)]; [by left|]. right. exists g', t.
    rewrite Et, lookup_insert_ne; [done|]. intros ->. rewrite Hg in Ex. by injection Ex as <-.
  - destruct HT. constructor; rewrite ?E2, ?E3, ?Hf, ?Hm, ?Efk, ?to_fake0, ?Hfk; cbn; try done.
    + split; [done|]. intros [? _]. exfalso. apply Ho'. by right.
    + rewrite Hru, Et, (handed_same _ _ th) by congruence. tauto.
    + intros [?|[? ?]]; [by apply Hws|by apply Hwq].
    + intros ?. rewrite (fr_cur _ _ HF). by apply Hws.
  - apply (gi_free _ _ _ HI).
  - intros x t c Hx Ex Hc. rewrite Hrun. cbn. rewrite Et in Ex. lk.
    + rewrite E3 in Hc. apply Hru in Hx as [? ?]. by apply Hwq.
    + eapply (gi_work _ _ _ HI); [|done..]. by apply (qf_run _ _ _ _ _ HQ).
  - rewrite Es. apply (gi_cnt _ _ _ HI).
  - intros c Hc. rewrite Hrun, (fr_bar _ _ HF). by apply (gi_bar _ _ _ HI).
  - intros c Hc. rewrite Hrun, HC. by apply (gi_core _ _ _ HI).
Qed.

Lemma sorted_same (m : gmap Z ThreadInfo) g th th' l :
  m !! g = Some th -> wakeupPhase th' = wakeupPhase th ->
  StronglySorted (fun a b => wk m a <= wk m b) l ->
  StronglySorted (fun a b => wk (<[g := th']> m) a <= wk (<[g := th']> m) b) l.
Proof. intros E1 E2. apply sorted_ext. intros x _. by apply (wk_same _ _ th). Qed.
Lemma sorted_remove (f : Z -> Z) g l :
  StronglySorted (fun a b => f a <= f b) l -> StronglySorted (fun a b => f a <= f b) (remove_first g l).
Proof.
  induction l as [|x l IH]; intros Hs; [constructor|]. apply StronglySorted_inv in Hs as [Hs Hx]. cbn.
  case_decide; [done|]. constructor; [by apply IH|]. apply list.Forall_forall. intros y Hy.
  eapply list.Forall_forall in Hx; [exact Hx|]. clear -Hy. induction l as [|z l IH]; cbn in *; [done|].
  case_decide; [by right|]. apply elem_of_cons in Hy as [->|?]; [by left|right; by apply IH].
Qed.

(** ** The run queue *)

(** [runQueue.remove(g)]: the thread is between two places. *)
Lemma runQueue_remove_spec h s g th :
  GInv h s -> threads s !! g = Some th -> g ∈ runQueue (queues s) ->
  wp (runQueue_remove g) (fun _ s' => GInv (mkHoles (h_ctx h) ({[g]} ∪ h_thr h) (h_bar h) (h_core h)) s' /\ Frame s s' /\
    calls s' = calls s /\ threads s' = threads s /\ contexts s' = contexts s /\
    queues s' = with_runQueue (remove_first g (runQueue (queues s))) (queues s)) s.
Proof.
  intros HI Hg Hin. unfold runQueue_remove. wp_steps. apply wp_assert; [by apply bool_decide_eq_true|]. wp_steps. split; [|done].
  destruct (gi_thr _ _ _ HI _ _ Hg) as []. pose proof (proj1 to_run0 Hin) as (Hs & Hx & Hnh).
  destruct (off_plain numCores h s g th HI Hg ltac:(congruence)) as (Hmk & Hfk & Hho).
  destruct (gi_nodup _ _ _ HI) as (Hn1 & Hn2 & Hn3 & _).
  apply (off_inv h _ s _ g th th); try done; cbn.
  - by rewrite insert_id.
  - constructor; try done; cbn; [|set_solver]. intros x Hne. rewrite remove_first_elem by done. tauto.
  - intros [?|?]; congruence.
  - intros [?|?]; congruence.
  - split; [by apply remove_first_NoDup|done].
  - rewrite to_out0. intros [? _]. congruence.
  - rewrite to_sleep0. split; intros [? _]; congruence.
  - rewrite remove_first_elem by done. split; [tauto|]. set_solver.
  - intros ?. congruence.
  - set_solver.
  - apply (gi_sorted _ _ _ HI).
Qed.

(** A queued thread that is in no list goes to the end of the run queue and waits. *)
Lemma requeue_spec h s g th :
  GInv h s -> threads s !! g = Some th -> state th = QUEUED -> g ∈ h_thr h ->
  (forall c, mask th !! c = Some true -> running s c = true \/ h_ctx h = Some c) ->
  wp (runQueue_push_back g;; waitForContext g) (fun _ s' =>
    GInv (mkHoles (h_ctx h) (h_thr h ∖ {[g]}) (h_bar h) (h_core h)) s' /\ curPhase s' = curPhase s /\
    threads s' = <[g := with_futexWord 1 th]> (threads s) /\ contexts s' = contexts s) s.
Proof.
  intros HI Hg Hs Hx Hw. unfold runQueue_push_back, waitForContext, inc. wp_steps.
  destruct (not_queued numCores h s g th HI Hg ltac:(by left)) as (Hq1 & Hq2 & Hq3).
  apply wp_assert. { unfold owned. by rewrite !bool_decide_eq_false_2. }
  wp_steps. eapply wp_upd_th; [done|]. wp_steps. split; [|done].
  destruct (off_plain numCores h s g th HI Hg ltac:(congruence)) as (Hmk & Hfk & Hho).
  destruct (gi_nodup _ _ _ HI) as (Hn1 & Hn2 & Hn3 & _).
  apply (off_inv h _ s _ g th (with_futexWord 1 th)); try done; cbn.
  - constructor; try done; cbn; set_solver.
  - intros [?|?]; congruence.
  - intros [?|?]; cbn in *; congruence.
  - eapply not_handed; [done..|]. by right.
  - split; [by apply NoDup_snoc|done].
  - rewrite Hs. set_solver.
  - set_solver.
  - rewrite Hs. done.
  - apply (sorted_same _ _ th); [done|done|]. apply (gi_sorted _ _ _ HI).
Qed.

(** A blocked or new thread becomes queued, not yet in the queue. *)
Lemma set_queued_spec h s g th :
  GInv h s -> threads s !! g = Some th -> state th = BLOCKED \/ state th = STARTED ->
  wp (upd_th g (with_state QUEUED)) (fun _ s' => GInv (mkHoles (h_ctx h) ({[g]} ∪ h_thr h) (h_bar h) (h_core h)) s' /\
    s' = set_threads (<[g := with_state QUEUED th]> (threads s)) s) s.
Proof.
  intros HI Hg Hs. eapply wp_upd_th; [done|]. split; [|done].
  assert (Hst : state th <> RUNNING /\ state th <> OUT /\ state th <> SLEEPING /\ state th <> QUEUED) by (destruct Hs as [->| ->]; done).
  destruct Hst as (? & ? & ? & ?). destruct (off_plain numCores h s g th HI Hg) as (Hmk & Hfk & Hho); [done|].
  destruct (not_queued numCores h s g th HI Hg ltac:(by right)) as (Hq1 & Hq2 & Hq3).
  pose proof (gi_nodup _ _ _ HI) as (? & ? & ? & _).
  apply (off_inv h _ s _ g th (with_state QUEUED th)); try done; cbn.
  - constructor; try done; cbn; set_solver.
  - by intros [?|?].
  - by intros [?|?].
  - eapply not_handed; [done..|]. by left.
  - split; [done|]. by intros [? _].
  - split; [done|]. set_solver.
  - set_solver.
  - apply (sorted_same _ _ th); [done..|]. apply (gi_sorted _ _ _ HI).
Qed.

(** ** The sleep queue *)
Lemma unsleep_spec h s g th :
  GInv h s -> threads s !! g = Some th -> state th = SLEEPING -> g ∉ h_thr h ->
  wp (sleepQueue_remove g;; upd_th g (with_state BLOCKED)) (fun _ s' => GInv h s' /\ Frame s s' /\ calls s' = calls s /\
    threads s' = <[g := with_state BLOCKED th]> (threads s) /\ contexts s' = contexts s) s.
Proof.
  intros HI Hg Hs Hx. destruct (gi_thr _ _ _ HI _ _ Hg) as []. unfold sleepQueue_remove. wp_steps.
  apply wp_assert; [by apply bool_decide_eq_true, to_sleep0|]. wp_steps. eapply wp_upd_th; [done|]. split; [|done].
  destruct (off_plain numCores h s g th HI Hg ltac:(congruence)) as (Hmk & Hfk & Hho).
  pose proof (gi_nodup _ _ _ HI) as (? & ? & ? & _).
  replace h with (mkHoles (h_ctx h) (h_thr h) (h_bar h) (h_core h)) at 1 by (by destruct h).
  apply (off_inv h _ s _ g th (with_state BLOCKED th)); try done; cbn.
  - constructor; try done; cbn. intros x Hne. rewrite remove_first_elem by done. tauto.
  - intros [?|?]; congruence.
  - by intros [?|?].
  - eapply not_handed; [done..|]. left. congruence.
  - split; [done|]. split; [done|]. by apply remove_first_NoDup.
  - rewrite to_out0. intros [? _]. congruence.
  - rewrite remove_first_elem by done. split; [tauto|]. by intros [? _].
  - rewrite to_run0. split; [|by intros [? _]]. intros [? _]. congruence.
  - apply sorted_remove. apply (sorted_same _ _ th); [done..|]. apply (gi_sorted _ _ _ HI).
Qed.

(** The ordered insertion. *)
Lemma sleep_after_spec s g w : forall rest cur,
  (forall x, x ∈ cur :: rest -> is_Some (threads s !! x)) -> wk (threads s) cur <= w -> wk (threads s) g = w ->
  g ∉ cur :: rest -> NoDup (cur :: rest) ->
  StronglySorted (fun a b => wk (threads s) a <= wk (threads s) b) (cur :: rest) ->
  wp (sleep_after g w cur rest) (fun l s' => s' = s /\ l ≡ₚ g :: cur :: rest /\
    StronglySorted (fun a b => wk (threads s) a <= wk (threads s) b) l) s.
Proof.
  induction rest as [|n rest IH]; intros cur Hd Hc Hg Hn Hnd Hs; cbn [sleep_after].
  - wp_steps. split; [done|]. split; [apply Permutation_swap|]. repeat constructor. lia.
  - destruct (Hd n ltac:(set_solver)) as [nth En]. wp_steps. eapply wp_get_th; [done|].
    apply StronglySorted_inv in Hs as [Hs Hx]. assert (Ew : wk (threads s) n = wakeupPhase nth) by (unfold wk; by rewrite En).
    destruct (Z.leb_spec (wakeupPhase nth) w) as [Hle|Hgt]; wp_steps.
    + eapply wp_mono; [apply IH; [set_solver|lia|done|set_solver|by apply list.NoDup_cons in Hnd as [_ ?]|done]|].
      cbn. intros l ? (-> & Hp & Hl). wp_steps. split; [done|]. split; [rewrite Hp; apply Permutation_swap|].
      constructor; [done|]. rewrite Hp. apply list.Forall_cons. split; [lia|done].
    + split; [done|]. split; [apply Permutation_swap|]. constructor.
      * constructor; [done|]. rewrite Hg. apply StronglySorted_inv in Hs as [_ Hs]. apply list.Forall_cons. split; [lia|].
        eapply Forall_impl; [|exact Hs]. cbn. lia.
      * apply list.Forall_cons. split; [lia|done].
Qed.

Lemma sleepQueue_insert_spec h s g th :
  GInv h s -> threads s !! g = Some th -> state th = SLEEPING -> g ∈ h_thr h ->
  wp (sleepQueue_insert g) (fun _ s' => GInv (mkHoles (h_ctx h) (h_thr h ∖ {[g]}) (h_bar h) (h_core h)) s' /\ Frame s s' /\
    calls s' = calls s /\ threads s' = threads s /\ contexts s' = contexts s /\ runQueue (queues s') = runQueue (queues s) /\
    freeList (queues s') = freeList (queues s)) s.
Proof.
  intros HI Hg Hs Hx. destruct (gi_thr _ _ _ HI _ _ Hg) as []. unfold sleepQueue_insert. wp_steps. eapply wp_get_th; [done|]. wp_steps.
  destruct (not_queued numCores h s g th HI Hg ltac:(by left)) as (Hq1 & Hq2 & Hq3).
  apply wp_assert. { unfold owned. by rewrite !bool_decide_eq_false_2. }
  wp_steps. pose proof (gi_nodup _ _ _ HI) as (? & ? & Hn3 & _). pose proof (gi_sorted _ _ _ HI) as Hsort.
  assert (Hw : wk (threads s) g = wakeupPhase th) by (unfold wk; by rewrite Hg).
  apply wp_mono with (Q := fun l s' => s' = s /\ l ≡ₚ g :: sleepQueue (queues s) /\
    StronglySorted (fun a b => wk (threads s) a <= wk (threads s) b) l).
  { assert (Hdom : forall x, x ∈ sleepQueue (queues s) -> is_Some (threads s !! x)) by (intros x ?; apply (gi_dom _ _ _ HI); tauto).
    destruct (sleepQueue (queues s)) as [|f rest]; wp_steps; [split; [done|]; split; [done|repeat constructor]|].
    destruct (Hdom f ltac:(set_solver)) as [fth Ef]. eapply wp_get_th; [done|].
    assert (Ew : wk (threads s) f = wakeupPhase fth) by (unfold wk; by rewrite Ef).
    destruct (Z.ltb_spec (wakeupPhase th) (wakeupPhase fth)) as [Hlt|Hge].
    - wp_steps. split; [done|]. split; [done|]. constructor; [done|]. apply StronglySorted_inv in Hsort as [_ Hsort].
      apply list.Forall_cons. split; [lia|]. eapply Forall_impl; [|exact Hsort]. cbn. lia.
    - apply sleep_after_spec; try done. lia. }
  intros l ? (-> & Hp & Hl). wp_steps. split; [|done].
  destruct (off_plain numCores h s g th HI Hg ltac:(congruence)) as (Hmk & Hfk & Hho).
  apply (off_inv h _ s _ g th th); try done; cbn.
  - by rewrite insert_id.
  - constructor; try done; cbn; [|set_solver]. intros x Hne. rewrite Hp. set_solver.
  - intros [?|?]; congruence.
  - intros [?|?]; congruence.
  - eapply not_handed; [done..|]. by right.
  - split; [done|]. split; [done|]. rewrite Hp. by apply list.NoDup_cons.
  - rewrite Hp. set_solver.
  - rewrite Hs. split; [done|]. by intros [? _].
  - intros _. split; [apply to_word0; by left|by apply to_wake0].
  - intros ?. congruence.
Qed.

(** ** Waking a thread *)
Lemma wakeup_spec h s g th :
  GInv h s -> threads s !! g = Some th -> futexWord th = 1 -> state th = RUNNING \/ state th = BLOCKED ->
  markedForSleep th = false -> handoffThread th = None ->
  wp (wakeup g false) (fun _ s' => GInv h s' /\
    s' = set_threads (<[g := with_futexWord 0 (with_needsJoin false th)]> (threads s)) s) s.
Proof.
  intros HI Hg Hw Hs Hm Hn. unfold wakeup. wp_steps. eapply wp_upd_th; [done|]. wp_steps.
  eapply wp_get_th; [cbn; apply lookup_insert_eq|]. wp_steps. apply wp_assert; [by apply Z.eqb_eq|]. wp_steps.
  eapply wp_upd_th; [cbn; apply lookup_insert_eq|]. cbn.
  assert (E : set_threads (<[g := with_futexWord 0 (with_needsJoin false th)]> (<[g := with_needsJoin false th]> (threads s)))
    (set_threads (<[g := with_needsJoin false th]> (threads s)) s) =
    set_threads (<[g := with_futexWord 0 (with_needsJoin false th)]> (threads s)) s) by (unfold set_threads; cbn; by rewrite insert_insert_eq).
  rewrite E. split; [|done]. eapply touch_inv; try done.
  - by left.
  - eapply not_handed; [done..|]. left. destruct Hs; congruence.
  - cbn. intros [?|[? _]]; destruct Hs; congruence.
  - cbn. congruence.
Qed.

(** ** Contexts *)

(** Holes of the barrier and the core may be opened, and closed when they agree. *)
Lemma reholes h s hb hk :
  GInv h s -> (forall c, hb <> Some c -> bar_in (bar s) c = running s c) ->
  (forall c, hk <> Some c -> joined c (calls s) = Some (running s c)) ->
  GInv (mkHoles (h_ctx h) (h_thr h) hb hk) s.
Proof.
  intros [] Hb Hk. constructor; try done.
  - intros g th Hg. destruct (gi_thr0 g th Hg). by constructor.
  - split; [by destruct gi_bar0|done].
Qed.
Lemma open_holes h s c : GInv h s -> h_bar h = None \/ h_bar h = Some c -> h_core h = None \/ h_core h = Some c ->
  GInv (mkHoles (h_ctx h) (h_thr h) (Some c) (Some c)) s.
Proof.
  intros HI Hb Hk. apply reholes; [done|..]; intros d Hd.
  - apply (gi_bar _ _ _ HI). destruct Hb; congruence.
  - apply (gi_core _ _ _ HI). destruct Hk; congruence.
Qed.

Lemma free_inv h hc s l :
  GInv h s -> NoDup l -> (forall c, c ∈ l <-> contexts s !! c = Some idle /\ hc <> Some c) ->
  (forall g th c, g ∈ runQueue (queues s) -> threads s !! g = Some th -> mask th !! c = Some true ->
     running s c = true \/ hc = Some c) ->
  GInv (mkHoles hc (h_thr h) (h_bar h) (h_core h)) (set_queues (with_freeList l (queues s)) s).
Proof.
  intros [] Hn Hl Hw. constructor; try done.
  - intros g th Hg. destruct (gi_thr0 g th Hg). by constructor.
  - cbn. destruct gi_nodup0 as (? & ? & ? & _ & ?). done.
Qed.

Lemma freeList_remove_spec h s c :
  GInv h s -> h_ctx h = None -> c ∈ freeList (queues s) ->
  wp (freeList_remove c) (fun _ s' => GInv (mkHoles (Some c) (h_thr h) (h_bar h) (h_core h)) s' /\
    contexts s !! c = Some idle /\ exists l, s' = set_queues (with_freeList l (queues s)) s) s.
Proof.
  intros HI Hh Hc. unfold freeList_remove. wp_steps. apply wp_assert; [by apply bool_decide_eq_true|]. wp_steps.
  pose proof (gi_nodup _ _ _ HI) as (_ & _ & _ & Hn & _). pose proof (proj1 (gi_free _ _ _ HI c) Hc) as [Hi _].
  split; [|split; [done|by eexists]]. apply free_inv; [done|by apply remove_first_NoDup|..].
  - intros d. rewrite remove_first_elem, (gi_free _ _ _ HI), Hh by done. naive_solver congruence.
  - intros g th d ? ? ?. destruct (gi_work _ _ _ HI g th d) as [?|?]; [done..|by left|congruence].
Qed.

Lemma freeList_push_back_spec h s c :
  GInv h s -> h_ctx h = Some c -> contexts s !! c = Some idle ->
  (forall g th, g ∈ runQueue (queues s) -> threads s !! g = Some th -> mask th !! c <> Some true) ->
  wp (freeList_push_back c) (fun _ s' => GInv (mkHoles None (h_thr h) (h_bar h) (h_core h)) s' /\
    exists l, s' = set_queues (with_freeList l (queues s)) s) s.
Proof.
  intros HI Hh Hc Hno. unfold freeList_push_back. wp_steps.
  assert (Hnin : c ∉ freeList (queues s)) by (rewrite (gi_free _ _ _ HI), Hh; naive_solver).
  apply wp_assert; [by rewrite bool_decide_eq_false_2|]. wp_steps.
  pose proof (gi_nodup _ _ _ HI) as (_ & _ & _ & Hn & _). split; [|by eexists].
  apply free_inv; [done|by apply NoDup_snoc|..].
  - intros d. rewrite elem_of_app, list_elem_of_singleton, (gi_free _ _ _ HI), Hh.
    destruct (decide (d = c)) as [->|]; naive_solver congruence.
  - intros g th d Hg Eg Hm. left. destruct (gi_work _ _ _ HI g th d) as [?|E]; [done..|].
    rewrite Hh in E. injection E as ->. by destruct (Hno g th Hg Eg).
Qed.

(** A thread that keeps its context. *)
Lemma on_inv h X s s' g th th' :
  GInv h s -> threads s !! g = Some th -> threads s' = <[g := th']> (threads s) -> Frame s s' ->
  QFrame g h (mkHoles (h_ctx h) X (Some (cid th)) (Some (cid th))) s s' ->
  contexts s' = contexts s -> freeList (queues s') = freeList (queues s) -> fakeLeaves s' = fakeLeaves s ->
  scheduledThreads s' = scheduledThreads s -> calls_same s s' ->
  h_bar h = None \/ h_bar h = Some (cid th) -> h_core h = None \/ h_core h = Some (cid th) ->
  onctx th -> onctx th' -> cid th' = cid th -> mask th' = mask th ->
  handoffThread th = None -> fakeLeave th = None ->
  handoffThread th' = None -> fakeLeave th' = None -> markedForSleep th' = false ->
  NoDup (outQueue (queues s')) -> runQueue (queues s') = runQueue (queues s) -> sleepQueue (queues s') = sleepQueue (queues s) ->
  (g ∈ outQueue (queues s') <-> state th' = OUT /\ g ∉ X) ->
  (state th' = RUNNING \/ running s (cid th) = false \/ forall x t, x ∈ runQueue (queues s) -> threads s !! x = Some t -> mask t !! cid th <> Some true) ->
  wakeupPhase th' = wakeupPhase th ->
  GInv (mkHoles (h_ctx h) X (Some (cid th)) (Some (cid th))) s'.
Proof.
  intros HI Hg Et HF HQ Ec Efl Efk Es HC Hhb Hhk Ho Ho' E2 E3 Hn Hf Hn' Hf' Hm' Hnd Eru Esl Hout Hw Ewp.
  destruct (to_on _ _ _ _ _ (gi_thr _ _ _ HI _ _ Hg) Ho) as [Hc Hmk].
  assert (Hrun : forall d, d <> cid th -> running s' d = running s d).
  { intros d Hd. unfold running. rewrite Ec, Et. apply run_on_off. intros E. destruct (contexts s !! d) as [x|] eqn:Ex; [|done].
    destruct (gi_ctx _ _ _ HI d x Ex) as [->|(g' & t & -> & ? & ? & _)]; [done|]. cbn in E. by simplify_eq. }
  assert (Hrc : running s' (cid th) = bool_decide (state th' = RUNNING)).
  { unfold running. rewrite Ec, Et. eapply run_on_at; [done|]. apply lookup_insert_eq. }
  pose proof (gi_thr _ _ _ HI _ _ Hg) as HT. pose proof (gi_nodup _ _ _ HI) as (? & ? & ? & ? & ?).
  assert (Hnq : g ∉ runQueue (queues s) /\ g ∉ sleepQueue (queues s)).
  { rewrite (to_run _ _ _ _ _ HT), (to_sleep _ _ _ _ _ HT). destruct Ho; naive_solver congruence. }
  assert (Hst : state th' <> SLEEPING /\ state th' <> QUEUED) by (destruct Ho' as [->| ->]; done).
  assert (Hnh : ~ handed (threads s) g) by (eapply not_handed; [done..|]; left; destruct Ho; congruence).
  apply (upd_inv numCores h _ s s' g th th'); try done; rewrite ?Ec, ?Efl, ?Efk, ?Eru, ?Esl; try done.
  - apply (gi_len _ _ _ HI).
  - intros c x Hx. destruct (gi_ctx _ _ _ HI c x Hx) as [?|(g' & t & -> & Ex & ? & ?)]; [by left|]. right. rewrite Et.
    destruct (decide (g' = g)) as [->|]; [|exists g', t; by rewrite lookup_insert_ne].
    exists g, th'. rewrite lookup_insert_eq. naive_solver congruence.
  - destruct HT, Hnq, Hst. constructor; rewrite ?E2, ?E3, ?Hf', ?Hm', ?Efk, ?to_fake0, ?Hf, ?Ec, ?Eru, ?Esl; cbn; try done.
    + split; [done|]. by intros [? _].
    + split; [done|]. by intros [? _].
    + by intros [?|[? _]].
  - apply (gi_free _ _ _ HI).
  - rewrite Et. apply (sorted_same _ _ th); [done..|]. apply (gi_sorted _ _ _ HI).
  - cbn. intros x t d Hx Ex Hd. rewrite Et in Ex. lk; [by destruct Hnq|]. destruct (decide (d = cid th)) as [->|Hne].
    + rewrite Hrc. destruct (gi_work _ _ _ HI x t (cid th)) as [Hr|?]; [done..| |by right].
      destruct Hw as [->|[E|Hw]]; [by left|congruence|by destruct (Hw x t)].
    + rewrite Hrun by done. by eapply (gi_work _ _ _ HI).
  - rewrite Es. apply (gi_cnt _ _ _ HI).
  - intros d Hd. cbn in Hd. rewrite Hrun, (fr_bar _ _ HF) by congruence. apply (gi_bar _ _ _ HI). destruct Hhb; congruence.
  - intros d Hd. cbn in Hd. rewrite Hrun, HC by congruence. apply (gi_core _ _ _ HI). destruct Hhk; congruence.
Qed.

Lemma holes_eta h : h = mkHoles (h_ctx h) (h_thr h) (h_bar h) (h_core h).
Proof. by destruct h. Qed.

Lemma outQueue_remove_spec h s g th :
  GInv h s -> threads s !! g = Some th -> state th = OUT -> g ∈ outQueue (queues s) -> h_bar h = None -> h_core h = None ->
  wp (outQueue_remove g) (fun _ s' =>
    GInv (mkHoles (h_ctx h) ({[g]} ∪ h_thr h) (Some (cid th)) (Some (cid th))) s' /\
    exists l, s' = set_queues (with_outQueue l (queues s)) s) s.
Proof.
  intros HI Hg Hs Hin Hb Hk. unfold outQueue_remove. wp_steps. apply wp_assert; [by apply bool_decide_eq_true|]. wp_steps.
  split; [|by eexists]. pose proof (gi_nodup _ _ _ HI) as (_ & Hn & _).
  destruct (off_plain numCores h s g th HI Hg ltac:(congruence)) as (Hmk & Hfk & Hho).
  destruct (to_on _ _ _ _ _ (gi_thr _ _ _ HI _ _ Hg) ltac:(by right)) as [Hc _].
  apply (on_inv h _ s _ g th th); try done; cbn; try (by left); try (by right).
  - by rewrite insert_id.
  - constructor; try done; cbn; [|set_solver]. intros x Hne. rewrite remove_first_elem by done. tauto.
  - by apply remove_first_NoDup.
  - rewrite remove_first_elem by done. set_solver.
  - right; left. unfold running. rewrite (run_on_at _ _ _ _ _ Hc Hg), Hs. done.
Qed.

(** A thread that comes back to its context in the phase it left. *)
Lemma rejoin_spec h s g th :
  GInv h s -> threads s !! g = Some th -> state th = OUT -> g ∉ h_thr h -> h_bar h = None -> h_core h = None ->
  wp (upd_th g (with_state RUNNING);; outQueue_remove g) (fun _ s' =>
    GInv (mkHoles (h_ctx h) (h_thr h) (Some (cid th)) (Some (cid th))) s' /\ bar s' = bar s /\ calls s' = calls s /\
    running s' (cid th) = true /\ threads s' = <[g := with_state RUNNING th]> (threads s) /\ curPhase s' = curPhase s) s.
Proof.
  intros HI Hg Hs Hx Hb Hk. pose proof (gi_thr _ _ _ HI _ _ Hg) as HT.
  destruct (to_on _ _ _ _ _ HT ltac:(by right)) as [Hc _].
  assert (Hin : g ∈ outQueue (queues s)) by (by apply (to_out _ _ _ _ _ HT)).
  unfold outQueue_remove. wp_steps. eapply wp_upd_th; [done|]. wp_steps. apply wp_assert; [by apply bool_decide_eq_true|]. wp_steps.
  pose proof (gi_nodup _ _ _ HI) as (_ & Hn & _). destruct (off_plain numCores h s g th HI Hg ltac:(congruence)) as (Hmk & Hfk & Hho).
  match goal with |- GInv _ ?x /\ _ => set (s' := x) end.
  assert (Hrc : running s' (cid th) = true).
  { unfold running, s'. cbn. rewrite (run_on_at _ _ _ g (with_state RUNNING th)); [done|done|]. apply lookup_insert_eq. }
  split; [|done]. apply (on_inv h _ s _ g th (with_state RUNNING th)); try done; cbn; try (by left); try (by right).
  - constructor; try done; cbn. intros x Hne. rewrite remove_first_elem by done. tauto.
  - by apply remove_first_NoDup.
  - rewrite remove_first_elem by done. split; [tauto|]. by intros [? _].
Qed.

(** A thread that leaves and keeps its context. *)
Lemma go_out_spec h s g th :
  GInv h s -> threads s !! g = Some th -> state th = RUNNING -> g ∉ h_thr h ->
  h_bar h = None \/ h_bar h = Some (cid th) -> h_core h = None \/ h_core h = Some (cid th) ->
  markedForSleep th = false -> fakeLeave th = None -> handoffThread th = None ->
  (forall x t, x ∈ runQueue (queues s) -> threads s !! x = Some t -> mask t !! cid th <> Some true) ->
  wp (upd_th g (with_state OUT);; outQueue_push_back g) (fun _ s' =>
    GInv (mkHoles (h_ctx h) (h_thr h) (Some (cid th)) (Some (cid th))) s' /\ bar s' = bar s /\ calls s' = calls s /\
    running s' (cid th) = false /\ threads s' = <[g := with_state OUT th]> (threads s) /\ curPhase s' = curPhase s) s.
Proof.
  intros HI Hg Hs Hx Hb Hk Hmk Hfk Hho Hw. pose proof (gi_thr _ _ _ HI _ _ Hg) as HT.
  destruct (to_on _ _ _ _ _ HT ltac:(by left)) as [Hc _].
  destruct (not_queued numCores h s g th HI Hg) as (Hq1 & Hq2 & Hq3); [right; rewrite Hs; done|].
  unfold outQueue_push_back. wp_steps. eapply wp_upd_th; [done|]. wp_steps.
  apply wp_assert. { unfold owned. cbn. by rewrite !bool_decide_eq_false_2. }
  wp_steps. pose proof (gi_nodup _ _ _ HI) as (_ & Hn & _). match goal with |- GInv _ ?x /\ _ => set (s' := x) end.
  assert (Hrc : running s' (cid th) = false).
  { unfold running, s'. cbn. rewrite (run_on_at _ _ _ g (with_state OUT th)); [done|done|]. apply lookup_insert_eq. }
  split; [|done]. apply (on_inv h _ s _ g th (with_state OUT th)); try done; cbn; try (by left); try (by right).
  - constructor; try done; cbn. set_solver.
  - by apply NoDup_snoc.
  - split; [done|]. set_solver.
  - by right; right.
Qed.

(** ** The choices *)
Lemma mfind_spec {A} (p : A -> M St bool) (b : A -> bool) (l : list A) s :
  (forall x, x ∈ l -> p x s = Ok (b x, s)) ->
  wp (mfind p l) (fun r s' => s' = s /\ match r with Some x => x ∈ l /\ b x = true | None => forall x, x ∈ l -> b x = false end) s.
Proof.
  clear HNC. induction l as [|x l IH]; intros Hp; cbn [mfind]; [wp_steps; split; [done|]; set_solver|].
  wp_steps. unfold wp at 1. rewrite (Hp x) by (by left). destruct (b x) eqn:E.
  - wp_steps. split; [done|]. split; [by left|done].
  - eapply wp_mono; [apply IH; intros y Hy; apply Hp; by right|]. intros [y|] s' (-> & Hr); (split; [done|]).
    + destruct Hr. split; [by right|done].
    + intros z [->|Hz]%elem_of_cons; [done|by apply Hr].
Qed.

Definition allows (th : ThreadInfo) (c : nat) : bool := bool_decide (mask th !! c = Some true).
Lemma allowed_eval (th : ThreadInfo) c s : (c < length (mask th))%nat -> allowed th c s = Ok (allows th c, s).
Proof.
  intros Hc. destruct (lookup_lt_is_Some_2 _ _ Hc) as [b E]. unfold allowed, mlift, allows. rewrite (arr_get_Some _ _ _ E).
  rewrite E. by destruct b.
Qed.
Lemma ctx_lt h s c x : GInv h s -> contexts s !! c = Some x -> (c < numCores)%nat.
Proof. intros HI E. rewrite <- (gi_len _ _ _ HI). by eapply lookup_lt_Some. Qed.

(** [schedContext] takes the first queued thread that may run on the context. *)
Lemma schedContext_spec h s c :
  GInv h s -> (c < numCores)%nat ->
  wp (schedContext c) (fun r s' =>
    match r with
    | Some g => exists th, threads s !! g = Some th /\ state th = QUEUED /\ g ∉ h_thr h /\ futexWord th = 1 /\ mask th !! c = Some true /\
        GInv (mkHoles (h_ctx h) ({[g]} ∪ h_thr h) (h_bar h) (h_core h)) s' /\ Frame s s' /\
        calls s' = calls s /\ threads s' = threads s /\ contexts s' = contexts s
    | None => s' = s /\ forall g th, g ∈ runQueue (queues s) -> threads s !! g = Some th -> mask th !! c <> Some true
    end) s.
Proof.
  intros HI Hc. unfold schedContext. wp_steps.
  eapply wp_mono; [apply (mfind_spec _ (fun g => if threads s !! g is Some th then allows th c else false))|].
  - intros g Hg. destruct (gi_dom _ _ _ HI g) as [th Eg]; [tauto|]. unfold get_th, mget, mlift, mbind, M_bind, from_opt.
    rewrite Eg. apply allowed_eval. by rewrite (to_len _ _ _ _ _ (gi_thr _ _ _ HI _ _ Eg)).
  - intros [g|] s' (-> & Hr).
    + destruct Hr as [Hin Ha]. destruct (gi_dom _ _ _ HI g) as [th Eg]; [tauto|]. rewrite Eg in Ha. apply bool_decide_eq_true in Ha.
      wp_steps. eapply wp_mono; [by eapply runQueue_remove_spec|]. intros [] s' (HI' & HF & ? & ? & ? & _). wp_steps. exists th.
      pose proof (gi_thr _ _ _ HI _ _ Eg) as HT. pose proof (proj1 (to_run _ _ _ _ _ HT) Hin) as (? & ? & _).
      assert (futexWord th = 1) by (apply (to_word _ _ _ _ _ HT); by right). done.
    + wp_steps. split; [done|]. intros g th Hg Eg Hm. specialize (Hr g Hg). rewrite Eg in Hr. unfold allows in Hr.
      by rewrite bool_decide_eq_false in Hr.
Qed.

(** [schedThread] finds an idle context that allows the thread, or takes one from a
    thread that is out; otherwise every allowed context runs a thread. *)
Lemma schedThread_spec procStats X s g th :
  GInv (mkHoles None X None None) s -> threads s !! g = Some th ->
  state th = BLOCKED \/ state th = STARTED \/ state th = QUEUED /\ g ∈ X -> X ⊆ {[g]} ->
  wp (schedThread numCores procStats g) (fun r s' =>
    match r with
    | Some c => GInv (mkHoles (Some c) X (Some c) (Some c)) s' /\ contexts s' !! c = Some idle /\
        mask th !! c = Some true /\ bar s' = bar s /\ bar_in (bar s) c = false /\ joined c (calls s') = Some false /\
        threads s' !! g = Some th /\ curPhase s' = curPhase s
    | None => s' = s /\ forall c, mask th !! c = Some true -> running s c = true
    end) s.
Proof.
  intros HI Hg Hs HX. pose proof (gi_thr _ _ _ HI _ _ Hg) as HT. pose proof (to_cid _ _ _ _ _ HT) as Hcid. pose proof (to_len _ _ _ _ _ HT) as Hlen.
  unfold schedThread. wp_steps. eapply wp_get_th; [done|]. wp_steps. apply wp_assert; [by apply Nat.ltb_lt|]. wp_steps.
  destruct (lookup_lt_is_Some_2 (contexts s) (cid th)) as [x Ex]; [by rewrite (gi_len _ _ _ HI)|].
  eapply wp_get_ctx; [done|]. wp_steps.
  assert (Hfree : forall c, c ∈ freeList (queues s) -> mask th !! c = Some true ->
    wp (freeList_remove c;; mret (Some c)) (fun r s' => exists c, r = Some c /\ GInv (mkHoles (Some c) X (Some c) (Some c)) s' /\
      contexts s' !! c = Some idle /\ mask th !! c = Some true /\ bar s' = bar s /\ bar_in (bar s) c = false /\
      joined c (calls s') = Some false /\ threads s' !! g = Some th /\ curPhase s' = curPhase s) s).
  { intros c Hc Hm. wp_steps. eapply wp_mono; [by apply (freeList_remove_spec _ s c HI)|]. intros [] s' (HI' & Hi & l & ->). wp_steps.
    exists c. split; [done|]. split; [by apply (open_holes _ _ c HI'); left|]. cbn. do 3 (split; [done|]).
    assert (Hr : running s c = false) by (by apply run_on_idle). split; [by rewrite (proj2 (gi_bar _ _ _ HI))|].
    split; [by rewrite (gi_core _ _ _ HI), Hr|done]. }
  (* the last context *)
  set (first := bool_decide (c_state x = IDLE) && allows th (cid th)).
  apply wp_mono with (Q := fun ok s' => s' = s /\ ok = first).
  { unfold first. case_bool_decide; cbn; [|by wp_steps]. unfold wp. rewrite allowed_eval by lia. done. }
  intros ok ? [-> ->]. destruct first eqn:Ef.
  { apply andb_true_iff in Ef as [E1%bool_decide_eq_true E2%bool_decide_eq_true].
    assert (Hin : cid th ∈ freeList (queues s)).
    { apply (gi_free _ _ _ HI). destruct (gi_ctx _ _ _ HI _ _ Ex) as [->|(g' & t & -> & _)]; done. }
    apply wp_bind. eapply wp_mono; [by apply Hfree|]. intros r s' (c & -> & HI' & H2 & H3 & H4). wp_steps.
    eapply wp_allowed; [done|]. wp_steps. apply wp_assert; [done|]. by wp_steps. }
  (* the free list *)
  wp_steps. eapply wp_mono; [apply (mfind_spec _ (allows th))|].
  { intros c Hc. apply allowed_eval. rewrite Hlen. apply (gi_free _ _ _ HI) in Hc as [Hc _]. by eapply ctx_lt. }
  intros [c|] ? (-> & Hr).
  { destruct Hr as [Hin Hm%bool_decide_eq_true]. eapply wp_mono; [by apply Hfree|].
    intros r s' (d & -> & HI' & H2 & H3 & H4). wp_steps. eapply wp_allowed; [done|]. wp_steps. apply wp_assert; [done|]. by wp_steps. }
  wp_steps.
  (* the out queue *)
  eapply wp_mono; [apply (mfind_spec _ (fun o => if threads s !! o is Some oth then allows th (cid oth) else false))|].
  { intros o Ho. destruct (gi_dom _ _ _ HI o) as [oth Eo]; [tauto|]. unfold get_th, mget, mlift, mbind, M_bind, from_opt.
    rewrite Eo. apply allowed_eval. rewrite Hlen. apply (to_cid _ _ _ _ _ (gi_thr _ _ _ HI _ _ Eo)). }
  intros [o|] ? (-> & Hr'); wp_steps.
  - destruct Hr' as [Hin Hm]. destruct (gi_dom _ _ _ HI o) as [oth Eo]; [tauto|]. rewrite Eo in Hm. apply bool_decide_eq_true in Hm.
    destruct (proj1 (to_out _ _ _ _ _ (gi_thr _ _ _ HI _ _ Eo)) Hin) as [Hso Hox]. cbn in Hox.
    assert (Hne : o <> g) by (intros ->; rewrite Hg in Eo; injection Eo as <-; destruct Hs as [?|[?|[? _]]]; congruence).
    destruct (off_plain numCores _ s o oth HI Eo ltac:(congruence)) as (? & ? & ?).
    destruct (to_on _ _ _ _ _ (gi_thr _ _ _ HI _ _ Eo) ltac:(by right)) as [Hco _].
    assert (Hr0 : running s (cid oth) = false) by (unfold running; by rewrite (run_on_at _ _ _ _ _ Hco Eo), Hso).
    eapply wp_get_th; [done|]. wp_steps. eapply wp_mono; [by apply (outQueue_remove_spec _ s o oth HI)|].
    intros [] s1 (HI1 & l & ->). cbn in HI1. apply wp_bind.
    eapply wp_mono; [apply (deschedule_spec numCores HNC procStats _ _ o oth (cid oth) BLOCKED HI1); try done; cbn|].
    + by right.
    + by right.
    + right. split; [done|]. set_solver.
    + by left.
    + intros [] s2 (HI2 & HF & HC & Hq & Ht & Hc). wp_steps. eapply wp_allowed; [done|]. wp_steps. apply wp_assert; [done|]. wp_steps.
      cbn in *. replace (({[o]} ∪ X) ∖ {[o]}) with X in HI2 by (apply set_eq; set_solver).
      split; [done|]. rewrite Hc, list_lookup_insert_eq by (by eapply lookup_lt_Some). split; [done|]. split; [done|].
      split; [apply (fr_bar _ _ HF)|]. split; [by rewrite (proj2 (gi_bar _ _ _ HI))|].
      split; [by rewrite HC; cbn; rewrite (gi_core _ _ _ HI), Hr0|]. split; [by rewrite Ht, lookup_insert_ne|apply (fr_cur _ _ HF)].
  - split; [done|]. intros c Hm. destruct (running s c) eqn:Erc; [done|]. exfalso.
    assert (Hlt : (c < numCores)%nat) by (rewrite <- Hlen; by eapply lookup_lt_Some).
    destruct (gi_idle _ _ _ c HI Hlt Erc) as [Hi|(o & oth & Hu & Eo & Ec & Eso)].
    + specialize (Hr c). rewrite (gi_free _ _ _ HI) in Hr. unfold allows in Hr. rewrite bool_decide_eq_true_2 in Hr by done. by discriminate Hr.
    + specialize (Hr' o). rewrite Eo, Ec in Hr'. unfold allows in Hr'. rewrite bool_decide_eq_true_2 in Hr' by done.
      discriminate Hr'. apply (to_out _ _ _ _ _ (gi_thr _ _ _ HI _ _ Eo)). split; [done|]. cbn.
      intros Hox. assert (o = g) as -> by set_solver. rewrite Hg in Eo. injection Eo as <-. destruct Hs as [?|[?|[? _]]]; congruence.
Qed.
End Prim.
End SchP.
