(* ===== verification/SchedulerPhase.v ===== *)
(** * The end of a phase

    [callback] under the invariant: it wakes exactly the sleepers whose phase has
    come and, at the end of a quantum, marks running threads to hand their contexts
    to the queued ones. *)

From Stdlib Require Import Sorted.
From S2P Require Import Prelude Bithacks Barrier Scheduler SchedulerInv SchedulerPrim.

Module SchE.
Import Sch SchI SchP.

Section Phase.
Context {B R : Type} `{BL : BarrierLaws B} {W : Remasked}.
Variable numCores : nat.
Hypothesis HNC : (numCores <= MAX_THREADS)%nat.
Abbreviation St := (Sched B R).
Abbreviation GInv := (GInv (B := B) (R := R) numCores).
Implicit Type s : St.

(** ** Hand-offs *)

(** A change of the hand-off of thread [v], with what it means for the run queue. *)
Lemma hand_inv h X s v vt x l :
  GInv h s -> threads s !! v = Some vt -> state vt = RUNNING -> v ∉ X -> v ∉ h_thr h ->
  markedForSleep vt = false -> fakeLeave vt = None ->
  NoDup l -> (forall y, y ∈ l -> y ∈ runQueue (queues s)) ->
  (forall y, y ∈ h_thr h -> y ∈ X) ->
  (forall y t, y ∈ X -> threads s !! y = Some t -> y ∉ h_thr h -> state t = QUEUED) ->
  (forall y t, threads s !! y = Some t -> state t = QUEUED ->
     y ∈ l <-> y ∉ X /\ ~ handed (<[v := with_handoff x vt]> (threads s)) y) ->
  (forall w wt g, <[v := with_handoff x vt]> (threads s) !! w = Some wt -> handoffThread wt = Some g ->
    state wt = RUNNING /\ ~ bar_arrived (bar s) (cid wt) /\ g ∉ X /\
    exists gt, threads s !! g = Some gt /\ state gt = QUEUED /\ mask gt !! cid wt = Some true) ->
  (forall w wt w' wt' g, <[v := with_handoff x vt]> (threads s) !! w = Some wt ->
    <[v := with_handoff x vt]> (threads s) !! w' = Some wt' ->
    handoffThread wt = Some g -> handoffThread wt' = Some g -> w = w') ->
  GInv (mkHoles (h_ctx h) X (h_bar h) (h_core h))
    (set_queues (with_runQueue l (queues s)) (set_threads (<[v := with_handoff x vt]> (threads s)) s)).
Proof.
  intros HI Hv Hs HvX Hvh Hm Hf Hn Hl HX HXq Hq Hh Hj. set (s' := set_queues _ _).
  assert (Hrun : forall c, running s' c = running s c) by (intros c; by apply (run_on_same _ _ _ vt)).
  destruct HI. constructor; try done.
  - intros y t Hy. cbn in Hy. assert (Hy0 : exists t0, threads s !! y = Some t0 /\
        t = if decide (y = v) then with_handoff x t0 else t0).
    { lk; [exists vt; by rewrite decide_True|exists t; rewrite decide_False by congruence; done]. }
    destruct Hy0 as (t0 & E0 & Et). destruct (gi_thr0 y t0 E0).
    assert (Hy1 : state t = state t0 /\ cid t = cid t0 /\ mask t = mask t0 /\ futexWord t = futexWord t0 /\ fakeLeave t = fakeLeave t0 /\
      wakeupPhase t = wakeupPhase t0 /\ markedForSleep t = markedForSleep t0) by (subst t; by case_decide).
    destruct Hy1 as (T1 & T2 & T3 & T4 & T5 & T6 & T7).
    constructor; unfold onctx in *; rewrite ?T1, ?T2, ?T3, ?T4, ?T5, ?T6, ?T7; cbn; try done.
    + rewrite to_out0. split; intros [E ?]; (split; [done|]); [|by intros ?%HX].
      intros HyX. specialize (HXq y t0 HyX E0 ltac:(done)). congruence.
    + rewrite to_sleep0. split; intros [E ?]; (split; [done|]); [|by intros ?%HX].
      intros HyX. specialize (HXq y t0 HyX E0 ltac:(done)). congruence.
    + split.
      * intros Hyl. assert (Eq : state t0 = QUEUED) by (by apply to_run0, Hl). split; [done|]. by apply (Hq y t0).
      * intros (Eq & ?). by apply (Hq y t0).
    + intros [?|[? Hx']]; apply to_word0; [by left|right]. split; [done|]. by intros ?%HX.
    + intros E. destruct (to_mark0 E) as (? & ? & ? & ? & ?). subst t. case_decide; [|done]. subst y. congruence.
    + intros E. destruct (to_faked0 E) as (? & ? & ?). subst t. case_decide; [|done]. subst y. congruence.
  - intros y Hy. cbn in Hy |- *. destruct (decide (y = v)) as [->|]; [by rewrite lookup_insert_eq|].
    rewrite lookup_insert_ne by done. apply gi_dom0. destruct Hy as [?|?]; [left; by apply Hl|by right].
  - cbn. destruct gi_nodup0 as (_ & ? & ? & ? & ?). done.
  - intros c y Hy. destruct (gi_ctx0 c y Hy) as [?|(g & t & -> & Eg & ? & ?)]; [by left|]. right. cbn.
    destruct (decide (g = v)) as [->|]; [|exists g, t; by rewrite lookup_insert_ne].
    exists v, (with_handoff x vt). rewrite lookup_insert_eq. rewrite Hv in Eg. by injection Eg as <-.
  - intros y. cbn. rewrite gi_gid0. destruct (decide (y = v)) as [->|]; [by rewrite lookup_insert_eq, Hv|by rewrite lookup_insert_ne].
  - apply (sorted_same _ _ vt); done.
  - intros w wt g Hw Hg. destruct (Hh w wt g Hw Hg) as (? & ? & ? & gt & Eg & ? & ?). do 3 (split; [done|]).
    assert (g <> v) by (intros ->; rewrite Hv in Eg; injection Eg as <-; congruence).
    exists gt. cbn. by rewrite lookup_insert_ne.
  - intros y t c Hy Ey Hc. rewrite Hrun. cbn in Hy, Ey. apply Hl in Hy. lk; [|by eapply gi_work0].
    by eapply (gi_work0 y vt).
  - destruct gi_bar0. split; [done|]. intros c Hc. rewrite Hrun. auto.
  - intros c Hc. rewrite Hrun. by apply gi_core0.
Qed.

(** [schedTick] marks [v] to hand its context to [g]. *)
Lemma set_handoff_spec s v vt g gt :
  GInv no_holes s -> threads s !! v = Some vt -> state vt = RUNNING -> handoffThread vt = None ->
  markedForSleep vt = false -> fakeLeave vt = None -> ~ bar_arrived (bar s) (cid vt) ->
  g ∈ runQueue (queues s) -> threads s !! g = Some gt -> mask gt !! cid vt = Some true ->
  wp (upd_th v (with_handoff (Some g));; runQueue_remove g) (fun _ s' => GInv no_holes s' /\
    s' = set_queues (with_runQueue (remove_first g (runQueue (queues s))) (queues s))
           (set_threads (<[v := with_handoff (Some g) vt]> (threads s)) s)) s.
Proof.
  intros HI Hv Hs Hn Hm Hf Ha Hg Eg Hmk. unfold runQueue_remove. wp_steps. eapply wp_upd_th; [done|]. wp_steps.
  apply wp_assert; [by apply bool_decide_eq_true|]. wp_steps. split; [|done].
  pose proof (gi_nodup _ _ _ HI) as (Hnd & _). pose proof (gi_thr _ _ _ HI _ _ Eg) as HTg.
  destruct (proj1 (to_run _ _ _ _ _ HTg) Hg) as (Hsg & _ & Hnh).
  assert (Hhd : forall y, handed (<[v := with_handoff (Some g) vt]> (threads s)) y <-> y = g \/ handed (threads s) y).
  { intros y. unfold handed. split.
    - intros (w & wt & Hw & E). lk; [cbn in E; left; congruence|right; eauto].
    - intros [->|(w & wt & Hw & E)]; [exists v, (with_handoff (Some g) vt); by rewrite lookup_insert_eq|].
      exists w, wt. rewrite lookup_insert_ne; [done|]. intros <-. congruence. }
  apply (hand_inv no_holes ∅ s v vt (Some g)); try done.
  - by apply remove_first_NoDup.
  - intros y. rewrite remove_first_elem by done. tauto.
  - intros y t Ey Hsy. rewrite remove_first_elem, Hhd by done.
    pose proof (to_run _ _ _ _ _ (gi_thr _ _ _ HI _ _ Ey)) as Hr. cbn in Hr. rewrite Hr. naive_solver.
  - intros w wt y Hw Hy. lk.
    + cbn in *. injection Hy as <-. split; [done|]. split; [done|]. split; [apply not_elem_of_empty|]. by exists gt.
    + by apply (gi_hand _ _ _ HI w wt y).
  - intros w wt w' wt' y Hw Hw' Hy Hy'.
    destruct (decide (w = v)) as [->|Hw1], (decide (w' = v)) as [->|Hw2]; [done|..].
    + rewrite lookup_insert_eq in Hw. rewrite lookup_insert_ne in Hw' by done. injection Hw as <-. cbn in Hy. injection Hy as <-.
      exfalso. apply Hnh. by exists w', wt'.
    + rewrite lookup_insert_eq in Hw'. rewrite lookup_insert_ne in Hw by done. injection Hw' as <-. cbn in Hy'. injection Hy' as <-.
      exfalso. apply Hnh. by exists w, wt.
    + rewrite !lookup_insert_ne in * by done. by eapply (gi_hinj _ _ _ HI w wt w' wt').
Qed.

(** The hand-off starts: its target is in no list. *)
Lemma clear_handoff_spec s v vt g :
  GInv no_holes s -> threads s !! v = Some vt -> handoffThread vt = Some g ->
  wp (upd_th v (with_handoff None)) (fun _ s' => GInv (mkHoles None {[g]} None None) s' /\
    s' = set_threads (<[v := with_handoff None vt]> (threads s)) s) s.
Proof.
  intros HI Hv Hg. eapply wp_upd_th; [done|]. split; [|done].
  destruct (gi_hand _ _ _ HI v vt g Hv Hg) as (Hs & Ha & _ & gt & Eg & Hsg & Hmk).
  pose proof (gi_thr _ _ _ HI _ _ Hv) as HT.
  assert (Hm : markedForSleep vt = false).
  { destruct (markedForSleep vt) eqn:E; [|done]. destruct (to_mark _ _ _ _ _ HT E) as (_ & ? & _). congruence. }
  assert (Hf : fakeLeave vt = None).
  { destruct (fakeLeave vt) eqn:E; [|done]. destruct (to_faked _ _ _ _ _ HT ltac:(congruence)) as (_ & ? & _). congruence. }
  assert (Hne : v <> g) by congruence.
  assert (Hhd : forall y, handed (<[v := with_handoff None vt]> (threads s)) y <-> y <> g /\ handed (threads s) y).
  { intros y. unfold handed. split.
    - intros (w & wt & Hw & E). lk; [done|]. split; [|eauto]. intros ->. assert (w = v) by (by eapply (gi_hinj _ _ _ HI w wt v vt g)). congruence.
    - intros [Hy (w & wt & Hw & E)]. exists w, wt. rewrite lookup_insert_ne; [done|]. intros <-. congruence. }
  assert (E : queues s = with_runQueue (runQueue (queues s)) (queues s)) by (by destruct (queues s)).
  change (GInv (mkHoles (h_ctx no_holes) {[g]} (h_bar no_holes) (h_core no_holes))
    (set_threads (<[v := with_handoff None vt]> (threads s)) s)).
  enough (HG : GInv (mkHoles (h_ctx no_holes) {[g]} (h_bar no_holes) (h_core no_holes))
    (set_queues (with_runQueue (runQueue (queues s)) (queues s)) (set_threads (<[v := with_handoff None vt]> (threads s)) s))).
  { rewrite <- E in HG. by destruct s. }
  pose proof (gi_nodup _ _ _ HI) as (Hnd & _).
  apply (hand_inv no_holes {[g]} s v vt None); try done.
  - by rewrite elem_of_singleton.
  - intros y t Hy Ey _. apply elem_of_singleton in Hy as ->. congruence.
  - intros y t Ey Hsy. rewrite Hhd. pose proof (to_run _ _ _ _ _ (gi_thr _ _ _ HI _ _ Ey)) as Hr. cbn in Hr. rewrite Hr.
    rewrite elem_of_singleton. destruct (decide (y = g)) as [->|]; [|naive_solver]. split; [|naive_solver]. intros (_ & _ & Hno). exfalso. apply Hno. by exists v, vt.
  - intros w wt y Hw Hy. lk; [done|]. destruct (gi_hand _ _ _ HI w wt y) as (? & ? & _ & ?); [done..|].
    split; [done|]. split; [done|]. split; [|done]. intros ->%elem_of_singleton. assert (w = v) by (by eapply (gi_hinj _ _ _ HI w wt v vt g)). congruence.
  - intros w wt w' wt' y Hw Hw' Hy Hy'. lk; try done. by eapply (gi_hinj _ _ _ HI w wt w' wt').
Qed.

(** ** The time slice *)
Variable randInt : R -> nat -> nat * R.
Hypothesis Hrand : forall r n, (fst (randInt r n) <= n)%nat.

Lemma avail_shuffle_spec i v s : (i < length v)%nat \/ i = 0%nat ->
  wp (shuffle randInt i v) (fun v' s' => v' ≡ₚ v /\ exists r, s' = set_rnd r s) s.
Proof.
  revert v s. induction i as [|i IH]; intros v s Hi; cbn [shuffle].
  - wp_steps. split; [done|]. exists (rnd s). by destruct s.
  - destruct Hi as [Hi|]; [|done]. wp_steps. pose proof (Hrand (rnd s) (S i)) as Hj. destruct (randInt (rnd s) (S i)) as [j r]. cbn in Hj. wp_steps.
    refine (wp_arr_get_lt v _ _ _ _ _); [done|]. wp_steps. refine (wp_arr_get_lt v _ _ _ _ _); [lia|]. wp_steps. apply wp_arr_set_lt; [done|]. wp_steps.
    apply wp_arr_set_lt; [rewrite length_insert; lia|].
    eapply wp_mono; [apply IH; rewrite !length_insert; lia|]. cbn. intros v' s' (Hp & r' & ->). split; [|by exists r'].
    rewrite Hp. apply Permutation_insert_swap; apply list_lookup_lookup_total_lt; lia.
Qed.

Lemma GInv_rnd h s r : GInv h s -> GInv h (set_rnd r s).
Proof. intros []. constructor; try done. intros g th Hg. destruct (gi_thr0 g th Hg). by constructor. Qed.

Lemma printState_spec h s : GInv h s -> forall l, (forall x, x ∈ l -> x ∈ contexts s) ->
  wp (printState l) (fun _ s' => s' = s) s.
Proof.
  intros HI. induction l as [|x l IH]; intros Hl; cbn [printState]; [by wp_steps|]. wp_steps.
  assert (HR : wp (printState l) (fun _ s' => s' = s) s) by (apply IH; intros y Hy; apply Hl; by right).
  destruct (proj1 (list_elem_of_lookup _ _) (Hl x ltac:(by left))) as (c & Ec).
  destruct (gi_ctx _ _ _ HI c x Ec) as [->|(g & th & -> & Eg & _ & Ho)]; cbn [c_state curThread idle used].
  - rewrite bool_decide_eq_true_2 by done. wp_steps. done.
  - rewrite bool_decide_eq_false_2 by done. wp_steps. apply wp_lift. cbn. wp_steps. eapply wp_get_th; [done|].
    apply wp_assert; [by destruct Ho as [->| ->]|]. done.
Qed.

(** Nobody is marked for sleep or in a fake leave. *)
Definition Calm s : Prop := forall g th, threads s !! g = Some th -> markedForSleep th = false /\ fakeLeave th = None.

(** The same threads up to their hand-offs. *)
Definition HandsOnly s s' : Prop :=
  forall g, option_map (with_handoff None) (threads s' !! g) = option_map (with_handoff None) (threads s !! g).

(** The loop of [schedTick]: it marks the threads on the cores of [avail] only. *)
Lemma tick_loop_spec q : forall avail s,
  GInv no_holes s -> Calm s -> (forall c, running s c = true -> ~ bar_arrived (bar s) c) ->
  NoDup q -> (forall g, g ∈ q -> g ∈ runQueue (queues s)) -> NoDup avail ->
  (forall c, c ∈ avail -> (c < numCores)%nat /\
     forall g th, contexts s !! c = Some (used g) -> threads s !! g = Some th -> handoffThread th = None) ->
  wp (tick_loop q avail) (fun _ s' => GInv no_holes s' /\ bar s' = bar s /\ calls s' = calls s /\ contexts s' = contexts s /\
    curPhase s' = curPhase s /\ Calm s' /\ HandsOnly s s') s.
Proof.
  induction q as [|g q IH]; intros avail s HI HC Ha Hn Hq Hnd Hav; cbn [tick_loop]; [by wp_steps|].
  case_decide; [by wp_steps|]. apply list.NoDup_cons in Hn as [Hgq Hn]. pose proof (Hq g ltac:(by left)) as Hg.
  destruct (gi_dom _ _ _ HI g) as [gt Eg]; [tauto|]. wp_steps. eapply wp_get_th; [done|]. wp_steps.
  pose proof (to_len _ _ _ _ _ (gi_thr _ _ _ HI _ _ Eg)) as Hlen.
  eapply wp_mono; [apply (mfind_spec _ (allows gt))|].
  { intros c Hc. apply allowed_eval. rewrite Hlen. by apply Hav. }
  intros [c|] ? (-> & Hr).
  - destruct Hr as [Hc Hm%bool_decide_eq_true]. destruct (gi_work _ _ _ HI g gt c Hg Eg Hm) as [Hrc|?]; [|done].
    destruct (gi_running _ _ _ _ HI Hrc) as (v & vt & Ev & Evt & Ecid & Hsv).
    wp_steps. eapply wp_get_ctx; [done|]. wp_steps. apply wp_lift. cbn [from_opt curThread used rwp].
    destruct (HC v vt Evt) as [Hmk Hfk]. destruct (Hav c Hc) as [_ Hho]. specialize (Hho v vt Ev Evt).
    change (wp (upd_th v (with_handoff (Some g)) ≫= fun _ => runQueue_remove g ≫= fun _ => tick_loop q (remove_first c avail))
      (fun _ s' => GInv no_holes s' /\ bar s' = bar s /\ calls s' = calls s /\ contexts s' = contexts s /\
         curPhase s' = curPhase s /\ Calm s' /\ HandsOnly s s') s).
    assert (HW := set_handoff_spec s v vt g gt HI Evt Hsv Hho Hmk Hfk).
    rewrite Ecid in HW. specialize (HW (Ha c Hrc) Hg Eg Hm). apply wp_bind_inv in HW.
    apply wp_bind. eapply wp_mono; [exact HW|]. intros [] s1 HW1. apply wp_bind. eapply wp_mono; [exact HW1|].
    intros [] s2 (HI2 & E2). subst s2. pose proof (gi_nodup _ _ _ HI) as (HnR & _).
    eapply wp_mono; [apply IH; try done|].
    + intros x t Hx. cbn in Hx. lk; [done|]. by apply (HC x).
    + intros d Hd. cbn. apply Ha. rewrite <- Hd. symmetry. by apply (run_on_same _ _ _ vt).
    + intros x Hx. cbn. apply remove_first_elem; [done|]. split; [apply Hq; by right|]. by intros ->.
    + by apply remove_first_NoDup.
    + intros d Hd. apply remove_first_elem in Hd as [Hd Hdc]; [|done]. destruct (Hav d Hd) as [? Hd']. split; [done|].
      intros x t Ex Et. cbn in Ex, Et. lk; [|by eapply Hd'].
      destruct (gi_inj _ _ _ _ _ HI Ex) as (t' & Et' & Ed & _). rewrite Evt in Et'. injection Et' as <-. congruence.
    + intros [] s' (? & ? & ? & ? & ? & ? & HH). do 6 (split; [done|]). intros x. rewrite HH. cbn.
      destruct (decide (x = v)) as [->|]; [by rewrite lookup_insert_eq, Evt|by rewrite lookup_insert_ne].
  - apply IH; try done. intros x Hx. apply Hq. by right.
Qed.

(** No thread is to hand off its context, so at the end of a phase every core is free
    to be given away. *)
Definition Quiet s : Prop := forall g th, threads s !! g = Some th ->
  markedForSleep th = false /\ fakeLeave th = None /\ handoffThread th = None.
Lemma Quiet_Calm s : Quiet s -> Calm s.
Proof. intros HQ g th Hg. destruct (HQ g th Hg) as (? & ? & _). done. Qed.

Lemma schedTick_spec s :
  GInv no_holes s -> Quiet s -> (forall c, running s c = true -> ~ bar_arrived (bar s) c) ->
  wp (schedTick randInt numCores) (fun _ s' => GInv no_holes s' /\ bar s' = bar s /\ calls s' = calls s /\
    curPhase s' = curPhase s /\ Calm s' /\ HandsOnly s s') s.
Proof.
  intros HI HQ Ha. unfold schedTick. wp_steps. eapply wp_mono; [apply avail_shuffle_spec; rewrite length_seq; lia|].
  intros avail s1 (Hp & r & ->). wp_steps. pose proof (GInv_rnd _ _ r HI) as HI1.
  pose proof (gi_nodup _ _ _ HI) as (HnR & _).
  eapply wp_mono; [apply (tick_loop_spec _ avail _ HI1); try done|].
  - by apply Quiet_Calm in HQ.
  - rewrite Hp. apply NoDup_seq.
  - intros c Hc. rewrite Hp in Hc. apply elem_of_seq in Hc. split; [lia|]. intros g th _ Et. by apply (HQ g th).
  - intros [] s2 (HI2 & Hb & Hk & Hc & Hph & HC & HH). wp_steps. eapply wp_mono; [by apply (printState_spec _ _ HI2)|].
    intros [] s3 ->. done.
Qed.

(** ** The sleepers *)
Definition woken (ph : Z) (th : ThreadInfo) : ThreadInfo :=
  if bool_decide (state th = SLEEPING) && (wakeupPhase th =? ph)
  then with_futexWord 0 (with_needsJoin false (with_state BLOCKED th)) else th.

Lemma woken_idem ph th : woken ph (woken ph th) = woken ph th.
Proof. unfold woken. destruct (bool_decide (state th = SLEEPING)) eqn:E1, (wakeupPhase th =? ph) eqn:E2; cbn; rewrite ?E1, ?E2; done. Qed.

(** The state one phase back. *)
Definition back (p gl : Z) s : St := set_phase p p gl s.

Lemma wake_one p gl s g th rest :
  GInv no_holes (back p gl s) -> sleepQueue (queues s) = g :: rest -> threads s !! g = Some th ->
  GInv no_holes (back p gl (set_queues (with_sleepQueue rest (queues s))
    (set_threads (<[g := with_futexWord 0 (with_needsJoin false (with_state BLOCKED th))]> (threads s)) s))).
Proof.
  intros HI Hq Hg. pose proof (gi_nodup _ _ _ HI) as (Hn1 & Hn2 & Hn3 & _). cbn in Hn3. rewrite Hq in Hn3.
  apply list.NoDup_cons in Hn3 as [Hgr Hn3]. pose proof (gi_thr _ _ _ HI g th Hg) as HT.
  assert (Hs : state th = SLEEPING) by (apply (to_sleep _ _ _ _ _ HT); cbn; rewrite Hq; by left).
  destruct (off_plain numCores _ _ g th HI Hg ltac:(congruence)) as (Hmk & Hfk & Hho).
  pose proof (gi_sorted _ _ _ HI) as Hsort. cbn in Hsort. rewrite Hq in Hsort. apply StronglySorted_inv in Hsort as [Hsort _].
  change no_holes with (mkHoles (h_ctx no_holes) ∅ (h_bar no_holes) (h_core no_holes)).
  apply (off_inv numCores no_holes ∅ (back p gl s) _ g th (with_futexWord 0 (with_needsJoin false (with_state BLOCKED th)))); try done; cbn.
  - constructor; try done; cbn. intros x Hx. rewrite Hq, elem_of_cons. naive_solver.
  - intros [?|?]; congruence.
  - by intros [?|?].
  - eapply (not_handed numCores no_holes (back p gl s)); [done..|]. left. congruence.
  - intros Hin. apply (to_out _ _ _ _ _ HT) in Hin as [? _]. congruence.
  - split; [done|]. by intros [? _].
  - split; [|by intros [? _]]. intros Hin. apply (to_run _ _ _ _ _ HT) in Hin as [? _]. congruence.
  - apply (sorted_same _ _ th); [done..|]. done.
Qed.

Lemma none_due p gl s :
  GInv no_holes (back p gl s) -> Forall (fun g => p + 1 < wk (threads s) g) (sleepQueue (queues s)) ->
  (forall g th, threads s !! g = Some th -> state th = SLEEPING -> p + 1 < wakeupPhase th) /\
  threads s = woken (p + 1) <$> threads s.
Proof.
  intros HI HF. assert (Hd : forall g th, threads s !! g = Some th -> state th = SLEEPING -> p + 1 < wakeupPhase th).
  { intros g th Hg Hs. assert (Hin : g ∈ sleepQueue (queues s)) by (by apply (to_sleep _ _ _ _ _ (gi_thr _ _ _ HI g th Hg))).
    eapply list.Forall_forall in HF; [|exact Hin]. unfold wk in HF. by rewrite Hg in HF. }
  split; [done|]. apply map_eq. intros g. rewrite lookup_fmap. destruct (threads s !! g) as [th|] eqn:E; [|done]. cbn. f_equal.
  unfold woken. case_bool_decide as Hs; [|done]. pose proof (Hd g th E Hs). destruct (Z.eqb_spec (wakeupPhase th) (p + 1)); [lia|done].
Qed.

Lemma wake_sleepers_spec p gl fuel : forall s,
  GInv no_holes (back p gl s) -> curPhase s = p + 1 -> (length (sleepQueue (queues s)) <= fuel)%nat ->
  wp (wake_sleepers fuel) (fun _ s' => GInv no_holes (back p gl s') /\ curPhase s' = p + 1 /\ numPhases s' = numPhases s /\
    bar s' = bar s /\ calls s' = calls s /\ contexts s' = contexts s /\
    (forall g th, threads s' !! g = Some th -> state th = SLEEPING -> p + 1 < wakeupPhase th) /\
    threads s' = woken (p + 1) <$> threads s) s.
Proof.
  assert (Hend : forall s, GInv no_holes (back p gl s) -> curPhase s = p + 1 ->
    Forall (fun g => p + 1 < wk (threads s) g) (sleepQueue (queues s)) ->
    wp (mret tt) (fun _ s' => GInv no_holes (back p gl s') /\ curPhase s' = p + 1 /\ numPhases s' = numPhases s /\
      bar s' = bar s /\ calls s' = calls s /\ contexts s' = contexts s /\
      (forall g th, threads s' !! g = Some th -> state th = SLEEPING -> p + 1 < wakeupPhase th) /\
      threads s' = woken (p + 1) <$> threads s) s).
  { intros s HI Hc HF. wp_steps. do 6 (split; [done|]). by apply (none_due p gl). }
  induction fuel as [|fuel IH]; intros s HI Hc Hf; cbn [wake_sleepers]; wp_steps;
    (destruct (sleepQueue (queues s)) as [|g rest] eqn:Hq; [apply Hend; [done|done|]; rewrite Hq; by apply Forall_nil_2|]).
  { cbn in Hf. lia. }
  destruct (gi_dom _ _ _ HI g) as [th Hg]; [cbn; rewrite Hq; set_solver|]. cbn in Hg. wp_steps. eapply wp_get_th; [done|].
  pose proof (gi_thr _ _ _ HI g th Hg) as HT.
  assert (Hs : state th = SLEEPING) by (apply (to_sleep _ _ _ _ _ HT); cbn; rewrite Hq; by left).
  pose proof (to_wake _ _ _ _ _ HT Hs) as Hw. cbn in Hw. pose proof (to_word _ _ _ _ _ HT (or_introl Hs)) as Hfw.
  rewrite Hc. destruct (Z.leb_spec (wakeupPhase th) (p + 1)) as [Hle|Hgt].
  - assert (Ew : wakeupPhase th = p + 1) by lia. wp_steps. apply wp_assert; [by apply Z.eqb_eq|]. wp_steps.
    eapply wp_upd_th; [done|]. wp_steps. unfold wakeup. wp_steps. eapply wp_upd_th; [cbn; apply lookup_insert_eq|]. wp_steps.
    eapply wp_get_th; [cbn; apply lookup_insert_eq|]. wp_steps. apply wp_assert; [by apply Z.eqb_eq|]. wp_steps.
    eapply wp_upd_th; [cbn; apply lookup_insert_eq|]. wp_steps. cbn.
    set (th' := with_futexWord 0 (with_needsJoin false (with_state BLOCKED th))).
    set (s1 := set_queues (with_sleepQueue rest (queues s)) (set_threads (<[g := th']> (threads s)) s)).
    match goal with |- wp _ _ ?x => replace x with s1 end.
    2:{ unfold s1, set_queues, set_threads. cbn. by rewrite !insert_insert_eq. }
    eapply wp_mono; [apply IH; [by apply wake_one|done|cbn in *; lia]|].
    intros [] s' (HI' & ? & ? & ? & ? & ? & ? & Ht). do 7 (split; [done|]). rewrite Ht. unfold s1. cbn.
    assert (E' : th' = woken (p + 1) th) by (unfold woken; by rewrite Hs, Ew, Z.eqb_refl).
    rewrite fmap_insert, E', woken_idem, insert_id; [done|]. by rewrite lookup_fmap, Hg.
  - apply Hend; [done..|]. rewrite Hq. pose proof (gi_sorted _ _ _ HI) as Hsort. cbn in Hsort. rewrite Hq in Hsort.
    apply StronglySorted_inv in Hsort as [_ Hx]. assert (Ew : wk (threads s) g = wakeupPhase th) by (unfold wk; by rewrite Hg).
    apply list.Forall_cons. split; [lia|]. eapply Forall_impl; [|exact Hx]. cbn. lia.
Qed.

(** The invariant in the new phase, once nobody is due. *)
Lemma back_inv p gl s :
  GInv no_holes (back p gl s) -> curPhase s = p + 1 -> numPhases s = p + 1 -> Calm s ->
  (forall g th, threads s !! g = Some th -> state th = SLEEPING -> p + 1 < wakeupPhase th) -> GInv no_holes s.
Proof.
  intros [] Hc Hn HC Hd. constructor; try done.
  - intros g th Hg. destruct (gi_thr0 g th Hg). constructor; try done.
    + intros Hs. rewrite Hc. by eapply Hd.
    + intros Hm. destruct (HC g th Hg). congruence.
  - destruct gi_phase0 as [_ Hp]. cbn in Hp. lia.
Qed.

(** ** The callback *)
Variables (schedQuantum phaseLength : Z) (atSyncFunc : bool).
Abbreviation callback := (callback (B := B) randInt numCores schedQuantum phaseLength atSyncFunc).

Lemma phase_stats_spec h s :
  GInv h s -> wp (phase_stats numCores) (fun _ s' => exists st, s' = set_stats st s /\ GInv h (set_stats st s)) s.
Proof.
  intros HI. destruct (gi_hist _ _ _ HI) as [Ho Hr]. pose proof (gi_cnt _ _ _ HI) as Hc. pose proof (nused_le (contexts s)) as Hn.
  rewrite (gi_len _ _ _ HI) in Hn. unfold phase_stats. wp_steps. apply wp_assert; [apply Z.leb_le; lia|]. wp_steps.
  eapply wp_arr_get_lt; [lia|]. wp_steps. apply wp_arr_set_lt; [lia|]. wp_steps.
  set (i := if (_ <? _)%nat then _ else _). assert (Hi : (i < length (runQueueHist (stats s)))%nat) by (unfold i; case_match eqn:E; [apply Nat.ltb_lt in E|]; lia).
  eapply wp_arr_get_lt; [done|]. wp_steps. apply wp_arr_set_lt; [done|]. wp_steps. eexists. split; [done|].
  destruct HI. constructor; try done.
  - intros g th Hg. destruct (gi_thr0 g th Hg). by constructor.
  - cbn. by rewrite !length_insert.
Qed.

Lemma callback_spec s :
  GInv no_holes s -> Quiet s -> (forall c, running s c = true -> ~ bar_arrived (bar s) c) ->
  curPhase s + 1 < two64 -> 0 < schedQuantum ->
  wp callback (fun _ s' => GInv no_holes s' /\ bar s' = bar s /\ curPhase s' = curPhase s + 1 /\
    (forall g, option_map (with_handoff None) (threads s' !! g) =
               option_map (with_handoff None) (woken (curPhase s + 1) <$> threads s !! g))) s.
Proof.
  intros HI HQ Ha Hp Hsq. unfold callback. wp_steps. eapply wp_mono; [by apply phase_stats_spec|]. intros [] s0 (st & -> & HI0). wp_steps.
  apply wp_mono with (Q := fun _ s1 => exists cl, s1 = (if atSyncFunc then add_call cl (set_stats st s) else set_stats st s) /\ GInv no_holes s1).
  { destruct atSyncFunc; unfold call; wp_steps; exists AtSync; (split; [done|]); [|done]. destruct HI0. constructor; try done.
    intros g th Hg. destruct (gi_thr0 g th Hg). by constructor. }
  intros [] s1 (cl & E1 & HI1). wp_steps. destruct (gi_phase _ _ _ HI) as [Hnum Hcur].
  assert (F1 : curPhase s1 = curPhase s /\ numPhases s1 = curPhase s /\ bar s1 = bar s /\ threads s1 = threads s /\ contexts s1 = contexts s)
    by (rewrite E1; destruct atSyncFunc; cbn; auto). clear E1. destruct F1 as (F1 & F2 & F3 & F4 & F5).
  rewrite F1, F2, (u64_small (curPhase s + 1)) by (unfold two64 in *; lia).
  apply wp_assert; [by apply Z.eqb_eq|]. wp_steps. set (s2 := set_phase _ _ _ s1).
  assert (HI2 : GInv no_holes (back (curPhase s) (globPhaseCycles s1) s2)).
  { replace (back (curPhase s) (globPhaseCycles s1) s2) with s1; [done|]. unfold back, s2, set_phase. destruct s1; cbn in *. congruence. }
  eapply wp_mono; [by apply (wake_sleepers_spec _ _ _ s2 HI2)|]. intros [] s3 (HI3 & E1 & E2 & E3 & _ & E4 & Hd & Et). wp_steps.
  cbn in Et, E2, E3, E4. rewrite F4 in Et.
  assert (HQ3 : Quiet s3).
  { intros g th Hg. rewrite Et, lookup_fmap in Hg. destruct (threads s !! g) as [th0|] eqn:E0; [|done]. cbn in Hg. injection Hg as <-.
    destruct (HQ g th0 E0) as (? & ? & ?). unfold woken. by destruct (_ && _). }
  assert (HI4 : GInv no_holes s3) by (apply (back_inv (curPhase s) (globPhaseCycles s1)); try done; by apply Quiet_Calm).
  assert (Hrun : forall c, running s3 c = running s c).
  { intros c. unfold running, run_on. rewrite E4, F5, Et. destruct (contexts s !! c ≫= curThread) as [g|]; [|done].
    rewrite lookup_fmap. destruct (threads s !! g) as [th|]; [|done]. cbn. unfold woken.
    destruct (bool_decide (state th = SLEEPING)) eqn:Hs; [|done]. apply bool_decide_eq_true in Hs.
    destruct (wakeupPhase th =? _); [|done]. cbn. by rewrite Hs. }
  assert (Hfin : wp (mret tt) (fun _ s' => GInv no_holes s' /\ bar s' = bar s /\ curPhase s' = curPhase s + 1 /\
    (forall g, option_map (with_handoff None) (threads s' !! g) =
               option_map (with_handoff None) (woken (curPhase s + 1) <$> threads s !! g))) s3).
  { wp_steps. split; [done|]. split; [congruence|]. split; [done|]. intros g. by rewrite Et, lookup_fmap. }
  case_decide; [done|]. destruct (Z.eqb_spec schedQuantum 0); [lia|]. destruct (_ =? 0); [|done].
  eapply wp_mono; [apply schedTick_spec; try done|].
  - intros c Hc. rewrite E3, F3. apply Ha. by rewrite <- Hrun.
  - intros [] s4 (HI5 & Hb & _ & Hph & _ & HH). split; [done|]. split; [congruence|]. split; [congruence|].
    intros g. rewrite HH, Et, lookup_fmap. done.
Qed.
End Phase.
End SchE.
