(* ===== verification/SchedulerOps.v ===== *)
(** * The scheduler's operations keep its invariant

    The barrier operations with the call back that may end them, and the
    operations of the interface built from the primitives. *)

From Stdlib Require Import Sorted.
From S2P Require Import Prelude Bithacks Barrier Scheduler SchedulerInv SchedulerPrim SchedulerPhase.

Module SchO.
Import Sch SchI SchP SchE.

Section Ops.
Context {B R : Type} `{BL : BarrierLaws B} {W : Remasked}.
Variable numCores : nat.
Hypothesis HNC : (numCores <= MAX_THREADS)%nat.
Variable randInt : R -> nat -> nat * R.
Hypothesis Hrand : forall r n, (fst (randInt r n) <= n)%nat.
Variables (schedQuantum phaseLength : Z) (atSyncFunc procStats : bool).
Hypothesis Hsq : 0 < schedQuantum.
Abbreviation St := (Sched B R).
Abbreviation GInv := (GInv (B := B) (R := R) numCores).
Abbreviation on_bar := (on_bar (B := B) randInt numCores schedQuantum phaseLength atSyncFunc).
Abbreviation BOthers := (Others bar_phases bar_in bar_runs bar_arrived).
Implicit Type s : St.

(** ** The barrier *)

(** The thread that runs on core [c] is not about to leave it. *)
Definition Plain (c : nat) s : Prop := forall g th, threads s !! g = Some th -> state th = RUNNING -> cid th = c ->
  markedForSleep th = false /\ fakeLeave th = None /\ handoffThread th = None.

Lemma Plain_idle h c s : GInv h s -> running s c = false -> Plain c s.
Proof.
  intros HI Hr g th Hg Hs Hc. destruct (to_on _ _ _ _ _ (gi_thr _ _ _ HI g th Hg) ltac:(by left)) as [Ec _].
  rewrite Hc in Ec. unfold running in Hr. rewrite (run_on_at _ _ _ _ _ Ec Hg), Hs in Hr. done.
Qed.
Lemma on_running h s g th : GInv h s -> threads s !! g = Some th -> state th = RUNNING -> running s (cid th) = true.
Proof.
  intros HI Hg Hs. destruct (to_on _ _ _ _ _ (gi_thr _ _ _ HI g th Hg) ltac:(by left)) as [Ec _].
  unfold running. rewrite (run_on_at _ _ _ _ _ Ec Hg), Hs. done.
Qed.

(** When all the others have arrived nobody sleeps soon, is in a fake leave or is to
    hand off its context. *)
Lemma end_quiet h c s :
  GInv h s -> h_bar h = None \/ h_bar h = Some c -> Plain c s ->
  (forall y, y <> c -> bar_in (bar s) y = true -> bar_arrived (bar s) y) -> Quiet s.
Proof.
  intros HI Hb HP Ha g th Hg. pose proof (gi_thr _ _ _ HI g th Hg) as HT.
  destruct (decide (state th = RUNNING)) as [Hs|]; [|by eapply off_plain].
  destruct (decide (cid th = c)) as [|Hc]; [by eapply HP|].
  assert (Hin : bar_in (bar s) (cid th) = true).
  { rewrite (proj2 (gi_bar _ _ _ HI)); [by eapply on_running|]. destruct Hb; congruence. }
  assert (Hno : bar_runs (bar s) (cid th) = true -> False).
  { intros Hr. by eapply (bar_runs_arrived (B := B)), Ha. }
  split; [|split].
  - destruct (markedForSleep th) eqn:E; [|done]. by destruct (to_mark _ _ _ _ _ HT E) as (_ & _ & _ & ?%Hno & _).
  - destruct (fakeLeave th) eqn:E; [|done]. by destruct (to_faked _ _ _ _ _ HT ltac:(congruence)) as (_ & _ & ?%Hno).
  - destruct (handoffThread th) eqn:E; [|done]. destruct (gi_hand _ _ _ HI _ _ _ Hg E) as (_ & Hna & _). by destruct Hna; apply Ha.
Qed.

Lemma set_bar_inv c s b' hb :
  GInv (mkHoles None ∅ hb None) s -> hb = None \/ hb = Some c -> Plain c s ->
  bar_ok b' -> bar_in b' c = running s c -> (forall y, y <> c -> bar_in b' y = bar_in (bar s) y) ->
  (Quiet s \/ (forall y, y <> c -> bar_runs (bar s) y = true -> bar_runs b' y = true) /\
              (forall y, y <> c -> bar_arrived b' y -> bar_arrived (bar s) y)) ->
  GInv no_holes (set_bar b' s).
Proof.
  intros [] Hb HP Hok Hin Hoth HQ. constructor; try done.
  - intros g th Hg. destruct (gi_thr0 g th Hg). constructor; try done; cbn.
    + intros E. destruct (to_mark0 E) as (E1 & E2 & E3 & E4 & E5 & E6). do 3 (split; [done|]). split; [|done].
      destruct HQ as [HQ|[HQ _]]; [by destruct (HQ g th Hg); congruence|]. apply HQ; [|done]. intros Hc.
      destruct (HP g th Hg E1 Hc). congruence.
    + intros E. destruct (to_faked0 E) as (E1 & E2 & E3). do 2 (split; [done|]).
      destruct HQ as [HQ|[HQ _]]; [by destruct (HQ g th Hg) as (_ & ? & _)|]. apply HQ; [|done]. intros Hc.
      by destruct (HP g th Hg E1 Hc) as (_ & ? & _).
  - intros v vt g Hv E. destruct (gi_hand0 v vt g Hv E) as (E1 & E2 & E3). split; [done|]. split; [|done]. cbn.
    destruct HQ as [HQ|[_ HQ]]; [destruct (HQ v vt Hv) as (_ & _ & ?); congruence|]. intros Ha. apply E2, HQ; [|done]. intros Hc.
    destruct (HP v vt Hv E1 Hc) as (_ & _ & ?). congruence.
  - split; [done|]. intros d _. cbn. destruct (decide (d = c)) as [->|Hd]; [done|]. rewrite Hoth by done.
    apply (proj2 gi_bar0). cbn. destruct Hb; congruence.
Qed.

(** What a barrier operation does to the rest of the state: nothing, or a phase ends. *)
Definition Turned s s' : Prop :=
  threads s' = threads s /\ contexts s' = contexts s /\ queues s' = queues s /\ fakeLeaves s' = fakeLeaves s /\
  curPhase s' = curPhase s /\ blockingSyscalls s' = blockingSyscalls s \/
  Quiet s /\ curPhase s' = curPhase s + 1 /\ (forall g, option_map (with_handoff None) (threads s' !! g) =
    option_map (with_handoff None) (woken (curPhase s + 1) <$> threads s !! g)).

Lemma turned_phase s s' : Turned s s' -> curPhase s' <= curPhase s + 1.
Proof. intros [(_ & _ & _ & _ & -> & _)|(_ & -> & _)]; lia. Qed.

Lemma on_bar_spec (op : M B unit) c s b' hb :
  GInv (mkHoles None ∅ hb None) s -> hb = None \/ hb = Some c -> Plain c s ->
  op (bar s) = Ok (tt, b') -> bar_ok b' -> bar_in b' c = running s c -> BOthers c (bar s) b' ->
  curPhase s + 1 < two64 ->
  wp (on_bar op) (fun _ s' => GInv no_holes s' /\ bar s' = b' /\ Turned s s') s.
Proof.
  intros HI Hb HP Hop Hok Hin [Hoth Hph] Hc. unfold wp, Sch.on_bar. rewrite Hop.
  destruct Hph as [(E & Hr & Ha)|(E & Ha & Hn)].
  - rewrite E, Z.eqb_refl. cbn. split; [|split; [done|by left]]. eapply (set_bar_inv c); eauto.
  - destruct (Z.eqb_spec (bar_phases b') (bar_phases (bar s))); [lia|].
    assert (HQ : Quiet s) by (by eapply end_quiet).
    assert (HI' : GInv no_holes (set_bar b' s)) by (eapply (set_bar_inv c); eauto).
    apply (wp_mono (callback randInt numCores schedQuantum phaseLength atSyncFunc)) with (1 := callback_spec numCores HNC randInt Hrand
      schedQuantum phaseLength atSyncFunc _ HI' HQ (fun d _ => Hn d) Hc Hsq).
    intros [] s' (? & ? & ? & ?). split; [done|]. split; [done|]. right. done.
Qed.

Lemma bar_join_spec c s :
  GInv (mkHoles None ∅ (Some c) None) s -> (c < numCores)%nat -> Plain c s -> running s c = true -> bar_in (bar s) c = false ->
  curPhase s + 1 < two64 ->
  wp (on_bar (bar_join c)) (fun _ s' => GInv no_holes s' /\ Turned s s') s.
Proof.
  intros HI Hc HP Hr Hi Hp. destruct (bar_join_law (bar s) c) as (b' & E & ? & ? & ? & ? & ?); [apply (gi_bar _ _ _ HI)|lia|done|].
  eapply wp_mono; [apply (on_bar_spec (bar_join c) c s b' (Some c)); try done; [by right|congruence]|]. by intros [] s' (? & ? & ?).
Qed.
Lemma bar_leave_spec c s :
  GInv (mkHoles None ∅ (Some c) None) s -> running s c = false -> bar_runs (bar s) c = true ->
  curPhase s + 1 < two64 ->
  wp (on_bar (bar_leave c)) (fun _ s' => GInv no_holes s' /\ Turned s s') s.
Proof.
  intros HI Hr Hi Hp. destruct (bar_leave_law (bar s) c) as (b' & E & ? & ? & ?); [apply (gi_bar _ _ _ HI)|done|].
  eapply wp_mono; [apply (on_bar_spec (bar_leave c) c s b' (Some c)); try done; [by right|by eapply Plain_idle|congruence]|]. by intros [] s' (? & ? & ?).
Qed.
Lemma bar_sync_spec c s :
  GInv no_holes s -> Plain c s -> bar_runs (bar s) c = true -> curPhase s + 1 < two64 ->
  wp (on_bar (bar_sync c)) (fun _ s' => GInv no_holes s' /\ Turned s s') s.
Proof.
  intros HI HP Hi Hp. destruct (bar_sync_law (bar s) c) as (b' & E & ? & Hb & ?); [apply (gi_bar _ _ _ HI)|done|].
  eapply wp_mono; [apply (on_bar_spec (bar_sync c) c s b' None); try done; [by left|]|].
  - rewrite Hb, <- (proj2 (gi_bar _ _ _ HI)) by done. symmetry. by apply bar_runs_in.
  - by intros [] s' (? & ? & ?).
Qed.
(** ** Calls to the cores and counters *)
Lemma add_call_inv h s cl hk :
  GInv h s -> (forall c, hk <> Some c -> joined c (cl :: calls s) = Some (running s c)) ->
  GInv (mkHoles (h_ctx h) (h_thr h) (h_bar h) hk) (add_call cl s).
Proof. intros [] Hk. constructor; try done. intros g th Hg. destruct (gi_thr0 g th Hg). by constructor. Qed.

Lemma core_join_spec h s c :
  GInv h s -> h_core h = Some c -> joined c (calls s) = Some false -> running s c = true ->
  wp (call (CoreJoin c)) (fun _ s' => s' = add_call (CoreJoin c) s /\ GInv (mkHoles (h_ctx h) (h_thr h) (h_bar h) None) s') s.
Proof.
  intros HI Hk Hj Hr. unfold call. wp_steps. split; [done|]. apply add_call_inv; [done|]. intros d _. cbn. case_decide as E.
  - subst d. by rewrite Hj, Hr.
  - apply (gi_core _ _ _ HI). congruence.
Qed.
Lemma core_leave_spec h s c :
  GInv h s -> h_core h = None -> running s c = true ->
  wp (call (CoreLeave c)) (fun _ s' => s' = add_call (CoreLeave c) s /\
    GInv (mkHoles (h_ctx h) (h_thr h) (h_bar h) (Some c)) s' /\ joined c (calls s') = Some false) s.
Proof.
  intros HI Hk Hr. unfold call. wp_steps. split; [done|]. split.
  - apply add_call_inv; [done|]. intros d Hd. cbn. rewrite decide_False by congruence. apply (gi_core _ _ _ HI). congruence.
  - cbn. rewrite decide_True, (gi_core _ _ _ HI), Hr by (done || congruence). done.
Qed.
Lemma inc_spec h s k :
  GInv h s -> wp (inc k) (fun _ s' => GInv h s' /\ exists st, s' = set_stats st s) s.
Proof.
  intros []. unfold inc. wp_steps. split; [|by eexists]. constructor; try done.
  intros g th Hg. destruct (gi_thr0 g th Hg). by constructor.
Qed.

(** ** A thread gets a context *)

(** A new context: the core and the barrier are told. *)
Lemma enter_spec X s g th c :
  GInv (mkHoles (Some c) X (Some c) (Some c)) s -> X ⊆ {[g]} -> threads s !! g = Some th ->
  state th = STARTED \/ state th = BLOCKED \/ state th = QUEUED /\ g ∈ X ->
  contexts s !! c = Some idle -> mask th !! c = Some true -> bar_in (bar s) c = false -> joined c (calls s) = Some false ->
  curPhase s + 1 < two64 ->
  wp (schedule g c;; call (CoreJoin c);; on_bar (bar_join c)) (fun _ s' => GInv no_holes s' /\
    exists t, threads s' !! g = Some t /\ state t = RUNNING /\ cid t = c /\ mask t = mask th) s.
Proof.
  intros HI HX Hg Hs Hc Hm Hb Hj Hp. apply wp_bind. eapply wp_mono; [by eapply (schedule_thread_spec numCores HNC)|].
  intros [] s1 (HI1 & F & HC & _ & Ht & Ex). cbn in HI1.
  assert (EX : X ∖ {[g]} = ∅) by set_solver. rewrite EX in HI1.
  assert (Hg1 : threads s1 !! g = Some (with_cid c (with_state RUNNING th))) by (by rewrite Ht, lookup_insert_eq).
  assert (Hr : running s1 c = true) by (eapply (on_running _ s1 g _ HI1 Hg1); done).
  destruct (off_plain numCores _ _ _ _ HI Hg) as (Hmk & Hfk & Hho); [destruct Hs as [->|[->|[-> _]]]; done|].
  apply wp_bind. eapply wp_mono; [eapply (core_join_spec _ _ c HI1); [done|by rewrite HC|done]|]. intros [] s2 (E2 & HI2). cbn in HI2.
  assert (F2 : threads s2 = threads s1 /\ bar s2 = bar s /\ curPhase s2 = curPhase s /\ running s2 c = running s1 c).
  { subst s2. cbn. split; [done|]. split; [apply (fr_bar _ _ F)|]. split; [apply (fr_cur _ _ F)|done]. }
  clear E2. destruct F2 as (F2 & F3 & F4 & F5).
  eapply wp_mono; [apply (bar_join_spec c s2 HI2)|]; rewrite ?F3, ?F4, ?F5; try done.
  - by apply (ctx_lt numCores _ _ _ _ HI Hc).
  - intros g' t Hg' Hs' Hc'. rewrite F2 in Hg'.
    destruct (to_on _ _ _ _ _ (gi_thr _ _ _ HI1 g' t Hg') ltac:(by left)) as [Ec' _]. rewrite Hc' in Ec'.
    destruct (to_on _ _ _ _ _ (gi_thr _ _ _ HI1 g _ Hg1) ltac:(by left)) as [Ec1 _]. cbn in Ec1. rewrite Ec1 in Ec'.
    injection Ec' as <-. rewrite Hg1 in Hg'. injection Hg' as <-. done.
  - intros [] s3 (HI3 & HT). split; [done|]. destruct HT as [(E & _)|(_ & _ & E)].
    + exists (with_cid c (with_state RUNNING th)). by rewrite E, F2.
    + specialize (E g). rewrite F2, Hg1 in E. cbn in E. destruct (threads s3 !! g) as [t|] eqn:E3; [|done]. exists t.
      unfold woken in E. cbn in E. split; [done|]. injection E. destruct t; cbn in *; intuition congruence.
Qed.

(** The context that a thread gave up: the barrier still counts it. *)
Lemma hand_over_spec s g th c :
  GInv (mkHoles (Some c) {[g]} (Some c) (Some c)) s -> threads s !! g = Some th -> state th = QUEUED -> futexWord th = 1 ->
  contexts s !! c = Some idle -> mask th !! c = Some true -> bar_in (bar s) c = true -> joined c (calls s) = Some false ->
  wp (hand_over g c) (fun _ s' => GInv no_holes s' /\ bar s' = bar s /\ curPhase s' = curPhase s /\
    (forall x, x <> g -> threads s' !! x = threads s !! x)) s.
Proof.
  intros HI Hg Hs Hw Hc Hm Hb Hj. unfold hand_over. apply wp_bind.
  eapply wp_mono; [eapply (schedule_thread_spec numCores HNC); [done..|right; right; split; [done|by apply (proj2 (elem_of_singleton g g))]|done|done]|].
  intros [] s1 (HI1 & F & HC & _ & Ht & Ex). cbn in HI1. rewrite difference_diag_L in HI1.
  assert (Hg1 : threads s1 !! g = Some (with_cid c (with_state RUNNING th))) by (by rewrite Ht, lookup_insert_eq).
  assert (Hr : running s1 c = true) by (eapply (on_running _ s1 g _ HI1 Hg1); done).
  destruct (off_plain numCores _ _ _ _ HI Hg) as (Hmk & Hfk & Hho); [congruence|].
  apply wp_bind. eapply wp_mono; [eapply (core_join_spec _ _ c HI1); [done|by rewrite HC|done]|]. intros [] s2 (E2 & HI2). cbn in HI2.
  assert (HI3 : GInv no_holes s2).
  { apply (reholes numCores _ s2 None None HI2); intros d Hd; [|by apply (gi_core _ _ _ HI2)].
    destruct (decide (d = c)) as [->|]; [|apply (gi_bar _ _ _ HI2); cbn; congruence].
    subst s2. cbn. rewrite (fr_bar _ _ F), Hb. symmetry. exact Hr. }
  assert (Hg2 : threads s2 !! g = Some (with_cid c (with_state RUNNING th))) by (by subst s2).
  eapply wp_mono; [apply (wakeup_spec numCores HNC _ s2 g _ HI3 Hg2); try done; by left|]. intros [] s3 (HI4 & ->). split; [done|].
  subst s2. cbn. split; [apply (fr_bar _ _ F)|]. split; [apply (fr_cur _ _ F)|]. intros x Hx. by rewrite Ht, !lookup_insert_ne.
Qed.
(** ** Leaving *)

(** The thread on core [c] runs inside the barrier and is not to hand off. *)
Definition executing s (c : nat) (g : Z) (th : ThreadInfo) : Prop :=
  contexts s !! c = Some (used g) /\ threads s !! g = Some th /\ state th = RUNNING /\ cid th = c /\
  bar_runs (bar s) c = true /\ fakeLeave th = None /\ handoffThread th = None.
Abbreviation leave := (leave (B := B) randInt numCores schedQuantum phaseLength atSyncFunc procStats).

(** No queued thread may take the context, so the core leaves the barrier. *)
Lemma vacate_spec s c :
  GInv (mkHoles None ∅ (Some c) (Some c)) s -> running s c = false -> joined c (calls s) = Some false ->
  bar_runs (bar s) c = true -> curPhase s + 1 < two64 ->
  wp (on_bar (bar_leave c)) (fun _ s' => GInv no_holes s' /\ Turned s s') s.
Proof.
  intros HI Hr Hj Hb Hp. apply bar_leave_spec; [|done..]. apply (reholes numCores _ s (Some c) None HI).
  - apply (gi_bar _ _ _ HI).
  - intros d _. destruct (decide (d = c)) as [->|]; [congruence|]. apply (gi_core _ _ _ HI). cbn. congruence.
Qed.

(** Thread [g] is off its context [c] and nobody queued takes it. *)
Lemma free_context_spec s c :
  GInv (mkHoles (Some c) ∅ (Some c) (Some c)) s -> contexts s !! c = Some idle -> joined c (calls s) = Some false ->
  bar_runs (bar s) c = true -> curPhase s + 1 < two64 ->
  (forall g th, g ∈ runQueue (queues s) -> threads s !! g = Some th -> mask th !! c <> Some true) ->
  wp (freeList_push_back c;; on_bar (bar_leave c)) (fun _ s' => GInv no_holes s' /\
    exists s0, threads s0 = threads s /\ curPhase s0 = curPhase s /\ Turned s0 s') s.
Proof.
  intros HI Hc Hj Hb Hp Hq. apply wp_bind. eapply wp_mono; [by apply (freeList_push_back_spec numCores _ _ c HI)|].
  intros [] s1 (HI1 & l & ->). cbn in HI1. eapply wp_mono; [apply (vacate_spec _ c HI1)|]; try done.
  - by apply run_on_idle.
  - intros [] s2 (? & ?). split; [done|]. by exists (set_queues (with_freeList l (queues s)) s).
Qed.

(** Where thread [g] may be after it left: out, blocked or asleep; a sleeper is asleep
    until the phase it asked for. *)
Definition Left (ph : Z) (th th' : ThreadInfo) : Prop :=
  mask th' = mask th /\ markedForSleep th' = false /\
  if markedForSleep th then wakeupPhase th' = wakeupPhase th /\ (state th' = SLEEPING \/ state th' = BLOCKED /\ wakeupPhase th = ph + 1)
  else (state th' = OUT \/ state th' = BLOCKED).

Lemma Left_turned s0 s' g th th1 :
  Turned s0 s' -> threads s0 !! g = Some th1 -> state th1 = OUT \/ state th1 = BLOCKED \/ state th1 = SLEEPING ->
  Left (curPhase s0) th th1 -> exists th', threads s' !! g = Some th' /\ Left (curPhase s0) th th'.
Proof.
  intros [(E & _)|(_ & _ & E)] Hg Hs HL; [rewrite E; eauto|]. specialize (E g). rewrite Hg in E. cbn in E.
  destruct (threads s' !! g) as [t|] eqn:Et; [|done]. exists t. split; [done|]. cbn in E.
  assert (HW : Left (curPhase s0) th (woken (curPhase s0 + 1) th1)).
  { destruct HL as (H1 & H2 & H3). unfold woken. destruct (bool_decide_reflect (state th1 = SLEEPING)) as [E1|]; [|done].
    destruct (Z.eqb_spec (wakeupPhase th1) (curPhase s0 + 1)) as [E2|]; [|done]. cbn. split; [done|]. split; [done|]. cbn.
    destruct (markedForSleep th); [|by right]. destruct H3 as [E3 _]. split; [done|]. right. split; [done|]. congruence. }
  unfold Left in *. injection E. destruct t; cbn in *. intros. destruct (woken _ th1); cbn in *. subst. done.
Qed.
(** The context [c] that nobody has any more goes to a queued thread or is freed. *)
Lemma pass_on_spec s c g th th1 :
  GInv (mkHoles (Some c) ∅ (Some c) (Some c)) s -> contexts s !! c = Some idle -> joined c (calls s) = Some false ->
  bar_runs (bar s) c = true -> curPhase s + 1 < two64 ->
  threads s !! g = Some th1 -> state th1 = BLOCKED \/ state th1 = SLEEPING -> Left (curPhase s) th th1 ->
  wp (inTh ← schedContext c; match inTh with Some i => hand_over i c | None => freeList_push_back c;; on_bar (bar_leave c) end)
    (fun _ s' => GInv no_holes s' /\ curPhase s' <= curPhase s + 1 /\ exists th', threads s' !! g = Some th' /\ Left (curPhase s) th th') s.
Proof.
  intros HI Hc Hj Hb Hp Hg Hs HL. apply wp_bind. eapply wp_mono; [apply (schedContext_spec numCores HNC _ _ c HI), (ctx_lt numCores _ _ _ _ HI Hc)|].
  intros [i|] s1; cbn [h_ctx h_thr h_bar h_core].
  - intros (ti & Ei & Hsi & _ & Hwi & Hmi & HI1 & F & Hk & Ht & Ex). rewrite (right_id_L ∅ (∪)) in HI1.
    eapply wp_mono; [apply (hand_over_spec s1 i ti c HI1); rewrite ?Ht, ?Ex, ?Hk, ?(fr_bar _ _ F); try done; by apply bar_runs_in|].
    intros [] s2 (HI2 & _ & Ep & E2). split; [done|]. split; [rewrite Ep, (fr_cur _ _ F); lia|]. exists th1. rewrite E2, Ht; [done|]. intros ->. destruct Hs; congruence.
  - intros (-> & Hno). eapply wp_mono; [by apply (free_context_spec s c HI)|]. intros [] s2 (HI2 & s0 & E0 & E1 & HT). split; [done|].
    split; [rewrite <- E1; by apply turned_phase|]. rewrite <- E1. apply (Left_turned s0 s2 g th th1 HT); [by rewrite E0|tauto|by rewrite E1].
Qed.

(** A thread whose mask does not allow its context any more gives it up. *)
Lemma drop_context_spec s c g th :
  GInv (mkHoles None ∅ None (Some c)) s -> contexts s !! c = Some (used g) -> threads s !! g = Some th -> state th = RUNNING -> cid th = c ->
  bar_runs (bar s) c = true -> fakeLeave th = None -> handoffThread th = None -> markedForSleep th = false ->
  joined c (calls s) = Some false -> curPhase s + 1 < two64 ->
  (forall g th, g ∈ runQueue (queues s) -> threads s !! g = Some th -> mask th !! c <> Some true) ->
  wp (deschedule procStats g c BLOCKED;; freeList_push_back c;; on_bar (bar_leave c))
    (fun _ s' => GInv no_holes s' /\ curPhase s' <= curPhase s + 1 /\ exists th', threads s' !! g = Some th' /\ Left (curPhase s) th th') s.
Proof.
  intros HI Hc Hg Hs Ec Hb Hfk Hho Hmk Hj Hp Hno. apply wp_bind.
  eapply wp_mono; [apply (deschedule_spec numCores HNC procStats _ s g th c BLOCKED HI); try done; [by left|by right|by left|by left]|].
  intros [] s1 (HI1 & F1 & HC & Eq & Et & Ex). cbn [h_ctx h_thr h_bar h_core detach] in HI1. replace (∅ ∖ {[g]} : gset Z) with (∅ : gset Z) in HI1 by set_solver.
  assert (Hg1 : threads s1 !! g = Some (with_state BLOCKED th)) by (by rewrite Et, lookup_insert_eq).
  eapply wp_mono; [apply (free_context_spec s1 c HI1)|].
  - rewrite Ex, list_lookup_insert_eq; [done|]. by eapply lookup_lt_Some.
  - by rewrite HC.
  - by rewrite (fr_bar _ _ F1).
  - by rewrite (fr_cur _ _ F1).
  - intros x t Hx Hxt. rewrite Eq in Hx. rewrite Et in Hxt. lk; [by eapply (Hno x th)|by eapply Hno].
  - intros [] s2 (HI2 & s0 & E0 & E1 & HT). split; [done|]. rewrite <- (fr_cur _ _ F1), <- E1. split; [by apply turned_phase|].
    apply (Left_turned s0 s2 g th (with_state BLOCKED th) HT); [by rewrite E0|by right; left|]. split; [done|]. split; [done|]. rewrite Hmk. by right.
Qed.

Lemma leave_step_spec s pid tid c g th :
  GInv no_holes s -> executing s c g th -> g = getGid pid tid -> curPhase s + 1 < two64 ->
  wp (leave pid tid c) (fun _ s' => GInv no_holes s' /\ curPhase s' <= curPhase s + 1 /\ exists th', threads s' !! g = Some th' /\ Left (curPhase s) th th') s.
Proof.
  intros HI (Hc & Hg & Hs & Ec & Hb & Hfk & Hho) -> Hp. unfold Sch.leave. wp_steps. eapply wp_get_ctx; [done|]. wp_steps.
  apply wp_lift. cbn [from_opt curThread used rwp]. wp_steps. eapply wp_get_th; [done|]. wp_steps. apply wp_assert; [apply Z.eqb_refl|]. wp_steps.
  apply wp_assert; [by apply bool_decide_eq_true|]. set (g := getGid pid tid) in *.
  assert (Hr : running s c = true) by (rewrite <- Ec; by eapply on_running).
  pose proof (gi_thr _ _ _ HI g th Hg) as HT.
  apply wp_bind. eapply wp_mono; [by apply (core_leave_spec _ _ c HI)|]. intros [] s1 (E1 & HI1 & Hj). cbn in HI1.
  assert (F1 : threads s1 = threads s /\ contexts s1 = contexts s /\ bar s1 = bar s /\ curPhase s1 = curPhase s) by (by subst s1).
  clear E1. destruct F1 as (Ft & Fx & Fb & Fp). rewrite <- Ft in Hg. rewrite <- Fx in Hc. rewrite <- Fb in Hb. rewrite <- Fp in *.
  destruct (markedForSleep th) eqn:Hmk.
  - destruct (to_mark _ _ _ _ _ HT Hmk) as (_ & _ & _ & _ & Hw & Hfw). rewrite <- Fp in Hw.
    set (th1 := with_sleep false (wakeupPhase th) th).
    assert (HI2 : GInv (mkHoles None ∅ None (Some c)) (set_threads (<[g := th1]> (threads s1)) s1)).
    { eapply (touch_inv numCores HNC); try done; [by left|]. eapply not_handed; [done..|]. left. congruence. }
    apply wp_bind. eapply wp_upd_th; [done|]. fold th1. set (s2 := set_threads _ s1) in *.
    assert (Hg2 : threads s2 !! g = Some th1) by apply lookup_insert_eq.
    apply wp_bind. eapply wp_mono; [apply (deschedule_spec numCores HNC procStats _ s2 g th1 c SLEEPING HI2); try done; [by left|by right|by left|]|].
    { right. right. done. }
    intros [] s3 (HI3 & F3 & HC & _ & Et3 & Ex3). cbn [h_ctx h_thr h_bar h_core detach] in HI3. rewrite (right_id_L ∅ (∪)) in HI3.
    assert (Hg3 : threads s3 !! g = Some (with_state SLEEPING th1)) by (by rewrite Et3, lookup_insert_eq).
    apply wp_bind. eapply wp_mono; [apply (sleepQueue_insert_spec numCores HNC _ s3 g _ HI3 Hg3); [done|by apply (proj2 (elem_of_singleton g g))]|].
    intros [] s4 (HI4 & F4 & Ek4 & Et4 & Ex4 & _). cbn [h_ctx h_thr h_bar h_core] in HI4. rewrite difference_diag_L in HI4.
    apply wp_bind. eapply wp_mono; [by apply inc_spec|]. intros [] s5 (HI5 & st & ->).
    assert (EB : bar s4 = bar s1) by (rewrite (fr_bar _ _ F4), (fr_bar _ _ F3); done).
    assert (EP : curPhase s4 = curPhase s1) by (rewrite (fr_cur _ _ F4), (fr_cur _ _ F3); done).
    rewrite <- EP. change (curPhase s4) with (curPhase (set_stats st s4)). eapply (pass_on_spec (set_stats st s4) c g th (with_state SLEEPING th1)); cbn; rewrite ?EB, ?EP; try done.
    + rewrite Ex4, Ex3, list_lookup_insert_eq; [done|]. by eapply lookup_lt_Some.
    + rewrite Ek4, HC. exact Hj.
    + by rewrite Et4.
    + by right.
    + split; [done|]. split; [done|]. rewrite Hmk. split; [done|by left].
  - apply wp_bind. eapply wp_mono; [apply (schedContext_spec numCores HNC _ _ c HI1), (ctx_lt numCores _ _ _ _ HI1 Hc)|].
    intros [i|] s2; cbn [h_ctx h_thr h_bar h_core].
    + intros (ti & Ei & Hsi & _ & Hwi & Hmi & HI2 & F2 & Hk2 & Et2 & Ex2). rewrite (right_id_L ∅ (∪)) in HI2.
      assert (Hne : i <> g) by congruence.
      apply wp_bind. eapply wp_mono; [apply (deschedule_spec numCores HNC procStats _ s2 g th c BLOCKED HI2); try done; [by left|by right|by rewrite Et2|by left|by left]|].
      intros [] s3 (HI3 & F3 & HC & _ & Et3 & Ex3). cbn [h_ctx h_thr h_bar h_core detach] in HI3.
      assert (EX : ({[i]} : gset Z) ∖ {[g]} = {[i]}) by set_solver. rewrite EX in HI3.
      eapply wp_mono; [apply (hand_over_spec s3 i ti c HI3)|]; try done.
      * by rewrite Et3, lookup_insert_ne, Et2.
      * rewrite Ex3, list_lookup_insert_eq; [done|]. rewrite Ex2. by eapply lookup_lt_Some.
      * rewrite (fr_bar _ _ F3), (fr_bar _ _ F2). by apply bar_runs_in.
      * by rewrite HC, Hk2.
      * intros [] s4 (HI4 & _ & Ep & E4). split; [done|]. split; [rewrite Ep, (fr_cur _ _ F3), (fr_cur _ _ F2); lia|]. exists (with_state BLOCKED th). rewrite E4, Et3, lookup_insert_eq by done.
        split; [done|]. split; [done|]. split; [done|]. rewrite Hmk. by right.
    + intros (-> & Hno). destruct (lookup_lt_is_Some_2 (mask th) (cid th)) as [[] Hm].
      { rewrite (to_len _ _ _ _ _ HT). apply (to_cid _ _ _ _ _ HT). }
      all: apply wp_bind; eapply wp_allowed; [done|]. 2: by eapply drop_context_spec.
      rewrite <- Ec in *. apply wp_bind. assert (HW := go_out_spec numCores HNC _ s1 g th HI1 Hg Hs).
      assert (HW' := HW ltac:(apply not_elem_of_empty) ltac:(by left) ltac:(by right) Hmk Hfk Hho Hno). clear HW. apply wp_bind_inv in HW'.
      eapply wp_mono; [exact HW'|]. intros [] s2 HW2. apply wp_bind. eapply wp_mono; [exact HW2|].
      intros [] s3 (HI3 & Eb & Ek & Hr3 & Et3 & Ep). cbn in HI3.
      eapply wp_mono; [apply (vacate_spec s3 (cid th) HI3); rewrite ?Ek, ?Eb, ?Ep; done|].
      intros [] s4 (HI4 & HT4). split; [done|]. rewrite <- Ep. split; [by apply turned_phase|]. apply (Left_turned s3 s4 g th (with_state OUT th) HT4).
      * by rewrite Et3, lookup_insert_eq.
      * by left.
      * split; [done|]. split; [done|]. rewrite Hmk. by left.
Qed.
(** ** Joining *)
Abbreviation join_body := (join_body (B := B) randInt numCores schedQuantum phaseLength atSyncFunc procStats).
Abbreviation sync_handoff := (sync_handoff (B := B) randInt numCores schedQuantum phaseLength atSyncFunc procStats).

(** The thread has a context that its mask allows, or it is queued and every context
    it may use has a running thread. *)
Definition Placed (s : St) (g : Z) (m : list bool) : Prop :=
  exists t, threads s !! g = Some t /\ mask t = m /\
    (state t = RUNNING /\ m !! cid t = Some true \/ state t = QUEUED /\ forall c, m !! c = Some true -> running s c = true).

(** The thread runs on the context it had. *)
Definition Kept (s : St) (g : Z) (th : ThreadInfo) : Prop :=
  exists t, threads s !! g = Some t /\ mask t = mask th /\ state t = RUNNING /\ cid t = cid th.

Lemma kept_turned s0 s' g th : Turned s0 s' -> threads s0 !! g = Some th -> state th = RUNNING -> Kept s' g th.
Proof.
  intros HT Hg Hs. destruct HT as [(E & _)|(_ & _ & E)]; [exists th; rewrite E; tauto|].
  specialize (E g). rewrite Hg in E. cbn in E. destruct (threads s' !! g) as [t|] eqn:E3; [|done]. exists t.
  unfold woken in E. rewrite bool_decide_eq_false_2 in E by congruence. cbn in E. injection E.
  destruct t, th; cbn in *; intros; subst; naive_solver.
Qed.

(** A thread off the contexts gets one or queues up. *)
Lemma admit_spec X s g th :
  GInv (mkHoles None X None None) s -> X ⊆ {[g]} -> threads s !! g = Some th ->
  state th = BLOCKED \/ state th = STARTED \/ state th = QUEUED /\ g ∈ X -> curPhase s + 1 < two64 ->
  wp (ctx ← schedThread numCores procStats g;
      match ctx with
      | Some c => schedule g c;; call (CoreJoin c);; on_bar (bar_join c)
      | None => (if bool_decide (state th = QUEUED) then mret tt else upd_th g (with_state QUEUED));;
                runQueue_push_back g;; waitForContext g
      end) (fun _ s' => GInv no_holes s' /\ Placed s' g (mask th)) s.
Proof.
  intros HI HX Hg Hs Hp. apply wp_bind. eapply wp_mono; [by apply (schedThread_spec numCores HNC procStats X s g th)|].
  intros [c|] s1.
  - intros (HI1 & Hc & Hm & Eb & Hb & Hj & Hg1 & Ep). eapply wp_mono; [apply (enter_spec X s1 g th c HI1); rewrite ?Eb, ?Ep; try done|].
    { destruct Hs as [?|[?|?]]; tauto. }
    intros [] s2 (HI2 & t & Et & Hst & Ect & Emt). split; [done|]. exists t. split; [done|]. split; [done|]. left. split; [done|]. by rewrite Ect.
  - intros (-> & Hbusy). apply wp_bind.
    set (th1 := with_state QUEUED th).
    apply wp_mono with (Q := fun _ s' => GInv (mkHoles None {[g]} None None) s' /\ threads s' !! g = Some th1 /\
      curPhase s' = curPhase s /\ forall c, running s' c = running s c).
    + case_bool_decide as Hq.
      * destruct Hs as [?|[?|[_ HgX]]]; [congruence..|]. wp_steps. split; [|split; [|done]].
        -- by replace ({[g]} : gset Z) with X by set_solver.
        -- rewrite Hg. unfold th1. destruct th; cbn in *. by subst.
      * assert (Hs' : state th = BLOCKED \/ state th = STARTED) by (destruct Hs as [?|[?|[? _]]]; tauto).
        eapply wp_mono; [by apply (set_queued_spec numCores HNC _ s g th HI)|]. intros [] s1 (HI1 & ->). cbn in HI1.
        split; [by replace ({[g]} : gset Z) with ({[g]} ∪ X) by set_solver|]. split; [apply lookup_insert_eq|]. split; [done|].
        intros c. unfold running. cbn. apply run_on_off. eapply (gi_off numCores _ s g th c HI Hg). intros [?|?]; destruct Hs'; congruence.
    + intros [] s1 (HI1 & Hg1 & Ep & Hrun).
      eapply wp_mono; [apply (requeue_spec numCores HNC _ s1 g th1 HI1 Hg1); [done|by apply (proj2 (elem_of_singleton g g))|]|].
      { intros c Hc. left. rewrite Hrun. by apply Hbusy. }
      intros [] s2 (HI2 & _ & Et & Ex). cbn [h_ctx h_thr h_bar h_core] in HI2. rewrite difference_diag_L in HI2. split; [done|].
      exists (with_futexWord 1 th1). rewrite Et, lookup_insert_eq. split; [done|]. split; [done|]. right. split; [done|].
      intros c Hc. unfold running. rewrite Ex, Et, (run_on_same _ _ _ th1) by done. rewrite <- (Hbusy c Hc). apply Hrun.
Qed.

(** The end of a fake leave: the thread runs as if it had not left. *)
Lemma finishFakeLeave_spec s g th :
  GInv no_holes s -> threads s !! g = Some th -> fakeLeave th <> None ->
  wp (finishFakeLeave g) (fun _ s' => GInv no_holes s' /\ threads s' = <[g := with_fakeLeave None th]> (threads s) /\
    contexts s' = contexts s /\ bar s' = bar s /\ curPhase s' = curPhase s /\ fakeLeaves s' = remove_first g (fakeLeaves s)) s.
Proof.
  intros HI Hg Hfk. pose proof (gi_thr _ _ _ HI g th Hg) as HT. destruct (to_faked _ _ _ _ _ HT Hfk) as (Hs & Hho & Hb).
  unfold finishFakeLeave. wp_steps. eapply wp_get_th; [done|]. wp_steps. apply wp_assert; [by apply bool_decide_eq_true|]. wp_steps.
  apply wp_assert; [by apply bool_decide_eq_true|]. wp_steps.
  apply wp_assert; [by apply bool_decide_eq_true, (to_fake _ _ _ _ _ HT)|]. wp_steps. eapply wp_upd_th; [done|]. split; [|done].
  pose proof (gi_nodup _ _ _ HI) as (Hn1 & Hn2 & Hn3 & Hn4 & Hn5).
  match goal with |- GInv _ ?x => set (s' := x) end.
  assert (Hrun : forall c, running s' c = running s c) by (intros c; by apply (run_on_same _ _ _ th)).
  assert (Hmk : markedForSleep th = false).
  { destruct (markedForSleep th) eqn:E; [|done]. by destruct (to_mark _ _ _ _ _ HT E) as (_ & _ & ? & _). }
  pose proof (gi_ctx _ _ _ HI) as HX.
  apply (upd_inv numCores no_holes _ s s' g th (with_fakeLeave None th)); try done.
  - constructor; try done. intros x Hx. cbn. rewrite remove_first_elem by done. tauto.
  - eapply not_handed; [done..|]. left. congruence.
  - do 4 (split; [done|]). by apply remove_first_NoDup.
  - apply (gi_len _ _ _ HI).
  - intros c x Hc. destruct (HX c x Hc) as [?|(y & t & -> & Ey & ? & ?)]; [by left|]. right. cbn.
    destruct (decide (y = g)) as [->|]; [exists g, (with_fakeLeave None th)|exists y, t; by rewrite lookup_insert_ne].
    rewrite lookup_insert_eq. rewrite Hg in Ey. by injection Ey as <-.
  - destruct HT. constructor; try done; cbn.
    + by rewrite (handed_same _ _ th).
    + by rewrite Hmk.
    + rewrite remove_first_elem by done. naive_solver.
  - apply (gi_free _ _ _ HI).
  - apply (sorted_same _ _ th); [done..|]. apply (gi_sorted _ _ _ HI).
  - intros x t c Hx Ex Hc. rewrite Hrun. cbn in Ex. lk; [by eapply (gi_work _ _ _ HI _ th)|by eapply (gi_work _ _ _ HI)].
  - apply (gi_cnt _ _ _ HI).
  - intros c Hc. rewrite Hrun. by apply (gi_bar _ _ _ HI).
  - intros c Hc. rewrite Hrun. by apply (gi_core _ _ _ HI).
Qed.

(** A thread that is out takes its context back, whatever its mask says by now. *)
Lemma rejoin_enter_spec s g th :
  GInv no_holes s -> threads s !! g = Some th -> state th = OUT -> curPhase s + 1 < two64 ->
  wp (upd_th g (with_state RUNNING);; outQueue_remove g;; call (CoreJoin (cid th));; on_bar (bar_join (cid th)))
    (fun _ s' => GInv no_holes s' /\ Kept s' g th) s.
Proof.
  intros HI Hg Hs Hp. pose proof (gi_thr _ _ _ HI g th Hg) as HT. destruct (to_on _ _ _ _ _ HT ltac:(by right)) as [Hc _].
  destruct (off_plain numCores _ _ _ _ HI Hg) as (Hmk & Hfk & Hho); [congruence|].
  assert (Hnr : running s (cid th) = false) by (unfold running; rewrite (run_on_at _ _ _ _ _ Hc Hg), Hs; done).
  assert (HW := rejoin_spec numCores no_holes s g th HI Hg Hs ltac:(apply not_elem_of_empty) eq_refl eq_refl). apply wp_bind_inv in HW.
  apply wp_bind. eapply wp_mono; [exact HW|]. intros [] s1 HW1. apply wp_bind. eapply wp_mono; [exact HW1|].
  intros [] s2 (HI2 & Eb & Ek & Hr & Et & Ep). cbn in HI2.
  assert (Hg2 : threads s2 !! g = Some (with_state RUNNING th)) by (by rewrite Et, lookup_insert_eq).
  apply wp_bind. eapply wp_mono; [apply (core_join_spec _ s2 (cid th) HI2); [done| |done]|].
  { rewrite Ek, (gi_core _ _ _ HI), Hnr; done. }
  intros [] s3 (E3 & HI3). cbn in HI3.
  eapply wp_mono; [apply (bar_join_spec (cid th) s3 HI3)|]; subst s3; cbn; try done.
  - apply (to_cid _ _ _ _ _ HT).
  - intros g' t Hg' Hs' Hc'. cbn in Hg'.
    destruct (to_on _ _ _ _ _ (gi_thr _ _ _ HI2 g' t Hg') ltac:(by left)) as [Ec' _]. rewrite Hc' in Ec'.
    destruct (to_on _ _ _ _ _ (gi_thr _ _ _ HI2 g _ Hg2) ltac:(by left)) as [Ec1 _]. cbn in Ec1. rewrite Ec1 in Ec'.
    injection Ec' as <-. rewrite Hg2 in Hg'. injection Hg' as <-. done.
  - rewrite Eb, (proj2 (gi_bar _ _ _ HI)); done.
  - by rewrite Ep.
  - intros [] s4 (HI4 & HT4). split; [done|]. by apply (kept_turned _ s4 g (with_state RUNNING th) HT4).
Qed.

(** The joins that may start: a fake leave ends, or a thread off the contexts or out
    comes back. *)
Lemma join_body_spec s g th :
  GInv no_holes s -> threads s !! g = Some th ->
  fakeLeave th <> None \/ state th = STARTED \/ state th = OUT \/ state th = BLOCKED \/ state th = SLEEPING ->
  curPhase s + 1 < two64 ->
  wp (join_body g) (fun _ s' => GInv no_holes s' /\ (Placed s' g (mask th) \/ onctx th /\ Kept s' g th)) s.
Proof.
  intros HI Hg Hst Hp. pose proof (gi_thr _ _ _ HI g th Hg) as HT. unfold Sch.join_body. wp_steps. eapply wp_get_th; [done|].
  case_bool_decide as Hfk.
  { destruct (to_faked _ _ _ _ _ HT Hfk) as (Hs & Hho & Hb). eapply wp_mono; [by apply finishFakeLeave_spec|].
    intros [] s' (HI' & Et & _). split; [done|]. right. split; [by left|].
    exists (with_fakeLeave None th). by rewrite Et, lookup_insert_eq. }
  assert (Hs : state th <> RUNNING) by (destruct Hst as [?|[->|[->|[->| ->]]]]; done).
  destruct (off_plain numCores _ _ _ _ HI Hg Hs) as (Hmk & _ & Hho). wp_steps. apply wp_assert; [by rewrite Hmk|].
  assert (Hbody : forall s th, GInv no_holes s -> threads s !! g = Some th -> state th = STARTED \/ state th = OUT \/ state th = BLOCKED ->
    curPhase s + 1 < two64 -> wp (th ← get_th g;
    if bool_decide (state th = OUT) then
      upd_th g (with_state RUNNING);; outQueue_remove g;; call (CoreJoin (cid th));; on_bar (bar_join (cid th))
    else
      massert (bool_decide (state th = BLOCKED) || bool_decide (state th = STARTED)) "BLOCKED or STARTED";;
      ctx ← schedThread numCores procStats g;
      match ctx with
      | Some c => schedule g c;; call (CoreJoin c);; on_bar (bar_join c)
      | None => upd_th g (with_state QUEUED);; runQueue_push_back g;; waitForContext g
      end) (fun _ s' => GInv no_holes s' /\ (Placed s' g (mask th) \/ onctx th /\ Kept s' g th)) s).
  { clear s th HI Hg Hst Hp HT Hfk Hs Hmk Hho. intros s th HI Hg Hst Hp. wp_steps. eapply wp_get_th; [done|].
    case_bool_decide as Ho.
    - eapply wp_mono; [by apply rejoin_enter_spec|]. intros [] s' [? ?]. split; [done|]. right. split; [by right|done].
    - assert (Hs : state th = BLOCKED \/ state th = STARTED) by tauto. apply wp_bind, wp_assert; [by destruct Hs as [->| ->]|].
      assert (HA := admit_spec ∅ s g th HI ltac:(set_solver) Hg ltac:(tauto) Hp).
      rewrite bool_decide_eq_false_2 in HA by (destruct Hs; congruence).
      eapply wp_mono; [exact HA|]. intros [] s' [? ?]. split; [done|by left]. }
  apply wp_bind. case_bool_decide as Hsl.
  - eapply wp_mono; [by apply (unsleep_spec numCores _ s g th HI)|]. intros [] s1 (HI1 & F & _ & Et & _).
    assert (Hg1 : threads s1 !! g = Some (with_state BLOCKED th)) by (by rewrite Et, lookup_insert_eq).
    eapply wp_mono; [apply (Hbody s1 (with_state BLOCKED th)); [done|done|by right; right|]; by rewrite (fr_cur _ _ F)|].
    intros [] s' [? [?|[[?|?] _]]]; [by split; [|left]|done..].
  - apply wp_ret. apply Hbody; try done. tauto.
Qed.
(** ** The end of a thread's phase *)
Abbreviation sync := (sync (B := B) randInt numCores schedQuantum phaseLength atSyncFunc).

Lemma executing_plain h s c g th : GInv h s -> executing s c g th -> markedForSleep th = false -> Plain c s.
Proof.
  intros HI (Hc & Hg & Hs & Ec & _ & Hfk & Hho) Hmk g' t Hg' Hs' Hc'.
  destruct (to_on _ _ _ _ _ (gi_thr _ _ _ HI g' t Hg') ltac:(by left)) as [Ec' _]. rewrite Hc', Hc in Ec'.
  injection Ec' as <-. rewrite Hg in Hg'. by injection Hg' as <-.
Qed.

Lemma sync_step_spec s c g th :
  GInv no_holes s -> executing s c g th -> markedForSleep th = false -> curPhase s + 1 < two64 ->
  wp (sync c) (fun _ s' => GInv no_holes s' /\ Turned s s') s.
Proof.
  intros HI HE Hmk Hp. pose proof (executing_plain _ _ _ _ _ HI HE Hmk). destruct HE as (Hc & Hg & Hs & Ec & Hb & _).
  unfold Sch.sync. wp_steps. eapply wp_get_ctx; [done|]. wp_steps. apply wp_lift. cbn [from_opt curThread used rwp]. wp_steps.
  eapply wp_get_th; [done|]. wp_steps. apply wp_assert; [by rewrite Hmk|]. by apply bar_sync_spec.
Qed.

(** The hand-off gives the context to the thread it was promised to, and the one that
    had it moves to another context or queues up. *)
Lemma sync_handoff_spec s g th dst :
  GInv no_holes s -> threads s !! g = Some th -> handoffThread th = Some dst -> curPhase s + 1 < two64 ->
  wp (sync_handoff g) (fun _ s' => GInv no_holes s' /\ Placed s' g (mask th)) s.
Proof.
  intros HI Hg Hho Hp. destruct (gi_hand _ _ _ HI g th dst Hg Hho) as (Hs & Ha & _ & dt & Ed & Hsd & Hmd).
  pose proof (gi_thr _ _ _ HI g th Hg) as HT. pose proof (gi_thr _ _ _ HI dst dt Ed) as HTd.
  assert (Hwd : futexWord dt = 1) by (apply (to_word _ _ _ _ _ HTd); right; split; [done|apply not_elem_of_empty]).
  destruct (off_plain numCores _ _ _ _ HI Ed) as (Hmkd & Hfkd & Hhod); [congruence|].
  assert (Hmk : markedForSleep th = false).
  { destruct (markedForSleep th) eqn:E; [|done]. destruct (to_mark _ _ _ _ _ HT E) as (_ & ? & _). congruence. }
  assert (Hfk : fakeLeave th = None).
  { destruct (fakeLeave th) eqn:E; [|done]. destruct (to_faked _ _ _ _ _ HT ltac:(congruence)) as (_ & ? & _). congruence. }
  assert (Hne : dst <> g) by congruence. set (c := cid th) in *.
  destruct (to_on _ _ _ _ _ HT ltac:(by left)) as [Hc _]. fold c in Hc.
  assert (Hr : running s c = true) by (by eapply on_running).
  unfold Sch.sync_handoff. apply wp_bind. eapply wp_get_th; [done|]. rewrite Hho. fold c.
  apply wp_bind. eapply wp_mono; [by apply (clear_handoff_spec numCores HNC s g th dst HI)|]. intros [] s1 (HI1 & E1).
  set (th1 := with_handoff None th) in *.
  assert (Hg1 : threads s1 !! g = Some th1) by (subst s1; apply lookup_insert_eq).
  assert (Ed1 : threads s1 !! dst = Some dt) by (subst s1; cbn; by rewrite lookup_insert_ne).
  apply wp_bind. eapply wp_mono; [apply (deschedule_spec numCores HNC procStats _ s1 g th1 c QUEUED HI1); try done; [by left|by left|by left|by right; left]|].
  intros [] s2 (HI2 & F2 & HC2 & _ & Et2 & Ex2). cbn [h_ctx h_thr h_bar h_core detach] in HI2.
  assert (Ed2 : threads s2 !! dst = Some dt) by (by rewrite Et2, lookup_insert_ne).
  assert (Hc2 : contexts s2 !! c = Some idle).
  { rewrite Ex2, list_lookup_insert_eq; [done|]. subst s1. by eapply lookup_lt_Some. }
  apply wp_bind. eapply wp_mono; [eapply (schedule_thread_spec numCores HNC _ s2 dst dt c HI2); try done; right; right; split; [done|]; cbn; set_solver|].
  intros [] s3 (HI3 & F3 & HC3 & _ & Et3 & Ex3). cbn [h_ctx h_thr h_bar h_core] in HI3.
  assert (EX : ({[g]} ∪ {[dst]} : gset Z) ∖ {[dst]} = {[g]}) by set_solver. rewrite EX in HI3.
  assert (Ed3 : threads s3 !! dst = Some (with_cid c (with_state RUNNING dt))) by (by rewrite Et3, lookup_insert_eq).
  assert (Hr3 : running s3 c = true) by (eapply (on_running _ s3 dst _ HI3 Ed3); done).
  assert (Eb : bar s3 = bar s) by (rewrite (fr_bar _ _ F3), (fr_bar _ _ F2); by subst s1).
  assert (Ep : curPhase s3 = curPhase s) by (rewrite (fr_cur _ _ F3), (fr_cur _ _ F2); by subst s1).
  assert (HI4 : GInv (mkHoles None {[g]} None None) s3).
  { apply (reholes numCores _ s3 None None HI3); intros d _; (destruct (decide (d = c)) as [->|]; [|apply HI3; cbn; congruence]).
    - rewrite Hr3, Eb, <- Hr. by apply (gi_bar _ _ _ HI).
    - rewrite Hr3, HC3, HC2, <- Hr. subst s1. by apply (gi_core _ _ _ HI). }
  apply wp_bind. eapply wp_mono; [apply (wakeup_spec numCores HNC _ s3 dst _ HI4 Ed3); try done; by left|]. intros [] s4 (HI5 & E4).
  apply wp_bind. eapply wp_mono; [by apply inc_spec|]. intros [] s5 (HI6 & st & E5).
  assert (Hg5 : threads s5 !! g = Some (with_state QUEUED th1)).
  { subst s5 s4. cbn. rewrite lookup_insert_ne, Et3, lookup_insert_ne, Et2, lookup_insert_eq by done. done. }
  assert (Hp5 : curPhase s5 + 1 < two64) by (subst s5 s4; cbn; by rewrite Ep).
  assert (HA := admit_spec {[g]} s5 g _ HI6 ltac:(done) Hg5 ltac:(right; right; split; [done|set_solver]) Hp5).
  rewrite bool_decide_eq_true_2 in HA by done. exact HA.
Qed.
End Ops.
End SchO.
