(* ===== verification/SchedulerSteps.v ===== *)
(** * The remaining operations of the scheduler

    Creation and end of threads, sleeping, fake leaves, futex notifications, masks
    and the watchdog, each under the scheduler's invariant. *)

From Stdlib Require Import Sorted.
From S2P Require Import Prelude Bithacks Barrier Scheduler SchedulerInv SchedulerPrim SchedulerPhase SchedulerOps.

Create HintDb keeps.

Module SchT.
Import Sch SchI SchP SchE SchO.

Section Steps.
Context {B R : Type} `{BL : BarrierLaws B} {W : Remasked}.
Variable numCores : nat.
Hypothesis HNC : (numCores <= MAX_THREADS)%nat.
Variable randInt : R -> nat -> nat * R.
Hypothesis Hrand : forall r n, (fst (randInt r n) <= n)%nat.
Variables (schedQuantum phaseLength : Z) (atSyncFunc procStats : bool).
Hypothesis Hsq : 0 < schedQuantum.
Abbreviation St := (Sched B R).
Abbreviation GInv := (GInv (B := B) (R := R) (W := W) numCores).
Implicit Type s : St.

Lemma nused_replicate n : nused (replicate n idle) = 0%nat.
Proof. induction n as [|n IH]; [done|]. cbn [replicate]. rewrite nused_cons, IH. by case_decide. Qed.
Lemma boot_state_inv (b : B) (r : R) : bar_ok b -> (forall c, bar_in b c = false) -> GInv no_holes (init numCores b r).
Proof.
  clear HNC Hrand Hsq randInt. intros Hb Hin. assert (Hr : forall c, running (init numCores b r) c = false).
  { intros c. unfold running, run_on. cbn. destruct (replicate _ _ !! c) as [x|] eqn:E; [|done]. by apply lookup_replicate in E as [-> _]. }
  constructor; cbn; try done.
  - set_solver.
  - repeat split; try apply NoDup_nil_2. apply NoDup_seq.
  - apply length_replicate.
  - intros c x [-> _]%lookup_replicate. by left.
  - intros g. split; [set_solver|by intros [? ?]].
  - intros c. rewrite elem_of_seq. split.
    + intros. split; [apply lookup_replicate; split; [done|lia]|done].
    + intros [[_ ?]%lookup_replicate _]. lia.
  - constructor.
  - change (0 = Z.of_nat (nused (replicate numCores idle))). by rewrite nused_replicate.
  - split; [done|]. intros c _. by rewrite Hin, Hr.
  - intros c _. by rewrite Hr.
  - rewrite !length_replicate. lia.
Qed.

(** ** Creation *)
Lemma start_spec s pid tid lpid ltid m :
  GInv no_holes s -> getGid pid tid ∉ gidMap s -> length m = numCores -> existsb id m = true ->
  wp (start numCores pid tid lpid ltid m) (fun _ s' => GInv no_holes s') s.
Proof.
  intros HI Hn Hm He. unfold start, new_ThreadInfo. wp_steps. apply wp_assert; [by rewrite bool_decide_eq_false_2|]. wp_steps.
  apply wp_assert; [by apply Nat.eqb_eq|]. wp_steps. apply wp_assert; [done|]. wp_steps. set (g := getGid pid tid) in *.
  set (th := mkThread _ _ _ _ _ _ _ _ _ _ _ _ _). eapply wp_mono; [apply (inc_spec numCores no_holes)|by intros [] s' [? _]].
  assert (Hg : threads s !! g = None).
  { destruct (threads s !! g) eqn:E; [|done]. destruct Hn. apply (gi_gid _ _ _ HI). by rewrite E. }
  assert (Hpos : (0 < numCores)%nat) by (rewrite <- Hm; destruct m; [done|cbn; lia]).
  match goal with |- GInv _ ?x => set (s' := x) end.
  assert (Hhd : forall x, handed (threads s') x <-> handed (threads s) x).
  { intros x. unfold handed, s'. cbn. split; intros (v & vt & Hv & E).
    - lk; [done|eauto].
    - exists v, vt. rewrite lookup_insert_ne; [done|]. by intros <-; rewrite Hg in Hv. }
  assert (Hctx : forall c, contexts s !! c ≫= curThread <> Some g).
  { intros c Hc. destruct (contexts s !! c) as [x|] eqn:Ex; [|done]. cbn in Hc.
    destruct (gi_ctx _ _ _ HI c x Ex) as [->|(g' & t & -> & ? & _)]; [done|]. cbn in Hc. injection Hc as ->. congruence. }
  assert (Hrun : forall c, running s' c = running s c) by (intros c; by apply run_on_off).
  assert (Hno : g ∉ runQueue (queues s) /\ g ∉ outQueue (queues s) /\ g ∉ sleepQueue (queues s) /\ g ∉ fakeLeaves s).
  { pose proof (gi_dom _ _ _ HI g) as HD. rewrite Hg in HD. repeat split; intros Hx; (assert (Hs : is_Some (None : option ThreadInfo)) by tauto; by destruct Hs). }
  destruct Hno as (Hq1 & Hq2 & Hq3 & Hq4). destruct HI. constructor; try done.
  - intros x t Hx. cbn in Hx. lk.
    + constructor; cbn; try done; try (split; [done|by intros [? _]]).
      * by intros [?|?].
      * by intros [?|[? _]].
    + destruct (gi_thr0 x t ltac:(done)). constructor; try done. by rewrite Hhd.
  - intros x Hx. cbn. destruct (decide (x = g)) as [->|]; [by rewrite lookup_insert_eq|]. rewrite lookup_insert_ne by done. by apply gi_dom0.
  - intros c x Hc. destruct (gi_ctx0 c x Hc) as [?|(y & t & -> & Ey & ? & ?)]; [by left|]. right. exists y, t. cbn.
    rewrite lookup_insert_ne; [done|]. by intros <-; rewrite Hg in Ey.
  - intros x. cbn. rewrite elem_of_union, elem_of_singleton, gi_gid0. destruct (decide (x = g)) as [->|].
    + rewrite lookup_insert_eq. naive_solver.
    + rewrite lookup_insert_ne by done. naive_solver.
  - eapply sorted_ext; [|exact gi_sorted0]. intros x Hx. cbn. apply wk_off. by intros ->.
  - intros v vt x Hv Hx. cbn in Hv. lk; [done|]. destruct (gi_hand0 v vt x) as (? & ? & ? & gt & Egt & ? & ?); [done..|].
    do 3 (split; [done|]). exists gt. cbn. rewrite lookup_insert_ne; [done|]. by intros <-; rewrite Hg in Egt.
  - intros v vt v' vt' x Hv Hv' Hx Hx'. cbn in Hv, Hv'. lk; try done. by eapply (gi_hinj0 v vt v' vt').
  - intros x t c Hx Ex Hc. rewrite Hrun. cbn in Ex. lk; [done|]. by eapply gi_work0.
  - destruct gi_bar0. split; [done|]. intros c Hc. rewrite Hrun. auto.
  - intros c Hc. rewrite Hrun. by apply gi_core0.
Qed.
(** ** The end of a thread *)

(** The thread is out of every list and off the contexts. *)
Lemma delete_inv X s g th :
  GInv (mkHoles None X None None) s -> X ⊆ {[g]} -> threads s !! g = Some th -> ~ onctx th ->
  ~ handed (threads s) g -> g ∉ runQueue (queues s) -> g ∉ outQueue (queues s) -> g ∉ sleepQueue (queues s) ->
  GInv no_holes (set_threads (delete g (threads s)) (set_gidMap (gidMap s ∖ {[g]}) s)).
Proof.
  intros HI HX Hg Hoff Hnh Hq1 Hq2 Hq3. set (s' := set_threads _ _).
  assert (Hin : forall x t, threads s' !! x = Some t -> g <> x /\ threads s !! x = Some t) by (intros x t Hx; by apply (proj1 (lookup_delete_Some (threads s) g x t))).
  assert (Hnr : state th <> RUNNING) by (intros ?; apply Hoff; by left).
  destruct (off_plain numCores _ _ _ _ HI Hg Hnr) as (_ & Hfk & Hho).
  assert (Hq4 : g ∉ fakeLeaves s) by (rewrite (to_fake _ _ _ _ _ (gi_thr _ _ _ HI g th Hg)); naive_solver).
  assert (Hhd : forall x, handed (threads s') x <-> handed (threads s) x).
  { intros x. unfold handed, s'. cbn. split; intros (v & vt & Hv & E).
    - apply lookup_delete_Some in Hv as [_ Hv]. eauto.
    - exists v, vt. rewrite lookup_delete_ne; [done|]. intros <-. congruence. }
  assert (Hrun : forall c, running s' c = running s c).
  { intros c. unfold running, run_on, s'. cbn. pose proof (gi_off numCores _ _ _ _ c HI Hg Hoff) as Hc.
    destruct (contexts s !! c ≫= curThread) as [x|]; [|done]. by rewrite lookup_delete_ne by congruence. }
  assert (Hne : forall x, x <> g -> x ∉ X) by set_solver.
  destruct HI. constructor; try done.
  - intros x t [Hx Ex]%Hin. destruct (gi_thr0 x t Ex). constructor; try done; cbn.
    + rewrite to_out0. cbn. specialize (Hne x ltac:(done)). set_solver.
    + rewrite to_sleep0. cbn. specialize (Hne x ltac:(done)). set_solver.
    + rewrite to_run0. cbn. change (delete g (threads s)) with (threads s'). rewrite Hhd. specialize (Hne x ltac:(done)). set_solver.
    + intros [?|[? _]]; apply to_word0; [by left|]. right. split; [done|]. by apply Hne.
  - intros x Hx. cbn in *. rewrite lookup_delete_ne; [by apply gi_dom0|]. intros <-. naive_solver.
  - intros c x Hc. destruct (gi_ctx0 c x Hc) as [?|(y & t & -> & Ey & ? & ?)]; [by left|]. right. exists y, t. cbn.
    rewrite lookup_delete_ne; [done|]. intros <-. congruence.
  - intros x. cbn. rewrite elem_of_difference, elem_of_singleton, gi_gid0. destruct (decide (x = g)) as [->|].
    + rewrite lookup_delete_eq. split; [naive_solver|by intros [? ?]].
    + rewrite lookup_delete_ne by done. naive_solver.
  - eapply sorted_ext; [|exact gi_sorted0]. intros x Hx. cbn. unfold wk. rewrite lookup_delete_ne; [done|]. by intros <-.
  - intros v vt x Hv Hx. apply Hin in Hv as [? Hv]. destruct (gi_hand0 v vt x) as (? & ? & ? & gt & Egt & ? & ?); [done..|].
    split; [done|]. split; [done|]. split; [apply not_elem_of_empty|]. exists gt. cbn. rewrite lookup_delete_ne; [done|].
    intros <-. apply Hnh. by exists v, vt.
  - intros v vt v' vt' x Hv Hv' Hx Hx'. apply Hin in Hv as [_ Hv], Hv' as [_ Hv']. by eapply (gi_hinj0 v vt v' vt').
  - intros x t c Hx Ex Hc. rewrite Hrun. apply Hin in Ex as [_ Ex]. by eapply gi_work0.
  - destruct gi_bar0. split; [done|]. intros c Hc. rewrite Hrun. auto.
  - intros c Hc. rewrite Hrun. by apply gi_core0.
Qed.

(** The steps of [finish] after it took the thread out of [gidMap] do not read it. *)
Definition gid_free (m : M St unit) : Prop := forall x s,
  m (set_gidMap x s) = match m s with Ok (a, s') => Ok (a, set_gidMap x s') | Err f => Err f end.
Lemma gid_free_bind (m k : M St unit) : gid_free m -> gid_free k -> gid_free (m;; k).
Proof. intros Hm Hk x s. unfold mbind, M_bind. rewrite Hm. destruct (m s) as [[[] s']|]; [|done]. apply Hk. Qed.
Lemma gid_free_wp m (Q : unit -> St -> Prop) x s : gid_free m -> wp m (fun a s' => Q a (set_gidMap x s')) s -> wp m Q (set_gidMap x s).
Proof. intros Hm. unfold wp. rewrite Hm. by destruct (m s) as [[a s']|]. Qed.
Lemma gid_free_runQueue_remove g : gid_free (runQueue_remove g).
Proof. intros x s. unfold runQueue_remove, mbind, M_bind, mget, massert. cbn. by destruct (bool_decide _). Qed.
Lemma gid_free_outQueue_remove g : gid_free (outQueue_remove g).
Proof. intros x s. unfold outQueue_remove, mbind, M_bind, mget, massert. cbn. by destruct (bool_decide _). Qed.
Lemma gid_free_freeList_push_back c : gid_free (freeList_push_back c).
Proof. intros x s. unfold freeList_push_back, mbind, M_bind, mget, massert. cbn. by destruct (bool_decide _). Qed.
Lemma gid_free_deschedule g c st : gid_free (deschedule procStats g c st).
Proof.
  intros x s. unfold deschedule, upd_th, get_th, get_ctx, put_ctx, call, mbind, M_bind, mget, massert, mlift, mmodify, from_opt. cbn.
  destruct (threads s !! g) as [th|] eqn:E; cbn; [|done]. destruct (_ || _); [|done]. cbn.
  destruct (arr_get (contexts s) c) as [ctx|]; cbn; [|done]. destruct (bool_decide _); cbn; [|done].
  destruct (_ =? _)%nat; cbn; [|done]. destruct (bool_decide _); cbn; [|done]. destruct (_ || _ || _); cbn; [|done].
  destruct procStats; cbn; rewrite E; cbn; destruct (arr_set _ _ _); done.
Qed.

(** A thread that is out gives its context back. *)
Lemma out_release_spec s g th :
  GInv no_holes s -> threads s !! g = Some th -> state th = OUT ->
  wp (outQueue_remove g;; deschedule procStats g (cid th) BLOCKED;; freeList_push_back (cid th)) (fun _ s' =>
    GInv no_holes s' /\ threads s' !! g = Some (with_state BLOCKED th) /\ gidMap s' = gidMap s) s.
Proof.
  intros HI Hg Hs. pose proof (gi_thr _ _ _ HI g th Hg) as HT. destruct (to_on _ _ _ _ _ HT ltac:(by right)) as [Hc _]. set (c := cid th) in *.
  destruct (off_plain numCores _ _ _ _ HI Hg) as (Hmk & Hfk & Hho); [congruence|].
  assert (Hnr : running s c = false) by (unfold running; rewrite (run_on_at _ _ _ _ _ Hc Hg), Hs; done).
  assert (Hin : g ∈ outQueue (queues s)) by (apply (to_out _ _ _ _ _ HT); split; [done|apply not_elem_of_empty]).
  apply wp_bind. eapply wp_mono; [by apply (outQueue_remove_spec numCores HNC _ s g th HI)|].
  intros [] s1 (HI1 & l & E1). unfold no_holes in HI1; cbn [h_ctx h_thr h_bar h_core] in HI1. fold c in HI1. rewrite (right_id_L ∅ (∪)) in HI1.
  apply wp_bind. eapply wp_mono; [apply (deschedule_spec numCores HNC procStats _ s1 g th c BLOCKED HI1); subst s1; try done; [by right|by right|right; split; [done|cbn; set_solver]|by left]|].
  intros [] s2 (HI2 & F & HC & Eq & Et & Ex). cbn [h_ctx h_thr h_bar h_core detach] in HI2. rewrite difference_diag_L in HI2.
  assert (Hc2 : contexts s2 !! c = Some idle) by (rewrite Ex, list_lookup_insert_eq; [done|]; subst s1; by eapply lookup_lt_Some).
  eapply wp_mono; [apply (freeList_push_back_spec numCores _ s2 c HI2); try done|].
  { intros x t Hx Ext Hm. rewrite Et in Ext. rewrite Eq in Hx. subst s1. cbn in Hx, Ext.
    assert (Hxs : exists t0, threads s !! x = Some t0 /\ mask t0 = mask t) by (lk; eauto). destruct Hxs as (t0 & E0 & Em).
    destruct (gi_work _ _ _ HI x t0 c Hx E0); [by rewrite Em|congruence|done]. }
  intros [] s3 (HI3 & l' & ->). cbn [h_ctx h_thr h_bar h_core] in HI3. split; [|split].
  - apply (reholes numCores _ _ None None HI3); intros d _; (destruct (decide (d = c)) as [->|]; [|apply HI3; cbn; congruence]);
      (replace (running _ c) with false by (symmetry; by apply run_on_idle)).
    + cbn. rewrite (fr_bar _ _ F), <- Hnr. subst s1. by apply (gi_bar _ _ _ HI).
    + cbn. rewrite HC, <- Hnr. subst s1. by apply (gi_core _ _ _ HI).
  - cbn. by rewrite Et, lookup_insert_eq.
  - cbn. rewrite (fr_gid _ _ F). by subst s1.
Qed.

Lemma finish_spec s pid tid th :
  GInv no_holes s -> threads s !! getGid pid tid = Some th ->
  state th = STARTED \/ state th = OUT \/ state th = BLOCKED \/ state th = QUEUED /\ getGid pid tid ∈ runQueue (queues s) ->
  wp (finish randInt numCores schedQuantum phaseLength atSyncFunc procStats pid tid) (fun _ s' => GInv no_holes s') s.
Proof.
  intros HI Hg Hst. set (g := getGid pid tid) in *. pose proof (gi_thr _ _ _ HI g th Hg) as HT.
  assert (Hnr : state th <> RUNNING) by (destruct Hst as [->|[->|[->|[-> _]]]]; done).
  destruct (off_plain numCores _ _ _ _ HI Hg Hnr) as (_ & Hfk & _).
  unfold finish, lookup_gid. fold g. wp_steps. apply wp_assert. { apply bool_decide_eq_true, (gi_gid _ _ _ HI). by rewrite Hg. }
  wp_steps. eapply wp_get_th; [done|]. wp_steps. set (s1 := set_gidMap _ s). rewrite bool_decide_eq_false_2 by naive_solver. wp_steps.
  eapply wp_get_th; [done|]. wp_steps. rewrite bool_decide_eq_false_2 by done. wp_steps. eapply wp_get_th; [done|]. wp_steps.
  apply wp_assert. { destruct Hst as [->|[->|[->|[-> _]]]]; done. }
  wp_steps.
  assert (Hdel : forall s0 th0 X, GInv (mkHoles None X None None) s0 -> gidMap s0 = gidMap s -> X ⊆ {[g]} -> threads s0 !! g = Some th0 -> ~ onctx th0 ->
    ~ handed (threads s0) g -> g ∉ runQueue (queues s0) -> g ∉ outQueue (queues s0) -> g ∉ sleepQueue (queues s0) ->
    wp (mmodify (fun s => set_threads (delete g (threads s)) s);; inc threadsFinished) (fun _ s' => GInv no_holes s')
      (set_gidMap (gidMap s ∖ {[g]}) s0)).
  { intros s0 th0 X HI0 Egd HX0 Hg0 Ho Hh Q1 Q2 Q3. wp_steps. eapply wp_mono; [apply (inc_spec numCores no_holes)|by intros [] s' [? _]].
    cbn. rewrite <- Egd. exact (delete_inv X s0 g th0 HI0 HX0 Hg0 Ho Hh Q1 Q2 Q3). }
  case_bool_decide as Hq.
  - destruct Hst as [?|[?|[?|[_ Hin]]]]; [congruence..|]. destruct (proj1 (to_run _ _ _ _ _ HT) Hin) as (_ & _ & Hnh).
    apply gid_free_wp; [apply gid_free_runQueue_remove|]. eapply wp_mono; [by apply (runQueue_remove_spec numCores HNC _ s g th HI)|].
    intros [] s2 (HI2 & F & _ & Et & _ & Eq). cbn in HI2. pose proof (gi_nodup _ _ _ HI) as (Hnd & _).
    apply (Hdel s2 th _ HI2); rewrite ?Et, ?Eq; cbn [runQueue outQueue sleepQueue with_runQueue]; try done.
    + apply F.
    + clear. set_solver.
    + intros [?|?]; congruence.
    + rewrite remove_first_elem by done. by intros [_ ?].
    + rewrite (to_out _ _ _ _ _ HT), Hq. by intros [? _].
    + rewrite (to_sleep _ _ _ _ _ HT), Hq. by intros [? _].
  - destruct (decide (state th = OUT)) as [Ho|Ho].
    + assert (Hin : g ∈ outQueue (queues s)) by (apply (to_out _ _ _ _ _ HT); split; [done|apply not_elem_of_empty]).
      replace (owned g (queues s1)) with true by (unfold owned, s1; cbn; by rewrite (bool_decide_eq_true_2 (g ∈ outQueue (queues s))), orb_true_r by done).
      apply gid_free_wp; [repeat apply gid_free_bind; [apply gid_free_outQueue_remove|apply gid_free_deschedule|apply gid_free_freeList_push_back]|].
      eapply wp_mono; [by apply (out_release_spec s g th)|]. intros [] s2 (HI2 & Hg2 & Egd). pose proof (gi_thr _ _ _ HI2 g _ Hg2) as HT2.
      assert (Hno : g ∉ runQueue (queues s2) /\ g ∉ outQueue (queues s2) /\ g ∉ sleepQueue (queues s2)) by (eapply (not_queued numCores); [done..|by right]).
      apply (Hdel s2 _ ∅ HI2 Egd ltac:(done) Hg2); try tauto.
      * by intros [?|?].
      * eapply (not_handed numCores); [done..|by left].
    + assert (Hno : g ∉ runQueue (queues s) /\ g ∉ outQueue (queues s) /\ g ∉ sleepQueue (queues s)).
      { eapply (not_queued numCores); [done..|]. right. destruct Hst as [->|[?|[->|[? _]]]]; done. }
      destruct Hno as (Q1 & Q2 & Q3). replace (owned g (queues s1)) with false by (unfold owned, s1; cbn; by rewrite !bool_decide_eq_false_2).
      apply wp_ret. apply (Hdel s th ∅ HI); try done.
      * intros [?|?]; congruence.
      * eapply (not_handed numCores); [done..|by left].
Qed.
(** ** Sleeping and system calls *)
Lemma wp_lookup_gid s g th (Q : ThreadInfo -> St -> Prop) :
  GInv no_holes s -> threads s !! g = Some th -> Q th s -> wp (lookup_gid g) Q s.
Proof.
  intros HI Hg HQ. unfold lookup_gid. wp_steps. apply wp_assert; [|by eapply wp_get_th].
  apply bool_decide_eq_true, (gi_gid _ _ _ HI). by rewrite Hg.
Qed.

Lemma markForSleep_spec s pid tid c th w :
  GInv no_holes s -> executing s c (getGid pid tid) th -> markedForSleep th = false -> curPhase s < w ->
  wp (markForSleep pid tid w) (fun _ s' => GInv no_holes s') s.
Proof.
  intros HI (Hc & Hg & Hs & Ec & Hb & Hfk & Hho) Hmk Hw. unfold markForSleep. wp_steps. eapply wp_lookup_gid; [done..|]. wp_steps.
  apply wp_assert; [by rewrite Hmk|]. wp_steps. eapply wp_upd_th; [done|]. eapply (touch_inv numCores HNC); try done.
  - right. congruence.
  - eapply (not_handed numCores); [done..|]. left. congruence.
  - cbn. rewrite Ec. done.
Qed.

Lemma notifySleepEnd_spec s pid tid th :
  GInv no_holes s -> threads s !! getGid pid tid = Some th -> state th = SLEEPING \/ state th = BLOCKED ->
  wp (notifySleepEnd pid tid) (fun _ s' => GInv no_holes s' /\
    exists th', threads s' !! getGid pid tid = Some th' /\ state th' = BLOCKED) s.
Proof.
  intros HI Hg Hs. destruct (off_plain numCores _ _ _ _ HI Hg) as (Hmk & _); [destruct Hs; congruence|].
  unfold notifySleepEnd. wp_steps. eapply wp_lookup_gid; [done..|]. wp_steps. apply wp_assert; [by rewrite Hmk|]. wp_steps.
  apply wp_assert; [by destruct Hs as [->| ->]|]. case_bool_decide as Hb; [wp_steps; eauto|].
  eapply wp_mono; [apply (unsleep_spec numCores _ s _ th HI Hg); [tauto|apply not_elem_of_empty]|].
  intros [] s' (HI' & _ & _ & Et & _). split; [done|]. exists (with_state BLOCKED th). by rewrite Et, lookup_insert_eq.
Qed.

(** A thread on its context goes into a fake leave. *)
Lemma fake_inv s c g th fl :
  GInv no_holes s -> executing s c g th -> markedForSleep th = false ->
  GInv no_holes (set_fakeLeaves (fakeLeaves s ++ [g]) (set_threads (<[g := with_fakeLeave (Some fl) th]> (threads s)) s)).
Proof.
  intros HI (Hc & Hg & Hs & Ec & Hb & Hfk & Hho) Hmk. pose proof (gi_thr _ _ _ HI g th Hg) as HT.
  set (s' := set_fakeLeaves _ _). assert (Hrun : forall c, running s' c = running s c) by (intros d; by apply (run_on_same _ _ _ th)).
  pose proof (gi_nodup _ _ _ HI) as (Hn1 & Hn2 & Hn3 & Hn4 & Hn5). pose proof (gi_ctx _ _ _ HI) as HX.
  assert (Hnf : g ∉ fakeLeaves s) by (rewrite (to_fake _ _ _ _ _ HT); naive_solver).
  apply (upd_inv numCores no_holes _ s s' g th (with_fakeLeave (Some fl) th)); try done.
  - constructor; try done. intros x Hx. cbn. rewrite elem_of_app, list_elem_of_singleton. tauto.
  - eapply not_handed; [done..|]. left. congruence.
  - do 4 (split; [done|]). by apply NoDup_snoc.
  - apply (gi_len _ _ _ HI).
  - intros d x Hd. destruct (HX d x Hd) as [?|(y & t & -> & Ey & ? & ?)]; [by left|]. right. cbn.
    destruct (decide (y = g)) as [->|]; [exists g, (with_fakeLeave (Some fl) th)|exists y, t; by rewrite lookup_insert_ne].
    rewrite lookup_insert_eq. rewrite Hg in Ey. by injection Ey as <-.
  - destruct HT. constructor; try done; cbn.
    + by rewrite (handed_same _ _ th).
    + by rewrite Hmk.
    + rewrite elem_of_app, list_elem_of_singleton. naive_solver.
    + by rewrite Ec.
  - apply (gi_free _ _ _ HI).
  - apply (sorted_same _ _ th); [done..|]. apply (gi_sorted _ _ _ HI).
  - intros x t d Hx Ex Hd. rewrite Hrun. cbn in Ex. lk; [by eapply (gi_work _ _ _ HI _ th)|by eapply (gi_work _ _ _ HI)].
  - apply (gi_cnt _ _ _ HI).
  - intros d Hd. rewrite Hrun. by apply (gi_bar _ _ _ HI).
  - intros d Hd. rewrite Hrun. by apply (gi_core _ _ _ HI).
Qed.

Lemma syscallLeave_spec s pid tid c th pc nr a0 a1 :
  GInv no_holes s -> executing s c (getGid pid tid) th -> pid < Z.of_nat MAX_THREADS -> curPhase s + 1 < two64 ->
  wp (syscallLeave randInt numCores schedQuantum phaseLength atSyncFunc procStats pid tid c pc nr a0 a1) (fun _ s' => GInv no_holes s') s.
Proof.
  intros HI HE Hpid Hp. pose proof HE as (Hc & Hg & Hs & Ec & Hb & Hfk & Hho). unfold syscallLeave. wp_steps. eapply wp_get_ctx; [done|]. wp_steps.
  apply wp_lift. cbn [from_opt curThread used rwp]. wp_steps. eapply wp_get_th; [done|]. wp_steps. apply wp_assert; [apply Z.eqb_refl|]. wp_steps.
  apply wp_assert; [by apply Nat.eqb_eq|]. wp_steps. apply wp_assert; [by apply bool_decide_eq_true|]. wp_steps. apply wp_assert; [by apply Z.ltb_lt|]. wp_steps.
  pose proof (gi_thr _ _ _ HI _ th Hg) as HT. destruct (lookup_lt_is_Some_2 (mask th) c) as [a Hm].
  { rewrite (to_len _ _ _ _ _ HT), <- Ec. apply (to_cid _ _ _ _ _ HT). }
  eapply wp_allowed; [done|]. destruct (_ || _ || negb a) eqn:E.
  - eapply wp_mono; [by eapply leave_step_spec|]. by intros [] s' [? _].
  - apply orb_false_iff in E as [[_ Hmk]%orb_false_iff _]. wp_steps. apply wp_assert; [by rewrite Hfk|]. wp_steps. eapply wp_upd_th; [done|]. wp_steps. exact (fake_inv s c _ th _ HI HE Hmk).
Qed.
(** ** Futexes and masks *)
Lemma futexes_inv h s f : GInv h s -> GInv h (set_futexes f s).
Proof. intros []. constructor; try done. intros g th Hg. destruct (gi_thr0 g th Hg). by constructor. Qed.

(** The thread's own bookkeeping: not queued and not about to hand off. *)
Definition settled (th : ThreadInfo) : Prop := state th <> QUEUED /\ handoffThread th = None.

Lemma futexJoin_inv s g th fj m :
  GInv no_holes s -> threads s !! g = Some th -> settled th ->
  GInv no_holes (set_threads (<[g := with_futexJoin fj m th]> (threads s)) s).
Proof.
  intros HI Hg [Hq Hho]. pose proof (gi_thr _ _ _ HI g th Hg) as HT. eapply (touch_inv numCores HNC); try done.
  - by left.
  - eapply (not_handed numCores); [done..|by left].
  - apply (to_word _ _ _ _ _ HT).
  - cbn. intros E. destruct (to_mark _ _ _ _ _ HT E) as (? & _ & ? & ? & ? & ?). done.
Qed.

Lemma notify_spec s pid tid th :
  GInv no_holes s -> threads s !! getGid pid tid = Some th -> settled th ->
  (forall n, fj_action (futexJoin th) = FJA_NONE -> wp (notifyFutexWakeStart pid tid n) (fun _ s' => GInv no_holes s') s) /\
  (forall n, wp (notifyFutexWakeEnd pid tid n) (fun _ s' => GInv no_holes s') s) /\
  wp (notifyFutexWaitWoken pid tid) (fun _ s' => GInv no_holes s') s.
Proof.
  intros HI Hg Hst. split; [|split].
  - intros n Ha. unfold notifyFutexWakeStart. wp_steps. eapply wp_lookup_gid; [done..|]. wp_steps. apply wp_assert; [by rewrite Ha|]. wp_steps.
    eapply wp_upd_th; [done|]. apply (futexJoin_inv (set_futexes _ s) _ th); [by apply futexes_inv|done..].
  - intros n. unfold notifyFutexWakeEnd. wp_steps. eapply wp_lookup_gid; [done..|]. eapply wp_upd_th; [done|]. by apply futexJoin_inv.
  - unfold notifyFutexWaitWoken. wp_steps. eapply wp_lookup_gid; [done..|]. eapply wp_upd_th; [done|]. by apply futexJoin_inv.
Qed.

(** The masks that a queued thread may be given: contexts that have a running thread, with
    the one it is to be handed. *)
Definition mask_fits s (g : Z) (th : ThreadInfo) (m : list bool) : Prop :=
  state th = QUEUED ->
  (g ∈ runQueue (queues s) -> forall c, m !! c = Some true -> running s c = true) /\
  (forall v vt, threads s !! v = Some vt -> handoffThread vt = Some g -> m !! cid vt = Some true).

Lemma with_mask_inv (W' : Remasked) s g th m :
  GInv no_holes s -> threads s !! g = Some th -> length m = numCores -> mask_fits s g th m ->
  (W : gset Z) ⊆ W' -> (onctx th -> g ∉ (W' : gset Z) -> m !! cid th = Some true) ->
  SchI.GInv (W := W') numCores no_holes (set_threads (<[g := with_mask m th]> (threads s)) s).
Proof.
  intros HI Hg Hm Hfit HW Hon. set (s' := set_threads _ s).
  assert (Hrun : forall c, running s' c = running s c) by (intros c; by apply (run_on_same _ _ _ th)).
  assert (Hh : forall x, handed (threads s') x <-> handed (threads s) x) by (intros x; by apply (handed_same _ _ th)).
  pose proof HI as []. constructor; try done.
  - intros x t Hx. cbn in Hx. lk.
    + destruct (gi_thr0 x th Hg). constructor; try done; cbn [handoffThread with_mask state mask cid fakeLeave]; [|by rewrite Hh].
      intros Ho. split; [by apply to_on0|]. by apply Hon.
    + destruct (gi_thr0 x t ltac:(done)). constructor; try done; try (by rewrite Hh).
      intros Ho. destruct (to_on0 Ho) as [? Hmk]. split; [done|]. intros Hx. apply Hmk. set_solver.
  - intros x Hx. cbn. destruct (decide (x = g)) as [->|]; [by rewrite lookup_insert_eq|]. rewrite lookup_insert_ne by done. by apply gi_dom0.
  - intros c x Hc. destruct (gi_ctx0 c x Hc) as [?|(y & t & -> & Ey & ? & ?)]; [by left|]. right. cbn.
    destruct (decide (y = g)) as [->|]; [exists g, (with_mask m th)|exists y, t; by rewrite lookup_insert_ne].
    rewrite lookup_insert_eq. rewrite Hg in Ey. by injection Ey as <-.
  - intros x. cbn. rewrite gi_gid0. destruct (decide (x = g)) as [->|]; [by rewrite lookup_insert_eq, Hg|by rewrite lookup_insert_ne].
  - apply (sorted_same _ _ th); [done..|]. apply gi_sorted0.
  - intros v vt x Hv Hx. cbn in Hv.
    assert (exists vt0, threads s !! v = Some vt0 /\ handoffThread vt0 = Some x /\ state vt0 = state vt /\ cid vt0 = cid vt) as (vt0 & Ev & Ex & Es & Ec).
    { lk; eauto. }
    destruct (gi_hand0 v vt0 x Ev Ex) as (? & ? & ? & gt & Egt & Eq & Emk). rewrite <- Es, <- Ec. do 3 (split; [done|]).
    destruct (decide (x = g)) as [->|]; [|exists gt; cbn; by rewrite lookup_insert_ne].
    rewrite Hg in Egt. injection Egt as <-. exists (with_mask m th). cbn. rewrite lookup_insert_eq. do 2 (split; [done|]). by apply (proj2 (Hfit Eq) v vt0).
  - intros v vt v' vt' x Hv Hv' Hx Hx'. cbn in Hv, Hv'. lk; [done|..]; eapply gi_hinj0; done.
  - intros x t c Hx Ex Hc. rewrite Hrun. cbn in Ex. lk; [|by eapply gi_work0].
    left. apply (to_run _ _ _ _ _ (gi_thr0 x th Hg)) in Hx as Hq. destruct Hq as [Hq _]. by apply (proj1 (Hfit Hq) Hx).
  - destruct gi_bar0 as [? Hb]. split; [done|]. intros c Hc. rewrite Hrun. by apply Hb.
  - intros c Hc. rewrite Hrun. by apply gi_core0.
Qed.

(** The threads that the new mask leaves on a context it does not allow. *)
Definition loses (th : ThreadInfo) (m : list bool) : bool :=
  bool_decide (onctx th) && negb (bool_decide (m !! cid th = Some true)).

Lemma updateMask_spec s pid tid th m :
  GInv no_holes s -> threads s !! getGid pid tid = Some th -> length m = numCores -> existsb id m = true -> mask_fits s (getGid pid tid) th m ->
  wp (updateMask numCores pid tid m) (fun _ s' =>
    SchI.GInv (W := (if loses th m then {[getGid pid tid]} ∪ (W : gset Z) else W)) numCores no_holes s') s.
Proof.
  intros HI Hg Hm He Hfit. unfold updateMask. wp_steps.
  rewrite bool_decide_eq_true_2 by (apply (gi_gid _ _ _ HI); by rewrite Hg). wp_steps. apply wp_assert; [by apply Nat.eqb_eq|]. wp_steps.
  apply wp_assert; [done|]. wp_steps. eapply wp_upd_th; [done|]. apply with_mask_inv; try done.
  - destruct (loses th m); [apply union_subseteq_r|done].
  - unfold loses. intros Ho Hn. rewrite bool_decide_eq_true_2 in Hn by done. cbn in Hn. case_bool_decide; [done|]. cbn in Hn. destruct Hn. by apply elem_of_union_l, elem_of_singleton.
Qed.

Lemma updateMask_unknown s pid tid m :
  GInv no_holes s -> threads s !! getGid pid tid = None -> updateMask numCores pid tid m s = Ok (tt, s).
Proof.
  intros HI Hg. unfold updateMask, mbind, M_bind, mget. rewrite bool_decide_eq_false_2; [done|]. rewrite (gi_gid _ _ _ HI), Hg. by intros [? ?].
Qed.

(** ** [join], with the futex that the thread waited on or woke *)
Abbreviation join := (join (B := B) randInt numCores schedQuantum phaseLength atSyncFunc procStats).
Abbreviation join_matched := (join_matched (B := B) randInt numCores schedQuantum phaseLength atSyncFunc procStats).
Definition comes_back (th : ThreadInfo) : Prop :=
  fakeLeave th <> None \/ state th = STARTED \/ state th = OUT \/ state th = BLOCKED \/ state th = SLEEPING.
Lemma comes_back_settled h s g th : GInv h s -> threads s !! g = Some th -> comes_back th -> settled th.
Proof.
  intros HI Hg HC. destruct HC as [Hf|Hs].
  - destruct (to_faked _ _ _ _ _ (gi_thr _ _ _ HI g th Hg) Hf) as (E & ? & _). split; congruence.
  - assert (state th <> RUNNING /\ state th <> QUEUED) as [? ?] by (destruct Hs as [->|[->|[->| ->]]]; done).
    split; [done|]. destruct (off_plain numCores _ _ _ _ HI Hg) as (_ & _ & ?); done.
Qed.

Lemma join_step_spec s pid tid th :
  GInv no_holes s -> threads s !! getGid pid tid = Some th -> comes_back th -> fj_action (futexJoin th) <> FJA_WAKE ->
  curPhase s + 1 < two64 ->
  wp (join pid tid) (fun _ s' => GInv no_holes s' /\ (Placed s' (getGid pid tid) (mask th) \/ onctx th /\ Kept s' (getGid pid tid) th)) s.
Proof.
  intros HI Hg HC Ha Hp. unfold Sch.join. wp_steps. eapply wp_lookup_gid; [done..|]. destruct (fj_action (futexJoin th)) eqn:E; [|done|].
  - by eapply join_body_spec.
  - unfold futexWaitJoin. wp_steps. eapply wp_get_th; [done|]. wp_steps. apply wp_assert; [by rewrite E|]. wp_steps.
    apply wp_mono with (Q := fun _ s' => exists f, s' = set_futexes f s).
    { destruct (_ <=? _); wp_steps; [exists (futexes s); by destruct s|by eexists]. }
    intros [] s1 (f & ->). wp_steps. eapply wp_upd_th; [done|].
    apply (join_body_spec numCores HNC randInt Hrand schedQuantum phaseLength atSyncFunc procStats Hsq _ _ _
      (futexJoin_inv (set_futexes f s) _ th _ _ (futexes_inv _ _ _ HI) Hg (comes_back_settled _ _ _ _ HI Hg HC)) (lookup_insert_eq _ _ _)); done.
Qed.

(** The wake's side, while the books of the futexes are right. *)
Lemma join_wake_spec s pid tid th :
  GInv no_holes s -> threads s !! getGid pid tid = Some th -> comes_back th -> fj_action (futexJoin th) = FJA_WAKE ->
  fj_wokenUp (futexJoin th) <= fj_maxWakes (futexJoin th) <= maxAllowedFutexWakeups (futexes s) ->
  unmatchedFutexWakeups (futexes s) <= u32 (maxAllowedFutexWakeups (futexes s) - (fj_maxWakes (futexJoin th) - fj_wokenUp (futexJoin th))) ->
  wp (join pid tid) (fun _ s' => GInv no_holes s') s.
Proof.
  intros HI Hg HC Ha Hm Hu. unfold Sch.join. wp_steps. eapply wp_lookup_gid; [done..|]. rewrite Ha. unfold futexWakeJoin_begin. wp_steps.
  eapply wp_get_th; [done|]. wp_steps. apply wp_assert; [by rewrite Ha|]. wp_steps. apply wp_assert; [apply Z.leb_le; lia|]. wp_steps.
  apply wp_assert; [apply Z.leb_le; lia|]. wp_steps. apply wp_assert; [by apply Z.leb_le|]. wp_steps. eapply wp_upd_th; [done|].
  apply (futexJoin_inv (set_futexes _ s) _ th _ _ (futexes_inv _ _ _ HI) Hg (comes_back_settled _ _ _ _ HI Hg HC)).
Qed.
Lemma join_matched_spec s pid tid th timeout :
  GInv no_holes s -> threads s !! getGid pid tid = Some th -> comes_back th -> curPhase s + 1 < two64 ->
  wp (join_matched pid tid timeout) (fun _ s' => GInv no_holes s') s.
Proof.
  intros HI Hg HC Hp. unfold Sch.join_matched, futexWakeJoin_end. wp_steps. eapply wp_get_th; [done|]. wp_steps.
  apply wp_mono with (Q := fun _ s' => exists f, s' = set_futexes f s).
  { destruct timeout; [|destruct (_ <=? _)]; wp_steps; eauto. exists (futexes s). by destruct s. }
  intros [] s1 (f & ->); [|wp_steps; by apply futexes_inv]. wp_steps. eapply wp_upd_th; [done|].
  eapply wp_mono; [apply (join_body_spec numCores HNC randInt Hrand schedQuantum phaseLength atSyncFunc procStats Hsq _ _ _
      (futexJoin_inv (set_futexes f s) _ th _ _ (futexes_inv _ _ _ HI) Hg (comes_back_settled _ _ _ _ HI Hg HC)) (lookup_insert_eq _ _ _)); done|].
  by intros [] s' [? _].
Qed.
(** ** The watchdog *)
Abbreviation callback := (callback (B := B) randInt numCores schedQuantum phaseLength atSyncFunc).
Abbreviation watchdog_loop := (watchdog_loop (B := B) randInt numCores schedQuantum phaseLength atSyncFunc).
Abbreviation watchdog_drive := (watchdog_drive (B := B) randInt numCores schedQuantum phaseLength atSyncFunc).

Lemma nused_count K : forall l, NoDup K -> (forall i, i ∈ K -> exists x, l !! i = Some x /\ c_state x = USED) -> (length K <= nused l)%nat.
Proof.
  induction K as [|i K IH]; intros l Hn HK; [cbn; lia|]. apply list.NoDup_cons in Hn as [Hi Hn].
  destruct (HK i ltac:(by left)) as (x & Ex & Hx). pose proof (nused_insert l i x idle Ex) as HN. rewrite (decide_True _ _ Hx) in HN.
  rewrite decide_False in HN by done. specialize (IH (<[i := idle]> l) Hn). cbn. enough (length K <= nused (<[i:=idle]> l))%nat by lia.
  apply IH. intros j Hj. rewrite list_lookup_insert_ne by (intros ->; done). apply HK. by right.
Qed.

(** Nobody runs. *)
Definition Idle s : Prop := forall g th, threads s !! g = Some th -> state th <> RUNNING.
Definition cidof (m : gmap Z ThreadInfo) (g : Z) : nat := if m !! g is Some th then cid th else 0%nat.

Lemma idle_Idle s : GInv no_holes s -> watchdog_idle s = true -> Idle s.
Proof.
  intros HI [Hn%Z.eqb_eq _]%andb_true_iff g th Hg Hs. rewrite (gi_cnt _ _ _ HI) in Hn.
  assert (Hout : forall x, x ∈ outQueue (queues s) -> exists t, threads s !! x = Some t /\ state t = OUT /\ contexts s !! cid t = Some (used x)).
  { intros x Hx. destruct (gi_dom _ _ _ HI x) as [t Et]; [tauto|]. exists t. pose proof (gi_thr _ _ _ HI x t Et) as HT.
    destruct (proj1 (to_out _ _ _ _ _ HT) Hx) as [E _]. split; [done|]. split; [done|]. apply (to_on _ _ _ _ _ HT). by right. }
  destruct (to_on _ _ _ _ _ (gi_thr _ _ _ HI g th Hg) ltac:(by left)) as [Hc _].
  pose proof (gi_nodup _ _ _ HI) as (_ & Hnd & _).
  assert (Hlen : (length (cid th :: map (cidof (threads s)) (outQueue (queues s))) <= nused (contexts s))%nat); [|cbn in Hlen; rewrite length_map in Hlen; lia].
  apply nused_count.
  - apply list.NoDup_cons. split.
    + intros (x & Ex & Hx)%list_elem_of_fmap. destruct (Hout x Hx) as (t & Et & Ho & Ec). unfold cidof in Ex. rewrite Et in Ex. rewrite <- Ex, Hc in Ec.
      injection Ec as <-. congruence.
    + clear Hn. revert Hnd Hout. induction (outQueue (queues s)) as [|x l IH]; intros Hnd Hout; [apply NoDup_nil_2|].
      apply list.NoDup_cons in Hnd as [Hx Hnd]. cbn. apply list.NoDup_cons. split; [|apply IH; [done|]; intros y Hy; apply Hout; by right].
      intros (y & Ey & Hy)%list_elem_of_fmap. destruct (Hout x ltac:(by left)) as (t & Et & _ & Ec). destruct (Hout y ltac:(by right)) as (t' & Et' & _ & Ec').
      unfold cidof in Ey. rewrite Et, Et' in Ey. rewrite Ey, Ec' in Ec. by injection Ec as ->.
  - intros i [->|(x & -> & Hx)%list_elem_of_fmap]%elem_of_cons; [by exists (used g)|]. destruct (Hout x Hx) as (t & Et & _ & Ec).
    unfold cidof. rewrite Et. by exists (used x).
Qed.

(** The sleepers that are due at the current phase are awake, the others asleep. *)
Definition on_time s (t : ThreadInfo) : Prop := state t = if curPhase s <? wakeupPhase t then SLEEPING else BLOCKED.
Definition Slept s s' : Prop := forall g t, threads s !! g = Some t -> on_time s t ->
  exists t', threads s' !! g = Some t' /\ wakeupPhase t' = wakeupPhase t /\ on_time s' t'.

Lemma idle_callback_spec s :
  GInv no_holes s -> Idle s -> curPhase s + 1 < two64 ->
  wp callback (fun _ s' => GInv no_holes s' /\ Idle s' /\ curPhase s' = curPhase s + 1 /\ Slept s s') s.
Proof.
  intros HI Hid Hp. eapply wp_mono; [apply (callback_spec numCores HNC randInt Hrand _ _ _ s HI); try done|].
  - intros g th Hg. eapply (off_plain numCores); [done..|]. by eapply Hid.
  - intros c Hr. destruct (gi_running _ _ _ _ HI Hr) as (g & th & _ & Hg & _ & Hs). by destruct (Hid g th Hg).
  - intros [] s' (HI' & _ & Ep & E).
    assert (Hth : forall g t, threads s !! g = Some t -> exists t', threads s' !! g = Some t' /\
      state t' = state (woken (curPhase s + 1) t) /\ wakeupPhase t' = wakeupPhase t).
    { intros g t Hg. specialize (E g). rewrite Hg in E. cbn in E. destruct (threads s' !! g) as [t'|]; [|done]. cbn in E. exists t'.
      split; [done|]. injection E. intros. split; [done|]. unfold woken in *. destruct (_ && _); cbn in *; done. }
    split; [done|]. split; [|split; [done|]].
    + intros g t' Hg'. destruct (threads s !! g) as [t|] eqn:Hg.
      * destruct (Hth g t Hg) as (t1 & E1 & E2 & _). rewrite Hg' in E1. injection E1 as <-. rewrite E2. specialize (Hid g t Hg).
        unfold woken. by destruct (_ && _).
      * specialize (E g). by rewrite Hg, Hg' in E.
    + intros g t Hg Ht. destruct (Hth g t Hg) as (t' & E1 & E2 & E3). exists t'. split; [done|]. split; [done|].
      unfold on_time in *. rewrite E2, E3, Ep. unfold woken.
      destruct (Z.ltb_spec (curPhase s) (wakeupPhase t)) as [Hl|Hl], (Z.ltb_spec (curPhase s + 1) (wakeupPhase t)), (Z.eqb_spec (wakeupPhase t) (curPhase s + 1));
        try lia; rewrite Ht; cbn; done.
Qed.

(** The phase [p'] at which the loop ends that starts in phase [p] and waits for [w]: it runs at least
    one phase if [w] is ahead, goes on while [stop] is false after a phase, and ends at [w] or
    after the first phase at which [stop] is true. *)
Definition Driven (stop : nat -> bool) (fuel : nat) (p w p' : Z) : Prop :=
  exists k : nat, p' = p + Z.of_nat k /\ p' <= Z.max p w /\ (forall j, (0 < j < k)%nat -> stop (fuel - j)%nat = false) /\
    (p' = Z.max p w \/ (0 < k)%nat /\ stop (fuel - k)%nat = true).

Lemma driven_here stop fuel p w : w <= p -> Driven stop fuel p w p.
Proof. intros Hw. exists 0%nat. split; [lia|]. split; [lia|]. split; [lia|]. left. lia. Qed.
Lemma driven_stop stop fuel p w : p < w -> stop fuel = true -> Driven stop (S fuel) p w (p + 1).
Proof. intros Hw Hs. exists 1%nat. split; [lia|]. split; [lia|]. split; [lia|]. right. split; [lia|]. by rewrite Nat.sub_succ, Nat.sub_0_r. Qed.
Lemma driven_next stop fuel p w p' : p < w -> stop fuel = false -> Driven stop fuel (p + 1) w p' -> Driven stop (S fuel) p w p'.
Proof.
  intros Hw Hs (k & -> & Hle & Hj & Hend). exists (S k). split; [lia|]. split; [lia|]. split.
  - intros j Hjk. destruct (decide (j = 1)%nat) as [->|]; [by rewrite Nat.sub_succ, Nat.sub_0_r|].
    replace (S fuel - j)%nat with (fuel - (j - 1))%nat by lia. apply Hj. lia.
  - destruct Hend as [He|[Hk He]]; [left; lia|right]. split; [lia|]. by rewrite Nat.sub_succ.
Qed.

Lemma watchdog_loop_spec stop sth fuel : forall s th,
  GInv no_holes s -> Idle s -> threads s !! sth = Some th -> on_time s th -> wakeupPhase th < two64 ->
  wakeupPhase th - curPhase s <= Z.of_nat fuel ->
  wp (watchdog_loop fuel stop sth) (fun _ s' => GInv no_holes s' /\ Slept s s' /\
    Driven stop fuel (curPhase s) (wakeupPhase th) (curPhase s')) s.
Proof.
  assert (Hrefl : forall s, Slept s s) by (intros s g t ? ?; eauto).
  induction fuel as [|fuel IH]; intros s th HI Hid Hg Ht Hw Hf; cbn [Sch.watchdog_loop]; apply wp_bind; (eapply wp_get_th; [done|]);
    (case_bool_decide as Hs; [|wp_steps; split; [done|]; split; [done|]; apply driven_here; unfold on_time in Ht; destruct (Z.ltb_spec (curPhase s) (wakeupPhase th)); [congruence|lia]]).
  - unfold on_time in Ht. destruct (Z.ltb_spec (curPhase s) (wakeupPhase th)); [lia|congruence].
  - assert (Hlt : curPhase s < wakeupPhase th) by (unfold on_time in Ht; destruct (Z.ltb_spec (curPhase s) (wakeupPhase th)); [done|congruence]).
    apply wp_bind. eapply wp_mono; [by apply inc_spec|]. intros [] s1 (HI1 & st & ->).
    apply wp_bind. eapply wp_mono; [apply (idle_callback_spec _ HI1 Hid); cbn; lia|]. intros [] s2 (HI2 & Hid2 & Ep & HS). cbn in Ep.
    destruct (HS sth th Hg Ht) as (th2 & Hg2 & Ew & Ht2).
    destruct (stop fuel) eqn:Est.
    + wp_steps. split; [done|]. split; [done|]. rewrite Ep. by apply driven_stop.
    + eapply wp_mono; [apply (IH s2 th2 HI2 Hid2 Hg2 Ht2); lia|]. intros [] s3 (HI3 & HS3 & Hend). split; [done|]. split.
      { intros g t Eg Hgt. destruct (HS g t Eg Hgt) as (t1 & E1 & W1 & H1). destruct (HS3 g t1 E1 H1) as (t2 & E2 & W2 & H2). exists t2. split; [done|]. split; [congruence|done]. }
      rewrite Ew, Ep in Hend. by apply driven_next.
Qed.

Lemma on_time_inv s g th : GInv no_holes s -> threads s !! g = Some th -> state th = SLEEPING -> on_time s th.
Proof.
  intros HI Hg Hs. unfold on_time. pose proof (to_wake _ _ _ _ _ (gi_thr _ _ _ HI g th Hg) Hs). by destruct (Z.ltb_spec (curPhase s) (wakeupPhase th)); [|lia].
Qed.

(** The phases until the first sleeper is due. *)
Definition idle_phases s : nat := if head (sleepQueue (queues s)) is Some g then Z.to_nat (wk (threads s) g - curPhase s) else 0%nat.

Lemma watchdog_drive_spec s stop fuel :
  GInv no_holes s -> (idle_phases s <= fuel)%nat -> (forall g, head (sleepQueue (queues s)) = Some g -> wk (threads s) g < two64) ->
  wp (watchdog_drive fuel stop) (fun _ s' => GInv no_holes s' /\ Slept s s' /\
    (watchdog_idle s = true -> forall g, head (sleepQueue (queues s)) = Some g -> Driven stop fuel (curPhase s) (wk (threads s) g) (curPhase s'))) s.
Proof.
  intros HI Hf Hw. unfold Sch.watchdog_drive. apply wp_bind, wp_get. destruct (watchdog_idle s) eqn:Hid; [|wp_steps; split; [done|]; split; [intros g t ? ?; eauto|done]].
  unfold idle_phases in Hf. pose proof Hid as [_ Hne]%andb_true_iff. apply negb_true_iff, bool_decide_eq_false in Hne.
  destruct (sleepQueue (queues s)) as [|g rest] eqn:Eq; [done|]. cbn [head] in *. apply wp_bind, wp_lift. cbn [from_opt rwp].
  destruct (gi_dom _ _ _ HI g) as [th Hg]; [rewrite Eq; right; right; left; by left|]. pose proof (gi_thr _ _ _ HI g th Hg) as HT.
  assert (Hs : state th = SLEEPING) by (apply (to_sleep _ _ _ _ _ HT); rewrite Eq; by left). pose proof (to_wake _ _ _ _ _ HT Hs) as Hlt.
  specialize (Hw g eq_refl). unfold wk in *. rewrite Hg in Hw, Hf.
  apply wp_bind. eapply wp_mono; [apply (watchdog_loop_spec stop g fuel s th HI); [by apply idle_Idle|done|by eapply on_time_inv|done|lia]|].
  intros [] s1 (HI1 & HS & Hend). eapply wp_mono; [by apply inc_spec|]. intros [] s2 (HI2 & st & ->). split; [done|]. split; [done|].
  intros _ g' [= <-]. by rewrite Hg.
Qed.
(** ** Stalls in fake leaves *)

(** What [leave] does not touch. *)
Definition keeps {A} (m : M St A) : Prop := forall s a s', m s = Ok (a, s') -> fakeLeaves s' = fakeLeaves s.
Lemma keepsfl_ret {A} (a : A) : keeps (mret a).
Proof. by intros s x s' [= <- <-]. Qed.
Lemma keepsfl_bind {A C} (m : M St A) (k : A -> M St C) : keeps m -> (forall a, keeps (k a)) -> keeps (m ≫= k).
Proof.
  intros Hm Hk s a s' E. unfold mbind, M_bind in E. destruct (m s) as [[x s1]|] eqn:Em; [|done].
  rewrite (Hk x s1 a s' E). by eapply Hm.
Qed.
Lemma keepsfl_get : keeps mget.
Proof. by intros s x s' [= <- <-]. Qed.
Lemma keepsfl_modify f : (forall s, fakeLeaves (f s) = fakeLeaves s) -> keeps (mmodify f).
Proof. intros Hf s x s' [= <- <-]. apply Hf. Qed.
Lemma keepsfl_lift {A} (r : res A) : keeps (mlift r).
Proof. intros s x s'. unfold mlift. destruct r; [|done]. by intros [= <- <-]. Qed.
Lemma keepsfl_assert b msg : keeps (massert b msg).
Proof. intros s x s'. unfold massert. destruct b; [|done]. by intros [= <- <-]. Qed.
Lemma keeps_fail {A} f : keeps (fun _ : St => Err f : res (A * St)).
Proof. done. Qed.
Lemma keeps_nofuel {A} : keeps (nofuel (A := A)).
Proof. done. Qed.
Hint Resolve keepsfl_ret keepsfl_get keepsfl_lift keepsfl_assert keeps_fail keeps_nofuel : keeps.
Ltac keeps := repeat first [progress (auto with keeps) | apply keepsfl_bind; [|intros] | apply keepsfl_modify; done | case_match | intros].

Lemma keeps_get_th g : keeps (get_th g).
Proof. unfold get_th. keeps. Qed.
Hint Resolve keeps_get_th : keeps.
Lemma keeps_upd_th g f : keeps (upd_th g f).
Proof. unfold upd_th. keeps. Qed.
Lemma keeps_get_ctx c : keeps (get_ctx c).
Proof. unfold get_ctx. keeps. Qed.
Lemma keeps_put_ctx c x : keeps (put_ctx c x).
Proof. unfold put_ctx. keeps. Qed.
Lemma keeps_inc k : keeps (inc k).
Proof. unfold inc. keeps. Qed.
Lemma keeps_call k : keeps (call k).
Proof. unfold call. keeps. Qed.
Lemma keeps_allowed th c : keeps (allowed th c).
Proof. unfold allowed. keeps. Qed.
Hint Resolve keeps_upd_th keeps_get_ctx keeps_put_ctx keeps_inc keeps_call keeps_allowed : keeps.
Lemma keeps_mfind {A} (p : A -> M St bool) l : (forall x, keeps (p x)) -> keeps (mfind p l).
Proof. intros Hp. induction l as [|x l IH]; cbn [mfind]; keeps. Qed.
Lemma keeps_schedule g c : keeps (schedule g c).
Proof. unfold schedule. keeps. Qed.
Lemma keeps_deschedule g c st : keeps (deschedule procStats g c st).
Proof. unfold deschedule. keeps. Qed.
Lemma keeps_wakeup g nj : keeps (wakeup g nj).
Proof. unfold wakeup. keeps. Qed.
Lemma keeps_runQueue_remove g : keeps (runQueue_remove g).
Proof. unfold runQueue_remove. keeps. Qed.
Hint Resolve keeps_schedule keeps_deschedule keeps_wakeup keeps_runQueue_remove : keeps.
Lemma keeps_schedContext c : keeps (schedContext c).
Proof. unfold schedContext. keeps. apply keeps_mfind. intros. keeps. Qed.
Lemma keeps_hand_over g c : keeps (hand_over g c).
Proof. unfold hand_over. keeps. Qed.
Lemma keeps_sleep_after g w : forall rest cur, keeps (sleep_after g w cur rest).
Proof. induction rest as [|n rest IH]; intros cur; cbn [sleep_after]; keeps. Qed.
Lemma keeps_sleepQueue_insert g : keeps (sleepQueue_insert g).
Proof. unfold sleepQueue_insert. keeps. apply keeps_sleep_after. Qed.
Lemma keeps_freeList_push_back c : keeps (freeList_push_back c).
Proof. unfold freeList_push_back. keeps. Qed.
Lemma keeps_outQueue_push_back c : keeps (outQueue_push_back c).
Proof. unfold outQueue_push_back. keeps. Qed.
Lemma keeps_wake_sleepers fuel : keeps (wake_sleepers fuel).
Proof. induction fuel as [|fuel IH]; cbn [wake_sleepers]; keeps. Qed.
Lemma keeps_shuffle i : forall v, keeps (shuffle randInt i v).
Proof. induction i as [|i IH]; intros v; cbn [shuffle]; keeps. Qed.
Lemma keeps_tick_loop q : forall av, keeps (tick_loop q av).
Proof. induction q as [|g q IH]; intros av; cbn [tick_loop]; keeps. apply keeps_mfind. intros. keeps. Qed.
Lemma keeps_printState l : keeps (printState l).
Proof. induction l as [|x l IH]; cbn [printState]; keeps. Qed.
Hint Resolve keeps_schedContext keeps_hand_over keeps_sleepQueue_insert keeps_freeList_push_back keeps_outQueue_push_back
  keeps_wake_sleepers keeps_shuffle keeps_tick_loop keeps_printState : keeps.
Lemma keeps_callback : keeps callback.
Proof. unfold Sch.callback, phase_stats, schedTick, mfail. keeps. Qed.
Lemma keeps_on_bar op : keeps (on_bar randInt numCores schedQuantum phaseLength atSyncFunc op).
Proof.
  intros s a s'. unfold on_bar. destruct (op (bar s)) as [[x b]|]; [|done]. destruct (_ =? _); [by intros [= <- <-]|].
  intros E. by apply keeps_callback in E.
Qed.
Hint Resolve keeps_on_bar : keeps.
Lemma keeps_leave pid tid c : keeps (leave randInt numCores schedQuantum phaseLength atSyncFunc procStats pid tid c).
Proof. unfold leave. keeps. Qed.
(** The threads in a fake leave belong to process [pid] and their gids are packed. *)
Definition fakes_of (pid : Z) (l : list Z) : Prop := Forall (fun g => getPid g = pid /\ getGid pid (getTid g) = g) l.
Abbreviation stall_loop := (stall_loop (B := B) randInt numCores schedQuantum phaseLength atSyncFunc procStats).
Abbreviation watchdog_stall := (watchdog_stall (B := B) randInt numCores schedQuantum phaseLength atSyncFunc procStats).

Lemma length_remove_first {A} `{EqDecision A} (x : A) l : x ∈ l -> S (length (remove_first x l)) = length l.
Proof. induction l as [|y l IH]; intros Hx; [by apply not_elem_of_nil in Hx|]. cbn. case_decide; [done|]. cbn. rewrite IH; [done|]. set_solver. Qed.

Lemma stall_loop_spec pid pc fuel : forall s g th,
  GInv no_holes s -> threads s !! g = Some th -> g ∈ fakeLeaves s -> fakes_of pid (fakeLeaves s) ->
  (length (fakeLeaves s) <= fuel)%nat -> curPhase s + Z.of_nat fuel < two64 ->
  wp (stall_loop fuel pid pc g (getTid g) (cid th)) (fun _ s' => GInv no_holes s') s.
Proof.
  induction fuel as [|fuel IH]; intros s g th HI Hg Hin HF Hlen Hp; cbn [Sch.stall_loop].
  { destruct (fakeLeaves s); [by apply not_elem_of_nil in Hin|cbn in Hlen; lia]. }
  pose proof (gi_thr _ _ _ HI g th Hg) as HT. pose proof (proj1 (to_fake _ _ _ _ _ HT) Hin) as Hfk.
  destruct (to_faked _ _ _ _ _ HT Hfk) as (Hs & Hho & Hb). destruct (to_on _ _ _ _ _ HT ltac:(by left)) as [Hc _].
  apply wp_bind. eapply wp_mono; [by apply (finishFakeLeave_spec numCores HNC s g th HI)|].
  intros [] s1 (HI1 & Et & Ex & Eb & Ep & Ef). pose proof (length_remove_first g _ Hin) as Hl. rewrite <- Ef in Hl.
  pose proof (gi_nodup _ _ _ HI) as (_ & _ & _ & _ & Hnd).
  assert (HE : executing s1 (cid th) g (with_fakeLeave None th)).
  { split; [by rewrite Ex|]. split; [by rewrite Et, lookup_insert_eq|]. split; [done|]. split; [done|]. split; [by rewrite Eb|]. done. }
  pose proof HF as HF'. unfold fakes_of in HF'. rewrite list.Forall_forall in HF'. destruct (HF' g Hin) as [Epid Egid]. clear HF'.
  assert (HL := leave_step_spec numCores HNC randInt Hrand schedQuantum phaseLength atSyncFunc procStats Hsq s1 pid (getTid g) (cid th) g _ HI1 HE (eq_sym Egid) ltac:(lia)).
  apply wp_bind. unfold wp in HL |- *. destruct (Sch.leave _ _ _ _ _ _ pid (getTid g) (cid th) s1) as [[[] s2]|] eqn:El; [|done].
  destruct HL as (HI2 & Hph & _). apply keeps_leave in El.
  change (wp (mget ≫= fun s : St => match fakeLeaves s with
    | [] => mret tt
    | g' :: _ => th' ← get_th g'; fl ← mlift (from_opt (fakeLeave th') "null fake leave");
        if negb (getPid g =? pid) || negb (fl_pc fl =? pc) then mret tt
        else if (8 <? length (fakeLeaves s))%nat then stall_loop fuel pid pc g' (getTid g') (cid th') else mret tt
    end) (fun _ s' => GInv no_holes s') s2).
  assert (HF2 : fakes_of pid (fakeLeaves s2)).
  { apply list.Forall_forall. rewrite El, Ef. intros x [Hx _]%remove_first_elem; [|done]. eapply list.Forall_forall in HF; [|exact Hx]. done. }
  apply wp_bind, wp_get. destruct (fakeLeaves s2) as [|g' rest] eqn:E2; [by apply wp_ret|].
  destruct (gi_dom _ _ _ HI2 g') as [th' Hg']; [rewrite E2; right; right; right; by left|].
  assert (Hin' : g' ∈ fakeLeaves s2) by (rewrite E2; by left).
  pose proof (proj1 (to_fake _ _ _ _ _ (gi_thr _ _ _ HI2 g' th' Hg')) Hin') as Hfk'.
  apply wp_bind. eapply wp_get_th; [done|]. apply wp_bind, wp_lift. destruct (fakeLeave th') as [fl|]; [|done]. cbn [from_opt rwp].
  destruct (_ || _); [by apply wp_ret|]. destruct (_ <? _)%nat; [|by apply wp_ret].
  apply IH; rewrite ?E2; try done; [rewrite E2 in Hin'; done|..]; [rewrite <- El in Hl; cbn in *; lia|lia].
Qed.

Lemma blocking_inv h s x : GInv h s -> GInv h (set_blockingSyscalls x s).
Proof. intros []. constructor; try done. intros g th Hg. destruct (gi_thr0 g th Hg). by constructor. Qed.

Lemma watchdog_stall_spec s (matches : Z -> FakeLeaveInfo -> bool) :
  GInv no_holes s -> (forall g, head (fakeLeaves s) = Some g -> fakes_of (getPid g) (fakeLeaves s)) ->
  curPhase s + Z.of_nat (length (fakeLeaves s)) < two64 ->
  wp (watchdog_stall matches) (fun _ s' => GInv no_holes s') s.
Proof.
  intros HI HF Hp. unfold Sch.watchdog_stall. apply wp_bind, wp_get. destruct (fakeLeaves s) as [|g rest] eqn:E; [by apply wp_ret|].
  destruct (gi_dom _ _ _ HI g) as [th Hg]; [rewrite E; right; right; right; by left|].
  assert (Hin : g ∈ fakeLeaves s) by (rewrite E; by left). pose proof (proj1 (to_fake _ _ _ _ _ (gi_thr _ _ _ HI g th Hg)) Hin) as Hfk.
  apply wp_bind. eapply wp_get_th; [done|]. case_bool_decide; [by apply wp_ret|]. apply wp_bind, wp_lift. destruct (fakeLeave th) as [fl|]; [|done].
  cbn [from_opt rwp]. destruct (matches _ _); [|by apply wp_ret]. specialize (HF g eq_refl). rewrite <- E in *. apply wp_bind. case_decide.
  - apply wp_modify. apply stall_loop_spec; try done. by apply blocking_inv.
  - apply wp_ret. by apply stall_loop_spec.
Qed.
End Steps.
End SchT.
