(* ===== verification/SchedulerBar.v ===== *)
(** * The phase barrier behind the scheduler's interface

    The barrier of barrier.h satisfies the laws that the scheduler relies on. *)

From S2P Require Import Prelude Bithacks Barrier Scheduler SchedulerInv.

Module SchB.
Import Bar.

Section Laws.
Context {R : Type} (randInt : R -> nat -> nat * R).
Hypothesis Hrand : forall r n, (fst (randInt r n) <= n)%nat.
Implicit Types b : t R.

#[local] Instance BarOps : BarrierOps (t R) :=
  {| bar_join := join randInt; bar_leave := leave randInt; bar_sync := sync randInt; bar_phases := phases |}.

Definition inside b (z : nat) : bool := bool_decide (st b z = RUNNING) || bool_decide (st b z = WAITING).
Definition runs b (z : nat) : bool := bool_decide (st b z = RUNNING).

Lemma Woken_inside b b' z : Woken b b' -> inside b' z = inside b z.
Proof.
  intros HW. unfold inside. destruct (wk_st _ _ HW z) as [->|(-> & -> & _)]; done.
Qed.
Lemma Woken_arrived_back b b' z : Woken b b' -> arrived b' z -> arrived b z.
Proof.
  intros HW [Hs (k & Hk & Hl)]. rewrite (Woken_live _ _ HW) in Hl.
  assert (Hw : st b z = WAITING) by (destruct (wk_st _ _ HW z) as [<-|(_ & ? & _)]; congruence).
  split; [done|]. exists k. split; [|done]. destruct (decide (k < curThreadIdx b)%nat) as [|Hge]; [done|].
  by destruct (wk_passed _ _ HW k z ltac:(lia) Hl).
Qed.
Lemma PhaseEnd_inside b b' z : PhaseEnd b b' -> inside b' z = inside b z.
Proof. intros HP. unfold inside. destruct (pe_st _ _ HP z) as [->|(-> & ->)]; done. Qed.
Lemma PhaseEnd_arrived b b' z : PhaseEnd b b' -> ~ arrived b' z.
Proof. intros HP [_ (k & Hk & _)]. rewrite (pe_cur _ _ HP) in Hk. lia. Qed.

Lemma Wakes_inside b b' z : Wakes b b' -> inside b' z = inside b z.
Proof.
  intros [HW|b1 b2 _ HW HP HW']; [by apply Woken_inside|].
  by rewrite (Woken_inside _ _ z HW'), (PhaseEnd_inside _ _ z HP), (Woken_inside _ _ z HW).
Qed.

Lemma step_others z b b0 b' : Prep z b b0 -> Wakes b0 b' -> Others phases inside runs arrived z b b'.
Proof.
  intros HP HW. pose proof (pr_inv _ _ _ HP) as H0. split.
  { intros y Hy. rewrite (Wakes_inside _ _ y HW). unfold inside. by rewrite (pr_st _ _ _ HP y Hy). }
  rewrite <- (pr_phases _ _ _ HP). destruct (Wakes_phase _ _ HW) as [[-> HW']|[-> (b1 & b2 & H1 & HW1 & HPE & HW2)]]; [left|right]; (split; [done|]); split.
  - intros y Hy Hr%bool_decide_eq_true. apply bool_decide_eq_true. rewrite <- (pr_st _ _ _ HP y Hy) in Hr.
    destruct (wk_st _ _ HW' y) as [->|(_ & ? & _)]; done.
  - intros y Hy Ha. apply (pr_arrived _ _ _ HP y Hy). by eapply Woken_arrived_back.
  - intros y Hy Hi. apply (pr_arrived _ _ _ HP y Hy).
    destruct (phase_end_all b0 b1 b2 y H0 H1 HW1 HPE) as [Hs|[Hs|Ha]]; [..|done];
      rewrite (pr_st _ _ _ HP y Hy) in Hs; unfold inside in Hi; by rewrite Hs in Hi.
  - intros y Ha. eapply PhaseEnd_arrived; [exact HPE|]. by eapply Woken_arrived_back.
Qed.

Lemma bar_step o b : BInv b -> Settled b -> op_ready o b = true ->
  exists b', step randInt o b = Ok (tt, b') /\ (BInv b' /\ Settled b') /\ Others phases inside runs arrived (op_tid o) b b' /\
    match o with
    | OJoin z => inside b' z = true /\ ~ arrived b' z /\ phases b' = phases b
    | OLeave z => inside b' z = false
    | OSync z => inside b' z = true
    end.
Proof.
  intros HB HS Hr. destruct (wp_elim _ _ _ (step_spec randInt Hrand o b HB HS Hr)) as ([] & b' & E & HB' & HS' & b0 & HP & HW & Hx).
  exists b'. split; [done|]. split; [done|]. split; [by eapply step_others|]. destruct o as [z|z|z].
  - rewrite (Wakes_inside _ _ z HW). unfold inside. destruct Hx as [Hw (k & Hk & Hl)]. rewrite Hw. split; [done|].
    pose proof (pr_inv _ _ _ HP) as H0. rewrite <- (pr_phases _ _ _ HP).
    destruct (Wakes_phase _ _ HW) as [[Ep HW']|[_ (b1 & b2 & H1 & HW1 & HPE & _)]]; [split; [|done]|].
    + intros Ha%(Woken_arrived_back b0 b' z HW'). destruct Ha as [_ (k' & Hk' & Hl')]. pose proof (live_inj b0 _ _ z H0 Hl Hl'). lia.
    + exfalso. eapply (pending_no_end b0 b1 b2 z); try done. split; [done|]. by exists k.
  - rewrite (Wakes_inside _ _ z HW). unfold inside. by rewrite Hx.
  - rewrite (Wakes_inside _ _ z HW). unfold inside. destruct Hx as [-> _]. done.
Qed.

Lemma runs_inside b z : runs b z = true -> inside b z = true.
Proof. unfold runs, inside. by intros ->. Qed.
Lemma runs_arrived b z : runs b z = true -> ~ arrived b z.
Proof. intros Hr%bool_decide_eq_true [? _]. congruence. Qed.
Lemma outside_ready b z : (z < MAX_THREADS)%nat -> inside b z = false -> op_ready (OJoin z) b = true.
Proof.
  intros Hz Hi. unfold op_ready. rewrite (proj2 (Nat.ltb_lt _ _) Hz), andb_true_l. unfold inside in Hi. by destruct (st b z).
Qed.

#[local] Instance BarLaws : BarrierLaws (t R).
Proof.
  refine {| bar_ok b := BInv b /\ Settled b; bar_in := inside; bar_runs := runs; bar_arrived := arrived;
            bar_runs_in := runs_inside; bar_runs_arrived := runs_arrived |}.
  - intros b z [HB HS] Hz Hi. destruct (bar_step (OJoin z) b HB HS (outside_ready b z Hz Hi)) as (b' & E & Hok & Ho & ? & ? & ?).
    by exists b'.
  - intros b z [HB HS] Hr. destruct (bar_step (OLeave z) b HB HS) as (b' & E & Hok & Ho & ?); [cbn; unfold runs in Hr; by rewrite Hr|].
    by exists b'.
  - intros b z [HB HS] Hr. destruct (bar_step (OSync z) b HB HS) as (b' & E & Hok & Ho & ?); [done|]. by exists b'.
Defined.
End Laws.
End SchB.
