(* ===== verification/SchedulerThms.v ===== *)
(** * The scheduler's contract

    The operations of the scheduler over the phase barrier, as steps that the threads
    and the watchdog take one lock section at a time and in any order, and what every
    state that such a sequence reaches satisfies. *)

From Stdlib Require Import Sorted.
From S2P Require Import Prelude Bithacks Barrier Scheduler SchedulerInv SchedulerPrim SchedulerPhase SchedulerOps SchedulerSteps SchedulerBar.

Module SchM.
Import Sch SchI SchO SchT.

Inductive Op :=
| OStart (pid tid lpid ltid : Z) (m : list bool)
| OFinish (pid tid : Z)
| OJoin (pid tid : Z)
| OJoinMatched (pid tid : Z) (timeout : bool)
| OLeave (pid tid : Z) (c : nat)
| OSync (c : nat)
| OHandoff (g : Z)
| OMarkForSleep (pid tid wakeup : Z)
| OSleepEnd (pid tid : Z)
| OSyscallLeave (pid tid : Z) (c : nat) (pc nr a0 a1 : Z)
| OFutexWakeStart (pid tid maxWakes : Z)
| OFutexWakeEnd (pid tid wokenUp : Z)
| OFutexWaitWoken (pid tid : Z)
| OUpdateMask (pid tid : Z) (m : list bool)
| OWatchdogDrive (stop : nat -> bool)
| OWatchdogStall (matches : Z -> FakeLeaveInfo -> bool).

Section Sys.
Context {RB RS : Type} (randB : RB -> nat -> nat * RB) (randS : RS -> nat -> nat * RS).
Variables (numCores : nat) (schedQuantum phaseLength : Z) (atSyncFunc procStats : bool).
#[local] Instance ops : BarrierOps (Bar.t RB) := SchB.BarOps randB.
Abbreviation St := (Sched (Bar.t RB) RS).
Implicit Type s : St.

Definition exec (o : Op) : M St unit :=
  match o with
  | OStart pid tid lpid ltid m => start numCores pid tid lpid ltid m
  | OFinish pid tid => finish randS numCores schedQuantum phaseLength atSyncFunc procStats pid tid
  | OJoin pid tid => join randS numCores schedQuantum phaseLength atSyncFunc procStats pid tid
  | OJoinMatched pid tid timeout => join_matched randS numCores schedQuantum phaseLength atSyncFunc procStats pid tid timeout
  | OLeave pid tid c => leave randS numCores schedQuantum phaseLength atSyncFunc procStats pid tid c
  | OSync c => sync randS numCores schedQuantum phaseLength atSyncFunc c
  | OHandoff g => sync_handoff randS numCores schedQuantum phaseLength atSyncFunc procStats g
  | OMarkForSleep pid tid w => markForSleep pid tid w
  | OSleepEnd pid tid => notifySleepEnd pid tid
  | OSyscallLeave pid tid c pc nr a0 a1 =>
    syscallLeave randS numCores schedQuantum phaseLength atSyncFunc procStats pid tid c pc nr a0 a1
  | OFutexWakeStart pid tid n => notifyFutexWakeStart pid tid n
  | OFutexWakeEnd pid tid n => notifyFutexWakeEnd pid tid n
  | OFutexWaitWoken pid tid => notifyFutexWaitWoken pid tid
  | OUpdateMask pid tid m => updateMask numCores pid tid m
  | OWatchdogDrive stop => fun s => watchdog_drive randS numCores schedQuantum phaseLength atSyncFunc (idle_phases s) stop s
  | OWatchdogStall matches => watchdog_stall randS numCores schedQuantum phaseLength atSyncFunc procStats matches
  end.

(** ** When a step may be taken *)
Definition with_thread s (g : Z) (f : ThreadInfo -> bool) : bool := if threads s !! g is Some th then f th else false.
Definition is_state (l : list ThreadState) (th : ThreadInfo) : bool := bool_decide (state th ∈ l).

(** Thread [g] executes on core [c]: it runs, the barrier lets it run, and it is neither
    in a fake leave nor told to hand off its context. *)
Definition executing_b s (c : nat) (g : Z) (th : ThreadInfo) : bool :=
  match contexts s !! c with
  | Some x => bool_decide (c_state x = USED) && bool_decide (curThread x = Some g) && is_state [RUNNING] th && (cid th =? c)%nat &&
              SchB.runs (bar s) c && bool_decide (fakeLeave th = None) && bool_decide (handoffThread th = None)
  | None => false
  end.
Definition settled_b (th : ThreadInfo) : bool := negb (is_state [QUEUED] th) && bool_decide (handoffThread th = None).
Definition comes_back_b (th : ThreadInfo) : bool :=
  negb (bool_decide (fakeLeave th = None)) || is_state [STARTED; OUT; BLOCKED; SLEEPING] th.

(** A waker's join: the books of the futexes cover it. *)
Definition wake_ok (f : Futexes) (th : ThreadInfo) : bool :=
  let j := futexJoin th in
  (fj_wokenUp j <=? fj_maxWakes j) && (fj_maxWakes j <=? maxAllowedFutexWakeups f) &&
  (unmatchedFutexWakeups f <=? u32 (maxAllowedFutexWakeups f - (fj_maxWakes j - fj_wokenUp j))).

(** A new mask for a thread that is not queued may be any.  One for a queued thread may allow only
    contexts that have a running thread, and keeps the context that the thread is to be handed. *)
Definition mask_fits_b s (g : Z) (th : ThreadInfo) (m : list bool) : bool :=
  negb (is_state [QUEUED] th) ||
  (negb (bool_decide (g ∈ runQueue (queues s))) || forallb (fun c => negb (bool_decide (m !! c = Some true)) || running s c) (seq 0 (length m))) &&
  bool_decide (map_Forall (fun _ vt => handoffThread vt = Some g -> m !! cid vt = Some true) (threads s)).

Definition op_ready (o : Op) s : bool :=
  (curPhase s + Z.of_nat (length (fakeLeaves s)) + 1 <? two64) &&
  match o with
  | OStart pid tid _ _ m => negb (bool_decide (getGid pid tid ∈ gidMap s)) && (length m =? numCores)%nat && existsb id m
  | OFinish pid tid => with_thread s (getGid pid tid) (fun th =>
      is_state [STARTED; OUT; BLOCKED] th || is_state [QUEUED] th && bool_decide (getGid pid tid ∈ runQueue (queues s)))
  | OJoin pid tid => with_thread s (getGid pid tid) (fun th => comes_back_b th &&
      (negb (bool_decide (fj_action (futexJoin th) = FJA_WAKE)) || wake_ok (futexes s) th))
  | OJoinMatched pid tid _ => with_thread s (getGid pid tid) comes_back_b
  | OLeave pid tid c => with_thread s (getGid pid tid) (executing_b s c (getGid pid tid))
  | OSync c => if contexts s !! c ≫= curThread is Some g
               then with_thread s g (fun th => executing_b s c g th && negb (markedForSleep th)) else false
  | OHandoff g => with_thread s g (fun th => negb (bool_decide (handoffThread th = None)))
  | OMarkForSleep pid tid w => with_thread s (getGid pid tid) (fun th =>
      executing_b s (cid th) (getGid pid tid) th && negb (markedForSleep th) && (curPhase s <? w))
  | OSleepEnd pid tid => with_thread s (getGid pid tid) (is_state [SLEEPING; BLOCKED])
  | OSyscallLeave pid tid c _ _ _ _ => with_thread s (getGid pid tid) (executing_b s c (getGid pid tid)) && (pid <? Z.of_nat MAX_THREADS)
  | OFutexWakeStart pid tid _ => with_thread s (getGid pid tid) (fun th => settled_b th && bool_decide (fj_action (futexJoin th) = FJA_NONE))
  | OFutexWakeEnd pid tid _ => with_thread s (getGid pid tid) settled_b
  | OFutexWaitWoken pid tid => with_thread s (getGid pid tid) settled_b
  | OUpdateMask pid tid m =>
      if threads s !! getGid pid tid is Some th then (length m =? numCores)%nat && existsb id m && mask_fits_b s (getGid pid tid) th m else true
  | OWatchdogDrive _ => if head (sleepQueue (queues s)) is Some g then wk (threads s) g <? two64 else true
  | OWatchdogStall _ => if head (fakeLeaves s) is Some g
      then forallb (fun x => (getPid x =? getPid g) && (getGid (getPid g) (getTid x) =? x)) (fakeLeaves s) else true
  end.

Fixpoint run_ops (l : list Op) : M St unit :=
  match l with [] => mret tt | o :: l => exec o;; run_ops l end.
Fixpoint disciplined (l : list Op) s : bool :=
  match l with
  | [] => true
  | o :: l => op_ready o s && match exec o s with Ok (_, s') => disciplined l s' | Err _ => true end
  end.

(** The threads that have been on a context that their mask does not allow since [updateMask] took
    it from the mask, with [w] those at the start. *)
Definition on_context s (g : Z) : bool := with_thread s g (is_state [RUNNING; OUT]).
Definition lost_by (o : Op) s : gset Z :=
  match o with
  | OUpdateMask pid tid m => if with_thread s (getGid pid tid) (fun th => loses th m) then {[getGid pid tid]} else ∅
  | _ => ∅
  end.
Fixpoint lost (w : gset Z) (l : list Op) s : gset Z :=
  match l with
  | [] => w
  | o :: l => match exec o s with
              | Ok (_, s') => lost (filter (fun g => on_context s' g = true) (lost_by o s ∪ w)) l s'
              | Err _ => w
              end
  end.

Definition boot (par : Z) (li : nat -> nat) (rb : RB) (rs : RS) : St := init numCores (Bar.init par li rb) rs.

(** ** Every step keeps the invariant *)
Hypothesis HNC : (numCores <= MAX_THREADS)%nat.
Hypothesis HrandB : forall r n, (fst (randB r n) <= n)%nat.
Hypothesis HrandS : forall r n, (fst (randS r n) <= n)%nat.
Hypothesis Hsq : 0 < schedQuantum.
#[local] Instance laws : BarrierLaws (Bar.t RB) := SchB.BarLaws randB HrandB.
Abbreviation GInvW w := (SchI.GInv (B := Bar.t RB) (R := RS) (W := w) numCores).

Lemma with_thread_elim s g f : with_thread s g f = true -> exists th, threads s !! g = Some th /\ f th = true.
Proof. unfold with_thread. destruct (threads s !! g) as [th|]; [eauto|done]. Qed.
Lemma is_state_elim l th : is_state l th = true <-> state th ∈ l.
Proof. apply bool_decide_eq_true. Qed.
Lemma executing_elim s c g th : threads s !! g = Some th -> executing_b s c g th = true -> executing s c g th.
Proof.
  intros Hg. unfold executing_b. destruct (contexts s !! c) as [x|] eqn:Ex; [|done].
  intros [[[[[[Hu Ht]%andb_true_iff Hs]%andb_true_iff Hc]%andb_true_iff Hb]%andb_true_iff Hf]%andb_true_iff Hh]%andb_true_iff.
  apply bool_decide_eq_true in Hu, Ht, Hs, Hf, Hh. apply Nat.eqb_eq in Hc. apply list_elem_of_singleton in Hs.
  split; [|done]. rewrite Ex. destruct x. cbn in *. by subst.
Qed.
Lemma settled_elim th : settled_b th = true -> settled th.
Proof. intros [Hs%negb_true_iff Hh%bool_decide_eq_true]%andb_true_iff. split; [|done]. apply bool_decide_eq_false in Hs. intros E. apply Hs. rewrite E. by left. Qed.
Lemma comes_back_elim th : comes_back_b th = true -> comes_back th.
Proof.
  intros [Hf%negb_true_iff|Hs%is_state_elim]%orb_true_iff; [left; by apply bool_decide_eq_false in Hf|right].
  rewrite !elem_of_cons in Hs. destruct Hs as [?|[?|[?|[?|[]%not_elem_of_nil]]]]; tauto.
Qed.

Lemma is_QUEUED th : is_state [QUEUED] th = bool_decide (state th = QUEUED).
Proof. unfold is_state. apply bool_decide_ext. rewrite elem_of_cons, elem_of_nil. tauto. Qed.

Lemma mask_fits_elim s g th m : mask_fits_b s g th m = true -> mask_fits s g th m.
Proof.
  unfold mask_fits_b. rewrite is_QUEUED. intros Hb Hq. rewrite bool_decide_eq_true_2 in Hb by done. cbn [negb orb] in Hb.
  apply andb_true_iff in Hb as [Hr Hh%bool_decide_eq_true]. split; [|intros v vt Hv; by apply (Hh v)].
  intros Hg c Hc. rewrite bool_decide_eq_true_2 in Hr by done. cbn [negb orb] in Hr. rewrite forallb_forall in Hr.
  specialize (Hr c). rewrite bool_decide_eq_true_2 in Hr by done. apply Hr. apply list_elem_of_In, elem_of_seq. apply lookup_lt_Some in Hc. lia.
Qed.

(** Only the threads that are on a context matter. *)
Lemma narrow_inv (w : gset Z) s : GInvW w no_holes s -> GInvW (filter (fun g => on_context s g = true) w) no_holes s.
Proof.
  intros []. constructor; try done. intros g th Hg. destruct (gi_thr0 g th Hg). constructor; try done. intros Ho.
  destruct (to_on0 Ho) as [? Hm]. split; [done|]. intros Hn. apply Hm. intros Hw. apply Hn. apply elem_of_filter. split; [|done].
  unfold on_context, with_thread. rewrite Hg. apply bool_decide_eq_true. rewrite !elem_of_cons. destruct Ho; tauto.
Qed.

Lemma updateMask_step (w : Remasked) s pid tid m : GInvW w no_holes s -> op_ready (OUpdateMask pid tid m) s = true ->
  wp (updateMask numCores pid tid m) (fun _ s' => GInvW (lost_by (OUpdateMask pid tid m) s ∪ w) no_holes s') s.
Proof.
  intros HI [_ Hr]%andb_true_iff. unfold lost_by, with_thread. destruct (threads s !! getGid pid tid) as [th|] eqn:Hg.
  - apply andb_true_iff in Hr as [[Hm%Nat.eqb_eq He]%andb_true_iff Hf%mask_fits_elim].
    eapply wp_mono; [by eapply (updateMask_spec numCores)|]. intros [] s' HI'. destruct (loses th m); [done|]. by rewrite (left_id_L ∅ (∪)).
  - rewrite (left_id_L ∅ (∪)). unfold wp. by rewrite (updateMask_unknown numCores).
Qed.

Lemma exec_spec o (w : Remasked) s : GInvW w no_holes s -> op_ready o s = true ->
  wp (exec o) (fun _ s' => GInvW (lost_by o s ∪ w) no_holes s') s.
Proof.
  intros HI Hr. assert (Hno : (exists pid tid m, o = OUpdateMask pid tid m) \/ ~ (exists pid tid m, o = OUpdateMask pid tid m)) by (destruct o; naive_solver).
  destruct Hno as [(pid & tid & m & ->)|Hno]; [by apply updateMask_step|].
  assert (lost_by o s ∪ w = w) as -> by (destruct o; try (apply (left_id_L ∅ (∪))); naive_solver).
  apply andb_true_iff in Hr as [Hp%Z.ltb_lt Hr]. assert (Hp1 : curPhase s + 1 < two64) by lia.
  destruct o as [pid tid lp lt m|pid tid|pid tid|pid tid to|pid tid c|c|g|pid tid wu|pid tid|pid tid c pc nr a0 a1|pid tid n|pid tid n|pid tid|pid tid m|stop|ma];
    cbn [exec]; try (apply with_thread_elim in Hr as (th & Hg & Hr)).
  - apply andb_true_iff in Hr as [[Hn%negb_true_iff Hm%Nat.eqb_eq]%andb_true_iff He]. apply bool_decide_eq_false in Hn. by apply start_spec.
  - eapply finish_spec; [done..|]. apply orb_true_iff in Hr as [Hs%is_state_elim|[Hs%is_state_elim Hq%bool_decide_eq_true]%andb_true_iff];
      rewrite !elem_of_cons in Hs; [destruct Hs as [?|[?|[?|[]%not_elem_of_nil]]]; tauto|destruct Hs as [?|[]%not_elem_of_nil]; tauto].
  - apply andb_true_iff in Hr as [Hc%comes_back_elim Hw]. destruct (decide (fj_action (futexJoin th) = FJA_WAKE)) as [E|E].
    + rewrite bool_decide_eq_true_2 in Hw by done. cbn in Hw. apply andb_true_iff in Hw as [[H1%Z.leb_le H2%Z.leb_le]%andb_true_iff H3%Z.leb_le].
      by eapply join_wake_spec.
    + eapply wp_mono; [by eapply join_step_spec|]. by intros [] s' [? _].
  - eapply join_matched_spec; try done. by apply comes_back_elim.
  - eapply wp_mono; [eapply leave_step_spec; try done; by apply executing_elim|]. by intros [] s' [? _].
  - destruct (contexts s !! c ≫= curThread) as [g|]; [|done]. apply with_thread_elim in Hr as (th & Hg & [He Hm%negb_true_iff]%andb_true_iff).
    eapply wp_mono; [eapply sync_step_spec; try done; by apply executing_elim|]. by intros [] s' [? _].
  - destruct (handoffThread th) as [dst|] eqn:E; [|done]. eapply wp_mono; [by eapply sync_handoff_spec|]. by intros [] s' [? _].
  - apply andb_true_iff in Hr as [[He Hm%negb_true_iff]%andb_true_iff Hw%Z.ltb_lt]. eapply markForSleep_spec; try done. by apply executing_elim.
  - eapply wp_mono; [eapply notifySleepEnd_spec; [done..|]|by intros [] s' [? _]]. apply is_state_elim in Hr. rewrite !elem_of_cons in Hr.
    destruct Hr as [?|[?|[]%not_elem_of_nil]]; tauto.
  - apply andb_true_iff in Hr as [Hr Hpid%Z.ltb_lt]. apply with_thread_elim in Hr as (th & Hg & Hr). eapply syscallLeave_spec; try done. by apply executing_elim.
  - apply andb_true_iff in Hr as [Hs%settled_elim Ha%bool_decide_eq_true]. by eapply notify_spec.
  - apply settled_elim in Hr. by eapply notify_spec.
  - apply settled_elim in Hr. by eapply notify_spec.
  - destruct Hno. eauto.
  - unfold wp. enough (HW : wp (watchdog_drive randS numCores schedQuantum phaseLength atSyncFunc (idle_phases s) stop) (fun _ s' => GInvW w no_holes s') s) by exact HW.
    eapply wp_mono; [apply watchdog_drive_spec; try done|by intros [] s' [? _]]. intros g Eg. rewrite Eg in Hr. by apply Z.ltb_lt.
  - apply watchdog_stall_spec; try done; [|lia]. intros g Eg. rewrite Eg in Hr. apply list.Forall_forall. intros x Hx.
    rewrite forallb_forall in Hr. specialize (Hr x ltac:(by apply list_elem_of_In)). apply andb_true_iff in Hr as [?%Z.eqb_eq ?%Z.eqb_eq]. done.
Qed.

Lemma run_steps_spec l : forall (w : gset Z) s, GInvW w no_holes s -> disciplined l s = true ->
  wp (run_ops l) (fun _ s' => GInvW (lost w l s) no_holes s') s.
Proof.
  induction l as [|o l IH]; intros w s HI Hd; [done|]. cbn [run_ops disciplined lost] in *. apply andb_true_iff in Hd as [Hr Hd].
  apply wp_bind. destruct (wp_elim _ _ _ (exec_spec o w s HI Hr)) as ([] & s' & E & HI'). unfold wp at 1. rewrite E in Hd |- *.
  apply IH; [|done]. by apply narrow_inv.
Qed.

Lemma boot_inv par li rb rs : 0 < par -> GInvW (∅ : gset Z) no_holes (boot par li rb rs).
Proof. clear HNC HrandS Hsq randS. intros Hp. apply boot_state_inv; [by apply Bar.init_inv|]. done. Qed.

Lemma run_reached par li rb rs l s :
  0 < par -> disciplined l (boot par li rb rs) = true -> run_ops l (boot par li rb rs) = Ok (tt, s) ->
  GInvW (lost ∅ l (boot par li rb rs)) no_holes s.
Proof.
  intros Hp Hd E. pose proof (boot_inv par li rb rs Hp) as HI. destruct (wp_elim _ _ _ (run_steps_spec l ∅ _ HI Hd)) as ([] & s' & E' & HI'). rewrite E in E'. by injection E' as <-.
Qed.
End Sys.

(** ** The contract *)

(** C7: For any number of cores up to the barrier's limit, any positive quantum and any random
    number generators, every sequence of scheduler operations that threads and the watchdog may
    call runs without failing any assertion or panic of the scheduler, of its lists or of the
    barrier, without dereferencing a null or deleted thread and without indexing out of range, and
    every loop ends.  What they may call is [op_ready]: a thread leaves, synchronizes, sleeps or
    makes a system call while it executes, joins when it is off the contexts, out or in a fake leave
    (a futex waker, when the books cover its wakes), hands off when it is told to and finishes after it
    left; the mask of a thread that is not queued changes at will, to any non-empty mask, that of a queued one only
    to contexts that have a running thread (and the one it is to be handed); a stall is
    broken when the fake leaves are of one process. *)
Theorem scheduler_safe {RB RS} (randB : RB -> nat -> nat * RB) (randS : RS -> nat -> nat * RS)
    numCores schedQuantum phaseLength atSyncFunc procStats par li rb rs l :
  (numCores <= MAX_THREADS)%nat -> (forall r n, (fst (randB r n) <= n)%nat) -> (forall r n, (fst (randS r n) <= n)%nat) ->
  0 < schedQuantum -> 0 < par ->
  disciplined randB randS numCores schedQuantum phaseLength atSyncFunc procStats l (boot numCores par li rb rs) = true ->
  exists s, run_ops randB randS numCores schedQuantum phaseLength atSyncFunc procStats l (boot numCores par li rb rs) = Ok (tt, s).
Proof.
  intros HNC HB HS Hq Hp Hd. pose proof (run_steps_spec randB randS numCores schedQuantum phaseLength atSyncFunc procStats HNC HB HS Hq l) as HW.
  destruct (wp_elim _ _ _ (HW ∅ _ (boot_inv randB numCores HB par li rb rs Hp) Hd)) as ([] & s & E & _). eauto.
Qed.

(** Whether some thread is to hand its context to [g]. *)
Lemma handed_dec (m : gmap Z ThreadInfo) g : Decision (handed m g).
Proof.
  destruct (decide (map_Exists (fun _ t => handoffThread t = Some g) m)) as [E|E]; [left|right]; revert E; unfold map_Exists, handed; naive_solver.
Qed.

Section Reached.
Context {RB RS : Type} (randB : RB -> nat -> nat * RB) (randS : RS -> nat -> nat * RS).
Variables (numCores : nat) (schedQuantum phaseLength : Z) (atSyncFunc procStats : bool) (par : Z) (li : nat -> nat) (rb : RB) (rs : RS).

(** [s] is reached from the start of the simulation. *)
Definition reached (l : list Op) (s : Sched (Bar.t RB) RS) : Prop :=
  (numCores <= MAX_THREADS)%nat /\ (forall r n, (fst (randB r n) <= n)%nat) /\ (forall r n, (fst (randS r n) <= n)%nat) /\
  0 < schedQuantum /\ 0 < par /\
  disciplined randB randS numCores schedQuantum phaseLength atSyncFunc procStats l (boot numCores par li rb rs) = true /\
  run_ops randB randS numCores schedQuantum phaseLength atSyncFunc procStats l (boot numCores par li rb rs) = Ok (tt, s).

(** The threads that have been where their mask does not allow it since it was changed under them. *)
Definition astray (l : list Op) : gset Z :=
  lost randB randS numCores schedQuantum phaseLength atSyncFunc procStats ∅ l (boot numCores par li rb rs).

Lemma reached_GInv l s : reached l s -> exists HB : forall r n, (fst (randB r n) <= n)%nat,
  @GInv (Bar.t RB) RS (ops randB) (laws randB HB) (astray l) numCores no_holes s.
Proof.
  intros (HNC & HB & HS & Hq & Hp & Hd & E). exists HB.
  by apply (run_reached randB randS numCores schedQuantum phaseLength atSyncFunc procStats HNC HB HS Hq par li rb rs l s).
Qed.


(** C9: No context is left unused for want of scheduling, as long as updateMask gives a queued thread only
    contexts that have a running thread, and keeps the one it is to be handed (op_ready; with another mask it is
    not true, see [mask_of_queued_breaks_tick]): in every state that such operations reach, while a thread is in the run queue,
    every context its mask allows has a RUNNING thread; a queued thread that is no longer in the run
    queue has exactly one running thread, which has not reached the end of the phase, that is to hand it
    a context that its mask allows. *)
Theorem work_conserving l s g th : reached l s -> threads s !! g = Some th -> state th = QUEUED ->
  (g ∈ runQueue (queues s) /\ forall c, mask th !! c = Some true ->
     exists v vt, contexts s !! c = Some (used v) /\ threads s !! v = Some vt /\ state vt = RUNNING) \/
  (exists v vt, threads s !! v = Some vt /\ handoffThread vt = Some g /\ state vt = RUNNING /\
     mask th !! cid vt = Some true /\ ~ Bar.arrived (bar s) (cid vt) /\
     forall v' vt', threads s !! v' = Some vt' -> handoffThread vt' = Some g -> v' = v).
Proof.
  intros [HB HI]%reached_GInv Hg Hs. destruct (decide (g ∈ runQueue (queues s))) as [Hq|Hq]; [left|right].
  - split; [done|]. intros c Hc. destruct (gi_work _ _ _ HI g th c Hq Hg Hc) as [Hr|]; [|done].
    destruct (gi_running _ _ _ _ HI Hr) as (v & vt & ? & ? & _ & ?). eauto.
  - destruct (handed_dec (threads s) g) as [(v & vt & Hv & Hh)|Hn].
    + destruct (gi_hand _ _ _ HI v vt g Hv Hh) as (? & ? & _ & gt & Eg & _ & ?). rewrite Hg in Eg. injection Eg as <-.
      exists v, vt. repeat (split; [done|]). intros v' vt' Hv' Hh'. by apply (gi_hinj _ _ _ HI v' vt' v vt g).
    + destruct Hq. apply (to_run _ _ _ _ _ (gi_thr _ _ _ HI g th Hg)). split; [done|]. split; [apply not_elem_of_empty|done].
Qed.

(** C10: In every reached state a core is inside the phase barrier, and has been told to join and
    not yet to leave, exactly when a thread runs on it: a phase waits for exactly the cores that have
    a running thread, and the calls of a core's [join] and [leave] alternate. *)
Theorem cores_follow l s : reached l s -> forall c,
  SchB.inside (bar s) c = running s c /\ joined c (calls s) = Some (running s c).
Proof.
  intros [HB HI]%reached_GInv c. split; [by apply (gi_bar _ _ _ HI)|by apply (gi_core _ _ _ HI)].
Qed.

(** C11: When every scheduled thread is out and some thread sleeps, the watchdog's loop
    ends, and drives the time forward phase by phase: it runs k > 0 phases, and ends either
    in the phase the first sleeper asked for (never later), or before, after the first
    phase at which another thread waits for the lock or the simulation is to terminate
    ([stop], asked after every phase, any answers); if neither ever happens the phase is the
    first sleeper's.  In the phase it ends in, every sleeper is awake (BLOCKED) exactly if
    the phase it asked for has come, and otherwise still asleep. *)
Theorem watchdog_wakes l s g th stop : reached l s -> watchdog_idle s = true ->
  head (sleepQueue (queues s)) = Some g -> threads s !! g = Some th -> wakeupPhase th < two64 ->
  exists s' (k : nat), exec randB randS numCores schedQuantum phaseLength atSyncFunc procStats (OWatchdogDrive stop) s = Ok (tt, s') /\
    (0 < k)%nat /\ curPhase s' = curPhase s + Z.of_nat k /\ curPhase s' <= wakeupPhase th /\
    (forall j, (0 < j < k)%nat -> stop (idle_phases s - j)%nat = false) /\
    (curPhase s' = wakeupPhase th \/ stop (idle_phases s - k)%nat = true) /\
    ((forall n, stop n = false) -> curPhase s' = wakeupPhase th) /\
    forall x t, threads s !! x = Some t -> state t = SLEEPING ->
      exists t', threads s' !! x = Some t' /\ wakeupPhase t' = wakeupPhase t /\
        state t' = if curPhase s' <? wakeupPhase t then SLEEPING else BLOCKED.
Proof.
  intros HR Hid Hh Hg Hw. pose proof (reached_GInv l s HR) as [HB HI]. destruct HR as (HNC & _ & HS & Hq & _).
  pose proof (watchdog_drive_spec (H := ops randB) (BL := laws randB HB) numCores HNC randS HS schedQuantum phaseLength atSyncFunc Hq s stop (idle_phases s) HI ltac:(lia)) as HW.
  destruct (wp_elim _ _ _ (HW ltac:(rewrite Hh; intros x [= <-]; unfold wk; by rewrite Hg))) as ([] & s' & E & _ & HSl & Hend).
  specialize (Hend Hid g Hh). unfold wk in Hend. rewrite Hg in Hend. destruct Hend as (k & Ek & Hle & Hj & Hstop).
  assert (Hlt : curPhase s < wakeupPhase th).
  { pose proof (gi_thr _ _ _ HI g th Hg) as HT. apply (to_wake _ _ _ _ _ HT), (to_sleep _ _ _ _ _ HT).
    destruct (sleepQueue (queues s)); [done|]. injection Hh as ->. by left. }
  exists s', k. split; [exact E|]. split; [lia|]. split; [done|]. split; [lia|]. split; [done|]. split; [|split].
  - destruct Hstop as [?|[_ ?]]; [left; lia|by right].
  - intros Hn. destruct Hstop as [?|[_ Hs]]; [lia|]. by rewrite Hn in Hs.
  - intros x t Hx Hs. destruct (HSl x t Hx ltac:(by eapply on_time_inv)) as (t' & Ht' & Ew & Ho). exists t'. split; [done|]. split; [done|].
    unfold on_time in Ho. by rewrite Ew in Ho.
Qed.

(** A thread that joins (new, back from a system call, or woken) ends up RUNNING on a context
    that its mask allows or that it had kept while it was out, or QUEUED while every context that its mask
    allows has a running thread. *)
Theorem join_places l s pid tid th : reached l s ->
  op_ready numCores (OJoin pid tid) s = true -> threads s !! getGid pid tid = Some th -> fj_action (futexJoin th) <> FJA_WAKE ->
  exists s' t, exec randB randS numCores schedQuantum phaseLength atSyncFunc procStats (OJoin pid tid) s = Ok (tt, s') /\
    threads s' !! getGid pid tid = Some t /\ mask t = mask th /\
    (state t = RUNNING /\ (mask t !! cid t = Some true \/ onctx th /\ cid t = cid th) \/
     state t = QUEUED /\ forall c, mask t !! c = Some true -> running s' c = true).
Proof.
  intros HR [Hp%Z.ltb_lt Hr]%andb_true_iff Hg Ha. pose proof (reached_GInv l s HR) as [HB HI]. destruct HR as (HNC & _ & HS & Hq & _).
  apply with_thread_elim in Hr as (th' & Hg' & [Hc%comes_back_elim _]%andb_true_iff). rewrite Hg in Hg'. injection Hg' as <-.
  pose proof (join_step_spec (H := ops randB) (BL := laws randB HB) numCores HNC randS HS schedQuantum phaseLength atSyncFunc procStats Hq s pid tid th HI Hg Hc Ha ltac:(lia)) as HW.
  destruct (wp_elim _ _ _ HW) as ([] & s' & E & _ & [(t & Ht & Em & Hst)|(Ho & t & Ht & Em & Hs & Hcid)]).
  - exists s', t. rewrite Em. split; [done|]. split; [done|]. split; [done|]. destruct Hst as [[? ?]|?]; [left; by split; [|left]|by right].
  - exists s', t. split; [done|]. split; [done|]. split; [done|]. left. split; [done|by right].
Qed.

(** A thread that leaves its core goes to sleep if it was marked for sleep, until the phase it
    asked for (or is awake already when its leaving ended the phase before); otherwise it is OUT,
    keeping its context, or BLOCKED. *)
Theorem leave_effect l s pid tid c th : reached l s ->
  op_ready numCores (OLeave pid tid c) s = true -> threads s !! getGid pid tid = Some th ->
  exists s' t, exec randB randS numCores schedQuantum phaseLength atSyncFunc procStats (OLeave pid tid c) s = Ok (tt, s') /\
    threads s' !! getGid pid tid = Some t /\ markedForSleep t = false /\ mask t = mask th /\
    if markedForSleep th
    then wakeupPhase t = wakeupPhase th /\ (state t = SLEEPING \/ state t = BLOCKED /\ wakeupPhase th = curPhase s + 1)
    else state t = OUT \/ state t = BLOCKED.
Proof.
  intros HR [Hp%Z.ltb_lt Hr]%andb_true_iff Hg. pose proof (reached_GInv l s HR) as [HB HI]. destruct HR as (HNC & _ & HS & Hq & _).
  apply with_thread_elim in Hr as (th' & Hg' & Hr). rewrite Hg in Hg'. injection Hg' as <-.
  apply (executing_elim randB HB) in Hr; [|done].
  pose proof (leave_step_spec (H := ops randB) (BL := laws randB HB) numCores HNC randS HS schedQuantum phaseLength atSyncFunc procStats Hq s pid tid c _ th HI Hr eq_refl ltac:(lia)) as HW.
  destruct (wp_elim _ _ _ HW) as ([] & s' & E & _ & _ & t & Ht & Em & Hmk & Hst). exists s', t. done.
Qed.
End Reached.

(** ** Thread identifiers *)

(** A global thread identifier gives back the process and the thread it was built from, as long
    as both fit in 16 bits. *)
Theorem gid_roundtrip pid tid : 0 <= pid < 65536 -> 0 <= tid < 65536 ->
  getPid (getGid pid tid) = pid /\ getTid (getGid pid tid) = tid.
Proof.
  intros Hp Ht. unfold getPid, getTid, getGid. rewrite Z.shiftl_mul_pow2, u32_small by (unfold two32; lia).
  assert (Hd : Z.land (pid * 2 ^ 16) tid = 0).
  { apply Z.bits_inj'. intros n Hn. rewrite Z.land_spec, Z.bits_0, <- Z.shiftl_mul_pow2 by lia.
    destruct (Z.ltb_spec n 16); [by rewrite Z.shiftl_spec_low|]. rewrite (Z.bits_above_log2 tid n); [apply andb_false_r|lia|].
    destruct (decide (tid = 0)) as [->|]; [cbn; lia|]. apply Z.log2_lt_pow2; [lia|]. apply Z.lt_le_trans with (2 ^ 16); [lia|]. apply Z.pow_le_mono_r; lia. }
  rewrite <- Z.lxor_lor, <- Z.add_nocarry_lxor by done. split.
  - rewrite Z.shiftr_div_pow2 by lia. change (2 ^ 16) with 65536. rewrite Z.div_add_l, Z.div_small by lia. lia.
  - change 65535 with (Z.ones 16). rewrite Z.land_ones by lia. change (2 ^ 16) with 65536. rewrite Z.add_comm, Z.mod_add, Z.mod_small by lia. done.
Qed.

(** ** Concrete runs *)

(** Three threads of a process on two cores: one queues up, is handed a context at the end of the
    first phase; two go to sleep, and the watchdog wakes the first of them. *)
Definition demo_ops : list Op :=
  [OStart 0 1 100 101 [true; true]; OJoin 0 1; OStart 0 2 100 102 [true; true]; OJoin 0 2; OStart 0 3 100 103 [true; true]; OJoin 0 3;
   OSync 0; OSync 1; OHandoff 1; OMarkForSleep 0 3 5; OLeave 0 3 0; OMarkForSleep 0 2 3; OLeave 0 2 1; OLeave 0 1 0;
   OWatchdogDrive (fun _ => false); OJoin 0 2; OSyscallLeave 0 2 1 64 202 0 0; OWatchdogStall (fun _ _ => true); OJoin 0 1; OSleepEnd 0 3; OFinish 0 3].
Definition demo_boot : Sched (Bar.t nat) nat := boot 2 2 (fun _ => 0%nat) 3%nat 5%nat.
Definition demo_run (n : nat) := run_ops Bar.lcg Bar.lcg 2 1 10000 true true (take n demo_ops) demo_boot.
Definition state_of (l : list Op) : Sched (Bar.t nat) nat :=
  match run_ops Bar.lcg Bar.lcg 2 1 10000 true true l demo_boot with Ok (_, s) => s | Err _ => demo_boot end.
Definition demo (n : nat) : Sched (Bar.t nat) nat := state_of (take n demo_ops).

Lemma state_reached l : disciplined Bar.lcg Bar.lcg 2 1 10000 true true l demo_boot = true ->
  reached Bar.lcg Bar.lcg 2 1 10000 true true 2 (fun _ => 0%nat) 3%nat 5%nat l (state_of l).
Proof.
  intros Hd. assert (HM : (2 <= MAX_THREADS)%nat) by (unfold MAX_THREADS; lia).
  assert (HI := run_steps_spec Bar.lcg Bar.lcg 2 1 10000 true true HM Bar.lcg_range Bar.lcg_range ltac:(lia) _ ∅ demo_boot
    (boot_inv Bar.lcg 2 Bar.lcg_range 2 (fun _ => 0%nat) 3%nat 5%nat ltac:(lia)) Hd).
  split; [done|]. split; [exact Bar.lcg_range|]. split; [exact Bar.lcg_range|]. split; [lia|]. split; [lia|].
  split; [exact Hd|]. destruct (wp_elim _ _ _ HI) as ([] & s & E & _). unfold state_of. rewrite E. exact E.
Qed.
Ltac demo_at n := apply (state_reached (take n demo_ops)); vm_compute; reflexivity.
Definition thread_of (n : nat) (g : Z) : ThreadInfo :=
  default (mkThread 0 0 STARTED 0 None 0 false false 0 [] None (mkFutexJoin FJA_NONE 0 0) false) (threads (demo n) !! g).

Lemma scheduler_safe_witness : exists s, demo_run 21 = Ok (tt, s).
Proof.
  apply (scheduler_safe Bar.lcg Bar.lcg 2 1 10000 true true 2 (fun _ => 0%nat) 3%nat 5%nat (take 21 demo_ops)).
  - unfold MAX_THREADS. lia.
  - exact Bar.lcg_range.
  - exact Bar.lcg_range.
  - lia.
  - lia.
  - vm_compute. reflexivity.
Defined.



Lemma work_conserving_witness : state (thread_of 9 1) = QUEUED /\
  (1 ∈ runQueue (queues (demo 9)) \/ exists v vt, threads (demo 9) !! v = Some vt /\ handoffThread vt = Some 1).
Proof.
  split; [vm_compute; reflexivity|].
  destruct (work_conserving Bar.lcg Bar.lcg 2 1 10000 true true 2 (fun _ => 0%nat) 3%nat 5%nat (take 9 demo_ops) (demo 9) 1 (thread_of 9 1))
    as [[Hq _]|(v & vt & Hv & Hh & _)].
  - demo_at 9%nat.
  - vm_compute. reflexivity.
  - vm_compute. reflexivity.
  - left. exact Hq.
  - right. exists v, vt. split; [exact Hv|exact Hh].
Defined.

Lemma cores_follow_witness : joined 0 (calls (demo 14)) = Some false.
Proof.
  destruct (cores_follow Bar.lcg Bar.lcg 2 1 10000 true true 2 (fun _ => 0%nat) 3%nat 5%nat (take 14 demo_ops) (demo 14)) with (c := 0%nat) as [_ E].
  - demo_at 14%nat.
  - rewrite E. vm_compute. reflexivity.
Defined.

Lemma watchdog_wakes_witness : exists (s' : Sched (Bar.t nat) nat) t, threads s' !! 3 = Some t /\ curPhase s' = 3 /\ state t = SLEEPING.
Proof.
  destruct (watchdog_wakes Bar.lcg Bar.lcg 2 1 10000 true true 2 (fun _ => 0%nat) 3%nat 5%nat (take 14 demo_ops) (demo 14) 2 (thread_of 14 2) (fun _ => false))
    as (s' & k & _ & _ & _ & _ & _ & _ & Hp & Hs).
  - demo_at 14%nat.
  - vm_compute. reflexivity.
  - vm_compute. reflexivity.
  - vm_compute. reflexivity.
  - vm_compute. reflexivity.
  - specialize (Hp (fun _ => eq_refl)). destruct (Hs 3 (thread_of 14 3)) as (t & Et & _ & Est); [vm_compute; reflexivity..|]. rewrite Hp in Est.
    exists s', t. split; [exact Et|]. split; [rewrite Hp; vm_compute; reflexivity|]. rewrite Est. vm_compute. reflexivity.
Defined.

Lemma join_places_witness : exists (s' : Sched (Bar.t nat) nat) t, threads s' !! 2 = Some t /\
  (state t = RUNNING \/ state t = QUEUED /\ running s' 0 = true).
Proof.
  destruct (join_places Bar.lcg Bar.lcg 2 1 10000 true true 2 (fun _ => 0%nat) 3%nat 5%nat (take 15 demo_ops) (demo 15) 0 2 (thread_of 15 2))
    as (s' & t & _ & Et & Em & Hst).
  - demo_at 15%nat.
  - vm_compute. reflexivity.
  - vm_compute. reflexivity.
  - vm_compute. discriminate.
  - exists s', t. split; [exact Et|]. destruct Hst as [[Hs _]|[Hs Hr]]; [left; exact Hs|right]. split; [exact Hs|].
    apply Hr. rewrite Em. vm_compute. reflexivity.
Defined.

Lemma leave_effect_witness : exists (s' : Sched (Bar.t nat) nat) t, threads s' !! 3 = Some t /\ state t = SLEEPING /\ wakeupPhase t = 5.
Proof.
  destruct (leave_effect Bar.lcg Bar.lcg 2 1 10000 true true 2 (fun _ => 0%nat) 3%nat 5%nat (take 10 demo_ops) (demo 10) 0 3 0 (thread_of 10 3))
    as (s' & t & _ & Et & _ & _ & Hst).
  - demo_at 10%nat.
  - vm_compute. reflexivity.
  - vm_compute. reflexivity.
  - exists s', t. split; [exact Et|]. change (markedForSleep (thread_of 10 3)) with true in Hst. cbv iota in Hst. destruct Hst as [Hw [Hs|[_ Hp]]].
    + split; [exact Hs|]. rewrite Hw. vm_compute. reflexivity.
    + vm_compute in Hp. discriminate Hp.
Defined.

Lemma gid_roundtrip_witness : getPid (getGid 7 12) = 7 /\ getTid (getGid 7 12) = 12.
Proof. apply gid_roundtrip; lia. Defined.

(** ** Where the contract ends *)

(** [updateMask] may be called on a queued thread, and the run queue is not looked at again: when
    the new mask allows an idle context, the time slice at the end of the phase finds no thread to
    preempt there and [assert(victimTh)] fails. *)
Theorem mask_of_queued_breaks_tick :
  run_ops Bar.lcg Bar.lcg 2 1 10000 true true
    [OStart 0 1 100 101 [true; false]; OJoin 0 1; OStart 0 2 100 102 [true; false]; OJoin 0 2;
     OUpdateMask 0 2 [false; true]; OSync 0] demo_boot = Err (Panic "victimTh").
Proof. vm_compute. reflexivity. Qed.

(** The operations with which thread [tid] of process [pid] starts, joins and goes into a fake
    leave on core [c]. *)
Definition into_fake (n : nat) (pid tid : Z) (c : nat) : list Op :=
  [OStart pid tid 100 tid (replicate n true); OJoin pid tid; OSyscallLeave pid tid c 64 202 0 0].

(** The watchdog's loop over the fake leaves at the same program counter compares the process of
    the thread it has just handled, not that of the next one: with ten fake leaves, the first in
    process 0 and the others in process 1, it leaves for a thread of process 1 under process 0, and
    [assert(th->gid == gid)] fails. *)
Theorem stall_mixes_processes :
  run_ops Bar.lcg Bar.lcg 10 1 10000 true true
    (into_fake 10 0 1 0 ++ concat (map (fun i => into_fake 10 1 (Z.of_nat i) i) (seq 1 9)) ++ [OWatchdogStall (fun _ _ => true)])
    (boot 10 10 (fun _ => 0%nat) 3%nat 5%nat) = Err (Panic "th->gid == gid").
Proof. vm_compute. reflexivity. Qed.

(** When the watchdog turns a fake leave into a leave it frees the lock in between: if the thread
    comes back from its system call just then, its [join] finds it RUNNING and
    [assert(th->state == BLOCKED || th->state == STARTED)] fails. *)
Theorem stall_races_join :
  (run_ops Bar.lcg Bar.lcg 2 1 10000 true true (into_fake 2 0 1 0);; finishFakeLeave (getGid 0 1);;
   exec Bar.lcg Bar.lcg 2 1 10000 true true (OJoin 0 1)) demo_boot = Err (Panic "BLOCKED or STARTED").
Proof. vm_compute. reflexivity. Qed.
End SchM.
